(* ===== verification/_CoqProject ===== *)
-Q . S2P
Prelude.v
Identifiers.v
Lifecycle.v
TransitionTable.v
Events.v
Replay.v
Upcaster.v
EventSourcing.v
KeyEncoding.v
Keyspace.v
Database.v
Effects.v
EventStore.v
InstanceIndex.v
Snapshots.v
Timers.v
Dedupe.v
Commits.v
Lease.v
FjallLease.v
Workflow.v
Selection.v
CircuitBreaker.v
Admission.v
Compensation.v
CompensationOrder.v
Coordinators.v
WriteQueues.v
BudgetSaga.v
Heaps.v
RedBlackTree.v
Spsc.v
Ipc.v
Jobs.v
Scheduler.v
Locks.v
HashRing.v
Shedding.v
Reanimator.v
Lineage.v
CommandHistory.v
Floats.v
Projection.v
RecoveryQueue.v
Pool.v
Semaphores.v
Signals.v
ActorLifecycle.v
SpawnSupervisor.v
TimerSupervisor.v
Workspaces.v
Sdk.v
