(* ===== verification/Prelude.v ===== *)
(** * vo-engine: a verification development

    vo-engine runs durable workflows. A workflow is a DAG of steps; every instance of
    it is an append-only log of events, and its state is what replaying the log
    through a lifecycle state machine gives. Workers take leases on steps, fenced by
    monotone tokens; effects are journalled and compensated; storage is a set of ordered
    key spaces written in atomic batches; commands are deduplicated, writes queued by
    class under budgets, and registrations of workflow binaries pass a circuit breaker.
    The Rust sources are the crates under [src/crates/]; this library models the
    core of [vo-types], [vo-core] and [vo-storage], and the schedulers, queues and stores
    of [vo-scheduler], [vo-worker], [vo-ipc] and [vo-actor].

    ** Files, in dependency order

    The core.
    - [Prelude]: results and the [?] operator, machine integers (a [uN] is a [Z] with
      its range; casts and release-profile additions wrap), positional digits, and the
      list, set and relation lemmas the components share.
    - [Identifiers] ([vo-types/src/string_types.rs], [integer_types.rs], [types.rs],
      [errors.rs]): the validated newtypes and their parsers. The [ulid] crate is the
      class [UlidApi] with its documented laws [UlidLaws]; [ConcreteUlid] is an instance
      in Crockford base 32 that proves the laws.
    - [Lifecycle] ([vo-types/src/state/lifecycle.rs], [transition.rs]): states, events,
      [apply], superstates and the valid-transition lists; runs and reachability.
    - [TransitionTable] ([vo-types/src/state/compiler/]): guards, side effects, rules,
      the table and its builder, and the lifecycle table built with it.
    - [Events] ([vo-types/src/events/], [payload_parser.rs]): payloads and their decoder
      from JSON; [serde_json] is the class [JsonApi], with a concrete instance.
    - [Replay] ([vo-core/src/replay/engine.rs], [types.rs]): the replay engine.
    - [EventSourcing] ([vo-core/src/replay/event_sourcing_engine/], [snapshot_compat.rs]):
      recovery with snapshots over the interface [SnapshotStore], whose laws the
      in-memory store discharges.

    Storage.
    - [KeyEncoding] ([vo-storage/src/key_encoding/mod.rs]): byte layouts of the keys.
    - [Keyspace], [Database]: the [fjall] database as the classes [FjallApi] (a key
      space: get, insert, remove, ordered scans) and [DatabaseApi] (named key spaces and
      atomic batches), with their documented laws; [serde_json] and [zstd] likewise.
      Concrete instances over finite maps prove the laws.
    - [Effects] ([vo-types/src/effects/], [vo-storage/src/effect_journal/]): effect
      intents and records, and the in-memory and the durable journal, both instances of
      the class [EffectJournal].
    - [EventStore] ([vo-storage/src/event_store/], [hot_spot.rs]): the in-memory and the
      durable event store, both instances of [EventStore]; hot-spot detection.
    - [InstanceIndex] ([vo-storage/src/instance_index/], [vo-types/src/instance_status.rs]),
      [Snapshots] ([vo-storage/src/snapshots/]), [Timers]
      ([vo-storage/src/timer_index/]): the secondary key spaces.
    - [Dedupe] ([vo-types/src/dedupe.rs], [vo-storage/src/dedupe_partition/],
      [vo-core/src/command_dedup.rs]): keys, both stores, the check of a command.
    - [Commits] ([vo-storage/src/atomic_wait_commit.rs], [event_summary_commit.rs],
      [admission_commit.rs]): the operations that write several key spaces in one batch,
      composed of the components above.
    - [Lease] ([vo-core/src/lease_calc/], [vo-storage/src/lease_partition/]): the lease
      state machine and the in-memory lease store with its fence counters; [FjallLease]:
      the durable lease store.

    Workflows and their control.
    - [Workflow] ([vo-types/src/workflow/]): workflow definitions and their validation;
      [semver] is the class [SemverApi].
    - [Selection] ([vo-types/src/dependency_graph_resolver.rs], [next_step_selection.rs],
      [edge_tracking.rs]): dependencies, ready nodes, layers, selection of the next
      step, fan-in.
    - [CircuitBreaker] ([vo-core/src/circuit_breaker/]): failure window, rate limit,
      quarantine.
    - [Admission] ([vo-types/src/workload_class.rs], [vo-core/src/admission/]): workload
      classes, the pressure check, the slot budget.
    - [Compensation] ([vo-types/src/compensation.rs],
      [vo-storage/src/compensation_saga.rs]): the compensation machine and manifest.
    - [CompensationOrder] ([vo-core/src/compensation_order/topology.rs]): the topological
      order of compensations.
    - [Coordinators] ([vo-types/src/saga_coordinator.rs], [tx_coordinator/types.rs]): the
      saga and two-phase-commit machines.
    - [WriteQueues] ([vo-storage/src/append/]) and [BudgetSaga]
      ([vo-storage/src/budget_saga/]): the classed write queues with their budgets, and
      the staged writes over them.
    - [Heaps] ([vo-types/src/skew_heap.rs], [binomial_heap.rs]): two priority queues
      behind one interface.

    Around the core.
    - [Upcaster] ([vo-core/src/upcaster/], [vo-types/src/events/upcaster.rs]): both
      registries of event upcasters and the chains they build.
    - [RedBlackTree] ([vo-core/src/red_black_tree/]): the left-leaning red-black tree,
      with the panics of its rotations as values.
    - [Spsc] ([vo-ipc/src/spsc.rs]): the lock-free single-producer single-consumer
      queue, as whole calls and as a step relation over the accesses of the two sides,
      under sequential consistency (the code's acquire and release pairs give the
      indices at least the order the steps use).
    - [Ipc] ([vo-ipc/src/envelope.rs]): framing and validation of envelopes over a
      stream that delivers bytes in pieces and may fail.
    - [Jobs] ([vo-scheduler/src/types/], [queue.rs], [api.rs]): jobs, retry policies,
      cron validation and the job queue; [std]'s heap is the class [BinaryHeap].
    - [Scheduler] ([vo-scheduler/src/scheduler.rs]): the background scheduler in a small
      state and error monad, over the interfaces [JobStore] and [WorkerDispatch].
    - [Locks] ([vo-worker/src/lib.rs], [lock_storage/]): the lock storage and the
      wait-for graph; the iteration order of hash maps is the class [HashOrder].
    - [HashRing] ([vo-worker/src/pool/hash_ring.rs]): consistent hashing.
    - [Shedding] ([vo-core/src/shedding.rs], [write_class.rs]): the load shedding
      semaphore over the class [SemaphoreApi], and the write budget.
    - [Reanimator] ([vo-actor/src/reanimator/], [work_queue.rs]): the task that resumes
      instances when their timers are due, its concurrent cycles as interleaved steps
      over the interfaces [TimerStorage] and [WorkQueue], with crashes and recovery.
    - [Lineage] ([vo-core/src/lineage_projection/]): epochs of long-lived workflows,
      routing, continue-as-new, projection rebuilds, compensation over epochs.
    - [CommandHistory] ([vo-types/src/command_history/]): undo and redo.
    - [Projection] ([vo-core/src/replay/projection/]): the token bucket that throttles
      rebuilds, the engine's slots, rebuilds with progress in binary64, states.
    - [RecoveryQueue] ([vo-core/src/admission/recovery_queue.rs]): crashed instances
      that wait for another execution.
    - [Floats]: the binary64 casts and operations the components use, and that comparing a
      quotient of counts with one half is exact below [2^53].
    - [Pool] ([vo-worker/src/pool/]): the connection pool and its circuit breaker.
    - [Semaphores] ([vo-actor/src/semaphore/]): the limit on running binaries with the
      pool for recovery, and the limits per workflow, as interleaved steps.
    - [Signals] ([vo-actor/src/lib.rs], [signals/], [signal_buffer.rs]): the control
      actor over the interfaces [SignalStorage] and [SignalWorkQueue], and the buffer.
    - [ActorLifecycle] ([vo-actor/src/instance_registry.rs], [lifecycle/]): the registry
      of running actors, their states and children, and the ordered shutdown.
    - [SpawnSupervisor] ([vo-actor/src/spawn_supervisor/]): starting, checking and
      restarting processes, in a state monad over storage and environment interfaces.
    - [TimerSupervisor] ([vo-actor/src/timer_supervisor/], [timer_lifecycle.rs]): the
      older timer task and the timers of an instance.
    - [Workspaces] ([vo-types/src/workspace/]): the tree of workspaces with its index of
      paths, in a state and error monad.
    - [Sdk] ([vo-sdk/src/dag.rs], [graph.rs]): the workflow builder and the graph it
      emits; the searches for cycles are instances of one search.

    ** How the code is represented

    Pure functions are functions; methods that mutate return the new state; [Result] is
    [result] and [?] is [let?]. A function that can panic returns an [option] whose
    [None] is the panic. Hash maps and sets are [gmap] and [gset]; where the code
    iterates over one, the order stands for the unspecified order of the original and no
    theorem depends on it. Clocks, randomness and callbacks are inputs or outputs. An
    operation that holds a lock for its whole body is one step; one that releases it in
    between is one step per locked section. Text that the code only formats into an
    error message is kept as the data it is formatted from.

    ** What the theorems show

    Events: a payload is decoded exactly when its fields are there. Replay: it succeeds
    exactly with the run of the lifecycle machine over the decoded log up to its end, for
    one instance and consecutive sequence numbers; errors are located; replay
    is incremental; recovery from a snapshot, by contrast, ignores the snapshotted
    state. Lifecycle and table: terminal states, reachability, bounds on runs, agreement
    of the table and of the published transition lists with [apply]. Keys: round trips,
    order of scans, exactness of prefixes, the limits of the [u16] length. Leases: the
    in-memory store refines a contract without string keys, tokens are consecutive,
    leases are exclusive until they expire, other tokens are stale; the durable store
    keeps only the numbering of the tokens. Stores: for events, effects and
    deduplication, the in-memory and the durable implementation refine one abstract
    contract on every sequence of calls, and clients (replay of stored logs, commands
    admitted once, effects settled once) are proved against the contract. Index,
    snapshots, timers: scans list exactly what was written, in order; compaction keeps
    the latest; polls take exactly the due timers. Commits: what each batch writes on
    every branch, that a workflow is admitted once per window, and what a suspension
    leaves unreadable. Workflows: validation accepts exactly the well-formed definitions
    and its errors are real. Selection: the step selected is the first ready node, and
    a validated workflow has one until it is finished when no outcome restricts it;
    layers, fan-in, attempt numbers and transitive dependencies. Circuit breaker: the
    window refines a map, quarantine happens exactly at the threshold and holds until
    lifted, allowed registrations are spaced. Compensation: terminal entries are final,
    which order can be executed, and the topological order with its errors.
    Coordinators: agreement and finality. Queues and budgets: order, depth and bytes
    over every run; the durable manifest refines the one in memory. Admission: slot
    invariants. Heaps: both refine sorted lists.
    Upcasting ends and composes the registered upcasters. Tree: insertions refine an
    ordered map and keep the balance; what deletion does instead. Spsc: every
    interleaving refines a bounded queue, without races. Ipc: frames keep messages apart
    whatever the pieces, and each read decodes its own frame; reading any stream is bounded. Jobs and scheduler: the
    order of the queue, final states, cron fields; a tick dispatches what is due, the
    store mirrors the queue, dispatches are bounded by the retry policy. Locks: mutual
    exclusion, and deadlock detection reports exactly the cycles and what they wait for.
    Ring: changes of membership move only the keys they must. Shedding: permits and
    budgets are accounted for. Reanimator: under every interleaving, failure and crash a
    timer resumes its instance at most once; without failures a cycle resumes all that
    is due; recovery forgets nothing recent. Lineage: what a rollover does on every
    branch, which logs rebuild, the order of compensations. History: undo and redo.
    Projections: what the throttle lets through, what a rebuild computes, how states
    change. Recovery queue: it refines a map, and loses and repeats no instance.
    Pool: connections are exclusive, the breaker trips on the true failure rate.
    Semaphores: permits and counters are accounted for under every interleaving, and
    tasks of one workflow share one semaphore. Signals: an accepted signal is stored and
    queued once, and the buffer refines queues while no queue is full. Actors: an instance has one running actor
    and shutdown runs in reverse. Spawning: starts are bounded. Timer supervisor: a cycle
    accounts for every timer. Workspaces: every run keeps a forest, and without moves the
    path index is exact. Sdk: what is built, validated and read is what the
    calls drew.

    ** Fuel

    The searches of [Workflow] and [Selection] recurse on fuel. [dfs_cycle] gets one
    more than nodes and edges together, a bound on the names that can be on the path;
    [bfs] gets nodes plus edges, a bound on insertions into the queue;
    [transitive_loop] one more than the edges; [layers_loop] one turn per node.
    [kahn_loop] of [CompensationOrder] gets one turn per node and one more; [merge_fuel]
    of [Heaps] one more than the sizes of both heaps; draining a heap its length.
    [build_loop] of [Upcaster] gets one more than the registered upcasters, [upcast_loop]
    the difference of the versions; [del] and [del_min] the number of nodes; [drop_loop]
    the capacity; [fill_loop] the bytes that are missing; [pop_loop] the entries of the
    heap; [peel_loop] twice the wait edges and one more; the loops of [Workspaces] and
    the searches of [Sdk] the number of nodes. In each
    case it is proved that the search ends before the fuel does, and the theorems are
    about the unconditional result. Everything else is structurally recursive.

    ** Not modelled

    The rest of the actor, worker, scheduler and IPC crates, the HTTP API, command
    line, SDK, linter and frontend (I/O and glue); blobs, the projection
    partition, archives and encryption; the metrics and the pressure guard of admission;
    the timer index's bloom filter; the message bus; workload
    budgets (their source calls a function that is not there); the token bucket; other
    generic data structures;
    [RetryPolicy::calculate_backoff_delay] (it depends on [powi], whose
    precision is unspecified). Planned next: the
    token bucket and the pressure guard of admission. *)

From stdpp Require Export base tactics numbers list strings gmap pretty relations.
From Stdlib Require Export ZArith Lia.

#[global] Open Scope Z_scope.

(** ** Results

    Rust's [Result<T, E>]; the error type comes first, as in the sources'
    signatures read from the [?] operator. *)

Inductive result (E A : Type) : Type :=
| Ok (a : A)
| Err (e : E).
Arguments Ok {E A} a.
Arguments Err {E A} e.

Definition rbind {E A B} (r : result E A) (k : A -> result E B) : result E B :=
  match r with Ok a => k a | Err e => Err e end.

(** [r.map_err(f)]. *)
Definition map_err {E E' A} (f : E -> E') (r : result E A) : result E' A :=
  match r with Ok a => Ok a | Err e => Err (f e) end.

(** [o.ok_or(e)]. *)
Definition ok_or {E A} (o : option A) (e : E) : result E A :=
  match o with Some a => Ok a | None => Err e end.

Definition is_ok {E A} (r : result E A) : bool :=
  match r with Ok _ => true | Err _ => false end.

Declare Scope vo_scope.
Delimit Scope vo_scope with vo.
#[global] Open Scope vo_scope.

(** The [?] operator: [let? x := c in k] is [let x = c?; k]. *)
Notation "'let?' x ':=' c 'in' k" := (rbind c (fun x => k))
  (at level 10, x pattern, c at level 100, k at level 200) : vo_scope.

(** [iter().try_for_each(f)]: stop at the first error. *)
Fixpoint try_for_each {E A} (f : A -> result E unit) (l : list A) : result E unit :=
  match l with
  | [] => Ok tt
  | x :: l' => let? _ := f x in try_for_each f l'
  end.

(** [iter().map(f).collect::<Result<Vec<_>, _>>()]. *)
Fixpoint collect_result {E A B} (f : A -> result E B) (l : list A) : result E (list B) :=
  match l with
  | [] => Ok []
  | x :: l' => let? y := f x in let? ys := collect_result f l' in Ok (y :: ys)
  end.

(** [iter().find_map(f)]. *)
Fixpoint find_map {A B} (f : A -> option B) (l : list A) : option B :=
  match l with
  | [] => None
  | x :: l' => match f x with Some y => Some y | None => find_map f l' end
  end.

(** ** Machine integers

    A [uN] is a [Z] with its range; the plain [+] of the release profile (the
    workspace sets no [overflow-checks]) wraps. *)

Definition u8_max : Z := 255.
Definition u16_max : Z := 65535.
Definition u32_max : Z := 4294967295.
Definition u64_max : Z := 18446744073709551615.

Definition is_u8 (z : Z) : Prop := 0 <= z <= u8_max.
Definition is_u16 (z : Z) : Prop := 0 <= z <= u16_max.
Definition is_u32 (z : Z) : Prop := 0 <= z <= u32_max.
Definition is_u64 (z : Z) : Prop := 0 <= z <= u64_max.

(** [as uN]. *)
Definition as_u8 (z : Z) : Z := z mod (u8_max + 1).
Definition as_u16 (z : Z) : Z := z mod (u16_max + 1).
Definition as_u32 (z : Z) : Z := z mod (u32_max + 1).
Definition as_u64 (z : Z) : Z := z mod (u64_max + 1).

Definition wrapping_add_u64 (a b : Z) : Z := as_u64 (a + b).
Definition wrapping_add_u32 (a b : Z) : Z := as_u32 (a + b).
Definition checked_add_u64 (a b : Z) : option Z :=
  if a + b <=? u64_max then Some (a + b) else None.
Definition saturating_add_u64 (a b : Z) : Z := Z.min (a + b) u64_max.

(** ** Automation *)

Create HintDb vo.
Create Rewrite HintDb vo.

#[export] Hint Unfold is_u8 is_u16 is_u32 is_u64 u8_max u16_max u32_max u64_max : vo.

Ltac unfold_u :=
  unfold wrapping_add_u64, wrapping_add_u32, checked_add_u64, saturating_add_u64,
    as_u8, as_u16, as_u32, as_u64, is_u8, is_u16, is_u32, is_u64,
    u8_max, u16_max, u32_max, u64_max in *.

(** Arithmetic over machine integers. *)
Ltac ulia := unfold_u; lia.

(** Case on the scrutinee of a [match]/[if] of the goal or of a hypothesis. *)
Ltac case_match_in H :=
  match type of H with
  | context [match ?x with _ => _ end] => destruct x eqn:?
  end.

(** Take a successful run of [?]-chained code apart. *)
Ltac inv_ok :=
  repeat match goal with
  | H : Ok _ = Ok _ |- _ => injection H as H
  | H : Err _ = Err _ |- _ => injection H as H
  | H : Ok _ = Err _ |- _ => discriminate H
  | H : Err _ = Ok _ |- _ => discriminate H
  | H : rbind ?c _ = _ |- _ =>
      let E := fresh "E" in destruct c eqn:E; cbn [rbind] in H; [| try discriminate H]
  end.

(** ** Generic lemmas *)

Lemma rbind_ok {E A B} (r : result E A) (k : A -> result E B) b :
  rbind r k = Ok b <-> exists a, r = Ok a /\ k a = Ok b.
Proof. destruct r; cbn; naive_solver. Qed.

Lemma map_err_ok {E E' A} (f : E -> E') (r : result E A) a :
  map_err f r = Ok a <-> r = Ok a.
Proof. destruct r; cbn; naive_solver. Qed.

Lemma try_for_each_ok {E A} (f : A -> result E unit) l :
  try_for_each f l = Ok tt <-> Forall (fun x => f x = Ok tt) l.
Proof.
  induction l as [|x l IH]; cbn.
  - by split; [constructor|].
  - rewrite Forall_cons, <- IH. destruct (f x) as [[]|]; cbn; naive_solver.
Qed.

Lemma try_for_each_err {E A} (f : A -> result E unit) l e :
  try_for_each f l = Err e -> exists x, x ∈ l /\ f x = Err e.
Proof.
  induction l as [|x l IH]; cbn; [done|]. destruct (f x) as [[]|e'] eqn:Hf; cbn.
  - intros (y & Hy & ?)%IH. exists y. split; [by right|done].
  - intros [= ->]. exists x. split; [left|done].
Qed.

Lemma omap_ext_in {A B} (f g : A -> option B) (l : list A) :
  (forall x, x ∈ l -> f x = g x) -> omap f l = omap g l.
Proof.
  induction l as [|x l IH]; intros H; [done|]. csimpl. rewrite (H x) by left.
  rewrite IH by (intros; apply H; by right). done.
Qed.

Lemma filter_all {A} (P : A -> Prop) `{!forall x, Decision (P x)} (l : list A) :
  Forall P l -> base.filter P l = l.
Proof. induction 1; [done|]. rewrite filter_cons_True by done. by f_equal. Qed.

Lemma filter_true {A} (P : A -> Prop) `{!forall x, Decision (P x)} (l : list A) :
  (forall x, P x) -> base.filter P l = l.
Proof. intros HP. apply filter_all. by apply Forall_true. Qed.

Lemma forallb_Forall {A} (p : A -> bool) (l : list A) :
  forallb p l = true <-> Forall (fun x => p x = true) l.
Proof.
  induction l as [|x l IH]; cbn; [by split|]. rewrite andb_true_iff, Forall_cons. naive_solver.
Qed.

Lemma collect_result_ok {E A B} (f : A -> result E B) (g : A -> B) l :
  (forall x, x ∈ l -> f x = Ok (g x)) -> collect_result f l = Ok (g <$> l).
Proof.
  induction l as [|x l IH]; intros H; cbn; [done|]. rewrite H by left. cbn.
  rewrite IH by (intros; apply H; by right). done.
Qed.

Lemma fmap_filter_omap {A B} (P : A -> Prop) `{!forall x, Decision (P x)} (f : A -> B)
    (l : list A) :
  f <$> base.filter P l = omap (fun x => if decide (P x) then Some (f x) else None) l.
Proof.
  induction l as [|x l IH]; [done|]. rewrite filter_cons. csimpl.
  case_decide; csimpl; by rewrite IH.
Qed.

Lemma omap_fmap {A B C} (f : A -> B) (g : B -> option C) (l : list A) :
  omap g (f <$> l) = omap (g ∘ f) l.
Proof. induction l as [|x l IH]; [done|]. csimpl. by rewrite IH. Qed.

Lemma find_map_none {A B} (f : A -> option B) l :
  find_map f l = None <-> Forall (fun x => f x = None) l.
Proof.
  induction l as [|x l IH]; cbn; [by split; [constructor|]|].
  rewrite Forall_cons, <- IH. destruct (f x); naive_solver.
Qed.

Lemma wrapping_add_u64_small a b : 0 <= a + b <= u64_max -> wrapping_add_u64 a b = a + b.
Proof. intros. unfold wrapping_add_u64, as_u64. apply Z.mod_small. lia. Qed.

Lemma checked_add_u64_some a b c :
  checked_add_u64 a b = Some c <-> c = a + b /\ a + b <= u64_max.
Proof. unfold checked_add_u64. case_match; naive_solver lia. Qed.

(** ** Positional numerals

    The [n] most significant-first digits of a number, and back. *)

Fixpoint digits (base : Z) (n : nat) (z : Z) : list Z :=
  match n with
  | O => []
  | S n' => (z / base ^ Z.of_nat n') mod base :: digits base n' z
  end.

Definition undigits (base : Z) (ds : list Z) : Z :=
  fold_left (fun acc d => base * acc + d) ds 0.

Lemma digits_length base n z : length (digits base n z) = n.
Proof. induction n; cbn; congruence. Qed.

Lemma digits_range base n z : 0 < base -> Forall (fun d => 0 <= d < base) (digits base n z).
Proof. intros Hb. induction n; cbn; constructor; [by apply Z.mod_pos_bound|done]. Qed.

Lemma undigits_acc base ds acc :
  fold_left (fun acc d => base * acc + d) ds acc
  = acc * base ^ Z.of_nat (length ds) + undigits base ds.
Proof.
  unfold undigits. revert acc; induction ds as [|d ds IH]; intros acc; cbn [fold_left length].
  - cbn; lia.
  - rewrite IH, (IH (base * 0 + d)), Nat2Z.inj_succ, Z.pow_succ_r by lia. lia.
Qed.

Lemma undigits_cons base d ds :
  undigits base (d :: ds) = d * base ^ Z.of_nat (length ds) + undigits base ds.
Proof. unfold undigits at 1; cbn [fold_left]. rewrite undigits_acc. lia. Qed.

Lemma undigits_range base ds :
  0 < base -> Forall (fun d => 0 <= d < base) ds ->
  0 <= undigits base ds < base ^ Z.of_nat (length ds).
Proof.
  intros Hb. induction 1 as [|d ds Hd _ IH]; [by cbn|].
  rewrite undigits_cons; cbn [length].
  rewrite Nat2Z.inj_succ, Z.pow_succ_r by lia. nia.
Qed.

Lemma undigits_digits base n z :
  0 < base -> 0 <= z < base ^ Z.of_nat n -> undigits base (digits base n z) = z.
Proof.
  intros Hb Hz.
  enough (undigits base (digits base n z) = z mod base ^ Z.of_nat n) as ->
    by (by apply Z.mod_small).
  clear Hz. induction n as [|n IH]; [by rewrite Z.mod_1_r|].
  cbn [digits]. rewrite undigits_cons, IH, digits_length.
  pose proof (Z.pow_pos_nonneg base (Z.of_nat n) Hb ltac:(lia)).
  rewrite Nat2Z.inj_succ, Z.pow_succ_r, (Z.mul_comm base), Z.rem_mul_r by lia. lia.
Qed.

#[export] Hint Rewrite @rbind_ok @map_err_ok : vo.

(** ** Finite sets *)

Lemma size_list_to_set_le `{Countable A} (l : list A) :
  (size (list_to_set l : gset A) <= length l)%nat.
Proof.
  induction l as [|x l IH]; cbn; [by rewrite size_empty|].
  rewrite size_union_alt, size_singleton.
  pose proof (subseteq_size (list_to_set l ∖ {[x]}) (list_to_set l : gset A) ltac:(set_solver)).
  lia.
Qed.

Lemma size_difference_step `{Countable A} (X Y : gset A) x :
  x ∈ X -> x ∉ Y -> size (X ∖ Y) = S (size (X ∖ ({[x]} ∪ Y))).
Proof.
  intros Hx Hy. assert (X ∖ Y = {[x]} ∪ (X ∖ ({[x]} ∪ Y))) as ->.
  { apply set_eq. intros y. destruct (decide (y = x)); set_solver. }
  rewrite size_union, size_singleton by set_solver. done.
Qed.

(** ** Relations *)

Lemma tc_flip {A} (R : relation A) x y : tc (flip R) x y <-> tc R y x.
Proof.
  split; (induction 1 as [a b H|a b c H _ IH]; [by apply tc_once|by eapply tc_r]).
Qed.

(** ** Filters *)

Lemma filter_last_Some {A} (P : A -> Prop) `{!forall x, Decision (P x)} (l : list A) e :
  last (base.filter P l) = Some e <->
  exists l1 l2, l = l1 ++ e :: l2 /\ P e /\ Forall (fun x => ~ P x) l2.
Proof.
  induction l as [|x l IH] using rev_ind.
  { split; [done|]. by intros ([] & ? & ? & _). }
  rewrite filter_app, filter_cons, filter_nil. case_decide as Hx.
  - rewrite last_snoc. split.
    + intros [= <-]. by exists l, [].
    + intros (l1 & l2 & E & He & Hl2). destruct l2 as [|y l2 _] using rev_ind.
      * apply app_inj_tail in E as [_ ->]. done.
      * rewrite app_comm_cons, app_assoc in E. apply app_inj_tail in E as [_ ->].
        apply Forall_app in Hl2 as [_ Hy]. apply Forall_cons in Hy as [Hy _]. by destruct (Hy Hx).
  - rewrite app_nil_r, IH. split.
    + intros (l1 & l2 & -> & He & Hl2). exists l1, (l2 ++ [x]). rewrite <- app_assoc. cbn.
      split_and!; [done..|]. apply Forall_app. by rewrite Forall_singleton.
    + intros (l1 & l2 & E & He & Hl2). destruct l2 as [|y l2 _] using rev_ind.
      * apply app_inj_tail in E as [_ ->]. done.
      * rewrite app_comm_cons, app_assoc in E. apply app_inj_tail in E as [-> ->].
        apply Forall_app in Hl2 as [? _]. by exists l1, l2.
Qed.

(** ** Walks and cycles *)

(** The list follows [R] from [x]. *)
Fixpoint walk {A} (R : A -> A -> Prop) (x : A) (l : list A) : Prop :=
  match l with [] => True | y :: l' => R x y /\ walk R y l' end.

(** A list that follows [R] and returns to its first element. *)
Definition is_cycle {A} (R : A -> A -> Prop) (c : list A) : Prop :=
  exists x l, c = x :: l ++ [x] /\ walk R x (l ++ [x]).

Lemma walk_app {A} (R : A -> A -> Prop) x l1 y l2 :
  walk R x (l1 ++ y :: l2) <-> walk R x (l1 ++ [y]) /\ walk R y l2.
Proof. revert x; induction l1 as [|z l1 IH]; intros x; cbn; [tauto|]. rewrite IH. tauto. Qed.

Lemma walk_tc {A} (R : A -> A -> Prop) x l y : walk R x (l ++ [y]) -> tc R x y.
Proof.
  revert x; induction l as [|z l IH]; intros x; cbn; intros [H1 H2]; [by apply tc_once|].
  by eapply tc_l; [|apply IH].
Qed.

Lemma is_cycle_tc {A} (R : A -> A -> Prop) c : is_cycle R c -> exists x, x ∈ c /\ tc R x x.
Proof. intros (x & l & -> & H). exists x. split; [left|by eapply walk_tc]. Qed.

Lemma not_NoDup_split `{EqDecision A} (l : list A) :
  ~ NoDup l -> exists x l1 l2 l3, l = l1 ++ x :: l2 ++ x :: l3.
Proof.
  induction l as [|x l IH]; intros H; [by destruct H; constructor|].
  destruct (decide (x ∈ l)) as [Hx|Hx].
  - apply list_elem_of_split in Hx as (l2 & l3 & ->). by exists x, [], l2, l3.
  - destruct IH as (y & l1 & l2 & l3 & ->); [intros Hl; apply H; by constructor|].
    by exists y, (x :: l1), l2, l3.
Qed.

(** A finite set in which everything has a successor: every element leads to a cycle. *)
Lemma no_sink_cycle `{EqDecision A} (R : A -> A -> Prop) (l : list A) x :
  x ∈ l -> (forall y, y ∈ l -> exists z, z ∈ l /\ R y z) ->
  exists y, y ∈ l /\ rtc R x y /\ tc R y y.
Proof.
  intros Hx Hl.
  assert (forall n x, x ∈ l -> exists w, length w = n /\ w ⊆ l /\ walk R x w) as Hwalk.
  { induction n as [|n IH]; intros y Hy; [by exists []; split_and!; [|set_solver|]|].
    destruct (Hl y Hy) as (z & Hz & HR). destruct (IH z Hz) as (w & <- & Hw & HW).
    exists (z :: w). split_and!; [done|set_solver|done]. }
  destruct (Hwalk (S (length l)) x Hx) as (w & Hlen & Hsub & HW).
  destruct (not_NoDup_split w) as (y & l1 & l2 & l3 & ->).
  { intros Hnd. pose proof (submseteq_length _ _ (NoDup_submseteq _ _ Hnd Hsub)). lia. }
  apply walk_app in HW as [HW1 HW]. apply walk_app in HW as [HW _].
  exists y. split_and!; [set_solver|by apply tc_rtc, (walk_tc _ _ l1)|by eapply walk_tc].
Qed.

(** ** Orders that respect a relation *)

(** Everything in the list comes after what it is related to. *)
Definition respects {A} (R : A -> A -> Prop) (X : list A) : Prop :=
  forall p e s, X = p ++ e :: s -> forall d, R e d -> d ∈ p.

Lemma respects_nil {A} (R : A -> A -> Prop) : respects R [].
Proof. intros [|a p] e s E; done. Qed.

Lemma respects_snoc {A} (R : A -> A -> Prop) X n :
  respects R X -> (forall d, R n d -> d ∈ X) -> respects R (X ++ [n]).
Proof.
  intros Hr Hn p e s E d Hd. destruct s as [|y s _] using rev_ind.
  - apply app_inj_tail in E as [<- <-]. by apply Hn.
  - rewrite app_comm_cons, app_assoc in E. apply app_inj_tail in E as [-> _]. by apply (Hr p e s).
Qed.

Lemma respects_closed {A} (R : A -> A -> Prop) X e :
  respects R X -> e ∈ X -> forall d, rtc R e d -> d ∈ X.
Proof.
  intros Hr He d Hd. revert He. induction Hd as [|e y d Hey _ IH]; [done|].
  intros (p & s & ->)%list_elem_of_split. apply IH. pose proof (Hr p e s eq_refl y Hey). set_solver.
Qed.

Lemma respects_acyclic {A} (R : A -> A -> Prop) X e : respects R X -> e ∈ X -> ~ tc R e e.
Proof.
  intros Hr He Hcyc.
  assert (forall n p e s, length p = n -> X = p ++ e :: s -> forall d, tc R e d -> d ∈ p) as Hback.
  { induction n as [n IH] using lt_wf_ind. intros p x s Hlen E d Hd.
    inversion Hd as [? ? H|? y ? H Hyd]; subst; pose proof (Hr p x s eq_refl _ H) as Hp; [done|].
    apply list_elem_of_split in Hp as (p1 & p2 & ->).
    assert (d ∈ p1) as Hin; [|set_solver].
    eapply (IH (length p1)); [|done| |exact Hyd].
    - rewrite length_app; cbn; lia.
    - by rewrite <- app_assoc. }
  assert (forall n p s, length p = n -> X = p ++ e :: s -> False) as Hno; [|].
  { induction n as [n IH] using lt_wf_ind. intros p s Hlen E.
    pose proof (Hback n p e s Hlen E e Hcyc) as Hin.
    apply list_elem_of_split in Hin as (p1 & p2 & ->). rewrite length_app in Hlen; cbn in Hlen.
    apply (IH (length p1) ltac:(lia) p1 (p2 ++ e :: s)); [done|]. by rewrite E, <- app_assoc. }
  apply list_elem_of_split in He as (p & s & E). by apply (Hno (length p) p s).
Qed.

(** ** Occurrences *)

Definition cnt `{EqDecision A} (x : A) (l : list A) : nat :=
  length (base.filter (fun y => y = x) l).

Lemma cnt_nil `{EqDecision A} (x : A) : cnt x [] = 0%nat.
Proof. done. Qed.

Lemma cnt_cons `{EqDecision A} (x y : A) l :
  cnt x (y :: l) = ((if decide (y = x) then 1 else 0) + cnt x l)%nat.
Proof. unfold cnt. rewrite filter_cons. by case_decide. Qed.

Lemma cnt_app `{EqDecision A} (x : A) l k : cnt x (l ++ k) = (cnt x l + cnt x k)%nat.
Proof. unfold cnt. by rewrite filter_app, length_app. Qed.

Lemma cnt_repeat `{EqDecision A} (x y : A) n :
  cnt x (repeat y n) = (if decide (y = x) then n else 0)%nat.
Proof.
  induction n as [|n IH]; cbn [repeat]; [by case_decide|]. rewrite cnt_cons, IH. by case_decide.
Qed.

Lemma cnt_pos `{EqDecision A} (x : A) l : (0 < cnt x l)%nat <-> x ∈ l.
Proof.
  induction l as [|y l IH]; [rewrite cnt_nil; split; [lia|by intros ?%elem_of_nil]|].
  rewrite cnt_cons, elem_of_cons, <- IH. case_decide; split; intros; naive_solver lia.
Qed.

(** Taking [n] out of what a filter rejects. *)
Lemma filter_not_in_snoc `{EqDecision A} (X l : list A) n :
  n ∉ X ->
  length (base.filter (fun d => d ∉ X) l)
    = (cnt n l + length (base.filter (fun d => d ∉ X ++ [n]) l))%nat.
Proof.
  intros Hn. induction l as [|y l IH]; [done|]. rewrite cnt_cons, !filter_cons.
  destruct (decide (y = n)) as [->|Hne].
  - rewrite decide_True, decide_False by set_solver. cbn. lia.
  - destruct (decide (y ∈ X)).
    + rewrite !decide_False by set_solver. lia.
    + rewrite !decide_True by set_solver. cbn. lia.
Qed.

(** ** Order of elements in a list *)

(** [x] occurs before some occurrence of [y]. *)
Definition before {A} (l : list A) (x y : A) : Prop :=
  exists l1 l2, l = l1 ++ y :: l2 /\ x ∈ l1.

Lemma NoDup_split_unique {A} (x : A) l1 l2 k1 k2 :
  NoDup (l1 ++ x :: l2) -> l1 ++ x :: l2 = k1 ++ x :: k2 -> l1 = k1 /\ l2 = k2.
Proof.
  revert k1. induction l1 as [|a l1 IH]; intros [|b k1] Hnd E; cbn in *; simplify_eq.
  - done.
  - apply NoDup_cons in Hnd as [Hx _]. destruct Hx. apply elem_of_app. right. left.
  - apply NoDup_cons in Hnd as [Hx _]. destruct Hx. apply elem_of_app. right. left.
  - apply NoDup_cons in Hnd as [_ Hnd]. destruct (IH k1 Hnd ltac:(done)) as [-> ->]. done.
Qed.

(** In a list without repetitions, [x] is before [y] exactly when [y] is after [x]. *)
Lemma before_after {A} (l : list A) x y l1 l2 :
  NoDup l -> l = l1 ++ x :: l2 -> before l x y <-> y ∈ l2.
Proof.
  intros Hnd ->. split.
  - intros (k1 & k2 & E & Hx). apply list_elem_of_split in Hx as (a & b & ->).
    rewrite <- app_assoc in E. cbn in E. apply NoDup_split_unique in E as [_ ->]; [|done].
    apply elem_of_app. right. left.
  - intros (a & b & ->)%list_elem_of_split. exists (l1 ++ x :: a), b.
    rewrite <- app_assoc. split; [done|]. apply elem_of_app. right. left.
Qed.
