(* ===== verification/Identifiers.v ===== *)
(** * Validated identifiers

    [crates/vo-types/src/string_types.rs], [integer_types.rs], [types.rs] and
    [errors.rs]: the newtypes whose constructors validate. A Rust [String] is the
    string of its UTF-8 bytes. Every character predicate the parsers use holds of
    ASCII characters only, so filtering bytes and filtering characters select the
    same text, and the character count is only taken of text that is all ASCII. *)

From S2P Require Import Prelude.
From Stdlib Require Import Ascii.

(** ** Errors *)

(** [enum ParseError]. *)
Inductive ParseError : Type :=
| Empty (type_name : string)
| InvalidCharacters (type_name : string) (invalid_chars : string)
| InvalidFormat (type_name : string) (reason : FormatReason)
| ExceedsMaxLength (type_name : string) (max actual : Z)
| BoundaryViolation (type_name : string) (reason : string)
| ConsecutiveHyphens (type_name : string)
| ConsecutiveSeparators (type_name : string)
| NotAnInteger (type_name : string) (input : string)
| ZeroValue (type_name : string)
| OutOfRange (type_name : string) (value min max : Z)
| InternalError (message : string)
(** The [reason] of an [InvalidFormat]: its text, or the data the code formats
    into it. *)
with FormatReason : Type :=
| ReasonText (text : string)
| ReasonLength (expected actual : Z)
| ReasonUlid
| ReasonUtf8.

(** ** Character classes *)

(** [char::is_ascii_digit]. *)
Definition is_ascii_digit (c : ascii) : bool :=
  (48 <=? Z.of_nat (nat_of_ascii c)) && (Z.of_nat (nat_of_ascii c) <=? 57).

(** [char::is_ascii_alphanumeric]. *)
Definition is_ascii_alphanumeric (c : ascii) : bool :=
  let n := Z.of_nat (nat_of_ascii c) in
  is_ascii_digit c || ((65 <=? n) && (n <=? 90)) || ((97 <=? n) && (n <=? 122)).

Definition hyphen : ascii := "-"%char.
Definition underscore : ascii := "_"%char.

(** [is_identifier_char]. *)
Definition is_identifier_char (c : ascii) : bool :=
  is_ascii_alphanumeric c || bool_decide (c = hyphen) || bool_decide (c = underscore).

(** [is_lowercase_hex]. *)
Definition is_lowercase_hex (c : ascii) : bool :=
  let n := Z.of_nat (nat_of_ascii c) in is_ascii_digit c || ((97 <=? n) && (n <=? 102)).

(** ** String helpers *)

Fixpoint chars (s : string) : list ascii :=
  match s with EmptyString => [] | String c s' => c :: chars s' end.

Fixpoint of_chars (l : list ascii) : string :=
  match l with [] => EmptyString | c :: l' => String c (of_chars l') end.

Definition len (s : string) : Z := Z.of_nat (length (chars s)).

Definition is_empty (s : string) : bool :=
  match s with EmptyString => true | _ => false end.

(** [input.contains(p)] for the two-character patterns of the parsers. *)
Fixpoint contains_pair (a b : ascii) (l : list ascii) : bool :=
  match l with
  | x :: (y :: _) as l' => (bool_decide (x = a) && bool_decide (y = b)) || contains_pair a b l'
  | _ => false
  end.

(** [extract_invalid_chars]. *)
Definition extract_invalid_chars (input : string) (is_valid : ascii -> bool) : string :=
  of_chars (base.filter (fun c => is_valid c = false) (chars input)).

(** [check_identifier_boundaries]. *)
Definition check_identifier_boundaries (input : string) (type_name : string)
  : result ParseError unit :=
  let first := head (chars input) in
  let last := last (chars input) in
  if bool_decide (first = Some hyphen) then
    Err (BoundaryViolation type_name "must not start with hyphen")
  else if bool_decide (last = Some hyphen) then
    Err (BoundaryViolation type_name "must not end with hyphen")
  else if bool_decide (last = Some underscore) then
    Err (BoundaryViolation type_name "must not end with underscore")
  else Ok tt.

(** ** [StepId] *)

(** [struct StepId]. *)
Record StepId : Set := mkStepId { step_id_str : string }.

(** [StepId::parse]. *)
Definition StepId_parse (input : string) : result ParseError StepId :=
  let type_name := "StepId" in
  if is_empty input then Err (InvalidCharacters type_name "")
  else
    let invalid := extract_invalid_chars input is_identifier_char in
    if negb (is_empty invalid) then Err (InvalidCharacters type_name invalid)
    else
      let? _ := check_identifier_boundaries input type_name in
      if bool_decide (head (chars input) = Some underscore) then
        Err (BoundaryViolation type_name "must not start with underscore")
      else Ok (mkStepId input).

(** ** [NodeName] *)

(** [struct NodeName]. *)
Record NodeName : Set := mkNodeName { node_name_str : string }.

(** [NodeName::parse]. *)
Definition NodeName_parse (input : string) : result ParseError NodeName :=
  let type_name := "NodeName" in
  let max_len := 128 in
  if is_empty input then Err (Empty type_name)
  else
    let invalid := extract_invalid_chars input is_identifier_char in
    if negb (is_empty invalid) then Err (InvalidCharacters type_name invalid)
    else if max_len <? len input then Err (ExceedsMaxLength type_name max_len (len input))
    else if contains_pair hyphen hyphen (chars input) then Err (ConsecutiveHyphens type_name)
    else if contains_pair underscore underscore (chars input)
            || contains_pair hyphen underscore (chars input)
            || contains_pair underscore hyphen (chars input)
    then Err (ConsecutiveSeparators type_name)
    else
      let? _ := check_identifier_boundaries input type_name in
      if match head (chars input) with Some c => is_ascii_digit c | None => false end then
        Err (BoundaryViolation type_name "must not start with digit")
      else Ok (mkNodeName input).

(** ** [WorkflowName] and [BinaryHash] *)

(** [struct WorkflowName]. *)
Record WorkflowName : Set := mkWorkflowName { workflow_name_str : string }.

(** [WorkflowName::parse]. *)
Definition WorkflowName_parse (input : string) : result ParseError WorkflowName :=
  let type_name := "WorkflowName" in
  let max_len := 128 in
  if is_empty input then Err (Empty type_name)
  else
    let invalid := extract_invalid_chars input is_identifier_char in
    if negb (is_empty invalid) then Err (InvalidCharacters type_name invalid)
    else if max_len <? len input then Err (ExceedsMaxLength type_name max_len (len input))
    else if contains_pair hyphen hyphen (chars input) then Err (ConsecutiveHyphens type_name)
    else if contains_pair underscore underscore (chars input)
            || contains_pair hyphen underscore (chars input)
            || contains_pair underscore hyphen (chars input)
    then Err (ConsecutiveSeparators type_name)
    else
      let? _ := check_identifier_boundaries input type_name in
      if match head (chars input) with Some c => is_ascii_digit c | None => false end then
        Err (BoundaryViolation type_name "must not start with digit")
      else Ok (mkWorkflowName input).

(** ** [WorkflowVersionHash] *)

(** [struct BinaryHash]. *)
Record BinaryHash : Set := mkBinaryHash { binary_hash_str : string }.

(** [BinaryHash::parse]. *)
Definition BinaryHash_parse (input : string) : result ParseError BinaryHash :=
  let type_name := "BinaryHash" in
  let min_len := 8 in
  if is_empty input then Err (Empty type_name)
  else
    let invalid := extract_invalid_chars input is_lowercase_hex in
    if negb (is_empty invalid) then Err (InvalidCharacters type_name invalid)
    else if negb (len input mod 2 =? 0) then
      Err (InvalidFormat type_name (ReasonText "hex string has odd length"))
    else if len input <? min_len then
      Err (InvalidFormat type_name (ReasonText "hex string must be at least 8 characters"))
    else Ok (mkBinaryHash input).

(** [struct WorkflowVersionHash]. *)
Record WorkflowVersionHash : Set := mkWorkflowVersionHash { version_hash_str : string }.

(** [WorkflowVersionHash::parse]. *)
Definition WorkflowVersionHash_parse (input : string) : result ParseError WorkflowVersionHash :=
  let type_name := "WorkflowVersionHash" in
  let min_len := 8 in
  if is_empty input then Err (Empty type_name)
  else
    let invalid := extract_invalid_chars input is_lowercase_hex in
    if negb (is_empty invalid) then Err (InvalidCharacters type_name invalid)
    else if negb (len input mod 2 =? 0) then
      Err (InvalidFormat type_name (ReasonText "hex string has odd length"))
    else if len input <? min_len then
      Err (InvalidFormat type_name (ReasonText "hex string must be at least 8 characters"))
    else Ok (mkWorkflowVersionHash input).

#[global] Instance StepId_eq_dec : EqDecision StepId.
Proof. solve_decision. Defined.
#[global] Instance NodeName_eq_dec : EqDecision NodeName.
Proof. solve_decision. Defined.
#[global] Program Instance StepId_countable : Countable StepId :=
  inj_countable' step_id_str mkStepId _.
Next Obligation. by intros []. Qed.
#[global] Program Instance NodeName_countable : Countable NodeName :=
  inj_countable' node_name_str mkNodeName _.
Next Obligation. by intros []. Qed.

#[global] Instance WorkflowName_eq_dec : EqDecision WorkflowName.
Proof. solve_decision. Defined.
#[global] Program Instance WorkflowName_countable : Countable WorkflowName :=
  inj_countable' workflow_name_str mkWorkflowName _.
Next Obligation. by intros []. Qed.
#[global] Instance BinaryHash_eq_dec : EqDecision BinaryHash.
Proof. solve_decision. Defined.
#[global] Program Instance BinaryHash_countable : Countable BinaryHash :=
  inj_countable' binary_hash_str mkBinaryHash _.
Next Obligation. by intros []. Qed.

(** ** Integer newtypes *)

(** [require_nonzero]; a [NonZeroU64] is a nonzero [Z] in the range of [u64]. *)
Definition require_nonzero (value : Z) (type_name : string) : result ParseError Z :=
  if value =? 0 then Err (ZeroValue type_name) else Ok value.

(** [struct SequenceNumber]. *)
Record SequenceNumber : Set := mkSequenceNumber { sequence_u64 : Z }.

(** [SequenceNumber::try_from(u64)]. *)
Definition SequenceNumber_try_from (value : Z) : result ParseError SequenceNumber :=
  let? v := require_nonzero value "SequenceNumber" in Ok (mkSequenceNumber v).

(** [struct FenceToken]. *)
Record FenceToken : Set := mkFenceToken { fence_u64 : Z }.

(** [FenceToken::new]. *)
Definition FenceToken_new (value : Z) : result ParseError FenceToken :=
  let? v := require_nonzero value "FenceToken" in Ok (mkFenceToken v).

(** [FenceToken::next]. *)
Definition FenceToken_next (t : FenceToken) : result ParseError FenceToken :=
  let current := fence_u64 t in
  match checked_add_u64 current 1 with
  | None => Err (OutOfRange "FenceToken" current 1 (u64_max - 1))
  | Some next => FenceToken_new next
  end.

(** ** Decimal text *)

Definition digit_value (c : ascii) : Z := Z.of_nat (nat_of_ascii c) - 48.

(** A leading [+] before other characters is skipped. *)
Definition strip_plus (l : list ascii) : list ascii :=
  match l with
  | c :: (_ :: _) as rest => if bool_decide (c = "+"%char) then rest else l
  | _ => l
  end.

(** [str::parse::<u64>]: an optional [+], then at least one decimal digit, and a value
    that fits. *)
Definition u64_from_str (input : string) : option Z :=
  let ds := strip_plus (chars input) in
  let value := undigits 10 (digit_value <$> ds) in
  if negb (bool_decide (ds = [])) && forallb is_ascii_digit ds && (value <=? u64_max)
  then Some value else None.

(** [parse_u64_str]. *)
Definition parse_u64_str (input : string) (type_name : string) : result ParseError Z :=
  ok_or (u64_from_str input) (NotAnInteger type_name input).

(** [parse_nonzero_u64]. *)
Definition parse_nonzero_u64 (input : string) (type_name : string) : result ParseError Z :=
  let? value := parse_u64_str input type_name in require_nonzero value type_name.

(** [SequenceNumber::parse]. *)
Definition SequenceNumber_parse (input : string) : result ParseError SequenceNumber :=
  let? v := parse_nonzero_u64 input "SequenceNumber" in Ok (mkSequenceNumber v).

(** [FenceToken::parse]. *)
Definition FenceToken_parse (input : string) : result ParseError FenceToken :=
  let? v := parse_nonzero_u64 input "FenceToken" in Ok (mkFenceToken v).

(** [TimestampMs::parse]; a [TimestampMs] is its [u64]. *)
Definition TimestampMs_parse (input : string) : result ParseError Z :=
  parse_u64_str input "TimestampMs".

(** What [SequenceNumber] and [FenceToken] values satisfy: a [NonZeroU64]. *)
Definition nonzero_u64 (z : Z) : Prop := is_u64 z /\ z <> 0.

#[global] Instance FenceToken_eq_dec : EqDecision FenceToken.
Proof. solve_decision. Defined.
#[global] Instance SequenceNumber_eq_dec : EqDecision SequenceNumber.
Proof. solve_decision. Defined.

(** ** [InstanceId]

    The text form of a ULID comes from the [ulid] crate, a parameter here. *)

Definition u128_max : Z := 2 ^ 128 - 1.

(** [Ulid::from_string] and [Ulid::to_string]; a [Ulid] is its [u128]. *)
Class UlidApi : Type := {
  ulid_from_string : string -> option Z;
  ulid_to_string : Z -> string;
}.

(** Documented behaviour of the crate: the canonical form is 26 alphanumeric
    characters (Crockford's base 32) and reads back to the value it prints, and
    what is read fits in 128 bits. *)
Class UlidLaws `{U : UlidApi} : Prop := {
  ulid_from_to : forall n, 0 <= n <= u128_max -> ulid_from_string (ulid_to_string n) = Some n;
  ulid_to_len : forall n, 0 <= n <= u128_max -> len (ulid_to_string n) = 26;
  ulid_to_alnum : forall n, 0 <= n <= u128_max ->
    Forall (fun c => is_ascii_alphanumeric c = true) (chars (ulid_to_string n));
  ulid_from_range : forall s n, ulid_from_string s = Some n -> 0 <= n <= u128_max;
}.

(** [struct InstanceId]. *)
Record InstanceId : Set := mkInstanceId { instance_id_str : string }.

#[global] Instance InstanceId_eq_dec : EqDecision InstanceId.
Proof. solve_decision. Defined.
#[global] Program Instance InstanceId_countable : Countable InstanceId :=
  inj_countable' instance_id_str mkInstanceId _.
Next Obligation. by intros []. Qed.

Section InstanceId.
Context `{U : UlidApi}.

(** [InstanceId::parse]. *)
Definition InstanceId_parse (input : string) : result ParseError InstanceId :=
  let type_name := "InstanceId" in
  if is_empty input then Err (Empty type_name)
  else if negb (len input =? 26) then
    Err (InvalidFormat type_name (ReasonLength 26 (len input)))
  else
    match ulid_from_string input with
    | None => Err (InvalidFormat type_name ReasonUlid)
    | Some ulid =>
        if ulid =? 0 then
          Err (InvalidFormat type_name
                 (ReasonText "invalid ULID validation: nil value not permitted"))
        else Ok (mkInstanceId (ulid_to_string ulid))
    end.

(** The number in [InstanceId::to_bytes] before its [to_be_bytes]. *)
Definition InstanceId_to_u128 (i : InstanceId) : result ParseError Z :=
  match ulid_from_string (instance_id_str i) with
  | Some u => Ok u
  | None => Err (InvalidFormat "InstanceId" ReasonUlid)
  end.

(** [InstanceId::from_bytes], after its [u128::from_be_bytes]. *)
Definition InstanceId_from_u128 (u : Z) : InstanceId := mkInstanceId (ulid_to_string u).

(** The values [parse] and [from_bytes] make: the canonical text of a [u128]. *)
Definition InstanceId_wf (i : InstanceId) (u : Z) : Prop :=
  0 <= u <= u128_max /\ i = InstanceId_from_u128 u.

Context `{!UlidLaws}.

Lemma InstanceId_to_u128_wf i u : InstanceId_wf i u -> InstanceId_to_u128 i = Ok u.
Proof. intros [Hu ->]. unfold InstanceId_to_u128; cbn. by rewrite ulid_from_to. Qed.

Lemma InstanceId_wf_inj i u v : InstanceId_wf i u -> InstanceId_wf i v -> u = v.
Proof. intros Hu%InstanceId_to_u128_wf Hv%InstanceId_to_u128_wf. congruence. Qed.

Lemma InstanceId_parse_wf s i :
  InstanceId_parse s = Ok i -> exists u, InstanceId_wf i u /\ u <> 0.
Proof.
  unfold InstanceId_parse. repeat case_match; intros ?; simplify_eq.
  exists z. split; [|lia]. split; [by eapply ulid_from_range|done].
Qed.

(** Parsing is idempotent: the canonical text parses to itself. *)
Lemma InstanceId_parse_wf_ok i u :
  InstanceId_wf i u -> u <> 0 -> InstanceId_parse (instance_id_str i) = Ok i.
Proof.
  intros [Hu ->] Hnz. unfold InstanceId_parse; cbn.
  pose proof (ulid_to_len u Hu) as Hlen.
  destruct (is_empty _) eqn:He; [destruct (ulid_to_string u); done|].
  rewrite Hlen, ulid_from_to by done; cbn.
  by destruct (Z.eqb_spec u 0).
Qed.
End InstanceId.

(** ** Characterisation of the parsers *)

Lemma of_chars_empty l : is_empty (of_chars l) = true <-> l = [].
Proof. destruct l; cbn; naive_solver. Qed.

Lemma chars_of_chars l : chars (of_chars l) = l.
Proof. induction l; cbn; congruence. Qed.

Lemma of_chars_chars s : of_chars (chars s) = s.
Proof. induction s; cbn; congruence. Qed.

Lemma chars_inj s1 s2 : chars s1 = chars s2 -> s1 = s2.
Proof. intros H. by rewrite <- (of_chars_chars s1), H, of_chars_chars. Qed.

Lemma chars_app s1 s2 : chars (s1 +:+ s2) = chars s1 ++ chars s2.
Proof. induction s1 as [|c s1 IH]; cbn; [done|]. by rewrite <- IH. Qed.

Lemma is_empty_chars s : is_empty s = true <-> chars s = [].
Proof. destruct s; cbn; naive_solver. Qed.

Lemma extract_invalid_empty s p :
  is_empty (extract_invalid_chars s p) = true <-> Forall (fun c => p c = true) (chars s).
Proof.
  unfold extract_invalid_chars. rewrite of_chars_empty.
  induction (chars s) as [|c l IH]; [by split|].
  rewrite filter_cons, Forall_cons, <- IH. case_decide; destruct (p c); naive_solver.
Qed.

Lemma check_identifier_boundaries_ok s tn :
  check_identifier_boundaries s tn = Ok tt <->
  head (chars s) <> Some hyphen /\ last (chars s) <> Some hyphen /\
  last (chars s) <> Some underscore.
Proof. unfold check_identifier_boundaries. repeat case_bool_decide; naive_solver. Qed.

(** The step identifiers: nonempty identifier text that neither starts nor ends
    with a separator. *)
Definition step_id_text (s : string) : Prop :=
  chars s <> [] /\ Forall (fun c => is_identifier_char c = true) (chars s) /\
  head (chars s) <> Some hyphen /\ head (chars s) <> Some underscore /\
  last (chars s) <> Some hyphen /\ last (chars s) <> Some underscore.

Lemma StepId_parse_ok s i :
  StepId_parse s = Ok i <-> i = mkStepId s /\ step_id_text s.
Proof.
  unfold StepId_parse, step_id_text.
  pose proof (is_empty_chars s). pose proof (extract_invalid_empty s is_identifier_char).
  pose proof (check_identifier_boundaries_ok s "StepId").
  destruct (is_empty s); [naive_solver|].
  destruct (is_empty (extract_invalid_chars s is_identifier_char)); cbn; [|naive_solver].
  destruct (check_identifier_boundaries s "StepId") as [[]|]; cbn;
    [case_bool_decide|]; naive_solver.
Qed.

(** ** Decimal text: printing and reading *)

Lemma pretty_N_char_digit d :
  (d < 10)%N ->
  is_ascii_digit (pretty_N_char d) = true /\ digit_value (pretty_N_char d) = Z.of_N d.
Proof.
  intros Hd. assert (d = 0 \/ d = 1 \/ d = 2 \/ d = 3 \/ d = 4 \/ d = 5 \/ d = 6 \/ d = 7 \/
    d = 8 \/ d = 9)%N as Hcases by lia.
  repeat destruct Hcases as [->|Hcases]; try (subst d); done.
Qed.

(** The printer writes the digits of [x] before what is there. *)
Lemma pretty_N_go_digits x s :
  Forall (fun c => is_ascii_digit c = true) (chars s) ->
  Forall (fun c => is_ascii_digit c = true) (chars (pretty_N_go x s)) /\
  (chars s <> [] \/ (0 < x)%N -> chars (pretty_N_go x s) <> []) /\
  undigits 10 (digit_value <$> chars (pretty_N_go x s))
    = Z.of_N x * 10 ^ len s + undigits 10 (digit_value <$> chars s).
Proof.
  revert s. induction (N.lt_wf_0 x) as [x _ IH]; intros s Hs.
  destruct (N.eq_0_gt_0_cases x) as [->|Hx].
  { rewrite pretty_N_go_0. split_and!; [done| |lia]. by intros [?|?]. }
  rewrite pretty_N_go_step by done.
  destruct (pretty_N_char_digit (x mod 10)) as [Hc Hv]; [by apply N.mod_lt|].
  destruct (IH (x / 10)%N ltac:(apply N.div_lt; lia) (String (pretty_N_char (x mod 10)) s))
    as (H1 & H2 & H3); [by constructor|].
  split_and!; [done|intros _; apply H2; by left|]. rewrite H3.
  unfold len. cbn [chars length fmap list_fmap]. rewrite undigits_cons, Hv, length_fmap.
  rewrite Nat2Z.inj_succ, Z.pow_succ_r by lia.
  rewrite (N.div_mod x 10) at 3 by done. rewrite N2Z.inj_add, N2Z.inj_mul. lia.
Qed.

Lemma u64_from_str_digits l :
  l <> [] -> Forall (fun c => is_ascii_digit c = true) l ->
  undigits 10 (digit_value <$> l) <= u64_max ->
  u64_from_str (of_chars l) = Some (undigits 10 (digit_value <$> l)).
Proof.
  intros Hne Hd Hmax. unfold u64_from_str. rewrite chars_of_chars.
  assert (strip_plus l = l) as ->.
  { unfold strip_plus. destruct l as [|c [|c2 l]]; [done..|]. case_bool_decide as Hc; [|done].
    subst c. by apply Forall_cons in Hd as [? _]. }
  rewrite (bool_decide_eq_false_2 _ Hne). cbn [negb andb].
  rewrite (proj2 (forallb_Forall _ _) Hd).
  by rewrite (proj2 (Z.leb_le _ _) Hmax).
Qed.

Lemma u64_from_str_pretty n : is_u64 n -> u64_from_str (pretty n) = Some n.
Proof.
  intros Hn. destruct n as [|p|p]; [done| |ulia].
  change (pretty (Zpos p)) with (pretty_N_go (Npos p) "").
  destruct (pretty_N_go_digits (Npos p) "") as (H1 & H2 & H3); [by constructor|].
  replace (Z.of_N (N.pos p) * 10 ^ len "" + undigits 10 (digit_value <$> chars ""))
    with (Zpos p) in H3 by (change (10 ^ len "") with 1; cbn; lia).
  rewrite <- (of_chars_chars (pretty_N_go _ _)), u64_from_str_digits; [by rewrite H3| |done|].
  - apply H2. by right.
  - rewrite H3. ulia.
Qed.

Lemma u64_from_str_range s n : u64_from_str s = Some n -> is_u64 n.
Proof.
  unfold u64_from_str. set (ds := strip_plus _).
  destruct (_ && _ && _) eqn:E; [|done]. intros [= <-].
  apply andb_prop in E as [[_ Hd]%andb_prop Hmax%Z.leb_le]. split; [|done].
  refine (proj1 (undigits_range 10 _ _ _)); [lia|]. apply Forall_fmap.
  apply forallb_Forall in Hd. eapply Forall_impl; [exact Hd|]. intros c Hc.
  unfold is_ascii_digit, digit_value in *; cbn. lia.
Qed.

(** Printing and reading a nonzero integer type: every value in range reads back
    from its [Display] text, what parses is nonzero and in range, and text that is no
    [u64] is reported with the text and the type's name. *)
Theorem integer_parse_display :
  (forall n, nonzero_u64 n ->
     SequenceNumber_parse (pretty n) = Ok (mkSequenceNumber n) /\
     FenceToken_parse (pretty n) = Ok (mkFenceToken n)) /\
  (forall s t, FenceToken_parse s = Ok t -> nonzero_u64 (fence_u64 t)) /\
  (forall s t, SequenceNumber_parse s = Ok t -> nonzero_u64 (sequence_u64 t)) /\
  (forall s, FenceToken_parse s = Err (NotAnInteger "FenceToken" s) <-> u64_from_str s = None).
Proof.
  unfold SequenceNumber_parse, FenceToken_parse, parse_nonzero_u64, parse_u64_str, require_nonzero.
  split_and!.
  - intros n [Hn Hz]. rewrite u64_from_str_pretty by done; cbn. by destruct (Z.eqb_spec n 0).
  - intros s t. destruct (u64_from_str s) as [v|] eqn:E; cbn; [|done].
    destruct (Z.eqb_spec v 0); cbn; [done|]. intros [= <-].
    split; [by eapply u64_from_str_range|done].
  - intros s t. destruct (u64_from_str s) as [v|] eqn:E; cbn; [|done].
    destruct (Z.eqb_spec v 0); cbn; [done|]. intros [= <-].
    split; [by eapply u64_from_str_range|done].
  - intros s. destruct (u64_from_str s) as [v|] eqn:E; cbn; [|done].
    by destruct (Z.eqb_spec v 0); cbn.
Qed.

(** ** A concrete ULID text form

    Crockford's base 32, upper case: an instance of the interface, used to
    evaluate the definitions. *)

Module ConcreteUlid.
Definition alphabet : list ascii := chars "0123456789ABCDEFGHJKMNPQRSTVWXYZ".

Definition digit_char (d : Z) : ascii := default "0"%char (alphabet !! Z.to_nat d).

Definition char_digit (c : ascii) : Z :=
  match list_find (fun x => x = c) alphabet with Some (n, _) => Z.of_nat n | None => 32 end.

Definition to_string (n : Z) : string := of_chars (digit_char <$> digits 32 26 n).

Definition from_string (s : string) : option Z :=
  let ds := char_digit <$> chars s in
  let n := undigits 32 ds in
  if (len s =? 26) && forallb (fun d => d <? 32) ds && (0 <=? n) && (n <=? u128_max)
  then Some n else None.

#[global] Instance ulid_api : UlidApi :=
  {| ulid_from_string := from_string; ulid_to_string := to_string |}.

Lemma alphabet_roundtrip d : 0 <= d < 32 -> char_digit (digit_char d) = d.
Proof.
  intros Hd.
  assert (forallb (fun n => char_digit (digit_char (Z.of_nat n)) =? Z.of_nat n) (seq 0 32) = true)
    as H by (vm_compute; reflexivity).
  rewrite forallb_forall in H. specialize (H (Z.to_nat d)). rewrite in_seq, Z2Nat.id in H by lia.
  apply Z.eqb_eq, H. lia.
Qed.

Lemma alphabet_alnum d : is_ascii_alphanumeric (digit_char d) = true.
Proof.
  unfold digit_char. destruct (alphabet !! Z.to_nat d) as [c|] eqn:H; [cbn|done].
  assert (Forall (fun c => is_ascii_alphanumeric c = true) alphabet) as Ha
    by (repeat (constructor; [reflexivity|]); constructor).
  exact (Forall_lookup_1 _ _ _ _ Ha H).
Qed.

#[global] Instance ulid_laws : UlidLaws.
Proof.
  split.
  - intros n Hn. cbn [ulid_from_string ulid_to_string ulid_api]. unfold from_string, to_string, len.
    rewrite chars_of_chars, length_fmap, digits_length.
    assert (char_digit <$> (digit_char <$> digits 32 26 n) = digits 32 26 n) as ->.
    { rewrite <- list_fmap_compose. rewrite <- (list_fmap_id (digits 32 26 n)) at 2.
      apply list_fmap_ext; intros k d Hd. apply alphabet_roundtrip.
      eapply (Forall_lookup_1 (fun d => 0 <= d < 32)); [by apply digits_range|done]. }
    rewrite undigits_digits by (unfold u128_max in *; lia).
    assert (forallb (fun d => d <? 32) (digits 32 26 n) = true) as ->.
    { apply forallb_forall. intros d Hd%list_elem_of_In.
      pose proof (digits_range 32 26 n ltac:(lia)) as Hr. rewrite Forall_forall in Hr.
      specialize (Hr d Hd). lia. }
    destruct (Z.leb_spec 0 n), (Z.leb_spec n u128_max); cbn; done || lia.
  - intros n _. cbn [ulid_to_string ulid_api]. unfold to_string, len. by rewrite chars_of_chars, length_fmap, digits_length.
  - intros n _. cbn [ulid_to_string ulid_api]. unfold to_string. rewrite chars_of_chars. apply Forall_fmap, Forall_true.
    intros d; apply alphabet_alnum.
  - intros s n; cbn [ulid_from_string ulid_api]. unfold from_string. case_match eqn:E; [|done]. intros; simplify_eq. lia.
Qed.

(** The instance with number 1. *)
Definition one : InstanceId := InstanceId_from_u128 1.

Lemma one_wf : InstanceId_wf one 1.
Proof. by split. Qed.
End ConcreteUlid.
