(* ===== verification/Lifecycle.v ===== *)
(** * The lifecycle state machine

    [crates/vo-types/src/state/lifecycle.rs] and [transition.rs]: the flat
    state enum, the event vocabulary, the transition function [apply] and the
    classification functions, followed by the step relation it induces. *)

From S2P Require Import Prelude.

Module LifecycleState.
(** [enum LifecycleState]. *)
Inductive LifecycleState : Set :=
| Pending
| RunningDecision
| StepScheduled
| StepExecuting
| WaitingForTimer
| WaitingForSignal
| PendingPublication
| Hibernated
| Compensating
| Reconciling
| Completed
| Failed
| Cancelled.
End LifecycleState.
Abbreviation LifecycleState := LifecycleState.LifecycleState.

Module LifecycleSuperstate.
(** [enum LifecycleSuperstate] of [lifecycle_superstate.rs]. *)
Inductive LifecycleSuperstate : Set :=
| Active | Suspended | Recovering | Compensating | Terminal.
End LifecycleSuperstate.
Abbreviation LifecycleSuperstate := LifecycleSuperstate.LifecycleSuperstate.

Module BlockedReason.
(** [enum BlockedReason]. *)
Inductive BlockedReason : Set :=
| DependenciesPending | ResourceContention | ManualHold | AwaitingWakeSignal.
End BlockedReason.
Abbreviation BlockedReason := BlockedReason.BlockedReason.

Module OperationalStatus.
(** [enum OperationalStatus]. *)
Inductive OperationalStatus : Set :=
| Healthy
| Blocked (reason : BlockedReason)
| Recovering.
End OperationalStatus.
Abbreviation OperationalStatus := OperationalStatus.OperationalStatus.

Module TransitionEvent.
(** [enum TransitionEvent]. *)
Inductive TransitionEvent : Set :=
| AssignToNode
| Cancel
| StepScheduled
| Fail
| ExecuteStep
| WaitForTimer
| WaitForSignal
| CompleteStep
| YieldWithBlob
| TimerFired
| TimerExpired
| SignalReceived
| ConfirmPublication
| PublicationFailed
| EmitOutputRef
| InstanceResumed
| Hibernate
| WakeFromHibernation
| BeginCompensation
| CompensationCompleted
| CompensationFailed
| ReconciliationCompleted
| ReconciliationFailed.
End TransitionEvent.
Abbreviation TransitionEvent := TransitionEvent.TransitionEvent.

#[global] Instance LifecycleState_eq_dec : EqDecision LifecycleState.
Proof. solve_decision. Defined.
#[global] Instance LifecycleSuperstate_eq_dec : EqDecision LifecycleSuperstate.
Proof. solve_decision. Defined.
#[global] Instance BlockedReason_eq_dec : EqDecision BlockedReason.
Proof. solve_decision. Defined.
#[global] Instance OperationalStatus_eq_dec : EqDecision OperationalStatus.
Proof. solve_decision. Defined.
#[global] Instance TransitionEvent_eq_dec : EqDecision TransitionEvent.
Proof. solve_decision. Defined.

Module LS := LifecycleState.
Module TE := TransitionEvent.

(** [enum TransitionError]. *)
Inductive TransitionError : Set :=
| TerminalStateTransition
| InvalidTransition.

(** [LifecycleState::get_operational_status]. *)
Definition get_operational_status (s : LifecycleState) : OperationalStatus :=
  match s with
  | LS.Pending | LS.RunningDecision | LS.StepScheduled | LS.StepExecuting =>
      OperationalStatus.Healthy
  | LS.WaitingForTimer | LS.WaitingForSignal => OperationalStatus.Healthy
  | LS.PendingPublication => OperationalStatus.Blocked BlockedReason.DependenciesPending
  | LS.Hibernated => OperationalStatus.Blocked BlockedReason.AwaitingWakeSignal
  | LS.Compensating | LS.Reconciling => OperationalStatus.Recovering
  | LS.Completed | LS.Cancelled => OperationalStatus.Blocked BlockedReason.ManualHold
  | LS.Failed => OperationalStatus.Recovering
  end.

(** [LifecycleState::is_terminal]. *)
Definition is_terminal (s : LifecycleState) : bool :=
  match s with
  | LS.Completed | LS.Failed | LS.Cancelled => true
  | _ => false
  end.

(** [LifecycleState::superstate]. *)
Definition superstate (s : LifecycleState) : LifecycleSuperstate :=
  match s with
  | LS.Pending | LS.RunningDecision | LS.StepScheduled | LS.StepExecuting =>
      LifecycleSuperstate.Active
  | LS.WaitingForTimer | LS.WaitingForSignal | LS.PendingPublication =>
      LifecycleSuperstate.Suspended
  | LS.Failed | LS.Reconciling => LifecycleSuperstate.Recovering
  | LS.Compensating => LifecycleSuperstate.Compensating
  | LS.Completed | LS.Cancelled => LifecycleSuperstate.Terminal
  | LS.Hibernated => LifecycleSuperstate.Suspended
  end.

(** [LifecycleState::get_valid_transitions]. *)
Definition get_valid_transitions (s : LifecycleState) : list TransitionEvent :=
  match s with
  | LS.Pending => [TE.AssignToNode; TE.Cancel]
  | LS.RunningDecision => [TE.StepScheduled; TE.Hibernate; TE.Cancel; TE.Fail]
  | LS.StepScheduled => [TE.ExecuteStep; TE.Cancel; TE.Fail]
  | LS.StepExecuting =>
      [TE.WaitForTimer; TE.WaitForSignal; TE.YieldWithBlob; TE.CompleteStep; TE.Cancel; TE.Fail]
  | LS.WaitingForTimer => [TE.TimerFired; TE.TimerExpired; TE.Hibernate; TE.Cancel; TE.Fail]
  | LS.WaitingForSignal => [TE.SignalReceived; TE.Cancel; TE.Fail]
  | LS.PendingPublication => [TE.ConfirmPublication; TE.PublicationFailed; TE.Cancel]
  | LS.Hibernated => [TE.WakeFromHibernation; TE.Cancel]
  | LS.Compensating => [TE.CompensationCompleted; TE.CompensationFailed; TE.Cancel]
  | LS.Reconciling => [TE.ReconciliationCompleted; TE.ReconciliationFailed; TE.Cancel]
  | LS.Completed | LS.Cancelled => []
  | LS.Failed => [TE.InstanceResumed]
  end.

(** [TransitionEvent::all_variants]. *)
Definition all_variants : list TransitionEvent :=
  [TE.AssignToNode; TE.Cancel; TE.StepScheduled; TE.Fail; TE.ExecuteStep; TE.WaitForTimer;
   TE.WaitForSignal; TE.CompleteStep; TE.YieldWithBlob; TE.TimerFired; TE.TimerExpired;
   TE.SignalReceived; TE.ConfirmPublication; TE.PublicationFailed; TE.EmitOutputRef;
   TE.InstanceResumed; TE.Hibernate; TE.WakeFromHibernation; TE.BeginCompensation;
   TE.CompensationCompleted; TE.CompensationFailed; TE.ReconciliationCompleted;
   TE.ReconciliationFailed].

(** [state::apply]: the arms in the order of the source. *)
Definition apply (current_state : LifecycleState) (event : TransitionEvent)
  : result TransitionError LifecycleState :=
  match current_state, event with
  | LS.Pending, TE.AssignToNode
  | LS.Failed, TE.InstanceResumed => Ok LS.RunningDecision
  | LS.RunningDecision, TE.StepScheduled => Ok LS.StepScheduled
  | LS.StepScheduled, TE.ExecuteStep
  | LS.WaitingForTimer, TE.TimerFired
  | LS.WaitingForSignal, TE.SignalReceived => Ok LS.StepExecuting
  | LS.StepExecuting, TE.WaitForTimer => Ok LS.WaitingForTimer
  | LS.StepExecuting, TE.WaitForSignal => Ok LS.WaitingForSignal
  | LS.StepExecuting, TE.CompleteStep => Ok LS.Completed
  | LS.WaitingForTimer, TE.TimerExpired => Ok LS.Failed
  | (LS.Pending | LS.RunningDecision | LS.StepScheduled | LS.StepExecuting
    | LS.WaitingForTimer | LS.WaitingForSignal | LS.PendingPublication), TE.Cancel =>
      Ok LS.Cancelled
  | (LS.RunningDecision | LS.StepScheduled | LS.StepExecuting
    | LS.WaitingForTimer | LS.WaitingForSignal | LS.PendingPublication), TE.Fail =>
      Ok LS.Failed
  | LS.StepExecuting, TE.YieldWithBlob => Ok LS.PendingPublication
  | LS.PendingPublication, TE.ConfirmPublication => Ok LS.Completed
  | LS.PendingPublication, TE.PublicationFailed => Ok LS.Failed
  | LS.Completed, TE.EmitOutputRef => Ok LS.Completed
  | LS.RunningDecision, TE.Hibernate
  | LS.WaitingForTimer, TE.Hibernate => Ok LS.Hibernated
  | LS.Hibernated, TE.WakeFromHibernation => Ok LS.RunningDecision
  | LS.StepExecuting, TE.BeginCompensation => Ok LS.Compensating
  | LS.Compensating, TE.CompensationCompleted => Ok LS.Completed
  | LS.Compensating, TE.CompensationFailed => Ok LS.Failed
  | LS.Reconciling, TE.ReconciliationCompleted => Ok LS.RunningDecision
  | LS.Reconciling, TE.ReconciliationFailed => Ok LS.Failed
  | (LS.Completed | LS.Failed | LS.Cancelled), _ => Err TerminalStateTransition
  | _, _ => Err InvalidTransition
  end.

(** ** The step relation *)

(** One accepted event. *)
Inductive step : LifecycleState -> LifecycleState -> Prop :=
| step_apply s e s' : apply s e = Ok s' -> step s s'.

(** Running a list of events, stopping at the first rejected one. *)
Fixpoint run (s : LifecycleState) (es : list TransitionEvent)
  : result TransitionError LifecycleState :=
  match es with
  | [] => Ok s
  | e :: es' => let? s' := apply s e in run s' es'
  end.

(** The states an instance created as [Pending] can be in. *)
Definition reachable (s : LifecycleState) : Prop := rtc step LS.Pending s.

#[export] Hint Constructors step : vo.

(** Finite case analysis over states and events. *)
Ltac by_table := repeat (intros []); vm_compute; try done; try naive_solver.

Lemma step_inv s s' : step s s' -> exists e, apply s e = Ok s'.
Proof. inversion 1; eauto. Qed.

Lemma run_rtc s es s' : run s es = Ok s' -> rtc step s s'.
Proof.
  revert s; induction es as [|e es IH]; cbn; intros s H; [by inv_ok; subst; constructor|].
  destruct (apply s e) eqn:E; cbn in H; [|done].
  eapply rtc_l; eauto with vo.
Qed.

Lemma rtc_run s s' : rtc step s s' -> exists es, run s es = Ok s'.
Proof.
  induction 1 as [s|s s1 s' (e & E)%step_inv _ (es & IH)]; [by exists []|].
  exists (e :: es); cbn; by rewrite E.
Qed.

(** An invariant closed under [apply] holds along every run. *)
Lemma rtc_step_inv (P : LifecycleState -> Prop) s s' :
  (forall a e b, P a -> apply a e = Ok b -> P b) -> P s -> rtc step s s' -> P s'.
Proof. intros Hstep Hs. induction 1 as [|x y z (e & E)%step_inv _ IH]; eauto. Qed.

(** *** Where [get_valid_transitions] and [apply] disagree *)

(** Events [apply] accepts although the listing omits them. *)
Definition accepted_not_listed : list (LifecycleState * TransitionEvent) :=
  [(LS.PendingPublication, TE.Fail); (LS.Completed, TE.EmitOutputRef);
   (LS.StepExecuting, TE.BeginCompensation)].

(** Events the listing announces although [apply] rejects them. *)
Definition listed_not_accepted : list (LifecycleState * TransitionEvent) :=
  [(LS.Hibernated, TE.Cancel); (LS.Compensating, TE.Cancel); (LS.Reconciling, TE.Cancel)].

(** Events that lead back to an earlier phase of the lifecycle. *)
Definition is_reentry (e : TransitionEvent) : bool :=
  match e with
  | TE.TimerFired | TE.SignalReceived | TE.WakeFromHibernation
  | TE.InstanceResumed | TE.ReconciliationCompleted | TE.EmitOutputRef => true
  | _ => false
  end.

(** The longest run without a re-entry event that can still follow. *)
Definition phase_rank (s : LifecycleState) : nat :=
  match s with
  | LS.Pending => 5
  | LS.RunningDecision => 4
  | LS.StepScheduled => 3
  | LS.StepExecuting => 2
  | LS.WaitingForTimer | LS.WaitingForSignal | LS.PendingPublication
  | LS.Compensating | LS.Reconciling => 1
  | LS.Hibernated | LS.Completed | LS.Failed | LS.Cancelled => 0
  end.

Lemma apply_rank s e s' :
  is_reentry e = false -> apply s e = Ok s' -> (phase_rank s' < phase_rank s)%nat.
Proof. destruct s, e; cbn; intros; simplify_eq; cbn; lia. Qed.

(** ** Properties *)

(** The terminal states are final: from [Completed] and [Cancelled] no run of
    accepted events leads anywhere else, and the one event that leaves [Failed]
    is [InstanceResumed], which is accepted in no other state (INV-001, INV-004). *)
Theorem terminal_states_final :
  (forall s s', s = LS.Completed \/ s = LS.Cancelled -> rtc step s s' -> s' = s) /\
  (forall s s' e, apply s e = Ok s' ->
     (s = LS.Failed <-> e = TE.InstanceResumed)).
Proof.
  split.
  - intros s s' Hs. apply (rtc_step_inv (fun x => x = s)); [|done].
    intros a e b -> E. destruct Hs; subst; destruct e; by simplify_eq/=.
  - intros s s' e; destruct s, e; cbn; naive_solver.
Qed.

(** From the initial state [Pending] every state except [Reconciling] can be
    reached by accepted events, and [Reconciling] cannot: no event enters it. *)
Theorem reachable_iff s : reachable s <-> s <> LS.Reconciling.
Proof.
  split.
  - apply (rtc_step_inv (fun s => s <> LS.Reconciling)); [|done].
    intros a e b _ E ->. destruct a, e; by simplify_eq/=.
  - intros Hs.
    pose (path := [TE.AssignToNode; TE.StepScheduled; TE.ExecuteStep]).
    assert (Hgo : forall n es, run LS.Pending (take n path ++ es) = Ok s -> reachable s)
      by (intros n es; apply run_rtc).
    destruct s; [ apply (Hgo 0%nat []) | apply (Hgo 1%nat []) | apply (Hgo 2%nat [])
      | apply (Hgo 3%nat []) | apply (Hgo 3%nat [TE.WaitForTimer])
      | apply (Hgo 3%nat [TE.WaitForSignal]) | apply (Hgo 3%nat [TE.YieldWithBlob])
      | apply (Hgo 1%nat [TE.Hibernate]) | apply (Hgo 3%nat [TE.BeginCompensation]) | done
      | apply (Hgo 3%nat [TE.CompleteStep]) | apply (Hgo 1%nat [TE.Fail])
      | apply (Hgo 0%nat [TE.Cancel]) ]; done.
Qed.

(** No state is a dead end: from every state, at most two accepted events
    lead to a terminal state. *)
Theorem terminal_state_attainable s :
  exists es s', (length es <= 2)%nat /\ run s es = Ok s' /\ is_terminal s' = true.
Proof.
  pose (exit := fun s => match s with
    | LS.Hibernated => [TE.WakeFromHibernation; TE.Cancel]
    | LS.Compensating => [TE.CompensationFailed]
    | LS.Reconciling => [TE.ReconciliationFailed]
    | LS.Completed | LS.Failed | LS.Cancelled => []
    | _ => [TE.Cancel]
    end).
  exists (exit s).
  destruct s; eexists; (split; [cbn; lia|split; reflexivity]).
Qed.

(** [get_valid_transitions] lists exactly the events [apply] accepts, but for
    three events that are accepted without being listed and three that are
    listed (cancellation of a hibernated, compensating or reconciling instance)
    although [apply] rejects them. *)
Theorem get_valid_transitions_spec s e :
  e ∈ get_valid_transitions s <->
  (is_ok (apply s e) = true /\ (s, e) ∉ accepted_not_listed) \/
  (s, e) ∈ listed_not_accepted.
Proof.
  assert (H : bool_decide (e ∈ get_valid_transitions s) =
    (is_ok (apply s e) && negb (bool_decide ((s, e) ∈ accepted_not_listed))
     || bool_decide ((s, e) ∈ listed_not_accepted))) by (destruct s, e; vm_compute; done).
  by rewrite <- (bool_decide_eq_true (e ∈ _)), H, orb_true_iff, andb_true_iff, negb_true_iff,
    bool_decide_eq_false, bool_decide_eq_true.
Qed.

(** A run without a re-entry event (a fired timer, a received signal, a
    wake-up, a resumption, a completed reconciliation, an output reference) has
    at most five steps, so the only cycles of the state machine go through those
    events; the only self-loop is [EmitOutputRef] in [Completed]. *)
Theorem runs_without_reentry_bounded :
  (forall s es s', run s es = Ok s' -> Forall (fun e => is_reentry e = false) es ->
     (length es <= 5)%nat) /\
  (forall s e, apply s e = Ok s <-> s = LS.Completed /\ e = TE.EmitOutputRef).
Proof.
  split.
  - intros s es s' Hrun Hes.
    enough (length es <= phase_rank s)%nat by (destruct s; cbn in *; lia).
    revert s Hrun; induction Hes as [|e es He _ IH]; intros s Hrun; cbn in *; [lia|].
    destruct (apply s e) as [s1|] eqn:E; cbn in Hrun; [|done].
    specialize (IH _ Hrun). pose proof (apply_rank _ _ _ He E). lia.
  - intros s e; destruct s, e; cbn; naive_solver.
Qed.
