(* ===== verification/TransitionTable.v ===== *)
(** * The state machine compiler

    [crates/vo-types/src/state/compiler/]: guarded transition rules, the table
    that holds them, its builder, and the lifecycle table built with it. The
    [HashMap] keyed by [(state, event)] is a [gmap]; where the code iterates over
    the map the order is unspecified, and statements are about membership. *)

From S2P Require Import Prelude Lifecycle.

(** ** Enumerations as map keys *)

Definition state_index (s : LifecycleState) : nat :=
  match s with
  | LS.Pending => 0 | LS.RunningDecision => 1 | LS.StepScheduled => 2 | LS.StepExecuting => 3
  | LS.WaitingForTimer => 4 | LS.WaitingForSignal => 5 | LS.PendingPublication => 6
  | LS.Hibernated => 7 | LS.Compensating => 8 | LS.Reconciling => 9 | LS.Completed => 10
  | LS.Failed => 11 | LS.Cancelled => 12
  end.

Definition all_states : list LifecycleState :=
  [LS.Pending; LS.RunningDecision; LS.StepScheduled; LS.StepExecuting; LS.WaitingForTimer;
   LS.WaitingForSignal; LS.PendingPublication; LS.Hibernated; LS.Compensating; LS.Reconciling;
   LS.Completed; LS.Failed; LS.Cancelled].

Definition event_index (e : TransitionEvent) : nat :=
  match e with
  | TE.AssignToNode => 0 | TE.Cancel => 1 | TE.StepScheduled => 2 | TE.Fail => 3
  | TE.ExecuteStep => 4 | TE.WaitForTimer => 5 | TE.WaitForSignal => 6 | TE.CompleteStep => 7
  | TE.YieldWithBlob => 8 | TE.TimerFired => 9 | TE.TimerExpired => 10 | TE.SignalReceived => 11
  | TE.ConfirmPublication => 12 | TE.PublicationFailed => 13 | TE.EmitOutputRef => 14
  | TE.InstanceResumed => 15 | TE.Hibernate => 16 | TE.WakeFromHibernation => 17
  | TE.BeginCompensation => 18 | TE.CompensationCompleted => 19 | TE.CompensationFailed => 20
  | TE.ReconciliationCompleted => 21 | TE.ReconciliationFailed => 22
  end.

#[global] Program Instance LifecycleState_countable : Countable LifecycleState :=
  inj_countable' state_index (fun n => default LS.Pending (all_states !! n)) _.
Next Obligation. by intros []. Qed.

#[global] Program Instance TransitionEvent_countable : Countable TransitionEvent :=
  inj_countable' event_index (fun n => default TE.Cancel (Lifecycle.all_variants !! n)) _.
Next Obligation. by intros []. Qed.

(** ** Guards and side effects *)

(** [enum GuardResult]. *)
Inductive GuardResult : Set := Accepted | Rejected.

Module Guard.
(** [enum Guard]; [If] holds a function pointer, [Fn] a boxed closure. *)
Inductive Guard : Type :=
| Always
| Never
| If (predicate : LifecycleState -> TransitionEvent -> bool)
| Fn (f : LifecycleState -> TransitionEvent -> GuardResult).
End Guard.
Abbreviation Guard := Guard.Guard.

(** [impl Clone for Guard]: a closure is replaced by one that rejects. *)
Definition guard_clone (g : Guard) : Guard :=
  match g with
  | Guard.Always => Guard.Always
  | Guard.Never => Guard.Never
  | Guard.If predicate => Guard.If predicate
  | Guard.Fn _ => Guard.Fn (fun _ _ => Rejected)
  end.

(** [Guard::check]. *)
Definition check (g : Guard) (state : LifecycleState) (event : TransitionEvent) : GuardResult :=
  match g with
  | Guard.Always => Accepted
  | Guard.Never => Rejected
  | Guard.If predicate => if predicate state event then Accepted else Rejected
  | Guard.Fn f => f state event
  end.

(** [enum SideEffectResult]. *)
Inductive SideEffectResult : Set := Executed | Skipped.

Module SideEffect.
(** [enum SideEffect]. *)
Inductive SideEffect : Type :=
| None
| Log (message : string)
| Fn (f : LifecycleState -> TransitionEvent -> LifecycleState -> SideEffectResult).
End SideEffect.
Abbreviation SideEffect := SideEffect.SideEffect.

(** [impl Clone for SideEffect]: a closure is replaced by one that does nothing. *)
Definition effect_clone (x : SideEffect) : SideEffect :=
  match x with
  | SideEffect.None => SideEffect.None
  | SideEffect.Log message => SideEffect.Log message
  | SideEffect.Fn _ => SideEffect.Fn (fun _ _ _ => Skipped)
  end.

(** [SideEffect::execute]; the line printed by [Log] is not modelled. *)
Definition execute (x : SideEffect) (from : LifecycleState) (event : TransitionEvent)
    (to : LifecycleState) : SideEffectResult :=
  match x with
  | SideEffect.None => Skipped
  | SideEffect.Log _ => Executed
  | SideEffect.Fn f => f from event to
  end.

(** ** Rules and tables *)

(** [struct TransitionRule]. *)
Record TransitionRule : Type := mkRule {
  rule_from : LifecycleState;
  rule_event : TransitionEvent;
  rule_to : LifecycleState;
  rule_guard : Guard;
  rule_side_effect : SideEffect;
  rule_description : option string;
}.

(** [TransitionRule::new]. *)
Definition rule_new (from : LifecycleState) (event : TransitionEvent) (to : LifecycleState)
  : TransitionRule := mkRule from event to Guard.Always SideEffect.None None.

(** [impl Clone for TransitionRule]. *)
Definition rule_clone (r : TransitionRule) : TransitionRule :=
  mkRule (rule_from r) (rule_event r) (rule_to r) (guard_clone (rule_guard r))
    (effect_clone (rule_side_effect r)) (rule_description r).

(** [struct TransitionTable]. *)
Record TransitionTable : Type := mkTable {
  rules : gmap (LifecycleState * TransitionEvent) TransitionRule;
  terminal_states : list LifecycleState;
}.

(** The derived [Clone] of [TransitionTable], rule by rule. *)
Definition table_clone (t : TransitionTable) : TransitionTable :=
  mkTable (rule_clone <$> rules t) (terminal_states t).

(** [enum CompilerTransitionError]. *)
Inductive CompilerTransitionError : Set :=
| TerminalStateTransition
| InvalidTransition
| GuardRejected.

(** [TransitionTable::is_terminal_state]. *)
Definition is_terminal_state (t : TransitionTable) (state : LifecycleState) : bool :=
  bool_decide (state ∈ terminal_states t).

(** The arguments and the result of one call of [SideEffect::execute]. *)
Definition EffectCall : Type :=
  LifecycleState * TransitionEvent * LifecycleState * SideEffectResult.

(** [TransitionTable::apply], with the side effects it executes. *)
Definition apply (t : TransitionTable) (current : LifecycleState) (event : TransitionEvent)
  : result CompilerTransitionError LifecycleState * list EffectCall :=
  if is_terminal_state t current
     && negb (bool_decide (current = LS.Failed) && bool_decide (event = TE.InstanceResumed))
  then (Err TerminalStateTransition, [])
  else
    match rules t !! (current, event) with
    | Some rule =>
        match check (rule_guard rule) current event with
        | Accepted =>
            (Ok (rule_to rule),
             [(current, event, rule_to rule,
               execute (rule_side_effect rule) current event (rule_to rule))])
        | Rejected => (Err GuardRejected, [])
        end
    | None => (Err InvalidTransition, [])
    end.

(** [TransitionTable::get_rule]. *)
Definition get_rule (t : TransitionTable) (from : LifecycleState) (event : TransitionEvent)
  : option TransitionRule := rules t !! (from, event).

(** [TransitionTable::get_transitions_from], in the order of the map. *)
Definition get_transitions_from (t : TransitionTable) (state : LifecycleState)
  : list TransitionRule :=
  filter (fun r => rule_from r = state) (snd <$> map_to_list (rules t)).

(** ** The builder *)

(** [struct TransitionTableBuilder]. *)
Record TransitionTableBuilder : Type := mkTableBuilder { builder_table : TransitionTable }.

(** [struct TransitionBuilder]. *)
Record TransitionBuilder : Type := mkTransitionBuilder {
  tb_table : TransitionTable;
  tb_from : LifecycleState;
  tb_event : TransitionEvent;
  tb_to : LifecycleState;
  tb_guard : Guard;
  tb_side_effect : SideEffect;
  tb_description : option string;
}.

(** [TransitionTableBuilder::new], which is also [TransitionTable::builder]. *)
Definition builder_new : TransitionTableBuilder :=
  mkTableBuilder (mkTable ∅ [LS.Completed; LS.Failed; LS.Cancelled]).

(** [TransitionTableBuilder::add_transition] with [TransitionBuilder::new]. *)
Definition add_transition (b : TransitionTableBuilder) (from : LifecycleState)
    (event : TransitionEvent) : TransitionBuilder :=
  mkTransitionBuilder (builder_table b) from event LS.Pending Guard.Always SideEffect.None None.

(** [TransitionTableBuilder::terminal_state]. *)
Definition terminal_state (b : TransitionTableBuilder) (state : LifecycleState)
  : TransitionTableBuilder :=
  let t := builder_table b in
  if bool_decide (state ∈ terminal_states t) then b
  else mkTableBuilder (mkTable (rules t) (terminal_states t ++ [state])).

(** [TransitionTableBuilder::build]. *)
Definition table_build (b : TransitionTableBuilder) : TransitionTable := builder_table b.

(** [TransitionBuilder::to]. *)
Definition to (tb : TransitionBuilder) (state : LifecycleState) : TransitionBuilder :=
  mkTransitionBuilder (tb_table tb) (tb_from tb) (tb_event tb) state (tb_guard tb)
    (tb_side_effect tb) (tb_description tb).

(** [TransitionBuilder::with_guard]. *)
Definition with_guard (tb : TransitionBuilder) (guard : Guard) : TransitionBuilder :=
  mkTransitionBuilder (tb_table tb) (tb_from tb) (tb_event tb) (tb_to tb) guard
    (tb_side_effect tb) (tb_description tb).

(** [TransitionBuilder::with_side_effect]. *)
Definition with_side_effect (tb : TransitionBuilder) (effect : SideEffect) : TransitionBuilder :=
  mkTransitionBuilder (tb_table tb) (tb_from tb) (tb_event tb) (tb_to tb) (tb_guard tb)
    effect (tb_description tb).

(** [TransitionBuilder::with_description]. *)
Definition with_description (tb : TransitionBuilder) (desc : string) : TransitionBuilder :=
  mkTransitionBuilder (tb_table tb) (tb_from tb) (tb_event tb) (tb_to tb) (tb_guard tb)
    (tb_side_effect tb) (Some desc).

(** [TransitionBuilder::build]: insert the rule and go back to the table builder. *)
Definition build (tb : TransitionBuilder) : TransitionTableBuilder :=
  let rule := mkRule (tb_from tb) (tb_event tb) (tb_to tb) (tb_guard tb)
                (tb_side_effect tb) (tb_description tb) in
  mkTableBuilder (mkTable (<[(tb_from tb, tb_event tb) := rule]> (rules (tb_table tb)))
                    (terminal_states (tb_table tb))).

(** ** The lifecycle table *)

(** One link of the builder chain of [create_lifecycle_table]:
    [.add_transition(from, event).to(to).with_description(desc).build()]. *)
Definition link (b : TransitionTableBuilder) (from : LifecycleState) (event : TransitionEvent)
    (dest : LifecycleState) (desc : string) : TransitionTableBuilder :=
  build (with_description (to (add_transition b from event) dest) desc).

(** [create_lifecycle_table]. *)
Definition create_lifecycle_table : TransitionTable :=
  let b := builder_new in
  let b := link b LS.Pending TE.AssignToNode LS.RunningDecision "Assign pending bead to node" in
  let b := link b LS.Pending TE.Cancel LS.Cancelled "Cancel pending bead" in
  let b := link b LS.RunningDecision TE.StepScheduled LS.StepScheduled "Schedule step for execution" in
  let b := link b LS.RunningDecision TE.Cancel LS.Cancelled "Cancel during decision" in
  let b := link b LS.RunningDecision TE.Fail LS.Failed "Fail during decision" in
  let b := link b LS.StepScheduled TE.ExecuteStep LS.StepExecuting "Begin step execution" in
  let b := link b LS.StepScheduled TE.Cancel LS.Cancelled "Cancel scheduled step" in
  let b := link b LS.StepScheduled TE.Fail LS.Failed "Fail scheduled step" in
  let b := link b LS.StepExecuting TE.WaitForTimer LS.WaitingForTimer "Wait for timer" in
  let b := link b LS.StepExecuting TE.CompleteStep LS.Completed "Complete step successfully" in
  let b := link b LS.StepExecuting TE.Cancel LS.Cancelled "Cancel executing step" in
  let b := link b LS.StepExecuting TE.Fail LS.Failed "Fail executing step" in
  let b := link b LS.WaitingForTimer TE.TimerFired LS.StepExecuting "Timer fired, resume execution" in
  let b := link b LS.WaitingForTimer TE.TimerExpired LS.Failed "Timer expired" in
  let b := link b LS.WaitingForTimer TE.Cancel LS.Cancelled "Cancel while waiting for timer" in
  let b := link b LS.WaitingForTimer TE.Fail LS.Failed "Fail while waiting for timer" in
  let b := build (with_guard (with_description
             (to (add_transition b LS.Failed TE.InstanceResumed) LS.RunningDecision) "Resume failed instance") Guard.Always) in
  table_build b.

(** ** Invariant of built tables *)

(** The builders that the public operations can produce. *)
Inductive built : TransitionTableBuilder -> Prop :=
| built_new : built builder_new
| built_terminal b s : built b -> built (terminal_state b s)
| built_rule b from event dest g x d :
    built b ->
    built (build (mkTransitionBuilder (builder_table b) from event dest g x d)).

(** Every rule is stored under its own key, and the terminal states are distinct
    and include the three the builder starts with. *)
Record table_wf (t : TransitionTable) : Prop := {
  wf_keys : forall k r, rules t !! k = Some r -> k = (rule_from r, rule_event r);
  wf_terminal_nodup : NoDup (terminal_states t);
  wf_terminal_default : [LS.Completed; LS.Failed; LS.Cancelled] ⊆ terminal_states t;
}.

Lemma table_wf_new : table_wf (builder_table builder_new).
Proof.
  split; cbn; [by intros ?? ?%lookup_empty_Some| |set_solver].
  rewrite !NoDup_cons; set_solver by (by apply NoDup_nil).
Qed.

Lemma table_wf_terminal b s :
  table_wf (builder_table b) -> table_wf (builder_table (terminal_state b s)).
Proof.
  intros [Hk Hn Hd]. unfold terminal_state. case_bool_decide as Hs; [by split|].
  split; cbn; [done| |set_solver].
  apply NoDup_app. split_and!; [done|set_solver|apply NoDup_singleton].
Qed.

Lemma table_wf_build b from event dest g x d :
  table_wf (builder_table b) ->
  table_wf (builder_table (build
    (mkTransitionBuilder (builder_table b) from event dest g x d))).
Proof.
  intros [Hk Hn Hd]. split; cbn; [|done..].
  intros k r Hr. apply lookup_insert_Some in Hr as [[<- <-]|[_ Hr]]; [done|by apply Hk].
Qed.

#[export] Hint Resolve table_wf_new table_wf_terminal table_wf_build : vo.

Lemma built_wf b : built b -> table_wf (builder_table b).
Proof. induction 1; auto with vo. Qed.

(** The states the lifecycle table knows. *)
Definition is_core (s : LifecycleState) : bool :=
  match s with
  | LS.Pending | LS.RunningDecision | LS.StepScheduled | LS.StepExecuting
  | LS.WaitingForTimer | LS.Completed | LS.Failed | LS.Cancelled => true
  | _ => false
  end.

(** The error of the table for an error of [state::apply]. *)
Definition table_error (e : TransitionError) : CompilerTransitionError :=
  match e with
  | Lifecycle.TerminalStateTransition => TerminalStateTransition
  | Lifecycle.InvalidTransition => InvalidTransition
  end.

Lemma check_clone g s e : check (guard_clone g) s e = Accepted -> check g s e = Accepted.
Proof. by destruct g. Qed.

(** The lifecycle table in closed form. *)
Lemma lifecycle_table_eq s e :
  (apply create_lifecycle_table s e).1 =
  match Lifecycle.apply s e with
  | Ok s' =>
      if is_core s && is_core s' && negb (bool_decide (e = TE.EmitOutputRef)) then Ok s'
      else Err (if is_terminal s then TerminalStateTransition else InvalidTransition)
  | Err x => Err (table_error x)
  end.
Proof. destruct s, e; vm_compute; done. Qed.

(** ** Properties *)

(** The compiled lifecycle table implements [state::apply] on the eight core
    states: it accepts an event exactly when [apply] does and both the source and
    the target are core states ([EmitOutputRef] apart), then with the same
    target, and where [apply] rejects it rejects with the same error. *)
Theorem lifecycle_table_refines_apply s e :
  (forall s', (apply create_lifecycle_table s e).1 = Ok s' <->
     Lifecycle.apply s e = Ok s' /\ is_core s = true /\ is_core s' = true /\
     e <> TE.EmitOutputRef) /\
  (forall x, Lifecycle.apply s e = Err x ->
     (apply create_lifecycle_table s e).1 = Err (table_error x)).
Proof.
  rewrite lifecycle_table_eq. split; [|by intros x ->].
  intros s'. destruct (Lifecycle.apply s e) as [s1|x]; [|naive_solver].
  destruct (is_core s) eqn:?, (is_core s1) eqn:?; cbn; try case_bool_decide; cbn;
    split; intros; destruct_and?; simplify_eq; done || congruence.
Qed.

(** Whatever sequence of builder operations made a table, its rules sit under
    their own keys and its terminal states are distinct and include [Completed],
    [Failed] and [Cancelled]; so [get_transitions_from] returns exactly the rules
    that [get_rule] finds for the state, and no built table lets an event other
    than [InstanceResumed] leave a terminal state. *)
Theorem built_table_correct b :
  built b ->
  let t := table_build b in
  table_wf t /\
  (forall s r, r ∈ get_transitions_from t s <->
     exists e, get_rule t s e = Some r /\ rule_event r = e /\ rule_from r = s) /\
  (forall s e s', is_terminal s = true -> (apply t s e).1 = Ok s' ->
     s = LS.Failed /\ e = TE.InstanceResumed).
Proof.
  intros Hb t. pose proof (built_wf _ Hb) as Hwf; fold t in Hwf.
  split_and!; [done| |].
  - intros s r. unfold get_transitions_from, get_rule.
    rewrite list_elem_of_filter, list_elem_of_fmap. split.
    + intros (<- & [k r'] & -> & Hk%elem_of_map_to_list). exists (rule_event r').
      cbn in *. by rewrite <- (wf_keys _ Hwf _ _ Hk).
    + intros (e & Hr & <- & <-). split; [done|].
      exists (rule_from r, rule_event r, r). by rewrite elem_of_map_to_list.
  - intros s e s' Hs. unfold apply, is_terminal_state.
    rewrite (bool_decide_eq_true_2 (s ∈ terminal_states t)).
    + repeat case_bool_decide; naive_solver.
    + apply (wf_terminal_default _ Hwf). destruct s; try done; set_solver.
Qed.

Lemma built_table_correct_witness :
  let b := build (to (add_transition builder_new LS.Pending TE.Cancel) LS.Cancelled) in
  built b /\ table_wf (table_build b).
Proof.
  intros b. assert (built b) as Hb by exact (built_rule builder_new _ _ _ _ _ _ built_new).
  split; [exact Hb|]. exact (proj1 (built_table_correct b Hb)).
Defined.

(** The table of one rule [Pending --AssignToNode--> RunningDecision] with the
    given guard. *)
Definition guarded_table (g : Guard) : TransitionTable :=
  table_build (build (with_guard
    (to (add_transition builder_new LS.Pending TE.AssignToNode) LS.RunningDecision) g)).

(** Cloning a table never adds behaviour: what the clone accepts, the original
    accepts with the same target. It may lose behaviour: a rule whose guard is a
    closure is rejected by the clone whatever the closure says. *)
Theorem clone_restricts :
  (forall t s e s', (apply (table_clone t) s e).1 = Ok s' -> (apply t s e).1 = Ok s') /\
  (forall f, f LS.Pending TE.AssignToNode = Accepted ->
     (apply (guarded_table (Guard.Fn f)) LS.Pending TE.AssignToNode).1 = Ok LS.RunningDecision /\
     (apply (table_clone (guarded_table (Guard.Fn f))) LS.Pending TE.AssignToNode).1
       = Err GuardRejected).
Proof.
  split.
  - intros t s e s'. unfold apply, table_clone, is_terminal_state; cbn.
    destruct (_ && _); [done|]. rewrite lookup_fmap.
    destruct (rules t !! (s, e)) as [r|]; cbn; [|done].
    destruct (check (guard_clone _) s e) eqn:E; [|done].
    by rewrite (check_clone _ _ _ E).
  - intros f Hf. split; [|done].
    unfold apply. by simpl; rewrite lookup_insert_eq; simpl; rewrite Hf.
Qed.
