(* ===== verification/Events.v ===== *)
(** * Event payloads

    [crates/vo-types/src/events/] (payload, envelope, error) and
    [payload_parser.rs]: the event vocabulary of the journal and its decoding
    from JSON. [serde_json] is a parameter: the type of its values and the
    accessors the code calls. *)

From S2P Require Import Prelude Identifiers.

(** The part of [serde_json] the decoder uses: [Value], [Map] and their
    accessors. *)
Class JsonApi : Type := {
  Value : Type;
  Map : Type;
  value_null : Value;
  is_null : Value -> bool;
  as_object : Value -> option Map;
  get : Map -> string -> option Value;
  as_str : Value -> option string;
  value_as_u64 : Value -> option Z;
}.

Module EventError.
(** The text of an [InvalidPayloadField]: a literal, or the error formatted into it. *)
Inductive Message : Type :=
| Text (text : string)
| Of (e : ParseError).

(** [events::Error]. *)
Inductive Error : Type :=
| InvalidInput
| InvalidEnvelopeFormat
| MissingEnvelopeField (field : string)
| InvalidEnvelopeField (message : string)
| UnsupportedEnvelopeVersion (version : Z)
| MissingSchemaVersion
| InvalidSchemaVersionFormat
| UnsupportedSchemaVersion (version : Z)
| InvalidPayloadFormat
| MissingPayloadField (field : string)
| InvalidPayloadField (message : Message)
| UnsupportedPayloadVersion (version : Z)
| UnknownPayloadType (name : string)
| EnvelopeDecodeFailed (source : Error)
| PayloadDecodeSkipped
| PayloadDecodeFailed (source : Error)
| SerializationError (message : string)
| InvalidCommandMetadata
| InvalidIssuer (name : string)
| UpcasterNotFound (from to : Z)
| UpcastFailed (message : string).
End EventError.
Abbreviation EventError := EventError.Error.

Section Payload.
Context `{J : JsonApi}.

(** [MAX_SUPPORTED_VERSION]. *)
Definition MAX_SUPPORTED_VERSION : Z := 1.

(** [require_string_field]. *)
Definition require_string_field (obj : Map) (field : string) : result EventError string :=
  let? v := ok_or (get obj field)
              (EventError.InvalidPayloadField (EventError.Text (field +:+ " is required"))) in
  ok_or (as_str v)
    (EventError.InvalidPayloadField (EventError.Text (field +:+ " must be a string"))).

(** [require_string]. *)
Definition require_string (obj : Map) (field : string) : result EventError string :=
  let? v := ok_or (get obj field) (EventError.MissingPayloadField field) in
  ok_or (as_str v)
    (EventError.InvalidPayloadField (EventError.Text (field +:+ " must be a string"))).

(** [require_u64]. *)
Definition require_u64 (obj : Map) (field : string) : result EventError Z :=
  let? v := ok_or (get obj field) (EventError.MissingPayloadField field) in
  ok_or (value_as_u64 v)
    (EventError.InvalidPayloadField (EventError.Text (field +:+ " must be an integer"))).

(** [optional_u64]. *)
Definition optional_u64 (obj : Map) (field : string) (def : Z) : Z :=
  default def (get obj field ≫= value_as_u64).

(** [optional_string]. *)
Definition optional_string (obj : Map) (field : string) : option string :=
  get obj field ≫= as_str.

(** [obj.get(field).cloned().unwrap_or(Value::Null)]. *)
Definition value_or_null (obj : Map) (field : string) : Value :=
  default value_null (get obj field).

(** [enum SinkKind]. *)
Inductive SinkKind : Set := BlobWrite | TimerWrite | SignalWrite.

(** [SinkKind::from_str]. *)
Definition SinkKind_from_str (s : string) : result EventError SinkKind :=
  if bool_decide (s = "BlobWrite") then Ok BlobWrite
  else if bool_decide (s = "TimerWrite") then Ok TimerWrite
  else if bool_decide (s = "SignalWrite") then Ok SignalWrite
  else Err (EventError.InvalidPayloadField (EventError.Text ("unknown sink kind: " +:+ s))).

(** [enum StepOutput]. *)
Inductive StepOutput : Type :=
| Null
| Inline (value : Value)
| Ref (ref_type uri : string).

(** [impl From<Value> for StepOutput]. *)
Definition StepOutput_from (value : Value) : StepOutput :=
  if is_null value then Null else Inline value.

(** [enum EventPayload]. *)
Inductive EventPayload : Type :=
| WorkflowStarted (workflow_id : string) (dag_topology : Value) (binary_hash : string)
    (workflow_version_hash : WorkflowVersionHash) (dedupe_key_hash : option string)
| WorkflowCompleted (workflow_id : string) (completion_time_ms : Z)
| WorkflowFailed (workflow_id failure_reason : string)
| WorkflowCancelled (workflow_id cancelled_by : string)
| StepScheduled (workflow_id step_id : string) (attempt fence : Z) (execution_id : string)
| StepStarted (workflow_id step_id : string) (started_at_ms : Z)
| StepCompleted (workflow_id step_id : string) (completed_at_ms attempt fence : Z)
    (routing_projection : Value) (output_ref output_hash : option string) (output : StepOutput)
| StepFailed (workflow_id step_id failure_reason : string) (attempt fence : Z)
| EffectPrepared (workflow_id step_id effect_id : string) (sink_kind : SinkKind)
    (payload_hash : string) (fence : Z)
| EffectCommitted (workflow_id step_id effect_id : string) (external_receipt : Value)
    (fence : Z)
| TimerSet (workflow_id timer_id : string) (fire_at_ms : Z)
| TimerScheduled (workflow_id timer_id : string) (fire_at_ms : Z) (instance_id : string)
| TimerFired (workflow_id timer_id : string) (fired_at_ms : Z)
| CancelRequested (workflow_id requested_by : string)
| SignalAwaiting (workflow_id signal_name instance_id : string) (awaited_at_ms : Z)
| InstanceResumed (workflow_id : string) (resumed_at_ms : Z)
| ContinuedAsNew (workflow_id lineage_id : string) (old_epoch new_epoch : Z)
| WorkflowQuarantined (workflow_id : string) (failure_count failure_window_seconds : Z).

(** The arm of the decoder for [WorkflowStarted]. *)
Definition decode_workflow_started (obj : Map) : result EventError EventPayload :=
  let? workflow_id := require_string_field obj "workflow_id" in
  let dag_topology := value_or_null obj "dag_topology" in
  let? binary_hash := require_string obj "binary_hash" in
  let? s := require_string obj "workflow_version_hash" in
  let? h := map_err (fun e => EventError.InvalidPayloadField (EventError.Of e))
              (WorkflowVersionHash_parse s) in
  Ok (WorkflowStarted workflow_id dag_topology binary_hash h
        (optional_string obj "dedupe_key_hash")).

(** The [match payload_type] of [try_from_json]. *)
Definition decode_by_type (payload_type : string) (obj : Map)
  : result EventError EventPayload :=
  let ty := fun s => bool_decide (payload_type = s) in
  if ty "WorkflowStarted" then decode_workflow_started obj
  else if ty "WorkflowCompleted" then
    let? w := require_string_field obj "workflow_id" in
    let? t := require_u64 obj "completion_time_ms" in
    Ok (WorkflowCompleted w t)
  else if ty "WorkflowFailed" then
    let? w := require_string_field obj "workflow_id" in
    let? r := require_string obj "failure_reason" in
    Ok (WorkflowFailed w r)
  else if ty "WorkflowCancelled" then
    let? w := require_string_field obj "workflow_id" in
    let? c := require_string obj "cancelled_by" in
    Ok (WorkflowCancelled w c)
  else if ty "StepScheduled" then
    let? w := require_string_field obj "workflow_id" in
    let? s := require_string obj "step_id" in
    let? a := require_u64 obj "attempt" in
    let? f := require_u64 obj "fence" in
    let? x := require_string obj "execution_id" in
    Ok (StepScheduled w s (as_u32 a) f x)
  else if ty "StepStarted" then
    let? w := require_string_field obj "workflow_id" in
    let? s := require_string obj "step_id" in
    let? t := require_u64 obj "started_at_ms" in
    Ok (StepStarted w s t)
  else if ty "StepCompleted" then
    let? w := require_string_field obj "workflow_id" in
    let? s := require_string obj "step_id" in
    let? t := require_u64 obj "completed_at_ms" in
    let? a := require_u64 obj "attempt" in
    let? f := require_u64 obj "fence" in
    Ok (StepCompleted w s t (as_u32 a) f (value_or_null obj "routing_projection")
          (optional_string obj "output_ref") (optional_string obj "output_hash")
          (StepOutput_from (value_or_null obj "output")))
  else if ty "StepFailed" then
    let? w := require_string_field obj "workflow_id" in
    let? s := require_string obj "step_id" in
    let? r := require_string obj "failure_reason" in
    let? a := require_u64 obj "attempt" in
    let? f := require_u64 obj "fence" in
    Ok (StepFailed w s r (as_u32 a) f)
  else if ty "EffectPrepared" then
    let? w := require_string_field obj "workflow_id" in
    let? s := require_string obj "step_id" in
    let? e := require_string obj "effect_id" in
    let? k := require_string obj "sink_kind" in
    let? k := SinkKind_from_str k in
    let? h := require_string obj "payload_hash" in
    let? f := require_u64 obj "fence" in
    Ok (EffectPrepared w s e k h f)
  else if ty "EffectCommitted" then
    let? w := require_string_field obj "workflow_id" in
    let? s := require_string obj "step_id" in
    let? e := require_string obj "effect_id" in
    let r := value_or_null obj "external_receipt" in
    let? f := require_u64 obj "fence" in
    Ok (EffectCommitted w s e r f)
  else if ty "TimerSet" then
    let? w := require_string_field obj "workflow_id" in
    let? t := require_string obj "timer_id" in
    let? f := require_u64 obj "fire_at_ms" in
    Ok (TimerSet w t f)
  else if ty "TimerScheduled" then
    let? w := require_string_field obj "workflow_id" in
    let? t := require_string obj "timer_id" in
    let? f := require_u64 obj "fire_at_ms" in
    let? i := require_string obj "instance_id" in
    Ok (TimerScheduled w t f i)
  else if ty "TimerFired" then
    let? w := require_string_field obj "workflow_id" in
    let? t := require_string obj "timer_id" in
    let? f := require_u64 obj "fired_at_ms" in
    Ok (TimerFired w t f)
  else if ty "CancelRequested" then
    let? w := require_string_field obj "workflow_id" in
    let? r := require_string obj "requested_by" in
    Ok (CancelRequested w r)
  else if ty "SignalAwaiting" then
    let? w := require_string_field obj "workflow_id" in
    let? n := require_string obj "signal_name" in
    let? i := require_string obj "instance_id" in
    let? t := require_u64 obj "awaited_at_ms" in
    Ok (SignalAwaiting w n i t)
  else if ty "InstanceResumed" then
    let? w := require_string_field obj "workflow_id" in
    let? t := require_u64 obj "resumed_at_ms" in
    Ok (InstanceResumed w t)
  else if ty "ContinuedAsNew" then
    let? w := require_string_field obj "workflow_id" in
    let? l := require_string obj "lineage_id" in
    let? o := require_u64 obj "old_epoch" in
    let? n := require_u64 obj "new_epoch" in
    Ok (ContinuedAsNew w l o n)
  else if ty "WorkflowQuarantined" then
    let? w := require_string_field obj "workflow_id" in
    let? c := require_u64 obj "failure_count" in
    let? s := require_u64 obj "failure_window_seconds" in
    Ok (WorkflowQuarantined w (as_u8 c) s)
  else Err (EventError.UnknownPayloadType payload_type).

(** [EventPayload::try_from_json]. *)
Definition try_from_json (payload_json : Value) : result EventError EventPayload :=
  let? obj := ok_or (as_object payload_json) EventError.InvalidPayloadFormat in
  let? payload_type := require_string obj "type" in
  let payload_version := optional_u64 obj "version" 0 in
  if u8_max <? payload_version then
    Err (EventError.InvalidPayloadField
           (EventError.Text "version exceeds maximum supported value"))
  else if MAX_SUPPORTED_VERSION <? payload_version then
    Err (EventError.UnsupportedPayloadVersion payload_version)
  else decode_by_type payload_type obj.

(** [EventPayload::is_version_supported]. *)
Definition is_version_supported (version : Z) : bool := version <=? MAX_SUPPORTED_VERSION.

(** [struct EventEnvelope], without the [metadata] that replay never reads. *)
Record EventEnvelope : Type := mkEnvelope {
  schema_version : Z;
  instance_id : string;
  sequence : Z;
  timestamp_ms : Z;
  payload : Value;
}.
End Payload.

(** ** JSON values as text

    An instance without structure, enough to run the stores that only carry values. *)

Module StringJson.
#[local] Instance string_json : JsonApi := {|
  Value := string;
  Map := gmap string string;
  value_null := "null";
  is_null := fun v => bool_decide (v = "null");
  as_object := fun _ => None;
  get := fun m k => m !! k;
  as_str := Some;
  value_as_u64 := u64_from_str;
|}.
End StringJson.

(** ** A concrete JSON

    An instance of the interface, used to evaluate the definitions. *)

Module ConcreteJson.
Inductive json : Type :=
| JNull
| JNum (n : Z)
| JStr (s : string)
| JObj (fields : object)
with object : Type :=
| ONil
| OCons (key : string) (value : json) (rest : object).

Fixpoint assoc (fields : object) (k : string) : option json :=
  match fields with
  | ONil => None
  | OCons k' v fields' => if bool_decide (k = k') then Some v else assoc fields' k
  end.

Definition obj (fields : list (string * json)) : object :=
  foldr (fun '(k, v) o => OCons k v o) ONil fields.

#[global] Instance json_api : JsonApi := {|
  Value := json;
  Map := object;
  value_null := JNull;
  is_null := fun v => match v with JNull => true | _ => false end;
  as_object := fun v => match v with JObj fs => Some fs | _ => None end;
  get := assoc;
  as_str := fun v => match v with JStr s => Some s | _ => None end;
  value_as_u64 := fun v => match v with
    | JNum n => if (0 <=? n) && (n <=? u64_max) then Some n else None
    | _ => None end;
|}.

(** A payload object of the given type, with a workflow id. *)
Definition event_json (ty : string) (fields : list (string * json)) : json :=
  JObj (obj (("type", JStr ty) :: ("workflow_id", JStr "wf") :: fields)).

Definition started : json :=
  event_json "WorkflowStarted"
    [("binary_hash", JStr "abcdef01"); ("workflow_version_hash", JStr "abcdef01")].
Definition scheduled (fence : Z) : json :=
  event_json "StepScheduled"
    [("step_id", JStr "s"); ("attempt", JNum 1); ("fence", JNum fence);
     ("execution_id", JStr "x")].
Definition step_started : json :=
  event_json "StepStarted" [("step_id", JStr "s"); ("started_at_ms", JNum 7)].
Definition completed : json :=
  event_json "WorkflowCompleted" [("completion_time_ms", JNum 9)].
Definition signal_awaiting : json :=
  event_json "SignalAwaiting"
    [("signal_name", JStr "go"); ("instance_id", JStr "i"); ("awaited_at_ms", JNum 8)].

(** The envelope of a payload at a sequence number. *)
Definition env (seq : Z) (p : json) : EventEnvelope := mkEnvelope 1 "i" seq 0 p.

(** A complete journal: started, scheduled, step started, completed. *)
Definition journal : list EventEnvelope :=
  [env 1 started; env 2 (scheduled 3); env 3 step_started; env 4 completed].
End ConcreteJson.

(** ** The schema of the payloads

    What an object says of a payload, field by field; the decoder accepts an object exactly
    when it says so of all the fields of one payload. *)

Section Schema.
Context `{J : JsonApi}.

(** The content of a field: a string, a number (kept whole, or modulo the width of a narrower
    field), an optional string, any value, the output of a step, a version hash, a sink. *)
Inductive Content : Type :=
| CString (s : string)
| CU64 (n : Z)
| CU32 (n : Z)
| CU8 (n : Z)
| COptString (o : option string)
| CValue (v : Value)
| COutput (o : StepOutput)
| CHash (h : WorkflowVersionHash)
| CSink (k : SinkKind).

(** [name] holds [v], or is absent and [v] is null. *)
Definition holds_value (obj : Map) (name : string) (v : Value) : Prop :=
  get obj name = Some v \/ (get obj name = None /\ v = value_null).

Definition sink_name (k : SinkKind) : string :=
  match k with
  | BlobWrite => "BlobWrite" | TimerWrite => "TimerWrite" | SignalWrite => "SignalWrite"
  end.

Definition field_is (obj : Map) (f : string * Content) : Prop :=
  match f.2 with
  | CString s => get obj f.1 ≫= as_str = Some s
  | CU64 n => get obj f.1 ≫= value_as_u64 = Some n
  | CU32 n => exists m, get obj f.1 ≫= value_as_u64 = Some m /\ n = m mod 2 ^ 32
  | CU8 n => exists m, get obj f.1 ≫= value_as_u64 = Some m /\ n = m mod 2 ^ 8
  | COptString o => get obj f.1 ≫= as_str = o
  | CValue v => holds_value obj f.1 v
  | COutput Null => exists v, holds_value obj f.1 v /\ is_null v = true
  | COutput (Inline v) => holds_value obj f.1 v /\ is_null v = false
  | COutput (Ref _ _) => False
  | CHash h => exists s, get obj f.1 ≫= as_str = Some s /\ WorkflowVersionHash_parse s = Ok h
  | CSink k => get obj f.1 ≫= as_str = Some (sink_name k)
  end.

(** The tag of each payload and its fields. *)
Definition schema (p : EventPayload) : string * list (string * Content) :=
  match p with
  | WorkflowStarted w dag b h dk =>
      ("WorkflowStarted",
       [("workflow_id", CString w); ("dag_topology", CValue dag); ("binary_hash", CString b);
        ("workflow_version_hash", CHash h); ("dedupe_key_hash", COptString dk)])
  | WorkflowCompleted w t =>
      ("WorkflowCompleted", [("workflow_id", CString w); ("completion_time_ms", CU64 t)])
  | WorkflowFailed w r => ("WorkflowFailed", [("workflow_id", CString w); ("failure_reason", CString r)])
  | WorkflowCancelled w c =>
      ("WorkflowCancelled", [("workflow_id", CString w); ("cancelled_by", CString c)])
  | StepScheduled w s a f x =>
      ("StepScheduled",
       [("workflow_id", CString w); ("step_id", CString s); ("attempt", CU32 a); ("fence", CU64 f);
        ("execution_id", CString x)])
  | StepStarted w s t =>
      ("StepStarted", [("workflow_id", CString w); ("step_id", CString s); ("started_at_ms", CU64 t)])
  | StepCompleted w s t a f r oref ohash o =>
      ("StepCompleted",
       [("workflow_id", CString w); ("step_id", CString s); ("completed_at_ms", CU64 t);
        ("attempt", CU32 a); ("fence", CU64 f); ("routing_projection", CValue r);
        ("output_ref", COptString oref); ("output_hash", COptString ohash); ("output", COutput o)])
  | StepFailed w s r a f =>
      ("StepFailed",
       [("workflow_id", CString w); ("step_id", CString s); ("failure_reason", CString r);
        ("attempt", CU32 a); ("fence", CU64 f)])
  | EffectPrepared w s e k h f =>
      ("EffectPrepared",
       [("workflow_id", CString w); ("step_id", CString s); ("effect_id", CString e);
        ("sink_kind", CSink k); ("payload_hash", CString h); ("fence", CU64 f)])
  | EffectCommitted w s e r f =>
      ("EffectCommitted",
       [("workflow_id", CString w); ("step_id", CString s); ("effect_id", CString e);
        ("external_receipt", CValue r); ("fence", CU64 f)])
  | TimerSet w t f =>
      ("TimerSet", [("workflow_id", CString w); ("timer_id", CString t); ("fire_at_ms", CU64 f)])
  | TimerScheduled w t f i =>
      ("TimerScheduled",
       [("workflow_id", CString w); ("timer_id", CString t); ("fire_at_ms", CU64 f);
        ("instance_id", CString i)])
  | TimerFired w t f =>
      ("TimerFired", [("workflow_id", CString w); ("timer_id", CString t); ("fired_at_ms", CU64 f)])
  | CancelRequested w r =>
      ("CancelRequested", [("workflow_id", CString w); ("requested_by", CString r)])
  | SignalAwaiting w n i t =>
      ("SignalAwaiting",
       [("workflow_id", CString w); ("signal_name", CString n); ("instance_id", CString i);
        ("awaited_at_ms", CU64 t)])
  | InstanceResumed w t => ("InstanceResumed", [("workflow_id", CString w); ("resumed_at_ms", CU64 t)])
  | ContinuedAsNew w l o n =>
      ("ContinuedAsNew",
       [("workflow_id", CString w); ("lineage_id", CString l); ("old_epoch", CU64 o);
        ("new_epoch", CU64 n)])
  | WorkflowQuarantined w c s =>
      ("WorkflowQuarantined",
       [("workflow_id", CString w); ("failure_count", CU8 c); ("failure_window_seconds", CU64 s)])
  end.

(** The version that an object states, 0 if it states none. *)
Definition states_version (obj : Map) (n : Z) : Prop :=
  match get obj "version" ≫= value_as_u64 with Some m => n = m | None => n = 0 end.

Lemma require_string_field_ok obj f s :
  require_string_field obj f = Ok s <-> get obj f ≫= as_str = Some s.
Proof.
  unfold require_string_field. destruct (get obj f) as [v|]; cbn; [|done].
  destruct (as_str v); cbn; split; intros; simplify_eq; done.
Qed.

Lemma require_string_ok obj f s : require_string obj f = Ok s <-> get obj f ≫= as_str = Some s.
Proof.
  unfold require_string. destruct (get obj f) as [v|]; cbn; [|done].
  destruct (as_str v); cbn; split; intros; simplify_eq; done.
Qed.

Lemma require_u64_ok obj f n : require_u64 obj f = Ok n <-> get obj f ≫= value_as_u64 = Some n.
Proof.
  unfold require_u64. destruct (get obj f) as [v|]; cbn; [|done].
  destruct (value_as_u64 v); cbn; split; intros; simplify_eq; done.
Qed.

Lemma holds_value_or_null obj f v : holds_value obj f v <-> v = value_or_null obj f.
Proof. unfold holds_value, value_or_null. destruct (get obj f); cbn; naive_solver. Qed.

Lemma output_is obj f o : field_is obj (f, COutput o) <-> o = StepOutput_from (value_or_null obj f).
Proof.
  unfold StepOutput_from. pose proof (holds_value_or_null obj f) as Hh.
  destruct o as [|v|r u]; cbn [field_is fst snd].
  - split.
    + intros (v & ->%Hh & E). by rewrite E.
    + intros E. exists (value_or_null obj f). split; [by apply Hh|]. by destruct is_null.
  - rewrite Hh. split.
    + intros [-> E]. by rewrite E.
    + intros E. by destruct is_null eqn:E'; simplify_eq.
  - by case_match.
Qed.

Lemma SinkKind_from_str_ok s k : SinkKind_from_str s = Ok k <-> s = sink_name k.
Proof.
  unfold SinkKind_from_str. repeat case_bool_decide; subst; destruct k; cbn; split; congruence.
Qed.
End Schema.

(** Finding the arm of a tag. *)
Ltac decode_tag :=
  repeat first [rewrite bool_decide_true by done | rewrite bool_decide_false by done].

Section Decode.
Context `{J : JsonApi}.

Lemma decode_by_type_ok ty obj p :
  decode_by_type ty obj = Ok p <-> ty = (schema p).1 /\ Forall (field_is obj) (schema p).2.
Proof.
  split.
  - unfold decode_by_type, decode_workflow_started. intros Hd.
    repeat (case_bool_decide; [subst ty; repeat (apply rbind_ok in Hd as (? & ? & Hd))|]); [..|done].
    all: simplify_eq; split; [done|].
    all: repeat match goal with
      | H : require_string_field _ _ = Ok _ |- _ => apply require_string_field_ok in H
      | H : require_string _ _ = Ok _ |- _ => apply require_string_ok in H
      | H : require_u64 _ _ = Ok _ |- _ => apply require_u64_ok in H
      | H : map_err _ _ = Ok _ |- _ => apply map_err_ok in H
      | H : SinkKind_from_str _ = Ok _ |- _ => apply SinkKind_from_str_ok in H as ->
      end.
    all: repeat (apply Forall_cons; split); try apply Forall_nil; cbn [field_is fst snd]; try done;
      try (by apply holds_value_or_null); try (by apply output_is); eauto.
  - intros [-> Hf]. unfold decode_by_type, decode_workflow_started.
    destruct p; cbn [schema fst snd] in *; decode_tag; decompose_Forall_hyps.
    all: repeat match goal with
      | H : field_is _ (_, COutput _) |- _ => apply output_is in H; subst
      | H : field_is _ _ |- _ => cbn [field_is fst snd] in H
      | H : holds_value _ _ _ |- _ => apply holds_value_or_null in H; subst
      | H : exists _, _ /\ _ |- _ => destruct H as (? & H & ?); subst
      | H : get _ "workflow_id" ≫= as_str = Some _ |- _ => apply require_string_field_ok in H; rewrite H
      | H : _ ≫= as_str = Some _ |- _ => apply require_string_ok in H; rewrite H
      | H : _ ≫= value_as_u64 = Some _ |- _ => apply require_u64_ok in H; rewrite H
      | H : _ ≫= as_str = _ |- _ => subst
      end; cbn.
    all: repeat match goal with H : WorkflowVersionHash_parse _ = Ok _ |- _ => rewrite H end; try done.
    by rewrite (proj2 (SinkKind_from_str_ok _ _) eq_refl); cbn.
Qed.

(** C36. A JSON value is decoded to a payload exactly when it is an object that states the
    tag of the payload, a version of at most 1 or no number there, and each field of the payload under
    its name: strings and 64-bit numbers as they are, the attempt modulo [2^32] and the
    failure count modulo [2^8], a version hash that parses, a known sink, null for absent
    values; the output of a step is never a reference. *)
Theorem try_from_json_decodes (v : Value) (p : EventPayload) :
  try_from_json v = Ok p <->
  exists obj n, as_object v = Some obj /\ get obj "type" ≫= as_str = Some (schema p).1 /\
    states_version obj n /\ n <= 1 /\ Forall (field_is obj) (schema p).2.
Proof.
  unfold try_from_json. destruct (as_object v) as [obj|]; cbn; [|naive_solver].
  assert (states_version obj (optional_u64 obj "version" 0)) as Hv.
  { unfold states_version, optional_u64. by destruct (get obj "version" ≫= value_as_u64). }
  assert (forall n, states_version obj n -> n = optional_u64 obj "version" 0) as Hn.
  { unfold states_version, optional_u64. by destruct (get obj "version" ≫= value_as_u64). }
  split.
  - intros Hd. apply rbind_ok in Hd as (ty & Hty & Hd). apply require_string_ok in Hty.
    destruct (Z.ltb_spec u8_max (optional_u64 obj "version" 0)); [done|].
    destruct (Z.ltb_spec MAX_SUPPORTED_VERSION (optional_u64 obj "version" 0)); [done|].
    apply decode_by_type_ok in Hd as [-> Hf]. by eexists _, _.
  - intros (obj' & n & [= <-] & Hty & Hs & Hle & Hf). apply Hn in Hs as ->.
    apply require_string_ok in Hty. rewrite Hty. cbn. unfold MAX_SUPPORTED_VERSION.
    rewrite (proj2 (Z.ltb_ge u8_max _)), (proj2 (Z.ltb_ge 1 _)) by (unfold u8_max; lia).
    by apply decode_by_type_ok.
Qed.
End Decode.

(** The attempt is read modulo [2^32], and the output of a step may be left out. *)
Example attempt_truncated :
  try_from_json (ConcreteJson.event_json "StepCompleted"
    [("step_id", ConcreteJson.JStr "s"); ("completed_at_ms", ConcreteJson.JNum 7);
     ("attempt", ConcreteJson.JNum (2 ^ 32 + 1)); ("fence", ConcreteJson.JNum 3)])
  = Ok (StepCompleted "wf" "s" 7 1 3 ConcreteJson.JNull None None Null).
Proof. reflexivity. Qed.
