(* ===== verification/Replay.v ===== *)
(** * Deterministic replay

    [crates/vo-core/src/replay/engine.rs] and [types.rs]: validation of a journal
    slice and its fold through the lifecycle state machine. Errors the code turns
    into text ([to_string]) are kept as values. *)

From S2P Require Import Prelude Identifiers Lifecycle Events.

(** [enum ReplayErrorKind]. *)
Inductive ReplayErrorKind : Set := Deterministic | Transient.

(** [struct ReplayResult]; [events_applied] is a [usize] bounded by the length of
    the slice. *)
Record ReplayResult : Set := mkReplayResult {
  final_state : option LifecycleState;
  events_applied : Z;
  latest_fence : option Z;
}.

Section Replay.
Context `{J : JsonApi}.
(** The error of [UpcasterRegistry::upcast_envelope]. *)
Context {UpcastError : Type}.

(** [enum ReplayError]. *)
Inductive ReplayError : Type :=
| InstanceMismatch (expected actual : string)
| SequenceGap (expected actual at_index : Z)
| SequenceDuplicate (sequence first_at_index second_at_index : Z)
| PayloadDecodeFailed (sequence : Z) (source : EventError)
| TransitionFailed (sequence : Z) (state : LifecycleState) (reason : TransitionError)
| UnexpectedEventType (payload_type : string) (sequence : Z)
| UpcastingFailed (sequence : Z) (reason : UpcastError)
| BlobPublicationFailed (sequence : Z) (step_id blob_id : string).

(** [ReplayError::kind]. *)
Definition kind (e : ReplayError) : ReplayErrorKind :=
  match e with
  | InstanceMismatch _ _ => Deterministic
  | SequenceGap _ _ _ => Deterministic
  | SequenceDuplicate _ _ _ => Deterministic
  | PayloadDecodeFailed _ _ => Deterministic
  | TransitionFailed _ _ _ => Deterministic
  | UnexpectedEventType _ _ => Deterministic
  | UpcastingFailed _ _ => Deterministic
  | BlobPublicationFailed _ _ _ => Transient
  end.

(** [payload_to_transition]. *)
Definition payload_to_transition (payload : EventPayload) (sequence : Z)
  : result ReplayError TransitionEvent :=
  match payload with
  | WorkflowStarted _ _ _ _ _ => Ok TE.AssignToNode
  | StepScheduled _ _ _ _ _ => Ok TE.StepScheduled
  | StepStarted _ _ _ => Ok TE.ExecuteStep
  | StepCompleted _ _ _ _ _ _ _ _ _ => Ok TE.CompleteStep
  | StepFailed _ _ _ _ _ => Ok TE.Fail
  | TimerSet _ _ _ => Ok TE.WaitForTimer
  | TimerScheduled _ _ _ _ => Ok TE.WaitForTimer
  | TimerFired _ _ _ => Ok TE.TimerFired
  | WorkflowCompleted _ _ => Ok TE.CompleteStep
  | WorkflowFailed _ _ => Ok TE.Fail
  | WorkflowQuarantined _ _ _ => Ok TE.Fail
  | WorkflowCancelled _ _ => Ok TE.Cancel
  | CancelRequested _ _ => Ok TE.Cancel
  | SignalAwaiting _ _ _ _ => Ok TE.WaitForTimer
  | InstanceResumed _ _ => Ok TE.InstanceResumed
  | ContinuedAsNew _ _ _ _ => Err (UnexpectedEventType "ContinuedAsNew" sequence)
  | EffectPrepared _ _ _ _ _ _ => Err (UnexpectedEventType "EffectPrepared" sequence)
  | EffectCommitted _ _ _ _ _ => Err (UnexpectedEventType "EffectCommitted" sequence)
  end.

(** The two [matches!] of the loop: the payloads that are counted and skipped. *)
Definition is_bookkeeping (payload : EventPayload) : bool :=
  match payload with
  | ContinuedAsNew _ _ _ _ => true
  | EffectPrepared _ _ _ _ _ _ | EffectCommitted _ _ _ _ _ | WorkflowQuarantined _ _ _ => true
  | _ => false
  end.

(** The update of [latest_fence]: a [StepScheduled] raises it. *)
Definition update_fence (payload : EventPayload) (latest : option Z) : option Z :=
  match payload with
  | StepScheduled _ _ _ fence _ =>
      match latest with
      | None => Some fence
      | Some current => if current <? fence then Some fence else latest
      end
  | _ => latest
  end.

(** The first loop of [replay]: one instance. *)
Definition check_instances (expected : string) (rest : list EventEnvelope)
  : result ReplayError unit :=
  try_for_each (fun event =>
    if bool_decide (instance_id event = expected) then Ok tt
    else Err (InstanceMismatch expected (instance_id event))) rest.

(** The second loop: contiguous sequence numbers, from index [i] on. *)
Fixpoint check_sequences (i expected_seq : Z) (events : list EventEnvelope)
  : result ReplayError unit :=
  match events with
  | [] => Ok tt
  | event :: rest =>
      if sequence event =? expected_seq then
        Err (SequenceDuplicate (sequence event) (i - 1) i)
      else if negb (sequence event =? wrapping_add_u64 expected_seq 1) then
        Err (SequenceGap (wrapping_add_u64 expected_seq 1) (sequence event) i)
      else check_sequences (i + 1) (sequence event) rest
  end.

(** The third loop: decode and apply. *)
Fixpoint replay_loop (current : option LifecycleState) (applied : Z) (fence : option Z)
    (events : list EventEnvelope) : result ReplayError ReplayResult :=
  match events with
  | [] => Ok (mkReplayResult current applied fence)
  | event :: rest =>
      let? p := map_err (PayloadDecodeFailed (sequence event))
                  (try_from_json (payload event)) in
      if is_bookkeeping p then replay_loop current (applied + 1) fence rest
      else
        let fence := update_fence p fence in
        let? transition := payload_to_transition p (sequence event) in
        let state_for_apply := default LS.Pending current in
        match Lifecycle.apply state_for_apply transition with
        | Ok new_state =>
            match new_state with
            | LS.Completed | LS.Cancelled =>
                Ok (mkReplayResult (Some new_state) (applied + 1) fence)
            | _ => replay_loop (Some new_state) (applied + 1) fence rest
            end
        | Err e => Err (TransitionFailed (sequence event) state_for_apply e)
        end
  end.

(** [ReplayEngine::replay]. *)
Definition replay (events : list EventEnvelope) : result ReplayError ReplayResult :=
  match events with
  | [] => Ok (mkReplayResult None 0 None)
  | first :: rest =>
      let? _ := check_instances (instance_id first) rest in
      let? _ := check_sequences 1 (sequence first) rest in
      replay_loop None 0 None events
  end.

(** [ReplayEngine::replay_with_upcaster]; the registry is its
    [upcast_envelope]. *)
Definition replay_with_upcaster
    (upcast_envelope : EventEnvelope -> result UpcastError EventEnvelope)
    (events : list EventEnvelope) : result ReplayError ReplayResult :=
  match events with
  | [] => Ok (mkReplayResult None 0 None)
  | _ =>
      let? upcasted := collect_result (fun envelope =>
        map_err (UpcastingFailed (sequence envelope)) (upcast_envelope envelope)) events in
      replay upcasted
  end.

(** ** Abstract specification

    A journal denotes the sequence of its decoded payloads; each payload denotes
    at most one lifecycle event, and the replayed state is the state machine's run
    over these. *)

Definition decodes (event : EventEnvelope) (p : EventPayload) : Prop :=
  try_from_json (payload event) = Ok p.

(** The lifecycle event a payload stands for; the bookkeeping payloads (effects,
    lineage, quarantine) stand for none. *)
Definition transition_of (p : EventPayload) : option TransitionEvent :=
  match p with
  | WorkflowStarted _ _ _ _ _ => Some TE.AssignToNode
  | StepScheduled _ _ _ _ _ => Some TE.StepScheduled
  | StepStarted _ _ _ => Some TE.ExecuteStep
  | StepCompleted _ _ _ _ _ _ _ _ _ | WorkflowCompleted _ _ => Some TE.CompleteStep
  | StepFailed _ _ _ _ _ | WorkflowFailed _ _ => Some TE.Fail
  | TimerSet _ _ _ | TimerScheduled _ _ _ _ | SignalAwaiting _ _ _ _ => Some TE.WaitForTimer
  | TimerFired _ _ _ => Some TE.TimerFired
  | WorkflowCancelled _ _ | CancelRequested _ _ => Some TE.Cancel
  | InstanceResumed _ _ => Some TE.InstanceResumed
  | ContinuedAsNew _ _ _ _ | EffectPrepared _ _ _ _ _ _ | EffectCommitted _ _ _ _ _
  | WorkflowQuarantined _ _ _ => None
  end.

Definition fence_of (p : EventPayload) : option Z :=
  match p with StepScheduled _ _ _ fence _ => Some fence | _ => None end.

(** [m] is the largest element of [l], [None] for the empty list. *)
Definition is_max (l : list Z) (m : option Z) : Prop :=
  match m with
  | None => l = []
  | Some x => x ∈ l /\ Forall (fun y => y <= x) l
  end.

Definition halted (s : LifecycleState) : bool :=
  match s with LS.Completed | LS.Cancelled => true | _ => false end.

(** What a successful replay of [events] means: the counted events decode to
    [ps], the lifecycle events of [ps] run from [Pending] to the reported state, no
    shorter part of [ps] reaches a halting state, and [ps] is the whole journal
    unless the reported state is halting. *)
Record replays_with (events : list EventEnvelope) (r : ReplayResult)
    (ps : list EventPayload) : Prop := {
  replays_applied : events_applied r = Z.of_nat (length ps);
  replays_length : (length ps <= length events)%nat;
  replays_decodes : Forall2 decodes (take (length ps) events) ps;
  replays_run : Lifecycle.run LS.Pending (omap transition_of ps)
                = Ok (default LS.Pending (final_state r));
  replays_state : final_state r = None <-> omap transition_of ps = [];
  replays_fence : is_max (omap fence_of ps) (latest_fence r);
  replays_no_halt : forall k s, (k < length ps)%nat ->
    Lifecycle.run LS.Pending (omap transition_of (take k ps)) = Ok s -> halted s = false;
  replays_stop : length ps = length events \/
    exists s, final_state r = Some s /\ halted s = true;
}.

Definition replays (events : list EventEnvelope) (r : ReplayResult) : Prop :=
  exists ps, replays_with events r ps.

(** One instance, and sequence numbers that count on (with the wrap-around of
    [u64]) from the first event's. *)
Definition journal_ok (events : list EventEnvelope) : Prop :=
  forall e0, events !! 0%nat = Some e0 ->
    Forall (fun e => instance_id e = instance_id e0) events /\
    forall k e, events !! S k = Some e -> sequence e = as_u64 (sequence e0 + Z.of_nat (S k)).

(** ** Lemmas on the loop *)

Lemma payload_to_transition_total p seq :
  is_bookkeeping p = false ->
  exists t, payload_to_transition p seq = Ok t /\ transition_of p = Some t.
Proof. destruct p; intros; try done; eexists; done. Qed.

Lemma update_fence_max p l m :
  is_max l m -> is_max (l ++ option_list (fence_of p)) (update_fence p m).
Proof.
  destruct p; cbn; rewrite ?app_nil_r; try done.
  destruct m as [x|]; cbn; [|intros ->; cbn; split; [set_solver|apply Forall_singleton; lia]].
  intros [Hx Hl]. case_match eqn:E; cbn; rewrite Forall_app, Forall_singleton.
  - split_and!; [set_solver| |lia]. eapply Forall_impl; [done|]; cbn; lia.
  - split_and!; [set_solver|done|lia].
Qed.

Lemma run_app s es1 es2 :
  Lifecycle.run s (es1 ++ es2) = (let? s' := Lifecycle.run s es1 in Lifecycle.run s' es2).
Proof. revert s; induction es1 as [|e es1 IH]; intros s; cbn; [done|]. by destruct (Lifecycle.apply s e); cbn. Qed.

Lemma is_max_unique l m1 m2 : is_max l m1 -> is_max l m2 -> m1 = m2.
Proof.
  destruct m1 as [x|], m2 as [y|]; cbn; [|intros [Hx _] ->; set_solver|intros -> [Hy _]; set_solver|done].
  rewrite !Forall_forall. intros [Hx Hl] [Hy Hl']. f_equal.
  specialize (Hl _ Hy). specialize (Hl' _ Hx). cbn in *. lia.
Qed.

(** What the loop computes from an intermediate state, [l] being the fences seen
    before. *)
Record loop_ok (l : list Z) (cur : option LifecycleState) (n : Z)
    (events : list EventEnvelope) (r : ReplayResult) (ps : list EventPayload) : Prop := {
  loop_decodes : Forall2 decodes (take (length ps) events) ps;
  loop_length : (length ps <= length events)%nat;
  loop_applied : events_applied r = n + Z.of_nat (length ps);
  loop_run : Lifecycle.run (default LS.Pending cur) (omap transition_of ps)
             = Ok (default LS.Pending (final_state r));
  loop_state : if decide (omap transition_of ps = []) then final_state r = cur
               else is_Some (final_state r);
  loop_fence : is_max (l ++ omap fence_of ps) (latest_fence r);
  loop_no_halt : forall k s, (k < length ps)%nat ->
    Lifecycle.run (default LS.Pending cur) (omap transition_of (take k ps)) = Ok s ->
    halted s = false;
  loop_stop : length ps = length events \/
    exists s, final_state r = Some s /\ halted s = true;
}.

Lemma loop_ok_nil l cur n events r :
  halted (default LS.Pending cur) = false ->
  loop_ok l cur n events r [] <->
  events = [] /\ final_state r = cur /\ events_applied r = n /\ is_max l (latest_fence r).
Proof.
  intros Hc. split.
  - intros [_ _ Ha _ Hst Hf _ Hs]; cbn in *. rewrite app_nil_r in Hf.
    split_and!; [|done|lia|done].
    destruct Hs as [Hs|(s & Hs & Hh)]; [by destruct events|].
    rewrite Hst in Hs. subst; cbn in *; congruence.
  - intros (-> & <- & <- & Hf). split; cbn; rewrite ?app_nil_r; auto with lia.
    by rewrite decide_True.
Qed.

Lemma bookkeeping_neutral p :
  is_bookkeeping p = true -> transition_of p = None /\ fence_of p = None.
Proof. by destruct p. Qed.

Lemma loop_ok_skip l cur n e es r p ps :
  decodes e p -> is_bookkeeping p = true -> halted (default LS.Pending cur) = false ->
  loop_ok l cur n (e :: es) r (p :: ps) <-> loop_ok l cur (n + 1) es r ps.
Proof.
  intros Hd [Ht Hp]%bookkeeping_neutral Hc. split; intros [Hde ? ? ? ? Hf Hn Hs].
  - cbn in *. rewrite Ht in *. rewrite Hp in *. apply Forall2_cons in Hde as [_ ?].
    split; auto with lia; [intros k s Hk; specialize (Hn (S k) s); cbn in Hn; rewrite Ht in Hn; auto with lia|].
    destruct Hs; auto with lia.
  - split; cbn; rewrite ?Ht, ?Hp; cbn in *; auto with lia.
    + intros [|k] s Hk; cbn; [intros; by simplify_eq|]. rewrite Ht. apply Hn; lia.
    + destruct Hs; auto with lia.
Qed.

Lemma loop_ok_step l cur n e es r p t s' ps :
  decodes e p -> transition_of p = Some t ->
  Lifecycle.apply (default LS.Pending cur) t = Ok s' ->
  halted (default LS.Pending cur) = false -> halted s' = false ->
  loop_ok l cur n (e :: es) r (p :: ps) <->
  loop_ok (l ++ option_list (fence_of p)) (Some s') (n + 1) es r ps.
Proof.
  intros Hd Ht Ha Hc Hh.
  assert (l ++ omap fence_of (p :: ps) = (l ++ option_list (fence_of p)) ++ omap fence_of ps) as Hfe
    by (rewrite <- app_assoc; cbn; by destruct (fence_of p)).
  split; intros [Hde ? ? Hr Hst Hf Hn Hs].
  - cbn in *. rewrite Ht in *. cbn in *. rewrite Ha in Hr. cbn in Hr.
    apply Forall2_cons in Hde as [_ ?]. rewrite decide_False in Hst by done.
    split; auto with lia.
    + case_decide as Ho; [|done]. rewrite Ho in Hr. destruct Hst as [x Hx]. rewrite Hx in *.
      cbn in Hr. congruence.
    + by rewrite <- Hfe.
    + intros k s Hk. specialize (Hn (S k) s). cbn in Hn. rewrite Ht in Hn. cbn in Hn.
      rewrite Ha in Hn. auto with lia.
    + destruct Hs; auto with lia.
  - split; rewrite ?Hfe; cbn; rewrite ?Ht; cbn; rewrite ?Ha; cbn in *; auto with lia.
    + rewrite decide_False by done. case_decide; [by rewrite Hst|done].
    + intros [|k] s Hk; cbn; [intros; by simplify_eq|]. rewrite Ht; cbn. rewrite Ha. apply Hn; lia.
    + destruct Hs; auto with lia.
Qed.

Lemma loop_ok_halt l cur n e es r p t s' ps :
  decodes e p -> transition_of p = Some t ->
  Lifecycle.apply (default LS.Pending cur) t = Ok s' ->
  halted (default LS.Pending cur) = false -> halted s' = true ->
  loop_ok l cur n (e :: es) r (p :: ps) <->
  ps = [] /\ final_state r = Some s' /\ events_applied r = n + 1 /\
  is_max (l ++ option_list (fence_of p)) (latest_fence r).
Proof.
  intros Hd Ht Ha Hc Hh. split.
  - intros [_ _ Hap Hr Hst Hf Hn _].
    assert (ps = []) as ->.
    { destruct ps as [|q ps]; [done|]. specialize (Hn 1%nat s'). cbn in Hn.
      rewrite Ht in Hn; cbn in Hn. rewrite Ha in Hn; cbn in Hn.
      rewrite Hn in Hh; [done|lia|done]. }
    cbn in *. rewrite Ht in *. cbn in *. rewrite Ha in Hr; cbn in Hr.
    rewrite decide_False in Hst by done. destruct Hst as [x Hx]. rewrite Hx in *; cbn in Hr.
    split_and!; [done|congruence|lia|by destruct (fence_of p)].
  - intros (-> & Hst & Hap & Hf).
    split; cbn; rewrite ?Ht; cbn; rewrite ?Ha, ?Hst; cbn; eauto with lia.
    + rewrite decide_False; [by eexists|done].
    + intros [|k] s Hk; cbn; [intros; by simplify_eq|lia].
Qed.

(** The loop succeeds exactly with what the specification says. *)
Lemma replay_loop_iff l cur n fence events r :
  is_max l fence -> halted (default LS.Pending cur) = false ->
  replay_loop cur n fence events = Ok r <-> exists ps, loop_ok l cur n events r ps.
Proof.
  revert l cur n fence; induction events as [|e es IH]; intros l cur n fence Hl Hc.
  { cbn. split.
    - intros; simplify_eq. exists []. by apply loop_ok_nil.
    - intros [ps H]. pose proof (loop_length _ _ _ _ _ _ H) as Hlen; cbn in Hlen.
      assert (ps = []) as -> by (destruct ps; cbn in *; [done|lia]).
      apply loop_ok_nil in H as (_ & <- & <- & H); [|done].
      rewrite (is_max_unique _ _ _ Hl H). by destruct r. }
  cbn [replay_loop].
  assert (forall ps, loop_ok l cur n (e :: es) r ps -> exists p ps', ps = p :: ps' /\ decodes e p)
    as Hcons.
  { intros [|p ps] H; [by apply loop_ok_nil in H as [? _]|].
    destruct H as [Hde _ _ _ _ _ _ _]. apply Forall2_cons in Hde as [? _]. eauto. }
  destruct (try_from_json (payload e)) as [p|d] eqn:Hd; cbn [map_err rbind].
  2: { split; [done|]. intros [ps (p & ? & _ & Hp)%Hcons]. unfold decodes in Hp. congruence. }
  assert ((exists ps, loop_ok l cur n (e :: es) r ps) <->
          exists ps, loop_ok l cur n (e :: es) r (p :: ps)) as ->.
  { split; [|intros [ps ?]; by exists (p :: ps)]. intros [ps H].
    destruct (Hcons _ H) as (p' & ps' & -> & Hp). unfold decodes in Hp. rewrite Hd in Hp. simplify_eq. eauto. }
  destruct (is_bookkeeping p) eqn:Hb.
  { rewrite (IH l) by done. apply exist_proper; intros ps. by rewrite loop_ok_skip. }
  destruct (payload_to_transition_total p (sequence e) Hb) as (t & -> & Ht). cbn [rbind].
  destruct (apply _ t) as [s'|] eqn:Ha.
  2: { split; [done|]. intros [ps H]. pose proof (loop_run _ _ _ _ _ _ H) as Hr.
       cbn in Hr. rewrite Ht in Hr; cbn in Hr. by rewrite Ha in Hr. }
  pose proof (update_fence_max p _ _ Hl) as Hl'.
  destruct (halted s') eqn:Hh.
  - trans (Ok (mkReplayResult (Some s') (n + 1) (update_fence p fence)) = Ok (E := ReplayError) r);
      [by destruct s'|]. split.
    + intros; simplify_eq. exists []. by rewrite loop_ok_halt.
    + intros [ps H]. rewrite loop_ok_halt in H by done. destruct H as (_ & <- & <- & H).
      rewrite (is_max_unique _ _ _ Hl' H). by destruct r.
  - trans (replay_loop (Some s') (n + 1) (update_fence p fence) es = Ok r); [by destruct s'|].
    rewrite (IH _ _ _ _ Hl') by done. apply exist_proper; intros ps. by rewrite loop_ok_step.
Qed.

Lemma replay_loop_ok cur n fence events r :
  (exists l, is_max l fence) -> halted (default LS.Pending cur) = false ->
  replay_loop cur n fence events = Ok r -> exists l ps, loop_ok l cur n events r ps.
Proof. intros [l Hl] Hc. rewrite (replay_loop_iff l) by done. intros [ps ?]. eauto. Qed.

Lemma check_instances_ok x rest :
  check_instances x rest = Ok tt <-> Forall (fun e => instance_id e = x) rest.
Proof.
  unfold check_instances. rewrite try_for_each_ok. apply Forall_iff; intros e.
  case_bool_decide; naive_solver.
Qed.

Lemma wrapping_succ_ne s : wrapping_add_u64 s 1 <> s.
Proof. intros H. unfold_u. Z.to_euclidean_division_equations; lia. Qed.

Lemma check_sequences_ok i s rest :
  check_sequences i s rest = Ok tt <->
  forall k e, rest !! k = Some e -> sequence e = as_u64 (s + Z.of_nat (S k)).
Proof.
  revert i s; induction rest as [|x rest IH]; intros i s; cbn; [done|].
  assert (forall k, as_u64 (wrapping_add_u64 s 1 + Z.of_nat (S k)) = as_u64 (s + Z.of_nat (S (S k)))) as Hk.
  { intros k. unfold wrapping_add_u64. unfold_u. rewrite Zplus_mod_idemp_l. f_equal. lia. }
  split.
  - destruct (sequence x =? s); [done|].
    destruct (Z.eqb_spec (sequence x) (wrapping_add_u64 s 1)) as [Hx|]; [|done].
    cbn. rewrite IH, Hx. intros H [|k] e He; cbn in He; simplify_eq; [done|].
    by rewrite <- Hk; apply H.
  - intros H. assert (sequence x = wrapping_add_u64 s 1) as Hx by apply (H 0%nat _ eq_refl).
    rewrite (proj2 (Z.eqb_neq _ _)) by (rewrite Hx; apply wrapping_succ_ne).
    rewrite (proj2 (Z.eqb_eq _ _)) by done. cbn. apply IH. intros k e He.
    rewrite Hx, Hk. by apply (H (S k)).
Qed.

Lemma check_instances_err i rest x :
  check_instances i rest = Err x -> exists y, x = InstanceMismatch i y.
Proof.
  unfold check_instances. induction rest as [|e rest IH]; cbn; [done|].
  case_bool_decide; cbn; [apply IH|]. intros; simplify_eq. eauto.
Qed.

Lemma check_sequences_err i s rest x :
  check_sequences i s rest = Err x ->
  (exists a b c, x = SequenceGap a b c) \/ (exists a b c, x = SequenceDuplicate a b c).
Proof.
  revert i s; induction rest as [|e rest IH]; cbn; [done|]. intros i s.
  repeat case_match; try apply IH; intros; simplify_eq; eauto 6.
Qed.

(** Replay never ends in a state that its vocabulary of events cannot enter. *)
Definition replayable (s : LifecycleState) : bool :=
  match s with
  | LS.Pending | LS.RunningDecision | LS.StepScheduled | LS.StepExecuting
  | LS.WaitingForTimer | LS.Completed | LS.Failed | LS.Cancelled => true
  | _ => false
  end.

Lemma transition_of_replayable p t s s' :
  transition_of p = Some t -> replayable s = true -> Lifecycle.apply s t = Ok s' ->
  replayable s' = true.
Proof. destruct p; cbn; intros; simplify_eq; destruct s; by simplify_eq/=. Qed.

Lemma run_replayable ps s s' :
  Lifecycle.run s (omap transition_of ps) = Ok s' -> replayable s = true -> replayable s' = true.
Proof.
  revert s; induction ps as [|p ps IH]; intros s; cbn; [intros; by simplify_eq|].
  destruct (transition_of p) as [t|] eqn:Ht; cbn; [|apply IH].
  destruct (Lifecycle.apply s t) as [s1|] eqn:Ha; cbn; [|done].
  intros Hr Hs. eapply IH; [done|]. by eapply transition_of_replayable.
Qed.

Lemma replay_loop_replays events r :
  replay_loop None 0 None events = Ok r <-> replays events r.
Proof.
  rewrite (replay_loop_iff []) by done. apply exist_proper; intros ps. split.
  - intros [Hd Hlen Ha Hr Hst Hf Hn Hs]. split; try done.
    case_decide as Ho; rewrite ?Ho; [by rewrite Hst|]. split; [|done].
    intros Hnone; rewrite Hnone in Hst. by destruct Hst.
  - intros [Ha Hlen Hd Hr Hst Hf Hn Hs]. split; try done.
    case_decide; [by apply Hst|]. by apply not_eq_None_Some; intros ?%Hst.
Qed.

Lemma replay_checks events r :
  replay events = Ok r <-> journal_ok events /\ replay_loop None 0 None events = Ok r.
Proof.
  destruct events as [|e0 rest]; cbn [replay]; [by split; [split|intros [_ ?]]|].
  unfold journal_ok. rewrite rbind_ok. split.
  - intros ([] & Hi%check_instances_ok & H). apply rbind_ok in H as ([] & Hs & Hl).
    rewrite check_sequences_ok in Hs. split; [|done]. intros ? [= <-].
    split; [by constructor|]. intros k e He. by apply Hs.
  - intros [Hj Hl]. destruct (Hj e0 eq_refl) as [[_ Hi]%Forall_cons Hs].
    exists tt. split; [by apply check_instances_ok|].
    apply rbind_ok. exists tt. split; [|done]. apply check_sequences_ok. apply Hs.
Qed.

(** The events that come after a prefix the loop ran through without stopping. *)
Lemma replay_loop_app cur n fence es1 es2 r :
  replay_loop cur n fence es1 = Ok r ->
  (forall s, final_state r = Some s -> halted s = false) ->
  replay_loop cur n fence (es1 ++ es2) =
  replay_loop (final_state r) (events_applied r) (latest_fence r) es2.
Proof.
  revert cur n fence; induction es1 as [|e es1 IH]; intros cur n fence H Hh; cbn in *.
  { by inv_ok; subst. }
  destruct (map_err _ _) as [p|]; cbn in *; [|done].
  destruct (is_bookkeeping p); [by apply IH|].
  destruct (payload_to_transition p (sequence e)) as [t|]; cbn in *; [|done].
  destruct (Lifecycle.apply _ t) as [s'|]; [|done].
  destruct s'; try (by apply IH); inv_ok; subst; by specialize (Hh _ eq_refl).
Qed.

(** Which errors the loop can raise, and at which event. *)
Lemma replay_loop_err cur n fence events x :
  replay_loop cur n fence events = Err x ->
  exists pre e post, events = pre ++ e :: post /\
  ((exists d, x = PayloadDecodeFailed (sequence e) d /\ try_from_json (payload e) = Err d) \/
   exists ps p t s y, x = TransitionFailed (sequence e) s y /\
     Forall2 decodes pre ps /\ decodes e p /\ transition_of p = Some t /\
     Lifecycle.run (default LS.Pending cur) (omap transition_of ps) = Ok s /\
     Lifecycle.apply s t = Err y).
Proof.
  revert cur n fence; induction events as [|e es IH]; intros cur n fence H; cbn in H; [done|].
  destruct (try_from_json (payload e)) as [p|d] eqn:Hd; cbn in H.
  2: { inv_ok; subst. exists [], e, es. split; [done|left]. by exists d. }
  destruct (is_bookkeeping p) eqn:Hb.
  { apply IH in H as (pre & e' & post & -> & H). exists (e :: pre), e', post. split; [done|].
    destruct H as [H|(ps & p' & t & s & y & -> & Hps & ? & ? & Hr & ?)]; [by left|right].
    exists (p :: ps), p', t, s, y. split_and!; try done; [by constructor|].
    cbn. by destruct p. }
  destruct (payload_to_transition_total p (sequence e) Hb) as (t & Ht & Htr).
  rewrite Ht in H; cbn in H.
  destruct (Lifecycle.apply _ t) as [s'|y] eqn:Ha.
  2: { inv_ok; subst. exists [], e, es. split; [done|right].
       exists [], p, t, (default LS.Pending cur), y. by split_and!. }
  assert (replay_loop (Some s') (n + 1) (update_fence p fence) es = Err x) as Hx
    by (by destruct s').
  apply IH in Hx as (pre & e' & post & -> & Hx). exists (e :: pre), e', post. split; [done|].
  destruct Hx as [Hx|(ps & p' & t' & s & y & -> & Hps & ? & ? & Hr & ?)]; [by left|right].
  exists (p :: ps), p', t', s, y. split_and!; try done; [by constructor|].
  cbn. rewrite Htr; cbn. by rewrite Ha.
Qed.
End Replay.

(** ** Properties *)

Section Properties.
Context `{J : JsonApi} {UpcastError : Type}.
Implicit Types (r : ReplayResult) (x : ReplayError (UpcastError := UpcastError)).

(** C1. [replay] succeeds with [r] exactly when the journal is of one instance
    with sequence numbers that count on from its first event's, and [r] is what the
    abstract specification says of it: the events counted in [r] decode, the
    lifecycle events they denote run from [Pending] to the reported state, the
    reported fence is the largest scheduled one of them, no earlier event of the
    journal completed or cancelled the instance, and the whole journal is counted
    unless the reported state is [Completed] or [Cancelled]. *)
Theorem replay_refines_lifecycle events r :
  replay (UpcastError := UpcastError) events = Ok r <->
  journal_ok events /\ replays events r.
Proof. by rewrite replay_checks, replay_loop_replays. Qed.

(** Every error of [replay] is deterministic, never [UnexpectedEventType]
    (the branches of [payload_to_transition] marked unreachable are), and a
    [TransitionFailed] names an event of the journal whose lifecycle event the
    state machine rejects in the state reached by the events before it. *)
Theorem replay_errors events x :
  replay events = Err x ->
  kind x = Deterministic /\
  (forall name s, x <> UnexpectedEventType name s) /\
  (forall s st y, x = TransitionFailed s st y ->
     exists pre e post ps p t, events = pre ++ e :: post /\ s = sequence e /\
       Forall2 decodes pre ps /\ decodes e p /\ transition_of p = Some t /\
       Lifecycle.run LS.Pending (omap transition_of ps) = Ok st /\
       Lifecycle.apply st t = Err y).
Proof.
  destruct events as [|e0 rest]; unfold replay; [done|].
  destruct (check_instances _ rest) as [[]|y] eqn:Hi; cbn [rbind].
  2: { intros; simplify_eq. apply check_instances_err in Hi as [? ->]. naive_solver. }
  destruct (check_sequences 1 (sequence e0) rest) as [[]|y] eqn:Hs; cbn [rbind].
  2: { intros; simplify_eq. apply check_sequences_err in Hs. naive_solver. }
  intros (pre & e & post & -> & Hx)%replay_loop_err.
  destruct Hx as [(d & -> & Hd)|(ps & p & t & s & y & -> & ? & ? & ? & ? & ?)];
    [naive_solver|].
  split_and!; [done..|]. intros; simplify_eq. by exists pre, e, post, ps, p, t.
Qed.

(** A replayed instance is never in [WaitingForSignal], [PendingPublication],
    [Hibernated], [Compensating] or [Reconciling]: no payload denotes an event that
    enters these states (a [SignalAwaiting] denotes a wait for a timer). *)
Theorem replay_state_range events r s :
  replay (UpcastError := UpcastError) events = Ok r -> final_state r = Some s ->
  replayable s = true.
Proof.
  destruct events as [|e0 rest]; unfold replay; [intros; by simplify_eq|].
  intros H Hf. apply rbind_ok in H as ([] & _ & H). apply rbind_ok in H as ([] & _ & H).
  apply replay_loop_ok in H as (l & ps & [_ _ _ Hr _ _ _ _]); [|by exists []|done].
  rewrite Hf in Hr.
  by eapply run_replayable in Hr.
Qed.

(** Replay is incremental: when the loop ran through a first part of the
    journal without halting, running it over the whole journal gives what it gives
    when it goes on over the second part from the state, count and fence reached. *)
Theorem replay_loop_incremental events1 events2 r :
  replay_loop (UpcastError := UpcastError) None 0 None events1 = Ok r ->
  (forall s, final_state r = Some s -> halted s = false) ->
  replay_loop (UpcastError := UpcastError) None 0 None (events1 ++ events2) =
  replay_loop (final_state r) (events_applied r) (latest_fence r) events2.
Proof. apply replay_loop_app. Qed.

(** [replay_with_upcaster] is [replay] of the upcast journal, and when an
    upcast fails it reports the first failing event. *)
Theorem replay_with_upcaster_spec upcast events :
  (forall events', Forall2 (fun e e' => upcast e = Ok e') events events' ->
     replay_with_upcaster upcast events = replay (UpcastError := UpcastError) events') /\
  (forall pre e post y, events = pre ++ e :: post ->
     Forall (fun e' => is_ok (upcast e') = true) pre -> upcast e = Err y ->
     replay_with_upcaster upcast events = Err (UpcastingFailed (sequence e) y)).
Proof.
  split.
  - intros events' H.
    enough (collect_result (fun e => map_err (UpcastingFailed (sequence e)) (upcast e)) events
            = Ok events') as Hc by (destruct H; [done|]; unfold replay_with_upcaster; by rewrite Hc).
    induction H as [|e e' es es' He _ IH]; cbn; [done|]. rewrite He; cbn. by rewrite IH.
  - intros pre e post y -> Hpre He.
    enough (collect_result (fun e => map_err (UpcastingFailed (sequence e)) (upcast e))
              (pre ++ e :: post) = Err (UpcastingFailed (sequence e) y)) as Hc
      by (unfold replay_with_upcaster; rewrite Hc; by destruct pre).
    induction Hpre as [|e' pre He' _ IH]; cbn; [by rewrite He|].
    destruct (upcast e'); [|done]; cbn. by rewrite IH.
Qed.
End Properties.

(** ** Witnesses *)

Module ReplayWitness.
Import ConcreteJson.

Definition result_of_journal : ReplayResult := mkReplayResult (Some LS.Completed) 4 (Some 3).

Lemma replay_refines_lifecycle_witness : journal_ok journal /\ replays journal result_of_journal.
Proof.
  apply (replay_refines_lifecycle (J := json_api) (UpcastError := unit)). reflexivity.
Defined.

(** An event after the completion is neither decoded nor counted. *)
Example replay_stops_at_completion :
  replay (UpcastError := unit) (J := json_api) (journal ++ [env 5 started]) =
  Ok result_of_journal.
Proof. reflexivity. Qed.

(** The journal of an instance whose step completes before it was started. *)
Definition bad_journal : list EventEnvelope := [env 1 started; env 2 completed].

Lemma replay_errors_witness :
  kind (UpcastError := unit)
    (TransitionFailed 2 LS.RunningDecision Lifecycle.InvalidTransition) = Deterministic.
Proof. apply (replay_errors (J := json_api) bad_journal). reflexivity. Defined.

(** A journal that ends waiting for a signal replays to [WaitingForTimer]. *)
Definition signal_journal : list EventEnvelope :=
  [env 1 started; env 2 (scheduled 3); env 3 step_started; env 4 signal_awaiting].

Lemma replay_state_range_witness : replayable LS.WaitingForTimer = true.
Proof.
  eapply (replay_state_range (J := json_api) (UpcastError := unit) signal_journal);
    reflexivity.
Defined.

Lemma replay_loop_incremental_witness :
  replay_loop (UpcastError := unit) None 0 None
    ([env 1 started; env 2 (scheduled 3)] ++ [env 3 step_started; env 4 completed]) =
  replay_loop (UpcastError := unit) (Some LS.StepScheduled) 2 (Some 3)
    [env 3 step_started; env 4 completed].
Proof.
  apply (replay_loop_incremental _ _ (mkReplayResult (Some LS.StepScheduled) 2 (Some 3)));
    [reflexivity|by intros s [= <-]].
Defined.
End ReplayWitness.
