(* ===== verification/Upcaster.v ===== *)
(** * Upcasting stored events

    [crates/vo-core/src/upcaster/] and [crates/vo-types/src/events/upcaster.rs]: the two
    registries of upcasters, which bring the payload of an old event to the current schema
    version. The registry of [vo-core] follows the targets of the registered upcasters and
    is the one replay uses; the one of [vo-types] goes version by version.

    Upcasters do not panic, so the mutex of the registry is never poisoned and its
    operations are single steps. *)

From S2P Require Import Prelude Identifiers Lifecycle Events Replay.

Module Versions.
(** [vo_types::events::upcaster::UpcasterError]. *)
Inductive UpcasterError : Type :=
| NoUpcasterRegistered (from to : Z)
| UpcastFailed (message : string)
| InvalidVersion (version : Z)
| ChainExhausted
| InvalidTargetVersion (version : Z)
| DuplicateRegistration (version : Z).
End Versions.

Section Upcaster.
Context `{J : JsonApi}.

(** [trait Upcaster]. *)
Record Upcaster : Type := mkUpcaster {
  source_version : Z;
  target_version : Z;
  upcast : Value -> result Versions.UpcasterError Value;
}.

(** [enum UpcasterError] of [vo-core]; the text of a failed upcast is its error. *)
Inductive UpcasterError : Type :=
| NoUpcasterRegistered (version : Z)
| DuplicateRegistration (version : Z)
| UpcastFailure (source : Versions.UpcasterError)
| InvalidTargetVersion (version : Z)
| CircularChain (version : Z)
| InvalidUpcastedEnvelope (source : EventError).

(** [struct UpcasterRegistryImpl]. *)
Record UpcasterRegistryImpl : Type := mkRegistry {
  upcasters : gmap Z Upcaster;
  max_version : Z;
}.

(** [UpcasterRegistryImpl::new]. *)
Definition registry_new (max_version : Z) : UpcasterRegistryImpl := mkRegistry ∅ max_version.

(** [DefaultUpcasterRegistryBuilder::build]. *)
Definition default_build : UpcasterRegistryImpl := registry_new MAX_SUPPORTED_VERSION.

(** [UpcasterRegistryImpl::register]. *)
Definition register (reg : UpcasterRegistryImpl) (u : Upcaster)
  : result UpcasterError unit * UpcasterRegistryImpl :=
  if max_version reg <? target_version u then
    (Err (InvalidTargetVersion (target_version u)), reg)
  else if decide (is_Some (upcasters reg !! source_version u)) then
    (Err (DuplicateRegistration (source_version u)), reg)
  else (Ok tt, mkRegistry (<[source_version u := u]> (upcasters reg)) (max_version reg)).

(** [check_circular_chain]; [visited] only ever maps to [true]. *)
Definition check_circular_chain (version : Z) (visited : gset Z) : result UpcasterError unit :=
  if decide (version ∈ visited) then Err (CircularChain version) else Ok tt.

(** [get_upcaster_for_version]. *)
Definition get_upcaster_for_version (ups : gmap Z Upcaster) (version : Z)
  : result UpcasterError Upcaster :=
  ok_or (ups !! version) (NoUpcasterRegistered version).

(** The loop of [build_upcast_chain]; [None] is out of fuel. *)
Fixpoint build_loop (fuel : nat) (ups : gmap Z Upcaster) (max : Z) (visited : gset Z)
    (chain : list (Z * Upcaster)) (current : Z)
  : option (result UpcasterError (list (Z * Upcaster))) :=
  if current <? max then
    match fuel with
    | O => None
    | S fuel' =>
        match check_circular_chain current visited with
        | Err e => Some (Err e)
        | Ok _ =>
            match get_upcaster_for_version ups current with
            | Err e => Some (Err e)
            | Ok u => build_loop fuel' ups max ({[current]} ∪ visited)
                        (chain ++ [(current, u)]) (target_version u)
            end
        end
    end
  else Some (Ok chain).

(** [build_upcast_chain]: every turn but the last uses a registered version not used
    before. *)
Definition build_upcast_chain (ups : gmap Z Upcaster) (start max : Z)
  : option (result UpcasterError (list (Z * Upcaster))) :=
  build_loop (S (size ups)) ups max ∅ [] start.

(** [apply_single_upcast]. *)
Definition apply_single_upcast (u : Upcaster) (payload : Value)
  : result UpcasterError (Z * Value) :=
  let? new_payload := map_err UpcastFailure (upcast u payload) in
  Ok (target_version u, new_payload).

(** The loop of [apply_upcast_chain]. *)
Fixpoint apply_chain (version : Z) (payload : Value) (chain : list (Z * Upcaster))
  : result UpcasterError (Z * Value) :=
  match chain with
  | [] => Ok (version, payload)
  | (_, u) :: chain' =>
      let? step := apply_single_upcast u payload in apply_chain step.1 step.2 chain'
  end.

(** [apply_upcast_chain]. *)
Definition apply_upcast_chain (e : EventEnvelope) (chain : list (Z * Upcaster))
  : result UpcasterError EventEnvelope :=
  let? step := apply_chain (schema_version e) (payload e) chain in
  Ok (mkEnvelope step.1 (instance_id e) (sequence e) (timestamp_ms e) step.2).

(** [UpcasterRegistryImpl::upcast_envelope]. *)
Definition upcast_envelope (reg : UpcasterRegistryImpl) (e : EventEnvelope)
  : option (result UpcasterError EventEnvelope) :=
  if max_version reg <=? schema_version e then Some (Ok e)
  else match build_upcast_chain (upcasters reg) (schema_version e) (max_version reg) with
       | None => None
       | Some (Err x) => Some (Err x)
       | Some (Ok chain) => Some (apply_upcast_chain e chain)
       end.

(** ** The registry of [vo-types] *)

(** [struct VersionRegistry]. *)
Record VersionRegistry : Type := mkVersions { version_upcasters : gmap (Z * Z) Upcaster }.

(** [VersionRegistry::new]. *)
Definition versions_new : VersionRegistry := mkVersions ∅.

(** [VersionRegistry::register]: a later upcaster replaces an earlier one. *)
Definition version_register (reg : VersionRegistry) (u : Upcaster) : VersionRegistry :=
  mkVersions (<[(source_version u, target_version u) := u]> (version_upcasters reg)).

(** The text of [events::Error::UpcastFailed] is its error. *)
Inductive VersionError : Type :=
| VersionEvent (e : EventError)
| VersionUpcast (source : Versions.UpcasterError).

(** The loop of [VersionRegistry::upcast_payload]. *)
Fixpoint upcast_loop (fuel : nat) (reg : VersionRegistry) (payload : Value) (from to : Z)
  : option (result VersionError Value) :=
  if from <? to then
    match fuel with
    | O => None
    | S fuel' =>
        match version_upcasters reg !! (from, from + 1) with
        | None => Some (Err (VersionEvent (EventError.UpcasterNotFound from (from + 1))))
        | Some u =>
            match upcast u payload with
            | Err e => Some (Err (VersionUpcast e))
            | Ok payload' => upcast_loop fuel' reg payload' (from + 1) to
            end
        end
    end
  else Some (Ok payload).

(** [VersionRegistry::upcast_payload]. *)
Definition upcast_payload (reg : VersionRegistry) (payload : Value) (from to : Z)
  : option (result VersionError Value) :=
  if from =? to then Some (Ok payload)
  else if to <? from then Some (Err (VersionEvent EventError.InvalidSchemaVersionFormat))
  else upcast_loop (Z.to_nat (to - from)) reg payload from to.

(** [EventEnvelope::upcast_payload]. *)
Definition envelope_upcast_payload (reg : VersionRegistry) (e : EventEnvelope) (target : Z)
  : option (result VersionError Value) :=
  if MAX_SUPPORTED_VERSION <? schema_version e then
    Some (Err (VersionEvent (EventError.UnsupportedEnvelopeVersion (schema_version e))))
  else if MAX_SUPPORTED_VERSION <? target then
    Some (Err (VersionEvent (EventError.UnsupportedSchemaVersion target)))
  else if schema_version e =? target then Some (Ok (payload e))
  else upcast_payload reg (payload e) (schema_version e) target.
End Upcaster.

(** ** Chains of upcasters *)

Section Chains.
Context `{J : JsonApi}.
Implicit Types (ups : gmap Z Upcaster) (us : list Upcaster) (reg : UpcasterRegistryImpl)
  (e : EventEnvelope).

(** The registered upcasters lead from one version to another through versions below the
    maximum. *)
Inductive leads ups (max : Z) : Z -> list Upcaster -> Z -> Prop :=
| leads_nil v : leads ups max v [] v
| leads_cons v u us w :
    v < max -> ups !! v = Some u -> leads ups max (target_version u) us w ->
    leads ups max v (u :: us) w.

(** The composition of upcasters. *)
Fixpoint upcast_all us (p : Value) : result Versions.UpcasterError Value :=
  match us with
  | [] => Ok p
  | u :: us' => let? p' := upcast u p in upcast_all us' p'
  end.

(** What registration establishes. *)
Definition registry_wf reg : Prop :=
  forall v u, upcasters reg !! v = Some u ->
    source_version u = v /\ target_version u <= max_version reg.

Definition register_all reg us : UpcasterRegistryImpl :=
  fold_left (fun reg u => (register reg u).2) us reg.

Lemma register_wf reg u : registry_wf reg -> registry_wf (register reg u).2.
Proof.
  intros H. unfold register. case_match; [done|]. case_decide; [done|].
  intros v u'. cbn. rewrite lookup_insert. case_decide; [|apply H].
  intros [= <-]. split; [done|lia].
Qed.

Lemma register_all_wf max us : registry_wf (register_all (registry_new max) us).
Proof.
  assert (registry_wf (registry_new max)) as H by (intros v u; cbn; by rewrite lookup_empty).
  unfold register_all. revert H. generalize (registry_new max).
  induction us as [|u us IH]; intros reg H; [done|]. apply IH, register_wf, H.
Qed.

Lemma register_all_max reg us : max_version (register_all reg us) = max_version reg.
Proof.
  unfold register_all. revert reg. induction us as [|u us IH]; intros reg; cbn; [done|].
  rewrite IH. unfold register. case_match; [done|]. by case_decide.
Qed.

Lemma leads_snoc ups max v us u w :
  leads ups max v us w -> w < max -> ups !! w = Some u -> leads ups max v (us ++ [u]) (target_version u).
Proof.
  induction 1 as [v|v u' us w Hv Hu _ IH]; intros Hlt Hw; cbn.
  - econstructor; [done..|constructor].
  - econstructor; eauto.
Qed.

(** What the loop has at the start of a turn: a chain from [start] to [current] over
    visited versions, all registered, each of which leads on to [current]. *)
Record chain_inv ups max start (visited : gset Z) (chain : list (Z * Upcaster)) current : Prop := {
  chain_leads : leads ups max start chain.*2 current;
  chain_visited : visited = list_to_set chain.*1;
  chain_NoDup : NoDup chain.*1;
  chain_registered : visited ⊆ dom ups;
  chain_back : forall v, v ∈ visited ->
    exists us, us <> [] /\ leads ups max v us current /\ exists us', leads ups max start us' v;
}.

Lemma chain_inv_start ups max start : chain_inv ups max start ∅ [] start.
Proof. split; [constructor|done|constructor|set_solver..]. Qed.

Lemma chain_inv_step ups max start visited chain current u :
  chain_inv ups max start visited chain current -> current < max -> current ∉ visited ->
  ups !! current = Some u ->
  chain_inv ups max start ({[current]} ∪ visited) (chain ++ [(current, u)]) (target_version u).
Proof.
  intros [Hl Hv Hnd Hr Hback] Hlt Hnew Hu. split.
  - rewrite fmap_app. by eapply leads_snoc.
  - rewrite fmap_app, list_to_set_app_L. cbn. set_solver.
  - rewrite fmap_app. apply NoDup_app. split; [done|]. split; [|apply NoDup_singleton].
    intros x Hx. cbn. rewrite list_elem_of_singleton. intros ->. set_solver.
  - assert (current ∈ dom ups) by (by eapply elem_of_dom_2). set_solver.
  - intros v [->%elem_of_singleton|Hin]%elem_of_union.
    + exists [u]. split; [done|]. split; [|by eexists].
      econstructor; [done..|constructor].
    + destruct (Hback v Hin) as (us & Hne & H1 & H2). exists (us ++ [u]).
      split; [by destruct us|]. split; [by eapply leads_snoc|done].
Qed.

(** What the loop returns. *)
Definition chain_outcome ups max start (r : result UpcasterError (list (Z * Upcaster))) : Prop :=
  match r with
  | Ok chain => exists w, leads ups max start chain.*2 w /\ max <= w
  | Err (NoUpcasterRegistered v) =>
      v < max /\ ups !! v = None /\ exists us, leads ups max start us v
  | Err (CircularChain v) =>
      v < max /\ (exists us, leads ups max start us v) /\ exists us, us <> [] /\ leads ups max v us v
  | Err _ => False
  end.

Lemma build_loop_spec ups max start fuel visited chain current :
  chain_inv ups max start visited chain current ->
  (size ups < fuel + size visited)%nat ->
  exists r, build_loop fuel ups max visited chain current = Some r /\ chain_outcome ups max start r.
Proof.
  revert visited chain current. induction fuel as [|fuel IH]; intros visited chain current Hinv Hf.
  - cbn [build_loop]. destruct (current <? max) eqn:E.
    + exfalso. pose proof (subseteq_size _ _ (chain_registered _ _ _ _ _ _ Hinv)) as Hs.
      rewrite size_dom in Hs. lia.
    + exists (Ok chain). split; [done|]. exists current.
      split; [apply Hinv|lia].
  - cbn [build_loop]. destruct (current <? max) eqn:E.
    2: { exists (Ok chain). split; [done|]. exists current. split; [apply Hinv|lia]. }
    unfold check_circular_chain. case_decide as Hin.
    + exists (Err (CircularChain current)). split; [done|]. split; [lia|]. split.
      * by eexists; apply Hinv.
      * destruct (chain_back _ _ _ _ _ _ Hinv _ Hin) as (us & Hne & H & _). by exists us.
    + unfold get_upcaster_for_version. destruct (ups !! current) as [u|] eqn:Hu; cbn [ok_or].
      2: { exists (Err (NoUpcasterRegistered current)). split; [done|]. split_and!; [lia|done|].
           by eexists; apply Hinv. }
      apply IH; [apply chain_inv_step; try done; lia|].
      rewrite size_union, size_singleton by set_solver. lia.
Qed.

Lemma build_chain_spec ups max start :
  exists r, build_upcast_chain ups start max = Some r /\ chain_outcome ups max start r.
Proof.
  apply build_loop_spec; [apply chain_inv_start|]. rewrite size_empty. lia.
Qed.

Lemma apply_chain_spec ups max v p chain w :
  leads ups max v chain.*2 w ->
  apply_chain v p chain = let? p' := map_err UpcastFailure (upcast_all chain.*2 p) in Ok (w, p').
Proof.
  revert v p. induction chain as [|[x u] chain IH]; intros v p H; cbn; inversion H; subst; [done|].
  unfold apply_single_upcast. destruct (upcast u p) as [p'|]; cbn; [|done]. by apply IH.
Qed.

(** A version at or above the last one registered upcasters lead to. *)
Lemma leads_bound reg v us w : registry_wf reg -> us <> [] ->
  leads (upcasters reg) (max_version reg) v us w -> w <= max_version reg.
Proof.
  intros Hwf Hne H. induction H as [|v u us w _ Hu H IH]; [done|].
  destruct us as [|u' us]; [|by apply IH]. inversion H; subst. by apply (Hwf v u).
Qed.

(** What [upcast_envelope] returns below the current version. *)
Definition upcast_outcome reg e (r : result UpcasterError EventEnvelope) : Prop :=
  match r with
  | Ok e' => exists us, leads (upcasters reg) (max_version reg) (schema_version e) us (max_version reg) /\
      upcast_all us (payload e) = Ok (payload e') /\
      e' = mkEnvelope (max_version reg) (instance_id e) (sequence e) (timestamp_ms e) (payload e')
  | Err (UpcastFailure x) => exists us,
      leads (upcasters reg) (max_version reg) (schema_version e) us (max_version reg) /\
      upcast_all us (payload e) = Err x
  | Err (NoUpcasterRegistered v) => v < max_version reg /\ upcasters reg !! v = None /\
      exists us, leads (upcasters reg) (max_version reg) (schema_version e) us v
  | Err (CircularChain v) => v < max_version reg /\
      (exists us, leads (upcasters reg) (max_version reg) (schema_version e) us v) /\
      exists us, us <> [] /\ leads (upcasters reg) (max_version reg) v us v
  | Err _ => False
  end.

Lemma upcast_envelope_spec reg e :
  registry_wf reg -> schema_version e < max_version reg ->
  exists r, upcast_envelope reg e = Some r /\ upcast_outcome reg e r.
Proof.
  intros Hwf Hlt. unfold upcast_envelope. rewrite (proj2 (Z.leb_gt _ _) Hlt).
  destruct (build_chain_spec (upcasters reg) (max_version reg) (schema_version e)) as (r & -> & Hr).
  destruct r as [chain|x]; [|exists (Err x); split; [done|]; destruct x; try done; exact Hr]; cbn in Hr.
  destruct Hr as (w & Hl & Hw). eexists. split; [done|].
  assert (w = max_version reg) as ->.
  { destruct chain as [|x chain]; [inversion Hl; subst; lia|].
    assert ((x :: chain).*2 <> []) as Hne by (by csimpl).
    pose proof (leads_bound reg _ _ _ Hwf Hne Hl). lia. }
  unfold apply_upcast_chain. rewrite (apply_chain_spec _ _ _ _ _ _ Hl).
  destruct (upcast_all chain.*2 (payload e)) eqn:E; cbn; eauto.
Qed.

(** Every version from [v] on has an upcaster that increases it. *)
Definition increasing ups (v max : Z) : Prop :=
  forall x, v <= x < max -> exists u, ups !! x = Some u /\ x < target_version u.

Lemma increasing_leads ups max v us w :
  increasing ups v max -> leads ups max v us w -> v <= w /\ (us <> [] -> v < w).
Proof.
  intros Hinc Hl. induction Hl as [v|v u us w Hv Hu Hl IH]; [split; [lia|done]|].
  destruct (Hinc v ltac:(lia)) as (u' & Hu' & Hlt). rewrite Hu in Hu'. injection Hu' as <-.
  destruct IH as [IH1 IH2]; [intros x Hx; apply Hinc; lia|]. lia.
Qed.

Lemma increasing_outcome reg e r :
  increasing (upcasters reg) (schema_version e) (max_version reg) ->
  upcast_outcome reg e r -> match r with Ok _ | Err (UpcastFailure _) => True | _ => False end.
Proof.
  intros Hinc. destruct r as [|[]]; try done; cbn.
  - intros (Hv & Hnone & us & Hl). apply increasing_leads in Hl as [Hl _]; [|done].
    destruct (Hinc version ltac:(lia)) as (u & Hu & _). by rewrite Hnone in Hu.
  - intros (Hv & (us & Hl) & us' & Hne & Hl'). apply increasing_leads in Hl as [Hl _]; [|done].
    apply increasing_leads in Hl' as [_ Hl']; [|intros x Hx; apply Hinc; lia].
    specialize (Hl' Hne). lia.
Qed.

(** Upcasting an event, whatever was registered. It always returns. An event at the
    current version or above is left alone. Below, the registered upcasters are followed
    from its version to exactly the current one and their composition is applied to the
    payload, nothing else changing; the errors name a version that is reached and has no
    upcaster, a version that is reached and leads back to itself, or the first upcast that
    failed, and only the last is possible when the upcasters increase the version. An
    event that was upcast needs no upcasting. *)
Theorem upcast_envelope_correct max us e :
  let reg := register_all (registry_new max) us in
  (max <= schema_version e -> upcast_envelope reg e = Some (Ok e)) /\
  (schema_version e < max -> exists r, upcast_envelope reg e = Some r /\ upcast_outcome reg e r /\
     (increasing (upcasters reg) (schema_version e) max ->
      match r with Ok _ | Err (UpcastFailure _) => True | _ => False end)) /\
  (forall e', upcast_envelope reg e = Some (Ok e') -> upcast_envelope reg e' = Some (Ok e')).
Proof.
  cbn zeta. set (reg := register_all _ _).
  assert (max_version reg = max) as Hmax by apply register_all_max.
  pose proof (register_all_wf max us : registry_wf reg) as Hwf.
  assert (forall e, max <= schema_version e -> upcast_envelope reg e = Some (Ok e)) as Habove.
  { intros e1 He1. unfold upcast_envelope. rewrite Hmax. by rewrite (proj2 (Z.leb_le _ _) He1). }
  split; [apply Habove|]. split.
  - intros Hlt. destruct (upcast_envelope_spec reg e Hwf ltac:(lia)) as (r & Hr & Ho).
    exists r. split_and!; [done..|]. rewrite <- Hmax. intros Hinc. by eapply increasing_outcome.
  - intros e' He'. apply Habove. destruct (Z.le_gt_cases max (schema_version e)) as [Hge|Hlt].
    + rewrite Habove in He' by done. by simplify_eq.
    + destruct (upcast_envelope_spec reg e Hwf ltac:(lia)) as (r & Hr & Ho).
      rewrite Hr in He'. injection He' as ->. destruct Ho as (us' & _ & _ & ->). cbn. lia.
Qed.

(** A chain to the current version is the only one, and passes through whatever is
    reached. *)
Lemma leads_continue ups max v us w us' x :
  leads ups max v us w -> max <= w -> leads ups max v us' x ->
  exists us'', us = us' ++ us'' /\ leads ups max x us'' w.
Proof.
  intros Hl Hw Hl'. revert us Hl. induction Hl' as [v|v u us' x Hv Hu _ IH]; intros us Hl.
  - by exists us.
  - inversion Hl as [|? u' us1 ? ? Hu' Hl1]; subst; [lia|]. rewrite Hu in Hu'. injection Hu' as <-.
    destruct (IH us1 Hl1) as (us2 & -> & Hl2). by exists us2.
Qed.

Lemma leads_unique ups max v us us' w :
  leads ups max v us w -> leads ups max v us' w -> max <= w -> us = us'.
Proof.
  intros Hl Hl' Hw. destruct (leads_continue _ _ _ _ _ _ _ Hl Hw Hl') as (us2 & -> & H).
  inversion H; subst; [by rewrite app_nil_r|lia].
Qed.

Lemma outcome_complete reg e us r :
  leads (upcasters reg) (max_version reg) (schema_version e) us (max_version reg) ->
  upcast_outcome reg e r ->
  r = let? p := map_err UpcastFailure (upcast_all us (payload e)) in
      Ok (mkEnvelope (max_version reg) (instance_id e) (sequence e) (timestamp_ms e) p).
Proof.
  intros Hl. destruct r as [e'|[]]; try done; cbn.
  - intros (us' & Hl' & Hu & ->). rewrite (leads_unique _ _ _ _ _ _ Hl Hl') by done.
    by rewrite Hu.
  - intros (Hv & Hn & us' & Hl'). destruct (leads_continue _ _ _ _ _ _ _ Hl ltac:(done) Hl') as (us2 & -> & H).
    inversion H; subst; [lia|congruence].
  - intros (us' & Hl' & Hu). rewrite (leads_unique _ _ _ _ _ _ Hl Hl') by done. by rewrite Hu.
  - intros (Hv & (us' & Hl') & us2 & Hne & Hc).
    destruct (leads_continue _ _ _ _ _ _ _ Hl ltac:(done) Hl') as (us3 & -> & H).
    destruct (leads_continue _ _ _ _ _ _ _ H ltac:(done) Hc) as (us4 & -> & H').
    pose proof (f_equal length (leads_unique _ _ _ _ _ _ H H' ltac:(done))) as Hlen.
    rewrite length_app in Hlen. destruct us2; [done|cbn in Hlen; lia].
Qed.

(** ** The two registries *)

(** Upcasters for single versions, one per version. *)
Definition single_steps max us : Prop :=
  NoDup (source_version <$> us) /\
  Forall (fun u => target_version u = source_version u + 1 /\ target_version u <= max) us.

Definition version_register_all us : VersionRegistry := fold_left version_register us versions_new.

Lemma register_all_lookup reg us v :
  NoDup (source_version <$> us) -> Forall (fun u => target_version u <= max_version reg) us ->
  Forall (fun u => upcasters reg !! source_version u = None) us ->
  upcasters (register_all reg us) !! v =
    match find (fun u => source_version u =? v) us with
    | Some u => Some u | None => upcasters reg !! v end.
Proof.
  unfold register_all. revert reg. induction us as [|u us IH]; intros reg Hnd Hmax Hnew; [done|].
  apply NoDup_cons in Hnd as [Hu Hnd]. apply Forall_cons in Hmax as [Hmu Hmax].
  apply Forall_cons in Hnew as [Hnu Hnew]. cbn [fold_left find].
  assert (register reg u = (Ok tt, mkRegistry (<[source_version u := u]> (upcasters reg))
            (max_version reg))) as Hreg.
  { unfold register. rewrite (proj2 (Z.ltb_ge _ _) Hmu), decide_False; [done|].
    rewrite Hnu. by intros [? ?]. }
  rewrite Hreg. cbn [snd]. rewrite IH; [|done..|].
  - cbn. rewrite lookup_insert. destruct (source_version u =? v) eqn:E.
    + assert (find (fun u => source_version u =? v) us = None) as ->.
      { destruct (find _ us) as [y|] eqn:Hf; [|done]. apply find_some in Hf as [Hy Hyv].
        destruct Hu. assert (source_version u = source_version y) as -> by lia.
        by apply list_elem_of_fmap_2, list_elem_of_In. }
      by rewrite decide_True by lia.
    + by rewrite decide_False by lia.
  - apply Forall_forall. intros y Hy. cbn. rewrite lookup_insert_ne.
    + by eapply Forall_forall in Hnew.
    + intros E. apply Hu. rewrite E. by apply list_elem_of_fmap_2.
Qed.

Lemma version_register_lookup us v :
  NoDup (source_version <$> us) ->
  Forall (fun u => target_version u = source_version u + 1) us ->
  version_upcasters (version_register_all us) !! (v, v + 1) = find (fun u => source_version u =? v) us.
Proof.
  unfold version_register_all.
  enough (forall reg : VersionRegistry, NoDup (source_version <$> us) ->
    Forall (fun u => target_version u = source_version u + 1) us ->
    version_upcasters (fold_left version_register us reg) !! (v, v + 1)
    = match find (fun u => source_version u =? v) us with
      | Some u => Some u | None => version_upcasters reg !! (v, v + 1) end) as H.
  { intros Hnd Hs. rewrite H by done. destruct (find _ us); [done|apply lookup_empty]. }
  induction us as [|u us IH]; intros reg Hnd Hs; [done|].
  apply NoDup_cons in Hnd as [Hu Hnd]. apply Forall_cons in Hs as [Hsu Hs].
  cbn [fold_left find]. rewrite IH by done. unfold version_register. cbn.
  rewrite Hsu, lookup_insert. destruct (source_version u =? v) eqn:E.
  - destruct (find _ us) as [y|] eqn:Hf.
    + apply find_some in Hf as [Hy Hyv]. destruct Hu.
      assert (source_version u = source_version y) as -> by lia.
      by apply list_elem_of_fmap_2, list_elem_of_In.
    + rewrite decide_True; [done|]. f_equal; lia.
  - destruct (find _ us); [done|]. rewrite decide_False; [done|]. intros [=]. lia.
Qed.

Lemma upcast_loop_spec ups (reg : VersionRegistry) max n p v :
  (forall x, version_upcasters reg !! (x, x + 1) = ups !! x) ->
  (forall x u, ups !! x = Some u -> target_version u = x + 1) ->
  Z.to_nat (max - v) = n -> v <= max ->
  exists r, upcast_loop n reg p v max = Some r /\
    forall p', r = Ok p' <-> exists us, leads ups max v us max /\ upcast_all us p = Ok p'.
Proof.
  intros Hreg Hone. revert p v. induction n as [|n IH]; intros p v Hn Hv; cbn [upcast_loop].
  - rewrite (proj2 (Z.ltb_ge v max)) by lia. assert (v = max) as -> by lia. eexists.
    split; [done|]. intros p'. split.
    + intros [= <-]. exists []. split; [constructor|done].
    + intros (us & Hl & Hu). inversion Hl; subst; [cbn in Hu; congruence|lia].
  - rewrite (proj2 (Z.ltb_lt v max)) by lia. rewrite Hreg.
    destruct (ups !! v) as [u|] eqn:Hu.
    2: { eexists. split; [done|]. intros p'. split; [done|]. intros (us & Hl & _).
         inversion Hl; subst; [lia|congruence]. }
    assert (target_version u = v + 1) as Ht by (by apply Hone).
    destruct (upcast u p) as [p1|x] eqn:Hp.
    + destruct (IH p1 (v + 1)) as (r & -> & Hr); [lia..|]. exists r. split; [done|].
      intros p'. rewrite Hr. split; intros (us & Hl & Hall).
      * exists (u :: us). split; [|cbn; by rewrite Hp]. constructor; [lia|done|by rewrite Ht].
      * inversion Hl as [|? u' us' ? ? Hu' Hl']; subst; [lia|]. rewrite Hu in Hu'.
        injection Hu' as <-. rewrite Ht in Hl'. cbn in Hall. rewrite Hp in Hall. by exists us'.
    + eexists. split; [done|]. intros p'. split; [done|]. intros (us & Hl & Hall).
      inversion Hl as [|? u' us' ? ? Hu' Hl']; subst; [lia|]. rewrite Hu in Hu'.
      injection Hu' as <-. cbn in Hall. by rewrite Hp in Hall.
Qed.

(** The two registries agree: with the same upcasters, one per version and each for a
    single version, upcasting the payload with the one of [vo-types] succeeds exactly when
    upcasting the event with the one of [vo-core] does, and with the same payload. *)
Theorem registries_agree max us e p :
  single_steps max us -> schema_version e <= max ->
  upcast_payload (version_register_all us) (payload e) (schema_version e) max = Some (Ok p) <->
  upcast_envelope (register_all (registry_new max) us) e =
    Some (Ok (mkEnvelope max (instance_id e) (sequence e) (timestamp_ms e) p)).
Proof.
  intros [Hnd Hs] Hle. set (reg := register_all _ _).
  assert (max_version reg = max) as Hmax by apply register_all_max.
  pose proof (register_all_wf max us : registry_wf reg) as Hwf.
  assert (forall v, upcasters reg !! v = find (fun u => source_version u =? v) us) as Hlook.
  { intros v. unfold reg. rewrite register_all_lookup; [|done|..].
    - cbn. rewrite lookup_empty. by destruct (find _ us).
    - eapply Forall_impl; [done|]. cbn. tauto.
    - apply Forall_true. intros. apply lookup_empty. }
  unfold upcast_payload. destruct (schema_version e =? max) eqn:E.
  { apply Z.eqb_eq in E. unfold upcast_envelope. rewrite Hmax, (proj2 (Z.leb_le _ _)) by lia.
    destruct e as [ver ? ? ? ?]; cbn in *. rewrite E. naive_solver. }
  rewrite (proj2 (Z.ltb_ge max (schema_version e))) by lia.
  destruct (upcast_loop_spec (upcasters reg) (version_register_all us) max
    (Z.to_nat (max - schema_version e)) (payload e) (schema_version e)) as (r & -> & Hr); try done.
  { intros x. rewrite Hlook. apply version_register_lookup; [done|].
    eapply Forall_impl; [done|]. cbn. tauto. }
  { intros x u Hx. destruct (Hwf x u Hx) as [<- _]. rewrite Hlook in Hx.
    apply find_some in Hx as [Hin _]. apply list_elem_of_In in Hin.
    by eapply Forall_forall in Hs as [? _]. }
  destruct (upcast_envelope_spec reg e Hwf ltac:(lia)) as (r' & -> & Ho).
  assert (forall p, r = Ok p <-> r' = Ok (mkEnvelope max (instance_id e) (sequence e) (timestamp_ms e) p)) as H.
  2: { specialize (H p). naive_solver. }
  clear p. intros p. rewrite Hr, <- Hmax. split.
  - intros (us' & Hl & Hu). rewrite (outcome_complete _ _ _ _ Hl Ho).
    by rewrite Hu.
  - intros ->. destruct Ho as (us' & Hl & Hu & _). by exists us'.
Qed.

(** ** Replay with a registry *)

Lemma Forall_exists_Forall2 {A B} (R : A -> B -> Prop) l :
  Forall (fun x => exists y, R x y) l -> exists l', Forall2 R l l'.
Proof.
  induction 1 as [|x l (y & Hy) _ (l' & IH)]; [by exists []|]. exists (y :: l'). by constructor.
Qed.

(** [upcast_envelope] as a function; it always returns. *)
Definition upcast_fn reg e : result UpcasterError EventEnvelope :=
  default (Err (NoUpcasterRegistered 0)) (upcast_envelope reg e).

Lemma upcast_fn_eq max us e :
  let reg := register_all (registry_new max) us in upcast_envelope reg e = Some (upcast_fn reg e).
Proof.
  cbn zeta. set (reg := register_all _ _). unfold upcast_fn.
  assert (exists r, upcast_envelope reg e = Some r) as (r & ->); [|done].
  unfold upcast_envelope. case_match; [by eexists|].
  destruct (build_chain_spec (upcasters reg) (max_version reg) (schema_version e)) as ([] & -> & _);
    by eexists.
Qed.

(** Replaying an old journal. When the registered upcasters increase every version the
    journal uses and upcast its payloads, replay with the registry is replay of the
    journal with every payload brought to the current version: the instances, sequence
    numbers and times are those of the stored events. A journal at the current version
    replays as without a registry. *)
Theorem old_journal_replays max us (events : list EventEnvelope) :
  let reg := register_all (registry_new max) us in
  (Forall (fun e => increasing (upcasters reg) (schema_version e) max /\
     forall us' x, leads (upcasters reg) max (schema_version e) us' max ->
       upcast_all us' (payload e) <> Err x) events ->
   exists events', replay_with_upcaster (upcast_fn reg) events = replay events' /\
     Forall2 (fun e e' => instance_id e' = instance_id e /\ sequence e' = sequence e /\
       timestamp_ms e' = timestamp_ms e /\ schema_version e' = Z.max (schema_version e) max) events events') /\
  (Forall (fun e => max <= schema_version e) events ->
   replay_with_upcaster (upcast_fn reg) events = replay events).
Proof.
  cbn zeta. set (reg := register_all _ _).
  assert (max_version reg = max) as Hmax by apply register_all_max.
  pose proof (register_all_wf max us : registry_wf reg) as Hwf.
  assert (forall events', Forall2 (fun e e' => upcast_fn reg e = Ok e') events events' ->
    replay_with_upcaster (upcast_fn reg) events = replay events') as Hreplay.
  { apply replay_with_upcaster_spec. }
  split.
  - intros H.
    assert (Forall (fun e => exists e', upcast_fn reg e = Ok e' /\
      instance_id e' = instance_id e /\ sequence e' = sequence e /\
      timestamp_ms e' = timestamp_ms e /\ schema_version e' = Z.max (schema_version e) max) events) as Hall.
    { eapply Forall_impl; [done|]. cbn. intros e [Hinc Hok]. unfold upcast_fn.
      destruct (Z.le_gt_cases max (schema_version e)) as [Hge|Hlt].
      - exists e. unfold upcast_envelope. rewrite Hmax, (proj2 (Z.leb_le _ _)) by done. cbn.
        split_and!; [done..|lia].
      - destruct (upcast_envelope_spec reg e Hwf ltac:(lia)) as (r & -> & Ho).
        rewrite <- Hmax in Hinc. pose proof (increasing_outcome _ _ _ Hinc Ho) as Hr.
        destruct r as [e'|[]]; try done; cbn in Ho.
        + destruct Ho as (us' & _ & _ & ->). eexists. split; [done|]. cbn. split_and!; [done..|lia].
        + destruct Ho as (us' & Hl & Hf). rewrite Hmax in Hl. by destruct (Hok _ _ Hl Hf). }
    apply Forall_exists_Forall2 in Hall as (events' & Hall). exists events'.
    split; [apply Hreplay|]; (eapply Forall2_impl; [done|]; cbn; tauto).
  - intros H. apply Hreplay. clear Hreplay. induction H as [|e events He _ IH]; constructor; [|apply IH].
    unfold upcast_fn, upcast_envelope. by rewrite Hmax, (proj2 (Z.leb_le _ _)).
Qed.
End Chains.

(** ** Witnesses *)

Module UpcasterWitness.
Import StringJson.
#[local] Existing Instance string_json.

(** Two upcasters that append to the payload, from version 1 to 3. *)
Definition append (s : string) (from to : Z) : Upcaster :=
  mkUpcaster from to (fun v => Ok (v +:+ s)).
Definition two_steps : list Upcaster := [append "b" 1 2; append "c" 2 3].
Definition old : EventEnvelope := mkEnvelope 1 "i" 1 10 "a".

Lemma two_single_steps : single_steps 3 two_steps.
Proof.
  split; [|by repeat constructor]. repeat constructor; set_solver.
Qed.

Lemma registries_agree_witness :
  upcast_payload (version_register_all two_steps) "a" 1 3 = Some (Ok "abc") /\
  upcast_envelope (register_all (registry_new 3) two_steps) old
  = Some (Ok (mkEnvelope 3 "i" 1 10 "abc")).
Proof.
  assert (upcast_payload (version_register_all two_steps) "a" 1 3 = Some (Ok "abc")) as H
    by (by vm_compute).
  split; [exact H|].
  exact (proj1 (registries_agree 3 two_steps old "abc" two_single_steps ltac:(cbn; lia)) H).
Defined.

(** Upcasters that do not increase the version are accepted and make a circle. *)
Example circular_registration :
  match upcast_envelope (register_all (registry_new 3) [append "b" 1 2; append "c" 2 1]) old with
  | Some (Err (CircularChain v)) => v = 1
  | _ => False
  end.
Proof. by vm_compute. Qed.
End UpcasterWitness.
