(* ===== verification/EventSourcing.v ===== *)
(** * The event sourcing engine

    [crates/vo-core/src/replay/event_sourcing_engine/] and [snapshot_compat.rs]:
    full and snapshot-accelerated recovery, and the snapshot store behind its
    trait. Serialisation ([serde_json]), the hash of the checksum and the clock are
    parameters; a poisoned lock of the in-memory store is not modelled. *)

From S2P Require Import Prelude Identifiers Lifecycle Events Replay.

(** ** Snapshots *)

Module SnapshotCompat.
(** [enum SnapshotCompat]. *)
Inductive SnapshotCompat : Set :=
| Compatible
| NeedsUpcast (from to : Z)
| Incompatible (snapshot engine : Z).
End SnapshotCompat.
Abbreviation SnapshotCompat := SnapshotCompat.SnapshotCompat.

(** [SnapshotCompat::is_compatible]. *)
Definition is_compatible (c : SnapshotCompat) : bool :=
  match c with SnapshotCompat.Compatible => true | _ => false end.

(** [is_snapshot_compatible]. *)
Definition is_snapshot_compatible (snapshot_version engine_version : Z) : bool :=
  snapshot_version =? engine_version.

(** [check_snapshot_compat]. *)
Definition check_snapshot_compat (snapshot_version engine_version : Z) : SnapshotCompat :=
  if (snapshot_version =? 0) || (engine_version =? 0) then
    SnapshotCompat.Incompatible snapshot_version engine_version
  else
    match snapshot_version ?= engine_version with
    | Eq => SnapshotCompat.Compatible
    | Lt => SnapshotCompat.NeedsUpcast snapshot_version engine_version
    | Gt => SnapshotCompat.Incompatible snapshot_version engine_version
    end.

(** [struct Snapshot]. *)
Record Snapshot : Set := mkSnapshot {
  projection_id : string;
  snap_schema_version : Z;
  state_bytes : list Z;
  snap_sequence : Z;
  created_at : Z;
  checksum : Z;
}.

(** [Snapshot::is_compatible_with]; a [u8] widened to [u16] keeps its value. *)
Definition is_compatible_with (s : Snapshot) (engine_version : Z) : bool :=
  match check_snapshot_compat (snap_schema_version s) engine_version with
  | SnapshotCompat.Compatible => true
  | _ => false
  end.

(** ** Recovery results *)

Module RecoveryType.
(** [enum RecoveryType]. *)
Inductive RecoveryType : Set := FullReplay | SnapshotAccelerated | Incremental.
End RecoveryType.
Abbreviation RecoveryType := RecoveryType.RecoveryType.

(** [struct RecoveryResult]. *)
Record RecoveryResult (S : Type) : Type := mkRecoveryResult {
  rec_state : S;
  rec_events_applied : Z;
  starting_sequence : Z;
  ending_sequence : Z;
  recovery_type : RecoveryType;
  duration_ms : Z;
  snapshot_used : bool;
}.
Arguments mkRecoveryResult {S}.
Arguments rec_state {S}.
Arguments rec_events_applied {S}.

(** [struct EventSourcingConfig], without the throttle of projection rebuilds. *)
Record EventSourcingConfig : Set := mkConfig {
  max_schema_version : Z;
  snapshot_interval_events : Z;
}.

Section Engine.
Context `{J : JsonApi} {UpcastError : Type}.

(** [enum ProjectionError]; [BuildFailed] keeps the replay error it prints. *)
Inductive ProjectionError : Type :=
| ProjectionNotFound (id : string)
| ProjectionAlreadyExists (id : string)
| InvalidState (message : string)
| BuildFailed (source : ReplayError (UpcastError := UpcastError))
| RebuildFailed (message : string)
| UpcastingFailed (message : string)
| Storage (message : string)
| IncompatibleSchemaVersion (expected actual : Z)
| SequenceGap (at_sequence : Z)
| ChecksumMismatch (expected actual : Z)
| ConcurrencyConflict (message : string)
| ThrottleExceeded (retry_after : Z)
| FailedState (message : string).

(** [trait SnapshotStore], over an explicit store state. *)
Class SnapshotStore (St : Type) : Type := {
  save_snapshot : Snapshot -> St -> result ProjectionError unit * St;
  load_latest_snapshot : string -> St -> result ProjectionError (option Snapshot);
  delete_snapshot : string -> Z -> St -> result ProjectionError unit * St;
}.

(** What the engine relies on: a saved snapshot is the latest one of its
    projection, and operations on one projection leave the others alone. *)
Class SnapshotStoreLaws (St : Type) `{SnapshotStore St} : Prop := {
  load_after_save : forall snap st st', save_snapshot snap st = (Ok tt, st') ->
    load_latest_snapshot (projection_id snap) st' = Ok (Some snap);
  load_other_after_save : forall snap id st st' x, save_snapshot snap st = (x, st') ->
    id <> projection_id snap -> load_latest_snapshot id st' = load_latest_snapshot id st;
  load_other_after_delete : forall id id' seq st st' x, delete_snapshot id seq st = (x, st') ->
    id' <> id -> load_latest_snapshot id' st' = load_latest_snapshot id' st;
}.

(** [InMemorySnapshotStore]: one snapshot per projection; [delete_snapshot] does
    not look at the sequence. *)
#[global] Instance in_memory_store : SnapshotStore (gmap string Snapshot) := {|
  save_snapshot := fun snapshot st => (Ok tt, <[projection_id snapshot := snapshot]> st);
  load_latest_snapshot := fun id st => Ok (st !! id);
  delete_snapshot := fun id _ st => (Ok tt, delete id st);
|}.

#[global] Instance in_memory_store_laws : SnapshotStoreLaws (gmap string Snapshot).
Proof.
  split; cbn.
  - intros snap st st' [= <-]. by rewrite lookup_insert_eq.
  - intros snap id st st' x [= _ <-] Hne. by rewrite lookup_insert_ne.
  - intros id id' _ st st' x [= _ <-] Hne. by rewrite lookup_delete_ne.
Qed.

(** ** The engine *)

(** [struct EventSourcingEngine]: its configuration and its optional registry; the
    replay engine has no state, the snapshot store is passed explicitly. *)
Record EventSourcingEngine : Type := mkEngine {
  config : EventSourcingConfig;
  upcaster_registry : option (EventEnvelope -> result UpcastError EventEnvelope);
}.

(** The [if let Some(registry)] that chooses the replay. *)
Definition replay_events (eng : EventSourcingEngine) (events : list EventEnvelope) :=
  match upcaster_registry eng with
  | Some registry => replay_with_upcaster registry events
  | None => replay events
  end.

Definition first_sequence (events : list EventEnvelope) (def : Z) : Z :=
  default def (sequence <$> head events).
Definition last_sequence (events : list EventEnvelope) (def : Z) : Z :=
  default def (sequence <$> last events).

(** [EventSourcingEngine::reconstruct_state]; [elapsed] is the measured time. *)
Definition reconstruct_state (eng : EventSourcingEngine) (elapsed : Z)
    (events : list EventEnvelope)
  : result ReplayError (RecoveryResult (option LifecycleState)) :=
  let? r := replay_events eng events in
  Ok (mkRecoveryResult (final_state r) (events_applied r) (first_sequence events 0)
        (last_sequence events 0) RecoveryType.FullReplay elapsed false).

Context (from_slice : list Z -> option (option LifecycleState)).

(** [EventSourcingEngine::reconstruct_state_with_snapshot]. *)
Definition reconstruct_state_with_snapshot (eng : EventSourcingEngine) (elapsed : Z)
    (snapshot : option Snapshot) (recent_events : list EventEnvelope)
  : result ProjectionError (RecoveryResult (option LifecycleState)) :=
  match snapshot with
  | Some snap =>
      if negb (is_compatible_with snap (max_schema_version (config eng))) then
        Err (IncompatibleSchemaVersion (max_schema_version (config eng))
               (snap_schema_version snap))
      else
        let events_to_replay := filter (fun e => snap_sequence snap < sequence e) recent_events in
        let starting := wrapping_add_u64 (snap_sequence snap) 1 in
        let ending := last_sequence recent_events (snap_sequence snap) in
        match events_to_replay with
        | [] =>
            match from_slice (state_bytes snap) with
            | None => Err (Storage "snapshot deserialization failed")
            | Some state =>
                Ok (mkRecoveryResult state 0 starting ending RecoveryType.SnapshotAccelerated
                      elapsed true)
            end
        | _ =>
            let? r := map_err BuildFailed (replay_events eng events_to_replay) in
            Ok (mkRecoveryResult (final_state r) (events_applied r) starting ending
                  RecoveryType.SnapshotAccelerated elapsed true)
        end
  | None =>
      let? r := map_err BuildFailed (replay_events eng recent_events) in
      Ok (mkRecoveryResult (final_state r) (events_applied r) (first_sequence recent_events 0)
            (last_sequence recent_events 0) RecoveryType.FullReplay elapsed false)
  end.

(** [EventSourcingEngine::should_create_snapshot]; [n.is_multiple_of(0)] holds
    of zero only. *)
Definition should_create_snapshot (eng : EventSourcingEngine) (events_processed : Z) : bool :=
  (0 <? events_processed) &&
  (if snapshot_interval_events (config eng) =? 0 then events_processed =? 0
   else events_processed mod snapshot_interval_events (config eng) =? 0).

Context {St : Type} `{SnapshotStore St}.
Context (to_vec : option LifecycleState -> option (list Z)) (compute_checksum : list Z -> Z).

(** [EventSourcingEngine::create_snapshot] for the lifecycle state; [now] is
    [current_timestamp_ms], the store is optional. *)
Definition create_snapshot (eng : EventSourcingEngine) (store : option St) (now : Z)
    (id : string) (state : option LifecycleState) (seq : Z)
  : result ProjectionError Snapshot * option St :=
  match to_vec state with
  | None => (Err (Storage "serialization failed"), store)
  | Some bytes =>
      let snapshot := mkSnapshot id (max_schema_version (config eng)) bytes seq now
                        (compute_checksum bytes) in
      match store with
      | None => (Ok snapshot, None)
      | Some st =>
          let '(x, st') := save_snapshot snapshot st in
          ((let? _ := x in Ok snapshot), Some st')
      end
  end.

(** [EventSourcingEngine::load_snapshot]. *)
Definition load_snapshot (store : option St) (id : string)
  : result ProjectionError (option Snapshot) :=
  match store with Some st => load_latest_snapshot id st | None => Ok None end.

(** [EventSourcingEngine::delete_snapshot]. *)
Definition engine_delete_snapshot (store : option St) (id : string) (seq : Z)
  : result ProjectionError unit * option St :=
  match store with
  | Some st => let '(x, st') := delete_snapshot id seq st in (x, Some st')
  | None => (Ok tt, None)
  end.
End Engine.

(** ** Properties *)

Section Properties.
Context `{J : JsonApi} {UpcastError : Type}.
Implicit Types eng : EventSourcingEngine (UpcastError := UpcastError).

Lemma is_compatible_with_spec snap v :
  is_compatible_with snap v = true <-> snap_schema_version snap = v /\ v <> 0.
Proof.
  unfold is_compatible_with, check_snapshot_compat.
  destruct (Z.eqb_spec (snap_schema_version snap) 0), (Z.eqb_spec v 0); cbn; try lia.
  destruct (Z.compare_spec (snap_schema_version snap) v); naive_solver lia.
Qed.

(** A journal slice that does not begin with the start of the workflow, its
    cancellation or a bookkeeping event cannot be replayed from scratch. *)
Lemma replay_headless e rest p t :
  decodes e p -> transition_of p = Some t -> t <> TE.AssignToNode -> t <> TE.Cancel ->
  exists x, replay (UpcastError := UpcastError) (e :: rest) = Err x.
Proof.
  intros Hd Ht H1 H2. unfold replay.
  destruct (check_instances _ _) as [[]|]; cbn [rbind]; [|by eexists].
  destruct (check_sequences _ _ _) as [[]|]; cbn [rbind]; [|by eexists].
  cbn [replay_loop]. rewrite Hd; cbn.
  destruct p; simplify_eq/=; eauto.
Qed.

(** Snapshot-accelerated recovery does not start from the snapshot. When the
    journal has events after the snapshot, the recovered state does not depend on
    the snapshot's state bytes; and unless the first of these events is the start
    or the cancellation of the workflow or a bookkeeping event, recovery fails
    with [BuildFailed] whatever the snapshot holds. *)
Theorem snapshot_recovery_ignores_state eng from_slice elapsed snap snap' events e rest :
  upcaster_registry eng = None ->
  is_compatible_with snap (max_schema_version (config eng)) = true ->
  filter (fun e => snap_sequence snap < sequence e) events = e :: rest ->
  snap_sequence snap' = snap_sequence snap ->
  snap_schema_version snap' = snap_schema_version snap ->
  reconstruct_state_with_snapshot from_slice eng elapsed (Some snap) events =
    reconstruct_state_with_snapshot from_slice eng elapsed (Some snap') events /\
  (forall p t, decodes e p -> transition_of p = Some t ->
     t <> TE.AssignToNode -> t <> TE.Cancel ->
     exists x, reconstruct_state_with_snapshot from_slice eng elapsed (Some snap) events
               = Err (BuildFailed x)).
Proof.
  intros Hu Hc Hf Hseq Hv.
  assert (is_compatible_with snap' (max_schema_version (config eng)) = true) as Hc'
    by (rewrite is_compatible_with_spec in *; by rewrite Hv).
  unfold reconstruct_state_with_snapshot, replay_events.
  rewrite Hc, Hc', Hseq, Hf, Hu; cbn [negb]. split; [done|].
  intros p t Hd Ht H1 H2.
  destruct (replay_headless e rest p t Hd Ht H1 H2) as [x ->]. by exists x.
Qed.

(** Against any store that satisfies its interface: a snapshot that was
    created is the one loaded back for its projection, it is compatible with the
    engine that made it, and with no newer events recovery from it returns the
    state it was made of without replaying anything. *)
Theorem snapshot_roundtrip {St} `{!SnapshotStore (UpcastError := UpcastError) St}
    `{!SnapshotStoreLaws St} eng from_slice to_vec hash (st : St) now elapsed id state seq
    snap store' events :
  (forall s bytes, to_vec s = Some bytes -> from_slice bytes = Some s) ->
  max_schema_version (config eng) <> 0 ->
  create_snapshot to_vec hash eng (Some st) now id state seq = (Ok snap, store') ->
  Forall (fun e => sequence e <= seq) events ->
  load_snapshot store' id = Ok (Some snap) /\
  exists r, reconstruct_state_with_snapshot from_slice eng elapsed (Some snap) events = Ok r /\
    rec_state r = state /\ rec_events_applied r = 0.
Proof.
  intros Hser Hv Hc Hseq. unfold create_snapshot in Hc.
  destruct (to_vec state) as [bytes|] eqn:Hb; [|done].
  set (sn := mkSnapshot _ _ _ _ _ _) in Hc.
  destruct (save_snapshot sn st) as [[[]|] st'] eqn:Hsave; cbn in Hc; [|done].
  injection Hc as <- <-.
  split; [by apply (load_after_save _ _ _ Hsave)|].
  unfold reconstruct_state_with_snapshot.
  rewrite (proj2 (is_compatible_with_spec sn _)) by done; cbn [negb].
  assert (filter (fun e => snap_sequence sn < sequence e) events = []) as ->.
  { clear -Hseq. induction Hseq as [|e events He _ IH]; [done|].
    rewrite filter_cons, decide_False; [done|cbn; lia]. }
  cbn. rewrite (Hser _ _ Hb). by eexists.
Qed.

(** A snapshot is due exactly at the positive multiples of a nonzero
    interval, and never when the interval is zero. *)
Theorem should_create_snapshot_spec eng n :
  0 <= snapshot_interval_events (config eng) ->
  should_create_snapshot eng n = true <->
  exists k, 0 < k /\ n = k * snapshot_interval_events (config eng) /\
            snapshot_interval_events (config eng) <> 0.
Proof.
  set (i := snapshot_interval_events (config eng)); intros Hi.
  unfold should_create_snapshot; fold i.
  rewrite andb_true_iff, Z.ltb_lt.
  destruct (Z.eqb_spec i 0) as [->|Hne].
  - rewrite Z.eqb_eq. split; [lia|by intros (k & ? & ? & ?)].
  - rewrite Z.eqb_eq, Z.mod_divide by done. split.
    + intros [Hn [k ->]]. exists k. split_and!; [nia|done..].
    + intros (k & Hk & -> & _). split; [nia|by exists k].
Qed.

(** [delete_snapshot] of the in-memory store removes the snapshot of the
    projection whatever sequence is asked for. *)
Theorem in_memory_delete_ignores_sequence (st : gmap string Snapshot) snap seq :
  st !! projection_id snap = Some snap ->
  exists st', delete_snapshot (UpcastError := UpcastError) (projection_id snap) seq st
              = (Ok tt, st') /\
  load_latest_snapshot (UpcastError := UpcastError) (projection_id snap) st' = Ok None.
Proof. intros H. eexists; split; [done|]. cbn. by rewrite lookup_delete_eq. Qed.
End Properties.

(** ** Witnesses *)

Module EventSourcingWitness.
Import ConcreteJson.

Definition engine : EventSourcingEngine (J := json_api) (UpcastError := unit) :=
  mkEngine (mkConfig 1 1000) None.

(** A one-byte serialisation of the state. *)
Definition to_vec (s : option LifecycleState) : option (list Z) :=
  match s with
  | Some LS.StepScheduled => Some [1]
  | None => Some [0]
  | _ => None
  end.
Definition from_slice (bytes : list Z) : option (option LifecycleState) :=
  match bytes with
  | [0] => Some None
  | [1] => Some (Some LS.StepScheduled)
  | _ => None
  end.

(** A snapshot after the first two events of the journal, and the same with a
    garbled state. *)
Definition snap : Snapshot := mkSnapshot "p" 1 [1] 2 0 0.
Definition garbled : Snapshot := mkSnapshot "p" 1 [99] 2 0 0.

Lemma snapshot_recovery_ignores_state_witness :
  replay (J := json_api) (UpcastError := unit) journal
    = Ok (mkReplayResult (Some LS.Completed) 4 (Some 3)) /\
  reconstruct_state_with_snapshot from_slice engine 0 (Some snap) journal =
    reconstruct_state_with_snapshot from_slice engine 0 (Some garbled) journal /\
  exists x, reconstruct_state_with_snapshot from_slice engine 0 (Some snap) journal
            = Err (BuildFailed x).
Proof.
  split; [reflexivity|].
  destruct (snapshot_recovery_ignores_state engine from_slice 0 snap garbled journal
              (env 3 step_started) [env 4 completed]) as [H1 H2]; [reflexivity..|].
  split; [exact H1|].
  apply (H2 (StepStarted "wf" "s" 7) TE.ExecuteStep); [reflexivity..|done|done].
Defined.

Lemma snapshot_roundtrip_witness :
  load_snapshot (UpcastError := unit)
    (Some (<["p" := mkSnapshot "p" 1 [1] 2 0 0]> (∅ : gmap string Snapshot))) "p"
  = Ok (Some (mkSnapshot "p" 1 [1] 2 0 0)).
Proof.
  apply (snapshot_roundtrip engine from_slice to_vec (fun _ => 0)
           (∅ : gmap string Snapshot) 0 0 "p" (Some LS.StepScheduled) 2 _ _ []).
  - by intros [[]|] bytes [= <-].
  - done.
  - reflexivity.
  - constructor.
Defined.

Lemma should_create_snapshot_spec_witness : should_create_snapshot engine 2000 = true.
Proof. apply (should_create_snapshot_spec engine 2000); [done|]. exists 2. done. Defined.

Lemma in_memory_delete_ignores_sequence_witness :
  exists st', delete_snapshot (UpcastError := unit) "p" 7
                (<["p" := snap]> (∅ : gmap string Snapshot)) = (Ok tt, st') /\
  load_latest_snapshot (UpcastError := unit) "p" st' = Ok None.
Proof.
  apply (in_memory_delete_ignores_sequence _ snap 7). reflexivity.
Defined.
End EventSourcingWitness.
