(* ===== verification/KeyEncoding.v ===== *)
(** * Storage keys

    [crates/vo-storage/src/key_encoding/mod.rs]: the byte layouts of the keys of
    the storage partitions. A byte is a [Z] in [0, 255]; a Rust string is the list
    of its UTF-8 bytes. *)

From S2P Require Import Prelude Identifiers.
From Stdlib Require Import Ascii.

(** ** Bytes *)

Definition is_byte (b : Z) : Prop := 0 <= b < 256.

(** [to_be_bytes] of an [n]-byte integer. *)
Definition be_bytes (n : nat) (z : Z) : list Z := digits 256 n z.

(** [from_be_bytes]. *)
Definition from_be_bytes (bs : list Z) : Z := undigits 256 bs.

(** [s.as_bytes()]. *)
Definition as_bytes (s : string) : list Z := (fun c => Z.of_nat (nat_of_ascii c)) <$> chars s.

(** The string of given bytes, without validation. *)
Definition of_bytes (bs : list Z) : string := of_chars ((fun b => ascii_of_nat (Z.to_nat b)) <$> bs).

Definition blen (bs : list Z) : Z := Z.of_nat (length bs).

Definition in_range (b lo hi : Z) : bool := (lo <=? b) && (b <=? hi).

(** UTF-8 validity as [std::str::from_utf8] defines it. *)
Fixpoint utf8_valid (bs : list Z) : bool :=
  match bs with
  | [] => true
  | b0 :: r0 =>
      if in_range b0 0 127 then utf8_valid r0
      else match r0 with
      | [] => false
      | b1 :: r1 =>
          if in_range b0 194 223 then in_range b1 128 191 && utf8_valid r1
          else match r1 with
          | [] => false
          | b2 :: r2 =>
              if b0 =? 224 then in_range b1 160 191 && in_range b2 128 191 && utf8_valid r2
              else if in_range b0 225 236 || in_range b0 238 239 then
                in_range b1 128 191 && in_range b2 128 191 && utf8_valid r2
              else if b0 =? 237 then in_range b1 128 159 && in_range b2 128 191 && utf8_valid r2
              else match r2 with
              | [] => false
              | b3 :: r3 =>
                  (if b0 =? 240 then in_range b1 144 191
                   else if in_range b0 241 243 then in_range b1 128 191
                   else if b0 =? 244 then in_range b1 128 143
                   else false)
                  && in_range b2 128 191 && in_range b3 128 191 && utf8_valid r3
              end
          end
      end
  end.

(** [std::str::from_utf8] and [String::from_utf8]. *)
Definition from_utf8 (bs : list Z) : option string :=
  if utf8_valid bs then Some (of_bytes bs) else None.

(** ** Errors and primitive encodings *)

(** [enum KeyEncodingError]. *)
Inductive KeyEncodingError : Type :=
| InstanceIdError (source : ParseError)
| StepIdError (source : ParseError)
| InvalidLength (expected actual : Z)
| EmptyField
| KeyComponentTooLong (max actual : Z).

(** [encode_u64_be]. *)
Definition encode_u64_be (value : Z) : list Z := be_bytes 8 value.

(** [encode_u16_be]. *)
Definition encode_u16_be (value : Z) : list Z := be_bytes 2 value.

(** [decode_u64_be]. *)
Definition decode_u64_be (bytes : list Z) : result KeyEncodingError Z :=
  if negb (blen bytes =? 8) then Err (InvalidLength 8 (blen bytes))
  else Ok (from_be_bytes bytes).

(** [decode_u16_be]. *)
Definition decode_u16_be (bytes : list Z) : result KeyEncodingError Z :=
  if negb (blen bytes =? 2) then Err (InvalidLength 2 (blen bytes))
  else Ok (from_be_bytes bytes).

(** [encode_length_prefixed]. *)
Definition encode_length_prefixed (value : list Z) : result KeyEncodingError (list Z) :=
  if u16_max <? blen value then Err (KeyComponentTooLong u16_max (blen value))
  else Ok (encode_u16_be (blen value) ++ value).

(** [decode_length_prefixed]. *)
Definition decode_length_prefixed (bytes : list Z)
  : result KeyEncodingError (list Z * list Z) :=
  if blen bytes <? 2 then Err (InvalidLength 2 (blen bytes))
  else
    let? n := decode_u16_be (take 2 bytes) in
    if blen bytes <? 2 + n then Err (InvalidLength (2 + n) (blen bytes))
    else Ok (take (Z.to_nat n) (drop 2 bytes), drop (Z.to_nat (2 + n)) bytes).

(** [encode_step_id]. *)
Definition encode_step_id (step_id : StepId) : result KeyEncodingError (list Z) :=
  encode_length_prefixed (as_bytes (step_id_str step_id)).

(** [decode_step_id]; [KeyEncodingError::from] makes an [InstanceId] error of the
    [ParseError]. *)
Definition decode_step_id (bytes : list Z) : result KeyEncodingError StepId :=
  let? parts := decode_length_prefixed bytes in
  let id_bytes := fst parts in
  match from_utf8 id_bytes with
  | None => Err (StepIdError (InvalidFormat "StepId" ReasonUtf8))
  | Some s => map_err InstanceIdError (StepId_parse s)
  end.

(** [encode_sequence_number]. *)
Definition encode_sequence_number (seq : SequenceNumber) : list Z :=
  encode_u64_be (sequence_u64 seq).

(** [decode_sequence_number]. *)
Definition decode_sequence_number (bytes : list Z) : result KeyEncodingError SequenceNumber :=
  let? val := decode_u64_be bytes in
  map_err InstanceIdError (SequenceNumber_try_from val).

(** [encode_dedupe_key], which is also [get_dedupe_key_prefix]. *)
Definition encode_dedupe_key (idempotency_key : string) : result KeyEncodingError (list Z) :=
  encode_length_prefixed (as_bytes idempotency_key).

(** [decode_dedupe_key]. *)
Definition decode_dedupe_key (bytes : list Z) : result KeyEncodingError string :=
  let? parts := decode_length_prefixed bytes in
  let key_bytes := fst parts in
  match from_utf8 key_bytes with
  | None => Err (StepIdError (InvalidFormat "IdempotencyKey" ReasonUtf8))
  | Some s => Ok s
  end.

(** [get_timer_key_prefix_for_time]. *)
Definition get_timer_key_prefix_for_time (fire_at_ms : Z) : list Z := be_bytes 8 fire_at_ms.

(** ** Keys with an instance *)

Section Keys.
Context `{U : UlidApi}.

(** [InstanceId::to_bytes]. *)
Definition InstanceId_to_bytes (i : InstanceId) : result ParseError (list Z) :=
  let? u := InstanceId_to_u128 i in Ok (be_bytes 16 u).

(** [InstanceId::from_bytes]. *)
Definition InstanceId_from_bytes (bs : list Z) : InstanceId :=
  InstanceId_from_u128 (from_be_bytes bs).

(** [instance_id.to_bytes().unwrap_or([0u8; 16])]. *)
Definition iid_bytes_or_zero (i : InstanceId) : list Z :=
  match InstanceId_to_bytes i with Ok bs => bs | Err _ => repeat 0 16 end.

(** [encode_instance_id]. *)
Definition encode_instance_id (i : InstanceId) : result KeyEncodingError (list Z) :=
  map_err InstanceIdError (InstanceId_to_bytes i).

(** [decode_instance_id]. *)
Definition decode_instance_id (bytes : list Z) : result KeyEncodingError InstanceId :=
  if negb (blen bytes =? 16) then Err (InvalidLength 16 (blen bytes))
  else Ok (InstanceId_from_bytes bytes).

(** [encode_event_key]: length prefix, instance, sequence. *)
Definition encode_event_key (i : InstanceId) (sequence : SequenceNumber) : list Z :=
  let iid_bytes := iid_bytes_or_zero i in
  encode_u16_be (as_u16 (blen iid_bytes)) ++ iid_bytes ++ encode_sequence_number sequence.

(** The common tail of [decode_event_key] and [decode_effect_key]. *)
Definition decode_event_fields (bytes : list Z)
  : result KeyEncodingError (InstanceId * SequenceNumber) :=
  let? _ := decode_u16_be (take 2 bytes) in
  let iid_bytes := take 16 (drop 2 bytes) in
  let seq_bytes := take 8 (drop 18 bytes) in
  let? sequence := map_err InstanceIdError (SequenceNumber_try_from (from_be_bytes seq_bytes)) in
  Ok (InstanceId_from_bytes iid_bytes, sequence).

(** [decode_event_key]. *)
Definition decode_event_key (bytes : list Z)
  : result KeyEncodingError (InstanceId * SequenceNumber) :=
  if negb (blen bytes =? 26) then Err (InvalidLength 26 (blen bytes))
  else decode_event_fields bytes.

(** [encode_timer_key]: fire time, length prefix, instance. *)
Definition encode_timer_key (fire_at_ms : Z) (i : InstanceId) : list Z :=
  let iid_bytes := iid_bytes_or_zero i in
  be_bytes 8 fire_at_ms ++ encode_u16_be (as_u16 (blen iid_bytes)) ++ iid_bytes.

(** [decode_timer_key]. *)
Definition decode_timer_key (bytes : list Z) : result KeyEncodingError (Z * InstanceId) :=
  if blen bytes <? 10 then Err (InvalidLength 10 (blen bytes))
  else
    let ts_bytes := take 8 bytes in
    let? iid_len := decode_u16_be (take 2 (drop 8 bytes)) in
    let required := 10 + iid_len in
    if blen bytes <? required then Err (InvalidLength required (blen bytes))
    else
      let iid_bytes := take (Z.to_nat iid_len) (drop 10 bytes) in
      if negb (blen iid_bytes =? 16) then Err (InvalidLength 16 iid_len)
      else Ok (from_be_bytes ts_bytes, InstanceId_from_bytes iid_bytes).

(** [encode_lease_key]: instance, step length as [u16], step. *)
Definition encode_lease_key (i : InstanceId) (step_id : StepId) : list Z :=
  let step_bytes := as_bytes (step_id_str step_id) in
  iid_bytes_or_zero i ++ encode_u16_be (as_u16 (blen step_bytes)) ++ step_bytes.

(** [decode_lease_key]. *)
Definition decode_lease_key (bytes : list Z) : result KeyEncodingError (InstanceId * StepId) :=
  if blen bytes <? 18 then Err (InvalidLength 18 (blen bytes))
  else
    let instance_id := InstanceId_from_bytes (take 16 bytes) in
    let? step_id := decode_step_id (drop 16 bytes) in
    Ok (instance_id, step_id).

(** [encode_instance_index_key_for_status]. *)
Definition encode_instance_index_key_for_status (status_byte created_at : Z) (i : InstanceId)
  : list Z := status_byte :: be_bytes 8 created_at ++ iid_bytes_or_zero i.

(** [encode_effect_key]: the event key and a marker byte. *)
Definition encode_effect_key (i : InstanceId) (sequence : SequenceNumber) : list Z :=
  let iid_bytes := iid_bytes_or_zero i in
  encode_u16_be (as_u16 (blen iid_bytes)) ++ iid_bytes ++ encode_sequence_number sequence
    ++ [255].

(** [decode_effect_key]. *)
Definition decode_effect_key (bytes : list Z)
  : result KeyEncodingError (InstanceId * SequenceNumber) :=
  if negb (blen bytes =? 27) then Err (InvalidLength 27 (blen bytes))
  else if negb (bool_decide (bytes !! 26%nat = Some 255)) then Err (InvalidLength 27 (blen bytes))
  else decode_event_fields bytes.

(** [get_event_key_prefix]. *)
Definition get_event_key_prefix (i : InstanceId) : list Z :=
  let iid_bytes := iid_bytes_or_zero i in
  encode_u16_be (as_u16 (blen iid_bytes)) ++ iid_bytes.

(** [get_lease_key_prefix_for_instance]. *)
Definition get_lease_key_prefix_for_instance (i : InstanceId) : list Z := iid_bytes_or_zero i.

(** *** Legacy keys: [instance::step] as text *)

(** The positions [k] with [key[k] == ':' && key[k+1] == ':'], from index [k] on. *)
Fixpoint delimiter_positions (k : nat) (key : list Z) : list nat :=
  match key with
  | a :: (b :: _) as rest =>
      if (a =? 58) && (b =? 58) then k :: delimiter_positions (S k) rest
      else delimiter_positions (S k) rest
  | _ => []
  end.

(** [is_legacy_delimiter_lease_key]. *)
Definition is_legacy_delimiter_lease_key (key : list Z) : bool :=
  if blen key <? 14 then false
  else if (18 <=? blen key) && (blen key =? 18 + from_be_bytes (take 2 (drop 16 key))) then false
  else
    match delimiter_positions 0 key with
    | [delim_pos] =>
        if (delim_pos <? 11)%nat then false
        else if (length key <=? delim_pos + 2)%nat then false
        else
          match from_utf8 (take delim_pos key) with
          | None => false
          | Some iid_str =>
              match from_utf8 (drop (delim_pos + 2) key) with
              | None => false
              | Some sid_str => is_ok (InstanceId_parse iid_str) && is_ok (StepId_parse sid_str)
              end
          end
    | _ => false
    end.

(** [LEGACY_FENCE_DELIMITER]. *)
Definition LEGACY_FENCE_DELIMITER : list Z := as_bytes "::fence".

(** [is_legacy_delimiter_fence_key]. *)
Definition is_legacy_delimiter_fence_key (key : list Z) : bool :=
  if negb (bool_decide (LEGACY_FENCE_DELIMITER `suffix_of` key)) then false
  else is_legacy_delimiter_lease_key (take (length key - length LEGACY_FENCE_DELIMITER) key).

(** [extract_legacy_lease_components]. *)
Definition extract_legacy_lease_components (key : list Z) : option (string * string) :=
  if negb (is_legacy_delimiter_lease_key key) then None
  else
    match delimiter_positions 0 key with
    | [delim_pos] =>
        iid_str ← from_utf8 (take delim_pos key);
        sid_str ← from_utf8 (drop (delim_pos + 2) key);
        if negb (is_ok (InstanceId_parse iid_str)) || negb (is_ok (StepId_parse sid_str))
        then None else Some (iid_str, sid_str)
    | _ => None
    end.

(** [extract_legacy_fence_components]. *)
Definition extract_legacy_fence_components (key : list Z) : option (string * string) :=
  if negb (is_legacy_delimiter_fence_key key) then None
  else extract_legacy_lease_components
         (take (length key - length LEGACY_FENCE_DELIMITER) key).

(** The legacy format: what the lease store used as its text keys. *)
Definition legacy_lease_key (i : InstanceId) (s : StepId) : list Z :=
  as_bytes (instance_id_str i) ++ [58; 58] ++ as_bytes (step_id_str s).
End Keys.

(** ** Lemmas on big-endian bytes *)

Lemma be_bytes_length n z : length (be_bytes n z) = n.
Proof. apply digits_length. Qed.

Lemma be_bytes_bytes n z : Forall is_byte (be_bytes n z).
Proof. by apply digits_range. Qed.

Lemma from_be_bytes_cons b bs : from_be_bytes (b :: bs) = b * 256 ^ blen bs + from_be_bytes bs.
Proof. apply undigits_cons. Qed.

Lemma from_be_bytes_range bs : Forall is_byte bs -> 0 <= from_be_bytes bs < 256 ^ blen bs.
Proof. by apply undigits_range. Qed.

Lemma be_bytes_id n z : 0 <= z < 256 ^ Z.of_nat n -> from_be_bytes (be_bytes n z) = z.
Proof. by apply undigits_digits. Qed.

Lemma be_bytes_inj n y z :
  0 <= y < 256 ^ Z.of_nat n -> 0 <= z < 256 ^ Z.of_nat n ->
  be_bytes n y = be_bytes n z -> y = z.
Proof. intros Hy Hz H. by rewrite <- (be_bytes_id n y Hy), H, be_bytes_id. Qed.

(** ** Byte order

    The order in which the storage engine keeps its keys. *)

Fixpoint lex (xs ys : list Z) : comparison :=
  match xs, ys with
  | [], [] => Eq
  | [], _ => Lt
  | _, [] => Gt
  | x :: xs', y :: ys' => match x ?= y with Eq => lex xs' ys' | c => c end
  end.

(** Lexicographic composition of comparisons. *)
Definition then_cmp (c d : comparison) : comparison := match c with Eq => d | _ => c end.

Lemma lex_app xs ys xs' ys' :
  length xs = length ys -> lex (xs ++ xs') (ys ++ ys') = then_cmp (lex xs ys) (lex xs' ys').
Proof.
  revert ys; induction xs as [|x xs IH]; intros [|y ys] Hl; cbn in *; try done.
  destruct (x ?= y); cbn; [apply IH; lia|done..].
Qed.

Lemma lex_refl xs : lex xs xs = Eq.
Proof. induction xs as [|x xs IH]; cbn; [done|]. by rewrite Z.compare_refl. Qed.

Lemma lex_from_be xs ys :
  Forall is_byte xs -> Forall is_byte ys -> length xs = length ys ->
  lex xs ys = (from_be_bytes xs ?= from_be_bytes ys).
Proof.
  intros Hx; revert ys; induction Hx as [|x xs Hb Hx IH]; intros ys Hy Hl.
  - destruct ys; [done|discriminate].
  - destruct Hy as [|y ys Hby Hy]; [discriminate|]. injection Hl as Hl.
    rewrite !from_be_bytes_cons. cbn [lex].
    pose proof (from_be_bytes_range _ Hx). pose proof (from_be_bytes_range _ Hy).
    assert (blen ys = blen xs) as Hlen by (unfold blen; lia). rewrite Hlen in *.
    destruct (Z.compare_spec x y) as [->|Hlt|Hgt].
    + rewrite IH by done. by rewrite Z.add_compare_mono_l.
    + symmetry; rewrite Z.compare_lt_iff. nia.
    + symmetry; rewrite Z.compare_gt_iff. nia.
Qed.

Lemma lex_be n y z :
  0 <= y < 256 ^ Z.of_nat n -> 0 <= z < 256 ^ Z.of_nat n ->
  lex (be_bytes n y) (be_bytes n z) = (y ?= z).
Proof.
  intros Hy Hz.
  rewrite lex_from_be, !be_bytes_id by (done || apply be_bytes_bytes || by rewrite !be_bytes_length).
  done.
Qed.

(** ** Lemmas on strings *)

Lemma of_bytes_as_bytes s : of_bytes (as_bytes s) = s.
Proof.
  unfold of_bytes, as_bytes. rewrite <- list_fmap_compose.
  rewrite <- (of_chars_chars s) at 2. f_equal.
  rewrite <- (list_fmap_id (chars s)) at 2. apply list_fmap_ext; intros _ c _; cbn.
  by rewrite Nat2Z.id, ascii_nat_embedding.
Qed.

Lemma as_bytes_inj s1 s2 : as_bytes s1 = as_bytes s2 -> s1 = s2.
Proof. intros H. by rewrite <- (of_bytes_as_bytes s1), H, of_bytes_as_bytes. Qed.

Lemma identifier_char_ascii c :
  is_identifier_char c = true -> 0 <= Z.of_nat (nat_of_ascii c) <= 127.
Proof. destruct c as [[] [] [] [] [] [] [] []]; vm_compute; intuition discriminate. Qed.

Lemma utf8_ascii bs : Forall (fun b => 0 <= b <= 127) bs -> utf8_valid bs = true.
Proof.
  induction 1 as [|b bs Hb _ IH]; cbn; [done|].
  assert (in_range b 0 127 = true) as -> by (unfold in_range; lia). done.
Qed.

Lemma from_utf8_identifier s :
  Forall (fun c => is_identifier_char c = true) (chars s) -> from_utf8 (as_bytes s) = Some s.
Proof.
  intros H. unfold from_utf8. rewrite utf8_ascii; [by rewrite of_bytes_as_bytes|].
  unfold as_bytes. apply Forall_fmap. eapply Forall_impl; [exact H|].
  apply identifier_char_ascii.
Qed.

Lemma decode_u16_be_encode z : is_u16 z -> decode_u16_be (encode_u16_be z) = Ok z.
Proof.
  intros Hz. unfold decode_u16_be, encode_u16_be, blen. rewrite be_bytes_length; cbn [negb Z.eqb].
  rewrite be_bytes_id; [done|]. cbn. ulia.
Qed.

(** A length-prefixed value can be read back whatever follows it. *)
Lemma decode_length_prefixed_encode value rest bs :
  encode_length_prefixed value = Ok bs ->
  decode_length_prefixed (bs ++ rest) = Ok (value, rest).
Proof.
  unfold encode_length_prefixed. case_match eqn:Hn; [done|]. intros Hok.
  assert (bs = encode_u16_be (blen value) ++ value) as -> by congruence. clear Hok.
  assert (decode_u16_be (encode_u16_be (blen value)) = Ok (blen value)) as Hdec
    by (apply decode_u16_be_encode; unfold blen in *; ulia).
  assert (length (encode_u16_be (blen value)) = 2%nat) as H2 by apply be_bytes_length.
  generalize dependent (encode_u16_be (blen value)); intros pre Hdec H2.
  unfold decode_length_prefixed.
  rewrite <- app_assoc, take_app_length', Hdec by done. cbn [rbind].
  replace (blen (pre ++ value ++ rest)) with (2 + blen value + blen rest)
    by (unfold blen; rewrite !length_app, H2; lia).
  pose proof (Nat2Z.is_nonneg (length rest)). pose proof (Nat2Z.is_nonneg (length value)).
  destruct (Z.ltb_spec (2 + blen value + blen rest) 2); [unfold blen in *; lia|].
  destruct (Z.ltb_spec (2 + blen value + blen rest) (2 + blen value)); [unfold blen in *; lia|].
  rewrite (drop_app_length' _ _ 2) by done. unfold blen at 1.
  rewrite Nat2Z.id, take_app_length. do 2 f_equal.
  replace (Z.to_nat (2 + blen value)) with (2 + length value)%nat by (unfold blen; lia).
  by rewrite <- drop_drop, (drop_app_length' _ _ 2), drop_app_length.
Qed.

(** ** Properties *)

Section Properties.
Context `{U : UlidApi} {UL : UlidLaws}.
Implicit Types (i j : InstanceId) (u v : Z) (seq : SequenceNumber).

Lemma u128_range u : 0 <= u <= u128_max -> 0 <= u < 256 ^ Z.of_nat 16.
Proof. unfold u128_max. change (256 ^ Z.of_nat 16) with (2 ^ 128). lia. Qed.

Lemma u64_range z : is_u64 z -> 0 <= z < 256 ^ Z.of_nat 8.
Proof. unfold_u. cbn. lia. Qed.

Lemma iid_bytes_wf i u : InstanceId_wf i u -> iid_bytes_or_zero i = be_bytes 16 u.
Proof.
  intros H. unfold iid_bytes_or_zero, InstanceId_to_bytes.
  by rewrite (InstanceId_to_u128_wf _ _ H).
Qed.

Lemma InstanceId_from_bytes_be i u : InstanceId_wf i u -> InstanceId_from_bytes (be_bytes 16 u) = i.
Proof.
  intros [Hu ->]. unfold InstanceId_from_bytes. rewrite be_bytes_id; [done|].
  by apply u128_range.
Qed.

(** The layout of a key whose instance is well formed. *)
Lemma event_key_layout i u seq :
  InstanceId_wf i u ->
  encode_event_key i seq = [0; 16] ++ be_bytes 16 u ++ be_bytes 8 (sequence_u64 seq).
Proof. intros H. unfold encode_event_key. by rewrite (iid_bytes_wf _ _ H). Qed.

Lemma timer_key_layout i u t :
  InstanceId_wf i u -> encode_timer_key t i = be_bytes 8 t ++ [0; 16] ++ be_bytes 16 u.
Proof. intros H. unfold encode_timer_key. by rewrite (iid_bytes_wf _ _ H). Qed.

Lemma lease_key_layout i u (s : StepId) :
  InstanceId_wf i u ->
  encode_lease_key i s = be_bytes 16 u ++
    encode_u16_be (as_u16 (blen (as_bytes (step_id_str s)))) ++ as_bytes (step_id_str s).
Proof. intros H. unfold encode_lease_key. by rewrite (iid_bytes_wf _ _ H). Qed.

Lemma decode_event_fields_layout i u seq suffix :
  InstanceId_wf i u -> nonzero_u64 (sequence_u64 seq) ->
  decode_event_fields ([0; 16] ++ be_bytes 16 u ++ be_bytes 8 (sequence_u64 seq) ++ suffix)
  = Ok (i, seq).
Proof.
  intros Hi [Hs Hnz]. unfold decode_event_fields.
  change (decode_u16_be (take 2 _)) with (@Ok KeyEncodingError Z 16). cbn [rbind].
  rewrite (drop_app_length' [0; 16] _ 2) by done.
  rewrite take_app_length' by (by rewrite be_bytes_length).
  replace 18%nat with (2 + 16)%nat by done.
  rewrite <- drop_drop, (drop_app_length' [0; 16] _ 2) by done.
  rewrite drop_app_length', take_app_length' by (by rewrite be_bytes_length).
  rewrite be_bytes_id by (by apply u64_range).
  unfold SequenceNumber_try_from, require_nonzero.
  destruct (Z.eqb_spec (sequence_u64 seq) 0); [done|]. cbn [rbind map_err].
  rewrite (InstanceId_from_bytes_be _ _ Hi). by destruct seq.
Qed.

(** Event keys and effect keys decode to the instance and sequence they were
    made of. *)
Theorem event_effect_key_roundtrip i u seq :
  InstanceId_wf i u -> nonzero_u64 (sequence_u64 seq) ->
  decode_event_key (encode_event_key i seq) = Ok (i, seq) /\
  decode_effect_key (encode_effect_key i seq) = Ok (i, seq) /\
  encode_effect_key i seq = encode_event_key i seq ++ [255].
Proof.
  intros Hi Hs.
  assert (encode_effect_key i seq = encode_event_key i seq ++ [255]) as Heff.
  { unfold encode_effect_key, encode_event_key. by rewrite <- !app_assoc. }
  assert (length (encode_event_key i seq) = 26%nat) as Hlen.
  { rewrite (event_key_layout _ _ _ Hi), !length_app, !be_bytes_length. done. }
  rewrite Heff. unfold decode_event_key, decode_effect_key, blen.
  rewrite length_app, Hlen. cbn [Nat.add length Z.of_nat Z.eqb negb Pos.of_succ_nat Pos.succ Pos.eqb].
  rewrite (event_key_layout _ _ _ Hi) in *.
  split_and!; [| |done].
  - rewrite <- (app_nil_r (be_bytes 8 _)). by apply decode_event_fields_layout.
  - rewrite bool_decide_eq_true_2 by (rewrite lookup_app_r, Hlen; [done|by rewrite Hlen]).
    cbn [negb]. rewrite <- !app_assoc. by apply decode_event_fields_layout.
Qed.

(** The byte order of event keys is the order of (instance, sequence), and
    the byte order of timer keys is the order of (fire time, instance): a scan
    visits the events of an instance in sequence order, and timers by due time. *)
Theorem key_order i j u v seq seq' t t' :
  InstanceId_wf i u -> InstanceId_wf j v ->
  is_u64 (sequence_u64 seq) -> is_u64 (sequence_u64 seq') -> is_u64 t -> is_u64 t' ->
  lex (encode_event_key i seq) (encode_event_key j seq')
    = then_cmp (u ?= v) (sequence_u64 seq ?= sequence_u64 seq') /\
  lex (encode_timer_key t i) (encode_timer_key t' j) = then_cmp (t ?= t') (u ?= v).
Proof.
  intros Hi Hj Hs Hs' Ht Ht'.
  rewrite (event_key_layout _ _ _ Hi), (event_key_layout _ _ _ Hj).
  rewrite (timer_key_layout _ _ _ Hi), (timer_key_layout _ _ _ Hj).
  destruct Hi as [Hu%u128_range _], Hj as [Hv%u128_range _].
  rewrite !lex_app, !lex_be, !lex_refl by (done || apply u64_range; done
    || rewrite ?be_bytes_length; done).
  done.
Qed.

(** The prefix an event scan uses selects the instance's own keys and no
    other: the prefix of [j] begins the event key of [i] exactly when they are the
    same instance; likewise for lease keys. *)
Theorem key_prefix_exact i j u v seq s :
  InstanceId_wf i u -> InstanceId_wf j v ->
  (get_event_key_prefix j `prefix_of` encode_event_key i seq <-> i = j) /\
  (get_lease_key_prefix_for_instance j `prefix_of` encode_lease_key i s <-> i = j).
Proof.
  intros Hi Hj.
  assert (forall pre rest, pre ++ be_bytes 16 v `prefix_of` pre ++ be_bytes 16 u ++ rest <-> i = j)
    as Hpre.
  { intros pre rest. split.
    - intros [k Hk]. rewrite <- app_assoc in Hk. apply app_inv_head in Hk.
      apply app_inj_1 in Hk as [Hk _]; [|by rewrite !be_bytes_length].
      destruct Hi as [Hu ->], Hj as [Hv ->]. f_equal.
      by apply (be_bytes_inj 16); [apply u128_range..|].
    - intros <-. rewrite (InstanceId_wf_inj _ _ _ Hi Hj), app_assoc. by eexists. }
  rewrite (event_key_layout _ _ _ Hi), (lease_key_layout _ _ _ Hi).
  unfold get_event_key_prefix, get_lease_key_prefix_for_instance.
  rewrite (iid_bytes_wf _ _ Hj). split; [apply (Hpre [0; 16])|apply (Hpre [])].
Qed.

(** *** Lease keys *)

Lemma decode_lease_key_suffix i u s bs :
  InstanceId_wf i u -> step_id_text (step_id_str s) ->
  encode_length_prefixed (as_bytes (step_id_str s)) = Ok bs ->
  decode_lease_key (be_bytes 16 u ++ bs) = Ok (i, s).
Proof.
  intros Hi Hs Hbs. unfold decode_lease_key.
  assert (2 <= blen bs) as Hlen.
  { unfold encode_length_prefixed in Hbs. case_match; [done|].
    assert (bs = encode_u16_be (blen (as_bytes (step_id_str s))) ++ as_bytes (step_id_str s)) as ->
      by congruence.
    unfold blen at 1. rewrite length_app. unfold encode_u16_be. rewrite be_bytes_length. lia. }
  unfold blen in *. rewrite length_app, be_bytes_length.
  destruct (Z.ltb_spec (Z.of_nat (16 + length bs)) 18); [lia|].
  rewrite take_app_length', drop_app_length' by (by rewrite be_bytes_length).
  unfold decode_step_id. rewrite <- (app_nil_r bs).
  rewrite (decode_length_prefixed_encode _ _ _ Hbs). cbn [rbind fst].
  rewrite from_utf8_identifier by apply Hs.
  rewrite (proj2 (StepId_parse_ok (step_id_str s) s)) by (by destruct s).
  cbn [rbind map_err]. by rewrite (InstanceId_from_bytes_be _ _ Hi).
Qed.

Lemma encode_length_prefixed_ok value :
  blen value <= u16_max ->
  encode_length_prefixed value = Ok (encode_u16_be (as_u16 (blen value)) ++ value).
Proof.
  intros H. unfold encode_length_prefixed. destruct (Z.ltb_spec u16_max (blen value)); [lia|].
  unfold as_u16. rewrite Z.mod_small; [done|]. unfold blen in *. ulia.
Qed.

(** A lease key of a step of at most 65535 bytes decodes to its instance and
    step, and is never mistaken for a key of the legacy text format. *)
Theorem lease_key_roundtrip i u s :
  InstanceId_wf i u -> step_id_text (step_id_str s) ->
  blen (as_bytes (step_id_str s)) <= u16_max ->
  decode_lease_key (encode_lease_key i s) = Ok (i, s) /\
  is_legacy_delimiter_lease_key (encode_lease_key i s) = false.
Proof.
  intros Hi Hs Hlen. rewrite (lease_key_layout _ _ _ Hi). split.
  - eapply decode_lease_key_suffix; [done..|]. by apply encode_length_prefixed_ok.
  - assert (is_u16 (blen (as_bytes (step_id_str s)))) as Hu by (unfold blen in *; ulia).
    set (value := as_bytes (step_id_str s)) in *.
    assert (as_u16 (blen value) = blen value) as -> by (apply Z.mod_small; ulia).
    unfold is_legacy_delimiter_lease_key. destruct (_ <? 14); [done|].
    rewrite drop_app_length', take_app_length' by (unfold encode_u16_be; by rewrite be_bytes_length).
    unfold encode_u16_be. rewrite be_bytes_id by (cbn; ulia).
    unfold blen. rewrite !length_app, !be_bytes_length.
    destruct (Z.leb_spec 18 (Z.of_nat (16 + (2 + length value)))); [|lia].
    rewrite (proj2 (Z.eqb_eq _ _)); [done|]. lia.
Qed.

(** A longer step does not survive the round trip: the [u16] length wraps, so
    the decoder sees a shorter step or none. *)
Theorem lease_key_long_step i u s j :
  InstanceId_wf i u -> u16_max < blen (as_bytes (step_id_str s)) ->
  decode_lease_key (encode_lease_key i s) <> Ok (j, s).
Proof.
  intros Hi Hlen. rewrite (lease_key_layout _ _ _ Hi). unfold decode_lease_key, decode_step_id.
  case_match; [done|].
  rewrite drop_app_length' by (by rewrite be_bytes_length).
  set (value := as_bytes (step_id_str s)) in *.
  assert (is_u16 (as_u16 (blen value))) as Hn.
  { unfold_u. pose proof (Z.mod_pos_bound (blen value) (65535 + 1)). lia. }
  set (n := as_u16 (blen value)) in *. unfold decode_length_prefixed.
  case_match; [done|].
  rewrite take_app_length', decode_u16_be_encode by (done || unfold encode_u16_be; by rewrite be_bytes_length).
  cbn [rbind]. case_match; [done|]. cbn [rbind fst].
  rewrite drop_app_length' by (unfold encode_u16_be; by rewrite be_bytes_length).
  destruct (from_utf8 _) as [t|] eqn:Ht; [|done].
  intros Hd. apply rbind_ok in Hd as (x & Hx%map_err_ok & Hd). injection Hd as _ Hs.
  apply StepId_parse_ok in Hx as [-> _]. subst s.
  unfold from_utf8 in Ht. case_match; [|done]. injection Ht as Ht.
  assert (blen (as_bytes t) <= n) as Hle; [|change value with (as_bytes t) in Hlen; clearbody n; ulia].
  rewrite <- Ht. unfold as_bytes, of_bytes, blen.
  rewrite length_fmap, chars_of_chars, length_fmap, length_take. unfold_u. lia.
Qed.

(** Length-prefixed components are prefix-free: however two of them are
    continued, equal bytes mean equal components and equal continuations; so a
    dedupe key decodes to the idempotency key it encodes. *)
Theorem length_prefix_free a b x y bsa bsb :
  encode_length_prefixed a = Ok bsa -> encode_length_prefixed b = Ok bsb ->
  bsa ++ x = bsb ++ y -> a = b /\ x = y.
Proof.
  intros Ha Hb Heq.
  pose proof (decode_length_prefixed_encode _ x _ Ha) as H1.
  pose proof (decode_length_prefixed_encode _ y _ Hb) as H2.
  rewrite Heq, H2 in H1. by simplify_eq.
Qed.

(** *** Legacy keys *)

Lemma delimiter_skip k a l :
  a <> 58 -> delimiter_positions k (a :: l) = delimiter_positions (S k) l.
Proof. intros Ha. destruct l; cbn; [done|]. by destruct (Z.eqb_spec a 58). Qed.

Lemma delimiter_none k l : Forall (fun b => b <> 58) l -> delimiter_positions k l = [].
Proof.
  intros H; revert k; induction H as [|a l Ha Hl IH]; intros k; [done|].
  by rewrite delimiter_skip.
Qed.

Lemma delimiter_one k xs ys :
  Forall (fun b => b <> 58) xs -> Forall (fun b => b <> 58) ys ->
  delimiter_positions k (xs ++ [58; 58] ++ ys) = [(k + length xs)%nat].
Proof.
  intros Hx Hy; revert k; induction Hx as [|a xs Ha _ IH]; intros k.
  - rewrite app_nil_l, Nat.add_0_r.
    change (k :: delimiter_positions (S k) (58 :: ys) = [k]). f_equal.
    destruct Hy as [|b ys Hb Hy]; [done|].
    assert (delimiter_positions (S k) (58 :: b :: ys) = delimiter_positions (S (S k)) (b :: ys))
      as -> by (cbn; by destruct (Z.eqb_spec b 58)).
    apply delimiter_none. by constructor.
  - cbn [app length]. rewrite delimiter_skip, IH by done. f_equal. lia.
Qed.

Lemma identifier_bytes t :
  Forall (fun c => is_identifier_char c = true) (chars t) ->
  Forall (fun b => b <> 58) (as_bytes t).
Proof.
  intros H. unfold as_bytes. apply Forall_fmap. eapply Forall_impl; [exact H|].
  intros c; destruct c as [[] [] [] [] [] [] [] []]; vm_compute; discriminate.
Qed.

Lemma alnum_bytes t :
  Forall (fun c => is_ascii_alphanumeric c = true) (chars t) ->
  Forall (fun b => 48 <= b < 256) (as_bytes t).
Proof.
  intros H. unfold as_bytes. apply Forall_fmap. eapply Forall_impl; [exact H|].
  intros c; destruct c as [[] [] [] [] [] [] [] []]; vm_compute; intuition discriminate.
Qed.

Lemma alnum_identifier (l : list ascii) :
  Forall (fun c => is_ascii_alphanumeric c = true) l ->
  Forall (fun c => is_identifier_char c = true) l.
Proof.
  intros H. eapply Forall_impl; [exact H|]. intros c Hc. cbv beta in Hc.
  unfold is_identifier_char. by rewrite Hc.
Qed.

(** Two bytes of the instance text, read as a length, are too large to be one. *)
Lemma legacy_length_field xs ys :
  length xs = 26%nat -> Forall (fun b => 48 <= b < 256) xs ->
  12336 <= from_be_bytes (take 2 (drop 16 (xs ++ ys))).
Proof.
  intros Hl Hx. rewrite drop_app_le, take_app_le by (rewrite ?length_drop; lia).
  destruct (drop 16 xs) as [|a [|b rest]] eqn:E;
    [apply (f_equal length) in E; rewrite length_drop in E; cbn in E; lia..|].
  assert (Forall (fun b => 48 <= b < 256) (a :: b :: rest)) as H
    by (rewrite <- E; by apply Forall_drop).
  rewrite !Forall_cons in H. unfold from_be_bytes. cbn [take].
  rewrite take_0, !undigits_cons. cbn. lia.
Qed.

(** Every key the store wrote in the legacy text format, for a step of fewer
    than 12326 bytes, is recognised as legacy and yields its instance and step. *)
Theorem legacy_key_recognised i u s :
  InstanceId_wf i u -> u <> 0 -> step_id_text (step_id_str s) ->
  blen (as_bytes (step_id_str s)) < 12326 ->
  is_legacy_delimiter_lease_key (legacy_lease_key i s) = true /\
  extract_legacy_lease_components (legacy_lease_key i s)
    = Some (instance_id_str i, step_id_str s).
Proof.
  intros Hi Hnz Hs Hlen.
  pose proof (InstanceId_parse_wf_ok _ _ Hi Hnz) as Hparse.
  assert (Forall (fun c => is_ascii_alphanumeric c = true) (chars (instance_id_str i))) as Ha
    by (destruct Hi as [? ->]; by apply ulid_to_alnum).
  assert (length (as_bytes (instance_id_str i)) = 26%nat) as H26.
  { destruct Hi as [Hu ->]. pose proof (ulid_to_len u Hu) as Hl. unfold len in Hl.
    unfold as_bytes. rewrite length_fmap. cbn. lia. }
  unfold legacy_lease_key.
  set (A := as_bytes (instance_id_str i)) in *. set (B := as_bytes (step_id_str s)) in *.
  pose proof (legacy_length_field A ([58; 58] ++ B) H26 (alnum_bytes _ Ha)) as Hfield.
  assert (delimiter_positions 0 (A ++ [58; 58] ++ B) = [26%nat]) as Hpos.
  { rewrite delimiter_one; [by rewrite H26|..]; apply identifier_bytes;
      [by apply alnum_identifier|apply Hs]. }
  assert (from_utf8 A = Some (instance_id_str i)) as HA
    by (by apply from_utf8_identifier, alnum_identifier).
  assert (from_utf8 B = Some (step_id_str s)) as HB by (apply from_utf8_identifier, Hs).
  assert (B <> []) as HBne.
  { intros E. apply (proj1 Hs). unfold B, as_bytes in E. by apply fmap_nil_inv in E. }
  assert (drop (26 + 2) (A ++ [58; 58] ++ B) = B) as Hdrop
    by (rewrite <- drop_drop, drop_app_length' by done; done).
  assert (is_legacy_delimiter_lease_key (A ++ [58; 58] ++ B) = true) as Hleg.
  { unfold is_legacy_delimiter_lease_key. rewrite Hpos, Hdrop, take_app_length', HA, HB by done.
    rewrite Hparse, (proj2 (StepId_parse_ok (step_id_str s) s)) by (by destruct s).
    assert (length (A ++ [58; 58]%Z ++ B) = 28 + length B)%nat as HL
      by (rewrite !length_app, H26; cbn; lia).
    unfold blen in *. rewrite HL in *.
    destruct (Z.ltb_spec (Z.of_nat (28 + length B)) 14); [lia|].
    destruct (Z.eqb_spec (Z.of_nat (28 + length B))
                (18 + from_be_bytes (take 2 (drop 16 (A ++ [58; 58] ++ B))))); [lia|].
    rewrite andb_false_r. destruct B; [done|]. cbn. by destruct (length B). }
  split; [done|]. unfold extract_legacy_lease_components.
  rewrite Hleg, Hpos, Hdrop, take_app_length', HA, HB by done. cbn.
  by rewrite Hparse, (proj2 (StepId_parse_ok (step_id_str s) s)) by (by destruct s).
Qed.
End Properties.

(** ** The theorems at concrete keys *)

Module KeyEncodingWitness.
Import ConcreteUlid.

Definition two : InstanceId := InstanceId_from_u128 2.

Lemma two_wf : InstanceId_wf two 2.
Proof. by split. Qed.

Definition seq (n : Z) : SequenceNumber := mkSequenceNumber n.

Definition fetch : StepId := mkStepId "fetch-1".

Lemma fetch_text : step_id_text (step_id_str fetch).
Proof. by apply (StepId_parse_ok _ fetch). Qed.

(** A step name of 65537 letters. *)
Definition long_step : StepId := mkStepId (of_chars (repeat "a"%char (Z.to_nat 65537))).

Lemma event_effect_key_roundtrip_witness :
  InstanceId_wf one 1 /\ nonzero_u64 7 /\
  decode_event_key (encode_event_key one (seq 7)) = Ok (one, seq 7).
Proof.
  assert (nonzero_u64 7) by (unfold nonzero_u64; ulia).
  split; [exact one_wf|]. split; [done|].
  by apply (event_effect_key_roundtrip one 1 (seq 7) one_wf).
Defined.

Lemma key_order_witness :
  lex (encode_event_key one (seq 300)) (encode_event_key two (seq 7)) = Lt /\
  lex (encode_timer_key 300 one) (encode_timer_key 7 two) = Gt.
Proof.
  exact (key_order one two 1 2 (seq 300) (seq 7) 300 7 one_wf two_wf
    ltac:(cbn; ulia) ltac:(cbn; ulia) ltac:(ulia) ltac:(ulia)).
Defined.

Lemma key_prefix_exact_witness :
  get_event_key_prefix one `prefix_of` encode_event_key one (seq 7) /\
  get_lease_key_prefix_for_instance one `prefix_of` encode_lease_key one fetch.
Proof.
  pose proof (key_prefix_exact one one 1 1 (seq 7) fetch one_wf one_wf) as [H1 H2].
  by split; [apply H1|apply H2].
Defined.

Lemma lease_key_roundtrip_witness :
  step_id_text (step_id_str fetch) /\
  decode_lease_key (encode_lease_key one fetch) = Ok (one, fetch).
Proof.
  split; [exact fetch_text|].
  apply (lease_key_roundtrip one 1 fetch one_wf fetch_text). by vm_compute.
Defined.

Lemma long_step_length : blen (as_bytes (step_id_str long_step)) = 65537.
Proof.
  unfold blen, as_bytes, long_step. cbn [step_id_str].
  rewrite length_fmap, chars_of_chars, repeat_length. lia.
Qed.

Lemma repeat_a_text n : step_id_text (of_chars (repeat "a"%char (S n))).
Proof.
  unfold step_id_text. rewrite chars_of_chars.
  assert (forall c, c ∈ repeat "a"%char (S n) -> c = "a"%char) as Hall
    by (intros c Hc%list_elem_of_In%repeat_spec; done).
  assert (forall c, c <> "a"%char -> last (repeat "a"%char (S n)) <> Some c) as Hlast.
  { intros c Hc [l E]%last_Some. apply Hc, Hall. rewrite E. set_solver. }
  split_and!; [done|apply Forall_forall; by intros c ->%Hall|done|done|by apply Hlast..].
Qed.

Lemma long_step_text : step_id_text (step_id_str long_step).
Proof.
  unfold long_step. cbn [step_id_str].
  change 65537 with (Z.succ 65536). rewrite Z2Nat.inj_succ by lia. apply repeat_a_text.
Qed.

Lemma lease_key_long_step_witness :
  step_id_text (step_id_str long_step) /\
  decode_lease_key (encode_lease_key one long_step) <> Ok (one, long_step).
Proof.
  split; [exact long_step_text|].
  apply (lease_key_long_step one 1 long_step one one_wf). by rewrite long_step_length.
Defined.

Lemma length_prefix_free_witness :
  encode_length_prefixed [7; 8] = Ok [0; 2; 7; 8] /\ [7; 8] = [7; 8] /\ [9] = [9].
Proof.
  split; [reflexivity|].
  apply (length_prefix_free [7; 8] [7; 8] [9] [9] [0; 2; 7; 8] [0; 2; 7; 8]); reflexivity.
Defined.

Lemma legacy_key_recognised_witness :
  is_legacy_delimiter_lease_key (legacy_lease_key one fetch) = true /\
  extract_legacy_lease_components (legacy_lease_key one fetch)
    = Some (instance_id_str one, "fetch-1"%string).
Proof.
  apply (legacy_key_recognised one 1 fetch one_wf); [lia|exact fetch_text|by vm_compute].
Defined.
End KeyEncodingWitness.
