(* ===== verification/Keyspace.v ===== *)
(** * Key spaces, codecs and encoded maps

    The storage crates keep their data in [fjall] key spaces: ordered maps from
    byte strings to byte strings. [fjall], [serde_json] and [zstd] are not part of
    the sources; they are the classes [FjallApi], [SerdeApi] and [ZstdApi] with the
    documented laws the stores rely on, and each has a concrete instance. The last
    section relates a map over structured keys to the map a store keeps under
    encoded keys. *)

From S2P Require Import Prelude Identifiers KeyEncoding.
From Stdlib Require Import Ascii.

(** ** [fjall::Keyspace] *)

(** One write of a [Batch]. *)
Inductive BatchItem : Set := BatchInsert (key value : list Z) | BatchRemove (key : list Z).

(** [get], [insert], [remove], [iter] with [into_inner] applied to its items, and the
    [commit] of a batch; an error is its text. *)
Class FjallApi : Type := {
  Keyspace : Type;
  ks_get : Keyspace -> list Z -> result string (option (list Z));
  ks_insert : Keyspace -> list Z -> list Z -> result string unit * Keyspace;
  ks_remove : Keyspace -> list Z -> result string unit * Keyspace;
  ks_iter : Keyspace -> list (result string (list Z * list Z));
  ks_commit : Keyspace -> list BatchItem -> result string unit * Keyspace;
}.

(** What a write does to a map. *)
Definition apply_item (m : gmap (list Z) (list Z)) (item : BatchItem) : gmap (list Z) (list Z) :=
  match item with BatchInsert k v => <[k := v]> m | BatchRemove k => delete k m end.

(** A key space whose operations succeed is a finite map; iteration visits every
    entry once, and a batch applies its writes in order. [healthy] says that the operations succeed from here on. *)
Class FjallLaws `{F : FjallApi} : Type := {
  contents : Keyspace -> gmap (list Z) (list Z);
  healthy : Keyspace -> Prop;
  ks_get_ok : forall ks k, healthy ks -> ks_get ks k = Ok (contents ks !! k);
  ks_insert_ok : forall ks k v, healthy ks ->
    (ks_insert ks k v).1 = Ok tt /\ healthy (ks_insert ks k v).2 /\
    contents (ks_insert ks k v).2 = <[k := v]> (contents ks);
  ks_remove_ok : forall ks k, healthy ks ->
    (ks_remove ks k).1 = Ok tt /\ healthy (ks_remove ks k).2 /\
    contents (ks_remove ks k).2 = delete k (contents ks);
  ks_iter_ok : forall ks, healthy ks ->
    exists l, ks_iter ks = Ok <$> l /\ l ≡ₚ map_to_list (contents ks);
  ks_commit_ok : forall ks items, healthy ks ->
    (ks_commit ks items).1 = Ok tt /\ healthy (ks_commit ks items).2 /\
    contents (ks_commit ks items).2 = fold_left apply_item items (contents ks);
}.

(** Looking a key up after a batch of inserts. *)
Lemma lookup_batch_inserts {A} (key val : A -> list Z) (l : list A) m k v :
  (forall x y, x ∈ l -> y ∈ l -> key x = key y -> val x = val y) ->
  fold_left apply_item ((fun x => BatchInsert (key x) (val x)) <$> l) m !! k = Some v <->
  (exists x, x ∈ l /\ k = key x /\ v = val x) \/
  ((forall x, x ∈ l -> key x <> k) /\ m !! k = Some v).
Proof.
  induction l as [|x l IH] using rev_ind; intros Hc.
  { cbn. split; [intros Hm; right; split; [by intros ? ?%not_elem_of_nil|done]|].
    by intros [(x & ?%not_elem_of_nil & _)|[_ ?]]. }
  rewrite fmap_app, fold_left_app. cbn [fold_left fmap list_fmap apply_item].
  rewrite lookup_insert_Some, IH by (intros; apply Hc; set_solver). split.
  - intros [[<- <-]|[Hne [(y & Hy & -> & ->)|[Hf Hm]]]].
    + left. exists x. set_solver.
    + left. exists y. set_solver.
    + right. split; [|done]. intros y [Hy| ->%list_elem_of_singleton]%elem_of_app; auto.
  - intros [(y & Hy & -> & ->)|[Hf Hm]].
    + destruct (decide (key x = key y)) as [E|E].
      * left. split; [done|]. apply Hc; set_solver.
      * right. split; [done|]. left. exists y. set_solver.
    + right. split; [apply Hf; set_solver|]. right. split; [|done]. intros y Hy. apply Hf. set_solver.
Qed.

Lemma lookup_batch_other {A} (key val : A -> list Z) (l : list A) m k :
  (forall x, x ∈ l -> key x <> k) ->
  fold_left apply_item ((fun x => BatchInsert (key x) (val x)) <$> l) m !! k = m !! k.
Proof.
  induction l as [|x l IH] using rev_ind; intros Hk; [done|].
  rewrite fmap_app, fold_left_app. cbn [fold_left fmap list_fmap apply_item].
  rewrite lookup_insert_ne by (apply Hk; set_solver). apply IH. intros y Hy. apply Hk. set_solver.
Qed.

(** An in-memory key space. *)
Module MapKeyspace.
#[global] Instance fjall_api : FjallApi := {|
  Keyspace := gmap (list Z) (list Z);
  ks_get := fun m k => Ok (m !! k);
  ks_insert := fun m k v => (Ok tt, <[k := v]> m);
  ks_remove := fun m k => (Ok tt, delete k m);
  ks_iter := fun m => Ok <$> map_to_list m;
  ks_commit := fun m items => (Ok tt, fold_left apply_item items m);
|}.

#[global] Instance fjall_laws : FjallLaws.
Proof.
  refine {| contents := fun m : @Keyspace fjall_api => m; healthy := fun _ => True |}.
  - done.
  - done.
  - done.
  - intros m _. by exists (map_to_list m).
  - done.
Defined.
End MapKeyspace.

(** ** [serde_json] and [zstd] *)

(** [serde_json::to_string] and [serde_json::from_str] at a type. *)
Class SerdeApi (A : Type) : Type := {
  to_json : A -> result string string;
  from_json : string -> result string A;
}.

(** A value of the type serializes, to a Rust string, and reads back. *)
Class SerdeLaws (A : Type) `{S : SerdeApi A} : Prop := {
  to_json_total : forall a, exists s, to_json a = Ok s /\ utf8_valid (as_bytes s) = true;
  from_to_json : forall a s, to_json a = Ok s -> from_json s = Ok a;
}.

Section Codec.
Context {A : Type} `{S : !SerdeApi A}.

(** [serde_json::to_vec] and [serde_json::from_slice]. *)
Definition to_vec (a : A) : result string (list Z) := let? s := to_json a in Ok (as_bytes s).
Definition from_slice (bs : list Z) : result string A :=
  let? s := ok_or (from_utf8 bs) "invalid utf-8" in from_json s.

(** The bytes a value serializes to. *)
Definition vec_of (a : A) : list Z := match to_vec a with Ok v => v | Err _ => [] end.

Context `{SL : !SerdeLaws A}.

Lemma to_vec_ok a : to_vec a = Ok (vec_of a).
Proof. unfold vec_of, to_vec. by destruct (to_json_total a) as (s & -> & _). Qed.

Lemma from_slice_vec a : from_slice (vec_of a) = Ok a.
Proof.
  unfold vec_of, to_vec, from_slice. destruct (to_json_total a) as (s & Hs & Hu).
  rewrite Hs. cbn [rbind]. unfold from_utf8. rewrite Hu, of_bytes_as_bytes. cbn.
  by apply from_to_json.
Qed.
End Codec.

(** [zstd::encode_all] and [zstd::decode_all]. *)
Class ZstdApi : Type := {
  zstd_encode : list Z -> result string (list Z);
  zstd_decode : list Z -> result string (list Z);
}.

Class ZstdLaws `{Zs : ZstdApi} : Prop := {
  zstd_encode_total : forall bs, exists c, zstd_encode bs = Ok c;
  zstd_decode_encode : forall bs c, zstd_encode bs = Ok c -> zstd_decode c = Ok bs;
}.

(** Text for every countable type: the bits of its code. *)
Module BitsSerde.
Fixpoint bits (p : positive) : string :=
  match p with
  | xH => EmptyString
  | xO p => String "0"%char (bits p)
  | xI p => String "1"%char (bits p)
  end.

Fixpoint unbits (s : string) : positive :=
  match s with
  | EmptyString => xH
  | String c s' => if Ascii.eqb c "0"%char then xO (unbits s') else xI (unbits s')
  end.

Lemma unbits_bits p : unbits (bits p) = p.
Proof. induction p; cbn; congruence. Qed.

Lemma bits_ascii p : Forall (fun b => 0 <= b <= 127) (as_bytes (bits p)).
Proof. unfold as_bytes. induction p; cbn; constructor; done || lia. Qed.

#[local] Instance bits_serde `{Countable A} : SerdeApi A := {|
  to_json := fun a => Ok (bits (encode a));
  from_json := fun s => ok_or (decode (unbits s)) "malformed";
|}.

Lemma bits_serde_laws `{Countable A} : SerdeLaws A.
Proof.
  split.
  - intros a. exists (bits (encode a)). split; [done|]. apply utf8_ascii, bits_ascii.
  - intros a s. cbn. intros [= <-]. by rewrite unbits_bits, decode_encode.
Qed.

#[local] Instance store_zstd : ZstdApi := {| zstd_encode := Ok; zstd_decode := Ok |}.

Lemma store_zstd_laws : ZstdLaws.
Proof. split; cbn; [by eexists|congruence]. Qed.
End BitsSerde.

(** ** Maps under encoded keys

    [encodes a m]: the store's map [m] holds exactly the entries of [a], under
    encoded keys and with encoded values. The encoding need only be injective on
    the valid keys. *)

Section EncodedMaps.
Context `{Countable K} `{Countable K'} {V V' : Type}.
Context (valid : K -> Prop) (enc : K -> K') (encv : V -> V').

Definition encodes (a : gmap K V) (m : gmap K' V') : Prop :=
  (forall k, is_Some (a !! k) -> valid k) /\
  (forall k' v', m !! k' = Some v' <-> exists k v, a !! k = Some v /\ k' = enc k /\ v' = encv v).

Lemma encodes_empty : encodes ∅ ∅.
Proof.
  split; [intros k [v Hv]; by rewrite lookup_empty in Hv|].
  intros k' v'. rewrite lookup_empty. split; [done|]. intros (k & v & Hk & _).
  by rewrite lookup_empty in Hk.
Qed.

Context (enc_inj : forall k1 k2, valid k1 -> valid k2 -> enc k1 = enc k2 -> k1 = k2).

Lemma encodes_lookup a m k : encodes a m -> valid k -> m !! enc k = encv <$> a !! k.
Proof.
  intros [Hv Hm] Hk. destruct (a !! k) as [v|] eqn:E; cbn.
  - apply Hm. by exists k, v.
  - apply eq_None_not_Some. intros [v' (k2 & v & Hk2 & He & _)%Hm].
    rewrite (enc_inj k k2) in E by (done || by apply Hv; exists v). congruence.
Qed.

Lemma encodes_insert a m k v :
  encodes a m -> valid k -> encodes (<[k := v]> a) (<[enc k := encv v]> m).
Proof.
  intros He Hk. pose proof He as [Hv Hm]. split.
  - intros k2 Hk2. destruct (decide (k = k2)) as [->|Hne]; [done|].
    rewrite lookup_insert_ne in Hk2 by done. by apply Hv.
  - intros k' v'. destruct (decide (enc k = k')) as [<-|Hne].
    + rewrite lookup_insert_eq. split.
      * intros [= <-]. exists k, v. by rewrite lookup_insert_eq.
      * intros (k2 & v2 & H2 & E & ->). destruct (decide (k = k2)) as [->|Hne].
        { rewrite lookup_insert_eq in H2. congruence. }
        rewrite lookup_insert_ne in H2 by done. destruct Hne.
        apply enc_inj; [done|apply Hv; by exists v2|done].
    + rewrite lookup_insert_ne, Hm by done. split; intros (k2 & v2 & H2 & -> & ->); exists k2, v2.
      * rewrite lookup_insert_ne by (by intros ->). done.
      * rewrite lookup_insert_ne in H2 by (by intros ->). done.
Qed.

Lemma encodes_delete a m k :
  encodes a m -> valid k -> encodes (delete k a) (delete (enc k) m).
Proof.
  intros [Hv Hm] Hk. split.
  - intros k2 [v2 [_ Hk2]%lookup_delete_Some]. apply Hv. by exists v2.
  - intros k' v'. rewrite lookup_delete_Some, Hm. split.
    + intros (Hne & k2 & v2 & H2 & -> & ->). exists k2, v2.
      rewrite lookup_delete_ne by (by intros ->). done.
    + intros (k2 & v2 & [Hne H2]%lookup_delete_Some & -> & ->). split; [|by exists k2, v2].
      intros E. apply Hne, enc_inj; [done|apply Hv; by exists v2|done].
Qed.

(** The entries of the store are the encoded entries. *)
Lemma encodes_to_list a m :
  encodes a m ->
  map_to_list m ≡ₚ (fun kv => (enc kv.1, encv kv.2)) <$> map_to_list a.
Proof.
  intros [Hv Hm]. apply NoDup_Permutation.
  - apply NoDup_map_to_list.
  - apply NoDup_fmap_2_strong; [|apply NoDup_map_to_list].
    intros [k1 v1] [k2 v2] H1%elem_of_map_to_list H2%elem_of_map_to_list E.
    cbn in E. injection E as E _.
    assert (k1 = k2) as -> by (apply enc_inj; [apply Hv; by eexists..|done]). congruence.
  - intros [k' v']. rewrite elem_of_map_to_list, Hm, list_elem_of_fmap. split.
    + intros (k & v & Hk & -> & ->). exists (k, v). by rewrite elem_of_map_to_list.
    + intros ([k v] & [= -> ->] & Hk%elem_of_map_to_list). by exists k, v.
Qed.

(** Deleting a list of entries one by one. *)
Lemma encodes_delete_list a m ks :
  encodes a m -> Forall valid ks ->
  encodes (foldr delete a ks) (foldr delete m (enc <$> ks)).
Proof. intros He. induction 1; cbn; [done|]. by apply encodes_delete. Qed.
End EncodedMaps.

Lemma lookup_foldr_delete `{Countable K} {V} (a : gmap K V) ks k v :
  foldr delete a ks !! k = Some v <-> (k ∉ ks) /\ a !! k = Some v.
Proof.
  induction ks as [|k2 ks IH]; cbn; [set_solver|]. rewrite lookup_delete_Some, IH. set_solver.
Qed.

Lemma foldr_delete_perm `{Countable K} {V} (a : gmap K V) ks ks' :
  ks ≡ₚ ks' -> foldr delete a ks = foldr delete a ks'.
Proof.
  intros Hp. apply map_eq. intros k. apply option_eq. intros v.
  by rewrite !lookup_foldr_delete, Hp.
Qed.

Lemma foldr_delete_cons `{Countable K} {V} (a : gmap K V) k ks :
  foldr delete (delete k a) ks = foldr delete a (k :: ks).
Proof.
  apply map_eq. intros k2. apply option_eq. intros v.
  rewrite !lookup_foldr_delete, lookup_delete_Some. set_solver.
Qed.

(** Deleting the keys of the entries that satisfy [P] leaves the others. *)
Lemma delete_filtered_keys `{Countable K} {V} (P : K * V -> Prop) `{!forall x, Decision (P x)}
    (a : gmap K V) :
  foldr delete a (fst <$> base.filter P (map_to_list a)) = base.filter (fun kv => ~ P kv) a.
Proof.
  apply map_eq. intros k. apply option_eq. intros v.
  rewrite map_lookup_filter_Some, lookup_foldr_delete. split.
  - intros [Hn Ha]. split; [done|]. intros HP. apply Hn, list_elem_of_fmap. exists (k, v).
    split; [done|]. apply list_elem_of_filter. by rewrite elem_of_map_to_list.
  - intros [Ha HP]. split; [|done].
    intros ([k2 v2] & -> & [HP2 H2%elem_of_map_to_list]%list_elem_of_filter)%list_elem_of_fmap.
    cbn in *. congruence.
Qed.

Lemma map_filter_to_list `{Countable K} {V} (P : K * V -> Prop) `{!forall x, Decision (P x)}
    (a : gmap K V) :
  map_to_list (base.filter P a) ≡ₚ base.filter P (map_to_list a).
Proof.
  apply NoDup_Permutation; [apply NoDup_map_to_list|apply NoDup_filter, NoDup_map_to_list|].
  intros [k v]. rewrite elem_of_map_to_list, list_elem_of_filter, elem_of_map_to_list.
  rewrite map_lookup_filter_Some. naive_solver.
Qed.

(** Removing the encoded keys of the entries that satisfy [P]. *)
Lemma encodes_compact `{Countable K} `{Countable K'} {V V'} (valid : K -> Prop) (enc : K -> K')
    (encv : V -> V') (P : K * V -> Prop) `{!forall x, Decision (P x)}
    (a : gmap K V) (m : gmap K' V') keys :
  (forall k1 k2, valid k1 -> valid k2 -> enc k1 = enc k2 -> k1 = k2) ->
  encodes valid enc encv a m ->
  keys ≡ₚ enc <$> (fst <$> base.filter P (map_to_list a)) ->
  encodes valid enc encv (base.filter (fun kv => ~ P kv) a) (foldr delete m keys) /\
  length keys = size (base.filter P a).
Proof.
  intros Hinj He Hp. split.
  - rewrite (foldr_delete_perm m _ _ Hp), <- delete_filtered_keys.
    apply encodes_delete_list; [done..|]. apply Forall_fmap, Forall_forall.
    intros [k v] [_ Hk%elem_of_map_to_list]%list_elem_of_filter. apply (proj1 He). by exists v.
  - rewrite Hp, !length_fmap, <- length_map_to_list. by rewrite map_filter_to_list.
Qed.
