(* ===== verification/Database.v ===== *)
(** * Databases of key spaces

    A [fjall] database: named key spaces, ordered scans and batches that span them. As
    with the key spaces of [Keyspace.v], the database is a class with the documented laws
    its callers rely on, and has a concrete instance. *)

From stdpp Require Import sorting.
From S2P Require Import Prelude Identifiers KeyEncoding Keyspace.
From Stdlib Require Import Sorted.

(** ** The byte order is a total order *)

Lemma lex_antisym xs ys : lex ys xs = CompOpp (lex xs ys).
Proof.
  revert ys; induction xs as [|x xs IH]; intros [|y ys]; cbn; try done.
  rewrite (Z.compare_antisym x y). destruct (Z.compare x y); cbn; [apply IH|done..].
Qed.

Lemma lex_eq xs ys : lex xs ys = Eq <-> xs = ys.
Proof.
  split; [|intros ->; apply lex_refl].
  revert ys; induction xs as [|x xs IH]; intros [|y ys]; cbn; try done.
  destruct (Z.compare_spec x y) as [->| |]; try done. intros H%IH. congruence.
Qed.

Lemma lex_lt_trans xs ys zs : lex xs ys = Lt -> lex ys zs = Lt -> lex xs zs = Lt.
Proof.
  revert ys zs; induction xs as [|x xs IH]; intros [|y ys] [|z zs]; cbn; try done.
  destruct (Z.compare_spec x y) as [->|Hxy|], (Z.compare_spec y z) as [->|Hyz|]; try done.
  all: try (intros _ _; by rewrite (proj2 (Z.compare_lt_iff x z)) by lia).
  all: try (intros _; by rewrite (proj2 (Z.compare_lt_iff x z)) by lia).
  all: rewrite ?Z.compare_refl; apply IH.
Qed.

(** [k] is at most [k']. *)
Definition lex_le (k k' : list Z) : Prop := lex k k' <> Gt.

#[global] Instance lex_le_dec k k' : Decision (lex_le k k').
Proof. unfold lex_le. apply _. Defined.

Lemma lex_le_cases k k' : lex_le k k' <-> lex k k' = Lt \/ k = k'.
Proof. unfold lex_le. rewrite <- lex_eq. destruct (lex k k'); naive_solver. Qed.

Lemma lex_le_trans k1 k2 k3 : lex_le k1 k2 -> lex_le k2 k3 -> lex_le k1 k3.
Proof.
  rewrite !lex_le_cases. intros [H1| ->] [H2| ->]; auto. left. by eapply lex_lt_trans.
Qed.

Lemma lex_le_total k k' : lex_le k k' \/ lex_le k' k.
Proof. unfold lex_le. rewrite (lex_antisym k k'). destruct (lex k k'); cbn; auto. Qed.

(** ** [fjall::Database] *)

Abbreviation Entry := (list Z * list Z)%type.

(** Entries in the order of their keys, each key once. *)
Definition in_order (l : list Entry) : Prop := StronglySorted (fun x y => lex x.1 y.1 = Lt) l.

(** [keyspace] opens a partition, creating it empty when there is none; [range] over an
    inclusive range or from a key on, and [prefix], with [into_inner] applied to their items; a direct
    [insert] into a partition; and the [commit] of a batch over several partitions. *)
Class DatabaseApi `{F : FjallApi} : Type := {
  Database : Type;
  db_keyspace : Database -> string -> result string Keyspace;
  ks_range : Keyspace -> list Z -> list Z -> list (result string Entry);
  ks_range_from : Keyspace -> list Z -> list (result string Entry);
  ks_prefix : Keyspace -> list Z -> list (result string Entry);
  db_insert : Database -> string -> list Z -> list Z -> result string unit * Database;
  db_commit : Database -> list (string * BatchItem) -> result string unit * Database;
}.

(** The writes of a batch to one partition, in order. *)
Definition items_of (p : string) (items : list (string * BatchItem)) : list BatchItem :=
  omap (fun x => if decide (x.1 = p) then Some x.2 else None) items.

Class DatabaseLaws `{F : FjallApi} `{D : !DatabaseApi} `{FL : !FjallLaws} : Type := {
  db_contents : Database -> string -> gmap (list Z) (list Z);
  db_healthy : Database -> Prop;
  db_keyspace_ok : forall db p, db_healthy db ->
    exists ks, db_keyspace db p = Ok ks /\ healthy ks /\ contents ks = db_contents db p;
  ks_range_ok : forall ks a b, healthy ks ->
    exists l, ks_range ks a b = Ok <$> l /\ in_order l /\
      forall kv, kv ∈ l <-> contents ks !! kv.1 = Some kv.2 /\ lex_le a kv.1 /\ lex_le kv.1 b;
  ks_range_from_ok : forall ks a, healthy ks ->
    exists l, ks_range_from ks a = Ok <$> l /\ in_order l /\
      forall kv, kv ∈ l <-> contents ks !! kv.1 = Some kv.2 /\ lex_le a kv.1;
  ks_prefix_ok : forall ks a, healthy ks ->
    exists l, ks_prefix ks a = Ok <$> l /\ in_order l /\
      forall kv, kv ∈ l <-> contents ks !! kv.1 = Some kv.2 /\ a `prefix_of` kv.1;
  db_insert_ok : forall db p k v, db_healthy db ->
    (db_insert db p k v).1 = Ok tt /\ db_healthy (db_insert db p k v).2 /\
    forall q, db_contents (db_insert db p k v).2 q =
      if decide (p = q) then <[k := v]> (db_contents db q) else db_contents db q;
  db_commit_ok : forall db items, db_healthy db ->
    (db_commit db items).1 = Ok tt /\ db_healthy (db_commit db items).2 /\
    forall p, db_contents (db_commit db items).2 p =
      fold_left apply_item (items_of p items) (db_contents db p);
}.

(** ** Facts on ordered entries *)

(** A map that is monotone on the elements of a list keeps it sorted. *)
Lemma StronglySorted_map {A B} (R : A -> A -> Prop) (R' : B -> B -> Prop) (f : A -> B) l :
  (forall x y, x ∈ l -> y ∈ l -> R x y -> R' (f x) (f y)) ->
  StronglySorted R l -> StronglySorted R' (f <$> l).
Proof.
  intros Hf. induction 1 as [|x l Hs IH Hall]; [constructor|]. cbn [fmap list_fmap]. constructor.
  - apply IH. intros; apply Hf; (by right) || done.
  - rewrite Forall_forall in Hall. apply Forall_forall. intros y' (y & -> & Hy)%list_elem_of_fmap.
    apply Hf; [by left|by right|by apply Hall].
Qed.

Lemma in_order_cons x l : in_order (x :: l) -> in_order l.
Proof. by inversion 1. Qed.

Lemma in_order_app l1 l2 x y : in_order (l1 ++ l2) -> x ∈ l1 -> y ∈ l2 -> lex x.1 y.1 = Lt.
Proof.
  induction l1 as [|z l1 IH]; cbn; intros Ho Hx Hy; [by apply not_elem_of_nil in Hx|].
  inversion Ho as [|? ? Hs Hall]; subst. apply elem_of_cons in Hx as [->|Hx]; [|by apply IH].
  rewrite Forall_app, !Forall_forall in Hall. by apply Hall.
Qed.

(** The last entry has the greatest key. *)
Lemma in_order_last l x y : in_order (l ++ [x]) -> y ∈ l ++ [x] -> lex_le y.1 x.1.
Proof.
  intros Ho [Hy| ->%list_elem_of_singleton]%elem_of_app; apply lex_le_cases; [left|by right].
  eapply in_order_app; [exact Ho|done|by left].
Qed.

(** Two ordered lists with the same entries are equal. *)
Lemma in_order_unique l1 l2 :
  in_order l1 -> in_order l2 -> (forall x, x ∈ l1 <-> x ∈ l2) -> l1 = l2.
Proof.
  revert l2; induction l1 as [|x l1 IH]; intros [|y l2] H1 H2 Hin; [done| | |].
  - exfalso. apply (not_elem_of_nil y), Hin. left.
  - exfalso. apply (not_elem_of_nil x), Hin. left.
  - inversion H1 as [|? ? H1' A1]; inversion H2 as [|? ? H2' A2]; subst.
    rewrite !Forall_forall in A1, A2.
    assert (forall z w : Entry, lex z.1 w.1 = Lt -> z <> w) as Hirr
      by (intros z w Hz ->; by rewrite lex_refl in Hz).
    assert (x = y) as ->.
    { assert (x ∈ y :: l2) as Hx by (apply Hin; left).
      assert (y ∈ x :: l1) as Hy by (apply Hin; left).
      apply elem_of_cons in Hx as [->|Hx]; [done|]. apply elem_of_cons in Hy as [->|Hy]; [done|].
      pose proof (A1 _ Hy) as E1. pose proof (A2 _ Hx) as E2.
      by rewrite lex_antisym, E1 in E2. }
    f_equal. apply IH; [done..|]. intros z. specialize (Hin z). rewrite !elem_of_cons in Hin.
    split; intros Hz.
    + destruct (proj1 Hin) as [->|]; [by right| |done]. by edestruct Hirr; [apply A1|].
    + destruct (proj2 Hin) as [->|]; [by right| |done]. by edestruct Hirr; [apply A2|].
Qed.

(** Filters keep the order. *)
Lemma filter_in_order (P : Entry -> Prop) `{!forall x, Decision (P x)} l :
  in_order l -> in_order (base.filter P l).
Proof.
  induction 1 as [|x l Hs IH Hall]; [constructor|]. rewrite filter_cons.
  destruct (decide (P x)); [|done]. constructor; [done|].
  rewrite Forall_forall in *. intros y [_ Hy]%list_elem_of_filter. auto.
Qed.

(** Filters that agree on the elements of a list. *)
Lemma filter_ext_elem {A} (P Q : A -> Prop) `{!forall x, Decision (P x)} 
    `{!forall x, Decision (Q x)} (l : list A) :
  (forall x, x ∈ l -> P x <-> Q x) -> base.filter P l = base.filter Q l.
Proof.
  induction l as [|x l IH]; intros Hpq; [done|]. rewrite !filter_cons.
  rewrite IH by (intros; apply Hpq; by right). specialize (Hpq x ltac:(by left)).
  destruct (decide (P x)), (decide (Q x)); tauto || done.
Qed.

(** Filtering out elements a partial map is not defined on. *)
Lemma omap_filter_none {A B} (f : A -> option B) (P : A -> Prop) `{!forall x, Decision (P x)}
    (l : list A) :
  (forall x, x ∈ l -> ~ P x -> f x = None) -> omap f (base.filter P l) = omap f l.
Proof.
  induction l as [|x l IH]; intros Hpq; [done|]. rewrite filter_cons.
  destruct (decide (P x)) as [Hp|Hp]; cbn [omap list_omap]; rewrite IH by (intros; apply Hpq; [by right|done]);
    [done|]. by rewrite (Hpq x ltac:(by left) Hp).
Qed.

(** ** A concrete database *)

Module MapDatabase.
Import MapKeyspace.

Definition entry_le (x y : Entry) : Prop := lex_le x.1 y.1.

#[local] Instance entry_le_dec x y : Decision (entry_le x y).
Proof. apply lex_le_dec. Defined.

#[local] Instance entry_le_trans : Transitive entry_le.
Proof. intros x y z. apply lex_le_trans. Qed.

#[local] Instance entry_le_total : Total entry_le.
Proof. intros x y. apply lex_le_total. Qed.

Definition sorted_entries (m : gmap (list Z) (list Z)) : list Entry :=
  merge_sort entry_le (map_to_list m).

Lemma sorted_entries_elem m kv : kv ∈ sorted_entries m <-> m !! kv.1 = Some kv.2.
Proof.
  unfold sorted_entries. rewrite merge_sort_Permutation. destruct kv. by rewrite elem_of_map_to_list.
Qed.

Lemma sorted_strictly l :
  StronglySorted entry_le l -> NoDup l.*1 -> in_order l.
Proof.
  induction 1 as [|x l Hs IH Hall]; cbn; intros Hn; [constructor|].
  apply NoDup_cons in Hn as [Hx Hn]. constructor; [by apply IH|].
  rewrite Forall_forall in Hall |- *. intros y Hy.
  destruct (proj1 (lex_le_cases _ _) (Hall y Hy)) as [?|E]; [done|].
  destruct Hx. rewrite E. by apply list_elem_of_fmap_2.
Qed.

Lemma sorted_entries_order m : in_order (sorted_entries m).
Proof.
  apply sorted_strictly; [apply StronglySorted_merge_sort; apply _|].
  unfold sorted_entries. rewrite merge_sort_Permutation. apply NoDup_fst_map_to_list.
Qed.

#[global] Instance database_api : DatabaseApi := {|
  Database := gmap string (gmap (list Z) (list Z));
  db_keyspace := fun db p => Ok (default ∅ (db !! p));
  ks_range := fun m a b =>
    Ok <$> base.filter (fun kv : Entry => lex_le a kv.1 /\ lex_le kv.1 b) (sorted_entries m);
  ks_range_from := fun m a => Ok <$> base.filter (fun kv : Entry => lex_le a kv.1) (sorted_entries m);
  ks_prefix := fun m a => Ok <$> base.filter (fun kv : Entry => a `prefix_of` kv.1) (sorted_entries m);
  db_insert := fun db p k v => (Ok tt, <[p := <[k := v]> (default ∅ (db !! p))]> db);
  db_commit := fun db items =>
    (Ok tt, fold_left (fun db x => <[x.1 := apply_item (default ∅ (db !! x.1)) x.2]> db) items db);
|}.

Lemma commit_contents (items : list (string * BatchItem))
    (db : gmap string (gmap (list Z) (list Z))) (p : string) :
  default ∅ (fold_left (fun db (x : string * BatchItem) =>
               <[x.1 := apply_item (default ∅ (db !! x.1)) x.2]> db) items db !! p) =
  fold_left apply_item (items_of p items) (default ∅ (db !! p)).
Proof.
  revert db; induction items as [|[q it] items IH]; intros db; [done|].
  cbn [fold_left fst snd]. rewrite IH. unfold items_of. cbn [omap list_omap fst snd].
  destruct (decide (q = p)) as [->|Hne]; [by rewrite lookup_insert_eq|by rewrite lookup_insert_ne].
Qed.

#[global] Instance database_laws : DatabaseLaws.
Proof.
  refine {| db_contents := fun (db : @Database _ database_api) p => default ∅ (db !! p);
            db_healthy := fun _ => True |}.
  - intros db p _. by eexists.
  - intros ks a b _. eexists. split; [done|]. split; [apply filter_in_order, sorted_entries_order|].
    intros kv. rewrite list_elem_of_filter, sorted_entries_elem. cbn. tauto.
  - intros ks a _. eexists. split; [done|]. split; [apply filter_in_order, sorted_entries_order|].
    intros kv. rewrite list_elem_of_filter, sorted_entries_elem. cbn. tauto.
  - intros ks a _. eexists. split; [done|]. split; [apply filter_in_order, sorted_entries_order|].
    intros kv. rewrite list_elem_of_filter, sorted_entries_elem. cbn. tauto.
  - intros db p k v _. split_and!; [done..|]. intros q. cbn.
    destruct (decide (p = q)) as [->|Hne]; [by rewrite lookup_insert_eq|by rewrite lookup_insert_ne].
  - intros db items _. split_and!; [done..|]. intros p. apply commit_contents.
Defined.
End MapDatabase.
