(* ===== verification/Effects.v ===== *)
(** * Effects and the effect journal

    An effect is an external action of a step. Its life is [Prepared], then
    [Committed] or [RolledBack] ([crates/vo-types/src/effects/]); the journal keeps
    one record per instance and intent ([crates/vo-storage/src/effect_journal/]). The
    journal is a trait with two implementations, a hash map under text keys and a
    [fjall] key space under binary keys; both are shown to implement one contract
    over pairs of instance and intent. *)

From S2P Require Import Prelude Identifiers KeyEncoding Keyspace Events.
From Stdlib Require Import Ascii.

(** ** Effect intents *)

(** [enum EffectIntent]. *)
Inductive EffectIntent : Set := Prepared | Committed | RolledBack.

#[global] Instance EffectIntent_eq_dec : EqDecision EffectIntent.
Proof. solve_decision. Defined.

(** [enum EffectTransitionEvent]. *)
Inductive EffectTransitionEvent : Set := Commit | Rollback.

(** [enum EffectTransitionError]. *)
Inductive EffectTransitionError : Set := TerminalStateTransition | InvalidTransition.

(** [EffectIntent::is_terminal]. *)
Definition is_terminal (i : EffectIntent) : bool :=
  match i with Committed | RolledBack => true | Prepared => false end.

(** [EffectIntent::all_variants]. *)
Definition all_variants : list EffectIntent := [Prepared; Committed; RolledBack].

(** [apply_effect_transition]. *)
Definition apply_effect_transition (current : EffectIntent) (event : EffectTransitionEvent)
  : result EffectTransitionError EffectIntent :=
  match current, event with
  | Prepared, Commit => Ok Committed
  | Prepared, Rollback => Ok RolledBack
  | (Committed | RolledBack), _ => Err TerminalStateTransition
  end.

(** The text of [{:?}]. *)
Definition EffectIntent_debug (i : EffectIntent) : string :=
  match i with
  | Prepared => "Prepared" | Committed => "Committed" | RolledBack => "RolledBack"
  end.

(** [enum EffectKind]. *)
Inductive EffectKind : Set := HttpCall | SqlQuery | BlobWrite.

#[global] Instance EffectKind_eq_dec : EqDecision EffectKind.
Proof. solve_decision. Defined.

(** ** Effect records and schemas *)

(** [enum JsonType]; the constructors carry a prefix, as their names are taken. *)
Inductive JsonType : Set := JtString | JtNumber | JtBool | JtObject | JtArray | JtNull.

#[global] Instance JsonType_eq_dec : EqDecision JsonType.
Proof. solve_decision. Defined.

(** The variant tests of [serde_json::Value] the validation matches on, and
    [Map::contains_key] through [get]. *)
Class JsonShape `{J : JsonApi} : Type := {
  is_string : Value -> bool;
  is_number : Value -> bool;
  is_boolean : Value -> bool;
  is_array : Value -> bool;
}.

(** [enum EffectValidationError]. *)
Inductive EffectValidationError : Type :=
| IntentMismatch (actual expected : EffectIntent)
| KindMismatch (actual expected : EffectKind)
| MissingParam (name : string)
| TypeMismatch (param : string) (expected actual : JsonType).

Section Records.
Context `{J : JsonApi}.

(** [struct EffectRecord]; its timestamp is a [u64] of milliseconds. *)
Record EffectRecord : Type := mkEffectRecord {
  intent_id : string;
  kind : EffectKind;
  params_json : Value;
  status : EffectIntent;
  committed_at : option Z;
}.

(** [EffectRecord::new]. *)
Definition EffectRecord_new (intent_id : string) (kind : EffectKind) (params_json : Value)
    (status : EffectIntent) (committed_at : option Z) : option EffectRecord :=
  if is_empty intent_id then None
  else Some (mkEffectRecord intent_id kind params_json status committed_at).

(** [struct StepSchema]. *)
Record StepSchema : Type := mkStepSchema {
  expected_intent : EffectIntent;
  expected_kind : EffectKind;
  required_params : list string;
  param_types : gmap string JsonType;
}.

Context `{Sh : !JsonShape}.

(** The [match value] of the validation. *)
Definition json_type (v : Value) : JsonType :=
  if is_string v then JtString
  else if is_number v then JtNumber
  else if is_boolean v then JtBool
  else match as_object v with
       | Some _ => JtObject
       | None => if is_array v then JtArray else JtNull
       end.

(** The two loops over the parameters. *)
Definition check_required (params : Map) (name : string) : result EffectValidationError unit :=
  match get params name with None => Err (MissingParam name) | Some _ => Ok tt end.

Definition check_type (params : Map) (entry : string * JsonType)
  : result EffectValidationError unit :=
  match get params entry.1 with
  | None => Ok tt
  | Some value =>
      if decide (json_type value <> entry.2)
      then Err (TypeMismatch entry.1 entry.2 (json_type value)) else Ok tt
  end.

(** [validate_effect_against_schema]. *)
Definition validate_effect_against_schema (effect : EffectRecord) (schema : StepSchema)
  : result EffectValidationError unit :=
  if decide (status effect <> expected_intent schema) then
    Err (IntentMismatch (status effect) (expected_intent schema))
  else if decide (kind effect <> expected_kind schema) then
    Err (KindMismatch (kind effect) (expected_kind schema))
  else
    match as_object (params_json effect) with
    | None => Ok tt
    | Some params =>
        let? _ := try_for_each (check_required params) (required_params schema) in
        try_for_each (check_type params) (map_to_list (param_types schema))
    end.

(** [EffectRecord::new_with_schema]. *)
Definition new_with_schema (intent_id : string) (kind : EffectKind) (params_json : Value)
    (status : EffectIntent) (committed_at : option Z) (schema : StepSchema)
  : result EffectValidationError EffectRecord :=
  let record := mkEffectRecord intent_id kind params_json status committed_at in
  if is_empty intent_id then Err (IntentMismatch status (expected_intent schema))
  else let? _ := validate_effect_against_schema record schema in Ok record.

(** What a record that fits a schema has. *)
Definition fits_schema (effect : EffectRecord) (schema : StepSchema) : Prop :=
  status effect = expected_intent schema /\ kind effect = expected_kind schema /\
  forall params, as_object (params_json effect) = Some params ->
    (forall name, name ∈ required_params schema -> is_Some (get params name)) /\
    (forall name ty v, param_types schema !! name = Some ty -> get params name = Some v ->
       json_type v = ty).

Lemma check_required_ok ps name : check_required ps name = Ok tt <-> is_Some (get ps name).
Proof. unfold check_required. destruct (get ps name); naive_solver. Qed.

Lemma check_type_ok ps e :
  check_type ps e = Ok tt <-> forall v, get ps e.1 = Some v -> json_type v = e.2.
Proof.
  destruct e as [name ty]. unfold check_type; cbn. destruct (get ps name) as [v|]; [|naive_solver].
  case_decide as Hd; [split; [done|]; intros H; by destruct Hd; apply H|].
  naive_solver.
Qed.

(** Schema validation: a record is built exactly when its intent is named and it
    fits the schema, and every refusal is real: a type mismatch names a parameter of
    the schema that is present with another type, a missing parameter is required and
    absent. *)
Theorem new_with_schema_spec intent_id kind params status at_ schema :
  let record := mkEffectRecord intent_id kind params status at_ in
  (forall r, new_with_schema intent_id kind params status at_ schema = Ok r <->
     r = record /\ is_empty intent_id = false /\ fits_schema record schema) /\
  (forall name, new_with_schema intent_id kind params status at_ schema
                = Err (MissingParam name) ->
     name ∈ required_params schema /\
     exists ps, as_object params = Some ps /\ get ps name = None) /\
  (forall name ty ty', new_with_schema intent_id kind params status at_ schema
                       = Err (TypeMismatch name ty ty') ->
     param_types schema !! name = Some ty /\ ty <> ty' /\
     exists ps v, as_object params = Some ps /\ get ps name = Some v /\ json_type v = ty').
Proof.
  intros record.
  unfold new_with_schema. fold record. destruct (is_empty intent_id); [naive_solver|].
  unfold validate_effect_against_schema, fits_schema. cbn.
  case_decide as H1; [naive_solver|].
  case_decide as H2; [naive_solver|].
  destruct (as_object params) as [ps|]; cbn; [|naive_solver].
  destruct (try_for_each (check_required ps) _) as [[]|e] eqn:E1; cbn.
  2:{ pose proof E1 as E1'. apply try_for_each_err in E1' as (n & Hn & He).
      unfold check_required in He. destruct (get ps n) eqn:Hg; [done|]. injection He as <-.
      split_and!; [|naive_solver..]. intros r. split; [done|].
      intros (_ & _ & _ & _ & H). destruct (H ps eq_refl) as [H' _]. destruct (H' n Hn) as [? H3].
      congruence. }
  apply try_for_each_ok in E1. rewrite Forall_forall in E1.
  destruct (try_for_each (check_type ps) _) as [[]|e] eqn:E2; cbn.
  - apply try_for_each_ok in E2. rewrite Forall_forall in E2. split_and!; [|done..].
    intros r. split; [|naive_solver]. intros [= <-]. split_and!; [done..|].
    intros ps' [= <-]. split; [intros n Hn; by apply check_required_ok, E1|].
    intros n ty v Hl Hg. eapply (check_type_ok ps (n, ty)); [apply E2|done].
    by apply elem_of_map_to_list.
  - apply try_for_each_err in E2 as ([n ty] & Hl%elem_of_map_to_list & He).
    unfold check_type in He; cbn in He. destruct (get ps n) as [v|] eqn:Hg; [|done].
    case_decide as Hd; [|done]. injection He as <-.
    split_and!; [|done|naive_solver]. intros r. split; [done|].
    intros (_ & _ & _ & _ & H). destruct (H ps eq_refl) as [_ H']. by destruct Hd; eapply H'.
Qed.
End Records.
Arguments EffectRecord : clear implicits.
Arguments EffectRecord {J}.

(** ** Effect identifiers *)

(** [enum EffectJournalError]. *)
Inductive EffectJournalError : Type :=
| AlreadyTerminal (effect_id : string) (current_status : string)
| NotFound (effect_id : string)
| StorageError (reason : string)
| CodecError (reason : string)
| InvalidArgument.

(** [struct EffectId]. *)
Record EffectId : Set := mkEffectId { effect_id_str : string }.

#[global] Instance EffectId_eq_dec : EqDecision EffectId.
Proof. solve_decision. Defined.

(** [EffectId::new]. *)
Definition EffectId_new (instance_id : InstanceId) (intent_id : string)
  : result EffectJournalError EffectId :=
  if is_empty intent_id then Err InvalidArgument
  else Ok (mkEffectId (instance_id_str instance_id +:+ "::" +:+ intent_id)).

(** [EffectId::try_from(String)]. *)
Definition EffectId_try_from (value : string) : result EffectJournalError EffectId :=
  if is_empty value then Err InvalidArgument else Ok (mkEffectId value).

(** [s.split_once("::")], on characters. *)
Fixpoint split_once_colons (l : list ascii) : option (list ascii * list ascii) :=
  match l with
  | a :: (b :: rest) as l' =>
      if bool_decide (a = ":"%char) && bool_decide (b = ":"%char) then Some ([], rest)
      else match split_once_colons l' with
           | Some (p, r) => Some (a :: p, r)
           | None => None
           end
  | _ => None
  end.

(** ** The journal trait *)

(** What a call that changes a state of type [St] gives: its answer and the new state,
    or [None], a panic. *)
Definition outcome (St A : Type) : Type := option (result EffectJournalError A * St).

(** [trait EffectJournal]: a journal is a state and the operations on it. *)
Class EffectJournal `{J : JsonApi} (St : Type) : Type := {
  prepare : St -> InstanceId -> EffectRecord -> outcome St EffectId;
  commit : St -> EffectId -> outcome St unit;
  rollback : St -> EffectId -> outcome St unit;
  list_pending : St -> InstanceId -> result EffectJournalError (list EffectRecord);
  compact : St -> Z -> outcome St Z;
}.

(** Which records [compact] removes. *)
Definition removable `{J : JsonApi} (older_than : Z) (r : EffectRecord) : bool :=
  is_terminal (status r) &&
  match committed_at r with Some at_ => at_ <? older_than | None => false end.

(** ** The in-memory journal *)

(** [InMemoryEffectJournal]: the map behind its mutex. *)
Abbreviation Records := (gmap string EffectRecord).

Module InMemory.
Section InMemory.
Context `{J : JsonApi}.

(** [InMemoryEffectJournal::new]. *)
Definition new : Records := ∅.

(** [ensure_not_terminal]. *)
Definition ensure_not_terminal (record : EffectRecord) (key : string)
  : result EffectJournalError unit :=
  match status record with
  | Committed | RolledBack => Err (AlreadyTerminal key (EffectIntent_debug (status record)))
  | Prepared => Ok tt
  end.

(** [construct_next_record]; [None] is the [unreachable!()]. *)
Definition construct_next_record (record : EffectRecord) (target : EffectIntent)
  : option (result EffectJournalError EffectRecord) :=
  ts ← match target with
       | Committed =>
           Some (let? t := map_err (fun _ => StorageError "failed to parse timestamp")
                             (TimestampMs_parse "100") in Ok (Some t))
       | RolledBack => Some (Ok None)
       | Prepared => None
       end;
  Some (let? ts := ts in
        ok_or (EffectRecord_new (intent_id record) (kind record) (params_json record) target ts)
          (StorageError "failed to create record")).

(** [validate_and_transition]. *)
Definition validate_and_transition (record : EffectRecord) (key : string) (target : EffectIntent)
  : option (result EffectJournalError EffectRecord) :=
  match ensure_not_terminal record key with
  | Err e => Some (Err e)
  | Ok _ => construct_next_record record target
  end.

(** [prepare]. *)
Definition prepare (records : Records) (instance_id : InstanceId) (record : EffectRecord)
  : outcome Records EffectId :=
  match EffectId_new instance_id (intent_id record) with
  | Err e => Some (Err e, records)
  | Ok effect_id =>
      let key := effect_id_str effect_id in
      match records !! key with
      | Some _ => Some (Ok effect_id, records)
      | None => Some (Ok effect_id, <[key := record]> records)
      end
  end.

(** The common body of [commit] and [rollback]. *)
Definition settle (target : EffectIntent) (records : Records) (effect_id : EffectId)
  : outcome Records unit :=
  let key := effect_id_str effect_id in
  match records !! key with
  | None => Some (Err (NotFound key), records)
  | Some record =>
      next ← validate_and_transition record key target;
      Some match next with
           | Err e => (Err e, records)
           | Ok next => (Ok tt, <[key := next]> records)
           end
  end.

(** [list_pending]. *)
Definition list_pending (records : Records) (instance_id : InstanceId)
  : result EffectJournalError (list EffectRecord) :=
  let prefix := instance_id_str instance_id +:+ "::" in
  Ok (snd <$> base.filter (fun kv => chars prefix `prefix_of` chars kv.1 /\ status kv.2 = Prepared)
                (map_to_list records)).

(** [compact]. *)
Definition compact (records : Records) (older_than : Z) : outcome Records Z :=
  let keys_to_remove :=
    fst <$> base.filter (fun kv => removable older_than kv.2 = true) (map_to_list records) in
  Some (Ok (Z.of_nat (length keys_to_remove)), foldr delete records keys_to_remove).

#[global] Instance journal : EffectJournal Records := {|
  Effects.prepare := prepare;
  Effects.commit := settle Committed;
  Effects.rollback := settle RolledBack;
  Effects.list_pending := list_pending;
  Effects.compact := compact;
|}.
End InMemory.
End InMemory.

(** ** The journal over a key space *)

Section Codec.
Context `{J : JsonApi} `{S : !SerdeApi EffectRecord} `{Zs : ZstdApi} `{U : UlidApi}.

(** [enum EffectCompressionError]. *)
Inductive EffectCompressionError : Type :=
| SerializationFailed (reason : string)
| CompressionFailed (reason : string)
| DecompressionFailed (reason : string)
| DeserializationFailed (reason : string).

(** The text of a compression error. *)
Definition compression_text (e : EffectCompressionError) : string :=
  match e with
  | SerializationFailed r | CompressionFailed r
  | DecompressionFailed r | DeserializationFailed r => r
  end.

(** [EffectRecord::compress]. *)
Definition compress (r : EffectRecord) : result EffectCompressionError (list Z) :=
  let? json := map_err SerializationFailed (to_json r) in
  let bytes := as_bytes json in
  map_err CompressionFailed (zstd_encode bytes).

(** [EffectRecord::decompress]. *)
Definition decompress (compressed : list Z) : result EffectCompressionError EffectRecord :=
  let? decompressed := map_err DecompressionFailed (zstd_decode compressed) in
  let? json := ok_or (from_utf8 decompressed) (DecompressionFailed "invalid utf-8") in
  map_err DeserializationFailed (from_json json).

(** [encode_effect_record]. *)
Definition encode_effect_record (r : EffectRecord) : result EffectJournalError (list Z) :=
  map_err (fun e => CodecError (compression_text e)) (compress r).

(** [decode_effect_record]. *)
Definition decode_effect_record (bytes : list Z) : result EffectJournalError EffectRecord :=
  map_err (fun e => CodecError (compression_text e)) (decompress bytes).

(** The key of text that is not an instance and an intent: length prefixed, and a
    panic ([expect]) beyond the [u16] length, which is [None]. *)
Definition encode_opaque_key (s : string) : option (list Z) :=
  match encode_length_prefixed (as_bytes s) with Ok k => Some k | Err _ => None end.

(** [encode_effect_key] of the journal. *)
Definition encode_effect_key (effect_id : EffectId) : option (list Z) :=
  let s := effect_id_str effect_id in
  match split_once_colons (chars s) with
  | Some (iid_str, intent_id) =>
      match InstanceId_parse (of_chars iid_str) with
      | Ok instance_id =>
          match encode_instance_id instance_id with
          | Ok iid_bytes =>
              let intent_bytes := as_bytes (of_chars intent_id) in
              Some (iid_bytes ++ be_bytes 2 (as_u16 (blen intent_bytes)) ++ intent_bytes)
          | Err _ => encode_opaque_key s
          end
      | Err _ => encode_opaque_key s
      end
  | None => encode_opaque_key s
  end.

(** [decode_effect_key] of the journal. *)
Definition decode_effect_key (bytes : list Z) : result EffectJournalError EffectId :=
  if blen bytes <? 18 then
    match decode_length_prefixed bytes with
    | Ok (decoded, _) =>
        let? s := ok_or (from_utf8 decoded) (CodecError "utf-8") in
        if negb (is_empty s) then Ok (mkEffectId s)
        else Err (CodecError "effect key too short")
    | Err _ => Err (CodecError "effect key too short")
    end
  else
    let? instance_id := map_err (fun _ => CodecError "invalid instance_id in effect key")
                          (decode_instance_id (take 16 bytes)) in
    let intent_len := from_be_bytes (take 2 (drop 16 bytes)) in
    if blen bytes <? 18 + intent_len then Err (CodecError "effect key truncated")
    else
      let? intent_str := ok_or (from_utf8 (take (Z.to_nat intent_len) (drop 18 bytes)))
                           (CodecError "invalid intent_id UTF-8") in
      map_err (fun _ => CodecError "empty intent_id in decoded key")
        (EffectId_new instance_id intent_str).

(** [get_effect_key_prefix]. *)
Definition get_effect_key_prefix (instance_id : InstanceId) : list Z :=
  match encode_instance_id instance_id with Ok b => b | Err _ => [] end.
End Codec.

Module FjallJournal.
Section FjallJournal.
Context `{J : JsonApi} `{S : !SerdeApi EffectRecord} `{Zs : ZstdApi} `{U : UlidApi}.
Context `{F : FjallApi}.

(** [FjallEffectJournal::get_impl]. *)
Definition get_impl (ks : Keyspace) (key : list Z)
  : result EffectJournalError (option EffectRecord) :=
  match ks_get ks key with
  | Ok (Some bytes) => let? record := decode_effect_record bytes in Ok (Some record)
  | Ok None => Ok None
  | Err e => Err (StorageError e)
  end.

(** [self.partition.insert(&key, &value).map_err(Storage)]. *)
Definition put (ks : Keyspace) (key value : list Z) : result EffectJournalError unit * Keyspace :=
  let '(r, ks') := ks_insert ks key value in (map_err StorageError r, ks').

(** [prepare]. *)
Definition prepare (ks : Keyspace) (instance_id : InstanceId) (record : EffectRecord)
  : outcome Keyspace EffectId :=
  match EffectId_new instance_id (intent_id record) with
  | Err e => Some (Err e, ks)
  | Ok effect_id =>
      key ← encode_effect_key effect_id;
      match ks_get ks key with
      | Ok (Some _) => Some (Ok effect_id, ks)
      | _ =>
          match encode_effect_record record with
          | Err e => Some (Err e, ks)
          | Ok value =>
              let '(r, ks') := put ks key value in
              Some (let? _ := r in Ok effect_id, ks')
          end
      end
  end.

(** The timestamp of the next record: [commit] parses a constant, [rollback] has none. *)
Definition next_timestamp (target : EffectIntent) : result EffectJournalError (option Z) :=
  match target with
  | Committed =>
      let? t := map_err (fun _ => StorageError "failed to parse timestamp")
                  (TimestampMs_parse "100") in Ok (Some t)
  | _ => Ok None
  end.

(** The common body of [commit] and [rollback]. *)
Definition settle (target : EffectIntent) (ks : Keyspace) (effect_id : EffectId)
  : outcome Keyspace unit :=
  key ← encode_effect_key effect_id;
  Some match get_impl ks key with
       | Err e => (Err e, ks)
       | Ok None => (Err (NotFound (effect_id_str effect_id)), ks)
       | Ok (Some record) =>
           if is_terminal (status record) then
             (Err (AlreadyTerminal (effect_id_str effect_id)
                     (EffectIntent_debug (status record))), ks)
           else
             match
               (let? ts := next_timestamp target in
                let? next_record := ok_or (EffectRecord_new (intent_id record) (kind record)
                                             (params_json record) target ts)
                                      (StorageError "failed to create record") in
                encode_effect_record next_record)
             with
             | Err e => (Err e, ks)
             | Ok value => put ks key value
             end
       end.

(** The loop of [list_pending]: entries of other instances are skipped before their
    values are decoded. *)
Definition pending_step (prefix : list Z) (item : result string (list Z * list Z))
  : result EffectJournalError (option EffectRecord) :=
  let? kv := map_err StorageError item in
  if bool_decide (prefix `prefix_of` kv.1) then
    let? record := decode_effect_record kv.2 in
    Ok (if decide (status record = Prepared) then Some record else None)
  else Ok None.

(** [list_pending]. *)
Definition list_pending (ks : Keyspace) (instance_id : InstanceId)
  : result EffectJournalError (list EffectRecord) :=
  let? found := collect_result (pending_step (get_effect_key_prefix instance_id)) (ks_iter ks) in
  Ok (omap id found).

(** The first loop of [compact]: the keys of the removable records. *)
Definition compact_step (older_than : Z) (item : result string (list Z * list Z))
  : result EffectJournalError (option (list Z)) :=
  let? kv := map_err StorageError item in
  let? record := decode_effect_record kv.2 in
  Ok (if removable older_than record then Some kv.1 else None).

(** Its second loop, with the count of removals so far. *)
Fixpoint remove_all (ks : Keyspace) (keys : list (list Z)) (removed : Z)
  : result EffectJournalError Z * Keyspace :=
  match keys with
  | [] => (Ok removed, ks)
  | key :: keys' =>
      let '(r, ks') := ks_remove ks key in
      match r with
      | Err e => (Err (StorageError e), ks')
      | Ok _ => remove_all ks' keys' (removed + 1)
      end
  end.

(** [compact]. *)
Definition compact (ks : Keyspace) (older_than : Z) : outcome Keyspace Z :=
  match collect_result (compact_step older_than) (ks_iter ks) with
  | Err e => Some (Err e, ks)
  | Ok found => Some (remove_all ks (omap id found) 0)
  end.

#[global] Instance journal : EffectJournal Keyspace := {|
  Effects.prepare := prepare;
  Effects.commit := settle Committed;
  Effects.rollback := settle RolledBack;
  Effects.list_pending := list_pending;
  Effects.compact := compact;
|}.
End FjallJournal.
End FjallJournal.

(** ** The contract

    What the trait promises: one record per instance and intent. *)

Abbreviation Contract := (gmap (InstanceId * string) EffectRecord).

Section Contract.
Context `{J : JsonApi}.

Definition effect_id_of (k : InstanceId * string) : EffectId :=
  mkEffectId (instance_id_str k.1 +:+ "::" +:+ k.2).

(** The record of a settled effect; a commit is stamped with the constant 100. *)
Definition settled (target : EffectIntent) (r : EffectRecord) : EffectRecord :=
  mkEffectRecord (intent_id r) (kind r) (params_json r) target
    (match target with Committed => Some 100 | _ => None end).

Definition spec_prepare (a : Contract) (i : InstanceId) (r : EffectRecord)
  : result EffectJournalError EffectId * Contract :=
  let k := (i, intent_id r) in
  if is_empty (intent_id r) then (Err InvalidArgument, a)
  else (Ok (effect_id_of k), match a !! k with Some _ => a | None => <[k := r]> a end).

Definition spec_settle (target : EffectIntent) (a : Contract) (k : InstanceId * string)
  : result EffectJournalError unit * Contract :=
  if is_empty k.2 then (Err InvalidArgument, a)
  else
    match a !! k with
    | None => (Err (NotFound (effect_id_str (effect_id_of k))), a)
    | Some r =>
        if is_terminal (status r) then
          (Err (AlreadyTerminal (effect_id_str (effect_id_of k))
                  (EffectIntent_debug (status r))), a)
        else (Ok tt, <[k := settled target r]> a)
    end.

Definition spec_pending (a : Contract) (i : InstanceId) : list EffectRecord :=
  snd <$> base.filter (fun kv : InstanceId * string * EffectRecord =>
                         kv.1.1 = i /\ status kv.2 = Prepared) (map_to_list a).

Definition spec_compact (a : Contract) (older_than : Z) : Z * Contract :=
  (Z.of_nat (size (base.filter (fun kv => removable older_than kv.2 = true) a)),
   base.filter (fun kv => ~ removable older_than kv.2 = true) a).

(** Calls of the trait; an effect is named by what [EffectId::new] is given. *)
Inductive JournalOp : Type :=
| OpPrepare (i : InstanceId) (r : EffectRecord)
| OpCommit (k : InstanceId * string)
| OpRollback (k : InstanceId * string)
| OpListPending (i : InstanceId)
| OpCompact (older_than : Z).

Inductive Answer : Type :=
| AnsId (r : result EffectJournalError EffectId)
| AnsUnit (r : result EffectJournalError unit)
| AnsList (r : result EffectJournalError (list EffectRecord))
| AnsCount (r : result EffectJournalError Z).

(** Equality of answers; the order of a listing is unspecified. *)
Definition same_answer (x y : Answer) : Prop :=
  match x, y with AnsList (Ok l), AnsList (Ok l') => l ≡ₚ l' | _, _ => x = y end.

#[global] Instance same_answer_equiv : Equivalence same_answer.
Proof.
  split.
  - intros [| |[]|]; cbn; done.
  - intros [| |[]|] [| |[]|]; cbn; done.
  - intros [| |[]|] [| |[]|] [| |[]|]; cbn; intros; congruence || etrans; done.
Qed.

Definition spec_exec (a : Contract) (op : JournalOp) : Answer * Contract :=
  match op with
  | OpPrepare i r => let '(x, a') := spec_prepare a i r in (AnsId x, a')
  | OpCommit k => let '(x, a') := spec_settle Committed a k in (AnsUnit x, a')
  | OpRollback k => let '(x, a') := spec_settle RolledBack a k in (AnsUnit x, a')
  | OpListPending i => (AnsList (Ok (spec_pending a i)), a)
  | OpCompact t => let '(n, a') := spec_compact a t in (AnsCount (Ok n), a')
  end.

Fixpoint spec_run (a : Contract) (ops : list JournalOp) : list Answer * Contract :=
  match ops with
  | [] => ([], a)
  | op :: ops' =>
      let '(x, a') := spec_exec a op in let '(xs, a'') := spec_run a' ops' in (x :: xs, a'')
  end.

(** The same calls on an implementation. *)
Definition exec {St} `{!EffectJournal St} (st : St) (op : JournalOp) : option (Answer * St) :=
  match op with
  | OpPrepare i r => '(x, st') ← prepare st i r; Some (AnsId x, st')
  | OpCommit k =>
      match EffectId_new k.1 k.2 with
      | Err e => Some (AnsUnit (Err e), st)
      | Ok id => '(x, st') ← commit st id; Some (AnsUnit x, st')
      end
  | OpRollback k =>
      match EffectId_new k.1 k.2 with
      | Err e => Some (AnsUnit (Err e), st)
      | Ok id => '(x, st') ← rollback st id; Some (AnsUnit x, st')
      end
  | OpListPending i => Some (AnsList (list_pending st i), st)
  | OpCompact t => '(x, st') ← compact st t; Some (AnsCount x, st')
  end.

Fixpoint run {St} `{!EffectJournal St} (st : St) (ops : list JournalOp)
  : option (list Answer * St) :=
  match ops with
  | [] => Some ([], st)
  | op :: ops' =>
      '(x, st') ← exec st op; '(xs, st'') ← run st' ops'; Some (x :: xs, st'')
  end.

Context `{U : UlidApi}.

Definition valid_instance (i : InstanceId) : Prop := exists u, InstanceId_wf i u /\ u <> 0.

Definition valid_key (k : InstanceId * string) : Prop :=
  valid_instance k.1 /\ is_empty k.2 = false.

(** Calls with instance identifiers as [InstanceId::parse] makes them. *)
Definition op_valid (op : JournalOp) : Prop :=
  match op with
  | OpPrepare i _ | OpListPending i => valid_instance i
  | OpCommit k | OpRollback k => valid_instance k.1
  | OpCompact _ => True
  end.

(** Every record is stored under its own intent. *)
Definition journal_wf (a : Contract) : Prop :=
  forall k r, a !! k = Some r -> intent_id r = k.2 /\ valid_key k.

(** What an implementation owes: each operation simulates the contract's, without
    panic, from related states. *)
Class Implements {St} `{!EffectJournal St} (rep : Contract -> St -> Prop) : Prop := {
  impl_prepare : forall a st i r, rep a st -> valid_key (i, intent_id r) ->
    exists st', prepare st i r = Some ((spec_prepare a i r).1, st') /\
                rep (spec_prepare a i r).2 st';
  impl_prepare_empty : forall st i r, is_empty (intent_id r) = true ->
    prepare st i r = Some (Err InvalidArgument, st);
  impl_commit : forall a st k, rep a st -> valid_key k ->
    exists st', commit st (effect_id_of k) = Some ((spec_settle Committed a k).1, st') /\
                rep (spec_settle Committed a k).2 st';
  impl_rollback : forall a st k, rep a st -> valid_key k ->
    exists st', rollback st (effect_id_of k) = Some ((spec_settle RolledBack a k).1, st') /\
                rep (spec_settle RolledBack a k).2 st';
  impl_list_pending : forall a st i, rep a st -> valid_instance i ->
    exists l, list_pending st i = Ok l /\ l ≡ₚ spec_pending a i;
  impl_compact : forall a st t, rep a st ->
    exists st', compact st t = Some (Ok (spec_compact a t).1, st') /\
                rep (spec_compact a t).2 st';
}.

Lemma journal_exec_simulates {St} `{!EffectJournal St} rep `{!Implements rep} a st op :
  rep a st -> op_valid op ->
  exists x st', exec st op = Some (x, st') /\ same_answer x (spec_exec a op).1 /\
    rep (spec_exec a op).2 st'.
Proof.
  intros HR Hop. destruct op as [i r|k|k|i|t]; cbn in *.
  - destruct (is_empty (intent_id r)) eqn:He.
    + rewrite impl_prepare_empty by done. unfold spec_prepare. rewrite He. by eexists _, _.
    + destruct (impl_prepare a st i r HR) as (st' & -> & ?); [done|].
      destruct (spec_prepare a i r). by eexists _, _.
  - unfold EffectId_new. destruct (is_empty k.2) eqn:He.
    + unfold spec_settle. rewrite He. by eexists _, _.
    + destruct (impl_commit a st k HR) as (st' & Hc & ?); [done|]. fold (effect_id_of k).
      rewrite Hc. destruct (spec_settle Committed a k). by eexists _, _.
  - unfold EffectId_new. destruct (is_empty k.2) eqn:He.
    + unfold spec_settle. rewrite He. by eexists _, _.
    + destruct (impl_rollback a st k HR) as (st' & Hc & ?); [done|]. fold (effect_id_of k).
      rewrite Hc. destruct (spec_settle RolledBack a k). by eexists _, _.
  - destruct (impl_list_pending a st i HR Hop) as (l & -> & ?). by eexists _, _.
  - destruct (impl_compact a st t HR) as (st' & -> & ?). by eexists _, _.
Qed.

(** Every sequence of calls: no panic, the contract's answers. *)
Lemma run_simulates {St} `{!EffectJournal St} rep `{!Implements rep} a st ops :
  rep a st -> Forall op_valid ops ->
  exists xs st', run st ops = Some (xs, st') /\ Forall2 same_answer xs (spec_run a ops).1 /\
    rep (spec_run a ops).2 st'.
Proof.
  intros HR Hops. revert a st HR. induction Hops as [|op ops Hop _ IH]; intros a st HR; cbn.
  { by eexists _, _. }
  destruct (journal_exec_simulates rep a st op HR Hop) as (x & st1 & -> & Hx & HR1). cbn.
  destruct (spec_exec a op) as [y a1]. destruct (IH a1 st1 HR1) as (xs & st2 & -> & Hxs & HR2).
  cbn. destruct (spec_run a1 ops) as [ys a2]. eexists _, _. split_and!; [done|by constructor|done].
Qed.
End Contract.

(** ** Keys of effects *)

Section EffectKeys.
Context `{U : UlidApi} `{UL : !UlidLaws}.

Lemma valid_instance_text i :
  valid_instance i ->
  length (chars (instance_id_str i)) = 26%nat /\
  Forall (fun c => is_ascii_alphanumeric c = true) (chars (instance_id_str i)).
Proof.
  intros (u & [Hu ->] & _). cbn. split; [|by apply ulid_to_alnum].
  pose proof (ulid_to_len u Hu) as H. unfold len in H. lia.
Qed.

Definition text_key (k : InstanceId * string) : string := effect_id_str (effect_id_of k).

Lemma text_key_chars k :
  chars (text_key k) = chars (instance_id_str k.1) ++ [":"%char; ":"%char] ++ chars k.2.
Proof. unfold text_key, effect_id_of; cbn [effect_id_str]. by rewrite chars_app. Qed.

Lemma text_key_inj k1 k2 : valid_key k1 -> valid_key k2 -> text_key k1 = text_key k2 -> k1 = k2.
Proof.
  intros [H1 _] [H2 _] E. apply (f_equal chars) in E. rewrite !text_key_chars in E.
  destruct (valid_instance_text _ H1) as [L1 _], (valid_instance_text _ H2) as [L2 _].
  apply app_inj_1 in E as [Ei En]; [|congruence]. injection En as En.
  destruct k1 as [[i1] n1], k2 as [[i2] n2]; cbn in *.
  by rewrite (chars_inj _ _ Ei), (chars_inj _ _ En).
Qed.

Lemma text_key_prefix i k :
  valid_instance i -> valid_key k ->
  chars (instance_id_str i +:+ "::") `prefix_of` chars (text_key k) <-> k.1 = i.
Proof.
  intros H1 [H2 _]. rewrite text_key_chars, chars_app.
  destruct (valid_instance_text _ H1) as [L1 _], (valid_instance_text _ H2) as [L2 _]. split.
  - intros [rest E]. rewrite <- app_assoc in E. apply app_inj_1 in E as [Ei _]; [|congruence].
    destruct k as [[i2] n], i as [i1]; cbn in *. by rewrite (chars_inj _ _ Ei).
  - intros <-. exists (chars k.2). by rewrite <- app_assoc.
Qed.

Lemma split_once_colons_first xs ys :
  Forall (fun c => c <> ":"%char) xs ->
  split_once_colons (xs ++ ":"%char :: ":"%char :: ys) = Some (xs, ys).
Proof.
  induction 1 as [|x xs Hx _ IH]; [done|]. cbn [app].
  destruct (xs ++ ":"%char :: ":"%char :: ys) as [|y l] eqn:E; [by destruct xs|].
  cbn [split_once_colons]. rewrite (bool_decide_eq_false_2 (x = ":"%char)) by done.
  cbn [andb]. cbn [split_once_colons] in IH. by rewrite IH.
Qed.

Lemma encode_effect_key_layout i u n :
  InstanceId_wf i u -> u <> 0 ->
  encode_effect_key (effect_id_of (i, n))
    = Some (be_bytes 16 u ++ be_bytes 2 (as_u16 (blen (as_bytes n))) ++ as_bytes n).
Proof.
  intros Hi Hu. unfold encode_effect_key.
  change (effect_id_str (effect_id_of (i, n))) with (text_key (i, n)).
  rewrite text_key_chars. cbn [fst snd app].
  destruct (valid_instance_text i ltac:(by exists u)) as [_ Ha].
  rewrite split_once_colons_first.
  2:{ eapply Forall_impl; [exact Ha|]. intros c Hc ->. done. }
  rewrite !of_chars_chars, (InstanceId_parse_wf_ok i u) by done.
  unfold encode_instance_id, InstanceId_to_bytes. by rewrite (InstanceId_to_u128_wf i u).
Qed.

Definition binary_key (k : InstanceId * string) : list Z :=
  default [] (encode_effect_key (effect_id_of k)).

Lemma encode_effect_key_valid k :
  valid_key k -> encode_effect_key (effect_id_of k) = Some (binary_key k).
Proof.
  intros [(u & Hi & Hu) _]. destruct k as [i n]. unfold binary_key.
  by rewrite (encode_effect_key_layout i u n).
Qed.

Lemma binary_key_layout i u n :
  InstanceId_wf i u -> u <> 0 ->
  binary_key (i, n) = be_bytes 16 u ++ be_bytes 2 (as_u16 (blen (as_bytes n))) ++ as_bytes n.
Proof. intros Hi Hu. unfold binary_key. by rewrite (encode_effect_key_layout i u n). Qed.

Lemma binary_key_inj k1 k2 :
  valid_key k1 -> valid_key k2 -> binary_key k1 = binary_key k2 -> k1 = k2.
Proof.
  destruct k1 as [i1 n1], k2 as [i2 n2]. intros [(u1 & W1 & Z1) _] [(u2 & W2 & Z2) _]. cbn in *.
  rewrite (binary_key_layout i1 u1), (binary_key_layout i2 u2) by done.
  intros [E1 [_ E2]%app_inj_1]%app_inj_1; [|by rewrite !be_bytes_length..].
  apply be_bytes_inj in E1; [|apply u128_range, W1|apply u128_range, W2].
  destruct W1 as [_ ->], W2 as [_ ->]. by rewrite E1, (as_bytes_inj _ _ E2).
Qed.

Lemma binary_key_prefix i k :
  valid_instance i -> valid_key k ->
  get_effect_key_prefix i `prefix_of` binary_key k <-> k.1 = i.
Proof.
  intros (u & Wi & Hu) [(v & Wk & Hv) _]. destruct k as [j n]. cbn in *.
  rewrite (binary_key_layout j v) by done.
  unfold get_effect_key_prefix, encode_instance_id, InstanceId_to_bytes.
  rewrite (InstanceId_to_u128_wf i u) by done. cbn [rbind map_err]. split.
  - intros [rest E]. apply app_inj_1 in E as [E _]; [|by rewrite !be_bytes_length].
    apply be_bytes_inj in E; [|apply u128_range, Wk|apply u128_range, Wi].
    destruct Wi as [_ ->], Wk as [_ ->]. by rewrite E.
  - intros ->. rewrite (InstanceId_wf_inj _ _ _ Wk Wi). by eexists.
Qed.
End EffectKeys.

(** ** The in-memory journal implements the contract *)

Section InMemoryImplements.
Context `{J : JsonApi} `{U : UlidApi} `{UL : !UlidLaws}.

Definition in_memory_rep (a : Contract) (m : Records) : Prop :=
  journal_wf a /\ encodes valid_key text_key id a m.

Lemma journal_wf_insert a k r :
  journal_wf a -> valid_key k -> intent_id r = k.2 -> journal_wf (<[k := r]> a).
Proof.
  intros Ha Hk Hr k2 r2. destruct (decide (k = k2)) as [->|Hne].
  - rewrite lookup_insert_eq. by intros [= <-].
  - rewrite lookup_insert_ne by done. apply Ha.
Qed.

Lemma journal_wf_filter a P `{!forall x, Decision (P x)} :
  journal_wf a -> journal_wf (base.filter P a).
Proof. intros Ha k r [Hk _]%map_lookup_filter_Some. by apply Ha. Qed.

Lemma spec_prepare_wf a i r :
  journal_wf a -> valid_key (i, intent_id r) -> journal_wf (spec_prepare a i r).2.
Proof.
  intros Ha Hk. pose proof Hk as [_ Hn]. cbn in Hn. unfold spec_prepare. rewrite Hn. cbn.
  destruct (a !! _); [done|]. by apply journal_wf_insert.
Qed.

Lemma spec_settle_wf target a k : journal_wf a -> journal_wf (spec_settle target a k).2.
Proof.
  intros Ha. unfold spec_settle. destruct (is_empty _); [done|].
  destruct (a !! k) as [r|] eqn:Hk; [|done]. destruct (is_terminal _); [done|].
  destruct (Ha k r Hk). by apply journal_wf_insert.
Qed.

(** Both implementations build the settled record the same way. *)
Lemma next_record target r k :
  target <> Prepared -> intent_id r = k.2 -> valid_key k ->
  InMemory.construct_next_record r target = Some (Ok (settled target r)).
Proof.
  intros Ht Hr [_ Hn]. unfold InMemory.construct_next_record, EffectRecord_new, settled.
  rewrite Hr, Hn. by destruct target.
Qed.

Lemma in_memory_settle target a m k :
  target <> Prepared -> in_memory_rep a m -> valid_key k ->
  exists m', InMemory.settle target m (effect_id_of k) = Some ((spec_settle target a k).1, m') /\
    in_memory_rep (spec_settle target a k).2 m'.
Proof.
  intros Ht [Ha Hm] Hk. unfold InMemory.settle, spec_settle. pose proof Hk as [_ Hn]. rewrite Hn.
  pose proof (encodes_lookup _ _ _ text_key_inj a m k Hm Hk) as Hl.
  unfold text_key in Hl. rewrite Hl.
  destruct (a !! k) as [r|] eqn:Hr; cbn; [|by exists m].
  destruct (Ha k r Hr) as [Hid _].
  unfold InMemory.validate_and_transition, InMemory.ensure_not_terminal.
  destruct (status r) eqn:Hst; cbn; [|by exists m..].
  rewrite (next_record target r k) by done. cbn. eexists. split; [done|]. split.
  - by apply journal_wf_insert.
  - apply (encodes_insert _ text_key id); [exact text_key_inj|done|done].
Qed.

#[global] Instance in_memory_implements : Implements in_memory_rep.
Proof.
  split.
  - intros a m i r [Ha Hm] Hk. pose proof Hk as [_ Hn]. cbn in Hn.
    pose proof (encodes_lookup _ _ _ text_key_inj a m _ Hm Hk) as Hl.
    unfold text_key in Hl. cbn in Hl.
    pose proof (spec_prepare_wf a i r Ha Hk) as Hwf.
    cbn. unfold InMemory.prepare, spec_prepare, EffectId_new in *. rewrite Hn in *. cbn in *.
    rewrite Hl. destruct (a !! _) as [r2|] eqn:Hr; cbn; eexists; (split; [done|]); split; [done..|].
    apply (encodes_insert _ text_key id); [exact text_key_inj|done|done].
  - intros m i r Hn. cbn. unfold InMemory.prepare, EffectId_new. by rewrite Hn.
  - intros a m k. by apply in_memory_settle.
  - intros a m k. by apply in_memory_settle.
  - intros a m i [Ha Hm] Hi. cbn [Effects.list_pending InMemory.journal].
    unfold InMemory.list_pending, spec_pending. eexists. split; [done|].
    rewrite !fmap_filter_omap, (encodes_to_list _ _ _ text_key_inj a m Hm), omap_fmap.
    erewrite (omap_ext_in _ _ (map_to_list a)); [done|].
    intros [k r] Hkr%elem_of_map_to_list. destruct (Ha k r Hkr) as [_ Hk]. unfold compose.
    cbn [fst snd]. apply decide_ext. by rewrite text_key_prefix.
  - intros a m t [Ha Hm]. cbn. unfold InMemory.compact, spec_compact.
    match goal with |- context [foldr delete m ?keys] =>
      destruct (encodes_compact _ _ _ (fun kv => removable t kv.2 = true) a m keys text_key_inj Hm)
        as [He Hlen] end.
    { rewrite !fmap_filter_omap, (encodes_to_list _ _ _ text_key_inj a m Hm), omap_fmap.
      induction (map_to_list a) as [|[k r] l IH]; [done|]. csimpl.
      case_decide; csimpl; by rewrite IH. }
    eexists. split; [by rewrite Hlen|]. split; [by apply journal_wf_filter|done].
Qed.
End InMemoryImplements.

(** ** The journal over a key space implements the contract *)

Section FjallImplements.
Context `{J : JsonApi} `{S : !SerdeApi EffectRecord} `{SL : !SerdeLaws EffectRecord}.
Context `{Zs : ZstdApi} `{ZL : !ZstdLaws} `{U : UlidApi} `{UL : !UlidLaws}.
Context `{F : FjallApi} `{FL : !FjallLaws}.

Definition record_bytes (r : EffectRecord) : list Z :=
  match encode_effect_record r with Ok v => v | Err _ => [] end.

Lemma encode_effect_record_ok r : encode_effect_record r = Ok (record_bytes r).
Proof.
  unfold record_bytes, encode_effect_record, compress.
  destruct (to_json_total r) as (s & -> & _). cbn.
  by destruct (zstd_encode_total (as_bytes s)) as (c & ->).
Qed.

Lemma decode_record_bytes r : decode_effect_record (record_bytes r) = Ok r.
Proof.
  unfold record_bytes, decode_effect_record, encode_effect_record, compress, decompress.
  destruct (to_json_total r) as (s & Hs & Hu). rewrite Hs. cbn.
  destruct (zstd_encode_total (as_bytes s)) as (c & Hc). rewrite Hc. cbn.
  rewrite (zstd_decode_encode _ _ Hc). cbn. unfold from_utf8. rewrite Hu, of_bytes_as_bytes. cbn.
  by rewrite (from_to_json _ _ Hs).
Qed.

Definition fjall_rep (a : Contract) (ks : Keyspace) : Prop :=
  journal_wf a /\ healthy ks /\ encodes valid_key binary_key record_bytes a (contents ks).

Lemma fjall_put a ks k r :
  fjall_rep a ks -> valid_key k -> intent_id r = k.2 ->
  exists ks', FjallJournal.put ks (binary_key k) (record_bytes r) = (Ok tt, ks') /\
    fjall_rep (<[k := r]> a) ks'.
Proof.
  intros (Ha & Hh & He) Hk Hr. unfold FjallJournal.put.
  destruct (ks_insert_ok ks (binary_key k) (record_bytes r) Hh) as (H1 & H2 & H3).
  destruct (ks_insert _ _ _) as [x ks']; cbn in *. subst x. eexists. split; [done|].
  split_and!; [by apply journal_wf_insert|done|]. rewrite H3.
  apply encodes_insert; [exact binary_key_inj|done|done].
Qed.

Lemma fjall_get a ks k :
  fjall_rep a ks -> valid_key k -> FjallJournal.get_impl ks (binary_key k) = Ok (a !! k).
Proof.
  intros (Ha & Hh & He) Hk. unfold FjallJournal.get_impl. rewrite ks_get_ok by done.
  rewrite (encodes_lookup _ _ _ binary_key_inj a _ k He Hk).
  destruct (a !! k); cbn; [|done]. by rewrite decode_record_bytes.
Qed.

Lemma next_timestamp_settled target r :
  FjallJournal.next_timestamp target = Ok (committed_at (settled target r)).
Proof. by destruct target. Qed.

Lemma fjall_settle target a ks k :
  target <> Prepared -> fjall_rep a ks -> valid_key k ->
  exists ks', FjallJournal.settle target ks (effect_id_of k)
                = Some ((spec_settle target a k).1, ks') /\
    fjall_rep (spec_settle target a k).2 ks'.
Proof.
  intros Ht HR Hk. unfold FjallJournal.settle, spec_settle. pose proof Hk as [_ Hn]. rewrite Hn.
  rewrite encode_effect_key_valid by done. cbn [mbind option_bind].
  rewrite (fjall_get a ks k HR Hk). destruct (a !! k) as [r|] eqn:Hr; [|by exists ks].
  destruct (is_terminal (status r)); [by exists ks|].
  destruct (proj1 HR k r Hr) as [Hid _]. destruct (fjall_put a ks k (settled target r) HR Hk Hid)
    as (ks' & Hput & HR').
  unfold EffectRecord_new. rewrite Hid, Hn, <- Hid.
  exists ks'. split; [|done]. cbn [fst]. rewrite <- Hput, (next_timestamp_settled target r).
  cbn [rbind ok_or]. change (mkEffectRecord _ _ _ _ _) with (settled target r).
  by rewrite encode_effect_record_ok.
Qed.

(** What iteration shows of the contract's entries. *)
Lemma fjall_iter a ks :
  fjall_rep a ks ->
  exists l, ks_iter ks = Ok <$> l /\
    l ≡ₚ (fun kr => (binary_key kr.1, record_bytes kr.2)) <$> map_to_list a.
Proof.
  intros (Ha & Hh & He). destruct (ks_iter_ok ks Hh) as (l & Hl & Hp). exists l. split; [done|].
  by rewrite Hp, (encodes_to_list _ _ _ binary_key_inj a _ He).
Qed.

(** A loop over the entries, as a partial map over the contract's entries. *)
Lemma fjall_loop {B} (f : result string (list Z * list Z) -> result EffectJournalError (option B))
    (g : InstanceId * string * EffectRecord -> option B) a ks :
  fjall_rep a ks ->
  (forall k r, a !! k = Some r -> f (Ok (binary_key k, record_bytes r)) = Ok (g (k, r))) ->
  exists found, collect_result f (ks_iter ks) = Ok found /\
    omap id found ≡ₚ omap g (map_to_list a).
Proof.
  intros HR Hf. destruct (fjall_iter a ks HR) as (l & -> & Hp).
  set (f' := fun x => match f x with Ok y => y | Err _ => None end).
  exists (f' <$> (Ok <$> l)). split.
  - apply collect_result_ok. intros x (y & -> & Hy)%list_elem_of_fmap. rewrite Hp in Hy.
    apply list_elem_of_fmap in Hy as ([k r] & -> & Hkr%elem_of_map_to_list).
    unfold f'. cbn [fst snd]. by rewrite (Hf k r Hkr).
  - rewrite !omap_fmap, Hp, omap_fmap. erewrite omap_ext_in; [done|].
    intros [k r] Hkr%elem_of_map_to_list. unfold f', compose. cbn [fst snd id].
    by rewrite (Hf k r Hkr).
Qed.

Lemma remove_all_ok ks keys n :
  healthy ks ->
  exists ks', FjallJournal.remove_all ks keys n = (Ok (n + Z.of_nat (length keys)), ks') /\
    healthy ks' /\ contents ks' = foldr delete (contents ks) keys.
Proof.
  revert ks n. induction keys as [|k keys IH]; intros ks n Hh; cbn [FjallJournal.remove_all].
  { exists ks. split_and!; [|done..]. cbn. by rewrite Z.add_0_r. }
  destruct (ks_remove_ok ks k Hh) as (H1 & H2 & H3).
  destruct (ks_remove ks k) as [x ks1]; cbn in *. subst x.
  destruct (IH ks1 (n + 1) H2) as (ks' & -> & H4 & H5). exists ks'. split_and!; [|done|].
  - do 2 f_equal. cbn. lia.
  - by rewrite H5, H3, foldr_delete_cons.
Qed.

Lemma fjall_list_pending a ks i :
  fjall_rep a ks -> valid_instance i ->
  exists l, FjallJournal.list_pending ks i = Ok l /\ l ≡ₚ spec_pending a i.
Proof.
  intros HR Hi. unfold FjallJournal.list_pending.
  destruct (fjall_loop (FjallJournal.pending_step (get_effect_key_prefix i))
    (fun kr => if decide (kr.1.1 = i /\ status kr.2 = Prepared) then Some kr.2 else None) a ks HR)
    as (found & -> & Hp).
  { intros k r Hkr. unfold FjallJournal.pending_step. cbn [map_err rbind fst snd].
    destruct (proj1 HR k r Hkr) as [_ Hk]. pose proof (binary_key_prefix i k Hi Hk) as Hpre.
    case_bool_decide as Hb.
    - rewrite decode_record_bytes. cbn [rbind]. f_equal. apply decide_ext. naive_solver.
    - by rewrite decide_False by naive_solver. }
  cbn [rbind]. eexists. split; [done|]. unfold spec_pending. by rewrite fmap_filter_omap.
Qed.

Lemma fjall_compact a ks t :
  fjall_rep a ks ->
  exists ks', FjallJournal.compact ks t = Some (Ok (spec_compact a t).1, ks') /\
    fjall_rep (spec_compact a t).2 ks'.
Proof.
  intros HR. pose proof HR as (Ha & Hh & He). unfold FjallJournal.compact.
  destruct (fjall_loop (FjallJournal.compact_step t)
    (fun kr => if decide (removable t kr.2 = true) then Some (binary_key kr.1) else None) a ks HR)
    as (found & -> & Hp).
  { intros k r Hkr. unfold FjallJournal.compact_step. cbn [map_err rbind fst snd].
    rewrite decode_record_bytes. cbn [rbind]. by destruct (removable t r). }
  destruct (remove_all_ok ks (omap id found) 0 Hh) as (ks' & -> & H1 & H2).
  destruct (encodes_compact _ _ _ (fun kv => removable t kv.2 = true) a (contents ks)
    (omap id found) binary_key_inj He) as [He' Hlen].
  { rewrite Hp, fmap_filter_omap. clear. induction (map_to_list a) as [|x l IH]; [done|].
    csimpl. case_decide; csimpl; by rewrite IH. }
  exists ks'. split; [by rewrite Hlen|]. split_and!; [by apply journal_wf_filter|done|].
  by rewrite H2.
Qed.

#[global] Instance fjall_implements : Implements fjall_rep.
Proof.
  split.
  - intros a ks i r HR Hk. cbn [Effects.prepare FjallJournal.journal].
    unfold FjallJournal.prepare, spec_prepare, EffectId_new.
    pose proof Hk as [_ Hn]; cbn in Hn. rewrite Hn.
    change (mkEffectId _) with (effect_id_of (i, intent_id r)).
    rewrite encode_effect_key_valid by done. cbn [mbind option_bind fst snd].
    pose proof HR as (Ha & Hh & He).
    rewrite ks_get_ok, (encodes_lookup _ _ _ binary_key_inj a _ _ He Hk) by done.
    destruct (a !! _) as [r2|]; cbn [fmap option_fmap option_map]; [by exists ks|].
    rewrite encode_effect_record_ok.
    destruct (fjall_put a ks (i, intent_id r) r HR Hk eq_refl) as (ks' & -> & ?). by exists ks'.
  - intros ks i r Hn. cbn. unfold FjallJournal.prepare, EffectId_new. by rewrite Hn.
  - intros a ks k. by apply fjall_settle.
  - intros a ks k. by apply fjall_settle.
  - intros a ks i. apply fjall_list_pending.
  - intros a ks t. apply fjall_compact.
Qed.
End FjallImplements.

(** ** Properties of the journals *)

Section JournalProperties.
Context `{J : JsonApi} `{U : UlidApi} `{UL : !UlidLaws}.

Lemma same_answer_trans_2 xs ys zs :
  Forall2 same_answer xs zs -> Forall2 same_answer ys zs -> Forall2 same_answer xs ys.
Proof.
  intros H1 H2. revert ys H2. induction H1 as [|x z xs zs Hx _ IH]; intros ys H2.
  - apply Forall2_nil_inv_r in H2 as ->. constructor.
  - apply Forall2_cons_inv_r in H2 as (y & ys' & Hy & H2 & ->). constructor; [|by apply IH].
    etrans; [done|by symmetry].
Qed.

(** C6. Both journals implement the trait's contract: started empty, on every sequence
    of calls with parsed instance identifiers neither panics, both give the contract's
    answers (errors included, listings up to order), hence the same answers, and both end
    in a state that stores exactly the contract's records, although one keys them by
    concatenated text and the other by binary keys over compressed values. *)
Theorem journals_refine_contract `{S : !SerdeApi EffectRecord} `{SL : !SerdeLaws EffectRecord}
    `{Zs : ZstdApi} `{ZL : !ZstdLaws} `{F : FjallApi} `{FL : !FjallLaws} (ks : Keyspace) ops :
  healthy ks -> contents ks = ∅ -> Forall op_valid ops ->
  exists xs ks' ys m',
    run ks ops = Some (xs, ks') /\ run InMemory.new ops = Some (ys, m') /\
    Forall2 same_answer xs (spec_run ∅ ops).1 /\ Forall2 same_answer ys (spec_run ∅ ops).1 /\
    Forall2 same_answer xs ys /\
    fjall_rep (spec_run ∅ ops).2 ks' /\ in_memory_rep (spec_run ∅ ops).2 m'.
Proof.
  intros Hh Hc Hops.
  assert (journal_wf ∅) as Hwf by (intros k r Hk; by rewrite lookup_empty in Hk).
  destruct (run_simulates fjall_rep ∅ ks ops) as (xs & ks' & H1 & H2 & H3).
  { split_and!; [done..|]. rewrite Hc. apply encodes_empty. }
  { done. }
  destruct (run_simulates in_memory_rep ∅ InMemory.new ops) as (ys & m' & H4 & H5 & H6).
  { split; [done|]. apply encodes_empty. }
  { done. }
  exists xs, ks', ys, m'. split_and!; [done..| |done|done]. by eapply same_answer_trans_2.
Qed.

(** A settled record survives every call but a compaction that removes it. *)
Lemma spec_exec_keeps a op k r :
  a !! k = Some r -> is_terminal (status r) = true ->
  (forall t, op = OpCompact t -> removable t r = false) ->
  (spec_exec a op).2 !! k = Some r.
Proof.
  intros Hk Ht Hc. destruct op as [i r2|k2|k2|i|t]; cbn -[settled].
  - unfold spec_prepare. destruct (is_empty _); [done|]. cbn.
    destruct (a !! (i, intent_id r2)) eqn:E; [done|]. rewrite lookup_insert_ne; [done|].
    intros <-. congruence.
  - unfold spec_settle. destruct (is_empty _); [done|]. destruct (a !! k2) as [r2|] eqn:E; [|done].
    destruct (is_terminal (status r2)) eqn:Ht2; [done|]. cbn. rewrite lookup_insert_ne; [done|].
    intros ->. congruence.
  - unfold spec_settle. destruct (is_empty _); [done|]. destruct (a !! k2) as [r2|] eqn:E; [|done].
    destruct (is_terminal (status r2)) eqn:Ht2; [done|]. cbn. rewrite lookup_insert_ne; [done|].
    intros ->. congruence.
  - done.
  - apply map_lookup_filter_Some. split; [done|]. cbn. rewrite (Hc t) by done. done.
Qed.

Lemma spec_settle_terminal target a k r :
  a !! k = Some r -> is_terminal (status r) = true -> is_empty k.2 = false ->
  (spec_settle target a k).1
    = Err (AlreadyTerminal (effect_id_str (effect_id_of k)) (EffectIntent_debug (status r))).
Proof. intros Hk Ht Hn. unfold spec_settle. by rewrite Hn, Hk, Ht. Qed.

(** An effect settles once, whatever journal keeps it (any implementation of the
    contract): after it is committed or rolled back, through every sequence of further
    calls that does not compact it away, every commit and rollback of it is refused with
    its status, preparing it again changes nothing, and its record stays. *)
Theorem effect_settles_once {St} `{!EffectJournal St} rep `{!Implements rep} a st k r ops :
  rep a st -> journal_wf a -> a !! k = Some r -> is_terminal (status r) = true ->
  Forall op_valid ops ->
  Forall (fun op => forall t, op = OpCompact t -> removable t r = false) ops ->
  exists xs st' a', run st ops = Some (xs, st') /\ rep a' st' /\ a' !! k = Some r /\
    forall n, ops !! n = Some (OpCommit k) \/ ops !! n = Some (OpRollback k) ->
      xs !! n = Some (AnsUnit (Err (AlreadyTerminal (effect_id_str (effect_id_of k))
                                     (EffectIntent_debug (status r))))).
Proof.
  intros HR Hwf Hk Ht Hops Hc. destruct (Hwf k r Hk) as [_ [_ Hn]]. clear Hwf.
  revert a st HR Hk Hc. induction Hops as [|op ops Hop _ IH]; intros a st HR Hk Hc.
  { exists [], st, a. split_and!; [done..|]. intros n [H|H]; by rewrite lookup_nil in H. }
  apply Forall_cons in Hc as [Hc Hcs].
  destruct (journal_exec_simulates rep a st op HR Hop) as (x & st1 & Hx & Hsame & HR1).
  destruct (IH (spec_exec a op).2 st1) as (xs & st' & a' & Hrun & HR' & Hk' & Hans);
    [done|by apply spec_exec_keeps|done|].
  exists (x :: xs), st', a'. cbn. rewrite Hx. cbn. rewrite Hrun. cbn. split_and!; [done..|].
  intros [|n]; cbn; [|apply Hans].
  intros [[= ->]|[= ->]]; cbn in Hsame;
    [pose proof (spec_settle_terminal Committed a k r Hk Ht Hn) as E
    |pose proof (spec_settle_terminal RolledBack a k r Hk Ht Hn) as E];
    destruct (spec_settle _ a k); cbn in *; subst; destruct x as [| |[]|]; cbn in Hsame; congruence.
Qed.

(** Compaction does not look at the time: a commit stamps every effect with the
    constant 100, so a compaction removes a committed effect exactly when its bound
    exceeds 100, whenever the commit happened, and it never removes a rolled-back one. *)
Theorem compaction_ignores_time target (m m' : Records) id older_than m'' n :
  InMemory.settle target m id = Some (Ok tt, m') ->
  InMemory.compact m' older_than = Some (Ok n, m'') ->
  (is_Some (m'' !! effect_id_str id) <-> target = RolledBack \/ older_than <= 100) /\
  (forall r, m' !! effect_id_str id = Some r ->
     status r = target /\ (target = Committed -> committed_at r = Some 100)).
Proof.
  unfold InMemory.settle. destruct (m !! effect_id_str id) as [r0|]; [|done].
  unfold InMemory.validate_and_transition, InMemory.ensure_not_terminal.
  destruct (status r0); [|done..].
  unfold InMemory.construct_next_record, EffectRecord_new.
  destruct target; cbn [mbind option_bind]; [done| |];
    (change (TimestampMs_parse "100") with (@Ok ParseError Z 100) ||
     idtac); cbn [rbind map_err]; (destruct (is_empty (intent_id r0)); [done|]);
    cbn [ok_or]; intros [= <-] Hc; unfold InMemory.compact in Hc;
    rewrite (delete_filtered_keys (fun kv => removable older_than kv.2 = true)) in Hc;
    injection Hc as _ <-; rewrite lookup_insert_eq; (split; [|by intros r [= <-]]).
  - split.
    + intros [r [Hr HP]%map_lookup_filter_Some]. right.
      rewrite lookup_insert_eq in Hr. injection Hr as <-. unfold removable in HP; cbn in HP.
      destruct (Z.ltb_spec 100 older_than); [done|lia].
    + intros [?|Hle]; [done|]. eexists. apply map_lookup_filter_Some.
      split; [apply lookup_insert_eq|]. unfold removable; cbn.
      destruct (Z.ltb_spec 100 older_than); [lia|done].
  - split; [by left|]. intros _. eexists. apply map_lookup_filter_Some.
    by split; [apply lookup_insert_eq|].
Qed.

(** Decoding reads as much of the intent as the length field says. *)
Lemma decode_effect_key_layout i u n :
  InstanceId_wf i u -> u <> 0 ->
  decode_effect_key (binary_key (i, n)) =
    let? s := ok_or (from_utf8 (take (Z.to_nat (as_u16 (blen (as_bytes n)))) (as_bytes n)))
                (CodecError "invalid intent_id UTF-8") in
    map_err (fun _ => CodecError "empty intent_id in decoded key") (EffectId_new i s).
Proof.
  intros Wi Hu. rewrite (binary_key_layout i u) by done. set (w := as_u16 _).
  assert (0 <= w <= blen (as_bytes n)) as Hw.
  { unfold w, blen. unfold_u. split; [by apply Z.mod_pos_bound|apply Z.mod_le; lia]. }
  unfold decode_effect_key.
  assert (blen (be_bytes 16 u ++ be_bytes 2 w ++ as_bytes n) = 18 + blen (as_bytes n)) as ->.
  { unfold blen. rewrite !length_app, !be_bytes_length. lia. }
  rewrite (proj2 (Z.ltb_ge _ _)) by lia.
  rewrite (take_app_length' (be_bytes 16 u)) by (by rewrite be_bytes_length).
  assert (drop 16 (be_bytes 16 u ++ be_bytes 2 w ++ as_bytes n) = be_bytes 2 w ++ as_bytes n) as ->
    by (apply drop_app_length'; by rewrite be_bytes_length).
  rewrite (take_app_length' (be_bytes 2 w)) by (by rewrite be_bytes_length).
  unfold decode_instance_id, blen. rewrite be_bytes_length. cbn [Z.of_nat negb Z.eqb].
  rewrite (InstanceId_from_bytes_be i u) by done. cbn [map_err rbind].
  rewrite be_bytes_id by (split; [lia|]; unfold w; unfold_u; by apply Z.mod_pos_bound).
  fold (blen (as_bytes n)). rewrite (proj2 (Z.ltb_ge _ _)) by lia.
  replace (drop 18 _) with (as_bytes n); [done|]. change 18%nat with (16 + 2)%nat.
  rewrite <- drop_drop, (drop_app_length' (be_bytes 16 u)) by (by rewrite be_bytes_length).
  by rewrite (drop_app_length' (be_bytes 2 w)) by (by rewrite be_bytes_length).
Qed.

(** The journal's binary keys: the key of an effect decodes to it as long as the
    intent fits the [u16] length field; beyond that the key is still unambiguous but no
    longer decodes to its effect. *)
Theorem journal_key_roundtrip i n :
  valid_key (i, n) -> utf8_valid (as_bytes n) = true ->
  exists key, encode_effect_key (effect_id_of (i, n)) = Some key /\
    (decode_effect_key key = Ok (effect_id_of (i, n)) <-> blen (as_bytes n) <= u16_max) /\
    (forall k, valid_key k -> encode_effect_key (effect_id_of k) = Some key -> k = (i, n)).
Proof.
  intros Hk Hutf. exists (binary_key (i, n)). split; [by apply encode_effect_key_valid|]. split.
  2:{ intros k2 Hk2. rewrite encode_effect_key_valid by done. intros [= E].
      by apply binary_key_inj. }
  pose proof Hk as [(u & Wi & Hu) Hn]. cbn in Hn. rewrite (decode_effect_key_layout i u n) by done.
  set (w := as_u16 (blen (as_bytes n))).
  destruct (Z.le_gt_cases (blen (as_bytes n)) u16_max) as [Hle|Hgt]; (split; intros H; [|]).
  - done.
  - assert (w = blen (as_bytes n)) as ->
      by (unfold w, blen in *; unfold_u; rewrite Z.mod_small; lia).
    unfold blen. rewrite Nat2Z.id, firstn_all. unfold from_utf8.
    rewrite Hutf, of_bytes_as_bytes. cbn [ok_or rbind]. unfold EffectId_new. by rewrite Hn.
  - exfalso. set (bs := take (Z.to_nat w) (as_bytes n)) in H. unfold from_utf8 in H.
    destruct (utf8_valid bs); [|done]. cbn [ok_or rbind] in H. unfold EffectId_new in H.
    destruct (is_empty (of_bytes bs)) eqn:He; [done|]. cbn [map_err] in H.
    assert ((i, of_bytes bs) = (i, n)) as [= E].
    { apply text_key_inj; [by split; [exists u|]|done|]. unfold text_key.
      unfold effect_id_of in *; cbn [fst snd effect_id_str] in *. congruence. }
    assert (length (as_bytes n) = length (chars n)) as Hl by apply length_fmap.
    apply (f_equal (fun t => length (chars t))) in E. unfold of_bytes in E.
    rewrite chars_of_chars, length_fmap in E. unfold bs in E. rewrite length_take in E.
    unfold w, blen in *. unfold_u. change (65535 + 1) with 65536 in *.
    pose proof (Z.mod_pos_bound (Z.of_nat (length (as_bytes n))) 65536). lia.
  - lia.
Qed.
End JournalProperties.

(** ** The theorems at concrete inputs *)

Module EffectsWitness.
Import ConcreteUlid MapKeyspace BitsSerde StringJson.

#[local] Existing Instance string_json.

#[local] Instance record_eq_dec : EqDecision (@EffectRecord string_json).
Proof.
  intros [] []. unfold Decision.
  decide equality; solve_decision || apply string_eq_dec.
Defined.

Definition kind_code (k : EffectKind) : nat :=
  match k with HttpCall => 0 | SqlQuery => 1 | BlobWrite => 2 end.
Definition code_kind (n : nat) : EffectKind :=
  match n with 0%nat => HttpCall | 1%nat => SqlQuery | _ => BlobWrite end.
Definition intent_code (i : EffectIntent) : nat :=
  match i with Prepared => 0 | Committed => 1 | RolledBack => 2 end.
Definition code_intent (n : nat) : EffectIntent :=
  match n with 0%nat => Prepared | 1%nat => Committed | _ => RolledBack end.

#[local] Instance record_countable : Countable (@EffectRecord string_json).
Proof.
  refine (inj_countable' (A := string * nat * string * nat * option Z)
    (fun r => (intent_id r, kind_code (kind r), params_json r : string,
               intent_code (status r), committed_at r))
    (fun '(n, k, p, i, t) => @mkEffectRecord string_json n (code_kind k) p (code_intent i) t) _).
  by intros [? [] ? [] ?].
Defined.

#[local] Existing Instances bits_serde store_zstd.

Definition record (n : string) : EffectRecord := mkEffectRecord n HttpCall "{}" Prepared None.

(** Two effects; one is committed, once, the other rolled back; a compaction. *)
Definition ops : list JournalOp :=
  [OpPrepare one (record "a"); OpPrepare one (record "b"); OpCommit (one, "a");
   OpCommit (one, "a"); OpListPending one; OpRollback (one, "b"); OpCompact 101;
   OpRollback (one, "b"); OpCommit (one, "a"); OpCommit (one, "")].

Lemma one_valid : valid_instance one.
Proof. exists 1. split; [exact one_wf|lia]. Qed.

Lemma journal_ops_valid : Forall op_valid ops.
Proof. repeat (constructor; [exact one_valid || exact Logic.I|]). constructor. Qed.

Definition name (n : string) : string := effect_id_str (effect_id_of (one, n)).

Example contract_answers :
  (spec_run ∅ ops).1 =
    [AnsId (Ok (effect_id_of (one, "a"))); AnsId (Ok (effect_id_of (one, "b")));
     AnsUnit (Ok tt); AnsUnit (Err (AlreadyTerminal (name "a") "Committed"));
     AnsList (Ok [record "b"]); AnsUnit (Ok tt); AnsCount (Ok 1);
     AnsUnit (Err (AlreadyTerminal (name "b") "RolledBack")); AnsUnit (Err (NotFound (name "a")));
     AnsUnit (Err InvalidArgument)].
Proof. reflexivity. Qed.

Lemma journals_refine_contract_witness :
  exists xs ks' ys m', run (∅ : Keyspace) ops = Some (xs, ks') /\
    run InMemory.new ops = Some (ys, m') /\ Forall2 same_answer xs ys.
Proof.
  destruct (journals_refine_contract (FL := fjall_laws) (SL := bits_serde_laws)
              (ZL := store_zstd_laws) (∅ : @Keyspace fjall_api) ops Logic.I eq_refl journal_ops_valid)
    as (xs & ks' & ys & m' & H1 & H2 & _ & _ & H5 & _).
  exists xs, ks', ys, m'. exact (conj H1 (conj H2 H5)).
Defined.

Definition committed_a : EffectRecord := settled Committed (record "a").
Definition one_committed : Contract := {[ (one, "a") := committed_a ]}.

Lemma one_committed_wf : journal_wf one_committed.
Proof.
  intros k r Hk. unfold one_committed in Hk. apply lookup_singleton_Some in Hk as [<- <-].
  split; [done|]. split; [exact one_valid|done].
Qed.

Lemma one_committed_rep : in_memory_rep one_committed {[ name "a" := committed_a ]}.
Proof.
  split; [exact one_committed_wf|].
  apply (encodes_insert _ text_key id text_key_inj ∅ ∅ (one, "a")).
  - apply encodes_empty.
  - split; [exact one_valid|done].
Qed.

Lemma effect_settles_once_witness :
  exists xs st', run ({[ name "a" := committed_a ]} : Records) [OpCompact 100; OpCommit (one, "a")]
      = Some (xs, st') /\
    xs !! 1%nat = Some (AnsUnit (Err (AlreadyTerminal (name "a") "Committed"))).
Proof.
  destruct (effect_settles_once in_memory_rep one_committed {[ name "a" := committed_a ]}
    (one, "a") committed_a [OpCompact 100; OpCommit (one, "a")]
    one_committed_rep one_committed_wf) as (xs & st' & a' & H1 & _ & _ & H2).
  - apply lookup_singleton_eq.
  - reflexivity.
  - repeat constructor. exact one_valid.
  - repeat constructor; intros t [= <-]; reflexivity.
  - exists xs, st'. split; [exact H1|]. apply (H2 1%nat). left. reflexivity.
Defined.

Definition pending_a : Records := {[ name "a" := record "a" ]}.

Lemma compaction_ignores_time_witness :
  InMemory.settle Committed pending_a (effect_id_of (one, "a"))
    = Some (Ok tt, {[ name "a" := committed_a ]}) /\
  InMemory.compact {[ name "a" := committed_a ]} 101 = Some (Ok 1, ∅) /\
  (is_Some ((∅ : Records) !! name "a") <-> Committed = RolledBack \/ 101 <= 100).
Proof.
  split; [reflexivity|]. split; [reflexivity|].
  refine (proj1 (compaction_ignores_time Committed pending_a {[ name "a" := committed_a ]}
                   (effect_id_of (one, "a")) 101 ∅ 1 _ _)); reflexivity.
Defined.

Lemma journal_key_roundtrip_witness :
  exists key, encode_effect_key (effect_id_of (one, "charge")) = Some key /\
    decode_effect_key key = Ok (effect_id_of (one, "charge")).
Proof.
  destruct (journal_key_roundtrip one "charge") as (key & H1 & H2 & _).
  - split; [exact one_valid|reflexivity].
  - reflexivity.
  - exists key. split; [exact H1|]. apply H2. vm_compute. discriminate.
Defined.
End EffectsWitness.
