(* ===== verification/EventStore.v ===== *)
(** * Event stores

    [crates/vo-storage/src/event_store/]: the trait of append-only event logs with
    optimistic concurrency, its in-memory and its [fjall] implementation, and
    [crates/vo-storage/src/hot_spot.rs], the detector that makes the latter scramble
    the keys of busy instances. The contract is a log per instance; both stores are
    shown to implement it, and what they keep is shown to be what replay accepts. *)

From S2P Require Import Prelude Identifiers KeyEncoding Keyspace Events Replay.

(** ** Data *)

(** The texts of the errors, as the parts [format!] puts together. *)
Inductive StorageReason : Type :=
| CannotConvert (instance_id : InstanceId)
| FjallText (text : string)
| FailedToScramble (e : ParseError)
| FailedToSerialize (text : string)
| FailedToCommit (text : string).

Inductive ArgumentReason : Set :=
| EmptyBatch
| NotSequential (a b : Z).

(** [enum EventStoreError]. *)
Inductive EventStoreError : Type :=
| OccConflict (instance_id : string) (expected_sequence actual_sequence : Z)
| Storage (reason : StorageReason)
| InvalidArgument (reason : ArgumentReason).

(** [trait EventStore]; an append also reads the monotonic clock, twice. *)
Class EventStore `{J : JsonApi} (St : Type) : Type := {
  es_append : Z * Z -> St -> InstanceId -> list EventEnvelope -> result EventStoreError Z * St;
  es_get_sequence : St -> InstanceId -> result EventStoreError Z;
}.

(** The loop over [events.windows(2)] of both [append]s. *)
Fixpoint check_windows `{J : JsonApi} (events : list EventEnvelope)
  : result EventStoreError unit :=
  match events with
  | a :: ((b :: _) as rest) =>
      if negb (sequence b =? wrapping_add_u64 (sequence a) 1) then
        Err (InvalidArgument (NotSequential (sequence a) (sequence b)))
      else check_windows rest
  | _ => Ok tt
  end.

(** [events.last().unwrap().sequence]. *)
Definition final_sequence `{J : JsonApi} (events : list EventEnvelope) : Z :=
  default 0 (sequence <$> last events).

(** ** [InMemoryEventStore]

    Its two maps are concurrent ones and no lock spans an [append]: the reads that
    check_append a batch and the writes that store it are two steps. *)

Module InMemoryEvents.
Section InMemoryEvents.
Context `{J : JsonApi}.

(** [struct InMemoryEventStore]. *)
Record InMemoryEventStore : Type := mkStore {
  sequences : gmap InstanceId Z;
  events : gmap InstanceId (list EventEnvelope);
}.

(** [InMemoryEventStore::new]. *)
Definition new : InMemoryEventStore := mkStore ∅ ∅.

(** [get_sequence]. *)
Definition get_sequence (st : InMemoryEventStore) (i : InstanceId) : Z :=
  default 0 (sequences st !! i).

(** [append] up to its writes: the checks, and the sequence number it will return. *)
Definition check_append (st : InMemoryEventStore) (i : InstanceId) (batch : list EventEnvelope)
  : result EventStoreError Z :=
  match batch with
  | [] => Err (InvalidArgument EmptyBatch)
  | first :: _ =>
      let expected_sequence := get_sequence st i in
      if negb (sequence first =? wrapping_add_u64 expected_sequence 1) then
        let actual_sequence := match events st !! i with
                               | Some l => final_sequence l
                               | None => 0
                               end in
        Err (OccConflict (instance_id_str i) (wrapping_add_u64 expected_sequence 1)
               actual_sequence)
      else let? _ := check_windows batch in Ok (final_sequence batch)
  end.

(** The writes of [append]. *)
Definition store_batch (st : InMemoryEventStore) (i : InstanceId) (batch : list EventEnvelope)
  : InMemoryEventStore :=
  mkStore (<[i := final_sequence batch]> (sequences st))
          (<[i := default [] (events st !! i) ++ batch]> (events st)).

(** [append], uninterrupted. *)
Definition append (st : InMemoryEventStore) (i : InstanceId) (batch : list EventEnvelope)
  : result EventStoreError Z * InMemoryEventStore :=
  match check_append st i batch with
  | Ok final => (Ok final, store_batch st i batch)
  | Err e => (Err e, st)
  end.

#[global] Instance event_store : EventStore InMemoryEventStore := {|
  es_append := fun _ => append;
  es_get_sequence := fun st i => Ok (get_sequence st i);
|}.
End InMemoryEvents.
End InMemoryEvents.

(** ** Hot spots *)

Module HotSpot.
(** [struct HotSpotConfig]. *)
Record HotSpotConfig : Set := mkConfig {
  max_events : Z;
  max_writes_per_second : Z;
  window_ms : Z;
}.

(** [struct InstanceMetrics]. *)
Record InstanceMetrics : Set := mkMetrics {
  append_count : Z;
  last_check : Z;
  window_writes : Z;
  window_start : Z;
}.

(** [struct HotSpotDetector]. *)
Record HotSpotDetector : Type := mkDetector {
  config : HotSpotConfig;
  instances : gmap InstanceId InstanceMetrics;
}.

(** [HotSpotDetector::new]. *)
Definition new (config : HotSpotConfig) : HotSpotDetector := mkDetector config ∅.

(** [Instant::now().duration_since(Instant::now() - 0ms).as_millis()]: the receiver is
    read first, and [duration_since] saturates at zero. Instants are in nanoseconds. *)
Definition now_ms (readings : Z * Z) : Z := Z.max 0 (readings.1 - readings.2) / 1000000.

(** The rest of [record_append] on the metrics of the instance. *)
Definition count_append (c : HotSpotConfig) (now : Z) (m : InstanceMetrics)
  : bool * InstanceMetrics :=
  let new_count := wrapping_add_u64 (append_count m) 1 in
  let expired := window_ms c <? Z.max 0 (now - window_start m) in
  let writes := if expired then 0 else window_writes m in
  let start := if expired then now else window_start m in
  let window_count := wrapping_add_u64 writes 1 in
  ((max_events c <=? new_count) || (max_writes_per_second c <=? window_count),
   mkMetrics new_count (last_check m) window_count start).

(** [HotSpotDetector::record_append]. *)
Definition record_append (readings : Z * Z) (d : HotSpotDetector) (i : InstanceId)
  : bool * HotSpotDetector :=
  let m := default (mkMetrics 0 0 0 0) (instances d !! i) in
  let '(hot, m') := count_append (config d) (now_ms readings) m in
  (hot, mkDetector (config d) (<[i := m']> (instances d))).

(** [HotSpotDetector::is_hot]. *)
Definition is_hot (d : HotSpotDetector) (i : InstanceId) : bool :=
  match instances d !! i with
  | Some m => max_events (config d) <=? append_count m
  | None => false
  end.

(** [HotSpotDetector::reset]. *)
Definition reset (d : HotSpotDetector) (i : InstanceId) : HotSpotDetector :=
  match instances d !! i with
  | Some m => mkDetector (config d)
                (<[i := mkMetrics 0 (last_check m) 0 (window_start m)]> (instances d))
  | None => d
  end.

(** [fnv1a_64]. *)
Definition fnv1a_64 (data : list Z) : Z :=
  fold_left (fun hash byte => as_u64 (Z.lxor hash byte * 1099511628211)) data
    14695981039346656037.

(** The [for] loop of both scramblers: the first eight bytes, xored with the hash in
    little-endian order. *)
Definition xor_hash (bytes : list Z) (hash : Z) : list Z :=
  zip_with Z.lxor (take 8 bytes) (rev (be_bytes 8 hash)) ++ drop 8 bytes.

Section Scramble.
Context `{U : UlidApi}.

(** [scramble_instance_id]; its error is the [ParseError] it wraps. *)
Definition scramble_instance_id (i : InstanceId) : result ParseError (list Z) :=
  let? id_bytes := InstanceId_to_bytes i in Ok (xor_hash id_bytes (fnv1a_64 id_bytes)).

(** [unscramble_instance_id]. *)
Definition unscramble_instance_id (scrambled : list Z) : InstanceId :=
  InstanceId_from_bytes (xor_hash scrambled (fnv1a_64 scrambled)).
End Scramble.
End HotSpot.

(** ** [FjallEventStore]

    An [append] holds the lock of its instance's stripe while it reads and writes the
    partition, so it is one step. *)

Module FjallEvents.
Section FjallEvents.
Context `{J : JsonApi} `{F : FjallApi} `{S : !SerdeApi EventEnvelope} `{U : UlidApi}.

(** [struct FjallEventStore]. *)
Record FjallEventStore : Type := mkStore {
  partition : Keyspace;
  hot_spot : option HotSpot.HotSpotDetector;
}.

(** [FjallEventStore::open_with_options], given the opened partition. *)
Definition open_with_options (ks : Keyspace) (hot_spot_config : option HotSpot.HotSpotConfig)
  : FjallEventStore := mkStore ks (HotSpot.new <$> hot_spot_config).

(** The sequence number a key holds for the instance with these bytes, if it is one of
    its keys. *)
Definition key_sequence (id_bytes key : list Z) : option Z :=
  if (length key <? 24)%nat then None
  else if negb (bool_decide (take 16 key = id_bytes)) then None
  else Some (from_be_bytes (take 8 (drop 16 key))).

(** The scan of [get_current_sequence]. *)
Fixpoint scan_sequence (id_bytes : list Z) (items : list (result string (list Z * list Z)))
    (max_seq : Z) : result EventStoreError Z :=
  match items with
  | [] => Ok max_seq
  | item :: rest =>
      let? kv := map_err (fun e => Storage (FjallText e)) item in
      match key_sequence id_bytes kv.1 with
      | Some seq => scan_sequence id_bytes rest (if max_seq <? seq then seq else max_seq)
      | None => scan_sequence id_bytes rest max_seq
      end
  end.

(** [get_current_sequence], which is [get_sequence]. *)
Definition get_current_sequence (ks : Keyspace) (i : InstanceId) : result EventStoreError Z :=
  let? id_bytes := map_err (fun _ => Storage (CannotConvert i)) (InstanceId_to_bytes i) in
  scan_sequence id_bytes (ks_iter ks) 0.

(** The key and value of an event in the batch. *)
Definition batch_item (i : InstanceId) (id_bytes : list Z) (is_hot : bool)
    (event : EventEnvelope) : result EventStoreError BatchItem :=
  let? prefix :=
    (if is_hot then map_err (fun e => Storage (FailedToScramble e))
                      (HotSpot.scramble_instance_id i)
     else Ok id_bytes) in
  let? value := map_err (fun e => Storage (FailedToSerialize e)) (to_vec event) in
  Ok (BatchInsert (prefix ++ be_bytes 8 (sequence event)) value).

(** [append] after the checks on the batch itself. *)
Definition append_checked (readings : Z * Z) (st : FjallEventStore) (i : InstanceId)
    (first_sequence : Z) (batch : list EventEnvelope) : result EventStoreError Z * FjallEventStore :=
  match map_err (fun _ => Storage (CannotConvert i)) (InstanceId_to_bytes i) with
  | Err e => (Err e, st)
  | Ok id_bytes =>
      match get_current_sequence (partition st) i with
      | Err e => (Err e, st)
      | Ok current_sequence =>
          let expected_sequence := wrapping_add_u64 current_sequence 1 in
          if negb (first_sequence =? expected_sequence) then
            (Err (OccConflict (instance_id_str i) expected_sequence current_sequence), st)
          else
            let '(is_hot, hot_spot') :=
              match hot_spot st with
              | Some d => let '(h, d') := HotSpot.record_append readings d i in (h, Some d')
              | None => (false, None)
              end in
            match collect_result (batch_item i id_bytes is_hot) batch with
            | Err e => (Err e, mkStore (partition st) hot_spot')
            | Ok items =>
                let '(r, ks') := ks_commit (partition st) items in
                (let? _ := map_err (fun e => Storage (FailedToCommit e)) r in
                 Ok (final_sequence batch),
                 mkStore ks' hot_spot')
            end
      end
  end.

(** [append]. *)
Definition append (readings : Z * Z) (st : FjallEventStore) (i : InstanceId)
    (batch : list EventEnvelope) : result EventStoreError Z * FjallEventStore :=
  match batch with
  | [] => (Err (InvalidArgument EmptyBatch), st)
  | first :: _ =>
      match check_windows batch with
      | Err e => (Err e, st)
      | Ok _ => append_checked readings st i (sequence first) batch
      end
  end.

#[global] Instance event_store : EventStore FjallEventStore := {|
  es_append := append;
  es_get_sequence := fun st i => get_current_sequence (partition st) i;
|}.
End FjallEvents.
End FjallEvents.

(** ** The contract: a log per instance *)

Section Contract.
Context `{J : JsonApi}.

Abbreviation Logs := (gmap InstanceId (list EventEnvelope)).

Definition log_of (a : Logs) (i : InstanceId) : list EventEnvelope := default [] (a !! i).

(** The events carry the sequence numbers [n], [n + 1], and so on. *)
Fixpoint numbered (n : Z) (l : list EventEnvelope) : Prop :=
  match l with [] => True | e :: l' => sequence e = n /\ numbered (n + 1) l' end.

(** The last sequence number of a log numbered from 1. *)
Definition head_of (a : Logs) (i : InstanceId) : Z := Z.of_nat (length (log_of a i)).

(** What an append may answer: a batch that continues the log is stored; otherwise
    nothing changes, and the error names a defect of the batch. *)
Inductive append_spec (a : Logs) (i : InstanceId) (batch : list EventEnvelope)
  : result EventStoreError Z -> Logs -> Prop :=
| append_stored :
    batch <> [] -> numbered (head_of a i + 1) batch ->
    append_spec a i batch (Ok (head_of a i + Z.of_nat (length batch)))
      (<[i := log_of a i ++ batch]> a)
| append_empty :
    batch = [] -> append_spec a i batch (Err (InvalidArgument EmptyBatch)) a
| append_conflict first rest :
    batch = first :: rest -> sequence first <> head_of a i + 1 ->
    append_spec a i batch
      (Err (OccConflict (instance_id_str i) (head_of a i + 1) (head_of a i))) a
| append_disordered pre x y post :
    batch = pre ++ x :: y :: post -> sequence y <> sequence x + 1 ->
    append_spec a i batch (Err (InvalidArgument (NotSequential (sequence x) (sequence y)))) a.

(** Calls and their answers; an append comes with its two clock readings. *)
Inductive StoreOp : Type :=
| OpAppend (readings : Z * Z) (i : InstanceId) (batch : list EventEnvelope)
| OpGetSequence (i : InstanceId).

Inductive spec_step (a : Logs) : StoreOp -> result EventStoreError Z -> Logs -> Prop :=
| step_append readings i batch r a' :
    append_spec a i batch r a' -> spec_step a (OpAppend readings i batch) r a'
| step_get i : spec_step a (OpGetSequence i) (Ok (head_of a i)) a.

Inductive spec_steps : Logs -> list StoreOp -> list (result EventStoreError Z) -> Logs -> Prop :=
| steps_nil a : spec_steps a [] [] a
| steps_cons a op ops r rs a1 a2 :
    spec_step a op r a1 -> spec_steps a1 ops rs a2 -> spec_steps a (op :: ops) (r :: rs) a2.

(** Running an implementation. *)
Definition es_exec {St} `{!EventStore St} (st : St) (op : StoreOp)
  : result EventStoreError Z * St :=
  match op with
  | OpAppend readings i batch => es_append readings st i batch
  | OpGetSequence i => (es_get_sequence st i, st)
  end.

Fixpoint es_run {St} `{!EventStore St} (st : St) (ops : list StoreOp)
  : list (result EventStoreError Z) * St :=
  match ops with
  | [] => ([], st)
  | op :: ops' =>
      let '(r, st1) := es_exec st op in let '(rs, st2) := es_run st1 ops' in (r :: rs, st2)
  end.

(** The instances are parsed ones, and sequence numbers leave room for a successor. *)
Context `{U : UlidApi}.

Definition event_valid (e : EventEnvelope) : Prop := 0 <= sequence e < u64_max.

Definition store_op_valid (op : StoreOp) : Prop :=
  match op with
  | OpAppend _ i batch => (exists u, InstanceId_wf i u) /\ Forall event_valid batch
  | OpGetSequence i => exists u, InstanceId_wf i u
  end.

(** Every log is non-empty, numbered from 1 and made of valid events. *)
Definition logs_wf (a : Logs) : Prop :=
  forall i l, a !! i = Some l ->
    (exists u, InstanceId_wf i u) /\ l <> [] /\ numbered 1 l /\ Forall event_valid l.

(** An implementation of the contract. *)
Class ImplementsLog {St} `{!EventStore St} (rep : Logs -> St -> Prop) : Prop := {
  log_rep_step : forall a st op,
    logs_wf a -> rep a st -> store_op_valid op ->
    exists a', spec_step a op (es_exec st op).1 a' /\ rep a' (es_exec st op).2;
}.

Lemma numbered_app n l1 l2 :
  numbered n (l1 ++ l2) <-> numbered n l1 /\ numbered (n + Z.of_nat (length l1)) l2.
Proof.
  revert n; induction l1 as [|e l1 IH]; intros n; cbn [numbered app length].
  - rewrite Z.add_0_r. tauto.
  - rewrite IH, Nat2Z.inj_succ. replace (n + 1 + Z.of_nat (length l1))
      with (n + Z.succ (Z.of_nat (length l1))) by lia. tauto.
Qed.

Lemma numbered_elem n l e :
  numbered n l -> e ∈ l -> n <= sequence e < n + Z.of_nat (length l).
Proof.
  revert n; induction l as [|x l IH]; intros n; cbn [numbered length]; [by intros _ ?%not_elem_of_nil|].
  intros [Hx Hl] [->|He]%elem_of_cons; [lia|]. specialize (IH _ Hl He). lia.
Qed.

Lemma numbered_inj n l e1 e2 :
  numbered n l -> e1 ∈ l -> e2 ∈ l -> sequence e1 = sequence e2 -> e1 = e2.
Proof.
  revert n; induction l as [|x l IH]; intros n; cbn [numbered]; [by intros _ ?%not_elem_of_nil|].
  intros [Hx Hl] [->|H1]%elem_of_cons [->|H2]%elem_of_cons; [done|..].
  - pose proof (numbered_elem _ _ _ Hl H2). lia.
  - pose proof (numbered_elem _ _ _ Hl H1). lia.
  - by apply (IH (n + 1)).
Qed.

Lemma final_sequence_numbered n l :
  numbered n l -> l <> [] -> final_sequence l = n + Z.of_nat (length l) - 1.
Proof.
  intros Hn Hl. destruct l as [|e l _] using rev_ind; [done|].
  unfold final_sequence. rewrite last_snoc, length_app. cbn.
  apply numbered_app in Hn as [_ Hn]. cbn in Hn. lia.
Qed.

(** The window loop: what it accepts and what it reports. *)
Lemma check_windows_spec batch :
  Forall event_valid batch ->
  match check_windows batch with
  | Ok _ => forall first rest, batch = first :: rest -> numbered (sequence first) batch
  | Err e => exists pre x y post, batch = pre ++ x :: y :: post /\
               sequence y <> sequence x + 1 /\
               e = InvalidArgument (NotSequential (sequence x) (sequence y))
  end.
Proof.
  induction batch as [|a rest IH]; intros Hv; [done|]. apply Forall_cons in Hv as [Ha Hv].
  destruct rest as [|b rest].
  { cbn. intros ? ? [= <- <-]. by cbn. }
  specialize (IH Hv). change (check_windows (a :: b :: rest)) with
    (if negb (sequence b =? wrapping_add_u64 (sequence a) 1) then
       Err (InvalidArgument (NotSequential (sequence a) (sequence b)))
     else check_windows (b :: rest)).
  rewrite wrapping_add_u64_small by (unfold event_valid in *; lia).
  destruct (Z.eqb_spec (sequence b) (sequence a + 1)) as [Hb|Hb]; cbn [negb].
  - destruct (check_windows (b :: rest)) as [[]|e].
    + intros ? ? [= <- <-]. specialize (IH b rest eq_refl). cbn [numbered] in *.
      rewrite Hb in IH at 2. rewrite Hb in IH. rewrite Hb. tauto.
    + destruct IH as (pre & x & y & post & E & ?). exists (a :: pre), x, y, post.
      split; [by rewrite E|done].
  - by exists [], a, b, rest.
Qed.
End Contract.

Abbreviation Logs := (gmap InstanceId (list EventEnvelope)).

(** ** Runs of an implementation *)

Section Runs.
Context `{J : JsonApi} `{U : UlidApi} {UpcastError : Type}.

Lemma head_of_range a i : logs_wf a -> 0 <= head_of a i < u64_max.
Proof.
  intros Ha. unfold head_of, log_of. destruct (a !! i) as [l|] eqn:E; cbn; [|ulia].
  destruct (Ha _ _ E) as (_ & Hne & Hn & Hv). destruct l as [|e l _] using rev_ind; [done|].
  apply numbered_app in Hn as [_ [Hs _]]. apply Forall_app in Hv as [_ Hv].
  apply Forall_cons in Hv as [Hv _]. unfold event_valid in Hv. rewrite length_app. cbn [length]. lia.
Qed.

Lemma numbered_log a i : logs_wf a -> numbered 1 (log_of a i).
Proof.
  intros Ha. unfold log_of. destruct (a !! i) eqn:E; cbn; [|done]. by destruct (Ha _ _ E) as (_ & _ & ? & _).
Qed.

Lemma log_valid a i : logs_wf a -> Forall event_valid (log_of a i).
Proof.
  intros Ha. unfold log_of. destruct (a !! i) eqn:E; cbn; [|done].
  by destruct (Ha _ _ E) as (_ & _ & _ & ?).
Qed.

Lemma spec_step_wf a op r a' :
  logs_wf a -> store_op_valid op -> spec_step a op r a' -> logs_wf a'.
Proof.
  intros Ha Hop Hs. destruct Hs as [readings i batch r a' Hs|i]; [|done]. destruct Hop as [Hi Hb].
  destruct Hs; [|done..]. intros j l. rewrite lookup_insert_Some.
  intros [[<- <-]|[_ Hl]]; [|by apply Ha]. split_and!; [done|by destruct (log_of a i)| |].
  - apply numbered_app. split; [by apply numbered_log|]. unfold head_of in *.
    by rewrite Z.add_comm.
  - apply Forall_app. split; [by apply log_valid|done].
Qed.

Lemma es_run_refines {St} `{!EventStore St} (rep : Logs -> St -> Prop) `{!ImplementsLog rep}
    a st ops :
  logs_wf a -> rep a st -> Forall store_op_valid ops ->
  exists a', spec_steps a ops (es_run st ops).1 a' /\ rep a' (es_run st ops).2 /\ logs_wf a'.
Proof.
  intros Ha Hr Hops. revert a st Ha Hr; induction Hops as [|op ops Hop _ IH]; intros a st Ha Hr.
  { exists a. split_and!; [constructor|done..]. }
  destruct (log_rep_step a st op Ha Hr Hop) as (a1 & Hs & Hr1). cbn [es_run].
  destruct (es_exec st op) as [r st1] eqn:E. cbn in Hs, Hr1.
  destruct (IH a1 st1) as (a2 & Hss & Hr2 & Ha2); [by eapply spec_step_wf|done|].
  destruct (es_run st1 ops) as [rs st2]. cbn in *. exists a2. split_and!; [by econstructor|done..].
Qed.

(** Sequence numbers and instances of a well-formed log pass the checks of replay. *)
Lemma check_sequences_numbered k n l :
  0 <= n -> Forall event_valid l -> numbered (n + 1) l ->
  check_sequences (UpcastError := UpcastError) k n l = Ok tt.
Proof.
  intros Hn Hv. revert k n Hn; induction Hv as [|e l He _ IH]; intros k n Hn; cbn; [done|].
  intros [Hs Hl]. unfold event_valid in He. rewrite wrapping_add_u64_small by lia.
  destruct (Z.eqb_spec (sequence e) n); [lia|]. rewrite (proj2 (Z.eqb_eq _ _) Hs). cbn [negb].
  apply IH; [lia|]. by rewrite Hs.
Qed.

Lemma check_sequences_numbers k s l :
  Forall event_valid (s :: l) ->
  check_sequences (UpcastError := UpcastError) k (sequence s) l = Ok tt ->
  numbered (sequence s + 1) l.
Proof.
  revert k s; induction l as [|e l IH]; intros k s [Hs Hv]%Forall_cons; cbn; [done|].
  unfold event_valid in Hs. rewrite wrapping_add_u64_small by lia.
  destruct (sequence e =? sequence s); [done|].
  destruct (Z.eqb_spec (sequence e) (sequence s + 1)) as [He|]; cbn [negb]; [|done].
  intros H. split; [done|]. rewrite <- He. by apply (IH (k + 1)).
Qed.

Lemma replay_ok_numbered l r :
  replay (UpcastError := UpcastError) l = Ok r -> Forall event_valid l -> exists n, numbered n l.
Proof.
  unfold replay. destruct l as [|first rest]; [by exists 1|]. intros H Hv. inv_ok.
  exists (sequence first). split; [done|].
  repeat match goal with x : unit |- _ => destruct x end. by eapply check_sequences_numbers.
Qed.

Lemma replay_numbered l name :
  Forall event_valid l -> numbered 1 l -> Forall (fun e => instance_id e = name) l ->
  replay (UpcastError := UpcastError) l = replay_loop None 0 None l.
Proof.
  destruct l as [|first rest]; [done|]. intros [He Hv]%Forall_cons [Hs Hn] [Hi Hl]%Forall_cons.
  unfold replay. replace (check_instances _ _) with (Ok (E := ReplayError (UpcastError := UpcastError)) tt).
  - rewrite check_sequences_numbered; [done|unfold event_valid in He; lia|done|by rewrite Hs].
  - symmetry. apply try_for_each_ok. rewrite Forall_forall in Hl |- *. intros e Hin.
    rewrite bool_decide_true; [done|]. by rewrite (Hl e Hin).
Qed.
End Runs.

(** ** The in-memory store implements the contract *)

Section InMemoryLog.
Context `{J : JsonApi} `{U : UlidApi}.
Import InMemoryEvents.

(** The events map is the contract's state, the sequences are the lengths. *)
Definition in_memory_log (a : Logs) (st : InMemoryEventStore) : Prop :=
  events st = a /\ forall i, get_sequence st i = head_of a i.

Lemma admit_spec a st i batch :
  logs_wf a -> in_memory_log a st -> Forall event_valid batch ->
  match check_append st i batch with
  | Ok final => batch <> [] /\ numbered (head_of a i + 1) batch /\
                final = head_of a i + Z.of_nat (length batch)
  | Err e => append_spec a i batch (Err e) a
  end.
Proof.
  intros Ha [He Hs] Hv. pose proof (head_of_range a i Ha) as Hr.
  destruct batch as [|first rest]; cbn [check_append]; [by apply append_empty|].
  rewrite Hs, wrapping_add_u64_small by lia.
  destruct (Z.eqb_spec (sequence first) (head_of a i + 1)) as [Hf|Hf]; cbn [negb].
  - pose proof (check_windows_spec _ Hv) as Hw.
    destruct (check_windows (first :: rest)) as [[]|e]; cbn [rbind].
    + specialize (Hw _ _ eq_refl). rewrite Hf in Hw. split_and!; [done..|].
      rewrite (final_sequence_numbered _ _ Hw) by done. lia.
    + destruct Hw as (pre & x & y & post & E & Hne & ->). by eapply append_disordered.
  - assert (match events st !! i with Some l => final_sequence l | None => 0 end = head_of a i)
      as ->; [|by eapply append_conflict].
    rewrite He. unfold head_of, log_of. destruct (a !! i) as [l|] eqn:E; cbn; [|done].
    destruct (Ha _ _ E) as (_ & Hne & Hn & _). rewrite (final_sequence_numbered 1 l) by done. lia.
Qed.

#[global] Instance in_memory_implements_log : ImplementsLog in_memory_log.
Proof.
  split. intros a st [readings i batch|i] Ha Hrep Hop; cbn -[append].
  - destruct Hop as [Hi Hv]. pose proof (admit_spec a st i batch Ha Hrep Hv) as H.
    unfold append. destruct (check_append st i batch) as [final|e]; cbn [fst snd].
    + destruct H as (Hne & Hn & ->). eexists. split; [by constructor; apply append_stored|].
      destruct Hrep as [He Hs]. split; cbn [store_batch events].
      * rewrite He. done.
      * intros j. unfold get_sequence, head_of, log_of. cbn [sequences store_batch].
        destruct (decide (i = j)) as [<-|Hij].
        { rewrite !lookup_insert_eq. cbn. rewrite (final_sequence_numbered _ _ Hn Hne).
          rewrite length_app. unfold head_of, log_of. lia. }
        rewrite !lookup_insert_ne by done. apply Hs.
    + exists a. split; [by constructor|done].
  - destruct Hrep as [He Hs]. exists a. split; [|done]. rewrite Hs. constructor.
Qed.

Lemma in_memory_log_new : in_memory_log ∅ new.
Proof. split; [done|]. intros i. unfold get_sequence, head_of, log_of. cbn. by rewrite !lookup_empty. Qed.
End InMemoryLog.

(** ** The [fjall] store implements the contract, as long as it detects no hot spots *)

Section FjallLog.
Context `{J : JsonApi} `{F : FjallApi} `{FL : !FjallLaws} `{S : !SerdeApi EventEnvelope}.
Context `{SL : !SerdeLaws EventEnvelope} `{U : UlidApi} `{UL : !UlidLaws}.
Import FjallEvents.

(** The key of a sequence number of the instance with number [u]. *)
Definition event_key (u s : Z) : list Z := be_bytes 16 u ++ be_bytes 8 s.

Definition fjall_log (a : Logs) (st : FjallEventStore) : Prop :=
  hot_spot st = None /\ healthy (partition st) /\
  forall k v, contents (partition st) !! k = Some v <->
    exists i u e, InstanceId_wf i u /\ e ∈ log_of a i /\ k = event_key u (sequence e) /\
      v = vec_of e.

Lemma key_sequence_prefix b b' s :
  length b' = 16%nat -> 0 <= s <= u64_max ->
  key_sequence b (b' ++ be_bytes 8 s) = if bool_decide (b' = b) then Some s else None.
Proof.
  intros Hb Hs. unfold key_sequence. rewrite length_app, be_bytes_length, Hb. cbn [Nat.ltb].
  change (Nat.ltb (16 + 8) 24) with false. cbn match.
  rewrite (take_app_length' b') by done. destruct (bool_decide (b' = b)); cbn [negb]; [|done].
  rewrite (drop_app_length' b') by done. rewrite take_ge by (rewrite be_bytes_length; lia).
  rewrite be_bytes_id; [done|]. cbn. ulia.
Qed.

Lemma u128_inj u u' :
  0 <= u <= u128_max -> 0 <= u' <= u128_max -> be_bytes 16 u = be_bytes 16 u' -> u = u'.
Proof. intros H1 H2. apply be_bytes_inj; unfold u128_max in *; cbn; lia. Qed.

(** The scan finds the largest sequence number among the instance's keys. *)
Lemma scan_sequence_spec b (l : list (list Z * list Z)) m :
  exists r, scan_sequence b (Ok <$> l) m = Ok r /\ m <= r /\
    (r = m \/ exists kv, kv ∈ l /\ key_sequence b kv.1 = Some r) /\
    forall kv s, kv ∈ l -> key_sequence b kv.1 = Some s -> s <= r.
Proof.
  revert m; induction l as [|kv l IH]; intros m; cbn [fmap list_fmap scan_sequence map_err rbind].
  { exists m. split_and!; [done|lia|by left|by intros ? ? ?%not_elem_of_nil]. }
  destruct (key_sequence b kv.1) as [s|] eqn:E.
  - destruct (IH (if m <? s then s else m)) as (r & Hr & Hge & Hat & Hub).
    exists r. split_and!; [done|destruct (Z.ltb_spec m s); lia| |].
    + destruct Hat as [->|(kv' & Hin & Hs)]; [|right; exists kv'; set_solver].
      destruct (Z.ltb_spec m s); [right; exists kv; set_solver|by left].
    + intros kv' s' [->|Hin]%elem_of_cons Hs'; [|by eapply Hub].
      rewrite E in Hs'. injection Hs' as <-. destruct (Z.ltb_spec m s); lia.
  - destruct (IH m) as (r & Hr & Hge & Hat & Hub). exists r. split_and!; [done|done| |].
    + destruct Hat as [->|(kv' & Hin & Hs)]; [by left|right; exists kv'; set_solver].
    + intros kv' s' [->|Hin]%elem_of_cons Hs'; [congruence|by eapply Hub].
Qed.

Lemma current_sequence_spec ks i u :
  healthy ks -> InstanceId_wf i u ->
  exists r, get_current_sequence ks i = Ok r /\ 0 <= r /\
    (r = 0 \/ exists k v, contents ks !! k = Some v /\ key_sequence (be_bytes 16 u) k = Some r) /\
    forall k v s, contents ks !! k = Some v -> key_sequence (be_bytes 16 u) k = Some s -> s <= r.
Proof.
  intros Hh Hi. unfold get_current_sequence, InstanceId_to_bytes.
  rewrite (InstanceId_to_u128_wf _ _ Hi). cbn [rbind map_err].
  destruct (ks_iter_ok ks Hh) as (l & -> & Hl).
  destruct (scan_sequence_spec (be_bytes 16 u) l 0) as (r & Hr & Hge & Hat & Hub).
  exists r. split_and!; [done..| |].
  - destruct Hat as [?|([k v] & Hin & Hs)]; [by left|right]. exists k, v. split; [|done].
    apply elem_of_map_to_list. by rewrite <- Hl.
  - intros k v s Hk. apply (Hub (k, v)). rewrite Hl. by apply elem_of_map_to_list.
Qed.

Lemma log_event a i e : logs_wf a -> e ∈ log_of a i -> 1 <= sequence e <= u64_max.
Proof.
  intros Ha He. pose proof (numbered_elem _ _ _ (numbered_log a i Ha) He) as Hr.
  pose proof (head_of_range a i Ha) as Hh. unfold head_of in Hh. lia.
Qed.

Lemma log_last a i :
  logs_wf a -> head_of a i = 0 \/ exists e, e ∈ log_of a i /\ sequence e = head_of a i.
Proof.
  intros Ha. pose proof (numbered_log a i Ha) as Hn. unfold head_of.
  destruct (log_of a i) as [|e l _] using rev_ind; [by left|right]. exists e.
  apply numbered_app in Hn as [_ [Hs _]]. rewrite length_app. cbn [length]. split; [set_solver|lia].
Qed.

Lemma fjall_head a st i u :
  logs_wf a -> fjall_log a st -> InstanceId_wf i u ->
  get_current_sequence (partition st) i = Ok (head_of a i).
Proof.
  intros Ha (_ & Hh & Hc) Hi.
  destruct (current_sequence_spec _ _ _ Hh Hi) as (r & -> & Hge & Hat & Hub). f_equal.
  assert (forall s k v, contents (partition st) !! k = Some v ->
            key_sequence (be_bytes 16 u) k = Some s -> exists e, e ∈ log_of a i /\ sequence e = s)
    as Hown.
  { intros s k v (j & w & e & Hj & He & -> & _)%Hc. pose proof (log_event _ _ _ Ha He).
    unfold event_key. rewrite key_sequence_prefix by (rewrite ?be_bytes_length; done || lia).
    case_bool_decide as E; [|done]. intros [= <-]. exists e. split; [|done].
    assert (w = u) as -> by (apply u128_inj; [apply Hj|apply Hi|done]).
    by rewrite (proj2 Hi), <- (proj2 Hj). }
  assert (forall e, e ∈ log_of a i -> sequence e <= r) as Hup.
  { intros e He. pose proof (log_event _ _ _ Ha He).
    apply (Hub (event_key u (sequence e)) (vec_of e)); [apply Hc; by exists i, u, e|].
    unfold event_key. rewrite key_sequence_prefix by (rewrite ?be_bytes_length; done || lia).
    by rewrite bool_decide_true. }
  apply Z.le_antisymm.
  - destruct Hat as [->|(k & v & Hk & Hs)]; [unfold head_of; lia|].
    destruct (Hown _ _ _ Hk Hs) as (e & He & <-).
    pose proof (numbered_elem _ _ _ (numbered_log a i Ha) He). unfold head_of. lia.
  - destruct (log_last a i Ha) as [->|(e & He & <-)]; [done|by apply Hup].
Qed.

(** The bytes before the sequence number in the keys of a batch. *)
Definition key_prefix (u : Z) (is_hot : bool) : list Z :=
  if is_hot then HotSpot.xor_hash (be_bytes 16 u) (HotSpot.fnv1a_64 (be_bytes 16 u))
  else be_bytes 16 u.

Definition batch_inserts (u : Z) (is_hot : bool) (batch : list EventEnvelope) : list BatchItem :=
  (fun e => BatchInsert (key_prefix u is_hot ++ be_bytes 8 (sequence e)) (vec_of e)) <$> batch.

Lemma batch_items_ok i u is_hot batch :
  InstanceId_wf i u ->
  collect_result (batch_item i (be_bytes 16 u) is_hot) batch = Ok (batch_inserts u is_hot batch).
Proof.
  intros Hi. apply collect_result_ok. intros e _.
  unfold batch_item, HotSpot.scramble_instance_id, InstanceId_to_bytes.
  rewrite (InstanceId_to_u128_wf _ _ Hi). destruct is_hot; cbn [rbind map_err];
    by rewrite to_vec_ok.
Qed.

(** Does an append at these clock readings find the instance hot? *)
Definition found_hot (readings : Z * Z) (st : FjallEventStore) (i : InstanceId) : bool :=
  match hot_spot st with Some d => (HotSpot.record_append readings d i).1 | None => false end.

(** An append that continues what the store takes for the log. *)
Lemma append_accepts readings st i u c batch :
  healthy (partition st) -> InstanceId_wf i u -> get_current_sequence (partition st) i = Ok c ->
  batch <> [] -> Forall event_valid batch -> numbered (c + 1) batch ->
  exists ks' hs', append readings st i batch = (Ok (c + Z.of_nat (length batch)), mkStore ks' hs') /\
    (hot_spot st = None -> hs' = None) /\ healthy ks' /\
    contents ks' = fold_left apply_item (batch_inserts u (found_hot readings st i) batch)
                     (contents (partition st)).
Proof.
  intros Hh Hi Hg Hne Hv Hn. destruct (current_sequence_spec _ _ _ Hh Hi) as (r & Hr & Hr0 & _).
  rewrite Hg in Hr. injection Hr as <-. unfold append, append_checked, InstanceId_to_bytes.
  destruct batch as [|first rest]; [done|]. pose proof Hn as [Hf _].
  assert (check_windows (first :: rest) = Ok tt) as ->.
  { pose proof (check_windows_spec _ Hv) as Hw.
    destruct (check_windows (first :: rest)) as [[]|e]; [done|].
    destruct Hw as (pre & x & y & post & E & Hd & _). rewrite E in Hn.
    apply numbered_app in Hn as [_ (? & ? & _)]. lia. }
  rewrite (InstanceId_to_u128_wf _ _ Hi), Hg. cbn [rbind map_err].
  pose proof (Forall_inv Hv) as Hvf. unfold event_valid in Hvf.
  rewrite wrapping_add_u64_small, Hf, Z.eqb_refl by lia. cbn [negb].
  set (found := match hot_spot st with
                | Some d => let '(h, d') := HotSpot.record_append readings d i in (h, Some d')
                | None => (false, None)
                end).
  assert (found.1 = found_hot readings st i) as Hfound
    by (unfold found, found_hot; destruct (hot_spot st); [by destruct (HotSpot.record_append _ _ _)|done]).
  destruct found as [is_hot hs'] eqn:Ef. cbn [fst] in Hfound. subst is_hot.
  rewrite (batch_items_ok _ _ _ _ Hi).
  destruct (ks_commit_ok (partition st) (batch_inserts u (found_hot readings st i) (first :: rest)) Hh)
    as (Hok & Hh' & Hcon).
  destruct (ks_commit _ _) as [r ks']. cbn [fst snd] in *. rewrite Hok. cbn [map_err rbind].
  exists ks', hs'. split_and!; [|intros Hs; unfold found in Ef; rewrite Hs in Ef; congruence|done..].
  rewrite (final_sequence_numbered _ _ Hn) by done. do 2 f_equal. lia.
Qed.

(** An append that does not: the conflict names what the store takes for the log. *)
Lemma append_conflicts readings st i u c first rest :
  healthy (partition st) -> InstanceId_wf i u -> get_current_sequence (partition st) i = Ok c ->
  c < u64_max -> check_windows (first :: rest) = Ok tt -> sequence first <> c + 1 ->
  append readings st i (first :: rest) = (Err (OccConflict (instance_id_str i) (c + 1) c), st).
Proof.
  intros Hh Hi Hg Hc Hw Hf. destruct (current_sequence_spec _ _ _ Hh Hi) as (r & Hr & Hr0 & _).
  rewrite Hg in Hr. injection Hr as <-. unfold append, append_checked, InstanceId_to_bytes.
  rewrite Hw, (InstanceId_to_u128_wf _ _ Hi), Hg. cbn [rbind map_err].
  rewrite wrapping_add_u64_small by lia. by rewrite (proj2 (Z.eqb_neq _ _) Hf).
Qed.

(** The keys of a valid batch are distinct. *)
Lemma batch_keys b n batch :
  Forall event_valid batch -> numbered n batch ->
  forall x y, x ∈ batch -> y ∈ batch ->
    b ++ be_bytes 8 (sequence x) = b ++ be_bytes 8 (sequence y) -> vec_of x = vec_of y.
Proof.
  rewrite Forall_forall. intros Hv Hn x y Hx Hy E. apply app_inv_head, be_bytes_inj in E;
    [|pose proof (Hv _ Hx); unfold event_valid in *; cbn; ulia
     |pose proof (Hv _ Hy); unfold event_valid in *; cbn; ulia].
  by rewrite (numbered_inj _ _ _ _ Hn Hx Hy E).
Qed.
Lemma event_key_inj u u' s s' :
  0 <= u <= u128_max -> 0 <= u' <= u128_max -> 0 <= s <= u64_max -> 0 <= s' <= u64_max ->
  event_key u s = event_key u' s' -> u = u' /\ s = s'.
Proof.
  intros Hu Hu' Hs Hs' E. unfold event_key in E.
  apply app_inj_1 in E as [E1 E2]; [|by rewrite !be_bytes_length].
  split; [by apply u128_inj|]. apply (be_bytes_inj 8); [cbn; ulia..|done].
Qed.

(** Storing a batch that continues the log. *)
Lemma fjall_log_store a st i u batch ks' :
  logs_wf a -> fjall_log a st -> InstanceId_wf i u -> Forall event_valid batch ->
  numbered (head_of a i + 1) batch -> healthy ks' ->
  contents ks' = fold_left apply_item
    ((fun e => BatchInsert (event_key u (sequence e)) (vec_of e)) <$> batch)
    (contents (partition st)) ->
  fjall_log (<[i := log_of a i ++ batch]> a) (mkStore ks' None).
Proof.
  intros Ha (_ & Hh & Hc) Hi Hv Hn Hh' Hk'. split_and!; [done..|]. cbn [partition].
  intros k v. rewrite Hk', lookup_batch_inserts
    by (intros x y Hx Hy; by apply (batch_keys _ _ _ Hv Hn)).
  unfold log_of at 1. split.
  - intros [(x & Hx & -> & ->)|[_ (j & w & e & Hj & He & -> & ->)%Hc]].
    + exists i, u, x. rewrite lookup_insert_eq. cbn. set_solver.
    + exists j, w, e. destruct (decide (i = j)) as [<-|Hij].
      * rewrite lookup_insert_eq. cbn. set_solver.
      * by rewrite lookup_insert_ne.
  - intros (j & w & e & Hj & He & -> & ->). destruct (decide (i = j)) as [<-|Hij].
    + rewrite lookup_insert_eq in He. cbn in He. rewrite <- (InstanceId_wf_inj _ _ _ Hi Hj).
      apply elem_of_app in He as [He|He]; [right|left; by exists e].
      split; [|apply Hc; by exists i, u, e]. intros x Hx E.
      pose proof (log_event _ _ _ Ha He). rewrite Forall_forall in Hv. pose proof (Hv x Hx) as Hvx.
      apply event_key_inj in E as [_ E]; [|apply Hi|apply Hi|unfold event_valid in *; lia|lia].
      pose proof (numbered_elem _ _ _ (numbered_log a i Ha) He).
      pose proof (numbered_elem _ _ _ Hn Hx). unfold head_of in *. lia.
    + rewrite lookup_insert_ne in He by done. right. split; [|apply Hc; by exists j, w, e].
      intros x Hx E. pose proof (log_event _ _ _ Ha He). rewrite Forall_forall in Hv.
      pose proof (Hv x Hx) as Hvx.
      apply event_key_inj in E as [E _]; [|apply Hi|apply Hj|unfold event_valid in *; lia|lia].
      apply Hij. by rewrite (proj2 Hi), (proj2 Hj), E.
Qed.

Lemma fjall_append_spec readings a st i u batch :
  logs_wf a -> fjall_log a st -> InstanceId_wf i u -> Forall event_valid batch ->
  exists a', append_spec a i batch (append readings st i batch).1 a' /\
    fjall_log a' (append readings st i batch).2.
Proof.
  intros Ha Hrep Hi Hv. pose proof (head_of_range a i Ha) as Hr.
  destruct batch as [|first rest]; [exists a; split; [by apply append_empty|done]|].
  pose proof (check_windows_spec _ Hv) as Hw.
  destruct (check_windows (first :: rest)) as [[]|e] eqn:Ecw.
  2: { unfold append. rewrite Ecw. destruct Hw as (pre & x & y & post & E & Hne & ->).
       exists a. split; [by eapply append_disordered|done]. }
  specialize (Hw _ _ eq_refl). pose proof (fjall_head a st i u Ha Hrep Hi) as Hg.
  pose proof Hrep as (Hhot & Hh & Hc).
  destruct (decide (sequence first = head_of a i + 1)) as [Hf|Hf].
  2: { exists a. erewrite append_conflicts by (done || lia).
       split; [by eapply append_conflict|done]. }
  rewrite Hf in Hw.
  destruct (append_accepts readings st i u _ (first :: rest) Hh Hi Hg ltac:(done) Hv Hw)
    as (ks' & hs' & E & Hhs & Hh' & Hcon).
  rewrite E, (Hhs Hhot). eexists. split; [by apply append_stored|].
  eapply fjall_log_store; try done. unfold found_hot in Hcon. by rewrite Hhot in Hcon.
Qed.

#[global] Instance fjall_implements_log : ImplementsLog fjall_log.
Proof.
  split. intros a st [readings i batch|i] Ha Hrep Hop; cbn [es_exec es_append es_get_sequence].
  - destruct Hop as [[u Hi] Hv].
    destruct (fjall_append_spec readings a st i u batch Ha Hrep Hi Hv) as (a' & Hs & Hr).
    exists a'. split; [by constructor|done].
  - destruct Hop as [u Hi]. exists a. cbn [fst snd event_store es_get_sequence].
    rewrite (fjall_head a st i u Ha Hrep Hi). split; [constructor|done].
Qed.

Lemma fjall_log_open ks :
  healthy ks -> contents ks = ∅ -> fjall_log ∅ (open_with_options ks None).
Proof.
  intros Hh Hc. split_and!; [done..|]. cbn [partition open_with_options]. rewrite Hc.
  intros k v. rewrite lookup_empty. split; [done|]. intros (i & u & e & _ & He & _).
  unfold log_of in He. rewrite lookup_empty in He. by apply not_elem_of_nil in He.
Qed.
End FjallLog.

(** ** Properties of the stores *)

Section StoreProperties.
Context `{J : JsonApi} `{F : FjallApi} `{FL : !FjallLaws} `{S : !SerdeApi EventEnvelope}.
Context `{SL : !SerdeLaws EventEnvelope} `{U : UlidApi} `{UL : !UlidLaws}.

(** Two stores agree on an answer: the same number, or an error each. *)
Definition agree (r1 r2 : result EventStoreError Z) : Prop :=
  match r1, r2 with Ok x, Ok y => x = y | Err _, Err _ => True | _, _ => False end.

Lemma disordered_not_numbered n pre x y post :
  sequence y <> sequence x + 1 -> ~ numbered n (pre ++ x :: y :: post).
Proof. intros Hne [_ (Hx & Hy & _)]%numbered_app. lia. Qed.

(** The two outcomes: stored when the batch continues the log, refused otherwise. *)
Lemma append_spec_inv a i batch r a' :
  append_spec a i batch r a' ->
  (batch <> [] /\ numbered (head_of a i + 1) batch /\
   r = Ok (head_of a i + Z.of_nat (length batch)) /\ a' = <[i := log_of a i ++ batch]> a) \/
  (~ (batch <> [] /\ numbered (head_of a i + 1) batch) /\ (exists e, r = Err e) /\ a' = a).
Proof.
  destruct 1 as [Hne Hn| -> |first rest -> Hf|pre x y post -> Hd]; [by left|right..].
  - split_and!; [by intros []|by eexists|done].
  - split_and!; [by intros (_ & ? & _)|by eexists|done].
  - split_and!; [intros [_ Hn]; by apply disordered_not_numbered in Hn|by eexists|done].
Qed.

Lemma append_spec_det a i batch r1 r2 a1 a2 :
  append_spec a i batch r1 a1 -> append_spec a i batch r2 a2 -> agree r1 r2 /\ a1 = a2.
Proof.
  intros [(? & ? & -> & ->)|(? & [? ->] & ->)]%append_spec_inv
    [(? & ? & -> & ->)|(? & [? ->] & ->)]%append_spec_inv; cbn; done || tauto.
Qed.

Lemma spec_step_det a op r1 r2 a1 a2 :
  spec_step a op r1 a1 -> spec_step a op r2 a2 -> agree r1 r2 /\ a1 = a2.
Proof.
  destruct 1 as [readings i batch r a' H|i]; inversion 1; subst; [by eapply append_spec_det|done].
Qed.

Lemma spec_steps_det a ops rs1 rs2 a1 a2 :
  spec_steps a ops rs1 a1 -> spec_steps a ops rs2 a2 -> Forall2 agree rs1 rs2 /\ a1 = a2.
Proof.
  intros H1. revert rs2 a2; induction H1 as [a|a op ops r rs a1 a' Hs _ IH]; intros rs2 a2 H2;
    inversion H2 as [|? ? ? r2 rs2' b1 ? Hs2 Hss2]; subst; [done|].
  destruct (spec_step_det _ _ _ _ _ _ Hs Hs2) as [Ha <-].
  destruct (IH _ _ Hss2) as [Hf ->]. split; [by constructor|done].
Qed.

(** C5. Both event stores implement a log per instance: on every sequence of appends and
    queries, each answers as the contract allows (a batch is stored exactly when it
    continues the instance's log without a gap, and the error otherwise names a defect of
    the batch), they end with the same logs, and they agree on every answer up to which
    of two defects an error names. *)
Theorem event_stores_refine_logs ks ops :
  healthy ks -> contents ks = ∅ -> Forall store_op_valid ops ->
  exists a,
    spec_steps ∅ ops (es_run InMemoryEvents.new ops).1 a /\
    spec_steps ∅ ops (es_run (FjallEvents.open_with_options ks None) ops).1 a /\
    Forall2 agree (es_run InMemoryEvents.new ops).1
      (es_run (FjallEvents.open_with_options ks None) ops).1 /\
    in_memory_log a (es_run InMemoryEvents.new ops).2 /\
    fjall_log a (es_run (FjallEvents.open_with_options ks None) ops).2.
Proof.
  intros Hh Hc Hops. assert (logs_wf ∅) as He by (intros i l; by rewrite lookup_empty).
  destruct (es_run_refines in_memory_log ∅ InMemoryEvents.new ops He in_memory_log_new Hops)
    as (a & H1 & R1 & _).
  destruct (es_run_refines fjall_log ∅ _ ops He (fjall_log_open ks Hh Hc) Hops)
    as (a2 & H2 & R2 & _).
  destruct (spec_steps_det _ _ _ _ _ _ H1 H2) as [Ha <-]. by exists a.
Qed.

(** The envelopes of an append carry the name of its instance. *)
Definition own_name (op : StoreOp) : Prop :=
  match op with
  | OpAppend _ i batch => Forall (fun e => instance_id e = instance_id_str i) batch
  | OpGetSequence _ => True
  end.

Lemma spec_steps_keep (P : Logs -> Prop) (Q : StoreOp -> Prop) a ops rs a' :
  (forall a op r a', P a -> Q op -> spec_step a op r a' -> P a') ->
  P a -> Forall Q ops -> spec_steps a ops rs a' -> P a'.
Proof.
  intros Hstep HP HQ Hs. revert HP HQ; induction Hs; intros HP HQ; [done|].
  apply Forall_cons in HQ as [Hq HQ]. eauto.
Qed.

Definition logs_named (a : Logs) : Prop :=
  forall i, Forall (fun e => instance_id e = instance_id_str i) (log_of a i).

Lemma names_step a op r a' :
  logs_named a -> own_name op -> spec_step a op r a' -> logs_named a'.
Proof.
  intros Ha Hop Hs. destruct Hs as [readings i batch r a' Hs|i]; [|done].
  destruct Hs; [|done..]. intros j. unfold log_of at 1. destruct (decide (i = j)) as [<-|Hij].
  - rewrite lookup_insert_eq. cbn. apply Forall_app. by split.
  - rewrite lookup_insert_ne by done. apply Ha.
Qed.

(** The events of the appends to an instance that were answered with [Ok], in order. *)
Fixpoint acknowledged (i : InstanceId) (ops : list StoreOp)
    (answers : list (result EventStoreError Z)) : list EventEnvelope :=
  match ops, answers with
  | OpAppend _ j batch :: ops', Ok _ :: answers' =>
      (if decide (j = i) then batch else []) ++ acknowledged i ops' answers'
  | _ :: ops', _ :: answers' => acknowledged i ops' answers'
  | _, _ => []
  end.

Lemma log_acknowledged a ops rs a' i :
  spec_steps a ops rs a' -> log_of a' i = log_of a i ++ acknowledged i ops rs.
Proof.
  induction 1 as [a|a op ops r rs a1 a2 Hs _ IH]; [by rewrite app_nil_r|]. rewrite IH.
  destruct Hs as [readings j batch r a1 Hs|j]; [|done].
  destruct Hs; [|done..]. cbn [acknowledged]. rewrite app_assoc. f_equal.
  unfold log_of. case_decide as E; subst.
  - by rewrite lookup_insert_eq.
  - by rewrite lookup_insert_ne, app_nil_r.
Qed.

Lemma fjall_log_lookup a st i u s v :
  logs_wf a -> fjall_log a st -> InstanceId_wf i u -> 0 <= s <= u64_max ->
  contents (FjallEvents.partition st) !! event_key u s = Some v <->
  exists e, e ∈ log_of a i /\ sequence e = s /\ v = vec_of e.
Proof.
  intros Ha (_ & _ & Hc) Hi Hs. rewrite Hc. split.
  - intros (j & w & e & Hj & He & E & ->). pose proof (log_event _ _ _ Ha He).
    apply event_key_inj in E as [-> ->]; [|apply Hi|apply Hj|lia|lia].
    exists e. split_and!; [|done..]. by rewrite (proj2 Hi), <- (proj2 Hj).
  - intros (e & He & <- & ->). by exists i, u, e.
Qed.

(** C15. What the stores keep is what they acknowledged, and replay accepts it. After any
    sequence of appends and queries of parsed instances, both stores started empty: the log
    of an instance in the in-memory store is exactly the events of the appends to it that
    were answered with [Ok], in order; the [fjall] store acknowledged the same events and
    holds each under its instance's key and its sequence number, and nothing else under the
    keys of the instance; they are numbered 1, 2, 3, ...; and, when the appends carry their
    own instance's name, replaying the log passes the instance and sequence checks: the
    outcome is that of the loop that decodes and applies the events. *)
Theorem stored_logs_replay {UpcastError : Type} ks ops i u :
  healthy ks -> contents ks = ∅ -> Forall store_op_valid ops -> Forall own_name ops ->
  InstanceId_wf i u ->
  let memory := es_run InMemoryEvents.new ops in
  let disk := es_run (FjallEvents.open_with_options ks None) ops in
  let log := acknowledged i ops memory.1 in
  default [] (InMemoryEvents.events memory.2 !! i) = log /\
  acknowledged i ops disk.1 = log /\
  (forall s v, 0 <= s <= u64_max ->
     contents (FjallEvents.partition disk.2) !! event_key u s = Some v <->
     exists e, e ∈ log /\ sequence e = s /\ v = vec_of e) /\
  numbered 1 log /\
  replay (UpcastError := UpcastError) log = replay_loop None 0 None log.
Proof.
  intros Hh Hc Hv Hn Hi memory disk log.
  assert (logs_wf ∅) as He by (intros j l; by rewrite lookup_empty).
  assert (logs_named ∅) as N0 by (intros j; unfold log_of; by rewrite lookup_empty).
  destruct (es_run_refines in_memory_log ∅ InMemoryEvents.new ops He in_memory_log_new Hv)
    as (a & H1 & [R1 _] & Wf).
  destruct (es_run_refines fjall_log ∅ _ ops He (fjall_log_open ks Hh Hc) Hv) as (a2 & H2 & R2 & _).
  destruct (spec_steps_det _ _ _ _ _ _ H1 H2) as [_ <-].
  pose proof (spec_steps_keep _ _ _ _ _ _ names_step N0 Hn H1) as Hnamed.
  assert (log_of a i = log) as Hlog by (by rewrite (log_acknowledged _ _ _ _ i H1)).
  split_and!.
  - unfold memory. by rewrite R1, <- Hlog.
  - rewrite <- Hlog. symmetry. apply (log_acknowledged _ _ _ _ i H2).
  - intros s v Hs. rewrite <- Hlog. by apply fjall_log_lookup.
  - rewrite <- Hlog. by apply numbered_log.
  - rewrite <- Hlog. apply (replay_numbered _ (instance_id_str i)); [by apply log_valid|by apply numbered_log|].
    apply Hnamed.
Qed.

(** The in-memory store admits a batch and stores it in two steps, and two appends
    can interleave: when two batches were both admitted in the same state, both calls
    succeed, and the log then repeats sequence numbers, so that replay rejects it. *)
Theorem in_memory_append_race {UpcastError : Type} a st i b1 b2 f1 f2 :
  logs_wf a -> in_memory_log a st -> Forall event_valid b1 -> Forall event_valid b2 ->
  InMemoryEvents.check_append st i b1 = Ok f1 -> InMemoryEvents.check_append st i b2 = Ok f2 ->
  let st' := InMemoryEvents.store_batch (InMemoryEvents.store_batch st i b1) i b2 in
  InMemoryEvents.events st' !! i = Some (log_of a i ++ b1 ++ b2) /\
  InMemoryEvents.get_sequence st' i = f2 /\
  ~ numbered 1 (log_of a i ++ b1 ++ b2) /\
  exists x, replay (UpcastError := UpcastError) (log_of a i ++ b1 ++ b2) = Err x.
Proof.
  intros Ha Hrep Hv1 Hv2 H1 H2.
  pose proof (admit_spec a st i b1 Ha Hrep Hv1) as S1. rewrite H1 in S1.
  pose proof (admit_spec a st i b2 Ha Hrep Hv2) as S2. rewrite H2 in S2.
  destruct S1 as (Hne1 & Hn1 & ->), S2 as (Hne2 & Hn2 & ->), Hrep as [He Hs]. cbv zeta.
  assert (forall m, ~ numbered m (log_of a i ++ b1 ++ b2)) as Hno.
  { intros m [_ [Hb1 Hb2]%numbered_app]%numbered_app.
    destruct b1 as [|x b1]; [done|]. destruct b2 as [|y b2]; [done|].
    destruct Hn1 as [Hx _], Hn2 as [Hy _], Hb1 as [Hx' _], Hb2 as [Hy' _].
    cbn [length] in Hy'. lia. }
  split_and!; [| |apply Hno|].
  - cbn [InMemoryEvents.events InMemoryEvents.store_batch].
    rewrite lookup_insert_eq, lookup_insert_eq, He. cbn [default]. by rewrite app_assoc.
  - unfold InMemoryEvents.get_sequence. cbn. rewrite lookup_insert_eq. cbn.
    rewrite (final_sequence_numbered _ _ Hn2) by done. lia.
  - destruct (replay _) as [r|x] eqn:E; [|by exists x]. apply replay_ok_numbered in E as [m Hm].
    + by destruct (Hno m).
    + apply Forall_app. split; [by apply log_valid|by apply Forall_app].
Qed.
End StoreProperties.

(** ** Scrambled keys *)

Section Scrambling.
Import HotSpot.

Lemma zip_lxor_zero (xs ys : list Z) :
  length xs = length ys -> zip_with Z.lxor xs ys = xs -> Forall (fun y => y = 0) ys.
Proof.
  revert ys; induction xs as [|x xs IH]; intros [|y ys] Hl H; try done.
  injection Hl as Hl. injection H as Hx H. constructor; [|by apply IH].
  apply (f_equal (Z.lxor x)) in Hx. by rewrite Z.lxor_nilpotent, <- Z.lxor_assoc,
    Z.lxor_nilpotent, Z.lxor_0_l in Hx.
Qed.

Lemma zip_lxor_twice (xs ys zs : list Z) :
  length xs = length ys -> length ys = length zs ->
  zip_with Z.lxor (zip_with Z.lxor xs ys) zs = xs <-> ys = zs.
Proof.
  revert ys zs; induction xs as [|x xs IH]; intros [|y ys] [|z zs] Hy Hz; try done.
  injection Hy as Hy. injection Hz as Hz. cbn [zip_with]. split.
  - intros [= Hx H]. f_equal; [|by apply IH].
    rewrite Z.lxor_assoc in Hx. apply (f_equal (Z.lxor x)) in Hx.
    rewrite Z.lxor_nilpotent, <- Z.lxor_assoc, Z.lxor_nilpotent, Z.lxor_0_l in Hx.
    by apply Z.lxor_eq in Hx.
  - intros [= -> ->]. f_equal; [|by apply IH]. by rewrite Z.lxor_assoc, Z.lxor_nilpotent, Z.lxor_0_r.
Qed.

Lemma hash_bytes_length h : length (rev (be_bytes 8 h)) = 8%nat.
Proof. by rewrite length_rev, be_bytes_length. Qed.

Lemma xor_hash_id bytes h :
  length bytes = 16%nat -> is_u64 h -> xor_hash bytes h = bytes -> h = 0.
Proof.
  intros Hl Hh H. unfold xor_hash in H. rewrite <- (take_drop 8 bytes) in H at 3.
  apply app_inv_tail, zip_lxor_zero in H; [|rewrite length_take, hash_bytes_length; lia].
  rewrite <- (be_bytes_id 8 h) by (cbn; ulia).
  assert (be_bytes 8 h = replicate 8 0) as ->; [|done].
  symmetry. apply replicate_as_Forall. split; [apply be_bytes_length|].
  rewrite Forall_forall in H |- *. intros b Hb. symmetry. apply H.
  by apply list_elem_of_In, in_rev; rewrite rev_involutive; apply list_elem_of_In.
Qed.

Lemma xor_hash_twice bytes h h' :
  length bytes = 16%nat -> is_u64 h -> is_u64 h' ->
  xor_hash (xor_hash bytes h) h' = bytes <-> h = h'.
Proof.
  intros Hl Hh Hh'. unfold xor_hash.
  assert (length (zip_with Z.lxor (take 8 bytes) (rev (be_bytes 8 h))) = 8%nat) as H8
    by (rewrite length_zip_with, length_take, hash_bytes_length; lia).
  rewrite take_app_length', drop_app_length' by done.
  rewrite <- (take_drop 8 bytes) at 3. split.
  - intros E%app_inv_tail. apply zip_lxor_twice in E;
      [|rewrite length_take, hash_bytes_length; lia|by rewrite !hash_bytes_length].
    apply (f_equal (@rev Z)) in E. rewrite !rev_involutive in E.
    apply (be_bytes_inj 8); [cbn; ulia..|done].
  - intros ->. f_equal. apply zip_lxor_twice; [rewrite length_take, hash_bytes_length; lia|done..].
Qed.

Lemma fnv1a_64_range bytes : is_u64 (fnv1a_64 bytes).
Proof.
  unfold fnv1a_64. destruct bytes as [|b bytes _] using rev_ind; [cbn; ulia|].
  rewrite fold_left_app. cbn [fold_left]. unfold as_u64, is_u64.
  pose proof (Z.mod_pos_bound (Z.lxor (fold_left (fun hash byte =>
    as_u64 (Z.lxor hash byte * 1099511628211)) bytes 14695981039346656037) b * 1099511628211)
    (u64_max + 1) ltac:(done)). unfold as_u64 in *. lia.
Qed.
End Scrambling.

Section HotSpotProperties.
Context `{J : JsonApi} `{F : FjallApi} `{FL : !FjallLaws} `{S : !SerdeApi EventEnvelope}.
Context `{SL : !SerdeLaws EventEnvelope} `{U : UlidApi} `{UL : !UlidLaws}.
Import FjallEvents.

(** The documented inverse: unscrambling hashes the scrambled bytes, not the original
    ones, so it gives the instance back exactly when the two hashes are the same. *)
Lemma unscramble_scramble_iff i u scrambled :
  InstanceId_wf i u -> HotSpot.scramble_instance_id i = Ok scrambled ->
  let hashed := HotSpot.xor_hash scrambled (HotSpot.fnv1a_64 scrambled) in
  hashed = be_bytes 16 u <-> HotSpot.fnv1a_64 (be_bytes 16 u) = HotSpot.fnv1a_64 scrambled.
Proof.
  intros Hi H. unfold HotSpot.scramble_instance_id, InstanceId_to_bytes in H.
  rewrite (InstanceId_to_u128_wf _ _ Hi) in H. cbn [rbind] in H. injection H as <-. cbv zeta.
  apply xor_hash_twice; [apply be_bytes_length|apply fnv1a_64_range..].
Qed.

(** Keys of other prefixes do not count. *)
Lemma current_sequence_ext ks ks' i u :
  healthy ks -> healthy ks' -> InstanceId_wf i u ->
  (forall k, is_Some (key_sequence (be_bytes 16 u) k) -> contents ks' !! k = contents ks !! k) ->
  get_current_sequence ks' i = get_current_sequence ks i.
Proof.
  intros Hh Hh' Hi Hk.
  destruct (current_sequence_spec _ _ _ Hh Hi) as (r & -> & H0 & Hat & Hub).
  destruct (current_sequence_spec _ _ _ Hh' Hi) as (r' & -> & H0' & Hat' & Hub').
  f_equal. apply Z.le_antisymm.
  - destruct Hat' as [->|(k & v & Hc & Hs)]; [done|]. rewrite Hk in Hc by (by rewrite Hs).
    by eapply Hub.
  - destruct Hat as [->|(k & v & Hc & Hs)]; [done|]. rewrite <- Hk in Hc by (by rewrite Hs).
    by eapply Hub'.
Qed.

Lemma key_prefix_length u h : length (key_prefix u h) = 16%nat.
Proof.
  destruct h; cbn [key_prefix]; [|apply be_bytes_length]. unfold HotSpot.xor_hash.
  rewrite length_app, length_zip_with, length_take, length_drop, hash_bytes_length, be_bytes_length.
  lia.
Qed.

(** Hot instances lose their place. When an append is found hot, its events are stored
    under scrambled keys that [get_sequence] does not look for: the append succeeds and the
    instance's sequence number stays where it was. From then on the batch that continues
    the log is refused with a conflict, and the same batch is accepted once more. *)
Theorem hot_append_lost readings readings' st i u c batch next rest :
  healthy (partition st) -> InstanceId_wf i u -> HotSpot.fnv1a_64 (be_bytes 16 u) <> 0 ->
  get_current_sequence (partition st) i = Ok c -> found_hot readings st i = true ->
  batch <> [] -> Forall event_valid (batch ++ next :: rest) ->
  numbered (c + 1) (batch ++ next :: rest) ->
  let st' := (append readings st i batch).2 in
  (append readings st i batch).1 = Ok (c + Z.of_nat (length batch)) /\
  get_current_sequence (partition st') i = Ok c /\
  (append readings' st' i (next :: rest)).1 = Err (OccConflict (instance_id_str i) (c + 1) c) /\
  (append readings' st' i batch).1 = Ok (c + Z.of_nat (length batch)).
Proof.
  intros Hh Hi Hfnv Hg Hhot Hne [Hv Hv2]%Forall_app [Hn Hn2]%numbered_app.
  destruct (append_accepts readings st i u c batch Hh Hi Hg Hne Hv Hn)
    as (ks' & hs' & -> & _ & Hh' & Hc). cbn [fst snd].
  assert (get_current_sequence ks' i = Ok c) as Hg'.
  { rewrite <- Hg. eapply current_sequence_ext; [done..|]. intros k [s Hs]. rewrite Hc, Hhot.
    apply lookup_batch_other. intros e He <-. rewrite Forall_forall in Hv.
    pose proof (Hv e He) as Hve. unfold event_valid in Hve.
    rewrite key_sequence_prefix in Hs by (apply key_prefix_length || lia).
    case_bool_decide as E; [|done]. apply Hfnv. cbn [key_prefix] in E.
    by apply xor_hash_id in E; [|apply be_bytes_length|apply fnv1a_64_range]. }
  split_and!; [done|done| |].
  - assert (c < u64_max) as Hcm.
    { destruct batch as [|e batch]; [done|]. apply Forall_cons in Hv as [Hv _].
      destruct Hn as [Hn _]. unfold event_valid in Hv. lia. }
    erewrite append_conflicts; [done|done..| |].
    + pose proof (check_windows_spec _ Hv2) as Hw.
      destruct (check_windows (next :: rest)) as [[]|e]; [done|].
      destruct Hw as (pre & x & y & post & E & Hd & _). rewrite E in Hn2.
      by apply disordered_not_numbered in Hn2.
    + destruct Hn2 as [Hx _], batch; [done|]. cbn [length] in Hx. lia.
  - destruct (append_accepts readings' (mkStore ks' hs') i u c batch Hh' Hi Hg' Hne Hv Hn)
      as (ks2 & hs2 & -> & _). done.
Qed.

(** A history of appends seen by a detector. *)
Definition record_all (d : HotSpot.HotSpotDetector) (calls : list ((Z * Z) * InstanceId))
  : HotSpot.HotSpotDetector :=
  fold_left (fun d call => (HotSpot.record_append call.1 d call.2).2) calls d.

Definition appends_of (i : InstanceId) (calls : list ((Z * Z) * InstanceId)) : Z :=
  Z.of_nat (length (base.filter (fun call => call.2 = i) calls)).

(** The second reading of the clock is not before the first. *)
Definition monotone (call : (Z * Z) * InstanceId) : Prop := call.1.1 <= call.1.2.

Lemma record_all_metrics c calls i :
  0 <= HotSpot.window_ms c -> Forall monotone calls -> appends_of i calls <= u64_max ->
  HotSpot.config (record_all (HotSpot.new c) calls) = c /\
  default (HotSpot.mkMetrics 0 0 0 0) (HotSpot.instances (record_all (HotSpot.new c) calls) !! i)
  = HotSpot.mkMetrics (appends_of i calls) 0 (appends_of i calls) 0.
Proof.
  intros Hw Hm. induction calls as [|[rd j] calls IH] using rev_ind; intros Hn.
  { split; [done|]. cbn. by rewrite lookup_empty. }
  apply Forall_app in Hm as [Hm Hlast]. apply Forall_cons in Hlast as [Hlast _].
  unfold monotone in Hlast. cbn in Hlast.
  assert (appends_of i (calls ++ [(rd, j)])
          = appends_of i calls + if decide (j = i) then 1 else 0) as Ea.
  { unfold appends_of. rewrite filter_app, length_app, filter_cons, filter_nil. cbn [snd].
    destruct (decide (j = i)); cbn [length]; lia. }
  assert (0 <= appends_of i calls) as H0 by (unfold appends_of; lia).
  destruct IH as [Hc IH]; [done|destruct (decide (j = i)); lia|].
  unfold record_all in *. rewrite fold_left_app. cbn [fold_left fst snd].
  set (d := fold_left _ calls _) in *. unfold HotSpot.record_append.
  rewrite Hc. destruct (HotSpot.count_append _ _ _) as [h m'] eqn:E. cbn [snd HotSpot.config
    HotSpot.instances]. split; [done|]. rewrite Ea. destruct (decide (j = i)) as [->|Hji].
  - rewrite lookup_insert_eq. cbn [default]. rewrite IH in E. unfold HotSpot.count_append in E.
    cbn [HotSpot.append_count HotSpot.window_writes HotSpot.window_start HotSpot.last_check] in E.
    assert (HotSpot.now_ms rd = 0) as Hnow by (unfold HotSpot.now_ms; rewrite Z.max_l by lia; done).
    rewrite Hnow in E. destruct (Z.ltb_spec (HotSpot.window_ms c) (Z.max 0 (0 - 0))); [lia|].
    rewrite wrapping_add_u64_small in E by lia. by injection E as <- <-.
  - rewrite lookup_insert_ne, Z.add_0_r by done. done.
Qed.

(** The write rate is not a rate: both clock readings are taken in the same call, so
    the window never ends, and an instance is found hot exactly from its
    [min(max_events, max_writes_per_second)]-th append on, however far apart they are. *)
Theorem hot_by_lifetime_count c calls readings i :
  0 <= HotSpot.window_ms c -> Forall monotone calls -> readings.1 <= readings.2 ->
  appends_of i calls < u64_max ->
  (HotSpot.record_append readings (record_all (HotSpot.new c) calls) i).1 = true <->
  Z.min (HotSpot.max_events c) (HotSpot.max_writes_per_second c) <= appends_of i calls + 1.
Proof.
  intros Hw Hm Hr Hn. destruct (record_all_metrics c calls i Hw Hm ltac:(lia)) as [Hc Hi].
  assert (0 <= appends_of i calls) as H0 by (unfold appends_of; lia).
  unfold HotSpot.record_append. rewrite Hc, Hi. unfold HotSpot.count_append.
  cbn [HotSpot.append_count HotSpot.window_writes HotSpot.window_start HotSpot.last_check fst].
  assert (HotSpot.now_ms readings = 0) as -> by (unfold HotSpot.now_ms; rewrite Z.max_l by lia; done).
  destruct (Z.ltb_spec (HotSpot.window_ms c) (Z.max 0 (0 - 0))); [lia|].
  rewrite wrapping_add_u64_small, orb_true_iff, !Z.leb_le by lia. lia.
Qed.
End HotSpotProperties.

(** ** Concrete stores *)

Module EventStoreWitness.
Import ConcreteUlid MapKeyspace BitsSerde StringJson.
#[local] Existing Instances string_json.

#[local] Instance envelope_eq_dec : EqDecision (@EventEnvelope string_json).
Proof.
  intros [] []. unfold Decision.
  decide equality; solve_decision || apply string_eq_dec || apply Z.eq_dec.
Defined.

#[local] Instance envelope_countable : Countable (@EventEnvelope string_json).
Proof.
  refine (inj_countable' (A := Z * string * Z * Z * string)
    (fun e => (schema_version e, instance_id e, sequence e, timestamp_ms e, payload e : string))
    (fun '(v, i, s, t, p) => @mkEnvelope string_json v i s t p) _).
  by intros [].
Defined.

#[local] Existing Instances bits_serde.

(** Event [n] of the instance with number 1. *)
Definition ev (n : Z) : EventEnvelope := mkEnvelope 1 (instance_id_str one) n 0 "{}".

Definition ops : list StoreOp :=
  [OpAppend (0, 0) one [ev 1; ev 2]; OpAppend (0, 0) one [ev 2]; OpAppend (0, 0) one [ev 3];
   OpAppend (0, 0) one [ev 5; ev 7]; OpAppend (0, 0) one []; OpGetSequence one].

Lemma store_ops_valid : Forall store_op_valid ops.
Proof.
  repeat (constructor; [cbn; unfold event_valid; cbn;
    try split; (by exists 1; apply one_wf) || (repeat constructor; cbn; lia)|]). constructor.
Qed.

Example in_memory_answers :
  (es_run InMemoryEvents.new ops).1 =
    [Ok 2; Err (OccConflict (instance_id_str one) 3 2); Ok 3;
     Err (OccConflict (instance_id_str one) 4 3); Err (InvalidArgument EmptyBatch); Ok 3].
Proof. reflexivity. Qed.

(** The other store checks the batch first: it names the other defect. *)
Example fjall_answers :
  (es_run (FjallEvents.open_with_options (∅ : Keyspace) None) ops).1 =
    [Ok 2; Err (OccConflict (instance_id_str one) 3 2); Ok 3;
     Err (InvalidArgument (NotSequential 5 7)); Err (InvalidArgument EmptyBatch); Ok 3].
Proof. vm_compute. reflexivity. Qed.

Lemma event_stores_refine_logs_witness :
  Forall2 agree (es_run InMemoryEvents.new ops).1
    (es_run (FjallEvents.open_with_options (∅ : Keyspace) None) ops).1.
Proof.
  destruct (event_stores_refine_logs (FL := fjall_laws) (SL := bits_serde_laws)
              (∅ : @Keyspace fjall_api) ops Logic.I eq_refl store_ops_valid) as (a & _ & _ & H & _).
  exact H.
Defined.

Lemma stored_logs_replay_witness :
  acknowledged one ops (es_run InMemoryEvents.new ops).1 = [ev 1; ev 2; ev 3] /\
  replay (UpcastError := unit) (acknowledged one ops (es_run InMemoryEvents.new ops).1)
  = replay_loop None 0 None (acknowledged one ops (es_run InMemoryEvents.new ops).1).
Proof.
  split; [reflexivity|].
  assert (Forall own_name ops) as Hn by (repeat constructor).
  exact (proj2 (proj2 (proj2 (proj2 (stored_logs_replay (FL := fjall_laws) (SL := bits_serde_laws)
    (UpcastError := unit) (∅ : @Keyspace fjall_api) ops one 1 Logic.I eq_refl store_ops_valid Hn one_wf))))).
Defined.

Lemma no_logs_wf : logs_wf (∅ : Logs).
Proof. intros i l. by rewrite lookup_empty. Qed.

(** Two writers append at the same time; both succeed. *)
Lemma in_memory_append_race_witness :
  exists x, replay (UpcastError := unit) [ev 1; ev 1; ev 2] = Err x.
Proof.
  assert (Forall event_valid [ev 1] /\ Forall event_valid [ev 1; ev 2]) as [H1 H2]
    by (unfold event_valid; repeat constructor; cbn; lia).
  exact (proj2 (proj2 (proj2 (in_memory_append_race (UpcastError := unit) ∅ InMemoryEvents.new one
    [ev 1] [ev 1; ev 2] 1 2 no_logs_wf in_memory_log_new H1 H2 eq_refl eq_refl)))).
Defined.

(** A detector that finds the first append hot. *)
Definition busy : FjallEvents.FjallEventStore :=
  FjallEvents.open_with_options (∅ : Keyspace) (Some (HotSpot.mkConfig 1 500 1000)).

Lemma hot_append_lost_witness :
  let st' := (FjallEvents.append (0, 0) busy one [ev 1]).2 in
  (FjallEvents.append (0, 0) busy one [ev 1]).1 = Ok 1 /\
  (FjallEvents.append (0, 0) st' one [ev 2]).1 = Err (OccConflict (instance_id_str one) 1 0).
Proof.
  assert (Forall event_valid ([ev 1] ++ [ev 2])) as Hv
    by (unfold event_valid; repeat constructor; cbn; lia).
  destruct (hot_append_lost (FL := fjall_laws) (SL := bits_serde_laws) (0, 0) (0, 0) busy one 1 0
    [ev 1] (ev 2) [] Logic.I one_wf ltac:(vm_compute; done) ltac:(vm_compute; done)
    ltac:(vm_compute; done) ltac:(done) Hv ltac:(cbn; lia)) as (H1 & _ & H3 & _).
  exact (conj H1 H3).
Defined.

(** Unscrambling does not give the instance back. *)
Example unscramble_differs :
  (let? s := HotSpot.scramble_instance_id one in Ok (HotSpot.unscramble_instance_id s)) <> Ok one.
Proof. vm_compute. discriminate. Qed.

(** With a limit of two writes per second, two writes a year apart are hot. *)
Lemma hot_by_lifetime_count_witness :
  (HotSpot.record_append (31536000000000000, 31536000000000000)
     (record_all (HotSpot.new (HotSpot.mkConfig 10000 2 1000)) [((0, 0), one)]) one).1 = true.
Proof.
  apply (hot_by_lifetime_count (HotSpot.mkConfig 10000 2 1000) [((0, 0), one)]).
  - cbn; lia.
  - constructor; [unfold monotone; cbn; lia|constructor].
  - cbn; lia.
  - vm_compute. reflexivity.
  - vm_compute. discriminate.
Defined.
End EventStoreWitness.
