(* ===== verification/InstanceIndex.v ===== *)
(** * The instance index

    [crates/vo-types/src/instance_status.rs], the errors of
    [crates/vo-storage/src/codec.rs] and [crates/vo-storage/src/instance_index/mod.rs]: one
    entry per instance, under a key that starts with its status so that a prefix scan lists
    the instances of a status by the time they were created. *)

From S2P Require Import Prelude Identifiers KeyEncoding Keyspace Database.
From Stdlib Require Import Sorted.

(** [enum StorageError] of [codec.rs]. *)
Inductive StorageError : Set :=
| CorruptKey | OtherError | BatchCommitFailed | ScanFailed | InstanceRunning
| InvalidInstanceId (e : ParseError)
| SequenceGap | CorruptEventPayload | UnsupportedVersion | StorageFailed | InvalidArgument
| SerializationFailed | DeserializationFailed | FjallError | InvalidKey | ChecksumMismatch
| KeyNotFound | KeyDestroyed.

(** ** [InstanceStatus] *)

Module InstanceStatus.
Inductive InstanceStatus : Set := Pending | Running | Paused | Completed | Failed | Cancelled.

#[global] Instance InstanceStatus_eq_dec : EqDecision InstanceStatus.
Proof. solve_decision. Defined.

(** [InstanceStatus::to_byte]. *)
Definition to_byte (s : InstanceStatus) : Z :=
  match s with
  | Pending => 1 | Running => 2 | Paused => 3 | Completed => 4 | Failed => 5 | Cancelled => 6
  end.

(** [InstanceStatus::from_byte]. *)
Definition from_byte (byte : Z) : option InstanceStatus :=
  match byte with
  | 1 => Some Pending | 2 => Some Running | 3 => Some Paused | 4 => Some Completed
  | 5 => Some Failed | 6 => Some Cancelled | _ => None
  end.

Lemma from_to_byte s : from_byte (to_byte s) = Some s.
Proof. by destruct s. Qed.

Lemma to_byte_inj s s' : to_byte s = to_byte s' -> s = s'.
Proof. by destruct s, s'. Qed.
End InstanceStatus.
Abbreviation InstanceStatus := InstanceStatus.InstanceStatus.

(** ** Keys and operations *)

(** [struct InstanceIndexEntry]; a [TimestampMs] is its [u64]. *)
Record InstanceIndexEntry : Set := mkIndexEntry {
  index_instance : InstanceId;
  index_status : InstanceStatus;
  index_created_at : Z;
}.

Section InstanceIndex.
Context `{U : UlidApi} `{F : FjallApi} `{D : !DatabaseApi}.

(** [InstanceId::to_bytes], with its error replaced. *)
Definition id_bytes_or (err : StorageError) (i : InstanceId) : result StorageError (list Z) :=
  map_err (fun _ => err) (InstanceId_to_bytes i).

(** [encode_instance_index_key]. *)
Definition encode_instance_index_key (status : InstanceStatus) (created_at : Z) (i : InstanceId)
  : result StorageError (list Z) :=
  let? id_bytes := id_bytes_or CorruptKey i in
  Ok (InstanceStatus.to_byte status :: be_bytes 8 created_at ++ id_bytes).

(** [decode_instance_index_key]. *)
Definition decode_instance_index_key (bytes : list Z) : result StorageError InstanceIndexEntry :=
  match bytes with
  | status_byte :: rest =>
      if negb (blen bytes =? 25) then Err CorruptKey
      else
        let? status := ok_or (InstanceStatus.from_byte status_byte) CorruptKey in
        Ok (mkIndexEntry (InstanceId_from_bytes (drop 8 rest)) status
              (from_be_bytes (take 8 rest)))
  | [] => Err CorruptKey
  end.

(** The partition of the index. *)
Definition INSTANCES_PARTITION : string := "instances".

(** [atomic_status_transition]. *)
Definition atomic_status_transition (db : Database) (old_key new_key : list Z)
  : result StorageError unit * Database :=
  let r := db_commit db [(INSTANCES_PARTITION, BatchRemove old_key);
                         (INSTANCES_PARTITION, BatchInsert new_key [])] in
  (map_err (fun _ => StorageFailed) r.1, r.2).

(** [instance_index_upsert]. *)
Definition instance_index_upsert (db : Database) (i : InstanceId) (status : InstanceStatus)
    (created_at : Z) (previous_status : option InstanceStatus)
  : result StorageError unit * Database :=
  match db_keyspace db INSTANCES_PARTITION with
  | Err _ => (Err StorageFailed, db)
  | Ok _ =>
      match encode_instance_index_key status created_at i with
      | Err e => (Err e, db)
      | Ok new_key =>
          let insert :=
            let r := db_insert db INSTANCES_PARTITION new_key [] in
            (map_err (fun _ => StorageFailed) r.1, r.2) in
          match previous_status with
          | Some old_status =>
              if decide (old_status <> status) then
                match encode_instance_index_key old_status created_at i with
                | Err e => (Err e, db)
                | Ok old_key => atomic_status_transition db old_key new_key
                end
              else insert
          | None => insert
          end
      end
  end.

(** [ScanIterator]: it stops after an error of the storage engine. *)
Fixpoint scan_items (items : list (result string Entry))
  : list (result StorageError InstanceIndexEntry) :=
  match items with
  | [] => []
  | Ok (k, _) :: rest => decode_instance_index_key k :: scan_items rest
  | Err _ :: _ => [Err StorageFailed]
  end.

(** [scan_by_status] and [scan_all_instances]: the scans of a prefix. *)
Definition scan_prefix (db : Database) (prefix : list Z)
  : list (result StorageError InstanceIndexEntry) :=
  match db_keyspace db INSTANCES_PARTITION with
  | Err _ => [Err StorageFailed]
  | Ok ks => scan_items (ks_prefix ks prefix)
  end.

Definition scan_by_status (db : Database) (status : InstanceStatus)
  : list (result StorageError InstanceIndexEntry) :=
  scan_prefix db [InstanceStatus.to_byte status].

Definition scan_all_instances (db : Database) : list (result StorageError InstanceIndexEntry) :=
  scan_prefix db [].

(** ** Keys *)

Context {UL : UlidLaws}.

(** The identifiers [InstanceId::from_bytes] makes. *)
Definition valid_id (i : InstanceId) : Prop := exists u, InstanceId_wf i u.

Lemma to_bytes_wf i u : InstanceId_wf i u -> InstanceId_to_bytes i = Ok (be_bytes 16 u).
Proof. intros H. unfold InstanceId_to_bytes. by rewrite (InstanceId_to_u128_wf _ _ H). Qed.

(** The key of an entry. *)
Definition index_key (e : InstanceIndexEntry) : list Z :=
  InstanceStatus.to_byte (index_status e) :: be_bytes 8 (index_created_at e) ++
  iid_bytes_or_zero (index_instance e).

Definition entry_valid (e : InstanceIndexEntry) : Prop :=
  valid_id (index_instance e) /\ is_u64 (index_created_at e).

Lemma encode_index_key_ok status created_at i :
  valid_id i ->
  encode_instance_index_key status created_at i = Ok (index_key (mkIndexEntry i status created_at)).
Proof.
  intros [u Hu]. unfold encode_instance_index_key, id_bytes_or, index_key.
  cbn [index_instance index_status index_created_at].
  by rewrite (to_bytes_wf _ _ Hu), (iid_bytes_wf _ _ Hu).
Qed.

Lemma decode_index_key_ok e : entry_valid e -> decode_instance_index_key (index_key e) = Ok e.
Proof.
  destruct e as [i st c]. intros [[u Hu] Hc]. cbn [index_instance index_created_at] in *.
  unfold decode_instance_index_key, index_key. cbn [index_instance index_status index_created_at].
  rewrite (iid_bytes_wf _ _ Hu). unfold blen. cbn [length]. rewrite length_app, !be_bytes_length.
  cbn [negb Z.of_nat Z.eqb Nat.add Pos.of_succ_nat]. rewrite InstanceStatus.from_to_byte.
  rewrite take_app_length', drop_app_length' by (by rewrite be_bytes_length).
  rewrite (InstanceId_from_bytes_be _ _ Hu), be_bytes_id by (by apply u64_range). done.
Qed.

Lemma index_key_inj e e' : entry_valid e -> entry_valid e' -> index_key e = index_key e' -> e = e'.
Proof.
  intros H1 H2 E. apply (f_equal decode_instance_index_key) in E.
  rewrite !decode_index_key_ok in E by done. congruence.
Qed.

(** Keys of one status are ordered by time of creation, then by instance. *)
Lemma index_key_order e e' :
  entry_valid e -> entry_valid e' -> index_status e = index_status e' ->
  lex (index_key e) (index_key e') = Lt -> index_created_at e <= index_created_at e'.
Proof.
  destruct e as [i st c], e' as [j st' c'].
  intros [[u Hu] Hc] [[w Hw] Hc'] Hst. cbn [index_instance index_status index_created_at] in *.
  subst st'. unfold index_key. cbn [index_instance index_status index_created_at].
  rewrite (iid_bytes_wf _ _ Hu), (iid_bytes_wf _ _ Hw). cbn [lex]. rewrite Z.compare_refl.
  rewrite lex_app by (by rewrite !be_bytes_length). rewrite lex_be by (by apply u64_range).
  destruct (Z.compare_spec c c'); cbn [then_cmp]; [lia|lia|done].
Qed.

(** ** What a scan lists *)

(** The partition holds exactly the entries of [E]. *)
Definition indexed (E : InstanceIndexEntry -> Prop) (m : gmap (list Z) (list Z)) : Prop :=
  (forall e, E e -> entry_valid e) /\
  forall k v, m !! k = Some v <-> exists e, E e /\ k = index_key e /\ v = [].

Lemma indexed_lookup E m e : indexed E m -> entry_valid e -> (m !! index_key e = Some [] <-> E e).
Proof.
  intros [Hv Hm] He. rewrite Hm. split; [|intros; by exists e].
  intros (e' & He' & Hk & _). by rewrite (index_key_inj e e') by auto.
Qed.

(** Inserting an entry, after removing another one or nothing. *)
Lemma indexed_insert E m e :
  indexed E m -> entry_valid e ->
  indexed (fun e' => e' = e \/ E e') (<[index_key e := []]> m).
Proof.
  intros [Hv Hm] He. split; [intros e' [->|]; auto|]. intros k v.
  rewrite lookup_insert_Some, Hm. split.
  - intros [[<- <-]|[_ (e' & He' & -> & ->)]]; [by exists e; auto|exists e'; auto].
  - intros (e' & [->|He'] & -> & ->); [by left|].
    destruct (decide (index_key e = index_key e')) as [E1|E1]; [by left|].
    right. split; [done|]. by exists e'.
Qed.

Lemma indexed_delete E m e :
  indexed E m -> entry_valid e ->
  indexed (fun e' => e' <> e /\ E e') (delete (index_key e) m).
Proof.
  intros [Hv Hm] He. split; [intros e' [_ ?]; auto|]. intros k v.
  rewrite lookup_delete_Some, Hm. split.
  - intros (Hne & e' & He' & -> & ->). exists e'. split_and!; try done. by intros ->.
  - intros (e' & [Hne He'] & -> & ->). split; [|by exists e'].
    intros Hk. apply Hne. symmetry. apply index_key_inj; auto.
Qed.

Lemma indexed_proper E E' m : (forall e, E e <-> E' e) -> indexed E m -> indexed E' m.
Proof.
  intros He [Hv Hm]. split; [intros e; rewrite <- He; apply Hv|]. intros k v. rewrite Hm.
  by setoid_rewrite He.
Qed.

(** Decoding the keys of a list of entries. *)
Lemma scan_items_ok l :
  Forall (fun kv : Entry => exists e, entry_valid e /\ kv.1 = index_key e) l ->
  exists es, scan_items (Ok <$> l) = Ok <$> es /\ (index_key <$> es) = l.*1 /\ Forall entry_valid es.
Proof.
  induction 1 as [|[k v] l (e & He & Hk) Hl IH]; [by exists []|].
  destruct IH as (es & Hs & Hks & Hes). exists (e :: es). cbn in Hk. subst k.
  cbn [fmap list_fmap scan_items fst]. rewrite decode_index_key_ok, Hs by done.
  split_and!; [done| |by constructor]. by rewrite <- Hks.
Qed.

Context `{FL : !FjallLaws} `{DL : !DatabaseLaws}.

(** A scan of a healthy database lists the entries whose key has the prefix, in the order
    of their keys. *)
Lemma scan_prefix_spec db prefix E :
  db_healthy db -> indexed E (db_contents db INSTANCES_PARTITION) ->
  exists es, scan_prefix db prefix = Ok <$> es /\
    StronglySorted (fun e e' => lex (index_key e) (index_key e') = Lt) es /\
    forall e, e ∈ es <-> E e /\ prefix `prefix_of` index_key e.
Proof.
  intros Hh [Hv Hm]. unfold scan_prefix.
  destruct (db_keyspace_ok db INSTANCES_PARTITION Hh) as (ks & -> & Hks & Hc).
  destruct (ks_prefix_ok ks prefix Hks) as (l & -> & Ho & Hl). rewrite Hc in Hl.
  assert (Forall (fun kv : Entry => exists e, entry_valid e /\ kv.1 = index_key e) l) as Hf.
  { apply Forall_forall. intros [k v] [(e & He & -> & _)%Hm _]%Hl. exists e. auto. }
  destruct (scan_items_ok l Hf) as (es & Hs & Hk & Hes). exists es. split; [done|]. split.
  - clear -Hk Ho. revert l Hk Ho. induction es as [|e es IH]; intros [|[k v] l] Hk Ho; try done; [constructor|].
    cbn in Hk. injection Hk as Hk1 Hk2. inversion Ho as [|? ? Ho' Hall]; subst.
    constructor; [by eapply IH|]. rewrite Forall_forall in Hall. apply Forall_forall. intros e' He'.
    assert (index_key e' ∈ l.*1) as ([k' v'] & E' & Hin)%list_elem_of_fmap
      by (rewrite <- Hk2; by apply list_elem_of_fmap_2).
    cbn in E'. rewrite E'. exact (Hall _ Hin).
  - intros e. split.
    + intros He. assert (index_key e ∈ l.*1) as ([k v] & Ek & Hin)%list_elem_of_fmap
        by (rewrite <- Hk; by apply list_elem_of_fmap_2).
      cbn in Ek. apply Hl in Hin as [(e' & He' & Hk' & _)%Hm Hp]. cbn in Hk', Hp.
      rewrite <- Ek in Hk', Hp. split; [|done]. rewrite Forall_forall in Hes.
      by rewrite (index_key_inj e e') by auto.
    + intros [He Hp]. assert ((index_key e, []) ∈ l) as Hin.
      { apply Hl. split; [|done]. apply Hm. by exists e. }
      assert (index_key e ∈ index_key <$> es) as (e' & Ek & He')%list_elem_of_fmap
        by (rewrite Hk; by apply (list_elem_of_fmap_2 fst _ (index_key e, []))).
      rewrite Forall_forall in Hes. by rewrite (index_key_inj e e') by auto.
Qed.

Lemma status_prefix status e :
  [InstanceStatus.to_byte status] `prefix_of` index_key e <-> index_status e = status.
Proof.
  unfold index_key. split.
  - intros [l E]. injection E as E _. by apply InstanceStatus.to_byte_inj.
  - intros <-. by eexists.
Qed.

Lemma listed_in_scan db E e :
  db_healthy db -> indexed E (db_contents db INSTANCES_PARTITION) -> E e ->
  Ok e ∈ scan_by_status db (index_status e).
Proof.
  intros Hh HE He.
  destruct (scan_prefix_spec db [InstanceStatus.to_byte (index_status e)] E Hh HE)
    as (es & Hs & _ & Hin).
  unfold scan_by_status. rewrite Hs. apply list_elem_of_fmap_2, Hin. split; [done|].
  by apply status_prefix.
Qed.

(** ** Updates *)

(** What an update leaves of the entries, whatever it was told. *)
Lemma upsert_spec db i st c prev E :
  db_healthy db -> entry_valid (mkIndexEntry i st c) ->
  indexed E (db_contents db INSTANCES_PARTITION) ->
  let r := instance_index_upsert db i st c prev in
  r.1 = Ok tt /\ db_healthy r.2 /\
  (forall p, p <> INSTANCES_PARTITION -> db_contents r.2 p = db_contents db p) /\
  indexed (fun e => e = mkIndexEntry i st c \/
                    (E e /\ forall old, prev = Some old -> old <> st -> e <> mkIndexEntry i old c))
    (db_contents r.2 INSTANCES_PARTITION).
Proof.
  intros Hh He HE. pose proof He as [Hi _]. cbn [index_instance] in Hi.
  unfold instance_index_upsert.
  destruct (db_keyspace_ok db INSTANCES_PARTITION Hh) as (ks & -> & _).
  rewrite (encode_index_key_ok st c i Hi).
  set (insert := (_, _)).
  assert (insert.1 = Ok tt /\ db_healthy insert.2 /\
    (forall p, p <> INSTANCES_PARTITION -> db_contents insert.2 p = db_contents db p) /\
    indexed (fun e => e = mkIndexEntry i st c \/ E e) (db_contents insert.2 INSTANCES_PARTITION))
    as Hins.
  { destruct (db_insert_ok db INSTANCES_PARTITION (index_key (mkIndexEntry i st c)) [] Hh)
      as (H1 & H2 & H3).
    subst insert. cbn [fst snd]. rewrite H1. split; [done|]. split; [done|]. split.
    - intros p Hp. rewrite H3. by destruct (decide _).
    - rewrite H3, decide_True by done. by apply indexed_insert. }
  destruct prev as [old|]; [destruct (decide (old <> st)) as [Hne|Heq]|].
  - rewrite (encode_index_key_ok old c i Hi). unfold atomic_status_transition.
    set (items := [_; _]). destruct (db_commit_ok db items Hh) as (H1 & H2 & H3).
    cbn zeta. cbn [fst snd]. rewrite H1. split; [done|]. split; [done|]. split.
    + intros p Hp. rewrite H3. subst items. unfold items_of. cbn.
      by destruct (decide (INSTANCES_PARTITION = p)).
    + rewrite H3. subst items. unfold items_of. cbn [omap list_omap fst snd].
      rewrite !decide_True by done. cbn [fold_left apply_item].
      eapply indexed_proper; [|apply indexed_insert; [apply indexed_delete; [exact HE|]|done]].
      2: { destruct He as [? ?]. by split. }
      intros e. cbn beta. split.
      * intros [->|[Hold Hen]]; [by left|right]. split; [done|]. by intros ? [= <-] _.
      * intros [->|[Hen Hold]]; [by left|right]. split; [|done]. by apply Hold.
  - destruct Hins as (H1 & H2 & H3 & H4). cbn beta iota zeta. split_and!; [done..|].
    eapply indexed_proper; [|exact H4]. intros e. cbn beta. split; [|tauto].
    intros [->|Hen]; [by left|right]. split; [done|]. intros ? [= <-] Hne. by destruct (Heq Hne).
  - destruct Hins as (H1 & H2 & H3 & H4). cbn beta iota zeta. split_and!; [done..|].
    eapply indexed_proper; [|exact H4]. intros e. cbn beta. naive_solver.
Qed.

(** A call of [instance_index_upsert]. *)
Record IndexUpdate : Set := mkUpdate {
  up_instance : InstanceId;
  up_status : InstanceStatus;
  up_created_at : Z;
  up_previous : option InstanceStatus;
}.

Fixpoint upsert_all (db : Database) (ups : list IndexUpdate)
  : list (result StorageError unit) * Database :=
  match ups with
  | [] => ([], db)
  | u :: ups' =>
      let r := instance_index_upsert db (up_instance u) (up_status u) (up_created_at u)
                 (up_previous u) in
      let r' := upsert_all r.2 ups' in (r.1 :: r'.1, r'.2)
  end.

(** The state the calls describe: the status and time of creation of each instance. *)
Abbreviation Statuses := (gmap InstanceId (InstanceStatus * Z)).

Definition record_update (a : Statuses) (u : IndexUpdate) : Statuses :=
  <[up_instance u := (up_status u, up_created_at u)]> a.

Definition listed (a : Statuses) (e : InstanceIndexEntry) : Prop :=
  a !! index_instance e = Some (index_status e, index_created_at e).

(** The calls name valid instances, and an instance that is listed with the status and the
    time of creation it is listed under. *)
Fixpoint informed (a : Statuses) (ups : list IndexUpdate) : Prop :=
  match ups with
  | [] => True
  | u :: ups' =>
      entry_valid (mkIndexEntry (up_instance u) (up_status u) (up_created_at u)) /\
      match a !! up_instance u with
      | Some (st, c) => up_previous u = Some st /\ up_created_at u = c
      | None => True
      end /\ informed (record_update a u) ups'
  end.

Lemma indexed_empty : indexed (listed ∅) ∅.
Proof.
  unfold listed. split; [intros e He; by rewrite lookup_empty in He|]. intros k v.
  rewrite lookup_empty. split; [done|]. intros (e & He & _). by rewrite lookup_empty in He.
Qed.

Lemma informed_step a m db u ups :
  db_healthy db -> m = db_contents db INSTANCES_PARTITION -> indexed (listed a) m ->
  informed a (u :: ups) ->
  let r := instance_index_upsert db (up_instance u) (up_status u) (up_created_at u)
             (up_previous u) in
  r.1 = Ok tt /\ db_healthy r.2 /\
  indexed (listed (record_update a u)) (db_contents r.2 INSTANCES_PARTITION).
Proof.
  intros Hh -> Ha (Hv & Hp & _). destruct u as [i st c prev].
  cbn [up_instance up_status up_created_at up_previous] in *.
  destruct (upsert_spec db i st c prev _ Hh Hv Ha) as (H1 & H2 & _ & H4).
  split; [done|]. split; [done|]. eapply indexed_proper; [|exact H4].
  intros [j st' c']. unfold listed, record_update.
  cbn [index_instance index_status index_created_at up_instance up_status up_created_at].
  destruct (decide (i = j)) as [<-|Hne].
  - rewrite lookup_insert_eq. split.
    + intros [[= -> ->]|[Ej Hold]]; [done|]. rewrite Ej in Hp. destruct Hp as [-> ->].
      destruct (decide (st' = st)) as [->|Hne]; [done|]. by destruct (Hold st' eq_refl Hne).
    + intros [= -> ->]. by left.
  - rewrite lookup_insert_ne by done. split.
    + intros [[= -> _ _]|[Ej _]]; done.
    + intros Ej. right. split; [done|]. by intros old _ _ [= -> _ _].
Qed.

Lemma informed_run ups a db :
  db_healthy db -> indexed (listed a) (db_contents db INSTANCES_PARTITION) -> informed a ups ->
  Forall (fun r => r = Ok tt) (upsert_all db ups).1 /\
  db_healthy (upsert_all db ups).2 /\
  indexed (listed (fold_left record_update ups a))
    (db_contents (upsert_all db ups).2 INSTANCES_PARTITION).
Proof.
  revert a db; induction ups as [|u ups IH]; intros a db Hh Ha Hi; [by split_and!|].
  destruct (informed_step a _ db u ups Hh eq_refl Ha Hi) as (H1 & H2 & H3).
  destruct Hi as (_ & _ & Hi). destruct (IH _ _ H2 H3 Hi) as (H4 & H5 & H6).
  cbn [upsert_all fst snd fold_left]. split_and!; [|done..]. by constructor.
Qed.

(** C34. The index over any sequence of updates, each of which names the entry it replaces
    (its status and time of creation, or none), on a store that does not fail: every update
    succeeds, the scan of a status lists exactly the instances whose latest update gave it,
    each once and by time of creation, and an instance is listed under one status only. *)
Theorem index_lists_instances db ups :
  db_healthy db -> db_contents db INSTANCES_PARTITION = ∅ -> informed ∅ ups ->
  let a := fold_left record_update ups ∅ in
  Forall (fun r => r = Ok tt) (upsert_all db ups).1 /\
  (forall st, exists es, scan_by_status (upsert_all db ups).2 st = Ok <$> es /\
     NoDup es /\ StronglySorted (fun e e' => index_created_at e <= index_created_at e') es /\
     forall e, e ∈ es <-> listed a e /\ index_status e = st) /\
  (exists es, scan_all_instances (upsert_all db ups).2 = Ok <$> es /\
     NoDup (index_instance <$> es) /\ forall e, e ∈ es <-> listed a e).
Proof.
  intros Hh H0 Hi a.
  assert (indexed (listed ∅) (db_contents db INSTANCES_PARTITION)) as HE
    by (rewrite H0; apply indexed_empty).
  destruct (informed_run ups _ _ Hh HE Hi) as (H1 & H2 & H3). split; [done|].
  assert (forall es, StronglySorted (fun e e' => lex (index_key e) (index_key e') = Lt) es ->
    NoDup es) as Hnd.
  { induction 1 as [|e es Hs IH Hall]; constructor; [|done]. intros Hin.
    rewrite Forall_forall in Hall. specialize (Hall _ Hin). by rewrite lex_refl in Hall. }
  split.
  - intros st. destruct (scan_prefix_spec _ [InstanceStatus.to_byte st] _ H2 H3) as (es & Hs & Ho & Hin).
    exists es. setoid_rewrite status_prefix in Hin. split_and!; [done|by apply Hnd| |done].
    assert (forall e, e ∈ es -> entry_valid e /\ index_status e = st) as Hv.
    { intros e [He Hst]%Hin. split; [by apply H3|done]. }
    clear -Ho Hv UL. induction Ho as [|e es Ho IH Hall]; constructor.
    + apply IH. intros e' He'. apply Hv. by right.
    + rewrite Forall_forall in Hall. apply Forall_forall. intros e' He'.
      destruct (Hv e) as [? Hst]; [by left|]. destruct (Hv e') as [? Hst']; [by right|].
      apply index_key_order; [done..|congruence|]. by apply Hall.
  - destruct (scan_prefix_spec _ [] _ H2 H3) as (es & Hs & Ho & Hin).
    exists es. split; [done|]. assert (forall e, e ∈ es <-> listed a e) as Hin'.
    { intros e. rewrite Hin. split; [tauto|]. intros He. split; [done|]. by apply prefix_nil. }
    split; [|done]. apply NoDup_fmap_2_strong; [|by apply Hnd].
    intros [i st c] [j st' c'] H%Hin' H'%Hin' [= ->]. unfold listed in *. cbn in *. congruence.
Qed.

(** An update told another status, or another time of creation, than the instance is
    listed under leaves the old entry: the instance is then listed under both. *)
Theorem index_stale_entry db i st0 c0 st c prev E :
  db_healthy db -> indexed E (db_contents db INSTANCES_PARTITION) ->
  E (mkIndexEntry i st0 c0) -> is_u64 c -> ~ (prev = Some st0 /\ c = c0) ->
  let r := instance_index_upsert db i st c prev in
  r.1 = Ok tt /\
  Ok (mkIndexEntry i st0 c0) ∈ scan_by_status r.2 st0 /\
  Ok (mkIndexEntry i st c) ∈ scan_by_status r.2 st.
Proof.
  intros Hh HE H0 Hc Hn. assert (entry_valid (mkIndexEntry i st c)) as Hv.
  { destruct HE as [HE _]. destruct (HE _ H0) as [? _]. by split. }
  destruct (upsert_spec db i st c prev E Hh Hv HE) as (H1 & H2 & _ & H4). cbn zeta. split; [done|].
  split; [apply (listed_in_scan _ _ (mkIndexEntry i st0 c0) H2 H4)|
          apply (listed_in_scan _ _ (mkIndexEntry i st c) H2 H4); by left].
  right. split; [done|].
  intros old -> _ [= -> ->]. by apply Hn.
Qed.
End InstanceIndex.

(** ** The index at concrete inputs *)

Module InstanceIndexWitness.
Import ConcreteUlid MapKeyspace MapDatabase.

Lemma first_valid : valid_id one.
Proof. exists 1. exact one_wf. Qed.

Definition updates : list IndexUpdate :=
  [mkUpdate one InstanceStatus.Pending 5 None;
   mkUpdate one InstanceStatus.Running 5 (Some InstanceStatus.Pending)].

Lemma updates_informed : informed ∅ updates.
Proof.
  cbn [updates informed up_instance up_status up_created_at up_previous].
  rewrite lookup_empty. unfold record_update. cbn [up_instance]. rewrite lookup_insert_eq.
  cbn [up_status up_created_at].
  split_and!; try done; (split; [exact first_valid|cbn; ulia]).
Qed.

Lemma index_lists_instances_witness :
  exists es, scan_all_instances (upsert_all ∅ updates).2 = Ok <$> es /\
    NoDup (index_instance <$> es) /\
    forall e, e ∈ es <-> listed (fold_left record_update updates ∅) e.
Proof.
  exact (proj2 (proj2 (index_lists_instances (DL := database_laws) ∅ updates I eq_refl
    updates_informed))).
Defined.

Lemma updates_indexed :
  indexed (listed (fold_left record_update updates ∅))
    (db_contents (upsert_all ∅ updates).2 INSTANCES_PARTITION).
Proof.
  refine (proj2 (proj2 (informed_run (DL := database_laws) updates ∅ ∅ I _ updates_informed))).
  change (indexed (listed ∅) ∅). apply indexed_empty.
Qed.

(** The time of creation is off by one. *)
Lemma index_stale_entry_witness :
  let r := instance_index_upsert (upsert_all ∅ updates).2 one InstanceStatus.Paused 6
             (Some InstanceStatus.Running) in
  Ok (mkIndexEntry one InstanceStatus.Running 5) ∈ scan_by_status r.2 InstanceStatus.Running.
Proof.
  refine (proj1 (proj2 (index_stale_entry (DL := database_laws) (upsert_all ∅ updates).2 one
    InstanceStatus.Running 5 InstanceStatus.Paused 6 (Some InstanceStatus.Running) _ I
    updates_indexed _ _ _))).
  - unfold listed, updates, record_update. cbn [fold_left index_instance up_instance].
    by rewrite lookup_insert_eq.
  - ulia.
  - intros [_ ?]. done.
Defined.
End InstanceIndexWitness.
