(* ===== verification/Snapshots.v ===== *)
(** * Durable snapshots

    [crates/vo-storage/src/snapshots/mod.rs], the store of instance states by sequence
    number, and [InstanceState] of [crates/vo-types/src/state/semantic_types.rs]. A value is
    a header, a bar and the state; [serde_json] and [crc32fast] are parameters. *)

From stdpp Require Import sorting.
From S2P Require Import Prelude Identifiers KeyEncoding Keyspace Database InstanceIndex.
From Stdlib Require Import Sorted.

(** [struct InstanceState]. *)
Record InstanceState : Set := mkState { counter : Z; binary_hash : option string }.

(** [struct SnapshotHeader]. *)
Record SnapshotHeader : Set := mkHeader {
  version : Z;
  header_sequence : Z;
  header_instance : InstanceId;
  checksum : Z;
}.

Definition CURRENT_SNAPSHOT_VERSION : Z := 1.

(** [SnapshotHeader::new]. *)
Definition header_new (i : InstanceId) (sequence_number checksum : Z) : SnapshotHeader :=
  mkHeader CURRENT_SNAPSHOT_VERSION sequence_number i checksum.

(** [enum SnapshotPolicy] and [SnapshotPolicy::should_snapshot]; a multiple of 0 is 0. *)
Inductive SnapshotPolicy : Set := EveryNEvents (n : Z) | SnapshotsDisabled.

Definition should_snapshot (policy : SnapshotPolicy) (current_sequence : Z) : bool :=
  match policy with
  | EveryNEvents n =>
      (0 <? current_sequence) &&
      (if n =? 0 then current_sequence =? 0 else current_sequence mod n =? 0)
  | SnapshotsDisabled => false
  end.

(** [crc32fast::hash]. *)
Class Crc32Api : Type := crc32 : list Z -> Z.

(** The byte [b'|']. *)
Definition bar : Z := 124.

(** The bytes before and after the first bar. *)
Fixpoint split_bar (value : list Z) : option (list Z * list Z) :=
  match value with
  | [] => None
  | b :: rest =>
      if b =? bar then Some ([], rest)
      else match split_bar rest with Some (h, s) => Some (b :: h, s) | None => None end
  end.

Lemma split_bar_app h t : bar ∉ h -> split_bar (h ++ bar :: t) = Some (h, t).
Proof.
  induction h as [|b h IH]; intros Hb; cbn [app split_bar]; [by rewrite Z.eqb_refl|].
  apply not_elem_of_cons in Hb as [Hb1 Hb2]. rewrite (proj2 (Z.eqb_neq b bar)) by done.
  by rewrite IH.
Qed.

Definition SNAPSHOTS_PARTITION : string := "snapshots".

Section Snapshots.
Context `{U : UlidApi} `{F : FjallApi} `{D : !DatabaseApi} `{CR : Crc32Api}.
Context `{SH : !SerdeApi SnapshotHeader} `{SS : !SerdeApi InstanceState}.

(** [encode_snapshot_key]. *)
Definition encode_snapshot_key (i : InstanceId) (sequence : Z) : result StorageError (list Z) :=
  let? id_bytes := id_bytes_or CorruptKey i in Ok (id_bytes ++ be_bytes 8 sequence).

(** [decode_snapshot_key]. *)
Definition decode_snapshot_key (key : list Z) : result StorageError (InstanceId * Z) :=
  if negb (length key =? 24)%nat then Err InvalidKey
  else Ok (InstanceId_from_bytes (take 16 key), from_be_bytes (drop 16 key)).

(** The value [write_snapshot] stores for a state that is serialized at its type. *)
Definition snapshot_value {A} `{!SerdeApi A} (i : InstanceId) (sequence : Z) (state : A)
  : result StorageError (list Z) :=
  let? state_json := map_err (fun _ => SerializationFailed) (to_vec state) in
  let? header_bytes := map_err (fun _ => SerializationFailed)
                         (to_vec (header_new i sequence (crc32 state_json))) in
  Ok (header_bytes ++ bar :: state_json).

(** [AtomicSnapshotWriter::write_snapshot]: the write it adds to the batch. *)
Definition write_snapshot (i : InstanceId) (sequence : Z) (state : InstanceState)
  : result StorageError (string * BatchItem) :=
  let? key := encode_snapshot_key i sequence in
  let? value := snapshot_value i sequence state in
  Ok (SNAPSHOTS_PARTITION, BatchInsert key value).

(** [AtomicSnapshotWriter::write_snapshot_atomic]. *)
Definition write_snapshot_atomic (db : Database) (i : InstanceId) (sequence : Z)
    (state : InstanceState) : result StorageError unit * Database :=
  match write_snapshot i sequence state with
  | Err e => (Err e, db)
  | Ok item =>
      let r := db_commit db [item] in (map_err (fun _ => BatchCommitFailed) r.1, r.2)
  end.

(** [snapshot_write], the format without a header. *)
Definition snapshot_write (ks : Keyspace) (i : InstanceId) (sequence : Z) (state : InstanceState)
  : result StorageError unit * Keyspace :=
  match encode_snapshot_key i sequence with
  | Err e => (Err e, ks)
  | Ok key =>
      match to_vec state with
      | Err _ => (Err SerializationFailed, ks)
      | Ok state_json =>
          let r := ks_insert ks key state_json in (map_err (fun _ => FjallError) r.1, r.2)
      end
  end.

(** [deserialize_snapshot_value]. *)
Definition deserialize_snapshot_value (value : list Z) : result StorageError InstanceState :=
  match split_bar value with
  | Some (header_bytes, state_json) =>
      let? header := map_err (fun _ => DeserializationFailed) (from_slice header_bytes) in
      if negb (crc32 state_json =? checksum header) then Err DeserializationFailed
      else map_err (fun _ => DeserializationFailed) (from_slice state_json)
  | None => map_err (fun _ => DeserializationFailed) (from_slice value)
  end.

(** [snapshot_load_latest]. *)
Definition snapshot_load_latest (ks : Keyspace) (i : InstanceId)
  : result StorageError (option (Z * InstanceState)) :=
  let? prefix := id_bytes_or CorruptKey i in
  match last (ks_prefix ks prefix) with
  | None => Ok None
  | Some item =>
      let? kv := map_err (fun _ => FjallError) item in
      let? key := decode_snapshot_key kv.1 in
      let? state := deserialize_snapshot_value kv.2 in
      Ok (Some (key.2, state))
  end.

(** The loop over the keys of an instance. *)
Fixpoint collect_sequences (items : list (result string Entry)) : result StorageError (list Z) :=
  match items with
  | [] => Ok []
  | item :: rest =>
      let? kv := map_err (fun _ => FjallError) item in
      let? key := map_err (fun _ => InvalidKey) (decode_snapshot_key kv.1) in
      let? seqs := collect_sequences rest in
      Ok (key.2 :: seqs)
  end.

(** [get_all_snapshot_sequences], latest first. *)
Definition get_all_snapshot_sequences (ks : Keyspace) (i : InstanceId)
  : result StorageError (list Z) :=
  let? prefix := id_bytes_or CorruptKey i in
  let? seqs := collect_sequences (ks_prefix ks prefix) in
  Ok (merge_sort Z.ge seqs).

(** The deletions of [compact_snapshots]; one that fails is not counted. *)
Fixpoint delete_snapshots (ks : Keyspace) (i : InstanceId) (seqs : list Z) (deleted : Z)
  : result StorageError Z * Keyspace :=
  match seqs with
  | [] => (Ok deleted, ks)
  | seq :: rest =>
      match encode_snapshot_key i seq with
      | Err e => (Err e, ks)
      | Ok key =>
          let r := ks_remove ks key in
          delete_snapshots r.2 i rest (match r.1 with Ok _ => deleted + 1 | Err _ => deleted end)
      end
  end.

(** [compact_snapshots]; the values it collects along are not used. *)
Definition compact_snapshots (ks : Keyspace) (i : InstanceId) (keep_last_n : Z)
  : result StorageError Z * Keyspace :=
  match get_all_snapshot_sequences ks i with
  | Err e => (Err e, ks)
  | Ok seqs =>
      if Z.of_nat (length seqs) <=? keep_last_n then (Ok 0, ks)
      else delete_snapshots ks i (drop (Z.to_nat keep_last_n) seqs) 0
  end.

(** ** Snapshots as a map *)

(** Stored values by instance and sequence number. *)
Abbreviation Values := (gmap (InstanceId * Z) (list Z)).

Definition valid_key (k : InstanceId * Z) : Prop := valid_id k.1 /\ is_u64 k.2.

Definition snapshot_key (k : InstanceId * Z) : list Z := iid_bytes_or_zero k.1 ++ be_bytes 8 k.2.

Context {UL : UlidLaws} `{FL : !FjallLaws} `{DL : !DatabaseLaws}.
Context `{SHL : !SerdeLaws SnapshotHeader} `{SSL : !SerdeLaws InstanceState}.

Lemma encode_snapshot_key_ok i n : valid_id i -> encode_snapshot_key i n = Ok (snapshot_key (i, n)).
Proof.
  intros [u Hu]. unfold encode_snapshot_key, id_bytes_or, snapshot_key. cbn [fst snd].
  by rewrite (to_bytes_wf _ _ Hu), (iid_bytes_wf _ _ Hu).
Qed.

Lemma decode_snapshot_key_ok k : valid_key k -> decode_snapshot_key (snapshot_key k) = Ok k.
Proof.
  destruct k as [i n]. intros [[u Hu] Hn]. unfold decode_snapshot_key, snapshot_key. cbn [fst snd] in *.
  rewrite (iid_bytes_wf _ _ Hu), length_app, !be_bytes_length. cbn [negb Nat.eqb Nat.add].
  rewrite take_app_length', drop_app_length' by (by rewrite be_bytes_length).
  by rewrite (InstanceId_from_bytes_be _ _ Hu), be_bytes_id by (by apply u64_range).
Qed.

Lemma snapshot_key_inj k k' :
  valid_key k -> valid_key k' -> snapshot_key k = snapshot_key k' -> k = k'.
Proof.
  intros H H' E. apply (f_equal decode_snapshot_key) in E.
  rewrite !decode_snapshot_key_ok in E by done. congruence.
Qed.

(** The partition holds these values. *)
Definition holds (a : Values) (m : gmap (list Z) (list Z)) : Prop :=
  encodes valid_key snapshot_key (fun v => v) a m.

Lemma snapshot_prefix i k :
  valid_id i -> valid_key k -> (iid_bytes_or_zero i `prefix_of` snapshot_key k <-> k.1 = i).
Proof.
  destruct k as [j n]. intros [u Hu] [[w Hw] _]. unfold snapshot_key. cbn [fst snd] in *.
  rewrite (iid_bytes_wf _ _ Hu), (iid_bytes_wf _ _ Hw). split.
  - intros [l E]. apply app_inj_1 in E as [E _]; [|by rewrite !be_bytes_length].
    apply be_bytes_inj in E; [|apply u128_range, Hw|apply u128_range, Hu].
    destruct Hu as [_ ->], Hw as [_ ->]. by rewrite E.
  - intros ->. rewrite (InstanceId_wf_inj _ _ _ Hu Hw). by eexists.
Qed.

Lemma snapshot_key_order i n n' :
  is_u64 n -> is_u64 n' -> lex (snapshot_key (i, n)) (snapshot_key (i, n')) = (n ?= n').
Proof.
  intros Hn Hn'. unfold snapshot_key. cbn [fst snd]. rewrite lex_app, lex_refl by done.
  cbn [then_cmp]. by apply lex_be; apply u64_range.
Qed.

(** The entries of an instance are its snapshots in ascending order. *)
Lemma instance_entries ks a i :
  healthy ks -> holds a (contents ks) -> valid_id i ->
  exists l, ks_prefix ks (iid_bytes_or_zero i) =
      Ok <$> ((fun x => (snapshot_key (i, x.1), x.2)) <$> l) /\
    StronglySorted (fun x y => x.1 < y.1) l /\
    (forall n v, (n, v) ∈ l <-> a !! (i, n) = Some v).
Proof.
  intros Hh [Hv Hm] Hi. destruct (ks_prefix_ok ks (iid_bytes_or_zero i) Hh) as (l0 & Hl & Ho & Hin).
  assert (forall kv, kv ∈ l0 <-> exists n v, a !! (i, n) = Some v /\ kv = (snapshot_key (i, n), v))
    as Hel.
  { intros [k v]. rewrite Hin. cbn [fst snd]. rewrite Hm. split.
    - intros [([j n] & v' & Ha & -> & ->) Hp%snapshot_prefix]; [|done|apply Hv; by eexists].
      cbn in Hp. subst j. by exists n, v'.
    - intros (n & v' & Ha & [= -> ->]). split; [by exists (i, n), v'|].
      apply snapshot_prefix; [done|apply Hv; by eexists|done]. }
  assert (forall n v, a !! (i, n) = Some v -> is_u64 n) as Hu
    by (intros n v Ha; exact (proj2 (Hv (i, n) ltac:(by eexists)))).
  exists ((fun kv : Entry => (from_be_bytes (drop 16 kv.1), kv.2)) <$> l0).
  assert (forall n v, a !! (i, n) = Some v ->
            from_be_bytes (drop 16 (snapshot_key (i, n))) = n) as Hdec.
  { intros n v Ha. pose proof (decode_snapshot_key_ok (i, n) (Hv (i, n) ltac:(by eexists))) as E.
    unfold decode_snapshot_key in E. destruct (negb _); [done|]. congruence. }
  split; [|split].
  - rewrite Hl. f_equal. rewrite <- list_fmap_compose. symmetry.
    rewrite <- (list_fmap_id l0) at 2. apply list_fmap_ext. intros j kv Hj.
    apply list_elem_of_lookup_2, Hel in Hj as (n & v & Ha & ->). cbn [compose fst snd].
    by rewrite (Hdec n v).
  - refine (StronglySorted_map _ _ _ l0 _ Ho).
    intros kv kv' (n & v & Ha & ->)%Hel (n' & v' & Ha' & ->)%Hel. cbn [fst].
    rewrite (Hdec n v Ha), (Hdec n' v' Ha'), snapshot_key_order by eauto. by intros ?%Z.compare_lt_iff.
  - intros n v. rewrite list_elem_of_fmap. split.
    + intros (kv & [= -> ->] & (n' & v' & Ha & ->)%Hel). cbn [fst snd]. by rewrite (Hdec n' v').
    + intros Ha. exists (snapshot_key (i, n), v). cbn [fst snd]. rewrite (Hdec n v Ha). split; [done|].
      apply Hel. by exists n, v.
Qed.

(** The latest stored value of an instance. *)
Definition is_latest (a : Values) (i : InstanceId) (n : Z) (v : list Z) : Prop :=
  a !! (i, n) = Some v /\ forall n', is_Some (a !! (i, n')) -> n' <= n.

Lemma load_latest_spec ks a i :
  healthy ks -> holds a (contents ks) -> valid_id i ->
  (snapshot_load_latest ks i = Ok None /\ forall n, a !! (i, n) = None) \/
  (exists n v, is_latest a i n v /\
     snapshot_load_latest ks i =
       let? state := deserialize_snapshot_value v in Ok (Some (n, state))).
Proof.
  intros Hh Ha Hi. destruct (instance_entries ks a i Hh Ha Hi) as (l & Hl & Ho & Hin).
  unfold snapshot_load_latest, id_bytes_or. pose proof Hi as [u Hu].
  rewrite (to_bytes_wf _ _ Hu). cbn [map_err rbind]. rewrite <- (iid_bytes_wf _ _ Hu), Hl.
  destruct l as [|[n v] l _] using rev_ind.
  - left. split; [done|]. intros n. apply eq_None_not_Some. intros [v Hv%Hin].
    by apply not_elem_of_nil in Hv.
  - right. exists n, v. assert (a !! (i, n) = Some v) as Hn by (apply Hin; set_solver).
    rewrite !fmap_app. cbn [fmap list_fmap fst snd]. rewrite last_snoc. cbn [map_err rbind fst snd].
    split.
    + split; [done|]. intros n' [v' Hv'%Hin]. apply elem_of_app in Hv' as [Hv'|Hv'].
      * assert (forall x y : Z * list Z, x ∈ l -> StronglySorted (fun x y => x.1 < y.1) (l ++ [y]) ->
          x.1 < y.1) as Hlast.
        { clear. induction l as [|z l IH]; intros x y Hx Hs; [by apply not_elem_of_nil in Hx|].
          inversion Hs as [|? ? Hs' Hall]; subst. apply elem_of_cons in Hx as [->|Hx]; [|by apply IH].
          apply Forall_app in Hall as [_ Hall]. by apply Forall_cons in Hall as [? _]. }
        pose proof (Hlast _ _ Hv' Ho) as Hlt. cbn in Hlt. lia.
      * apply list_elem_of_singleton in Hv' as [= -> _]. lia.
    + rewrite decode_snapshot_key_ok; [done|]. destruct Ha as [Hv _]. apply Hv. by eexists.
Qed.

(** The sequence numbers of an instance, latest first. *)
Lemma sequences_spec ks a i :
  healthy ks -> holds a (contents ks) -> valid_id i ->
  exists seqs, get_all_snapshot_sequences ks i = Ok seqs /\
    StronglySorted (fun n n' => n > n') seqs /\
    forall n, n ∈ seqs <-> is_Some (a !! (i, n)).
Proof.
  intros Hh Ha Hi. destruct (instance_entries ks a i Hh Ha Hi) as (l & Hl & Ho & Hin).
  unfold get_all_snapshot_sequences, id_bytes_or. pose proof Hi as [u Hu].
  rewrite (to_bytes_wf _ _ Hu). cbn [map_err rbind]. rewrite <- (iid_bytes_wf _ _ Hu), Hl.
  assert (collect_sequences (Ok <$> ((fun x => (snapshot_key (i, x.1), x.2)) <$> l)) = Ok l.*1) as ->.
  { assert (forall n v, (n, v) ∈ l -> valid_key (i, n)) as Hv.
    { intros n v Hn%Hin. destruct Ha as [Hv _]. apply Hv. by eexists. }
    clear Hl Ho Hin. induction l as [|[n v] l IH]; [done|].
    cbn [fmap list_fmap collect_sequences fst snd map_err rbind].
    rewrite decode_snapshot_key_ok by (eapply Hv; left). cbn [map_err rbind snd].
    rewrite IH by (intros n' v' ?; eapply Hv; by right). done. }
  cbn [rbind]. eexists. split; [done|].
  assert (Permutation (merge_sort Z.ge l.*1) l.*1) as Hp by apply merge_sort_Permutation.
  assert (NoDup l.*1) as Hn.
  { clear -Ho. induction Ho as [|x l Ho IH Hall]; cbn; constructor; [|done].
    intros (y & E & Hy)%list_elem_of_fmap. rewrite Forall_forall in Hall. specialize (Hall _ Hy). lia. }
  split.
  - assert (StronglySorted Z.ge (merge_sort Z.ge l.*1)) as Hs.
    { apply StronglySorted_merge_sort; [intros x y z ? ?; lia|intros x y; lia]. }
    rewrite <- Hp in Hn. revert Hn Hs. generalize (merge_sort Z.ge l.*1). clear. intros k Hn Hs.
    induction Hs as [|n k Hs IH Hall]; constructor; apply NoDup_cons in Hn as [Hx Hn]; [by apply IH|].
    rewrite Forall_forall in Hall. apply Forall_forall. intros n' Hn'.
    assert (n <> n') by (by intros ->). specialize (Hall _ Hn'). lia.
  - intros n. rewrite Hp, list_elem_of_fmap. split.
    + intros ([n' v] & -> & Hv%Hin). by eexists.
    + intros [v Hv%Hin]. by exists (n, v).
Qed.

Lemma delete_snapshots_spec ks a i seqs d :
  healthy ks -> holds a (contents ks) -> valid_id i -> Forall is_u64 seqs ->
  let r := delete_snapshots ks i seqs d in
  r.1 = Ok (d + Z.of_nat (length seqs)) /\ healthy r.2 /\
  holds (foldr delete a ((fun n => (i, n)) <$> seqs)) (contents r.2).
Proof.
  intros Hh Ha Hi Hs. revert ks a d Hh Ha.
  induction Hs as [|n seqs Hn Hs IH]; intros ks a d Hh Ha.
  { cbn. rewrite Z.add_0_r. done. }
  cbn [delete_snapshots]. rewrite (encode_snapshot_key_ok i n Hi).
  destruct (ks_remove_ok ks (snapshot_key (i, n)) Hh) as (H1 & H2 & H3). cbn zeta. rewrite H1.
  assert (holds (delete (i, n) a) (contents (ks_remove ks (snapshot_key (i, n))).2)) as Ha'.
  { rewrite H3. apply encodes_delete; [intros; by apply snapshot_key_inj|done|by split]. }
  destruct (IH _ _ (d + 1) H2 Ha') as (E1 & E2 & E3). split_and!; [|done|].
  - rewrite E1. f_equal. cbn [length]. lia.
  - cbn [fmap list_fmap]. by rewrite <- foldr_delete_cons.
Qed.

(** A snapshot and its header read back. *)
Lemma snapshot_value_roundtrip i n st :
  bar ∉ vec_of (header_new i n (crc32 (vec_of st))) ->
  exists v, snapshot_value i n st = Ok v /\ deserialize_snapshot_value v = Ok st.
Proof.
  intros Hb. unfold snapshot_value. rewrite !to_vec_ok. cbn [map_err rbind]. rewrite to_vec_ok.
  cbn [map_err rbind]. eexists. split; [done|]. unfold deserialize_snapshot_value.
  rewrite split_bar_app by done. rewrite from_slice_vec. cbn [map_err rbind header_new checksum].
  rewrite Z.eqb_refl. cbn [negb]. by rewrite from_slice_vec.
Qed.
Lemma is_latest_unique a i n v n' v' : is_latest a i n v -> is_latest a i n' v' -> n = n' /\ v = v'.
Proof.
  intros [H1 H2] [H3 H4]. assert (n = n') as -> by (apply Z.le_antisymm; [apply H4|apply H2]; by eexists).
  split; [done|congruence].
Qed.

(** The load of an instance whose latest value is known. *)
Lemma load_latest_is ks a i n v :
  healthy ks -> holds a (contents ks) -> valid_id i -> is_latest a i n v ->
  snapshot_load_latest ks i = let? state := deserialize_snapshot_value v in Ok (Some (n, state)).
Proof.
  intros Hh Ha Hi Hl. destruct (load_latest_spec ks a i Hh Ha Hi) as [[_ Hn]|(n' & v' & Hl' & ->)].
  - destruct Hl as [Hl _]. by rewrite Hn in Hl.
  - by destruct (is_latest_unique _ _ _ _ _ _ Hl Hl') as [-> ->].
Qed.

(** A snapshot that is written is read back: it is added to the stored ones in one
    batch, no other partition changes, and when no later one is stored it is the one that
    loading the instance returns, with the state that was written. *)
Theorem snapshot_written_loads db a i n st :
  db_healthy db -> holds a (db_contents db SNAPSHOTS_PARTITION) -> valid_key (i, n) ->
  bar ∉ vec_of (header_new i n (crc32 (vec_of st))) ->
  let r := write_snapshot_atomic db i n st in
  r.1 = Ok tt /\ db_healthy r.2 /\
  (forall p, p <> SNAPSHOTS_PARTITION -> db_contents r.2 p = db_contents db p) /\
  (exists v, deserialize_snapshot_value v = Ok st /\
     holds (<[(i, n) := v]> a) (db_contents r.2 SNAPSHOTS_PARTITION)) /\
  ((forall n', is_Some (a !! (i, n')) -> n' <= n) ->
   exists ks, db_keyspace r.2 SNAPSHOTS_PARTITION = Ok ks /\
     snapshot_load_latest ks i = Ok (Some (n, st))).
Proof.
  intros Hh Ha Hk Hb. destruct (snapshot_value_roundtrip i n st Hb) as (v & Hv & Hd).
  unfold write_snapshot_atomic, write_snapshot.
  rewrite (encode_snapshot_key_ok i n (proj1 Hk)), Hv. cbn [rbind].
  set (items := [_]). destruct (db_commit_ok db items Hh) as (H1 & H2 & H3). cbn zeta. cbn [fst snd].
  rewrite H1. split; [done|]. split; [done|]. split.
  { intros p Hp. rewrite H3. subst items. unfold items_of. cbn. by destruct (decide _). }
  assert (holds (<[(i, n) := v]> a) (db_contents (db_commit db items).2 SNAPSHOTS_PARTITION)) as Ha'.
  { rewrite H3. subst items. unfold items_of. cbn [omap list_omap fst snd].
    rewrite decide_True by done. cbn [fold_left apply_item].
    apply (encodes_insert _ _ (fun v => v)); [intros; by apply snapshot_key_inj|done..]. }
  split; [by exists v|]. intros Hmax.
  destruct (db_keyspace_ok _ SNAPSHOTS_PARTITION H2) as (ks & Hks & Hkh & Hkc). exists ks.
  split; [done|]. rewrite (load_latest_is ks (<[(i, n) := v]> a) i n v), Hd; [done|done| |by apply Hk|].
  - by rewrite Hkc.
  - split; [by rewrite lookup_insert_eq|]. intros n' Hn'.
    destruct (decide (n = n')) as [->|Hne]; [lia|].
    rewrite lookup_insert_ne in Hn' by congruence. by apply Hmax.
Qed.

(** What deleting all but the first sequence numbers leaves of the instance. *)
Lemma kept_lookup (a : Values) i k seqs n v :
  StronglySorted (fun n n' => n > n') seqs -> (forall n, n ∈ seqs <-> is_Some (a !! (i, n))) ->
  foldr delete a ((fun n => (i, n)) <$> drop k seqs) !! (i, n) = Some v <->
  a !! (i, n) = Some v /\ n ∈ take k seqs.
Proof.
  intros Ho Hin. rewrite lookup_foldr_delete, list_elem_of_fmap. split.
  - intros [Hng Hv]. split; [done|]. assert (n ∈ seqs) as Hn by (apply Hin; by eexists).
    rewrite <- (take_drop k seqs) in Hn. apply elem_of_app in Hn as [?|Hn]; [done|].
    destruct Hng. by exists n.
  - intros [Hv Hn]. split; [|done]. intros (n' & [= <-] & Hg). clear -Ho Hn Hg.
    rewrite <- (take_drop k seqs) in Ho. revert Ho Hn. generalize (take k seqs) as t.
    induction t as [|m t IH]; cbn; intros Ho Hn; [by apply not_elem_of_nil in Hn|].
    inversion Ho as [|? ? Ho' Hall]; subst. apply elem_of_cons in Hn as [->|Hn]; [|by apply IH].
    rewrite Forall_app, !Forall_forall in Hall. destruct Hall as [_ Hall]. specialize (Hall _ Hg). lia.
Qed.

(** Compaction keeps the latest snapshots of the instance, as many as asked for, and
    reports how many it deleted; other instances are untouched, and unless nothing is kept
    the instance loads as before. *)
Theorem compaction_keeps_latest ks a i keep :
  healthy ks -> holds a (contents ks) -> valid_id i -> 0 <= keep ->
  let r := compact_snapshots ks i keep in
  exists a' seqs,
    get_all_snapshot_sequences ks i = Ok seqs /\ StronglySorted (fun n n' => n > n') seqs /\
    r.1 = Ok (Z.of_nat (length seqs - Z.to_nat keep)) /\ holds a' (contents r.2) /\
    (forall j n, j <> i -> a' !! (j, n) = a !! (j, n)) /\
    (forall n v, a' !! (i, n) = Some v <->
       a !! (i, n) = Some v /\ n ∈ take (Z.to_nat keep) seqs) /\
    (0 < keep -> snapshot_load_latest r.2 i = snapshot_load_latest ks i).
Proof.
  intros Hh Ha Hi Hk. destruct (sequences_spec ks a i Hh Ha Hi) as (seqs & Hs & Ho & Hin).
  unfold compact_snapshots. rewrite Hs.
  set (gone := drop (Z.to_nat keep) seqs).
  set (a' := foldr delete a ((fun n => (i, n)) <$> gone)).
  pose proof (fun n v => kept_lookup a i (Z.to_nat keep) seqs n v Ho Hin) as Hlook.
  fold gone in Hlook. fold a' in Hlook.
  assert (forall j n, j <> i -> a' !! (j, n) = a !! (j, n)) as Hother.
  { intros j n Hj. unfold a'. apply option_eq. intros v. rewrite lookup_foldr_delete.
    split; [tauto|]. intros Hv. split; [|done]. by intros (n' & [= -> _] & _)%list_elem_of_fmap. }
  assert (forall ks', healthy ks' -> holds a' (contents ks') -> 0 < keep ->
            snapshot_load_latest ks' i = snapshot_load_latest ks i) as Hload.
  { intros ks' Hh' Ha' Hkeep.
    destruct (load_latest_spec ks a i Hh Ha Hi) as [[-> Hn]|(n & v & Hl & ->)].
    - destruct (load_latest_spec ks' a' i Hh' Ha' Hi) as [[-> _]|(n & v & [Hl _] & _)]; [done|].
      apply Hlook in Hl as [Hl _]. by rewrite Hn in Hl.
    - apply (load_latest_is ks' a'); [done..|]. destruct Hl as [Hl Hmax]. split.
      + apply Hlook. split; [done|]. assert (n ∈ seqs) as Hns by (apply Hin; by eexists).
        destruct seqs as [|m seqs']; [by apply not_elem_of_nil in Hns|].
        inversion Ho as [|? ? _ Hall]; subst. rewrite Forall_forall in Hall.
        destruct (Z.to_nat keep) as [|k] eqn:Ek; [lia|]. cbn [take].
        apply elem_of_cons in Hns as [->|Hns]; [left|]. specialize (Hall _ Hns).
        assert (m <= n) by (apply Hmax, Hin; left). lia.
      + intros n' [v' [Hv' _]%Hlook]. apply Hmax. by eexists. }
  exists a', seqs. destruct (Z.leb_spec (Z.of_nat (length seqs)) keep) as [Hle|Hgt].
  - assert (gone = []) as Hg by (apply drop_ge; lia). unfold a' in *. rewrite Hg in *. cbn in *.
    split_and!; try done. by replace (length seqs - Z.to_nat keep)%nat with 0%nat by lia.
  - assert (Forall is_u64 gone) as Hu.
    { apply Forall_forall. intros n Hn. destruct Ha as [Hv _]. apply (Hv (i, n)), Hin.
      rewrite <- (take_drop (Z.to_nat keep) seqs). apply elem_of_app. by right. }
    destruct (delete_snapshots_spec ks a i gone 0 Hh Ha Hi Hu) as (E1 & E2 & E3).
    split_and!; try done; [|by apply Hload].
    rewrite E1. f_equal. unfold gone. rewrite length_drop. lia.
Qed.
End Snapshots.

(** ** The store at concrete inputs *)

Module SnapshotsWitness.
Import ConcreteUlid MapKeyspace MapDatabase BitsSerde InstanceIndexWitness.

#[local] Instance sum_crc : Crc32Api := fun bs => foldr Z.add 0 bs mod 2 ^ 32.

#[local] Instance state_eq_dec : EqDecision InstanceState.
Proof. solve_decision. Defined.
#[local] Instance state_countable : Countable InstanceState.
Proof.
  refine (inj_countable' (fun s => (counter s, binary_hash s)) (fun '(c, h) => mkState c h) _).
  by intros [].
Defined.
#[local] Instance header_eq_dec : EqDecision SnapshotHeader.
Proof. solve_decision. Defined.
#[local] Instance header_countable : Countable SnapshotHeader.
Proof.
  refine (inj_countable' (fun h => (version h, header_sequence h, header_instance h, checksum h))
            (fun '(v, n, i, c) => mkHeader v n i c) _).
  by intros [].
Defined.
#[local] Existing Instance bits_serde.

Lemma bits_no_bar `{Countable A} (a : A) : bar ∉ vec_of a.
Proof.
  unfold vec_of, to_vec. cbn [to_json bits_serde rbind]. generalize (encode a). intros p.
  unfold as_bytes. induction p; cbn; rewrite ?not_elem_of_cons; split_and?; try done.
  apply not_elem_of_nil.
Qed.

Lemma snapshot_written_loads_witness :
  exists ks, db_keyspace (write_snapshot_atomic ∅ one 7 (mkState 3 None)).2 SNAPSHOTS_PARTITION = Ok ks /\
    snapshot_load_latest ks one = Ok (Some (7, mkState 3 None)).
Proof.
  refine (proj2 (proj2 (proj2 (proj2 (snapshot_written_loads (DL := database_laws)
    (SHL := bits_serde_laws) (SSL := bits_serde_laws) ∅ ∅ one 7 (mkState 3 None) I _ _ _)))) _).
  - change (holds ∅ ∅). apply encodes_empty.
  - split; [exact first_valid|cbn; ulia].
  - apply bits_no_bar.
  - intros n' [v Hv]. by rewrite lookup_empty in Hv.
Defined.

Lemma one_snapshot : holds {[(one, 7) := [0]]} {[snapshot_key (one, 7) := [0]]}.
Proof.
  unfold holds. rewrite <- !insert_empty.
  apply (encodes_insert _ _ (fun v => v)); [intros; by apply snapshot_key_inj|apply encodes_empty|].
  split; [exact first_valid|cbn; ulia].
Qed.

Lemma compaction_keeps_latest_witness :
  exists (a' : gmap (InstanceId * Z) (list Z)) seqs,
    get_all_snapshot_sequences ({[snapshot_key (one, 7) := [0]]} : Keyspace) one = Ok seqs /\
    (forall n v, a' !! (one, n) = Some v <->
       ({[(one, 7) := [0]]} : gmap (InstanceId * Z) (list Z)) !! (one, n) = Some v /\
       n ∈ take (Z.to_nat 1) seqs).
Proof.
  destruct (compaction_keeps_latest (DL := database_laws) (SHL := bits_serde_laws)
    (SSL := bits_serde_laws) {[snapshot_key (one, 7) := [0]]} _ one 1
    I one_snapshot first_valid ltac:(lia)) as (a' & seqs & H1 & _ & _ & _ & _ & H2 & _).
  exists a', seqs. exact (conj H1 H2).
Defined.
End SnapshotsWitness.
