(* ===== verification/Timers.v ===== *)
(** * The timer index

    [crates/vo-storage/src/timer_index/]: keys and records ([types.rs]), the operations over
    the [Storage] trait ([storage.rs], [query.rs]) and its [fjall] implementation
    ([fjall_timer_index.rs]); [TimerId] of [crates/vo-types/src/string_types.rs]. A timer is
    kept under its time of firing, its instance and its identifier, so that a scan in key
    order is a scan in time. The [uuid] crate is a parameter. *)

From S2P Require Import Prelude Identifiers KeyEncoding Keyspace Database InstanceIndex.
From Stdlib Require Import Sorted.

(** ** [TimerId] *)

(** [Uuid::parse_str], [Uuid::new_v5] in the DNS name space and [Uuid::to_string]; a [Uuid]
    is its 16 bytes. *)
Class UuidApi : Type := {
  uuid_parse : string -> option (list Z);
  uuid_new_v5 : list Z -> list Z;
  uuid_to_string : list Z -> string;
}.

Definition is_uuid (bs : list Z) : Prop := length bs = 16%nat /\ Forall is_byte bs.

Class UuidLaws `{UA : UuidApi} : Prop := {
  uuid_parse_bytes : forall s bs, uuid_parse s = Some bs -> is_uuid bs;
  uuid_v5_bytes : forall bs, is_uuid (uuid_new_v5 bs);
  uuid_parse_to_string : forall bs, is_uuid bs -> uuid_parse (uuid_to_string bs) = Some bs;
}.

(** [struct TimerId]. *)
Record TimerId : Set := mkTimerId { timer_id_str : string }.

(** [struct TimerRecord]. *)
Record TimerRecord : Set := mkTimer {
  timer_id : TimerId;
  timer_instance : InstanceId;
  fire_at_ms : Z;
  trigger_time_ms : Z;
  duration_ms : Z;
}.

(** [trait Storage]. *)
Class TimerStorage (St : Type) : Type := {
  st_put : St -> list Z -> list Z -> result StorageError unit * St;
  st_get : St -> list Z -> result StorageError (option (list Z));
  st_delete : St -> list Z -> result StorageError unit * St;
  st_scan : St -> list Z -> list Z -> result StorageError (list Entry);
}.

Section Timers.
Context `{U : UlidApi} `{UA : UuidApi}.

(** [TimerId::to_bytes]: a UUID, a ULID, or the hash of the text. *)
Definition TimerId_to_bytes (id : TimerId) : list Z :=
  match uuid_parse (timer_id_str id) with
  | Some bs => bs
  | None =>
      match ulid_from_string (timer_id_str id) with
      | Some u => be_bytes 16 u
      | None => uuid_new_v5 (as_bytes (timer_id_str id))
      end
  end.

(** [TimerId::from_bytes]. *)
Definition TimerId_from_bytes (bs : list Z) : TimerId := mkTimerId (uuid_to_string bs).

(** ** Keys and records *)

(** [TimerKey::new] and its bytes. *)
Definition TimerKey_new (fire_at_ms : Z) (i : InstanceId) (id : TimerId)
  : result StorageError (list Z) :=
  let? id_bytes := id_bytes_or InvalidArgument i in
  Ok (be_bytes 8 fire_at_ms ++ id_bytes ++ TimerId_to_bytes id).

(** The fields of a key of 40 bytes. *)
Definition key_fire_at (key : list Z) : Z := from_be_bytes (take 8 key).
Definition key_instance (key : list Z) : InstanceId := InstanceId_from_bytes (take 16 (drop 8 key)).
Definition key_timer (key : list Z) : TimerId := TimerId_from_bytes (drop 24 key).

(** [TimerRecord::try_from_parts]. *)
Definition try_from_parts (id : TimerId) (i : InstanceId) (fire_at trigger_time duration : Z)
  : result StorageError TimerRecord :=
  if duration =? 0 then Err InvalidArgument
  else if negb (fire_at =? saturating_add_u64 trigger_time duration) then Err InvalidArgument
  else Ok (mkTimer id i fire_at trigger_time duration).

(** The record a scanned entry stands for, when it is a timer of the instance that
    [accept]s the time of firing. *)
Definition read_timer (accept : Z -> bool) (i : InstanceId) (kv : Entry) : option TimerRecord :=
  let key := kv.1 in
  if negb (length key =? 40)%nat then None
  else if bool_decide (key_instance key <> i) then None
  else
    let fire_at := key_fire_at key in
    if negb (accept fire_at) then None
    else if negb (length kv.2 =? 8)%nat then None
    else
      let duration := from_be_bytes kv.2 in
      Some (mkTimer (key_timer key) (key_instance key) fire_at
              (Z.max 0 (fire_at - duration)) duration).

(** The bounds of a scan for the timers due at [now]. *)
Definition due_start : list Z := repeat 0 40.
Definition due_end (now_ms : Z) : list Z :=
  be_bytes 8 (saturating_add_u64 now_ms 1) ++ repeat 0 32.

Definition is_due (now_ms fire_at : Z) : bool := fire_at <=? now_ms.

(** ** Operations *)

Context {St : Type} `{TS : !TimerStorage St}.

(** [timer_set]. *)
Definition timer_set (st : St) (i : InstanceId) (id : TimerId)
    (fire_at trigger_time duration now_ms : Z) : result StorageError unit * St :=
  if fire_at <=? now_ms then (Err InvalidArgument, st)
  else if duration =? 0 then (Err InvalidArgument, st)
  else if negb (fire_at =? saturating_add_u64 trigger_time duration) then (Err InvalidArgument, st)
  else match TimerKey_new fire_at i id with
       | Err e => (Err e, st)
       | Ok key => st_put st key (be_bytes 8 duration)
       end.

(** [timer_delete]. *)
Definition timer_delete (st : St) (i : InstanceId) (id : TimerId) (fire_at : Z)
  : result StorageError unit * St :=
  match TimerKey_new fire_at i id with
  | Err e => (Err e, st)
  | Ok key => st_delete st key
  end.

(** The loop of [poll_expired_timers]. *)
Fixpoint poll_loop (st : St) (i : InstanceId) (now_ms : Z) (max_timers : nat)
    (pairs : list Entry) : result StorageError (list TimerRecord) * St :=
  match pairs with
  | [] => (Ok [], st)
  | kv :: rest =>
      match max_timers with
      | O => (Ok [], st)
      | S more =>
          match read_timer (is_due now_ms) i kv with
          | None => poll_loop st i now_ms max_timers rest
          | Some record =>
              let r := st_delete st kv.1 in
              match r.1 with
              | Err e => (Err e, r.2)
              | Ok _ =>
                  let r' := poll_loop r.2 i now_ms more rest in
                  (let? claimed := r'.1 in Ok (record :: claimed), r'.2)
              end
          end
      end
  end.

(** [poll_expired_timers]. *)
Definition poll_expired_timers (st : St) (i : InstanceId) (now_ms : Z) (max_timers : nat)
  : result StorageError (list TimerRecord) * St :=
  match st_scan st due_start (due_end now_ms) with
  | Err e => (Err e, st)
  | Ok pairs => poll_loop st i now_ms max_timers pairs
  end.

(** [scan_due_timers]. *)
Definition scan_due_timers (st : St) (i : InstanceId) (now_ms : Z)
  : result StorageError (list TimerRecord) :=
  let? pairs := st_scan st due_start (due_end now_ms) in
  Ok (omap (read_timer (is_due now_ms) i) pairs).

(** [scan_all_timers_for_instance]. *)
Definition scan_all_timers_for_instance (st : St) (i : InstanceId)
  : result StorageError (list TimerRecord) :=
  let? instance_bytes := id_bytes_or InvalidArgument i in
  let start := repeat 0 8 ++ instance_bytes ++ repeat 0 16 in
  let end_ := be_bytes 8 u64_max ++ instance_bytes ++ repeat 255 16 in
  let? pairs := st_scan st start end_ in
  Ok (omap (read_timer (fun _ => true) i) pairs).
End Timers.

(** ** [FjallTimerIndex] *)

Section FjallTimerIndex.
Context `{F : FjallApi} `{D : !DatabaseApi}.

(** The loops of [scan]. *)
Fixpoint collect_items (items : list (result string Entry)) : result StorageError (list Entry) :=
  match items with
  | [] => Ok []
  | item :: rest =>
      let? kv := map_err (fun _ => FjallError) item in
      let? results := collect_items rest in
      Ok (kv :: results)
  end.

(** [scan]: an empty bound is no bound. *)
Definition fjall_scan (ks : Keyspace) (start end_ : list Z) : result StorageError (list Entry) :=
  collect_items
    (match start, end_ with
     | [], [] => ks_iter ks
     | [], _ => ks_range ks [] end_
     | _, [] => ks_range_from ks start
     | _, _ => ks_range ks start end_
     end).

#[global] Instance fjall_timer_index : TimerStorage Keyspace := {|
  st_put := fun ks k v => let r := ks_insert ks k v in (map_err (fun _ => FjallError) r.1, r.2);
  st_get := fun ks k => map_err (fun _ => FjallError) (ks_get ks k);
  st_delete := fun ks k => let r := ks_remove ks k in (map_err (fun _ => FjallError) r.1, r.2);
  st_scan := fjall_scan;
|}.
End FjallTimerIndex.

(** ** What the operations rely on: an ordered map *)

Class TimerStorageLaws (St : Type) `{TS : !TimerStorage St} : Type := {
  st_contents : St -> gmap (list Z) (list Z);
  st_healthy : St -> Prop;
  st_put_ok : forall st k v, st_healthy st ->
    (st_put st k v).1 = Ok tt /\ st_healthy (st_put st k v).2 /\
    st_contents (st_put st k v).2 = <[k := v]> (st_contents st);
  st_delete_ok : forall st k, st_healthy st ->
    (st_delete st k).1 = Ok tt /\ st_healthy (st_delete st k).2 /\
    st_contents (st_delete st k).2 = delete k (st_contents st);
  st_scan_ok : forall st a b, st_healthy st -> a <> [] -> b <> [] ->
    exists l, st_scan st a b = Ok l /\ in_order l /\
      forall kv, kv ∈ l <-> st_contents st !! kv.1 = Some kv.2 /\ lex_le a kv.1 /\ lex_le kv.1 b;
}.

Section FjallTimerLaws.
Context `{F : FjallApi} `{D : !DatabaseApi} `{FL : !FjallLaws} `{DL : !DatabaseLaws}.

Lemma collect_items_ok l : collect_items (Ok <$> l) = Ok l.
Proof. induction l as [|kv l IH]; [done|]. cbn [fmap list_fmap collect_items map_err rbind]. by rewrite IH. Qed.

#[global] Instance fjall_timer_laws : TimerStorageLaws Keyspace.
Proof.
  refine {| st_contents := contents; st_healthy := healthy |}.
  - intros ks k v Hh. destruct (ks_insert_ok ks k v Hh) as (H1 & H2 & H3).
    cbn [st_put fjall_timer_index fst snd]. by rewrite H1.
  - intros ks k Hh. destruct (ks_remove_ok ks k Hh) as (H1 & H2 & H3).
    cbn [st_delete fjall_timer_index fst snd]. by rewrite H1.
  - intros ks a b Hh Ha Hb. destruct (ks_range_ok ks a b Hh) as (l & Hl & Ho & Hin).
    exists l. split; [|done]. cbn [st_scan fjall_timer_index]. unfold fjall_scan.
    destruct a; [done|]. destruct b; [done|]. by rewrite Hl, collect_items_ok.
Defined.
End FjallTimerLaws.

(** ** Polling *)

Section Polling.
Context `{U : UlidApi} {UL : UlidLaws} `{UA : UuidApi} {UUL : UuidLaws}.
Context {St : Type} `{TS : !TimerStorage St} `{TL : !TimerStorageLaws St}.

Lemma read_timer_some accept i kv r :
  read_timer accept i kv = Some r ->
  key_instance kv.1 = i /\ timer_instance r = i /\ accept (fire_at_ms r) = true.
Proof.
  unfold read_timer. destruct (negb _); [done|]. case_bool_decide as Hi; [done|].
  destruct (accept _) eqn:E; [|done]. cbn [negb].
  destruct (negb _); [done|]. intros [= <-]. by cbn [timer_instance fire_at_ms].
Qed.

Lemma read_timer_other accept j kv : key_instance kv.1 <> j -> read_timer accept j kv = None.
Proof. intros Hj. unfold read_timer. destruct (negb _); [done|]. by rewrite bool_decide_true. Qed.

(** The entries the loop claims. *)
Fixpoint claimed_entries (i : InstanceId) (now_ms : Z) (max_timers : nat) (pairs : list Entry)
  : list Entry :=
  match pairs, max_timers with
  | [], _ | _, O => []
  | kv :: rest, S more =>
      match read_timer (is_due now_ms) i kv with
      | None => claimed_entries i now_ms max_timers rest
      | Some _ => kv :: claimed_entries i now_ms more rest
      end
  end.

Lemma claimed_are_due i now n pairs kv :
  kv ∈ claimed_entries i now n pairs -> kv ∈ pairs /\ is_Some (read_timer (is_due now) i kv).
Proof.
  revert n; induction pairs as [|x pairs IH]; intros n; [by intros ?%not_elem_of_nil|].
  destruct n as [|n]; cbn [claimed_entries]; [by intros ?%not_elem_of_nil|].
  destruct (read_timer _ _ x) eqn:E.
  - intros [->|H%IH]%elem_of_cons; [split; [left|by eexists]|]. split; [right|]; apply H.
  - intros H%IH. split; [right|]; apply H.
Qed.

Lemma poll_loop_spec st i now n pairs :
  st_healthy st ->
  let r := poll_loop st i now n pairs in
  r.1 = Ok (take n (omap (read_timer (is_due now) i) pairs)) /\ st_healthy r.2 /\
  st_contents r.2 = foldr delete (st_contents st) (claimed_entries i now n pairs).*1.
Proof.
  revert st n; induction pairs as [|kv pairs IH]; intros st n Hh.
  { cbn. by rewrite take_nil. }
  destruct n as [|n]; [done|]. cbn [poll_loop omap list_omap claimed_entries].
  destruct (read_timer (is_due now) i kv) as [record|] eqn:E; [|by apply IH].
  destruct (st_delete_ok st kv.1 Hh) as (H1 & H2 & H3). cbn zeta. rewrite H1.
  destruct (IH _ n H2) as (E1 & E2 & E3). cbn [fst snd]. rewrite E1. cbn [rbind take fmap list_fmap].
  split; [done|]. split; [done|]. by rewrite E3, H3, foldr_delete_cons.
Qed.

(** What is left after the claimed entries are gone. *)
Lemma omap_unclaimed i now n pairs :
  in_order pairs ->
  omap (read_timer (is_due now) i)
    (base.filter (fun kv => kv.1 ∉ (claimed_entries i now n pairs).*1) pairs) =
  drop n (omap (read_timer (is_due now) i) pairs).
Proof.
  intros Ho. revert n; induction Ho as [|kv pairs Ho IH Hall]; intros n; [by destruct n|].
  rewrite Forall_forall in Hall.
  assert (forall x : Entry, x ∈ pairs -> x.1 <> kv.1) as Hne.
  { intros x Hx E. specialize (Hall _ Hx). by rewrite E, lex_refl in Hall. }
  rewrite filter_cons. destruct n as [|n].
  { cbn [claimed_entries fmap list_fmap]. rewrite decide_True by apply not_elem_of_nil.
    cbn [omap list_omap drop]. specialize (IH 0%nat). rewrite drop_0 in IH.
    assert (claimed_entries i now 0 pairs = []) as Hc by (by destruct pairs).
    rewrite Hc in IH. cbn [fmap list_fmap] in IH. by rewrite IH. }
  cbn [claimed_entries omap list_omap]. destruct (read_timer (is_due now) i kv) as [record|] eqn:E.
  - cbn [fmap list_fmap]. rewrite decide_False by (intros Hn; apply Hn; left).
    cbn [drop]. rewrite <- IH. f_equal. apply filter_ext_elem. intros x Hx.
    rewrite not_elem_of_cons. pose proof (Hne _ Hx). tauto.
  - rewrite decide_True.
    2: { intros (x & Ex & [Hx _]%claimed_are_due)%list_elem_of_fmap. by apply (Hne _ Hx). }
    cbn [omap list_omap]. rewrite E. apply IH.
Qed.

(** Scanning after entries have been deleted. *)
Lemma scan_after st st' gone a b l :
  st_healthy st -> st_healthy st' -> a <> [] -> b <> [] ->
  st_contents st' = foldr delete (st_contents st) gone -> st_scan st a b = Ok l ->
  st_scan st' a b = Ok (base.filter (fun kv => kv.1 ∉ gone) l).
Proof.
  intros Hh Hh' Ha Hb Hc Hl. destruct (st_scan_ok st a b Hh Ha Hb) as (l1 & E1 & O1 & I1).
  destruct (st_scan_ok st' a b Hh' Ha Hb) as (l2 & -> & O2 & I2).
  rewrite Hl in E1. injection E1 as <-. f_equal. apply in_order_unique; [done|by apply filter_in_order|].
  intros kv. rewrite list_elem_of_filter, I1, I2, Hc, lookup_foldr_delete. tauto.
Qed.

Lemma due_end_cons now : due_end now <> [].
Proof. intros E%(f_equal length). unfold due_end in E. rewrite length_app, be_bytes_length in E. done. Qed.

(** Polling, for every storage that is an ordered map: a poll returns the earliest due
    timers of the instance, at most as many as asked for and exactly the first that a scan
    for due timers lists, deletes those and nothing else. So no timer is returned twice,
    none of another instance is lost, and repeated polls return every due timer. *)
Theorem poll_takes_due st i now n :
  st_healthy st ->
  exists due, scan_due_timers st i now = Ok due /\
    Forall (fun t => timer_instance t = i /\ fire_at_ms t <= now) due /\
    let r := poll_expired_timers st i now n in
    r.1 = Ok (take n due) /\ st_healthy r.2 /\
    scan_due_timers r.2 i now = Ok (drop n due) /\
    (forall j t, j <> i -> scan_due_timers r.2 j t = scan_due_timers st j t) /\
    (forall j, j <> i -> scan_all_timers_for_instance r.2 j = scan_all_timers_for_instance st j).
Proof.
  intros Hh. unfold scan_due_timers, poll_expired_timers.
  destruct (st_scan_ok st due_start (due_end now) Hh ltac:(done) (due_end_cons now)) as (l & Hl & Ho & _).
  rewrite Hl. cbn [rbind]. eexists. split; [done|]. split.
  { apply Forall_forall. intros t (kv & _ & Ht)%list_elem_of_omap.
    apply read_timer_some in Ht as (_ & Hi & Hd). unfold is_due in Hd. split; [done|lia]. }
  destruct (poll_loop_spec st i now n l Hh) as (H1 & H2 & H3). cbn zeta. split; [done|].
  split; [done|]. set (gone := (claimed_entries i now n l).*1) in *.
  assert (forall accept j, j <> i -> forall l' : list Entry,
    omap (read_timer accept j) (base.filter (fun kv => kv.1 ∉ gone) l') = omap (read_timer accept j) l')
    as Hother.
  { intros accept j Hj l'. apply omap_filter_none. intros kv _ Hkv.
    apply (dec_stable (P := kv.1 ∈ gone)), list_elem_of_fmap in Hkv as (x & Ex & Hx). apply claimed_are_due in Hx as [_ [r Hr]].
    apply read_timer_some in Hr as [Hi _]. apply read_timer_other. rewrite Ex, Hi. congruence. }
  split; [|split].
  - rewrite (scan_after st _ gone _ _ l); [|done..|apply due_end_cons|done|done].
    cbn [rbind]. f_equal. by apply omap_unclaimed.
  - intros j t Hj.
    destruct (st_scan_ok st due_start (due_end t) Hh ltac:(done) (due_end_cons t)) as (l' & Hl' & _).
    rewrite (scan_after st _ gone _ _ l'); [|done..|apply due_end_cons|done|done].
    rewrite Hl'. cbn [rbind]. by rewrite Hother.
  - intros j Hj. unfold scan_all_timers_for_instance. destruct (id_bytes_or _ _) as [bs|]; [|done].
    cbn [rbind]. set (a := _ ++ bs ++ _). set (b := be_bytes 8 _ ++ _ ++ _).
    assert (a <> []) as Hna by done. assert (b <> []) as Hnb by done.
    destruct (st_scan_ok st a b Hh Hna Hnb) as (l' & Hl' & _).
    rewrite (scan_after st _ gone _ _ l') by done. rewrite Hl'. cbn [rbind]. by rewrite Hother.
Qed.
(** ** Setting *)

Lemma TimerId_bytes id : is_uuid (TimerId_to_bytes id).
Proof.
  unfold TimerId_to_bytes. destruct (uuid_parse _) eqn:E; [by eapply uuid_parse_bytes|].
  destruct (ulid_from_string _); [|apply uuid_v5_bytes].
  split; [by rewrite be_bytes_length|apply be_bytes_bytes].
Qed.

(** The identifiers that survive their encoding are the texts of UUIDs. *)
Lemma TimerId_roundtrip id :
  TimerId_from_bytes (TimerId_to_bytes id) = id <->
  exists bs, is_uuid bs /\ id = TimerId_from_bytes bs.
Proof.
  split.
  - intros E. exists (TimerId_to_bytes id). split; [apply TimerId_bytes|done].
  - intros (bs & Hbs & ->). unfold TimerId_to_bytes, TimerId_from_bytes. cbn [timer_id_str].
    by rewrite uuid_parse_to_string.
Qed.

(** The key of a timer and its fields. *)
Definition timer_key (fire_at : Z) (i : InstanceId) (id : TimerId) : list Z :=
  be_bytes 8 fire_at ++ iid_bytes_or_zero i ++ TimerId_to_bytes id.

Lemma timer_key_ok fire_at i id :
  valid_id i -> TimerKey_new fire_at i id = Ok (timer_key fire_at i id).
Proof.
  intros [u Hu]. unfold TimerKey_new, id_bytes_or, timer_key.
  by rewrite (to_bytes_wf _ _ Hu), (iid_bytes_wf _ _ Hu).
Qed.

(** The record that is read back for a timer. *)
Definition stored_timer (i : InstanceId) (id : TimerId) (fire_at duration : Z) : TimerRecord :=
  mkTimer (TimerId_from_bytes (TimerId_to_bytes id)) i fire_at (Z.max 0 (fire_at - duration)) duration.

Lemma read_stored accept i id fire_at duration :
  valid_id i -> is_u64 fire_at -> is_u64 duration -> accept fire_at = true ->
  read_timer accept i (timer_key fire_at i id, be_bytes 8 duration) =
    Some (stored_timer i id fire_at duration).
Proof.
  intros [u Hu] Hf Hd Ha. destruct (TimerId_bytes id) as [Hl _].
  unfold read_timer, timer_key, key_instance, key_fire_at, key_timer. cbn [fst snd].
  rewrite (iid_bytes_wf _ _ Hu), !length_app, !be_bytes_length, Hl. cbn [Nat.add Nat.eqb negb].
  rewrite (take_app_length' (be_bytes 8 fire_at)), (drop_app_length' (be_bytes 8 fire_at))
    by (by rewrite be_bytes_length).
  rewrite take_app_length' by (by rewrite be_bytes_length).
  rewrite app_assoc, drop_app_length' by (by rewrite length_app, !be_bytes_length).
  rewrite (InstanceId_from_bytes_be _ _ Hu), bool_decide_false by (by intros []).
  rewrite !be_bytes_id by (by apply u64_range). by rewrite Ha.
Qed.

Lemma timer_key_due fire_at i id now :
  valid_id i -> is_u64 fire_at -> is_u64 now -> now < u64_max -> fire_at <= now ->
  lex_le due_start (timer_key fire_at i id) /\ lex_le (timer_key fire_at i id) (due_end now).
Proof.
  intros [u Hu] Hf Hn Hmax Hle. destruct (TimerId_bytes id) as [Hl Hb].
  unfold timer_key, lex_le. rewrite (iid_bytes_wf _ _ Hu). split.
  - rewrite lex_from_be.
    + replace (from_be_bytes due_start) with 0 by reflexivity.
      match goal with |- (0 ?= from_be_bytes ?l) <> Gt =>
        pose proof (from_be_bytes_range l) as Hr end.
      rewrite !Forall_app in Hr. destruct Hr as [Hr _]; [by split_and!; [apply be_bytes_bytes..|]|].
      intros ?%Z.compare_gt_iff. lia.
    + apply Forall_forall. intros x Hx%list_elem_of_In%repeat_spec. by subst x.
    + rewrite !Forall_app. by split_and!; [apply be_bytes_bytes..|].
    + by rewrite !length_app, !be_bytes_length, Hl.
  - unfold due_end, saturating_add_u64. rewrite lex_app by (by rewrite !be_bytes_length).
    rewrite lex_be by (apply u64_range; ulia).
    rewrite (proj2 (Z.compare_lt_iff _ _)) by ulia. done.
Qed.

(** Setting a timer: it is refused when it would fire in the past or its times do not
    add up, and otherwise it is due exactly from its time of firing on. It is reported with
    its instance and its times (the trigger time unless the sum saturated), but under its
    own identifier only when that is the text of a UUID. *)
Theorem timer_set_fires st i id fire_at trigger duration now :
  st_healthy st -> valid_id i -> is_u64 fire_at -> is_u64 trigger -> is_u64 duration ->
  let r := timer_set st i id fire_at trigger duration now in
  let ok := now < fire_at /\ duration <> 0 /\ fire_at = saturating_add_u64 trigger duration in
  (~ ok -> r = (Err InvalidArgument, st)) /\
  (ok -> r.1 = Ok tt /\ st_healthy r.2 /\
     forall t, is_u64 t -> t < u64_max ->
       exists due, scan_due_timers r.2 i t = Ok due /\
         (stored_timer i id fire_at duration ∈ due <-> fire_at <= t)) /\
  (ok -> trigger + duration <= u64_max ->
     trigger_time_ms (stored_timer i id fire_at duration) = trigger) /\
  (timer_id (stored_timer i id fire_at duration) = id <->
     exists bs, is_uuid bs /\ id = TimerId_from_bytes bs).
Proof.
  intros Hh Hi Hf Ht Hd. cbn zeta. unfold timer_set. split; [|split; [|split]].
  - intros Hok. destruct (Z.leb_spec fire_at now); [done|]. destruct (Z.eqb_spec duration 0); [done|].
    destruct (Z.eqb_spec fire_at (saturating_add_u64 trigger duration)); [|done].
    by destruct Hok.
  - intros (Hnow & Hnz & Hsum). destruct (Z.leb_spec fire_at now); [lia|].
    rewrite (proj2 (Z.eqb_neq duration 0)), <- Hsum, Z.eqb_refl by done. cbn [negb].
    rewrite (timer_key_ok fire_at i id Hi).
    destruct (st_put_ok st (timer_key fire_at i id) (be_bytes 8 duration) Hh) as (H1 & H2 & H3).
    split; [done|]. split; [done|]. intros t Htu Hmax. unfold scan_due_timers.
    destruct (st_scan_ok _ due_start (due_end t) H2 ltac:(done) (due_end_cons t)) as (l & -> & _ & Hin).
    cbn [rbind]. eexists. split; [done|]. split.
    + intros (kv & _ & (_ & _ & Ha)%read_timer_some)%list_elem_of_omap.
      cbn [stored_timer fire_at_ms] in Ha. unfold is_due in Ha. lia.
    + intros Hle. apply list_elem_of_omap. exists (timer_key fire_at i id, be_bytes 8 duration).
      split; [|apply read_stored; try done; unfold is_due; lia].
      apply Hin. cbn [fst snd]. rewrite H3, lookup_insert_eq. split; [done|].
      by apply timer_key_due.
  - intros (_ & _ & Hsum) Hle. cbn [stored_timer trigger_time_ms]. rewrite Hsum.
    unfold saturating_add_u64. ulia.
  - cbn [stored_timer timer_id]. apply TimerId_roundtrip.
Qed.
End Polling.

(** ** The index at concrete inputs *)

Module TimersWitness.
Import ConcreteUlid MapKeyspace MapDatabase InstanceIndexWitness.

(** Sixteen characters stand for their bytes. *)
#[local] Instance text_uuid : UuidApi := {|
  uuid_parse := fun s => if (length (as_bytes s) =? 16)%nat then Some (as_bytes s) else None;
  uuid_new_v5 := fun _ => repeat 7 16;
  uuid_to_string := of_bytes;
|}.

Lemma as_bytes_of_bytes bs : Forall is_byte bs -> as_bytes (of_bytes bs) = bs.
Proof.
  intros Hb. unfold as_bytes, of_bytes. rewrite chars_of_chars, <- list_fmap_compose.
  rewrite <- (list_fmap_id bs) at 2. apply list_fmap_ext. intros k b Hk.
  rewrite Forall_forall in Hb. specialize (Hb b (list_elem_of_lookup_2 _ _ _ Hk)). unfold is_byte in Hb.
  cbn [compose id]. rewrite Ascii.nat_ascii_embedding; lia.
Qed.

Lemma as_bytes_bytes s : Forall is_byte (as_bytes s).
Proof.
  unfold as_bytes. apply Forall_fmap, Forall_true. intros c. unfold is_byte. cbn [compose].
  pose proof (Ascii.nat_ascii_bounded c). lia.
Qed.

#[local] Instance text_uuid_laws : UuidLaws.
Proof.
  split.
  - intros s bs. cbn. destruct (Nat.eqb_spec (length (as_bytes s)) 16); [|done].
    intros [= <-]. split; [done|apply as_bytes_bytes].
  - intros bs. split; [done|]. apply Forall_forall. intros x Hx%list_elem_of_In%repeat_spec.
    subst x. unfold is_byte. lia.
  - intros bs [Hl Hb]. cbn [uuid_parse uuid_to_string text_uuid].
    by rewrite as_bytes_of_bytes, Hl by done.
Qed.

Definition wake : TimerId := mkTimerId "wake-up-1".

(** A timer whose identifier is not a UUID is found under another one. *)
Lemma timer_set_fires_witness :
  exists due, scan_due_timers (St := Keyspace) (timer_set ∅ one wake 150 100 50 120).2 one 150 = Ok due /\
    stored_timer one wake 150 50 ∈ due /\ timer_id (stored_timer one wake 150 50) <> wake.
Proof.
  destruct (proj1 (proj2 (timer_set_fires (TL := fjall_timer_laws (DL := database_laws))
    ∅ one wake 150 100 50 120 I first_valid ltac:(ulia) ltac:(ulia) ltac:(ulia)))
    ltac:(split_and!; done)) as (_ & _ & H).
  destruct (H 150 ltac:(ulia) ltac:(ulia)) as (due & Hd & Hin). exists due.
  split; [exact Hd|]. split; [apply Hin; lia|]. intros E. by vm_compute in E.
Defined.

Lemma poll_takes_due_witness :
  exists due, scan_due_timers (St := Keyspace) (timer_set ∅ one wake 150 100 50 120).2 one 150 = Ok due /\
    (poll_expired_timers (St := Keyspace) (timer_set ∅ one wake 150 100 50 120).2 one 150 5).1 =
      Ok (take 5 due).
Proof.
  destruct (poll_takes_due (TL := fjall_timer_laws (DL := database_laws))
    (timer_set ∅ one wake 150 100 50 120).2 one 150 5 I) as (due & Hd & _ & Hp & _).
  exists due. exact (conj Hd Hp).
Defined.
End TimersWitness.
