(* ===== verification/Dedupe.v ===== *)
(** * Deduplication of commands

    [crates/vo-types/src/dedupe.rs] (keys), [crates/vo-storage/src/dedupe_partition/]
    (entries and their binary form, the store trait and its in-memory and [fjall]
    implementations) and [crates/vo-core/src/command_dedup.rs] (commands over any store).
    Clock readings are arguments. *)

From S2P Require Import Prelude Identifiers KeyEncoding Keyspace.
From Stdlib Require Import Ascii.

(** ** Keys *)

(** [input.chars().count()] of a UTF-8 string: the bytes that do not continue a
    character. *)
Definition char_count (s : string) : Z :=
  Z.of_nat (length (base.filter (fun b => in_range b 128 191 = false) (as_bytes s))).

(** [struct DedupeKey]. *)
Record DedupeKey : Set := mkDedupeKey { dedupe_key_str : string }.

(** [DedupeKey::parse]. *)
Definition DedupeKey_parse (input : string) : result ParseError DedupeKey :=
  if is_empty input then Err (Empty "DedupeKey")
  else if 256 <? char_count input then
    Err (ExceedsMaxLength "DedupeKey" 256 (char_count input))
  else Ok (mkDedupeKey input).

(** [struct DedupePartitionKey]. *)
Record DedupePartitionKey : Set := mkPartitionKey {
  partition_instance_id : InstanceId;
  command_type : string;
}.

(** [DedupePartitionKey::new]. *)
Definition DedupePartitionKey_new (instance_id : InstanceId) (command_type : string)
  : result ParseError DedupePartitionKey :=
  if is_empty command_type then Err (Empty "DedupePartitionKey")
  else if 256 <? char_count command_type then
    Err (ExceedsMaxLength "DedupePartitionKey" 256 (char_count command_type))
  else Ok (mkPartitionKey instance_id command_type).

(** [struct IdempotencyKey]. *)
Record IdempotencyKey : Set := mkIdempotencyKey { idempotency_key_str : string }.

(** [IdempotencyKey::parse]. *)
Definition IdempotencyKey_parse (input : string) : result ParseError IdempotencyKey :=
  if is_empty input then Err (Empty "IdempotencyKey")
  else if 1024 <? char_count input then
    Err (ExceedsMaxLength "IdempotencyKey" 1024 (char_count input))
  else
    let invalid := extract_invalid_chars input is_identifier_char in
    if negb (is_empty invalid) then Err (InvalidCharacters "IdempotencyKey" invalid)
    else Ok (mkIdempotencyKey input).

(** ** Entries *)

(** The [reason] of a [Codec] error: its text, or the data formatted into it. *)
Inductive CodecReason : Type :=
| CodecText (text : string)
| EntryTooShort (len : Z)
| KeyReason (e : KeyEncodingError)
| ParseReason (e : ParseError).

(** [enum DedupeStoreError]. *)
Inductive DedupeStoreError : Type :=
| Storage (reason : string)
| Codec (reason : CodecReason)
| InvalidArgument.

(** [enum AdmissionResult]. *)
Inductive AdmissionResult : Set := NewlyAdmitted | Duplicate (instance_id : string).

(** [struct DedupeEntry]. *)
Record DedupeEntry : Set := mkDedupeEntry {
  dedupe_key : string;
  entry_instance_id : string;
  expires_at : Z;
}.

(** [DedupeEntry::new]. *)
Definition DedupeEntry_new (dedupe_key instance_id : string) (expires_at : Z)
  : result DedupeStoreError DedupeEntry :=
  if is_empty dedupe_key || is_empty instance_id then Err InvalidArgument
  else Ok (mkDedupeEntry dedupe_key instance_id expires_at).

(** [DedupeEntry::is_expired]. *)
Definition is_expired (e : DedupeEntry) (now_ms : Z) : bool := expires_at e <=? now_ms.

(** [struct DedupeRetentionRecord]. *)
Record DedupeRetentionRecord : Set := mkRetention {
  retention_key : string;
  retention_instance_id : string;
  terminal_state_at : Z;
  retention_expires_at : Z;
}.

(** [DedupeRetentionRecord::new]. *)
Definition DedupeRetentionRecord_new (dedupe_key instance_id : string)
    (terminal_state_at retention_expires_at : Z) : result DedupeStoreError DedupeRetentionRecord :=
  if is_empty dedupe_key || is_empty instance_id then Err InvalidArgument
  else if retention_expires_at <? terminal_state_at then Err InvalidArgument
  else Ok (mkRetention dedupe_key instance_id terminal_state_at retention_expires_at).

(** [DedupeRetentionRecord::is_retention_expired]. *)
Definition is_retention_expired (r : DedupeRetentionRecord) (now_ms : Z) : bool :=
  retention_expires_at r <=? now_ms.

(** [DedupeRetentionRecord::compute_retention_expiry]. *)
Definition compute_retention_expiry (terminal_state_at retention_period_ms : Z) : Z :=
  saturating_add_u64 terminal_state_at retention_period_ms.

(** [encode_dedupe_key]; [None] is the panic of its [expect]. *)
Definition encode_dedupe_key (key : DedupeKey) : option (list Z) :=
  match KeyEncoding.encode_dedupe_key (dedupe_key_str key) with
  | Ok bytes => Some bytes
  | Err _ => None
  end.

(** [decode_dedupe_key]. *)
Definition decode_dedupe_key (bytes : list Z) : result DedupeStoreError DedupeKey :=
  let? s := map_err (fun e => Codec (KeyReason e)) (KeyEncoding.decode_dedupe_key bytes) in
  map_err (fun e => Codec (ParseReason e)) (DedupeKey_parse s).

(** [encode_dedupe_entry]. *)
Definition encode_dedupe_entry (entry : DedupeEntry) : result DedupeStoreError (list Z) :=
  let dk_bytes := as_bytes (dedupe_key entry) in
  let iid_bytes := as_bytes (entry_instance_id entry) in
  if u16_max <? blen dk_bytes then Err (Codec (CodecText "dedupe_key exceeds u16::MAX bytes"))
  else if u16_max <? blen iid_bytes then
    Err (Codec (CodecText "instance_id exceeds u16::MAX bytes"))
  else Ok (be_bytes 2 (blen dk_bytes) ++ dk_bytes ++ be_bytes 2 (blen iid_bytes) ++ iid_bytes ++
           be_bytes 8 (expires_at entry)).

(** [decode_dedupe_entry]. *)
Definition decode_dedupe_entry (bytes : list Z) : result DedupeStoreError DedupeEntry :=
  if blen bytes <? 12 then Err (Codec (EntryTooShort (blen bytes)))
  else
    let dk_len := from_be_bytes (take 2 bytes) in
    if blen bytes <? 2 + dk_len + 2 then
      Err (Codec (CodecText "truncated: cannot read instance_id length after dedupe_key"))
    else
      let? dk_str := ok_or (from_utf8 (take (Z.to_nat dk_len) (drop 2 bytes)))
                       (Codec (CodecText "dedupe_key invalid UTF-8")) in
      let after_key := drop (2 + Z.to_nat dk_len) bytes in
      let iid_len := from_be_bytes (take 2 after_key) in
      if blen bytes <? 2 + dk_len + 2 + iid_len + 8 then
        Err (Codec (CodecText "truncated: cannot read expires_at after instance_id"))
      else
        let? iid_str := ok_or (from_utf8 (take (Z.to_nat iid_len) (drop 2 after_key)))
                          (Codec (CodecText "instance_id invalid UTF-8")) in
        let expires_at :=
          from_be_bytes (take 8 (drop (2 + Z.to_nat iid_len) after_key)) in
        DedupeEntry_new dk_str iid_str expires_at.

(** ** The trait *)

(** [None] is a panic. *)
Definition outcome (St A : Type) : Type := option (result DedupeStoreError A * St).

(** [trait DedupeStore]; [check_and_insert] and [contains] read the clock. *)
Class DedupeStore (St : Type) : Type := {
  check_and_insert : Z -> St -> DedupeKey -> InstanceId -> Z -> outcome St AdmissionResult;
  purge_expired : St -> Z -> outcome St Z;
  contains : Z -> St -> DedupeKey -> outcome St bool;
}.

(** ** [InMemoryDedupeStore]; a lock is held for the whole of each operation. *)

Abbreviation Entries := (gmap string DedupeEntry).

Module InMemoryDedupe.
(** [check_and_insert]. *)
Definition check_and_insert (now_ms : Z) (entries : Entries) (key : DedupeKey)
    (instance_id : InstanceId) (ttl_ms : Z) : outcome Entries AdmissionResult :=
  if ttl_ms =? 0 then Some (Err InvalidArgument, entries)
  else
    let expires_at := saturating_add_u64 now_ms ttl_ms in
    let key_str := dedupe_key_str key in
    let on_absent :=
      match DedupeEntry_new key_str (instance_id_str instance_id) expires_at with
      | Err e => Some (Err e, entries)
      | Ok entry => Some (Ok NewlyAdmitted, <[key_str := entry]> entries)
      end in
    match entries !! key_str with
    | Some entry =>
        if negb (is_expired entry now_ms) then
          Some (Ok (Duplicate (entry_instance_id entry)), entries)
        else on_absent
    | None => on_absent
    end.

(** [purge_expired]. *)
Definition purge_expired (entries : Entries) (now_ms : Z) : outcome Entries Z :=
  let keys_to_remove :=
    fst <$> base.filter (fun kv : string * DedupeEntry => is_expired kv.2 now_ms = true)
              (map_to_list entries) in
  Some (Ok (Z.of_nat (length keys_to_remove)), foldr delete entries keys_to_remove).

(** [contains]. *)
Definition contains (now_ms : Z) (entries : Entries) (key : DedupeKey) : outcome Entries bool :=
  Some (Ok (match entries !! dedupe_key_str key with
            | Some e => negb (is_expired e now_ms)
            | None => false
            end), entries).

#[global] Instance dedupe_store : DedupeStore Entries := {|
  Dedupe.check_and_insert := check_and_insert;
  Dedupe.purge_expired := purge_expired;
  Dedupe.contains := contains;
|}.
End InMemoryDedupe.

(** ** [FjallDedupeStore]

    No lock is held: [check_and_insert] is a read of the partition and then a write. *)

Module FjallDedupe.
Section FjallDedupe.
Context `{F : FjallApi}.

(** [check_and_insert] up to its write: an answer that ends the call, or the write. A read
    error counts as an absent key. *)
Definition check (now_ms : Z) (ks : Keyspace) (key : DedupeKey) (instance_id : InstanceId)
    (ttl_ms : Z) : option (result DedupeStoreError AdmissionResult + (list Z * list Z)) :=
  if ttl_ms =? 0 then Some (inl (Err InvalidArgument))
  else
    encoded_key ← encode_dedupe_key key;
    let expires_at := saturating_add_u64 now_ms ttl_ms in
    let write :=
      (let? entry := DedupeEntry_new (dedupe_key_str key) (instance_id_str instance_id)
                       expires_at in
       encode_dedupe_entry entry) in
    let on_absent := match write with
                 | Ok value => inr (encoded_key, value)
                 | Err e => inl (Err e)
                 end in
    Some (match ks_get ks encoded_key with
          | Ok (Some value_bytes) =>
              match decode_dedupe_entry value_bytes with
              | Err e => inl (Err e)
              | Ok entry =>
                  if negb (is_expired entry now_ms) then
                    inl (Ok (Duplicate (entry_instance_id entry)))
                  else on_absent
              end
          | _ => on_absent
          end).

(** The write of [check_and_insert]. *)
Definition write (ks : Keyspace) (kv : list Z * list Z)
  : result DedupeStoreError AdmissionResult * Keyspace :=
  let '(r, ks') := ks_insert ks kv.1 kv.2 in
  (let? _ := map_err Storage r in Ok NewlyAdmitted, ks').

(** [check_and_insert], uninterrupted. *)
Definition check_and_insert (now_ms : Z) (ks : Keyspace) (key : DedupeKey)
    (instance_id : InstanceId) (ttl_ms : Z) : outcome Keyspace AdmissionResult :=
  c ← check now_ms ks key instance_id ttl_ms;
  Some (match c with inl answer => (answer, ks) | inr kv => write ks kv end).

(** The loop of [purge_expired] on one item: the key, if its entry is to go. *)
Definition purge_step (now_ms : Z) (item : result string (list Z * list Z))
  : result DedupeStoreError (option (list Z)) :=
  let? kv := map_err Storage item in
  Ok (match decode_dedupe_entry kv.2 with
      | Ok entry => if is_expired entry now_ms then Some kv.1 else None
      | Err _ => None
      end).

(** [purge_expired]. *)
Definition purge_expired (ks : Keyspace) (now_ms : Z) : outcome Keyspace Z :=
  Some (match collect_result (purge_step now_ms) (ks_iter ks) with
        | Err e => (Err e, ks)
        | Ok found =>
            let keys_to_delete := omap id found in
            if bool_decide (keys_to_delete = []) then (Ok 0, ks)
            else
              let '(r, ks') := ks_commit ks (BatchRemove <$> keys_to_delete) in
              (let? _ := map_err Storage r in Ok (Z.of_nat (length keys_to_delete)), ks')
        end).

(** [contains]. *)
Definition contains (now_ms : Z) (ks : Keyspace) (key : DedupeKey) : outcome Keyspace bool :=
  encoded_key ← encode_dedupe_key key;
  Some (match ks_get ks encoded_key with
        | Ok (Some value_bytes) =>
            let? entry := decode_dedupe_entry value_bytes in Ok (negb (is_expired entry now_ms))
        | Ok None => Ok false
        | Err e => Err (Storage e)
        end, ks).

#[global] Instance dedupe_store : DedupeStore Keyspace := {|
  Dedupe.check_and_insert := check_and_insert;
  Dedupe.purge_expired := purge_expired;
  Dedupe.contains := contains;
|}.
End FjallDedupe.
End FjallDedupe.

(** ** Commands *)

(** [enum CommandDedupResult]. *)
Inductive CommandDedupResult : Set :=
| CommandAdmitted
| CommandDuplicate (original_instance_id : string).

(** [enum CommandDedupError]; a reason is the error it prints. *)
Inductive CommandDedupError : Type :=
| EmptyCommandId
| InvalidCommandId (reason : ParseError)
| DedupeStoreFailed (reason : DedupeStoreError).

(** [dedupe_key_from_envelope], given the command id of the envelope's metadata. *)
Definition dedupe_key_from_envelope (command_id : IdempotencyKey)
  : result CommandDedupError DedupeKey :=
  let cmd_id := idempotency_key_str command_id in
  if is_empty cmd_id then Err EmptyCommandId
  else map_err InvalidCommandId (DedupeKey_parse ("cmd:" +:+ cmd_id)).

Section Commands.
Context {St : Type} `{!DedupeStore St}.

(** [check_command_duplicate]. *)
Definition check_command_duplicate (now_ms : Z) (command_id : IdempotencyKey) (store : St)
    (instance_id : InstanceId) (ttl_ms : Z)
  : option (result CommandDedupError CommandDedupResult * St) :=
  match dedupe_key_from_envelope command_id with
  | Err e => Some (Err e, store)
  | Ok key =>
      '(r, store') ← check_and_insert now_ms store key instance_id ttl_ms;
      Some (match r with
            | Ok NewlyAdmitted => Ok CommandAdmitted
            | Ok (Duplicate i) => Ok (CommandDuplicate i)
            | Err e => Err (DedupeStoreFailed e)
            end, store')
  end.

(** [is_command_duplicate]. *)
Definition is_command_duplicate (now_ms : Z) (command_id : IdempotencyKey) (store : St)
  : option (result CommandDedupError bool * St) :=
  match dedupe_key_from_envelope command_id with
  | Err e => Some (Err e, store)
  | Ok key =>
      '(r, store') ← contains now_ms store key;
      Some (map_err DedupeStoreFailed r, store')
  end.
End Commands.

(** ** The binary form of an entry *)

Definition text_ok (s : string) : Prop :=
  is_empty s = false /\ utf8_valid (as_bytes s) = true /\ blen (as_bytes s) <= u16_max.

Definition entry_wf (e : DedupeEntry) : Prop :=
  text_ok (dedupe_key e) /\ text_ok (entry_instance_id e) /\ is_u64 (expires_at e).

Definition entry_bytes (e : DedupeEntry) : list Z :=
  be_bytes 2 (blen (as_bytes (dedupe_key e))) ++ as_bytes (dedupe_key e) ++
  be_bytes 2 (blen (as_bytes (entry_instance_id e))) ++ as_bytes (entry_instance_id e) ++
  be_bytes 8 (expires_at e).

Lemma from_utf8_text s : utf8_valid (as_bytes s) = true -> from_utf8 (as_bytes s) = Some s.
Proof. intros H. unfold from_utf8. by rewrite H, of_bytes_as_bytes. Qed.

Lemma u16_bytes n : 0 <= n <= u16_max -> from_be_bytes (be_bytes 2 n) = n.
Proof. intros. apply be_bytes_id. cbn. ulia. Qed.

Lemma encode_dedupe_entry_ok e : entry_wf e -> encode_dedupe_entry e = Ok (entry_bytes e).
Proof.
  intros ((_ & _ & H1) & (_ & _ & H2) & _). unfold encode_dedupe_entry.
  destruct (Z.ltb_spec u16_max (blen (as_bytes (dedupe_key e)))); [lia|].
  by destruct (Z.ltb_spec u16_max (blen (as_bytes (entry_instance_id e)))); [lia|].
Qed.

(** Reading the parts of [len16 ++ a ++ len16 ++ b ++ c]. *)
Lemma decode_dedupe_entry_bytes e : entry_wf e -> decode_dedupe_entry (entry_bytes e) = Ok e.
Proof.
  intros ((Hk1 & Hk2 & Hk3) & (Hi1 & Hi2 & Hi3) & Hx). unfold entry_bytes, decode_dedupe_entry.
  set (k := as_bytes (dedupe_key e)) in *. set (i := as_bytes (entry_instance_id e)) in *.
  assert (0 <= blen k /\ 0 <= blen i) as [Hk0 Hi0] by (unfold blen; lia).
  assert (Z.to_nat (blen k) = length k /\ Z.to_nat (blen i) = length i) as [Ek Ei]
    by (unfold blen; lia).
  assert (forall n, length (be_bytes 2 n) = 2%nat) as L2 by (intros; apply be_bytes_length).
  assert (forall n, length (be_bytes 8 n) = 8%nat) as L8 by (intros; apply be_bytes_length).
  assert (blen (be_bytes 2 (blen k) ++ k ++ be_bytes 2 (blen i) ++ i ++ be_bytes 8 (expires_at e))
          = 12 + blen k + blen i) as ->.
  { unfold blen. rewrite !length_app, !L2, L8. lia. }
  destruct (Z.ltb_spec (12 + blen k + blen i) 12); [lia|].
  rewrite (take_app_length' (be_bytes 2 (blen k))), u16_bytes by (done || lia).
  destruct (Z.ltb_spec (12 + blen k + blen i) (2 + blen k + 2)); [lia|].
  rewrite Ek, <- !drop_drop, (drop_app_length' (be_bytes 2 (blen k))) by done.
  rewrite take_app_length, drop_app_length. unfold k at 1. rewrite from_utf8_text by done.
  cbn [ok_or rbind]. rewrite (take_app_length' (be_bytes 2 (blen i))), u16_bytes by (done || lia).
  destruct (Z.ltb_spec (12 + blen k + blen i) (2 + blen k + 2 + blen i + 8)); [lia|].
  rewrite (drop_app_length' (be_bytes 2 (blen i))) by done. rewrite Ei, take_app_length.
  unfold i at 1. rewrite from_utf8_text by done. cbn [ok_or rbind].
  rewrite drop_app_length, take_ge by (rewrite L8; lia).
  rewrite be_bytes_id by (cbn; ulia). unfold DedupeEntry_new. rewrite Hk1, Hi1. cbn.
  by destruct e.
Qed.

(** A UTF-8 string starts with a byte that does not continue a character, followed by at
    most three more bytes of its character. *)
Lemma utf8_first b0 r0 :
  utf8_valid (b0 :: r0) = true ->
  in_range b0 128 191 = false /\
  exists tail r, r0 = tail ++ r /\ (length tail <= 3)%nat /\ utf8_valid r = true.
Proof.
  intros Hv. cbn [utf8_valid] in Hv. destruct (in_range b0 0 127) eqn:E0.
  { split; [unfold in_range in *; lia|]. exists [], r0. cbn. split_and!; done || lia. }
  destruct r0 as [|b1 r1]; [done|]. destruct (in_range b0 194 223) eqn:E1.
  { apply andb_true_iff in Hv as [_ Hv]. split; [unfold in_range in *; lia|].
    exists [b1], r1. cbn. split_and!; done || lia. }
  destruct r1 as [|b2 r2]; [done|].
  assert (utf8_valid r2 = true -> exists tail r, b1 :: b2 :: r2 = tail ++ r /\
            (length tail <= 3)%nat /\ utf8_valid r = true) as H3
    by (exists [b1; b2], r2; cbn; split_and!; done || lia).
  destruct (b0 =? 224) eqn:E2; [|destruct (in_range b0 225 236 || in_range b0 238 239) eqn:E3;
    [|destruct (b0 =? 237) eqn:E4]].
  1-3: apply andb_true_iff in Hv as [_ Hv]; split; [unfold in_range in *; lia|by apply H3].
  destruct r2 as [|b3 r3]; [done|]. rewrite !andb_true_iff in Hv. destruct Hv as [[[Hb _] _] Hv].
  split; [|exists [b1; b2; b3], r3; cbn; split_and!; done || lia].
  destruct (b0 =? 240) eqn:?, (in_range b0 241 243) eqn:?, (b0 =? 244) eqn:?; try done;
    unfold in_range in *; lia.
Qed.

(** Every character of a UTF-8 string takes at most four bytes. *)
Lemma utf8_length n bs :
  (length bs <= n)%nat -> utf8_valid bs = true ->
  (length bs <= 4 * length (base.filter (fun b => in_range b 128 191 = false) bs))%nat.
Proof.
  revert bs. induction n as [|n IH]; intros bs Hn Hv; [by destruct bs; cbn in *; [|lia]|].
  destruct bs as [|b0 r0]; [cbn; lia|].
  destruct (utf8_first _ _ Hv) as (Hb & tail & r & -> & Ht & Hr).
  rewrite filter_cons, decide_True, filter_app by done. cbn [length] in *.
  rewrite length_app in Hn. rewrite !length_app. specialize (IH r ltac:(lia) Hr). lia.
Qed.

(** ** The contract: the in-memory store *)

(** The keys [parse] makes, of UTF-8 text. *)
Definition key_ok (k : string) : Prop :=
  is_empty k = false /\ char_count k <= 256 /\ utf8_valid (as_bytes k) = true.

Lemma key_text k : key_ok k -> text_ok k.
Proof.
  intros (H1 & H2 & H3). split_and!; [done..|]. unfold char_count in H2. unfold blen.
  pose proof (utf8_length _ _ (le_n _) H3). ulia.
Qed.

Lemma DedupeKey_parse_ok s k :
  utf8_valid (as_bytes s) = true -> DedupeKey_parse s = Ok k -> k = mkDedupeKey s /\ key_ok s.
Proof.
  intros Hu. unfold DedupeKey_parse. destruct (is_empty s) eqn:He; [done|].
  destruct (Z.ltb_spec 256 (char_count s)); [done|]. by intros [= <-].
Qed.

(** Calls, with their clock readings, and answers. *)
Inductive DedupeOp : Type :=
| OpCheck (now_ms : Z) (key : DedupeKey) (instance_id : InstanceId) (ttl_ms : Z)
| OpPurge (now_ms : Z)
| OpContains (now_ms : Z) (key : DedupeKey).

Inductive DedupeAnswer : Type :=
| AnsAdmission (r : result DedupeStoreError AdmissionResult)
| AnsPurged (r : result DedupeStoreError Z)
| AnsContains (r : result DedupeStoreError bool).

Definition dedupe_exec {St} `{!DedupeStore St} (st : St) (op : DedupeOp)
  : option (DedupeAnswer * St) :=
  match op with
  | OpCheck now k i ttl => '(r, st') ← check_and_insert now st k i ttl; Some (AnsAdmission r, st')
  | OpPurge now => '(r, st') ← purge_expired st now; Some (AnsPurged r, st')
  | OpContains now k => '(r, st') ← contains now st k; Some (AnsContains r, st')
  end.

Fixpoint dedupe_run {St} `{!DedupeStore St} (st : St) (ops : list DedupeOp)
  : option (list DedupeAnswer * St) :=
  match ops with
  | [] => Some ([], st)
  | op :: ops' =>
      '(x, st1) ← dedupe_exec st op; '(xs, st2) ← dedupe_run st1 ops'; Some (x :: xs, st2)
  end.

Section Contract.
Context `{U : UlidApi}.

Definition dedupe_op_valid (op : DedupeOp) : Prop :=
  match op with
  | OpCheck now k i ttl =>
      key_ok (dedupe_key_str k) /\ (exists u, InstanceId_wf i u) /\ is_u64 now /\ is_u64 ttl
  | OpPurge _ => True
  | OpContains _ k => key_ok (dedupe_key_str k)
  end.

Definition entries_wf (a : Entries) : Prop :=
  forall k e, a !! k = Some e -> dedupe_key e = k /\ key_ok k /\ entry_wf e.

(** A store that answers as the in-memory one. *)
Class ImplementsDedupe {St} `{!DedupeStore St} (rep : Entries -> St -> Prop) : Prop := {
  dedupe_step : forall a st op x a',
    rep a st -> entries_wf a -> dedupe_op_valid op -> dedupe_exec a op = Some (x, a') ->
    exists st', dedupe_exec st op = Some (x, st') /\ rep a' st';
}.

Context `{UL : !UlidLaws}.

Lemma instance_text i u : InstanceId_wf i u -> text_ok (instance_id_str i).
Proof.
  intros [Hu ->]. cbn. pose proof (ulid_to_len u Hu) as Hlen. unfold len in Hlen.
  pose proof (ulid_to_alnum u Hu) as Ha. split_and!.
  - by destruct (ulid_to_string u).
  - apply utf8_ascii. unfold as_bytes. apply Forall_fmap. eapply Forall_impl; [exact Ha|].
    intros c Hc. apply identifier_char_ascii. unfold is_identifier_char. by rewrite Hc.
  - unfold blen, as_bytes. rewrite length_fmap, Hlen. ulia.
Qed.

Lemma new_entry_ok k i u now ttl :
  key_ok k -> InstanceId_wf i u -> is_u64 now -> is_u64 ttl ->
  let e := mkDedupeEntry k (instance_id_str i) (saturating_add_u64 now ttl) in
  DedupeEntry_new k (instance_id_str i) (saturating_add_u64 now ttl) = Ok e /\ entry_wf e.
Proof.
  intros Hk Hi Hn Ht. pose proof (key_text k Hk) as Htk. pose proof (instance_text i u Hi) as Hti.
  split; [unfold DedupeEntry_new; by rewrite (proj1 Htk), (proj1 Hti)|].
  split; [exact Htk|split; [exact Hti|cbn; ulia]].
Qed.

(** The answers of the contract. *)
Definition live (a : Entries) (k : string) (now : Z) : option DedupeEntry :=
  match a !! k with Some e => if is_expired e now then None else Some e | None => None end.

Lemma spec_check now a k i u ttl :
  dedupe_op_valid (OpCheck now k i ttl) -> InstanceId_wf i u ->
  dedupe_exec a (OpCheck now k i ttl) =
    Some (if ttl =? 0 then (AnsAdmission (Err InvalidArgument), a)
          else match live a (dedupe_key_str k) now with
               | Some e => (AnsAdmission (Ok (Duplicate (entry_instance_id e))), a)
               | None => (AnsAdmission (Ok NewlyAdmitted),
                          <[dedupe_key_str k := mkDedupeEntry (dedupe_key_str k)
                              (instance_id_str i) (saturating_add_u64 now ttl)]> a)
               end).
Proof.
  intros (Hk & _ & Hn & Ht) Hi. cbn. unfold InMemoryDedupe.check_and_insert, live.
  destruct (ttl =? 0); [done|].
  destruct (new_entry_ok _ _ _ _ _ Hk Hi Hn Ht) as [-> _].
  destruct (a !! dedupe_key_str k) as [e|]; [|done]. by destruct (is_expired e now).
Qed.

Lemma spec_contains now a k :
  dedupe_exec a (OpContains now k) =
    Some (AnsContains (Ok (bool_decide (is_Some (live a (dedupe_key_str k) now)))), a).
Proof.
  cbn. unfold live. destruct (a !! dedupe_key_str k) as [e|]; [|done].
  by destruct (is_expired e now).
Qed.

Lemma spec_purge now a :
  dedupe_exec a (OpPurge now) =
    Some (AnsPurged (Ok (Z.of_nat (size (base.filter (fun kv => is_expired kv.2 now = true) a)))),
          base.filter (fun kv => ~ is_expired kv.2 now = true) a).
Proof.
  cbn. rewrite length_fmap. f_equal. f_equal.
  - do 3 f_equal. by rewrite <- length_map_to_list, map_filter_to_list.
  - apply delete_filtered_keys.
Qed.
End Contract.

(** ** The [fjall] store implements the contract *)

Section FjallDedupeImplements.
Context `{F : FjallApi} `{FL : !FjallLaws} `{U : UlidApi} `{UL : !UlidLaws}.

Definition key_bytes (k : string) : list Z := be_bytes 2 (blen (as_bytes k)) ++ as_bytes k.

Lemma encode_dedupe_key_ok k :
  key_ok (dedupe_key_str k) -> encode_dedupe_key k = Some (key_bytes (dedupe_key_str k)).
Proof.
  intros (_ & _ & Hl)%key_text.
  unfold encode_dedupe_key, KeyEncoding.encode_dedupe_key, encode_length_prefixed.
  by destruct (Z.ltb_spec u16_max (blen (as_bytes (dedupe_key_str k)))); [lia|].
Qed.

Lemma key_bytes_inj k1 k2 : key_ok k1 -> key_ok k2 -> key_bytes k1 = key_bytes k2 -> k1 = k2.
Proof.
  intros _ _ E. apply app_inj_1 in E as [_ E]; [|by rewrite !be_bytes_length].
  by apply as_bytes_inj.
Qed.

Definition fjall_dedupe (a : Entries) (ks : Keyspace) : Prop :=
  healthy ks /\ encodes key_ok key_bytes entry_bytes a (contents ks).

Lemma dedupe_get a ks k :
  fjall_dedupe a ks -> entries_wf a -> key_ok k ->
  ks_get ks (key_bytes k) = Ok (entry_bytes <$> a !! k) /\
  forall e, a !! k = Some e -> decode_dedupe_entry (entry_bytes e) = Ok e.
Proof.
  intros [Hh He] Ha Hk. split.
  - by rewrite ks_get_ok, (encodes_lookup _ _ _ key_bytes_inj a _ _ He Hk).
  - intros e (_ & _ & Hw)%Ha. by apply decode_dedupe_entry_bytes.
Qed.

Lemma fjall_check a ks now k i u ttl :
  fjall_dedupe a ks -> entries_wf a -> dedupe_op_valid (OpCheck now k i ttl) ->
  InstanceId_wf i u ->
  FjallDedupe.check now ks k i ttl =
    Some (if ttl =? 0 then inl (Err InvalidArgument)
          else match live a (dedupe_key_str k) now with
               | Some e => inl (Ok (Duplicate (entry_instance_id e)))
               | None => inr (key_bytes (dedupe_key_str k),
                              entry_bytes (mkDedupeEntry (dedupe_key_str k)
                                (instance_id_str i) (saturating_add_u64 now ttl)))
               end).
Proof.
  intros HR Ha (Hk & _ & Hn & Ht) Hi. unfold FjallDedupe.check, live.
  destruct (ttl =? 0); [done|]. rewrite encode_dedupe_key_ok by done.
  cbn [mbind option_bind].
  destruct (new_entry_ok _ _ _ _ _ Hk Hi Hn Ht) as [-> Hw]. cbn [rbind].
  rewrite encode_dedupe_entry_ok by done.
  destruct (dedupe_get _ _ _ HR Ha Hk) as [-> Hd].
  destruct (a !! dedupe_key_str k) as [e|]; cbn [fmap option_fmap option_map]; [|done].
  rewrite (Hd e eq_refl). by destruct (is_expired e now).
Qed.

Lemma fjall_write a ks k e :
  fjall_dedupe a ks -> key_ok k ->
  exists ks', FjallDedupe.write ks (key_bytes k, entry_bytes e) = (Ok NewlyAdmitted, ks') /\
    fjall_dedupe (<[k := e]> a) ks'.
Proof.
  intros [Hh He] Hk. unfold FjallDedupe.write. cbn [fst snd].
  destruct (ks_insert_ok ks (key_bytes k) (entry_bytes e) Hh) as (H1 & H2 & H3).
  destruct (ks_insert _ _ _) as [r ks']. cbn [fst snd] in *. subst r. exists ks'.
  split; [done|]. split; [done|]. rewrite H3. by apply (encodes_insert _ key_bytes entry_bytes key_bytes_inj).
Qed.

Lemma fold_removes (l : list (list Z)) m :
  fold_left apply_item (BatchRemove <$> l) m = foldr delete m l.
Proof.
  revert m; induction l as [|k l IH]; intros m; [done|]. cbn [fmap list_fmap fold_left apply_item].
  by rewrite IH, foldr_delete_cons.
Qed.

(** What a purge finds in the partition. *)
Lemma fjall_purge_found a ks now :
  fjall_dedupe a ks -> entries_wf a ->
  exists found, collect_result (FjallDedupe.purge_step now) (ks_iter ks) = Ok found /\
    omap id found ≡ₚ key_bytes <$> (fst <$> base.filter
      (fun kv : string * DedupeEntry => is_expired kv.2 now = true) (map_to_list a)).
Proof.
  intros [Hh He] Ha. destruct (ks_iter_ok ks Hh) as (l & -> & Hl).
  rewrite (encodes_to_list _ _ _ key_bytes_inj a _ He) in Hl.
  set (g := fun kv : list Z * list Z =>
              match decode_dedupe_entry kv.2 with
              | Ok entry => if is_expired entry now then Some kv.1 else None
              | Err _ => None
              end).
  exists (g <$> l). split.
  { clear Hl. induction l as [|kv l IH]; [done|]. cbn [fmap list_fmap collect_result].
    unfold FjallDedupe.purge_step at 1. cbn [map_err rbind]. rewrite IH. done. }
  rewrite omap_fmap, Hl, omap_fmap. clear Hl.
  assert (Forall (fun kv => entry_wf kv.2) (map_to_list a)) as Hw.
  { apply Forall_forall. intros [k e] Hkv%elem_of_map_to_list. by destruct (Ha k e Hkv) as (_ & _ & ?). }
  induction Hw as [|[k e] m Hkv _ IH]; [done|]. rewrite filter_cons. csimpl. unfold g at 1. cbn [fst snd].
  rewrite decode_dedupe_entry_bytes by done.
  destruct (is_expired e now); [rewrite decide_True by done|rewrite decide_False by done];
    csimpl; by rewrite IH.
Qed.

#[global] Instance fjall_implements_dedupe : ImplementsDedupe fjall_dedupe.
Proof.
  split. intros a ks op x a' HR Ha Hop. destruct op as [now k i ttl|now|now k].
  - pose proof Hop as (Hk & [u Hi] & _). rewrite (spec_check _ _ _ _ u) by done. cbn -[InMemoryDedupe.check_and_insert].
    unfold FjallDedupe.check_and_insert. rewrite (fjall_check a ks now k i u ttl) by done.
    cbn [mbind option_bind]. destruct (ttl =? 0); [intros [= <- <-]; by exists ks|].
    destruct (live a (dedupe_key_str k) now) as [e|]; [intros [= <- <-]; by exists ks|].
    intros [= <- <-].
    destruct (fjall_write a ks (dedupe_key_str k) (mkDedupeEntry (dedupe_key_str k)
      (instance_id_str i) (saturating_add_u64 now ttl)) HR Hk) as (ks' & -> & HR').
    by exists ks'.
  - rewrite spec_purge. intros [= <- <-]. cbn [dedupe_exec purge_expired FjallDedupe.dedupe_store].
    unfold FjallDedupe.purge_expired.
    destruct (fjall_purge_found a ks now HR Ha) as (found & -> & Hp). pose proof HR as [Hh He].
    destruct (encodes_compact _ _ _ (fun kv => is_expired kv.2 now = true) a (contents ks)
      (omap id found) key_bytes_inj He Hp) as [He' Hlen].
    case_bool_decide as Hempty.
    + exists ks. rewrite Hempty in Hlen, He'. cbn in Hlen. rewrite <- Hlen. split; [done|]. by split.
    + destruct (ks_commit_ok ks (BatchRemove <$> omap id found) Hh) as (H1 & H2 & H3).
      destruct (ks_commit _ _) as [r ks']. cbn [fst snd] in *. subst r. exists ks'.
      cbn [map_err rbind mbind option_bind]. rewrite Hlen. split; [done|].
      split; [done|]. by rewrite H3, fold_removes.
  - rewrite spec_contains. intros [= <- <-]. exists ks. split; [|done].
    cbn [dedupe_exec contains FjallDedupe.dedupe_store]. unfold FjallDedupe.contains, live.
    rewrite encode_dedupe_key_ok by done. cbn [mbind option_bind].
    destruct (dedupe_get _ _ _ HR Ha Hop) as [-> Hd].
    destruct (a !! dedupe_key_str k) as [e|]; cbn [fmap option_fmap option_map]; [|done].
    rewrite (Hd e eq_refl). cbn [rbind]. by destruct (is_expired e now).
Qed.
End FjallDedupeImplements.

(** ** Properties *)

Section DedupeProperties.
Context `{F : FjallApi} `{FL : !FjallLaws} `{U : UlidApi} `{UL : !UlidLaws}.

#[local] Instance in_memory_implements_dedupe : ImplementsDedupe (fun a st : Entries => st = a).
Proof. split. intros a st op x a' -> _ _ E. by exists a'. Qed.

Lemma entries_wf_step a op x a' :
  entries_wf a -> dedupe_op_valid op -> dedupe_exec a op = Some (x, a') -> entries_wf a'.
Proof.
  intros Ha Hop. destruct op as [now k i ttl|now|now k].
  - pose proof Hop as (Hk & [u Hi] & Hn & Ht). rewrite (spec_check _ _ _ _ u) by done.
    destruct (ttl =? 0); [by intros [= <- <-]|]. destruct (live _ _ _); intros [= <- <-]; [done|].
    intros k2 e. rewrite lookup_insert_Some. intros [[<- <-]|[_ He]]; [|by apply Ha].
    split_and!; [done|apply Hk..|]. by destruct (new_entry_ok _ _ _ _ _ Hk Hi Hn Ht).
  - rewrite spec_purge. intros [= <- <-] k e [He _]%map_lookup_filter_Some. by apply Ha.
  - rewrite spec_contains. by intros [= <- <-].
Qed.

(** The in-memory store always answers. *)
Lemma spec_total a op : exists x a', dedupe_exec (a : Entries) op = Some (x, a').
Proof.
  destruct op as [now k i ttl|now|now k]; cbn; [|by eexists _, _..].
  unfold InMemoryDedupe.check_and_insert. repeat case_match; by eexists _, _.
Qed.

Lemma dedupe_run_refines {St} `{!DedupeStore St} (rep : Entries -> St -> Prop)
    `{!ImplementsDedupe rep} a st ops :
  rep a st -> entries_wf a -> Forall dedupe_op_valid ops ->
  exists xs a' st', dedupe_run a ops = Some (xs, a') /\ dedupe_run st ops = Some (xs, st') /\
    rep a' st' /\ entries_wf a'.
Proof.
  intros HR Ha Hops. revert a st HR Ha; induction Hops as [|op ops Hop _ IH]; intros a st HR Ha.
  { by exists [], a, st. }
  destruct (spec_total a op) as (x & a1 & E).
  destruct (dedupe_step a st op x a1 HR Ha Hop E) as (st1 & E' & HR1).
  destruct (IH a1 st1 HR1) as (xs & a2 & st2 & E1 & E2 & HR2 & Ha2); [by eapply entries_wf_step|].
  exists (x :: xs), a2, st2. cbn [dedupe_run]. rewrite E, E'. cbn [mbind option_bind].
  rewrite E1, E2. done.
Qed.

(** C14. The two deduplication stores agree: started empty, on every sequence of checks,
    purges and queries at any clock readings, the [fjall] store never panics and gives
    exactly the answers of the in-memory store. *)
Theorem dedupe_stores_agree ks ops :
  healthy ks -> contents ks = ∅ -> Forall dedupe_op_valid ops ->
  exists xs a ks',
    dedupe_run (∅ : Entries) ops = Some (xs, a) /\ dedupe_run ks ops = Some (xs, ks') /\
    fjall_dedupe a ks'.
Proof.
  intros Hh Hc Hops. destruct (dedupe_run_refines fjall_dedupe ∅ ks ops)
    as (xs & a & ks' & H1 & H2 & H3 & _); [|by intros k e; rewrite lookup_empty|done|by exists xs, a, ks'].
  split; [done|]. rewrite Hc. apply encodes_empty.
Qed.

Definition clock_of (op : DedupeOp) : Z :=
  match op with OpCheck now _ _ _ => now | OpPurge now => now | OpContains now _ => now end.

(** An entry stays while the clock readings are before its expiry. *)
Lemma entry_survives a op x a' k e :
  dedupe_op_valid op -> clock_of op < expires_at e -> a !! k = Some e ->
  dedupe_exec a op = Some (x, a') -> a' !! k = Some e.
Proof.
  intros Hop Hc He. assert (is_expired e (clock_of op) = false) as Hl by (unfold is_expired; lia).
  destruct op as [now k2 i ttl|now|now k2]; cbn in Hl.
  - pose proof Hop as (Hk & [u Hi] & _). rewrite (spec_check _ _ _ _ u) by done. unfold live.
    destruct (ttl =? 0); [by intros [= <- <-]|].
    destruct (decide (k = dedupe_key_str k2)) as [->|Hne].
    + rewrite He, Hl. by intros [= <- <-].
    + case_match; intros [= <- <-]; [done|]. by rewrite lookup_insert_ne.
  - rewrite spec_purge. intros [= <- <-]. apply map_lookup_filter_Some. cbn. by rewrite Hl.
  - rewrite spec_contains. by intros [= <- <-].
Qed.

Lemma entry_survives_run a ops xs a' k e :
  Forall dedupe_op_valid ops -> Forall (fun op => clock_of op < expires_at e) ops ->
  a !! k = Some e -> dedupe_run a ops = Some (xs, a') -> a' !! k = Some e.
Proof.
  intros Hv. revert a xs; induction Hv as [|op ops Hop _ IH]; intros a xs Hc He;
    cbn [dedupe_run]; [by intros [= <- <-]|].
  apply Forall_cons in Hc as [Hc Hcs].
  destruct (dedupe_exec a op) as [[x a1]|] eqn:E; [|done]. cbn [mbind option_bind].
  destruct (dedupe_run a1 ops) as [[ys a2]|] eqn:E2; [|done]. cbn. intros [= <- <-].
  by eapply IH; [| |exact E2]; [done|eapply entry_survives].
Qed.
End DedupeProperties.

(** ** Commands over any store *)

Section CommandProperties.
Context `{F : FjallApi} `{FL : !FjallLaws} `{U : UlidApi} `{UL : !UlidLaws}.

Lemma ascii_bytes s :
  Forall (fun c => is_identifier_char c = true) (chars s) ->
  Forall (fun b => 0 <= b <= 127) (as_bytes s).
Proof.
  intros H. unfold as_bytes. apply Forall_fmap. eapply Forall_impl; [exact H|].
  apply identifier_char_ascii.
Qed.

Lemma char_count_ascii s : Forall (fun b => 0 <= b <= 127) (as_bytes s) -> char_count s = len s.
Proof.
  unfold char_count, len, as_bytes. generalize (chars s). intros l. induction l as [|c l IH]; [done|].
  cbn [fmap list_fmap]. intros [Hc Hl]%Forall_cons. rewrite filter_cons, decide_True.
  - cbn [length]. specialize (IH Hl). lia.
  - unfold in_range. lia.
Qed.

Lemma cmd_bytes s : as_bytes ("cmd:" +:+ s) = [99; 109; 100; 58] ++ as_bytes s.
Proof. done. Qed.

Lemma IdempotencyKey_parse_ok s id :
  IdempotencyKey_parse s = Ok id ->
  id = mkIdempotencyKey s /\ is_empty s = false /\ Forall (fun b => 0 <= b <= 127) (as_bytes s) /\
  len s <= 1024.
Proof.
  unfold IdempotencyKey_parse. destruct (is_empty s) eqn:He; [done|].
  destruct (Z.ltb_spec 1024 (char_count s)); [done|].
  destruct (is_empty (extract_invalid_chars s is_identifier_char)) eqn:Hx; cbn [negb]; [|done].
  intros [= <-]. apply extract_invalid_empty, ascii_bytes in Hx.
  rewrite char_count_ascii in * by done. split_and!; [done..|lia].
Qed.

(** The key of a command, as a number of characters and as text. *)
Lemma command_key s id :
  IdempotencyKey_parse s = Ok id ->
  dedupe_key_from_envelope id =
    (if 252 <? len s then Err (InvalidCommandId (ExceedsMaxLength "DedupeKey" 256 (4 + len s)))
     else Ok (mkDedupeKey ("cmd:" +:+ s))) /\
  (len s <= 252 -> key_ok ("cmd:" +:+ s)).
Proof.
  intros (-> & He & Ha & Hl)%IdempotencyKey_parse_ok.
  assert (Forall (fun b => 0 <= b <= 127) (as_bytes ("cmd:" +:+ s))) as Hc.
  { rewrite cmd_bytes. apply Forall_app. split; [repeat constructor; lia|done]. }
  assert (char_count ("cmd:" +:+ s) = 4 + len s) as Hn.
  { rewrite char_count_ascii by done. unfold len.
    change (length (chars ("cmd:" +:+ s))) with (4 + length (chars s))%nat. lia. }
  split.
  - unfold dedupe_key_from_envelope, DedupeKey_parse. cbn [idempotency_key_str]. rewrite He.
    change (is_empty ("cmd:" +:+ s)) with false. cbn [map_err]. rewrite Hn.
    destruct (Z.ltb_spec 256 (4 + len s)), (Z.ltb_spec 252 (len s)); done || lia.
  - intros Hs. split_and!; [done|lia|]. by apply utf8_ascii.
Qed.

(** Which commands can be deduplicated: a valid command id of at most 252 characters
    has a key of its own, different from every other command's; a longer one, although
    command ids of up to 1024 characters are valid, is refused. *)
Theorem command_keys s id :
  IdempotencyKey_parse s = Ok id ->
  (len s <= 252 -> dedupe_key_from_envelope id = Ok (mkDedupeKey ("cmd:" +:+ s)) /\
     forall s' id', IdempotencyKey_parse s' = Ok id' ->
       dedupe_key_from_envelope id' = dedupe_key_from_envelope id -> s' = s) /\
  (252 < len s ->
     dedupe_key_from_envelope id
     = Err (InvalidCommandId (ExceedsMaxLength "DedupeKey" 256 (4 + len s)))).
Proof.
  intros Hp. destruct (command_key s id Hp) as [Hk _]. rewrite Hk.
  destruct (Z.ltb_spec 252 (len s)) as [Hs|Hs]; split; intros Hl; try lia; [done|].
  split; [done|]. intros s' id' Hp'. destruct (command_key s' id' Hp') as [-> _].
  destruct (252 <? len s'); [done|]. intros [= E].
  apply as_bytes_inj. apply (f_equal as_bytes) in E. by simplify_eq.
Qed.

(** What a store does with the key of a command. *)
Lemma command_check {St} `{!DedupeStore St} now (st : St) s id i ttl :
  IdempotencyKey_parse s = Ok id -> len s <= 252 ->
  check_command_duplicate now id st i ttl =
    '(r, st') ← check_and_insert now st (mkDedupeKey ("cmd:" +:+ s)) i ttl;
    Some (match r with
          | Ok NewlyAdmitted => Ok CommandAdmitted
          | Ok (Duplicate i) => Ok (CommandDuplicate i)
          | Err e => Err (DedupeStoreFailed e)
          end, st').
Proof.
  intros Hp Hl. unfold check_command_duplicate. rewrite (proj1 (command_key s id Hp)).
  by destruct (Z.ltb_spec 252 (len s)); [lia|].
Qed.

(** A command that is admitted has a short id, and its store step is the contract's. *)
Lemma command_step {St} `{!DedupeStore St} (rep : Entries -> St -> Prop)
    `{!ImplementsDedupe rep} a st s id now i u ttl :
  rep a st -> entries_wf a -> IdempotencyKey_parse s = Ok id -> InstanceId_wf i u -> ttl <> 0 ->
  dedupe_op_valid (OpCheck now (mkDedupeKey ("cmd:" +:+ s)) i ttl) -> len s <= 252 ->
  exists st', match live a ("cmd:" +:+ s) now with
    | Some e => check_command_duplicate now id st i ttl
                = Some (Ok (CommandDuplicate (entry_instance_id e)), st') /\ rep a st'
    | None => check_command_duplicate now id st i ttl = Some (Ok CommandAdmitted, st') /\
              rep (<["cmd:" +:+ s := mkDedupeEntry ("cmd:" +:+ s) (instance_id_str i)
                      (saturating_add_u64 now ttl)]> a) st'
    end.
Proof.
  intros HR Ha Hp Hi Httl Hop Hl. pose proof (spec_check now a _ i u ttl Hop Hi) as E.
  rewrite (proj2 (Z.eqb_neq _ _) Httl) in E. cbn [dedupe_key_str] in E.
  destruct (live a _ now) as [e|]; destruct (dedupe_step a st _ _ _ HR Ha Hop E) as (st' & E' & HR');
    exists st'; rewrite (command_check now st s id i ttl Hp Hl); cbn [dedupe_exec] in E';
    destruct (check_and_insert _ _ _ _ _) as [[r st2]|]; try done; cbn [mbind option_bind] in *;
    injection E' as -> ->; done.
Qed.

(** A command is admitted once per retention window, over every implementation of the
    store: after an admission, whatever the store is asked at clock readings before the
    expiry, the same command is answered with the instance first admitted, and it counts
    as a duplicate; from the expiry on it is admitted again. *)
Theorem command_admitted_once {St} `{!DedupeStore St} (rep : Entries -> St -> Prop)
    `{!ImplementsDedupe rep} a st st1 s id now i ttl ops t j ttl' :
  rep a st -> entries_wf a -> IdempotencyKey_parse s = Ok id ->
  dedupe_op_valid (OpCheck now (mkDedupeKey ("cmd:" +:+ s)) i ttl) ->
  check_command_duplicate now id st i ttl = Some (Ok CommandAdmitted, st1) ->
  Forall dedupe_op_valid ops ->
  Forall (fun op => clock_of op < saturating_add_u64 now ttl) ops ->
  dedupe_op_valid (OpCheck t (mkDedupeKey ("cmd:" +:+ s)) j ttl') -> ttl' <> 0 ->
  exists xs st2, dedupe_run st1 ops = Some (xs, st2) /\
    exists st3, check_command_duplicate t id st2 j ttl' =
      Some (Ok (if t <? saturating_add_u64 now ttl
                then CommandDuplicate (instance_id_str i) else CommandAdmitted), st3).
Proof.
  intros HR Ha Hp Hop Hadm Hv Hc Hop' Httl'. pose proof Hop as (_ & [u Hi] & _).
  pose proof Hop' as (_ & [w Hj] & _).
  assert (len s <= 252) as Hl.
  { unfold check_command_duplicate in Hadm. rewrite (proj1 (command_key s id Hp)) in Hadm.
    by destruct (Z.ltb_spec 252 (len s)). }
  assert (ttl <> 0) as Httl.
  { intros ->. pose proof (spec_check now a _ i u 0 Hop Hi) as E. cbn [Z.eqb] in E.
    destruct (dedupe_step a st _ _ _ HR Ha Hop E) as (st' & E' & _). cbn [dedupe_exec] in E'.
    rewrite (command_check now st s id i 0 Hp Hl) in Hadm.
    destruct (check_and_insert _ _ _ _ _) as [[r st2]|]; [|done]. cbn in E', Hadm. by simplify_eq. }
  destruct (command_step rep a st s id now i u ttl HR Ha Hp Hi Httl Hop Hl) as (st1' & H1).
  pose proof (spec_check now a _ i u ttl Hop Hi) as E. rewrite (proj2 (Z.eqb_neq _ _) Httl) in E.
  cbn [dedupe_key_str] in E.
  destruct (live a _ now) as [e|]; destruct H1 as [Hc1 HR1]; rewrite Hadm in Hc1; [done|].
  injection Hc1 as <-. set (e := mkDedupeEntry _ _ _) in *.
  pose proof (entries_wf_step _ _ _ _ Ha Hop E) as Ha1.
  destruct (dedupe_run_refines rep _ st1 ops HR1 Ha1 Hv) as (xs & a2 & st2 & E1 & E2 & HR2 & Ha2).
  exists xs, st2. split; [done|].
  assert (a2 !! ("cmd:" +:+ s) = Some e) as He
    by (eapply entry_survives_run; [done|exact Hc|by rewrite lookup_insert_eq|done]).
  destruct (command_step rep a2 st2 s id t j w ttl' HR2 Ha2 Hp Hj Httl' Hop' Hl) as (st3 & H3).
  exists st3. unfold live, is_expired in H3. rewrite He in H3. cbn [expires_at e] in H3.
  destruct (Z.leb_spec (saturating_add_u64 now ttl) t), (Z.ltb_spec t (saturating_add_u64 now ttl));
    try lia; by destruct H3.
Qed.

(** The [fjall] store's check is not atomic: of two concurrent calls with the same key,
    when both reads come before both writes, both are admitted, and the entry left is the
    second writer's. *)
Theorem fjall_dedupe_race a ks key i j u w now now' ttl ttl' kv :
  fjall_dedupe a ks -> entries_wf a -> InstanceId_wf i u -> InstanceId_wf j w ->
  dedupe_op_valid (OpCheck now key i ttl) -> dedupe_op_valid (OpCheck now' key j ttl') ->
  ttl' <> 0 -> now <= now' -> FjallDedupe.check now ks key i ttl = Some (inr kv) ->
  exists kv' ks1 ks2,
    FjallDedupe.check now' ks key j ttl' = Some (inr kv') /\
    FjallDedupe.write ks kv = (Ok NewlyAdmitted, ks1) /\
    FjallDedupe.write ks1 kv' = (Ok NewlyAdmitted, ks2) /\
    fjall_dedupe (<[dedupe_key_str key := mkDedupeEntry (dedupe_key_str key) (instance_id_str j)
                     (saturating_add_u64 now' ttl')]> a) ks2.
Proof.
  intros HR Ha Hi Hj Hop Hop' Httl' Hnow Hck. rewrite (fjall_check a ks now key i u ttl) in Hck by done.
  destruct (ttl =? 0); [done|].
  destruct (live a (dedupe_key_str key) now) as [e|] eqn:El; [done|]. injection Hck as <-.
  assert (live a (dedupe_key_str key) now' = None) as El'.
  { unfold live, is_expired in *. destruct (a !! dedupe_key_str key) as [e|]; [|done].
    destruct (Z.leb_spec (expires_at e) now), (Z.leb_spec (expires_at e) now'); done || lia. }
  pose proof Hop as (Hk & _).
  destruct (fjall_write a ks _ (mkDedupeEntry (dedupe_key_str key) (instance_id_str i)
    (saturating_add_u64 now ttl)) HR Hk) as (ks1 & E1 & HR1).
  destruct (fjall_write _ ks1 _ (mkDedupeEntry (dedupe_key_str key) (instance_id_str j)
    (saturating_add_u64 now' ttl')) HR1 Hk) as (ks2 & E2 & HR2).
  eexists _, ks1, ks2. split; [rewrite (fjall_check a ks now' key j w ttl') by done|].
  - by rewrite (proj2 (Z.eqb_neq _ _) Httl'), El'.
  - split; [exact E1|]. split; [exact E2|]. by rewrite insert_insert_eq in HR2.
Qed.

(** A read error counts as an absent key: the command is admitted. *)
Lemma read_error_admits now ks key i u ttl e :
  dedupe_op_valid (OpCheck now key i ttl) -> InstanceId_wf i u -> ttl <> 0 ->
  ks_get ks (key_bytes (dedupe_key_str key)) = Err e ->
  exists kv, FjallDedupe.check now ks key i ttl = Some (inr kv).
Proof.
  intros (Hk & _ & Hn & Ht) Hi Httl He. unfold FjallDedupe.check.
  rewrite (proj2 (Z.eqb_neq _ _) Httl), encode_dedupe_key_ok by done. cbn [mbind option_bind].
  destruct (new_entry_ok _ _ _ _ _ Hk Hi Hn Ht) as [-> Hw]. cbn [rbind].
  rewrite encode_dedupe_entry_ok, He by done. by eexists.
Qed.
End CommandProperties.

(** ** Concrete stores *)

Module DedupeWitness.
Import ConcreteUlid MapKeyspace.

Definition two : InstanceId := InstanceId_from_u128 2.

Lemma second_wf : InstanceId_wf two 2.
Proof. by split. Qed.

Definition k1 : DedupeKey := mkDedupeKey "cmd:c-1".

Lemma k1_ok : key_ok (dedupe_key_str k1).
Proof. by split_and!. Qed.

Lemma check_valid now i u ttl :
  InstanceId_wf i u -> is_u64 now -> is_u64 ttl -> dedupe_op_valid (OpCheck now k1 i ttl).
Proof. intros Hi Hn Ht. split_and!; [apply k1_ok..|by exists u|done|done]. Qed.

Definition ops : list DedupeOp :=
  [OpCheck 100 k1 one 50; OpCheck 149 k1 two 50; OpContains 149 k1; OpPurge 149;
   OpCheck 150 k1 two 50; OpPurge 200; OpContains 199 k1; OpCheck 200 k1 one 0].

Lemma dedupe_ops_valid : Forall dedupe_op_valid ops.
Proof.
  repeat (apply Forall_cons; split;
    [first [apply (check_valid _ _ 1 _ one_wf); ulia | apply (check_valid _ _ 2 _ second_wf); ulia
           | exact k1_ok | exact Logic.I]|]). by apply Forall_nil.
Qed.

Example answers :
  fst <$> dedupe_run (∅ : Entries) ops =
    Some [AnsAdmission (Ok NewlyAdmitted); AnsAdmission (Ok (Duplicate (instance_id_str one)));
          AnsContains (Ok true); AnsPurged (Ok 0); AnsAdmission (Ok NewlyAdmitted);
          AnsPurged (Ok 1); AnsContains (Ok false); AnsAdmission (Err InvalidArgument)].
Proof. vm_compute. reflexivity. Qed.

Lemma dedupe_stores_agree_witness :
  exists xs a ks', dedupe_run (∅ : Entries) ops = Some (xs, a) /\
    dedupe_run (∅ : Keyspace) ops = Some (xs, ks').
Proof.
  destruct (dedupe_stores_agree (FL := fjall_laws) (∅ : @Keyspace fjall_api) ops Logic.I eq_refl
              dedupe_ops_valid) as (xs & a & ks' & H1 & H2 & _).
  exists xs, a, ks'. exact (conj H1 H2).
Defined.

Lemma command_keys_witness :
  dedupe_key_from_envelope (mkIdempotencyKey "c-1") = Ok k1.
Proof.
  exact (proj1 (proj1 (command_keys "c-1" (mkIdempotencyKey "c-1") eq_refl) ltac:(vm_compute; discriminate))).
Defined.

(** A command id that is valid and cannot be deduplicated. *)
Example long_command_refused :
  let s := String.concat "" (replicate 253 "a") in
  match IdempotencyKey_parse s with
  | Ok id => dedupe_key_from_envelope id
             = Err (InvalidCommandId (ExceedsMaxLength "DedupeKey" 256 257))
  | Err _ => False
  end.
Proof. vm_compute. reflexivity. Qed.

Definition admitted : Entries :=
  {[ "cmd:c-1" := mkDedupeEntry "cmd:c-1" (instance_id_str one) 150 ]}.

Lemma command_admitted_once_witness :
  exists xs st2, dedupe_run admitted [OpPurge 149] = Some (xs, st2) /\
    exists st3, check_command_duplicate 149 (mkIdempotencyKey "c-1") st2 two 50
      = Some (Ok (CommandDuplicate (instance_id_str one)), st3).
Proof.
  apply (command_admitted_once (fun a st : Entries => st = a)
           (ImplementsDedupe0 := in_memory_implements_dedupe) ∅ ∅ admitted "c-1"
           (mkIdempotencyKey "c-1") 100 one 50 [OpPurge 149] 149 two 50).
  - done.
  - intros k e. by rewrite lookup_empty.
  - reflexivity.
  - apply (check_valid _ _ 1); [exact one_wf|ulia|ulia].
  - reflexivity.
  - repeat constructor.
  - repeat constructor.
  - apply (check_valid _ _ 2); [exact second_wf|ulia|ulia].
  - lia.
Defined.

Lemma no_entries : fjall_dedupe ∅ (∅ : Keyspace).
Proof. split; [exact Logic.I|]. apply encodes_empty. Qed.

Lemma fjall_dedupe_race_witness :
  exists kv kv' ks1 ks2 : _,
    FjallDedupe.check 100 (∅ : Keyspace) k1 one 50 = Some (inr kv) /\
    FjallDedupe.check 100 (∅ : Keyspace) k1 two 50 = Some (inr kv') /\
    FjallDedupe.write ∅ kv = (Ok NewlyAdmitted, ks1) /\ FjallDedupe.write ks1 kv' = (Ok NewlyAdmitted, ks2).
Proof.
  destruct (FjallDedupe.check 100 (∅ : Keyspace) k1 one 50) as [[|kv]|] eqn:E; [done| |done].
  exists kv.
  destruct (fjall_dedupe_race (FL := fjall_laws) ∅ (∅ : @Keyspace fjall_api) k1 one two 1 2
    100 100 50 50 kv no_entries ltac:(by intros k e; rewrite lookup_empty) one_wf second_wf
    (check_valid 100 one 1 50 one_wf ltac:(ulia) ltac:(ulia))
    (check_valid 100 two 2 50 second_wf ltac:(ulia) ltac:(ulia)) ltac:(lia) ltac:(lia) E)
    as (kv' & ks1 & ks2 & H1 & H2 & H3 & _).
  exists kv', ks1, ks2. exact (conj eq_refl (conj H1 (conj H2 H3))).
Defined.
End DedupeWitness.
