(* ===== verification/Commits.v ===== *)
(** * Commits that span partitions

    [crates/vo-storage/src/atomic_wait_commit.rs] (suspending an instance),
    [event_summary_commit.rs] (an event with its status) and [admission_commit.rs]
    (admitting a workflow): each writes several partitions of the database in one batch.
    The partitions are those of the timer index, the instance index, the snapshots, the
    deduplication store and the event store, whose files are required here. *)

From S2P Require Import Prelude Identifiers Events KeyEncoding Keyspace Database.
From S2P Require EventStore Dedupe.
From S2P Require Import InstanceIndex Snapshots Timers.
From Stdlib Require Import Ascii.

Definition TIMERS_PARTITION : string := "timers".
Definition TIMER_INDEX_PARTITION : string := "timer_index".
Definition EVENTS_PARTITION : string := "events".
Definition DEDUPE_PARTITION : string := "dedupe".

(** The map after the writes of a batch to one partition. *)
Lemma items_of_app p l1 l2 : items_of p (l1 ++ l2) = items_of p l1 ++ items_of p l2.
Proof. unfold items_of. apply omap_app. Qed.

(** ** Suspending an instance *)

(** [struct SuspendParams]. *)
Record SuspendParams : Set := mkSuspend {
  sp_instance : InstanceId;
  sp_timer : TimerId;
  sp_fire_at : Z;
  sp_trigger_time : Z;
  sp_duration : Z;
  sp_now : Z;
  sp_sequence : SequenceNumber;
  sp_state_bytes : list Z;
}.

(** [SuspendParams::new], on the fields of the record. *)
Definition SuspendParams_new (p : SuspendParams) : result StorageError SuspendParams :=
  if sp_fire_at p <=? sp_now p then Err InvalidArgument
  else if sp_duration p =? 0 then Err InvalidArgument
  else if negb (sp_fire_at p =? saturating_add_u64 (sp_trigger_time p) (sp_duration p))
  then Err InvalidArgument
  else if bool_decide (sp_state_bytes p = []) then Err InvalidArgument
  else Ok p.

(** [TimerValue::new] and its bytes. *)
Definition TimerValue_bytes (duration : Z) : result StorageError (list Z) :=
  if duration =? 0 then Err InvalidArgument else Ok (be_bytes 8 duration).

(** The time of creation the index entries are looked for under. *)
Definition suspend_created_at (p : SuspendParams) : Z := Z.max 0 (sp_now p - 1000).

(** [struct SuspendVerification]. *)
Record SuspendVerification : Set := mkVerification {
  timer_exists : bool;
  paused_exists : bool;
  previous_status_removed : bool;
  snapshot_exists : bool;
}.

(** [SuspendVerification::is_complete] and [is_rolled_back]. *)
Definition is_complete (v : SuspendVerification) : bool :=
  timer_exists v && paused_exists v && previous_status_removed v && snapshot_exists v.
Definition is_rolled_back (v : SuspendVerification) : bool :=
  negb (timer_exists v) && negb (paused_exists v) && negb (snapshot_exists v).

Section Suspend.
Context `{U : UlidApi} `{UA : UuidApi} `{F : FjallApi} `{D : !DatabaseApi} `{CR : Crc32Api}.
Context `{SH : !SerdeApi SnapshotHeader} `{SB : !SerdeApi (list Z)}.

(** [db.keyspace] with its error replaced. *)
Definition open_partition (db : Database) (name : string) : result StorageError Keyspace :=
  map_err (fun _ => StorageFailed) (db_keyspace db name).

(** A read with its error replaced. *)
Definition read_key (ks : Keyspace) (k : list Z) : result StorageError (option (list Z)) :=
  map_err (fun _ => StorageFailed) (ks_get ks k).

(** The writes of [atomic_suspend_commit]. *)
Definition suspend_batch (db : Database) (p : SuspendParams) (previous : InstanceStatus)
  : result StorageError (list (string * BatchItem)) :=
  let? _ := SuspendParams_new p in
  let? _ := open_partition db TIMERS_PARTITION in
  let? _ := open_partition db INSTANCES_PARTITION in
  let? _ := open_partition db SNAPSHOTS_PARTITION in
  let? timer_key := map_err (fun _ => InvalidArgument)
                      (TimerKey_new (sp_fire_at p) (sp_instance p) (sp_timer p)) in
  let? timer_value := map_err (fun _ => InvalidArgument) (TimerValue_bytes (sp_duration p)) in
  let created_at := suspend_created_at p in
  let? new_key := encode_instance_index_key InstanceStatus.Paused created_at (sp_instance p) in
  let? old := (if decide (previous <> InstanceStatus.Paused) then
                 let? old_key := encode_instance_index_key previous created_at (sp_instance p) in
                 Ok [(INSTANCES_PARTITION, BatchRemove old_key)]
               else Ok []) in
  let? snapshot_key := encode_snapshot_key (sp_instance p) (sequence_u64 (sp_sequence p)) in
  let? value := snapshot_value (sp_instance p) (sequence_u64 (sp_sequence p)) (sp_state_bytes p) in
  Ok ([(TIMERS_PARTITION, BatchInsert timer_key timer_value);
       (INSTANCES_PARTITION, BatchInsert new_key [])] ++ old ++
      [(SNAPSHOTS_PARTITION, BatchInsert snapshot_key value)]).

(** [atomic_suspend_commit]. *)
Definition atomic_suspend_commit (db : Database) (p : SuspendParams) (previous : InstanceStatus)
  : result StorageError unit * Database :=
  match suspend_batch db p previous with
  | Err e => (Err e, db)
  | Ok items => let r := db_commit db items in (map_err (fun _ => BatchCommitFailed) r.1, r.2)
  end.

(** [verify_suspend_rollback]. *)
Definition verify_suspend_rollback (db : Database) (p : SuspendParams) (previous : InstanceStatus)
  : result StorageError SuspendVerification :=
  let created_at := suspend_created_at p in
  let? timers := open_partition db TIMERS_PARTITION in
  let? timer_key := map_err (fun _ => InvalidArgument)
                      (TimerKey_new (sp_fire_at p) (sp_instance p) (sp_timer p)) in
  let? timer := read_key timers timer_key in
  let? instances := open_partition db INSTANCES_PARTITION in
  let? paused_key := encode_instance_index_key InstanceStatus.Paused created_at (sp_instance p) in
  let? paused := read_key instances paused_key in
  let? previous_key := encode_instance_index_key previous created_at (sp_instance p) in
  let? prev := read_key instances previous_key in
  let? snapshots := open_partition db SNAPSHOTS_PARTITION in
  let? snapshot_key := encode_snapshot_key (sp_instance p) (sequence_u64 (sp_sequence p)) in
  let? snapshot := read_key snapshots snapshot_key in
  Ok (mkVerification (bool_decide (is_Some timer)) (bool_decide (is_Some paused))
        (bool_decide (prev = None)) (bool_decide (is_Some snapshot))).
End Suspend.

Section SuspendProofs.
Context `{U : UlidApi} {UL : UlidLaws} `{UA : UuidApi} {UUL : UuidLaws}.
Context `{F : FjallApi} `{D : !DatabaseApi} `{FL : !FjallLaws} `{DL : !DatabaseLaws} `{CR : Crc32Api}.
Context `{SH : !SerdeApi SnapshotHeader} `{SHL : !SerdeLaws SnapshotHeader}.
Context `{SB : !SerdeApi (list Z)} `{SBL : !SerdeLaws (list Z)}.

(** What [SuspendParams::new] asks for. *)
Definition suspend_ok (p : SuspendParams) : Prop :=
  sp_now p < sp_fire_at p /\ sp_duration p <> 0 /\
  sp_fire_at p = saturating_add_u64 (sp_trigger_time p) (sp_duration p) /\ sp_state_bytes p <> [].

Lemma SuspendParams_new_spec p :
  SuspendParams_new p = Ok p /\ suspend_ok p \/
  SuspendParams_new p = Err InvalidArgument /\ ~ suspend_ok p.
Proof.
  unfold SuspendParams_new, suspend_ok. destruct (Z.leb_spec (sp_fire_at p) (sp_now p)).
  { right. split; [done|]. intros (? & _). lia. }
  destruct (Z.eqb_spec (sp_duration p) 0); [right; split; [done|]; by intros (_ & ? & _)|].
  destruct (Z.eqb_spec (sp_fire_at p) (saturating_add_u64 (sp_trigger_time p) (sp_duration p)));
    [|right; split; [done|]; by intros (_ & _ & ? & _)].
  cbn [negb]. case_bool_decide; [right; split; [done|]; by intros (_ & _ & _ & ?)|by left].
Qed.

Lemma open_partition_ok db name :
  db_healthy db -> exists ks, open_partition db name = Ok ks /\ healthy ks /\
    contents ks = db_contents db name.
Proof.
  intros Hh. destruct (db_keyspace_ok db name Hh) as (ks & Hk & H). exists ks.
  unfold open_partition. by rewrite Hk.
Qed.

Lemma read_key_ok ks k : healthy ks -> read_key ks k = Ok (contents ks !! k).
Proof. intros Hh. unfold read_key. by rewrite (ks_get_ok _ _ Hh). Qed.

Definition suspended_value (p : SuspendParams) : list Z :=
  vec_of (header_new (sp_instance p) (sequence_u64 (sp_sequence p))
            (crc32 (vec_of (sp_state_bytes p)))) ++ bar :: vec_of (sp_state_bytes p).

Definition suspend_items (p : SuspendParams) (previous : InstanceStatus)
  : list (string * BatchItem) :=
  let entry st := index_key (mkIndexEntry (sp_instance p) st (suspend_created_at p)) in
  [(TIMERS_PARTITION, BatchInsert (timer_key (sp_fire_at p) (sp_instance p) (sp_timer p))
                        (be_bytes 8 (sp_duration p)));
   (INSTANCES_PARTITION, BatchInsert (entry InstanceStatus.Paused) [])] ++
  (if decide (previous <> InstanceStatus.Paused)
   then [(INSTANCES_PARTITION, BatchRemove (entry previous))] else []) ++
  [(SNAPSHOTS_PARTITION, BatchInsert (snapshot_key (sp_instance p, sequence_u64 (sp_sequence p)))
                           (suspended_value p))].

Lemma suspend_batch_ok db p previous :
  db_healthy db -> valid_id (sp_instance p) -> suspend_ok p ->
  suspend_batch db p previous = Ok (suspend_items p previous).
Proof.
  intros Hh Hi Hok. unfold suspend_batch.
  destruct (SuspendParams_new_spec p) as [[-> _]|[_ []]]; [|done]. cbn [rbind].
  destruct (open_partition_ok db TIMERS_PARTITION Hh) as (k1 & -> & _).
  destruct (open_partition_ok db INSTANCES_PARTITION Hh) as (k2 & -> & _).
  destruct (open_partition_ok db SNAPSHOTS_PARTITION Hh) as (k3 & -> & _). cbn [rbind].
  rewrite (timer_key_ok _ _ _ Hi). cbn [map_err rbind]. unfold TimerValue_bytes.
  rewrite (proj2 (Z.eqb_neq (sp_duration p) 0)) by apply Hok. cbn [map_err rbind].
  rewrite (encode_index_key_ok _ _ _ Hi). cbn [rbind].
  rewrite (encode_index_key_ok previous _ _ Hi), (encode_snapshot_key_ok _ _ Hi).
  unfold snapshot_value. rewrite to_vec_ok. cbn [map_err rbind]. rewrite to_vec_ok.
  unfold suspend_items. by destruct (decide _).
Qed.

(** What the commit does to the partitions. *)
Lemma suspend_contents db p previous :
  db_healthy db -> valid_id (sp_instance p) -> suspend_ok p ->
  let r := atomic_suspend_commit db p previous in
  r.1 = Ok tt /\ db_healthy r.2 /\
  forall q, db_contents r.2 q =
    fold_left apply_item (items_of q (suspend_items p previous)) (db_contents db q).
Proof.
  intros Hh Hi Hok. unfold atomic_suspend_commit. rewrite (suspend_batch_ok _ _ _ Hh Hi Hok).
  destruct (db_commit_ok db (suspend_items p previous) Hh) as (H1 & H2 & H3). cbn zeta.
  cbn [fst snd]. by rewrite H1.
Qed.

Lemma suspend_timers p previous m :
  fold_left apply_item (items_of TIMERS_PARTITION (suspend_items p previous)) m =
  <[timer_key (sp_fire_at p) (sp_instance p) (sp_timer p) := be_bytes 8 (sp_duration p)]> m.
Proof. unfold suspend_items. by destruct (decide _). Qed.

Lemma suspend_instances p previous m :
  let entry st := index_key (mkIndexEntry (sp_instance p) st (suspend_created_at p)) in
  fold_left apply_item (items_of INSTANCES_PARTITION (suspend_items p previous)) m =
  let m' := <[entry InstanceStatus.Paused := []]> m in
  if decide (previous = InstanceStatus.Paused) then m' else delete (entry previous) m'.
Proof.
  unfold suspend_items. destruct (decide (previous <> InstanceStatus.Paused)) as [H|H];
    by destruct (decide (previous = InstanceStatus.Paused)).
Qed.

Lemma suspend_snapshots p previous m :
  fold_left apply_item (items_of SNAPSHOTS_PARTITION (suspend_items p previous)) m =
  <[snapshot_key (sp_instance p, sequence_u64 (sp_sequence p)) := suspended_value p]> m.
Proof. unfold suspend_items. by destruct (decide _). Qed.

Lemma suspend_others p previous q m :
  q ∉ [TIMERS_PARTITION; INSTANCES_PARTITION; SNAPSHOTS_PARTITION] ->
  fold_left apply_item (items_of q (suspend_items p previous)) m = m.
Proof.
  rewrite !not_elem_of_cons. intros (H1 & H2 & H3 & _). unfold suspend_items, items_of.
  destruct (decide (previous <> InstanceStatus.Paused)); cbn [app omap list_omap fst snd];
    rewrite ?(decide_False (P := _ = q)) by congruence; done.
Qed.
(** Suspending an instance, on every branch. Parameters whose times do not add up are
    refused and nothing is written. Otherwise the timer, the paused index entry and the
    snapshot are written in one batch and the index entry of the previous status at the
    assumed time of creation is removed; no other partition changes. The verification of
    the same module then reports completeness, unless the instance was already paused. *)
Theorem suspend_commit_exact db p previous :
  db_healthy db -> valid_id (sp_instance p) -> is_u64 (suspend_created_at p) ->
  let r := atomic_suspend_commit db p previous in
  let entry st := index_key (mkIndexEntry (sp_instance p) st (suspend_created_at p)) in
  (~ suspend_ok p -> r = (Err InvalidArgument, db)) /\
  (suspend_ok p ->
     r.1 = Ok tt /\ db_healthy r.2 /\
     db_contents r.2 TIMERS_PARTITION =
       <[timer_key (sp_fire_at p) (sp_instance p) (sp_timer p) := be_bytes 8 (sp_duration p)]>
         (db_contents db TIMERS_PARTITION) /\
     db_contents r.2 INSTANCES_PARTITION =
       (let m := <[entry InstanceStatus.Paused := []]> (db_contents db INSTANCES_PARTITION) in
        if decide (previous = InstanceStatus.Paused) then m else delete (entry previous) m) /\
     db_contents r.2 SNAPSHOTS_PARTITION =
       <[snapshot_key (sp_instance p, sequence_u64 (sp_sequence p)) := suspended_value p]>
         (db_contents db SNAPSHOTS_PARTITION) /\
     (forall q, q ∉ [TIMERS_PARTITION; INSTANCES_PARTITION; SNAPSHOTS_PARTITION] ->
        db_contents r.2 q = db_contents db q) /\
     exists v, verify_suspend_rollback r.2 p previous = Ok v /\
       is_complete v = bool_decide (previous <> InstanceStatus.Paused)).
Proof.
  intros Hh Hi Hc. cbn zeta. split.
  { intros Hn. unfold atomic_suspend_commit, suspend_batch.
    by destruct (SuspendParams_new_spec p) as [[_ ?]|[-> _]]. }
  intros Hok. destruct (suspend_contents db p previous Hh Hi Hok) as (H1 & H2 & H3).
  split; [done|]. split; [done|]. rewrite !H3, suspend_timers, suspend_instances, suspend_snapshots.
  split; [done|]. split; [done|]. split; [done|]. split.
  { intros q Hq. by rewrite H3, suspend_others. }
  unfold verify_suspend_rollback.
  destruct (open_partition_ok _ TIMERS_PARTITION H2) as (k1 & -> & G1 & E1).
  destruct (open_partition_ok _ INSTANCES_PARTITION H2) as (k2 & -> & G2 & E2).
  destruct (open_partition_ok _ SNAPSHOTS_PARTITION H2) as (k3 & -> & G3 & E3). cbn [rbind].
  rewrite (timer_key_ok _ _ _ Hi). cbn [map_err rbind].
  rewrite (read_key_ok _ _ G1), E1, H3, suspend_timers, lookup_insert_eq. cbn [rbind].
  rewrite (encode_index_key_ok _ _ _ Hi). cbn [rbind]. rewrite (read_key_ok _ _ G2). cbn [rbind].
  rewrite (encode_index_key_ok _ _ _ Hi). cbn [rbind]. rewrite (read_key_ok _ _ G2). cbn [rbind].
  rewrite E2, H3, suspend_instances, (encode_snapshot_key_ok _ _ Hi). cbn [rbind].
  rewrite (read_key_ok _ _ G3), E3, H3, suspend_snapshots, lookup_insert_eq. cbn [rbind]. eexists. split; [done|].
  unfold is_complete. cbn [timer_exists paused_exists previous_status_removed snapshot_exists].
  destruct (decide (previous = InstanceStatus.Paused)) as [->|Hp].
  - rewrite lookup_insert_eq. done.
  - rewrite lookup_delete_eq, lookup_delete_ne, lookup_insert_eq; [|].
    + by rewrite !bool_decide_true.
    + intros E%index_key_inj; [by injection E|by split..].
Qed.

(** Scans see the contents only. *)
Lemma scan_contents ks ks' a b :
  healthy ks -> healthy ks' -> contents ks = contents ks' -> a <> [] -> b <> [] ->
  fjall_scan ks a b = fjall_scan ks' a b.
Proof.
  intros Hh Hh' Hc Ha Hb. unfold fjall_scan. destruct a as [|x a]; [done|]. destruct b as [|y b]; [done|].
  destruct (ks_range_ok ks (x :: a) (y :: b) Hh) as (l & -> & Ho & Hl).
  destruct (ks_range_ok ks' (x :: a) (y :: b) Hh') as (l' & -> & Ho' & Hl').
  rewrite !collect_items_ok. f_equal. apply in_order_unique; [done..|].
  intros kv. by rewrite Hl, Hl', Hc.
Qed.

Context `{SS : !SerdeApi InstanceState} `{SSL : !SerdeLaws InstanceState}.

(** The text of a byte vector is not the text of a state: it is an array of numbers. *)
Context (bytes_not_state : forall bs : list Z, exists e,
  from_slice (A := InstanceState) (vec_of bs) = Err e).

(** What a suspended instance is left with. Its timer is not in the partition the
    timer index polls, so no poll ever finds it; if its index entry was created at another
    time than one second before the suspension it stays listed under its previous status
    beside [Paused]; and the snapshot that was written, when it is the latest, does not
    load. *)
Theorem suspended_instance_stuck db p previous :
  db_healthy db -> valid_id (sp_instance p) -> is_u64 (suspend_created_at p) -> suspend_ok p ->
  let r := atomic_suspend_commit db p previous in
  (forall ks ks', db_keyspace db TIMER_INDEX_PARTITION = Ok ks -> healthy ks ->
     db_keyspace r.2 TIMER_INDEX_PARTITION = Ok ks' ->
     forall i t, scan_due_timers ks' i t = scan_due_timers ks i t) /\
  (forall E c0, indexed E (db_contents db INSTANCES_PARTITION) ->
     E (mkIndexEntry (sp_instance p) previous c0) -> c0 <> suspend_created_at p ->
     Ok (mkIndexEntry (sp_instance p) previous c0) ∈ scan_by_status r.2 previous /\
     Ok (mkIndexEntry (sp_instance p) InstanceStatus.Paused (suspend_created_at p))
       ∈ scan_by_status r.2 InstanceStatus.Paused) /\
  (forall a ks, holds a (db_contents db SNAPSHOTS_PARTITION) -> is_u64 (sequence_u64 (sp_sequence p)) ->
     (forall n, is_Some (a !! (sp_instance p, n)) -> n <= sequence_u64 (sp_sequence p)) ->
     bar ∉ vec_of (header_new (sp_instance p) (sequence_u64 (sp_sequence p))
                     (crc32 (vec_of (sp_state_bytes p)))) ->
     open_partition r.2 SNAPSHOTS_PARTITION = Ok ks ->
     snapshot_load_latest ks (sp_instance p) = Err DeserializationFailed).
Proof.
  intros Hh Hi Hc Hok. destruct (suspend_contents db p previous Hh Hi Hok) as (H1 & H2 & H3).
  cbn zeta. split; [|split].
  - intros ks ks' Hk Hkh Hk' i t.
    destruct (db_keyspace_ok db TIMER_INDEX_PARTITION Hh) as (k0 & E0 & G0 & C0).
    destruct (db_keyspace_ok _ TIMER_INDEX_PARTITION H2) as (k1 & E1 & G1 & C1).
    rewrite E0 in Hk. rewrite E1 in Hk'. injection Hk as ->. injection Hk' as ->.
    assert (contents ks' = contents ks) as Heq.
    { rewrite C1, H3, suspend_others; [done|].
      rewrite !not_elem_of_cons. split_and!; [done..|apply not_elem_of_nil]. }
    unfold scan_due_timers. cbn [st_scan fjall_timer_index].
    by rewrite (scan_contents ks' ks) by (done || apply due_end_cons).
  - intros E c0 HE H0 Hne.
    assert (forall st, entry_valid (mkIndexEntry (sp_instance p) st (suspend_created_at p))) as Hv
      by (by intros st; split).
    set (paused := mkIndexEntry (sp_instance p) InstanceStatus.Paused (suspend_created_at p)).
    pose proof (indexed_insert E _ paused HE (Hv _)) as HE'.
    assert (exists E2, E2 paused /\ E2 (mkIndexEntry (sp_instance p) previous c0) /\
      indexed E2 (db_contents (atomic_suspend_commit db p previous).2 INSTANCES_PARTITION))
      as (E2 & Hp & Hprev & HE2).
    { rewrite H3, suspend_instances. destruct (decide (previous = InstanceStatus.Paused)) as [->|Hne2].
      - eexists. split; [|split; [|exact HE']]; cbn beta; [by left|by right].
      - eexists. split; [|split; [|exact (indexed_delete _ _ _ HE' (Hv previous))]]; cbn beta.
        + split; [|by left]. intros [= E']. by destruct Hne2.
        + split; [congruence|by right]. }
    split; [exact (listed_in_scan _ _ _ H2 HE2 Hprev)|exact (listed_in_scan _ _ _ H2 HE2 Hp)].
  - intros a ks Ha Hn Hmax Hb Hks.
    destruct (open_partition_ok _ SNAPSHOTS_PARTITION H2) as (k1 & E1 & G1 & C1).
    rewrite E1 in Hks. injection Hks as ->. rewrite H3, suspend_snapshots in C1.
    set (n := sequence_u64 (sp_sequence p)) in *.
    rewrite (load_latest_is ks (<[(sp_instance p, n) := suspended_value p]> a) _ n (suspended_value p));
      [|done| |done|].
    + unfold deserialize_snapshot_value, suspended_value. fold n. rewrite split_bar_app by done.
      rewrite from_slice_vec. cbn [map_err rbind header_new checksum]. rewrite Z.eqb_refl.
      cbn [negb]. by destruct (bytes_not_state (sp_state_bytes p)) as [e ->].
    + rewrite C1. apply (encodes_insert _ _ (fun v => v)); [intros; by apply snapshot_key_inj|done|].
      by split.
    + split; [by rewrite lookup_insert_eq|]. intros n' Hn'.
      destruct (decide (n = n')) as [->|Hne]; [lia|]. rewrite lookup_insert_ne in Hn' by congruence.
      by apply Hmax.
Qed.
End SuspendProofs.

(** ** An event with its status *)

Section EventSummary.
Context `{J : JsonApi} `{U : UlidApi} `{F : FjallApi} `{D : !DatabaseApi} `{SV : !SerdeApi EventEnvelope}.

(** [struct CommitEventAndSummaryParams]; its [new] does not fail. *)
Record CommitParams : Type := mkCommit {
  cp_instance : InstanceId;
  cp_sequence : SequenceNumber;
  cp_event : EventEnvelope;
  cp_new_status : InstanceStatus;
  cp_created_at : Z;
  cp_previous_status : option InstanceStatus;
}.

(** [encode_event_value]. *)
Definition encode_event_value (event : EventEnvelope) : result StorageError (list Z) :=
  map_err (fun _ => SerializationFailed) (to_vec event).

(** [build_event_key] of [admission_commit.rs], which is [encode_event_key] of
    [event_summary_commit.rs]. *)
Definition build_event_key (i : InstanceId) (sequence : Z) : result StorageError (list Z) :=
  let? id_bytes := id_bytes_or CorruptKey i in Ok (id_bytes ++ be_bytes 8 sequence).

(** [commit_event_and_summary]. *)
Definition commit_event_and_summary (db : Database) (p : CommitParams)
  : result StorageError unit * Database :=
  let batch :=
    (let? _ := open_partition db EVENTS_PARTITION in
     let? _ := open_partition db INSTANCES_PARTITION in
     let? event_key := build_event_key (cp_instance p) (sequence_u64 (cp_sequence p)) in
     let? event_value := encode_event_value (cp_event p) in
     let? new_key := encode_instance_index_key (cp_new_status p) (cp_created_at p) (cp_instance p) in
     let? old :=
       match cp_previous_status p with
       | Some old_status =>
           if decide (old_status <> cp_new_status p) then
             let? old_key := encode_instance_index_key old_status (cp_created_at p) (cp_instance p) in
             Ok [(INSTANCES_PARTITION, BatchRemove old_key)]
           else Ok []
       | None => Ok []
       end in
     Ok ([(EVENTS_PARTITION, BatchInsert event_key event_value);
          (INSTANCES_PARTITION, BatchInsert new_key [])] ++ old)) in
  match batch with
  | Err e => (Err e, db)
  | Ok items => let r := db_commit db items in (map_err (fun _ => BatchCommitFailed) r.1, r.2)
  end.

(** [verify_commit_visibility]. *)
Definition verify_commit_visibility (db : Database) (i : InstanceId) (sequence : SequenceNumber)
    (expected : InstanceStatus) (created_at : Z) : result StorageError (list Z) :=
  let? events := open_partition db EVENTS_PARTITION in
  let? event_key := build_event_key i (sequence_u64 sequence) in
  let? found := read_key events event_key in
  let? event_value := ok_or found KeyNotFound in
  let? instances := open_partition db INSTANCES_PARTITION in
  let? status_key := encode_instance_index_key expected created_at i in
  let? status := read_key instances status_key in
  if bool_decide (status = None) then Err KeyNotFound else Ok event_value.

(** [verify_no_event_visible]. *)
Definition verify_no_event_visible (db : Database) (i : InstanceId) (sequence : SequenceNumber)
  : result StorageError unit :=
  let? events := open_partition db EVENTS_PARTITION in
  let? event_key := build_event_key i (sequence_u64 sequence) in
  let? found := read_key events event_key in
  match found with Some _ => Err KeyNotFound | None => Ok tt end.

(** [verify_no_status_visible]. *)
Definition verify_no_status_visible (db : Database) (i : InstanceId) (status : InstanceStatus)
    (created_at : Z) : result StorageError unit :=
  let? instances := open_partition db INSTANCES_PARTITION in
  let? status_key := encode_instance_index_key status created_at i in
  let? found := read_key instances status_key in
  match found with Some _ => Err KeyNotFound | None => Ok tt end.

Context {UL : UlidLaws} `{FL : !FjallLaws} `{DL : !DatabaseLaws} `{SVL : !SerdeLaws EventEnvelope}.

(** The key of an event. *)
Definition event_key (i : InstanceId) (n : Z) : list Z := iid_bytes_or_zero i ++ be_bytes 8 n.

Lemma build_event_key_ok i n : valid_id i -> build_event_key i n = Ok (event_key i n).
Proof.
  intros [u Hu]. unfold build_event_key, id_bytes_or, event_key.
  by rewrite (to_bytes_wf _ _ Hu), (iid_bytes_wf _ _ Hu).
Qed.

Definition summary_key (p : CommitParams) (st : InstanceStatus) : list Z :=
  index_key (mkIndexEntry (cp_instance p) st (cp_created_at p)).

(** The removal of the previous index entry. *)
Definition old_items (p : CommitParams) : list (string * BatchItem) :=
  match cp_previous_status p with
  | Some old => if decide (old <> cp_new_status p)
                then [(INSTANCES_PARTITION, BatchRemove (summary_key p old))] else []
  | None => []
  end.

Lemma old_items_other p q : q <> INSTANCES_PARTITION -> items_of q (old_items p) = [].
Proof.
  intros Hq. unfold old_items. destruct (cp_previous_status p); [|done].
  destruct (decide _); [|done]. unfold items_of. cbn. by rewrite decide_False by congruence.
Qed.

(** The index after the batch is the index after an update. *)
Lemma old_items_index db p :
  db_healthy db -> valid_id (cp_instance p) -> is_u64 (cp_created_at p) ->
  fold_left apply_item (items_of INSTANCES_PARTITION (old_items p))
    (<[summary_key p (cp_new_status p) := []]> (db_contents db INSTANCES_PARTITION)) =
  db_contents (instance_index_upsert db (cp_instance p) (cp_new_status p) (cp_created_at p)
                 (cp_previous_status p)).2 INSTANCES_PARTITION.
Proof.
  intros Hh Hi Hc. unfold instance_index_upsert, old_items.
  destruct (db_keyspace_ok db INSTANCES_PARTITION Hh) as (ks & -> & _).
  rewrite (encode_index_key_ok _ _ _ Hi). fold (summary_key p (cp_new_status p)).
  destruct (db_insert_ok db INSTANCES_PARTITION (summary_key p (cp_new_status p)) [] Hh) as (_ & _ & H3).
  destruct (cp_previous_status p) as [old|]; [destruct (decide (old <> cp_new_status p)) as [Hne|]|].
  2, 3: cbn [snd items_of omap list_omap fold_left]; by rewrite H3, decide_True.
  rewrite (encode_index_key_ok _ _ _ Hi). unfold atomic_status_transition. cbn [snd].
  set (items := [_; _]). destruct (db_commit_ok db items Hh) as (_ & _ & ->). subst items.
  unfold items_of. cbn [omap list_omap fst snd]. rewrite !decide_True by done.
  cbn [fold_left apply_item]. fold (summary_key p old) (summary_key p (cp_new_status p)).
  apply delete_insert_ne. intros E%index_key_inj; [|by split..]. by injection E.
Qed.

Lemma old_items_keep p m :
  valid_id (cp_instance p) -> is_u64 (cp_created_at p) ->
  fold_left apply_item (items_of INSTANCES_PARTITION (old_items p))
    (<[summary_key p (cp_new_status p) := []]> m) !! summary_key p (cp_new_status p) = Some [].
Proof.
  intros Hi Hc. unfold old_items. destruct (cp_previous_status p) as [old|];
    [destruct (decide (old <> cp_new_status p)) as [Hne|]|];
    cbn [items_of omap list_omap fold_left fst snd apply_item]; rewrite ?lookup_insert_eq; try done.
  unfold items_of. cbn [omap list_omap fst snd]. rewrite decide_True by done.
  cbn [fold_left apply_item]. rewrite lookup_delete_ne, lookup_insert_eq; [done|].
  intros E%index_key_inj; [|by split..]. by injection E.
Qed.

(** Committing an event with its status: both are written in one batch and are visible
    afterwards, the index becomes what [instance_index_upsert] makes of it, and no other
    partition changes. The sequence number is not checked against the log: an event stored
    under it is replaced. *)
Theorem event_summary_exact db p :
  db_healthy db -> valid_id (cp_instance p) -> is_u64 (cp_created_at p) ->
  let r := commit_event_and_summary db p in
  let u := instance_index_upsert db (cp_instance p) (cp_new_status p) (cp_created_at p)
             (cp_previous_status p) in
  r.1 = Ok tt /\ db_healthy r.2 /\
  db_contents r.2 EVENTS_PARTITION =
    <[event_key (cp_instance p) (sequence_u64 (cp_sequence p)) := vec_of (cp_event p)]>
      (db_contents db EVENTS_PARTITION) /\
  db_contents r.2 INSTANCES_PARTITION = db_contents u.2 INSTANCES_PARTITION /\
  (forall q, q <> EVENTS_PARTITION -> q <> INSTANCES_PARTITION -> db_contents r.2 q = db_contents db q) /\
  verify_commit_visibility r.2 (cp_instance p) (cp_sequence p) (cp_new_status p) (cp_created_at p) =
    Ok (vec_of (cp_event p)).
Proof.
  intros Hh Hi Hc. cbn zeta. unfold commit_event_and_summary.
  destruct (open_partition_ok db EVENTS_PARTITION Hh) as (k1 & -> & _).
  destruct (open_partition_ok db INSTANCES_PARTITION Hh) as (k2 & -> & _). cbn [rbind].
  rewrite (build_event_key_ok _ _ Hi). cbn [rbind]. unfold encode_event_value.
  rewrite to_vec_ok. cbn [map_err rbind]. rewrite (encode_index_key_ok _ _ _ Hi). cbn [rbind].
  fold (summary_key p (cp_new_status p)).
  set (new := [(EVENTS_PARTITION, _); _]).
  match goal with |- context [match ?b with Ok _ => _ | Err _ => _ end] =>
    assert (b = Ok (new ++ old_items p)) as -> end.
  { unfold old_items, summary_key. destruct (cp_previous_status p); [|done].
    destruct (decide _); [|done]. by rewrite (encode_index_key_ok _ _ _ Hi). }
  destruct (db_commit_ok db (new ++ old_items p) Hh) as (H1 & H2 & H3). cbn [fst snd].
  rewrite H1. split; [done|]. split; [done|].
  assert (forall q, db_contents (db_commit db (new ++ old_items p)).2 q =
    fold_left apply_item (items_of q (old_items p)) (fold_left apply_item (items_of q new) (db_contents db q)))
    as H4 by (intros q; by rewrite H3, items_of_app, fold_left_app).
  assert (db_contents (db_commit db (new ++ old_items p)).2 EVENTS_PARTITION =
    <[event_key (cp_instance p) (sequence_u64 (cp_sequence p)) := vec_of (cp_event p)]>
      (db_contents db EVENTS_PARTITION)) as He by (by rewrite H4, old_items_other).
  assert (db_contents (db_commit db (new ++ old_items p)).2 INSTANCES_PARTITION =
    fold_left apply_item (items_of INSTANCES_PARTITION (old_items p))
      (<[summary_key p (cp_new_status p) := []]> (db_contents db INSTANCES_PARTITION))) as Hx
    by (by rewrite H4).
  split; [exact He|]. split; [by rewrite Hx, old_items_index|]. split.
  { intros q Hq1 Hq2. rewrite H4, old_items_other by done. unfold items_of, new. cbn.
    by rewrite !decide_False by congruence. }
  unfold verify_commit_visibility.
  destruct (open_partition_ok _ EVENTS_PARTITION H2) as (e1 & -> & G1 & E1).
  destruct (open_partition_ok _ INSTANCES_PARTITION H2) as (e2 & -> & G2 & E2). cbn [rbind].
  rewrite (build_event_key_ok _ _ Hi). cbn [rbind]. rewrite (read_key_ok _ _ G1), E1, He, lookup_insert_eq.
  cbn [rbind ok_or]. rewrite (encode_index_key_ok _ _ _ Hi). cbn [rbind].
  rewrite (read_key_ok _ _ G2), E2, Hx. fold (summary_key p (cp_new_status p)).
  by rewrite old_items_keep.
Qed.
End EventSummary.

(** ** Admitting a workflow *)

Section Admit.
Context `{J : JsonApi} `{U : UlidApi} `{F : FjallApi} `{D : !DatabaseApi} `{SV : !SerdeApi EventEnvelope}.

(** [struct AtomicAdmitParams], without the [event_metadata] that envelopes leave out here. *)
Record AtomicAdmitParams : Type := mkAdmit {
  ap_namespace : string;
  ap_instance : InstanceId;
  ap_dedupe_key : string;
  ap_dedupe_ttl : Z;
  ap_timestamp : Z;
  ap_event_payload : Value;
  ap_initial_status : InstanceStatus;
}.

(** [enum AtomicAdmitResult]. *)
Inductive AtomicAdmitResult : Set := WorkflowAdmitted | WorkflowDuplicate (instance_id : string).

(** [enum AdmissionCommitError]. *)
Inductive AdmissionCommitError : Type :=
| AdmitDedupe (e : Dedupe.DedupeStoreError)
| AdmitStorage (e : StorageError)
| AdmitBatchCommitFailed
| AdmitSerializationFailed
| InvalidDedupeKey (reason : ParseError).

(** [next_sequence]. *)
Definition next_sequence (events : Keyspace) (i : InstanceId) : result StorageError Z :=
  let? start := build_event_key i 1 in
  let? end_ := build_event_key i u64_max in
  match last (ks_range events start end_) with
  | Some item =>
      let? kv := map_err (fun _ => StorageFailed) item in
      let seq_bytes := drop (length kv.1 - 8) kv.1 in
      if negb (length seq_bytes =? 8)%nat then Err CorruptKey
      else ok_or (checked_add_u64 (from_be_bytes seq_bytes) 1) SequenceGap
  | None => Ok 1
  end.

(** The writes of [atomic_admit_workflow]. *)
Definition admit_batch (events : Keyspace) (p : AtomicAdmitParams) (key : Dedupe.DedupeKey)
    (encoded_key : list Z) (expires_at : Z)
  : result AdmissionCommitError (list (string * BatchItem)) :=
  let i := ap_instance p in
  let? _ := map_err AdmitStorage (id_bytes_or CorruptKey i) in
  let? seq := map_err AdmitStorage (next_sequence events i) in
  let envelope := mkEnvelope 1 (instance_id_str i) seq (ap_timestamp p) (ap_event_payload p) in
  let? entry := map_err AdmitDedupe
                  (Dedupe.DedupeEntry_new (Dedupe.dedupe_key_str key) (instance_id_str i) expires_at) in
  let? dedupe_value := map_err AdmitDedupe (Dedupe.encode_dedupe_entry entry) in
  let? event_key := map_err AdmitStorage (build_event_key i seq) in
  let? event_value := map_err (fun _ => AdmitSerializationFailed) (to_vec envelope) in
  let? instance_key := map_err AdmitStorage
                         (encode_instance_index_key (ap_initial_status p) (ap_timestamp p) i) in
  Ok [(DEDUPE_PARTITION, BatchInsert encoded_key dedupe_value);
      (EVENTS_PARTITION, BatchInsert event_key event_value);
      (INSTANCES_PARTITION, BatchInsert instance_key [])].

(** The admission once the key is found free. *)
Definition admit_commit (db : Database) (events : Keyspace) (p : AtomicAdmitParams)
    (key : Dedupe.DedupeKey) (encoded_key : list Z) (expires_at : Z)
  : result AdmissionCommitError AtomicAdmitResult * Database :=
  match admit_batch events p key encoded_key expires_at with
  | Err e => (Err e, db)
  | Ok items =>
      let r := db_commit db items in
      (let? _ := map_err (fun _ => AdmitBatchCommitFailed) r.1 in Ok WorkflowAdmitted, r.2)
  end.

(** [atomic_admit_workflow]; [clock] is the reading of the system clock, and [None] as a
    result is a panic (a clock before the epoch, or a key too long to encode). The stripes
    of locks make each call one step. *)
Definition atomic_admit_workflow (clock : option Z) (db : Database) (p : AtomicAdmitParams)
  : option (result AdmissionCommitError AtomicAdmitResult * Database) :=
  match Dedupe.DedupeKey_parse (ap_dedupe_key p) with
  | Err e => Some (Err (InvalidDedupeKey e), db)
  | Ok key =>
      match (let? dedupe := open_partition db DEDUPE_PARTITION in
             let? events := open_partition db EVENTS_PARTITION in
             let? _ := open_partition db INSTANCES_PARTITION in
             Ok (dedupe, events)) with
      | Err e => Some (Err (AdmitStorage e), db)
      | Ok (dedupe, events) =>
          encoded_key ← Dedupe.encode_dedupe_key key;
          now ← clock;
          let expires_at := saturating_add_u64 now (ap_dedupe_ttl p) in
          let on_absent := admit_commit db events p key encoded_key expires_at in
          Some (match ks_get dedupe encoded_key with
                | Ok (Some existing) =>
                    match Dedupe.decode_dedupe_entry existing with
                    | Err e => (Err (AdmitDedupe e), db)
                    | Ok entry =>
                        if negb (Dedupe.is_expired entry now) then
                          (Ok (WorkflowDuplicate (Dedupe.entry_instance_id entry)), db)
                        else on_absent
                    end
                | _ => on_absent
                end)
      end
  end.

(** ** Sequence numbers

    The keys of the partition are an instance's bytes and a positive sequence number. *)

Definition event_keys (m : gmap (list Z) (list Z)) : Prop :=
  forall k v, m !! k = Some v ->
    exists w n, length w = 16%nat /\ Forall is_byte w /\ 1 <= n <= u64_max /\ k = w ++ be_bytes 8 n.

Context {UL : UlidLaws} `{FL : !FjallLaws} `{DL : !DatabaseLaws} `{SVL : !SerdeLaws EventEnvelope}.

Lemma key_sequence_app id w n :
  length w = 16%nat -> is_u64 n ->
  EventStore.FjallEvents.key_sequence id (w ++ be_bytes 8 n) = if decide (w = id) then Some n else None.
Proof.
  intros Hw Hn. unfold EventStore.FjallEvents.key_sequence.
  rewrite length_app, be_bytes_length, Hw. cbn [Nat.ltb Nat.leb Nat.add].
  rewrite take_app_length', drop_app_length' by done.
  rewrite take_ge by (by rewrite be_bytes_length). rewrite be_bytes_id by (by apply u64_range).
  destruct (decide (w = id)) as [->|]; [by rewrite bool_decide_true|by rewrite bool_decide_false].
Qed.

(** The keys in the range of an instance are its keys. *)
Lemma event_range id w n :
  length id = 16%nat -> length w = 16%nat -> 1 <= n <= u64_max ->
  lex_le (id ++ be_bytes 8 1) (w ++ be_bytes 8 n) /\
  lex_le (w ++ be_bytes 8 n) (id ++ be_bytes 8 u64_max) <-> w = id.
Proof.
  intros Hid Hw Hn. unfold lex_le. rewrite !lex_app by congruence.
  rewrite !lex_be by (apply u64_range; ulia). split.
  - rewrite (lex_antisym id w). intros [H1 H2]. symmetry. apply lex_eq.
    destruct (lex id w); cbn in *; done.
  - intros ->. rewrite lex_refl. cbn [then_cmp].
    split; apply Z.compare_le_iff; lia.
Qed.

(** [next_sequence] is one more than the event store's current sequence. *)
Lemma next_sequence_spec ks i :
  healthy ks -> event_keys (contents ks) -> valid_id i ->
  exists n, EventStore.FjallEvents.get_current_sequence ks i = Ok n /\ 0 <= n <= u64_max /\
    next_sequence ks i = if n =? u64_max then Err SequenceGap else Ok (n + 1).
Proof.
  intros Hh Hk Hi. pose proof Hi as [u Hu].
  destruct (EventStore.current_sequence_spec ks i u Hh Hu) as (r & Hr & H0 & Hat & Hub).
  exists r. split; [done|]. set (id := be_bytes 16 u) in *.
  assert (length id = 16%nat) as Hid by apply be_bytes_length.
  assert (forall k v, contents ks !! k = Some v -> forall n,
    EventStore.FjallEvents.key_sequence id k = Some n <->
    1 <= n <= u64_max /\ k = id ++ be_bytes 8 n) as Hks.
  { intros k v Hkv n. destruct (Hk k v Hkv) as (w & m & Hw & _ & Hm & ->).
    rewrite key_sequence_app by (done || ulia). split.
    - destruct (decide (w = id)) as [->|]; [|done]. intros [= ->]. done.
    - intros [Hn E]. apply app_inj_1 in E as [-> E]; [|congruence].
      rewrite decide_True by done. f_equal. by apply be_bytes_inj in E; [|apply u64_range; ulia..]. }
  assert (0 <= r <= u64_max) as Hrange.
  { split; [done|]. destruct Hat as [->|(k & v & Hkv & Hs)]; [done|].
    apply (Hks k v Hkv) in Hs. lia. }
  split; [done|]. unfold next_sequence. rewrite !(build_event_key_ok _ _ Hi). cbn [rbind].
  unfold event_key. rewrite (iid_bytes_wf _ _ Hu). fold id.
  destruct (ks_range_ok ks (id ++ be_bytes 8 1) (id ++ be_bytes 8 u64_max) Hh) as (l & -> & Ho & Hin).
  assert (forall kv, kv ∈ l <-> contents ks !! kv.1 = Some kv.2 /\
    exists n, 1 <= n <= u64_max /\ kv.1 = id ++ be_bytes 8 n) as Hl.
  { intros [k v]. rewrite Hin. cbn [fst snd]. split.
    - intros [Hkv Hrng]. split; [done|]. destruct (Hk k v Hkv) as (w & m & Hw & _ & Hm & ->).
      apply event_range in Hrng as ->; [|done..]. by exists m.
    - intros [Hkv (n & Hn & ->)]. split; [done|]. by apply event_range. }
  destruct l as [|[k v] l _] using rev_ind.
  - cbn [fmap list_fmap last]. assert (r = 0) as ->; [|done].
    destruct Hat as [?|(k & v & Hkv & Hs)]; [done|]. apply (Hks k v Hkv) in Hs.
    exfalso. apply (not_elem_of_nil (k, v)), Hl. split; [done|]. by exists r.
  - rewrite fmap_app. cbn [fmap list_fmap]. rewrite last_snoc. cbn [map_err rbind fst].
    assert ((k, v) ∈ l ++ [(k, v)]) as Hmem by set_solver.
    apply Hl in Hmem as [Hkv (n & Hn & Ek)]. cbn [fst snd] in *. subst k.
    rewrite length_app, be_bytes_length, Hid. cbn [Nat.add Nat.sub].
    rewrite drop_app_length', be_bytes_length by done. cbn [Nat.eqb negb].
    rewrite be_bytes_id by (apply u64_range; ulia). assert (r = n) as ->.
    { apply Z.le_antisymm.
      - destruct Hat as [->|(k' & v' & Hkv' & Hs)]; [lia|]. apply (Hks k' v' Hkv') in Hs as [Hrn ->].
        assert ((id ++ be_bytes 8 r, v') ∈ l ++ [(id ++ be_bytes 8 n, v)]) as Hmem.
        { apply Hl. split; [done|]. by exists r. }
        pose proof (in_order_last _ _ _ Ho Hmem) as Hle. unfold lex_le in Hle. cbn [fst] in Hle.
        rewrite lex_app, lex_refl in Hle by done. cbn [then_cmp] in Hle.
        rewrite lex_be in Hle by (apply u64_range; ulia). by apply Z.compare_le_iff.
      - apply (Hub _ v n Hkv), (Hks _ v Hkv). done. }
    unfold checked_add_u64. destruct (Z.leb_spec (n + 1) u64_max), (Z.eqb_spec n u64_max); done || lia.
Qed.
(** The three writes of an admission at sequence number [n]. *)
Definition admit_items (p : AtomicAdmitParams) (n expires_at : Z) : list (string * BatchItem) :=
  let i := ap_instance p in
  [(DEDUPE_PARTITION, BatchInsert (Dedupe.key_bytes (ap_dedupe_key p))
      (Dedupe.entry_bytes (Dedupe.mkDedupeEntry (ap_dedupe_key p) (instance_id_str i) expires_at)));
   (EVENTS_PARTITION, BatchInsert (event_key i n)
      (vec_of (mkEnvelope 1 (instance_id_str i) n (ap_timestamp p) (ap_event_payload p))));
   (INSTANCES_PARTITION, BatchInsert
      (index_key (mkIndexEntry i (ap_initial_status p) (ap_timestamp p))) [])].

Definition admit_valid (p : AtomicAdmitParams) : Prop :=
  valid_id (ap_instance p) /\ Dedupe.key_ok (ap_dedupe_key p) /\ is_u64 (ap_dedupe_ttl p) /\
  is_u64 (ap_timestamp p).

Lemma parse_key_ok k : Dedupe.key_ok k -> Dedupe.DedupeKey_parse k = Ok (Dedupe.mkDedupeKey k).
Proof.
  intros (H1 & H2 & H3). unfold Dedupe.DedupeKey_parse. rewrite H1.
  by destruct (Z.ltb_spec 256 (Dedupe.char_count k)); [lia|].
Qed.

Lemma admit_batch_ok ks p now n :
  admit_valid p -> is_u64 now -> next_sequence ks (ap_instance p) = Ok n ->
  admit_batch ks p (Dedupe.mkDedupeKey (ap_dedupe_key p)) (Dedupe.key_bytes (ap_dedupe_key p))
    (saturating_add_u64 now (ap_dedupe_ttl p)) =
  Ok (admit_items p n (saturating_add_u64 now (ap_dedupe_ttl p))).
Proof.
  intros ([u Hu] & Hk & Ht & Hts) Hn Hseq. unfold admit_batch.
  unfold id_bytes_or. rewrite (to_bytes_wf _ _ Hu). cbn [map_err rbind].
  rewrite Hseq. cbn [map_err rbind]. cbn [Dedupe.dedupe_key_str].
  destruct (Dedupe.new_entry_ok _ _ _ _ _ Hk Hu Hn Ht) as [-> Hwf]. cbn [map_err rbind].
  rewrite (Dedupe.encode_dedupe_entry_ok _ Hwf). cbn [map_err rbind].
  rewrite (build_event_key_ok _ _ (ex_intro _ u Hu)). cbn [map_err rbind].
  rewrite to_vec_ok. cbn [map_err rbind].
  by rewrite (encode_index_key_ok _ _ _ (ex_intro _ u Hu)).
Qed.

Lemma admit_commit_spec db ks p now n :
  db_healthy db -> admit_valid p -> is_u64 now -> 0 <= n <= u64_max ->
  next_sequence ks (ap_instance p) = (if n =? u64_max then Err SequenceGap else Ok (n + 1)) ->
  let x := saturating_add_u64 now (ap_dedupe_ttl p) in
  admit_commit db ks p (Dedupe.mkDedupeKey (ap_dedupe_key p))
    (Dedupe.key_bytes (ap_dedupe_key p)) x =
  if n =? u64_max then (Err (AdmitStorage SequenceGap), db)
  else (Ok WorkflowAdmitted, (db_commit db (admit_items p (n + 1) x)).2).
Proof.
  intros Hh Hp Hnow Hn Hns. cbn zeta. unfold admit_commit. destruct (Z.eqb_spec n u64_max) as [E|E].
  - unfold admit_batch. destruct Hp as ([u Hu] & _). unfold id_bytes_or.
    rewrite (to_bytes_wf _ _ Hu). cbn [map_err rbind]. by rewrite Hns.
  - rewrite (admit_batch_ok ks p now (n + 1) Hp Hnow Hns). cbn zeta.
    by destruct (db_commit_ok db (admit_items p (n + 1) (saturating_add_u64 now (ap_dedupe_ttl p))) Hh)
      as (-> & _).
Qed.

(** The call, once its key is parsed and the partitions are open. *)
Lemma admit_unfold db p now :
  db_healthy db -> admit_valid p ->
  exists dedupe events, healthy dedupe /\ healthy events /\
    contents dedupe = db_contents db DEDUPE_PARTITION /\
    contents events = db_contents db EVENTS_PARTITION /\
    open_partition db EVENTS_PARTITION = Ok events /\
    let on_absent :=
      admit_commit db events p (Dedupe.mkDedupeKey (ap_dedupe_key p))
        (Dedupe.key_bytes (ap_dedupe_key p)) (saturating_add_u64 now (ap_dedupe_ttl p)) in
    atomic_admit_workflow (Some now) db p =
    Some (match contents dedupe !! Dedupe.key_bytes (ap_dedupe_key p) with
          | Some existing =>
              match Dedupe.decode_dedupe_entry existing with
              | Err e => (Err (AdmitDedupe e), db)
              | Ok entry =>
                  if negb (Dedupe.is_expired entry now) then
                    (Ok (WorkflowDuplicate (Dedupe.entry_instance_id entry)), db)
                  else on_absent
              end
          | None => on_absent
          end).
Proof.
  intros Hh (_ & Hk & _).
  destruct (open_partition_ok db DEDUPE_PARTITION Hh) as (k1 & E1 & G1 & C1).
  destruct (open_partition_ok db EVENTS_PARTITION Hh) as (k2 & E2 & G2 & C2).
  destruct (open_partition_ok db INSTANCES_PARTITION Hh) as (k3 & E3 & _).
  exists k1, k2. split_and!; [done..|]. cbn zeta. unfold atomic_admit_workflow.
  rewrite (parse_key_ok _ Hk), E1, E2, E3. cbn [rbind].
  rewrite (Dedupe.encode_dedupe_key_ok (Dedupe.mkDedupeKey (ap_dedupe_key p)) Hk).
  cbn [mbind option_bind Dedupe.dedupe_key_str]. by rewrite (ks_get_ok _ _ G1).
Qed.
(** The database: the deduplication entries [a], and well-formed event keys. *)
Definition admit_inv (db : Database) (a : gmap string Dedupe.DedupeEntry) : Prop :=
  db_healthy db /\
  encodes Dedupe.key_ok Dedupe.key_bytes Dedupe.entry_bytes a (db_contents db DEDUPE_PARTITION) /\
  Dedupe.entries_wf a /\ event_keys (db_contents db EVENTS_PARTITION).

(** The entry of an admission. *)
Definition admitted_entry (p : AtomicAdmitParams) (now : Z) : Dedupe.DedupeEntry :=
  Dedupe.mkDedupeEntry (ap_dedupe_key p) (instance_id_str (ap_instance p))
    (saturating_add_u64 now (ap_dedupe_ttl p)).

Lemma admit_items_contents db p n x :
  db_healthy db ->
  let db' := (db_commit db (admit_items p n x)).2 in
  db_contents db' DEDUPE_PARTITION =
    <[Dedupe.key_bytes (ap_dedupe_key p) := Dedupe.entry_bytes (Dedupe.mkDedupeEntry
        (ap_dedupe_key p) (instance_id_str (ap_instance p)) x)]> (db_contents db DEDUPE_PARTITION) /\
  db_contents db' EVENTS_PARTITION =
    <[event_key (ap_instance p) n := vec_of (mkEnvelope 1 (instance_id_str (ap_instance p)) n
        (ap_timestamp p) (ap_event_payload p))]> (db_contents db EVENTS_PARTITION) /\
  db_contents db' INSTANCES_PARTITION =
    <[index_key (mkIndexEntry (ap_instance p) (ap_initial_status p) (ap_timestamp p)) := []]>
      (db_contents db INSTANCES_PARTITION) /\
  forall q, q ∉ [DEDUPE_PARTITION; EVENTS_PARTITION; INSTANCES_PARTITION] ->
    db_contents db' q = db_contents db q.
Proof.
  intros Hh. destruct (db_commit_ok db (admit_items p n x) Hh) as (_ & _ & H3). cbn zeta.
  rewrite !H3. split; [done|]. split; [done|]. split; [done|]. intros q.
  rewrite !not_elem_of_cons. intros (H1 & H2 & H4 & _). rewrite H3.
  unfold admit_items, items_of. cbn [omap list_omap fst snd].
  by rewrite !decide_False by congruence.
Qed.

(** The event store sees the event. *)
Lemma current_sequence_after ks ks' i n v :
  healthy ks -> healthy ks' -> valid_id i -> 0 <= n < u64_max ->
  EventStore.FjallEvents.get_current_sequence ks i = Ok n ->
  contents ks' = <[event_key i (n + 1) := v]> (contents ks) ->
  EventStore.FjallEvents.get_current_sequence ks' i = Ok (n + 1).
Proof.
  intros Hh Hh' [u Hu] Hn Hg Hc.
  destruct (EventStore.current_sequence_spec ks i u Hh Hu) as (r & Hr & _ & _ & Hub).
  rewrite Hg in Hr. injection Hr as <-.
  destruct (EventStore.current_sequence_spec ks' i u Hh' Hu) as (r' & -> & _ & Hat' & Hub').
  assert (EventStore.FjallEvents.key_sequence (be_bytes 16 u) (event_key i (n + 1)) = Some (n + 1)) as Hks.
  { unfold event_key. rewrite (iid_bytes_wf _ _ Hu), key_sequence_app, decide_True
      by (done || apply be_bytes_length || ulia). done. }
  assert (contents ks' !! event_key i (n + 1) = Some v) as Hin by (by rewrite Hc, lookup_insert_eq).
  f_equal. apply Z.le_antisymm; [|exact (Hub' _ v _ Hin Hks)].
  destruct Hat' as [->|(k & w & Hkw & Hs)]; [lia|].
  rewrite Hc, lookup_insert_Some in Hkw. destruct Hkw as [[<- _]|[_ Hkw]].
  - rewrite Hks in Hs. injection Hs. lia.
  - specialize (Hub k w r' Hkw Hs). lia.
Qed.

(** An admission that is not a duplicate. *)
Lemma admit_fresh db a p now events n :
  admit_inv db a -> admit_valid p -> is_u64 now -> 0 <= n < u64_max ->
  open_partition db EVENTS_PARTITION = Ok events -> healthy events ->
  contents events = db_contents db EVENTS_PARTITION ->
  EventStore.FjallEvents.get_current_sequence events (ap_instance p) = Ok n ->
  let db' := (db_commit db (admit_items p (n + 1) (saturating_add_u64 now (ap_dedupe_ttl p)))).2 in
  admit_inv db' (<[ap_dedupe_key p := admitted_entry p now]> a) /\
  exists events', open_partition db' EVENTS_PARTITION = Ok events' /\
    EventStore.FjallEvents.get_current_sequence events' (ap_instance p) = Ok (n + 1).
Proof.
  intros (Hh & He & Hw & Hk) Hp Hnow Hn Ho Hhe Hce Hg. cbn zeta.
  set (x := saturating_add_u64 now (ap_dedupe_ttl p)).
  destruct (db_commit_ok db (admit_items p (n + 1) x) Hh) as (_ & Hh' & _).
  destruct (admit_items_contents db p (n + 1) x Hh) as (E1 & E2 & _).
  pose proof Hp as (Hi & Hkey & Ht & Hts). destruct Hi as [u Hu].
  split.
  - split; [done|]. split; [|split].
    + rewrite E1. apply (encodes_insert _ _ _ Dedupe.key_bytes_inj); done.
    + intros k e. rewrite lookup_insert_Some. intros [[<- <-]|[_ Ha]]; [|by apply Hw].
      split; [done|]. split; [done|]. by apply (Dedupe.new_entry_ok _ _ u).
    + intros k v. rewrite E2, lookup_insert_Some. intros [[<- _]|[_ Ha]]; [|by eapply Hk].
      exists (be_bytes 16 u), (n + 1). unfold event_key. rewrite (iid_bytes_wf _ _ Hu).
      split_and!; [apply be_bytes_length|apply be_bytes_bytes|lia|lia|done].
  - destruct (open_partition_ok _ EVENTS_PARTITION Hh') as (ks' & Hks & Hhk & Hck). exists ks'.
    split; [done|]. eapply (current_sequence_after events ks'); [done|done|by exists u|done|done|].
    by rewrite Hck, E2, Hce.
Qed.
Lemma admission_step db a p now :
  admit_inv db a -> admit_valid p -> is_u64 now ->
  exists events n,
    open_partition db EVENTS_PARTITION = Ok events /\
    EventStore.FjallEvents.get_current_sequence events (ap_instance p) = Ok n /\
    match Dedupe.live a (ap_dedupe_key p) now with
    | Some e =>
        atomic_admit_workflow (Some now) db p =
          Some (Ok (WorkflowDuplicate (Dedupe.entry_instance_id e)), db)
    | None =>
        if n =? u64_max then
          atomic_admit_workflow (Some now) db p = Some (Err (AdmitStorage SequenceGap), db)
        else exists db',
          atomic_admit_workflow (Some now) db p = Some (Ok WorkflowAdmitted, db') /\
          admit_inv db' (<[ap_dedupe_key p := admitted_entry p now]> a) /\
          (exists events', open_partition db' EVENTS_PARTITION = Ok events' /\
             EventStore.FjallEvents.get_current_sequence events' (ap_instance p) = Ok (n + 1)) /\
          db_contents db' EVENTS_PARTITION =
            <[event_key (ap_instance p) (n + 1) := vec_of (mkEnvelope 1
                (instance_id_str (ap_instance p)) (n + 1) (ap_timestamp p) (ap_event_payload p))]>
              (db_contents db EVENTS_PARTITION) /\
          db_contents db' INSTANCES_PARTITION =
            <[index_key (mkIndexEntry (ap_instance p) (ap_initial_status p) (ap_timestamp p)) := []]>
              (db_contents db INSTANCES_PARTITION) /\
          forall q, q ∉ [DEDUPE_PARTITION; EVENTS_PARTITION; INSTANCES_PARTITION] ->
            db_contents db' q = db_contents db q
    end.
Proof.
  intros Hinv Hp Hnow. pose proof Hinv as (Hh & He & Hw & Hk).
  destruct (admit_unfold db p now Hh Hp) as (dd & ev & Hdd & Hev & Cdd & Cev & Oev & ->).
  pose proof Hp as (Hi & Hkey & _).
  destruct (next_sequence_spec ev (ap_instance p) Hev) as (n & Hg & Hn & Hns); [by rewrite Cev|done|].
  exists ev, n. split; [done|]. split; [done|].
  rewrite Cdd, (encodes_lookup _ _ _ Dedupe.key_bytes_inj a _ _ He Hkey).
  rewrite (admit_commit_spec db ev p now n Hh Hp Hnow Hn Hns).
  unfold Dedupe.live. destruct (a !! ap_dedupe_key p) as [e|] eqn:Ea; cbn [fmap option_fmap option_map].
  1: rewrite (Dedupe.decode_dedupe_entry_bytes e) by (by apply (Hw (ap_dedupe_key p)));
     destruct (Dedupe.is_expired e now); cbn [negb]; [|done].
  all: destruct (Z.eqb_spec n u64_max) as [E|E]; [done|]; eexists; split; [done|].
  all: destruct (admit_fresh db a p now ev n Hinv Hp Hnow ltac:(lia) Oev Hev Cev Hg) as [H1 H2].
  all: destruct (admit_items_contents db p (n + 1) (saturating_add_u64 now (ap_dedupe_ttl p)) Hh)
         as (_ & H3 & H4 & H5).
  all: exact (conj H1 (conj H2 (conj H3 (conj H4 H5)))).
Qed.

(** A sequence of admissions with their clock readings. *)
Fixpoint admit_run (db : Database) (calls : list (Z * AtomicAdmitParams))
  : option (list (result AdmissionCommitError AtomicAdmitResult) * Database) :=
  match calls with
  | [] => Some ([], db)
  | (now, p) :: rest =>
      '(r, db1) ← atomic_admit_workflow (Some now) db p;
      '(rs, db2) ← admit_run db1 rest;
      Some (r :: rs, db2)
  end.
(** While an entry is live, calls with its key are duplicates of its instance, and calls
    with other keys leave it. *)
Lemma admit_run_duplicates calls db a k e :
  admit_inv db a -> a !! k = Some e ->
  Forall (fun c => admit_valid c.2 /\ is_u64 c.1 /\
            (ap_dedupe_key c.2 = k -> Dedupe.is_expired e c.1 = false)) calls ->
  exists rs db', admit_run db calls = Some (rs, db') /\
    Forall2 (fun c r => ap_dedupe_key c.2 = k ->
               r = Ok (WorkflowDuplicate (Dedupe.entry_instance_id e))) calls rs.
Proof.
  intros Hinv Hk Hc. revert db a Hinv Hk.
  induction Hc as [|[now p] calls (Hp & Hn & Hx) Hc IH]; intros db a Hinv Hk; [by exists [], db|].
  cbn [fst snd] in *. destruct (admission_step db a p now Hinv Hp Hn) as (ev & n & _ & _ & Hcase).
  assert (ap_dedupe_key p = k -> Dedupe.live a (ap_dedupe_key p) now = Some e) as Hlive.
  { intros E. unfold Dedupe.live. by rewrite E, Hk, (Hx E). }
  assert (exists r db1 a1, atomic_admit_workflow (Some now) db p = Some (r, db1) /\
    admit_inv db1 a1 /\ a1 !! k = Some e /\
    (ap_dedupe_key p = k -> r = Ok (WorkflowDuplicate (Dedupe.entry_instance_id e))))
    as (r & db1 & a1 & Hadm & Hinv1 & Hk1 & Hr).
  { destruct (Dedupe.live a (ap_dedupe_key p) now) as [e'|].
    - exists (Ok (WorkflowDuplicate (Dedupe.entry_instance_id e'))), db, a.
      split; [done|]. split; [done|]. split; [done|].
      intros E. by injection (Hlive E) as ->.
    - destruct (n =? u64_max).
      + exists (Err (AdmitStorage SequenceGap)), db, a.
        split; [done|]. split; [done|]. split; [done|].
        intros E. by specialize (Hlive E).
      + destruct Hcase as (db1 & Hadm & Hinv1 & _). eexists _, db1, _. split; [exact Hadm|].
        split; [exact Hinv1|]. split; [|intros E; by specialize (Hlive E)].
        rewrite lookup_insert_ne; [done|]. intros E. by specialize (Hlive E). }
  destruct (IH db1 a1 Hinv1 Hk1) as (rs & db2 & Hrun & Hrs). exists (r :: rs), db2.
  cbn [admit_run]. rewrite Hadm. cbn [mbind option_bind]. rewrite Hrun. split; [done|]. by constructor.
Qed.


(** C7. A workflow is admitted once per window: after an admission, whatever admissions
    with whatever keys follow, every call with the same deduplication key before the ttl
    has passed is answered as a duplicate of the admitted instance. *)
Theorem workflow_admitted_once db a p now db1 calls :
  admit_inv db a -> admit_valid p -> is_u64 now ->
  atomic_admit_workflow (Some now) db p = Some (Ok WorkflowAdmitted, db1) ->
  Forall (fun c => admit_valid c.2 /\ is_u64 c.1 /\
            (ap_dedupe_key c.2 = ap_dedupe_key p ->
             c.1 < saturating_add_u64 now (ap_dedupe_ttl p))) calls ->
  exists rs db2, admit_run db1 calls = Some (rs, db2) /\
    Forall2 (fun c r => ap_dedupe_key c.2 = ap_dedupe_key p ->
               r = Ok (WorkflowDuplicate (instance_id_str (ap_instance p)))) calls rs.
Proof.
  intros Hinv Hp Hn Hadm Hc.
  destruct (admission_step db a p now Hinv Hp Hn) as (ev & n & _ & _ & Hcase).
  rewrite Hadm in Hcase. destruct (Dedupe.live _ _ _) as [e|]; [by injection Hcase|].
  destruct (n =? u64_max); [by injection Hcase|]. destruct Hcase as (db' & [= <-] & Hinv1 & _).
  apply (admit_run_duplicates calls db1 _ (ap_dedupe_key p) (admitted_entry p now) Hinv1).
  - apply lookup_insert_eq.
  - eapply Forall_impl; [exact Hc|]. intros c (H1 & H2 & H3). split; [done|]. split; [done|].
    intros E%H3. unfold Dedupe.is_expired, admitted_entry. cbn [Dedupe.expires_at].
    by apply Z.leb_gt.
Qed.
End Admit.

(** ** The commits at concrete inputs *)

Module CommitsWitness.
Import ConcreteUlid MapKeyspace MapDatabase BitsSerde InstanceIndexWitness SnapshotsWitness TimersWitness.
#[local] Existing Instances text_uuid text_uuid_laws sum_crc header_countable state_countable.
#[local] Existing Instances StringJson.string_json EventStore.EventStoreWitness.envelope_countable.
#[local] Existing Instance bits_serde.

(** States with a mark that the text of bytes does not start with. *)
#[local] Instance marked_state : SerdeApi InstanceState | 0 := {|
  to_json := fun s => Ok (String "s"%char (bits (countable.encode s)));
  from_json := fun s =>
    match s with
    | String "s"%char s' => ok_or (countable.decode (unbits s')) "malformed"
    | _ => Err "malformed"
    end;
|}.

Lemma marked_state_laws : SerdeLaws InstanceState (S := marked_state).
Proof.
  split.
  - intros a. eexists. split; [done|]. apply utf8_ascii. unfold as_bytes. cbn [chars].
    apply Forall_cons. split; [by split|apply (bits_ascii (countable.encode a))].
  - intros a s [= <-]. cbn [from_json marked_state]. by rewrite unbits_bits, decode_encode.
Qed.

Lemma bytes_are_not_states (bs : list Z) :
  exists e, from_slice (A := InstanceState) (S := marked_state) (vec_of bs) = Err e.
Proof.
  unfold vec_of, to_vec, from_slice. cbn [to_json bits_serde rbind].
  unfold from_utf8. destruct (utf8_valid _); [|by eexists]. rewrite of_bytes_as_bytes. cbn [ok_or rbind].
  destruct (countable.encode bs); by eexists.
Qed.

Definition suspend : SuspendParams :=
  mkSuspend one wake 9000 4000 5000 8000 (mkSequenceNumber 3) [1; 2].

Lemma suspend_params_ok : suspend_ok suspend.
Proof. by vm_compute. Qed.

Lemma suspend_commit_exact_witness :
  exists v, verify_suspend_rollback (atomic_suspend_commit ∅ suspend InstanceStatus.Running).2 suspend
    InstanceStatus.Running = Ok v /\ is_complete v = true.
Proof.
  destruct (suspend_commit_exact (DL := database_laws) (SHL := bits_serde_laws)
    (SBL := bits_serde_laws) ∅ suspend InstanceStatus.Running I first_valid ltac:(by vm_compute))
    as [_ H].
  destruct (H suspend_params_ok) as (_ & _ & _ & _ & _ & _ & v & Hv & Hc). exists v.
  split; [exact Hv|]. rewrite Hc. reflexivity.
Defined.

Definition ix : gmap (list Z) (list Z) :=
  {[index_key (mkIndexEntry one InstanceStatus.Running 5) := []]}.

Lemma ix_indexed : indexed (fun e => e = mkIndexEntry one InstanceStatus.Running 5) ix.
Proof.
  unfold ix. rewrite <- insert_empty. eapply indexed_proper; [|apply (indexed_insert (listed ∅))].
  - intros e. cbn beta. unfold listed. rewrite lookup_empty. naive_solver.
  - apply indexed_empty.
  - split; [exact first_valid|cbn; ulia].
Qed.

Lemma suspended_instance_stuck_witness :
  Ok (mkIndexEntry one InstanceStatus.Running 5) ∈
    scan_by_status (atomic_suspend_commit ({[INSTANCES_PARTITION := ix]} : Database) suspend
                      InstanceStatus.Running).2 InstanceStatus.Running.
Proof.
  refine (proj1 (proj1 (proj2 (suspended_instance_stuck (DL := database_laws)
    (SHL := bits_serde_laws) (SBL := bits_serde_laws) (SSL := marked_state_laws) bytes_are_not_states
    {[INSTANCES_PARTITION := ix]} suspend InstanceStatus.Running I first_valid ltac:(by vm_compute)
    suspend_params_ok)) (fun e => e = mkIndexEntry one InstanceStatus.Running 5) 5 _ eq_refl _)).
  - change (indexed (fun e => e = mkIndexEntry one InstanceStatus.Running 5) ix). exact ix_indexed.
  - by vm_compute.
Defined.
(** The event replaces the one stored under its number. *)
Lemma event_summary_exact_witness :
  let p := mkCommit one (mkSequenceNumber 1) (EventStore.EventStoreWitness.ev 1)
             InstanceStatus.Running 5 (Some InstanceStatus.Pending) in
  let db : Database := {[EVENTS_PARTITION := {[event_key one 1 := [9]]}]} in
  db_contents (commit_event_and_summary db p).2 EVENTS_PARTITION =
    <[event_key one 1 := vec_of (EventStore.EventStoreWitness.ev 1)]>
      (db_contents db EVENTS_PARTITION).
Proof.
  intros p db.
  exact (proj1 (proj2 (proj2 (event_summary_exact (DL := database_laws) (SVL := bits_serde_laws)
    db p I first_valid ltac:(by vm_compute))))).
Defined.

Definition order : AtomicAdmitParams :=
  mkAdmit "default" one "order-1" 1000 5 "{}" InstanceStatus.Pending.

Lemma admit_ok : admit_valid order.
Proof. split; [exact first_valid|by vm_compute]. Qed.

Lemma empty_inv : admit_inv ∅ ∅.
Proof.
  split; [exact I|]. split; [|split].
  - change (encodes Dedupe.key_ok Dedupe.key_bytes Dedupe.entry_bytes
      (∅ : gmap string Dedupe.DedupeEntry) ∅). apply encodes_empty.
  - intros k e He. by rewrite lookup_empty in He.
  - change (event_keys ∅). intros k v Hv. by rewrite lookup_empty in Hv.
Qed.


Lemma workflow_admitted_once_witness :
  exists db1, atomic_admit_workflow (Some 7) ∅ order = Some (Ok WorkflowAdmitted, db1) /\
    exists rs db2, admit_run db1 [(900, order)] = Some (rs, db2) /\
      Forall2 (fun c r => ap_dedupe_key c.2 = ap_dedupe_key order ->
                 r = Ok (WorkflowDuplicate (instance_id_str one))) [(900, order)] rs.
Proof.
  destruct (atomic_admit_workflow (Some 7) ∅ order) as [[r db1]|] eqn:E; [|by vm_compute in E].
  exists db1. assert (r = Ok WorkflowAdmitted) as ->.
  { assert (fst <$> atomic_admit_workflow (Some 7) ∅ order = Some (Ok WorkflowAdmitted)) as E'
      by (vm_compute; reflexivity). rewrite E in E'. by injection E'. }
  split; [reflexivity|].
  refine (workflow_admitted_once (DL := database_laws) (SVL := bits_serde_laws) ∅ ∅ order 7 db1
    [(900, order)] empty_inv admit_ok ltac:(ulia) E _).
  apply Forall_cons. split; [|by apply Forall_nil].
  split; [exact admit_ok|]. split; [cbn; ulia|by intros].
Defined.
End CommitsWitness.
