(* ===== verification/Lease.v ===== *)
(** * Leases and fencing

    The lease of an instance's step: the pure state machine of
    [crates/vo-core/src/lease_calc/] and the store of
    [crates/vo-storage/src/lease_partition/] in its in-memory implementation,
    which issues the fence tokens. *)

From S2P Require Import Prelude Identifiers.
From Stdlib Require Import Ascii.

(** ** The lease state machine *)

Module LeaseCalc.

(** [enum LeaseError]. *)
Inductive LeaseError : Type :=
| AlreadyHeld (holder : NodeName)
| RenewalWrongNode
| InvalidTransition
| ZeroTtl
| FenceTokenExhausted.

(** [enum LeaseState]. *)
Inductive LeaseState : Type :=
| Vacant
| Held (holder : NodeName) (expires_at_ms : Z)
| Expired (last_holder : NodeName).

(** [enum LeaseTransition]. *)
Inductive LeaseTransition : Type :=
| Acquire (requester : NodeName) (ttl_ms now_ms : Z)
| Renew (requester : NodeName) (ttl_ms now_ms : Z)
| Tick (now_ms : Z)
| Release (requester : NodeName).

(** [is_expired]. *)
Definition is_expired (expires_at_ms now_ms : Z) : bool := expires_at_ms <=? now_ms.

(** [calc_expires]. *)
Definition calc_expires (now_ms ttl_ms : Z) : result LeaseError Z :=
  if ttl_ms =? 0 then Err ZeroTtl
  else ok_or (checked_add_u64 now_ms ttl_ms) FenceTokenExhausted.

(** [apply]. *)
Definition apply (state : LeaseState) (transition : LeaseTransition)
  : result LeaseError LeaseState :=
  match state, transition with
  | Vacant, Acquire requester ttl_ms now_ms =>
      let? expires_at := calc_expires now_ms ttl_ms in Ok (Held requester expires_at)
  | Vacant, _ => Err InvalidTransition
  | Held holder expires_at_ms, Acquire requester _ now_ms =>
      if is_expired expires_at_ms now_ms then
        let? expires_at := calc_expires now_ms 0 in Err InvalidTransition
      else if decide (holder = requester) then Err (AlreadyHeld requester)
      else Err (AlreadyHeld holder)
  | Held holder expires_at_ms, Renew requester ttl_ms now_ms =>
      if decide (holder <> requester) then Err RenewalWrongNode
      else if is_expired expires_at_ms now_ms then Err InvalidTransition
      else
        let? new_expires := calc_expires now_ms ttl_ms in Ok (Held requester new_expires)
  | Held holder expires_at_ms, Tick now_ms =>
      if is_expired expires_at_ms now_ms then Ok (Expired holder)
      else Ok (Held holder expires_at_ms)
  | Held holder _, Release requester =>
      if decide (holder <> requester) then Err RenewalWrongNode else Ok Vacant
  | Expired _, Acquire requester ttl_ms now_ms =>
      let? expires_at := calc_expires now_ms ttl_ms in Ok (Held requester expires_at)
  | Expired _, Renew _ _ _ => Err InvalidTransition
  | Expired _, Tick _ => Ok state
  | Expired _, Release _ => Err InvalidTransition
  end.

(** A sequence of transitions; a rejected one leaves the state as it was. *)
Definition step (state : LeaseState) (t : LeaseTransition) : LeaseState :=
  match apply state t with Ok state' => state' | Err _ => state end.

Definition run (state : LeaseState) (ts : list LeaseTransition) : LeaseState :=
  fold_left step ts state.

(** The clock reading a transition carries. *)
Definition clock (t : LeaseTransition) : option Z :=
  match t with
  | Acquire _ _ now | Renew _ _ now | Tick now => Some now
  | Release _ => None
  end.

Lemma calc_expires_ok now ttl e :
  0 <= now -> 0 <= ttl ->
  calc_expires now ttl = Ok e <-> ttl <> 0 /\ e = now + ttl /\ e <= u64_max.
Proof.
  intros Hn Ht. unfold calc_expires, checked_add_u64.
  destruct (Z.eqb_spec ttl 0), (Z.leb_spec (now + ttl) u64_max); cbn; naive_solver lia.
Qed.

Definition u64_transition (t : LeaseTransition) : Prop :=
  match t with
  | Acquire _ ttl now | Renew _ ttl now => is_u64 ttl /\ is_u64 now
  | Tick now => is_u64 now
  | Release _ => True
  end.

(** Mutual exclusion of the state machine: whatever transitions arrive, as long
    as every clock reading is before the expiry of the current term and the holder
    neither renews nor releases, the lease stays the holder's with that expiry. *)
Theorem holder_excludes holder e ts :
  Forall (fun t => match t with
                   | Acquire _ _ now | Tick now => now < e
                   | Renew r _ _ | Release r => r <> holder
                   end) ts ->
  run (Held holder e) ts = Held holder e.
Proof.
  induction 1 as [|t ts Ht _ IH]; [done|]. unfold run in *; cbn [fold_left].
  replace (step (Held holder e) t) with (Held holder e); [done|].
  unfold step, apply, is_expired. destruct t as [r ttl now|r ttl now|now|r].
  - rewrite (proj2 (Z.leb_gt e now)) by lia. by case_decide.
  - by rewrite decide_True by done.
  - by rewrite (proj2 (Z.leb_gt e now)) by lia.
  - by rewrite decide_True by done.
Qed.

(** What an accepted transition does: the new lease belongs to the requester and
    expires [ttl] after the clock, strictly in the future and within [u64]; it is
    given only to a node that found the lease vacant or marked expired, or renewed
    its own live lease. In particular a held lease whose term has passed refuses every
    [Acquire] with [ZeroTtl], whatever ttl it asks for, until a [Tick] marks it. *)
Theorem apply_grants state t h e :
  u64_transition t ->
  (apply state t = Ok (Held h e) ->
     state = Held h e \/
     exists ttl now, e = now + ttl /\ now < e <= u64_max /\
       (t = Acquire h ttl now /\ (state = Vacant \/ exists l, state = Expired l) \/
        t = Renew h ttl now /\ exists e0, state = Held h e0 /\ now < e0)) /\
  (forall r ttl now, state = Held h e -> e <= now ->
     apply state (Acquire r ttl now) = Err ZeroTtl /\
     apply (step state (Tick now)) (Acquire r ttl now) =
       let? e' := calc_expires now ttl in Ok (Held r e')).
Proof.
  intros Ht. split.
  - destruct state as [|h0 e0|l], t as [r ttl now|r ttl now|now|r]; cbn in *;
      unfold is_expired in *; intros H;
      repeat (case_decide || case_match); try discriminate; inv_ok; destruct_and?;
      repeat match goal with
      | H : calc_expires _ _ = Ok _ |- _ => apply calc_expires_ok in H; [|ulia..]
      | H : (_ <=? _) = false |- _ => apply Z.leb_gt in H
      | H : ~ (_ <> _) |- _ => apply dec_stable in H as <-
      end; try discriminate; simplify_eq; destruct_and?; simplify_eq; try (by left);
      right; exists ttl, now; (split; [done|]); (split; [ulia|]); eauto 10.
  - intros r ttl now -> Hle. unfold step; cbn. unfold is_expired.
    by rewrite (proj2 (Z.leb_le e now)).
Qed.
End LeaseCalc.

(** ** Lease records and entries *)

(** [struct LeaseRecord]. *)
Record LeaseRecord : Type := mkLeaseRecord {
  lease_instance_id : InstanceId;
  lease_step_id : StepId;
  lease_token : FenceToken;
}.

(** [LeaseRecord::matches_token]. *)
Definition matches_token (r : LeaseRecord) (other : FenceToken) : bool :=
  bool_decide (lease_token r = other).

(** The reasons the store formats into [Storage] and [Codec] errors. *)
Inductive Reason : Type :=
| SystemTimeBeforeEpoch
| InvalidFenceTokenValue
| InvalidInstanceIdText (e : ParseError)
| InvalidStepIdText (e : ParseError)
| CurrentTimeFailed
| ReadFenceFailed (e : string)
| DecodeFenceFailed (e : string)
| EncodeFenceFailed (e : string)
| PersistFenceFailed (e : string)
| InsertLeaseFailed (e : string)
| DeleteLeaseFailed (e : string)
| ErrorText (e : string).

(** [enum LeaseStoreError]. *)
Inductive LeaseStoreError : Type :=
| LeaseAlreadyHeld (instance_id step_id : string)
| NotFound (instance_id step_id : string)
| StaleFence (expected actual : string)
| StoreFenceTokenExhausted (instance_id step_id : string)
| Storage (reason : Reason)
| Codec (reason : Reason)
| InvalidArgument.

(** [struct LeaseEntry]. *)
Record LeaseEntry : Type := mkLeaseEntry {
  entry_instance_id : string;
  entry_step_id : string;
  entry_fence_token : Z;
  entry_expires_at : Z;
}.

(** [LeaseEntry::new]. *)
Definition LeaseEntry_new (instance_id step_id : string) (fence_token expires_at : Z)
  : result LeaseStoreError LeaseEntry :=
  if is_empty instance_id || is_empty step_id then Err InvalidArgument
  else if fence_token =? 0 then Err InvalidArgument
  else Ok (mkLeaseEntry instance_id step_id fence_token expires_at).

(** [LeaseEntry::is_expired]. *)
Definition entry_is_expired (e : LeaseEntry) (now_ms : Z) : bool := entry_expires_at e <=? now_ms.

Section Store.
Context `{U : UlidApi}.

(** [LeaseEntry::to_lease_record]. *)
Definition to_lease_record (e : LeaseEntry) : result LeaseStoreError LeaseRecord :=
  let? token := map_err (fun _ => Codec InvalidFenceTokenValue)
                  (FenceToken_new (entry_fence_token e)) in
  let? iid := map_err (fun x => Codec (InvalidInstanceIdText x))
                (InstanceId_parse (entry_instance_id e)) in
  let? sid := map_err (fun x => Codec (InvalidStepIdText x))
                (StepId_parse (entry_step_id e)) in
  Ok (mkLeaseRecord iid sid token).

(** ** The in-memory store

    [struct InMemoryLeaseStore]: its two maps, each behind a mutex. [acquire] takes
    both locks before it reads and holds them until it has written, the other
    operations hold the lock of [leases] throughout, so every operation is one step
    of the state. *)
Record InMemoryLeaseStore : Type := mkStore {
  leases : gmap string LeaseEntry;
  fences : gmap string Z;
}.

(** [InMemoryLeaseStore::new]. *)
Definition store_new : InMemoryLeaseStore := mkStore ∅ ∅.

(** [lease_key]. *)
Definition lease_key (instance_id : InstanceId) (step_id : StepId) : string :=
  instance_id_str instance_id +:+ "::" +:+ step_id_str step_id.

(** [fence_key]. *)
Definition fence_key (instance_id : InstanceId) (step_id : StepId) : string :=
  instance_id_str instance_id +:+ "::" +:+ step_id_str step_id +:+ "::fence".

(** [now_ms]: the reading of the system clock is an input, [None] when it is before
    the epoch. *)
Definition now_ms (clock : option Z) : result LeaseStoreError Z :=
  ok_or clock (Storage SystemTimeBeforeEpoch).

(** [LeaseStore::acquire]. *)
Definition acquire (st : InMemoryLeaseStore) (clock : option Z)
    (instance_id : InstanceId) (step_id : StepId) (ttl_ms : Z)
  : result LeaseStoreError LeaseRecord * InMemoryLeaseStore :=
  if ttl_ms =? 0 then (Err InvalidArgument, st)
  else match now_ms clock with
  | Err e => (Err e, st)
  | Ok now =>
    let expires_at := saturating_add_u64 now ttl_ms in
    let key := lease_key instance_id step_id in
    if match leases st !! key with
       | Some entry => negb (entry_is_expired entry now)
       | None => false
       end
    then (Err (LeaseAlreadyHeld (instance_id_str instance_id) (step_id_str step_id)), st)
    else
      let fkey := fence_key instance_id step_id in
      let current_token := default 0 (fences st !! fkey) in
      match checked_add_u64 current_token 1 with
      | None =>
          (Err (StoreFenceTokenExhausted (instance_id_str instance_id) (step_id_str step_id)), st)
      | Some next_token =>
          let st1 := mkStore (leases st) (<[fkey := next_token]> (fences st)) in
          match LeaseEntry_new (instance_id_str instance_id) (step_id_str step_id)
                  next_token expires_at with
          | Err e => (Err e, st1)
          | Ok entry =>
              (to_lease_record entry, mkStore (<[key := entry]> (leases st1)) (fences st1))
          end
      end
  end.

(** [LeaseStore::release]. *)
Definition release (st : InMemoryLeaseStore) (lease : LeaseRecord)
  : result LeaseStoreError unit * InMemoryLeaseStore :=
  let key := lease_key (lease_instance_id lease) (lease_step_id lease) in
  match leases st !! key with
  | None =>
      (Err (NotFound (instance_id_str (lease_instance_id lease))
              (step_id_str (lease_step_id lease))), st)
  | Some entry =>
      let expected := pretty (entry_fence_token entry) in
      if negb (entry_fence_token entry =? fence_u64 (lease_token lease)) then
        (Err (StaleFence expected (pretty (fence_u64 (lease_token lease)))), st)
      else (Ok tt, mkStore (delete key (leases st)) (fences st))
  end.

(** [LeaseStore::check_stale_fence]. *)
Definition check_stale_fence (st : InMemoryLeaseStore) (clock : option Z)
    (instance_id : InstanceId) (step_id : StepId) (token : FenceToken)
  : result LeaseStoreError bool :=
  let? now := now_ms clock in
  match leases st !! lease_key instance_id step_id with
  | Some entry =>
      if entry_is_expired entry now then Ok true
      else Ok (negb (entry_fence_token entry =? fence_u64 token))
  | None => Ok false
  end.

(** ** Runs of the store *)

Inductive LeaseOp : Type :=
| OpAcquire (clock : option Z) (i : InstanceId) (s : StepId) (ttl : Z)
| OpRelease (r : LeaseRecord)
| OpCheck (clock : option Z) (i : InstanceId) (s : StepId) (token : FenceToken).

Inductive LeaseOut : Type :=
| OutAcquire (r : result LeaseStoreError LeaseRecord)
| OutRelease (r : result LeaseStoreError unit)
| OutCheck (r : result LeaseStoreError bool).

Definition exec (st : InMemoryLeaseStore) (op : LeaseOp) : LeaseOut * InMemoryLeaseStore :=
  match op with
  | OpAcquire clock i s ttl =>
      let r := acquire st clock i s ttl in (OutAcquire r.1, r.2)
  | OpRelease lease => let r := release st lease in (OutRelease r.1, r.2)
  | OpCheck clock i s token => (OutCheck (check_stale_fence st clock i s token), st)
  end.

Fixpoint exec_all {A} (f : A -> LeaseOp -> LeaseOut * A) (st : A) (ops : list LeaseOp)
  : list LeaseOut * A :=
  match ops with
  | [] => ([], st)
  | op :: ops' =>
      let r := f st op in
      let r' := exec_all f r.2 ops' in (r.1 :: r'.1, r'.2)
  end.

(** ** The contract

    What the [LeaseStore] trait promises, without string keys: per instance and step
    a counter of issued tokens and the current lease. *)

Record Slot : Type := mkSlot {
  issued : Z;
  current : option (Z * Z); (* token and expiry *)
}.

Definition SpecStore : Type := InstanceId -> StepId -> Slot.

Definition spec_new : SpecStore := fun _ _ => mkSlot 0 None.

Definition spec_update (a : SpecStore) (i : InstanceId) (s : StepId) (x : Slot) : SpecStore :=
  fun j t => if decide (i = j /\ s = t) then x else a j t.

Definition live (x : Slot) (now : Z) : bool :=
  match current x with Some (_, e) => now <? e | None => false end.

Definition spec_acquire (a : SpecStore) (clock : option Z) (i : InstanceId) (s : StepId) (ttl : Z)
  : result LeaseStoreError LeaseRecord * SpecStore :=
  if ttl =? 0 then (Err InvalidArgument, a)
  else match clock with
  | None => (Err (Storage SystemTimeBeforeEpoch), a)
  | Some now =>
      if live (a i s) now then
        (Err (LeaseAlreadyHeld (instance_id_str i) (step_id_str s)), a)
      else if issued (a i s) =? u64_max then
        (Err (StoreFenceTokenExhausted (instance_id_str i) (step_id_str s)), a)
      else
        let token := issued (a i s) + 1 in
        (Ok (mkLeaseRecord i s (mkFenceToken token)),
         spec_update a i s (mkSlot token (Some (token, saturating_add_u64 now ttl))))
  end.

Definition spec_release (a : SpecStore) (r : LeaseRecord)
  : result LeaseStoreError unit * SpecStore :=
  let i := lease_instance_id r in
  let s := lease_step_id r in
  match current (a i s) with
  | None => (Err (NotFound (instance_id_str i) (step_id_str s)), a)
  | Some (token, _) =>
      if token =? fence_u64 (lease_token r) then
        (Ok tt, spec_update a i s (mkSlot (issued (a i s)) None))
      else (Err (StaleFence (pretty token) (pretty (fence_u64 (lease_token r)))), a)
  end.

Definition spec_check (a : SpecStore) (clock : option Z) (i : InstanceId) (s : StepId)
    (token : FenceToken) : result LeaseStoreError bool :=
  match clock with
  | None => Err (Storage SystemTimeBeforeEpoch)
  | Some now =>
      Ok (match current (a i s) with
          | None => false
          | Some (t, e) => negb ((now <? e) && (t =? fence_u64 token))
          end)
  end.

Definition spec_exec (a : SpecStore) (op : LeaseOp) : LeaseOut * SpecStore :=
  match op with
  | OpAcquire clock i s ttl =>
      let r := spec_acquire a clock i s ttl in (OutAcquire r.1, r.2)
  | OpRelease lease => let r := spec_release a lease in (OutRelease r.1, r.2)
  | OpCheck clock i s token => (OutCheck (spec_check a clock i s token), a)
  end.
End Store.

(** ** Proofs *)

Section StoreProofs.
Context `{U : UlidApi} {UL : UlidLaws}.

(** The identifiers the parsers produce. *)
Definition valid_pair (i : InstanceId) (s : StepId) : Prop :=
  (exists u, InstanceId_wf i u /\ u <> 0) /\ step_id_text (step_id_str s).

Definition op_valid (op : LeaseOp) : Prop :=
  match op with
  | OpAcquire clock i s ttl => valid_pair i s /\ from_option is_u64 True clock /\ is_u64 ttl
  | OpRelease r => valid_pair (lease_instance_id r) (lease_step_id r)
  | OpCheck _ i s _ => valid_pair i s
  end.

Lemma valid_pair_length i s : valid_pair i s -> length (chars (instance_id_str i)) = 26%nat.
Proof.
  intros [(u & [Hu ->] & _) _]. pose proof (ulid_to_len u Hu) as H. unfold len in H.
  unfold InstanceId_from_u128. cbn [instance_id_str]. lia.
Qed.

(** Distinct pairs have distinct keys: the instance text has a fixed length. *)
Lemma lease_key_inj i s j t :
  valid_pair i s -> valid_pair j t -> lease_key i s = lease_key j t -> i = j /\ s = t.
Proof.
  intros Hi Hj H. apply (f_equal chars) in H. unfold lease_key in H.
  rewrite !chars_app in H. cbn in H.
  apply app_inj_1 in H as [H1%chars_inj H2];
    [|by rewrite (valid_pair_length _ _ Hi), (valid_pair_length _ _ Hj)].
  injection H2 as H2%chars_inj. destruct i, j, s, t; cbn in *; by subst.
Qed.

Lemma fence_key_inj i s j t :
  valid_pair i s -> valid_pair j t -> fence_key i s = fence_key j t -> i = j /\ s = t.
Proof.
  intros Hi Hj H. apply (f_equal chars) in H. unfold fence_key in H.
  rewrite !chars_app in H. cbn in H.
  apply app_inj_1 in H as [H1%chars_inj H2];
    [|by rewrite (valid_pair_length _ _ Hi), (valid_pair_length _ _ Hj)].
  injection H2 as H2. apply app_inv_tail in H2 as H2%chars_inj.
  destruct i, j, s, t; cbn in *; by subst.
Qed.

Definition entry_of (i : InstanceId) (s : StepId) (x : Z * Z) : LeaseEntry :=
  mkLeaseEntry (instance_id_str i) (step_id_str s) x.1 x.2.

(** The store represents the contract's state. *)
Definition represents (st : InMemoryLeaseStore) (a : SpecStore) : Prop :=
  forall i s, valid_pair i s ->
    is_u64 (issued (a i s)) /\
    default 0 (fences st !! fence_key i s) = issued (a i s) /\
    leases st !! lease_key i s = entry_of i s <$> current (a i s).

Lemma entry_new_ok i s token e :
  valid_pair i s -> token <> 0 ->
  LeaseEntry_new (instance_id_str i) (step_id_str s) token e = Ok (entry_of i s (token, e)).
Proof.
  intros Hv Hz. pose proof (valid_pair_length _ _ Hv) as Hl. destruct Hv as [_ [Hs _]].
  unfold LeaseEntry_new.
  assert (is_empty (instance_id_str i) = false) as ->
    by (destruct (instance_id_str i); cbn in *; done).
  assert (is_empty (step_id_str s) = false) as -> by (destruct (step_id_str s); cbn in *; done).
  cbn. by rewrite (proj2 (Z.eqb_neq token 0)).
Qed.

Lemma to_lease_record_ok i s token e :
  valid_pair i s -> token <> 0 ->
  to_lease_record (entry_of i s (token, e)) = Ok (mkLeaseRecord i s (mkFenceToken token)).
Proof.
  intros [(u & Hi & Hnz) Hs] Hz. unfold to_lease_record, FenceToken_new, require_nonzero; cbn.
  rewrite (proj2 (Z.eqb_neq token 0)) by done. cbn.
  rewrite (InstanceId_parse_wf_ok _ _ Hi Hnz); cbn.
  by rewrite (proj2 (StepId_parse_ok (step_id_str s) s)) by (by destruct s).
Qed.

(** Replacing one pair's slot on both sides keeps the representation. *)
Lemma represents_update st a i s token x f :
  represents st a -> valid_pair i s -> is_u64 token ->
  default 0 (f !! fence_key i s) = token ->
  (forall j t, valid_pair j t -> ~ (i = j /\ s = t) ->
     f !! fence_key j t = fences st !! fence_key j t) ->
  represents
    (mkStore (partial_alter (fun _ => entry_of i s <$> x) (lease_key i s) (leases st)) f)
    (spec_update a i s (mkSlot token x)).
Proof.
  intros HR Hv Ht Hf Hframe j t Hj. unfold spec_update; cbn [leases fences].
  case_decide as Heq; [destruct Heq as [<- <-]; cbn; split_and!; [done..|]|].
  - apply lookup_partial_alter_eq.
  - destruct (HR _ _ Hj) as (? & ? & ?). rewrite (Hframe _ _ Hj Heq). split_and!; [done..|].
    rewrite lookup_partial_alter_ne; [done|]. intros Hk. apply Heq. by apply lease_key_inj.
Qed.

Lemma acquire_simulates st a clock i s ttl :
  represents st a -> valid_pair i s ->
  (acquire st clock i s ttl).1 = (spec_acquire a clock i s ttl).1 /\
  represents (acquire st clock i s ttl).2 (spec_acquire a clock i s ttl).2.
Proof.
  intros HR Hv. destruct (HR _ _ Hv) as (Hu & Hf & Hl).
  unfold acquire, spec_acquire, now_ms. destruct (ttl =? 0); [done|].
  destruct clock as [now|]; cbn [ok_or]; [|done].
  assert (match leases st !! lease_key i s with
          | Some entry => negb (entry_is_expired entry now) | None => false end
          = live (a i s) now) as ->.
  { rewrite Hl. unfold live, entry_is_expired. destruct (current (a i s)) as [[t e]|]; cbn; [|done].
    by rewrite Z.ltb_antisym. }
  destruct (live (a i s) now); [done|]. rewrite Hf. unfold checked_add_u64.
  destruct (Z.leb_spec (issued (a i s) + 1) u64_max), (Z.eqb_spec (issued (a i s)) u64_max);
    [lia| |done|ulia].
  cbn [leases fences]. rewrite entry_new_ok by (done || ulia). cbn [fst snd].
  rewrite to_lease_record_ok by (done || ulia). split; [done|].
  apply (represents_update _ _ _ _ _ (Some _)); [done..|ulia| |].
  - by rewrite lookup_insert_eq.
  - intros j t Hj Hne. apply lookup_insert_ne. intros Hk. apply Hne. by apply fence_key_inj.
Qed.

Lemma release_simulates st a r :
  represents st a -> valid_pair (lease_instance_id r) (lease_step_id r) ->
  (release st r).1 = (spec_release a r).1 /\ represents (release st r).2 (spec_release a r).2.
Proof.
  intros HR Hv. destruct (HR _ _ Hv) as (Hu & Hf & Hl).
  unfold release, spec_release. rewrite Hl.
  destruct (current _) as [[t e]|] eqn:Hc; cbn; [|done].
  destruct (t =? _); cbn; [|done]. split; [done|].
  by apply (represents_update _ _ _ _ _ None).
Qed.

Lemma check_simulates st a clock i s token :
  represents st a -> valid_pair i s ->
  check_stale_fence st clock i s token = spec_check a clock i s token.
Proof.
  intros HR Hv. destruct (HR _ _ Hv) as (_ & _ & Hl).
  unfold check_stale_fence, spec_check, now_ms. destruct clock as [now|]; cbn; [|done].
  rewrite Hl. destruct (current (a i s)) as [[t e]|]; cbn; [|done].
  unfold entry_is_expired; cbn. rewrite (Z.ltb_antisym e now). by destruct (e <=? now).
Qed.

Lemma exec_simulates st a op :
  represents st a -> op_valid op ->
  (exec st op).1 = (spec_exec a op).1 /\ represents (exec st op).2 (spec_exec a op).2.
Proof.
  intros HR Hop. destruct op as [clock i s ttl|r|clock i s token]; cbn in *.
  - destruct (acquire_simulates _ _ clock i s ttl HR (proj1 Hop)) as [-> ?]. done.
  - destruct (release_simulates _ _ r HR Hop) as [-> ?]. done.
  - by rewrite (check_simulates _ _ clock i s token HR Hop).
Qed.

Lemma exec_all_simulates st a ops :
  represents st a -> Forall op_valid ops ->
  (exec_all exec st ops).1 = (exec_all spec_exec a ops).1 /\
  represents (exec_all exec st ops).2 (exec_all spec_exec a ops).2.
Proof.
  intros HR Hops. revert st a HR.
  induction Hops as [|op ops Hop _ IH]; intros st a HR; cbn; [done|].
  destruct (exec_simulates _ _ _ HR Hop) as [-> HR']. by destruct (IH _ _ HR') as [-> ?].
Qed.

Lemma represents_new : represents store_new spec_new.
Proof. intros i s _. cbn. rewrite !lookup_empty. split_and!; [ulia|done..]. Qed.


(** The tokens a run granted for a pair, oldest first. *)
Definition granted (i : InstanceId) (s : StepId) (outs : list LeaseOut) : list Z :=
  omap (fun o => match o with
                 | OutAcquire (Ok r) =>
                     if decide (lease_instance_id r = i /\ lease_step_id r = s)
                     then Some (fence_u64 (lease_token r)) else None
                 | _ => None
                 end) outs.

(** A store in which each step grants the successor of a counter, and counts it, or grants
    nothing, grants consecutive tokens. *)
Lemma granted_counts {A} (f : A -> LeaseOp -> LeaseOut * A) (counter : A -> Z) i s a ops :
  (forall a op,
     (granted i s [(f a op).1] = [] /\ counter (f a op).2 = counter a) \/
     (granted i s [(f a op).1] = [counter a + 1] /\ counter (f a op).2 = counter a + 1)) ->
  let r := exec_all f a ops in
  granted i s r.1 = seqZ (counter a + 1) (counter r.2 - counter a) /\ counter a <= counter r.2.
Proof.
  intros Hf. revert a. induction ops as [|op ops IH]; intros a; cbn.
  { rewrite Z.sub_diag. split; [done|lia]. }
  destruct (IH (f a op).2) as [IH1 IH2]. revert IH1 IH2.
  set (r := exec_all f (f a op).2 ops). cbn zeta. pose proof (Hf a op) as Hstep.
  unfold granted in *. intros IH1 IH2.
  destruct Hstep as [[Hg Hi]|[Hg Hi]]; rewrite Hi in IH1, IH2; cbn in Hg |- *.
  - case_match; [done|]. by rewrite IH1.
  - case_match; [|done]. injection Hg as ->. rewrite IH1. split; [|lia].
    rewrite (seqZ_cons (counter a + 1)) by lia. f_equal; f_equal; lia.
Qed.

Lemma spec_granted a ops i s :
  let r := exec_all spec_exec a ops in
  granted i s r.1 = seqZ (issued (a i s) + 1) (issued (r.2 i s) - issued (a i s)) /\
  issued (a i s) <= issued (r.2 i s).
Proof.
  apply (granted_counts spec_exec (fun a => issued (a i s))).
  intros a' op. destruct op as [clock j t ttl|x|clock j t token]; cbn; [| |by left].
  - unfold spec_acquire, spec_update. destruct (_ =? 0); [by left|].
    destruct clock; [|by left]. destruct (live _ _); [by left|].
    destruct (_ =? _); [by left|]. cbn.
    destruct (decide (j = i /\ t = s)) as [[-> ->]|]; [by right|by left].
  - unfold spec_release, spec_update. destruct (current _) as [[]|]; [|by left].
    destruct (_ =? _); [|by left]. cbn. left.
    destruct (decide (_ /\ _)) as [[<- <-]|]; done.
Qed.

(** Fence tokens of a pair are issued consecutively from 1, whatever the
    interleaving with other pairs, with releases, with expired leases and with
    clocks that go backwards: none is ever issued twice. *)
Theorem fence_tokens_consecutive ops i s :
  Forall op_valid ops ->
  exists n, 0 <= n /\ granted i s (exec_all exec store_new ops).1 = seqZ 1 n.
Proof.
  intros H. destruct (exec_all_simulates _ _ ops represents_new H) as [-> _].
  destruct (spec_granted spec_new ops i s) as [-> Hle]. cbn in *.
  eexists; split; [|done]. lia.
Qed.

(** An operation that neither ends the lease [token] of the pair nor comes after its
    expiry. *)
Definition undisturbed (i : InstanceId) (s : StepId) (token e : Z) (op : LeaseOp) : Prop :=
  match op with
  | OpAcquire clock j t _ => j = i -> t = s -> from_option (fun now => now < e) True clock
  | OpRelease r =>
      lease_instance_id r = i -> lease_step_id r = s -> fence_u64 (lease_token r) <> token
  | OpCheck _ _ _ _ => True
  end.

Lemma acquire_ok st clock i s ttl r st' :
  acquire st clock i s ttl = (Ok r, st') -> valid_pair i s ->
  exists now, clock = Some now /\ lease_instance_id r = i /\ lease_step_id r = s /\
    leases st' !! lease_key i s
      = Some (entry_of i s (fence_u64 (lease_token r), saturating_add_u64 now ttl)).
Proof.
  unfold acquire, now_ms. intros H Hv. destruct (ttl =? 0); [done|].
  destruct clock as [now|]; cbn [ok_or] in H; [|done]. exists now. split; [done|].
  case_match; [done|]. destruct (checked_add_u64 _ 1) as [token|]; [|done].
  destruct (decide (token = 0)) as [->|Hz].
  { unfold LeaseEntry_new in H. by destruct (_ || _). }
  rewrite entry_new_ok, to_lease_record_ok in H by done. injection H as <- <-. cbn.
  by rewrite lookup_insert_eq.
Qed.

Lemma exec_keeps_lease st op i s token e :
  leases st !! lease_key i s = Some (entry_of i s (token, e)) ->
  valid_pair i s -> op_valid op -> undisturbed i s token e op ->
  leases (exec st op).2 !! lease_key i s = Some (entry_of i s (token, e)).
Proof.
  intros Hl Hv Hop Hu. destruct op as [clock j t ttl|r|clock j t tok]; cbn in *; [| |done].
  - unfold acquire. destruct (_ =? 0); [done|]. destruct clock as [now|]; cbn in *; [|done].
    case_match; [done|]. destruct (checked_add_u64 _ _); [|done].
    destruct (LeaseEntry_new _ _ _ _); [|done]. cbn.
    rewrite lookup_insert_ne; [done|]. intros Hk.
    apply lease_key_inj in Hk as [-> ->]; [|apply Hop|done].
    rewrite Hl in *. unfold entry_is_expired in *; cbn in *.
    specialize (Hu eq_refl eq_refl). destruct (Z.leb_spec e now); [lia|done].
  - unfold release. destruct (leases st !! lease_key (lease_instance_id r) (lease_step_id r)) as [x|] eqn:Hx; [|done].
    destruct (Z.eqb_spec (entry_fence_token x) (fence_u64 (lease_token r))) as [Ht|]; cbn; [|done].
    rewrite lookup_delete_ne; [done|]. intros Hk.
    pose proof (lease_key_inj _ _ _ _ Hop Hv Hk) as [Hi Hs].
    rewrite Hk, Hl in Hx. injection Hx as <-. by apply (Hu Hi Hs).
Qed.

Lemma exec_all_keeps_lease st ops i s token e :
  leases st !! lease_key i s = Some (entry_of i s (token, e)) ->
  valid_pair i s -> Forall op_valid ops -> Forall (undisturbed i s token e) ops ->
  leases (exec_all exec st ops).2 !! lease_key i s = Some (entry_of i s (token, e)).
Proof.
  intros Hl Hv Hops. revert st Hl. induction Hops as [|op ops Hop _ IH]; intros st Hl Hu; [done|].
  apply Forall_cons in Hu as [Hu1 Hu2]. cbn. by apply IH; [apply exec_keeps_lease|].
Qed.

End StoreProofs.

(** ** The theorems at concrete inputs *)

Module LeaseWitness.
Import ConcreteUlid.

Definition alpha : NodeName := mkNodeName "alpha".
Definition beta : NodeName := mkNodeName "beta".
Definition fetch : StepId := mkStepId "fetch".

Lemma pair_valid : valid_pair one fetch.
Proof.
  split; [exists 1; split; [exact one_wf|lia]|]. by apply (StepId_parse_ok _ fetch).
Qed.

Lemma holder_excludes_witness :
  LeaseCalc.run (LeaseCalc.Held alpha 1000) [LeaseCalc.Acquire beta 50 999; LeaseCalc.Release beta]
    = LeaseCalc.Held alpha 1000.
Proof.
  apply (LeaseCalc.holder_excludes alpha 1000
           [LeaseCalc.Acquire beta 50 999; LeaseCalc.Release beta]).
  repeat constructor; done.
Defined.

Lemma apply_grants_witness :
  LeaseCalc.apply (LeaseCalc.Held alpha 1000) (LeaseCalc.Acquire beta 50 1000)
    = Err LeaseCalc.ZeroTtl.
Proof.
  apply (LeaseCalc.apply_grants (LeaseCalc.Held alpha 1000) (LeaseCalc.Tick 0) alpha 1000);
    [cbn; ulia|done|lia].
Defined.

(** A grant, its refused competitor, a second grant after the expiry. *)
Definition ops : list LeaseOp :=
  [OpAcquire (Some 1000) one fetch 50; OpAcquire (Some 1049) one fetch 50;
   OpAcquire (Some 1050) one fetch 50].

Lemma ops_valid : Forall op_valid ops.
Proof. repeat (constructor; [split_and!; [exact pair_valid|cbn; ulia..]|]). constructor. Qed.


Lemma fence_tokens_consecutive_witness :
  granted one fetch (exec_all exec store_new ops).1 = [1; 2] /\
  exists n, 0 <= n /\ granted one fetch (exec_all exec store_new ops).1 = seqZ 1 n.
Proof.
  split; [vm_compute; reflexivity|]. exact (fence_tokens_consecutive ops one fetch ops_valid).
Defined.

End LeaseWitness.
