(* ===== verification/FjallLease.v ===== *)
(** * The durable lease store

    [crates/vo-storage/src/lease_partition/fjall_lease_store.rs] and the codecs of
    [lease_partition/mod.rs]. The store keeps two key spaces, of leases and of fence
    tokens; [fjall] and [serde_json] are parameters. Each operation is one step: [acquire]
    runs under the stripe lock of its key. The contract is that of the in-memory store. *)

From S2P Require Import Prelude Identifiers KeyEncoding Keyspace Lease.

Section FjallLease.
Context `{U : UlidApi} `{F : FjallApi} `{SE : !SerdeApi LeaseEntry} `{ST : !SerdeApi Z}.

(** [struct FjallLeaseStore], without the stripes of locks. *)
Record FjallLeaseStore : Type := mkFjallLeaseStore {
  lease_partition : Keyspace;
  fence_partition : Keyspace;
}.

(** [encode_lease_entry] and [decode_lease_entry]. *)
Definition encode_lease_entry (entry : LeaseEntry) : result LeaseStoreError (list Z) :=
  map_err (fun e => Codec (ErrorText e)) (to_vec entry).

Definition decode_lease_entry (bytes : list Z) : result LeaseStoreError LeaseEntry :=
  map_err (fun e => Codec (ErrorText e)) (from_slice bytes).

(** [encode_fence_key]: the lease key and a two-byte marker. *)
Definition encode_fence_key (i : InstanceId) (s : StepId) : list Z :=
  encode_lease_key i s ++ encode_u16_be 1.

(** [get_current_lease]. *)
Definition get_current_lease (st : FjallLeaseStore) (i : InstanceId) (s : StepId)
  : result LeaseStoreError (option LeaseEntry) :=
  match ks_get (lease_partition st) (encode_lease_key i s) with
  | Ok (Some bytes) => let? entry := decode_lease_entry bytes in Ok (Some entry)
  | Ok None => Ok None
  | Err e => Err (Storage (ErrorText e))
  end.

(** The token [allocate_fence_token] starts from. *)
Definition current_fence (st : FjallLeaseStore) (i : InstanceId) (s : StepId)
  : result LeaseStoreError Z :=
  match ks_get (fence_partition st) (encode_fence_key i s) with
  | Ok (Some bytes) => map_err (fun e => Codec (DecodeFenceFailed e)) (from_slice bytes)
  | Ok None => Ok 0
  | Err e => Err (Storage (ReadFenceFailed e))
  end.

(** [allocate_fence_token]. *)
Definition allocate_fence_token (st : FjallLeaseStore) (i : InstanceId) (s : StepId)
  : result LeaseStoreError Z * FjallLeaseStore :=
  match current_fence st i s with
  | Err e => (Err e, st)
  | Ok current =>
      match checked_add_u64 current 1 with
      | None => (Err (StoreFenceTokenExhausted (instance_id_str i) (step_id_str s)), st)
      | Some next =>
          match to_vec next with
          | Err e => (Err (Codec (EncodeFenceFailed e)), st)
          | Ok value =>
              let r := ks_insert (fence_partition st) (encode_fence_key i s) value in
              (let? _ := map_err (fun e => Storage (PersistFenceFailed e)) r.1 in Ok next,
               mkFjallLeaseStore (lease_partition st) r.2)
          end
      end
  end.

(** [insert_lease], which no operation calls. *)
Definition insert_lease (st : FjallLeaseStore) (entry : LeaseEntry)
  : result LeaseStoreError unit * FjallLeaseStore :=
  match InstanceId_parse (entry_instance_id entry) with
  | Err e => (Err (Codec (InvalidInstanceIdText e)), st)
  | Ok i =>
      match StepId_parse (entry_step_id entry) with
      | Err e => (Err (Codec (InvalidStepIdText e)), st)
      | Ok s =>
          match encode_lease_entry entry with
          | Err e => (Err e, st)
          | Ok value =>
              let r := ks_insert (lease_partition st) (encode_lease_key i s) value in
              (map_err (fun e => Storage (InsertLeaseFailed e)) r.1,
               mkFjallLeaseStore r.2 (fence_partition st))
          end
      end
  end.

(** [delete_lease], which no operation calls either. *)
Definition delete_lease (st : FjallLeaseStore) (i : InstanceId) (s : StepId)
  : result LeaseStoreError unit * FjallLeaseStore :=
  let r := ks_remove (lease_partition st) (encode_lease_key i s) in
  (map_err (fun e => Storage (DeleteLeaseFailed e)) r.1,
   mkFjallLeaseStore r.2 (fence_partition st)).

(** The reading of the system clock; [None] is a clock before the epoch. *)
Definition read_clock (clock : option Z) : result LeaseStoreError Z :=
  let? now := ok_or clock (Storage CurrentTimeFailed) in Ok (Z.min now u64_max).

(** [LeaseStore::acquire]. *)
Definition fjall_acquire (st : FjallLeaseStore) (clock : option Z) (i : InstanceId) (s : StepId)
    (ttl_ms : Z) : result LeaseStoreError LeaseRecord * FjallLeaseStore :=
  if ttl_ms =? 0 then (Err InvalidArgument, st)
  else match read_clock clock with
  | Err e => (Err e, st)
  | Ok now =>
    match get_current_lease st i s with
    | Err e => (Err e, st)
    | Ok current =>
      if match current with Some entry => negb (entry_is_expired entry now) | None => false end
      then (Err (LeaseAlreadyHeld (instance_id_str i) (step_id_str s)), st)
      else
        let r := allocate_fence_token st i s in
        (let? fence_token := r.1 in
         let? entry := LeaseEntry_new (instance_id_str i) (step_id_str s) fence_token
                         (saturating_add_u64 now ttl_ms) in
         to_lease_record entry, r.2)
    end
  end.

(** [LeaseStore::release]. *)
Definition fjall_release (st : FjallLeaseStore) (lease : LeaseRecord)
  : result LeaseStoreError unit * FjallLeaseStore :=
  let i := lease_instance_id lease in
  let s := lease_step_id lease in
  match get_current_lease st i s with
  | Err e => (Err e, st)
  | Ok None => (Err (NotFound (instance_id_str i) (step_id_str s)), st)
  | Ok (Some entry) =>
      if negb (entry_fence_token entry =? fence_u64 (lease_token lease)) then
        (Err (StaleFence (pretty (entry_fence_token entry))
                (pretty (fence_u64 (lease_token lease)))), st)
      else
        let r := ks_remove (lease_partition st) (encode_lease_key i s) in
        (map_err (fun e => Storage (DeleteLeaseFailed e)) r.1,
         mkFjallLeaseStore r.2 (fence_partition st))
  end.

(** [LeaseStore::check_stale_fence]. *)
Definition fjall_check_stale_fence (st : FjallLeaseStore) (clock : option Z) (i : InstanceId)
    (s : StepId) (token : FenceToken) : result LeaseStoreError bool :=
  let? now := read_clock clock in
  let? current := get_current_lease st i s in
  match current with
  | Some entry =>
      if entry_is_expired entry now then Ok true
      else Ok (negb (entry_fence_token entry =? fence_u64 token))
  | None => Ok false
  end.

Definition fjall_exec (st : FjallLeaseStore) (op : LeaseOp) : LeaseOut * FjallLeaseStore :=
  match op with
  | OpAcquire clock i s ttl =>
      let r := fjall_acquire st clock i s ttl in (OutAcquire r.1, r.2)
  | OpRelease lease => let r := fjall_release st lease in (OutRelease r.1, r.2)
  | OpCheck clock i s token => (OutCheck (fjall_check_stale_fence st clock i s token), st)
  end.

(** ** What the store does

    No operation writes the key space of leases, so a store that starts without leases
    only counts fence tokens. *)

Definition Counters : Type := InstanceId -> StepId -> Z.

Definition counters_new : Counters := fun _ _ => 0.

Definition count (a : Counters) (i : InstanceId) (s : StepId) : Counters :=
  fun j t => if decide (i = j /\ s = t) then a i s + 1 else a j t.

(** A lease store in which no lease is ever held. *)
Definition unheld_exec (a : Counters) (op : LeaseOp) : LeaseOut * Counters :=
  match op with
  | OpAcquire clock i s ttl =>
      if ttl =? 0 then (OutAcquire (Err InvalidArgument), a)
      else match clock with
           | None => (OutAcquire (Err (Storage CurrentTimeFailed)), a)
           | Some _ =>
               if a i s =? u64_max then
                 (OutAcquire (Err (StoreFenceTokenExhausted (instance_id_str i) (step_id_str s))), a)
               else (OutAcquire (Ok (mkLeaseRecord i s (mkFenceToken (a i s + 1)))), count a i s)
           end
  | OpRelease lease =>
      (OutRelease (Err (NotFound (instance_id_str (lease_instance_id lease))
                          (step_id_str (lease_step_id lease)))), a)
  | OpCheck clock _ _ _ =>
      (OutCheck (match clock with None => Err (Storage CurrentTimeFailed) | Some _ => Ok false end), a)
  end.

Context {UL : UlidLaws} `{FL : !FjallLaws} `{SEL : !SerdeLaws LeaseEntry} `{STL : !SerdeLaws Z}.

Lemma encode_lease_key_inj i s j t :
  valid_pair i s -> valid_pair j t -> encode_lease_key i s = encode_lease_key j t -> i = j /\ s = t.
Proof.
  intros [(u & W1 & _) _] [(w & W2 & _) _].
  rewrite (lease_key_layout _ _ s W1), (lease_key_layout _ _ t W2).
  intros [E1 [_ E2]%app_inj_1]%app_inj_1; [|by rewrite ?be_bytes_length..].
  apply be_bytes_inj in E1; [|apply u128_range, W1|apply u128_range, W2].
  destruct W1 as [_ ->], W2 as [_ ->]. apply as_bytes_inj in E2. destruct s, t; cbn in *. by subst.
Qed.

Lemma encode_fence_key_inj i s j t :
  valid_pair i s -> valid_pair j t -> encode_fence_key i s = encode_fence_key j t -> i = j /\ s = t.
Proof. intros Hi Hj E%app_inv_tail. by apply encode_lease_key_inj. Qed.

(** The store holds no lease and the counters are its fence tokens. *)
Definition unheld (st : FjallLeaseStore) (a : Counters) : Prop :=
  healthy (lease_partition st) /\ healthy (fence_partition st) /\
  contents (lease_partition st) = ∅ /\
  forall i s, valid_pair i s ->
    is_u64 (a i s) /\
    contents (fence_partition st) !! encode_fence_key i s =
      if a i s =? 0 then None else Some (vec_of (a i s)).

Lemma unheld_no_lease st a i s : unheld st a -> get_current_lease st i s = Ok None.
Proof.
  intros (Hl & _ & He & _). unfold get_current_lease.
  by rewrite (ks_get_ok _ _ Hl), He, lookup_empty.
Qed.

Lemma unheld_fence st a i s : unheld st a -> valid_pair i s -> current_fence st i s = Ok (a i s).
Proof.
  intros (_ & Hf & _ & Hc) Hv. unfold current_fence. rewrite (ks_get_ok _ _ Hf).
  destruct (Hc i s Hv) as [_ ->]. destruct (Z.eqb_spec (a i s) 0) as [->|]; [done|].
  by rewrite from_slice_vec.
Qed.

Lemma unheld_count st a i s v :
  unheld st a -> valid_pair i s -> a i s <> u64_max -> v = vec_of (a i s + 1) ->
  let r := ks_insert (fence_partition st) (encode_fence_key i s) v in
  r.1 = Ok tt /\ unheld (mkFjallLeaseStore (lease_partition st) r.2) (count a i s).
Proof.
  intros (Hl & Hf & He & Hc) Hv Hmax -> r.
  destruct (ks_insert_ok (fence_partition st) (encode_fence_key i s) (vec_of (a i s + 1)) Hf)
    as (Hr & Hh & Hi).
  split; [done|]. split; [done|split; [done|split; [done|]]]. intros j t Hjt. subst r.
  cbn [fence_partition]. rewrite Hi. unfold count. destruct (Hc i s Hv) as [Hu _].
  destruct (decide (i = j /\ s = t)) as [[-> ->]|Hne].
  - split; [ulia|]. rewrite lookup_insert_eq.
    by destruct (Z.eqb_spec (a j t + 1) 0); [ulia|].
  - rewrite lookup_insert_ne; [by apply Hc|]. intros E. by apply Hne, encode_fence_key_inj.
Qed.

Lemma unheld_acquire st a clock i s ttl :
  unheld st a -> valid_pair i s ->
  let r := fjall_acquire st clock i s ttl in
  let r' := unheld_exec a (OpAcquire clock i s ttl) in
  OutAcquire r.1 = r'.1 /\ unheld r.2 r'.2.
Proof.
  intros Hu Hv. cbn [unheld_exec]. unfold fjall_acquire. destruct (ttl =? 0); [done|].
  destruct clock as [now|]; [|done]. cbn [read_clock ok_or rbind].
  rewrite (unheld_no_lease _ _ i s Hu). unfold allocate_fence_token.
  rewrite (unheld_fence _ _ _ _ Hu Hv).
  assert (is_u64 (a i s)) as Hr by (by apply Hu). unfold checked_add_u64.
  destruct (Z.leb_spec (a i s + 1) u64_max), (Z.eqb_spec (a i s) u64_max); [lia| |done|ulia].
  rewrite to_vec_ok. destruct (unheld_count st a i s _ Hu Hv ltac:(done) eq_refl) as [Hr1 Hu'].
  split; [|exact Hu']. cbn [fst]. rewrite Hr1. cbn [map_err rbind].
  rewrite entry_new_ok by (done || ulia). cbn [rbind]. by rewrite to_lease_record_ok by (done || ulia).
Qed.

Lemma unheld_simulates st a op :
  unheld st a -> op_valid op ->
  (fjall_exec st op).1 = (unheld_exec a op).1 /\ unheld (fjall_exec st op).2 (unheld_exec a op).2.
Proof.
  intros Hu Hv. destruct op as [clock i s ttl|r|clock i s token].
  - apply unheld_acquire; [done|apply Hv].
  - cbn [fjall_exec unheld_exec fst snd]. unfold fjall_release.
    by rewrite (unheld_no_lease _ _ _ _ Hu).
  - split; [|done]. cbn [fjall_exec unheld_exec fst]. unfold fjall_check_stale_fence.
    destruct clock; [|done]. cbn [read_clock ok_or rbind]. by rewrite (unheld_no_lease _ _ _ _ Hu).
Qed.

Lemma unheld_runs st a ops :
  unheld st a -> Forall op_valid ops ->
  (exec_all fjall_exec st ops).1 = (exec_all unheld_exec a ops).1 /\
  unheld (exec_all fjall_exec st ops).2 (exec_all unheld_exec a ops).2.
Proof.
  intros Hu Hv. revert st a Hu. induction Hv as [|op ops Hop Hv IH]; intros st a Hu; [done|].
  cbn [exec_all fst snd]. destruct (unheld_simulates st a op Hu Hop) as [E Hu'].
  destruct (IH _ _ Hu') as [E2 Hu2]. by rewrite E, E2.
Qed.

(** What the store would keep if [acquire] called [insert_lease]: the lease reads back
    until it is deleted. *)
Lemma insert_lease_roundtrip st i s token e :
  healthy (lease_partition st) -> valid_pair i s ->
  let entry := entry_of i s (token, e) in
  let r := insert_lease st entry in
  r.1 = Ok tt /\ get_current_lease r.2 i s = Ok (Some entry) /\
  (delete_lease r.2 i s).1 = Ok tt /\ get_current_lease (delete_lease r.2 i s).2 i s = Ok None.
Proof.
  intros Hh [(u & Hi & Hnz) Hs]. cbn zeta. unfold insert_lease.
  cbn [entry_of entry_instance_id entry_step_id].
  rewrite (InstanceId_parse_wf_ok _ _ Hi Hnz), (proj2 (StepId_parse_ok (step_id_str s) s))
    by (by destruct s).
  unfold encode_lease_entry. rewrite to_vec_ok. cbn [map_err].
  edestruct (ks_insert_ok (lease_partition st) (encode_lease_key i s)) as (H1 & H2 & H3); [done|].
  destruct (ks_remove_ok _ (encode_lease_key i s) H2) as (H4 & H5 & H6).
  unfold get_current_lease, delete_lease. cbn [fst snd lease_partition].
  rewrite H1, H4, (ks_get_ok _ _ H2), (ks_get_ok _ _ H5), H6, H3, lookup_insert_eq, lookup_delete_eq.
  unfold decode_lease_entry. by rewrite from_slice_vec.
Qed.

(** The durable store does not keep its leases. Started without leases, it answers on
    every sequence of operations as a store in which nothing is ever held: every
    acquisition with a positive ttl is granted, also of a pair that was just granted, every
    release is refused as not found and no token is ever stale. What it keeps of the
    contract is that the tokens of a pair are 1, 2, 3, ... *)
Theorem fjall_lease_never_held lp fp ops :
  healthy lp -> healthy fp -> contents lp = ∅ -> contents fp = ∅ -> Forall op_valid ops ->
  let r := exec_all fjall_exec (mkFjallLeaseStore lp fp) ops in
  r.1 = (exec_all unheld_exec counters_new ops).1 /\
  contents (lease_partition r.2) = ∅ /\
  (forall i s, exists n, 0 <= n /\ granted i s r.1 = seqZ 1 n) /\
  (forall i s now ttl, valid_pair i s -> ttl <> 0 -> Z.of_nat (length (granted i s r.1)) < u64_max ->
     exists token, (fjall_acquire r.2 (Some now) i s ttl).1 = Ok (mkLeaseRecord i s token)).
Proof.
  intros Hl Hf El Ef Hv r.
  assert (unheld (mkFjallLeaseStore lp fp) counters_new) as Hu.
  { split; [done|split; [done|split; [done|]]]. intros i s _. split; [unfold counters_new; ulia|].
    cbn [fence_partition]. by rewrite Ef, lookup_empty. }
  destruct (unheld_runs _ _ ops Hu Hv) as [E Hu']. fold r in E, Hu'.
  assert (forall i s, granted i s r.1 = seqZ 1 ((exec_all unheld_exec counters_new ops).2 i s) /\
    0 <= (exec_all unheld_exec counters_new ops).2 i s) as Hg.
  { intros i s. rewrite E.
    destruct (granted_counts unheld_exec (fun a => a i s) i s counters_new ops) as [-> Hle].
    - intros a op. destruct op as [clock j t ttl|x|clock j t token]; cbn; [|by left..].
      destruct (_ =? 0); [by left|]. destruct clock; [|by left]. destruct (_ =? _); [by left|].
      cbn. unfold count. destruct (decide (j = i /\ t = s)) as [[-> ->]|]; [by right|by left].
    - by rewrite Z.sub_0_r. }
  split; [done|]. split; [apply Hu'|split].
  - intros i s. destruct (Hg i s). by eexists.
  - intros i s now ttl Hp Ht Hn. destruct (Hg i s) as [Hgi Hge].
    rewrite Hgi, length_seqZ in Hn.
    destruct (unheld_acquire _ _ (Some now) i s ttl Hu' Hp) as [Ha _]. cbn [unheld_exec] in Ha.
    destruct (Z.eqb_spec ttl 0); [done|].
    destruct (Z.eqb_spec ((exec_all unheld_exec counters_new ops).2 i s) u64_max); [lia|].
    injection Ha as Ha. by eexists.
Qed.
End FjallLease.

(** ** The store at concrete inputs *)

Module FjallLeaseWitness.
Import ConcreteUlid MapKeyspace BitsSerde LeaseWitness.

#[local] Instance entry_eq_dec : EqDecision LeaseEntry.
Proof. solve_decision. Defined.

#[local] Instance entry_countable : Countable LeaseEntry.
Proof.
  refine (inj_countable' (fun e => (entry_instance_id e, entry_step_id e, entry_fence_token e,
    entry_expires_at e)) (fun '(i, s, t, x) => mkLeaseEntry i s t x) _). by intros [].
Defined.

#[local] Existing Instance bits_serde.

(** The second acquisition, within the term of the first, is granted as well. *)
Lemma fjall_lease_never_held_witness :
  granted one fetch (exec_all fjall_exec (mkFjallLeaseStore ∅ ∅) ops).1 = [1; 2; 3] /\
  exists n, 0 <= n /\ granted one fetch (exec_all fjall_exec (mkFjallLeaseStore ∅ ∅) ops).1 = seqZ 1 n.
Proof.
  split; [vm_compute; reflexivity|].
  exact (proj1 (proj2 (proj2 (fjall_lease_never_held (FL := fjall_laws)
    (STL := bits_serde_laws) ∅ ∅ ops I I eq_refl eq_refl ops_valid)))
    one fetch).
Defined.
End FjallLeaseWitness.
