(* ===== verification/Workflow.v ===== *)
(** * Workflow definitions

    [crates/vo-types/src/workflow/]: the DAG of a workflow, and the validation that
    every definition passes before it can run. *)

From S2P Require Import Prelude Identifiers.
From Stdlib Require Import SpecFloat.

(** ** Outcomes, edges and retry policies *)

(** [enum StepOutcome]. *)
Inductive StepOutcome : Set := Success | Failure.

#[global] Instance StepOutcome_eq_dec : EqDecision StepOutcome.
Proof. solve_decision. Defined.

(** [enum EdgeCondition]. *)
Inductive EdgeCondition : Set := Always | OnSuccess | OnFailure.

(** [EdgeCondition::matches]. *)
Definition matches (c : EdgeCondition) (outcome : StepOutcome) : bool :=
  match c with
  | Always => true
  | OnSuccess => bool_decide (outcome = Success)
  | OnFailure => bool_decide (outcome = Failure)
  end.

(** [f64]: binary64 as the Standard Library specifies it. *)
Definition f64 : Set := spec_float.
Definition f64_one : f64 := S754_finite false 4503599627370496 (-52).

(** [f64::is_finite]. *)
Definition is_finite (x : f64) : bool :=
  match x with S754_infinity _ | S754_nan => false | _ => true end.

(** [enum RetryPolicyError]. *)
Inductive RetryPolicyError : Type :=
| ZeroAttempts
| InvalidMultiplier (got : f64)
| MaxBackoffTooSmall (max ms : Z).

(** [struct RetryPolicy]. *)
Record RetryPolicy : Type := mkRetryPolicy {
  max_attempts : Z;
  backoff_ms : Z;
  backoff_multiplier : f64;
  max_backoff_ms : Z;
}.

(** [RetryPolicy::new]. *)
Definition RetryPolicy_new (max_attempts backoff_ms : Z) (backoff_multiplier : f64)
  : result RetryPolicyError RetryPolicy :=
  if max_attempts =? 0 then Err ZeroAttempts
  else if negb (is_finite backoff_multiplier) || SFltb backoff_multiplier f64_one then
    Err (InvalidMultiplier backoff_multiplier)
  else Ok (mkRetryPolicy max_attempts backoff_ms backoff_multiplier u64_max).

(** [RetryPolicy::with_max_backoff]. *)
Definition RetryPolicy_with_max_backoff (max_attempts backoff_ms : Z) (backoff_multiplier : f64)
    (max_backoff_ms : Z) : result RetryPolicyError RetryPolicy :=
  if max_attempts =? 0 then Err ZeroAttempts
  else if negb (is_finite backoff_multiplier) || SFltb backoff_multiplier f64_one then
    Err (InvalidMultiplier backoff_multiplier)
  else if max_backoff_ms <? backoff_ms then Err (MaxBackoffTooSmall max_backoff_ms backoff_ms)
  else Ok (mkRetryPolicy max_attempts backoff_ms backoff_multiplier max_backoff_ms).

(** [enum CompensationPolicy] of [effects/compensation.rs]. *)
Inductive CompensationPolicy : Set := CompensateNone | CompensateManual | CompensateAutomatic.

#[global] Instance CompensationPolicy_eq_dec : EqDecision CompensationPolicy.
Proof. solve_decision. Defined.

(** [struct DagNode]. *)
Record DagNode : Type := mkDagNode {
  node_name : NodeName;
  retry_policy : RetryPolicy;
  compensation_policy : option CompensationPolicy;
}.

(** [DagNode::valid_default]. *)
Definition valid_default (node_name : NodeName) : result RetryPolicyError DagNode :=
  let? retry_policy := RetryPolicy_new 1 0 f64_one in
  Ok (mkDagNode node_name retry_policy None).

(** [struct Edge]. *)
Record Edge : Type := mkEdge {
  source_node : NodeName;
  target_node : NodeName;
  condition : EdgeCondition;
}.

(** ** Versions

    [WorkflowVersion] wraps [semver::Version], a third-party type: what the code uses
    of it. *)
Class SemverApi (V : Type) : Type := {
  semver_parse : string -> result string V;
  semver_new : Z -> Z -> Z -> V;
  semver_eqb : V -> V -> bool;
  semver_major : V -> Z;
  semver_display : V -> string;
}.

(** [enum VersionError]. *)
Inductive VersionError : Type := InvalidVersion (message : string).

(** [enum VersionCompatResult]. *)
Inductive VersionCompatResult : Type :=
| Exact
| Compatible (warning : string)
| Incompatible (reason : string).

Section Versions.
Context {V : Type} `{SV : SemverApi V}.

(** [WorkflowVersion::from_semver]; the parser's error is its message. *)
Definition from_semver (v : string) : result VersionError V :=
  map_err InvalidVersion (semver_parse v).

(** [WorkflowVersion::min]. *)
Definition version_min : V := semver_new 0 1 0.

(** [WorkflowVersion::check_compat]. *)
Definition check_compat (self other : V) : VersionCompatResult :=
  if semver_eqb self other then Exact
  else if semver_major self =? semver_major other then
    Compatible ("workflow version " +:+ semver_display self +:+ " differs from "
                +:+ semver_display other +:+ " (minor/patch mismatch but same major)")
  else
    Incompatible ("workflow version " +:+ semver_display self +:+ " is incompatible with "
                  +:+ semver_display other +:+ " (major version mismatch)").
End Versions.

(** ** Definitions *)

(** [struct WorkflowDefinition]; the [NonEmptyVec] of nodes is its list, which
    [validate_unvalidated] has found non-empty. *)
Record WorkflowDefinition (V : Type) : Type := mkWorkflowDefinition {
  workflow_name : WorkflowName;
  nodes : list DagNode;
  edges : list Edge;
  version : V;
}.
Arguments mkWorkflowDefinition {V}.
Arguments workflow_name {V}.
Arguments nodes {V}.
Arguments edges {V}.
Arguments version {V}.

(** [struct UnvalidatedWorkflow], what serde makes of the input. *)
Record UnvalidatedWorkflow (V : Type) : Type := mkUnvalidatedWorkflow {
  raw_name : WorkflowName;
  raw_nodes : list DagNode;
  raw_edges : list Edge;
  raw_version : option V;
}.
Arguments mkUnvalidatedWorkflow {V}.
Arguments raw_name {V}.
Arguments raw_nodes {V}.
Arguments raw_edges {V}.
Arguments raw_version {V}.

(** [enum WorkflowDefinitionError]; [DeserializationFailed] is serde's. *)
Inductive WorkflowDefinitionError : Type :=
| DeserializationFailed (message : string)
| EmptyWorkflow
| CycleDetected (cycle_nodes : list NodeName)
| UnknownNode (edge_source unknown_node : NodeName)
| DuplicateNode (node : NodeName)
| InvalidRetryPolicy (node : NodeName) (reason : RetryPolicyError)
| NoStartNode
| OrphanNodes (orphan_nodes : list NodeName)
| UnreachableNodes (unreachable_nodes : list NodeName).

(** [get_node]. *)
Definition get_node {V} (def : WorkflowDefinition V) (name : NodeName) : option DagNode :=
  snd <$> list_find (fun n => node_name n = name) (nodes def).

(** [next_nodes]. *)
Definition next_nodes {V} (current : NodeName) (last_outcome : StepOutcome)
    (def : WorkflowDefinition V) : list DagNode :=
  omap (fun edge => get_node def (target_node edge))
    (base.filter (fun edge => source_node edge = current /\ matches (condition edge) last_outcome = true)
       (edges def)).

(** ** Cycle detection *)

Abbreviation Adj := (gmap NodeName (list NodeName)).

(** [adj.entry(k).or_default()] and [.push(v)]. *)
Definition adj_touch (adj : Adj) (k : NodeName) : Adj :=
  match adj !! k with Some _ => adj | None => <[k := []]> adj end.

Definition adj_push (adj : Adj) (e : Edge) : Adj :=
  <[source_node e := default [] (adj !! source_node e) ++ [target_node e]]> adj.

(** The state the search mutates: node colours (1 in progress, 2 done) and the path. *)
Abbreviation DfsState := (gmap NodeName Z * list NodeName)%type.

(** [iter().find_map(f)] with an [f] that mutates a state; [None] is out of fuel. *)
Fixpoint find_map_st {St A B} (f : A -> St -> option (option B * St)) (l : list A) (st : St)
  : option (option B * St) :=
  match l with
  | [] => Some (None, st)
  | x :: l' =>
      match f x st with
      | None => None
      | Some (Some y, st') => Some (Some y, st')
      | Some (None, st') => find_map_st f l' st'
      end
  end.

(** [dfs_cycle]. *)
Fixpoint dfs_cycle (fuel : nat) (adj : Adj) (current : NodeName) (st : DfsState)
  : option (option (list NodeName) * DfsState) :=
  match fuel with
  | O => None
  | S fuel' =>
    let state := st.1 in
    let path := st.2 in
    if decide (state !! current = Some 1) then
      match list_find (fun n => n = current) path with
      | Some (start_idx, _) => Some (Some (drop start_idx path ++ [current]), st)
      | None => Some (None, st)
      end
    else if decide (state !! current = Some 2) then Some (None, st)
    else
      let st1 := (<[current := 1]> state, path ++ [current]) in
      let search :=
        match adj !! current with
        | Some neighbors => find_map_st (dfs_cycle fuel' adj) neighbors st1
        | None => Some (None, st1)
        end in
      match search with
      | None => None
      | Some (Some cycle, st2) => Some (Some cycle, st2)
      | Some (None, st2) => Some (None, (<[current := 2]> st2.1, removelast st2.2))
      end
  end.

(** The adjacency map of [detect_cycle]. *)
Definition build_adj (nodes : list DagNode) (edges : list Edge) : Adj :=
  fold_left adj_push edges (fold_left (fun adj n => adj_touch adj (node_name n)) nodes ∅).

(** The search of [detect_cycle] with given fuel. [nodes[0]] is searched first, then
    every node the search has not coloured. *)
Definition detect_cycle_fuel (fuel : nat) (nodes : list DagNode) (edges : list Edge)
  : option (option (list NodeName)) :=
  let adj := build_adj nodes edges in
  match nodes with
  | [] => Some None
  | first :: rest =>
      match dfs_cycle fuel adj (node_name first) (∅, []) with
      | None => None
      | Some (Some cycle, _) => Some (Some cycle)
      | Some (None, st) =>
          fst <$> find_map_st (fun node (st : DfsState) =>
            match st.1 !! node_name node with
            | None => dfs_cycle fuel adj (node_name node) st
            | Some _ => Some (None, st)
            end) rest st
      end
  end.

(** [detect_cycle]: the depth of the recursion is bounded by the number of names. *)
Definition detect_cycle (nodes : list DagNode) (edges : list Edge) : option (list NodeName) :=
  default None (detect_cycle_fuel (S (length nodes + length edges)) nodes edges).

(** ** Connectivity *)

Definition node_names (nodes : list DagNode) : list NodeName := node_name <$> nodes.

(** [in_degree] and [out_degree]: [entry(name).or_insert(0)], then [+= 1] per edge. *)
Definition degree_map (endpoint : Edge -> NodeName) (nodes : list DagNode) (edges : list Edge)
  : gmap NodeName Z :=
  fold_left (fun m e => <[endpoint e := default 0 (m !! endpoint e) + 1]> m) edges
    (list_to_map ((fun n => (n, 0)) <$> node_names nodes)).

(** [for neighbor in neighbors { if reachable.insert(neighbor) { queue.push_back(..) } }]. *)
Definition visit (reachable : gset NodeName) (queue neighbors : list NodeName)
  : gset NodeName * list NodeName :=
  fold_left (fun rq n =>
    if decide (n ∈ rq.1) then rq else ({[ n ]} ∪ rq.1, rq.2 ++ [n])) neighbors (reachable, queue).

(** [while let Some(current) = queue.pop_front()]; [None] is out of fuel. *)
Fixpoint bfs (fuel : nat) (adj : Adj) (reachable : gset NodeName) (queue : list NodeName)
  : option (gset NodeName) :=
  match queue with
  | [] => Some reachable
  | current :: queue' =>
      match fuel with
      | O => None
      | S fuel' =>
          let rq := visit reachable queue' (default [] (adj !! current)) in
          bfs fuel' adj rq.1 rq.2
      end
  end.

(** [validate_connectivity]; the sets iterate in the order of [nodes], which only
    orders the names of an [UnreachableNodes] error. *)
Definition validate_connectivity (nodes : list DagNode) (edges : list Edge)
  : result WorkflowDefinitionError unit :=
  if bool_decide (length nodes <= 1)%nat || bool_decide (edges = []) then Ok tt
  else
    let names := node_names nodes in
    let in_degree := degree_map target_node nodes edges in
    let out_degree := degree_map source_node nodes edges in
    let orphan_nodes :=
      base.filter (fun n => in_degree !! n = Some 0 /\ out_degree !! n = Some 0) names in
    if decide (orphan_nodes <> []) then Err (OrphanNodes orphan_nodes)
    else
      let start_nodes := base.filter (fun n => in_degree !! n = Some 0) names in
      if decide (start_nodes = []) then Err NoStartNode
      else
        let adj := fold_left adj_push edges ∅ in
        let reachable :=
          default ∅ (bfs (length nodes + length edges) adj (list_to_set start_nodes) start_nodes) in
        let unreachable_nodes := base.filter (fun n => n ∉ reachable) names in
        if decide (unreachable_nodes <> []) then Err (UnreachableNodes unreachable_nodes)
        else Ok tt.

(** ** Validation *)

(** The loop over [nodes.iter().enumerate()] that rejects a repeated name. *)
Fixpoint check_duplicates (seen : gmap NodeName nat) (i : nat) (nodes : list DagNode)
  : result WorkflowDefinitionError unit :=
  match nodes with
  | [] => Ok tt
  | node :: nodes' =>
      match seen !! node_name node with
      | Some _ => Err (DuplicateNode (node_name node))
      | None => check_duplicates (<[node_name node := i]> seen) (S i) nodes'
      end
  end.

(** The re-check of each node's retry policy. *)
Definition check_retry_policy (node : DagNode) : result WorkflowDefinitionError unit :=
  let p := retry_policy node in
  let? _ := map_err (InvalidRetryPolicy (node_name node))
              (RetryPolicy_new (max_attempts p) (backoff_ms p) (backoff_multiplier p)) in
  Ok tt.

(** The check that an edge names known nodes. *)
Definition check_edge (names : gset NodeName) (edge : Edge) : result WorkflowDefinitionError unit :=
  if decide (source_node edge ∉ names) then Err (UnknownNode (source_node edge) (source_node edge))
  else if decide (target_node edge ∉ names) then
    Err (UnknownNode (source_node edge) (target_node edge))
  else Ok tt.

Section Validation.
Context {V : Type} `{SV : SemverApi V}.

(** [validate_unvalidated]. *)
Definition validate_unvalidated (u : UnvalidatedWorkflow V)
  : result WorkflowDefinitionError (WorkflowDefinition V) :=
  if decide (raw_nodes u = []) then Err EmptyWorkflow
  else
    let? _ := check_duplicates ∅ 0 (raw_nodes u) in
    let? _ := try_for_each check_retry_policy (raw_nodes u) in
    let names := list_to_set (node_names (raw_nodes u)) in
    let? _ := try_for_each (check_edge names) (raw_edges u) in
    match detect_cycle (raw_nodes u) (raw_edges u) with
    | Some cycle_nodes => Err (CycleDetected cycle_nodes)
    | None =>
        let? _ := validate_connectivity (raw_nodes u) (raw_edges u) in
        Ok (mkWorkflowDefinition (raw_name u) (raw_nodes u) (raw_edges u)
              (default version_min (raw_version u)))
    end.
End Validation.

(** ** Graphs *)

(** There is an edge from [x] to [y]. *)
Definition linked (edges : list Edge) (x y : NodeName) : Prop :=
  exists e, e ∈ edges /\ source_node e = x /\ target_node e = y.

Definition acyclic (edges : list Edge) : Prop := forall x, ~ tc (linked edges) x x.

(** *** The adjacency map *)

Definition neighbors (adj : Adj) (x : NodeName) : list NodeName := default [] (adj !! x).

Lemma neighbors_push edges adj x y :
  y ∈ neighbors (fold_left adj_push edges adj) x <-> y ∈ neighbors adj x \/ linked edges x y.
Proof.
  unfold linked. revert adj; induction edges as [|e edges IH]; intros adj; cbn; [set_solver|].
  rewrite IH. unfold neighbors, adj_push.
  destruct (decide (source_node e = x)) as [<-|Hne];
    [rewrite lookup_insert_eq|rewrite lookup_insert_ne by done]; cbn; set_solver.
Qed.

Lemma neighbors_touch nodes adj x :
  neighbors (fold_left (fun adj n => adj_touch adj (node_name n)) nodes adj) x = neighbors adj x.
Proof.
  revert adj; induction nodes as [|n nodes IH]; intros adj; cbn; [done|]. rewrite IH.
  unfold neighbors, adj_touch. destruct (adj !! node_name n) eqn:H; [done|].
  destruct (decide (node_name n = x)) as [<-|Hne];
    [by rewrite lookup_insert_eq, H|by rewrite lookup_insert_ne].
Qed.

Lemma neighbors_build nodes edges x y :
  y ∈ neighbors (build_adj nodes edges) x <-> linked edges x y.
Proof.
  unfold build_adj. rewrite neighbors_push, neighbors_touch. unfold neighbors.
  rewrite lookup_empty. set_solver.
Qed.

(** *** The depth-first search

    Grey nodes (1) are the path, which follows edges; every infinite walk avoids the
    black nodes (2). *)

Section Dfs.
Context (adj : Adj) (universe : gset NodeName).
Hypothesis universe_closed : forall x y, y ∈ neighbors adj x -> y ∈ universe.

Local Definition R (x y : NodeName) : Prop := y ∈ neighbors adj x.

Definition follows (path : list NodeName) : Prop :=
  match path with [] => True | x :: l => walk R x l end.

Record dfs_inv (state : gmap NodeName Z) (path : list NodeName) : Prop := {
  inv_grey : forall x, state !! x = Some 1 <-> x ∈ path;
  inv_path : follows path;
  inv_black : forall x, state !! x = Some 2 -> sn R x;
  inv_colours : forall x c, state !! x = Some c -> c = 1 \/ c = 2;
}.

(** What a call leaves behind when it finds no cycle. *)
Record dfs_extends (state state' : gmap NodeName Z) : Prop := {
  ext_black : forall x, state !! x = Some 2 -> state' !! x = Some 2;
  ext_dom : dom state ⊆ dom state';
}.

#[local] Instance dfs_extends_preorder : PreOrder dfs_extends.
Proof.
  split; [by split|]. intros a b c [H1 H2] [H3 H4]. split; [auto|set_solver].
Qed.

Definition unseen (state : gmap NodeName Z) : nat := size (universe ∖ dom state).

Lemma unseen_extends state state' : dfs_extends state state' -> (unseen state' <= unseen state)%nat.
Proof. intros [_ H]. unfold unseen. apply subseteq_size. set_solver. Qed.

Lemma unseen_insert state x c :
  x ∈ universe -> state !! x = None -> (unseen (<[x := c]> state) < unseen state)%nat.
Proof.
  intros Hx Hn%not_elem_of_dom. unfold unseen. apply subset_size. rewrite dom_insert. set_solver.
Qed.

Definition may_enter (path : list NodeName) (x : NodeName) : Prop :=
  forall y, last path = Some y -> R y x.

(** The outcome of a call on [x] from an invariant state. *)
Definition dfs_post (state : gmap NodeName Z) (path xs : list NodeName)
    (r : option (option (list NodeName) * DfsState)) : Prop :=
  match r with
  | None => False
  | Some (Some c, _) => is_cycle R c
  | Some (None, st') =>
      st'.2 = path /\ dfs_inv st'.1 path /\ dfs_extends state st'.1 /\
      forall x, x ∈ xs -> st'.1 !! x = Some 2
  end.

Lemma follows_snoc path x : follows path -> may_enter path x -> follows (path ++ [x]).
Proof.
  intros Hf He. destruct path as [|y l]; [done|]. cbn in *.
  destruct l as [|z l _] using rev_ind; [split; [by apply He|done]|].
  rewrite <- app_assoc; cbn. apply walk_app. split; [done|]. split; [|done].
  apply He. by rewrite app_comm_cons, last_snoc.
Qed.

(** Reaching a node of the path closes a cycle. *)
Lemma path_cycle state path x :
  dfs_inv state path -> may_enter path x -> state !! x = Some 1 ->
  exists i, list_find (fun n => n = x) path = Some (i, x) /\ is_cycle R (drop i path ++ [x]).
Proof.
  intros Hinv He Hx. apply (inv_grey _ _ Hinv) in Hx as Hin.
  destruct (list_find_elem_of (fun n => n = x) path x Hin eq_refl) as [[i y] Hf].
  apply list_find_Some in Hf as Hf'. destruct Hf' as (Hi & -> & _).
  exists i. split; [done|].
  pose proof (follows_snoc _ _ (inv_path _ _ Hinv) He) as Hw.
  rewrite (drop_S _ _ _ Hi). exists x, (drop (S i) path). split; [done|].
  rewrite <- (take_drop i path), (drop_S _ _ _ Hi), <- app_assoc in Hw. cbn in Hw.
  destruct (take i path) as [|z l]; cbn in Hw; [done|]. by apply walk_app in Hw as [_ ?].
Qed.

Lemma may_enter_snoc path x y : R x y -> may_enter (path ++ [x]) y.
Proof. intros H z. rewrite last_snoc. by intros [= <-]. Qed.

(** Colouring [x] grey keeps the invariant; so does turning it black once its
    neighbours are black. *)
Lemma inv_enter state path x :
  dfs_inv state path -> may_enter path x -> state !! x = None ->
  dfs_inv (<[x := 1]> state) (path ++ [x]) /\ dfs_extends state (<[x := 1]> state).
Proof.
  intros [Hg Hp Hb Hc] He Hx. split; [split|split].
  - intros y. rewrite elem_of_app, list_elem_of_singleton, <- Hg.
    destruct (decide (x = y)) as [<-|]; [rewrite lookup_insert_eq|rewrite lookup_insert_ne by done];
      naive_solver.
  - by apply follows_snoc.
  - intros y. destruct (decide (x = y)) as [<-|];
      [rewrite lookup_insert_eq|rewrite lookup_insert_ne by done]; naive_solver.
  - intros y c. destruct (decide (x = y)) as [<-|];
      [rewrite lookup_insert_eq|rewrite lookup_insert_ne by done]; naive_solver.
  - intros y Hy. rewrite lookup_insert_ne; [done|]. by intros <-; rewrite Hx in Hy.
  - rewrite dom_insert. set_solver.
Qed.

Lemma inv_leave state path x :
  dfs_inv state (path ++ [x]) -> x ∉ path ->
  (forall y, R x y -> state !! y = Some 2) ->
  dfs_inv (<[x := 2]> state) path /\ dfs_extends state (<[x := 2]> state).
Proof.
  intros [Hg Hp Hb Hc] Hnin Hall.
  assert (sn R x) as Hsn by (constructor; intros y Hy; apply Hb, Hall, Hy).
  split; [split|split].
  - intros y. destruct (decide (x = y)) as [<-|]; [rewrite lookup_insert_eq; naive_solver|].
    rewrite lookup_insert_ne, Hg by done. set_solver.
  - destruct path as [|y l]; [done|]. cbn in Hp |- *.
    destruct l as [|z l _] using rev_ind; [done|]. rewrite <- app_assoc in Hp. cbn in Hp.
    by apply walk_app in Hp as [? _].
  - intros y. destruct (decide (x = y)) as [<-|];
      [rewrite lookup_insert_eq|rewrite lookup_insert_ne by done]; naive_solver.
  - intros y c. destruct (decide (x = y)) as [<-|];
      [rewrite lookup_insert_eq|rewrite lookup_insert_ne by done]; naive_solver.
  - intros y Hy. destruct (decide (x = y)) as [<-|];
      [by rewrite lookup_insert_eq|by rewrite lookup_insert_ne].
  - rewrite dom_insert. set_solver.
Qed.

(** A loop of calls, each of which meets its contract. *)
Lemma find_map_post {A} (key : A -> NodeName)
    (f : A -> DfsState -> option (option (list NodeName) * DfsState)) state0 path (xs : list A) :
  (forall x state, x ∈ xs -> dfs_inv state path -> dfs_extends state0 state ->
     dfs_post state path [key x] (f x (state, path))) ->
  dfs_inv state0 path ->
  dfs_post state0 path (key <$> xs) (find_map_st f xs (state0, path)).
Proof.
  intros Hf Hinv.
  enough (forall state, dfs_inv state path -> dfs_extends state0 state ->
    dfs_post state path (key <$> xs) (find_map_st f xs (state, path))) as H by (by apply H).
  clear Hinv. induction xs as [|x xs IH]; intros state Hinv Hext; cbn.
  { split_and!; [done..|]. by intros ? ?%not_elem_of_nil. }
  pose proof (Hf x state (list_elem_of_here _ _) Hinv Hext) as Hx.
  destruct (f x (state, path)) as [[[c|] [state1 path1]]|]; cbn in Hx; [done| |done].
  destruct Hx as (-> & Hinv1 & Hext1 & Hblack).
  assert (dfs_extends state0 state1) as Hext01 by (by etrans).
  pose proof (IH (fun y s Hy => Hf y s (list_elem_of_further _ _ _ Hy)) state1 Hinv1 Hext01) as Hrec.
  destruct (find_map_st f xs (state1, path)) as [[[c|] [state2 path2]]|]; cbn in *; [done| |done].
  destruct Hrec as (-> & Hinv2 & Hext2 & Hblack2). split_and!; [done..|by etrans|].
  intros y [->|Hy]%elem_of_cons; [|by auto]. apply (ext_black _ _ Hext2), Hblack. left.
Qed.

Lemma dfs_cycle_post fuel x state path :
  dfs_inv state path -> may_enter path x -> x ∈ universe -> (unseen state < fuel)%nat ->
  dfs_post state path [x] (dfs_cycle fuel adj x (state, path)).
Proof.
  revert x state path. induction fuel as [|fuel IH]; intros x state path Hinv He Hx Hfuel; [lia|].
  cbn [dfs_cycle fst snd]. case_decide as H1.
  { destruct (path_cycle _ _ _ Hinv He H1) as (i & -> & Hc). done. }
  case_decide as H2; [by split_and!; [..|set_solver]|].
  assert (state !! x = None) as Hnone
    by (destruct (state !! x) as [c|] eqn:E; [destruct (inv_colours _ _ Hinv _ _ E); by subst|done]).
  destruct (inv_enter _ _ _ Hinv He Hnone) as [Hinv1 Hext1].
  pose proof (unseen_insert _ _ 1 Hx Hnone) as Hlt.
  set (search := match adj !! x with
     | Some ns => find_map_st (dfs_cycle fuel adj) ns (<[x:=1]> state, path ++ [x])
     | None => Some (None, (<[x:=1]> state, path ++ [x])) end).
  assert (dfs_post (<[x:=1]> state) (path ++ [x]) (neighbors adj x) search) as Hs.
  { unfold search, neighbors. destruct (adj !! x) as [ns|] eqn:Hns; [|by split_and!; [..|by intros y ?%not_elem_of_nil]].
    rewrite <- (list_fmap_id ns) at 1. apply find_map_post; [|done]. intros y s Hy Hs Hexts. cbn.
    assert (R x y) by (unfold R, neighbors; by rewrite Hns).
    apply IH; [done|by apply may_enter_snoc|by eapply universe_closed|].
    pose proof (unseen_extends _ _ Hexts). lia. }
  clearbody search. destruct search as [[[c|] [state2 path2]]|]; [done| |done].
  destruct Hs as (-> & Hinv2 & Hext2 & Hblack).
  assert (x ∉ path) as Hnin by (rewrite <- (inv_grey _ _ Hinv); congruence).
  destruct (inv_leave _ _ _ Hinv2 Hnin Hblack) as [Hinv3 Hext3].
  split_and!; [apply removelast_last|done|by do 2 (etrans; [eassumption|])|].
  intros y ->%list_elem_of_singleton. apply lookup_insert_eq.
Qed.

Lemma dfs_inv_nil : dfs_inv ∅ [].
Proof.
  split; [|done|..]; intros x; rewrite lookup_empty; [|done..]. split; [done|].
  by intros ?%not_elem_of_nil.
Qed.

(** A coloured node outside any call is black. *)
Lemma dfs_inv_nil_coloured state x c : dfs_inv state [] -> state !! x = Some c -> c = 2.
Proof.
  intros Hinv Hx. destruct (inv_colours _ _ Hinv _ _ Hx) as [->|]; [|done].
  by apply (inv_grey _ _ Hinv), not_elem_of_nil in Hx.
Qed.

(** The loop over the nodes that the search has not coloured. *)
Lemma dfs_nodes_post fuel state nodes :
  dfs_inv state [] -> (unseen state < fuel)%nat ->
  (forall n, n ∈ nodes -> node_name n ∈ universe) ->
  dfs_post state [] (node_name <$> nodes)
    (find_map_st (fun node (st : DfsState) =>
       match st.1 !! node_name node with
       | None => dfs_cycle fuel adj (node_name node) st
       | Some _ => Some (None, st)
       end) nodes (state, [])).
Proof.
  intros Hinv Hfuel Hu. apply find_map_post; [|done]. intros n s Hn Hs Hext. cbn [fst].
  pose proof (unseen_extends _ _ Hext).
  destruct (s !! node_name n) as [c|] eqn:Hc; [|by apply dfs_cycle_post; [..|apply Hu|lia]].
  pose proof (dfs_inv_nil_coloured _ _ _ Hs Hc) as ->. split_and!; [done..|].
  by intros y ->%list_elem_of_singleton.
Qed.
End Dfs.

(** *** Cycle detection *)

Lemma walk_mono (R1 R2 : NodeName -> NodeName -> Prop) x l :
  (forall a b, R1 a b -> R2 a b) -> walk R1 x l -> walk R2 x l.
Proof. intros H. revert x. induction l; cbn; naive_solver. Qed.

Lemma sn_mono (R1 R2 : NodeName -> NodeName -> Prop) x :
  (forall a b, R2 a b -> R1 a b) -> sn R1 x -> sn R2 x.
Proof. intros H. induction 1 as [x _ IH]. constructor. intros y Hy. by apply IH, H. Qed.

Lemma sn_no_cycle (R : NodeName -> NodeName -> Prop) x : sn R x -> ~ tc R x x.
Proof.
  induction 1 as [x _ IH]. intros Hx. inversion Hx as [? ? Hxx|? y ? Hxy Hyx]; subst;
    [by apply (IH x)|]. apply (IH y Hxy). by eapply tc_r.
Qed.

Lemma detect_cycle_search nodes edges :
  nodes <> [] ->
  match detect_cycle_fuel (S (length nodes + length edges)) nodes edges with
  | None => False
  | Some (Some c) => is_cycle (linked edges) c
  | Some None => forall x, x ∈ node_names nodes -> sn (linked edges) x
  end.
Proof.
  intros Hne. set (fuel := S (length nodes + length edges)).
  set (adj := build_adj nodes edges).
  set (U := list_to_set (node_names nodes ++ (target_node <$> edges)) : gset NodeName).
  assert (forall x y, R adj x y <-> linked edges x y) as HR by (intros; apply neighbors_build).
  assert (forall x y, y ∈ neighbors adj x -> y ∈ U) as Hclosed.
  { intros x y (e & He & _ & <-)%HR. apply elem_of_list_to_set, elem_of_app. right.
    by apply list_elem_of_fmap_2. }
  assert (forall n, n ∈ nodes -> node_name n ∈ U) as HU.
  { intros n Hn. apply elem_of_list_to_set, elem_of_app. left. by apply list_elem_of_fmap_2. }
  assert (unseen U ∅ < fuel)%nat as Hfuel.
  { unfold unseen, fuel, U. rewrite dom_empty_L, difference_empty_L.
    pose proof (size_list_to_set_le (node_names nodes ++ (target_node <$> edges))) as Hle.
    rewrite length_app in Hle. unfold node_names in *. rewrite !length_fmap in Hle. lia. }
  assert (forall c, is_cycle (R adj) c -> is_cycle (linked edges) c) as Hcyc.
  { intros c (x & l & -> & Hw). exists x, l. split; [done|]. eapply walk_mono; [|done]. apply HR. }
  unfold detect_cycle_fuel. fold adj. destruct nodes as [|n ns]; [done|].
  pose proof (dfs_cycle_post adj U Hclosed fuel (node_name n) ∅ [] (dfs_inv_nil adj)
    ltac:(done) (HU _ (list_elem_of_here _ _)) Hfuel) as H1.
  destruct (dfs_cycle _ _ _ _) as [[[c|] [s p]]|]; cbn [dfs_post] in H1; [by auto| |done].
  destruct H1 as (Hp & Hinv & Hext & Hb). cbn in Hp, Hinv, Hext, Hb. subst p.
  pose proof (unseen_extends adj U Hclosed _ _ Hext) as Hle.
  pose proof (dfs_nodes_post adj U Hclosed fuel s ns Hinv ltac:(lia)
    (fun m Hm => HU m (list_elem_of_further _ _ _ Hm))) as H2.
  destruct (find_map_st _ ns _) as [[[c|] [s2 p2]]|]; cbn [dfs_post fmap option_fmap option_map fst] in *;
    [by auto| |done].
  destruct H2 as (_ & Hinv2 & Hext2 & Hb2). cbn in Hinv2, Hext2, Hb2.
  intros x Hx. apply (sn_mono (R adj)); [intros; by apply HR|]. apply (inv_black _ _ _ Hinv2).
  apply elem_of_cons in Hx as [->|Hx]; [apply (ext_black _ _ Hext2), Hb; left|by apply Hb2].
Qed.

(** Every endpoint of an edge is a node. *)
Definition edges_closed (nodes : list DagNode) (edges : list Edge) : Prop :=
  forall e, e ∈ edges -> source_node e ∈ node_names nodes /\ target_node e ∈ node_names nodes.

Lemma detect_cycle_spec nodes edges :
  nodes <> [] -> edges_closed nodes edges ->
  (forall c, detect_cycle nodes edges = Some c -> is_cycle (linked edges) c) /\
  (detect_cycle nodes edges = None <-> acyclic edges).
Proof.
  intros Hne Hcl. pose proof (detect_cycle_search nodes edges Hne) as H.
  unfold detect_cycle. destruct (detect_cycle_fuel _ nodes edges) as [[c|]|]; cbn; [| |done].
  - split; [by intros ? [= <-]|]. split; [done|]. intros Ha.
    destruct (is_cycle_tc _ _ H) as (x & _ & Hx). by apply Ha in Hx.
  - split; [done|]. split; [|done]. intros _ x Hx. apply (sn_no_cycle (linked edges) x); [|done].
    apply H. inversion Hx as [? ? (e & He & <- & _)|? ? ? (e & He & <- & _)]; apply (Hcl e He).
Qed.

(** *** Connectivity *)

Lemma acyclic_sn_pred edges x : acyclic edges -> sn (flip (linked edges)) x.
Proof.
  intros Ha. apply tc_finite_sn.
  - intros y Hy. by apply (Ha y), tc_flip.
  - exists (source_node <$> edges). intros y Hy.
    assert (exists z, linked edges y z) as (z & e & He & <- & _); [|by apply list_elem_of_fmap_2].
    clear -Hy. induction Hy as [a b H|a b c H _ IH]; eauto.
Qed.

Definition count_endpoint (endpoint : Edge -> NodeName) (n : NodeName) (edges : list Edge) : Z :=
  Z.of_nat (length (base.filter (fun e => endpoint e = n) edges)).

Lemma degree_fold endpoint edges (m : gmap NodeName Z) n k :
  m !! n = Some k ->
  fold_left (fun m e => <[endpoint e := default 0 (m !! endpoint e) + 1]> m) edges m !! n
    = Some (k + count_endpoint endpoint n edges).
Proof.
  unfold count_endpoint. revert m k; induction edges as [|e edges IH]; intros m k Hm; cbn [fold_left].
  { cbn. by rewrite Hm, Z.add_0_r. }
  rewrite filter_cons. case_decide as He.
  - rewrite He, Hm. rewrite (IH _ (k + 1)) by (apply lookup_insert_eq). f_equal. cbn [length]. lia.
  - by rewrite (IH _ k) by (by rewrite lookup_insert_ne).
Qed.

Lemma degree_map_lookup endpoint nodes edges n :
  n ∈ node_names nodes ->
  degree_map endpoint nodes edges !! n = Some (count_endpoint endpoint n edges).
Proof.
  intros Hn. unfold degree_map. rewrite <- (Z.add_0_l (count_endpoint _ _ _)).
  apply degree_fold. induction (node_names nodes) as [|x l IH]; [by apply not_elem_of_nil in Hn|].
  cbn. destruct (decide (x = n)) as [->|Hne]; [by rewrite lookup_insert_eq|].
  rewrite lookup_insert_ne by done. apply IH. by apply elem_of_cons in Hn as [|].
Qed.

Lemma degree_zero endpoint nodes edges n :
  n ∈ node_names nodes ->
  degree_map endpoint nodes edges !! n = Some 0 <-> forall e, e ∈ edges -> endpoint e <> n.
Proof.
  intros Hn. rewrite degree_map_lookup by done. unfold count_endpoint. split.
  - intros [= H] e He Hen.
    assert (e ∈ base.filter (fun e => endpoint e = n) edges) as Hin by (by apply list_elem_of_filter).
    destruct (base.filter _ edges); [by apply not_elem_of_nil in Hin|]. cbn in H. lia.
  - intros H. destruct (base.filter _ edges) as [|e l] eqn:E; [done|]. exfalso.
    assert (e ∈ base.filter (fun e => endpoint e = n) edges) as Hin by (rewrite E; left).
    apply list_elem_of_filter in Hin as [? ?]. by apply (H e).
Qed.

Section Bfs.
Context (adj : Adj) (universe : gset NodeName).
Hypothesis universe_closed : forall x y, y ∈ neighbors adj x -> y ∈ universe.

Lemma visit_spec reachable queue ns :
  (forall y, y ∈ ns -> y ∈ universe) ->
  let r := visit reachable queue ns in
  (forall x, x ∈ r.1 <-> x ∈ reachable \/ x ∈ ns) /\
  (forall x, x ∈ queue -> x ∈ r.2) /\
  (forall x, x ∈ r.2 -> x ∈ queue \/ x ∈ r.1) /\
  (forall x, x ∈ r.1 -> x ∈ reachable \/ x ∈ r.2) /\
  (length r.2 + size (universe ∖ r.1) = length queue + size (universe ∖ reachable))%nat.
Proof.
  unfold visit. revert reachable queue. induction ns as [|n ns IH]; intros reachable queue Hu;
    cbn [fold_left fst snd].
  { set_solver. }
  specialize (IH (if decide (n ∈ reachable) then reachable else {[n]} ∪ reachable)
                 (if decide (n ∈ reachable) then queue else queue ++ [n])
                 ltac:(set_solver)).
  case_decide as Hn; cbn [fst snd] in IH |- *; revert IH;
    set (r := fold_left _ ns _); clearbody r; intros (H1 & H2 & H3 & H4 & H5).
  - split_and!; [set_solver..|done].
  - split_and!; [set_solver..|]. rewrite H5, length_app. cbn [length].
    rewrite (size_difference_step universe reachable n) by set_solver. lia.
Qed.

Lemma bfs_spec fuel reachable queue :
  (forall x, x ∈ queue -> x ∈ reachable) ->
  (forall x y, x ∈ reachable -> x ∉ queue -> y ∈ neighbors adj x -> y ∈ reachable) ->
  (length queue + size (universe ∖ reachable) <= fuel)%nat ->
  exists r, bfs fuel adj reachable queue = Some r /\ reachable ⊆ r /\
    forall x y, x ∈ r -> y ∈ neighbors adj x -> y ∈ r.
Proof.
  revert reachable queue. induction fuel as [|fuel IH]; intros reachable queue Hq Hcl Hfuel;
    (destruct queue as [|c q]; [exists reachable; split_and!; [done..|set_solver]|]).
  { cbn in Hfuel. lia. }
  cbn [bfs]. destruct (visit_spec reachable q (default [] (adj !! c)) (universe_closed c))
    as (H1 & H2 & H3 & H4 & H5).
  set (rq := visit _ _ _) in *. fold (neighbors adj c) in *.
  destruct (IH rq.1 rq.2) as (r & Hr & Hsub & Hclr).
  - intros x [Hx|Hx]%H3; [apply H1; left; apply Hq; by right|done].
  - intros x y Hx Hnx Hy. apply H1. apply H4 in Hx as [Hx|]; [|done].
    destruct (decide (x = c)) as [->|]; [by right|]. left. apply (Hcl x); [done| |done].
    intros [->|Hxq]%elem_of_cons; [done|]. by apply Hnx, H2.
  - cbn in Hfuel. lia.
  - exists r. split_and!; [done| |done]. intros x Hx. apply Hsub, H1. by left.
Qed.
End Bfs.

(** The start nodes [validate_connectivity] computes. *)
Definition start_nodes (nodes : list DagNode) (edges : list Edge) : list NodeName :=
  base.filter (fun n => degree_map target_node nodes edges !! n = Some 0) (node_names nodes).

Lemma start_nodes_spec nodes edges n :
  n ∈ start_nodes nodes edges <->
  n ∈ node_names nodes /\ forall e, e ∈ edges -> target_node e <> n.
Proof.
  unfold start_nodes. rewrite list_elem_of_filter. split.
  - intros [Hd Hn]. split; [done|]. by apply (degree_zero target_node nodes).
  - intros [Hn He]. split; [|done]. by apply degree_zero.
Qed.

(** Walking backwards in an acyclic graph ends at a start node. *)
Lemma reached_from_start nodes edges n :
  acyclic edges -> edges_closed nodes edges -> n ∈ node_names nodes ->
  exists s, s ∈ start_nodes nodes edges /\ rtc (linked edges) s n.
Proof.
  intros Ha Hcl. induction (acyclic_sn_pred _ n Ha) as [n _ IH]. intros Hn.
  destruct (decide (Exists (fun e => target_node e = n) edges)) as [Hex|Hno].
  - apply Exists_exists in Hex as (e & He & Ht).
    destruct (IH (source_node e)) as (s & Hs & Hr); [by exists e|apply (Hcl e He)|].
    exists s. split; [done|]. eapply rtc_r; [done|]. by exists e.
  - exists n. split; [|done]. apply start_nodes_spec. split; [done|]. intros e He Ht.
    apply Hno, Exists_exists. by exists e.
Qed.

(** Every node has an edge. *)
Definition no_orphans (nodes : list DagNode) (edges : list Edge) : Prop :=
  forall n, n ∈ node_names nodes -> exists e, e ∈ edges /\ (source_node e = n \/ target_node e = n).

Definition orphans (nodes : list DagNode) (edges : list Edge) : list NodeName :=
  base.filter (fun n => degree_map target_node nodes edges !! n = Some 0 /\
                        degree_map source_node nodes edges !! n = Some 0) (node_names nodes).

Lemma orphans_spec nodes edges n :
  n ∈ orphans nodes edges <->
  n ∈ node_names nodes /\ forall e, e ∈ edges -> source_node e <> n /\ target_node e <> n.
Proof.
  unfold orphans. rewrite list_elem_of_filter. split.
  - intros [[H1 H2] Hn]. split; [done|]. intros e He.
    split; [exact (proj1 (degree_zero source_node _ _ _ Hn) H2 e He)
           |exact (proj1 (degree_zero target_node _ _ _ Hn) H1 e He)].
  - intros [Hn He]. split; [|done]. split; apply degree_zero; naive_solver.
Qed.

Lemma orphans_nil nodes edges : orphans nodes edges = [] <-> no_orphans nodes edges.
Proof.
  split.
  - intros Hnil n Hn.
    destruct (decide (Exists (fun e => source_node e = n \/ target_node e = n) edges)) as [H|H].
    + apply Exists_exists in H as (e & ? & ?). by exists e.
    + exfalso. apply (not_elem_of_nil n). rewrite <- Hnil. apply orphans_spec. split; [done|].
      intros e He. split; intros Hx; apply H, Exists_exists; exists e; auto.
  - intros H. destruct (orphans nodes edges) as [|n l] eqn:E; [done|]. exfalso.
    assert (n ∈ orphans nodes edges) as (Hn & Hno)%orphans_spec by (rewrite E; left).
    destruct (H n Hn) as (e & He & [|]); by destruct (Hno e He).
Qed.

Lemma start_universe nodes edges :
  NoDup (node_names nodes) ->
  let start := start_nodes nodes edges in
  let universe : gset NodeName := list_to_set (node_names nodes ++ (target_node <$> edges)) in
  (length start + size (universe ∖ list_to_set start) <= length nodes + length edges)%nat.
Proof.
  intros Hnd start universe.
  assert (NoDup start) as Hs by (apply NoDup_filter; exact Hnd).
  assert (list_to_set start ⊆ universe) as Hsub.
  { intros x [Hx _]%elem_of_list_to_set%start_nodes_spec.
    apply elem_of_list_to_set, elem_of_app. by left. }
  rewrite size_difference, (size_list_to_set start) by done.
  pose proof (subseteq_size _ _ Hsub) as Hle. rewrite (size_list_to_set start Hs) in Hle.
  pose proof (size_list_to_set_le (node_names nodes ++ (target_node <$> edges))) as HU.
  fold universe in HU. rewrite length_app in HU.
  unfold node_names in HU. rewrite !length_fmap in HU. lia.
Qed.

(** On the graphs that pass the checks before it, the connectivity check can only
    object to nodes without an edge. *)
Lemma validate_connectivity_eq nodes edges :
  NoDup (node_names nodes) -> edges_closed nodes edges -> acyclic edges -> nodes <> [] ->
  validate_connectivity nodes edges =
    if decide ((length nodes <= 1)%nat \/ edges = [] \/ orphans nodes edges = []) then Ok tt
    else Err (OrphanNodes (orphans nodes edges)).
Proof.
  intros Hnd Hcl Ha Hne. unfold validate_connectivity. fold (orphans nodes edges).
  fold (start_nodes nodes edges).
  destruct (bool_decide (length nodes <= 1)%nat) eqn:H1; cbn [orb].
  { apply bool_decide_eq_true in H1. by rewrite decide_True by auto. }
  destruct (bool_decide (edges = [])) eqn:H2.
  { apply bool_decide_eq_true in H2. by rewrite decide_True by auto. }
  apply bool_decide_eq_false in H1, H2.
  destruct (decide (orphans nodes edges <> [])) as [Ho|Ho%dec_stable].
  { rewrite decide_False by naive_solver. done. }
  rewrite (decide_True (P := _ \/ _)) by auto.
  assert (start_nodes nodes edges <> []) as Hst.
  { intros Hnil. destruct nodes as [|n ns]; [done|].
    destruct (reached_from_start (n :: ns) edges (node_name n) Ha Hcl) as (s & Hs & _); [left|].
    rewrite Hnil in Hs. by apply not_elem_of_nil in Hs. }
  rewrite decide_False by done.
  set (adj := fold_left adj_push edges ∅).
  assert (forall x y, y ∈ neighbors adj x <-> linked edges x y) as Hadj.
  { intros x y. unfold adj. rewrite neighbors_push. unfold neighbors. rewrite lookup_empty.
    set_solver. }
  destruct (bfs_spec adj (list_to_set (node_names nodes ++ (target_node <$> edges)))) with
    (fuel := (length nodes + length edges)%nat)
    (reachable := list_to_set (start_nodes nodes edges) : gset NodeName)
    (queue := start_nodes nodes edges) as (r & -> & Hsub & Hr).
  - intros x y (e & He & _ & <-)%Hadj. apply elem_of_list_to_set, elem_of_app. right.
    by apply list_elem_of_fmap_2.
  - intros x Hx. by apply elem_of_list_to_set.
  - intros x y Hx%elem_of_list_to_set Hnx. done.
  - by apply start_universe.
  - change (default ∅ (Some r)) with r. rewrite decide_False; [done|]. intros Hun. apply Hun.
    destruct (base.filter _ (node_names nodes)) as [|n l] eqn:E; [done|]. exfalso.
    assert (n ∈ base.filter (fun n => n ∉ r) (node_names nodes)) as Hin by (rewrite E; left).
    apply list_elem_of_filter in Hin as [Hnr Hn].
    destruct (reached_from_start _ _ _ Ha Hcl Hn) as (s & Hs & Hsn).
    apply Hnr. assert (s ∈ r) as Hsr by (by apply Hsub, elem_of_list_to_set).
    clear -Hsn Hsr Hr Hadj. induction Hsn as [|x y z Hxy _ IH]; [done|].
    apply IH. by apply (Hr x), Hadj.
Qed.

(** *** The other checks *)

Lemma check_duplicates_spec seen i nodes :
  match check_duplicates seen i nodes with
  | Ok _ => NoDup (node_names nodes) /\ forall n, n ∈ node_names nodes -> seen !! n = None
  | Err e => exists l1 n l2, node_names nodes = l1 ++ n :: l2 /\ e = DuplicateNode n /\
               (is_Some (seen !! n) \/ n ∈ l1)
  end.
Proof.
  revert seen i. induction nodes as [|x nodes IH]; intros seen i; cbn [check_duplicates].
  { split; [constructor|]. by intros n ?%not_elem_of_nil. }
  change (node_names (x :: nodes)) with (node_name x :: node_names nodes).
  destruct (seen !! node_name x) eqn:Hx.
  { exists [], (node_name x), (node_names nodes). split_and!; [done..|]. left. by eexists. }
  specialize (IH (<[node_name x := i]> seen) (S i)).
  destruct (check_duplicates _ _ nodes) as [[]|e].
  - destruct IH as [Hnd Hn]. split.
    + constructor; [|done]. intros Hin. specialize (Hn _ Hin). by rewrite lookup_insert_eq in Hn.
    + intros n [->|Hin]%elem_of_cons; [done|]. specialize (Hn _ Hin).
      by apply lookup_insert_None in Hn as [? _].
  - destruct IH as (l1 & n & l2 & Hl & -> & Hs). exists (node_name x :: l1), n, l2.
    split_and!; [by rewrite Hl|done|].
    destruct (decide (n = node_name x)) as [->|Hne]; [right; left|].
    rewrite lookup_insert_ne in Hs by done. destruct Hs; [by left|right; by right].
Qed.

Definition retry_policy_ok (p : RetryPolicy) : Prop :=
  max_attempts p <> 0 /\ is_finite (backoff_multiplier p) = true /\
  SFltb (backoff_multiplier p) f64_one = false.

Lemma RetryPolicy_new_ok m b x p :
  RetryPolicy_new m b x = Ok p <->
  p = mkRetryPolicy m b x u64_max /\ retry_policy_ok p.
Proof.
  unfold RetryPolicy_new, retry_policy_ok. destruct (Z.eqb_spec m 0) as [->|Hm];
    [split; [done|intros [-> [? _]]; done]|].
  destruct (is_finite x) eqn:Hf, (SFltb x f64_one) eqn:Hl; cbn;
    (split; [intros H; injection H as <- || discriminate H|intros (-> & ? & ? & ?)]; cbn in *;
     try done; try congruence).
Qed.

Lemma check_retry_policy_ok n :
  check_retry_policy n = Ok tt <-> retry_policy_ok (retry_policy n).
Proof.
  unfold check_retry_policy. destruct (RetryPolicy_new _ _ _) as [p|e] eqn:E; cbn.
  - apply RetryPolicy_new_ok in E as [-> H]. done.
  - split; [done|]. intros H. exfalso.
    set (p := retry_policy n) in *.
    rewrite (proj2 (RetryPolicy_new_ok _ _ _ (mkRetryPolicy (max_attempts p) (backoff_ms p)
      (backoff_multiplier p) u64_max)) (conj eq_refl H)) in E. done.
Qed.

Lemma check_edge_ok names e :
  check_edge names e = Ok tt <-> source_node e ∈ names /\ target_node e ∈ names.
Proof.
  unfold check_edge. case_decide as H1; [|case_decide as H2]; [naive_solver..|done].
Qed.

Lemma check_edges_ok nodes edges :
  try_for_each (check_edge (list_to_set (node_names nodes))) edges = Ok tt
  <-> edges_closed nodes edges.
Proof.
  rewrite try_for_each_ok, Forall_forall. unfold edges_closed.
  by setoid_rewrite check_edge_ok; setoid_rewrite elem_of_list_to_set.
Qed.

(** ** Properties *)

(** C16. Cycle detection terminates with an answer within its fuel, and the answer is
    right: the names it returns are a cycle of the graph, and it returns none exactly
    when the graph has no cycle. *)
Theorem detect_cycle_correct nodes edges :
  nodes <> [] -> edges_closed nodes edges ->
  detect_cycle_fuel (S (length nodes + length edges)) nodes edges <> None /\
  (forall c, detect_cycle nodes edges = Some c -> is_cycle (linked edges) c) /\
  (detect_cycle nodes edges = None <-> acyclic edges).
Proof.
  intros Hne Hcl. split; [|by apply detect_cycle_spec]. intros H.
  pose proof (detect_cycle_search nodes edges Hne) as Hs. by rewrite H in Hs.
Qed.

Section ValidationProofs.
Context {V : Type} `{SV : SemverApi V}.

(** What a definition must satisfy. *)
Record valid_workflow (nodes : list DagNode) (edges : list Edge) : Prop := {
  valid_nonempty : nodes <> [];
  valid_unique : NoDup (node_names nodes);
  valid_retry : Forall (fun n => retry_policy_ok (retry_policy n)) nodes;
  valid_closed : edges_closed nodes edges;
  valid_acyclic : acyclic edges;
  valid_connected : (length nodes <= 1)%nat \/ edges = [] \/ no_orphans nodes edges;
}.

(** The checks in order, each passed by the time the next one runs. *)
Lemma validate_cases (u : UnvalidatedWorkflow V) :
  let ns := raw_nodes u in
  let es := raw_edges u in
  match validate_unvalidated u with
  | Ok d => valid_workflow ns es /\
      d = mkWorkflowDefinition (raw_name u) ns es (default version_min (raw_version u))
  | Err EmptyWorkflow => ns = []
  | Err (DuplicateNode n) => exists l1 l2 l3, node_names ns = l1 ++ n :: l2 ++ n :: l3
  | Err (InvalidRetryPolicy n _) =>
      exists x, x ∈ ns /\ node_name x = n /\ ~ retry_policy_ok (retry_policy x)
  | Err (UnknownNode s x) =>
      (x ∉ node_names ns) /\ exists e, e ∈ es /\ source_node e = s /\ (x = s \/ target_node e = x)
  | Err (CycleDetected c) => is_cycle (linked es) c
  | Err (OrphanNodes l) =>
      l <> [] /\ (1 < length ns)%nat /\ es <> [] /\
      forall n, n ∈ l <-> n ∈ node_names ns /\
        forall e, e ∈ es -> source_node e <> n /\ target_node e <> n
  | Err (DeserializationFailed _) | Err NoStartNode | Err (UnreachableNodes _) => False
  end.
Proof.
  intros ns es. unfold validate_unvalidated. fold ns es. case_decide as Hne; [done|].
  pose proof (check_duplicates_spec ∅ 0 ns) as Hdup.
  destruct (check_duplicates ∅ 0 ns) as [[]|e]; cbn [rbind].
  2:{ destruct Hdup as (l1 & n & l2 & Hl & -> & [[? H]|Hin]); [by rewrite lookup_empty in H|].
      apply list_elem_of_split in Hin as (a & b & ->).
      exists a, b, l2. by rewrite Hl, <- app_assoc. }
  destruct Hdup as [Hnd _].
  destruct (try_for_each check_retry_policy ns) as [[]|e] eqn:Hretry; cbn [rbind].
  2:{ apply try_for_each_err in Hretry as (x & Hx & He).
      unfold check_retry_policy in He.
      destruct (RetryPolicy_new _ _ _) eqn:E; cbn in He; [done|]. injection He as <-.
      exists x. split_and!; [done..|]. intros H%check_retry_policy_ok.
      unfold check_retry_policy in H. by rewrite E in H. }
  apply try_for_each_ok in Hretry.
  destruct (try_for_each (check_edge _) es) as [[]|e] eqn:Hedges; cbn [rbind].
  2:{ apply try_for_each_err in Hedges as (x & Hx & He). unfold check_edge in He.
      case_decide as H1; [|case_decide as H2; [|done]]; injection He as <-;
        rewrite elem_of_list_to_set in *; eauto 10. }
  apply check_edges_ok in Hedges.
  destruct (detect_cycle_spec ns es Hne Hedges) as [Hcyc Hac].
  destruct (detect_cycle ns es) as [c|] eqn:Hdc; [by apply Hcyc|].
  assert (acyclic es) as Ha by (by apply Hac).
  rewrite validate_connectivity_eq by done. case_decide as Hcon; cbn [rbind].
  - split; [|done]. split; [done..| |done|done|by rewrite <- orphans_nil].
    eapply Forall_impl; [exact Hretry|]. intros n. apply check_retry_policy_ok.
  - split_and!; [naive_solver|lia|naive_solver|]. intros n. apply orphans_spec.
Qed.

Lemma validate_accepts (u : UnvalidatedWorkflow V) e :
  valid_workflow (raw_nodes u) (raw_edges u) -> validate_unvalidated u <> Err e.
Proof.
  intros [H1 H2 H3 H4 H5 H6] He. pose proof (validate_cases u) as H. cbn in H. rewrite He in H.
  destruct e; try done.
  - by destruct (is_cycle_tc _ _ H) as (x & _ & Hx%H5).
  - destruct H as (Hx & e & He' & <- & [->|<-]); by destruct (H4 e He').
  - destruct H as (l1 & l2 & l3 & Hl). rewrite Hl in H2.
    apply NoDup_app in H2 as (_ & _ & H2). apply NoDup_cons in H2 as [H2 _]. set_solver.
  - destruct H as (x & Hx & _ & Hr). rewrite Forall_forall in H3. by apply Hr, H3.
  - destruct H as (Hl & Hlen & Hes & Ho). destruct H6 as [?|[?|H6]]; [lia|done|].
    destruct orphan_nodes as [|n l]; [done|].
    destruct (proj1 (Ho n) ltac:(left)) as [Hn Hno].
    destruct (H6 n Hn) as (e & He' & Hor). destruct (Hno e He'). tauto.
Qed.

(** C2. Validation accepts exactly the well-formed workflows: at least one node,
    unique names, acceptable retry policies, edges between known nodes, no cycle, and
    no node without an edge unless there is a single node or no edge at all; it
    returns the definition unchanged with the default version filled in. *)
Theorem validate_iff (u : UnvalidatedWorkflow V) d :
  validate_unvalidated u = Ok d <->
  valid_workflow (raw_nodes u) (raw_edges u) /\
  d = mkWorkflowDefinition (raw_name u) (raw_nodes u) (raw_edges u)
        (default version_min (raw_version u)).
Proof.
  pose proof (validate_cases u) as H. cbn in H. pose proof (validate_accepts u) as Hacc.
  destruct (validate_unvalidated u) as [d'|e]; [naive_solver|].
  split; [done|]. intros [Hv _]. by destruct (Hacc e Hv).
Qed.

(** Every rejection names a real defect: the reported names form a cycle, are
    missing, repeated, without edges, or carry a bad retry policy; and the two
    connectivity errors [NoStartNode] and [UnreachableNodes] are never reported,
    because an acyclic graph always has start nodes that reach everything. *)
Theorem validation_errors_sound (u : UnvalidatedWorkflow V) e :
  validate_unvalidated u = Err e ->
  ~ valid_workflow (raw_nodes u) (raw_edges u) /\
  match e with
  | EmptyWorkflow => raw_nodes u = []
  | DuplicateNode n => exists l1 l2 l3, node_names (raw_nodes u) = l1 ++ n :: l2 ++ n :: l3
  | InvalidRetryPolicy n _ =>
      exists x, x ∈ raw_nodes u /\ node_name x = n /\ ~ retry_policy_ok (retry_policy x)
  | UnknownNode s x =>
      (x ∉ node_names (raw_nodes u)) /\
      exists e, e ∈ raw_edges u /\ source_node e = s /\ (x = s \/ target_node e = x)
  | CycleDetected c => is_cycle (linked (raw_edges u)) c
  | OrphanNodes l =>
      l <> [] /\ forall n, n ∈ l ->
        n ∈ node_names (raw_nodes u) /\
        forall e, e ∈ raw_edges u -> source_node e <> n /\ target_node e <> n
  | DeserializationFailed _ | NoStartNode | UnreachableNodes _ => False
  end.
Proof.
  intros He. split.
  - intros Hv. by apply (validate_accepts u e Hv).
  - pose proof (validate_cases u) as H. cbn in H. rewrite He in H. destruct e; naive_solver.
Qed.
End ValidationProofs.

(** ** The theorems at concrete workflows *)

Module WorkflowWitness.

(** A version as its three numbers. *)
#[global] Instance semver_api : SemverApi (Z * Z * Z) := {|
  semver_parse := fun _ => Ok (0, 1, 0);
  semver_new := fun a b c => (a, b, c);
  semver_eqb := fun x y => bool_decide (x = y);
  semver_major := fun x => x.1.1;
  semver_display := fun x =>
    pretty x.1.1 +:+ "." +:+ pretty x.1.2 +:+ "." +:+ pretty x.2;
|}.

Definition policy : RetryPolicy := mkRetryPolicy 1 0 f64_one u64_max.
Definition name (s : string) : NodeName := mkNodeName s.
Definition node (s : string) : DagNode := mkDagNode (name s) policy None.
Definition arrow (s t : string) : Edge := mkEdge (name s) (name t) Always.

Definition workflow (ns : list DagNode) (es : list Edge) : UnvalidatedWorkflow (Z * Z * Z) :=
  mkUnvalidatedWorkflow (mkWorkflowName "w") ns es None.

Definition diamond_nodes : list DagNode := [node "a"; node "b"; node "c"; node "d"].
Definition diamond_edges : list Edge :=
  [arrow "a" "b"; arrow "a" "c"; arrow "b" "d"; arrow "c" "d"].

Lemma diamond_closed : edges_closed diamond_nodes diamond_edges.
Proof. by apply check_edges_ok. Qed.

Lemma diamond_valid : valid_workflow diamond_nodes diamond_edges.
Proof.
  pose proof (validate_cases (workflow diamond_nodes diamond_edges)) as H. cbn zeta in H.
  destruct (validate_unvalidated _) as [d|e] eqn:E; [by destruct H|].
  vm_compute in E. discriminate E.
Qed.

Lemma detect_cycle_correct_witness :
  edges_closed diamond_nodes diamond_edges /\ acyclic diamond_edges.
Proof.
  split; [exact diamond_closed|].
  apply (detect_cycle_correct diamond_nodes diamond_edges ltac:(done) diamond_closed).
  vm_compute. reflexivity.
Defined.

Lemma validation_errors_sound_witness :
  let u := workflow [node "a"; node "b"] [arrow "a" "b"; arrow "b" "a"] in
  validate_unvalidated u = Err (CycleDetected [name "a"; name "b"; name "a"]) /\
  is_cycle (linked (raw_edges u)) [name "a"; name "b"; name "a"].
Proof.
  intros u.
  assert (validate_unvalidated u = Err (CycleDetected [name "a"; name "b"; name "a"])) as H
    by (vm_compute; reflexivity).
  split; [exact H|]. exact (proj2 (validation_errors_sound u _ H)).
Defined.

(** Validation re-checks a policy with [RetryPolicy::new], which does not look at
    [max_backoff_ms]: it accepts a policy that [with_max_backoff] refuses. *)
Lemma max_backoff_not_validated :
  let p := mkRetryPolicy 3 1000 f64_one 10 in
  is_ok (validate_unvalidated (workflow [mkDagNode (name "a") p None] [])) = true /\
  RetryPolicy_with_max_backoff 3 1000 f64_one 10 = Err (MaxBackoffTooSmall 10 1000).
Proof. by split; vm_compute. Qed.
End WorkflowWitness.
