(* ===== verification/Selection.v ===== *)
(** * Step selection

    What runs next: [crates/vo-types/src/dependency_graph_resolver.rs],
    [next_step_selection.rs] and [edge_tracking.rs], over the workflow definitions
    that passed validation. *)

From S2P Require Import Prelude Identifiers Workflow.

Section Resolver.
Context {V : Type}.
Implicit Types workflow : WorkflowDefinition V.

(** ** The dependency graph resolver *)

(** [DependencyGraphResolver::dependencies]. *)
Definition dependencies workflow (node : NodeName) : list NodeName :=
  source_node <$> base.filter (fun edge => target_node edge = node) (edges workflow).

(** [DependencyGraphResolver::dependents]. *)
Definition dependents workflow (node : NodeName) : list NodeName :=
  target_node <$> base.filter (fun edge => source_node edge = node) (edges workflow).

(** [for dep in direct_deps { .. }] of the transitive searches: [None] is the early
    [return vec![]]. *)
Fixpoint visit_deps (deps : list NodeName) (visited : gset NodeName)
    (result queue : list NodeName) : option (gset NodeName * list NodeName * list NodeName) :=
  match deps with
  | [] => Some (visited, result, queue)
  | dep :: deps' =>
      if decide (dep ∈ visited) then None
      else visit_deps deps' ({[dep]} ∪ visited) (result ++ [dep]) (queue ++ [dep])
  end.

(** [while let Some(current) = queue.pop()]: a stack; the outer [None] is out of fuel. *)
Fixpoint transitive_loop (fuel : nat) (direct : NodeName -> list NodeName)
    (visited : gset NodeName) (result queue : list NodeName) : option (list NodeName) :=
  match last queue with
  | None => Some result
  | Some current =>
      match fuel with
      | O => None
      | S fuel' =>
          match visit_deps (direct current) visited result (removelast queue) with
          | None => Some []
          | Some (visited', result', queue') =>
              transitive_loop fuel' direct visited' result' queue'
          end
      end
  end.

(** [DependencyGraphResolver::transitive_dependencies]: every pop but the first is of a
    name that was new, so there are no more of them than edges. *)
Definition transitive_dependencies workflow (node : NodeName) : list NodeName :=
  default [] (transitive_loop (S (length (edges workflow))) (dependencies workflow)
                {[node]} [] [node]).

(** [DependencyGraphResolver::transitive_dependents]. *)
Definition transitive_dependents workflow (node : NodeName) : list NodeName :=
  default [] (transitive_loop (S (length (edges workflow))) (dependents workflow)
                {[node]} [] [node]).

(** [DependencyGraphResolver::ready_nodes]. *)
Definition ready_nodes workflow (completed : list NodeName) : list NodeName :=
  let completed_set : gset NodeName := list_to_set completed in
  omap (fun node =>
    let n := node_name node in
    if decide (n ∈ completed_set) then None
    else if decide (Forall (fun dep => dep ∈ completed_set) (dependencies workflow n)) then Some n
    else None) (nodes workflow).

Definition incoming workflow (n : NodeName) : list Edge :=
  base.filter (fun edge => target_node edge = n) (edges workflow).

(** [DependencyGraphResolver::ready_nodes_for_outcome]. *)
Definition ready_nodes_for_outcome workflow (completed : list NodeName)
    (last_outcome : StepOutcome) : list NodeName :=
  let completed_set : gset NodeName := list_to_set completed in
  omap (fun node =>
    let n := node_name node in
    if decide (n ∈ completed_set) then None
    else if decide (incoming workflow n = []) then Some n
    else if decide (Forall (fun edge => source_node edge ∈ completed_set /\
                                        matches (condition edge) last_outcome = true)
                      (incoming workflow n)) then Some n
    else None) (nodes workflow).

(** One turn of the [while !remaining.is_empty()] loop of [execution_layers]: the
    current layer, from the nodes whose dependencies are all assigned. *)
Definition current_layer workflow (remaining : list NodeName) (assigned : gset NodeName)
  : list NodeName :=
  base.filter (fun n => Forall (fun d => d ∈ assigned) (dependencies workflow n)) remaining.

(** [for node_name in current_layer { remaining.retain(..); assigned.insert(..) }]. *)
Definition assign_layer (layer : list NodeName) (remaining : list NodeName)
    (assigned : gset NodeName) : list NodeName * gset NodeName :=
  fold_left (fun ra n => (base.filter (fun m => m <> n) ra.1, {[n]} ∪ ra.2)) layer
    (remaining, assigned).

Fixpoint layers_loop (fuel : nat) workflow (remaining : list NodeName) (assigned : gset NodeName)
  : option (list (list NodeName)) :=
  if decide (remaining = []) then Some []
  else match fuel with
  | O => None
  | S fuel' =>
      let layer := current_layer workflow remaining assigned in
      if decide (layer = []) then Some []
      else
        let ra := assign_layer layer remaining assigned in
        (fun layers => layer :: layers) <$> layers_loop fuel' workflow ra.1 ra.2
  end.

(** [DependencyGraphResolver::execution_layers]: every turn removes a node. *)
Definition execution_layers workflow : list (list NodeName) :=
  default [] (layers_loop (length (nodes workflow)) workflow (node_names (nodes workflow)) ∅).

(** ** Attempts and fences *)

(** [struct StepSchedulingRecord]. *)
Record StepSchedulingRecord : Type := mkStepSchedulingRecord {
  record_step_id : NodeName;
  record_attempt : Z;
  record_fence : Z;
}.

(** [struct ExecutionHistory]. *)
Record ExecutionHistory : Type := mkExecutionHistory { history_records : list StepSchedulingRecord }.

(** [ExecutionHistory::add_record]. *)
Definition add_record (h : ExecutionHistory) (r : StepSchedulingRecord) : ExecutionHistory :=
  mkExecutionHistory (history_records h ++ [r]).

(** [ExecutionHistory::records_for_step]. *)
Definition records_for_step (h : ExecutionHistory) (step_id : NodeName)
  : list StepSchedulingRecord :=
  base.filter (fun r => record_step_id r = step_id) (history_records h).

(** [iter().max()]. *)
Definition iter_max (l : list Z) : option Z :=
  match l with [] => None | x :: l' => Some (fold_left Z.max l' x) end.

(** [compute_attempt_and_fence]; [+ 1] on the [u32] and the [u64] wraps. *)
Definition compute_attempt_and_fence (step_id : NodeName) (history : ExecutionHistory) : Z * Z :=
  let step_records := records_for_step history step_id in
  if decide (step_records = []) then (1, 1)
  else
    let max_attempt := default 1 (iter_max (record_attempt <$> step_records)) in
    let max_fence := default 0 (iter_max (record_fence <$> step_records)) in
    let next_attempt := wrapping_add_u32 max_attempt 1 in
    let next_fence := wrapping_add_u64 max_fence 1 in
    (next_attempt, next_fence).

(** ** Selection *)

(** [enum SelectionError]. *)
Inductive SelectionError : Type :=
| NoReadyNodes
| UnknownCompletedNode (node : NodeName)
| UnnecessaryOutcome.

(** [struct NextStep]. *)
Record NextStep : Type := mkNextStep {
  next_step_id : NodeName;
  next_attempt : Z;
  next_fence : Z;
}.

(** [struct SchedulingIntention]. *)
Record SchedulingIntention : Type := mkSchedulingIntention {
  intention_workflow_id : string;
  intention_step_id : NodeName;
  intention_attempt : Z;
  intention_fence : Z;
  intention_execution_id : string;
}.

(** [find_ready_nodes]. *)
Definition find_ready_nodes workflow (completed : list NodeName)
    (last_outcome : option StepOutcome) : list NodeName :=
  let completed_set : gset NodeName := list_to_set completed in
  omap (fun node =>
    let n := node_name node in
    if decide (n ∈ completed_set) then None
    else if decide (~ Forall (fun dep => dep ∈ completed_set) (dependencies workflow n)) then None
    else match last_outcome with
    | Some outcome =>
        if decide (incoming workflow n <> []) then
          if decide (Forall (fun edge => source_node edge ∈ completed_set /\
                                         matches (condition edge) outcome = true)
                       (incoming workflow n)) then Some n
          else None
        else Some n
    | None => Some n
    end) (nodes workflow).

(** The loop that rejects an unknown completed node. *)
Fixpoint check_completed workflow (completed : list NodeName) : result SelectionError unit :=
  match completed with
  | [] => Ok tt
  | n :: completed' =>
      match get_node workflow n with
      | None => Err (UnknownCompletedNode n)
      | Some _ => check_completed workflow completed'
      end
  end.

(** [select_next_step]. *)
Definition select_next_step workflow (completed : list NodeName)
    (last_outcome : option StepOutcome) (history : option ExecutionHistory)
  : result SelectionError (option NextStep) :=
  let? _ := check_completed workflow completed in
  match find_ready_nodes workflow completed last_outcome with
  | [] => Err NoReadyNodes
  | selected :: _ =>
      let af := match history with
                | Some h => compute_attempt_and_fence selected h
                | None => (1, 1)
                end in
      Ok (Some (mkNextStep selected af.1 af.2))
  end.

(** [emit_scheduling_intention]. *)
Definition emit_scheduling_intention (next_step : NextStep) (workflow_id execution_id : string)
  : SchedulingIntention :=
  mkSchedulingIntention workflow_id (next_step_id next_step) (next_attempt next_step)
    (next_fence next_step) execution_id.

(** ** The traversal log *)

(** [struct TraversedEdge]. *)
Record TraversedEdge : Type := mkTraversedEdge {
  traversed_source : NodeName;
  traversed_target : NodeName;
  traversed_outcome : option StepOutcome;
}.

(** [TraversedEdge::on_success], [on_failure] and [always]. *)
Definition on_success (s t : NodeName) : TraversedEdge := mkTraversedEdge s t (Some Success).
Definition on_failure (s t : NodeName) : TraversedEdge := mkTraversedEdge s t (Some Failure).
Definition always (s t : NodeName) : TraversedEdge := mkTraversedEdge s t None.

(** [struct EdgeTraversalLog]: its [records]. *)
Record EdgeTraversalLog : Type := mkEdgeTraversalLog { log_records : list TraversedEdge }.

(** [EdgeTraversalLog::new]. *)
Definition log_new : EdgeTraversalLog := mkEdgeTraversalLog [].

(** [EdgeTraversalLog::record]. *)
Definition log_record (log : EdgeTraversalLog) (edge : TraversedEdge) : EdgeTraversalLog :=
  mkEdgeTraversalLog (log_records log ++ [edge]).

(** [EdgeTraversalLog::record_with_outcome]. *)
Definition record_with_outcome (log : EdgeTraversalLog) (source target : NodeName)
    (outcome : StepOutcome) : EdgeTraversalLog :=
  mkEdgeTraversalLog (log_records log ++ [mkTraversedEdge source target (Some outcome)]).

(** [EdgeTraversalLog::record_always]. *)
Definition record_always (log : EdgeTraversalLog) (source target : NodeName) : EdgeTraversalLog :=
  mkEdgeTraversalLog (log_records log ++ [always source target]).

(** [EdgeTraversalLog::clear]. *)
Definition log_clear (log : EdgeTraversalLog) : EdgeTraversalLog := mkEdgeTraversalLog [].

(** [EdgeTraversalLog::traversed_to]. *)
Definition traversed_to (log : EdgeTraversalLog) (target : NodeName) : list TraversedEdge :=
  base.filter (fun e => traversed_target e = target) (log_records log).

(** [EdgeTraversalLog::latest_outcome]. *)
Definition latest_outcome (log : EdgeTraversalLog) (source target : NodeName)
  : option StepOutcome :=
  x ← list_find (fun e => traversed_source e = source /\ traversed_target e = target)
        (reverse (log_records log));
  traversed_outcome x.2.

(** [EdgeTraversalLog::traversed_sources]. *)
Definition traversed_sources (log : EdgeTraversalLog) (target : NodeName) : list NodeName :=
  fold_left (fun sources edge =>
    if decide (traversed_target edge = target /\ traversed_source edge ∉ sources)
    then sources ++ [traversed_source edge] else sources) (log_records log) [].

(** [EdgeTraversalLog::has_traversed]. *)
Definition has_traversed (log : EdgeTraversalLog) (target : NodeName) : bool :=
  existsb (fun e => bool_decide (traversed_target e = target)) (log_records log).

(** The position, from the front, of the last record of an edge:
    [records().len() - 1 - records().iter().rev().position(..)]. *)
Definition last_position (log : EdgeTraversalLog) (source target : NodeName) : option nat :=
  (fun x : nat * TraversedEdge => (length (log_records log) - 1 - x.1)%nat) <$>
    list_find (fun e => traversed_source e = source /\ traversed_target e = target)
      (reverse (log_records log)).

(** The loop of [select_fan_in_source] over the sources: the best source and its
    index. *)
Definition better (log : EdgeTraversalLog) (target : NodeName) (best : option NodeName * nat)
    (source : NodeName) : option NodeName * nat :=
  match last_position log source target with
  | None => best
  | Some last_idx =>
      match best.1 with
      | None => (Some source, last_idx)
      | Some _ => if (best.2 <? last_idx)%nat then (Some source, last_idx) else best
      end
  end.

(** [select_fan_in_source]. *)
Definition select_fan_in_source (target : NodeName) (log : EdgeTraversalLog) : option NodeName :=
  let sources := traversed_sources log target in
  match sources with
  | [] => None
  | [source] => Some source
  | _ => (fold_left (better log target) sources (None, 0%nat)).1
  end.

(** ** Fan-in selection *)

(** [struct ParentOutcomeMap]. *)
Record ParentOutcomeMap : Type := mkParentOutcomeMap { outcomes : gmap NodeName StepOutcome }.

(** [ParentOutcomeMap::record]. *)
Definition outcome_record (m : ParentOutcomeMap) (parent : NodeName) (outcome : StepOutcome)
  : ParentOutcomeMap := mkParentOutcomeMap (<[parent := outcome]> (outcomes m)).

(** [ParentOutcomeMap::from_traversal_log]. *)
Definition from_traversal_log (log : EdgeTraversalLog) : ParentOutcomeMap :=
  mkParentOutcomeMap (fold_left (fun m edge =>
    match traversed_outcome edge with
    | Some outcome => <[traversed_source edge := outcome]> m
    | None => m
    end) (log_records log) ∅).

(** [ParentOutcomeMap::parents], in the unspecified order of the map. *)
Definition parents (m : ParentOutcomeMap) : list NodeName := (map_to_list (outcomes m)).*1.

(** [find_ready_nodes_fan_in]. *)
Definition find_ready_nodes_fan_in workflow (completed_outcomes : ParentOutcomeMap)
  : list NodeName :=
  let m := outcomes completed_outcomes in
  omap (fun node =>
    let n := node_name node in
    if decide (is_Some (m !! n)) then None
    else if decide (incoming workflow n = []) then Some n
    else if decide (~ Forall (fun edge => is_Some (m !! source_node edge)) (incoming workflow n))
      then None
    else if decide (Forall (fun edge =>
              match m !! source_node edge with
              | Some parent_outcome => matches (condition edge) parent_outcome
              | None => false
              end = true) (incoming workflow n)) then Some n
    else None) (nodes workflow).

(** [select_next_step_with_fan_in]. *)
Definition select_next_step_with_fan_in workflow (completed_outcomes : ParentOutcomeMap)
  : result SelectionError (option NextStep) :=
  let? _ := check_completed workflow (parents completed_outcomes) in
  match find_ready_nodes_fan_in workflow completed_outcomes with
  | [] => Err NoReadyNodes
  | selected :: _ => Ok (Some (mkNextStep selected 1 1))
  end.
End Resolver.

(** ** Proofs *)

Section Proofs.
Context {V : Type}.
Implicit Types w : WorkflowDefinition V.

Abbreviation depends w m n := (linked (edges w) m n).

Lemma dependencies_spec w n m : m ∈ dependencies w n <-> depends w m n.
Proof.
  unfold dependencies, linked. rewrite list_elem_of_fmap.
  setoid_rewrite list_elem_of_filter. naive_solver.
Qed.

Lemma dependents_spec w n m : m ∈ dependents w n <-> depends w n m.
Proof.
  unfold dependents, linked. rewrite list_elem_of_fmap.
  setoid_rewrite list_elem_of_filter. naive_solver.
Qed.

Lemma incoming_spec w n e : e ∈ incoming w n <-> e ∈ edges w /\ target_node e = n.
Proof. unfold incoming. rewrite list_elem_of_filter. tauto. Qed.

Lemma deps_completed w n (completed : gset NodeName) :
  Forall (fun dep => dep ∈ completed) (dependencies w n) <->
  forall m, depends w m n -> m ∈ completed.
Proof. rewrite Forall_forall. by setoid_rewrite dependencies_spec. Qed.

Lemma ready_nodes_elem w completed n :
  n ∈ ready_nodes w completed <->
  n ∈ node_names (nodes w) /\ (n ∉ completed) /\ forall m, depends w m n -> m ∈ completed.
Proof.
  unfold ready_nodes, node_names. rewrite list_elem_of_omap, list_elem_of_fmap.
  setoid_rewrite <- (elem_of_list_to_set (C := gset NodeName) _ completed).
  setoid_rewrite <- (deps_completed w n (list_to_set completed)). split.
  - intros (x & Hx & Hn). repeat case_decide; simplify_eq. eauto.
  - intros ((x & -> & Hx) & H1 & H2). exists x. split; [done|].
    by rewrite decide_False, decide_True.
Qed.

Lemma ready_nodes_exists w completed n :
  acyclic (edges w) -> edges_closed (nodes w) (edges w) ->
  n ∈ node_names (nodes w) -> n ∉ completed -> ready_nodes w completed <> [].
Proof.
  intros Ha Hcl. induction (acyclic_sn_pred _ n Ha) as [n _ IH]. intros Hn Hnc.
  destruct (decide (Forall (fun m => m ∈ completed) (dependencies w n))) as [Hall|Hex].
  - intros Hnil. apply (not_elem_of_nil n). rewrite <- Hnil. apply ready_nodes_elem.
    split_and!; [done..|]. intros m Hm%dependencies_spec. rewrite Forall_forall in Hall. auto.
  - apply not_Forall_Exists in Hex; [|apply _].
    apply Exists_exists in Hex as (m & Hm%dependencies_spec & Hmc).
    apply (IH m); [done| |done]. destruct Hm as (e & He & <- & _). apply (Hcl e He).
Qed.

(** Readiness: the ready nodes are exactly the nodes that are not completed and
    whose dependencies all are, and in a validated workflow there are none left only
    when every node is completed, so execution cannot get stuck. *)
Theorem ready_nodes_progress w completed :
  valid_workflow (nodes w) (edges w) ->
  (forall n, n ∈ ready_nodes w completed <->
     n ∈ node_names (nodes w) /\ (n ∉ completed) /\ forall m, depends w m n -> m ∈ completed) /\
  (ready_nodes w completed = [] <-> forall n, n ∈ node_names (nodes w) -> n ∈ completed).
Proof.
  intros Hv. split; [apply ready_nodes_elem|]. split.
  - intros Hnil n Hn. destruct (decide (n ∈ completed)) as [|Hnc]; [done|].
    by destruct (ready_nodes_exists w completed n (valid_acyclic _ _ Hv) (valid_closed _ _ Hv) Hn Hnc).
  - intros Hall. destruct (ready_nodes w completed) as [|n l] eqn:E; [done|].
    assert (n ∈ ready_nodes w completed) as (Hn & Hnc & _)%ready_nodes_elem by (rewrite E; left).
    by destruct (Hnc (Hall n Hn)).
Qed.

Lemma incoming_deps w n (completed : gset NodeName) :
  Forall (fun dep => dep ∈ completed) (dependencies w n) <->
  Forall (fun e => source_node e ∈ completed) (incoming w n).
Proof. unfold dependencies, incoming. by rewrite Forall_fmap. Qed.

Lemma find_ready_nodes_eq w completed last_outcome :
  find_ready_nodes w completed last_outcome =
  match last_outcome with
  | None => ready_nodes w completed
  | Some outcome => ready_nodes_for_outcome w completed outcome
  end.
Proof.
  unfold find_ready_nodes, ready_nodes, ready_nodes_for_outcome.
  set (C := list_to_set completed : gset NodeName).
  destruct last_outcome as [o|]; apply omap_ext_in; intros x _;
    destruct (decide (node_name x ∈ C)); try done.
  - pose proof (incoming_deps w (node_name x) C) as Hd.
    destruct (decide (incoming w (node_name x) = [])) as [Hnil|Hne].
    + rewrite Hnil in *. rewrite !decide_False; [done|naive_solver|].
      intros H. apply H, Hd. constructor.
    + rewrite (decide_True (P := incoming w (node_name x) <> [])) by done.
      destruct (decide (Forall (fun edge => source_node edge ∈ C /\ _) _)) as [Hf|Hf];
        [|by case_decide]. rewrite decide_False; [done|].
      intros H. apply H, Hd. eapply Forall_impl; [exact Hf|]. naive_solver.
  - repeat case_decide; try done.
Qed.

Lemma get_node_elem w n :
  is_Some (get_node w n) <-> n ∈ node_names (nodes w).
Proof.
  unfold get_node, node_names. rewrite list_elem_of_fmap. split.
  - intros [x Hx]. destruct (list_find _ (nodes w)) as [[i y]|] eqn:E; [|done].
    apply list_find_Some in E as (Hy & <- & _). exists y. split; [done|].
    by eapply list_elem_of_lookup_2.
  - intros (x & -> & Hx).
    destruct (list_find_elem_of (fun y => node_name y = node_name x) (nodes w) x Hx eq_refl)
      as [[i y] ->]. by eexists.
Qed.

Lemma check_completed_ok w completed :
  check_completed w completed = Ok tt <-> forall n, n ∈ completed -> n ∈ node_names (nodes w).
Proof.
  induction completed as [|x l IH]; cbn; [by split; [intros _ n ?%not_elem_of_nil|]|].
  pose proof (get_node_elem w x) as Hx. destruct (get_node w x) as [y|].
  - rewrite IH. assert (x ∈ node_names (nodes w)) by (by apply Hx). set_solver.
  - split; [done|]. intros H. destruct (proj2 Hx) as [? ?]; [apply H; left|done].
Qed.

Lemma check_completed_err w completed e :
  check_completed w completed = Err e ->
  exists n, e = UnknownCompletedNode n /\ n ∈ completed /\ n ∉ node_names (nodes w).
Proof.
  induction completed as [|x l IH]; cbn; [done|].
  pose proof (get_node_elem w x) as Hx. destruct (get_node w x) as [y|].
  - intros (n & ? & ? & ?)%IH. exists n. split_and!; [done|by right|done].
  - intros [= <-]. exists x. split_and!; [done|left|]. intros [? ?]%Hx. done.
Qed.

(** The ready list [select_next_step] chooses from. *)
Definition candidates w (completed : list NodeName) (last_outcome : option StepOutcome)
  : list NodeName :=
  match last_outcome with
  | None => ready_nodes w completed
  | Some outcome => ready_nodes_for_outcome w completed outcome
  end.

Lemma select_next_step_cases w completed last_outcome history :
  match select_next_step w completed last_outcome history with
  | Ok None | Err UnnecessaryOutcome => False
  | Ok (Some s) => (forall n, n ∈ completed -> n ∈ node_names (nodes w)) /\
      head (candidates w completed last_outcome) = Some (next_step_id s) /\
      (next_attempt s, next_fence s) =
        from_option (compute_attempt_and_fence (next_step_id s)) (1, 1) history
  | Err NoReadyNodes => (forall n, n ∈ completed -> n ∈ node_names (nodes w)) /\
      candidates w completed last_outcome = []
  | Err (UnknownCompletedNode n) => n ∈ completed /\ n ∉ node_names (nodes w)
  end.
Proof.
  unfold select_next_step. rewrite find_ready_nodes_eq. fold (candidates w completed last_outcome).
  destruct (check_completed w completed) as [[]|e] eqn:E; cbn [rbind].
  - pose proof (proj1 (check_completed_ok w completed) E) as Hk. destruct (candidates _ _ _); [done|].
    split_and!; [done..|]. destruct history; cbn; [by destruct (compute_attempt_and_fence _ _)|done].
  - apply check_completed_err in E as (n & -> & ? & ?). done.
Qed.

(** Selection on every branch: it fails with [UnknownCompletedNode] exactly when a
    completed name is not of the workflow, with [NoReadyNodes] when none is ready, and
    otherwise returns the first ready node in definition order, ready in the sense of
    the dependency resolver, numbered from the history; it never returns [Ok(None)]. In
    a validated workflow selection without an outcome filter fails with [NoReadyNodes]
    only when every node is completed. *)
Theorem select_next_step_correct w completed last_outcome history :
  valid_workflow (nodes w) (edges w) ->
  let r := select_next_step w completed last_outcome history in
  r <> Ok None /\
  ((exists n, r = Err (UnknownCompletedNode n)) <->
     exists n, n ∈ completed /\ n ∉ node_names (nodes w)) /\
  (forall s, r = Ok (Some s) ->
     head (candidates w completed last_outcome) = Some (next_step_id s) /\
     (next_attempt s, next_fence s)
       = from_option (compute_attempt_and_fence (next_step_id s)) (1, 1) history) /\
  (r = Err NoReadyNodes -> candidates w completed last_outcome = []) /\
  (last_outcome = None -> r = Err NoReadyNodes ->
     forall n, n ∈ node_names (nodes w) <-> n ∈ completed).
Proof.
  intros Hv r. pose proof (select_next_step_cases w completed last_outcome history) as H.
  fold r in H. clearbody r. split_and!.
  - by intros ->.
  - split; [intros (n & ->); by exists n|]. intros (n & Hn & Hnn).
    destruct r as [[s|]|[|m|]]; try done; [| |by eexists].
    all: by destruct H as [H _]; apply H in Hn.
  - intros s ->. apply H.
  - intros ->. apply H.
  - intros -> ->. destruct H as [Hk Hnil]. intros n. split; [|apply Hk].
    intros Hn. destruct (decide (n ∈ completed)) as [|Hnc]; [done|]. cbn in Hnil.
    by destruct (ready_nodes_exists w completed n (valid_acyclic _ _ Hv) (valid_closed _ _ Hv) Hn Hnc).
Qed.

(** ** Execution layers *)

Definition unassigned w (completed : list NodeName) : list NodeName :=
  base.filter (fun n => n ∉ completed) (node_names (nodes w)).

Lemma current_layer_ready w completed :
  current_layer w (unassigned w completed) (list_to_set completed) = ready_nodes w completed.
Proof.
  unfold current_layer, unassigned, ready_nodes, node_names.
  induction (nodes w) as [|x ns IH]; [done|]. csimpl. rewrite filter_cons.
  destruct (decide (node_name x ∈ (list_to_set completed : gset NodeName))) as [H|H];
    rewrite elem_of_list_to_set in H.
  - rewrite decide_False by naive_solver. exact IH.
  - rewrite decide_True by done. rewrite filter_cons. rewrite IH. by case_decide.
Qed.

Lemma assign_layer_eq layer remaining assigned :
  assign_layer layer remaining assigned
  = (base.filter (fun n => n ∉ layer) remaining, list_to_set layer ∪ assigned).
Proof.
  unfold assign_layer. revert remaining assigned.
  induction layer as [|x layer IH]; intros remaining assigned; cbn [fold_left fst snd].
  - f_equal; [|set_solver]. symmetry. apply filter_true. intros y. apply not_elem_of_nil.
  - rewrite IH. f_equal; [|set_solver]. rewrite list_filter_filter. apply list_filter_iff.
    intros y. set_solver.
Qed.

Lemma unassigned_app w completed layer :
  base.filter (fun n => n ∉ layer) (unassigned w completed) = unassigned w (completed ++ layer).
Proof. unfold unassigned. rewrite list_filter_filter. apply list_filter_iff. set_solver. Qed.

Lemma ready_nodes_NoDup w completed :
  NoDup (node_names (nodes w)) -> NoDup (ready_nodes w completed).
Proof.
  intros H. rewrite <- current_layer_ready. unfold current_layer, unassigned.
  by repeat apply NoDup_filter.
Qed.

Lemma layers_loop_spec fuel w completed :
  valid_workflow (nodes w) (edges w) -> NoDup completed ->
  (forall n, n ∈ completed -> n ∈ node_names (nodes w)) ->
  (length (unassigned w completed) <= fuel)%nat ->
  exists ls, layers_loop fuel w (unassigned w completed) (list_to_set completed) = Some ls /\
    completed ++ concat ls ≡ₚ node_names (nodes w) /\
    forall l1 L l2, ls = l1 ++ L :: l2 -> L <> [] /\ L = ready_nodes w (completed ++ concat l1).
Proof.
  intros Hv. pose proof (valid_unique _ _ Hv) as Hun. revert completed.
  induction fuel as [|fuel IH]; intros completed Hnd Hin Hfuel; cbn [layers_loop];
    (case_decide as Hrem; [exists []; split_and!; [done| |by intros []]|]).
  1,3: rewrite app_nil_r; apply NoDup_Permutation; [done..|]; intros n; split; [apply Hin|];
    intros Hn; destruct (decide (n ∈ completed)) as [|Hnc]; [done|];
    by destruct (not_elem_of_nil n); rewrite <- Hrem; apply list_elem_of_filter.
  { by destruct (unassigned w completed); [|cbn in Hfuel; lia]. }
  rewrite current_layer_ready. set (L := ready_nodes w completed).
  assert (L <> []) as HL.
  { destruct (unassigned w completed) as [|n l] eqn:E; [done|].
    assert (n ∈ unassigned w completed) as [Hnc Hn]%list_elem_of_filter by (rewrite E; left).
    apply (ready_nodes_exists w completed n); [apply Hv|apply Hv|done..]. }
  rewrite decide_False, assign_layer_eq by done. cbn [fst snd].
  rewrite unassigned_app, union_comm_L, <- list_to_set_app_L.
  destruct (IH (completed ++ L)) as (ls & -> & Hperm & Hord).
  - apply NoDup_app. split_and!; [done| |by apply ready_nodes_NoDup].
    intros n Hn (_ & Hnc & _)%ready_nodes_elem. done.
  - intros n [Hn|(Hn & _)%ready_nodes_elem]%elem_of_app; auto.
  - rewrite <- unassigned_app. unfold L in *.
    destruct (ready_nodes w completed) as [|x L'] eqn:E; [done|].
    assert (x ∈ unassigned w completed) as Hx.
    { assert (x ∈ ready_nodes w completed) as (? & ? & _)%ready_nodes_elem by (rewrite E; left).
      by apply list_elem_of_filter. }
    pose proof (length_filter_lt (fun n => n ∉ x :: L') (unassigned w completed) x Hx
      ltac:(set_solver)). lia.
  - exists (L :: ls). cbn [concat]. rewrite app_assoc. split_and!; [done..|].
    intros [|L1 l1] L2 l2 E; injection E as <- E; [by rewrite app_nil_r|].
    destruct (Hord _ _ _ E) as [? ->]. split; [done|]. cbn [concat]. by rewrite app_assoc.
Qed.

(** The execution layers of a validated workflow partition its nodes, each layer
    is non-empty and consists of exactly the nodes that are ready once all the layers
    before it have completed; the loop ends within one turn per node. *)
Theorem execution_layers_correct w :
  valid_workflow (nodes w) (edges w) ->
  concat (execution_layers w) ≡ₚ node_names (nodes w) /\
  forall l1 L l2, execution_layers w = l1 ++ L :: l2 ->
    L <> [] /\ L = ready_nodes w (concat l1).
Proof.
  intros Hv. destruct (layers_loop_spec (length (nodes w)) w [] Hv) as (ls & Hls & Hp & Ho).
  - constructor.
  - by intros n ?%not_elem_of_nil.
  - unfold unassigned. etrans; [apply length_filter|]. unfold node_names. by rewrite length_fmap.
  - unfold execution_layers.
    assert (unassigned w [] = node_names (nodes w)) as Hu.
    { apply filter_true. intros n. apply not_elem_of_nil. }
    rewrite Hu in Hls. cbn [list_to_set] in Hls. by rewrite Hls.
Qed.

(** ** Attempts and fences *)

Lemma iter_max_spec l x : x ∈ l -> exists m, iter_max l = Some m /\ x <= m /\ m ∈ l.
Proof.
  destruct l as [|y l]; [by intros ?%not_elem_of_nil|]. intros Hx. cbn.
  eexists; split; [done|].
  assert (forall l a, a <= fold_left Z.max l a /\ (forall z, z ∈ l -> z <= fold_left Z.max l a) /\
            fold_left Z.max l a ∈ a :: l) as H.
  { clear. induction l as [|b l IH]; intros a; cbn; [split_and!; [lia|set_solver|left]|].
    destruct (IH (Z.max a b)) as (H1 & H2 & H3). split_and!; [lia| |].
    - intros z [->|Hz]%elem_of_cons; [lia|auto].
    - apply elem_of_cons in H3 as [H3|H3]; [|by do 2 right].
      rewrite H3. destruct (Z.max_spec a b) as [[_ ->]|[_ ->]]; [right; left|left]. }
  destruct (H l y) as (H1 & H2 & H3). split; [|done].
  apply elem_of_cons in Hx as [->|Hx]; auto.
Qed.

(** The numbers of the next scheduling of a step are fresh: as long as the
    counters have room, they exceed every attempt and fence the history holds for it,
    and equal 1 when it holds none. At the top of its range the fence wraps to 0, below
    all earlier ones. *)
Theorem attempt_and_fence_fresh step h :
  (forall r, r ∈ records_for_step h step ->
     0 <= record_attempt r < u32_max /\ 0 <= record_fence r < u64_max) ->
  let af := compute_attempt_and_fence step h in
  (forall r, r ∈ history_records h -> record_step_id r = step ->
     record_attempt r < af.1 <= u32_max /\ record_fence r < af.2 <= u64_max) /\
  (records_for_step h step = [] -> af = (1, 1)) /\
  (forall a, 0 <= a < u32_max ->
     compute_attempt_and_fence step
       (mkExecutionHistory [mkStepSchedulingRecord step a u64_max]) = (a + 1, 0)).
Proof.
  intros Hr af. split_and!.
  - intros r Hin Hs. assert (r ∈ records_for_step h step) as Hrs by (by apply list_elem_of_filter).
    subst af. unfold compute_attempt_and_fence. rewrite decide_False by (intros E; rewrite E in Hrs;
      by apply not_elem_of_nil in Hrs).
    destruct (iter_max_spec (record_attempt <$> records_for_step h step) (record_attempt r))
      as (ma & -> & Ha & (ra & -> & Hra)%list_elem_of_fmap); [by apply list_elem_of_fmap_2|].
    destruct (iter_max_spec (record_fence <$> records_for_step h step) (record_fence r))
      as (mf & -> & Hf & (rf & -> & Hrf)%list_elem_of_fmap); [by apply list_elem_of_fmap_2|].
    destruct (Hr ra Hra), (Hr rf Hrf). cbn. unfold_u.
    rewrite !Z.mod_small by lia. lia.
  - intros E. subst af. unfold compute_attempt_and_fence. by rewrite decide_True.
  - intros a Ha. unfold compute_attempt_and_fence, records_for_step. cbn [history_records].
    rewrite filter_cons, filter_nil. cbn [record_step_id]. rewrite (decide_True (P := step = step)) by done.
    rewrite decide_False by done. cbn. unfold_u. rewrite Z.mod_small by lia. done.
Qed.

(** ** The selected step

    The documented meaning of selection, from the edges of the workflow. *)

(** [n] may run: it has not completed, and along every edge into it the source has
    completed and, when an outcome is given, the condition matches it. *)
Definition ready w (completed : list NodeName) (last_outcome : option StepOutcome)
    (n : NodeName) : Prop :=
  (n ∉ completed) /\
  forall e, e ∈ edges w -> target_node e = n ->
    source_node e ∈ completed /\
    match last_outcome with Some o => matches (condition e) o = true | None => True end.

(** [x] is the first element of [l] with [P]. *)
Definition first_in {A} (P : A -> Prop) (l : list A) (x : A) : Prop :=
  exists l1 l2, l = l1 ++ x :: l2 /\ P x /\ forall y, y ∈ l1 -> ~ P y.

Definition history_of (history : option ExecutionHistory) (n : NodeName)
  : list StepSchedulingRecord :=
  match history with Some h => records_for_step h n | None => [] end.

(** The attempt and fence of a scheduling: one more than the largest recorded for
    the step, [1] and [1] without a record. *)
Definition numbered_after (records : list StepSchedulingRecord) (attempt fence : Z) : Prop :=
  (records = [] /\ attempt = 1 /\ fence = 1) \/
  exists ra rf, ra ∈ records /\ rf ∈ records /\
    (forall r, r ∈ records ->
       record_attempt r <= record_attempt ra /\ record_fence r <= record_fence rf) /\
    attempt = record_attempt ra + 1 /\ fence = record_fence rf + 1.

(** No recorded number is the last of its type, so that one more exists. *)
Definition history_in_range (history : option ExecutionHistory) : Prop :=
  forall n r, r ∈ history_of history n ->
    0 <= record_attempt r < u32_max /\ 0 <= record_fence r < u64_max.

Lemma numbered_after_unique records a f a' f' :
  numbered_after records a f -> numbered_after records a' f' -> a = a' /\ f = f'.
Proof.
  intros [(-> & -> & ->)|(ra & rf & Hra & Hrf & Hm & -> & ->)]
    [(E & -> & ->)|(ra' & rf' & Hra' & Hrf' & Hm' & -> & ->)]; try subst; try done.
  1,2: set_solver.
  pose proof (Hm _ Hra'). pose proof (Hm _ Hrf'). pose proof (Hm' _ Hra). pose proof (Hm' _ Hrf). lia.
Qed.

Lemma compute_numbered n history :
  history_in_range history ->
  let af := from_option (compute_attempt_and_fence n) (1, 1) history in
  numbered_after (history_of history n) af.1 af.2.
Proof.
  intros Hr. specialize (Hr n). destruct history as [h|]; cbn in *; [|by left].
  unfold compute_attempt_and_fence. case_decide as Hnil; [by left|]. right.
  destruct (records_for_step h n) as [|r0 rs] eqn:E; [done|]. rewrite <- E in *.
  assert (r0 ∈ records_for_step h n) as H0 by (rewrite E; left).
  destruct (iter_max_spec (record_attempt <$> records_for_step h n) (record_attempt r0))
    as (ma & Ema & _ & (ra & -> & Hra)%list_elem_of_fmap); [by apply list_elem_of_fmap_2|].
  destruct (iter_max_spec (record_fence <$> records_for_step h n) (record_fence r0))
    as (mf & Emf & _ & (rf & -> & Hrf)%list_elem_of_fmap); [by apply list_elem_of_fmap_2|].
  rewrite Ema, Emf. exists ra, rf. split_and!; [done..| | |].
  - intros r Hrr.
    destruct (iter_max_spec (record_attempt <$> records_for_step h n) (record_attempt r))
      as (ma & Ea & ? & _); [by apply list_elem_of_fmap_2|].
    destruct (iter_max_spec (record_fence <$> records_for_step h n) (record_fence r))
      as (mf & Ef & ? & _); [by apply list_elem_of_fmap_2|]. simplify_eq. done.
  - pose proof (Hr _ Hra). cbn. unfold_u. rewrite Z.mod_small; lia.
  - pose proof (Hr _ Hrf). cbn. unfold_u. rewrite Z.mod_small; lia.
Qed.

Lemma find_ready_node w completed last_outcome n :
  (if decide (n ∈ (list_to_set completed : gset NodeName)) then None
   else if decide (~ Forall (fun dep => dep ∈ (list_to_set completed : gset NodeName))
                       (dependencies w n)) then None
   else match last_outcome with
   | Some outcome =>
       if decide (incoming w n <> []) then
         if decide (Forall (fun edge => source_node edge ∈ (list_to_set completed : gset NodeName) /\
                                        matches (condition edge) outcome = true)
                      (incoming w n)) then Some n
         else None
       else Some n
   | None => Some n
   end) = Some n <-> ready w completed last_outcome n.
Proof.
  set (C := list_to_set completed : gset NodeName).
  assert (forall x, x ∈ C <-> x ∈ completed) as HC by (intros x; apply elem_of_list_to_set).
  unfold ready. rewrite <- (HC n). setoid_rewrite <- HC.
  destruct (decide (n ∈ C)) as [Hn|Hn]; [by split; [|tauto]|].
  destruct (decide (~ Forall _ (dependencies w n))) as [Hd|Hd].
  { split; [done|]. intros [_ He]. destruct Hd. apply incoming_deps, Forall_forall.
    intros e [? ?]%incoming_spec. by apply He. }
  apply dec_stable, incoming_deps in Hd. rewrite Forall_forall in Hd.
  setoid_rewrite incoming_spec in Hd. destruct last_outcome as [o|].
  2: { split; [|done]. intros _. split; [done|]. intros e He Ht. split; [|done]. by apply Hd. }
  destruct (decide (incoming w n <> [])) as [Hne|He].
  - destruct (decide (Forall _ (incoming w n))) as [Hf|Hf].
    + rewrite Forall_forall in Hf. setoid_rewrite incoming_spec in Hf. split; [|done].
      intros _. split; [done|]. intros e He Ht. by apply Hf.
    + split; [done|]. intros [_ He]. destruct Hf. apply Forall_forall.
      intros e [? ?]%incoming_spec. by apply He.
  - apply dec_stable in He. split; [|done]. intros _. split; [done|]. intros e Hin Ht.
    assert (e ∈ incoming w n) as H by (by apply incoming_spec). rewrite He in H. set_solver.
Qed.

Lemma head_omap {A B} (f : A -> option B) (l : list A) y :
  head (omap f l) = Some y <-> exists x, first_in (fun x => f x <> None) l x /\ f x = Some y.
Proof.
  split.
  - induction l as [|z l IH]; csimpl; [done|]. destruct (f z) as [b|] eqn:E; cbn.
    + intros [= ->]. exists z. split; [|done]. exists [], l. split_and!; [done|congruence|set_solver].
    + intros (x & (l1 & l2 & -> & Hx & Hl) & Hy)%IH. exists x. split; [|done].
      exists (z :: l1), l2. split_and!; [done..|]. intros u [->|Hu]%elem_of_cons; [tauto|by apply Hl].
  - intros (x & (l1 & l2 & -> & _ & Hl) & Hy). induction l1 as [|z l1 IH]; csimpl; [by rewrite Hy|].
    assert (f z = None) as -> by (apply dec_stable, Hl; left). apply IH. intros u Hu. apply Hl. by right.
Qed.

Lemma find_ready_first w completed last_outcome n :
  head (find_ready_nodes w completed last_outcome) = Some n <->
  first_in (ready w completed last_outcome) (node_names (nodes w)) n.
Proof.
  unfold find_ready_nodes. cbv zeta.
  match goal with |- context [omap ?g _] => set (f := g) end. rewrite head_omap.
  assert (forall x, f x = Some (node_name x) <-> ready w completed last_outcome (node_name x)) as Hf
    by (intros x; apply find_ready_node).
  assert (forall x y, f x = Some y -> y = node_name x) as Hname.
  { intros x y. unfold f. destruct last_outcome; repeat case_decide; congruence. }
  assert (forall x, f x <> None <-> ready w completed last_outcome (node_name x)) as Hn.
  { intros x. rewrite <- Hf. split; [|congruence]. destruct (f x) as [y|] eqn:E; [|done].
    intros _. by rewrite (Hname _ _ E). }
  unfold node_names. clearbody f. split.
  - intros (x & (l1 & l2 & -> & Hx & Hl) & Hy). rewrite (Hname _ _ Hy).
    exists (node_name <$> l1), (node_name <$> l2). rewrite fmap_app. split_and!; [done|by apply Hn|].
    intros y (z & -> & Hz)%list_elem_of_fmap. rewrite <- Hn. by apply Hl.
  - intros (l1 & l2 & E & Hr & Hl).
    apply fmap_app_inv in E as (k1 & k2 & -> & E & ->). symmetry in E.
    apply fmap_cons_inv in E as (x & k3 & -> & -> & ->).
    exists x. split; [|by apply Hf]. exists k1, k3. split_and!; [done|by apply Hn|].
    intros y Hy. rewrite Hn. apply Hl. by apply list_elem_of_fmap_2.
Qed.

Lemma check_completed_first w completed n :
  check_completed w completed = Err (UnknownCompletedNode n) <->
  first_in (fun m => m ∉ node_names (nodes w)) completed n.
Proof.
  split.
  - induction completed as [|x l IH]; cbn; [done|]. pose proof (get_node_elem w x) as Hx.
    destruct (get_node w x) as [y|].
    + intros (l1 & l2 & -> & Hn & Hl)%IH. exists (x :: l1), l2. split_and!; [done..|].
      intros z [->|Hz]%elem_of_cons; [|by apply Hl]. intros H. apply H, Hx. by eexists.
    + intros [= ->]. exists [], l. split_and!; [done| |set_solver]. intros [? ?]%Hx. done.
  - intros (l1 & l2 & -> & Hn & Hl). induction l1 as [|x l1 IH]; cbn.
    + destruct (get_node w n) as [y|] eqn:E; [|done]. destruct Hn. apply get_node_elem. by rewrite E.
    + assert (is_Some (get_node w x)) as [y ->].
      { apply get_node_elem. apply dec_stable. apply Hl. left. }
      apply IH. intros z Hz. apply Hl. by right.
Qed.

(** C4. Selection, for any completed nodes, outcome and history with numbers left to
    give: a step is selected exactly when all completed names are nodes of the workflow
    and some node is ready (not completed, along every edge into it the source
    completed and the condition matching the outcome given, if any); it is the first
    such node in definition order, with the attempt and the fence that follow the
    largest recorded for it. [UnknownCompletedNode] names the first completed name that
    is not a node, and occurs exactly when there is one. In a validated workflow, when
    no outcome is given and some node has not completed, a step is selected. *)
Theorem select_next_step_first_ready w completed last_outcome history :
  valid_workflow (nodes w) (edges w) -> history_in_range history ->
  let r := select_next_step w completed last_outcome history in
  let known := forall n, n ∈ completed -> n ∈ node_names (nodes w) in
  (forall s, r = Ok (Some s) <->
     known /\ first_in (ready w completed last_outcome) (node_names (nodes w)) (next_step_id s) /\
     numbered_after (history_of history (next_step_id s)) (next_attempt s) (next_fence s)) /\
  (forall n, r = Err (UnknownCompletedNode n) <->
     first_in (fun m => m ∉ node_names (nodes w)) completed n) /\
  (last_outcome = None -> known -> (exists n, n ∈ node_names (nodes w) /\ n ∉ completed) ->
     exists s, r = Ok (Some s)).
Proof.
  intros Hv Hh r known. subst r known.
  unfold select_next_step. split_and!.
  - intros s. rewrite <- find_ready_first, <- check_completed_ok.
    destruct (check_completed w completed) as [[]|] eqn:Ec; cbn [rbind]; [|split; [done|by intros [? _]]].
    destruct (find_ready_nodes w completed last_outcome) as [|n l]; cbn [head]; [by split; [|intros (_ & ? & _)]|].
    pose proof (compute_numbered n history Hh) as Hn. split.
    + intros [= <-]. cbn. split_and!; [done..|]. by destruct history.
    + destruct s as [n' a f]; cbn. intros (_ & [= <-] & Hs).
      destruct (numbered_after_unique _ _ _ _ _ Hs Hn) as [-> ->]. by destruct history.
  - intros n. rewrite <- check_completed_first.
    destruct (check_completed w completed) as [[]|] eqn:Ec; cbn [rbind]; [|naive_solver].
    by destruct (find_ready_nodes w completed last_outcome).
  - intros -> Hk%check_completed_ok (n & Hn & Hnc). rewrite Hk. cbn [rbind]. rewrite find_ready_nodes_eq.
    pose proof (ready_nodes_exists w completed n (valid_acyclic _ _ Hv) (valid_closed _ _ Hv) Hn Hnc).
    destruct (ready_nodes w completed); [done|]. by eexists.
Qed.

(** ** Fan-in *)

Lemma traversed_sources_elem log target s :
  s ∈ traversed_sources log target <->
  exists e, e ∈ log_records log /\ traversed_source e = s /\ traversed_target e = target.
Proof.
  unfold traversed_sources.
  enough (forall l acc, s ∈ fold_left (fun sources edge =>
    if decide (traversed_target edge = target /\ traversed_source edge ∉ sources)
    then sources ++ [traversed_source edge] else sources) l acc <->
    s ∈ acc \/ exists e, e ∈ l /\ traversed_source e = s /\ traversed_target e = target) as H
    by (rewrite H; set_solver).
  induction l as [|e l IH]; intros acc; cbn [fold_left]; [set_solver|]. rewrite IH.
  destruct (decide (traversed_target e = target)) as [Ht|Ht];
    [destruct (decide (traversed_source e ∈ acc)) as [Hs|Hs]|].
  - rewrite decide_False by naive_solver. set_solver.
  - rewrite decide_True by done. set_solver.
  - rewrite decide_False by naive_solver. set_solver.
Qed.

Lemma last_position_last log s t l1 e l2 :
  log_records log = l1 ++ e :: l2 -> traversed_target e = t ->
  Forall (fun x => traversed_target x <> t) l2 ->
  match last_position log s t with
  | Some k => if decide (s = traversed_source e) then k = length l1 else (k < length l1)%nat
  | None => s <> traversed_source e
  end.
Proof.
  intros Hl Ht Hl2. unfold last_position. rewrite Hl, reverse_app, reverse_cons, <- app_assoc.
  set (Q := fun x => traversed_source x = s /\ traversed_target x = t).
  assert (list_find Q (reverse l2) = None) as Hnone.
  { apply list_find_None, Forall_forall. intros x Hx [_ Hq].
    rewrite Forall_forall in Hl2. rewrite elem_of_reverse in Hx. by apply (Hl2 x). }
  rewrite (list_find_app_r _ _ _ Hnone). cbn [app list_find].
  case_decide as Hq.
  - destruct Hq as [Hq _]. cbn. rewrite (decide_True (P := s = traversed_source e)) by done.
    rewrite length_app, length_reverse. cbn. lia.
  - destruct (list_find Q (reverse l1)) as [[i x]|] eqn:E; cbn; [|unfold Q in Hq; naive_solver].
    rewrite decide_False by (unfold Q in Hq; naive_solver).
    apply list_find_Some in E as (Hi%lookup_lt_Some & _ & _).
    rewrite length_app, length_reverse in *. cbn. lia.
Qed.

Lemma better_fold log t sources s k (best : option NodeName * nat) :
  last_position log s t = Some k ->
  (forall x j, x ∈ sources -> x <> s -> last_position log x t = Some j -> (j < k)%nat) ->
  best = (Some s, k) \/ (s ∈ sources /\ (best.1 = None \/ (best.2 < k)%nat)) ->
  (fold_left (better log t) sources best).1 = Some s.
Proof.
  intros Hs. revert best. induction sources as [|x l IH]; intros best Hlt Hbest; cbn [fold_left].
  { destruct Hbest as [->|[Hin _]]; [done|by apply not_elem_of_nil in Hin]. }
  apply IH; [set_solver|]. unfold better.
  destruct (decide (x = s)) as [->|Hne].
  - rewrite Hs. left. destruct Hbest as [->|[_ [->|Hb]]]; cbn [fst snd]; [|done|].
    + by rewrite Nat.ltb_irrefl.
    + destruct (best.1); [|done]. by rewrite (proj2 (Nat.ltb_lt _ _)).
  - destruct (last_position log x t) as [j|] eqn:Hj; [|set_solver].
    assert (j < k)%nat as Hjk by (eapply (Hlt x); [left|done..]).
    destruct Hbest as [->|[Hin Hb]]; cbn [fst snd].
    + left. by rewrite (proj2 (Nat.ltb_ge _ _)) by lia.
    + right. split; [set_solver|]. destruct (best.1) eqn:E; cbn [fst snd]; [|by right].
      destruct (best.2 <? j)%nat; [by right|]. rewrite E. destruct Hb; [done|by right].
Qed.

(** The source whose output feeds a fan-in node is the source of the last
    traversal recorded into it, whatever else the log holds and however often its
    edges were retried; there is none exactly when the node was never reached. *)
Theorem select_fan_in_source_latest target log :
  select_fan_in_source target log = traversed_source <$> last (traversed_to log target).
Proof.
  unfold select_fan_in_source, traversed_to.
  pose proof (traversed_sources_elem log target) as Hel.
  destruct (last (base.filter _ (log_records log))) as [e|] eqn:Hlast.
  - apply filter_last_Some in Hlast as (l1 & l2 & Hl & Ht & Hl2).
    assert (traversed_source e ∈ traversed_sources log target) as Hin
      by (apply Hel; exists e; rewrite Hl; split_and!; [set_solver|done..]).
    pose proof (fun s => last_position_last log s target l1 e l2 Hl Ht Hl2) as Hpos.
    destruct (traversed_sources log target) as [|s1 [|s2 rest]] eqn:E.
    + by apply not_elem_of_nil in Hin.
    + by apply list_elem_of_singleton in Hin as <-.
    + cbn [fmap option_fmap option_map]. apply (better_fold _ _ _ _ (length l1)).
      * specialize (Hpos (traversed_source e)). destruct (last_position _ _ _); [|done].
        rewrite decide_True in Hpos by done. by subst.
      * intros x j _ Hne Hj. specialize (Hpos x). by rewrite Hj, decide_False in Hpos.
      * right. split; [done|by left].
  - destruct (traversed_sources log target) as [|s ss]; [done|]. exfalso.
    destruct (proj1 (Hel s) (list_elem_of_here _ _)) as (e & He & _ & Ht).
    apply last_None in Hlast. apply (not_elem_of_nil e). rewrite <- Hlast.
    by apply list_elem_of_filter.
Qed.

(** ** Fan-in selection *)

Lemma parents_elem m n : n ∈ parents m <-> is_Some (outcomes m !! n).
Proof.
  unfold parents. rewrite list_elem_of_fmap. split.
  - intros ([k o] & -> & H%elem_of_map_to_list). by exists o.
  - intros [o H]. exists (n, o). by rewrite elem_of_map_to_list.
Qed.

Lemma find_ready_nodes_fan_in_elem w m n :
  n ∈ find_ready_nodes_fan_in w m <->
  n ∈ node_names (nodes w) /\ outcomes m !! n = None /\
  forall e, e ∈ edges w -> target_node e = n ->
    exists o, outcomes m !! source_node e = Some o /\ matches (condition e) o = true.
Proof.
  unfold find_ready_nodes_fan_in, node_names.
  rewrite list_elem_of_omap, list_elem_of_fmap. split.
  - intros (x & Hx & H).
    case_decide as H1; [done|]. apply eq_None_not_Some in H1.
    case_decide as H2.
    { injection H as <-. split_and!; [by eauto|done|]. intros e He Ht. exfalso.
      apply (not_elem_of_nil e). rewrite <- H2. by apply incoming_spec. }
    case_decide as H3; [done|]. case_decide as H4; [|done]. injection H as <-.
    split_and!; [by eauto|done|]. intros e He Ht. rewrite Forall_forall in H4.
    specialize (H4 e (proj2 (incoming_spec _ _ _) (conj He Ht))).
    destruct (outcomes m !! source_node e) as [o|]; [by exists o|done].
  - intros ((x & -> & Hx) & H1 & H2). exists x. split; [done|].
    rewrite decide_False by (by rewrite H1; intros []). case_decide as H3; [done|].
    rewrite decide_False.
    + rewrite decide_True; [done|]. apply Forall_forall. intros e [He Ht]%incoming_spec.
      by destruct (H2 e He Ht) as (o & -> & ?).
    + intros H. apply H, Forall_forall. intros e [He Ht]%incoming_spec.
      destruct (H2 e He Ht) as (o & -> & ?). by eexists.
Qed.

Lemma fan_in_uniform w m o :
  (forall p x, outcomes m !! p = Some x -> x = o) ->
  find_ready_nodes_fan_in w m = ready_nodes_for_outcome w (parents m) o.
Proof.
  intros Hall. unfold find_ready_nodes_fan_in, ready_nodes_for_outcome.
  apply omap_ext_in. intros x _.
  assert (forall n, n ∈ (list_to_set (parents m) : gset NodeName) <-> is_Some (outcomes m !! n))
    as Hp by (intros n; by rewrite elem_of_list_to_set, parents_elem).
  rewrite (decide_ext _ _ _ _ (Hp (node_name x))). case_decide; [done|]. case_decide; [done|].
  case_decide as H3.
  - rewrite decide_False; [done|]. intros Hf. apply H3. eapply Forall_impl; [exact Hf|].
    intros e [He _]. by apply Hp.
  - apply decide_ext, Forall_iff. intros e. rewrite Hp.
    destruct (outcomes m !! source_node e) as [y|] eqn:Hy.
    + rewrite (Hall _ _ Hy). split; [by eauto|by intros [_ ?]].
    + split; [done|]. by intros [[] _].
Qed.

(** Fan-in selection: a node is ready when it has no outcome and every incoming
    edge comes from a node whose own outcome satisfies the edge's condition; when all
    recorded outcomes are the same, the selection agrees with [select_next_step] for
    that outcome, errors included. *)
Theorem fan_in_selection w m :
  (forall n, n ∈ find_ready_nodes_fan_in w m <->
     n ∈ node_names (nodes w) /\ outcomes m !! n = None /\
     forall e, e ∈ edges w -> target_node e = n ->
       exists o, outcomes m !! source_node e = Some o /\ matches (condition e) o = true) /\
  (forall o, (forall p x, outcomes m !! p = Some x -> x = o) ->
     select_next_step_with_fan_in w m = select_next_step w (parents m) (Some o) None).
Proof.
  split; [apply find_ready_nodes_fan_in_elem|]. intros o Hall.
  unfold select_next_step_with_fan_in, select_next_step.
  rewrite find_ready_nodes_eq, (fan_in_uniform w m o Hall).
  destruct (check_completed w (parents m)); [|done]. cbn [rbind].
  by destruct (ready_nodes_for_outcome _ _ _).
Qed.

(** ** Transitive dependencies *)

Section Transitive.
Context (direct : NodeName -> list NodeName) (start : NodeName) (universe : gset NodeName).
Hypothesis direct_closed : forall x y, y ∈ direct x -> y ∈ universe.

Local Definition D (x y : NodeName) : Prop := y ∈ direct x.

(** Some name is reached a second time. *)
Definition clash : Prop :=
  tc D start start \/ (exists x, ~ NoDup (direct x)) \/
  exists x y d, x <> y /\ D x d /\ D y d.

(** The start and the results are what was visited, all of it reachable; every result
    is a direct dependency of a node that satisfies [parent]. *)
Record trans_inv (parent : NodeName -> NodeName -> Prop)
    (visited : gset NodeName) (result queue : list NodeName) : Prop := {
  ti_visited : forall x, x ∈ visited <-> x = start \/ x ∈ result;
  ti_nodup : NoDup (start :: result);
  ti_sound : forall x, x ∈ result -> tc D start x;
  ti_queue : forall x, x ∈ queue -> x ∈ visited;
  ti_queue_nodup : NoDup queue;
  ti_parent : forall x, x ∈ result -> exists p, p ∈ visited /\ (p ∉ queue) /\ D p x /\ parent p x;
}.

Lemma trans_inv_reach parent visited result queue x :
  trans_inv parent visited result queue -> x ∈ visited -> rtc D start x.
Proof.
  intros Hinv [->|Hx]%(ti_visited _ _ _ _ Hinv); [done|]. by apply tc_rtc, (ti_sound _ _ _ _ Hinv).
Qed.

(** Adding a new dependency of an expanded node. *)
Lemma trans_inv_push (parent parent' : NodeName -> NodeName -> Prop) visited result queue p d :
  trans_inv parent visited result queue -> d ∉ visited -> p ∈ visited -> p ∉ queue -> D p d ->
  parent' p d -> (forall q x, parent q x -> parent' q x) ->
  trans_inv parent' ({[d]} ∪ visited) (result ++ [d]) (queue ++ [d]).
Proof.
  intros Hinv Hd Hp Hpq Hpd Hpar Hmono.
  pose proof (trans_inv_reach _ _ _ _ _ Hinv Hp) as Hreach.
  destruct Hinv as [Hvis Hnd Hs Hq Hqn Hpa]. split.
  - intros x. rewrite elem_of_union, elem_of_singleton, Hvis, elem_of_app, list_elem_of_singleton.
    tauto.
  - rewrite app_comm_cons. apply NoDup_app. split_and!; [done| |apply NoDup_singleton].
    intros x Hx ->%list_elem_of_singleton. apply Hd, Hvis. by apply elem_of_cons in Hx.
  - intros x [Hx| ->%list_elem_of_singleton]%elem_of_app; [by apply Hs|].
    eapply tc_rtc_l; [done|by apply tc_once].
  - intros x. set_solver.
  - apply NoDup_app. split_and!; [done| |apply NoDup_singleton]. set_solver.
  - intros x [Hx| ->%list_elem_of_singleton]%elem_of_app.
    + destruct (Hpa x Hx) as (q & ? & ? & ? & ?). exists q. split_and!; [set_solver..|done|auto].
    + exists p. split_and!; [set_solver..|done|done].
Qed.

Lemma visit_deps_spec current handled deps visited result queue :
  direct current = handled ++ deps -> current ∈ visited -> current ∉ queue ->
  trans_inv (fun p x => p <> current \/ x ∈ handled) visited result queue ->
  match visit_deps deps visited result queue with
  | None => clash
  | Some (visited', result', queue') =>
      trans_inv (fun _ _ => True) visited' result' queue' /\
      (forall x, x ∈ visited' <-> x ∈ visited \/ x ∈ deps) /\
      (forall x, x ∈ queue -> x ∈ queue') /\
      (forall x, x ∈ visited' -> x ∈ visited \/ x ∈ queue') /\
      (length queue' + size (universe ∖ visited') = length queue + size (universe ∖ visited))%nat
  end.
Proof.
  revert handled visited result queue.
  induction deps as [|d deps IH]; intros handled visited result queue Hdir Hc Hcq Hinv;
    cbn [visit_deps].
  { split_and!; [|set_solver..|done]. destruct Hinv as [? ? ? ? ? Hp]. split; try done.
    intros x (p & ? & ? & ? & _)%Hp. by exists p. }
  assert (D current d) as HD by (unfold D; rewrite Hdir; set_solver).
  case_decide as Hv.
  { apply (ti_visited _ _ _ _ Hinv) in Hv as [->|Hres].
    - left. eapply tc_rtc_l; [by eapply trans_inv_reach|by apply tc_once].
    - destruct (ti_parent _ _ _ _ Hinv d Hres) as (p & _ & _ & Hpd & [Hne|Hh]).
      + right; right. by exists p, current, d.
      + right; left. exists current. rewrite Hdir. intros (_ & H & _)%NoDup_app.
        apply (H d Hh). left. }
  assert (trans_inv (fun p x => p <> current \/ x ∈ handled ++ [d])
            ({[d]} ∪ visited) (result ++ [d]) (queue ++ [d])) as Hinv'.
  { eapply trans_inv_push; [done|done|exact Hc|done|done| |].
    - right. set_solver.
    - intros q x [?|?]; [by left|right; set_solver]. }
  specialize (IH (handled ++ [d]) ({[d]} ∪ visited) (result ++ [d]) (queue ++ [d])
    ltac:(by rewrite <- app_assoc) ltac:(set_solver) ltac:(set_solver) Hinv').
  destruct (visit_deps _ _ _ _) as [[[visited' result'] queue']|]; [|done].
  destruct IH as (H1 & H2 & H3 & H4 & H5). split_and!; [done|set_solver..| |].
  - intros x Hx. destruct (H4 x Hx) as [[->%elem_of_singleton|?]%elem_of_union|?]; [|by left|by right].
    right. apply H3. set_solver.
  - rewrite H5, length_app. cbn [length].
    rewrite (size_difference_step universe visited d); [lia|by eapply direct_closed|done].
Qed.

Definition complete (r : list NodeName) : Prop :=
  NoDup r /\ forall x, x ∈ r <-> x <> start /\ tc D start x.

Lemma transitive_loop_spec fuel visited result queue :
  trans_inv (fun _ _ => True) visited result queue ->
  (forall x y, x ∈ visited -> x ∉ queue -> D x y -> y ∈ visited) ->
  (length queue + size (universe ∖ visited) <= fuel)%nat ->
  exists r, transitive_loop fuel direct visited result queue = Some r /\
    (complete r \/ (r = [] /\ clash)).
Proof.
  revert visited result queue.
  induction fuel as [|fuel IH]; intros visited result queue Hinv Hexp Hfuel;
    destruct queue as [|c q _] using rev_ind; cbn [transitive_loop].
  1,3: exists result; split; [done|]; left; destruct Hinv as [Hvis Hnd Hs _ _ _];
    apply NoDup_cons in Hnd as [Hstart Hnd]; (split; [done|]); intros x; split;
    [intros Hx; split; [by intros ->|by apply Hs]|]; intros [Hne Hx];
    (assert (x ∈ visited) as [?|?]%Hvis; [|done|done]);
    (assert (forall a b, rtc D a b -> a ∈ visited -> b ∈ visited) as Hcl
      by (induction 1 as [|a b z Hab _ IHr]; [done|]; intros Ha; apply IHr;
          by apply (Hexp a); [|apply not_elem_of_nil|]));
    apply (Hcl start); [by apply tc_rtc|by apply Hvis; left].
  { rewrite length_app in Hfuel. cbn in Hfuel. lia. }
  rewrite last_snoc, removelast_last.
  assert (NoDup (q ++ [c])) as Hqn by apply Hinv.
  apply NoDup_app in Hqn as (Hq & Hqc & _).
  assert (c ∉ q) as Hcq by (intros Hc; apply (Hqc c Hc); left).
  assert (c ∈ visited) as Hc by (apply (ti_queue _ _ _ _ Hinv); set_solver).
  assert (trans_inv (fun p x => p <> c \/ x ∈ []) visited result q) as Hinv'.
  { destruct Hinv as [? ? ? Hqv ? Hp]. split; try done; [set_solver|].
    intros x (p & ? & ? & ? & _)%Hp. exists p. split_and!; [done|set_solver|done|left; set_solver]. }
  pose proof (visit_deps_spec c [] (direct c) visited result q eq_refl Hc Hcq Hinv') as Hvd.
  destruct (visit_deps _ _ _ _) as [[[visited' result'] queue']|]; [|exists []; by auto].
  destruct Hvd as (H1 & H2 & H3 & H4 & H5). apply IH; [done| |].
  - intros x y Hx Hxq Hxy. destruct (H4 x Hx) as [Hxv|?]; [|done]. apply H2.
    destruct (decide (x = c)) as [->|Hne]; [by right|]. left. apply (Hexp x); [done| |done].
    intros [?|?%list_elem_of_singleton]%elem_of_app; [by apply Hxq, H3|done].
  - rewrite length_app in Hfuel. cbn in Hfuel. lia.
Qed.

Lemma transitive_search fuel :
  (size universe < fuel)%nat ->
  exists r, transitive_loop fuel direct {[start]} [] [start] = Some r /\
    (complete r \/ (r = [] /\ clash)).
Proof.
  intros Hfuel. apply transitive_loop_spec.
  - split; try (by intros x ?%not_elem_of_nil).
    + set_solver.
    + apply NoDup_singleton.
    + set_solver.
    + apply NoDup_singleton.
  - set_solver.
  - cbn [length]. pose proof (subseteq_size (universe ∖ {[start]}) universe ltac:(set_solver)). lia.
Qed.
End Transitive.

(** The diamond [a -> b, a -> c, b -> d, c -> d]. *)
Definition diamond (wname : WorkflowName) (v : V) : WorkflowDefinition V :=
  mkWorkflowDefinition wname WorkflowWitness.diamond_nodes WorkflowWitness.diamond_edges v.

(** The transitive dependencies of a node, within the fuel of one turn per edge:
    in an acyclic workflow without repeated sources the search returns all of them,
    each once; when some node is the source of two edges it may instead return nothing
    at all, because it takes the second encounter for a cycle. In the diamond
    [a -> b, c -> d] the last node is reported to have no transitive dependencies. *)
Theorem transitive_dependencies_correct w n :
  acyclic (edges w) ->
  let r := transitive_dependencies w n in
  let all_dependencies := NoDup r /\ forall x, x ∈ r <-> tc (linked (edges w)) x n in
  (r = [] \/ all_dependencies) /\
  (NoDup (source_node <$> edges w) -> all_dependencies) /\
  (forall wname v, let w := diamond wname v in
     transitive_dependencies w (mkNodeName "d") = [] /\
     tc (linked (edges w)) (mkNodeName "a") (mkNodeName "d")).
Proof.
  intros Ha r alld.
  assert (forall x y, D (dependencies w) x y <-> flip (linked (edges w)) x y) as HD
    by (intros; apply dependencies_spec).
  assert (forall x y, tc (D (dependencies w)) x y <-> tc (linked (edges w)) y x) as Htc.
  { intros x y. rewrite <- tc_flip. split; apply tc_congruence with (f := id); intros ? ?; apply HD. }
  destruct (transitive_search (dependencies w) n (list_to_set (source_node <$> edges w)))
    with (fuel := S (length (edges w))) as (r' & Hr & Hcase).
  { intros x y (e & He & <- & _)%HD. apply elem_of_list_to_set. by apply list_elem_of_fmap_2. }
  { pose proof (size_list_to_set_le (source_node <$> edges w)) as Hle.
    rewrite length_fmap in Hle. lia. }
  assert (r = r') as Hrr by (unfold r, transitive_dependencies; by rewrite Hr).
  assert (complete (dependencies w) n r' -> alld) as Hcomp.
  { intros [Hnd Hx]. unfold alld. rewrite Hrr. split; [done|]. intros x. rewrite Hx, Htc.
    split; [tauto|]. intros H. split; [|done]. intros ->. by apply (Ha n). }
  split_and!.
  - destruct Hcase as [Hc|[-> _]]; [right; by apply Hcomp|by left].
  - intros Hnd. apply Hcomp. destruct Hcase as [Hc|[_ Hclash]]; [done|]. exfalso.
    assert (forall x y d, D (dependencies w) x d -> D (dependencies w) y d -> x = y) as Huniq.
    { intros x y d (e1 & H1 & Hs1 & <-)%HD (e2 & H2 & Hs2 & <-)%HD.
      apply list_elem_of_lookup in H1 as [i Hi], H2 as [j Hj].
      assert (i = j) as -> by (apply (NoDup_lookup _ i j d Hnd); rewrite list_lookup_fmap;
        [rewrite Hi|rewrite Hj]; cbn; congruence). by simplify_eq. }
    destruct Hclash as [Hcyc|[(x & Hx)|(x & y & d & Hne & Hx & Hy)]].
    + apply Htc in Hcyc. by apply (Ha n).
    + apply Hx. unfold dependencies. eapply sublist_NoDup; [exact Hnd|].
      apply fmap_sublist, sublist_filter.
    + by apply Hne, (Huniq x y d).
  - intros wname v. split.
    + vm_compute. reflexivity.
    + eapply tc_l; [|apply tc_once].
      * exists (WorkflowWitness.arrow "a" "b"). split; [left|done].
      * exists (WorkflowWitness.arrow "b" "d"). split; [right; right; left|done].
Qed.
End Proofs.

(** ** The theorems at concrete workflows *)

Module SelectionWitness.
Import WorkflowWitness.

Definition w : WorkflowDefinition unit := diamond (mkWorkflowName "w") tt.

Lemma ready_nodes_progress_witness :
  valid_workflow (nodes w) (edges w) /\ ready_nodes w [name "a"] = [name "b"; name "c"] /\
  ready_nodes w [name "a"] <> [].
Proof.
  split; [exact diamond_valid|]. split; [vm_compute; reflexivity|].
  intros H. pose proof (proj1 (proj2 (ready_nodes_progress w [name "a"] diamond_valid)) H (name "b"))
    as Hb.
  assert (name "b" ∈ [name "a"]) as Hin by (apply Hb; right; left).
  by apply list_elem_of_singleton in Hin.
Defined.

Lemma select_next_step_correct_witness :
  select_next_step w [name "a"] (Some Success) None = Ok (Some (mkNextStep (name "b") 1 1)) /\
  head (candidates w [name "a"] (Some Success)) = Some (name "b").
Proof.
  assert (select_next_step w [name "a"] (Some Success) None
            = Ok (Some (mkNextStep (name "b") 1 1))) as H by (vm_compute; reflexivity).
  split; [exact H|].
  pose proof (select_next_step_correct w [name "a"] (Some Success) None diamond_valid)
    as (_ & _ & Hs & _).
  exact (proj1 (Hs _ H)).
Defined.

(** The second attempt of [b], after [a] succeeded. *)
Definition retried : option ExecutionHistory :=
  Some (mkExecutionHistory [mkStepSchedulingRecord (name "a") 1 7;
                            mkStepSchedulingRecord (name "b") 1 9]).

Lemma select_next_step_first_ready_witness :
  first_in (ready w [name "a"] (Some Success)) (node_names (nodes w)) (name "b") /\
  numbered_after (history_of retried (name "b")) 2 10.
Proof.
  refine (proj2 (proj1 (proj1 (select_next_step_first_ready w [name "a"] (Some Success) retried
    diamond_valid _) (mkNextStep (name "b") 2 10)) _)); [|vm_compute; reflexivity].
  intros n r [Hn Hr]%list_elem_of_filter. cbn in Hr.
  repeat (apply elem_of_cons in Hr as [->|Hr]; [cbn; ulia|]). by apply not_elem_of_nil in Hr.
Defined.

Lemma execution_layers_correct_witness :
  execution_layers w = [[name "a"]; [name "b"; name "c"]; [name "d"]] /\
  concat (execution_layers w) ≡ₚ node_names (nodes w).
Proof.
  split; [vm_compute; reflexivity|]. exact (proj1 (execution_layers_correct w diamond_valid)).
Defined.

Definition history : ExecutionHistory :=
  mkExecutionHistory [mkStepSchedulingRecord (name "a") 1 7; mkStepSchedulingRecord (name "b") 5 9].

Lemma attempt_and_fence_fresh_witness :
  compute_attempt_and_fence (name "a") history = (2, 8) /\
  7 < (compute_attempt_and_fence (name "a") history).2.
Proof.
  split; [vm_compute; reflexivity|].
  refine (proj1 (proj2 (proj1 (attempt_and_fence_fresh (name "a") history _)
    (mkStepSchedulingRecord (name "a") 1 7) _ _))); [|left|done].
  intros r Hr. apply list_elem_of_singleton in Hr as ->. cbn. ulia.
Defined.

Lemma transitive_dependencies_correct_witness :
  acyclic diamond_edges /\ transitive_dependencies w (name "d") = [].
Proof.
  split; [exact (valid_acyclic _ _ diamond_valid)|].
  exact (proj1 (proj2 (proj2 (transitive_dependencies_correct w (name "d")
    (valid_acyclic _ _ diamond_valid))) (mkWorkflowName "w") tt)).
Defined.
End SelectionWitness.
