(* ===== verification/CircuitBreaker.v ===== *)
(** * The registration circuit breaker

    [crates/vo-core/src/circuit_breaker/]: rate limiting of registrations and
    quarantine of workflows whose binaries keep failing. An [Instant] is a number of
    nanoseconds, a [Duration] a non-negative one. The concurrent maps of the state are
    maps; each operation is one step. *)

From S2P Require Import Prelude Identifiers.
From Stdlib Require Import Sorted.

(** ** Time *)

(** [later.duration_since(earlier)], which saturates at zero. *)
Definition duration_since (later earlier : Z) : Z := Z.max 0 (later - earlier).

Definition nanos_per_sec : Z := 1000000000.

(** ** Configuration *)

(** [struct CircuitBreakerConfig]. *)
Record CircuitBreakerConfig : Type := mkConfig {
  rate_limit_window : Z;
  failure_window : Z;
  failure_threshold : Z;
}.

(** [enum ConfigValidationError]. *)
Inductive ConfigValidationError : Set :=
| ZeroRateLimitWindow
| ZeroFailureWindow
| ZeroFailureThreshold.

(** [CircuitBreakerConfig::new]. *)
Definition config_new (rate_limit_window failure_window failure_threshold : Z)
  : result ConfigValidationError CircuitBreakerConfig :=
  if rate_limit_window =? 0 then Err ZeroRateLimitWindow
  else if failure_window =? 0 then Err ZeroFailureWindow
  else if failure_threshold =? 0 then Err ZeroFailureThreshold
  else Ok (mkConfig rate_limit_window failure_window failure_threshold).

(** [CircuitBreakerConfig::default_config]. *)
Definition default_config : result ConfigValidationError CircuitBreakerConfig :=
  config_new (60 * nanos_per_sec) (600 * nanos_per_sec) 5.

(** ** The failure window *)

(** [struct FailureRecord]. *)
Record FailureRecord : Type := mkFailureRecord { hash : BinaryHash; failed_at : Z }.

(** [struct FailureWindow]: its records. *)
Definition FailureWindow : Type := list FailureRecord.

(** The [retain] that evicts expired records. *)
Definition evict (window : list FailureRecord) (now window_duration : Z) : list FailureRecord :=
  base.filter (fun r => duration_since now (failed_at r) <= window_duration) window.

(** [sort_by_key(|r| r.failed_at)], a stable sort. *)
Fixpoint sort_insert (r : FailureRecord) (l : list FailureRecord) : list FailureRecord :=
  match l with
  | [] => [r]
  | x :: l' => if failed_at r <=? failed_at x then r :: x :: l' else x :: sort_insert r l'
  end.

Fixpoint sort_by_failed_at (l : list FailureRecord) : list FailureRecord :=
  match l with [] => [] | r :: l' => sort_insert r (sort_by_failed_at l') end.

(** [iter_mut().find(|r| r.hash == hash)] and the assignment of [failed_at]. *)
Fixpoint update_first (h : BinaryHash) (t : Z) (l : list FailureRecord)
  : option (list FailureRecord) :=
  match l with
  | [] => None
  | r :: l' =>
      if decide (hash r = h) then Some (mkFailureRecord h t :: l')
      else (fun l'' => r :: l'') <$> update_first h t l'
  end.

(** [partition_point(|r| r.failed_at <= failed_at)] on a sorted vector. *)
Fixpoint partition_point (t : Z) (l : list FailureRecord) : nat :=
  match l with
  | [] => 0
  | r :: l' => if failed_at r <=? t then S (partition_point t l') else 0
  end.

(** [Vec::insert]. *)
Definition vec_insert {A} (pos : nat) (x : A) (l : list A) : list A := take pos l ++ x :: drop pos l.

(** [record_failure_in_window]. *)
Definition record_failure_in_window (window : FailureWindow) (h : BinaryHash)
    (failed_at window_duration : Z) : Z * FailureWindow :=
  let records := evict window failed_at window_duration in
  let records :=
    match update_first h failed_at records with
    | Some records' => sort_by_failed_at records'
    | None => vec_insert (partition_point failed_at records) (mkFailureRecord h failed_at) records
    end in
  (Z.of_nat (length records), records).

(** [unique_failures_in_window]. *)
Definition unique_failures_in_window (window : FailureWindow) (now window_duration : Z)
  : Z * FailureWindow :=
  let records := evict window now window_duration in (Z.of_nat (length records), records).

(** ** The rate limiter *)

(** [check_rate_limit]. *)
Definition check_rate_limit (last_registration : option Z) (rate_limit_window now : Z) : option Z :=
  match last_registration with
  | None => None
  | Some last =>
      let elapsed := duration_since now last in
      if rate_limit_window <=? elapsed then None
      else
        let remaining := Z.max 0 (rate_limit_window - elapsed) in
        let subsec_nanos := remaining mod nanos_per_sec in
        Some (wrapping_add_u64 (remaining / nanos_per_sec) (if 0 <? subsec_nanos then 1 else 0))
  end.

(** [update_rate_limit]. *)
Definition update_rate_limit (now : Z) : Z := now.

(** ** State *)

(** [enum RegistrationStatus]. *)
Inductive RegistrationStatus : Set := Active | Deactivated | Quarantined | Deleted.

#[global] Instance RegistrationStatus_eq_dec : EqDecision RegistrationStatus.
Proof. solve_decision. Defined.

(** [struct QuarantineEvent]. *)
Record QuarantineEvent : Set := mkQuarantineEvent { quarantined_workflow : WorkflowName }.

(** [struct CircuitBreakerState]; the quarantine callback is the caller's: the events it
    is called with are an output of [record_failure]. *)
Record CircuitBreakerState : Type := mkState {
  statuses : gmap WorkflowName RegistrationStatus;
  rate_limiter : gmap WorkflowName Z;
  failure_tracker : gmap WorkflowName FailureWindow;
  operator_tokens : gset string;
}.

(** [CircuitBreakerState::new]. *)
Definition state_new : CircuitBreakerState := mkState ∅ ∅ ∅ ∅.

(** [register_operator_token]. *)
Definition register_operator_token (st : CircuitBreakerState) (token : string)
  : CircuitBreakerState :=
  mkState (statuses st) (rate_limiter st) (failure_tracker st) ({[token]} ∪ operator_tokens st).

(** [get_status]. *)
Definition get_status (st : CircuitBreakerState) (w : WorkflowName) : RegistrationStatus :=
  default Active (statuses st !! w).

(** [set_status]. *)
Definition set_status (st : CircuitBreakerState) (w : WorkflowName) (s : RegistrationStatus)
  : CircuitBreakerState :=
  mkState (<[w := s]> (statuses st)) (rate_limiter st) (failure_tracker st) (operator_tokens st).

(** [get_rate_limit]. *)
Definition get_rate_limit (st : CircuitBreakerState) (w : WorkflowName) : option Z :=
  rate_limiter st !! w.

(** [set_rate_limit]. *)
Definition set_rate_limit (st : CircuitBreakerState) (w : WorkflowName) (timestamp : Z)
  : CircuitBreakerState :=
  mkState (statuses st) (<[w := timestamp]> (rate_limiter st)) (failure_tracker st)
    (operator_tokens st).

(** [remove_rate_limit]. *)
Definition remove_rate_limit (st : CircuitBreakerState) (w : WorkflowName) : CircuitBreakerState :=
  mkState (statuses st) (delete w (rate_limiter st)) (failure_tracker st) (operator_tokens st).

(** [get_failure_count]. *)
Definition get_failure_count (st : CircuitBreakerState) (w : WorkflowName) : Z :=
  match failure_tracker st !! w with None => 0 | Some window => Z.of_nat (length window) end.

Definition set_window (st : CircuitBreakerState) (w : WorkflowName) (window : FailureWindow)
  : CircuitBreakerState :=
  mkState (statuses st) (rate_limiter st) (<[w := window]> (failure_tracker st))
    (operator_tokens st).

Definition remove_window (st : CircuitBreakerState) (w : WorkflowName) : CircuitBreakerState :=
  mkState (statuses st) (rate_limiter st) (delete w (failure_tracker st)) (operator_tokens st).

(** ** Operations *)

(** [struct RegistrationRequest]. *)
Record RegistrationRequest : Type := mkRequest {
  request_workflow : WorkflowName;
  request_hash : BinaryHash;
  force : option string;
}.

(** [enum RegistrationOutcome]. *)
Inductive RegistrationOutcome : Type :=
| Allowed
| RateLimited (retry_after_secs : Z)
| WorkflowQuarantined (w : WorkflowName)
| WorkflowDeactivated (w : WorkflowName)
| ForceUnauthorized.

(** [enum CircuitBreakerError]. *)
Inductive CircuitBreakerError : Type :=
| ErrRateLimited (retry_after_secs : Z)
| ErrWorkflowQuarantined (workflow_name : string)
| ErrWorkflowDeactivated (workflow_name : string)
| StorageError (reason : string)
| WorkflowNotFound (workflow_name : string)
| NotQuarantined (workflow_name : string) (current_status : RegistrationStatus).

(** [evaluate_registration]; it never returns an error. *)
Definition evaluate_registration (request : RegistrationRequest) (config : CircuitBreakerConfig)
    (st : CircuitBreakerState) (now : Z)
  : result CircuitBreakerError RegistrationOutcome * CircuitBreakerState :=
  let w := request_workflow request in
  match force request with
  | Some token =>
      if decide (token ∉ operator_tokens st) then (Ok ForceUnauthorized, st)
      else (Ok Allowed, set_rate_limit st w (update_rate_limit now))
  | None =>
      match get_status st w with
      | Quarantined => (Ok (WorkflowQuarantined w), st)
      | Deactivated => (Ok (WorkflowDeactivated w), st)
      | Deleted => (Ok (WorkflowDeactivated w), st)
      | Active =>
          match rate_limiter st !! w with
          | Some last =>
              match check_rate_limit (Some last) (rate_limit_window config) now with
              | Some retry_after_secs => (Ok (RateLimited retry_after_secs), st)
              | None => (Ok Allowed, set_rate_limit st w (update_rate_limit now))
              end
          | None => (Ok Allowed, set_rate_limit st w (update_rate_limit now))
          end
      end
  end.

(** [record_failure], with the events the quarantine callback is called with. *)
Definition record_failure (w : WorkflowName) (binary_hash : BinaryHash)
    (config : CircuitBreakerConfig) (st : CircuitBreakerState) (now : Z)
  : result CircuitBreakerError (option QuarantineEvent) * CircuitBreakerState
    * list QuarantineEvent :=
  if decide (get_status st w = Quarantined) then (Ok None, st, [])
  else
    let window := default [] (failure_tracker st !! w) in
    let r := record_failure_in_window window binary_hash now (failure_window config) in
    let unique_count := r.1 in
    let st := set_window st w r.2 in
    if failure_threshold config <=? unique_count then
      let st := set_status st w Quarantined in
      let event := mkQuarantineEvent w in
      (Ok (Some event), st, [event])
    else (Ok None, st, []).

(** [struct UnquarantineResult]. *)
Record UnquarantineResult : Type := mkUnquarantineResult {
  unquarantined : WorkflowName;
  previous_status : RegistrationStatus;
  new_status : RegistrationStatus;
  failures_cleared : Z;
}.

(** [unquarantine]; the operator's name is not used. *)
Definition unquarantine (w : WorkflowName) (operator : string) (st : CircuitBreakerState)
  : result CircuitBreakerError UnquarantineResult * CircuitBreakerState :=
  match statuses st !! w with
  | None => (Err (WorkflowNotFound (workflow_name_str w)), st)
  | Some current_status =>
      if decide (current_status <> Quarantined) then
        (Err (NotQuarantined (workflow_name_str w) current_status), st)
      else
        let cleared := get_failure_count st w in
        let st := set_status st w Active in
        let st := remove_window st w in
        let st := remove_rate_limit st w in
        (Ok (mkUnquarantineResult w Quarantined Active cleared), st)
  end.

(** ** The window as a map

    What a window stands for: the latest failure time of each hash in it. *)

Definition entry (r : FailureRecord) : BinaryHash * Z := (hash r, failed_at r).

Definition window_map (w : FailureWindow) : gmap BinaryHash Z := list_to_map (entry <$> w).

Definition earlier (a b : FailureRecord) : Prop := failed_at a <= failed_at b.

(** The invariant of a window: sorted by time, one record per hash. *)
Record window_ok (w : FailureWindow) : Prop := {
  window_sorted : StronglySorted earlier w;
  window_unique : NoDup (hash <$> w);
}.

Definition within (now window_duration t : Z) : Prop := duration_since now t <= window_duration.

#[global] Instance within_dec now d t : Decision (within now d t).
Proof. unfold within. apply _. Defined.

Lemma window_map_lookup w h t :
  NoDup (hash <$> w) -> window_map w !! h = Some t <-> mkFailureRecord h t ∈ w.
Proof.
  intros Hnd. unfold window_map. rewrite <- elem_of_list_to_map.
  - rewrite list_elem_of_fmap. split.
    + intros ([h' t'] & [= -> ->] & H). done.
    + intros H. by exists (mkFailureRecord h t).
  - rewrite <- list_fmap_compose. exact Hnd.
Qed.

Lemma window_map_size w : NoDup (hash <$> w) -> size (window_map w) = length w.
Proof.
  intros Hnd. unfold window_map. rewrite map_size_list_to_map.
  - by rewrite length_fmap.
  - rewrite <- list_fmap_compose. exact Hnd.
Qed.

Lemma StronglySorted_filter (P : FailureRecord -> Prop) `{!forall x, Decision (P x)} l :
  StronglySorted earlier l -> StronglySorted earlier (base.filter P l).
Proof.
  induction 1 as [|x l _ IH Hx]; [constructor|]. rewrite filter_cons. case_decide; [|done].
  constructor; [done|]. rewrite Forall_forall in *. intros y [_ Hy]%list_elem_of_filter. auto.
Qed.

Lemma sort_insert_perm r l : sort_insert r l ≡ₚ r :: l.
Proof.
  induction l as [|x l IH]; cbn; [done|]. case_match; [done|]. rewrite IH. constructor.
Qed.

Lemma sort_perm l : sort_by_failed_at l ≡ₚ l.
Proof. induction l as [|r l IH]; cbn; [done|]. by rewrite sort_insert_perm, IH. Qed.

Lemma sort_insert_sorted r l :
  StronglySorted earlier l -> StronglySorted earlier (sort_insert r l).
Proof.
  induction 1 as [|x l Hl IH Hx]; cbn; [repeat constructor|].
  destruct (Z.leb_spec (failed_at r) (failed_at x)).
  - constructor; [by constructor|]. constructor; [done|].
    eapply Forall_impl; [exact Hx|]. unfold earlier. intros y. lia.
  - constructor; [done|]. rewrite sort_insert_perm. constructor; [unfold earlier; lia|done].
Qed.

Lemma sort_sorted l : StronglySorted earlier (sort_by_failed_at l).
Proof. induction l; cbn; [constructor|by apply sort_insert_sorted]. Qed.

Lemma partition_insert_sorted x l :
  StronglySorted earlier l ->
  StronglySorted earlier (vec_insert (partition_point (failed_at x) l) x l).
Proof.
  unfold vec_insert. induction 1 as [|r l Hl IH Hr]; cbn; [repeat constructor|].
  destruct (Z.leb_spec (failed_at r) (failed_at x)); cbn.
  - constructor; [done|]. rewrite Forall_app, Forall_cons.
    split_and!; [by apply Forall_take|done|by apply Forall_drop].
  - constructor; [by constructor|]. constructor; [unfold earlier; lia|].
    eapply Forall_impl; [exact Hr|]. unfold earlier. intros y. lia.
Qed.

Lemma vec_insert_perm {A} pos (x : A) l : vec_insert pos x l ≡ₚ x :: l.
Proof.
  unfold vec_insert. rewrite <- (take_drop pos l) at 3. symmetry. apply Permutation_middle.
Qed.

(** Updating the record of a hash, or finding that there is none. *)
Lemma update_first_spec h t l :
  NoDup (hash <$> l) ->
  match update_first h t l with
  | Some l' => l' ≡ₚ mkFailureRecord h t :: base.filter (fun r => hash r <> h) l
  | None => base.filter (fun r => hash r <> h) l = l
  end.
Proof.
  induction l as [|r l IH]; cbn [update_first fmap list_fmap]; [done|].
  intros [Hr Hnd]%NoDup_cons. specialize (IH Hnd). rewrite filter_cons.
  destruct (decide (hash r = h)) as [<-|Hne].
  - rewrite decide_False by naive_solver.
    assert (base.filter (fun r0 => hash r0 <> hash r) l = l) as ->; [|done].
    clear -Hr. induction l as [|x l IH]; [done|]. rewrite filter_cons, IH by set_solver.
    rewrite decide_True; [done|]. set_solver.
  - rewrite decide_True by done. destruct (update_first h t l) as [l'|]; cbn; [|by rewrite IH].
    rewrite IH. constructor.
Qed.

Lemma record_perm w h now d :
  NoDup (hash <$> w) ->
  (record_failure_in_window w h now d).2
    ≡ₚ mkFailureRecord h now :: base.filter (fun r => hash r <> h) (evict w now d).
Proof.
  intros Hnd. unfold record_failure_in_window; cbn.
  assert (NoDup (hash <$> evict w now d)) as He.
  { eapply sublist_NoDup; [exact Hnd|]. apply fmap_sublist, sublist_filter. }
  pose proof (update_first_spec h now _ He) as Hu.
  destruct (update_first h now (evict w now d)) as [l'|].
  - by rewrite sort_perm.
  - rewrite vec_insert_perm. by rewrite Hu.
Qed.

Lemma record_window_ok w h now d :
  window_ok w -> window_ok (record_failure_in_window w h now d).2.
Proof.
  intros [Hs Hnd]. split.
  - unfold record_failure_in_window; cbn. case_match; [apply sort_sorted|].
    apply (partition_insert_sorted (mkFailureRecord h now)). by apply StronglySorted_filter.
  - rewrite (record_perm _ _ _ _ Hnd). cbn. apply NoDup_cons. split.
    + intros (r & Hr & [Hne _]%list_elem_of_filter)%list_elem_of_fmap. by subst.
    + eapply sublist_NoDup; [exact Hnd|]. apply fmap_sublist. etrans; apply sublist_filter.
Qed.

Lemma record_window_map w h now d :
  NoDup (hash <$> w) ->
  window_map (record_failure_in_window w h now d).2
  = <[h := now]> (base.filter (fun kv => within now d kv.2) (window_map w)).
Proof.
  intros Hnd. pose proof (record_perm w h now d Hnd) as Hp.
  assert (NoDup (hash <$> (record_failure_in_window w h now d).2)) as Hnd'.
  { rewrite Hp. cbn. apply NoDup_cons. split.
    - intros (r & Hr & [Hne _]%list_elem_of_filter)%list_elem_of_fmap. by subst.
    - eapply sublist_NoDup; [exact Hnd|]. apply fmap_sublist. etrans; apply sublist_filter. }
  apply map_eq. intros k. apply option_eq. intros t.
  rewrite window_map_lookup by done. rewrite Hp, elem_of_cons, list_elem_of_filter.
  unfold evict. rewrite list_elem_of_filter. cbn [hash failed_at].
  destruct (decide (k = h)) as [->|Hne].
  - rewrite lookup_insert_eq. naive_solver.
  - rewrite lookup_insert_ne, map_lookup_filter_Some, window_map_lookup by done.
    unfold within. cbn. naive_solver.
Qed.

(** Recording a failure in the window refines a map update: the window, kept sorted
    with one record per hash, comes to hold exactly the hashes whose latest failure is
    within the window duration, this one with the current time, and the number
    returned is how many hashes that is. *)
Theorem failure_window_refines w h now d :
  window_ok w ->
  let r := record_failure_in_window w h now d in
  window_ok r.2 /\
  window_map r.2 = <[h := now]> (base.filter (fun kv => within now d kv.2) (window_map w)) /\
  r.1 = Z.of_nat (size (window_map r.2)).
Proof.
  intros Hok r. pose proof (record_window_ok w h now d Hok) as Hok'.
  split_and!; [done|apply record_window_map, Hok|].
  rewrite window_map_size by apply Hok'. done.
Qed.

(** ** The state *)

Definition breaker_ok (st : CircuitBreakerState) : Prop :=
  map_Forall (fun _ window => window_ok window) (failure_tracker st).

(** The latest failures of a workflow that its window remembers. *)
Definition failures (st : CircuitBreakerState) (w : WorkflowName) : gmap BinaryHash Z :=
  window_map (default [] (failure_tracker st !! w)).

Lemma tracked_ok st w : breaker_ok st -> window_ok (default [] (failure_tracker st !! w)).
Proof.
  intros H. destruct (failure_tracker st !! w) as [window|] eqn:E; [exact (H _ _ E)|].
  split; constructor.
Qed.

Lemma record_failure_ok w h cfg st now :
  breaker_ok st -> breaker_ok (record_failure w h cfg st now).1.2.
Proof.
  intros Hok. unfold record_failure. case_decide; [done|].
  destruct (_ <=? _); cbn [fst snd];
    (apply map_Forall_insert_2; [by apply record_window_ok, tracked_ok|exact Hok]).
Qed.

(** A recorded failure quarantines the workflow exactly when the distinct hashes
    that failed within the window reach the threshold, then and only then emitting one
    event and one callback; a quarantined workflow is left untouched, other workflows
    always are, and the windows keep their invariant. *)
Theorem record_failure_correct w h cfg st now :
  breaker_ok st ->
  let r := record_failure w h cfg st now in
  let st' := r.1.2 in
  let recent :=
    <[h := now]> (base.filter (fun kv => within now (failure_window cfg) kv.2) (failures st w)) in
  breaker_ok st' /\
  (forall w', w' <> w -> failures st' w' = failures st w' /\ get_status st' w' = get_status st w') /\
  (get_status st w = Quarantined -> r = (Ok None, st, [])) /\
  (get_status st w <> Quarantined ->
     failures st' w = recent /\
     if failure_threshold cfg <=? Z.of_nat (size recent) then
       r.1.1 = Ok (Some (mkQuarantineEvent w)) /\ r.2 = [mkQuarantineEvent w] /\
       get_status st' w = Quarantined
     else r.1.1 = Ok None /\ r.2 = [] /\ get_status st' w = get_status st w).
Proof.
  intros Hok r st' recent. split; [by apply record_failure_ok|].
  subst st' r. unfold record_failure. case_decide as Hq; [by split_and!|].
  pose proof (tracked_ok st w Hok) as Hw.
  pose proof (record_window_ok _ h now (failure_window cfg) Hw) as Hok1.
  pose proof (record_window_map _ h now (failure_window cfg) (window_unique _ Hw)) as Hmap.
  fold (failures st w) recent in Hmap.
  assert ((record_failure_in_window (default [] (failure_tracker st !! w)) h now
             (failure_window cfg)).1 = Z.of_nat (size recent)) as Hcount.
  { rewrite <- Hmap, window_map_size by apply Hok1. done. }
  rewrite Hcount. set (win := record_failure_in_window _ _ _ _) in *.
  assert (forall w', w' <> w -> failures (set_window st w win.2) w' = failures st w') as Hframe
    by (intros w' Hne; unfold failures; cbn; by rewrite lookup_insert_ne).
  assert (failures (set_window st w win.2) w = recent) as Hnew
    by (unfold failures; cbn; by rewrite lookup_insert_eq).
  destruct (_ <=? _); cbn; split_and!; try done.
  - intros w' Hne. split; [by apply Hframe|]. unfold get_status; cbn. by rewrite lookup_insert_ne.
  - intros _. split_and!; [done..|]. unfold get_status; cbn. by rewrite lookup_insert_eq.
  - intros w' Hne. by split; [apply Hframe|].
Qed.

(** ** Runs *)

Inductive CbOp : Type :=
| OpRegister (r : RegistrationRequest) (now : Z)
| OpFailure (w : WorkflowName) (h : BinaryHash) (now : Z)
| OpUnquarantine (w : WorkflowName)
| OpSetStatus (w : WorkflowName) (s : RegistrationStatus)
| OpToken (token : string).

Definition cb_step (cfg : CircuitBreakerConfig) (st : CircuitBreakerState) (op : CbOp)
  : CircuitBreakerState :=
  match op with
  | OpRegister r now => (evaluate_registration r cfg st now).2
  | OpFailure w h now => (record_failure w h cfg st now).1.2
  | OpUnquarantine w => (unquarantine w "operator" st).2
  | OpSetStatus w s => set_status st w s
  | OpToken token => register_operator_token st token
  end.

Definition cb_run (cfg : CircuitBreakerConfig) (st : CircuitBreakerState) (ops : list CbOp)
  : CircuitBreakerState := fold_left (cb_step cfg) ops st.

(** An operation that does not clear the rate limit of [w] and does not go back before
    [t]. *)
Definition keeps_rate_limit (w : WorkflowName) (t : Z) (op : CbOp) : Prop :=
  match op with
  | OpRegister _ now => t <= now
  | OpUnquarantine w' => w' <> w
  | _ => True
  end.

Lemma step_rate_limit cfg st op w t last :
  rate_limiter st !! w = Some last -> t <= last -> keeps_rate_limit w t op ->
  exists last', rate_limiter (cb_step cfg st op) !! w = Some last' /\ t <= last'.
Proof.
  intros Hl Ht Hop.
  assert (forall w' now, t <= now -> exists last',
    rate_limiter (set_rate_limit st w' now) !! w = Some last' /\ t <= last') as Hset.
  { intros w' now Hnow. cbn. destruct (decide (w' = w)) as [->|];
      [rewrite lookup_insert_eq|rewrite lookup_insert_ne by done]; eauto. }
  destruct op as [r now|w' h now|w'|w' s|token]; cbn [cb_step keeps_rate_limit] in *;
    [| | |by eauto..].
  - unfold evaluate_registration, update_rate_limit.
    repeat (case_decide || case_match); cbn [snd]; first [by eauto|by apply Hset].
  - unfold record_failure. case_decide; cbn; [by eauto|]. destruct (_ <=? _); cbn; eauto.
  - unfold unquarantine. destruct (statuses st !! w'); cbn; [|by eauto].
    case_decide; cbn; [by eauto|]. rewrite lookup_delete_ne by done. eauto.
Qed.

Lemma run_rate_limit cfg st ops w t last :
  rate_limiter st !! w = Some last -> t <= last -> Forall (keeps_rate_limit w t) ops ->
  exists last', rate_limiter (cb_run cfg st ops) !! w = Some last' /\ t <= last'.
Proof.
  intros Hl Ht Hops. revert st last Hl Ht.
  induction Hops as [|op ops Hop _ IH]; intros st last Hl Ht; cbn; [by eauto|].
  destruct (step_rate_limit cfg st op w t last Hl Ht Hop) as (last' & Hl' & Ht').
  by apply (IH _ last').
Qed.

Lemma allowed_sets_limit r cfg st now :
  (evaluate_registration r cfg st now).1 = Ok Allowed ->
  rate_limiter (evaluate_registration r cfg st now).2 !! request_workflow r = Some now.
Proof.
  unfold evaluate_registration, update_rate_limit. intros H.
  repeat (case_decide || case_match); cbn in *; try discriminate H; apply lookup_insert_eq.
Qed.

(** Rate limiting over runs: two allowed registrations of a workflow, the second
    one not forced, are at least the rate limit window apart, whatever operations of
    this and other workflows happen in between, as long as none lifts the workflow's
    quarantine and clocks do not go back before the first. *)
Theorem registrations_spaced cfg st r1 t1 ops r2 t2 :
  0 < rate_limit_window cfg ->
  request_workflow r2 = request_workflow r1 -> force r2 = None ->
  (evaluate_registration r1 cfg st t1).1 = Ok Allowed ->
  Forall (keeps_rate_limit (request_workflow r1) t1) ops ->
  let st2 := cb_run cfg (evaluate_registration r1 cfg st t1).2 ops in
  (evaluate_registration r2 cfg st2 t2).1 = Ok Allowed ->
  rate_limit_window cfg <= t2 - t1.
Proof.
  intros Hpos Hw Hf Ha Hops st2 Ha2. apply allowed_sets_limit in Ha.
  destruct (run_rate_limit cfg _ ops _ t1 t1 Ha ltac:(lia) Hops) as (last & Hl & Ht).
  fold st2 in Hl. unfold evaluate_registration in Ha2. rewrite Hf, Hw in Ha2.
  destruct (get_status st2 (request_workflow r1)); try discriminate Ha2.
  rewrite Hl in Ha2. unfold check_rate_limit, duration_since in Ha2.
  destruct (Z.leb_spec (rate_limit_window cfg) (Z.max 0 (t2 - last))); [lia|discriminate Ha2].
Qed.

(** An operation other than the two that can lift the quarantine of [w]. *)
Definition keeps_quarantine (w : WorkflowName) (op : CbOp) : Prop :=
  match op with
  | OpUnquarantine w' | OpSetStatus w' _ => w' <> w
  | _ => True
  end.

Lemma step_quarantine cfg st op w :
  statuses st !! w = Some Quarantined -> keeps_quarantine w op ->
  statuses (cb_step cfg st op) !! w = Some Quarantined.
Proof.
  intros Hq Hop. destruct op as [r now|w' h now|w'|w' s|token]; cbn [cb_step keeps_quarantine] in *.
  - unfold evaluate_registration. by repeat (case_decide || case_match).
  - unfold record_failure. case_decide as Hs; [done|]. cbn.
    assert (w' <> w) by (intros ->; apply Hs; unfold get_status; by rewrite Hq).
    destruct (_ <=? _); cbn; [by rewrite lookup_insert_ne|done].
  - unfold unquarantine. destruct (statuses st !! w'); [|done]. case_decide; [done|].
    cbn. by rewrite lookup_insert_ne.
  - cbn. by rewrite lookup_insert_ne.
  - done.
Qed.

Lemma run_quarantine cfg st ops w :
  statuses st !! w = Some Quarantined -> Forall (keeps_quarantine w) ops ->
  statuses (cb_run cfg st ops) !! w = Some Quarantined.
Proof.
  intros Hq Hops. revert st Hq.
  induction Hops as [|op ops Hop _ IH]; intros st Hq; cbn; [done|]. by apply IH, step_quarantine.
Qed.

Lemma record_failure_quarantines w h cfg st now ev st1 evs :
  record_failure w h cfg st now = (Ok (Some ev), st1, evs) ->
  ev = mkQuarantineEvent w /\ evs = [ev] /\ statuses st1 !! w = Some Quarantined.
Proof.
  unfold record_failure. case_decide; [done|]. destruct (_ <=? _); [|done].
  intros [= <- <- <-]. split_and!; [done..|]. cbn. apply lookup_insert_eq.
Qed.

(** Quarantine holds until it is lifted: from the failure that triggers it, through
    any operations that neither unquarantine the workflow nor set its status, every
    unforced registration is refused and further failures are ignored; unquarantine
    then reports the failures it clears, and leaves the workflow active with no failure
    and its next registration allowed. *)
Theorem quarantine_cycle w h cfg st now ev st1 evs ops :
  record_failure w h cfg st now = (Ok (Some ev), st1, evs) ->
  Forall (keeps_quarantine w) ops ->
  let st2 := cb_run cfg st1 ops in
  ev = mkQuarantineEvent w /\ evs = [ev] /\
  (forall bh t, evaluate_registration (mkRequest w bh None) cfg st2 t
     = (Ok (WorkflowQuarantined w), st2)) /\
  (forall h' t, record_failure w h' cfg st2 t = (Ok None, st2, [])) /\
  exists st3,
    unquarantine w "operator" st2
      = (Ok (mkUnquarantineResult w Quarantined Active (get_failure_count st2 w)), st3) /\
    get_status st3 w = Active /\ get_failure_count st3 w = 0 /\
    forall bh t, (evaluate_registration (mkRequest w bh None) cfg st3 t).1 = Ok Allowed.
Proof.
  intros Hr Hops st2. destruct (record_failure_quarantines _ _ _ _ _ _ _ _ Hr) as (-> & -> & Hq).
  pose proof (run_quarantine cfg st1 ops w Hq Hops) as Hq2. fold st2 in Hq2.
  assert (get_status st2 w = Quarantined) as Hs by (unfold get_status; by rewrite Hq2).
  split_and!; [done..| | |].
  - intros bh t. unfold evaluate_registration; cbn. by rewrite Hs.
  - intros h' t. unfold record_failure. by rewrite decide_True.
  - unfold unquarantine. rewrite Hq2. rewrite decide_False by naive_solver.
    eexists; split; [done|]. unfold get_status, get_failure_count; cbn.
    rewrite lookup_insert_eq, lookup_delete_eq. split_and!; [done..|].
    intros bh t. unfold evaluate_registration, get_status; cbn.
    by rewrite lookup_insert_eq, lookup_delete_eq.
Qed.

(** ** The theorems at concrete inputs *)

Module CircuitBreakerWitness.

Definition w1 : WorkflowName := mkWorkflowName "billing".
Definition h1 : BinaryHash := mkBinaryHash "00000001".
Definition h2 : BinaryHash := mkBinaryHash "00000002".
Definition cfg : CircuitBreakerConfig := mkConfig 60 600 2.

(** One failure recorded. *)
Definition one_failure : CircuitBreakerState := (record_failure w1 h1 cfg state_new 100).1.2.

Lemma one_failure_ok : breaker_ok one_failure.
Proof.
  apply record_failure_ok. intros w window Hw. cbn in Hw. by rewrite lookup_empty in Hw.
Qed.

Lemma failure_window_refines_witness :
  window_ok [mkFailureRecord h1 100] /\
  (record_failure_in_window [mkFailureRecord h1 100] h2 200 600).1
    = Z.of_nat (size (window_map [mkFailureRecord h1 100; mkFailureRecord h2 200])).
Proof.
  assert (window_ok [mkFailureRecord h1 100]) as Hok
    by (split; repeat constructor; set_solver).
  split; [exact Hok|]. exact (proj2 (proj2 (failure_window_refines _ h2 200 600 Hok))).
Defined.

Lemma record_failure_correct_witness :
  breaker_ok one_failure /\ get_status one_failure w1 = Active /\
  get_status (record_failure w1 h2 cfg one_failure 200).1.2 w1 = Quarantined.
Proof.
  split; [exact one_failure_ok|]. split; [vm_compute; reflexivity|].
  destruct (record_failure_correct w1 h2 cfg one_failure 200 one_failure_ok) as (_ & _ & _ & H).
  exact (proj2 (proj2 (proj2 (H ltac:(vm_compute; discriminate))))).
Defined.

Lemma registrations_spaced_witness :
  let r := mkRequest w1 h1 None in
  let st1 := (evaluate_registration r cfg state_new 100).2 in
  (evaluate_registration r cfg (cb_run cfg st1 [OpFailure w1 h1 120]) 160).1 = Ok Allowed /\
  60 <= 160 - 100.
Proof.
  intros r st1.
  assert ((evaluate_registration r cfg (cb_run cfg st1 [OpFailure w1 h1 120]) 160).1 = Ok Allowed)
    as H by (vm_compute; reflexivity).
  split; [exact H|].
  apply (registrations_spaced cfg state_new r 100 [OpFailure w1 h1 120] r 160);
    [done|reflexivity|reflexivity|vm_compute; reflexivity|repeat constructor|exact H].
Defined.

Lemma quarantine_cycle_witness :
  let st1 := (record_failure w1 h2 cfg one_failure 200).1.2 in
  evaluate_registration (mkRequest w1 h1 None) cfg (cb_run cfg st1 [OpFailure w1 h1 210]) 1000
    = (Ok (WorkflowQuarantined w1), cb_run cfg st1 [OpFailure w1 h1 210]).
Proof.
  intros st1.
  apply (quarantine_cycle w1 h2 cfg one_failure 200 (mkQuarantineEvent w1) st1
           [mkQuarantineEvent w1] [OpFailure w1 h1 210]);
    [vm_compute; reflexivity|repeat constructor].
Defined.

(** The status [Deleted] is documented as terminal, but failures reported for a deleted
    workflow quarantine it, and lifting the quarantine makes it active. *)
Lemma deleted_workflow_revived :
  let st := set_status one_failure w1 Deleted in
  get_status st w1 = Deleted /\
  get_status (cb_run cfg st [OpFailure w1 h2 200; OpUnquarantine w1]) w1 = Active.
Proof. by split; vm_compute. Qed.
End CircuitBreakerWitness.
