(* ===== verification/Admission.v ===== *)
(** * Admission control

    [crates/vo-types/src/workload_class.rs] (the classes of work) and
    [crates/vo-core/src/admission/]: the write-pressure check, the controller that combines
    it with deduplication and fences, and the slots per class with their degraded modes.
    The checks the controller asks ([AdmissionCheck]) are a trait. *)

From S2P Require Import Prelude Identifiers.
From Stdlib Require Import Ascii.

(** ** Workload classes *)

(** [enum WorkloadClass]. *)
Inductive WorkloadClass : Set :=
| ExactCritical | Live | Standard | Recovery | TimerResume
| NewInstance | Internal | NonCritical | Background | UnsafeBulk.

#[global] Instance WorkloadClass_eq_dec : EqDecision WorkloadClass.
Proof. solve_decision. Defined.

(** [WorkloadClass::rank]. *)
Definition rank (c : WorkloadClass) : Z :=
  match c with
  | ExactCritical => 0 | Live => 1 | Standard => 2 | Recovery => 3 | TimerResume => 4
  | NewInstance => 5 | Internal => 6 | NonCritical => 7 | Background => 8 | UnsafeBulk => 9
  end.

(** [WorkloadClass::never_starved]. *)
Definition never_starved (c : WorkloadClass) : bool :=
  match c with ExactCritical | Live | Recovery => true | _ => false end.

(** [WorkloadClass::is_deferred_in_degraded]. *)
Definition is_deferred_in_degraded (c : WorkloadClass) : bool :=
  match c with NonCritical | Background => true | _ => false end.

(** [WorkloadClass::is_accepted_in_critical]. *)
Definition is_accepted_in_critical (c : WorkloadClass) : bool :=
  match c with ExactCritical | Live | Recovery => true | _ => false end.

(** [WorkloadClass::is_capped_under_contention]. *)
Definition is_capped_under_contention (c : WorkloadClass) : bool :=
  match c with UnsafeBulk => true | _ => false end.

(** [WorkloadClass::is_non_critical]. *)
Definition is_non_critical (c : WorkloadClass) : bool :=
  match c with
  | Standard | UnsafeBulk | NonCritical | Background | NewInstance | Internal | TimerResume => true
  | _ => false
  end.

(** [WorkloadClass::is_protected]. *)
Definition is_protected (c : WorkloadClass) : bool := negb (is_non_critical c).

(** [str::to_ascii_lowercase]. *)
Definition to_ascii_lowercase (s : string) : string :=
  of_chars ((fun c => let n := nat_of_ascii c in
                      if ((65 <=? n) && (n <=? 90))%nat then ascii_of_nat (n + 32) else c)
            <$> chars s).

(** [WorkloadClass::parse]; the error carries the input. *)
Definition WorkloadClass_parse (s : string) : result string WorkloadClass :=
  let l := to_ascii_lowercase s in
  if bool_decide (l = "exact_critical") then Ok ExactCritical
  else if bool_decide (l = "live") then Ok Live
  else if bool_decide (l = "standard") then Ok Standard
  else if bool_decide (l = "recovery") then Ok Recovery
  else if bool_decide (l = "timer_resume") then Ok TimerResume
  else if bool_decide (l = "new_instance" \/ l = "newinstance") then Ok NewInstance
  else if bool_decide (l = "internal") then Ok Internal
  else if bool_decide (l = "non_critical" \/ l = "noncritical") then Ok NonCritical
  else if bool_decide (l = "background") then Ok Background
  else if bool_decide (l = "unsafe_bulk") then Ok UnsafeBulk
  else Err s.

(** [WorkloadClass::as_str]. *)
Definition class_name (c : WorkloadClass) : string :=
  match c with
  | ExactCritical => "exact_critical" | Live => "live" | Standard => "standard"
  | Recovery => "recovery" | TimerResume => "timer_resume" | NewInstance => "new_instance"
  | Internal => "internal" | NonCritical => "non_critical" | Background => "background"
  | UnsafeBulk => "unsafe_bulk"
  end.

(** [WorkloadClass::all_by_priority]. *)
Definition all_by_priority : list WorkloadClass :=
  [ExactCritical; Live; Standard; Recovery; TimerResume; NewInstance; Internal; NonCritical;
   Background; UnsafeBulk].

(** ** Write pressure *)

(** [struct WritePressureState]. *)
Record WritePressureState : Set := mkPressure {
  writer_queue_depth : Z;
  batch_commit_latency_ms : Z;
  blob_queue_depth : Z;
  compaction_stall_active : bool;
  storage_stall_active : bool;
}.

(** [enum PressureIndicator]. *)
Inductive PressureIndicator : Set :=
| WriterQueueDepth | BatchCommitLatency | BlobQueueDepth | CompactionStall | StorageStall.

#[global] Instance PressureIndicator_eq_dec : EqDecision PressureIndicator.
Proof. solve_decision. Defined.

(** [enum RejectionReason]. *)
Inductive RejectionReason : Set :=
| MissingDedupeKey
| DedupeKeyTooLong (max_length actual_length : Z)
| FenceTokenMismatch (expected actual : FenceToken)
| NoActiveLease
| ReasonPolicyViolation (message : string).

(** [enum AdmissionError]; a policy violation carries the reason it prints. *)
Inductive AdmissionError : Set :=
| WriterQueueDepthExceeded (current_depth threshold : Z)
| BatchCommitLatencyExceeded (current_latency_ms threshold_ms : Z)
| BlobQueueDepthExceeded (current_depth threshold : Z)
| CompactionStallActive
| StorageStallActive
| MultiplePressureIndicators (indicators : list PressureIndicator)
| MetricsUnavailable
| InvalidAdmissionContext
| DuplicateAdmission (original_instance_id : InstanceId)
| PolicyViolation (reason : RejectionReason).

(** [struct AdmissionThresholds]. *)
Record AdmissionThresholds : Set := mkThresholds {
  writer_queue_depth_threshold : Z;
  batch_commit_latency_ms_threshold : Z;
  blob_queue_depth_threshold : Z;
}.

(** [AdmissionThresholds::default], also written out by [check_admission] and the
    controller. *)
Definition default_thresholds : AdmissionThresholds := mkThresholds 100 1000 50.

(** A conditional [push]. *)
Definition push_if (b : bool) (i : PressureIndicator) (l : list PressureIndicator)
  : list PressureIndicator := if b then l ++ [i] else l.

(** The indicators [check_admission_with_thresholds] collects. *)
Definition active_indicators (s : WritePressureState) (t : AdmissionThresholds)
  : list PressureIndicator :=
  push_if (storage_stall_active s) StorageStall
    (push_if (compaction_stall_active s) CompactionStall
       (push_if (blob_queue_depth_threshold t <? blob_queue_depth s) BlobQueueDepth
          (push_if (batch_commit_latency_ms_threshold t <? batch_commit_latency_ms s)
             BatchCommitLatency
             (push_if (writer_queue_depth_threshold t <? writer_queue_depth s)
                WriterQueueDepth [])))).

(** [check_admission_with_thresholds]. *)
Definition check_admission_with_thresholds (s : WritePressureState) (t : AdmissionThresholds)
  : result AdmissionError unit :=
  match active_indicators s t with
  | [] => Ok tt
  | [WriterQueueDepth] =>
      Err (WriterQueueDepthExceeded (writer_queue_depth s) (writer_queue_depth_threshold t))
  | [BatchCommitLatency] =>
      Err (BatchCommitLatencyExceeded (batch_commit_latency_ms s)
             (batch_commit_latency_ms_threshold t))
  | [BlobQueueDepth] =>
      Err (BlobQueueDepthExceeded (blob_queue_depth s) (blob_queue_depth_threshold t))
  | [CompactionStall] => Err CompactionStallActive
  | [StorageStall] => Err StorageStallActive
  | indicators => Err (MultiplePressureIndicators indicators)
  end.

(** [check_admission]. *)
Definition check_admission (s : WritePressureState) : result AdmissionError unit :=
  check_admission_with_thresholds s default_thresholds.

(** [AdmissionError::is_degraded_error]. *)
Definition is_degraded_error (e : AdmissionError) : bool :=
  match e with
  | WriterQueueDepthExceeded _ _ | BatchCommitLatencyExceeded _ _ | BlobQueueDepthExceeded _ _
  | CompactionStallActive | StorageStallActive | MultiplePressureIndicators _ => true
  | _ => false
  end.

(** ** The controller *)

(** [struct DedupeToken] and [DedupeToken::parse]. *)
Record DedupeToken : Set := mkDedupeToken { dedupe_token_str : string }.

Definition DedupeToken_parse (input : string) : result ParseError DedupeToken :=
  if is_empty input then Err (Empty "DedupeToken") else Ok (mkDedupeToken input).

(** [enum AdmissionResult]. *)
Inductive AdmissionResult : Set :=
| KeyAdmitted (dedupe_token : DedupeToken)
| Rejected (reason : RejectionReason)
| DuplicateOf (original_instance_id : InstanceId).

(** [trait AdmissionCheck]; a deduplication key is its text. *)
Class AdmissionCheck (C : Type) : Type := {
  check_deduplicate : C -> string -> AdmissionResult;
  check_fence : C -> InstanceId -> StepId -> FenceToken -> AdmissionResult;
}.

Section Controller.
Context {C : Type} `{!AdmissionCheck C}.

(** [struct AdmissionController]. *)
Record AdmissionController : Type := mkController {
  check : C;
  pressure_state : WritePressureState;
  thresholds : AdmissionThresholds;
  in_flight : gset InstanceId;
}.

(** [AdmissionController::new]. *)
Definition controller_new (check : C) (pressure : WritePressureState) : AdmissionController :=
  mkController check pressure default_thresholds ∅.

(** [AdmissionController::with_thresholds]. *)
Definition controller_with_thresholds (check : C) (pressure : WritePressureState)
    (t : AdmissionThresholds) : AdmissionController := mkController check pressure t ∅.

(** The [match] both admissions make of an [AdmissionResult]. *)
Definition token_of (r : AdmissionResult) : result AdmissionError DedupeToken :=
  match r with
  | KeyAdmitted token => Ok token
  | DuplicateOf i => Err (DuplicateAdmission i)
  | Rejected reason => Err (PolicyViolation reason)
  end.

(** [admit_new_workflow]. *)
Definition admit_new_workflow (c : AdmissionController) (dedupe_key : string)
  : result AdmissionError DedupeToken :=
  let? token := token_of (check_deduplicate (check c) dedupe_key) in
  let? _ := check_admission_with_thresholds (pressure_state c) (thresholds c) in
  Ok token.

(** [mark_in_flight]. *)
Definition mark_in_flight (c : AdmissionController) (i : InstanceId) : AdmissionController :=
  mkController (check c) (pressure_state c) (thresholds c) ({[ i ]} ∪ in_flight c).

(** [step_in_flight]. *)
Definition step_in_flight (c : AdmissionController) (i : InstanceId)
  : result AdmissionError unit :=
  if bool_decide (i ∈ in_flight c) then Ok tt else Err InvalidAdmissionContext.

(** [step_in_flight_with_fence]. *)
Definition step_in_flight_with_fence (c : AdmissionController) (i : InstanceId) (s : StepId)
    (f : FenceToken) : result AdmissionError DedupeToken :=
  if negb (bool_decide (i ∈ in_flight c)) then Err InvalidAdmissionContext
  else token_of (check_fence (check c) i s f).
End Controller.
Arguments AdmissionController : clear implicits.

(** ** Slots *)

(** [enum DegradedMode]. *)
Inductive DegradedMode : Set :=
| Normal
| Degraded (triggers : list PressureIndicator)
| Critical (triggers : list PressureIndicator).

(** [struct BudgetAllocation]. *)
Record BudgetAllocation : Set := mkAllocation {
  class : WorkloadClass;
  max_slots : Z;
  used_slots : Z;
  reserved_min : Z;
}.

(** [BudgetAllocation::new]. *)
Definition BudgetAllocation_new (class : WorkloadClass) (max_slots reserved_min : Z)
  : BudgetAllocation := mkAllocation class max_slots 0 reserved_min.

(** [BudgetAllocation::remaining]. *)
Definition alloc_remaining (a : BudgetAllocation) : Z := Z.max 0 (max_slots a - used_slots a).

(** [BudgetAllocation::can_acquire]. *)
Definition alloc_can_acquire (a : BudgetAllocation) : bool := used_slots a <? max_slots a.

(** [struct WorkloadBudget]. *)
Record WorkloadBudget : Set := mkBudget {
  allocations : list BudgetAllocation;
  total_max_slots : Z;
  total_used_slots : Z;
  degraded_mode : DegradedMode;
}.

(** [ADMISSION_CLASSES]. *)
Definition ADMISSION_CLASSES : list WorkloadClass :=
  [Live; Recovery; TimerResume; NonCritical; Background].

(** The [u32] sum of [WorkloadBudget::new] and [with_allocations]. *)
Definition sum_max (l : list BudgetAllocation) : Z :=
  fold_left (fun n a => wrapping_add_u32 n (max_slots a)) l 0.

(** [WorkloadBudget::new]. *)
Definition WorkloadBudget_new : WorkloadBudget :=
  let allocations :=
    [BudgetAllocation_new Live 50 50; BudgetAllocation_new Recovery 30 30;
     BudgetAllocation_new TimerResume 20 10; BudgetAllocation_new NonCritical 100 0;
     BudgetAllocation_new Background 200 0] in
  mkBudget allocations (sum_max allocations) 0 Normal.

(** [WorkloadBudget::with_allocations]; the arrays have five elements. *)
Definition with_allocations (max_slots reserved_min : list Z) : WorkloadBudget :=
  let allocations := zip_with (fun class mr => BudgetAllocation_new class mr.1 mr.2)
                       ADMISSION_CLASSES (zip max_slots reserved_min) in
  mkBudget allocations (sum_max allocations) 0 Normal.

(** [WorkloadBudget::allocation_for]. *)
Definition allocation_for (b : WorkloadBudget) (c : WorkloadClass) : option BudgetAllocation :=
  snd <$> list_find (fun a => class a = c) (allocations b).

(** [enum BudgetRejectionReason]. *)
Inductive BudgetRejectionReason : Set :=
| SlotsExhausted (class : WorkloadClass) (max : Z)
| GlobalBudgetExhausted.

(** [enum BudgetCheckResult]. *)
Inductive BudgetCheckResult : Set :=
| Accepted (remaining : Z)
| BudgetRejected (reason : BudgetRejectionReason)
| DegradedBlocked (mode : DegradedMode).

(** [is_class_accepted_in_mode]. *)
Definition is_class_accepted_in_mode (c : WorkloadClass) (mode : DegradedMode) : bool :=
  match mode with
  | Normal => true
  | Degraded _ => negb (is_deferred_in_degraded c)
  | Critical _ => is_accepted_in_critical c
  end.

(** [check_budget]. *)
Definition check_budget (b : WorkloadBudget) (c : WorkloadClass) : BudgetCheckResult :=
  if negb (is_class_accepted_in_mode c (degraded_mode b)) then DegradedBlocked (degraded_mode b)
  else match allocation_for b c with
       | Some a => if alloc_can_acquire a then Accepted (alloc_remaining a)
                   else BudgetRejected (SlotsExhausted c (max_slots a))
       | None => BudgetRejected (SlotsExhausted c 0)
       end.

(** Updating the first allocation of a class, found with [position]. *)
Definition update_slots (f : Z -> Z) (c : WorkloadClass) (l : list BudgetAllocation)
  : list BudgetAllocation :=
  match list_find (fun a => class a = c) l with
  | Some (idx, a) =>
      <[idx := mkAllocation (class a) (max_slots a) (f (used_slots a)) (reserved_min a)]> l
  | None => l
  end.

(** [acquire_slot]. *)
Definition acquire_slot (b : WorkloadBudget) (c : WorkloadClass)
  : result BudgetRejectionReason WorkloadBudget :=
  match check_budget b c with
  | Accepted _ =>
      Ok (mkBudget (update_slots (fun n => wrapping_add_u32 n 1) c (allocations b))
            (total_max_slots b) (wrapping_add_u32 (total_used_slots b) 1) (degraded_mode b))
  | BudgetRejected reason => Err reason
  | DegradedBlocked _ => Err (SlotsExhausted c 0)
  end.

(** [release_slot]. *)
Definition release_slot (b : WorkloadBudget) (c : WorkloadClass) : WorkloadBudget :=
  mkBudget (update_slots (fun n => Z.max 0 (n - 1)) c (allocations b))
    (total_max_slots b) (Z.max 0 (total_used_slots b - 1)) (degraded_mode b).

(** [compute_degraded_mode]. *)
Definition compute_degraded_mode (p : WritePressureState) : DegradedMode :=
  let indicators := active_indicators p (mkThresholds 0 0 0) in
  if compaction_stall_active p || storage_stall_active p then Critical indicators
  else match length indicators with
       | 0%nat => Normal
       | 1%nat | 2%nat => Degraded indicators
       | _ => Critical indicators
       end.

(** [set_degraded_mode]. *)
Definition set_degraded_mode (b : WorkloadBudget) (mode : DegradedMode) : WorkloadBudget :=
  mkBudget (allocations b) (total_max_slots b) (total_used_slots b) mode.

(** ** The pressure check *)

(** The condition behind each indicator. *)
Definition exceeds (s : WritePressureState) (t : AdmissionThresholds) (i : PressureIndicator)
  : bool :=
  match i with
  | WriterQueueDepth => writer_queue_depth_threshold t <? writer_queue_depth s
  | BatchCommitLatency => batch_commit_latency_ms_threshold t <? batch_commit_latency_ms s
  | BlobQueueDepth => blob_queue_depth_threshold t <? blob_queue_depth s
  | CompactionStall => compaction_stall_active s
  | StorageStall => storage_stall_active s
  end.

Definition all_indicators : list PressureIndicator :=
  [WriterQueueDepth; BatchCommitLatency; BlobQueueDepth; CompactionStall; StorageStall].

Lemma active_indicators_filter s t :
  active_indicators s t = base.filter (fun i => exceeds s t i = true) all_indicators.
Proof.
  unfold active_indicators, push_if, all_indicators. rewrite !filter_cons, filter_nil. cbn [exceeds].
  by destruct (writer_queue_depth_threshold t <? writer_queue_depth s),
    (batch_commit_latency_ms_threshold t <? batch_commit_latency_ms s),
    (blob_queue_depth_threshold t <? blob_queue_depth s),
    (compaction_stall_active s), (storage_stall_active s).
Qed.

Lemma active_indicators_elem s t i : i ∈ active_indicators s t <-> exceeds s t i = true.
Proof.
  rewrite active_indicators_filter, list_elem_of_filter. unfold all_indicators.
  destruct i; set_solver.
Qed.

(** The indicators an error names. *)
Definition named_indicators (e : AdmissionError) : list PressureIndicator :=
  match e with
  | WriterQueueDepthExceeded _ _ => [WriterQueueDepth]
  | BatchCommitLatencyExceeded _ _ => [BatchCommitLatency]
  | BlobQueueDepthExceeded _ _ => [BlobQueueDepth]
  | CompactionStallActive => [CompactionStall]
  | StorageStallActive => [StorageStall]
  | MultiplePressureIndicators l => l
  | _ => []
  end.

(** The pressure check admits exactly when no indicator is exceeded; otherwise its
    error is a degradation error that names exactly the exceeded indicators, with the
    reading and the threshold when there is one. It is deterministic in what the controller
    adds: a new workflow is refused as a duplicate or by policy before pressure is looked
    at, and a step in flight is never refused for pressure. *)
Theorem admission_check_exact {C} `{!AdmissionCheck C} (c : AdmissionController C) key i step f :
  let r := check_admission_with_thresholds (pressure_state c) (thresholds c) in
  (r = Ok tt <-> forall x, exceeds (pressure_state c) (thresholds c) x = false) /\
  (forall e, r = Err e -> is_degraded_error e = true /\
     forall x, x ∈ named_indicators e <-> exceeds (pressure_state c) (thresholds c) x = true) /\
  (forall token, check_deduplicate (check c) key = KeyAdmitted token ->
     admit_new_workflow c key = (let? _ := r in Ok token)) /\
  ((forall token, check_deduplicate (check c) key <> KeyAdmitted token) ->
     exists e, admit_new_workflow c key = Err e /\ is_degraded_error e = false) /\
  (forall e, step_in_flight_with_fence c i step f = Err e -> is_degraded_error e = false).
Proof.
  cbv zeta. set (s := pressure_state c). set (t := thresholds c). split_and!.
  - split.
    + intros H x. apply not_true_is_false. rewrite <- active_indicators_elem.
      unfold check_admission_with_thresholds in H.
      destruct (active_indicators s t) as [|[] []]; try done. by intros ?%not_elem_of_nil.
    + intros H. unfold check_admission_with_thresholds.
      destruct (active_indicators s t) as [|x l] eqn:E; [done|].
      assert (exceeds s t x = true) as Hx by (apply active_indicators_elem; rewrite E; left).
      by rewrite H in Hx.
  - intros e He. setoid_rewrite <- active_indicators_elem.
    unfold check_admission_with_thresholds in He.
    destruct (active_indicators s t) as [|[] []]; try done; by injection He as <-.
  - intros token Ht. unfold admit_new_workflow. by rewrite Ht.
  - intros Hno. unfold admit_new_workflow.
    destruct (check_deduplicate (check c) key) as [token|reason|o]; [by destruct (Hno token)|..];
      by eexists.
  - intros e. unfold step_in_flight_with_fence. destruct (bool_decide _); cbn [negb];
      [|by intros [= <-]]. destruct (check_fence _ _ _ _); cbn; by intros [= <-].
Qed.

(** The degraded mode is stricter than the pressure check: a refused admission means a
    mode other than [Normal], but the mode counts every gauge that is not zero, whatever
    the thresholds, so that idle readings of three gauges already make it [Critical], in
    which only the live and recovery classes have slots, while the check admits. *)
Theorem degraded_mode_coupling p t :
  0 <= writer_queue_depth_threshold t -> 0 <= batch_commit_latency_ms_threshold t ->
  0 <= blob_queue_depth_threshold t ->
  (compute_degraded_mode p = Normal -> check_admission_with_thresholds p t = Ok tt) /\
  (0 < writer_queue_depth p <= writer_queue_depth_threshold t ->
   0 < batch_commit_latency_ms p <= batch_commit_latency_ms_threshold t ->
   0 < blob_queue_depth p <= blob_queue_depth_threshold t ->
   compaction_stall_active p = false -> storage_stall_active p = false ->
   check_admission_with_thresholds p t = Ok tt /\
   compute_degraded_mode p = Critical [WriterQueueDepth; BatchCommitLatency; BlobQueueDepth]).
Proof.
  intros H1 H2 H3. destruct p as [q l b c s]. unfold compute_degraded_mode,
    check_admission_with_thresholds, active_indicators, push_if. cbn.
  split.
  - destruct c, s; cbn; try done.
    destruct (Z.ltb_spec 0 q), (Z.ltb_spec 0 l), (Z.ltb_spec 0 b); cbn; try done. intros _.
    destruct (Z.ltb_spec (writer_queue_depth_threshold t) q); [lia|].
    destruct (Z.ltb_spec (batch_commit_latency_ms_threshold t) l); [lia|].
    destruct (Z.ltb_spec (blob_queue_depth_threshold t) b); [lia|]. done.
  - intros Hq Hl Hb -> ->. cbn.
    destruct (Z.ltb_spec 0 q), (Z.ltb_spec 0 l), (Z.ltb_spec 0 b); try lia.
    destruct (Z.ltb_spec (writer_queue_depth_threshold t) q); [lia|].
    destruct (Z.ltb_spec (batch_commit_latency_ms_threshold t) l); [lia|].
    destruct (Z.ltb_spec (blob_queue_depth_threshold t) b); [lia|]. done.
Qed.

(** ** Slots over time *)

Inductive SlotOp : Set :=
| OpAcquire (c : WorkloadClass)
| OpRelease (c : WorkloadClass)
| OpMode (mode : DegradedMode).

(** A refused acquisition leaves the budget as it is. *)
Definition slot_exec (b : WorkloadBudget) (op : SlotOp) : WorkloadBudget :=
  match op with
  | OpAcquire c => match acquire_slot b c with Ok b' => b' | Err _ => b end
  | OpRelease c => release_slot b c
  | OpMode mode => set_degraded_mode b mode
  end.

Definition slot_run (b : WorkloadBudget) (ops : list SlotOp) : WorkloadBudget :=
  fold_left slot_exec ops b.

Definition sum_used (l : list BudgetAllocation) : Z := foldr (fun a n => used_slots a + n) 0 l.
Definition sum_of_max (l : list BudgetAllocation) : Z := foldr (fun a n => max_slots a + n) 0 l.

(** The slots in use of a class. *)
Definition used_of (b : WorkloadBudget) (c : WorkloadClass) : Z :=
  from_option used_slots 0 (allocation_for b c).

(** What every budget satisfies. *)
Record budget_wf (b : WorkloadBudget) : Prop := {
  wf_used : Forall (fun a => 0 <= used_slots a <= max_slots a) (allocations b);
  wf_total : 0 <= total_used_slots b <= sum_used (allocations b);
  wf_max : sum_of_max (allocations b) <= u32_max;
}.

(** The parts of a budget that no operation changes. *)
Definition shape (b : WorkloadBudget) : list (WorkloadClass * Z * Z) :=
  (fun a => (class a, max_slots a, reserved_min a)) <$> allocations b.

Lemma update_slots_split f c l :
  (exists l1 a l2, l = l1 ++ a :: l2 /\ class a = c /\ Forall (fun a => class a <> c) l1 /\
     update_slots f c l =
       l1 ++ mkAllocation (class a) (max_slots a) (f (used_slots a)) (reserved_min a) :: l2) \/
  (Forall (fun a => class a <> c) l /\ update_slots f c l = l).
Proof.
  unfold update_slots. destruct (list_find (fun a => class a = c) l) as [[idx a]|] eqn:E; [left|right].
  - apply list_find_Some in E as (Hl & Hc & Hno). apply list_elem_of_split_length in Hl
      as (l1 & l2 & -> & ->). exists l1, a, l2. split_and!; [done..| |].
    + apply Forall_lookup. intros k x Hk. apply (Hno k x); [|by eapply lookup_lt_Some].
      rewrite lookup_app_l; [done|by eapply lookup_lt_Some].
    + replace (length l1) with (length l1 + 0)%nat by lia. by rewrite insert_app_r.
  - by apply list_find_None in E.
Qed.

Lemma sum_used_app l1 l2 : sum_used (l1 ++ l2) = sum_used l1 + sum_used l2.
Proof. induction l1 as [|a l1 IH]; cbn; [done|]. unfold sum_used in *. lia. Qed.

Lemma sums_bound l :
  Forall (fun a => 0 <= used_slots a <= max_slots a) l -> 0 <= sum_used l <= sum_of_max l.
Proof. induction 1; cbn; [done|]. unfold sum_used, sum_of_max in *. lia. Qed.

Lemma shape_update f c l :
  (fun a => (class a, max_slots a, reserved_min a)) <$> update_slots f c l
  = (fun a => (class a, max_slots a, reserved_min a)) <$> l.
Proof.
  destruct (update_slots_split f c l) as [(l1 & a & l2 & -> & _ & _ & ->)|[_ ->]]; [|done].
  by rewrite !fmap_app.
Qed.

Lemma sum_of_max_shape l l' :
  (fun a => (class a, max_slots a, reserved_min a)) <$> l
  = (fun a => (class a, max_slots a, reserved_min a)) <$> l' -> sum_of_max l = sum_of_max l'.
Proof.
  revert l'; induction l as [|a l IH]; intros [|a' l'] H; try done. injection H as _ Hm _ H.
  cbn. unfold sum_of_max in *. rewrite (IH l' H). lia.
Qed.

Lemma allocation_for_split b l1 a l2 :
  allocations b = l1 ++ a :: l2 -> Forall (fun x => class x <> class a) l1 ->
  allocation_for b (class a) = Some a.
Proof.
  intros E Hno. unfold allocation_for. rewrite E.
  assert (list_find (fun x => class x = class a) (l1 ++ a :: l2) = Some (length l1, a)) as ->; [|done].
  apply list_find_Some. split_and!; [by apply list_lookup_middle|done|].
  intros k x Hk Hlt. rewrite lookup_app_l in Hk by done. by eapply (Forall_lookup_1 _ _ _ _ Hno).
Qed.

Lemma allocation_for_none b c :
  Forall (fun x => class x <> c) (allocations b) <-> allocation_for b c = None.
Proof.
  unfold allocation_for. rewrite fmap_None, list_find_None. done.
Qed.

(** When an acquisition succeeds, and what it gives. *)
Lemma acquire_slot_ok b c :
  (exists b', acquire_slot b c = Ok b') <->
  is_class_accepted_in_mode c (degraded_mode b) = true /\
  exists a, allocation_for b c = Some a /\ used_slots a < max_slots a.
Proof.
  unfold acquire_slot, check_budget.
  destruct (is_class_accepted_in_mode c (degraded_mode b)); cbn [negb]; [|naive_solver].
  destruct (allocation_for b c) as [a|]; [|naive_solver].
  unfold alloc_can_acquire. destruct (Z.ltb_spec (used_slots a) (max_slots a)).
  - split; [intros _; split; [done|]; by exists a|by eexists].
  - split; [by intros []|]. intros (_ & a' & [= <-] & ?). lia.
Qed.

(** A release gives back a slot that is in use. *)
Definition held (b : WorkloadBudget) (op : SlotOp) : Prop :=
  match op with OpRelease c => 0 < used_of b c | _ => True end.

(** Replacing the count of one allocation. *)
Lemma update_slots_wf f b c :
  Forall (fun a => 0 <= used_slots a <= max_slots a) (allocations b) ->
  (forall a, allocation_for b c = Some a -> 0 <= f (used_slots a) <= max_slots a) ->
  Forall (fun a => 0 <= used_slots a <= max_slots a) (update_slots f c (allocations b)).
Proof.
  intros Hl Hf.
  destruct (update_slots_split f c (allocations b)) as [(l1 & a & l2 & E & <- & Hno & ->)|[_ ->]]; [|done].
  specialize (Hf a (allocation_for_split b l1 a l2 E Hno)). rewrite E in Hl.
  apply Forall_app in Hl as [H1 [_ H2]%Forall_cons]. apply Forall_app. split; [done|].
  by constructor.
Qed.

Lemma sum_used_update f b c :
  sum_used (update_slots f c (allocations b))
  = sum_used (allocations b) +
    from_option (fun a => f (used_slots a) - used_slots a) 0 (allocation_for b c).
Proof.
  destruct (update_slots_split f c (allocations b)) as [(l1 & a & l2 & E & <- & Hno & ->)|[Hno ->]].
  - rewrite (allocation_for_split b l1 a l2 E Hno), E. cbn [from_option].
    rewrite !sum_used_app. cbn. unfold sum_used. lia.
  - apply allocation_for_none in Hno. rewrite Hno. cbn. lia.
Qed.

Lemma allocation_for_elem b c a :
  allocation_for b c = Some a -> a ∈ allocations b /\ class a = c.
Proof.
  unfold allocation_for. destruct (list_find _ _) as [[idx x]|] eqn:E; [|done]. cbn. intros [= <-].
  apply list_find_Some in E as (Hl & Hc & _). split; [by eapply list_elem_of_lookup_2|done].
Qed.

Lemma room l a :
  Forall (fun a => 0 <= used_slots a <= max_slots a) l -> a ∈ l ->
  max_slots a - used_slots a <= sum_of_max l - sum_used l /\ max_slots a <= sum_of_max l.
Proof.
  induction 1 as [|x l Hx Hl IH]; [by intros ?%not_elem_of_nil|].
  pose proof (sums_bound l Hl) as Hs. unfold sum_of_max, sum_used in *. cbn [foldr].
  intros [->|Ha]%elem_of_cons; [lia|]. specialize (IH Ha). lia.
Qed.

Lemma wrapping_add_u32_small a b : 0 <= a + b <= u32_max -> wrapping_add_u32 a b = a + b.
Proof. intros. unfold wrapping_add_u32, as_u32. apply Z.mod_small. lia. Qed.

Lemma acquire_wf b c b' :
  budget_wf b -> acquire_slot b c = Ok b' ->
  budget_wf b' /\ shape b' = shape b /\
  total_used_slots b' = total_used_slots b + 1 /\
  sum_used (allocations b') = sum_used (allocations b) + 1.
Proof.
  intros [Hu Ht Hm] E.
  destruct (proj1 (acquire_slot_ok b c) ltac:(by exists b')) as (Hmode & a & Ha & Hlt).
  destruct (allocation_for_elem _ _ _ Ha) as [Hin _]. destruct (room _ _ Hu Hin) as [Hr Hmax].
  pose proof (proj1 (Forall_forall _ _) Hu a Hin) as Hra. cbn in Hra.
  unfold acquire_slot, check_budget, alloc_can_acquire in E.
  rewrite Hmode, Ha, (proj2 (Z.ltb_lt _ _) Hlt) in E. cbn [negb] in E. injection E as <-.
  pose proof (sum_used_update (fun n => wrapping_add_u32 n 1) b c) as Hs.
  rewrite Ha in Hs. cbn [from_option] in Hs. rewrite wrapping_add_u32_small in Hs by lia.
  unfold shape. cbn [allocations total_used_slots].
  rewrite (wrapping_add_u32_small (total_used_slots b)) by lia.
  split_and!; [split; cbn [allocations total_used_slots]|apply shape_update|done|lia].
  - apply update_slots_wf; [done|]. intros a'. rewrite Ha. intros [= <-].
    rewrite wrapping_add_u32_small by lia. lia.
  - lia.
  - by rewrite (sum_of_max_shape _ _ (shape_update _ c (allocations b))).
Qed.

Lemma release_wf b c :
  budget_wf b ->
  budget_wf (release_slot b c) /\ shape (release_slot b c) = shape b /\
  (0 < used_of b c -> total_used_slots b = sum_used (allocations b) ->
   total_used_slots (release_slot b c) = sum_used (allocations (release_slot b c))).
Proof.
  intros [Hu Ht Hm]. pose proof (sum_used_update (fun n => Z.max 0 (n - 1)) b c) as Hs.
  unfold used_of, shape. cbn [release_slot allocations total_used_slots].
  assert (forall a, allocation_for b c = Some a -> 0 <= used_slots a <= max_slots a) as Ha.
  { intros a [Hin _]%allocation_for_elem. exact (proj1 (Forall_forall _ _) Hu a Hin). }
  assert (Forall (fun a => 0 <= used_slots a <= max_slots a)
            (update_slots (fun n => Z.max 0 (n - 1)) c (allocations b))) as Hu'.
  { apply update_slots_wf; [done|]. intros a Hal. specialize (Ha a Hal). lia. }
  pose proof (sums_bound _ Hu') as Hb.
  split_and!; [split; cbn [allocations total_used_slots release_slot]|apply shape_update|].
  - done.
  - destruct (allocation_for b c) as [a|]; cbn [from_option] in Hs; lia.
  - by rewrite (sum_of_max_shape _ _ (shape_update _ c (allocations b))).
  - destruct (allocation_for b c) as [a|]; cbn [from_option] in *; [|lia]. intros. lia.
Qed.

Lemma slot_exec_wf b op :
  budget_wf b ->
  budget_wf (slot_exec b op) /\ shape (slot_exec b op) = shape b /\
  (held b op -> total_used_slots b = sum_used (allocations b) ->
   total_used_slots (slot_exec b op) = sum_used (allocations (slot_exec b op))).
Proof.
  intros Hb. destruct op as [c|c|mode]; cbn [slot_exec held].
  - destruct (acquire_slot b c) as [b'|] eqn:E; [|done].
    destruct (acquire_wf b c b' Hb E) as (? & ? & ? & ?). split_and!; [done..|lia].
  - by apply release_wf.
  - destruct Hb. by split_and!.
Qed.

(** The releases of a run give back slots in use. *)
Fixpoint all_held (b : WorkloadBudget) (ops : list SlotOp) : Prop :=
  match ops with [] => True | op :: ops' => held b op /\ all_held (slot_exec b op) ops' end.

Lemma with_allocations_wf maxs reserved :
  length maxs = 5%nat -> length reserved = 5%nat -> Forall (fun n => 0 <= n) maxs ->
  foldr Z.add 0 maxs <= u32_max ->
  let b := with_allocations maxs reserved in
  budget_wf b /\ total_used_slots b = sum_used (allocations b) /\
  (class <$> allocations b) = ADMISSION_CLASSES.
Proof.
  intros Hm Hr. do 6 (destruct maxs as [|? maxs]; [try done|]); try done.
  do 6 (destruct reserved as [|? reserved]; [try done|]); try done.
  rewrite !Forall_cons. intros (?&?&?&?&?&_) Hs. cbn in Hs. split_and!; [split|done|done].
  - repeat constructor; cbn; lia.
  - done.
  - cbn. lia.
Qed.

Lemma slot_run_wf b ops :
  budget_wf b ->
  budget_wf (slot_run b ops) /\ shape (slot_run b ops) = shape b /\
  (all_held b ops -> total_used_slots b = sum_used (allocations b) ->
   total_used_slots (slot_run b ops) = sum_used (allocations (slot_run b ops))).
Proof.
  revert b; induction ops as [|op ops IH]; intros b Hb; [done|].
  destruct (slot_exec_wf b op Hb) as (H1 & H2 & H3).
  destruct (IH (slot_exec b op) H1) as (H4 & H5 & H6). unfold slot_run in *. cbn [fold_left].
  split_and!; [done|congruence|]. intros [Hh Hhs] Ht. auto.
Qed.

(** The classes of a budget are the classes of its shape. *)
Lemma shape_classes b : (class <$> allocations b) = (fun x => x.1.1) <$> shape b.
Proof. unfold shape. by rewrite <- list_fmap_compose. Qed.

Lemma allocated_iff b c : is_Some (allocation_for b c) <-> c ∈ (class <$> allocations b).
Proof.
  rewrite <- not_eq_None_Some, <- allocation_for_none, list_elem_of_fmap, Forall_forall. split.
  - intros Hn. destruct (decide (Exists (fun a => class a = c) (allocations b))) as [He|He].
    + apply Exists_exists in He as (a & ? & ?). by exists a.
    + destruct Hn. intros a Ha Hc. apply He, Exists_exists. by exists a.
  - intros (a & -> & Ha) Hn. by apply (Hn a).
Qed.

(** The slots over any run of acquisitions, releases and mode changes: no class ever
    uses more than its maximum, the total never exceeds the sum of the classes (and equals
    it when releases give back slots in use), and a class gets a slot exactly when it is
    one of the five with an allocation, the mode accepts it and a slot is free; so the
    class [ExactCritical], which is documented as never starved, never gets one. *)
Theorem slots_invariant maxs reserved ops c :
  length maxs = 5%nat -> length reserved = 5%nat -> Forall (fun n => 0 <= n) maxs ->
  foldr Z.add 0 maxs <= u32_max ->
  let b0 := with_allocations maxs reserved in
  let b := slot_run b0 ops in
  budget_wf b /\ shape b = shape b0 /\
  (all_held b0 ops -> total_used_slots b = sum_used (allocations b)) /\
  ((exists b', acquire_slot b c = Ok b') <->
     is_class_accepted_in_mode c (degraded_mode b) = true /\ c ∈ ADMISSION_CLASSES /\
     exists a, allocation_for b c = Some a /\ used_slots a < max_slots a) /\
  acquire_slot b ExactCritical = Err (SlotsExhausted ExactCritical 0).
Proof.
  intros H1 H2 H3 H4. cbv zeta.
  destruct (with_allocations_wf maxs reserved H1 H2 H3 H4) as (Hw & Ht & Hc).
  destruct (slot_run_wf _ ops Hw) as (Hwf & Hshape & Htot).
  set (b := slot_run (with_allocations maxs reserved) ops) in *.
  assert (class <$> allocations b = ADMISSION_CLASSES) as Hcls
    by (by rewrite shape_classes, Hshape, <- shape_classes).
  split_and!; [done|done|auto| |].
  - rewrite acquire_slot_ok. split.
    + intros (Hm & a & Ha & Hlt). split_and!; [done| |by exists a].
      rewrite <- Hcls, <- allocated_iff. by exists a.
    + intros (Hm & _ & Ha). done.
  - unfold acquire_slot, check_budget.
    assert (is_class_accepted_in_mode ExactCritical (degraded_mode b) = true) as ->
      by (by destruct (degraded_mode b)). cbn [negb].
    destruct (allocation_for b ExactCritical) as [a|] eqn:E; [|done].
    assert (ExactCritical ∈ ADMISSION_CLASSES) as Hin
      by (rewrite <- Hcls, <- allocated_iff; by exists a).
    unfold ADMISSION_CLASSES in Hin. set_solver.
Qed.

(** ** Concrete admissions *)

Module AdmissionWitness.
(** A total that drifts: the release of a class that uses nothing. *)
Example total_drifts :
  let b := slot_run WorkloadBudget_new [OpAcquire Live; OpRelease Recovery] in
  used_of b Live = 1 /\ total_used_slots b = 0.
Proof. vm_compute. done. Qed.

Lemma slots_invariant_witness :
  let b := slot_run (with_allocations [1; 0; 0; 0; 0] [1; 0; 0; 0; 0]) [OpAcquire Live] in
  total_used_slots b = 1 /\ acquire_slot b ExactCritical = Err (SlotsExhausted ExactCritical 0).
Proof.
  destruct (slots_invariant [1; 0; 0; 0; 0] [1; 0; 0; 0; 0] [OpAcquire Live] Live
    eq_refl eq_refl ltac:(repeat constructor; lia) ltac:(vm_compute; discriminate))
    as (_ & _ & H3 & _ & H5).
  exact (conj (H3 (conj Logic.I Logic.I)) H5).
Defined.

(** Idle gauges: the check admits, the mode is critical. *)
Lemma degraded_mode_coupling_witness :
  check_admission (mkPressure 1 1 1 false false) = Ok tt /\
  compute_degraded_mode (mkPressure 1 1 1 false false)
  = Critical [WriterQueueDepth; BatchCommitLatency; BlobQueueDepth].
Proof.
  apply (proj2 (degraded_mode_coupling (mkPressure 1 1 1 false false) default_thresholds
    ltac:(cbn; lia) ltac:(cbn; lia) ltac:(cbn; lia))); cbn; done || lia.
Defined.

Lemma class_names c : WorkloadClass_parse (class_name c) = Ok c.
Proof. destruct c; vm_compute; reflexivity. Qed.
End AdmissionWitness.
