(* ===== verification/Compensation.v ===== *)
(** * Compensation sagas

    [crates/vo-types/src/compensation.rs], the state machine of one compensation, and
    [crates/vo-storage/src/compensation_saga.rs], the manifest of the compensations of
    a saga: registration, execution in dependency order, ambiguous outcomes and their
    reconciliation, timeouts. Clock readings are arguments; a lock is held for the
    whole of each operation, so an operation is one step on the manifest. *)

From S2P Require Import Prelude Workflow.

(** ** The state machine of a compensation *)

Module CompensationCalc.
(** [enum CompensationStatus]. *)
Inductive CompensationStatus : Set := NotNeeded | Pending | InProgress | Succeeded | Failed.

(** [enum CompensationTransitionEvent]. *)
Inductive CompensationTransitionEvent : Set := Start | Succeed | Fail.

(** [enum CompensationTransitionError]. *)
Inductive CompensationTransitionError : Set := TerminalStateTransition | InvalidTransition.

(** [CompensationStatus::is_terminal]. *)
Definition is_terminal (s : CompensationStatus) : bool :=
  match s with NotNeeded | Succeeded | Failed => true | Pending | InProgress => false end.

(** [apply_compensation_transition]. *)
Definition apply_compensation_transition (current : CompensationStatus)
    (event : CompensationTransitionEvent) : result CompensationTransitionError CompensationStatus :=
  match current, event with
  | Pending, Start => Ok InProgress
  | Pending, Fail => Ok Failed
  | InProgress, Succeed => Ok Succeeded
  | InProgress, Fail => Ok Failed
  | (NotNeeded | Succeeded | Failed), _ => Err TerminalStateTransition
  | Pending, Succeed => Err InvalidTransition
  | InProgress, Start => Err InvalidTransition
  end.
End CompensationCalc.

(** ** Data *)

(** [enum SagaCompensationStatus]. *)
Inductive SagaCompensationStatus : Set :=
| Registered | Pending | InProgress | Succeeded | Failed | Ambiguous | TimedOut.

#[global] Instance SagaCompensationStatus_eq_dec : EqDecision SagaCompensationStatus.
Proof. solve_decision. Defined.

(** [From<CompensationStatus>]. *)
Definition status_from (s : CompensationCalc.CompensationStatus) : SagaCompensationStatus :=
  match s with
  | CompensationCalc.Pending => Pending
  | CompensationCalc.InProgress => InProgress
  | CompensationCalc.NotNeeded | CompensationCalc.Succeeded => Succeeded
  | CompensationCalc.Failed => Failed
  end.

(** [struct CompensationEntry]. *)
Record CompensationEntry : Set := mkEntry {
  effect_id : string;
  compensation_effect_id : option string;
  policy : CompensationPolicy;
  status : SagaCompensationStatus;
  registered_at : Z;
  started_at : option Z;
  completed_at : option Z;
  timeout_ms : option Z;
  dependencies : list string;
}.

(** [CompensationEntry::new]. *)
Definition entry_new (now : Z) (effect_id : string) (policy : CompensationPolicy)
    (dependencies : list string) : CompensationEntry :=
  mkEntry effect_id None policy Registered now None None None dependencies.

(** The status a compensation may not leave. *)
Definition status_terminal (s : SagaCompensationStatus) : bool :=
  match s with Succeeded | Failed | TimedOut => true | _ => false end.

(** [CompensationEntry::is_terminal]. *)
Definition entry_is_terminal (e : CompensationEntry) : bool := status_terminal (status e).

(** [CompensationEntry::is_timed_out]; [saturating_sub]. *)
Definition is_timed_out (e : CompensationEntry) (now : Z) : bool :=
  match started_at e, timeout_ms e with
  | Some started, Some timeout => timeout <? Z.max 0 (now - started)
  | _, _ => false
  end.

(** [enum CompensationError]. *)
Inductive CompensationError : Type :=
| AlreadyRegistered (effect_id : string)
| NotFound (effect_id : string)
| TerminalState (effect_id : string) (status : SagaCompensationStatus)
| PolicyViolation (effect_id : string) (policy : CompensationPolicy)
| CycleDetected (effect_ids : list string).

(** [struct CompensationManifest]. *)
Record CompensationManifest : Type := mkManifest {
  entries : gmap string CompensationEntry;
  registration_order : list string;
  version : Z;
}.

Definition manifest_default : CompensationManifest := mkManifest ∅ [] 0.

(** ** Operations of the manifest *)

(** [CompensationManifest::register]. *)
Definition register (now : Z) (m : CompensationManifest) (effect_id : string)
    (policy : CompensationPolicy) (dependencies : list string)
  : result CompensationError unit * CompensationManifest :=
  match entries m !! effect_id with
  | Some _ => (Err (AlreadyRegistered effect_id), m)
  | None =>
      (Ok tt, mkManifest (<[effect_id := entry_new now effect_id policy dependencies]> (entries m))
                (registration_order m ++ [effect_id]) (wrapping_add_u64 (version m) 1))
  end.

(** The fields [transition_to] assigns. *)
Definition entry_transition (now : Z) (e : CompensationEntry) (new_status : SagaCompensationStatus)
  : CompensationEntry :=
  mkEntry (effect_id e) (compensation_effect_id e) (policy e) new_status (registered_at e)
    (match new_status with InProgress => Some now | _ => started_at e end)
    (match new_status with Succeeded | Failed => Some now | _ => completed_at e end)
    (timeout_ms e) (dependencies e).

(** [CompensationManifest::transition_to]. *)
Definition transition_to (now : Z) (m : CompensationManifest) (id : string)
    (new_status : SagaCompensationStatus)
  : result CompensationError unit * CompensationManifest :=
  match entries m !! id with
  | None => (Err (NotFound id), m)
  | Some entry =>
      if entry_is_terminal entry then (Err (TerminalState id (status entry)), m)
      else (Ok tt, mkManifest (<[id := entry_transition now entry new_status]> (entries m))
                     (registration_order m) (wrapping_add_u64 (version m) 1))
  end.

(** [pending_compensations] and its siblings: the entries with a status. *)
Definition with_status (m : CompensationManifest) (s : SagaCompensationStatus)
  : list CompensationEntry :=
  base.filter (fun e => status e = s) (snd <$> map_to_list (entries m)).

(** Is the effect registered and pending? *)
Definition is_pending (m : CompensationManifest) (id : string) : bool :=
  match entries m !! id with Some e => bool_decide (status e = Pending) | None => false end.

(** [compensations_awaiting_execution]. *)
Definition compensations_awaiting_execution (m : CompensationManifest) : list CompensationEntry :=
  omap (fun id => e ← entries m !! id; if decide (status e = Pending) then Some e else None)
    (reverse (registration_order m)).

(** [can_execute]. *)
Definition can_execute (m : CompensationManifest) (id : string) : bool :=
  match entries m !! id with
  | None => false
  | Some entry =>
      bool_decide (status entry = Pending) &&
      forallb (fun dep => match entries m !! dep with
                          | Some dep_entry => entry_is_terminal dep_entry
                          | None => true
                          end) (dependencies entry)
  end.

(** The inner loop that collects dependents: for each dependency that is pending, the
    effect is pushed on its list. *)
Definition push_dependent (pending_set : gset string) (effect_id : string)
    (dependents : gmap string (list string)) (dep : string) : gmap string (list string) :=
  if bool_decide (dep ∈ pending_set) then
    match dependents !! dep with
    | Some l => <[dep := l ++ [effect_id]]> dependents
    | None => dependents
    end
  else dependents.

(** The [dependents] map of [get_reverse_dependency_order]. *)
Definition collect_dependents (m : CompensationManifest) (pending_effects : list string)
  : gmap string (list string) :=
  let pending_set : gset string := list_to_set pending_effects in
  let init := foldl (fun d id => <[id := []]> d) ∅ pending_effects in
  foldl (fun d id => match entries m !! id with
                     | Some entry => foldl (push_dependent pending_set id) d (dependencies entry)
                     | None => d
                     end) init pending_effects.

(** The loop that emits effects, over the reversed list; [result] and [emitted]. *)
Definition emit_step (dependents : gmap string (list string))
    (acc : list string * gset string) (id : string) : list string * gset string :=
  let '(result, emitted) := acc in
  let all_deps_emitted :=
    match dependents !! id with
    | None => true
    | Some deps => forallb (fun d => bool_decide (d ∈ emitted)) deps
    end in
  if all_deps_emitted then (result ++ [id], {[id]} ∪ emitted) else (result, emitted).

(** [get_reverse_dependency_order]. *)
Definition get_reverse_dependency_order (m : CompensationManifest)
  : result CompensationError (list string) :=
  let pending_effects := base.filter (fun id => is_pending m id = true) (registration_order m) in
  match pending_effects with
  | [] => Ok []
  | _ =>
      let dependents := collect_dependents m pending_effects in
      let '(result, emitted) := foldl (emit_step dependents) ([], ∅) (reverse pending_effects) in
      if negb (Z.of_nat (length result) =? Z.of_nat (length pending_effects)) then
        Err (CycleDetected (base.filter (fun id => id ∉ emitted) pending_effects))
      else Ok result
  end.

(** ** Reconciliation *)

(** [enum ReconciliationAction]. *)
Inductive ReconciliationAction : Set :=
| CommitCompensation | RetryCompensation | EscalateToOperator | AbandonCompensation.

(** [struct ReconciliationContext]. *)
Record ReconciliationContext : Set := mkContext {
  ctx_effect_id : string;
  ctx_compensation_effect_id : option string;
  last_known_outcome : option string;
  attempts : Z;
  last_attempt_at : option Z;
}.

(** [trait CompensationReconciler]. *)
Definition Reconciler : Type := ReconciliationContext -> ReconciliationAction.

(** [NoOpReconciler]. *)
Definition NoOpReconciler : Reconciler := fun _ => EscalateToOperator.

(** [RetryReconciler]. *)
Definition RetryReconciler (max_attempts : Z) : Reconciler :=
  fun ctx => if attempts ctx <? max_attempts then RetryCompensation else EscalateToOperator.

(** ** Operations of the saga *)

(** [CompensationSaga::register_with_timeout]. *)
Definition register_with_timeout (now : Z) (m : CompensationManifest) (id : string)
    (policy : CompensationPolicy) (dependencies : list string) (timeout : Z)
  : result CompensationError unit * CompensationManifest :=
  match register now m id policy dependencies with
  | (Err e, m') => (Err e, m')
  | (Ok _, m') =>
      match entries m' !! id with
      | None => (Err (NotFound id), m')
      | Some e =>
          (Ok tt, mkManifest (<[id := mkEntry (effect_id e) (compensation_effect_id e)
              (Compensation.policy e) (status e) (registered_at e) (started_at e) (completed_at e)
              (Some timeout) (Compensation.dependencies e)]> (entries m'))
             (registration_order m') (version m'))
      end
  end.

(** [CompensationSaga::queue_pending]. *)
Definition queue_pending (now : Z) (m : CompensationManifest) (id : string)
  : result CompensationError unit * CompensationManifest :=
  match entries m !! id with
  | None => (Err (NotFound id), m)
  | Some entry =>
      if decide (policy entry = CompensateNone) then (Err (PolicyViolation id (policy entry)), m)
      else transition_to now m id Pending
  end.

(** [CompensationSaga::start_compensation]. *)
Definition start_compensation (now : Z) (m : CompensationManifest) (id : string)
  : result CompensationError unit * CompensationManifest :=
  if negb (can_execute m id) then
    (Err (PolicyViolation id (match entries m !! id with
                              | Some e => policy e
                              | None => CompensateNone
                              end)), m)
  else transition_to now m id InProgress.

(** [CompensationSaga::succeed]. *)
Definition succeed (now : Z) (m : CompensationManifest) (id : string)
  : result CompensationError unit * CompensationManifest := transition_to now m id Succeeded.

(** [CompensationSaga::fail]. *)
Definition fail (now : Z) (m : CompensationManifest) (id : string)
  : result CompensationError unit * CompensationManifest := transition_to now m id Failed.

(** [CompensationSaga::mark_ambiguous]. *)
Definition mark_ambiguous (reconcile : Reconciler) (now : Z) (m : CompensationManifest)
    (id : string) : result CompensationError ReconciliationAction * CompensationManifest :=
  match transition_to now m id Ambiguous with
  | (Err e, m') => (Err e, m')
  | (Ok _, m') =>
      match entries m' !! id with
      | None => (Err (NotFound id), m')
      | Some entry =>
          let ctx := mkContext id (compensation_effect_id entry) None 0 (started_at entry) in
          (Ok (reconcile ctx), m')
      end
  end.

(** [CompensationSaga::handle_reconciliation]. *)
Definition handle_reconciliation (now : Z) (m : CompensationManifest) (id : string)
    (action : ReconciliationAction) : result CompensationError unit * CompensationManifest :=
  match action with
  | CommitCompensation => transition_to now m id Succeeded
  | RetryCompensation => transition_to now m id Pending
  | EscalateToOperator | AbandonCompensation => transition_to now m id Failed
  end.

(** [CompensationSaga::check_timeouts]. *)
Definition check_timeouts (now : Z) (m : CompensationManifest) : list string :=
  effect_id <$> base.filter (fun e => is_timed_out e now = true) (with_status m InProgress).

(** The loop of [expire_timed_out]: it stops at the first error. *)
Fixpoint expire_all (now : Z) (m : CompensationManifest) (ids : list string)
  : result CompensationError unit * CompensationManifest :=
  match ids with
  | [] => (Ok tt, m)
  | id :: ids' =>
      match transition_to now m id TimedOut with
      | (Err e, m') => (Err e, m')
      | (Ok _, m') => expire_all now m' ids'
      end
  end.

(** [CompensationSaga::expire_timed_out]; nothing happens between its two lock scopes. *)
Definition expire_timed_out (now : Z) (m : CompensationManifest)
  : result CompensationError unit * CompensationManifest :=
  expire_all now m (check_timeouts now m).

(** [CompensationSaga::get_compensation_order]. *)
Definition get_compensation_order (m : CompensationManifest) : list string :=
  base.filter (fun id => is_pending m id = true) (reverse (registration_order m)).

(** ** Sequences of operations *)

(** The calls that change the manifest. *)
Inductive SagaOp : Type :=
| OpRegister (id : string) (p : CompensationPolicy) (deps : list string)
| OpRegisterTimeout (id : string) (p : CompensationPolicy) (deps : list string) (timeout : Z)
| OpQueue (id : string)
| OpStart (id : string)
| OpSucceed (id : string)
| OpFail (id : string)
| OpAmbiguous (id : string)
| OpReconcile (id : string) (action : ReconciliationAction)
| OpExpire.

Definition exec (rec : Reconciler) (m : CompensationManifest) (op : Z * SagaOp)
  : CompensationManifest :=
  let now := op.1 in
  match op.2 with
  | OpRegister id p deps => (register now m id p deps).2
  | OpRegisterTimeout id p deps t => (register_with_timeout now m id p deps t).2
  | OpQueue id => (queue_pending now m id).2
  | OpStart id => (start_compensation now m id).2
  | OpSucceed id => (succeed now m id).2
  | OpFail id => (fail now m id).2
  | OpAmbiguous id => (mark_ambiguous rec now m id).2
  | OpReconcile id action => (handle_reconciliation now m id action).2
  | OpExpire => (expire_timed_out now m).2
  end.

Definition run (rec : Reconciler) (m : CompensationManifest) (ops : list (Z * SagaOp))
  : CompensationManifest := fold_left (exec rec) ops m.

(** What an operation does to the manifest, in elementary steps: a fresh entry at the
    end of the registration order, or a new status for an entry that is not terminal. *)
Inductive saga_step : CompensationManifest -> CompensationManifest -> Prop :=
| step_register m now id p timeout deps :
    entries m !! id = None ->
    saga_step m (mkManifest
      (<[id := mkEntry id None p Registered now None None timeout deps]> (entries m))
      (registration_order m ++ [id]) (wrapping_add_u64 (version m) 1))
| step_transition m now id e s :
    entries m !! id = Some e -> entry_is_terminal e = false ->
    saga_step m (mkManifest (<[id := entry_transition now e s]> (entries m))
      (registration_order m) (wrapping_add_u64 (version m) 1)).

Lemma transition_to_steps now m id s : rtc saga_step m (transition_to now m id s).2.
Proof.
  unfold transition_to. destruct (entries m !! id) as [e|] eqn:E; [|constructor].
  destruct (entry_is_terminal e) eqn:Ht; [constructor|]. by apply rtc_once, step_transition.
Qed.

Lemma expire_all_steps now m ids : rtc saga_step m (expire_all now m ids).2.
Proof.
  revert m. induction ids as [|id ids IH]; intros m; cbn; [constructor|].
  pose proof (transition_to_steps now m id TimedOut) as Ht.
  destruct (transition_to now m id TimedOut) as [[]m']; cbn in *; [by etrans|done].
Qed.

Lemma exec_steps rec m op : rtc saga_step m (exec rec m op).
Proof.
  destruct op as [now [id p deps|id p deps t|id|id|id|id|id|id act|]]; unfold exec;
    cbn [fst snd].
  - unfold register. destruct (entries m !! id) eqn:E; [constructor|].
    by apply rtc_once, step_register.
  - unfold register_with_timeout, register. destruct (entries m !! id) eqn:E; [constructor|].
    cbn. rewrite lookup_insert_eq, insert_insert_eq. by apply rtc_once, step_register.
  - unfold queue_pending. destruct (entries m !! id) as [e|]; [|constructor].
    case_decide; [constructor|apply transition_to_steps].
  - unfold start_compensation. destruct (can_execute m id); [apply transition_to_steps|constructor].
  - apply transition_to_steps.
  - apply transition_to_steps.
  - unfold mark_ambiguous. pose proof (transition_to_steps now m id Ambiguous) as Ht.
    destruct (transition_to now m id Ambiguous) as [[]m']; cbn in *; [|done].
    by destruct (entries m' !! id).
  - destruct act; apply transition_to_steps.
  - apply expire_all_steps.
Qed.

Lemma run_steps rec m ops : rtc saga_step m (run rec m ops).
Proof.
  revert m. induction ops as [|op ops IH]; intros m; [constructor|].
  etrans; [apply exec_steps|apply IH].
Qed.

(** ** The invariant *)

(** Time stamps agree with the status. *)
Definition entry_wf (e : CompensationEntry) : Prop :=
  (status e = InProgress -> is_Some (started_at e)) /\
  (is_Some (completed_at e) <-> status e = Succeeded \/ status e = Failed).

(** The registration order lists every registered effect once, and every entry carries
    its own identifier. *)
Definition manifest_wf (m : CompensationManifest) : Prop :=
  NoDup (registration_order m) /\
  (forall id, id ∈ registration_order m <-> is_Some (entries m !! id)) /\
  (forall id e, entries m !! id = Some e -> effect_id e = id /\ entry_wf e).

Lemma manifest_wf_default : manifest_wf manifest_default.
Proof.
  split_and!; [constructor| |].
  - intros id. cbn. rewrite lookup_empty. split; [by intros ?%elem_of_nil|by intros []].
  - intros id e. cbn. by rewrite lookup_empty.
Qed.

Lemma entry_transition_wf now e s :
  entry_wf e -> entry_is_terminal e = false -> entry_wf (entry_transition now e s).
Proof.
  intros [H1 H2] Ht. unfold entry_is_terminal in Ht.
  assert (completed_at e = None) as Hc.
  { destruct (completed_at e); [|done]. destruct (proj1 H2) as [E|E]; [by eexists|..];
      rewrite E in Ht; done. }
  unfold entry_wf, entry_transition; cbn. rewrite Hc.
  unfold is_Some in *. destruct s; naive_solver.
Qed.

Lemma saga_step_wf m m' : saga_step m m' -> manifest_wf m -> manifest_wf m'.
Proof.
  intros [? now id p timeout deps E|? now id e s E Ht] (Hnd & Hdom & He); split_and!;
    cbn [entries registration_order].
  - apply NoDup_app. split_and!; [done| |apply NoDup_singleton].
    intros x Hx ->%list_elem_of_singleton. apply Hdom in Hx. rewrite E in Hx. by destruct Hx.
  - intros x. rewrite elem_of_app, list_elem_of_singleton, Hdom.
    destruct (decide (id = x)) as [->|Hne].
    + rewrite lookup_insert_eq. split; [by eexists|by right].
    + rewrite lookup_insert_ne by done. naive_solver.
  - intros x e. destruct (decide (id = x)) as [->|Hne].
    + rewrite lookup_insert_eq. intros [= <-]. split; [done|]. split; [done|]. cbn.
      split; [by intros []|by intros []].
    + rewrite lookup_insert_ne by done. apply He.
  - done.
  - intros x. rewrite Hdom. destruct (decide (id = x)) as [->|Hne].
    + rewrite lookup_insert_eq, E. by split; eexists.
    + by rewrite lookup_insert_ne.
  - intros x e'. destruct (decide (id = x)) as [->|Hne].
    + rewrite lookup_insert_eq. intros [= <-]. destruct (He _ _ E) as [Hid Hwf].
      split; [done|by apply entry_transition_wf].
    + rewrite lookup_insert_ne by done. apply He.
Qed.

Lemma saga_steps_wf m m' : rtc saga_step m m' -> manifest_wf m -> manifest_wf m'.
Proof. induction 1 as [|m m' m'' Hs _ IH]; [done|]. intros Hwf. by eapply IH, saga_step_wf. Qed.

Lemma saga_step_terminal m m' id e :
  saga_step m m' -> entries m !! id = Some e -> entry_is_terminal e = true ->
  entries m' !! id = Some e.
Proof.
  intros [? now id2 p timeout deps E|? now id2 e2 s E Ht] He Hte; cbn [entries];
    rewrite lookup_insert_ne; [done| |done|]; intros <-; congruence.
Qed.

Lemma saga_step_order m m' :
  saga_step m m' -> registration_order m `prefix_of` registration_order m'.
Proof. intros []; cbn; [by eexists|done]. Qed.

(** Invariant of the saga: after any sequence of operations, at any clock readings
    and with any reconciler, the registration order lists exactly the registered effects,
    each once, an entry in progress has a start time, and exactly the succeeded and
    failed ones have a completion time. *)
Theorem saga_invariant rec ops : manifest_wf (run rec manifest_default ops).
Proof.
  eapply saga_steps_wf; [apply run_steps|exact manifest_wf_default].
Qed.

(** Terminal compensations are final: once a compensation has succeeded, failed or
    timed out, no operation changes its entry in any way, and no operation reorders or
    forgets what was registered. *)
Theorem terminal_compensations_final rec m ops id e :
  entries m !! id = Some e -> entry_is_terminal e = true ->
  entries (run rec m ops) !! id = Some e /\
  registration_order m `prefix_of` registration_order (run rec m ops).
Proof.
  intros He Ht. pose proof (run_steps rec m ops) as H. revert He.
  induction H as [|m m' m'' Hs _ IH]; [done|]. intros He.
  destruct IH as [H1 H2]; [by eapply saga_step_terminal|]. split; [done|].
  etrans; [by apply saga_step_order|done].
Qed.

(** ** The reverse dependency order *)

Section ReverseOrder.
Context (m : CompensationManifest) (Hwf : manifest_wf m).

(** The pending effects, in registration order. *)
Definition pending_effects : list string :=
  base.filter (fun id => is_pending m id = true) (registration_order m).

Definition deps_of (id : string) : list string :=
  match entries m !! id with Some e => dependencies e | None => [] end.

Lemma pending_NoDup : NoDup pending_effects.
Proof. apply NoDup_filter, Hwf. Qed.

(** What the map of dependents holds: the pending effects that name the key. *)
Lemma push_dependents ps id deps d x l :
  x ∈ ps -> d !! x = Some l ->
  exists l', foldl (push_dependent ps id) d deps !! x = Some l' /\
    forall y, y ∈ l' <-> y ∈ l \/ y = id /\ x ∈ deps.
Proof.
  intros Hx. revert d l. induction deps as [|dep deps IH]; intros d l Hl; cbn [foldl].
  { exists l. split; [done|]. set_solver. }
  destruct (decide (dep = x)) as [->|Hne].
  - destruct (IH (push_dependent ps id d x) (l ++ [id])) as (l' & H1 & H2).
    { unfold push_dependent. rewrite bool_decide_eq_true_2, Hl by done.
      by rewrite lookup_insert_eq. }
    exists l'. split; [done|]. intros y. rewrite H2. set_solver.
  - destruct (IH (push_dependent ps id d dep) l) as (l' & H1 & H2).
    { unfold push_dependent. case_bool_decide; [|done]. destruct (d !! dep); [|done].
      by rewrite lookup_insert_ne. }
    exists l'. split; [done|]. intros y. rewrite H2. set_solver.
Qed.

Lemma collect_dependents_lookup x :
  x ∈ pending_effects ->
  exists l, collect_dependents m pending_effects !! x = Some l /\
    forall y, y ∈ l <-> y ∈ pending_effects /\ x ∈ deps_of y.
Proof.
  intros Hx. unfold collect_dependents.
  set (ps := list_to_set pending_effects : gset string).
  assert (x ∈ ps) as Hps by (by apply elem_of_list_to_set).
  set (f := fun d id => match entries m !! id with
              | Some entry => foldl (push_dependent ps id) d (dependencies entry)
              | None => d
              end).
  assert (forall ids d l, d !! x = Some l ->
    exists l', foldl f d ids !! x = Some l' /\
      forall y, y ∈ l' <-> y ∈ l \/ y ∈ ids /\ x ∈ deps_of y) as Hfold.
  { induction ids as [|id ids IH]; intros d l Hl; cbn [foldl].
    { exists l. split; [done|]. set_solver. }
    assert (exists l1, f d id !! x = Some l1 /\
      forall y, y ∈ l1 <-> y ∈ l \/ y = id /\ x ∈ deps_of id) as (l1 & H1 & H2).
    { unfold f, deps_of. destruct (entries m !! id) as [e|].
      - apply push_dependents; done.
      - exists l. split; [done|]. set_solver. }
    destruct (IH _ _ H1) as (l2 & H3 & H4). exists l2. split; [done|].
    intros y. rewrite H4, H2. set_solver. }
  destruct (Hfold pending_effects (foldl (fun d id => <[id := []]> d) ∅ pending_effects) [])
    as (l & H1 & H2); [|exists l; split; [done|]; set_solver].
  clear -Hx. revert Hx. generalize pending_effects as ids. intros ids.
  induction ids as [|id ids IH] using rev_ind; intros Hx; [by apply elem_of_nil in Hx|].
  rewrite foldl_app. cbn. apply elem_of_app in Hx as [Hx|Hx].
  - destruct (decide (id = x)) as [->|Hne]; [by rewrite lookup_insert_eq|].
    rewrite lookup_insert_ne by done. by apply IH.
  - apply list_elem_of_singleton in Hx as ->. by rewrite lookup_insert_eq.
Qed.

End ReverseOrder.

(** ** Emission *)

Lemma emit_length D acc l :
  (length (foldl (emit_step D) acc l).1 <= length acc.1 + length l)%nat.
Proof.
  revert acc. induction l as [|x l IH]; intros [r E]; cbn [foldl]; [cbn; lia|].
  etrans; [apply IH|]. cbn. destruct (match D !! x with None => _ | _ => _ end); cbn;
    rewrite ?length_app; cbn; lia.
Qed.

(** Everything is emitted exactly when every effect comes after its dependents. *)
Lemma emit_all D acc l :
  let final := foldl (emit_step D) (acc, list_to_set acc) l in
  length final.1 = (length acc + length l)%nat <->
  (forall p x s, l = p ++ x :: s -> forall y, y ∈ default [] (D !! x) -> y ∈ acc ++ p).
Proof.
  revert acc. induction l as [|x l IH]; intros acc; cbn [foldl].
  { split; [|done]. intros _ [|a b] x s E; done. }
  unfold emit_step at 2. set (ok := match D !! x with None => true | _ => _ end).
  assert (ok = true <-> forall y, y ∈ default [] (D !! x) -> y ∈ acc) as Hok.
  { unfold ok. destruct (D !! x) as [deps|]; cbn; [|set_solver].
    rewrite forallb_Forall, Forall_forall. setoid_rewrite bool_decide_eq_true.
    by setoid_rewrite elem_of_list_to_set. }
  destruct ok.
  - replace ({[x]} ∪ list_to_set acc : gset string) with (list_to_set (acc ++ [x]) : gset string)
      by set_solver.
    cbn [length]. replace (length acc + S (length l))%nat with (length (acc ++ [x]) + length l)%nat
      by (rewrite length_app; cbn; lia).
    rewrite IH. split.
    + intros H p z s E y Hy. destruct p as [|z' p]; cbn in E; injection E as -> ->.
      * rewrite app_nil_r. by apply Hok.
      * specialize (H p z s eq_refl y Hy). by rewrite <- app_assoc in H.
    + intros H p z s -> y Hy. rewrite <- app_assoc. by apply (H (x :: p) z s).
  - split.
    + intros Hlen. exfalso. pose proof (emit_length D (acc, list_to_set acc) l) as Hle.
      cbn [fst length] in *. lia.
    + intros H. exfalso. assert (false = true); [|done]. apply Hok. intros y Hy.
      specialize (H [] x l eq_refl y Hy). by rewrite app_nil_r in H.
Qed.

Lemma emit_sublist D acc l :
  exists r, (foldl (emit_step D) acc l).1 = acc.1 ++ r /\ r `sublist_of` l.
Proof.
  revert acc. induction l as [|x l IH]; intros [r E]; cbn [foldl].
  { exists []. by rewrite app_nil_r. }
  cbn [emit_step]. destruct (match D !! x with None => _ | _ => _ end).
  - destruct (IH (r ++ [x], {[x]} ∪ E)) as (r' & -> & Hr). exists (x :: r'). cbn.
    rewrite <- app_assoc. split; [done|by constructor].
  - destruct (IH (r, E)) as (r' & -> & Hr). exists r'. split; [done|by constructor].
Qed.

(** Every pending dependency of a pending effect was registered before it. *)
Definition dependency_ordered (m : CompensationManifest) : Prop :=
  forall e d, e ∈ pending_effects m -> d ∈ pending_effects m -> d ∈ deps_of m e ->
    before (pending_effects m) d e.

Lemma emit_emitted D acc l :
  let final := foldl (emit_step D) (acc, list_to_set acc) l in final.2 = list_to_set final.1.
Proof.
  revert acc. induction l as [|x l IH]; intros acc; cbn [foldl]; [done|].
  cbn [emit_step]. destruct (match D !! x with None => _ | _ => _ end); [|apply IH].
  replace ({[x]} ∪ list_to_set acc : gset string) with (list_to_set (acc ++ [x]) : gset string)
    by set_solver. apply IH.
Qed.

(** The emission loop over the reversed pending effects emits all of them exactly when
    they are ordered by dependency. *)
Lemma emit_pending m :
  manifest_wf m ->
  let final := foldl (emit_step (collect_dependents m (pending_effects m))) ([], ∅)
                 (reverse (pending_effects m)) in
  length final.1 = length (pending_effects m) <-> dependency_ordered m.
Proof.
  intros Hwf final. subst final. pose proof (pending_NoDup m Hwf) as Hnd.
  pose proof (emit_all (collect_dependents m (pending_effects m)) [] (reverse (pending_effects m)))
    as H. cbn [list_to_set length app] in H. rewrite length_reverse, Nat.add_0_l in H.
  cbn zeta. rewrite H. clear H. split.
  - intros H e d He Hd Hde. destruct (list_elem_of_split _ _ Hd) as (a & b & E).
    rewrite (before_after _ d e a b Hnd E).
    destruct (collect_dependents_lookup m Hwf d Hd) as (l & Hl & Hlm).
    specialize (H (reverse b) d (reverse a)). rewrite Hl in H. cbn in H.
    rewrite <- elem_of_reverse. apply H; [|by apply Hlm].
    rewrite E, reverse_app, reverse_cons, <- app_assoc. done.
  - intros H p x s E y Hy.
    assert (pending_effects m = reverse s ++ x :: reverse p) as E'.
    { rewrite <- (reverse_involutive (pending_effects m)), E, reverse_app, reverse_cons.
      by rewrite <- app_assoc. }
    assert (x ∈ pending_effects m) as Hx by (rewrite E'; set_solver).
    destruct (collect_dependents_lookup m Hwf x Hx) as (l & Hl & Hlm). rewrite Hl in Hy. cbn in Hy.
    apply Hlm in Hy as [Hy Hxy]. specialize (H y x Hy Hx Hxy).
    rewrite (before_after _ x y _ _ Hnd E') in H. by rewrite elem_of_reverse in H.
Qed.

Lemma get_reverse_unfold m :
  get_reverse_dependency_order m =
    let final := foldl (emit_step (collect_dependents m (pending_effects m))) ([], ∅)
                   (reverse (pending_effects m)) in
    if negb (Z.of_nat (length final.1) =? Z.of_nat (length (pending_effects m)))
    then Err (CycleDetected (base.filter (fun id => id ∉ final.2) (pending_effects m)))
    else Ok final.1.
Proof.
  unfold get_reverse_dependency_order. fold (pending_effects m).
  destruct (pending_effects m) as [|x l]; [done|]. cbn zeta. by destruct (foldl _ _ _).
Qed.

Lemma sublist_same_length {A} (r l : list A) : r `sublist_of` l -> length r = length l -> r = l.
Proof.
  induction 1 as [|x r l Hs IH|x r l Hs IH]; cbn; intros E; [done| |].
  - f_equal. apply IH. lia.
  - apply sublist_length in Hs. lia.
Qed.

Lemma emit_whole D l :
  length (foldl (emit_step D) ([], ∅) l).1 = length l ->
  (foldl (emit_step D) ([], ∅) l).1 = l.
Proof.
  destruct (emit_sublist D ([], ∅) l) as (r & -> & Hs). cbn.
  by apply sublist_same_length.
Qed.

(** The published order of execution: it is the pending effects in reverse
    registration order, every effect before its dependencies, and it is given exactly
    when every pending dependency was registered before its dependents; otherwise a
    cycle is reported, with at least one effect and only pending ones, although the
    dependencies need not be cyclic. *)
Theorem reverse_order_spec m :
  manifest_wf m ->
  (forall l, get_reverse_dependency_order m = Ok l <->
     l = reverse (pending_effects m) /\ dependency_ordered m) /\
  (forall l e d, get_reverse_dependency_order m = Ok l -> e ∈ l -> d ∈ l -> d ∈ deps_of m e ->
     before l e d) /\
  (forall err, get_reverse_dependency_order m = Err err ->
     exists ids, err = CycleDetected ids /\ ids <> [] /\ ids ⊆ pending_effects m).
Proof.
  intros Hwf. pose proof (emit_pending m Hwf) as Hemit. cbn zeta in Hemit.
  rewrite get_reverse_unfold. cbn zeta.
  set (final := foldl _ _ _) in *.
  assert (length final.1 = length (pending_effects m) -> final.1 = reverse (pending_effects m))
    as Hall by (rewrite <- (length_reverse (pending_effects m)); apply emit_whole).
  destruct (Z.eqb_spec (Z.of_nat (length final.1)) (Z.of_nat (length (pending_effects m))))
    as [El|El]; cbn [negb].
  - assert (length final.1 = length (pending_effects m)) as El' by lia.
    assert (dependency_ordered m) as Hord by (by apply Hemit). rewrite (Hall El').
    split_and!; [naive_solver| |done]. intros l e d [= <-] He Hd Hde.
    rewrite elem_of_reverse in He, Hd.
    destruct (Hord e d He Hd Hde) as (a & b & E & Hda).
    apply list_elem_of_split in Hda as (a1 & a2 & ->).
    exists (reverse b ++ e :: reverse a2), (reverse a1). rewrite E.
    rewrite !reverse_app, !reverse_cons, <- !app_assoc. split; [done|]. set_solver.
  - assert (length final.1 <> length (pending_effects m)) as El' by lia.
    split_and!; [naive_solver|done|]. intros err [= <-]. eexists. split_and!; [done| |].
    + intros Hnil. destruct (emit_sublist (collect_dependents m (pending_effects m)) ([], ∅)
        (reverse (pending_effects m))) as (r & Hr & Hs). fold final in Hr. cbn in Hr.
      apply sublist_length in Hs. rewrite length_reverse, <- Hr in Hs.
      assert (length (pending_effects m) <= length final.1)%nat; [|lia].
      apply submseteq_length, NoDup_submseteq; [by apply pending_NoDup|]. intros x Hx.
      assert (x ∈ final.2) as Hx2.
      { apply dec_stable. intros Hn. assert (x ∈ []); [|set_solver]. rewrite <- Hnil.
        by apply list_elem_of_filter. }
      unfold final in Hx2.
      change (∅ : gset string) with (list_to_set [] : gset string) in Hx2.
      rewrite emit_emitted in Hx2. by apply elem_of_list_to_set in Hx2.
    + intros x [_ Hx]%list_elem_of_filter. done.
Qed.

(** ** Executing compensations in a given order *)

(** Start each compensation and let it succeed, in order. *)
Fixpoint execute_in_order (now : Z) (m : CompensationManifest) (ids : list string)
  : result CompensationError unit :=
  match ids with
  | [] => Ok tt
  | id :: ids' =>
      match start_compensation now m id with
      | (Err e, _) => Err e
      | (Ok _, m1) =>
          match succeed now m1 id with
          | (Err e, _) => Err e
          | (Ok _, m2) => execute_in_order now m2 ids'
          end
      end
  end.

(** A dependency that does not hold up its dependents. *)
Definition dep_ready (m : CompensationManifest) (d : string) : Prop :=
  forall e, entries m !! d = Some e -> entry_is_terminal e = true.

Lemma is_pending_entry m id :
  is_pending m id = true <-> exists e, entries m !! id = Some e /\ status e = Pending.
Proof.
  unfold is_pending. destruct (entries m !! id) as [e|]; [|naive_solver].
  rewrite bool_decide_eq_true. naive_solver.
Qed.

Lemma can_execute_spec m id :
  is_pending m id = true ->
  can_execute m id = true <-> forall d, d ∈ deps_of m id -> dep_ready m d.
Proof.
  intros (e & He & Hs)%is_pending_entry. unfold can_execute, deps_of. rewrite He.
  rewrite (bool_decide_eq_true_2 _ Hs). cbn [andb]. rewrite forallb_Forall, Forall_forall.
  unfold dep_ready. split; intros H d Hd; specialize (H d Hd); destruct (entries m !! d);
    naive_solver.
Qed.

(** The effect of starting a compensation and letting it succeed. *)
Lemma start_succeed now m id e :
  entries m !! id = Some e -> status e = Pending -> can_execute m id = true ->
  exists m1 m2 e', start_compensation now m id = (Ok tt, m1) /\ succeed now m1 id = (Ok tt, m2) /\
    entries m2 = <[id := e']> (entries m) /\ entry_is_terminal e' = true /\
    dependencies e' = dependencies e.
Proof.
  intros He Hs Hc. unfold start_compensation, succeed, transition_to. rewrite Hc. cbn [negb].
  rewrite He. unfold entry_is_terminal at 1. rewrite Hs. cbn [status_terminal].
  eexists _, _, _. split; [done|]. cbn [entries]. rewrite lookup_insert_eq.
  split; [done|]. cbn [entries]. rewrite insert_insert_eq. done.
Qed.

Lemma execute_in_order_ok now m ids :
  NoDup ids -> Forall (fun id => is_pending m id = true) ids ->
  execute_in_order now m ids = Ok tt <->
  (forall p e s, ids = p ++ e :: s -> forall d, d ∈ deps_of m e -> dep_ready m d \/ d ∈ p).
Proof.
  revert m. induction ids as [|id ids IH]; intros m Hnd Hp.
  { split; [|done]. intros _ [|a b] e s E; done. }
  apply NoDup_cons in Hnd as [Hid Hnd]. apply Forall_cons in Hp as [Hpid Hp].
  cbn [execute_in_order]. pose proof (can_execute_spec m id Hpid) as Hcan.
  apply is_pending_entry in Hpid as (e & He & Hs).
  destruct (can_execute m id) eqn:Hc.
  2:{ unfold start_compensation. rewrite Hc. cbn [negb]. split; [done|]. intros H. exfalso.
      assert (false = true); [|done]. apply Hcan. intros d Hd.
      destruct (H [] id ids eq_refl d Hd) as [?|?%elem_of_nil]; done. }
  destruct (start_succeed now m id e He Hs Hc) as (m1 & m2 & e' & -> & -> & Em & Ht & Hd').
  assert (forall x, x <> id -> entries m2 !! x = entries m !! x) as Hother
    by (intros x Hx; by rewrite Em, lookup_insert_ne).
  assert (forall x, dep_ready m2 x <-> dep_ready m x \/ x = id) as Hready.
  { intros x. unfold dep_ready. destruct (decide (x = id)) as [->|Hx].
    - rewrite Em, lookup_insert_eq. split; [by right|]. by intros _ ? [= <-].
    - rewrite Hother by done. naive_solver. }
  rewrite IH; [|done|].
  2:{ apply Forall_forall. intros x Hx. rewrite Forall_forall in Hp.
      unfold is_pending. rewrite Hother by (by intros ->). by apply Hp. }
  assert (forall x, x ∈ ids -> deps_of m2 x = deps_of m x) as Hdeps
    by (intros x Hx; unfold deps_of; by rewrite Hother by (by intros ->)).
  split.
  - intros H [|y p] x s E d Hd; cbn in E; injection E as -> ->.
    + left. by apply Hcan.
    + rewrite <- Hdeps in Hd by set_solver. specialize (H p x s eq_refl d Hd).
      rewrite Hready in H. set_solver.
  - intros H p x s -> d Hd. rewrite Hdeps in Hd by set_solver.
    destruct (H (id :: p) x s eq_refl d Hd) as [Hr|Hin]; rewrite Hready; set_solver.
Qed.

Lemma pending_effects_pending m l :
  l ⊆ pending_effects m -> Forall (fun id => is_pending m id = true) l.
Proof.
  intros H. apply Forall_forall. intros x Hx%H. by apply list_elem_of_filter in Hx as [? _].
Qed.

(** The order that can be executed is the opposite of the published one. Where every
    dependency outside the pending effects is settled, running the compensations in the
    reverse of [get_reverse_dependency_order] (dependencies first) starts and completes
    every one of them; running them in the published order gets through only if no
    pending effect depends on another, since [can_execute] waits for the dependencies. *)
Theorem compensation_execution_order now m l :
  manifest_wf m -> get_reverse_dependency_order m = Ok l ->
  (forall e d, e ∈ l -> d ∈ deps_of m e -> d ∈ l \/ dep_ready m d) ->
  execute_in_order now m (reverse l) = Ok tt /\
  (execute_in_order now m l = Ok tt <-> forall e d, e ∈ l -> d ∈ deps_of m e -> d ∉ l).
Proof.
  intros Hwf Hl Hdeps. pose proof (pending_NoDup m Hwf) as Hnd.
  rewrite get_reverse_unfold in Hl. pose proof (emit_pending m Hwf) as Hemit. cbn zeta in *.
  set (final := foldl _ _ _) in *.
  destruct (Z.eqb_spec (Z.of_nat (length final.1)) (Z.of_nat (length (pending_effects m))))
    as [El|El]; [|done]. cbn [negb] in Hl. injection Hl as Hl.
  assert (length final.1 = length (pending_effects m)) as El' by lia.
  assert (l = reverse (pending_effects m)) as ->
    by (rewrite <- Hl; apply emit_whole; rewrite length_reverse; exact El').
  assert (dependency_ordered m) as Hord by (by apply Hemit). clear Hemit Hl El El'.
  rewrite reverse_involutive. split.
  - apply execute_in_order_ok; [done|by apply pending_effects_pending|].
    intros p e s E d Hd. assert (e ∈ pending_effects m) as He by (rewrite E; set_solver).
    destruct (Hdeps e d ltac:(by rewrite elem_of_reverse) Hd) as [Hin|?]; [right|by left].
    rewrite elem_of_reverse in Hin. destruct (Hord e d He Hin Hd) as (a & b & E' & Ha).
    rewrite E in E'. apply NoDup_split_unique in E' as [-> _]; [done|]. by rewrite <- E.
  - rewrite execute_in_order_ok; [|by rewrite reverse_Permutation|].
    2:{ apply pending_effects_pending. intros x. by rewrite elem_of_reverse. }
    split.
    + intros H e d He Hd Hin. destruct (list_elem_of_split _ _ He) as (a & b & E).
      rewrite elem_of_reverse in He, Hin. destruct (H a e b E d Hd) as [Hr|Ha].
      * apply list_elem_of_filter in Hin as [(ed & Hed & Hs)%is_pending_entry _].
        specialize (Hr ed Hed). unfold entry_is_terminal in Hr. by rewrite Hs in Hr.
      * pose proof (Hord e d He Hin Hd) as Hb.
        assert (pending_effects m = reverse b ++ e :: reverse a) as E2.
        { rewrite <- (reverse_involutive (pending_effects m)), E, reverse_app, reverse_cons.
          by rewrite <- app_assoc. }
        destruct Hb as (a' & b' & E3 & Hda). rewrite E2 in E3, Hnd.
        apply NoDup_split_unique in E3 as [<- _]; [|done]. rewrite elem_of_reverse in Hda.
        apply NoDup_app in Hnd as (_ & Hdis & _). apply (Hdis d); [by rewrite elem_of_reverse|].
        right. by rewrite elem_of_reverse.
    + intros H p e s E d Hd.
      assert (e ∈ reverse (pending_effects m)) as He by (rewrite E; set_solver).
      destruct (Hdeps e d He Hd) as [Hin|?]; [|by left]. by destruct (H e d He Hd).
Qed.

(** ** Reconciliation and timeouts *)

(** Retrying never ends by itself: the context of a reconciliation always says that
    nothing was attempted, so a [RetryReconciler] with a positive bound answers
    [RetryCompensation] every time a compensation is marked ambiguous, and handling that
    answer makes it pending again; the bound never escalates to an operator. *)
Theorem retry_never_escalates max_attempts now m id action m' :
  0 < max_attempts ->
  mark_ambiguous (RetryReconciler max_attempts) now m id = (Ok action, m') ->
  action = RetryCompensation /\
  exists m'', handle_reconciliation now m' id action = (Ok tt, m'') /\ is_pending m'' id = true.
Proof.
  intros Hmax. unfold mark_ambiguous, transition_to.
  destruct (entries m !! id) as [e|] eqn:He; [|done].
  destruct (entry_is_terminal e); [done|]. cbn [entries]. rewrite lookup_insert_eq.
  unfold RetryReconciler. cbn [attempts]. rewrite (proj2 (Z.ltb_lt _ _)) by done.
  intros [= <- <-]. split; [done|]. eexists. unfold handle_reconciliation, transition_to.
  cbn [entries]. rewrite lookup_insert_eq. split; [done|].
  apply is_pending_entry. cbn [entries]. rewrite lookup_insert_eq. by eexists.
Qed.

(** Which entries a timeout check at [now] finds. *)
Definition expired (now : Z) (e : CompensationEntry) : bool :=
  bool_decide (status e = InProgress) && is_timed_out e now.

Lemma expire_all_spec now m ids :
  NoDup ids -> Forall (fun id => exists e, entries m !! id = Some e /\ expired now e = true) ids ->
  exists m', expire_all now m ids = (Ok tt, m') /\
    forall id, entries m' !! id =
      (fun e => if bool_decide (id ∈ ids) then entry_transition now e TimedOut else e)
        <$> entries m !! id.
Proof.
  revert m. induction ids as [|id ids IH]; intros m Hnd Hf; cbn [expire_all].
  { exists m. split; [done|]. intros id. by destruct (entries m !! id). }
  apply NoDup_cons in Hnd as [Hid Hnd]. apply Forall_cons in Hf as [(e & He & Hex) Hf].
  unfold transition_to. rewrite He. unfold expired in Hex.
  apply andb_prop in Hex as [Hs%bool_decide_eq_true _].
  unfold entry_is_terminal. rewrite Hs. cbn [status_terminal].
  edestruct IH as (m' & -> & Hm'); [done| |].
  { rewrite Forall_forall in *. cbn [entries]. intros x Hx. destruct (Hf x Hx) as (ex & Hex).
    exists ex. by rewrite lookup_insert_ne by (by intros ->). }
  exists m'. split; [done|]. intros x. rewrite Hm'. cbn [entries].
  destruct (decide (id = x)) as [->|Hne].
  - rewrite lookup_insert_eq, He. cbn. rewrite bool_decide_eq_false_2 by done.
    by rewrite bool_decide_eq_true_2 by left.
  - rewrite lookup_insert_ne by done. destruct (entries m !! x); cbn; [|done].
    f_equal. assert (bool_decide (x ∈ ids) = bool_decide (x ∈ id :: ids)) as ->; [|done].
    apply bool_decide_ext. set_solver.
Qed.

Lemma with_status_elem m s e :
  manifest_wf m ->
  e ∈ with_status m s <-> entries m !! effect_id e = Some e /\ status e = s.
Proof.
  intros (_ & _ & He). unfold with_status. rewrite list_elem_of_filter, list_elem_of_fmap. split.
  - intros [Hs ([id e'] & -> & Hm%elem_of_map_to_list)]. cbn. by rewrite (proj1 (He id e' Hm)).
  - intros [Hm Hs]. split; [done|]. exists (effect_id e, e). by rewrite elem_of_map_to_list.
Qed.

Lemma check_timeouts_elem now m id :
  manifest_wf m ->
  id ∈ check_timeouts now m <-> exists e, entries m !! id = Some e /\ expired now e = true.
Proof.
  intros Hwf. unfold check_timeouts, expired. rewrite list_elem_of_fmap. split.
  - intros (e & -> & [Ht Hin]%list_elem_of_filter).
    apply with_status_elem in Hin as [Hm Hs]; [|done].
    exists e. rewrite Hs, Ht. by rewrite bool_decide_eq_true_2.
  - intros (e & Hm & [Hs%bool_decide_eq_true Ht]%andb_prop).
    assert (effect_id e = id) as <- by (by apply Hwf). exists e. split; [done|].
    apply list_elem_of_filter. split; [done|]. by apply with_status_elem.
Qed.

Lemma check_timeouts_NoDup now m : manifest_wf m -> NoDup (check_timeouts now m).
Proof.
  intros Hwf. unfold check_timeouts. apply NoDup_fmap_2_strong.
  - intros e1 e2 [_ H1]%list_elem_of_filter [_ H2]%list_elem_of_filter E.
    apply with_status_elem in H1 as [H1 _], H2 as [H2 _]; [|done..]. congruence.
  - apply NoDup_filter. unfold with_status. apply NoDup_filter, NoDup_fmap_2_strong;
      [|apply NoDup_map_to_list].
    intros [i1 e1] [i2 e2] H1%elem_of_map_to_list H2%elem_of_map_to_list E. cbn in E. subst e2.
    destruct (proj2 (proj2 Hwf) _ _ H1) as [<- _], (proj2 (proj2 Hwf) _ _ H2) as [<- _]. done.
Qed.

(** Expiry: a timeout check never fails, and it times out exactly the compensations
    in progress that have run for longer than their timeout; it changes nothing else, a
    compensation without a timeout never expires, and a second check finds nothing. *)
Theorem expire_timed_out_spec now m :
  manifest_wf m ->
  exists m', expire_timed_out now m = (Ok tt, m') /\
    (forall id, entries m' !! id =
       (fun e => if expired now e then entry_transition now e TimedOut else e)
         <$> entries m !! id) /\
    check_timeouts now m' = [].
Proof.
  intros Hwf. unfold expire_timed_out.
  destruct (expire_all_spec now m (check_timeouts now m)) as (m' & Hm' & Hent).
  { by apply check_timeouts_NoDup. }
  { apply Forall_forall. intros id. by rewrite check_timeouts_elem. }
  assert (forall id, entries m' !! id =
       (fun e => if expired now e then entry_transition now e TimedOut else e)
         <$> entries m !! id) as Hent'.
  { intros id. rewrite Hent. destruct (entries m !! id) as [e|] eqn:E; cbn; [|done]. f_equal.
    pose proof (check_timeouts_elem now m id Hwf) as Hin. case_bool_decide as Hb.
    - apply Hin in Hb as (e' & E' & Hex). simplify_eq. by rewrite Hex.
    - destruct (expired now e) eqn:Hex; [|done]. destruct Hb. apply Hin. by exists e. }
  exists m'. split_and!; [done..|].
  assert (manifest_wf m') as Hwf'.
  { eapply saga_steps_wf; [|done]. pose proof (expire_all_steps now m (check_timeouts now m)) as Hs.
    by rewrite Hm' in Hs. }
  destruct (check_timeouts now m') as [|id l] eqn:E; [done|]. exfalso.
  assert (id ∈ check_timeouts now m') as Hin by (rewrite E; left).
  apply check_timeouts_elem in Hin as (e' & He' & Hex); [|done]. rewrite Hent' in He'.
  destruct (entries m !! id) as [e|]; cbn in He'; [|done]. injection He' as <-.
  destruct (expired now e) eqn:Hx; [done|congruence].
Qed.

(** ** The theorems at concrete inputs *)

Module CompensationWitness.

(** Reserve, then charge, which depends on it; both are queued. *)
Definition ops : list (Z * SagaOp) :=
  [(10, OpRegister "reserve" CompensateAutomatic []);
   (11, OpRegisterTimeout "charge" CompensateAutomatic ["reserve"] 5);
   (12, OpQueue "reserve"); (12, OpQueue "charge")].

Definition queued : CompensationManifest := run NoOpReconciler manifest_default ops.

Lemma queued_wf : manifest_wf queued.
Proof. eapply saga_steps_wf; [apply run_steps|exact manifest_wf_default]. Qed.

Example published_order : get_reverse_dependency_order queued = Ok ["charge"; "reserve"].
Proof. reflexivity. Qed.

Example published_order_blocked :
  execute_in_order 20 queued ["charge"; "reserve"]
  = Err (PolicyViolation "charge" CompensateAutomatic).
Proof. reflexivity. Qed.

(** A dependency registered after its dependent is reported as a cycle. *)
Example false_cycle :
  get_reverse_dependency_order
    (run NoOpReconciler manifest_default
       [(1, OpRegister "charge" CompensateAutomatic ["reserve"]);
        (2, OpRegister "reserve" CompensateAutomatic []);
        (3, OpQueue "reserve"); (3, OpQueue "charge")])
  = Err (CycleDetected ["reserve"]).
Proof. reflexivity. Qed.

Definition finished : CompensationManifest :=
  run NoOpReconciler queued [(13, OpStart "reserve"); (14, OpSucceed "reserve")].

Definition reserved : CompensationEntry :=
  mkEntry "reserve" None CompensateAutomatic Succeeded 10 (Some 13) (Some 14) None [].

Lemma terminal_compensations_final_witness :
  entries (run NoOpReconciler finished [(15, OpFail "reserve"); (16, OpQueue "reserve")])
    !! "reserve" = Some reserved.
Proof.
  refine (proj1 (terminal_compensations_final NoOpReconciler finished
    [(15, OpFail "reserve"); (16, OpQueue "reserve")] "reserve" reserved _ _)); reflexivity.
Defined.

Lemma reverse_order_spec_witness :
  get_reverse_dependency_order queued = Ok (reverse (pending_effects queued)) <->
  reverse (pending_effects queued) = reverse (pending_effects queued) /\
  dependency_ordered queued.
Proof. exact (proj1 (reverse_order_spec queued queued_wf) _). Defined.

Lemma compensation_execution_order_witness :
  execute_in_order 20 queued ["reserve"; "charge"] = Ok tt.
Proof.
  refine (proj1 (compensation_execution_order 20 queued ["charge"; "reserve"] queued_wf _ _)).
  - reflexivity.
  - intros e d He Hd. left.
    apply elem_of_cons in He as [->|He%list_elem_of_singleton]; [|subst e].
    + apply list_elem_of_singleton in Hd as ->. right. left.
    + by apply elem_of_nil in Hd.
Defined.

Lemma retry_never_escalates_witness :
  exists m', mark_ambiguous (RetryReconciler 3) 20 queued "charge" = (Ok RetryCompensation, m') /\
    exists m'', handle_reconciliation 20 m' "charge" RetryCompensation = (Ok tt, m'') /\
      is_pending m'' "charge" = true.
Proof.
  eexists. split; [reflexivity|].
  refine (proj2 (retry_never_escalates 3 20 queued "charge" RetryCompensation _ _ _));
    [lia|reflexivity].
Defined.

Lemma expire_timed_out_spec_witness :
  exists m', expire_timed_out 20 queued = (Ok tt, m') /\ check_timeouts 20 m' = [].
Proof.
  destruct (expire_timed_out_spec 20 queued queued_wf) as (m' & H1 & _ & H2).
  exists m'. split; [exact H1|exact H2].
Defined.
End CompensationWitness.
