(* ===== verification/CompensationOrder.v ===== *)
(** * Compensation order

    [crates/vo-core/src/compensation_order/topology.rs]: the order in which the effects
    of a workflow are compensated, by Kahn's algorithm over their dependencies, with
    validation and the search for a cycle. The queue starts with the effects that depend
    on nothing, in the order in which the hash map yields them; no theorem depends on
    that order. *)

From S2P Require Import Prelude.

(** ** Data *)

(** [struct CompensationNode]. *)
Record CompensationNode : Set := mkNode {
  effect_id : string;
  dependencies : list string;
}.

(** [enum CompensationOrderResult]. *)
Inductive CompensationOrderResult : Set :=
| Ordered (execution_order : list string)
| ResultCycle (cycle_members : list string)
| OrderEmpty.

(** [enum OrderingError]. *)
Inductive OrderingError : Set :=
| UnknownDependency (effect_id unknown_dep : string)
| DuplicateEffectId (effect_id : string)
| CycleDetected (cycle_members : list string).

(** [enum CompensationPolicy] of this module. *)
Inductive CompensationPolicy : Set := Required | BestEffort | NotNeeded.

#[global] Instance CompensationPolicy_eq_dec : EqDecision CompensationPolicy.
Proof. solve_decision. Defined.

(** ** Validation *)

(** The inner loop of [validate_dependencies]. *)
Definition check_dep (seen all_ids : gset string) (node : CompensationNode) (dep : string)
  : result OrderingError unit :=
  if bool_decide (dep ∈ seen) then Ok tt
  else if bool_decide (dep ∈ all_ids) then Ok tt
  else Err (UnknownDependency (effect_id node) dep).

(** Its outer loop; [seen] holds the identifiers up to and with the current one. *)
Fixpoint validate_loop (all_ids seen : gset string) (nodes : list CompensationNode)
  : result OrderingError unit :=
  match nodes with
  | [] => Ok tt
  | node :: nodes' =>
      if bool_decide (effect_id node ∈ seen) then Err (DuplicateEffectId (effect_id node))
      else
        let seen' := {[effect_id node]} ∪ seen in
        let? _ := try_for_each (check_dep seen' all_ids node) (dependencies node) in
        validate_loop all_ids seen' nodes'
  end.

(** [validate_dependencies]. *)
Definition validate_dependencies (nodes : list CompensationNode) : result OrderingError unit :=
  validate_loop (list_to_set (effect_id <$> nodes)) ∅ nodes.

(** ** Kahn's algorithm *)

(** The first loop: both maps get an entry for every node. *)
Definition init_degrees (nodes : list CompensationNode) : gmap string Z :=
  foldl (fun d n => <[effect_id n := 0]> d) ∅ nodes.

Definition init_dependents (nodes : list CompensationNode) : gmap string (list string) :=
  foldl (fun d n => <[effect_id n := []]> d) ∅ nodes.

(** The second loop, for one dependency [dep] of a node: count it, and register the node
    with what it depends on. *)
Definition add_edge (id : string) (st : gmap string Z * gmap string (list string)) (dep : string)
  : gmap string Z * gmap string (list string) :=
  let '(in_degree, dependents) := st in
  (match in_degree !! id with
   | Some count => <[id := count + 1]> in_degree
   | None => in_degree
   end,
   match dependents !! dep with
   | Some l => <[dep := l ++ [id]]> dependents
   | None => dependents
   end).

Definition build_maps (nodes : list CompensationNode)
  : gmap string Z * gmap string (list string) :=
  foldl (fun st n => foldl (add_edge (effect_id n)) st (dependencies n))
    (init_degrees nodes, init_dependents nodes) nodes.

(** The initial queue: the keys of degree zero. *)
Definition initial_queue (in_degree : gmap string Z) : list string :=
  fst <$> base.filter (fun kv => kv.2 = 0) (map_to_list in_degree).

(** One turn of the inner loop: a dependent loses a dependency, and enters the queue when
    it has none left. A [usize] that goes below zero wraps around. *)
Definition release (st : gmap string Z * list string) (dependent : string)
  : gmap string Z * list string :=
  let '(in_degree, queue) := st in
  match in_degree !! dependent with
  | Some degree =>
      let degree' := if degree =? 0 then u64_max else degree - 1 in
      (<[dependent := degree']> in_degree, if degree' =? 0 then queue ++ [dependent] else queue)
  | None => (in_degree, queue)
  end.

(** The [while] loop; [None] if the fuel runs out. *)
Fixpoint kahn_loop (fuel : nat) (dependents : gmap string (list string))
    (in_degree : gmap string Z) (queue execution_order : list string) : option (list string) :=
  match fuel with
  | O => None
  | S fuel' =>
      match queue with
      | [] => Some execution_order
      | node_id :: queue' =>
          let dep_list := default [] (dependents !! node_id) in
          let '(in_degree', queue'') := foldl release (in_degree, queue') dep_list in
          kahn_loop fuel' dependents in_degree' queue'' (execution_order ++ [node_id])
      end
  end.

(** [compute_compensation_order], with the loop's fuel. *)
Definition compute_with_fuel (fuel : nat) (nodes : list CompensationNode)
  : option (result OrderingError CompensationOrderResult) :=
  match nodes with
  | [] => Some (Ok OrderEmpty)
  | _ =>
      match validate_dependencies nodes with
      | Err e => Some (Err e)
      | Ok _ =>
          let '(in_degree, dependents) := build_maps nodes in
          execution_order ← kahn_loop fuel dependents in_degree (initial_queue in_degree) [];
          Some (if negb (Z.of_nat (length execution_order) =? Z.of_nat (length nodes)) then
                  Err (CycleDetected (effect_id <$>
                         base.filter (fun n => effect_id n ∉ execution_order) nodes))
                else Ok (Ordered (reverse execution_order)))
      end
  end.

(** Every turn executes another node: one turn per node and one to see the queue empty. *)
Definition compute_compensation_order (nodes : list CompensationNode)
  : option (result OrderingError CompensationOrderResult) :=
  compute_with_fuel (S (length nodes)) nodes.

(** [filter_compensatable]. *)
Definition filter_compensatable (nodes : list CompensationNode)
    (policies : gmap string CompensationPolicy) : list CompensationNode :=
  base.filter (fun n => policies !! effect_id n <> Some NotNeeded) nodes.

(** ** The dependency relation *)

(** The effect [e] depends on [d]. *)
Definition depends (nodes : list CompensationNode) (e d : string) : Prop :=
  exists n, n ∈ nodes /\ effect_id n = e /\ d ∈ dependencies n.

Definition ids_of (nodes : list CompensationNode) : list string := effect_id <$> nodes.

Definition valid_nodes (nodes : list CompensationNode) : Prop :=
  NoDup (ids_of nodes) /\ forall e d, depends nodes e d -> d ∈ ids_of nodes.

(** The dependencies of what is named [e]. *)
Definition deps_of (nodes : list CompensationNode) (e : string) : list string :=
  nodes ≫= fun n => if decide (effect_id n = e) then dependencies n else [].

Lemma deps_of_depends nodes e d : d ∈ deps_of nodes e <-> depends nodes e d.
Proof.
  unfold deps_of, depends. rewrite list_elem_of_bind. split.
  - intros (n & Hd & Hn). case_decide; [by exists n|by apply elem_of_nil in Hd].
  - intros (n & Hn & <- & Hd). exists n. by rewrite decide_True.
Qed.

(** ** Validation *)

Lemma validate_loop_spec all seen nodes :
  match validate_loop all seen nodes with
  | Ok _ => NoDup (ids_of nodes) /\ (forall e, e ∈ ids_of nodes -> e ∉ seen) /\
      forall e d, depends nodes e d -> d ∈ all \/ d ∈ seen \/ d ∈ ids_of nodes
  | Err (DuplicateEffectId e) => e ∈ ids_of nodes /\ (e ∈ seen \/ ~ NoDup (ids_of nodes))
  | Err (UnknownDependency e d) => depends nodes e d /\ d ∉ all
  | Err (CycleDetected _) => False
  end.
Proof.
  revert seen. induction nodes as [|n nodes IH]; intros seen; cbn [validate_loop].
  { split_and!; [constructor|by intros e ?%elem_of_nil|]. intros e d (n & Hn & _).
    by apply elem_of_nil in Hn. }
  specialize (IH ({[effect_id n]} ∪ seen)). unfold depends, ids_of in *. cbn [fmap list_fmap].
  case_bool_decide as Hs; [split; [left|by left]|].
  destruct (try_for_each _ _) as [[]|err] eqn:E; cbn [rbind].
  - apply try_for_each_ok in E. rewrite Forall_forall in E.
    destruct (validate_loop _ _ nodes) as [u|[e d|e|c]].
    + destruct IH as (Hnd & Hnew & Hdep). split_and!.
      * constructor; [|done]. intros Hin. apply (Hnew _ Hin). set_solver.
      * intros e [->|He]%elem_of_cons; [done|]. specialize (Hnew e He). set_solver.
      * intros e d (n' & [->|Hn']%elem_of_cons & He & Hd).
        -- specialize (E d Hd). unfold check_dep in E. repeat case_bool_decide; set_solver.
        -- destruct (Hdep e d) as [?|[?|?]]; [by exists n'|set_solver..].
    + destruct IH as [(n' & Hn' & He & Hd) ?]. split; [|done]. exists n'. split; [by right|done].
    + destruct IH as [Hin [Hseen|Hdup]]; (split; [by right|]).
      * apply elem_of_union in Hseen as [->%elem_of_singleton|?]; [|by left]. right.
        by intros [Hn _]%NoDup_cons.
      * right. by intros [_ Hn]%NoDup_cons.
    + done.
  - apply try_for_each_err in E as (d & Hd & E). unfold check_dep in E.
    repeat case_bool_decide; simplify_eq. split; [|done]. exists n. split; [left|done].
Qed.

(** ** The maps *)

Definition rev_deps (nodes : list CompensationNode) (d : string) : list string :=
  nodes ≫= fun n => repeat (effect_id n) (cnt d (dependencies n)).

Lemma add_edges id D P deps x :
  let st := foldl (add_edge id) (D, P) deps in
  st.1 !! x = (fun c => c + Z.of_nat (if decide (id = x) then length deps else 0%nat)) <$> D !! x /\
  st.2 !! x = (fun l => l ++ repeat id (cnt x deps)) <$> P !! x.
Proof.
  revert D P. induction deps as [|d deps IH]; intros D P; cbn [foldl add_edge].
  { cbn. split; [destruct (D !! x)|destruct (P !! x)]; cbn; [|done| |done].
    - f_equal. case_decide; lia.
    - by rewrite app_nil_r. }
  destruct (IH (match D !! id with Some count => <[id := count + 1]> D | None => D end)
              (match P !! d with Some l => <[d := l ++ [id]]> P | None => P end)) as [-> ->].
  rewrite cnt_cons. split.
  - destruct (D !! id) as [c|] eqn:E.
    + destruct (decide (id = x)) as [<-|Hne].
      * rewrite lookup_insert_eq, E. cbn. f_equal. lia.
      * by rewrite lookup_insert_ne.
    + destruct (decide (id = x)) as [<-|Hne]; [|done]. by rewrite E.
  - destruct (P !! d) as [l|] eqn:E.
    + destruct (decide (d = x)) as [<-|Hne].
      * rewrite lookup_insert_eq, E. cbn. by rewrite <- app_assoc.
      * by rewrite lookup_insert_ne.
    + destruct (decide (d = x)) as [<-|Hne]; [|done]. by rewrite E.
Qed.

Lemma add_nodes nodes D P x :
  let st := foldl (fun st n => foldl (add_edge (effect_id n)) st (dependencies n)) (D, P) nodes in
  st.1 !! x = (fun c => c + Z.of_nat (length (deps_of nodes x))) <$> D !! x /\
  st.2 !! x = (fun l => l ++ rev_deps nodes x) <$> P !! x.
Proof.
  revert D P. induction nodes as [|n nodes IH]; intros D P; cbn [foldl].
  { cbn. split; [destruct (D !! x)|destruct (P !! x)]; cbn; [|done| |done].
    - f_equal. lia.
    - by rewrite app_nil_r. }
  pose proof (add_edges (effect_id n) D P (dependencies n) x) as H. cbn zeta in *.
  destruct (foldl (add_edge _) _ _) as [D1 P1]. cbn [fst snd] in H. destruct H as [H1 H2].
  destruct (IH D1 P1) as [-> ->]. rewrite H1, H2. unfold deps_of, rev_deps. csimpl.
  rewrite !length_app. split; [destruct (D !! x)|destruct (P !! x)]; cbn; [|done| |done].
  - f_equal. case_decide; cbn; lia.
  - by rewrite app_assoc.
Qed.

Lemma init_lookup {B} (b : B) nodes (m : gmap string B) x :
  foldl (fun d n => <[effect_id n := b]> d) m nodes !! x
    = if decide (x ∈ ids_of nodes) then Some b else m !! x.
Proof.
  revert m. induction nodes as [|n nodes IH]; intros m; cbn [foldl].
  { rewrite decide_False; [done|]. apply not_elem_of_nil. }
  rewrite IH. unfold ids_of. cbn [fmap list_fmap]. destruct (decide (effect_id n = x)) as [->|Hne].
  - rewrite lookup_insert_eq.
    destruct (decide (x ∈ x :: _)) as [_|Hn]; [by destruct (decide _)|by destruct Hn; left].
  - rewrite lookup_insert_ne by done. apply decide_ext. set_solver.
Qed.

Lemma build_maps_lookup nodes x :
  (build_maps nodes).1 !! x
    = (if decide (x ∈ ids_of nodes) then Some (Z.of_nat (length (deps_of nodes x))) else None) /\
  (build_maps nodes).2 !! x
    = (if decide (x ∈ ids_of nodes) then Some (rev_deps nodes x) else None).
Proof.
  unfold build_maps, init_degrees, init_dependents.
  pose proof (add_nodes nodes (foldl (fun d n => <[effect_id n := 0]> d) ∅ nodes)
    (foldl (fun d n => <[effect_id n := []]> d) ∅ nodes) x) as H. cbn zeta in H.
  destruct H as [-> ->]. rewrite !init_lookup, !lookup_empty. by case_decide.
Qed.

Lemma cnt_rev_deps nodes e d : cnt e (rev_deps nodes d) = cnt d (deps_of nodes e).
Proof.
  unfold rev_deps, deps_of. induction nodes as [|n nodes IH]; [done|]. csimpl.
  rewrite !cnt_app, IH, cnt_repeat. by case_decide.
Qed.

(** ** The loop *)

(** Releasing a list of dependents: each loses as many dependencies as it occurs, and
    those that reach zero enter the queue once. *)
Lemma release_all D Q L :
  (forall x, x ∈ L -> exists c, D !! x = Some c /\ Z.of_nat (cnt x L) <= c) ->
  exists news, (foldl release (D, Q) L).2 = Q ++ news /\ NoDup news /\
    (forall x, x ∈ news <-> x ∈ L /\ D !! x = Some (Z.of_nat (cnt x L))) /\
    (forall x, (foldl release (D, Q) L).1 !! x = (fun c => c - Z.of_nat (cnt x L)) <$> D !! x).
Proof.
  revert D Q. induction L as [|a L IH]; intros D Q H; cbn [foldl].
  { exists []. rewrite app_nil_r. split_and!; [done|constructor|set_solver|].
    intros x. cbn [foldl fst]. rewrite cnt_nil. destruct (D !! x); cbn; [f_equal; lia|done]. }
  destruct (H a) as (c & Ha & Hc); [left|]. rewrite cnt_cons, decide_True in Hc by done.
  cbn [release]. rewrite Ha. rewrite (proj2 (Z.eqb_neq c 0)) by lia.
  assert (c - 1 = 0 -> a ∉ L) as Hlast.
  { intros Hc0 Hin%cnt_pos. lia. }
  destruct (IH (<[a := c - 1]> D) (if c - 1 =? 0 then Q ++ [a] else Q))
    as (news & -> & Hnd & Hnews & HD).
  { intros x Hx. destruct (decide (a = x)) as [<-|Hne].
    - exists (c - 1). rewrite lookup_insert_eq. split; [done|lia].
    - destruct (H x) as (c2 & Hx2 & Hc2); [by right|]. exists c2.
      rewrite cnt_cons, decide_False in Hc2 by done. by rewrite lookup_insert_ne. }
  assert (forall x, a <> x ->
            x ∈ news <-> x ∈ a :: L /\ D !! x = Some (Z.of_nat (cnt x (a :: L)))) as Hother.
  { intros x Hne. rewrite Hnews, lookup_insert_ne, cnt_cons, decide_False by done. set_solver. }
  assert (forall x, (fun c => c - Z.of_nat (cnt x L)) <$> <[a := c - 1]> D !! x
                    = (fun c => c - Z.of_nat (cnt x (a :: L))) <$> D !! x) as HD'.
  { intros x. rewrite cnt_cons. destruct (decide (a = x)) as [<-|Hne].
    - rewrite lookup_insert_eq, Ha. cbn. f_equal. lia.
    - by rewrite lookup_insert_ne. }
  assert (a ∈ news <-> a ∈ L /\ c - 1 = Z.of_nat (cnt a L)) as Hanews.
  { rewrite Hnews, lookup_insert_eq. split; intros [? ?]; split; congruence. }
  destruct (Z.eqb_spec (c - 1) 0) as [E|E].
  - exists (a :: news). rewrite <- app_assoc. split_and!; [done| | |].
    + constructor; [|done]. rewrite Hanews. naive_solver.
    + intros x. destruct (decide (a = x)) as [<-|Hne].
      * split; [|left]. intros _. split; [left|]. rewrite Ha, cnt_cons, decide_True by done.
        f_equal. destruct (decide (0 < cnt a L)%nat) as [Hp|Hp]; [|lia].
        apply cnt_pos in Hp. by destruct (Hlast E).
      * rewrite elem_of_cons, Hother by done. naive_solver.
    + intros x. by rewrite HD, HD'.
  - exists news. split_and!; [done|done| |].
    + intros x. destruct (decide (a = x)) as [<-|Hne]; [|by apply Hother].
      rewrite Hanews, Ha, cnt_cons, decide_True by done. split.
      * intros [? ?]. split; [left|]. f_equal. lia.
      * intros [_ [= Hc']]. split; [|lia]. apply cnt_pos. lia.
    + intros x. by rewrite HD, HD'.
Qed.

Section Kahn.
Context (nodes : list CompensationNode).

(** What is left to wait for when [X] has been executed. *)
Definition waiting (X : list string) (x : string) : nat :=
  length (base.filter (fun d => d ∉ X) (deps_of nodes x)).

Record kahn_inv (D : gmap string Z) (Q X : list string) : Prop := {
  ki_nodup : NoDup (X ++ Q);
  ki_ids : X ++ Q ⊆ ids_of nodes;
  ki_degree : forall x, x ∈ ids_of nodes -> D !! x = Some (Z.of_nat (waiting X x));
  ki_queue : forall x, x ∈ ids_of nodes -> x ∈ X ++ Q <-> waiting X x = 0%nat;
  ki_order : respects (depends nodes) X;
}.

Lemma waiting_zero X x : waiting X x = 0%nat <-> forall d, d ∈ deps_of nodes x -> d ∈ X.
Proof.
  unfold waiting. set (l := base.filter _ _).
  assert (forall d, d ∈ l <-> (d ∉ X) /\ d ∈ deps_of nodes x) as Hl
    by (intros d; unfold l; by rewrite list_elem_of_filter).
  clearbody l. destruct l as [|y l]; cbn; split; [|done|done|].
  - intros _ d Hd. apply dec_stable. intros HX. by apply (elem_of_nil d), Hl.
  - intros H. destruct (proj1 (Hl y)) as [Hy1 Hy2]; [left|]. by destruct Hy1; apply H.
Qed.

Lemma kahn_init :
  kahn_inv (build_maps nodes).1 (initial_queue (build_maps nodes).1) [].
Proof.
  assert (forall x, waiting [] x = length (deps_of nodes x)) as Hw.
  { intros x. unfold waiting. f_equal. apply filter_true. intros y. apply not_elem_of_nil. }
  assert (forall x, x ∈ initial_queue (build_maps nodes).1 <->
                    x ∈ ids_of nodes /\ waiting [] x = 0%nat) as Hq.
  { intros x. unfold initial_queue. rewrite list_elem_of_fmap.
    destruct (build_maps_lookup nodes x) as [Hx _]. rewrite Hw. split.
    - intros ([y c] & -> & [Hc Hy%elem_of_map_to_list]%list_elem_of_filter). cbn in *. subst c.
      rewrite Hx in Hy. case_decide; [|done]. split; [done|]. injection Hy. lia.
    - intros [Hin H0]. exists (x, 0). split; [done|]. apply list_elem_of_filter. split; [done|].
      apply elem_of_map_to_list. rewrite Hx, decide_True, H0 by done. done. }
  split; cbn [app].
  - unfold initial_queue. apply NoDup_fmap_2_strong; [|apply NoDup_filter, NoDup_map_to_list].
    intros [x c] [y c'] [_ Hx%elem_of_map_to_list]%list_elem_of_filter
      [_ Hy%elem_of_map_to_list]%list_elem_of_filter. cbn. intros ->. congruence.
  - intros x Hx. by apply Hq.
  - intros x Hx. by rewrite (proj1 (build_maps_lookup nodes x)), decide_True, Hw.
  - intros x Hx. rewrite Hq. naive_solver.
  - apply respects_nil.
Qed.

(** One turn of the loop keeps the invariant. *)
Lemma kahn_turn D n Q X :
  kahn_inv D (n :: Q) X ->
  let L := default [] ((build_maps nodes).2 !! n) in
  kahn_inv (foldl release (D, Q) L).1 (foldl release (D, Q) L).2 (X ++ [n]).
Proof.
  intros [Hnd Hids Hdeg Hq Hord]. cbn zeta.
  assert (n ∈ ids_of nodes) as Hn by (apply Hids; set_solver).
  rewrite (proj2 (build_maps_lookup nodes n)), decide_True by done. cbn [from_option id].
  assert (n ∉ X) as HnX.
  { intros Hin. apply NoDup_app in Hnd as (_ & Hd & _). apply (Hd n Hin). left. }
  assert (forall x, waiting X x = cnt x (rev_deps nodes n) + waiting (X ++ [n]) x)%nat as Hw.
  { intros x. unfold waiting. rewrite cnt_rev_deps. by apply filter_not_in_snoc. }
  assert (forall x, x ∈ rev_deps nodes n -> x ∈ ids_of nodes) as Hrev.
  { intros x (m & Hm & Hin)%list_elem_of_bind.
    apply list_elem_of_In, repeat_spec in Hm as ->. by apply list_elem_of_fmap_2. }
  destruct (release_all D Q (rev_deps nodes n)) as (news & -> & Hnd' & Hnews & HD).
  { intros x Hx. exists (Z.of_nat (waiting X x)). split; [by apply Hdeg, Hrev|].
    rewrite Hw. lia. }
  assert (forall x, x ∈ news <-> x ∈ rev_deps nodes n /\ waiting (X ++ [n]) x = 0%nat)
    as Hnews'.
  { intros x. rewrite Hnews. split; (intros [Hx H]; split; [done|]).
    - rewrite Hdeg in H by (by apply Hrev). injection H. rewrite Hw. lia.
    - rewrite Hdeg, Hw, H by (by apply Hrev). f_equal. lia. }
  assert (forall x, x ∈ news -> x ∉ X ++ n :: Q) as Hfresh.
  { intros x [Hx H0]%Hnews' Hin. apply Hq in Hin; [|by apply Hrev].
    apply cnt_pos in Hx. rewrite Hw in Hin. lia. }
  assert ((X ++ [n]) ++ Q ++ news = (X ++ n :: Q) ++ news) as Happ by (by rewrite <- !app_assoc).
  split; [rewrite Happ..| | |].
  - apply NoDup_app. split_and!; [done| |done]. intros x Hx Hin. by apply (Hfresh x Hin).
  - intros x [Hx|[Hx _]%Hnews']%elem_of_app; [by apply Hids|by apply Hrev].
  - intros x Hx. rewrite HD, Hdeg by done. cbn. f_equal. rewrite Hw. lia.
  - intros x Hx. rewrite Happ, elem_of_app, Hq, Hnews', Hw by done. split.
    + intros [?|[_ ?]]; lia.
    + intros H0. destruct (decide (x ∈ rev_deps nodes n)) as [Hin|Hin]; [by right|left].
      rewrite <- cnt_pos in Hin. lia.
  - apply respects_snoc; [done|]. intros d Hd%deps_of_depends.
    apply (proj1 (waiting_zero X n)); [|done]. apply Hq; [done|]. set_solver.
Qed.

(** The loop ends within one turn per node and one more, in a state with nothing queued. *)
Lemma kahn_loop_ends fuel D Q X :
  kahn_inv D Q X -> (length nodes < fuel + length X)%nat ->
  exists D' X', kahn_loop fuel (build_maps nodes).2 D Q X = Some X' /\ kahn_inv D' [] X'.
Proof.
  revert D Q X. induction fuel as [|fuel IH]; intros D Q X Hinv Hfuel.
  { exfalso. pose proof (submseteq_length _ _ (NoDup_submseteq _ _ (ki_nodup _ _ _ Hinv)
      (ki_ids _ _ _ Hinv))) as Hlen.
    unfold ids_of in Hlen. rewrite length_app, length_fmap in Hlen. lia. }
  cbn [kahn_loop]. destruct Q as [|n Q]; [by exists D, X|].
  pose proof (kahn_turn D n Q X Hinv) as Hturn. cbn zeta in Hturn.
  destruct (foldl release _ _) as [D1 Q1]. apply IH; [exact Hturn|].
  rewrite length_app; cbn. lia.
Qed.

(** ** What the executed nodes are *)

(** When nothing is queued, what was not executed leads to a cycle, and conversely. *)
Lemma not_executed_iff D X e :
  kahn_inv D [] X -> valid_nodes nodes -> e ∈ ids_of nodes ->
  e ∉ X <-> exists x, rtc (depends nodes) e x /\ tc (depends nodes) x x.
Proof.
  intros Hinv [_ Hval] He. split.
  - intros HeX. set (rest := base.filter (fun x => x ∉ X) (ids_of nodes)).
    destruct (no_sink_cycle (depends nodes) rest e) as (y & _ & H1 & H2).
    + by apply list_elem_of_filter.
    + intros y [HyX Hy]%list_elem_of_filter.
      pose proof (ki_queue _ _ _ Hinv y Hy) as Hq. rewrite app_nil_r in Hq.
      assert (exists d, d ∈ deps_of nodes y /\ d ∉ X) as (d & Hd & HdX).
      { destruct (base.filter (fun d => d ∉ X) (deps_of nodes y)) as [|d l] eqn:E.
        - destruct HyX. apply Hq. unfold waiting. by rewrite E.
        - exists d. assert (d ∈ base.filter (fun d => d ∉ X) (deps_of nodes y)) as Hin
            by (rewrite E; left). by apply list_elem_of_filter in Hin as [? ?]. }
      exists d. apply deps_of_depends in Hd. split; [|done]. apply list_elem_of_filter.
      split; [done|by eapply Hval].
    + by exists y.
  - intros (x & Hx & Hc) HeX. pose proof (ki_order _ _ _ Hinv) as Hr.
    eapply respects_acyclic; [exact Hr| |exact Hc]. by eapply respects_closed.
Qed.
End Kahn.

Lemma validate_dependencies_spec nodes :
  match validate_dependencies nodes with
  | Ok _ => valid_nodes nodes
  | Err (DuplicateEffectId e) => e ∈ ids_of nodes /\ ~ NoDup (ids_of nodes)
  | Err (UnknownDependency e d) => depends nodes e d /\ d ∉ ids_of nodes
  | Err (CycleDetected _) => False
  end.
Proof.
  pose proof (validate_loop_spec (list_to_set (ids_of nodes)) ∅ nodes) as H.
  unfold validate_dependencies. fold (ids_of nodes).
  destruct (validate_loop _ _ nodes) as [u|[e d|e|c]]; [| | |done].
  - destruct H as (H1 & _ & H2). split; [done|]. intros e d Hed.
    destruct (H2 e d Hed) as [?%elem_of_list_to_set|[?|?]]; [done|set_solver|done].
  - by rewrite elem_of_list_to_set in H.
  - destruct H as [? [?|?]]; [set_solver|done].
Qed.

Lemma compute_valid nodes :
  nodes <> [] -> valid_nodes nodes ->
  exists D X, kahn_inv nodes D [] X /\
    compute_compensation_order nodes = Some
      (if negb (Z.of_nat (length X) =? Z.of_nat (length nodes)) then
         Err (CycleDetected (effect_id <$> base.filter (fun n => effect_id n ∉ X) nodes))
       else Ok (Ordered (reverse X))).
Proof.
  intros Hne Hv. unfold compute_compensation_order, compute_with_fuel.
  destruct nodes as [|n0 ns]; [done|]. set (nodes := n0 :: ns) in *.
  assert (validate_dependencies nodes = Ok tt) as ->.
  { pose proof (validate_dependencies_spec nodes) as H. destruct Hv as [Hnd Hval].
    destruct (validate_dependencies nodes) as [[]|[e d|e|c]]; [done| | |done].
    - destruct H as [H1 H2]. by destruct H2; apply (Hval e d).
    - by destruct H. }
  destruct (kahn_loop_ends nodes (S (length nodes)) (build_maps nodes).1
    (initial_queue (build_maps nodes).1) [] (kahn_init nodes) ltac:(cbn; lia))
    as (D & X & HX & Hinv).
  exists D, X. split; [done|]. destruct (build_maps nodes) as [deg dep]; cbn [fst snd] in *.
  by rewrite HX.
Qed.

(** Both verdicts of the loop's end. *)
Lemma all_executed nodes D X :
  kahn_inv nodes D [] X -> length X = length nodes -> X ≡ₚ ids_of nodes.
Proof.
  intros Hinv Hlen. pose proof (ki_nodup _ _ _ _ Hinv) as Hnd.
  pose proof (ki_ids _ _ _ _ Hinv) as Hs.
  rewrite app_nil_r in *. apply submseteq_length_Permutation; [by apply NoDup_submseteq|].
  unfold ids_of. rewrite length_fmap. lia.
Qed.

Lemma some_not_executed nodes D X :
  kahn_inv nodes D [] X -> valid_nodes nodes -> length X <> length nodes ->
  exists e, e ∈ ids_of nodes /\ e ∉ X.
Proof.
  intros Hinv [Hnd' _] Hlen. pose proof (ki_nodup _ _ _ _ Hinv) as Hnd.
  pose proof (ki_ids _ _ _ _ Hinv) as Hs. rewrite app_nil_r in *.
  destruct (base.filter (fun e => e ∉ X) (ids_of nodes)) as [|e l] eqn:E.
  - exfalso. apply Hlen.
    pose proof (submseteq_length _ _ (NoDup_submseteq _ _ Hnd Hs)) as H1.
    assert (ids_of nodes ⊆ X) as Hsub.
    { intros e He. apply dec_stable. intros HX. apply (elem_of_nil e). rewrite <- E.
      by apply list_elem_of_filter. }
    pose proof (submseteq_length _ _ (NoDup_submseteq _ _ Hnd' Hsub)) as H2.
    unfold ids_of in *. rewrite length_fmap in *. lia.
  - exists e.
    assert (e ∈ base.filter (fun e => e ∉ X) (ids_of nodes)) as He by (rewrite E; left).
    apply list_elem_of_filter in He as [? ?]. done.
Qed.

Lemma reverse_before (X : list string) p e s d :
  X = p ++ e :: s -> d ∈ p -> before (reverse X) e d.
Proof.
  intros -> (p1 & p2 & ->)%list_elem_of_split. exists (reverse s ++ e :: reverse p2), (reverse p1).
  rewrite !reverse_app, !reverse_cons, <- !app_assoc. split; [done|]. set_solver.
Qed.

(** C13. The compensation order. It is always computed (one turn of the loop per node and
    one more), and: nothing is ordered only for no nodes; an order is given exactly for
    valid nodes without a cycle, it lists every effect once, and every effect is
    compensated before the effects it depends on; a cycle is reported for valid nodes
    with one, and it names exactly the effects whose dependencies lead to a cycle (not
    only its members); unknown dependencies and duplicates are real. *)
Theorem compensation_order_correct nodes :
  exists r, compute_compensation_order nodes = Some r /\
  match r with
  | Ok OrderEmpty => nodes = []
  | Ok (Ordered order) =>
      valid_nodes nodes /\ (forall x, ~ tc (depends nodes) x x) /\
      order ≡ₚ ids_of nodes /\
      (forall e d, depends nodes e d -> before order e d)
  | Ok (ResultCycle _) => False
  | Err (CycleDetected members) =>
      valid_nodes nodes /\ (exists x, tc (depends nodes) x x) /\
      (forall e, e ∈ members <->
         e ∈ ids_of nodes /\ exists x, rtc (depends nodes) e x /\ tc (depends nodes) x x)
  | Err (UnknownDependency e d) => depends nodes e d /\ d ∉ ids_of nodes
  | Err (DuplicateEffectId e) => e ∈ ids_of nodes /\ ~ NoDup (ids_of nodes)
  end.
Proof.
  destruct (decide (nodes = [])) as [->|Hne]; [by exists (Ok OrderEmpty)|].
  pose proof (validate_dependencies_spec nodes) as Hspec.
  destruct (validate_dependencies nodes) as [u|err] eqn:Ev.
  2:{ exists (Err err). split; [|by destruct err].
      unfold compute_compensation_order, compute_with_fuel. rewrite Ev. by destruct nodes. }
  rename Hspec into Hv. destruct (compute_valid nodes Hne Hv) as (D & X & Hinv & ->).
  assert (forall x y, tc (depends nodes) x y -> x ∈ ids_of nodes) as Hsrc.
  { intros x y H. assert (exists z, depends nodes x z) as (z & n & Hn & <- & _)
      by (inversion H; eauto). by apply list_elem_of_fmap_2. }
  destruct (Z.eqb_spec (Z.of_nat (length X)) (Z.of_nat (length nodes))) as [El|El]; cbn [negb];
    eexists; (split; [done|]).
  - assert (X ≡ₚ ids_of nodes) as Hp by (eapply all_executed; [done|lia]).
    split_and!; [done| |by rewrite reverse_Permutation|].
    + intros x Hx. pose proof (Hsrc _ _ Hx) as Hin.
      apply (proj2 (not_executed_iff nodes D X x Hinv Hv Hin)); [by exists x|]. by rewrite Hp.
    + intros e d Hed. assert (e ∈ X) as (p & s & E)%list_elem_of_split.
      { rewrite Hp. by eapply Hsrc, tc_once. }
      eapply reverse_before; [exact E|]. by apply (ki_order _ _ _ _ Hinv p e s E).
  - destruct (some_not_executed nodes D X Hinv Hv) as (e & He & HeX); [lia|].
    pose proof (proj1 (not_executed_iff nodes D X e Hinv Hv He) HeX) as (x & _ & Hx).
    split_and!; [done|by exists x|]. intros y. rewrite list_elem_of_fmap. split.
    + intros (n & -> & [HnX Hn]%list_elem_of_filter).
      assert (effect_id n ∈ ids_of nodes) as Hin by (by apply list_elem_of_fmap_2).
      split; [done|]. by apply (not_executed_iff nodes D X _ Hinv Hv Hin).
    + intros [Hin Hcyc]. apply (not_executed_iff nodes D X _ Hinv Hv Hin) in Hcyc.
      apply list_elem_of_fmap in Hin as (n & -> & Hn). exists n. split; [done|].
      by apply list_elem_of_filter.
Qed.

(** ** Concrete inputs *)

Example booking_order :
  compute_compensation_order
    [mkNode "book" ["reserve"; "charge"]; mkNode "charge" ["reserve"]; mkNode "reserve" []]
  = Some (Ok (Ordered ["book"; "charge"; "reserve"])).
Proof. reflexivity. Qed.

(** The audit is only downstream of the cycle, and is reported with it. *)
Example cycle_with_downstream :
  compute_compensation_order
    [mkNode "a" ["b"]; mkNode "b" ["a"]; mkNode "audit" ["a"]; mkNode "free" []]
  = Some (Err (CycleDetected ["a"; "b"; "audit"])).
Proof. reflexivity. Qed.
