(* ===== verification/Coordinators.v ===== *)
(** * Saga and two-phase-commit coordinators

    [crates/vo-types/src/saga_coordinator.rs] and
    [crates/vo-types/src/tx_coordinator/types.rs]: the state machines of the two kinds of
    coordinator, with their records. *)

From S2P Require Import Prelude Identifiers Workflow.

(** Runs of a partial transition function; a refused event ends the run. *)
Fixpoint run_events {S E X} (apply : S -> E -> result X S) (s : S) (es : list E) : result X S :=
  match es with
  | [] => Ok s
  | e :: es' => let? s' := apply s e in run_events apply s' es'
  end.

Lemma run_events_app {S E X} (apply : S -> E -> result X S) s es1 es2 :
  run_events apply s (es1 ++ es2) = let? s' := run_events apply s es1 in run_events apply s' es2.
Proof.
  revert s. induction es1 as [|e es1 IH]; intros s; cbn; [done|].
  destruct (apply s e); cbn; [apply IH|done].
Qed.

(** A set of states closed under the events that satisfy [P] contains every run. *)
Lemma run_events_closed {S E X} (apply : S -> E -> result X S) (I : S -> Prop) (P : E -> Prop)
    s es s' :
  (forall s e s', I s -> P e -> apply s e = Ok s' -> I s') ->
  I s -> Forall P es -> run_events apply s es = Ok s' -> I s'.
Proof.
  intros Hstep. revert s. induction es as [|e es IH]; intros s Hs Hes; cbn.
  - by intros [= <-].
  - apply Forall_cons in Hes as [He Hes]. destruct (apply s e) as [s1|] eqn:E1; cbn; [|done].
    apply IH; [by eapply Hstep|done].
Qed.

(** ** The saga coordinator *)

Module Saga.

(** [enum SagaState]. *)
Inductive SagaState : Set := Init | Executing | Compensating | Completed | Failed.

#[global] Instance SagaState_eq_dec : EqDecision SagaState.
Proof. solve_decision. Defined.

(** [enum SagaStepStatus]. *)
Inductive SagaStepStatus : Set :=
| Pending | StepExecuting | StepDone | CompensationPending | StepCompensating | Compensated
| StepCompensationFailed.

(** [enum SagaTransition]. *)
Inductive SagaTransition : Set :=
| Begin | StepCompleted | StepFailed | CompensationCompleted | CompensationFailed
| AllCompensated | Recover.

(** [enum SagaTransitionError]. *)
Inductive SagaTransitionError : Set := TerminalStateTransition | InvalidTransition.

(** [SagaState::is_terminal]. *)
Definition is_terminal (s : SagaState) : bool :=
  match s with Completed | Failed => true | _ => false end.

(** [apply_saga_transition]. *)
Definition apply_saga_transition (current : SagaState) (event : SagaTransition)
  : result SagaTransitionError SagaState :=
  match current, event with
  | Init, Begin => Ok Executing
  | Executing, StepCompleted => Ok Executing
  | Executing, StepFailed => Ok Compensating
  | Compensating, CompensationCompleted => Ok Compensating
  | Compensating, CompensationFailed => Ok Failed
  | Compensating, AllCompensated => Ok Failed
  | Executing, Recover => Ok Executing
  | Compensating, Recover => Ok Compensating
  | Init, Recover => Ok Init
  | Executing, CompensationFailed => Ok Failed
  | Completed, _ => Err TerminalStateTransition
  | Failed, _ => Err TerminalStateTransition
  | Init, (StepCompleted | StepFailed | CompensationCompleted | CompensationFailed | AllCompensated)
      => Err InvalidTransition
  | Executing, (Begin | AllCompensated | CompensationCompleted) => Err InvalidTransition
  | Compensating, (Begin | StepCompleted | StepFailed) => Err InvalidTransition
  end.

(** [struct SagaStep]. *)
Record SagaStep : Set := mkStep {
  step_id : string;
  effect_id : string;
  compensation_effect_id : option string;
  policy : CompensationPolicy;
  step_status : SagaStepStatus;
  dependencies : list string;
}.

(** [SagaStep::new]. *)
Definition SagaStep_new (step_id effect_id : string) (compensation_effect_id : option string)
    (policy : CompensationPolicy) (dependencies : list string) : option SagaStep :=
  if is_empty step_id || is_empty effect_id then None
  else Some (mkStep step_id effect_id compensation_effect_id policy Pending dependencies).

(** [struct SagaRecord]. *)
Record SagaRecord : Set := mkRecord {
  saga_id : string;
  state : SagaState;
  steps : list SagaStep;
  current_step_index : nat;
  completed_step_indices : list nat;
  compensation_stack : list nat;
  created_at : option Z;
  completed_at : option Z;
  failed_at : option Z;
}.

(** [SagaRecord::new]. *)
Definition SagaRecord_new (saga_id : string) (steps : list SagaStep) (created_at : option Z)
  : option SagaRecord :=
  if is_empty saga_id then None
  else Some (mkRecord saga_id Init steps 0 [] [] created_at None None).

(** [SagaRecord::next_step]. *)
Definition next_step (r : SagaRecord) : option SagaStep :=
  if (current_step_index r <? length (steps r))%nat then steps r !! current_step_index r else None.

(** [SagaRecord::next_compensation]; indexing out of range panics, which is the outer
    [None]. *)
Definition next_compensation (r : SagaRecord) : option (option SagaStep) :=
  match last (compensation_stack r) with
  | None => Some None
  | Some idx => Some <$> steps r !! idx
  end.

(** What a saga can become. Of the terminal states only [Failed] is reachable: no
    sequence of events completes a saga, from any state that is not [Completed] already.
    A saga that has started compensating never executes forward again, and [Failed] is
    final. *)
Theorem saga_outcomes es s s' :
  run_events apply_saga_transition s es = Ok s' ->
  (s <> Completed -> s' <> Completed) /\
  (s = Compensating -> s' = Compensating \/ s' = Failed) /\
  (is_terminal s = true -> es = [] /\ s' = s).
Proof.
  intros H. split_and!.
  - intros Hs. refine (run_events_closed _ (fun s => s <> Completed) (fun _ => True)
      _ _ _ _ Hs _ H); [|by apply Forall_true]. by intros [] [] ?; cbn; intros ? _ [= <-].
  - intros ->. refine (run_events_closed _ (fun s => s = Compensating \/ s = Failed) (fun _ => True)
      _ _ _ _ (or_introl eq_refl) _ H); [|by apply Forall_true].
    intros ? [] ? [->| ->] _; cbn; intros [= <-]; auto.
  - intros Ht. destruct es as [|e es]; cbn in H; [by injection H as ->|].
    destruct s; try done; by destruct e.
Qed.

Lemma saga_outcomes_witness :
  run_events apply_saga_transition Init [Begin; StepCompleted; StepFailed; AllCompensated]
    = Ok Failed /\ Failed <> Completed.
Proof.
  split; [reflexivity|].
  refine (proj1 (saga_outcomes [Begin; StepCompleted; StepFailed; AllCompensated] Init Failed _) _);
    [reflexivity|discriminate].
Defined.
End Saga.

(** ** The two-phase-commit coordinator *)

Module TwoPhase.

(** [enum TransactionState]. *)
Inductive TransactionState : Set :=
| Init | Enrolling | Preparing | Prepared | Committing | Committed | RollingBack | RolledBack
| Aborted | Ambiguous.

#[global] Instance TransactionState_eq_dec : EqDecision TransactionState.
Proof. solve_decision. Defined.

(** [enum ParticipantStatus]. *)
Inductive ParticipantStatus : Set :=
| Enrolled | ParticipantPreparedStatus | VotedRollback | ParticipantCommitted
| ParticipantRolledBack | Unknown.

(** [enum CoordinatorDecision]. *)
Inductive CoordinatorDecision : Set := DecisionCommit | DecisionRollback.

(** [enum ParticipantVote]. *)
Inductive ParticipantVote : Set := VotePrepared | VoteRollback.

(** [enum CoordinatorTransition]. *)
Inductive CoordinatorTransition : Set :=
| BeginEnroll | BeginPrepare | ParticipantPrepared | ParticipantRollback | AllResponded
| DecideCommit | DecideRollback | Timeout | Recover | ReconcileCommitted | ReconcileRolledBack
| ReconcileRetry.

#[global] Instance CoordinatorTransition_eq_dec : EqDecision CoordinatorTransition.
Proof. solve_decision. Defined.

(** [enum CoordinatorTransitionError]. *)
Inductive CoordinatorTransitionError : Set :=
| TerminalStateTransition | InvalidTransition | InsufficientVotes.

(** [TransactionState::is_terminal]. *)
Definition is_terminal (s : TransactionState) : bool :=
  match s with Committed | RolledBack | Aborted => true | _ => false end.

(** [apply_coordinator_transition]. *)
Definition apply_coordinator_transition (current : TransactionState)
    (event : CoordinatorTransition) : result CoordinatorTransitionError TransactionState :=
  match current, event with
  | Init, BeginEnroll => Ok Enrolling
  | Enrolling, BeginPrepare => Ok Preparing
  | Preparing, ParticipantPrepared => Ok Preparing
  | Preparing, ParticipantRollback => Ok Preparing
  | Preparing, AllResponded => Ok Prepared
  | Preparing, Timeout => Ok Aborted
  | Prepared, DecideCommit => Ok Committing
  | Prepared, DecideRollback => Ok RollingBack
  | Prepared, Timeout => Ok Aborted
  | Committing, AllResponded => Ok Committed
  | Committing, Timeout => Ok Ambiguous
  | RollingBack, AllResponded => Ok RolledBack
  | RollingBack, Timeout => Ok Ambiguous
  | Committed, _ => Err TerminalStateTransition
  | RolledBack, _ => Err TerminalStateTransition
  | Aborted, _ => Err TerminalStateTransition
  | Ambiguous, ReconcileCommitted => Ok Committed
  | Ambiguous, ReconcileRolledBack => Ok RolledBack
  | Ambiguous, ReconcileRetry => Ok Ambiguous
  | state, Recover => if negb (is_terminal state) then Ok Ambiguous else Err InvalidTransition
  | _, _ => Err InvalidTransition
  end.

(** [struct ParticipantRecord]. *)
Record ParticipantRecord : Set := mkParticipant {
  participant_id : string;
  participant_status : ParticipantStatus;
  vote : option ParticipantVote;
}.

(** [ParticipantRecord::new]. *)
Definition ParticipantRecord_new (participant_id : string) (status : ParticipantStatus)
    (vote : option ParticipantVote) : option ParticipantRecord :=
  if is_empty participant_id then None else Some (mkParticipant participant_id status vote).

(** [struct TransactionRecord]. *)
Record TransactionRecord : Set := mkTransaction {
  transaction_id : string;
  state : TransactionState;
  decision : option CoordinatorDecision;
  participants : list ParticipantRecord;
  created_at : option Z;
  prepared_at : option Z;
  committed_at : option Z;
}.

(** [TransactionRecord::new]. *)
Definition TransactionRecord_new (transaction_id : string) (state : TransactionState)
    (decision : option CoordinatorDecision) (participants : list ParticipantRecord)
    (created_at prepared_at committed_at : option Z) : option TransactionRecord :=
  if is_empty transaction_id then None
  else Some (mkTransaction transaction_id state decision participants created_at prepared_at
               committed_at).

Abbreviation run := (run_events apply_coordinator_transition).

(** The states from which a transaction can still commit, and roll back, when no
    ambiguity is reconciled that way. *)
Definition deciding_commit (s : TransactionState) : Prop :=
  s = Committing \/ s = Committed \/ s = Ambiguous.
Definition deciding_rollback (s : TransactionState) : Prop :=
  s = RollingBack \/ s = RolledBack \/ s = Ambiguous.

(** What undecided states become without recovery and without a decision to commit. *)
Definition undecided (s : TransactionState) : Prop :=
  s <> Committing /\ s <> Committed.

(** Agreement of the two-phase-commit machine. A decision is never turned into its
    opposite except by reconciling an ambiguous outcome that way: after [DecideCommit] no
    run without [ReconcileRolledBack] rolls back or aborts, after [DecideRollback] none
    without [ReconcileCommitted] commits or aborts; a transaction commits only after a
    [DecideCommit] or a reconciliation; and the terminal states are final. *)
Theorem two_phase_agreement es s s' :
  run s es = Ok s' ->
  (s = Committing -> ReconcileRolledBack ∉ es -> deciding_commit s') /\
  (s = RollingBack -> ReconcileCommitted ∉ es -> deciding_rollback s') /\
  (s = Init -> s' = Committed -> DecideCommit ∈ es \/ ReconcileCommitted ∈ es) /\
  (s = Init -> s' = RolledBack -> DecideRollback ∈ es \/ ReconcileRolledBack ∈ es) /\
  (is_terminal s = true -> es = [] /\ s' = s).
Proof.
  intros H.
  assert (forall e (l : list CoordinatorTransition), e ∉ l -> Forall (fun x => x <> e) l) as Hall.
  { intros e l He. apply Forall_forall. by intros x Hx ->. }
  split_and!.
  - intros -> Hn. refine (run_events_closed _ deciding_commit (fun x => x <> ReconcileRolledBack)
      _ _ _ _ (or_introl eq_refl) (Hall _ _ Hn) H).
    intros ? [] ? [->|[->| ->]] He; cbn; intros [= <-]; unfold deciding_commit; auto. done.
  - intros -> Hn. refine (run_events_closed _ deciding_rollback (fun x => x <> ReconcileCommitted)
      _ _ _ _ (or_introl eq_refl) (Hall _ _ Hn) H).
    intros ? [] ? [->|[->| ->]] He; cbn; intros [= <-]; unfold deciding_rollback; auto. done.
  - intros -> ->. destruct (decide (DecideCommit ∈ es)) as [|H1]; [by left|].
    destruct (decide (ReconcileCommitted ∈ es)) as [|H2]; [by right|]. exfalso.
    destruct (run_events_closed apply_coordinator_transition undecided
      (fun x => x <> DecideCommit /\ x <> ReconcileCommitted) Init es Committed) as [_ Hc];
      [|done|by apply Forall_and; split; apply Hall|done|done].
    intros [] [] ? [? ?] [? ?]; cbn; try done; intros [= <-]; done.
  - intros -> ->. destruct (decide (DecideRollback ∈ es)) as [|H1]; [by left|].
    destruct (decide (ReconcileRolledBack ∈ es)) as [|H2]; [by right|]. exfalso.
    destruct (run_events_closed apply_coordinator_transition
      (fun s => s <> RollingBack /\ s <> RolledBack)
      (fun x => x <> DecideRollback /\ x <> ReconcileRolledBack) Init es RolledBack)
      as [_ Hc]; [|done|by apply Forall_and; split; apply Hall|done|done].
    intros [] [] ? [? ?] [? ?]; cbn; try done; intros [= <-]; done.
  - intros Ht. destruct es as [|e es]; cbn in H; [by injection H as ->|].
    destruct s; try done; by destruct e.
Qed.

Lemma two_phase_agreement_witness :
  run Committing [Timeout; ReconcileRetry; ReconcileCommitted] = Ok Committed /\
  deciding_commit Committed.
Proof.
  split; [reflexivity|].
  refine (proj1 (two_phase_agreement [Timeout; ReconcileRetry; ReconcileCommitted] Committing
    Committed _) eq_refl _); [reflexivity|].
  rewrite !not_elem_of_cons. split_and!; [discriminate..|apply not_elem_of_nil].
Defined.

(** What the machine does not enforce: a vote to roll back does not prevent the
    commit, since [AllResponded] leads to [Prepared] whatever was voted; and a recovery
    turns every unfinished transaction, even one without participants, into an ambiguous
    one that can be declared committed or rolled back. *)
Theorem two_phase_unenforced :
  run Init [BeginEnroll; BeginPrepare; ParticipantRollback; AllResponded; DecideCommit;
            AllResponded] = Ok Committed /\
  (forall s, is_terminal s = false -> run s [Recover; ReconcileCommitted] = Ok Committed /\
                                      run s [Recover; ReconcileRolledBack] = Ok RolledBack).
Proof. split; [reflexivity|]. by intros []. Qed.

(** Where a timeout aborts: only while preparing and before the decision. *)
Lemma timeout_aborts s :
  apply_coordinator_transition s Timeout = Ok Aborted <-> s = Preparing \/ s = Prepared.
Proof. destruct s; cbn; split; intros; naive_solver. Qed.
End TwoPhase.
