(* ===== verification/WriteQueues.v ===== *)
(** * Classified write queues

    [crates/vo-storage/src/append/]: write classes ([write_class.rs]), the byte budget of
    each class ([budget.rs]), the backpressure signal ([backpressure.rs]) and the bounded
    queues that combine them ([queue.rs]). The budget is behind a [RefCell], so the queues
    are used by one thread and an operation is one step. The three fields that the code
    keeps per class are one value [PerClass]. *)

From S2P Require Import Prelude.

(** ** Write classes *)

(** [enum WriteClass]. *)
Inductive WriteClass : Set := CriticalControlPlane | OperatorProjection | BulkBlob.

#[global] Instance WriteClass_eq_dec : EqDecision WriteClass.
Proof. solve_decision. Defined.

(** [WriteClass::tier]. *)
Definition tier (c : WriteClass) : Z :=
  match c with CriticalControlPlane => 1 | OperatorProjection => 2 | BulkBlob => 3 end.

(** [WriteClass::never_drops]. *)
Definition never_drops (c : WriteClass) : bool :=
  match c with CriticalControlPlane => true | _ => false end.

(** [class_label]. *)
Definition class_label (c : WriteClass) : string :=
  match c with
  | CriticalControlPlane => "critical_control_plane"
  | OperatorProjection => "operator_projection"
  | BulkBlob => "bulk_blob"
  end.

(** [WriteClass::from_str]. *)
Definition WriteClass_from_str (s : string) : result string WriteClass :=
  if bool_decide (s = "critical_control_plane") then Ok CriticalControlPlane
  else if bool_decide (s = "operator_projection") then Ok OperatorProjection
  else if bool_decide (s = "bulk_blob") then Ok BulkBlob
  else Err s.

(** One value per class. *)
Record PerClass (A : Type) : Type := mkPerClass { critical : A; projection : A; blob : A }.
Arguments mkPerClass {A}.
Arguments critical {A}.
Arguments projection {A}.
Arguments blob {A}.

(** The [match class] that selects a field. *)
Definition at_class {A} (p : PerClass A) (c : WriteClass) : A :=
  match c with
  | CriticalControlPlane => critical p | OperatorProjection => projection p | BulkBlob => blob p
  end.

(** The [match class] that assigns a field. *)
Definition set_class {A} (p : PerClass A) (c : WriteClass) (a : A) : PerClass A :=
  match c with
  | CriticalControlPlane => mkPerClass a (projection p) (blob p)
  | OperatorProjection => mkPerClass (critical p) a (blob p)
  | BulkBlob => mkPerClass (critical p) (projection p) a
  end.

Lemma at_set_class {A} (p : PerClass A) c d a :
  at_class (set_class p c a) d = if decide (c = d) then a else at_class p d.
Proof. by destruct c, d. Qed.

#[export] Hint Rewrite @at_set_class : vo.

(** ** The byte budget *)

(** [struct BudgetError]. *)
Record BudgetError : Set := mkBudgetError {
  error_class : WriteClass; requested : Z; available : Z }.

(** [struct WriteBudget]. *)
Record WriteBudget : Set := mkWriteBudget { limits : PerClass Z; used : PerClass Z }.

(** [WriteBudget::new]. *)
Definition WriteBudget_new (critical_limit projection_limit blob_limit : Z) : WriteBudget :=
  mkWriteBudget (mkPerClass critical_limit projection_limit blob_limit) (mkPerClass 0 0 0).

(** [remaining]; [saturating_sub]. *)
Definition remaining (b : WriteBudget) (c : WriteClass) : Z :=
  Z.max 0 (at_class (limits b) c - at_class (used b) c).

(** [can_write]. *)
Definition can_write (b : WriteBudget) (c : WriteClass) (size_bytes : Z) : bool :=
  size_bytes <=? remaining b c.

(** [reserve]. *)
Definition reserve (b : WriteBudget) (c : WriteClass) (size_bytes : Z)
  : result BudgetError unit * WriteBudget :=
  let rem := remaining b c in
  if rem <? size_bytes then (Err (mkBudgetError c size_bytes rem), b)
  else (Ok tt, mkWriteBudget (limits b)
                 (set_class (used b) c (wrapping_add_u64 (at_class (used b) c) size_bytes))).

(** [release]. *)
Definition release (b : WriteBudget) (c : WriteClass) (size_bytes : Z) : WriteBudget :=
  mkWriteBudget (limits b)
    (set_class (used b) c (Z.max 0 (at_class (used b) c - size_bytes))).

(** ** Backpressure *)

(** [enum BackpressureEvent]. *)
Inductive BackpressureEvent : Set :=
| EventQueueFull (class : WriteClass) (depth capacity : Z)
| QueueWritable (class : WriteClass) (remaining_capacity : Z).

(** [struct BackpressureSignal]. *)
Record BackpressureSignal : Set := mkSignal {
  full : PerClass bool; last_event : option BackpressureEvent }.

(** [BackpressureSignal::new]. *)
Definition signal_new : BackpressureSignal := mkSignal (mkPerClass false false false) None.

(** [set_full]. *)
Definition set_full (s : BackpressureSignal) (c : WriteClass) (depth capacity : Z)
  : BackpressureSignal :=
  let was_full := at_class (full s) c in
  mkSignal (set_class (full s) c true)
    (if negb was_full then Some (EventQueueFull c depth capacity) else last_event s).

(** [set_writable]. *)
Definition set_writable (s : BackpressureSignal) (c : WriteClass) (remaining_capacity : Z)
  : BackpressureSignal :=
  let was_full := at_class (full s) c in
  mkSignal (set_class (full s) c false)
    (if was_full then Some (QueueWritable c remaining_capacity) else last_event s).

(** [is_backpressured]. *)
Definition is_backpressured (s : BackpressureSignal) (c : WriteClass) : bool := at_class (full s) c.

(** [any_backpressured]. *)
Definition any_backpressured (s : BackpressureSignal) : bool :=
  critical (full s) || projection (full s) || blob (full s).

(** [should_reject]. *)
Definition should_reject (s : BackpressureSignal) (c : WriteClass) : bool :=
  match c with CriticalControlPlane => false | _ => is_backpressured s c end.

(** ** The queues *)

(** [enum BudgetQueuesError]. *)
Inductive BudgetQueuesError : Set :=
| QueueFull (class : WriteClass) (depth capacity : Z)
| BudgetExceeded (class : WriteClass) (item_size remaining : Z).

(** [trait ClassifiedWrite]. *)
Class ClassifiedWrite (T : Type) : Type := {
  write_class : T -> WriteClass;
  size_bytes : T -> Z;
}.

(** [struct BudgetQueues<T>]: the capacities of its [QueueConfig], the depths of its
    [QueueStats], and the rest. *)
Record BudgetQueues (T : Type) : Type := mkQueues {
  capacities : PerClass Z;
  depths : PerClass Z;
  budget : WriteBudget;
  backpressure : BackpressureSignal;
  queues : PerClass (list T);
}.
Arguments mkQueues {T}.
Arguments capacities {T}.
Arguments depths {T}.
Arguments budget {T}.
Arguments backpressure {T}.
Arguments queues {T}.

(** [BudgetQueues::new]. *)
Definition queues_new {T} (config : PerClass Z) (budget : WriteBudget) : BudgetQueues T :=
  mkQueues config (mkPerClass 0 0 0) budget signal_new (mkPerClass [] [] []).

(** [InnerQueue::push]: the item comes back when there is no room. *)
Definition push {T} (capacity : Z) (items : list T) (item : T) : option T * list T :=
  if capacity <=? Z.of_nat (length items) then (Some item, items) else (None, items ++ [item]).

(** [QueueStats::is_full] and [remaining]. *)
Definition stats_is_full {T} (q : BudgetQueues T) (c : WriteClass) : bool :=
  at_class (capacities q) c <=? at_class (depths q) c.
Definition stats_remaining {T} (q : BudgetQueues T) (c : WriteClass) : Z :=
  Z.max 0 (at_class (capacities q) c - at_class (depths q) c).

Section Operations.
Context {T : Type} `{W : !ClassifiedWrite T}.

(** [BudgetQueues::try_enqueue]. *)
Definition try_enqueue (q : BudgetQueues T) (item : T)
  : result BudgetQueuesError unit * BudgetQueues T :=
  let class := write_class item in
  let size := size_bytes item in
  if negb (can_write (budget q) class size) then
    (Err (BudgetExceeded class size (remaining (budget q) class)), q)
  else
    let items := at_class (queues q) class in
    let capacity := at_class (capacities q) class in
    if capacity <=? Z.of_nat (length items) then
      let depth := Z.of_nat (length items) in
      (Err (QueueFull class depth capacity),
       mkQueues (capacities q) (depths q) (budget q)
         (set_full (backpressure q) class depth capacity) (queues q))
    else
      let '(overflow, items') := push capacity items item in
      match overflow with
      | Some _ =>
          let depth := at_class (depths q) class in
          (Err (QueueFull class depth capacity),
           mkQueues (capacities q) (depths q) (budget q)
             (set_full (backpressure q) class depth capacity) (set_class (queues q) class items'))
      | None =>
          match reserve (budget q) class size with
          | (Err e, budget') =>
              (Err (BudgetExceeded class size (available e)),
               mkQueues (capacities q) (depths q) budget' (backpressure q)
                 (set_class (queues q) class (tail items')))
          | (Ok _, budget') =>
              (Ok tt,
               mkQueues (capacities q)
                 (set_class (depths q) class (at_class (depths q) class + 1)) budget'
                 (backpressure q) (set_class (queues q) class items'))
          end
      end.

(** [BudgetQueues::dequeue]. *)
Definition dequeue (q : BudgetQueues T) (class : WriteClass) : option T * BudgetQueues T :=
  match at_class (queues q) class with
  | [] => (None, q)
  | item :: items =>
      let was_full := stats_is_full q class in
      let q1 := mkQueues (capacities q)
                  (set_class (depths q) class (Z.max 0 (at_class (depths q) class - 1)))
                  (budget q) (backpressure q) (set_class (queues q) class items) in
      (Some item,
       if was_full then
         mkQueues (capacities q1) (depths q1) (budget q1)
           (set_writable (backpressure q1) class (stats_remaining q1 class)) (queues q1)
       else q1)
  end.

(** [BudgetQueues::dequeue_prioritized]. *)
Definition dequeue_prioritized (q : BudgetQueues T) : option (WriteClass * T) * BudgetQueues T :=
  match dequeue q CriticalControlPlane with
  | (Some item, q') => (Some (CriticalControlPlane, item), q')
  | (None, q1) =>
      match dequeue q1 OperatorProjection with
      | (Some item, q') => (Some (OperatorProjection, item), q')
      | (None, q2) =>
          match dequeue q2 BulkBlob with
          | (Some item, q') => (Some (BulkBlob, item), q')
          | (None, q3) => (None, q3)
          end
      end
  end.
End Operations.

(** ** Traces *)

Section Traces.
Context {T : Type} `{W : !ClassifiedWrite T}.

(** Calls; a trace remembers what was accepted and what was taken out. *)
Inductive QueueOp : Type :=
| OpEnqueue (item : T)
| OpDequeue (class : WriteClass)
| OpDequeuePrioritized.

Record Trace : Type := mkTrace {
  state : BudgetQueues T;
  accepted : list T;
  taken : list T;
}.

Definition exec (t : Trace) (op : QueueOp) : Trace :=
  match op with
  | OpEnqueue item =>
      match try_enqueue (state t) item with
      | (Ok _, q) => mkTrace q (accepted t ++ [item]) (taken t)
      | (Err _, q) => mkTrace q (accepted t) (taken t)
      end
  | OpDequeue class =>
      match dequeue (state t) class with
      | (Some item, q) => mkTrace q (accepted t) (taken t ++ [item])
      | (None, q) => mkTrace q (accepted t) (taken t)
      end
  | OpDequeuePrioritized =>
      match dequeue_prioritized (state t) with
      | (Some (_, item), q) => mkTrace q (accepted t) (taken t ++ [item])
      | (None, q) => mkTrace q (accepted t) (taken t)
      end
  end.

Definition run (q : BudgetQueues T) (ops : list QueueOp) : Trace :=
  fold_left exec ops (mkTrace q [] []).

(** The items of a class, and their bytes. *)
Definition of_class (c : WriteClass) (l : list T) : list T :=
  base.filter (fun x => write_class x = c) l.
Definition bytes (l : list T) : Z := foldr (fun x n => size_bytes x + n) 0 l.

Lemma of_class_snoc c l x :
  of_class c (l ++ [x]) = of_class c l ++ (if decide (write_class x = c) then [x] else []).
Proof. unfold of_class. rewrite filter_app, filter_cons, filter_nil. by case_decide. Qed.

Lemma bytes_app l k : bytes (l ++ k) = bytes l + bytes k.
Proof. unfold bytes. induction l; cbn [foldr app]; lia. Qed.

(** Sizes and limits are [u64] values. *)
Definition op_u64 (op : QueueOp) : Prop :=
  match op with OpEnqueue item => is_u64 (size_bytes item) | _ => True end.

Context (caps lims : PerClass Z).
Context (Hcaps : forall c, 0 <= at_class caps c) (Hlims : forall c, is_u64 (at_class lims c)).

(** The invariant of a trace, for one class: what was accepted is what was taken and then
    what is queued, in that order; the depth is the length, within the capacity; the bytes
    charged are those of everything accepted, within the limit; and the class is signalled
    as full only while it is. *)
Record class_inv (t : Trace) (c : WriteClass) : Prop := {
  ci_fifo : of_class c (accepted t) = of_class c (taken t) ++ at_class (queues (state t)) c;
  ci_class : Forall (fun x => write_class x = c) (at_class (queues (state t)) c);
  ci_depth : at_class (depths (state t)) c = Z.of_nat (length (at_class (queues (state t)) c));
  ci_capacity : Z.of_nat (length (at_class (queues (state t)) c)) <= at_class caps c;
  ci_used : at_class (used (budget (state t))) c = bytes (of_class c (accepted t));
  ci_limit : 0 <= at_class (used (budget (state t))) c <= at_class lims c;
  ci_full : at_class (full (backpressure (state t))) c = true ->
            at_class caps c <= Z.of_nat (length (at_class (queues (state t)) c));
}.

Definition trace_inv (t : Trace) : Prop :=
  capacities (state t) = caps /\ limits (budget (state t)) = lims /\ forall c, class_inv t c.

Lemma trace_inv_new b :
  limits b = lims -> used b = mkPerClass 0 0 0 -> trace_inv (mkTrace (queues_new caps b) [] []).
Proof.
  intros Hl Hu. split_and!; [done..|]. intros c. pose proof (Hcaps c). pose proof (Hlims c).
  unfold is_u64 in *. split; cbn; rewrite ?Hu; destruct c; cbn in *; try done; try lia; constructor.
Qed.

Lemma enqueue_inv t item :
  trace_inv t -> is_u64 (size_bytes item) -> trace_inv (exec t (OpEnqueue item)).
Proof.
  intros (Hc & Hl & Hinv) Hsize. cbn [exec]. unfold try_enqueue.
  set (class := write_class item). pose proof (Hinv class) as Hk.
  unfold can_write, remaining. rewrite Hl, Hc.
  destruct (Z.leb_spec (size_bytes item)
    (Z.max 0 (at_class lims class - at_class (used (budget (state t))) class))) as [Hfit|Hfit];
    cbn [negb].
  2:{ by destruct t. }
  destruct (Z.leb_spec (at_class caps class)
    (Z.of_nat (length (at_class (queues (state t)) class)))) as [Hfull|Hroom].
  - split_and!; [done..|]. intros c. destruct (Hinv c) as [H1 H2 H3 H4 H5 H6 H7].
    split; cbn in *; try done. rewrite at_set_class. by case_decide; [subst c|].
  - unfold push. rewrite (proj2 (Z.leb_gt _ _)) by done. unfold reserve, remaining. rewrite Hl.
    rewrite (proj2 (Z.ltb_ge _ _)) by done.
    assert (wrapping_add_u64 (at_class (used (budget (state t))) class) (size_bytes item)
            = at_class (used (budget (state t))) class + size_bytes item) as ->.
    { pose proof (ci_limit _ _ Hk). pose proof (Hlims class). unfold_u. apply Z.mod_small. lia. }
    split_and!; [done..|]. intros c. destruct (Hinv c) as [H1 H2 H3 H4 H5 H6 H7].
    split; cbn [state accepted taken queues depths budget used backpressure];
      rewrite ?of_class_snoc, ?at_set_class; fold class; destruct (decide (class = c)) as [E|E];
      rewrite ?app_nil_r; try done; subst c.
    + by rewrite H1, app_assoc.
    + apply Forall_app. split; [done|by constructor].
    + rewrite length_app, H3. cbn. lia.
    + rewrite length_app. cbn. lia.
    + rewrite bytes_app, H5. cbn. lia.
    + unfold is_u64 in Hsize. lia.
    + intros Hf%H7. rewrite length_app. lia.
Qed.

(** Taking the head of a class out. *)
Lemma dequeue_inv t class :
  trace_inv t -> trace_inv (exec t (OpDequeue class)).
Proof.
  intros (Hc & Hl & Hinv). cbn [exec]. unfold dequeue.
  destruct (at_class (queues (state t)) class) as [|item items] eqn:Eq; [by destruct t|].
  set (q := if stats_is_full (state t) class then _ else _).
  assert (queues q = set_class (queues (state t)) class items /\ budget q = budget (state t) /\
          depths q = set_class (depths (state t)) class
            (Z.max 0 (at_class (depths (state t)) class - 1)) /\ capacities q = caps /\
          forall c, at_class (full (backpressure q)) c =
            if stats_is_full (state t) class && bool_decide (class = c) then false
            else at_class (full (backpressure (state t))) c) as (Eqs & Eb & Ed & Ec & Ef).
  { unfold q. destruct (stats_is_full (state t) class); cbn; split_and!; try done.
    intros c. rewrite at_set_class. by case_bool_decide; case_decide. }
  split_and!; [done|by cbn; rewrite Eb|]. intros c. destruct (Hinv c) as [H1 H2 H3 H4 H5 H6 H7].
  pose proof (ci_class _ _ (Hinv class)) as Hcls. rewrite Eq in Hcls.
  apply Forall_cons in Hcls as [Hitem Hcls].
  split; cbn [state accepted taken]; rewrite ?Eqs, ?Eb, ?Ed, ?Ef, ?of_class_snoc, ?at_set_class;
    destruct (decide (class = c)) as [E|E]; try subst c; try done.
  - rewrite H1, Eq, Hitem, decide_True by done. by rewrite <- app_assoc.
  - rewrite Hitem, decide_False, app_nil_r by done. done.
  - rewrite H3, Eq. cbn [length]. lia.
  - rewrite Eq in H4. cbn [length] in H4. lia.
  - rewrite bool_decide_eq_true_2, andb_true_r by done. unfold stats_is_full.
    rewrite Hc, H3, Eq. destruct (Z.leb_spec (at_class caps class)
      (Z.of_nat (length (item :: items)))) as [|Hlt]; [done|].
    intros Hf%H7. rewrite Eq in Hf. lia.
  - by rewrite bool_decide_eq_false_2, andb_false_r by done.
Qed.

(** A prioritized dequeue is a dequeue of the first class that has something. *)
Lemma dequeue_prioritized_is (q : BudgetQueues T) :
  exists c, dequeue_prioritized q = (pair c <$> (dequeue q c).1, (dequeue q c).2) /\
    forall c', tier c' < tier c -> at_class (queues q) c' = [].
Proof.
  unfold dequeue_prioritized.
  assert (forall c, (dequeue q c).1 = None -> dequeue q c = (None, q) /\ at_class (queues q) c = [])
    as Hnone by (intros c; unfold dequeue; by destruct (at_class (queues q) c)).
  destruct (dequeue q CriticalControlPlane) as [[x1|] q1] eqn:E1.
  { exists CriticalControlPlane. rewrite E1. split; [done|]. intros []; cbn; lia. }
  destruct (Hnone CriticalControlPlane) as [E1' Hq1]; [by rewrite E1|]. rewrite E1 in E1'.
  injection E1' as ->.
  destruct (dequeue q OperatorProjection) as [[x2|] q2] eqn:E2.
  { exists OperatorProjection. rewrite E2. split; [done|]. intros []; cbn; done || lia. }
  destruct (Hnone OperatorProjection) as [E2' Hq2]; [by rewrite E2|]. rewrite E2 in E2'.
  injection E2' as ->. exists BulkBlob. split; [by destruct (dequeue q BulkBlob) as [[x|] q3]|].
  intros []; cbn; done || lia.
Qed.

Lemma run_inv q ops :
  trace_inv (mkTrace q [] []) -> Forall op_u64 ops -> trace_inv (run q ops).
Proof.
  unfold run. generalize (mkTrace q [] []) as t. intros t Ht Hops. revert t Ht.
  induction Hops as [|op ops Hop _ IH]; intros t Ht; [done|]. apply IH.
  destruct op as [item|class|]; [by apply enqueue_inv|by apply dequeue_inv|].
  cbn [exec]. destruct (dequeue_prioritized_is (state t)) as (c & -> & _).
  pose proof (dequeue_inv t c Ht) as Hd. cbn [exec] in Hd.
  by destruct (dequeue (state t) c) as [[item|] q'].
Qed.
End Traces.
Arguments Trace : clear implicits.
Arguments QueueOp : clear implicits.

Section QueueProperties.
Context {T : Type} `{W : !ClassifiedWrite T}.

(** The queues over any sequence of calls, class by class: items leave in the order in
    which they were accepted and none is lost or duplicated, the recorded depth is the real
    one and stays within the capacity, the bytes charged are exactly those of everything
    accepted and stay within the limit, and backpressure is signalled only while the queue
    is full. *)
Theorem queues_invariant (caps : PerClass Z) lc lp lb (ops : list (QueueOp T)) c :
  (forall c, 0 <= at_class caps c) -> is_u64 lc -> is_u64 lp -> is_u64 lb ->
  Forall op_u64 ops ->
  class_inv caps (mkPerClass lc lp lb) (run (queues_new caps (WriteBudget_new lc lp lb)) ops) c.
Proof.
  intros Hcaps H1 H2 H3 Hops.
  assert (forall c, is_u64 (at_class (mkPerClass lc lp lb) c)) as Hl by (by intros []).
  apply (run_inv caps (mkPerClass lc lp lb)); [done..| |done]. by apply trace_inv_new.
Qed.

(** Bytes are never given back: dequeuing does not release what enqueuing reserved, so
    once the writes accepted since the start exceed what a class has left, every further
    write of that size is refused, even when the queue is empty. *)
Theorem budget_never_returned (caps : PerClass Z) lc lp lb (ops : list (QueueOp T)) item :
  let c := write_class item in
  let lims := mkPerClass lc lp lb in
  let t := run (queues_new caps (WriteBudget_new lc lp lb)) ops in
  (forall c, 0 <= at_class caps c) -> is_u64 lc -> is_u64 lp -> is_u64 lb ->
  Forall op_u64 ops ->
  at_class lims c < bytes (of_class c (accepted t)) + size_bytes item ->
  try_enqueue (state t) item
    = (Err (BudgetExceeded c (size_bytes item)
              (at_class lims c - bytes (of_class c (accepted t)))), state t).
Proof.
  intros c lims t Hcaps H1 H2 H3 Hops Hover.
  assert (forall c, is_u64 (at_class lims c)) as Hl by (by intros []).
  assert (trace_inv caps lims t) as (_ & El & Hinv).
  { apply run_inv; [done..| |done]. by apply trace_inv_new. }
  destruct (Hinv c) as [_ _ _ _ Hu [Hu0 Hul] _]. rewrite Hu in Hu0, Hul.
  unfold try_enqueue, can_write, remaining. fold c. rewrite El, Hu.
  rewrite (proj2 (Z.leb_gt _ _)) by lia. cbn [negb]. by rewrite Z.max_r by lia.
Qed.

(** What the prioritized dequeue gives: the oldest item of the most critical class that
    has one. *)
Lemma dequeue_prioritized_order (q : BudgetQueues T) c item :
  (dequeue_prioritized q).1 = Some (c, item) ->
  head (at_class (queues q) c) = Some item /\
  forall c', tier c' < tier c -> at_class (queues q) c' = [].
Proof.
  destruct (dequeue_prioritized_is q) as (c0 & -> & Hc). cbn [fst]. unfold dequeue.
  destruct (at_class (queues q) c0) as [|x l] eqn:E; cbn; [done|]. intros [= <- <-].
  by rewrite E.
Qed.
End QueueProperties.

(** ** Concrete inputs *)

Module QueueWitness.
(** A write is its class and its size. *)
#[local] Instance pair_write : ClassifiedWrite (WriteClass * Z) :=
  {| write_class := fst; size_bytes := snd |}.

Definition caps : PerClass Z := mkPerClass 2 2 1.

(** The blob is taken out again, and with it nothing of the budget comes back. *)
Definition ops : list (QueueOp (WriteClass * Z)) :=
  [OpEnqueue (BulkBlob, 60); OpEnqueue (BulkBlob, 10); OpEnqueue (CriticalControlPlane, 5);
   OpDequeuePrioritized; OpDequeuePrioritized].

Lemma ops_u64 : Forall op_u64 ops.
Proof. repeat (constructor; [cbn; ulia || done|]). constructor. Qed.

Lemma caps_ok c : 0 <= at_class caps c.
Proof. by destruct c. Qed.

Lemma queues_invariant_witness :
  class_inv caps (mkPerClass 100 100 100) (run (queues_new caps (WriteBudget_new 100 100 100)) ops)
    BulkBlob.
Proof.
  apply (queues_invariant caps 100 100 100 ops BulkBlob caps_ok); [ulia..|exact ops_u64].
Defined.

Lemma budget_never_returned_witness :
  at_class (queues (state (run (queues_new caps (WriteBudget_new 100 100 100)) ops))) BulkBlob
    = [] /\
  (try_enqueue (state (run (queues_new caps (WriteBudget_new 100 100 100)) ops)) (BulkBlob, 50)).1
    = Err (BudgetExceeded BulkBlob 50 40).
Proof.
  split; [reflexivity|].
  rewrite (budget_never_returned caps 100 100 100 ops (BulkBlob, 50) caps_ok);
    [reflexivity|ulia..|exact ops_u64|reflexivity].
Defined.
End QueueWitness.
