(* ===== verification/BudgetSaga.v ===== *)
(** * The durable budget saga

    [crates/vo-storage/src/budget_saga/]: a write is staged in a manifest and enqueued in
    the classified queues, then committed or rolled back. The manifest is a hash map in
    memory, or a [fjall] key space. *)

From S2P Require Import Prelude Identifiers KeyEncoding Keyspace WriteQueues.
From Stdlib Require Import Ascii.

(** ** The manifest in memory *)

(** [enum SagaStatus]. *)
Inductive SagaStatus : Set := Staged | Committed | RolledBack.

#[global] Instance SagaStatus_eq_dec : EqDecision SagaStatus.
Proof. solve_decision. Defined.

(** [struct SagaEntry]. *)
Record SagaEntry : Set := mkSagaEntry {
  write_key : string;
  entry_class : WriteClass;
  entry_size : Z;
  status : SagaStatus;
}.

(** The assignment [entry.status = s]. *)
Definition with_status (e : SagaEntry) (s : SagaStatus) : SagaEntry :=
  mkSagaEntry (write_key e) (entry_class e) (entry_size e) s.

(** [struct BudgetManifest]. *)
Record BudgetManifest : Type := mkBudgetManifest {
  entries : gmap string SagaEntry;
  version : Z;
}.

(** [enum SagaError]; the text of a serialization error is kept with its kind. *)
Inductive SagaError : Type :=
| AlreadyExists (key : string)
| NotFound (key : string)
| AlreadyRolledBack (key : string)
| InvalidState (key : string) (expected actual : SagaStatus)
| BudgetReserveFailed (source : BudgetQueuesError)
| StorageError (reason : string)
| CorruptEntry (key reason : string).

(** [BudgetManifest::default]. *)
Definition manifest_default : BudgetManifest := mkBudgetManifest ∅ 0.

(** [BudgetManifest::stage]. *)
Definition stage (m : BudgetManifest) (key : string) (class : WriteClass) (size : Z)
  : result SagaError unit * BudgetManifest :=
  match entries m !! key with
  | Some _ => (Err (AlreadyExists key), m)
  | None =>
      (Ok tt, mkBudgetManifest (<[key := mkSagaEntry key class size Staged]> (entries m))
                (version m))
  end.

(** [BudgetManifest::commit]. *)
Definition commit (m : BudgetManifest) (key : string) : result SagaError unit * BudgetManifest :=
  match entries m !! key with
  | None => (Err (NotFound key), m)
  | Some entry =>
      if decide (status entry <> Staged) then (Err (InvalidState key Staged (status entry)), m)
      else (Ok tt, mkBudgetManifest (<[key := with_status entry Committed]> (entries m))
                     (wrapping_add_u64 (version m) 1))
  end.

(** [BudgetManifest::rollback]. *)
Definition rollback (m : BudgetManifest) (key : string) : result SagaError unit * BudgetManifest :=
  match entries m !! key with
  | None => (Err (NotFound key), m)
  | Some entry =>
      if decide (status entry = RolledBack) then (Err (AlreadyRolledBack key), m)
      else (Ok tt, mkBudgetManifest (<[key := with_status entry RolledBack]> (entries m))
                     (wrapping_add_u64 (version m) 1))
  end.

(** [staged_entries] and [committed_entries]. *)
Definition entries_with (m : BudgetManifest) (s : SagaStatus) : list SagaEntry :=
  base.filter (fun e => status e = s) (snd <$> map_to_list (entries m)).

(** What recovery does to an entry. *)
Definition recover_entry (e : SagaEntry) : SagaEntry :=
  if decide (status e = Staged) then with_status e RolledBack else e.

(** [recover_staged_as_rolled_back]. *)
Definition recover_staged_as_rolled_back (m : BudgetManifest) : BudgetManifest :=
  mkBudgetManifest (recover_entry <$> entries m) (wrapping_add_u64 (version m) 1).

(** ** The manifest in a key space *)

(** [enum RecoveryOutcome]. *)
Inductive RecoveryOutcome : Set := NothingToRecover | RecoveredAsRolledBack (count : Z).

(** [format!("entry:{write_key}").into_bytes()]. *)
Definition entry_key (key : string) : list Z := as_bytes ("entry:" +:+ key).

(** [key_str.strip_prefix("entry:")]. *)
Definition strip_entry_prefix (s : string) : option string :=
  if bool_decide (take 6 (chars s) = chars "entry:") then Some (of_chars (drop 6 (chars s)))
  else None.

Section Store.
Context `{F : FjallApi} `{S : !SerdeApi SagaEntry}.

(** Serialize and insert, as every writer ends. *)
Definition put_entry (ks : Keyspace) (key : string) (e : SagaEntry)
  : result SagaError unit * Keyspace :=
  match to_vec e with
  | Err r => (Err (StorageError r), ks)
  | Ok value => let '(r, ks') := ks_insert ks (entry_key key) value in (map_err StorageError r, ks')
  end.

(** [SagaStore::read_entry]. *)
Definition read_entry (ks : Keyspace) (key : string) : result SagaError (option SagaEntry) :=
  match ks_get ks (entry_key key) with
  | Ok (Some bytes) =>
      let? entry := map_err (CorruptEntry key) (from_slice bytes) in Ok (Some entry)
  | Ok None => Ok None
  | Err e => Err (StorageError e)
  end.

(** [SagaStore::stage_entry]. *)
Definition stage_entry (ks : Keyspace) (key : string) (class : WriteClass) (size : Z)
  : result SagaError unit * Keyspace :=
  match read_entry ks key with
  | Err e => (Err e, ks)
  | Ok (Some _) => (Err (AlreadyExists key), ks)
  | Ok None => put_entry ks key (mkSagaEntry key class size Staged)
  end.

(** [SagaStore::commit_entry]. *)
Definition commit_entry (ks : Keyspace) (key : string) : result SagaError unit * Keyspace :=
  match read_entry ks key with
  | Err e => (Err e, ks)
  | Ok None => (Err (NotFound key), ks)
  | Ok (Some entry) =>
      if decide (status entry <> Staged) then (Err (InvalidState key Staged (status entry)), ks)
      else put_entry ks key (with_status entry Committed)
  end.

(** [SagaStore::rollback_entry]. *)
Definition rollback_entry (ks : Keyspace) (key : string) : result SagaError unit * Keyspace :=
  match read_entry ks key with
  | Err e => (Err e, ks)
  | Ok None => (Err (NotFound key), ks)
  | Ok (Some entry) =>
      if decide (status entry = RolledBack) then (Err (AlreadyRolledBack key), ks)
      else put_entry ks key (with_status entry RolledBack)
  end.

(** The loop of [recover], over the items the iterator yields. *)
Fixpoint recover_loop (ks : Keyspace) (items : list (result string (list Z * list Z))) (count : Z)
  : result SagaError Z * Keyspace :=
  match items with
  | [] => (Ok count, ks)
  | Err e :: _ => (Err (StorageError e), ks)
  | Ok (key_bytes, value_bytes) :: items' =>
      let key_str := default "" (from_utf8 key_bytes) in
      match strip_entry_prefix key_str with
      | None => recover_loop ks items' count
      | Some key =>
          match from_slice value_bytes with
          | Err r => (Err (CorruptEntry key r), ks)
          | Ok entry =>
              if decide (status entry = Staged) then
                match put_entry ks key (with_status entry RolledBack) with
                | (Err e, ks') => (Err e, ks')
                | (Ok _, ks') => recover_loop ks' items' (count + 1)
                end
              else recover_loop ks items' count
          end
      end
  end.

(** [SagaStore::recover]. *)
Definition recover (ks : Keyspace) : result SagaError RecoveryOutcome * Keyspace :=
  match recover_loop ks (ks_iter ks) 0 with
  | (Err e, ks') => (Err e, ks')
  | (Ok count, ks') =>
      (Ok (if 0 <? count then RecoveredAsRolledBack count else NothingToRecover), ks')
  end.
End Store.

(** ** The saga *)

(** [struct StagedWrite]. *)
Record StagedWrite : Set := mkStagedWrite {
  staged_key : string;
  staged_class : WriteClass;
  staged_size : Z;
  staged_at : Z;
}.

#[global] Instance staged_write : ClassifiedWrite StagedWrite :=
  {| write_class := staged_class; size_bytes := staged_size |}.

(** [struct DurableBudgetSaga]. *)
Record DurableBudgetSaga `{F : FjallApi} : Type := mkSaga {
  store : option Keyspace;
  manifest : BudgetManifest;
  saga_queues : BudgetQueues StagedWrite;
}.

Section Saga.
Context `{F : FjallApi} `{S : !SerdeApi SagaEntry}.

(** [DurableBudgetSaga::new], and [open] with the partition it opened. *)
Definition saga_new (q : BudgetQueues StagedWrite) : DurableBudgetSaga :=
  mkSaga _ None manifest_default q.
Definition saga_open (ks : Keyspace) (q : BudgetQueues StagedWrite) : DurableBudgetSaga :=
  mkSaga _ (Some ks) manifest_default q.

(** The [store.as_ref().map_or_else(...)] that sends an operation to the store if there is
    one and to the manifest otherwise. *)
Definition dispatch (s : DurableBudgetSaga)
    (on_store : Keyspace -> result SagaError unit * Keyspace)
    (on_manifest : BudgetManifest -> result SagaError unit * BudgetManifest)
  : result SagaError unit * DurableBudgetSaga :=
  match store s with
  | Some ks => let '(r, ks') := on_store ks in (r, mkSaga _ (Some ks') (manifest s) (saga_queues s))
  | None => let '(r, m') := on_manifest (manifest s) in (r, mkSaga _ None m' (saga_queues s))
  end.

(** [stage_write]. *)
Definition stage_write (now : Z) (s : DurableBudgetSaga) (key : string) (class : WriteClass)
    (size : Z) : result SagaError StagedWrite * DurableBudgetSaga :=
  let staged := mkStagedWrite key class size now in
  match dispatch s (fun ks => stage_entry ks key class size) (fun m => stage m key class size) with
  | (Err e, s1) => (Err e, s1)
  | (Ok _, s1) =>
      match try_enqueue (saga_queues s1) staged with
      | (Err e, q) =>
          let s2 := (dispatch s1 (fun ks => rollback_entry ks key) (fun m => rollback m key)).2 in
          (Err (BudgetReserveFailed e), mkSaga _ (store s2) (manifest s2) q)
      | (Ok _, q) => (Ok staged, mkSaga _ (store s1) (manifest s1) q)
      end
  end.

(** [commit]. *)
Definition saga_commit (s : DurableBudgetSaga) (key : string)
  : result SagaError unit * DurableBudgetSaga :=
  dispatch s (fun ks => commit_entry ks key) (fun m => commit m key).

(** [get_class_for_key]: it looks in the manifest in memory. *)
Definition get_class_for_key (s : DurableBudgetSaga) (key : string) : result SagaError WriteClass :=
  match entries (manifest s) !! key with
  | Some e => Ok (entry_class e)
  | None => Err (NotFound key)
  end.

(** [rollback]: the head of the class's queue is dequeued before the entry is changed. *)
Definition saga_rollback (s : DurableBudgetSaga) (key : string)
  : result SagaError unit * DurableBudgetSaga :=
  match get_class_for_key s key with
  | Err e => (Err e, s)
  | Ok class =>
      let q := (dequeue (saga_queues s) class).2 in
      dispatch (mkSaga _ (store s) (manifest s) q)
        (fun ks => rollback_entry ks key) (fun m => rollback m key)
  end.

(** [recover_from_crash]: it recovers the manifest in memory. *)
Definition recover_from_crash (s : DurableBudgetSaga) : DurableBudgetSaga :=
  mkSaga _ (store s) (recover_staged_as_rolled_back (manifest s)) (saga_queues s).
End Saga.

(** ** The key space implements the manifest *)

Section StoreProofs.
Context `{F : FjallApi} `{FL : !FjallLaws} `{S : !SerdeApi SagaEntry} `{SL : !SerdeLaws SagaEntry}.

(** A write key is a Rust string. *)
Definition valid_key (key : string) : Prop := utf8_valid (as_bytes key) = true.

Definition store_rep (a : gmap string SagaEntry) (ks : Keyspace) : Prop :=
  healthy ks /\ encodes valid_key entry_key vec_of a (contents ks).

Lemma entry_key_inj k1 k2 : valid_key k1 -> valid_key k2 -> entry_key k1 = entry_key k2 -> k1 = k2.
Proof.
  intros _ _ E%as_bytes_inj. apply (f_equal chars) in E. rewrite !chars_app in E.
  by apply app_inv_head, chars_inj in E.
Qed.

Lemma strip_entry_key key :
  valid_key key -> strip_entry_prefix (default "" (from_utf8 (entry_key key))) = Some key.
Proof.
  intros Hk. unfold from_utf8.
  assert (utf8_valid (entry_key key) = true) as ->.
  { unfold entry_key, as_bytes. rewrite chars_app, fmap_app. exact Hk. }
  cbn [from_option id]. unfold entry_key. rewrite of_bytes_as_bytes. unfold strip_entry_prefix.
  rewrite chars_app. change (take 6 (chars "entry:" ++ chars key)) with (chars "entry:").
  rewrite bool_decide_eq_true_2 by done.
  change (drop 6 (chars "entry:" ++ chars key)) with (chars key). by rewrite of_chars_chars.
Qed.

Lemma read_entry_ok a ks key :
  store_rep a ks -> valid_key key -> read_entry ks key = Ok (a !! key).
Proof.
  intros [Hh He] Hk. unfold read_entry. rewrite ks_get_ok by done.
  rewrite (encodes_lookup _ _ _ entry_key_inj a _ key He Hk).
  destruct (a !! key); cbn; [|done]. by rewrite from_slice_vec.
Qed.

Lemma put_entry_ok a ks key e :
  store_rep a ks -> valid_key key ->
  exists ks', put_entry ks key e = (Ok tt, ks') /\ store_rep (<[key := e]> a) ks'.
Proof.
  intros [Hh He] Hk. unfold put_entry. rewrite to_vec_ok.
  destruct (ks_insert_ok ks (entry_key key) (vec_of e) Hh) as (H1 & H2 & H3).
  destruct (ks_insert _ _ _) as [r ks']; cbn in *. subst r. exists ks'. split; [done|].
  split; [done|]. rewrite H3. apply encodes_insert; [exact entry_key_inj|done|done].
Qed.

(** One turn of the recovery loop, on the abstract entries. *)
Definition recover_one (a : gmap string SagaEntry) (kv : string * SagaEntry)
  : gmap string SagaEntry :=
  if decide (status kv.2 = Staged) then <[kv.1 := with_status kv.2 RolledBack]> a else a.

Definition staged_count (l : list (string * SagaEntry)) : Z :=
  Z.of_nat (length (base.filter (fun kv => status kv.2 = Staged) l)).

Lemma recover_loop_ok a ks l n :
  store_rep a ks -> Forall (fun kv => valid_key kv.1) l ->
  exists ks', recover_loop ks (Ok <$> ((fun kv => (entry_key kv.1, vec_of kv.2)) <$> l)) n
                = (Ok (n + staged_count l), ks') /\
    store_rep (fold_left recover_one l a) ks'.
Proof.
  unfold staged_count. revert a ks n. induction l as [|[key e] l IH]; intros a ks n Hr Hl.
  { exists ks. cbn. by rewrite Z.add_0_r. }
  apply Forall_cons in Hl as [Hk Hl]. cbn [fst] in Hk. cbn [fmap list_fmap recover_loop fst snd].
  rewrite strip_entry_key, from_slice_vec by done. rewrite filter_cons. cbn [snd].
  cbn [fold_left]. unfold recover_one at 2. cbn [fst snd]. case_decide as Hs.
  - destruct (put_entry_ok a ks key (with_status e RolledBack) Hr Hk) as (ks1 & -> & Hr1).
    destruct (IH _ ks1 (n + 1) Hr1 Hl) as (ks2 & Heq & Hr2). exists ks2. split; [|done].
    rewrite Heq. cbn [length]. do 2 f_equal. lia.
  - by apply IH.
Qed.

Lemma recover_fold l a k :
  NoDup l.*1 -> (forall k v, (k, v) ∈ l -> a !! k = Some v) ->
  fold_left recover_one l a !! k
    = if decide (k ∈ l.*1) then recover_entry <$> a !! k else a !! k.
Proof.
  revert a. induction l as [|[k0 v0] l IH]; intros a Hnd Hl; cbn [fold_left fmap list_fmap fst].
  { rewrite decide_False; [done|]. apply not_elem_of_nil. }
  apply NoDup_cons in Hnd as [Hk0 Hnd]. cbn [fst] in Hk0.
  assert (forall k, k <> k0 -> recover_one a (k0, v0) !! k = a !! k) as Hother.
  { intros k1 Hne. unfold recover_one. cbn [fst snd].
    destruct (decide (status v0 = Staged)); [by rewrite lookup_insert_ne|done]. }
  assert (recover_one a (k0, v0) !! k0 = recover_entry <$> a !! k0) as Hhead.
  { unfold recover_one, recover_entry. cbn [fst snd]. rewrite (Hl k0 v0) by left.
    cbn [fmap option_fmap option_map].
    destruct (decide (status v0 = Staged)); [by rewrite lookup_insert_eq|]. apply Hl. left. }
  rewrite IH; [|done|].
  2:{ intros k1 v1 Hin. rewrite Hother; [apply Hl; by right|]. intros ->. apply Hk0.
      by apply (list_elem_of_fmap_2 fst) in Hin. }
  destruct (decide (k = k0)) as [->|Hne].
  - rewrite decide_False by done.
    by destruct (decide (k0 ∈ k0 :: _)) as [_|Hn]; [|destruct Hn; left].
  - rewrite Hother by done. apply decide_ext. set_solver.
Qed.

(** The key space implements the manifest: each operation on the store gives the
    manifest's answer, success or error, and stores its entries; recovery rolls back
    exactly the staged entries and reports their number. *)
Theorem saga_store_refines_manifest m ks :
  store_rep (entries m) ks ->
  (forall key class size, valid_key key ->
     exists ks', stage_entry ks key class size = ((stage m key class size).1, ks') /\
       store_rep (entries (stage m key class size).2) ks') /\
  (forall key, valid_key key ->
     exists ks', commit_entry ks key = ((commit m key).1, ks') /\
       store_rep (entries (commit m key).2) ks') /\
  (forall key, valid_key key ->
     exists ks', rollback_entry ks key = ((rollback m key).1, ks') /\
       store_rep (entries (rollback m key).2) ks') /\
  (exists ks', recover ks
       = (Ok (let n := Z.of_nat (length (entries_with m Staged)) in
              if 0 <? n then RecoveredAsRolledBack n else NothingToRecover), ks') /\
     store_rep (entries (recover_staged_as_rolled_back m)) ks').
Proof.
  intros Hr. split_and!.
  - intros key class size Hk. unfold stage_entry, stage. rewrite (read_entry_ok _ _ _ Hr Hk).
    destruct (entries m !! key) as [e|]; [by exists ks|]. by apply put_entry_ok.
  - intros key Hk. unfold commit_entry, commit. rewrite (read_entry_ok _ _ _ Hr Hk).
    destruct (entries m !! key) as [e|]; [|by exists ks]. case_decide; [by exists ks|].
    by apply put_entry_ok.
  - intros key Hk. unfold rollback_entry, rollback. rewrite (read_entry_ok _ _ _ Hr Hk).
    destruct (entries m !! key) as [e|]; [|by exists ks]. case_decide; [by exists ks|].
    by apply put_entry_ok.
  - destruct Hr as [Hh He]. unfold recover. destruct (ks_iter_ok ks Hh) as (l & -> & Hp).
    rewrite (encodes_to_list _ _ _ entry_key_inj _ _ He) in Hp.
    apply Permutation_map_inv in Hp as (l' & -> & Hp).
    destruct (recover_loop_ok (entries m) ks l' 0) as (ks' & Heq & Hr').
    { by split. }
    { apply Forall_forall. intros [k v] Hin. rewrite <- Hp in Hin.
      apply elem_of_map_to_list in Hin. apply (proj1 He). by exists v. }
    change (map _ l') with
      ((fun kv : string * SagaEntry => (entry_key kv.1, vec_of kv.2)) <$> l').
    rewrite Heq. exists ks'. split.
    + assert (0 + staged_count l' = Z.of_nat (length (entries_with m Staged))) as ->; [|done].
      unfold staged_count, entries_with. rewrite <- Hp. rewrite Z.add_0_l. f_equal.
      clear. induction (map_to_list (entries m)) as [|x l IH]; [done|].
      csimpl. rewrite !filter_cons. case_decide; cbn; congruence.
    + cbn [entries recover_staged_as_rolled_back].
      assert (recover_entry <$> entries m = fold_left recover_one l' (entries m)) as ->; [|done].
      apply map_eq. intros k. rewrite recover_fold, lookup_fmap.
      * destruct (decide (k ∈ l'.*1)) as [|Hn]; [done|].
        destruct (entries m !! k) as [v|] eqn:Ev; [|done]. destruct Hn.
        apply (list_elem_of_fmap_2 fst _ (k, v)). rewrite <- Hp. by apply elem_of_map_to_list.
      * rewrite <- Hp. apply NoDup_fst_map_to_list.
      * intros k1 v1. rewrite <- Hp. by rewrite elem_of_map_to_list.
Qed.
End StoreProofs.

(** ** Properties of the saga *)

Section SagaProofs.
Context `{F : FjallApi} `{S : !SerdeApi SagaEntry}.

(** The calls on a saga. *)
Inductive BudgetOp : Type :=
| OpStage (now : Z) (key : string) (class : WriteClass) (size : Z)
| OpCommit (key : string)
| OpRollback (key : string)
| OpRecover.

Definition saga_exec (s : DurableBudgetSaga) (op : BudgetOp) : DurableBudgetSaga :=
  match op with
  | OpStage now key class size => (stage_write now s key class size).2
  | OpCommit key => (saga_commit s key).2
  | OpRollback key => (saga_rollback s key).2
  | OpRecover => recover_from_crash s
  end.

Definition saga_run (s : DurableBudgetSaga) (ops : list BudgetOp) : DurableBudgetSaga :=
  fold_left saga_exec ops s.

(** With a store, the manifest in memory is never written. *)
Definition store_only (s : DurableBudgetSaga) : Prop :=
  is_Some (store s) /\ entries (manifest s) = ∅.

Lemma dispatch_store_only s on_store on_manifest :
  store_only s -> store_only (dispatch s on_store on_manifest).2.
Proof.
  intros [[ks Hks] Hm]. unfold dispatch. rewrite Hks. destruct (on_store ks). by split.
Qed.

Lemma saga_exec_store_only s op : store_only s -> store_only (saga_exec s op).
Proof.
  intros Hs. destruct op as [now key class size|key|key|]; cbn [saga_exec].
  - unfold stage_write. set (d := dispatch s _ _).
    assert (store_only d.2) as Hd by (by apply dispatch_store_only).
    destruct d as [[]s1]; cbn in Hd; [|done]. destruct (try_enqueue _ _) as [[] q]; [done|].
    set (d2 := dispatch s1 _ _). assert (store_only d2.2) by (by apply dispatch_store_only). done.
  - by apply dispatch_store_only.
  - unfold saga_rollback, get_class_for_key. destruct Hs as [Hst Hm]. by rewrite Hm, lookup_empty.
  - destruct Hs as [Hst Hm]. split; [done|]. cbn. rewrite Hm. apply fmap_empty.
Qed.

(** With a durable store a write can never be rolled back: [rollback] asks the
    manifest in memory for the class of the write, which stays empty when the entries are
    in the store. After any sequence of calls on an opened saga it answers [NotFound] and
    changes nothing, also for a write that is staged in the store. *)
Theorem durable_rollback_never_found ks q ops key :
  let s := saga_run (saga_open ks q) ops in
  saga_rollback s key = (Err (NotFound key), s).
Proof.
  cbn zeta. assert (store_only (saga_run (saga_open ks q) ops)) as [_ Hm].
  { assert (store_only (saga_open ks q)) as H by (by split; [eexists|]). revert H.
    generalize (saga_open ks q) as s. unfold saga_run.
    induction ops as [|op ops IH]; intros s Hs; [done|]. by apply IH, saga_exec_store_only. }
  unfold saga_rollback, get_class_for_key. by rewrite Hm, lookup_empty.
Qed.

(** Without a store, rolling a staged write back marks its entry, and takes the oldest
    write of its class out of the queue, whichever write that is. *)
Theorem rollback_takes_oldest m q key e item rest :
  entries m !! key = Some e -> status e <> RolledBack ->
  at_class (queues q) (entry_class e) = item :: rest ->
  exists m' q', saga_rollback (mkSaga _ None m q) key = (Ok tt, mkSaga _ None m' q') /\
    entries m' = <[key := with_status e RolledBack]> (entries m) /\
    at_class (queues q') (entry_class e) = rest /\
    (forall c, c <> entry_class e -> at_class (queues q') c = at_class (queues q) c).
Proof.
  intros He Hs Hq. unfold saga_rollback, get_class_for_key. cbn [manifest]. rewrite He.
  unfold dispatch, rollback. cbn [store manifest saga_queues]. rewrite He, decide_False by done.
  eexists _, _. split; [done|]. split; [done|]. unfold dequeue. rewrite Hq.
  assert (forall (b : bool) (q1 q2 : BudgetQueues StagedWrite),
    queues q1 = queues q2 -> queues (if b then q1 else q2) = queues q2) as Hif by (by intros []).
  cbn [snd]. rewrite Hif by done. cbn [queues]. split.
  - by rewrite at_set_class, decide_True.
  - intros c Hc. by rewrite at_set_class, decide_False.
Qed.

(** The life of a write key: after a rollback, or a staging that the queues refused,
    the key stays rolled back for ever; it can be neither staged again, nor committed, nor
    rolled back again. A committed write, by contrast, can still be rolled back. *)
Theorem rolled_back_key_is_burned m key e class size :
  entries m !! key = Some e -> status e = RolledBack ->
  stage m key class size = (Err (AlreadyExists key), m) /\
  commit m key = (Err (InvalidState key Staged RolledBack), m) /\
  rollback m key = (Err (AlreadyRolledBack key), m) /\
  entries (recover_staged_as_rolled_back m) !! key = Some e.
Proof.
  intros He Hs. unfold stage, commit, rollback. rewrite He, Hs. split_and!; [done..|].
  cbn. rewrite lookup_fmap, He. cbn. unfold recover_entry. by rewrite Hs.
Qed.

Lemma committed_rolls_back m key e :
  entries m !! key = Some e -> status e = Committed -> (rollback m key).1 = Ok tt.
Proof. intros He Hs. unfold rollback. by rewrite He, Hs. Qed.
End SagaProofs.

(** ** The theorems at concrete inputs *)

Module BudgetSagaWitness.
Import MapKeyspace BitsSerde.

Definition class_code (c : WriteClass) : nat :=
  match c with CriticalControlPlane => 0 | OperatorProjection => 1 | BulkBlob => 2 end.
Definition code_class (n : nat) : WriteClass :=
  match n with 0%nat => CriticalControlPlane | 1%nat => OperatorProjection | _ => BulkBlob end.
Definition status_code (s : SagaStatus) : nat :=
  match s with Staged => 0 | Committed => 1 | RolledBack => 2 end.
Definition code_status (n : nat) : SagaStatus :=
  match n with 0%nat => Staged | 1%nat => Committed | _ => RolledBack end.

#[local] Instance entry_eq_dec : EqDecision SagaEntry.
Proof. solve_decision. Defined.
#[local] Instance entry_countable : Countable SagaEntry.
Proof.
  refine (inj_countable' (A := string * nat * Z * nat)
    (fun e => (write_key e, class_code (entry_class e), entry_size e, status_code (status e)))
    (fun '(k, c, z, s) => mkSagaEntry k (code_class c) z (code_status s)) _).
  by intros [? [] ? []].
Defined.
#[local] Existing Instance bits_serde.

Definition q0 : BudgetQueues StagedWrite :=
  queues_new (mkPerClass 2 2 2) (WriteBudget_new 100 100 100).

Definition staged_ops : list BudgetOp :=
  [OpStage 1 "w1" BulkBlob 10; OpStage 2 "w2" BulkBlob 20].

Definition in_memory : DurableBudgetSaga := saga_run (saga_new q0) staged_ops.

(** Rolling [w2] back leaves [w2] in the queue and takes [w1] out. *)
Example wrong_write_dequeued :
  staged_key <$> at_class (queues (saga_queues (saga_rollback in_memory "w2").2)) BulkBlob = ["w2"].
Proof. reflexivity. Qed.

Lemma store_rep_empty : store_rep (entries manifest_default) (∅ : Keyspace).
Proof. split; [done|apply encodes_empty]. Qed.

Lemma saga_store_refines_manifest_witness :
  exists ks', stage_entry (∅ : Keyspace) "w1" BulkBlob 10 = (Ok tt, ks').
Proof.
  destruct (saga_store_refines_manifest (FL := fjall_laws) (SL := bits_serde_laws)
    manifest_default (∅ : @Keyspace fjall_api) store_rep_empty) as (H & _).
  destruct (H "w1" BulkBlob 10 eq_refl) as (ks' & Heq & _). exists ks'. exact Heq.
Defined.

Definition w1 : SagaEntry := mkSagaEntry "w1" BulkBlob 10 Staged.

Lemma rollback_takes_oldest_witness :
  exists m' q', saga_rollback in_memory "w1" = (Ok tt, mkSaga _ None m' q') /\
    at_class (queues q') BulkBlob = [mkStagedWrite "w2" BulkBlob 20 2].
Proof.
  destruct (rollback_takes_oldest (manifest in_memory) (saga_queues in_memory) "w1" w1
    (mkStagedWrite "w1" BulkBlob 10 1) [mkStagedWrite "w2" BulkBlob 20 2])
    as (m' & q' & H1 & _ & H2 & _); [reflexivity|discriminate|reflexivity|].
  exists m', q'. split; [exact H1|exact H2].
Defined.

Definition refused : DurableBudgetSaga :=
  saga_run (saga_new q0) [OpStage 1 "big" BulkBlob 101].

Lemma rolled_back_key_is_burned_witness :
  stage (manifest refused) "big" BulkBlob 1 = (Err (AlreadyExists "big"), manifest refused).
Proof.
  refine (proj1 (rolled_back_key_is_burned (manifest refused) "big"
    (mkSagaEntry "big" BulkBlob 101 RolledBack) BulkBlob 1 _ _)); reflexivity.
Defined.
End BudgetSagaWitness.
