(* ===== verification/Heaps.v ===== *)
(** * Priority queues

    [crates/vo-types/src/skew_heap.rs] and [crates/vo-types/src/binomial_heap.rs]. Both are
    shown to implement one interface, a multiset with [delete_min], against which sorting
    by repeated [delete_min] is proved. A [usize] counter wraps, as in the release profile. *)

From stdpp Require Import sorting.
From S2P Require Import Prelude.

(** ** [Ord] *)

(** [a <= b] of the element type, a total order. *)
Class OrdApi (A : Type) : Type := le : A -> A -> bool.

Class OrdLaws (A : Type) `{OA : OrdApi A} : Prop := {
  le_total : forall x y, le x y = true \/ le y x = true;
  le_trans : forall x y z, le x y = true -> le y z = true -> le x z = true;
}.

(** [a < b]. *)
Definition lt {A} `{OA : OrdApi A} (x y : A) : bool := negb (le y x).

(** [x] is a least element of [l]. *)
Definition least {A} `{OA : OrdApi A} (x : A) (l : list A) : Prop :=
  x ∈ l /\ Forall (fun y => le x y = true) l.

Section OrdFacts.
Context {A : Type} `{OA : OrdApi A} `{OL : !OrdLaws A}.

Lemma le_refl x : le x x = true.
Proof. by destruct (le_total x x). Qed.

Lemma lt_le x y : lt x y = true -> le x y = true.
Proof. unfold lt. destruct (le_total x y) as [-> | ->]; [done|]. by intros. Qed.

Lemma not_le x y : le x y = false -> le y x = true.
Proof. by destruct (le_total x y) as [-> | ->]. Qed.

End OrdFacts.

Lemma as_u64_add x y : wrapping_add_u64 (as_u64 x) (as_u64 y) = as_u64 (x + y).
Proof. unfold wrapping_add_u64, as_u64. by rewrite <- Zplus_mod. Qed.

Lemma as_u64_add_1 x : wrapping_add_u64 (as_u64 x) 1 = as_u64 (x + 1).
Proof. by rewrite <- as_u64_add. Qed.

Lemma as_u64_add_sub x y : as_u64 (wrapping_add_u64 (as_u64 x) y - y) = as_u64 x.
Proof.
  unfold wrapping_add_u64, as_u64. rewrite Zminus_mod_idemp_l.
  replace (x mod (u64_max + 1) + y - y) with (x mod (u64_max + 1)) by lia. apply Zmod_mod.
Qed.

Lemma as_u64_sub_1 x : as_u64 (as_u64 x - 1) = as_u64 (x - 1).
Proof. unfold as_u64. by rewrite Zminus_mod_idemp_l. Qed.

(** ** The interface *)

Class PriorityQueue (A H : Type) : Type := {
  pq_new : H;
  pq_len : H -> Z;
  pq_insert : H -> A -> H;
  pq_merge : H -> H -> H;
  pq_find_min : H -> option A;
  pq_delete_min : H -> option A * H;
}.

(** A queue holds a multiset, given as a list up to order. *)
Class QueueLaws (A H : Type) `{OA : OrdApi A} `{Q : !PriorityQueue A H} : Type := {
  elems : H -> list A;
  queue_wf : H -> Prop;
  new_law : queue_wf pq_new /\ elems pq_new = [];
  len_law : forall h, queue_wf h -> pq_len h = as_u64 (Z.of_nat (length (elems h)));
  insert_law : forall h x, queue_wf h ->
    queue_wf (pq_insert h x) /\ elems (pq_insert h x) ≡ₚ x :: elems h;
  merge_law : forall h1 h2, queue_wf h1 -> queue_wf h2 ->
    queue_wf (pq_merge h1 h2) /\ elems (pq_merge h1 h2) ≡ₚ elems h1 ++ elems h2;
  find_min_law : forall h, queue_wf h ->
    match pq_find_min h with Some x => least x (elems h) | None => elems h = [] end;
  delete_min_law : forall h, queue_wf h -> Z.of_nat (length (elems h)) <= u64_max ->
    match pq_delete_min h with
    | (Some x, h') => queue_wf h' /\ elems h ≡ₚ x :: elems h' /\ least x (elems h)
    | (None, h') => h' = h /\ elems h = []
    end;
}.

(** ** Skew heaps *)

Module Skew.
Section Skew.
Context {A : Type} `{OA : OrdApi A}.

(** [Option<Box<SkewNode<T>>>]. *)
Inductive SkewNode : Type :=
| NoNode
| Node (value : A) (left right : SkewNode).

(** [struct SkewHeap]. *)
Record SkewHeap : Type := mkHeap { root : SkewNode; len : Z }.

Fixpoint size (t : SkewNode) : nat :=
  match t with NoNode => 0 | Node _ l r => S (size l + size r) end.

(** [SkewHeap::merge_nodes]; each call goes down one of the trees. *)
Fixpoint merge_fuel (fuel : nat) (a b : SkewNode) : SkewNode :=
  match fuel with
  | O => NoNode
  | S fuel' =>
      match a, b with
      | NoNode, b => b
      | a, NoNode => a
      | Node va la ra, Node vb lb rb =>
          if le va vb then Node va la (merge_fuel fuel' ra b)
          else Node vb lb (merge_fuel fuel' rb a)
      end
  end.

Definition merge_nodes (a b : SkewNode) : SkewNode := merge_fuel (S (size a + size b)) a b.

(** [SkewHeap::new]. *)
Definition new : SkewHeap := mkHeap NoNode 0.

(** [SkewHeap::is_empty]. *)
Definition is_empty (h : SkewHeap) : bool := match root h with NoNode => true | _ => false end.

(** [SkewHeap::find_min]. *)
Definition find_min (h : SkewHeap) : option A :=
  match root h with Node v _ _ => Some v | NoNode => None end.

(** [SkewHeap::insert]. *)
Definition insert (h : SkewHeap) (value : A) : SkewHeap :=
  mkHeap (merge_nodes (root h) (Node value NoNode NoNode)) (wrapping_add_u64 (len h) 1).

(** [SkewHeap::merge]; the other heap is left empty. *)
Definition merge (h other : SkewHeap) : SkewHeap :=
  mkHeap (merge_nodes (root h) (root other)) (wrapping_add_u64 (len h) (len other)).

(** [SkewHeap::delete_min]. *)
Definition delete_min (h : SkewHeap) : option A * SkewHeap :=
  match root h with
  | NoNode => (None, h)
  | Node v l r => (Some v, mkHeap (merge_nodes l r) (as_u64 (len h - 1)))
  end.

(** The loop of [into_sorted_vec]: one turn per element. *)
Fixpoint into_sorted_fuel (fuel : nat) (h : SkewHeap) : list A :=
  match fuel with
  | O => []
  | S fuel' => match delete_min h with
               | (Some v, h') => v :: into_sorted_fuel fuel' h'
               | (None, _) => []
               end
  end.

(** [SkewHeap::into_sorted_vec]. *)
Definition into_sorted_vec (h : SkewHeap) : list A := into_sorted_fuel (size (root h)) h.

(** [FromIterator::from_iter], by [extend]. *)
Definition from_iter (l : list A) : SkewHeap := fold_left insert l new.

(** [SkewHeap::verify_heap_property] and [is_valid_heap]. *)
Fixpoint verify_heap_property (t : SkewNode) : bool :=
  match t with
  | NoNode => true
  | Node v l r =>
      match l with NoNode => true | Node lv _ _ => le v lv && verify_heap_property l end &&
      match r with NoNode => true | Node rv _ _ => le v rv && verify_heap_property r end
  end.

Definition is_valid_heap (h : SkewHeap) : bool := verify_heap_property (root h).

(** *** Correctness *)

Fixpoint node_elems (t : SkewNode) : list A :=
  match t with NoNode => [] | Node v l r => v :: node_elems l ++ node_elems r end.

(** Every value is at most the values below it. *)
Fixpoint ordered (t : SkewNode) : Prop :=
  match t with
  | NoNode => True
  | Node v l r => Forall (fun y => le v y = true) (node_elems l ++ node_elems r) /\
                  ordered l /\ ordered r
  end.

Lemma node_elems_size t : length (node_elems t) = size t.
Proof. induction t as [|v l IHl r IHr]; cbn; [done|]. rewrite length_app. lia. Qed.

Context `{OL : !OrdLaws A}.

Lemma merge_fuel_elems fuel a b :
  (size a + size b < fuel)%nat -> node_elems (merge_fuel fuel a b) ≡ₚ node_elems a ++ node_elems b.
Proof.
  revert a b; induction fuel as [|fuel IH]; intros a b Hf; [lia|]. cbn [merge_fuel].
  destruct a as [|va la ra]; [done|]. destruct b as [|vb lb rb]; [by rewrite app_nil_r|].
  destruct (le va vb); cbn [node_elems app]; rewrite IH by (cbn in *; lia).
  - by rewrite app_assoc.
  - transitivity ((vb :: node_elems lb ++ node_elems rb) ++ node_elems (Node va la ra)).
    + cbn [node_elems app]. by rewrite <- app_assoc.
    + exact (Permutation_app_comm _ (node_elems (Node va la ra))).
Qed.

Lemma above_root v l r y : ordered (Node v l r) -> y ∈ node_elems (Node v l r) -> le v y = true.
Proof.
  intros [Hv _] [->|Hy]%elem_of_cons; [apply le_refl|]. rewrite Forall_forall in Hv. by apply Hv.
Qed.

Lemma merge_fuel_ordered fuel a b :
  (size a + size b < fuel)%nat -> ordered a -> ordered b -> ordered (merge_fuel fuel a b).
Proof.
  revert a b; induction fuel as [|fuel IH]; intros a b Hf Ha Hb; [lia|]. cbn [merge_fuel].
  destruct a as [|va la ra]; [done|]. destruct b as [|vb lb rb]; [done|].
  pose proof Ha as (Hva & Hla & Hra). pose proof Hb as (Hvb & Hlb & Hrb).
  apply Forall_app in Hva as [Hval Hvar]. apply Forall_app in Hvb as [Hvbl Hvbr].
  destruct (le va vb) eqn:E; cbn [ordered].
  - split_and!; [|done|apply IH; done || (cbn in *; lia)].
    rewrite merge_fuel_elems by (cbn in *; lia).
    apply Forall_app. split; [done|]. apply Forall_app. split; [done|].
    apply Forall_forall. intros y Hy. eapply le_trans; [exact E|]. by eapply above_root.
  - split_and!; [|done|apply IH; done || (cbn in *; lia)].
    rewrite merge_fuel_elems by (cbn in *; lia).
    apply Forall_app. split; [done|]. apply Forall_app. split; [done|].
    apply Forall_forall. intros y Hy. eapply le_trans; [exact (not_le _ _ E)|]. by eapply above_root.
Qed.

(** The enough-fuel lemmas at [merge_nodes]. *)
Lemma merge_nodes_spec a b :
  ordered a -> ordered b ->
  ordered (merge_nodes a b) /\ node_elems (merge_nodes a b) ≡ₚ node_elems a ++ node_elems b.
Proof.
  intros Ha Hb. split; [apply merge_fuel_ordered; done || lia|apply merge_fuel_elems; lia].
Qed.

Definition heap_elems (h : SkewHeap) : list A := node_elems (root h).

Definition heap_wf (h : SkewHeap) : Prop :=
  ordered (root h) /\ len h = as_u64 (Z.of_nat (length (heap_elems h))).

(** No node has a left child: merging goes down the right spines and, unlike a skew heap's,
    does not swap the children, so a heap built by the operations is a sorted list. *)
Fixpoint spine (t : SkewNode) : Prop :=
  match t with NoNode => True | Node _ l r => l = NoNode /\ spine r end.

Lemma merge_nodes_spine a b : spine a -> spine b -> spine (merge_nodes a b).
Proof.
  unfold merge_nodes. generalize (S (size a + size b)) as fuel. intros fuel.
  revert a b; induction fuel as [|fuel IH]; intros a b Ha Hb; [done|]. cbn [merge_fuel].
  destruct a as [|va la ra]; [done|]. destruct b as [|vb lb rb]; [done|].
  destruct (le va vb); [destruct Ha|destruct Hb]; (split; [done|by apply IH]).
Qed.

Lemma from_iter_spine l : spine (root (from_iter l)).
Proof.
  unfold from_iter. induction l as [|x l IH] using rev_ind; [done|].
  rewrite fold_left_app. by apply merge_nodes_spine.
Qed.

(** The test of the code is the ordering. *)
Lemma verify_heap_property_spec t : verify_heap_property t = true <-> ordered t.
Proof.
  induction t as [|v l IHl r IHr]; [done|].
  assert (forall c, (verify_heap_property c = true <-> ordered c) ->
            match c with NoNode => true | Node cv _ _ => le v cv && verify_heap_property c end = true
            <-> Forall (fun y => le v y = true) (node_elems c) /\ ordered c) as Hc.
  { intros c Hc. destruct c as [|cv cl cr]; [by cbn; rewrite Forall_nil|].
    rewrite andb_true_iff, Hc. split; [|by intros [[Hv _]%Forall_cons Ho]].
    intros [Hv Ho]. split; [|done]. apply Forall_forall. intros y Hy.
    eapply le_trans; [exact Hv|]. by eapply above_root. }
  cbn [verify_heap_property ordered]. rewrite andb_true_iff, (Hc l IHl), (Hc r IHr), Forall_app.
  tauto.
Qed.

#[global] Instance skew_queue : PriorityQueue A SkewHeap := {|
  pq_new := new; pq_len := len; pq_insert := insert; pq_merge := merge;
  pq_find_min := find_min; pq_delete_min := delete_min;
|}.

#[global] Instance skew_laws : QueueLaws A SkewHeap.
Proof.
  refine {| elems := heap_elems; queue_wf := heap_wf |}.
  - done.
  - by intros h [_ ?].
  - intros h x [Ho Hl]. unfold heap_wf, heap_elems. cbn [pq_insert skew_queue insert root len].
    destruct (merge_nodes_spec (root h) (Node x NoNode NoNode) Ho) as [Hm Hp]; [by split_and!|].
    rewrite Hp. cbn [node_elems app]. split_and!; [done| |by rewrite Permutation_app_comm].
    rewrite Hl, as_u64_add_1, length_app. f_equal. unfold heap_elems. cbn [length]. lia.
  - intros h1 h2 [Ho1 Hl1] [Ho2 Hl2]. unfold heap_wf, heap_elems. cbn [pq_merge skew_queue merge root len].
    destruct (merge_nodes_spec (root h1) (root h2) Ho1 Ho2) as [Hm Hp].
    rewrite Hp. split_and!; [done| |done].
    rewrite Hl1, Hl2, as_u64_add, length_app. f_equal. unfold heap_elems. lia.
  - intros h [Ho _]. cbn [pq_find_min skew_queue]. unfold find_min, heap_elems.
    destruct (root h) as [|v l r]; [done|]. split; [left|]. apply Forall_forall. intros y Hy.
    by eapply above_root.
  - intros h [Ho Hl] _. cbn [pq_delete_min skew_queue]. unfold delete_min, heap_wf, heap_elems in *.
    destruct (root h) as [|v l r]; [done|]. pose proof Ho as (Hv & Hol & Hor).
    destruct (merge_nodes_spec l r Hol Hor) as [Hm Hp]. cbn [root len]. split_and!; [done| | |split; [left|]].
    + rewrite Hl, as_u64_sub_1, Hp. f_equal. cbn [node_elems length]. lia.
    + cbn [node_elems]. by rewrite Hp.
    + apply Forall_forall. intros y Hy. by eapply above_root.
Defined.
End Skew.
Arguments SkewNode : clear implicits.
Arguments SkewHeap : clear implicits.
End Skew.

(** ** Binomial heaps *)

Module Binomial.
Section Binomial.
Context {A : Type} `{OA : OrdApi A}.

(** [Option<Box<BinomialNode<T>>>], and the [Option<BinomialNode<T>>] of the root list. *)
Inductive BinomialNode : Type :=
| NoNode
| Node (value : A) (degree : nat) (child sibling : BinomialNode).

(** [struct BinomialHeap]. *)
Record BinomialHeap : Type := mkHeap { trees : list BinomialNode; len : Z }.

(** [BinomialNode::new]. *)
Definition node_new (value : A) : BinomialNode := Node value 0 NoNode NoNode.

(** [BinomialNode::link]: [first] becomes the first child of [second]. *)
Definition link (first second : BinomialNode) : BinomialNode :=
  match first, second with
  | Node v1 d1 c1 _, Node v2 d2 c2 s2 => Node v2 (S d2) (Node v1 d1 c1 c2) s2
  | _, _ => second
  end.

(** [BinomialNode::min_value]; [None] on no node. *)
Fixpoint min_value (t : BinomialNode) : option A :=
  match t with
  | NoNode => None
  | Node v _ c s =>
      let m := match min_value c with Some cm => if lt cm v then cm else v | None => v end in
      Some (match min_value s with Some sm => if lt sm m then sm else m | None => m end)
  end.

(** [BinomialHeap::default]. *)
Definition new : BinomialHeap := mkHeap [] 0.

(** [BinomialHeap::is_empty]. *)
Definition is_empty (h : BinomialHeap) : bool := len h =? 0.

(** [BinomialHeap::find_min]: the loop over the trees that are present. *)
Definition find_min (h : BinomialHeap) : option A :=
  fold_left (fun min t =>
    match min_value t, min with
    | None, _ => min
    | Some m, None => Some m
    | Some m, Some current => if lt m current then Some m else min
    end) (trees h) None.

(** [BinomialHeap::merge_trees]. *)
Definition merge_trees (a b : BinomialNode) : BinomialNode :=
  match a, b with
  | Node va _ _ _, Node vb _ _ _ => if le va vb then link b a else link a b
  | _, _ => NoNode
  end.

(** [BinomialHeap::carry] of a tree, on the root list from the degree on. *)
Fixpoint carry (c : BinomialNode) (l : list BinomialNode) : list BinomialNode :=
  match l with
  | [] => [c]
  | NoNode :: l' => c :: l'
  | a :: l' => NoNode :: carry (merge_trees a c) l'
  end.

(** [BinomialHeap::insert]. *)
Definition insert (h : BinomialHeap) (value : A) : BinomialHeap :=
  mkHeap (carry (node_new value) (trees h)) (wrapping_add_u64 (len h) 1).

(** One turn of the loop of [merge]: the tree left at the degree, and the carry. *)
Definition merge_step (c a b : BinomialNode) : BinomialNode * BinomialNode :=
  match c, a, b with
  | NoNode, NoNode, NoNode => (NoNode, NoNode)
  | NoNode, NoNode, t => (t, NoNode)
  | NoNode, t, NoNode => (t, NoNode)
  | c, NoNode, NoNode => (c, NoNode)
  | NoNode, a, b => (NoNode, merge_trees a b)
  | c, a, NoNode => (NoNode, merge_trees c a)
  | c, NoNode, a => (NoNode, merge_trees c a)
  | c, a, b => (NoNode, merge_trees c (merge_trees a b))
  end.

(** The loop of [merge], over the root lists padded to the same length; a last carry is
    pushed. *)
Fixpoint merge_loop (c : BinomialNode) (l : list (BinomialNode * BinomialNode))
  : list BinomialNode :=
  match l with
  | [] => match c with NoNode => [] | _ => [c] end
  | (a, b) :: l' => let '(t, c') := merge_step c a b in t :: merge_loop c' l'
  end.

Definition pad (n : nat) (l : list BinomialNode) : list BinomialNode :=
  l ++ replicate (n - length l) NoNode.

(** [BinomialHeap::merge]; the other heap is left empty. *)
Definition merge (h other : BinomialHeap) : BinomialHeap :=
  let n := S (max (length (trees h)) (length (trees other))) in
  mkHeap (merge_loop NoNode (zip (pad n (trees h)) (pad n (trees other))))
         (wrapping_add_u64 (len h) (len other)).

(** The index [min_by_key] picks: the first of the least minima. *)
Fixpoint min_degree (i : nat) (l : list BinomialNode) (best : option (nat * A))
  : option nat :=
  match l with
  | [] => fst <$> best
  | t :: l' =>
      min_degree (S i) l'
        (match min_value t, best with
         | None, _ => best
         | Some m, None => Some (i, m)
         | Some m, Some (_, current) => if lt m current then Some (i, m) else best
         end)
  end.

(** The [while] loop of [delete_min]: the children, each without its sibling. *)
Fixpoint detach (t : BinomialNode) : list BinomialNode :=
  match t with
  | NoNode => []
  | Node v d c s => Node v d c NoNode :: detach s
  end.

(** [BinomialHeap::delete_min]; the [expect] is not reached when the heap counts its
    elements, and its [None] stands for the panic. *)
Definition delete_min (h : BinomialHeap) : option A * BinomialHeap :=
  if is_empty h then (None, h)
  else
    match min_degree 0 (trees h) None with
    | None => (None, h)
    | Some i =>
        match trees h !! i with
        | Some (Node v d c s) =>
            let child_count := as_u64 (as_u64 (2 ^ Z.of_nat d) - 1) in
            let rest := mkHeap (<[i := NoNode]> (trees h)) (as_u64 (len h - 1)) in
            let merged := merge rest (mkHeap (rev (detach c)) child_count) in
            (Some v, mkHeap (trees merged) (as_u64 (len merged - child_count)))
        | _ => (None, h)
        end
    end.

(** [FromIterator::from_iter], by [extend]. *)
Definition from_iter (l : list A) : BinomialHeap := fold_left insert l new.

(** *** Correctness *)

Fixpoint node_elems (t : BinomialNode) : list A :=
  match t with NoNode => [] | Node v _ c s => v :: node_elems c ++ node_elems s end.

Definition forest_elems (l : list BinomialNode) : list A := concat (node_elems <$> l).

(** The trees of a child list are in heap order below [v]. *)
Fixpoint above (v : A) (c : BinomialNode) : Prop :=
  match c with
  | NoNode => True
  | Node cv _ cc cs => le v cv = true /\ above cv cc /\ above v cs
  end.

(** A tree of the root list: heap ordered, without siblings. *)
Definition root_ok (t : BinomialNode) : Prop :=
  match t with NoNode => True | Node v _ c s => s = NoNode /\ above v c end.

Definition is_node (t : BinomialNode) : Prop := t <> NoNode.

Context `{OL : !OrdLaws A}.

Lemma above_elems v c : above v c -> Forall (fun y => le v y = true) (node_elems c).
Proof.
  revert v; induction c as [|cv cd cc IHc cs IHs]; intros v; [by constructor|].
  intros (Hv & Hc & Hs). cbn [node_elems]. constructor; [done|].
  apply Forall_app. split; [|by apply IHs]. eapply Forall_impl; [by apply IHc|].
  intros y Hy. by eapply le_trans.
Qed.

Lemma root_least v d c s : root_ok (Node v d c s) -> least v (node_elems (Node v d c s)).
Proof.
  intros [-> Hc]. cbn [node_elems]. rewrite app_nil_r. split; [left|].
  constructor; [apply le_refl|by apply above_elems].
Qed.

Lemma merge_trees_spec a b :
  is_node a -> is_node b -> root_ok a -> root_ok b ->
  is_node (merge_trees a b) /\ root_ok (merge_trees a b) /\
  node_elems (merge_trees a b) ≡ₚ node_elems a ++ node_elems b.
Proof.
  destruct a as [|va da ca sa]; [by intros []|]. destruct b as [|vb db cb sb]; [by intros _ []|].
  intros _ _ [-> Ha] [-> Hb]. cbn [merge_trees].
  destruct (le va vb) eqn:E; cbn [link node_elems]; rewrite ?app_nil_r; (split; [done|]); split.
  - cbn. by split_and!.
  - constructor. by rewrite <- (Permutation_app_comm (vb :: _)).
  - cbn. split_and!; [done|by apply not_le|done..].
  - cbn. by rewrite <- Permutation_middle, Permutation_swap.
Qed.

Lemma carry_spec c l :
  is_node c -> root_ok c -> Forall root_ok l ->
  Forall root_ok (carry c l) /\ forest_elems (carry c l) ≡ₚ node_elems c ++ forest_elems l.
Proof.
  intros Hn Hc Hf. revert c Hn Hc; induction Hf as [|t l Ht Hf IH]; intros c Hn Hc.
  { split; [by constructor|done]. }
  destruct t as [|v d' ct st]; [by split; [constructor|]|].
  destruct (merge_trees_spec (Node v d' ct st) c) as (Hmn & Hmb & Hme); [done..|].
  destruct (IH _ Hmn Hmb) as [Hf' He]. cbn [carry]. split; [by constructor|].
  change (forest_elems (NoNode :: ?x)) with (forest_elems x).
  change (forest_elems (?x :: l)) with (node_elems x ++ forest_elems l).
  rewrite He, Hme, app_assoc. f_equiv. apply Permutation_app_comm.
Qed.

Lemma merge_step_spec c a b :
  root_ok c -> root_ok a -> root_ok b ->
  root_ok (merge_step c a b).1 /\ root_ok (merge_step c a b).2 /\
  node_elems (merge_step c a b).1 ++ node_elems (merge_step c a b).2
  ≡ₚ node_elems c ++ node_elems a ++ node_elems b.
Proof.
  intros Hc Ha Hb.
  destruct c as [|vc dc cc sc] eqn:Ec, a as [|va da ca sa] eqn:Ea, b as [|vb db cb sb] eqn:Eb;
    try (by cbn; rewrite ?app_nil_r); rewrite <- ?Ec, <- ?Ea, <- ?Eb in *.
  - destruct (merge_trees_spec a b) as (_ & ? & ?); [by subst..|]. by subst.
  - destruct (merge_trees_spec c b) as (_ & ? & ?); [by subst..|]. by subst.
  - destruct (merge_trees_spec c a) as (_ & ? & ?); [by subst..|]. subst. by rewrite app_nil_r.
  - destruct (merge_trees_spec a b) as (Hn & Hr & He); [by subst..|].
    destruct (merge_trees_spec c (merge_trees a b)) as (_ & ? & He'); [by subst..|].
    rewrite He in He'. by subst.
Qed.

Lemma forest_elems_app l1 l2 : forest_elems (l1 ++ l2) = forest_elems l1 ++ forest_elems l2.
Proof. unfold forest_elems. by rewrite fmap_app, concat_app. Qed.

Lemma merge_loop_spec c l :
  root_ok c -> Forall (fun ab => root_ok ab.1 /\ root_ok ab.2) l ->
  Forall root_ok (merge_loop c l) /\
  forest_elems (merge_loop c l)
  ≡ₚ node_elems c ++ forest_elems (fst <$> l) ++ forest_elems (snd <$> l).
Proof.
  intros Hc Hl. revert c Hc; induction Hl as [|[a b] l [Ha Hb] _ IH]; intros c Hc.
  { destruct c; cbn; [done|]. split; [by constructor|]. by rewrite app_nil_r. }
  cbn [merge_loop fst snd] in *. destruct (merge_step_spec c a b Hc Ha Hb) as (Ht & Hc' & He).
  destruct (merge_step c a b) as [t c']. cbn [fst snd] in *. destruct (IH c' Hc') as [Hf Hfe].
  split; [by constructor|]. csimpl.
  change (forest_elems (?x :: ?y)) with (node_elems x ++ forest_elems y). cbn [fst snd].
  rewrite Hfe, app_assoc, He, <- !app_assoc. f_equiv. f_equiv.
  rewrite !app_assoc. f_equiv. apply Permutation_app_comm.
Qed.

Lemma forest_elems_nones n : forest_elems (replicate n NoNode) = [].
Proof. by induction n. Qed.

Lemma pad_spec n l :
  (length l <= n)%nat ->
  length (pad n l) = n /\ forest_elems (pad n l) = forest_elems l /\
  (Forall root_ok l -> Forall root_ok (pad n l)).
Proof.
  intros Hl. unfold pad. rewrite length_app, length_replicate, forest_elems_app,
    forest_elems_nones, app_nil_r.
  split_and!; [lia|done|]. intros H. apply Forall_app. split; [done|]. by apply Forall_replicate.
Qed.

Lemma merge_spec h1 h2 :
  Forall root_ok (trees h1) -> Forall root_ok (trees h2) ->
  Forall root_ok (trees (merge h1 h2)) /\
  forest_elems (trees (merge h1 h2)) ≡ₚ forest_elems (trees h1) ++ forest_elems (trees h2).
Proof.
  intros H1 H2. unfold merge. cbn [trees].
  set (n := S (max (length (trees h1)) (length (trees h2)))).
  destruct (pad_spec n (trees h1) ltac:(lia)) as (L1 & E1 & R1).
  destruct (pad_spec n (trees h2) ltac:(lia)) as (L2 & E2 & R2).
  destruct (merge_loop_spec NoNode (zip (pad n (trees h1)) (pad n (trees h2))))
    as [Hr He]; [done| |split; [done|]].
  - apply Forall_forall. intros [a b] Hab. specialize (R1 H1). specialize (R2 H2).
    rewrite Forall_forall in R1, R2. split; [apply R1|apply R2].
    + by eapply elem_of_zip_l.
    + by eapply elem_of_zip_r.
  - rewrite He, fst_zip, snd_zip, E1, E2 by lia. done.
Qed.

Lemma detach_spec v c :
  above v c -> Forall root_ok (detach c) /\ forest_elems (detach c) ≡ₚ node_elems c.
Proof.
  revert v; induction c as [|cv cd cc _ cs IHs]; intros v; [by split; [constructor|]|].
  intros (_ & Hc & Hs). destruct (IHs v Hs) as [Hf He]. cbn [detach]. split; [by constructor|].
  change (forest_elems (?x :: ?y)) with (node_elems x ++ forest_elems y).
  cbn [node_elems app]. by rewrite He, app_nil_r.
Qed.

Lemma least_or x l y l' :
  least x l -> least y l' ->
  least (if lt y x then y else x) (l ++ l').
Proof.
  intros [Hx Hl] [Hy Hl']. unfold lt. destruct (le x y) eqn:E; cbn [negb].
  - split; [set_solver|]. apply Forall_app. split; [done|]. eapply Forall_impl; [exact Hl'|].
    intros z Hz. by eapply le_trans.
  - split; [set_solver|]. apply Forall_app. split; [|done]. eapply Forall_impl; [exact Hl|].
    intros z Hz. eapply le_trans; [by apply not_le|done].
Qed.

Lemma min_value_spec t :
  match min_value t with Some m => least m (node_elems t) | None => t = NoNode end.
Proof.
  induction t as [|v d c IHc s IHs]; [done|]. cbn [min_value node_elems].
  assert (least v [v]) as Hv by (split; [left|]; constructor; [apply le_refl|constructor]).
  assert (least (match min_value c with Some cm => if lt cm v then cm else v | None => v end)
            (v :: node_elems c)) as Hc.
  { destruct (min_value c) as [cm|]; [|by subst c]. exact (least_or v [v] cm _ Hv IHc). }
  rewrite app_comm_cons. destruct (min_value s) as [sm|]; [by apply least_or|].
  subst s. by rewrite app_nil_r.
Qed.

Lemma find_min_fold l best seen :
  match best with Some x => least x seen | None => seen = [] end ->
  match fold_left (fun min t =>
    match min_value t, min with
    | None, _ => min
    | Some m, None => Some m
    | Some m, Some current => if lt m current then Some m else min
    end) l best with
  | Some x => least x (seen ++ forest_elems l)
  | None => seen ++ forest_elems l = []
  end.
Proof.
  revert best seen; induction l as [|t l IH]; intros best seen H; cbn [fold_left].
  { change (forest_elems []) with (@nil A). by rewrite app_nil_r. }
  change (forest_elems (t :: l)) with (node_elems t ++ forest_elems l). rewrite app_assoc.
  apply IH. pose proof (min_value_spec t) as Ht. destruct (min_value t) as [m|].
  - destruct best as [x|]; [|by subst seen].
    pose proof (least_or _ _ _ _ H Ht). by destruct (lt m x).
  - subst t. cbn [node_elems]. by rewrite app_nil_r.
Qed.

(** The tree that [delete_min] takes holds a least element. *)
Lemma min_degree_spec pre l best :
  match best with
  | Some (i, m) => exists t, pre !! i = Some t /\ min_value t = Some m /\ least m (forest_elems pre)
  | None => forest_elems pre = []
  end ->
  match min_degree (length pre) l best with
  | Some i => exists t m, (pre ++ l) !! i = Some t /\ min_value t = Some m /\
                least m (forest_elems (pre ++ l))
  | None => forest_elems (pre ++ l) = []
  end.
Proof.
  revert pre best; induction l as [|t l IH]; intros pre best H; cbn [min_degree].
  { rewrite app_nil_r. destruct best as [[i m]|]; [|done]. destruct H as (t & ? & ? & ?). by exists t, m. }
  specialize (IH (pre ++ [t])). rewrite <- app_assoc, length_app in IH. cbn [app length] in IH.
  rewrite Nat.add_1_r in IH. apply IH.
  assert (forest_elems (pre ++ [t]) = forest_elems pre ++ node_elems t) as Hpre.
  { rewrite forest_elems_app. change (forest_elems [t]) with (node_elems t ++ []). by rewrite app_nil_r. }
  pose proof (min_value_spec t) as Ht. destruct (min_value t) as [m|] eqn:Em.
  - destruct best as [[i x]|].
    + destruct H as (t0 & Hi & Hx & Hl). pose proof (least_or _ _ _ _ Hl Ht) as Hor.
      rewrite <- Hpre in Hor. destruct (lt m x).
      * exists t. split_and!; [by apply list_lookup_middle|done..].
      * exists t0. split_and!; [by apply lookup_app_l_Some|done..].
    + exists t. rewrite Hpre, H. split_and!; [by apply list_lookup_middle|done..].
  - subst t. cbn [node_elems] in Hpre. rewrite app_nil_r in Hpre. rewrite Hpre.
    destruct best as [[i x]|]; [|done]. destruct H as (t0 & Hi & Hx & Hl). exists t0.
    split_and!; [by apply lookup_app_l_Some|done..].
Qed.

Lemma take_tree l i t :
  l !! i = Some t -> forest_elems l ≡ₚ node_elems t ++ forest_elems (<[i := NoNode]> l).
Proof.
  intros (l1 & l2 & -> & ->)%list_elem_of_split_length.
  replace (length l1) with (length l1 + 0)%nat by lia.
  rewrite insert_app_r, !forest_elems_app. change (<[0%nat := NoNode]> (t :: l2)) with (NoNode :: l2).
  change (forest_elems (t :: l2)) with (node_elems t ++ forest_elems l2).
  change (forest_elems (NoNode :: l2)) with (forest_elems l2).
  rewrite !app_assoc. f_equiv. apply Permutation_app_comm.
Qed.

Definition heap_elems (h : BinomialHeap) : list A := forest_elems (trees h).

Definition heap_wf (h : BinomialHeap) : Prop :=
  Forall root_ok (trees h) /\ len h = as_u64 (Z.of_nat (length (heap_elems h))).

#[global] Instance binomial_queue : PriorityQueue A BinomialHeap := {|
  pq_new := new; pq_len := len; pq_insert := insert; pq_merge := merge;
  pq_find_min := find_min; pq_delete_min := delete_min;
|}.

Lemma delete_min_spec h :
  heap_wf h -> Z.of_nat (length (heap_elems h)) <= u64_max ->
  match delete_min h with
  | (Some x, h') => heap_wf h' /\ heap_elems h ≡ₚ x :: heap_elems h' /\ least x (heap_elems h)
  | (None, h') => h' = h /\ heap_elems h = []
  end.
Proof.
  intros [Hr Hl] Hb. unfold delete_min, is_empty.
  assert (len h = Z.of_nat (length (heap_elems h))) as Hlen
    by (rewrite Hl; unfold as_u64; apply Z.mod_small; lia).
  destruct (Z.eqb_spec (len h) 0) as [H0|H0].
  { split; [done|]. destruct (heap_elems h); [done|]. cbn [length] in Hlen. lia. }
  pose proof (min_degree_spec [] (trees h) None eq_refl) as Hm. cbn [length app] in Hm.
  destruct (min_degree 0 (trees h) None) as [i|].
  2: { unfold heap_elems in Hlen. rewrite Hm in Hlen. done. }
  destruct Hm as (t & m & Hi & Hmin & Hleast). rewrite Hi.
  destruct t as [|v d c s]; [done|].
  assert (root_ok (Node v d c s)) as Ht by (by eapply Forall_lookup_1 in Hi).
  pose proof (root_least _ _ _ _ Ht) as [Hv Hvt]. destruct Ht as [-> Hc].
  destruct (detach_spec v c Hc) as [Hd Hde].
  assert (Forall root_ok (<[i := NoNode]> (trees h))) as Hr' by (by apply Forall_insert).
  set (rest := mkHeap (<[i := NoNode]> (trees h)) _). set (kids := mkHeap (rev (detach c)) _).
  destruct (merge_spec rest kids Hr') as [Hm Hme]; [by apply Forall_rev|].
  assert (heap_elems h ≡ₚ v :: forest_elems (trees (merge rest kids))) as Hel.
  { unfold heap_elems. rewrite (take_tree _ _ _ Hi), Hme. cbn [rest kids trees node_elems app].
    rewrite app_nil_r. constructor. rewrite Permutation_app_comm. f_equiv.
    rewrite <- Hde. unfold forest_elems. by rewrite <- Permutation_rev. }
  split; [split; [exact Hm|]|split; [exact Hel|]].
  - assert (Z.of_nat (length (heap_elems h)) = 1 + Z.of_nat (length (forest_elems
      (trees (merge rest kids))))) as Hcount by (rewrite Hel; cbn [length]; lia).
    unfold heap_elems at 1. cbn [trees len merge rest kids] in *.
    rewrite as_u64_add_sub, Hlen, Hcount. f_equal. lia.
  - pose proof (min_value_spec (Node v d c NoNode)) as Hmv. rewrite Hmin in Hmv.
    split; [rewrite Hel; left|]. destruct Hleast as [_ Hall]. eapply Forall_impl; [exact Hall|].
    intros y Hy. eapply le_trans; [|exact Hy]. rewrite Forall_forall in Hvt. apply Hvt, Hmv.
Qed.

#[global] Instance binomial_laws : QueueLaws A BinomialHeap.
Proof.
  refine {| elems := heap_elems; queue_wf := heap_wf |}.
  - split; [split; [constructor|done]|done].
  - by intros h [_ ?].
  - intros h x [Hr Hl]. cbn [pq_insert binomial_queue].
    destruct (carry_spec (node_new x) (trees h)) as [Hr' He]; [done|by split|done|].
    split; [split; [exact Hr'|]|exact He].
    unfold heap_elems in *. cbn [insert trees len]. rewrite He, Hl, as_u64_add_1. f_equal.
    cbn [node_new node_elems app length]. lia.
  - intros h1 h2 [Hr1 Hl1] [Hr2 Hl2]. cbn [pq_merge binomial_queue].
    destruct (merge_spec h1 h2 Hr1 Hr2) as [Hr He]. split; [split; [exact Hr|]|exact He].
    unfold heap_elems in *. rewrite He. cbn [merge len]. rewrite Hl1, Hl2, as_u64_add, length_app.
    f_equal. lia.
  - intros h [Hr _]. exact (find_min_fold (trees h) None [] eq_refl).
  - intros h. apply delete_min_spec.
Defined.
End Binomial.
Arguments BinomialNode : clear implicits.
Arguments BinomialHeap : clear implicits.
End Binomial.

(** ** Sorting with any priority queue *)

Section Sorting.
Context {A H : Type} `{OA : OrdApi A} `{OL : !OrdLaws A} `{Q : !PriorityQueue A H}.
Context `{QL : !QueueLaws A H}.

(** [from_iter], by [extend]. *)
Definition pq_from_iter (l : list A) : H := fold_left pq_insert l pq_new.

(** Repeated [delete_min]. *)
Fixpoint pq_drain (fuel : nat) (h : H) : list A :=
  match fuel with
  | O => []
  | S fuel' => match pq_delete_min h with
               | (Some v, h') => v :: pq_drain fuel' h'
               | (None, _) => []
               end
  end.

Lemma pq_from_iter_spec l :
  queue_wf (pq_from_iter l) /\ elems (pq_from_iter l) ≡ₚ l.
Proof.
  unfold pq_from_iter. induction l as [|x l IH] using rev_ind.
  { destruct new_law as [Hw He]. split; [done|]. cbn [fold_left]. by rewrite He. }
  rewrite fold_left_app. cbn [fold_left]. destruct IH as [Hw He].
  destruct (insert_law _ x Hw) as [Hw' He']. split; [done|]. rewrite He', He.
  by rewrite Permutation_app_comm.
Qed.

Lemma pq_drain_spec fuel h :
  queue_wf h -> (length (elems h) <= fuel)%nat -> Z.of_nat (length (elems h)) <= u64_max ->
  pq_drain fuel h ≡ₚ elems h /\ StronglySorted (fun x y => le x y = true) (pq_drain fuel h).
Proof.
  revert h; induction fuel as [|fuel IH]; intros h Hw Hf Hb.
  { destruct (elems h); [split; [done|constructor]|cbn in Hf; lia]. }
  cbn [pq_drain]. pose proof (delete_min_law h Hw Hb) as Hd.
  destruct (pq_delete_min h) as [[x|] h'].
  - destruct Hd as (Hw' & He & [_ Hx]).
    assert (length (elems h) = S (length (elems h'))) as Hlen by (by rewrite He).
    destruct (IH h' Hw') as [Hp Hs]; [lia..|]. split; [by rewrite He, Hp|].
    constructor; [done|]. rewrite Hp. rewrite He in Hx. by apply Forall_cons in Hx as [_ Hx].
  - destruct Hd as [_ ->]. split; [done|constructor].
Qed.

(** Sorting with a priority queue, for every implementation of the interface (and so
    for the skew heap and the binomial heap): inserting a list and taking the minimum out
    until the queue is empty gives the list sorted, and every queue reports its length,
    finds a least element, and merges without losing an element. *)
Theorem priority_queue_sorts l fuel :
  (length l <= fuel)%nat -> Z.of_nat (length l) <= u64_max ->
  pq_drain fuel (pq_from_iter l) ≡ₚ l /\
  StronglySorted (fun x y => le x y = true) (pq_drain fuel (pq_from_iter l)) /\
  pq_len (pq_from_iter l) = Z.of_nat (length l) /\
  (forall l', elems (pq_merge (pq_from_iter l) (pq_from_iter l')) ≡ₚ l ++ l') /\
  match pq_find_min (pq_from_iter l) with Some x => least x l | None => l = [] end.
Proof.
  intros Hf Hb. destruct (pq_from_iter_spec l) as [Hw He].
  assert (length (elems (pq_from_iter l)) = length l) as Hlen by (by rewrite He).
  destruct (pq_drain_spec fuel _ Hw) as [Hp Hs]; [lia..|]. split_and!; [by rewrite Hp|done| | |].
  - rewrite (len_law _ Hw), Hlen. unfold as_u64. apply Z.mod_small. lia.
  - intros l'. destruct (pq_from_iter_spec l') as [Hw' He'].
    destruct (merge_law _ _ Hw Hw') as [_ ->]. by rewrite He, He'.
  - pose proof (find_min_law _ Hw) as Hm. destruct (pq_find_min _) as [x|].
    + destruct Hm as [Hx Hall]. split; [by rewrite <- He|by rewrite <- He].
    + apply Permutation_nil. by rewrite <- He, Hm.
Qed.
End Sorting.

(** [into_sorted_vec] is the drain of the interface, with the fuel it needs. *)
Lemma into_sorted_vec_drain {A} `{OA : OrdApi A} (h : Skew.SkewHeap A) :
  Skew.into_sorted_vec h = pq_drain (Skew.size (Skew.root h)) h.
Proof.
  unfold Skew.into_sorted_vec. generalize (Skew.size (Skew.root h)) as fuel. intros fuel.
  revert h; induction fuel as [|fuel IH]; intros h; [done|].
  cbn [Skew.into_sorted_fuel pq_drain pq_delete_min Skew.skew_queue].
  destruct (Skew.delete_min h) as [[v|] h']; [|done]. by rewrite IH.
Qed.

(** ** Programs over heaps

    A heap is made by inserting, by merging two heaps and by taking the least element out,
    in any combination. The reference is the sorted list of what is in it. *)

Inductive HeapProg (A : Type) : Type :=
| PNew
| PInsert (p : HeapProg A) (x : A)
| PMerge (p q : HeapProg A)
| PDeleteMin (p : HeapProg A).
Arguments PNew {A}. Arguments PInsert {A} p x. Arguments PMerge {A} p q. Arguments PDeleteMin {A} p.

(** The number of insertions. *)
Fixpoint insertions {A} (p : HeapProg A) : nat :=
  match p with
  | PNew => 0
  | PInsert p _ => S (insertions p)
  | PMerge p q => insertions p + insertions q
  | PDeleteMin p => insertions p
  end.

Section Programs.
Context {A : Type} `{OA : OrdApi A} `{OL : !OrdLaws A}.

(** The program run on a queue. *)
Fixpoint heap_of {H} `{Q : !PriorityQueue A H} (p : HeapProg A) : H :=
  match p with
  | PNew => pq_new
  | PInsert p x => pq_insert (heap_of p) x
  | PMerge p q => pq_merge (heap_of p) (heap_of q)
  | PDeleteMin p => (pq_delete_min (heap_of p)).2
  end.

(** The program run on sorted lists. *)
Fixpoint insert_sorted (x : A) (l : list A) : list A :=
  match l with
  | [] => [x]
  | y :: l' => if le x y then x :: l else y :: insert_sorted x l'
  end.

Fixpoint sorted_of (p : HeapProg A) : list A :=
  match p with
  | PNew => []
  | PInsert p x => insert_sorted x (sorted_of p)
  | PMerge p q => foldr insert_sorted (sorted_of q) (sorted_of p)
  | PDeleteMin p => tail (sorted_of p)
  end.

Abbreviation sorted := (StronglySorted (fun x y => le x y = true)).

Lemma insert_sorted_perm x l : insert_sorted x l ≡ₚ x :: l.
Proof.
  induction l as [|y l IH]; cbn; [done|]. destruct (le x y); [done|]. rewrite IH. constructor.
Qed.

Lemma insert_sorted_sorted x l : sorted l -> sorted (insert_sorted x l).
Proof.
  induction 1 as [|y l Hl IH Hy]; cbn; [repeat constructor|]. destruct (le x y) eqn:E.
  - constructor; [by constructor|]. constructor; [done|]. eapply Forall_impl; [done|].
    intros z Hz. by eapply le_trans.
  - constructor; [done|]. rewrite insert_sorted_perm. constructor; [by apply not_le|done].
Qed.

Lemma sorted_of_sorted p : sorted (sorted_of p).
Proof.
  induction p as [|p IH x|p IHp q IHq|p IH]; cbn; [constructor|by apply insert_sorted_sorted| |].
  - clear IHp. induction (sorted_of p) as [|x l IHl]; [done|]. by apply insert_sorted_sorted.
  - destruct IH; [constructor|done].
Qed.

Lemma merge_sorted_perm l1 l2 : foldr insert_sorted l2 l1 ≡ₚ l1 ++ l2.
Proof. induction l1 as [|x l1 IH]; [done|]. cbn. by rewrite insert_sorted_perm, IH. Qed.

Lemma sorted_of_length p : (length (sorted_of p) <= insertions p)%nat.
Proof.
  induction p as [|p IH x|p IHp q IHq|p IH]; cbn; [done|..].
  - rewrite insert_sorted_perm. cbn. lia.
  - rewrite merge_sorted_perm, length_app. lia.
  - destruct (sorted_of p); cbn in *; lia.
Qed.

(** Equal elements are the same. *)
Context (le_antisym : forall x y, le x y = true -> le y x = true -> x = y).

Lemma least_head x l l' : sorted l -> l' ≡ₚ l -> least x l' -> head l = Some x.
Proof.
  intros Hl Hp [Hx Hall]. rewrite Hp in Hx, Hall. destruct Hl as [|y l Hl Hy]; [by apply elem_of_nil in Hx|].
  cbn. f_equal. apply Forall_cons in Hall as [Hxy _]. apply elem_of_cons in Hx as [->|Hx]; [done|].
  apply le_antisym; [|done]. rewrite Forall_forall in Hy. auto.
Qed.

(** What a queue says of a multiset, given by its sorted list. *)
Record answers {H} `{Q : !PriorityQueue A H} (h : H) (l : list A) : Prop := {
  answers_find : pq_find_min h = head l;
  answers_delete : (pq_delete_min h).1 = head l;
  answers_len : pq_len h = Z.of_nat (length l);
  answers_drain : pq_drain (length l) h = l;
}.

Section Any.
Context {H : Type} `{Q : !PriorityQueue A H} `{QL : !QueueLaws A H}.

Lemma heap_of_elems p :
  Z.of_nat (insertions p) <= u64_max ->
  queue_wf (heap_of (H := H) p) /\ elems (heap_of (H := H) p) ≡ₚ sorted_of p.
Proof.
  induction p as [|p IH x|p IHp q IHq|p IH]; cbn; intros Hn.
  - destruct new_law as [? He]. split; [done|]. by rewrite He.
  - destruct IH as [Hw He]; [lia|]. destruct (insert_law (heap_of p) x Hw) as [? ->]. split; [done|].
    by rewrite He, insert_sorted_perm.
  - destruct IHp as [Hw1 He1]; [lia|]. destruct IHq as [Hw2 He2]; [lia|].
    destruct (merge_law _ _ Hw1 Hw2) as [? ->]. split; [done|]. by rewrite He1, He2, merge_sorted_perm.
  - destruct IH as [Hw He]; [lia|]. pose proof (sorted_of_length p). pose proof (Permutation_length He).
    pose proof (delete_min_law _ Hw ltac:(lia)) as Hd.
    destruct (pq_delete_min (heap_of p)) as [[x|] h']; cbn [snd].
    + destruct Hd as (Hw' & Hx & Hleast). split; [done|].
      pose proof (least_head _ _ _ (sorted_of_sorted p) He Hleast) as Hh. rewrite He in Hx.
      destruct (sorted_of p) as [|y l]; [done|]. cbn in Hh |- *. injection Hh as ->.
      symmetry. by apply Permutation_cons_inv in Hx.
    + destruct Hd as [-> Hnil]. split; [done|]. rewrite Hnil in He |- *.
      by apply Permutation_nil_l in He as <-.
Qed.

Lemma heap_of_answers p :
  Z.of_nat (insertions p) <= u64_max -> answers (heap_of (H := H) p) (sorted_of p).
Proof.
  intros Hn. destruct (heap_of_elems p Hn) as [Hw He]. pose proof (sorted_of_sorted p) as Hs.
  pose proof (sorted_of_length p). pose proof (Permutation_length He) as Hlen. split.
  - pose proof (find_min_law _ Hw) as Hm. destruct (pq_find_min _) as [x|].
    + symmetry. by eapply least_head.
    + rewrite Hm in He. by apply Permutation_nil_l in He as <-.
  - pose proof (delete_min_law _ Hw ltac:(lia)) as Hd. destruct (pq_delete_min _) as [[x|] h']; cbn.
    + destruct Hd as (_ & _ & Hleast). symmetry. by eapply least_head.
    + destruct Hd as [_ Hnil]. rewrite Hnil in He. by apply Permutation_nil_l in He as <-.
  - rewrite (len_law _ Hw), Hlen. unfold as_u64. apply Z.mod_small. unfold u64_max in *. lia.
  - destruct (pq_drain_spec (length (sorted_of p)) _ Hw) as [Hp Hd]; [lia|lia|].
    apply (StronglySorted_unique_strong (fun x y => le x y = true)); [auto|done|done|]. by rewrite Hp.
Qed.
End Any.

(** C32. Both priority queues behave as sorted lists. For every heap made by insertions, merges
    and deletions of the least element in any combination, over any total order, with no more
    insertions than a [usize] counts: the skew heap and the binomial heap give the head of the
    sorted list of their elements as the least element, with [find_min] and with
    [delete_min], report its length, are empty exactly when it is, and [delete_min] until
    nothing is left takes the elements out in its order ([into_sorted_vec] of the skew heap);
    and the skew heap passes its own check of the heap order. *)
Theorem heaps_refine_sorted_lists (p : HeapProg A) :
  Z.of_nat (insertions p) <= u64_max ->
  let l := sorted_of p in
  let s : Skew.SkewHeap A := heap_of p in
  let b : Binomial.BinomialHeap A := heap_of p in
  sorted l /\
  (Skew.find_min s = head l /\ (Skew.delete_min s).1 = head l /\ Skew.len s = Z.of_nat (length l) /\
   Skew.is_empty s = bool_decide (l = []) /\ Skew.into_sorted_vec s = l /\ Skew.is_valid_heap s = true) /\
  (Binomial.find_min b = head l /\ (Binomial.delete_min b).1 = head l /\
   Binomial.len b = Z.of_nat (length l) /\ Binomial.is_empty b = bool_decide (l = []) /\
   pq_drain (length l) b = l).
Proof.
  intros Hn l s b. destruct (heap_of_answers (H := Skew.SkewHeap A) p Hn) as [Hf Hd Hl Hs].
  destruct (heap_of_answers (H := Binomial.BinomialHeap A) p Hn) as [Hf' Hd' Hl' Hs'].
  destruct (heap_of_elems (H := Skew.SkewHeap A) p Hn) as [Hw He].
  fold l s b in Hf, Hd, Hl, Hs, Hf', Hd', Hl', Hs', Hw, He. split; [apply sorted_of_sorted|]. split; split_and!; try done.
  - unfold Skew.is_empty. cbn in Hf. unfold Skew.find_min in Hf. by destruct (Skew.root s), l.
  - apply Permutation_length in He. rewrite into_sorted_vec_drain, <- Skew.node_elems_size.
    change (length (Skew.node_elems (Skew.root s))) with (length (elems s)). by rewrite He.
  - apply Skew.verify_heap_property_spec, Hw.
  - unfold Binomial.is_empty. cbn in Hl'. rewrite Hl'. by destruct l.
Qed.
End Programs.

(** ** Concrete queues *)

Module HeapsWitness.
#[local] Instance z_ord : OrdApi Z := Z.leb.

#[local] Instance z_ord_laws : OrdLaws Z.
Proof. split; unfold le, z_ord; lia. Qed.

(** The left children stay empty. *)
Example skew_is_a_list :
  Skew.root (Skew.from_iter [3; 1; 2]) =
  Skew.Node 1 Skew.NoNode (Skew.Node 2 Skew.NoNode (Skew.Node 3 Skew.NoNode Skew.NoNode)).
Proof. reflexivity. Qed.

(** With three trees of one degree, [merge] links all three instead of leaving one in the
    slot and carrying two: the slot for trees of four elements gets six of them. *)
Definition slot_sizes (h : Binomial.BinomialHeap Z) : list nat :=
  map (fun t => length (Binomial.node_elems t)) (Binomial.trees h).

Example merge_breaks_shape :
  slot_sizes (Binomial.from_iter [1; 2; 3]) = [1; 2]%nat /\
  slot_sizes (Binomial.merge (Binomial.from_iter [1; 2; 3]) (Binomial.from_iter [4; 5; 6])) =
    [0; 0; 6]%nat.
Proof. by vm_compute. Qed.

(** The least of two merged heaps is taken out before another insertion. *)
Definition prog : HeapProg Z :=
  PInsert (PDeleteMin (PMerge (PInsert (PInsert PNew 5) 2) (PInsert (PInsert PNew 9) 2))) 4.

Lemma heaps_refine_sorted_lists_witness :
  sorted_of prog = [2; 4; 5; 9] /\
  Skew.into_sorted_vec (heap_of prog) = [2; 4; 5; 9] /\
  Binomial.find_min (heap_of prog) = Some 2.
Proof.
  assert (forall x y, le x y = true -> le y x = true -> x = y) as Ha by (unfold le, z_ord; lia).
  destruct (heaps_refine_sorted_lists Ha prog ltac:(by vm_compute)) as (_ & Hs & Hb).
  split; [reflexivity|]. split; [exact (proj1 (proj2 (proj2 (proj2 (proj2 Hs)))))|exact (proj1 Hb)].
Defined.

Lemma priority_queue_sorts_witness :
  Skew.into_sorted_vec (Skew.from_iter [5; 2; 9; 2]) = [2; 2; 5; 9] /\
  pq_drain 4 (Binomial.from_iter [5; 2; 9; 2]) = [2; 2; 5; 9] /\
  pq_len (pq_from_iter (H := Binomial.BinomialHeap Z) [5; 2; 9; 2]) = 4 /\
  pq_len (pq_from_iter (H := Skew.SkewHeap Z) [5; 2; 9; 2]) = 4.
Proof.
  split; [reflexivity|split; [reflexivity|split]].
  - refine (proj1 (proj2 (proj2
      (priority_queue_sorts (H := Binomial.BinomialHeap Z) [5; 2; 9; 2] 4 _ _)))); [cbn; lia|by vm_compute].
  - refine (proj1 (proj2 (proj2
      (priority_queue_sorts (H := Skew.SkewHeap Z) [5; 2; 9; 2] 4 _ _)))); [cbn; lia|by vm_compute].
Defined.
End HeapsWitness.
