(* ===== verification/RedBlackTree.v ===== *)
(** * The red-black tree

    [crates/vo-core/src/red_black_tree/] ([node.rs], [tree.rs]): a left-leaning red-black
    tree used as an ordered map. An [Option<Box<Node>>] is a [Tree] whose [Leaf] is [None];
    functions that the code applies to boxed nodes are never applied to a [Leaf]. A call
    that panics, or a recursion that runs out of fuel, is an error of type [Stop]. *)

From stdpp Require Import sorting.
From S2P Require Import Prelude.

Inductive Stop : Set := Panic | OutOfFuel.

(** [enum Color]. *)
Inductive Color : Set := Red | Black.

#[global] Instance Color_eq_dec : EqDecision Color.
Proof. solve_decision. Defined.

(** [K: Ord]. *)
Class Ord (K : Type) : Type := cmp : K -> K -> comparison.

Class OrdLaws (K : Type) `{!Ord K} : Prop := {
  cmp_eq : forall x y, cmp x y = Eq <-> x = y;
  cmp_antisym : forall x y, cmp y x = CompOpp (cmp x y);
  cmp_trans : forall x y z, cmp x y = Lt -> cmp y z = Lt -> cmp x z = Lt;
}.

(** [struct Node]. *)
Inductive Tree (K V : Type) : Type :=
| Leaf
| Node (left : Tree K V) (color : Color) (key : K) (value : V) (right : Tree K V).
Arguments Leaf {K V}.
Arguments Node {K V} left color key value right.

Section Node.
Context {K V : Type}.
Implicit Types (t h l r : Tree K V).

(** [Node::new]. *)
Definition node_new (key : K) (value : V) : Tree K V := Node Leaf Red key value Leaf.

(** [Node::is_red]. *)
Definition is_red t : bool := match t with Node _ Red _ _ _ => true | _ => false end.

Definition left_of t : Tree K V := match t with Leaf => Leaf | Node l _ _ _ _ => l end.
Definition right_of t : Tree K V := match t with Leaf => Leaf | Node _ _ _ _ r => r end.

Definition toggle (c : Color) : Color := match c with Red => Black | Black => Red end.

Definition toggle_root t : Tree K V :=
  match t with Leaf => Leaf | Node l c k v r => Node l (toggle c) k v r end.

(** [Node::flip]. *)
Definition flip h : Tree K V :=
  match h with
  | Leaf => Leaf
  | Node l c k v r => Node (toggle_root l) (toggle c) k v (toggle_root r)
  end.

(** [Node::rotate_left]. *)
Definition rotate_left h : result Stop (Tree K V) :=
  match h with
  | Node l c k v (Node xl _ xk xv xr) => Ok (Node (Node l Red k v xl) c xk xv xr)
  | _ => Err Panic
  end.

(** [Node::rotate_right]. *)
Definition rotate_right h : result Stop (Tree K V) :=
  match h with
  | Node (Node xl _ xk xv xr) c k v r => Ok (Node xl c xk xv (Node xr Red k v r))
  | _ => Err Panic
  end.

(** [Node::is_red_left_left], [is_red_right_right] and [is_red_right_left]. *)
Definition is_red_left_left h : bool := is_red (left_of (left_of h)).
Definition is_red_right_right h : bool := is_red (right_of (right_of h)).
Definition is_red_right_left h : bool := is_red (left_of (right_of h)).

(** [Node::fix_up]. *)
Definition fix_up h : result Stop (Tree K V) :=
  let? h := if is_red (right_of h) && negb (is_red (left_of h)) then rotate_left h else Ok h in
  let? h := if is_red (left_of h) && is_red_left_left h then rotate_right h else Ok h in
  Ok (if is_red (left_of h) && is_red (right_of h) then flip h else h).

(** [right.map(rotate_left)]. *)
Definition rotate_right_child h : result Stop (Tree K V) :=
  match h with
  | Node l c k v (Node _ _ _ _ _ as r) => let? r' := rotate_left r in Ok (Node l c k v r')
  | _ => Ok h
  end.

(** [Node::move_red_left]. *)
Definition move_red_left h : result Stop (Tree K V) :=
  let h := flip h in
  if is_red_right_right h then
    let? h := rotate_right_child h in
    let? h := rotate_right h in
    Ok (flip h)
  else Ok h.

(** [Node::move_red_right]. *)
Definition move_red_right h : result Stop (Tree K V) :=
  let h := flip h in
  if is_red_left_left h then let? h := rotate_right h in Ok (flip h) else Ok h.

(** [Node::min_node]. *)
Fixpoint min_node t : option (K * V) :=
  match t with
  | Leaf => None
  | Node Leaf _ k v _ => Some (k, v)
  | Node l _ _ _ _ => min_node l
  end.

(** [Node::max_node]. *)
Fixpoint max_node t : option (K * V) :=
  match t with
  | Leaf => None
  | Node _ _ k v Leaf => Some (k, v)
  | Node _ _ _ _ r => max_node r
  end.

(** [Node::collect_inorder], what it pushes. *)
Fixpoint collect_inorder t : list (K * V) :=
  match t with
  | Leaf => []
  | Node l _ k v r => collect_inorder l ++ (k, v) :: collect_inorder r
  end.

(** The number of nodes. *)
Fixpoint tree_size t : nat :=
  match t with Leaf => O | Node l _ _ _ r => S (tree_size l + tree_size r) end.

Fixpoint height t : nat :=
  match t with Leaf => O | Node l _ _ _ r => S (Nat.max (height l) (height r)) end.
End Node.

Section Tree.
Context {K V : Type} `{!Ord K}.
Implicit Types (t h l r : Tree K V) (k : K) (v : V).

(** [lo.is_none_or(|b| key > b)] and the like. *)
Definition above_lo (lo : option K) k : bool :=
  match lo with None => true | Some b => match cmp k b with Gt => true | _ => false end end.
Definition from_lo (lo : option K) k : bool :=
  match lo with None => true | Some b => match cmp k b with Lt => false | _ => true end end.
Definition below_hi (hi : option K) k : bool :=
  match hi with None => true | Some b => match cmp k b with Lt => true | _ => false end end.

(** [Node::collect_range], what it pushes. *)
Fixpoint collect_range t (lo hi : option K) : list (K * V) :=
  match t with
  | Leaf => []
  | Node l _ k v r =>
      (if above_lo lo k then collect_range l lo hi else []) ++
      (if from_lo lo k && below_hi hi k then [(k, v)] else []) ++
      (if below_hi hi k then collect_range r lo hi else [])
  end.

(** [struct RedBlackTree]. *)
Record RedBlackTree : Type := mkTree { root : Tree K V; len : Z }.

(** [RedBlackTree::new], also [clear]. *)
Definition tree_new : RedBlackTree := mkTree Leaf 0.

(** [RedBlackTree::get]. *)
Fixpoint get_node t k : option V :=
  match t with
  | Leaf => None
  | Node l _ k' v r =>
      match cmp k' k with Eq => Some v | Lt => get_node r k | Gt => get_node l k end
  end.

Definition tree_get (t : RedBlackTree) k : option V := get_node (root t) k.

(** [RedBlackTree::contains]. *)
Definition tree_contains (t : RedBlackTree) k : bool := bool_decide (is_Some (tree_get t k)).

(** [RedBlackTree::ins]. *)
Fixpoint ins h k v : result Stop (Tree K V) :=
  match h with
  | Leaf => Ok (node_new k v)
  | Node l c k' v' r =>
      let? h := match cmp k' k with
                | Eq => Ok (Node l c k' v r)
                | Lt => let? r' := ins r k v in Ok (Node l c k' v' r')
                | Gt => let? l' := ins l k v in Ok (Node l' c k' v' r)
                end in
      fix_up h
  end.

Definition blacken t : Tree K V :=
  match t with Leaf => Leaf | Node l _ k v r => Node l Black k v r end.

(** [RedBlackTree::insert]. *)
Definition insert (t : RedBlackTree) k v : result Stop RedBlackTree :=
  let dup := tree_contains t k in
  let? root' := ins (root t) k v in
  Ok (mkTree (blacken root') (if dup then len t else wrapping_add_u64 (len t) 1)).

(** [RedBlackTree::del_min]. *)
Fixpoint del_min (fuel : nat) h : result Stop (Tree K V) :=
  match fuel with
  | O => Err OutOfFuel
  | S fuel' =>
      match left_of h with
      | Leaf => Ok Leaf
      | _ =>
          let? h := if negb (is_red (left_of h)) && negb (is_red_left_left h)
                    then move_red_left h else Ok h in
          match h with
          | Leaf => Ok Leaf
          | Node l c k v r =>
              let? l' := match l with Leaf => Ok Leaf | _ => del_min fuel' l end in
              fix_up (Node l' c k v r)
          end
      end
  end.

(** [RedBlackTree::del]; the result [Leaf] is [None]. *)
Fixpoint del (fuel : nat) h k : result Stop (Tree K V) :=
  match fuel, h with
  | O, _ => Err OutOfFuel
  | S fuel', Leaf => Ok Leaf
  | S fuel', Node l0 c0 k0 v0 r0 =>
      match cmp k k0 with
      | Lt =>
          let? h := if negb (is_red (left_of h)) && negb (is_red_left_left h)
                    then move_red_left h else Ok h in
          match h with
          | Leaf => Ok Leaf
          | Node l c k' v' r =>
              let? l' := match l with Leaf => Ok Leaf | _ => del fuel' l k end in
              fix_up (Node l' c k' v' r)
          end
      | _ =>
          let? h := if is_red (left_of h) then rotate_right h else Ok h in
          match h with
          | Leaf => Ok Leaf
          | Node _ _ k1 _ r1 =>
              if match cmp k k1, r1 with Eq, Leaf => true | _, _ => false end then Ok Leaf
              else
                let? h := if negb (is_red (right_of h)) && negb (is_red_right_left h)
                          then move_red_right h else Ok h in
                match h with
                | Leaf => Ok Leaf
                | Node l c k' v' r =>
                    match cmp k k' with
                    | Eq =>
                        match min_node r with
                        | None => Ok Leaf
                        | Some (sk, sv) =>
                            let? r' := del_min fuel' r in
                            match r' with
                            | Leaf => Ok Leaf
                            | _ => fix_up (Node l c sk sv r')
                            end
                        end
                    | _ =>
                        let? r' := match r with Leaf => Ok Leaf | _ => del fuel' r k end in
                        fix_up (Node l c k' v' r')
                    end
                end
          end
      end
  end.

(** [RedBlackTree::remove]; a recursive call is on a smaller tree, so the number of nodes
    is enough fuel. *)
Definition remove (t : RedBlackTree) k : result Stop (bool * RedBlackTree) :=
  if tree_contains t k then
    let? root' := del (tree_size (root t)) (root t) k in
    Ok (true, mkTree (blacken root') (Z.max 0 (len t - 1)))
  else Ok (false, t).

(** [RedBlackTree::minimum] and [maximum]. *)
Definition minimum (t : RedBlackTree) : option (K * V) := min_node (root t).
Definition maximum (t : RedBlackTree) : option (K * V) := max_node (root t).

(** [RedBlackTree::iter] and [range]: the vector of an iterator, reversed. *)
Definition iter (t : RedBlackTree) : list (K * V) := reverse (collect_inorder (root t)).
Definition range (t : RedBlackTree) (lo hi : option K) : list (K * V) :=
  reverse (collect_range (root t) lo hi).

(** [Iter::next]: [Vec::pop]. *)
Definition iter_next (it : list (K * V)) : option (K * V) * list (K * V) :=
  (last it, removelast it).

(** What an iterator yields until it is exhausted. *)
Fixpoint yields (fuel : nat) (it : list (K * V)) : list (K * V) :=
  match fuel with
  | O => []
  | S fuel' => match iter_next it with (Some x, it') => x :: yields fuel' it' | (None, _) => [] end
  end.

Definition collect (it : list (K * V)) : list (K * V) := yields (length it) it.

(** [RedBlackTree::extend] and [from_iter]. *)
Fixpoint extend (t : RedBlackTree) (items : list (K * V)) : result Stop RedBlackTree :=
  match items with
  | [] => Ok t
  | (k, v) :: items' => let? next := insert t k v in extend next items'
  end.

Definition from_iter (items : list (K * V)) : result Stop RedBlackTree := extend tree_new items.
End Tree.
Arguments RedBlackTree K V : clear implicits.

(** ** Ordered association lists

    The reference: a map as the list of its entries by increasing key. *)

Definition key_lt {K V} `{!Ord K} (x y : K * V) : Prop := cmp x.1 y.1 = Lt.

Abbreviation ordered := (StronglySorted key_lt).

Section Reference.
Context {K V : Type} `{!Ord K} `{!OrdLaws K}.
Implicit Types (k : K) (v : V) (m : list (K * V)).

Fixpoint put m k v : list (K * V) :=
  match m with
  | [] => [(k, v)]
  | (k', v') :: m' =>
      match cmp k' k with
      | Eq => (k', v) :: m'
      | Lt => (k', v') :: put m' k v
      | Gt => (k, v) :: m
      end
  end.

Fixpoint assoc m k : option V :=
  match m with
  | [] => None
  | (k', v) :: m' => match cmp k' k with Eq => Some v | _ => assoc m' k end
  end.

Lemma cmp_refl k : cmp k k = Eq.
Proof. by apply cmp_eq. Qed.

Lemma cmp_gt_lt x y : cmp x y = Gt <-> cmp y x = Lt.
Proof. rewrite (cmp_antisym x y). destruct (cmp x y); cbn; naive_solver. Qed.

Lemma ordered_app m1 k v m2 :
  ordered (m1 ++ (k, v) :: m2) <->
  ordered m1 /\ ordered m2 /\ Forall (fun x => cmp x.1 k = Lt) m1 /\ Forall (fun x => cmp k x.1 = Lt) m2.
Proof.
  induction m1 as [|[k' v'] m1 IH]; cbn [app].
  - split.
    + intros [H1 H2]%StronglySorted_inv. split_and!; [constructor|done|constructor|done].
    + intros (_ & H1 & _ & H2). by constructor.
  - split.
    + intros [H1 H2]%StronglySorted_inv. apply IH in H1 as (H3 & H4 & H5 & H6).
      apply Forall_app in H2 as [H7 [H8 H9]%Forall_cons].
      split_and!; [by constructor|done|by constructor|done].
    + intros ([H1 H2]%StronglySorted_inv & H3 & [H4 H5]%Forall_cons & H6). constructor.
      * by apply IH.
      * apply Forall_app. split; [done|]. constructor; [done|]. eapply Forall_impl; [done|].
        intros x Hx. by eapply cmp_trans.
Qed.

Lemma put_left m1 k' v' m2 k v :
  cmp k' k = Gt -> put (m1 ++ (k', v') :: m2) k v = put m1 k v ++ (k', v') :: m2.
Proof.
  intros H. induction m1 as [|[k1 v1] m1 IH]; cbn; [by rewrite H|].
  destruct (cmp k1 k); cbn; [done| |done]. by rewrite IH.
Qed.

Lemma put_right m1 k' v' m2 k v :
  Forall (fun x => cmp x.1 k' = Lt) m1 -> cmp k' k = Lt ->
  put (m1 ++ (k', v') :: m2) k v = m1 ++ (k', v') :: put m2 k v.
Proof.
  intros Hm H. induction Hm as [|[k1 v1] m1 H1 _ IH]; cbn; [by rewrite H|]. cbn in H1.
  by rewrite (cmp_trans _ _ _ H1 H), IH.
Qed.

Lemma put_here m1 k v' m2 v :
  Forall (fun x => cmp x.1 k = Lt) m1 ->
  put (m1 ++ (k, v') :: m2) k v = m1 ++ (k, v) :: m2.
Proof.
  intros Hm. induction Hm as [|[k1 v1] m1 H1 _ IH]; cbn; [by rewrite cmp_refl|]. cbn in H1.
  by rewrite H1, IH.
Qed.

Lemma put_bound (P : K -> Prop) m k v :
  Forall (fun x => P x.1) m -> P k -> Forall (fun x => P x.1) (put m k v).
Proof.
  intros Hm Hk. induction Hm as [|[k' v'] m H Hm IH]; cbn; [by constructor|].
  destruct (cmp k' k); repeat constructor; done.
Qed.

Lemma put_ordered m k v : ordered m -> ordered (put m k v).
Proof.
  induction 1 as [|[k' v'] m Hm IH Hlt]; cbn; [repeat constructor|].
  destruct (cmp k' k) eqn:E.
  - by constructor.
  - constructor; [done|]. by apply (put_bound (fun x => cmp k' x = Lt)).
  - apply cmp_gt_lt in E. constructor; [by constructor|]. constructor; [done|].
    eapply Forall_impl; [done|]. intros x Hx. by eapply cmp_trans.
Qed.

Lemma assoc_none m k : Forall (fun x => cmp x.1 k <> Eq) m -> assoc m k = None.
Proof. induction 1 as [|[k' v] m H _ IH]; cbn; [done|]. cbn in H. by destruct (cmp k' k). Qed.

Lemma assoc_app m1 m2 k :
  assoc (m1 ++ m2) k = match assoc m1 k with Some v => Some v | None => assoc m2 k end.
Proof. induction m1 as [|[k' v] m1 IH]; cbn; [done|]. by destruct (cmp k' k). Qed.

Lemma assoc_put m k v k' : ordered m ->
  assoc (put m k v) k' = match cmp k k' with Eq => Some v | _ => assoc m k' end.
Proof.
  induction 1 as [|[k1 v1] m Hm IH Hlt]; cbn; [by destruct (cmp k k')|].
  destruct (cmp k1 k) eqn:E; cbn.
  - apply cmp_eq in E as ->. by destruct (cmp k k').
  - rewrite IH. destruct (cmp k1 k') eqn:E1; [|done..].
    apply cmp_eq in E1 as ->. rewrite (cmp_antisym k' k), E. done.
  - by destruct (cmp k k').
Qed.

Lemma assoc_elem m k : ordered m -> is_Some (assoc m k) <-> k ∈ m.*1.
Proof.
  induction 1 as [|[k' v] m Hm IH Hlt]; csimpl.
  - split; [by intros []|by intros ?%elem_of_nil].
  - rewrite elem_of_cons, <- IH. destruct (cmp k' k) eqn:E.
    + apply cmp_eq in E. naive_solver.
    + split; [by right|]. intros [->|?]; [by rewrite cmp_refl in E|done].
    + split; [by right|]. intros [->|?]; [by rewrite cmp_refl in E|done].
Qed.

Lemma put_length m k v : ordered m ->
  length (put m k v) = match assoc m k with Some _ => length m | None => S (length m) end.
Proof.
  induction 1 as [|[k' v'] m Hm IH Hlt]; cbn; [done|]. destruct (cmp k' k) eqn:E; cbn.
  - done.
  - rewrite IH. by destruct (assoc m k).
  - rewrite assoc_none; [done|]. apply cmp_gt_lt in E. eapply Forall_impl; [done|].
    intros x Hx Heq. apply cmp_eq in Heq. unfold key_lt in Hx. cbn in Hx. rewrite Heq in Hx.
    rewrite (cmp_antisym k k'), E in Hx. done.
Qed.
End Reference.

(** ** Rotations keep the entries *)

Section Rotations.
Context {K V : Type}.
Implicit Types (t h l r : Tree K V).

Lemma toggle_root_inorder t : collect_inorder (toggle_root t) = collect_inorder t.
Proof. by destruct t. Qed.

Lemma flip_inorder t : collect_inorder (flip t) = collect_inorder t.
Proof. destruct t; cbn; [done|]. by rewrite !toggle_root_inorder. Qed.

Lemma blacken_inorder t : collect_inorder (blacken t) = collect_inorder t.
Proof. by destruct t. Qed.

Lemma rotate_left_inorder t t' :
  rotate_left t = Ok t' -> collect_inorder t' = collect_inorder t.
Proof. destruct t as [|l c k v []]; [done..|]. intros [= <-]. cbn. by rewrite <- app_assoc. Qed.

Lemma rotate_right_inorder t t' :
  rotate_right t = Ok t' -> collect_inorder t' = collect_inorder t.
Proof. destruct t as [|[] c k v r]; [done..|]. intros [= <-]. cbn. by rewrite <- app_assoc. Qed.

Lemma rotate_left_ok t : is_red (right_of t) = true -> exists t', rotate_left t = Ok t'.
Proof. destruct t as [|l c k v []]; cbn; eauto; done. Qed.

Lemma rotate_right_ok t : is_red (left_of t) = true -> exists t', rotate_right t = Ok t'.
Proof. destruct t as [|[] c k v r]; cbn; eauto; done. Qed.

(** [fix_up] never panics and keeps the entries. *)
Lemma fix_up_ok h : exists h', fix_up h = Ok h' /\ collect_inorder h' = collect_inorder h.
Proof.
  unfold fix_up.
  assert (exists h1, (if is_red (right_of h) && negb (is_red (left_of h)) then rotate_left h
                      else Ok h) = Ok h1 /\ collect_inorder h1 = collect_inorder h)
    as (h1 & -> & <-).
  { destruct (is_red (right_of h)) eqn:Hr; cbn; [|by eauto]. case_match; [|by eauto].
    destruct (rotate_left_ok h Hr) as [h1 E]. exists h1. split; [done|].
    by apply rotate_left_inorder. }
  cbn [rbind].
  assert (exists h2, (if is_red (left_of h1) && is_red_left_left h1 then rotate_right h1
                      else Ok h1) = Ok h2 /\ collect_inorder h2 = collect_inorder h1)
    as (h2 & -> & <-).
  { destruct (is_red (left_of h1)) eqn:Hl; cbn; [|by eauto]. case_match; [|by eauto].
    destruct (rotate_right_ok h1 Hl) as [h2 E]. exists h2. split; [done|].
    by apply rotate_right_inorder. }
  cbn [rbind]. eexists. split; [done|]. case_match; [apply flip_inorder|done].
Qed.
End Rotations.

(** ** Lookups and listings *)

Section Listings.
Context {K V : Type} `{!Ord K} `{!OrdLaws K}.
Implicit Types (t h l r : Tree K V) (k : K) (v : V).

Lemma get_node_assoc t k :
  ordered (collect_inorder t) -> get_node t k = assoc (collect_inorder t) k.
Proof.
  induction t as [|l IHl c k' v r IHr]; cbn; [done|].
  intros (Hl & Hr & Hll & Hrr)%ordered_app. rewrite assoc_app. cbn. destruct (cmp k' k) eqn:E.
  - apply cmp_eq in E as ->. rewrite (assoc_none (collect_inorder l)); [done|].
    eapply Forall_impl; [done|]. cbn. intros x ->. done.
  - rewrite IHr by done. rewrite (assoc_none (collect_inorder l)); [done|].
    eapply Forall_impl; [done|]. intros x Hx Heq. apply cmp_eq in Heq. subst k.
    rewrite (cmp_antisym (x.1) k'), Hx in E. done.
  - rewrite IHl by done. destruct (assoc (collect_inorder l) k); [done|].
    rewrite assoc_none; [done|]. eapply Forall_impl; [done|]. intros x Hx Heq.
    apply cmp_eq in Heq. subst k. by rewrite Hx in E.
Qed.

Lemma min_node_head t : min_node t = head (collect_inorder t).
Proof.
  induction t as [|l IHl c k v r _]; [done|]. destruct l as [|ll lc lk lv lr]; [done|].
  cbn [min_node collect_inorder] in *. rewrite IHl.
  by destruct (collect_inorder ll).
Qed.

Lemma max_node_last t : max_node t = last (collect_inorder t).
Proof.
  induction t as [|l _ c k v r IHr]; [done|]. destruct r as [|rl rc rk rv rr].
  - cbn [max_node collect_inorder]. by rewrite last_snoc.
  - change (max_node (Node rl rc rk rv rr)
      = last (collect_inorder l ++ ((k, v) :: collect_inorder rl) ++ (rk, rv) :: collect_inorder rr)).
    rewrite IHr. cbn [collect_inorder]. by rewrite app_assoc, !last_app_cons.
Qed.

Lemma filter_none {A} (P : A -> Prop) `{!forall x, Decision (P x)} (m : list A) :
  Forall (fun x => ~ P x) m -> filter P m = [].
Proof. induction 1; [done|]. rewrite filter_cons_False; done. Qed.

(** The entries of a half-open interval of keys. *)
Definition within (lo hi : option K) (x : K * V) : Prop :=
  from_lo lo x.1 && below_hi hi x.1 = true.

#[export] Instance within_dec lo hi x : Decision (within lo hi x).
Proof. unfold within. apply _. Defined.

Lemma collect_range_filter t lo hi :
  ordered (collect_inorder t) ->
  collect_range t lo hi = filter (within lo hi) (collect_inorder t).
Proof.
  induction t as [|l IHl c k v r IHr]; cbn [collect_range collect_inorder]; [done|].
  intros (Hl & Hr & Hll & Hrr)%ordered_app. rewrite filter_app, filter_cons.
  rewrite IHl, IHr by done.
  assert ((if below_hi hi k then filter (within lo hi) (collect_inorder r) else [])
          = filter (within lo hi) (collect_inorder r)) as ->.
  { destruct (below_hi hi k) eqn:E; [done|]. symmetry. apply filter_none.
    eapply Forall_impl; [done|]. intros x Hx. unfold within. destruct hi as [b|]; [|done].
    cbn in *. enough (cmp x.1 b = Gt) as -> by (by rewrite andb_false_r).
    destruct (cmp k b) eqn:Eb; [| done|]; apply cmp_gt_lt.
    - apply cmp_eq in Eb. by subst b.
    - apply cmp_gt_lt in Eb. by eapply cmp_trans. }
  f_equal.
  - destruct (above_lo lo k) eqn:E; [done|]. symmetry. apply filter_none.
    eapply Forall_impl; [done|]. intros x Hx. unfold within. destruct lo as [b|]; [|done].
    cbn in *. enough (cmp x.1 b = Lt) as -> by done. destruct (cmp k b) eqn:Eb; [| |done].
    + apply cmp_eq in Eb. by subst b.
    + by eapply cmp_trans.
  - case_decide as H; unfold within in H; cbn in H; [by rewrite H|].
    by destruct (from_lo lo k && below_hi hi k).
Qed.

Lemma yields_collect (it : list (K * V)) : collect it = reverse it.
Proof.
  unfold collect. induction it as [|x it IH] using rev_ind; [done|].
  rewrite length_app, Nat.add_1_r. cbn [yields]. unfold iter_next.
  rewrite last_snoc, removelast_last, IH, reverse_snoc. done.
Qed.
End Listings.

(** ** Balance *)

Section Balance.
Context {K V : Type} `{!Ord K} `{!OrdLaws K}.
Implicit Types (t h l r : Tree K V) (k : K) (v : V).

(** A left-leaning red-black tree with [n] black nodes on every path: no red node has a
    red child and no right child is red. *)
Fixpoint llrb (n : nat) t : Prop :=
  match t with
  | Leaf => n = O
  | Node l Red _ _ r => is_red l = false /\ is_red r = false /\ llrb n l /\ llrb n r
  | Node l Black _ _ r =>
      is_red r = false /\ exists m, n = S m /\ llrb m l /\ llrb m r
  end.

(** As during an insertion: a red root may have a red left child. *)
Definition leaning (n : nat) t : Prop :=
  llrb n t \/
  exists l k v r, t = Node l Red k v r /\ is_red l = true /\ is_red r = false /\ llrb n l /\ llrb n r.

Lemma fix_up_black_left m l k v r :
  leaning m l -> llrb m r -> is_red r = false ->
  exists t', fix_up (Node l Black k v r) = Ok t' /\ llrb (S m) t'.
Proof.
  intros [Hl|(ll & lk & lv & lr & -> & Hll & Hlr & H1 & H2)] Hr Hred.
  - exists (Node l Black k v r). unfold fix_up, is_red_left_left. cbn. rewrite Hred. cbn.
    destruct (is_red l && is_red (left_of l)) eqn:E.
    + exfalso. destruct l as [|? [] ? ? ?]; cbn in *; try done. destruct Hl as (Hl & _).
      by rewrite Hl in E.
    + cbn. rewrite Hred, andb_false_r. split; [done|]. split; [done|]. by exists m.
  - destruct ll as [|? [] ? ? ?]; try done. unfold fix_up, is_red_left_left. cbn. rewrite Hred. cbn.
    eexists. split; [done|]. cbn in *. split; [done|]. split; [done|]. split.
    + destruct H1 as (? & ? & ? & ?). split; [done|]. by exists m.
    + split; [done|]. by exists m.
Qed.

Lemma fix_up_black_right m l k v r :
  llrb m l -> llrb m r -> exists t', fix_up (Node l Black k v r) = Ok t' /\ llrb (S m) t'.
Proof.
  intros Hl Hr. destruct (is_red r) eqn:Er; [|by apply fix_up_black_left; [left|..]].
  destruct r as [|rl [] rk rv rr]; try done. destruct Hr as (Hrl & Hrr & H1 & H2).
  unfold fix_up, is_red_left_left. cbn. destruct (is_red l) eqn:El; cbn; rewrite ?El; cbn.
  - destruct l as [|ll [] lk lv lr]; try done. destruct Hl as (Hll & Hlr & H3 & H4). cbn.
    rewrite Hll. cbn. eexists. split; [done|]. cbn. split; [done|]. split; [done|]. split.
    + split; [done|]. by exists m.
    + split; [done|]. by exists m.
  - rewrite Hrr. eexists. split; [done|]. split; [done|]. by exists m.
Qed.

Lemma fix_up_red m l k v r :
  llrb m l -> llrb m r -> (is_red l = false \/ is_red r = false) ->
  exists t', fix_up (Node l Red k v r) = Ok t' /\ leaning m t'.
Proof.
  intros Hl Hr Hor. unfold fix_up, is_red_left_left. cbn. destruct (is_red r) eqn:Er; cbn.
  - destruct Hor as [El|]; [|done]. destruct r as [|rl [] rk rv rr]; try done.
    destruct Hr as (Hrl & Hrr & H1 & H2). rewrite El. cbn. rewrite ?El, ?Hrr. cbn. rewrite ?Hrr.
    eexists. split; [done|]. right. by exists (Node l Red k v rl), rk, rv, rr.
  - destruct (is_red l) eqn:El; cbn.
    + destruct l as [|ll [] lk lv lr]; try done. destruct Hl as (Hll & Hlr & H1 & H2). cbn.
      rewrite Hll. cbn. rewrite Er. eexists. split; [done|]. right.
      by exists (Node ll Red lk lv lr), k, v, r.
    + rewrite El. cbn. eexists. split; [done|]. by left.
Qed.

(** Insertion below the root: the tree keeps its black height and leans at most at its
    root, and not when the root was black. *)
Lemma ins_llrb n t k v :
  llrb n t -> exists t', ins t k v = Ok t' /\ leaning n t' /\ (is_red t = false -> llrb n t').
Proof.
  revert n. induction t as [|l IHl c k' v' r IHr]; intros n Ht.
  { exists (node_new k v). cbn in Ht. subst n. split; [done|]. split; [left|]; by cbn. }
  destruct c.
  - destruct Ht as (El & Er & Hl & Hr). cbn [ins is_red]. destruct (cmp k' k).
    + destruct (fix_up_red n l k' v r) as (t' & ? & ?); auto. by exists t'.
    + destruct (IHr n Hr) as (r' & -> & _ & H). cbn [rbind].
      destruct (fix_up_red n l k' v' r') as (t' & ? & ?); auto. by exists t'.
    + destruct (IHl n Hl) as (l' & -> & _ & H). cbn [rbind].
      destruct (fix_up_red n l' k' v' r) as (t' & ? & ?); auto. by exists t'.
  - destruct Ht as (Er & m & -> & Hl & Hr). cbn [ins is_red].
    enough (exists t', _ = Ok t' /\ llrb (S m) t') as (t' & E & H)
      by (exists t'; split; [exact E|]; split; [by left|done]).
    destruct (cmp k' k).
    + by apply fix_up_black_right.
    + destruct (IHr m Hr) as (r' & -> & _ & H). cbn [rbind]. apply fix_up_black_right; auto.
    + destruct (IHl m Hl) as (l' & -> & H & _). cbn [rbind]. by apply fix_up_black_left.
Qed.

Lemma blacken_llrb n t : leaning n t -> exists m, llrb m (blacken t).
Proof.
  intros [H|(l & k & v & r & -> & El & Er & Hl & Hr)].
  - destruct t as [|l [] k v r]; cbn in *; [by eauto| |by eauto].
    destruct H as (? & ? & ? & ?). eauto 10.
  - exists (S n). cbn. eauto.
Qed.

(** A tree with [n] black nodes on every path is not much higher and has many nodes. *)
Lemma llrb_bounds n t :
  llrb n t ->
  (height t <= 2 * n + (if is_red t then 1 else 0))%nat /\ (2 ^ n <= S (tree_size t))%nat.
Proof.
  revert n. induction t as [|l IHl c k v r IHr]; intros n Ht; [cbn in Ht; subst; cbn; lia|].
  destruct c; cbn [is_red height tree_size].
  - destruct Ht as (El & Er & Hl & Hr). destruct (IHl n Hl) as [H1 H2].
    destruct (IHr n Hr) as [H3 H4]. rewrite El in H1. rewrite Er in H3. lia.
  - destruct Ht as (Er & m & -> & Hl & Hr). destruct (IHl m Hl) as [H1 H2].
    destruct (IHr m Hr) as [H3 H4]. rewrite Er in H3. cbn [Nat.pow].
    destruct (is_red l); lia.
Qed.

(** Insertion and the entries. *)
Lemma ins_inorder t k v t' :
  ordered (collect_inorder t) -> ins t k v = Ok t' ->
  collect_inorder t' = put (collect_inorder t) k v.
Proof.
  revert t'. induction t as [|l IHl c k' v' r IHr]; intros t' Ho; [by intros [= <-]|].
  cbn [collect_inorder] in Ho. apply ordered_app in Ho as (Hl & Hr & Hll & Hrr).
  cbn [ins collect_inorder]. destruct (cmp k' k) eqn:E; intros H.
  - apply cmp_eq in E as ->. cbn [rbind] in H. destruct (fix_up_ok (Node l c k v r)) as (h & Hh & Hi).
    rewrite Hh in H. injection H as <-. rewrite Hi. cbn. by rewrite put_here.
  - destruct (ins r k v) as [r'|] eqn:Er; [|done]. cbn [rbind] in H.
    destruct (fix_up_ok (Node l c k' v' r')) as (h & Hh & Hi).
    rewrite Hh in H. injection H as <-. rewrite Hi. cbn. rewrite (IHr r') by done.
    by rewrite put_right.
  - destruct (ins l k v) as [l'|] eqn:El; [|done]. cbn [rbind] in H.
    destruct (fix_up_ok (Node l' c k' v' r)) as (h & Hh & Hi).
    rewrite Hh in H. injection H as <-. rewrite Hi. cbn. rewrite (IHl l') by done.
    by rewrite put_left.
Qed.
End Balance.

(** ** The tree as a map *)

Section TreeMap.
Context {K V : Type} `{!Ord K} `{!OrdLaws K}.
Implicit Types (t : RedBlackTree K V) (k : K) (v : V).

(** The tree stores the entries of an ordered list. *)
Record represents (m : list (K * V)) t : Prop := {
  represents_entries : collect_inorder (root t) = m;
  represents_ordered : ordered m;
  represents_balanced : exists n, llrb n (root t);
  represents_black : is_red (root t) = false;
  represents_len : len t = Z.of_nat (length m);
}.

Lemma tree_represents_new : represents [] tree_new.
Proof. split; [done|constructor|by exists O|done..]. Qed.

Lemma represents_get m t k : represents m t -> tree_get t k = assoc m k.
Proof. intros [<- H _ _ _]. by apply get_node_assoc. Qed.

Lemma insert_represents m t k v :
  represents m t -> Z.of_nat (length m) < u64_max ->
  exists t', insert t k v = Ok t' /\ represents (put m k v) t'.
Proof.
  intros H Hlen. pose proof (represents_get _ _ k H) as Hget. destruct H as [<- Ho [n Hn] Hb Hl].
  destruct (ins_llrb n (root t) k v Hn) as (t' & E & Hlean & _).
  unfold insert. rewrite E. cbn [rbind]. eexists. split; [done|]. split; cbn.
  - rewrite blacken_inorder. by apply ins_inorder.
  - by apply put_ordered.
  - by eapply blacken_llrb.
  - by destruct t'.
  - rewrite put_length by done. unfold tree_contains. rewrite Hget.
    destruct (assoc (collect_inorder (root t)) k).
    + by rewrite bool_decide_true.
    + rewrite bool_decide_false by (by intros []). rewrite wrapping_add_u64_small; [lia|].
      lia.
Qed.

Lemma extend_represents m t items :
  represents m t -> Z.of_nat (length m + length items) <= u64_max ->
  exists t', extend t items = Ok t' /\
    represents (fold_left (fun m x => put m x.1 x.2) items m) t'.
Proof.
  revert m t. induction items as [|[k v] items IH]; intros m t H Hlen; [by exists t|].
  cbn in Hlen. destruct (insert_represents m t k v H) as (t' & E & H'); [lia|].
  cbn [extend fold_left]. rewrite E. cbn [rbind fst snd]. apply IH; [done|].
  rewrite put_length by apply H. destruct (assoc m k); lia.
Qed.

Lemma tree_size_length (h : Tree K V) : tree_size h = length (collect_inorder h).
Proof. induction h; cbn; [done|]. rewrite length_app. cbn. lia. Qed.

(** C24. A tree made by insertions is the ordered map of its items. Whatever is inserted, in
    whatever order, no rotation panics; the iterator yields the entries by increasing key,
    with the value inserted last for each; lookups, length, minimum, maximum and ranges
    are those of the map; and the tree is balanced: its height is at most twice the
    logarithm of its size. *)
Theorem tree_refines_map (items : list (K * V)) :
  Z.of_nat (length items) <= u64_max ->
  let m := fold_left (fun m x => put m x.1 x.2) items [] in
  exists t, from_iter items = Ok t /\
    ordered m /\ collect (iter t) = m /\ len t = Z.of_nat (length m) /\
    (forall k, tree_get t k = assoc m k) /\
    minimum t = head m /\ maximum t = last m /\
    (forall lo hi, collect (range t lo hi) = filter (within lo hi) m) /\
    (2 ^ (height (root t) / 2) <= S (length m))%nat.
Proof.
  intros Hlen m. destruct (extend_represents [] tree_new items tree_represents_new Hlen) as (t & E & H).
  exists t. split; [exact E|]. fold m in H.
  split_and!; [apply H| | |by intros; apply represents_get|..].
  - unfold iter. rewrite yields_collect, reverse_involutive. apply H.
  - apply H.
  - unfold minimum. rewrite min_node_head. f_equal. apply H.
  - unfold maximum. rewrite max_node_last. f_equal. apply H.
  - intros lo hi. unfold range. rewrite yields_collect, reverse_involutive, collect_range_filter.
    + by rewrite (represents_entries _ _ H).
    + rewrite (represents_entries _ _ H). apply H.
  - destruct (represents_balanced _ _ H) as [n Hn]. destruct (llrb_bounds _ _ Hn) as [H1 H2].
    rewrite (represents_black _ _ H) in H1. rewrite tree_size_length, (represents_entries _ _ H) in H2.
    etransitivity; [|exact H2]. apply Nat.pow_le_mono_r; [lia|].
    apply Nat.Div0.div_le_upper_bound. lia.
Qed.
End TreeMap.

(** ** Removal *)

Section Removal.
Context {K V : Type} `{!Ord K} `{!OrdLaws K}.
Implicit Types (h l r : Tree K V) (k : K) (v : V).

(** No right child is red. *)
Fixpoint straight h : Prop :=
  match h with Leaf => True | Node l _ _ _ r => is_red r = false /\ straight l /\ straight r end.

(** No right child is red below the children of the root. *)
Definition straight_below h : Prop := straight (left_of h) /\ straight (right_of h).

Lemma llrb_straight n h : llrb n h -> straight h.
Proof.
  revert n. induction h as [|l IHl c k v r IHr]; intros n; cbn; [done|]. destruct c.
  - intros (_ & ? & ? & ?). eauto.
  - intros (? & m & _ & ? & ?). eauto.
Qed.

Lemma straight_toggle h : straight (toggle_root h) <-> straight h.
Proof. by destruct h. Qed.

Lemma straight_children h : straight h -> straight_below h.
Proof. destruct h; cbn; [done|]. by intros (_ & ? & ?). Qed.

Lemma straight_below_toggle h : straight_below (toggle_root h) <-> straight_below h.
Proof. by destruct h. Qed.

(** The entries with another key. *)
Definition others k (x : K * V) : Prop := cmp x.1 k <> Eq.

#[export] Instance others_dec k x : Decision (others k x).
Proof. unfold others. apply _. Defined.

Lemma others_all k (m : list (K * V)) :
  Forall (fun x => cmp x.1 k <> Eq) m -> filter (others k) m = m.
Proof. induction 1 as [|x m Hx _ IH]; [done|]. by rewrite filter_cons_True, IH. Qed.

Lemma others_below k k' (m : list (K * V)) :
  Forall (fun x => cmp x.1 k' = Lt) m -> cmp k k' <> Lt -> filter (others k) m = m.
Proof.
  intros Hm Hk. apply others_all. eapply Forall_impl; [done|]. intros x Hx E.
  apply cmp_eq in E. subst k. by rewrite Hx in Hk.
Qed.

Lemma others_above k k' (m : list (K * V)) :
  Forall (fun x => cmp k' x.1 = Lt) m -> cmp k k' <> Gt -> filter (others k) m = m.
Proof.
  intros Hm Hk. apply others_all. eapply Forall_impl; [done|]. intros x Hx E.
  apply cmp_eq in E. subst k. by rewrite (cmp_antisym k'), Hx in Hk.
Qed.

Lemma move_red_left_flip h : straight (right_of h) -> move_red_left h = Ok (flip h).
Proof.
  intros H. unfold move_red_left, is_red_right_right.
  destruct h as [|l c k v [|rl rc rk rv rr]]; [done..|]. cbn in *.
  destruct H as (-> & _). done.
Qed.

(** Going left: at most the colours change. *)
Lemma left_move l c k v r :
  straight_below (Node l c k v r) ->
  exists l' c' r',
    (if negb (is_red l) && negb (is_red (left_of l)) then move_red_left (Node l c k v r)
     else Ok (Node l c k v r)) = Ok (Node l' c' k v r') /\
    collect_inorder l' = collect_inorder l /\ collect_inorder r' = collect_inorder r /\
    straight_below l' /\ (l = Leaf -> l' = Leaf).
Proof.
  intros [Hl Hr]. cbn in Hl, Hr. case_match.
  - rewrite move_red_left_flip by done. do 3 eexists. split; [done|].
    split_and!; [apply toggle_root_inorder..| |by intros ->].
    by apply straight_below_toggle, straight_children.
  - do 3 eexists. split_and!; try done; by apply straight_children.
Qed.

Lemma del_min_ok fuel h :
  (tree_size h <= fuel)%nat -> straight_below h -> h <> Leaf ->
  exists h', del_min fuel h = Ok h' /\ collect_inorder h' `sublist_of` tail (collect_inorder h).
Proof.
  revert h. induction fuel as [|fuel IH]; intros [|l c k v r] Hf Hs Hne; [done|cbn in Hf; lia|done|].
  cbn [del_min left_of]. destruct l as [|ll lc lk lv lr] eqn:El.
  { exists Leaf. split; [done|]. apply sublist_nil_l. }
  rewrite <- El in *. unfold is_red_left_left. cbn [left_of].
  destruct (left_move l c k v r Hs) as (l' & c' & r' & -> & Il & Ir & Hs' & _). cbn [rbind].
  assert (collect_inorder l <> []) as Hl by (subst l; cbn; by destruct (collect_inorder ll)).
  destruct l' as [|a b d e f] eqn:El'; [by rewrite <- Il in Hl|]. rewrite <- El' in *.
  destruct (IH l') as (l2 & -> & Hsub).
  { rewrite tree_size_length, Il, <- tree_size_length. cbn in Hf. lia. }
  { done. }
  { by subst l'. }
  cbn [rbind]. destruct (fix_up_ok (Node l2 c' k v r')) as (h' & -> & Hi). exists h'.
  split; [done|]. rewrite Hi. cbn. rewrite Ir. rewrite Il in Hsub.
  destruct (collect_inorder l) as [|x m]; [done|]. cbn in *. by apply sublist_app.
Qed.

(** Going right: the root may be rotated, once. *)
Lemma right_moves l c k0 v0 r :
  straight_below (Node l c k0 v0 r) -> ordered (collect_inorder (Node l c k0 v0 r)) ->
  exists l1 c1 k1 v1 r1,
    (if is_red l then rotate_right (Node l c k0 v0 r) else Ok (Node l c k0 v0 r))
      = Ok (Node l1 c1 k1 v1 r1) /\
    exists l2 c2 k2 v2 r2,
      (if negb (is_red r1) && negb (is_red (left_of r1)) then move_red_right (Node l1 c1 k1 v1 r1)
       else Ok (Node l1 c1 k1 v1 r1)) = Ok (Node l2 c2 k2 v2 r2) /\
      collect_inorder (Node l2 c2 k2 v2 r2) = collect_inorder (Node l c k0 v0 r) /\
      straight_below r2 /\ forall k, cmp k k0 <> Lt -> cmp k k2 <> Lt.
Proof.
  intros [Hl Hr] Ho. cbn [left_of right_of] in Hl, Hr.
  assert (forall xl xc xk xv xr k, l = Node xl xc xk xv xr -> cmp k k0 <> Lt -> cmp k xk <> Lt) as Hx.
  { intros xl xc xk xv xr k -> Hk Hlt. cbn [collect_inorder] in Ho.
    apply ordered_app in Ho as (_ & _ & [_ [Hxk _]%Forall_cons]%Forall_app & _). cbn in Hxk.
    apply Hk. by eapply cmp_trans. }
  destruct (is_red l) eqn:El.
  - destruct l as [|xl [] xk xv xr]; try done. cbn. do 5 eexists. split; [done|]. cbn.
    do 5 eexists. split; [done|]. split; [by rewrite <- app_assoc|]. split.
    + destruct Hl as (_ & _ & ?). by split.
    + intros k Hk. by eapply Hx.
  - do 5 eexists. split; [done|]. case_match; [|].
    2: { do 5 eexists. split; [done|]. split; [done|]. split; [by apply straight_children|done]. }
    unfold move_red_right, is_red_left_left. cbn [flip left_of].
    destruct l as [|xl xc xk xv xr]; cbn [toggle_root left_of].
    { do 5 eexists. split; [done|]. cbn. rewrite toggle_root_inorder. split; [done|].
      split; [by apply straight_below_toggle, straight_children|done]. }
    destruct (is_red xl); cbn.
    + do 5 eexists. split; [done|]. cbn. rewrite !toggle_root_inorder, <- app_assoc. split; [done|].
      split; [|intros k Hk; by eapply Hx]. destruct Hl as (_ & _ & ?). split; [done|].
      by apply straight_toggle.
    + do 5 eexists. split; [done|]. cbn. rewrite toggle_root_inorder. split; [done|].
      split; [by apply straight_below_toggle, straight_children|done].
Qed.

(** The last part of [del], at the root that was brought up. *)
Lemma del_root fuel k l c k' v' r :
  (exists r', match r with Leaf => Ok Leaf | _ => del fuel r k end = Ok r' /\
     collect_inorder r' `sublist_of` filter (others k) (collect_inorder r)) ->
  straight_below r -> ordered (collect_inorder (Node l c k' v' r)) -> cmp k k' <> Lt ->
  (tree_size r <= fuel)%nat ->
  exists h',
    match cmp k k' with
    | Eq =>
        match min_node r with
        | None => Ok Leaf
        | Some (sk, sv) =>
            let? r' := del_min fuel r in
            match r' with Leaf => Ok Leaf | _ => fix_up (Node l c sk sv r') end
        end
    | _ =>
        let? r' := match r with Leaf => Ok Leaf | _ => del fuel r k end in
        fix_up (Node l c k' v' r')
    end = Ok h' /\
    collect_inorder h' `sublist_of` filter (others k) (collect_inorder (Node l c k' v' r)).
Proof.
  intros (r' & Er & Hsub) Hs (Hl & Hr & Hll & Hrr)%ordered_app Hk Hf. cbn [collect_inorder].
  rewrite filter_app, (others_below k k' (collect_inorder l)) by done. rewrite Er. cbn [rbind].
  destruct (cmp k k') eqn:E; [|done|].
  - apply cmp_eq in E. subst k'. rewrite filter_cons_False.
    2: { unfold others. cbn. rewrite cmp_refl. naive_solver. }
    rewrite (others_above k k (collect_inorder r)) by (rewrite ?cmp_refl; done).
    rewrite min_node_head. destruct r as [|rl rc rk rv rr] eqn:Er'; [exists Leaf; split; [done|apply sublist_nil_l]|].
    rewrite <- Er' in *. destruct (collect_inorder r) as [|[sk sv] m] eqn:Em.
    { exfalso. subst r. cbn in Em. by destruct (collect_inorder rl). }
    cbn [head]. destruct (del_min_ok fuel r) as (r2 & -> & Hsub2); [done..|by subst r|].
    cbn [rbind]. rewrite Em in Hsub2. cbn in Hsub2.
    destruct r2 as [|? ? ? ? ?] eqn:E2; [exists Leaf; split; [done|apply sublist_nil_l]|].
    rewrite <- E2 in *. destruct (fix_up_ok (Node l c sk sv r2)) as (h' & -> & Hi). exists h'.
    split; [done|]. rewrite Hi. cbn. by apply sublist_app, sublist_skip.
  - destruct (fix_up_ok (Node l c k' v' r')) as (h' & -> & Hi). exists h'. split; [done|].
    rewrite Hi, filter_cons_True. 2: { unfold others. cbn. by rewrite (cmp_antisym k k'), E. }
    cbn. by apply sublist_app, sublist_skip.
Qed.

(** Deletion returns, without a panic, with entries of the tree other than the key. *)
Lemma del_ok fuel h k :
  (tree_size h <= fuel)%nat -> straight_below h -> ordered (collect_inorder h) -> h <> Leaf ->
  exists h', del fuel h k = Ok h' /\
    collect_inorder h' `sublist_of` filter (others k) (collect_inorder h).
Proof.
  revert h. induction fuel as [|fuel IH]; intros [|l c k0 v0 r] Hf Hs Ho Hne;
    [done|cbn in Hf; lia|done|].
  assert (forall h1 : Tree K V, straight_below h1 -> ordered (collect_inorder h1) ->
    (length (collect_inorder h1) <= fuel)%nat ->
    exists h', match h1 with Leaf => Ok Leaf | _ => del fuel h1 k end = Ok h' /\
      collect_inorder h' `sublist_of` filter (others k) (collect_inorder h1)) as Hrec.
  { intros [|? ? ? ? ?] H1 H2 H3; [by exists Leaf|]. apply IH; try done. by rewrite tree_size_length. }
  pose proof Ho as Ho'. cbn [collect_inorder] in Ho'. apply ordered_app in Ho' as (Hol & Hor & Hll & Hrr).
  pose proof (tree_size_length (Node l c k0 v0 r)) as Hsize. cbn [collect_inorder] in Hsize.
  rewrite length_app in Hsize. cbn [length] in Hsize.
  cbn [del]. destruct (cmp k k0) eqn:E.
  2: { unfold is_red_left_left. cbn [left_of].
       destruct (left_move l c k0 v0 r Hs) as (l' & c' & r' & -> & Il & Ir & Hs' & Hleaf). cbn [rbind].
       destruct (Hrec l' Hs') as (l2 & -> & Hsub); [by rewrite Il|rewrite Il; lia|]. cbn [rbind].
       destruct (fix_up_ok (Node l2 c' k0 v0 r')) as (h' & -> & Hi). exists h'. split; [done|].
       rewrite Hi. cbn [collect_inorder]. rewrite Ir, filter_app, filter_cons_True.
       2: { unfold others. cbn. rewrite (cmp_antisym k k0), E. done. }
       rewrite (others_above k k0 (collect_inorder r)) by (rewrite ?E; done).
       rewrite Il in Hsub. by apply sublist_app. }
  all: assert (cmp k k0 <> Lt) as Hk by (by rewrite E).
  all: cbn [left_of right_of].
  all: destruct (right_moves l c k0 v0 r Hs Ho) as (l1 & c1 & k1 & v1 & r1 & -> & l2 & c2 & k2 & v2 & r2 & E2 & Hi2 & Hs2 & Hk2).
  all: cbn [rbind]; unfold is_red_right_left; cbn [right_of].
  all: match goal with |- context [if ?b then Ok Leaf else _] => destruct b end;
    [exists Leaf; split; [done|apply sublist_nil_l]|].
  all: rewrite E2; cbn [rbind]; rewrite <- Hi2 in *.
  all: pose proof Ho as (_ & Hor2 & _ & _)%ordered_app.
  all: assert (length (collect_inorder r2) <= fuel)%nat as Hr2
    by (pose proof (f_equal length Hi2) as Hlen; cbn [collect_inorder] in Hlen;
        rewrite !length_app in Hlen; cbn [length] in Hlen; lia).
  all: apply del_root; [by apply Hrec|done|done|by apply Hk2|by rewrite tree_size_length].
Qed.

Lemma ordered_sublist (m1 m2 : list (K * V)) :
  m1 `sublist_of` m2 -> ordered m2 -> ordered m1.
Proof.
  induction 1 as [|x m1 m2 Hsub IH|x m1 m2 Hsub IH]; [done|..];
    intros [H1 H2]%StronglySorted_inv; [|auto].
  constructor; [auto|]. apply Forall_forall. intros y Hy. eapply Forall_forall in H2; [done|].
  by eapply elem_of_sublist.
Qed.

(** Removing a key from a tree made by insertions: it always returns, never panics, an
    absent key leaves the tree alone, and a key that is there is gone afterwards. Of the
    other entries nothing is added, reordered or changed, but nothing more can be said:
    entries can be lost with the key (see [remove_empties_the_tree]), and the length is
    reduced by one whatever was lost. *)
Theorem remove_from_inserted (items : list (K * V)) (t : RedBlackTree K V) k :
  Z.of_nat (length items) <= u64_max -> from_iter items = Ok t ->
  match tree_get t k with
  | None => remove t k = Ok (false, t)
  | Some _ => exists t', remove t k = Ok (true, t') /\
      collect (iter t') `sublist_of` filter (others k) (collect (iter t)) /\
      tree_get t' k = None /\ len t' = len t - 1
  end.
Proof.
  intros Hlen Hfrom.
  destruct (extend_represents [] tree_new items tree_represents_new Hlen) as (t0 & E & H).
  change (extend tree_new items) with (from_iter items) in E. rewrite Hfrom in E. injection E as <-.
  set (m := fold_left _ _ _) in H. destruct H as [Hm Ho [n Hn] Hb Hl].
  unfold remove, tree_contains. destruct (tree_get t k) as [v|] eqn:Hget.
  2: { rewrite bool_decide_false; [done|]. by intros []. }
  rewrite bool_decide_true by done.
  destruct (del_ok (tree_size (root t)) (root t) k) as (h & -> & Hsub).
  { done. }
  { by apply straight_children, (llrb_straight n). }
  { by rewrite Hm. }
  { intros E. unfold tree_get in Hget. by rewrite E in Hget. }
  cbn [rbind]. eexists. split; [done|].
  unfold iter. rewrite !yields_collect, !reverse_involutive. cbn. rewrite blacken_inorder.
  split; [done|]. assert (ordered (collect_inorder h)) as Hoh.
  { eapply ordered_sublist; [exact Hsub|]. eapply ordered_sublist; [apply sublist_filter|]. by rewrite Hm. }
  split.
  - unfold tree_get. cbn. rewrite get_node_assoc by (by rewrite blacken_inorder).
    rewrite blacken_inorder. apply assoc_none. apply Forall_forall. intros x Hx.
    eapply elem_of_sublist in Hx; [|exact Hsub]. by apply list_elem_of_filter in Hx as [? _].
  - rewrite Hl in *. destruct m eqn:Em; [|cbn; lia]. unfold tree_get in Hget.
    rewrite get_node_assoc, Hm in Hget by (by rewrite Hm). done.
Qed.
End Removal.

(** ** Witnesses *)

Module RedBlackTreeWitness.
#[local] Instance Z_ord : Ord Z := Z.compare.

Lemma Z_ord_laws : OrdLaws Z.
Proof.
  split; unfold cmp, Z_ord.
  - intros. apply Z.compare_eq_iff.
  - intros. apply Z.compare_antisym.
  - intros x y z. rewrite !Z.compare_lt_iff. lia.
Qed.

Definition three : list (Z * string) := [(2, "b"); (1, "a"); (3, "c"); (2, "d")].

Lemma tree_refines_map_witness :
  exists t, from_iter three = Ok t /\ collect (iter t) = [(1, "a"); (2, "d"); (3, "c")] /\ len t = 3.
Proof.
  destruct (tree_refines_map (OrdLaws0 := Z_ord_laws) three ltac:(by vm_compute))
    as (t & H1 & _ & H2 & H3 & _).
  exists t. exact (conj H1 (conj H2 H3)).
Defined.

(** Removing a key with two children from a tree of three entries removes all of them,
    while the length becomes two. *)
Definition emptied : RedBlackTree Z string := mkTree Leaf 2.

Example remove_empties_the_tree :
  (let? t := from_iter three in remove t 2) = Ok (true, emptied).
Proof. by vm_compute. Qed.

Lemma remove_from_inserted_witness :
  exists t t', from_iter three = Ok t /\ remove t 3 = Ok (true, t') /\ tree_get t' 3 = None.
Proof.
  destruct (extend_represents (OrdLaws0 := Z_ord_laws) [] tree_new three tree_represents_new
    ltac:(by vm_compute)) as (t & H1 & H2).
  pose proof (remove_from_inserted (OrdLaws0 := Z_ord_laws) three t 3 ltac:(by vm_compute) H1) as H.
  rewrite (represents_get (OrdLaws0 := Z_ord_laws) _ _ 3 H2) in H. destruct H as (t' & H & _ & Hnone & _). exists t, t'.
  exact (conj H1 (conj H Hnone)).
Defined.
End RedBlackTreeWitness.
