(* ===== verification/Spsc.v ===== *)
(** * The single-producer single-consumer queue

    [crates/vo-ipc/src/spsc.rs]: a ring buffer shared by a sender and a receiver without a
    lock. [send] and [recv] are modelled twice: as functions, for a caller alone, and as a
    step relation in which the two sides interleave at every access to shared memory. The
    memory is sequentially consistent; the release fences and acquire loads of the code,
    which justify this for the slots, are not modelled further. Indices are [usize] and
    wrap around. *)

From S2P Require Import Prelude.

(** [enum SpscError]. *)
Inductive SpscError : Set := Full | Empty.

(** [usize::wrapping_sub]. *)
Definition wrapping_sub_u64 (a b : Z) : Z := as_u64 (a - b).

(** [usize::next_power_of_two]. *)
Definition next_power_of_two (n : Z) : Z := if n <=? 1 then 1 else 2 ^ Z.log2_up n.

Section Spsc.
Context {T : Type}.

(** [struct SpscQueue]; a slot is [None] before its first write. *)
Record SpscQueue : Type := mkQueue {
  buffer : list (option T);
  cap : Z;
  head : Z;
  tail : Z;
}.

(** [SpscQueue::new]. *)
Definition spsc_new (capacity : Z) : SpscQueue :=
  let cap := next_power_of_two capacity in
  mkQueue (replicate (Z.to_nat cap) None) cap 0 0.

(** [SpscQueue::mask]. *)
Definition mask (q : SpscQueue) (idx : Z) : Z := Z.land idx (cap q - 1).

(** The slot of an index; [None] also when it is out of bounds. *)
Definition slot (q : SpscQueue) (idx : Z) : option T := mjoin (buffer q !! Z.to_nat (mask q idx)).

(** [slot.write(msg)]. *)
Definition write_slot (q : SpscQueue) (idx : Z) (msg : T) : SpscQueue :=
  mkQueue (<[Z.to_nat (mask q idx) := Some msg]> (buffer q)) (cap q) (head q) (tail q).

Definition store_head (q : SpscQueue) (h : Z) : SpscQueue := mkQueue (buffer q) (cap q) h (tail q).
Definition store_tail (q : SpscQueue) (t : Z) : SpscQueue := mkQueue (buffer q) (cap q) (head q) t.

(** [SpscQueue::send]. *)
Definition send (q : SpscQueue) (msg : T) : result SpscError unit * SpscQueue :=
  if cap q <=? wrapping_sub_u64 (head q) (tail q) then (Err Full, q)
  else (Ok tt, store_head (write_slot q (head q) msg) (wrapping_add_u64 (head q) 1)).

(** [SpscQueue::recv]; [None] is a read of a slot that was never written. *)
Definition recv (q : SpscQueue) : option (result SpscError T * SpscQueue) :=
  if head q =? tail q then Some (Err Empty, q)
  else match slot q (tail q) with
       | None => None
       | Some msg => Some (Ok msg, store_tail q (wrapping_add_u64 (tail q) 1))
       end.

(** [SpscQueue::len] and [is_empty], [Sender::is_full]. *)
Definition spsc_len (q : SpscQueue) : Z := wrapping_sub_u64 (head q) (tail q).
Definition spsc_is_empty (q : SpscQueue) : bool := spsc_len q =? 0.
Definition spsc_is_full (q : SpscQueue) : bool := cap q <=? wrapping_sub_u64 (head q) (tail q).

(** The loop of [drop]: the messages dropped, or [None] when a slot was never written or
    the fuel runs out. *)
Fixpoint drop_loop (fuel : nat) (q : SpscQueue) (idx : Z) : option (list T) :=
  if idx =? head q then Some []
  else match fuel with
       | O => None
       | S fuel' =>
           msg ← slot q idx;
           rest ← drop_loop fuel' q (wrapping_add_u64 idx 1);
           Some (msg :: rest)
       end.

(** [SpscQueue::drop]; the queue holds at most [cap] messages. *)
Definition drop_queue (q : SpscQueue) : option (list T) :=
  drop_loop (Z.to_nat (cap q)) q (tail q).

(** ** Interleaving *)

(** Where the sender is in [send]: nothing running; [head] loaded; room found; slot
    written. *)
Inductive SendPc : Type :=
| SendIdle
| SendLoaded (msg : T) (h : Z)
| SendRoom (msg : T) (h : Z)
| SendWritten (msg : T) (h : Z).

(** Where the receiver is in [recv]: nothing running; [tail] loaded; a message found; slot
    read. *)
Inductive RecvPc : Type :=
| RecvIdle
| RecvLoaded (t : Z)
| RecvReady (t : Z)
| RecvRead (msg : T) (t : Z).

Record Threads : Type := mkThreads {
  queue : SpscQueue;
  sender : SendPc;
  receiver : RecvPc;
}.

(** What a step shows: an answer of [send] or [recv], or nothing. *)
Inductive Label : Type :=
| Tau
| SendOk (msg : T)
| SendFull
| RecvOk (msg : T)
| RecvEmpty.

(** One access to shared memory by one side. *)
Inductive step : Threads -> Label -> Threads -> Prop :=
| step_send_start q r msg :
    step (mkThreads q SendIdle r) Tau (mkThreads q (SendLoaded msg (head q)) r)
| step_send_full q r msg h :
    cap q <= wrapping_sub_u64 h (tail q) ->
    step (mkThreads q (SendLoaded msg h) r) SendFull (mkThreads q SendIdle r)
| step_send_room q r msg h :
    wrapping_sub_u64 h (tail q) < cap q ->
    step (mkThreads q (SendLoaded msg h) r) Tau (mkThreads q (SendRoom msg h) r)
| step_send_write q r msg h :
    step (mkThreads q (SendRoom msg h) r) Tau
         (mkThreads (write_slot q h msg) (SendWritten msg h) r)
| step_send_store q r msg h :
    step (mkThreads q (SendWritten msg h) r) (SendOk msg)
         (mkThreads (store_head q (wrapping_add_u64 h 1)) SendIdle r)
| step_recv_start q s :
    step (mkThreads q s RecvIdle) Tau (mkThreads q s (RecvLoaded (tail q)))
| step_recv_empty q s t :
    head q = t ->
    step (mkThreads q s (RecvLoaded t)) RecvEmpty (mkThreads q s RecvIdle)
| step_recv_ready q s t :
    head q <> t ->
    step (mkThreads q s (RecvLoaded t)) Tau (mkThreads q s (RecvReady t))
| step_recv_read q s t msg :
    slot q t = Some msg ->
    step (mkThreads q s (RecvReady t)) Tau (mkThreads q s (RecvRead msg t))
| step_recv_store q s t msg :
    step (mkThreads q s (RecvRead msg t)) (RecvOk msg)
         (mkThreads (store_tail q (wrapping_add_u64 t 1)) s RecvIdle).

(** Runs and what they show. *)
Inductive steps : Threads -> list Label -> Threads -> Prop :=
| steps_nil s : steps s [] s
| steps_snoc s tr s' l s'' : steps s tr s' -> step s' l s'' -> steps s (tr ++ [l]) s''.

(** ** The abstract bounded queue *)

Inductive queue_step (capacity : Z) : list T -> Label -> list T -> Prop :=
| queue_tau q : queue_step capacity q Tau q
| queue_send q msg :
    Z.of_nat (length q) < capacity -> queue_step capacity q (SendOk msg) (q ++ [msg])
| queue_full q : Z.of_nat (length q) = capacity -> queue_step capacity q SendFull q
| queue_recv q msg : queue_step capacity (msg :: q) (RecvOk msg) q
| queue_empty : queue_step capacity [] RecvEmpty [].

Inductive queue_steps (capacity : Z) : list T -> list Label -> list T -> Prop :=
| queue_steps_nil q : queue_steps capacity q [] q
| queue_steps_snoc q tr q' l q'' :
    queue_steps capacity q tr q' -> queue_step capacity q' l q'' ->
    queue_steps capacity q (tr ++ [l]) q''.

(** The messages accepted and delivered in a run. *)
Definition sent (tr : list Label) : list T :=
  omap (fun l => match l with SendOk msg => Some msg | _ => None end) tr.
Definition received (tr : list Label) : list T :=
  omap (fun l => match l with RecvOk msg => Some msg | _ => None end) tr.
End Spsc.
Arguments SpscQueue T : clear implicits.
Arguments Threads T : clear implicits.
Arguments Label T : clear implicits.

(** ** Indices *)

Section Indices.

Lemma next_power_of_two_pow n :
  n <= 2 ^ 63 -> exists p, 0 <= p <= 63 /\ next_power_of_two n = 2 ^ p /\ n <= 2 ^ p.
Proof.
  intros Hn. unfold next_power_of_two. destruct (n <=? 1) eqn:E.
  - exists 0. split; [lia|]. split; [done|]. lia.
  - exists (Z.log2_up n). split; [|split; [done|]].
    + split; [apply Z.log2_up_nonneg|]. apply Z.log2_up_le_pow2; lia.
    + apply Z.log2_up_spec. lia.
Qed.

Lemma u64_pow : u64_max + 1 = 2 ^ 64.
Proof. reflexivity. Qed.

Lemma as_u64_sub_of a b : 0 <= a - b <= u64_max -> wrapping_sub_u64 (as_u64 a) (as_u64 b) = a - b.
Proof.
  intros H. unfold wrapping_sub_u64, as_u64. rewrite <- Zminus_mod. apply Z.mod_small. lia.
Qed.

Lemma as_u64_succ a : wrapping_add_u64 (as_u64 a) 1 = as_u64 (a + 1).
Proof. unfold wrapping_add_u64, as_u64. apply Zplus_mod_idemp_l. Qed.

Lemma mod_close x y c : 0 < c -> x mod c = y mod c -> - c < x - y < c -> x = y.
Proof.
  intros Hc E H. pose proof (Z.div_mod x c ltac:(lia)). pose proof (Z.div_mod y c ltac:(lia)).
  assert (x / c = y / c) by nia. nia.
Qed.

Lemma as_u64_inj a b : 0 <= a - b <= u64_max -> as_u64 a = as_u64 b -> a = b.
Proof. intros H E. apply (mod_close a b (u64_max + 1)); [done|exact E|ulia]. Qed.

Lemma land_pow p x : 0 <= p <= 63 -> Z.land (as_u64 x) (2 ^ p - 1) = x mod 2 ^ p.
Proof.
  intros Hp. rewrite Z.sub_1_r, <- Z.ones_equiv, Z.land_ones by lia.
  unfold as_u64. rewrite u64_pow. apply Z.mod_mod_divide.
  exists (2 ^ (64 - p)). rewrite <- Z.pow_add_r by lia. f_equal. lia.
Qed.
End Indices.

(** ** The invariant *)

Section Invariant.
Context {T : Type}.
Implicit Types (q : SpscQueue T) (msgs : list T) (s : Threads T).

(** The queue holds [msgs], received after [t] others: [t] counts all the messages ever
    received, without wrapping. *)
Record holds (capacity t : Z) msgs q : Prop := {
  holds_pow : exists p, 0 <= p <= 63 /\ capacity = 2 ^ p;
  holds_cap : cap q = capacity;
  holds_buffer : Z.of_nat (length (buffer q)) = capacity;
  holds_count : 0 <= t;
  holds_room : Z.of_nat (length msgs) <= capacity;
  holds_head : head q = as_u64 (t + Z.of_nat (length msgs));
  holds_tail : tail q = as_u64 t;
  holds_slots : forall i msg, msgs !! i = Some msg ->
    buffer q !! Z.to_nat ((t + Z.of_nat i) mod capacity) = Some (Some msg);
}.

Definition sender_ok (capacity t : Z) msgs q (pc : SendPc) : Prop :=
  let h := t + Z.of_nat (length msgs) in
  match pc with
  | SendIdle => True
  | SendLoaded _ x => x = as_u64 h
  | SendRoom _ x => x = as_u64 h /\ Z.of_nat (length msgs) < capacity
  | SendWritten msg x => x = as_u64 h /\ Z.of_nat (length msgs) < capacity /\
      buffer q !! Z.to_nat (h mod capacity) = Some (Some msg)
  end.

Definition receiver_ok (t : Z) msgs (pc : RecvPc) : Prop :=
  match pc with
  | RecvIdle => True
  | RecvLoaded x => x = as_u64 t
  | RecvReady x => x = as_u64 t /\ msgs <> []
  | RecvRead msg x => x = as_u64 t /\ list.head msgs = Some msg
  end.

Definition inv (capacity t : Z) msgs s : Prop :=
  holds capacity t msgs (queue s) /\ sender_ok capacity t msgs (queue s) (sender s) /\
  receiver_ok t msgs (receiver s).

Lemma capacity_bounds capacity t msgs q :
  holds capacity t msgs q -> 0 < capacity <= 2 ^ 63.
Proof.
  intros [(p & Hp & ->) _ _ _ _ _ _ _]. split; [lia|]. apply Z.pow_le_mono_r; lia.
Qed.

Lemma mask_index capacity t msgs q x :
  holds capacity t msgs q -> mask q (as_u64 x) = x mod capacity.
Proof.
  intros [(p & Hp & ->) Hc _ _ _ _ _ _]. unfold mask. rewrite Hc. by apply land_pow.
Qed.

Lemma difference capacity t msgs q :
  holds capacity t msgs q ->
  wrapping_sub_u64 (as_u64 (t + Z.of_nat (length msgs))) (tail q) = Z.of_nat (length msgs).
Proof.
  intros H. pose proof (capacity_bounds _ _ _ _ H) as Hc. destruct H as [_ _ _ _ Hr _ -> _].
  rewrite as_u64_sub_of; [lia|]. assert (2 ^ 63 <= u64_max) by (by vm_compute). lia.
Qed.

(** The slot of the first message. *)
Lemma first_slot capacity t msgs q :
  holds capacity t msgs q -> msgs <> [] -> slot q (as_u64 t) = list.head msgs.
Proof.
  intros H Hne. unfold slot. rewrite (mask_index _ _ _ _ _ H).
  destruct msgs as [|msg msgs]; [done|]. pose proof (holds_slots _ _ _ _ H 0 msg eq_refl) as Hs.
  rewrite Z.add_0_r in Hs. by rewrite Hs.
Qed.

(** The slot after the last message is none of theirs. *)
Lemma free_slot capacity t (msgs : list T) i :
  0 < capacity -> Z.of_nat (length msgs) < capacity -> (i < length msgs)%nat ->
  (t + Z.of_nat i) mod capacity <> (t + Z.of_nat (length msgs)) mod capacity.
Proof.
  intros Hc Hl Hi E. apply mod_close in E; lia.
Qed.

Lemma write_holds capacity t msgs q msg :
  holds capacity t msgs q -> Z.of_nat (length msgs) < capacity ->
  let q' := write_slot q (as_u64 (t + Z.of_nat (length msgs))) msg in
  holds capacity t msgs q' /\
  buffer q' !! Z.to_nat ((t + Z.of_nat (length msgs)) mod capacity) = Some (Some msg).
Proof.
  intros H Hl. pose proof (capacity_bounds _ _ _ _ H) as [Hc _]. cbn zeta. unfold write_slot.
  rewrite (mask_index _ _ _ _ _ H). split.
  - destruct H as [Hp Hcap Hb Ht Hr Hh Htl Hs]. split; cbn; try done.
    + by rewrite length_insert.
    + intros i m Hm. rewrite list_lookup_insert_ne; [by apply Hs|].
      apply lookup_lt_Some in Hm. pose proof (free_slot capacity t msgs i Hc Hl Hm) as Hne.
      pose proof (Z.mod_pos_bound (t + Z.of_nat i) capacity Hc).
      pose proof (Z.mod_pos_bound (t + Z.of_nat (length msgs)) capacity Hc). lia.
  - cbn. rewrite list_lookup_insert_eq; [done|].
    pose proof (Z.mod_pos_bound (t + Z.of_nat (length msgs)) capacity Hc).
    pose proof (holds_buffer _ _ _ _ H). lia.
Qed.

Lemma publish_holds capacity t msgs q msg :
  holds capacity t msgs q -> Z.of_nat (length msgs) < capacity ->
  buffer q !! Z.to_nat ((t + Z.of_nat (length msgs)) mod capacity) = Some (Some msg) ->
  holds capacity t (msgs ++ [msg])
    (store_head q (wrapping_add_u64 (as_u64 (t + Z.of_nat (length msgs))) 1)).
Proof.
  intros [Hp Hcap Hb Ht Hr Hh Htl Hs] Hl Hslot. split; cbn; try done.
  - rewrite length_app. cbn. lia.
  - rewrite as_u64_succ, length_app. cbn. f_equal. lia.
  - intros i m [Hm|[Hi Hm]]%lookup_app_Some; [by apply Hs|].
    apply list_lookup_singleton_Some in Hm as [Hi0 ->]. by replace i with (length msgs) by lia.
Qed.

Lemma consume_holds capacity t msg msgs q :
  holds capacity t (msg :: msgs) q ->
  holds capacity (t + 1) msgs (store_tail q (wrapping_add_u64 (as_u64 t) 1)).
Proof.
  intros [Hp Hcap Hb Ht Hr Hh Htl Hs]. cbn in Hr, Hh. split; cbn; try done; try lia.
  - rewrite Hh. f_equal. lia.
  - by rewrite as_u64_succ.
  - intros i m Hm. specialize (Hs (S i) m Hm). by replace (t + 1 + Z.of_nat i) with (t + Z.of_nat (S i)) by lia.
Qed.

Lemma holds_new capacity :
  capacity <= 2 ^ 63 -> holds (next_power_of_two capacity) 0 [] (spsc_new capacity).
Proof.
  intros Hc. destruct (next_power_of_two_pow capacity Hc) as (p & Hp & E & _). split; cbn; try done.
  - by exists p.
  - rewrite length_replicate, E. lia.
  - rewrite E. lia.
Qed.

(** One step of either side keeps the invariant and is a step of the abstract queue. *)
Lemma spsc_step_inv capacity t msgs s l s' :
  inv capacity t msgs s -> step s l s' ->
  exists t' msgs', inv capacity t' msgs' s' /\ queue_step capacity msgs l msgs'.
Proof.
  intros (Hq & Hs & Hr) Hstep. pose proof (capacity_bounds _ _ _ _ Hq) as [Hc _].
  destruct Hstep; cbn [queue sender receiver sender_ok receiver_ok] in *.
  - exists t, msgs. split; [|constructor]. split_and!; [done| |done]. apply Hq.
  - exists t, msgs. split; [done|]. rewrite Hs, (difference _ _ _ _ Hq) in H.
    rewrite (holds_cap _ _ _ _ Hq) in H. pose proof (holds_room _ _ _ _ Hq). constructor. lia.
  - exists t, msgs. split; [|constructor]. split; [done|]. split; [|done]. split; [done|].
    rewrite Hs, (difference _ _ _ _ Hq), (holds_cap _ _ _ _ Hq) in H. done.
  - destruct Hs as [-> Hl]. destruct (write_holds _ _ _ _ msg Hq Hl) as [Hq' Hslot].
    exists t, msgs. split; [|constructor]. by split.
  - destruct Hs as (-> & Hl & Hslot). exists t, (msgs ++ [msg]). split; [|by constructor].
    split; [by apply publish_holds|]. split; [done|]. cbn. destruct r; cbn in *; try done.
    + destruct Hr as [? ?]. split; [done|]. by destruct msgs.
    + destruct Hr as [? ?]. split; [done|]. by destruct msgs.
  - exists t, msgs. split; [|constructor]. split_and!; [done..|]. apply Hq.
  - exists t, msgs. split; [done|]. subst t0. rewrite (holds_head _ _ _ _ Hq) in H.
    assert (t + Z.of_nat (length msgs) = t) as Hlen.
    { apply as_u64_inj; [|done]. pose proof (capacity_bounds _ _ _ _ Hq).
      pose proof (holds_room _ _ _ _ Hq). assert (2 ^ 63 <= u64_max) by (by vm_compute). lia. }
    destruct msgs; [constructor|]. cbn in Hlen. lia.
  - exists t, msgs. split; [|constructor]. split; [done|]. split; [done|]. split; [done|].
    intros ->. apply H. rewrite Hr, (holds_head _ _ _ _ Hq). f_equal. cbn. lia.
  - destruct Hr as [-> Hne]. exists t, msgs. split; [|constructor]. split; [done|]. split; [done|].
    split; [done|]. by rewrite <- (first_slot _ _ _ _ Hq Hne).
  - destruct Hr as [-> Hhd]. destruct msgs as [|m msgs]; [done|]. injection Hhd as ->.
    exists (t + 1), msgs. split; [|constructor]. split; [by eapply consume_holds|]. split; [|done].
    assert (t + 1 + Z.of_nat (length msgs) = t + Z.of_nat (length (msg :: msgs))) as Ht
      by (cbn [length]; lia).
    unfold sender_ok in *. cbn [sender queue]. rewrite Ht. cbn [length] in *.
    destruct s; try done; intuition lia.
Qed.

Definition idle q : Threads T := mkThreads q SendIdle RecvIdle.

Lemma steps_inv capacity tr s :
  capacity <= 2 ^ 63 -> steps (idle (spsc_new capacity)) tr s ->
  exists t msgs, inv (next_power_of_two capacity) t msgs s /\
    queue_steps (next_power_of_two capacity) [] tr msgs.
Proof.
  intros Hc. remember (idle (spsc_new capacity)) as s0 eqn:E0.
  induction 1 as [s|s tr s' l s'' _ IH Hstep]; subst.
  - exists 0, []. split; [|constructor]. split; [by apply holds_new|done].
  - destruct IH as (t & msgs & Hinv & Hqs); [done|].
    destruct (spsc_step_inv _ _ _ _ _ _ Hinv Hstep) as (t' & msgs' & Hinv' & Hq).
    exists t', msgs'. split; [done|]. by econstructor.
Qed.

Lemma queue_fifo capacity tr msgs :
  queue_steps capacity [] tr msgs -> sent tr = received tr ++ msgs.
Proof.
  remember [] as q0 eqn:E0. induction 1 as [q|q tr q' l q'' _ IH Hq]; subst; [done|].
  specialize (IH eq_refl). unfold sent, received in *. rewrite !omap_app, IH.
  destruct Hq; cbn; rewrite ?app_nil_r; try done; by rewrite <- app_assoc.
Qed.

Lemma drop_loop_tail fuel q x idx : drop_loop fuel (store_tail q x) idx = drop_loop fuel q idx.
Proof.
  revert idx. induction fuel as [|fuel IH]; intros idx; cbn; [done|].
  destruct (idx =? head q); [done|]. change (slot (store_tail q x) idx) with (slot q idx).
  destruct (slot q idx); cbn; [|done]. by rewrite IH.
Qed.

Lemma drop_loop_holds fuel capacity t msgs q :
  holds capacity t msgs q -> (length msgs <= fuel)%nat -> drop_loop fuel q (as_u64 t) = Some msgs.
Proof.
  revert fuel t q. induction msgs as [|msg msgs IH]; intros fuel t q Hq Hf.
  - assert ((as_u64 t =? head q) = true) as E.
    { apply Z.eqb_eq. rewrite (holds_head _ _ _ _ Hq). f_equal. cbn. lia. }
    destruct fuel; cbn; by rewrite E.
  - cbn in Hf. destruct fuel as [|fuel]; [lia|]. cbn [drop_loop].
    assert ((as_u64 t =? head q) = false) as ->.
    { apply Z.eqb_neq. rewrite (holds_head _ _ _ _ Hq). intros E. symmetry in E.
      pose proof (capacity_bounds _ _ _ _ Hq). pose proof (holds_room _ _ _ _ Hq).
      assert (2 ^ 63 <= u64_max) by (by vm_compute).
      apply as_u64_inj in E; cbn in *; lia. }
    rewrite (first_slot _ _ _ _ Hq) by done. cbn [list.head mbind option_bind].
    rewrite as_u64_succ, <- (drop_loop_tail _ _ (wrapping_add_u64 (as_u64 t) 1)).
    rewrite (IH fuel (t + 1)); [done| |lia]. by eapply consume_holds.
Qed.

(** C11. The queue is a bounded FIFO queue, however the two sides interleave: every run of
    [send] and [recv], access by access, answers as the abstract queue of the rounded
    capacity; [Full] and [Empty] are answered only when it is full or empty. So messages
    are received in the order sent, none lost, repeated or made up, also when the indices
    wrap around; and dropping the queue afterwards drops exactly those not received. *)
Theorem spsc_refines_queue capacity tr s :
  capacity <= 2 ^ 63 -> steps (idle (spsc_new capacity)) tr s ->
  exists msgs,
    queue_steps (next_power_of_two capacity) [] tr msgs /\
    sent tr = received tr ++ msgs /\
    drop_queue (queue s) = Some msgs.
Proof.
  intros Hc Hsteps. destruct (steps_inv _ _ _ Hc Hsteps) as (t & msgs & (Hq & _ & _) & Hqs).
  exists msgs. split; [done|]. split; [by eapply queue_fifo|].
  unfold drop_queue. rewrite (holds_tail _ _ _ _ Hq). eapply drop_loop_holds; [done|].
  rewrite (holds_cap _ _ _ _ Hq). pose proof (holds_room _ _ _ _ Hq). lia.
Qed.

(** C21. No data race and no read of uninitialised memory: in every reachable state the slot
    the receiver is about to read was written, the slot the sender is about to write is
    another one, and both are in bounds. *)
Theorem spsc_no_race capacity tr s :
  capacity <= 2 ^ 63 -> steps (idle (spsc_new capacity)) tr s ->
  (forall t, receiver s = RecvReady t -> is_Some (slot (queue s) t)) /\
  (forall msg h t, sender s = SendRoom msg h -> receiver s = RecvReady t ->
     mask (queue s) h <> mask (queue s) t) /\
  (forall msg h, sender s = SendRoom msg h ->
     0 <= mask (queue s) h < Z.of_nat (length (buffer (queue s)))).
Proof.
  intros Hc Hsteps. destruct (steps_inv _ _ _ Hc Hsteps) as (t & msgs & (Hq & Hs & Hr) & _).
  pose proof (capacity_bounds _ _ _ _ Hq) as [Hpos _]. split_and!.
  - intros x E. rewrite E in Hr. destruct Hr as [-> Hne]. rewrite (first_slot _ _ _ _ Hq Hne).
    by destruct msgs.
  - intros msg h x Es Er. rewrite Es in Hs. rewrite Er in Hr. destruct Hs as [-> Hl].
    destruct Hr as [-> Hne]. rewrite !(mask_index _ _ _ _ _ Hq).
    pose proof (free_slot _ t msgs 0 Hpos Hl) as Hfree. rewrite Z.add_0_r in Hfree.
    apply not_eq_sym, Hfree. destruct msgs; [done|cbn; lia].
  - intros msg h Es. rewrite Es in Hs. destruct Hs as [-> _]. rewrite (mask_index _ _ _ _ _ Hq).
    rewrite (holds_buffer _ _ _ _ Hq). by apply Z.mod_pos_bound.
Qed.
End Invariant.

(** ** The functions are the runs of one side alone *)

Section Alone.
Context {T : Type}.
Implicit Types (q : SpscQueue T).

Lemma steps_start (s : Threads T) l s' : step s l s' -> steps s [l] s'.
Proof. intros H. apply (steps_snoc _ [] s); [constructor|done]. Qed.

Lemma send_runs q r msg :
  steps (mkThreads q SendIdle r)
    (match (send q msg).1 with Ok _ => [Tau; Tau; Tau; SendOk msg] | Err _ => [Tau; SendFull] end)
    (mkThreads (send q msg).2 SendIdle r).
Proof.
  unfold send. destruct (cap q <=? wrapping_sub_u64 (head q) (tail q)) eqn:E; cbn [fst snd].
  - apply (steps_snoc _ [Tau] (mkThreads q (SendLoaded msg (head q)) r)).
    + apply steps_start; constructor.
    + constructor. lia.
  - apply (steps_snoc _ [Tau; Tau; Tau]
      (mkThreads (write_slot q (head q) msg) (SendWritten msg (head q)) r)); [|constructor].
    apply (steps_snoc _ [Tau; Tau] (mkThreads q (SendRoom msg (head q)) r)); [|constructor].
    apply (steps_snoc _ [Tau] (mkThreads q (SendLoaded msg (head q)) r)); [|constructor; lia].
    apply steps_start; constructor.
Qed.

Lemma recv_runs q s x q' :
  recv q = Some (x, q') ->
  steps (mkThreads q s RecvIdle)
    (match x with Ok msg => [Tau; Tau; Tau; RecvOk msg] | Err _ => [Tau; RecvEmpty] end)
    (mkThreads q' s RecvIdle).
Proof.
  unfold recv. destruct (head q =? tail q) eqn:E.
  - intros [= <- <-]. apply (steps_snoc _ [Tau] (mkThreads q s (RecvLoaded (tail q)))).
    + apply steps_start; constructor.
    + constructor. lia.
  - destruct (slot q (tail q)) as [msg|] eqn:Hs; [|done]. intros [= <- <-].
    apply (steps_snoc _ [Tau; Tau; Tau] (mkThreads q s (RecvRead msg (tail q)))); [|constructor].
    apply (steps_snoc _ [Tau; Tau] (mkThreads q s (RecvReady (tail q)))); [|by constructor].
    apply (steps_snoc _ [Tau] (mkThreads q s (RecvLoaded (tail q)))); [|constructor; lia].
    apply steps_start; constructor.
Qed.
End Alone.

(** ** Witnesses *)

Module SpscWitness.
Definition q1 : SpscQueue Z := (send (spsc_new 1) 7).2.

Definition tr1 : list (Label Z) := [Tau; Tau; Tau; SendOk 7].

(** A second [send] has loaded [head] when the receiver takes the message. *)
Lemma run_interleaved :
  steps (idle (spsc_new 1)) (tr1 ++ [Tau; SendFull] ++ [Tau])
    (mkThreads q1 SendIdle (RecvLoaded 0)).
Proof.
  change (tr1 ++ [Tau; SendFull] ++ [Tau]) with ((tr1 ++ [Tau; SendFull]) ++ [@Tau Z]).
  eapply steps_snoc; [|exact (step_recv_start q1 SendIdle)].
  change (tr1 ++ [Tau; SendFull]) with ((tr1 ++ [Tau]) ++ [@SendFull Z]).
  eapply steps_snoc; [|apply (step_send_full q1 RecvIdle 8 (head q1)); by vm_compute].
  eapply steps_snoc; [|exact (step_send_start q1 RecvIdle 8)].
  exact (send_runs (spsc_new 1) RecvIdle 7).
Qed.

Lemma spsc_refines_queue_witness :
  exists msgs, queue_steps 1 [] (tr1 ++ [Tau; SendFull] ++ [Tau]) msgs /\ [7] = [] ++ msgs /\
    drop_queue q1 = Some msgs.
Proof.
  exact (spsc_refines_queue 1 _ _ ltac:(by vm_compute) run_interleaved).
Defined.

Lemma run_ready :
  steps (idle (spsc_new 2)) (tr1 ++ [Tau; Tau; Tau; Tau])
    (mkThreads (send (spsc_new 2) 7).2 (SendRoom 8 1) (RecvReady 0)).
Proof.
  set (q := (send (spsc_new 2) 7).2).
  apply (steps_snoc _ (tr1 ++ [Tau; Tau; Tau]) (mkThreads q (SendRoom 8 1) (RecvLoaded 0)));
    [|by constructor].
  apply (steps_snoc _ (tr1 ++ [Tau; Tau]) (mkThreads q (SendRoom 8 1) RecvIdle)); [|constructor].
  apply (steps_snoc _ (tr1 ++ [Tau]) (mkThreads q (SendLoaded 8 1) RecvIdle));
    [|constructor; by vm_compute].
  apply (steps_snoc _ tr1 (mkThreads q SendIdle RecvIdle)); [|constructor].
  exact (send_runs (spsc_new 2) RecvIdle 7).
Qed.

Lemma spsc_no_race_witness :
  mask (send (spsc_new 2) 7).2 1 <> mask (send (spsc_new 2) 7).2 0.
Proof.
  exact (proj1 (proj2 (spsc_no_race 2 _ _ ltac:(by vm_compute) run_ready)) 8 1 0 eq_refl eq_refl).
Defined.

(** Two senders at once (the sender takes [&self] and can be shared): both load the same
    index, both answer [Ok], and one message is lost. *)
Example two_senders_lose_a_message :
  let q := store_head (store_head (write_slot (write_slot (spsc_new 2) 0 7) 0 8) 1) 1 in
  match recv q with
  | Some (Ok msg, q') => msg = 8 /\ recv q' = Some (Err Empty, q')
  | _ => False
  end.
Proof. by vm_compute. Qed.

(** [len] loads [head] before [tail]: when a message passes through in between, a third
    thread reads a length of nearly the whole range of [usize]. *)
Example stale_len :
  let q := (send (spsc_new 2) 7).2 in
  match recv q with
  | Some (_, q') => wrapping_sub_u64 (head (spsc_new (T := Z) 2)) (tail q') = u64_max
  | None => False
  end.
Proof. by vm_compute. Qed.
End SpscWitness.
