(* ===== verification/Ipc.v ===== *)
(** * Envelopes between the engine and a worker process

    [crates/vo-ipc/src/envelope.rs] (with the errors of [error.rs]): length-prefixed frames
    over a byte stream. The reader is any [Read]: a list of what its successive calls have
    to offer, in pieces of any size. The codecs are parameters: [serde_json] in debug
    builds, [postcard] in release builds. The writer is a byte vector. *)

From S2P Require Import Prelude Identifiers Events KeyEncoding.

(** [cfg!(debug_assertions)]. *)
Inductive Profile : Set := Debug | Release.

(** [enum ConfigError]; a path is its text. *)
Inductive ConfigError : Set :=
| TimeoutMustBePositive (timeout_ms : Z)
| ProgramMissing (path : string)
| ProgramNotExecutable (path : string).

(** The text of a [SchemaViolation]: the literal ones, or a decoder's message. *)
Inductive Violation : Set :=
| VersionNotInteger
| NotString (field : string)
| EmptyField (field : string)
| InvalidCharacters (field : string)
| DataError (message : string).

(** [enum IpcError]. *)
Inductive IpcError : Set :=
| Config (e : ConfigError)
| PipeSetupFailed (detail : string)
| SpawnFailed (detail : string)
| WaitFailed (detail : string)
| Fd4ReadFailed (detail : string)
| Fd3WriteFailed (detail : string)
| StderrReadFailed (detail : string)
| StdoutReadFailed (detail : string)
| SignalFailed (detail : string)
| Timeout (elapsed_ms : Z) (stdout : list Z) (stdout_truncated : bool)
    (stderr : list Z) (stderr_truncated : bool)
| ProcessFailed (exit_code : Z) (stdout : list Z) (stdout_truncated : bool)
    (stderr : list Z) (stderr_truncated : bool)
| BackpressureTimeout (wait_seconds : Z)
| PayloadTooLarge (len : Z)
| InputExceedsCap (size cap : Z)
| IncompleteRead (expected actual : Z)
| InvalidJson (message : string)
| InvalidPostcard (message : string)
| VersionMismatch (version : Z)
| SchemaViolation (violation : Violation)
| IdentityMismatch (expected_instance expected_node actual_instance actual_node : string)
| IoError (message : string)
| AlreadyConsumed
| HandshakeTimeout.

(** [MAX_PAYLOAD_SIZE] and [CURRENT_VERSION]. *)
Definition MAX_PAYLOAD_SIZE : Z := 10485760.
Definition CURRENT_VERSION : Z := 1.

(** [struct VersionNegotiation] with [new] and [negotiate]. *)
Record VersionNegotiation : Set := mkNegotiation { supported_versions : list Z }.
Definition negotiation_new : VersionNegotiation := mkNegotiation [CURRENT_VERSION].
Definition negotiate (n : VersionNegotiation) (peer_version : Z) : result IpcError Z :=
  if decide (peer_version ∈ supported_versions n) then Ok peer_version
  else Err (VersionMismatch peer_version).

(** [negotiate_version]. *)
Definition negotiate_version (peer_version : Z) : result IpcError Z :=
  negotiate negotiation_new peer_version.

(** ** Readers *)

(** What a call of [Read::read] finds: bytes, of which it takes as many as fit, or an
    error. At the end of the list every read returns 0. *)
Inductive ReadEvent : Set :=
| Data (bytes : list Z)
| Failure (message : string).

Definition Reader : Set := list ReadEvent.

(** [reader.read(buf)] with a buffer of [n] bytes. *)
Definition read (n : Z) (r : Reader) : result IpcError (list Z) * Reader :=
  match r with
  | [] => (Ok [], [])
  | Failure m :: r' => (Err (IoError m), r')
  | Data bs :: r' =>
      let rest := drop (Z.to_nat n) bs in
      (Ok (take (Z.to_nat n) bs), match rest with [] => r' | _ => Data rest :: r' end)
  end.

(** The loop that reads up to a length, at most [chunk] bytes at a time; [None] is out of
    fuel. *)
Fixpoint fill_loop (chunk : Z) (fuel : nat) (len : Z) (acc : list Z) (r : Reader)
  : option (result IpcError (list Z) * Reader) :=
  if blen acc <? len then
    match fuel with
    | O => None
    | S fuel' =>
        match read (Z.min chunk (len - blen acc)) r with
        | (Err e, r') => Some (Err e, r')
        | (Ok [], r') => Some (Err (IncompleteRead len (blen acc)), r')
        | (Ok bs, r') => fill_loop chunk fuel' len (acc ++ bs) r'
        end
    end
  else Some (Ok acc, r).

(** The loop that reads the header into what is left of its four bytes, and the loop that
    reads the payload by 4096 bytes. Every turn reads at least a byte. *)
Definition read_header (r : Reader) : option (result IpcError (list Z) * Reader) :=
  fill_loop 4 4 4 [] r.
Definition read_payload (len : Z) (r : Reader) : option (result IpcError (list Z) * Reader) :=
  fill_loop 4096 (Z.to_nat len) len [] r.

(** [read_envelope] up to the decoding. *)
Definition read_frame (r : Reader) : option (result IpcError (list Z) * Reader) :=
  match read_header r with
  | None => None
  | Some (Err e, r1) => Some (Err e, r1)
  | Some (Ok header, r1) =>
      let len := from_be_bytes header in
      if MAX_PAYLOAD_SIZE <? len then Some (Err (PayloadTooLarge len), r1)
      else read_payload len r1
  end.

(** ** Codecs and validation *)

(** [id.chars().all(char::is_alphanumeric)], a property of Unicode text. *)
Class UnicodeApi : Type := all_alphanumeric : string -> bool.

(** [serde_json] and [postcard] at a type of envelopes. A failed [from_value] says whether
    it is a data error. *)
Class WireApi (T : Type) `{J : JsonApi} : Type := {
  json_to_vec : T -> result string (list Z);
  json_from_slice : list Z -> result string Value;
  json_from_value : Value -> result (bool * string) T;
  postcard_to_allocvec : T -> result string (list Z);
  postcard_from_bytes : list Z -> result string T;
}.

Section Wire.
Context `{J : JsonApi} `{U : UnicodeApi}.

(** [validate_id_field]. *)
Definition validate_id_field (obj : Map) (field : string) : result IpcError unit :=
  match get obj field with
  | None => Ok tt
  | Some val =>
      match as_str val with
      | None => Err (SchemaViolation (NotString field))
      | Some id =>
          if bool_decide (id = "") then Err (SchemaViolation (EmptyField field))
          else if negb (all_alphanumeric id) then Err (SchemaViolation (InvalidCharacters field))
          else Ok tt
      end
  end.

(** The check of the version in [validate_json_schema]. *)
Definition validate_version (obj : Map) : result IpcError unit :=
  match get obj "version" with
  | None => Ok tt
  | Some v =>
      match value_as_u64 v with
      | None => Err (SchemaViolation VersionNotInteger)
      | Some n =>
          if u8_max <? n then Err (VersionMismatch 255)
          else if n =? 1 then Ok tt else Err (VersionMismatch n)
      end
  end.

(** [validate_json_schema]. *)
Definition validate_json_schema (value : Value) : result IpcError unit :=
  match as_object value with
  | None => Ok tt
  | Some obj =>
      let? _ := validate_version obj in
      let? _ := validate_id_field obj "instance_id" in
      validate_id_field obj "node_id"
  end.

Context {T : Type} `{W : !WireApi T}.

(** [serialize_envelope]. *)
Definition serialize_envelope (profile : Profile) (e : T) : result IpcError (list Z) :=
  match profile with
  | Debug => map_err InvalidJson (json_to_vec e)
  | Release => map_err InvalidPostcard (postcard_to_allocvec e)
  end.

(** [deserialize_and_validate]. *)
Definition deserialize_and_validate (profile : Profile) (payload : list Z) : result IpcError T :=
  match profile with
  | Debug =>
      let? value := map_err InvalidJson (json_from_slice (T := T) payload) in
      let? _ := validate_json_schema value in
      map_err (fun e : bool * string => if fst e then SchemaViolation (DataError (snd e)) else InvalidJson (snd e))
        (json_from_value value)
  | Release => map_err InvalidPostcard (postcard_from_bytes payload)
  end.

(** [write_envelope] to a byte vector. *)
Definition write_envelope (profile : Profile) (writer : list Z) (e : T)
  : result IpcError unit * list Z :=
  match serialize_envelope profile e with
  | Err x => (Err x, writer)
  | Ok payload =>
      let len := blen payload in
      if u32_max <? len then (Err (PayloadTooLarge u32_max), writer)
      else if MAX_PAYLOAD_SIZE <? len then (Err (PayloadTooLarge len), writer)
      else (Ok tt, writer ++ be_bytes 4 len ++ payload)
  end.

(** [read_envelope]. *)
Definition read_envelope (profile : Profile) (r : Reader) : option (result IpcError T * Reader) :=
  match read_frame r with
  | None => None
  | Some (Err e, r') => Some (Err e, r')
  | Some (Ok payload, r') => Some (deserialize_and_validate profile payload, r')
  end.
End Wire.

(** ** The engine's side *)

(** [struct TaskError], [struct EffectIntentEnvelope], [enum TaskResult] and
    [struct Fd4Envelope]. *)
Record TaskError `{J : JsonApi} : Type := mkTaskError {
  error_code : string; error_message : string; error_details : option Value }.
Record EffectIntentEnvelope `{J : JsonApi} : Type := mkIntentEnvelope {
  effect_kind : string; effect_params : Value; connector_id : string }.
Inductive TaskResult `{J : JsonApi} : Type :=
| TaskSuccess (output : Value)
| TaskFailure (error : TaskError)
| TaskEffectIntent (intent : EffectIntentEnvelope).
Record Fd4Envelope `{J : JsonApi} : Type := mkFd4 {
  fd4_version : Z;
  fd4_instance_id : string;
  fd4_node_id : string;
  fd4_result : TaskResult;
}.

Section Engine.
Context `{J : JsonApi} `{U : UnicodeApi} `{W : !WireApi Fd4Envelope}.

(** [validate_identity]. *)
Definition validate_identity (e : Fd4Envelope) (expected_instance_id expected_node_id : string)
  : result IpcError unit :=
  if bool_decide (fd4_instance_id e <> expected_instance_id)
     || bool_decide (fd4_node_id e <> expected_node_id)
  then Err (IdentityMismatch expected_instance_id expected_node_id
              (fd4_instance_id e) (fd4_node_id e))
  else Ok tt.

(** [engine_receive_envelope]. *)
Definition engine_receive_envelope (profile : Profile) (r : Reader)
    (expected_instance_id expected_node_id : string)
  : option (result IpcError Fd4Envelope * Reader) :=
  match read_envelope profile r with
  | None => None
  | Some (Err e, r') => Some (Err e, r')
  | Some (Ok e, r') =>
      Some (let? _ := validate_identity e expected_instance_id expected_node_id in Ok e, r')
  end.
End Engine.

(** ** Streams *)

Section Streams.
Implicit Types (r : Reader) (bs : list Z).

(** The bytes a reader has to offer. *)
Definition bytes_of r : list Z :=
  concat (map (fun ev => match ev with Data bs => bs | Failure _ => [] end) r).

(** A reader that does not fail and returns 0 only at the end. *)
Definition reliable r : Prop := Forall (fun ev => exists b bs, ev = Data (b :: bs)) r.

Lemma read_reliable n r :
  0 < n -> reliable r ->
  exists bs r', read n r = (Ok bs, r') /\ reliable r' /\ bytes_of r = bs ++ bytes_of r' /\
    blen bs <= n /\ (bs = [] -> bytes_of r = []).
Proof.
  intros Hn [|ev r' (b & bs & ->) Hr].
  { exists [], []. split; [done|]. split; [constructor|]. split_and!; [done|unfold blen; cbn; lia|done]. }
  cbn [read]. eexists _, _. split; [done|]. split.
  - destruct (drop (Z.to_nat n) (b :: bs)) eqn:E; [done|]. constructor; [by eauto|done].
  - split; [|split].
    + change (bytes_of (Data (b :: bs) :: r')) with ((b :: bs) ++ bytes_of r').
      rewrite <- (take_drop (Z.to_nat n) (b :: bs)) at 1. rewrite <- app_assoc. f_equal.
      by destruct (drop (Z.to_nat n) (b :: bs)).
    + unfold blen. rewrite length_take. lia.
    + destruct (Z.to_nat n) eqn:E; [lia|]. done.
Qed.

(** Filling from a reliable reader: exactly the bytes asked for, or the number there was. *)
Lemma fill_loop_reliable chunk fuel len acc r :
  0 < chunk -> reliable r -> blen acc <= len -> (Z.to_nat (len - blen acc) <= fuel)%nat ->
  let missing := Z.to_nat (len - blen acc) in
  exists r', reliable r' /\
    if decide (missing <= length (bytes_of r))%nat then
      fill_loop chunk fuel len acc r = Some (Ok (acc ++ take missing (bytes_of r)), r') /\
      bytes_of r' = drop missing (bytes_of r)
    else fill_loop chunk fuel len acc r
           = Some (Err (IncompleteRead len (blen acc + blen (bytes_of r))), r').
Proof.
  intros Hc. revert acc r. induction fuel as [|fuel IH]; intros acc r Hr Hle Hf; cbn zeta.
  - assert (len = blen acc) as -> by lia. rewrite Z.sub_diag. exists r. split; [done|].
    cbn. rewrite Z.ltb_irrefl, app_nil_r. done.
  - cbn [fill_loop]. destruct (blen acc <? len) eqn:E.
    2: { assert (len = blen acc) as -> by lia. rewrite Z.sub_diag. exists r. split; [done|].
         rewrite decide_True by (cbn; lia). cbn. by rewrite app_nil_r. }
    destruct (read_reliable (Z.min chunk (len - blen acc)) r) as (bs & r1 & -> & Hr1 & Hb & Hn & Hnil);
      [lia|done|].
    destruct bs as [|b bs].
    + exists r1. split; [done|]. rewrite Hnil by done. rewrite decide_False by (cbn; lia).
      unfold blen. cbn. by rewrite Z.add_0_r.
    + set (got := b :: bs) in *. assert (0 < blen got) as Hpos by (unfold blen, got; cbn; lia).
      assert (blen (acc ++ got) = blen acc + blen got) as Hlen
        by (unfold blen; rewrite length_app; lia).
      destruct (IH (acc ++ got) r1) as (r' & Hr' & H); [done|lia|lia|].
      exists r'. split; [done|]. rewrite Hlen in H. rewrite Hb, length_app.
      replace (len - (blen acc + blen got)) with (len - blen acc - blen got) in H by lia.
      assert (Z.to_nat (len - blen acc) = (length got + Z.to_nat (len - blen acc - blen got))%nat) as Hm
        by (unfold blen in *; lia).
      rewrite Hm. case_decide as Hd.
      * rewrite decide_True by lia. destruct H as [-> H]. rewrite <- app_assoc.
        rewrite take_app_add, drop_app_add. done.
      * rewrite decide_False by lia. rewrite H. do 4 f_equal. unfold blen. rewrite length_app. lia.
Qed.

(** Any reader: the loop returns, and takes no more than was missing. *)
Lemma read_any n r :
  exists x r' got, read n r = (x, r') /\ bytes_of r = got ++ bytes_of r' /\
    match x with Ok bs => got = bs /\ (0 <= n -> blen bs <= n) | Err _ => got = [] end.
Proof.
  destruct r as [|[bs|m] r]; cbn [read].
  - eexists _, _, []. split; [done|]. split; [done|]. split; [done|]. unfold blen. cbn. lia.
  - eexists _, _, _. split; [done|]. split; [|split; [done|]].
    + change (bytes_of (Data bs :: r)) with (bs ++ bytes_of r).
      rewrite <- (take_drop (Z.to_nat n) bs) at 1. rewrite <- app_assoc. f_equal.
      by destruct (drop (Z.to_nat n) bs).
    + intros Hn. unfold blen. rewrite length_take. lia.
  - by eexists _, _, [].
Qed.

Lemma fill_loop_any chunk fuel len acc r :
  0 < chunk -> (Z.to_nat (len - blen acc) <= fuel)%nat ->
  exists x r' got, fill_loop chunk fuel len acc r = Some (x, r') /\
    bytes_of r = got ++ bytes_of r' /\ blen got <= Z.max 0 (len - blen acc).
Proof.
  intros Hc. revert acc r. induction fuel as [|fuel IH]; intros acc r Hf; cbn [fill_loop].
  - rewrite (proj2 (Z.ltb_ge _ _)) by lia. eexists _, _, []. split; [done|]. split; [done|].
    unfold blen. cbn. lia.
  - destruct (blen acc <? len) eqn:E.
    2: { eexists _, _, []. split; [done|]. split; [done|]. unfold blen. cbn. lia. }
    destruct (read_any (Z.min chunk (len - blen acc)) r) as (x & r1 & got & -> & Hb & Hx).
    destruct x as [[|b bs]|e].
    + destruct Hx as [-> _]. eexists _, _, []. split; [done|]. split; [done|].
      unfold blen. cbn. lia.
    + destruct Hx as [-> Hn]. set (bs' := b :: bs) in *.
      assert (0 < blen bs') as Hpos by (unfold blen, bs'; cbn; lia).
      assert (blen (acc ++ bs') = blen acc + blen bs') as Hlen
        by (unfold blen; rewrite length_app; lia).
      destruct (IH (acc ++ bs') r1) as (x & r' & got & -> & Hb' & Hg); [lia|].
      exists x, r', (bs' ++ got). split; [done|]. rewrite Hb, Hb', app_assoc. split; [done|].
      unfold blen in *. rewrite length_app. lia.
    + subst got. eexists _, _, []. split; [done|]. split; [done|]. unfold blen. cbn. lia.
Qed.

(** The frame of a payload. *)
Definition frame bs : list Z := be_bytes 4 (blen bs) ++ bs.

Lemma frame_length bs : length (frame bs) = (4 + length bs)%nat.
Proof. unfold frame. by rewrite length_app, be_bytes_length. Qed.

Lemma frame_size bs : blen bs <= MAX_PAYLOAD_SIZE -> from_be_bytes (be_bytes 4 (blen bs)) = blen bs.
Proof.
  intros H. apply be_bytes_id. unfold MAX_PAYLOAD_SIZE in H. split; [unfold blen; lia|].
  change (256 ^ Z.of_nat 4) with 4294967296. lia.
Qed.

(** Reading a frame that is followed by anything, or that is cut short. *)
Lemma read_frame_whole r bs rest :
  reliable r -> blen bs <= MAX_PAYLOAD_SIZE -> bytes_of r = frame bs ++ rest ->
  exists r', read_frame r = Some (Ok bs, r') /\ reliable r' /\ bytes_of r' = rest.
Proof.
  intros Hr Hmax Hb. unfold read_frame, read_header, read_payload.
  destruct (fill_loop_reliable 4 4 4 [] r) as (r1 & Hr1 & H1); [lia|done|by vm_compute..|].
  cbn [Z.sub] in H1. change (Z.to_nat (4 - blen [])) with 4%nat in H1.
  assert (bytes_of r = be_bytes 4 (blen bs) ++ (bs ++ rest)) as Hb'
    by (rewrite Hb; unfold frame; by rewrite <- app_assoc).
  rewrite Hb', length_app, be_bytes_length, decide_True in H1 by lia.
  rewrite take_app_length', drop_app_length' in H1 by (by rewrite be_bytes_length).
  destruct H1 as [-> H1]. rewrite app_nil_l, frame_size by done.
  rewrite (proj2 (Z.ltb_ge _ _)) by done.
  destruct (fill_loop_reliable 4096 (Z.to_nat (blen bs)) (blen bs) [] r1) as (r2 & Hr2 & H2);
    [lia|done|unfold blen; cbn; lia|unfold blen; cbn; lia|].
  replace (Z.to_nat (blen bs - blen [])) with (length bs) in H2 by (unfold blen; cbn; lia).
  rewrite H1, length_app, decide_True in H2 by lia.
  rewrite take_app_length, drop_app_length in H2. destruct H2 as [-> H2]. by exists r2.
Qed.

Lemma read_frame_cut r bs n :
  reliable r -> blen bs <= MAX_PAYLOAD_SIZE -> (n < length (frame bs))%nat ->
  bytes_of r = take n (frame bs) ->
  exists r', read_frame r = Some (Err (if (n <? 4)%nat then IncompleteRead 4 (Z.of_nat n)
                                       else IncompleteRead (blen bs) (Z.of_nat n - 4)), r').
Proof.
  intros Hr Hmax Hn Hb. rewrite frame_length in Hn.
  assert (length (bytes_of r) = n) as Hlen by (rewrite Hb, length_take, frame_length; lia).
  unfold read_frame, read_header, read_payload.
  destruct (fill_loop_reliable 4 4 4 [] r) as (r1 & Hr1 & H1); [lia|done|by vm_compute..|].
  cbn [Z.sub] in H1. change (Z.to_nat (4 - blen [])) with 4%nat in H1. rewrite Hlen in H1.
  destruct (n <? 4)%nat eqn:E.
  { apply Nat.ltb_lt in E. rewrite decide_False in H1 by lia. rewrite H1. exists r1.
    do 4 f_equal. unfold blen. cbn. lia. }
  apply Nat.ltb_ge in E. rewrite decide_True in H1 by lia. rewrite Hb in H1.
  unfold frame in H1. rewrite take_app_ge, be_bytes_length in H1 by (rewrite be_bytes_length; lia).
  rewrite take_app_length', drop_app_length' in H1 by (by rewrite be_bytes_length).
  destruct H1 as [-> H1]. rewrite app_nil_l, frame_size by done.
  rewrite (proj2 (Z.ltb_ge _ _)) by done.
  destruct (fill_loop_reliable 4096 (Z.to_nat (blen bs)) (blen bs) [] r1) as (r2 & Hr2 & H2);
    [lia|done|unfold blen; cbn; lia|unfold blen; cbn; lia|].
  replace (Z.to_nat (blen bs - blen [])) with (length bs) in H2 by (unfold blen; cbn; lia).
  assert (length (bytes_of r1) = n - 4)%nat as Hlen1 by (rewrite H1, length_take; lia).
  rewrite decide_False in H2 by lia. rewrite H2. exists r2. do 4 f_equal. unfold blen. rewrite Hlen1. cbn. lia.
Qed.
End Streams.

(** ** Envelopes over streams *)

Section Envelopes.
Context `{J : JsonApi} `{U : UnicodeApi} {T : Type} `{W : !WireApi T}.
Implicit Types (e : T) (es : list T) (r : Reader).

(** The codec and the schema check of the build give an envelope back as it was. *)
Definition reads_back (profile : Profile) e : Prop :=
  forall bs, serialize_envelope profile e = Ok bs -> deserialize_and_validate profile bs = Ok e.

(** One [write_envelope] per envelope, until one fails. *)
Fixpoint write_all (profile : Profile) (writer : list Z) es : result IpcError unit * list Z :=
  match es with
  | [] => (Ok tt, writer)
  | e :: es' =>
      match write_envelope profile writer e with
      | (Err x, w) => (Err x, w)
      | (Ok _, w) => write_all profile w es'
      end
  end.

(** [n] calls of [read_envelope], and what each returned. *)
Fixpoint read_each (profile : Profile) (n : nat) r : option (list (result IpcError T) * Reader) :=
  match n with
  | O => Some ([], r)
  | S n' =>
      match read_envelope profile r with
      | None => None
      | Some (x, r') =>
          match read_each profile n' r' with
          | None => None
          | Some (xs, r'') => Some (x :: xs, r'')
          end
      end
  end.

Lemma write_envelope_ok profile w e w' :
  write_envelope profile w e = (Ok tt, w') ->
  exists bs, serialize_envelope profile e = Ok bs /\ blen bs <= MAX_PAYLOAD_SIZE /\
    w' = w ++ frame bs.
Proof.
  unfold write_envelope. destruct (serialize_envelope profile e) as [bs|]; [|done].
  case_match; [done|]. case_match; [done|]. intros [= <-]. exists bs. split; [done|]. split; [lia|done].
Qed.

(** What successful writes put on the stream. *)
Lemma write_all_frames profile es w0 w :
  write_all profile w0 es = (Ok tt, w) ->
  exists payloads, w = w0 ++ concat (map frame payloads) /\
    Forall2 (fun e bs => serialize_envelope profile e = Ok bs /\ blen bs <= MAX_PAYLOAD_SIZE) es payloads.
Proof.
  revert w0. induction es as [|e es IH]; intros w0 H; cbn in H.
  { injection H as <-. exists []. cbn. by rewrite app_nil_r. }
  destruct (write_envelope profile w0 e) as [[[]|] w1] eqn:E; [|done].
  apply write_envelope_ok in E as (bs & Hs & Hm & ->).
  destruct (IH _ H) as (payloads & -> & HF). exists (bs :: payloads). cbn.
  split; [by rewrite <- app_assoc|]. by constructor.
Qed.

(** C20. Framing keeps messages apart. When a sequence of writes has succeeded, and the
    reader delivers the bytes without an I/O error, in pieces of any size and with any
    bytes following, then as many reads all return, the [k]-th with exactly what decoding
    and validating the bytes that the [k]-th envelope was serialized to gives (an error of
    the codec or of the schema check included, after which the next read is at the next
    frame), and what follows the last frame is left unread. So the reads return the same
    envelopes in the same order wherever the codec of the build and the schema check give
    these envelopes back. *)
Theorem stream_roundtrip profile es w r rest :
  write_all profile [] es = (Ok tt, w) -> reliable r -> bytes_of r = w ++ rest ->
  exists xs r', read_each profile (length es) r = Some (xs, r') /\
    reliable r' /\ bytes_of r' = rest /\
    Forall2 (fun e x => exists payload, serialize_envelope profile e = Ok payload /\
               x = deserialize_and_validate profile payload) es xs /\
    (Forall (reads_back profile) es -> xs = Ok <$> es).
Proof.
  intros Hw Hr Hb. apply write_all_frames in Hw as (payloads & -> & HF). cbn [app] in Hb.
  revert r Hr Hb. induction HF as [|e bs es payloads [Hs Hm] _ IH]; intros r Hr Hb.
  { exists [], r. by split_and!. }
  cbn in Hb. rewrite <- app_assoc in Hb.
  destruct (read_frame_whole r bs _ Hr Hm Hb) as (r1 & Hf & Hr1 & Hb1).
  destruct (IH r1 Hr1 Hb1) as (xs & r' & Hall & Hr' & Hb' & HF & Hback).
  exists (deserialize_and_validate profile bs :: xs), r'. split_and!; [|done|done|constructor; eauto|].
  - cbn [read_each length]. unfold read_envelope. by rewrite Hf, Hall.
  - intros [He Hes]%Forall_cons. cbn. by rewrite Hback, (He _ Hs).
Qed.

(** A frame that is cut short is never taken for an envelope: reading it reports how many
    bytes were expected and how many there were, of the header or of the payload. *)
Theorem truncated_frame profile e w r n :
  write_envelope profile [] e = (Ok tt, w) -> reliable r -> (n < length w)%nat ->
  bytes_of r = take n w ->
  exists r', read_envelope (T := T) profile r = Some
    (Err (if (n <? 4)%nat then IncompleteRead 4 (Z.of_nat n)
          else IncompleteRead (blen w - 4) (Z.of_nat n - 4)), r').
Proof.
  intros Hw Hr Hn Hb. apply write_envelope_ok in Hw as (bs & Hs & Hm & ->). cbn [app] in *.
  destruct (read_frame_cut r bs n Hr Hm Hn Hb) as (r' & Hf). exists r'.
  unfold read_envelope. rewrite Hf.
  assert (blen (frame bs) - 4 = blen bs) as -> by (unfold blen; rewrite frame_length; lia). done.
Qed.
End Envelopes.

Section Receive.
Context `{J : JsonApi} `{U : UnicodeApi} `{W : !WireApi Fd4Envelope}.

(** Receiving from any reader, whatever it does: the engine always gets an answer, takes
    at most a header and the largest payload from the stream, and an envelope it accepts
    is of the instance and the node it expects. *)
Theorem receive_envelope_safe profile r instance node :
  exists x r' taken,
    engine_receive_envelope profile r instance node = Some (x, r') /\
    bytes_of r = taken ++ bytes_of r' /\ blen taken <= 4 + MAX_PAYLOAD_SIZE /\
    match x with Ok e => fd4_instance_id e = instance /\ fd4_node_id e = node | Err _ => True end.
Proof.
  assert (exists x r' taken, read_frame r = Some (x, r') /\ bytes_of r = taken ++ bytes_of r' /\
    blen taken <= 4 + MAX_PAYLOAD_SIZE) as (x & r' & taken & Hf & Hb & Ht).
  { unfold read_frame, read_header, read_payload.
    destruct (fill_loop_any 4 4 4 [] r) as (x & r1 & t1 & -> & Hb1 & Ht1); [lia|by vm_compute|].
    change (Z.max 0 (4 - blen [])) with 4 in Ht1.
    assert (0 <= MAX_PAYLOAD_SIZE) by done.
    destruct x as [header|]; [|exists (Err e), r1, t1; split_and!; [done..|lia]].
    case_match; [eexists _, r1, t1; split_and!; [done..|lia]|].
    destruct (fill_loop_any 4096 (Z.to_nat (from_be_bytes header)) (from_be_bytes header) [] r1)
      as (x & r2 & t2 & -> & Hb2 & Ht2); [lia|unfold blen; cbn; lia|].
    exists x, r2, (t1 ++ t2). split; [done|]. rewrite Hb1, Hb2, app_assoc. split; [done|].
    unfold blen in *. rewrite length_app. cbn in Ht2. lia. }
  unfold engine_receive_envelope, read_envelope. rewrite Hf.
  destruct x as [payload|]; [|by exists (Err e), r', taken].
  destruct (deserialize_and_validate profile payload) as [e|e]; [|by exists (Err e), r', taken].
  unfold validate_identity. eexists _, r', taken. split; [done|]. split; [done|]. split; [done|].
  destruct (bool_decide (fd4_instance_id e <> instance) || bool_decide (fd4_node_id e <> node)) eqn:E;
    cbn; [done|]. apply orb_false_iff in E as [E1 E2].
  apply bool_decide_eq_false in E1, E2. split; [by destruct (decide (fd4_instance_id e = instance))|].
  by destruct (decide (fd4_node_id e = node)).
Qed.

(** In a debug build, an object with an identifier that is not alphanumeric is rejected,
    although node names may contain dashes and underscores. *)
Lemma debug_rejects_dashes obj v id :
  validate_version obj = Ok tt -> validate_id_field obj "instance_id" = Ok tt ->
  get obj "node_id" = Some v -> as_str v = Some id -> id <> "" -> all_alphanumeric id = false ->
  forall value, as_object value = Some obj ->
  validate_json_schema value = Err (SchemaViolation (InvalidCharacters "node_id")).
Proof.
  intros H1 H2 H3 H4 H5 H6 value Ho. unfold validate_json_schema. rewrite Ho, H1. cbn.
  rewrite H2. cbn. unfold validate_id_field. rewrite H3, H4, bool_decide_false by done.
  by rewrite H6.
Qed.
End Receive.

(** ** Witnesses *)

Module IpcWitness.
Import StringJson.
#[local] Existing Instance string_json.
#[local] Instance ascii_unicode : UnicodeApi := fun s => forallb is_ascii_alphanumeric (chars s).

(** Envelopes that are texts, written as their bytes. *)
#[local] Instance text_wire : WireApi string := {|
  json_to_vec := fun s => Ok (as_bytes s);
  json_from_slice := fun bs => Ok (of_bytes bs);
  json_from_value := fun v => Ok v;
  postcard_to_allocvec := fun s => Ok (as_bytes s);
  postcard_from_bytes := fun bs => Ok (of_bytes bs);
|}.

(** Envelopes of one instance; the release codec writes them and cannot read them. *)
#[local] Instance success_wire : WireApi Fd4Envelope := {|
  json_to_vec := fun e => Ok (as_bytes (fd4_instance_id e));
  json_from_slice := fun bs => Ok (of_bytes bs);
  json_from_value := fun v => Ok (mkFd4 _ 1 v "n" (TaskSuccess "null"));
  postcard_to_allocvec := fun e => Ok (as_bytes (fd4_instance_id e));
  postcard_from_bytes := fun _ => Err "WontImplement";
|}.

Definition success (i : string) : Fd4Envelope := mkFd4 _ 1 i "n" (TaskSuccess "null").
Definition two_results : list Z := frame (as_bytes "ab") ++ frame (as_bytes "c").

(** The bytes arrive in three pieces that cut both frames. *)
Definition pieces : Reader :=
  [Data (take 2 two_results); Data (take 6 (drop 2 two_results)); Data (drop 8 two_results)].

Lemma pieces_reliable : reliable pieces.
Proof. repeat constructor; by eexists _, _. Qed.

Lemma success_reads_back i : reads_back Debug (success i).
Proof.
  intros bs Hs. injection Hs as <-. unfold deserialize_and_validate. cbn [json_from_slice success_wire map_err rbind].
  cbn [fd4_instance_id success]. by rewrite of_bytes_as_bytes.
Qed.

Lemma two_results_written : write_all Debug [] [success "ab"; success "c"] = (Ok tt, two_results).
Proof. vm_compute. reflexivity. Qed.

Lemma stream_roundtrip_witness :
  exists r', read_each (T := Fd4Envelope) Debug 2 pieces = Some ([Ok (success "ab"); Ok (success "c")], r') /\
    reliable r' /\ bytes_of r' = [].
Proof.
  destruct (stream_roundtrip Debug [success "ab"; success "c"] two_results pieces []
    two_results_written pieces_reliable eq_refl) as (xs & r' & Hr & Hrel & Hb & _ & Hback).
  exists r'. rewrite Hback in Hr; [split; [exact Hr|split; [exact Hrel|exact Hb]]|].
  apply Forall_cons; split; [apply success_reads_back|].
  apply Forall_cons; split; [apply success_reads_back|constructor].
Defined.

(** Neither envelope can be decoded; both frames are consumed. *)
Example undecodable_frames :
  (fun x => (map is_ok x.1, bytes_of x.2)) <$> read_each (T := Fd4Envelope) Release 2 pieces
  = Some ([false; false], []).
Proof. vm_compute. reflexivity. Qed.

Lemma truncated_frame_witness :
  exists r', read_envelope (T := string) Release [Data [0; 0; 0; 2; 97]]
    = Some (Err (IncompleteRead 2 1), r').
Proof.
  refine (truncated_frame (T := string) Release "ab" (frame (as_bytes "ab")) [Data [0; 0; 0; 2; 97]] 5
    eq_refl _ _ eq_refl); [repeat constructor; by eexists _, _|by vm_compute; lia].
Defined.
End IpcWitness.
