(* ===== verification/Jobs.v ===== *)
(** * Scheduled jobs and their queue

    [crates/vo-scheduler/src/types/] ([mod.rs], [job.rs], [priority.rs]) and [queue.rs]: the
    job state machine, the retry policy, the check of cron expressions, and the queue of
    jobs with its heap of due times. Times are milliseconds; every reading of the clock is
    an argument. [std]'s [BinaryHeap] is an interface with its documented behaviour, the
    floating-point backoff and [str::split_whitespace] are parameters. *)

From Stdlib Require Import Ascii.
From S2P Require Import Prelude Identifiers.

(** [JobId]: a ULID. *)
Abbreviation JobId := Z.

Module JobState.
(** [enum JobState]. *)
Inductive JobState : Set :=
| Scheduled | Pending | Running | Completed | Failed | Cancelled | Retrying.

#[global] Instance JobState_eq_dec : EqDecision JobState.
Proof. solve_decision. Defined.
End JobState.
Abbreviation JobState := JobState.JobState.

(** [JobState::is_terminal]. *)
Definition job_is_terminal (s : JobState) : bool :=
  match s with JobState.Completed | JobState.Failed | JobState.Cancelled => true | _ => false end.

(** [enum JobKind]. *)
Inductive JobKind : Set := OneShot | Recurring | Delayed.

#[global] Instance JobKind_eq_dec : EqDecision JobKind.
Proof. solve_decision. Defined.

(** [enum JobPriority]; its derived order is that of the discriminants. *)
Inductive JobPriority : Set := Critical | High | Normal | Low | Background.

Definition priority_rank (p : JobPriority) : Z :=
  match p with Critical => 0 | High => 1 | Normal => 2 | Low => 3 | Background => 4 end.

(** [enum SchedulePolicy]. *)
Inductive SchedulePolicy : Set :=
| At (t : Z)
| After (d : Z)
| Cron (expression : string)
| Immediate.

(** The action of an [InvalidTransition]: a state or a name. *)
Inductive Action : Set := ToState (s : JobState) | Named (name : string).

(** [vo_common::SchedulerError]. *)
Inductive SchedulerError : Set :=
| JobNotFound (id : JobId)
| QueueFull
| SchedulerStopped
| InvalidSchedule (message : string)
| ConcurrencyLimitReached
| StorageError (message : string)
| InvalidTransition (from_state : JobState) (action : Action)
| SerializationError (message : string)
| InvalidJobId (message : string).

(** The [f64] of the retry policy: its comparison with 1.0, and the delay in milliseconds
    of [compute_backoff]; [chrono::Duration::from_std], which fails out of range. *)
Class TimeApi : Type := {
  Float : Type;
  below_one : Float -> bool;
  backoff_ms : Float -> Z -> Z -> Z -> Z;
  from_std : Z -> option Z;
}.

Section Job.
Context `{TA : TimeApi}.

(** [struct RetryPolicy]. *)
Record RetryPolicy : Type := mkRetryPolicy {
  max_attempts : Z;
  backoff_multiplier : Float;
  initial_delay : Z;
  max_delay : Z;
}.

(** [enum RetryPolicyError]. *)
Inductive RetryPolicyError : Type :=
| MaxAttemptsZero
| BackoffMultiplierBelowOne (value : Float)
| InitialDelayZero
| MaxDelayBelowInitial.

(** [RetryPolicy::try_new]. *)
Definition retry_policy_try_new (max_attempts : Z) (multiplier : Float) (initial max : Z)
  : result RetryPolicyError RetryPolicy :=
  if max_attempts =? 0 then Err MaxAttemptsZero
  else if below_one multiplier then Err (BackoffMultiplierBelowOne multiplier)
  else if initial =? 0 then Err InitialDelayZero
  else if max <? initial then Err MaxDelayBelowInitial
  else Ok (mkRetryPolicy max_attempts multiplier initial max).

(** [RetryPolicy::compute_backoff] and [can_retry]. *)
Definition compute_backoff (p : RetryPolicy) (attempt : Z) : Z :=
  backoff_ms (backoff_multiplier p) (initial_delay p) (max_delay p) attempt.
Definition can_retry (p : RetryPolicy) (attempt_count : Z) : bool := attempt_count <? max_attempts p.

(** [struct ScheduledJob]; the payload is opaque. *)
Record ScheduledJob : Type := mkJob {
  job_id : JobId;
  kind : JobKind;
  state : JobState;
  priority : JobPriority;
  schedule_policy : SchedulePolicy;
  retry_policy : RetryPolicy;
  attempt_count : Z;
  due_at : Z;
  job_payload : list Z;
  last_error : option string;
  created_at : Z;
  updated_at : Z;
}.

Definition with_state (j : ScheduledJob) (s : JobState) (updated : Z) : ScheduledJob :=
  mkJob (job_id j) (kind j) s (priority j) (schedule_policy j) (retry_policy j) (attempt_count j)
    (due_at j) (job_payload j) (last_error j) (created_at j) updated.
Definition with_attempt (j : ScheduledJob) (attempts due : Z) : ScheduledJob :=
  mkJob (job_id j) (kind j) (state j) (priority j) (schedule_policy j) (retry_policy j) attempts
    due (job_payload j) (last_error j) (created_at j) (updated_at j).
Definition with_error (j : ScheduledJob) (e : option string) : ScheduledJob :=
  mkJob (job_id j) (kind j) (state j) (priority j) (schedule_policy j) (retry_policy j)
    (attempt_count j) (due_at j) (job_payload j) e (created_at j) (updated_at j).
Definition with_schedule (j : ScheduledJob) (p : SchedulePolicy) (due : Z) : ScheduledJob :=
  mkJob (job_id j) (kind j) (state j) (priority j) p (retry_policy j)
    (attempt_count j) due (job_payload j) (last_error j) (created_at j) (updated_at j).

(** The table of [ScheduledJob::transition]. *)
Definition transition_valid (k : JobKind) (from to : JobState) : bool :=
  match from, to with
  | JobState.Scheduled, JobState.Pending => true
  | JobState.Scheduled, JobState.Cancelled => true
  | JobState.Pending, JobState.Running => true
  | JobState.Pending, JobState.Cancelled => true
  | JobState.Running, JobState.Completed => true
  | JobState.Running, JobState.Failed => true
  | JobState.Running, JobState.Cancelled => true
  | JobState.Failed, JobState.Retrying => true
  | JobState.Retrying, JobState.Pending => true
  | JobState.Retrying, JobState.Cancelled => true
  | JobState.Completed, JobState.Scheduled => bool_decide (k = Recurring)
  | _, _ => false
  end.

(** [ScheduledJob::transition]. *)
Definition transition (j : ScheduledJob) (new_state : JobState) (now : Z)
  : result SchedulerError ScheduledJob :=
  if transition_valid (kind j) (state j) new_state then Ok (with_state j new_state now)
  else Err (InvalidTransition (state j) (ToState new_state)).

(** The due time after a backoff; [unwrap_or_default] is no delay. *)
Definition after_backoff (now backoff : Z) : Z := now + default 0 (from_std backoff).

(** [ScheduledJob::apply_retryable_failure]; [attempt_count] is a [u32]. *)
Definition apply_retryable_failure (j : ScheduledJob) (error : string) (now updated : Z)
  : result SchedulerError ScheduledJob :=
  if negb (bool_decide (state j = JobState.Running)) && negb (bool_decide (state j = JobState.Failed)) then
    Err (InvalidTransition (state j) (Named "apply_retryable_failure"))
  else if negb (can_retry (retry_policy j) (attempt_count j)) then
    Err (InvalidTransition (state j) (Named "apply_retryable_failure"))
  else
    let attempts := wrapping_add_u32 (attempt_count j) 1 in
    let due := after_backoff now (compute_backoff (retry_policy j) attempts) in
    Ok (with_error (with_state (with_attempt j attempts due) JobState.Retrying updated) (Some error)).

(** [ScheduledJob::transition_to_retrying]. *)
Definition transition_to_retrying (j : ScheduledJob) (error : string) (now updated : Z)
  : result SchedulerError ScheduledJob :=
  let invalid := Err (InvalidTransition (state j) (Named "transition_to_retrying")) in
  if negb (bool_decide (state j = JobState.Running)) then invalid
  else
    let next_attempt := wrapping_add_u32 (attempt_count j) 1 in
    if negb (can_retry (retry_policy j) next_attempt) then invalid
    else
      let due := after_backoff now (compute_backoff (retry_policy j) next_attempt) in
      Ok (with_error (with_state (with_attempt j next_attempt due) JobState.Retrying updated)
            (Some error)).
End Job.

(** ** Cron expressions *)

(** [str::split_whitespace]. *)
Class WhitespaceApi : Type := split_whitespace : string -> list string.

(** [str::parse::<u32>]. *)
Definition u32_from_str (s : string) : option Z :=
  match u64_from_str s with
  | Some n => if n <=? u32_max then Some n else None
  | None => None
  end.

(** [field.strip_prefix("*/")]. *)
Definition strip_step (field : string) : option string :=
  match chars field with
  | "*"%char :: "/"%char :: rest => Some (of_chars rest)
  | _ => None
  end.

(** [field.split_once('-')]. *)
Fixpoint split_dash (l : list ascii) : option (list ascii * list ascii) :=
  match l with
  | [] => None
  | c :: l' =>
      if bool_decide (c = "-"%char) then Some ([], l')
      else match split_dash l' with Some (a, b) => Some (c :: a, b) | None => None end
  end.

Definition invalid_schedule : SchedulerError := InvalidSchedule "invalid schedule".

(** [validate_cron_field]. *)
Definition validate_cron_field (field : string) (min max : Z) : result SchedulerError bool :=
  if bool_decide (field = "*") then Ok true
  else match strip_step field with
  | Some step_val =>
      let? step := ok_or (u32_from_str step_val) invalid_schedule in
      if (step =? 0) || (max <? step) then Err invalid_schedule else Ok true
  | None =>
      match split_dash (chars field) with
      | Some (a, b) =>
          let? start := ok_or (u32_from_str (of_chars a)) invalid_schedule in
          let? end_ := ok_or (u32_from_str (of_chars b)) invalid_schedule in
          if (start <? min) || (max <? end_) || (end_ <? start) then Err invalid_schedule
          else Ok true
      | None =>
          match u32_from_str field with
          | Some val => if (min <=? val) && (val <=? max) then Ok true else Err invalid_schedule
          | None => Err invalid_schedule
          end
      end
  end.

(** [SchedulePolicy::validate_cron]. *)
Definition validate_cron `{WA : WhitespaceApi} (expr : string) : result SchedulerError unit :=
  match split_whitespace expr with
  | [minute; hour; day; month; weekday] =>
      let? a := validate_cron_field minute 0 59 in
      let? b := validate_cron_field hour 0 23 in
      let? c := validate_cron_field day 1 31 in
      let? d := validate_cron_field month 1 12 in
      let? e := validate_cron_field weekday 0 6 in
      if a && b && c && d && e then Ok tt else Err invalid_schedule
  | _ => Err invalid_schedule
  end.

(** [ScheduledJob::new]; [id] is the generated identifier. *)
Definition job_new `{TA : TimeApi} `{WA : WhitespaceApi} (id : JobId) (now : Z) (k : JobKind)
    (p : JobPriority) (schedule : SchedulePolicy) (retry : RetryPolicy) (payload : list Z)
  : result SchedulerError ScheduledJob :=
  let? _ := match schedule with Cron expression => validate_cron expression | _ => Ok tt end in
  let? due := match schedule with
              | At t => Ok t
              | After d => match from_std d with
                           | Some d' => Ok (now + d')
                           | None => Err (InvalidSchedule "out of range")
                           end
              | _ => Ok now
              end in
  let st := if due <=? now then JobState.Pending else JobState.Scheduled in
  Ok (mkJob id k st p schedule retry 0 due payload None now now).

(** ** The queue *)

(** [struct QueueEntry] with its [Ord]. *)
Record QueueEntry : Set := mkEntry {
  entry_priority : JobPriority;
  entry_due_at : Z;
  entry_job_id : JobId;
}.

Definition entry_cmp (a b : QueueEntry) : comparison :=
  match priority_rank (entry_priority a) ?= priority_rank (entry_priority b) with
  | Eq => entry_due_at b ?= entry_due_at a
  | c => c
  end.

(** [BinaryHeap<QueueEntry>]: a multiset with a greatest element. *)
Class BinaryHeap (H : Type) : Type := {
  heap_entries : H -> list QueueEntry;
  heap_new : H;
  heap_push : H -> QueueEntry -> H;
  heap_peek : H -> option QueueEntry;
  heap_pop : H -> H;
  heap_retain : (QueueEntry -> bool) -> H -> H;
}.

Class BinaryHeapLaws (H : Type) `{BH : !BinaryHeap H} : Prop := {
  heap_new_entries : heap_entries heap_new = [];
  heap_push_entries : forall h e, heap_entries (heap_push h e) ≡ₚ e :: heap_entries h;
  heap_peek_greatest : forall h e, heap_peek h = Some e ->
    e ∈ heap_entries h /\ Forall (fun x => entry_cmp x e <> Gt) (heap_entries h);
  heap_peek_none : forall h, heap_peek h = None -> heap_entries h = [];
  heap_pop_entries : forall h e, heap_peek h = Some e ->
    heap_entries h ≡ₚ e :: heap_entries (heap_pop h);
  heap_retain_entries : forall f h,
    heap_entries (heap_retain f h) ≡ₚ base.filter (fun e => f e = true) (heap_entries h);
}.

(** [HashMap::values]: the jobs in some order. *)
Class HashValues `{TA : TimeApi} : Type :=
  hash_values : gmap JobId ScheduledJob -> list ScheduledJob.

Class HashValuesLaws `{TA : TimeApi} `{HV : !HashValues} : Prop :=
  hash_values_perm : forall m, hash_values m ≡ₚ (map_to_list m).*2.

Section Queue.
Context `{TA : TimeApi} {H : Type} `{BH : !BinaryHeap H}.

(** [struct SchedulerQueue]. *)
Record SchedulerQueue : Type := mkQueue {
  heap : H;
  jobs : gmap JobId ScheduledJob;
  queue_capacity : Z;
}.

Definition with_jobs (q : SchedulerQueue) (m : gmap JobId ScheduledJob) : SchedulerQueue :=
  mkQueue (heap q) m (queue_capacity q).

(** [SchedulerQueue::new]. *)
Definition queue_new (capacity : Z) : SchedulerQueue := mkQueue heap_new ∅ capacity.

(** [SchedulerQueue::len]. *)
Definition queue_len (q : SchedulerQueue) : Z := Z.of_nat (size (jobs q)).

Definition entry_of (j : ScheduledJob) : QueueEntry := mkEntry (priority j) (due_at j) (job_id j).

(** [SchedulerQueue::insert]. *)
Definition queue_insert (q : SchedulerQueue) (j : ScheduledJob)
  : result SchedulerError JobId * SchedulerQueue :=
  if queue_capacity q <=? queue_len q then (Err QueueFull, q)
  else (Ok (job_id j),
        mkQueue (heap_push (heap q) (entry_of j)) (<[job_id j := j]> (jobs q)) (queue_capacity q)).

Definition retain_others (h : H) (id : JobId) : H :=
  heap_retain (fun e => negb (entry_job_id e =? id)) h.

(** [SchedulerQueue::lookup], also [lookup_mut]. *)
Definition queue_lookup (q : SchedulerQueue) (id : JobId) : result SchedulerError ScheduledJob :=
  ok_or (jobs q !! id) (JobNotFound id).

(** [SchedulerQueue::remove]. *)
Definition queue_remove (q : SchedulerQueue) (id : JobId)
  : result SchedulerError ScheduledJob * SchedulerQueue :=
  match queue_lookup q id with
  | Err e => (Err e, q)
  | Ok j => (Ok j, mkQueue (retain_others (heap q) id) (delete id (jobs q)) (queue_capacity q))
  end.

(** [SchedulerQueue::get_state]. *)
Definition queue_get_state (q : SchedulerQueue) (id : JobId) : option JobState :=
  state <$> jobs q !! id.

(** [SchedulerQueue::peek]. *)
Definition queue_peek (q : SchedulerQueue) : option ScheduledJob :=
  e ← heap_peek (heap q); jobs q !! entry_job_id e.

(** [SchedulerQueue::list_by_state]. *)
Definition list_by_state `{HV : !HashValues} (q : SchedulerQueue) (s : JobState) : list ScheduledJob :=
  base.filter (fun j => state j = s) (hash_values (jobs q)).

(** [SchedulerQueue::update_state]. *)
Definition update_state (q : SchedulerQueue) (id : JobId) (new_state : JobState) (now : Z)
  : result SchedulerError unit * SchedulerQueue :=
  match queue_lookup q id with
  | Err e => (Err e, q)
  | Ok j =>
      match transition j new_state now with
      | Err e => (Err e, q)
      | Ok j' => (Ok tt, with_jobs q (<[id := j']> (jobs q)))
      end
  end.

(** [SchedulerQueue::rebuild_heap_entry], also [rebuild_heap_entry_with_due]. *)
Definition rebuild_heap_entry (q : SchedulerQueue) (id : JobId) : SchedulerQueue :=
  let h := retain_others (heap q) id in
  match jobs q !! id with
  | None => mkQueue h (jobs q) (queue_capacity q)
  | Some j => mkQueue (heap_push h (mkEntry (priority j) (due_at j) id)) (jobs q) (queue_capacity q)
  end.

(** [SchedulerQueue::update_schedule]. *)
Definition update_schedule (q : SchedulerQueue) (id : JobId) (new_schedule : SchedulePolicy) (now : Z)
  : result SchedulerError unit * SchedulerQueue :=
  match queue_lookup q id with
  | Err e => (Err e, q)
  | Ok j =>
      if bool_decide (state j = JobState.Running) || bool_decide (state j = JobState.Completed) then
        (Err (InvalidTransition (state j) (Named "update_schedule")), q)
      else
        let due := match new_schedule with
                   | At t => t
                   | After d => now + default 0 (from_std d)
                   | _ => now
                   end in
        (Ok tt, rebuild_heap_entry (with_jobs q (<[id := with_schedule j new_schedule due]> (jobs q))) id)
  end.

(** [SchedulerQueue::cancel]. *)
Definition queue_cancel (q : SchedulerQueue) (id : JobId) (now : Z)
  : result SchedulerError unit * SchedulerQueue :=
  match queue_lookup q id with
  | Err e => (Err e, q)
  | Ok j =>
      if bool_decide (state j = JobState.Completed) || bool_decide (state j = JobState.Failed) then
        (Err (InvalidTransition (state j) (Named "cancel")), q)
      else
        match transition j JobState.Cancelled now with
        | Err e => (Err e, q)
        | Ok j' => (Ok tt, with_jobs q (<[id := j']> (jobs q)))
        end
  end.

(** [SchedulerQueue::retry_transition]. *)
Definition retry_transition (q : SchedulerQueue) (id : JobId) (error : string) (now updated : Z)
  : result SchedulerError unit * SchedulerQueue :=
  match queue_lookup q id with
  | Err e => (Err e, q)
  | Ok j =>
      match apply_retryable_failure j error now updated with
      | Err e => (Err e, q)
      | Ok j' => (Ok tt, rebuild_heap_entry (with_jobs q (<[id := j']> (jobs q))) id)
      end
  end.

(** [api::schedule_job]. *)
Definition schedule_job (q : SchedulerQueue) (j : ScheduledJob) (now : Z)
  : result SchedulerError JobId * SchedulerQueue :=
  let id := job_id j in
  let j' := match schedule_policy j with
            | Immediate => with_state j JobState.Pending (updated_at j)
            | _ => j
            end in
  match queue_insert q j' with
  | (Err e, q1) => (Err e, q1)
  | (Ok _, q1) =>
      match queue_get_state q1 id with
      | Some current =>
          if bool_decide (current = state j') then (Ok id, q1)
          else match update_state q1 id (state j') now with
               | (Ok _, q2) => (Ok id, q2)
               | (Err e, q2) => (Err e, q2)
               end
      | None => (Ok id, q1)
      end
  end.

(** [api::cancel_job_with_drain], also [cancel_job]; [drain] does nothing more. *)
Definition cancel_job_with_drain (q : SchedulerQueue) (id : JobId) (drain : bool) (now : Z)
  : result SchedulerError unit * SchedulerQueue :=
  match queue_get_state q id with
  | None => (Err (JobNotFound id), q)
  | Some s =>
      match s with
      | JobState.Scheduled | JobState.Pending | JobState.Retrying | JobState.Running =>
          update_state q id JobState.Cancelled now
      | JobState.Completed | JobState.Failed | JobState.Cancelled =>
          (Err (InvalidTransition s (Named "cancel")), q)
      end
  end.

(** [api::get_job_status]. *)
Definition get_job_status (q : SchedulerQueue) (id : JobId) : result SchedulerError JobState :=
  ok_or (queue_get_state q id) (JobNotFound id).

(** [api::update_job_schedule]. *)
Definition update_job_schedule (q : SchedulerQueue) (id : JobId) (new_schedule : SchedulePolicy)
    (now updated : Z) : result SchedulerError unit * SchedulerQueue :=
  match queue_get_state q id with
  | None => (Err (JobNotFound id), q)
  | Some s =>
      match s with
      | JobState.Scheduled | JobState.Pending | JobState.Retrying =>
          match update_schedule q id new_schedule now with
          | (Err e, q1) => (Err e, q1)
          | (Ok _, q1) =>
              match new_schedule, s with
              | Immediate, JobState.Scheduled => update_state q1 id JobState.Pending updated
              | _, _ => (Ok tt, q1)
              end
          end
      | JobState.Running | JobState.Completed | JobState.Failed | JobState.Cancelled =>
          (Err (InvalidTransition s (Named "update_schedule")), q)
      end
  end.

(** The loop of [SchedulerQueue::pop_due]; the outer [None] is out of fuel. *)
Fixpoint pop_loop (fuel : nat) (q : SchedulerQueue) (now : Z)
  : option (option ScheduledJob * SchedulerQueue) :=
  match heap_peek (heap q) with
  | None => Some (None, q)
  | Some entry =>
      if now <? entry_due_at entry then Some (None, q)
      else
        match fuel with
        | O => None
        | S fuel' =>
            let h := heap_pop (heap q) in
            match jobs q !! entry_job_id entry with
            | Some j =>
                if due_at j <=? now then
                  Some (Some j, mkQueue h (delete (entry_job_id entry) (jobs q)) (queue_capacity q))
                else pop_loop fuel' (mkQueue h (jobs q) (queue_capacity q)) now
            | None => pop_loop fuel' (mkQueue h (jobs q) (queue_capacity q)) now
            end
        end
  end.

(** [SchedulerQueue::pop_due]: every turn pops an entry. *)
Definition pop_due (q : SchedulerQueue) (now : Z) : option (option ScheduledJob * SchedulerQueue) :=
  pop_loop (length (heap_entries (heap q))) q now.
End Queue.
Arguments SchedulerQueue {_} H.

(** ** Jobs *)

Section JobProperties.
Context `{TA : TimeApi}.
Implicit Types (j : ScheduledJob).

Lemma transition_spec j s now j' :
  transition j s now = Ok j' <-> transition_valid (kind j) (state j) s = true /\ j' = with_state j s now.
Proof. unfold transition. case_match; naive_solver. Qed.

(** The steps of a job. *)
Definition job_step (k : JobKind) (s s' : JobState) : Prop := transition_valid k s s' = true.

(** Where the state machine leads: only recurring jobs leave [Completed], nothing leaves
    [Cancelled], every state but it can be left or is [Completed], and a job that runs was
    pending just before. *)
Theorem job_states_final k s s' :
  rtc (job_step k) s s' ->
  (s = JobState.Cancelled -> s' = JobState.Cancelled) /\
  (s = JobState.Completed -> k <> Recurring -> s' = JobState.Completed) /\
  (s' = JobState.Running -> s <> JobState.Running -> rtc (job_step k) s JobState.Pending) /\
  (s = JobState.Failed -> s' <> JobState.Failed -> rtc (job_step k) JobState.Retrying s').
Proof.
  intros Hr. split_and!.
  - intros ->. inversion Hr as [|? s1 ? H1]; subst; [done|]. by destruct s1.
  - intros -> Hk. inversion Hr as [|? s1 ? H1]; subst; [done|]. unfold job_step in H1.
    destruct s1; cbn in H1; try done. rewrite bool_decide_eq_true in H1. done.
  - intros -> Hs. apply rtc_inv_r in Hr as [?|(s1 & H1 & H2)]; [done|].
    destruct s1; cbn in H2; done.
  - intros -> Hs. inversion Hr as [|? s1 ? H1 H2]; subst; [done|]. by destruct s1.
Qed.
End JobProperties.

(** ** The queue and its heap *)

Section QueueProperties.
Context `{TA : TimeApi} {H : Type} `{BH : !BinaryHeap H} `{HL : !BinaryHeapLaws H}.
Implicit Types (j : ScheduledJob) (q : SchedulerQueue H) (m : gmap JobId ScheduledJob).

Definition entries_of m : list QueueEntry := entry_of <$> (map_to_list m).*2.

(** Every job is stored under its identifier, and the heap holds exactly one entry for
    each, with its priority and due time. *)
Record in_sync q : Prop := {
  sync_ids : forall id j, jobs q !! id = Some j -> job_id j = id;
  sync_heap : heap_entries (heap q) ≡ₚ entries_of (jobs q);
}.

Lemma entries_insert m id j : m !! id = None -> entries_of (<[id := j]> m) ≡ₚ entry_of j :: entries_of m.
Proof. intros Hm. unfold entries_of. by rewrite map_to_list_insert by done. Qed.

Lemma entries_delete m id j : m !! id = Some j -> entries_of m ≡ₚ entry_of j :: entries_of (delete id m).
Proof. intros Hm. unfold entries_of. by rewrite <- (map_to_list_delete m id j) by done. Qed.

Lemma entries_elem m e : e ∈ entries_of m <-> exists id j, m !! id = Some j /\ e = entry_of j.
Proof.
  unfold entries_of. rewrite list_elem_of_fmap. split.
  - intros (j & -> & ((id & j') & -> & Hin)%list_elem_of_fmap). cbn.
    apply elem_of_map_to_list in Hin. eauto.
  - intros (id & j & Hm & ->). exists j. split; [done|]. apply list_elem_of_fmap.
    exists (id, j). split; [done|]. by apply elem_of_map_to_list.
Qed.

(** Taking the entries of a job out of the heap. *)
Lemma retain_sync q id :
  in_sync q -> heap_entries (retain_others (heap q) id) ≡ₚ entries_of (delete id (jobs q)).
Proof.
  intros [Hids Hheap]. unfold retain_others. rewrite heap_retain_entries, Hheap.
  assert (Forall (fun e => negb (entry_job_id e =? id) = true) (entries_of (delete id (jobs q)))) as Hf.
  { apply Forall_forall. intros e (id' & j & [Hne Hj]%lookup_delete_Some & ->)%entries_elem. cbn.
    rewrite (Hids _ _ Hj). lia. }
  destruct (jobs q !! id) as [j|] eqn:Hj.
  - rewrite (entries_delete _ _ _ Hj), filter_cons_False; [by rewrite (filter_all _ _ Hf)|].
    cbn. rewrite (Hids _ _ Hj), Z.eqb_refl. done.
  - rewrite delete_id in * by done. by rewrite (filter_all _ _ Hf).
Qed.

(** Changing a job without its priority, due time and identifier. *)
Lemma update_sync q id j j' :
  in_sync q -> jobs q !! id = Some j -> entry_of j' = entry_of j ->
  in_sync (with_jobs q (<[id := j']> (jobs q))).
Proof.
  intros [Hids Hheap] Hj He. split; cbn.
  - intros id' x [[<- <-]|[_ Hx]]%lookup_insert_Some; [|by apply Hids].
    rewrite <- (Hids _ _ Hj). by injection He.
  - rewrite Hheap. rewrite (entries_delete _ _ _ Hj), <- insert_delete_eq.
    rewrite entries_insert by apply lookup_delete_eq. by rewrite He.
Qed.

(** Changing a job and rebuilding its entry. *)
Lemma rebuild_sync q id j' :
  in_sync q -> job_id j' = id ->
  in_sync (rebuild_heap_entry (with_jobs q (<[id := j']> (jobs q))) id).
Proof.
  intros Hq Hid. pose proof (retain_sync q id Hq) as Hr. unfold rebuild_heap_entry. cbn.
  rewrite lookup_insert_eq. split; cbn.
  - intros id' x [[<- <-]|[_ Hx]]%lookup_insert_Some; [done|]. by apply Hq.
  - rewrite heap_push_entries, Hr, <- insert_delete_eq, entries_insert by apply lookup_delete_eq.
    by rewrite <- Hid.
Qed.

Lemma with_jobs_id q : with_jobs q (jobs q) = q.
Proof. by destruct q. Qed.

(** The calls of the queue, its own and those of [api.rs]. *)
Inductive QueueOp : Type :=
| OpInsert (j : ScheduledJob)
| OpRemove (id : JobId)
| OpUpdateState (id : JobId) (s : JobState) (now : Z)
| OpUpdateSchedule (id : JobId) (p : SchedulePolicy) (now : Z)
| OpCancel (id : JobId) (now : Z)
| OpRetry (id : JobId) (error : string) (now updated : Z)
| OpPopDue (now : Z)
| OpScheduleJob (j : ScheduledJob) (now : Z)
| OpCancelJob (id : JobId) (drain : bool) (now : Z)
| OpUpdateJobSchedule (id : JobId) (p : SchedulePolicy) (now updated : Z).

(** A call; [None] is a call that does not return. *)
Definition queue_exec q (op : QueueOp) : option (SchedulerQueue H) :=
  match op with
  | OpInsert j => Some (queue_insert q j).2
  | OpRemove id => Some (queue_remove q id).2
  | OpUpdateState id s now => Some (update_state q id s now).2
  | OpUpdateSchedule id p now => Some (update_schedule q id p now).2
  | OpCancel id now => Some (queue_cancel q id now).2
  | OpRetry id error now updated => Some (retry_transition q id error now updated).2
  | OpPopDue now => snd <$> pop_due q now
  | OpScheduleJob j now => Some (schedule_job q j now).2
  | OpCancelJob id drain now => Some (cancel_job_with_drain q id drain now).2
  | OpUpdateJobSchedule id p now updated => Some (update_job_schedule q id p now updated).2
  end.

(** Inserted jobs have identifiers that are not in the queue. *)
Definition op_fresh q (op : QueueOp) : Prop :=
  match op with OpInsert j | OpScheduleJob j _ => jobs q !! job_id j = None | _ => True end.

Fixpoint queue_run q (ops : list QueueOp) : option (SchedulerQueue H) :=
  match ops with [] => Some q | op :: ops' => q' ← queue_exec q op; queue_run q' ops' end.

Fixpoint ops_fresh q (ops : list QueueOp) : Prop :=
  match ops with
  | [] => True
  | op :: ops' => op_fresh q op /\ forall q', queue_exec q op = Some q' -> ops_fresh q' ops'
  end.

Lemma pop_due_sync q now :
  in_sync q ->
  match heap_peek (heap q) with
  | None => pop_due q now = Some (None, q) /\ jobs q = ∅
  | Some e => exists j, jobs q !! job_id j = Some j /\ e = entry_of j /\
      (forall id j', jobs q !! id = Some j' -> entry_cmp (entry_of j') (entry_of j) <> Gt) /\
      let q' := mkQueue (heap_pop (heap q)) (delete (job_id j) (jobs q)) (queue_capacity q) in
      in_sync q' /\
      pop_due q now = if now <? due_at j then Some (None, q) else Some (Some j, q')
  end.
Proof.
  intros [Hids Hheap]. unfold pop_due. destruct (heap_peek (heap q)) as [e|] eqn:Hp.
  - destruct (heap_peek_greatest _ _ Hp) as [Hin Hmax]. rewrite Hheap in Hin.
    apply entries_elem in Hin as (id & j & Hj & ->). pose proof (Hids _ _ Hj) as Hid. subst id.
    exists j. split; [done|]. split; [done|]. split; [|cbn zeta; split].
    + intros id' j' Hj'. rewrite Hheap in Hmax.
      eapply Forall_forall in Hmax; [exact Hmax|]. apply entries_elem. eauto.
    + split; cbn; [intros id' j' [_ Hj']%lookup_delete_Some; by apply Hids|].
      apply (Permutation_cons_inv (a := entry_of j)).
      rewrite <- (heap_pop_entries _ _ Hp), Hheap. by apply entries_delete.
    + destruct (heap_entries (heap q)) as [|x l] eqn:El.
      { exfalso. apply Permutation_nil_l in Hheap. symmetry in Hheap.
        assert (entry_of j ∈ entries_of (jobs q)) as Hx by (apply entries_elem; eauto).
        rewrite Hheap in Hx. by apply elem_of_nil in Hx. }
      cbn [length pop_loop]. rewrite Hp. cbn [entry_of entry_due_at entry_job_id].
      destruct (now <? due_at j) eqn:E; [done|]. rewrite Hj.
      by rewrite (proj2 (Z.leb_le _ _)) by lia.
  - split.
    + destruct (length (heap_entries (heap q))); cbn; by rewrite Hp.
    + apply heap_peek_none in Hp. rewrite Hp in Hheap. symmetry in Hheap.
      apply Permutation_nil_r in Hheap. apply map_eq. intros id. rewrite lookup_empty.
      destruct (jobs q !! id) as [j|] eqn:Hj; [|done].
      assert (entry_of j ∈ entries_of (jobs q)) as Hx by (apply entries_elem; eauto).
      rewrite Hheap in Hx. by apply elem_of_nil in Hx.
Qed.

Lemma insert_sync q j :
  in_sync q -> jobs q !! job_id j = None -> in_sync (queue_insert q j).2.
Proof.
  intros [Hids Hheap] Hj. unfold queue_insert. case_match; [done|]. split; cbn.
  - intros id x [[<- <-]|[_ Hx]]%lookup_insert_Some; [done|]. by apply Hids.
  - by rewrite heap_push_entries, Hheap, entries_insert by done.
Qed.

Lemma remove_sync q id : in_sync q -> in_sync (queue_remove q id).2.
Proof.
  intros Hq. pose proof (retain_sync q id Hq) as Hr. unfold queue_remove, queue_lookup.
  destruct (jobs q !! id) eqn:E; cbn; [|done]. split; cbn; [|done].
  intros id' j' [_ Hj']%lookup_delete_Some. by apply Hq.
Qed.

Lemma transition_sync q id j s now j' :
  in_sync q -> jobs q !! id = Some j -> transition j s now = Ok j' ->
  in_sync (with_jobs q (<[id := j']> (jobs q))).
Proof. intros Hq Hj [_ ->]%transition_spec. by eapply update_sync. Qed.

Lemma update_state_sync q id s now : in_sync q -> in_sync (update_state q id s now).2.
Proof.
  intros Hq. unfold update_state, queue_lookup. destruct (jobs q !! id) as [j|] eqn:Hj; cbn; [|done].
  destruct (transition j s now) eqn:Ht; [|done]. by eapply transition_sync.
Qed.

Lemma update_schedule_sync q id p now : in_sync q -> in_sync (update_schedule q id p now).2.
Proof.
  intros Hq. unfold update_schedule, queue_lookup. destruct (jobs q !! id) as [j|] eqn:Hj; cbn; [|done].
  destruct (bool_decide _ || bool_decide _); [done|].
  apply rebuild_sync; [done|]. exact (sync_ids _ Hq _ _ Hj).
Qed.

Lemma cancel_sync q id now : in_sync q -> in_sync (queue_cancel q id now).2.
Proof.
  intros Hq. unfold queue_cancel, queue_lookup. destruct (jobs q !! id) as [j|] eqn:Hj; cbn; [|done].
  destruct (bool_decide _ || bool_decide _); [done|].
  destruct (transition j _ now) eqn:Ht; [|done]. by eapply transition_sync.
Qed.

Lemma retry_sync q id error now updated : in_sync q -> in_sync (retry_transition q id error now updated).2.
Proof.
  intros Hq. unfold retry_transition, queue_lookup. destruct (jobs q !! id) as [j|] eqn:Hj; cbn; [|done].
  unfold apply_retryable_failure. destruct (negb _ && negb _); [done|].
  destruct (negb _); [done|]. apply rebuild_sync; [done|]. exact (sync_ids _ Hq _ _ Hj).
Qed.

Lemma schedule_sync q j now :
  in_sync q -> jobs q !! job_id j = None -> in_sync (schedule_job q j now).2.
Proof.
  intros Hq Hj. unfold schedule_job. set (j' := match schedule_policy j with Immediate => _ | _ => _ end).
  assert (job_id j' = job_id j) as Hid by (subst j'; by destruct (schedule_policy j)).
  pose proof (insert_sync q j' Hq ltac:(by rewrite Hid)) as Hi.
  destruct (queue_insert q j') as [[id|e] q1]; [|done]. cbn [snd] in Hi.
  destruct (queue_get_state q1 (job_id j)) as [s|]; [|done]. case_bool_decide; [done|].
  pose proof (update_state_sync q1 (job_id j) (state j') now Hi) as Hu. by destruct (update_state _ _ _ _) as [[]].
Qed.

Lemma update_job_sync q id p now updated : in_sync q -> in_sync (update_job_schedule q id p now updated).2.
Proof.
  intros Hq. unfold update_job_schedule. destruct (queue_get_state q id) as [s|]; [|done].
  pose proof (update_schedule_sync q id p now Hq) as Hu.
  destruct s; try done; destruct (update_schedule q id p now) as [[]]; try done; destruct p; try done;
    by apply update_state_sync.
Qed.

#[local] Hint Resolve remove_sync update_state_sync update_schedule_sync cancel_sync retry_sync
  update_job_sync insert_sync schedule_sync : vo.

Lemma exec_sync q op : in_sync q -> op_fresh q op ->
  exists q', queue_exec q op = Some q' /\ in_sync q'.
Proof.
  intros Hq Hf. destruct op; cbn [queue_exec op_fresh] in *; try (eexists; split; [done|]; by auto with vo).
  - pose proof (pop_due_sync q now Hq) as Hp. destruct (heap_peek (heap q)).
    + destruct Hp as (j & _ & _ & _ & Hs & ->). case_match; cbn; by eexists.
    + destruct Hp as [-> _]. by exists q.
  - eexists. split; [done|]. unfold cancel_job_with_drain. destruct (queue_get_state q id) as [s|]; [|done].
    destruct s; auto with vo.
Qed.

Lemma sync_new capacity : in_sync (queue_new capacity).
Proof.
  split; cbn; [intros id j; by rewrite lookup_empty|].
  by rewrite heap_new_entries.
Qed.

Lemma run_sync q ops : in_sync q -> ops_fresh q ops ->
  exists q', queue_run q ops = Some q' /\ in_sync q'.
Proof.
  revert q. induction ops as [|op ops IH]; intros q Hq Hf; [by exists q|]. destruct Hf as [Hf Hrest].
  destruct (exec_sync q op Hq Hf) as (q1 & E & Hq1). cbn. rewrite E. cbn. apply IH; auto.
Qed.

(** The queue over any sequence of calls, and what [pop_due] takes out of it. Every call
    returns, and the heap always holds exactly the jobs of the queue. A job that is popped
    is due and is removed, the others stay; but it is the one of the greatest priority
    number, that is the least urgent one, and among those the earliest; and when that one
    is not due nothing is popped, whatever other jobs are due. *)
Theorem pop_due_order capacity ops now :
  ops_fresh (queue_new capacity) ops ->
  exists q, queue_run (queue_new capacity) ops = Some q /\ in_sync q /\
    exists r q', pop_due q now = Some (r, q') /\
    match r with
    | Some j => due_at j <= now /\ jobs q !! job_id j = Some j /\
        jobs q' = delete (job_id j) (jobs q) /\
        forall id j', jobs q !! id = Some j' ->
          priority_rank (priority j') < priority_rank (priority j) \/
          priority_rank (priority j') = priority_rank (priority j) /\ due_at j <= due_at j'
    | None => q' = q /\
        (jobs q = ∅ \/ exists j, jobs q !! job_id j = Some j /\ now < due_at j /\
           forall id j', jobs q !! id = Some j' ->
             priority_rank (priority j') <= priority_rank (priority j))
    end.
Proof.
  intros Hf. destruct (run_sync _ _ (sync_new capacity) Hf) as (q & E & Hq). exists q.
  split; [done|]. split; [done|]. pose proof (pop_due_sync q now Hq) as Hp.
  assert (forall j j', entry_cmp (entry_of j') (entry_of j) <> Gt ->
    priority_rank (priority j') < priority_rank (priority j) \/
    priority_rank (priority j') = priority_rank (priority j) /\ due_at j <= due_at j') as Hcmp.
  { intros j j'. unfold entry_cmp. cbn. destruct (Z.compare_spec (priority_rank (priority j'))
      (priority_rank (priority j))); [|by left|done].
    intros Hd. right. split; [done|]. by apply Z.compare_le_iff in Hd. }
  destruct (heap_peek (heap q)) as [e|].
  - destruct Hp as (j & Hj & _ & Hmax & _ & ->). destruct (now <? due_at j) eqn:Hd.
    + eexists _, _. split; [done|]. split; [done|]. right. exists j. split; [done|]. split; [lia|].
      intros id j' Hj'. destruct (Hcmp j j' (Hmax _ _ Hj')); lia.
    + eexists _, _. split; [done|]. split; [lia|]. split; [done|]. split; [done|].
      intros id j' Hj'. apply Hcmp. by eapply Hmax.
  - destruct Hp as [-> He]. eexists _, _. split; [done|]. split; [done|]. by left.
Qed.
End QueueProperties.

(** ** Cron fields *)

(** What a cron field may be: a star, a step, a range or a number. *)
Definition cron_field_ok (field : string) (min max : Z) : Prop :=
  field = "*" \/
  (exists s n, strip_step field = Some s /\ u32_from_str s = Some n /\ 1 <= n <= max) \/
  (strip_step field = None /\ field <> "*" /\ exists a b x y,
     split_dash (chars field) = Some (a, b) /\ u32_from_str (of_chars a) = Some x /\
     u32_from_str (of_chars b) = Some y /\ min <= x <= y /\ y <= max) \/
  (strip_step field = None /\ field <> "*" /\ split_dash (chars field) = None /\
     exists n, u32_from_str field = Some n /\ min <= n <= max).

Lemma u32_from_str_range s n : u32_from_str s = Some n -> 0 <= n <= u32_max.
Proof.
  unfold u32_from_str. destruct (u64_from_str s) as [m|] eqn:E; [|done].
  apply u64_from_str_range in E. case_match; [|done]. intros [= <-]. ulia.
Qed.

Lemma validate_cron_field_spec field min max :
  match validate_cron_field field min max with
  | Ok b => b = true /\ cron_field_ok field min max
  | Err e => e = invalid_schedule /\ ~ cron_field_ok field min max
  end.
Proof.
  unfold validate_cron_field, cron_field_ok. destruct (decide (field = "*")) as [->|Hstar].
  { rewrite bool_decide_true by done. split; [done|]. by left. }
  rewrite bool_decide_false by done. destruct (strip_step field) as [s|] eqn:Es.
  - destruct (u32_from_str s) as [n|] eqn:En; cbn; [|split; [done|]; naive_solver].
    pose proof (u32_from_str_range _ _ En). destruct ((n =? 0) || (max <? n)) eqn:E.
    + split; [done|]. naive_solver lia.
    + split; [done|]. right. left. exists s, n. split_and!; [done..|lia|lia].
  - destruct (split_dash (chars field)) as [[a b]|] eqn:Ed.
    + destruct (u32_from_str (of_chars a)) as [x|] eqn:Ex; cbn; [|split; [done|]; naive_solver].
      destruct (u32_from_str (of_chars b)) as [y|] eqn:Ey; cbn; [|split; [done|]; naive_solver].
      destruct ((x <? min) || (max <? y) || (y <? x)) eqn:E.
      * split; [done|]. naive_solver lia.
      * split; [done|]. right. right. left. split_and!; [done..|]. exists a, b, x, y.
        split_and!; [done..|lia|lia|lia].
    + destruct (u32_from_str field) as [n|] eqn:En; [|split; [done|]; naive_solver].
      destruct ((min <=? n) && (n <=? max)) eqn:E.
      * split; [done|]. do 3 right. split_and!; [done..|]. exists n. split; [done|lia].
      * split; [done|]. naive_solver lia.
Qed.

(** Cron expressions: exactly those of five fields, each a star, a step of at least one, a
    range or a number within the bounds of its field, are accepted; everything else, also
    lists of values, is refused with the one error. *)
Theorem validate_cron_iff `{WA : WhitespaceApi} expr :
  (validate_cron expr = Ok tt <->
   exists a b c d e, split_whitespace expr = [a; b; c; d; e] /\ cron_field_ok a 0 59 /\
     cron_field_ok b 0 23 /\ cron_field_ok c 1 31 /\ cron_field_ok d 1 12 /\ cron_field_ok e 0 6) /\
  (validate_cron expr = Ok tt \/ validate_cron expr = Err invalid_schedule).
Proof.
  unfold validate_cron.
  destruct (split_whitespace expr) as [|a [|b [|c [|d [|e [|f l]]]]]]; try (split; [naive_solver|by right]).
  pose proof (validate_cron_field_spec a 0 59) as Ha. pose proof (validate_cron_field_spec b 0 23) as Hb.
  pose proof (validate_cron_field_spec c 1 31) as Hc. pose proof (validate_cron_field_spec d 1 12) as Hd.
  pose proof (validate_cron_field_spec e 0 6) as He.
  destruct (validate_cron_field a 0 59) as [?|?]; destruct Ha as [-> Ha]; cbn [rbind];
    [|split; [naive_solver|by right]].
  destruct (validate_cron_field b 0 23) as [?|?]; destruct Hb as [-> Hb]; cbn [rbind];
    [|split; [naive_solver|by right]].
  destruct (validate_cron_field c 1 31) as [?|?]; destruct Hc as [-> Hc]; cbn [rbind];
    [|split; [naive_solver|by right]].
  destruct (validate_cron_field d 1 12) as [?|?]; destruct Hd as [-> Hd]; cbn [rbind];
    [|split; [naive_solver|by right]].
  destruct (validate_cron_field e 0 6) as [?|?]; destruct He as [-> He]; cbn [rbind andb];
    [|split; [naive_solver|by right]].
  split; [|by left]. split; [|done]. intros _. by exists a, b, c, d, e.
Qed.

(** ** A concrete heap *)

Module ListHeap.
#[export] Instance JobPriority_eq_dec : EqDecision JobPriority.
Proof. solve_decision. Defined.
#[export] Instance QueueEntry_eq_dec : EqDecision QueueEntry.
Proof. solve_decision. Defined.

Definition greater (x : QueueEntry) (acc : option QueueEntry) : option QueueEntry :=
  match acc with
  | None => Some x
  | Some y => match entry_cmp x y with Gt => Some x | _ => Some y end
  end.

Definition peek (l : list QueueEntry) : option QueueEntry := foldr greater None l.

Fixpoint remove_one (e : QueueEntry) (l : list QueueEntry) : list QueueEntry :=
  match l with
  | [] => []
  | x :: l' => if decide (x = e) then l' else x :: remove_one e l'
  end.

#[export] Instance list_heap : BinaryHeap (list QueueEntry) := {|
  heap_entries := fun l => l;
  heap_new := [];
  heap_push := fun l e => e :: l;
  heap_peek := peek;
  heap_pop := fun l => match peek l with Some e => remove_one e l | None => l end;
  heap_retain := fun f l => base.filter (fun e => f e = true) l;
|}.

Lemma entry_cmp_trans x y z : entry_cmp x y <> Gt -> entry_cmp y z <> Gt -> entry_cmp x z <> Gt.
Proof.
  unfold entry_cmp. destruct x as [px dx ?], y as [py dy ?], z as [pz dz ?]; cbn.
  destruct (Z.compare_spec (priority_rank px) (priority_rank py)),
    (Z.compare_spec (priority_rank py) (priority_rank pz)),
    (Z.compare_spec (priority_rank px) (priority_rank pz)); try done; try lia;
    rewrite ?Z.compare_le_iff; lia.
Qed.

Lemma entry_cmp_total x y : entry_cmp x y <> Gt \/ entry_cmp y x <> Gt.
Proof.
  unfold entry_cmp. destruct x as [px dx ?], y as [py dy ?]; cbn.
  destruct (Z.compare_spec (priority_rank px) (priority_rank py)),
    (Z.compare_spec (priority_rank py) (priority_rank px)); try lia; try (by left); try (by right).
  rewrite !Z.compare_le_iff. lia.
Qed.

Lemma peek_spec l :
  match peek l with
  | None => l = []
  | Some e => e ∈ l /\ Forall (fun x => entry_cmp x e <> Gt) l
  end.
Proof.
  induction l as [|x l IH]; [done|]. change (peek (x :: l)) with (greater x (peek l)).
  destruct (peek l) as [y|]; unfold greater.
  - destruct IH as [Hy Hl]. destruct (entry_cmp x y) eqn:E; cbn.
    1, 2: split; [by right|]; constructor; [by rewrite E|done].
    split; [by left|]. assert (entry_cmp y x <> Gt) as Hyx
      by (destruct (entry_cmp_total x y); [by rewrite E in *|done]).
    constructor; [destruct (entry_cmp_total x x); done|]. eapply Forall_impl; [done|]. cbn.
    intros z Hz. by eapply entry_cmp_trans.
  - subst l. split; [by left|]. constructor; [destruct (entry_cmp_total x x); done|constructor].
Qed.

Lemma remove_one_perm e l : e ∈ l -> l ≡ₚ e :: remove_one e l.
Proof.
  induction l as [|x l IH]; [by intros ?%elem_of_nil|]. intros Hin. cbn. case_decide as Hx; [by subst|].
  assert (e ∈ l) as Hl by (apply elem_of_cons in Hin as [|]; [congruence|done]).
  rewrite (IH Hl) at 1. apply Permutation_swap.
Qed.

#[export] Instance list_heap_laws : BinaryHeapLaws (list QueueEntry).
Proof.
  split; cbn; try done.
  - intros h e Hp. pose proof (peek_spec h) as Hs. by rewrite Hp in Hs.
  - intros h Hp. pose proof (peek_spec h) as Hs. by rewrite Hp in Hs.
  - intros h e Hp. pose proof (peek_spec h) as Hs. rewrite Hp in *. destruct Hs as [Hin _].
    by apply remove_one_perm.
Qed.
End ListHeap.

(** ** Witnesses *)

Module JobsWitness.
Import ListHeap.
#[local] Instance exact_time : TimeApi := {|
  Float := Z; below_one := fun z => z <? 1;
  backoff_ms := fun f initial max attempt => Z.min (initial * f ^ attempt) max;
  from_std := Some |}.

Definition job (id : Z) (p : JobPriority) (due : Z) : ScheduledJob :=
  mkJob id OneShot JobState.Scheduled p (At due) (mkRetryPolicy 3 2 1000 300000) 0 due [] None 0 0.

(** A critical job that is due and a background job that is not. *)
Definition inserts : list QueueOp := [OpInsert (job 1 Critical 5); OpInsert (job 2 Background 100)].

Lemma inserts_fresh : ops_fresh (H := list QueueEntry) (queue_new 10) inserts.
Proof.
  split; [done|]. intros q [= <-]. split; [done|]. intros q' _. done.
Qed.

Lemma pop_due_order_witness :
  exists q, queue_run (H := list QueueEntry) (queue_new 10) inserts = Some q /\ in_sync q.
Proof.
  destruct (pop_due_order (H := list QueueEntry) 10 inserts 10 inserts_fresh) as (q & Hq & Hs & _).
  exists q. exact (conj Hq Hs).
Defined.

(** The due critical job waits behind the background job that is not due. *)
Example critical_job_blocked :
  match queue_run (H := list QueueEntry) (queue_new 10) inserts with
  | Some q => match pop_due q 10 with Some (None, _) => True | _ => False end
  | None => False
  end.
Proof. by vm_compute. Qed.

Lemma job_states_final_witness : rtc (job_step OneShot) JobState.Retrying JobState.Cancelled.
Proof.
  assert (rtc (job_step OneShot) JobState.Failed JobState.Cancelled) as Hr
    by (apply (rtc_l _ _ JobState.Retrying); [done|by apply rtc_once]).
  exact (proj2 (proj2 (proj2 (job_states_final OneShot _ _ Hr))) eq_refl ltac:(done)).
Defined.
End JobsWitness.
