(* ===== verification/Scheduler.v ===== *)
(** * The background job scheduler

    [crates/vo-scheduler/src/scheduler.rs]: submission, cancellation and the scheduling
    tick, which promotes the jobs that are due, dispatches the pending ones to the workers
    and applies the completions that came back, on the queue of [Jobs]. The two traits of
    the file, [JobStore] and [WorkerDispatch], are classes with the behaviour their
    documentation asks for; the file's own implementations of them, [InMemoryJobStore] and
    [RecordingDispatcher], are instances. The handlers are written in a state and error
    monad; [?] is its bind, and a [Result] that the code looks at is [attempt]. The n-th
    reading of the clock is [utc n]; a reading the code does not make on an error path is
    harmless, since nothing is assumed of the readings. *)

From S2P Require Import Prelude Identifiers Lifecycle Jobs.

(** [trait JobStore], with the contents of the store as the abstract view. *)
Class JobStore `{TA : TimeApi} (St : Type) : Type := {
  stored : St -> gmap JobId ScheduledJob;
  persist : St -> ScheduledJob -> result SchedulerError unit * St;
  store_remove : St -> JobId -> result SchedulerError unit * St;
}.

(** [persist] writes the job as it is, [remove] deletes it; a call that fails changes
    nothing. *)
Class JobStoreLaws `{TA : TimeApi} (St : Type) `{JS : !JobStore St} : Prop := {
  persist_stored : forall s j,
    stored (persist s j).2 = if is_ok (persist s j).1 then <[job_id j := j]> (stored s) else stored s;
  remove_stored : forall s id,
    stored (store_remove s id).2 = if is_ok (store_remove s id).1 then delete id (stored s) else stored s;
}.

(** [trait WorkerDispatch], with the identifiers of the jobs the workers took. *)
Class WorkerDispatch `{TA : TimeApi} (Wk : Type) : Type := {
  accepted : Wk -> list JobId;
  dispatch : Wk -> ScheduledJob -> result SchedulerError unit * Wk;
}.

Class WorkerDispatchLaws `{TA : TimeApi} (Wk : Type) `{WD : !WorkerDispatch Wk} : Prop := {
  dispatch_accepted : forall d j,
    accepted (dispatch d j).2 = if is_ok (dispatch d j).1 then accepted d ++ [job_id j] else accepted d;
}.

(** [Utc::now]: the readings of the clock. *)
Class Clock : Type := utc : nat -> Z.

(** [enum CompletionResult]. *)
Module CompletionResult.
Inductive CompletionResult : Set :=
| Success
| Failed (error : string)
| Cancelled.
End CompletionResult.
Abbreviation CompletionResult := CompletionResult.CompletionResult.

(** [struct TickOutcome]. *)
Record TickOutcome : Set := mkOutcome {
  promoted : Z;
  dispatched : Z;
  completed : Z;
  failed : Z;
  retried : Z;
  rescheduled : Z;
  cancelled : Z;
}.

Definition outcome_default : TickOutcome := mkOutcome 0 0 0 0 0 0 0.
Definition add_completed (o : TickOutcome) : TickOutcome :=
  mkOutcome (promoted o) (dispatched o) (completed o + 1) (failed o) (retried o) (rescheduled o) (cancelled o).
Definition add_failed (o : TickOutcome) : TickOutcome :=
  mkOutcome (promoted o) (dispatched o) (completed o) (failed o + 1) (retried o) (rescheduled o) (cancelled o).
Definition add_retried (o : TickOutcome) : TickOutcome :=
  mkOutcome (promoted o) (dispatched o) (completed o) (failed o) (retried o + 1) (rescheduled o) (cancelled o).
Definition add_rescheduled (o : TickOutcome) : TickOutcome :=
  mkOutcome (promoted o) (dispatched o) (completed o) (failed o) (retried o) (rescheduled o + 1) (cancelled o).
Definition add_cancelled (o : TickOutcome) : TickOutcome :=
  mkOutcome (promoted o) (dispatched o) (completed o) (failed o) (retried o) (rescheduled o) (cancelled o + 1).

(** [Scheduler::job_to_lifecycle], also [JobState::to_lifecycle]. *)
Definition job_to_lifecycle (s : JobState) : LifecycleState.LifecycleState :=
  match s with
  | JobState.Scheduled => LifecycleState.Pending
  | JobState.Pending => LifecycleState.StepScheduled
  | JobState.Running => LifecycleState.StepExecuting
  | JobState.Completed => LifecycleState.Completed
  | JobState.Failed => LifecycleState.Failed
  | JobState.Cancelled => LifecycleState.Cancelled
  | JobState.Retrying => LifecycleState.WaitingForTimer
  end.

Section Scheduler.
Context `{TA : TimeApi} {Hp : Type} `{BH : !BinaryHeap Hp} `{HV : !HashValues}.
Context {St : Type} `{JS : !JobStore St} {Wk : Type} `{WD : !WorkerDispatch Wk} `{CK : Clock}.

(** [struct Scheduler], and how often the clock was read. *)
Record Scheduler : Type := mkScheduler {
  queue : SchedulerQueue Hp;
  store : St;
  dispatcher : Wk;
  capacity : Z;
  readings : nat;
}.

(** [Scheduler::new]. *)
Definition scheduler_new (cap : Z) (st : St) (wk : Wk) : Scheduler :=
  mkScheduler (queue_new cap) st wk cap 0.

Definition SM (A : Type) : Type := Scheduler -> result SchedulerError A * Scheduler.

Definition sret {A} (a : A) : SM A := fun w => (Ok a, w).
Definition sfail {A} (e : SchedulerError) : SM A := fun w => (Err e, w).
Definition sbind {A B} (m : SM A) (k : A -> SM B) : SM B :=
  fun w => match m w with
           | (Ok a, w') => k a w'
           | (Err e, w') => (Err e, w')
           end.
Definition attempt {A} (m : SM A) : SM (result SchedulerError A) :=
  fun w => (Ok (m w).1, (m w).2).
Definition lift {A} (r : result SchedulerError A) : SM A := fun w => (r, w).

#[local] Notation "'let*' x ':=' c 'in' k" := (sbind c (fun x => k))
  (at level 10, x name, c at level 200, k at level 200).

Definition utc_now : SM Z :=
  fun w => (Ok (utc (readings w)),
            mkScheduler (queue w) (store w) (dispatcher w) (capacity w) (S (readings w))).
Definition on_queue {A} (f : SchedulerQueue Hp -> result SchedulerError A * SchedulerQueue Hp) : SM A :=
  fun w => ((f (queue w)).1,
            mkScheduler (f (queue w)).2 (store w) (dispatcher w) (capacity w) (readings w)).
Definition get_queue {A} (f : SchedulerQueue Hp -> A) : SM A := fun w => (Ok (f (queue w)), w).
Definition persist_job (j : ScheduledJob) : SM unit :=
  fun w => ((persist (store w) j).1,
            mkScheduler (queue w) (persist (store w) j).2 (dispatcher w) (capacity w) (readings w)).
Definition dispatch_job (j : ScheduledJob) : SM unit :=
  fun w => ((dispatch (dispatcher w) j).1,
            mkScheduler (queue w) (store w) (dispatch (dispatcher w) j).2 (capacity w) (readings w)).

(** [self.queue.update_state(id, s)?]. *)
Definition set_state (id : JobId) (s : JobState) : SM unit :=
  let* now := utc_now in on_queue (fun q => update_state q id s now).

(** [if let Ok(job) = self.queue.lookup(id) { self.store.persist(job)?; }]. *)
Definition persist_found (id : JobId) : SM unit :=
  let* r := get_queue (fun q => queue_lookup q id) in
  match r with Ok job => persist_job job | Err _ => sret tt end.

(** [if let Ok(job) = self.queue.lookup_mut(id) { .. }]. *)
Definition modify_found (id : JobId) (f : ScheduledJob -> ScheduledJob) : SM unit :=
  on_queue (fun q => match queue_lookup q id with
                     | Ok job => (Ok tt, with_jobs q (<[id := f job]> (jobs q)))
                     | Err _ => (Ok tt, q)
                     end).

(** [Scheduler::submit]. *)
Definition submit (job : ScheduledJob) : SM JobId :=
  fun w =>
  if capacity w <=? queue_len (queue w) then (Err QueueFull, w)
  else
    (let* _ := on_queue (fun q => queue_insert q job) in
     let* r := get_queue (fun q => queue_lookup q (job_id job)) in
     let* persisted_job := lift r in
     let* _ := persist_job persisted_job in
     sret (job_id job)) w.

(** [Scheduler::cancel]. *)
Definition cancel (id : JobId) : SM unit :=
  let* r := get_queue (fun q => ok_or (queue_get_state q id) (JobNotFound id)) in
  let* s := lift r in
  if job_is_terminal s then sfail (InvalidTransition s (Named "Cancel"))
  else
    let* _ := set_state id JobState.Cancelled in
    let* r := get_queue (fun q => queue_lookup q id) in
    let* job := lift r in
    persist_job job.

(** [Scheduler::get_state], [get_job] and [queue_depth]. *)
Definition get_state (w : Scheduler) (id : JobId) : option JobState := queue_get_state (queue w) id.
Definition get_job (w : Scheduler) (id : JobId) : option ScheduledJob :=
  match queue_lookup (queue w) id with Ok j => Some j | Err _ => None end.
Definition queue_depth (w : Scheduler) : Z := queue_len (queue w).

(** The loop of [Scheduler::promote_due_jobs]. *)
Fixpoint promote_loop (due_ids : list JobId) (n : Z) : SM Z :=
  match due_ids with
  | [] => sret n
  | id :: due_ids' =>
      let* r := attempt (set_state id JobState.Pending) in
      match r with
      | Ok _ =>
          let* _ := attempt (persist_found id) in
          promote_loop due_ids' (n + 1)
      | Err _ => promote_loop due_ids' n
      end
  end.

(** [Scheduler::promote_due_jobs]. *)
Definition promote_due_jobs (now : Z) : SM Z :=
  let* due_ids := get_queue (fun q =>
    job_id <$> base.filter (fun j => due_at j <= now) (list_by_state q JobState.Scheduled)) in
  promote_loop due_ids 0.

(** The loop of [Scheduler::dispatch_pending]. *)
Fixpoint dispatch_loop (pending : list JobId) (n : Z) : SM Z :=
  match pending with
  | [] => sret n
  | id :: pending' =>
      let* r := attempt (on_queue (fun q => queue_remove q id)) in
      match r with
      | Err _ => dispatch_loop pending' n
      | Ok job =>
          let* now := utc_now in
          match transition job JobState.Running now with
          | Err _ =>
              let* _ := attempt (on_queue (fun q => queue_insert q job)) in
              dispatch_loop pending' n
          | Ok job =>
              let* _ := persist_job job in
              let* r := attempt (dispatch_job job) in
              match r with
              | Ok _ =>
                  let* _ := on_queue (fun q => queue_insert q job) in
                  dispatch_loop pending' (n + 1)
              | Err e =>
                  let* now := utc_now in
                  let job := with_state job JobState.Pending now in
                  let* _ := persist_job job in
                  let* _ := on_queue (fun q => queue_insert q job) in
                  sfail e
              end
          end
      end
  end.

(** [Scheduler::dispatch_pending]. *)
Definition dispatch_pending : SM Z :=
  let* pending := get_queue (fun q => job_id <$> list_by_state q JobState.Pending) in
  dispatch_loop pending 0.

(** [Scheduler::reschedule_recurring]. *)
Definition reschedule_recurring (job : ScheduledJob) (outcome : TickOutcome) : SM TickOutcome :=
  let id := job_id job in
  let* next_due_at := match schedule_policy job with
                      | Cron _ => utc_now
                      | After d => let* now := utc_now in sret (now + default 1000 (from_std d))
                      | At t => sret t
                      | Immediate => utc_now
                      end in
  let* _ := set_state id JobState.Scheduled in
  let* _ := modify_found id (fun j => with_error (with_attempt j 0 next_due_at) None) in
  let* _ := persist_found id in
  sret (add_rescheduled outcome).

(** [Scheduler::handle_completion]. *)
Definition handle_completion (id : JobId) (outcome : TickOutcome) : SM TickOutcome :=
  let* _ := set_state id JobState.Completed in
  let* _ := persist_found id in
  let outcome := add_completed outcome in
  let* r := get_queue (fun q => queue_lookup q id) in
  match r with
  | Err _ => sret outcome
  | Ok job => if bool_decide (kind job = Recurring) then reschedule_recurring job outcome else sret outcome
  end.

(** [Scheduler::handle_failure]. *)
Definition handle_failure (id : JobId) (error : string) (outcome : TickOutcome) : SM TickOutcome :=
  let* r := get_queue (fun q => queue_lookup q id) in
  match r with
  | Err _ => sret outcome
  | Ok job =>
      let count := attempt_count job in
      let* _ := set_state id JobState.Failed in
      let* _ := modify_found id (fun j => with_error j (Some error)) in
      let* _ := persist_found id in
      let outcome := add_failed outcome in
      if can_retry (retry_policy job) count then
        let* _ := set_state id JobState.Retrying in
        let* _ := set_state id JobState.Pending in
        let backoff := compute_backoff (retry_policy job) count in
        let* now := utc_now in
        let new_due_at := now + default 1000 (from_std backoff) in
        let* _ := modify_found id (fun j => with_attempt j (wrapping_add_u32 count 1) new_due_at) in
        let* _ := persist_found id in
        sret (add_retried outcome)
      else sret outcome
  end.

(** [Scheduler::apply_completions]. *)
Fixpoint apply_completions (completions : list (JobId * CompletionResult)) (outcome : TickOutcome)
  : SM TickOutcome :=
  match completions with
  | [] => sret outcome
  | (id, res) :: completions' =>
      let* current := get_queue (fun q => queue_get_state q id) in
      match current with
      | Some JobState.Running =>
          let* outcome' :=
            match res with
            | CompletionResult.Success => handle_completion id outcome
            | CompletionResult.Failed error => handle_failure id error outcome
            | CompletionResult.Cancelled =>
                let* _ := set_state id JobState.Cancelled in
                let* _ := persist_found id in
                sret (add_cancelled outcome)
            end in
          apply_completions completions' outcome'
      | _ => apply_completions completions' outcome
      end
  end.

(** [Scheduler::tick]. *)
Definition tick (completions : list (JobId * CompletionResult)) : SM TickOutcome :=
  let* now := utc_now in
  let* p := promote_due_jobs now in
  let* d := dispatch_pending in
  apply_completions completions (mkOutcome p d 0 0 0 0 0).

(** The calls of a scheduler. *)
Inductive SchedulerOp : Type :=
| Submit (job : ScheduledJob)
| Cancel (id : JobId)
| Tick (completions : list (JobId * CompletionResult)).

Definition scheduler_exec (w : Scheduler) (op : SchedulerOp) : Scheduler :=
  match op with
  | Submit job => (submit job w).2
  | Cancel id => (cancel id w).2
  | Tick completions => (tick completions w).2
  end.

Definition scheduler_run (w : Scheduler) (ops : list SchedulerOp) : Scheduler :=
  foldl scheduler_exec w ops.
End Scheduler.
Arguments Scheduler {_} Hp St Wk.

(** ** The implementations of the file *)

Section Implementations.
Context `{TA : TimeApi}.

(** [struct InMemoryJobStore]. *)
Record InMemoryJobStore : Type := mkMemory {
  persisted : list ScheduledJob;
  removed : list JobId;
}.

(** Replace the first job with the identifier, or append. *)
Fixpoint memory_put (l : list ScheduledJob) (job : ScheduledJob) : list ScheduledJob :=
  match l with
  | [] => [job]
  | x :: l' => if job_id x =? job_id job then job :: l' else x :: memory_put l' job
  end.

(** [InMemoryJobStore::persist] and [remove]. *)
Definition memory_persist (s : InMemoryJobStore) (job : ScheduledJob)
  : result SchedulerError unit * InMemoryJobStore :=
  (Ok tt, mkMemory (memory_put (persisted s) job) (removed s)).
Definition memory_remove (s : InMemoryJobStore) (id : JobId)
  : result SchedulerError unit * InMemoryJobStore :=
  (Ok tt, mkMemory (base.filter (fun j => job_id j <> id) (persisted s)) (removed s ++ [id])).

#[export] Instance memory_store : JobStore InMemoryJobStore := {|
  stored := fun s => list_to_map ((fun j => (job_id j, j)) <$> persisted s);
  persist := memory_persist;
  store_remove := memory_remove;
|}.

(** [struct RecordingDispatcher] and its [dispatch]. *)
Record RecordingDispatcher : Set := mkRecording {
  recorded : list JobId;
  should_fail : bool;
}.

Definition recording_dispatch (d : RecordingDispatcher) (job : ScheduledJob)
  : result SchedulerError unit * RecordingDispatcher :=
  if should_fail d then (Err QueueFull, d)
  else (Ok tt, mkRecording (recorded d ++ [job_id job]) (should_fail d)).

#[export] Instance recording_dispatcher : WorkerDispatch RecordingDispatcher := {|
  accepted := recorded;
  dispatch := recording_dispatch;
|}.

Definition contents (l : list ScheduledJob) : gmap JobId ScheduledJob :=
  list_to_map ((fun j => (job_id j, j)) <$> l).

Lemma contents_cons x l : contents (x :: l) = <[job_id x := x]> (contents l).
Proof. done. Qed.

Lemma contents_put l job : contents (memory_put l job) = <[job_id job := job]> (contents l).
Proof.
  induction l as [|x l IH]; [done|]. cbn [memory_put].
  destruct (Z.eqb_spec (job_id x) (job_id job)) as [E|Hne]; rewrite !contents_cons.
  - by rewrite E, insert_insert_eq.
  - rewrite IH. by rewrite insert_insert_ne.
Qed.

Lemma contents_filter l id :
  contents (base.filter (fun j => job_id j <> id) l) = delete id (contents l).
Proof.
  induction l as [|x l IH]; [symmetry; apply delete_empty|]. rewrite filter_cons, contents_cons.
  destruct (decide (job_id x = id)) as [<-|Hne].
  - rewrite decide_False by naive_solver. by rewrite IH, delete_insert_eq.
  - rewrite decide_True by done. by rewrite contents_cons, IH, delete_insert_ne.
Qed.

#[export] Instance memory_store_laws : JobStoreLaws InMemoryJobStore.
Proof. split; [intros s job; apply contents_put|intros s id; apply contents_filter]. Qed.

#[export] Instance recording_dispatcher_laws : WorkerDispatchLaws RecordingDispatcher.
Proof. split. intros d j. cbn. unfold recording_dispatch. by destruct (should_fail d). Qed.
End Implementations.

(** ** Symbolic execution of the handlers *)

Section Execution.
Context `{TA : TimeApi} {Hp : Type} `{BH : !BinaryHeap Hp} `{HV : !HashValues}.
Context {St : Type} `{JS : !JobStore St} {Wk : Type} `{WD : !WorkerDispatch Wk} `{CK : Clock}.
Implicit Types (w : Scheduler Hp St Wk) (j : ScheduledJob).

(** The world with another job, and with the clock read. *)
Definition put_job w (id : JobId) j : Scheduler Hp St Wk :=
  mkScheduler (with_jobs (queue w) (<[id := j]> (jobs (queue w)))) (store w) (dispatcher w)
    (capacity w) (readings w).
Definition read_clock w : Scheduler Hp St Wk :=
  mkScheduler (queue w) (store w) (dispatcher w) (capacity w) (S (readings w)).
Definition put_store w (s : St) : Scheduler Hp St Wk :=
  mkScheduler (queue w) s (dispatcher w) (capacity w) (readings w).

Lemma scheduler_eta w :
  mkScheduler (queue w) (store w) (dispatcher w) (capacity w) (readings w) = w.
Proof. by destruct w. Qed.

Lemma set_state_eq id s w :
  set_state id s w =
  match jobs (queue w) !! id with
  | None => (Err (JobNotFound id), read_clock w)
  | Some j =>
      if transition_valid (kind j) (state j) s
      then (Ok tt, put_job (read_clock w) id (with_state j s (utc (readings w))))
      else (Err (InvalidTransition (state j) (ToState s)), read_clock w)
  end.
Proof.
  unfold set_state, sbind, utc_now, on_queue, update_state, queue_lookup. cbn.
  destruct (jobs (queue w) !! id) as [j|]; cbn; [|done]. unfold transition.
  by destruct (transition_valid _ _ _).
Qed.

Lemma modify_found_eq id f w :
  modify_found id f w =
  match jobs (queue w) !! id with
  | None => (Ok tt, w)
  | Some j => (Ok tt, put_job w id (f j))
  end.
Proof.
  unfold modify_found, on_queue, queue_lookup. destruct (jobs (queue w) !! id); cbn; [done|].
  by rewrite scheduler_eta.
Qed.

Lemma persist_found_eq id w :
  persist_found id w =
  match jobs (queue w) !! id with
  | None => (Ok tt, w)
  | Some j => ((persist (store w) j).1, put_store w (persist (store w) j).2)
  end.
Proof.
  unfold persist_found, sbind, get_queue, queue_lookup. by destruct (jobs (queue w) !! id).
Qed.

Lemma take_out_eq id w :
  on_queue (fun q => queue_remove q id) w =
  match jobs (queue w) !! id with
  | None => (Err (JobNotFound id), w)
  | Some j => (Ok j, mkScheduler (mkQueue (retain_others (heap (queue w)) id) (delete id (jobs (queue w)))
                       (queue_capacity (queue w))) (store w) (dispatcher w) (capacity w) (readings w))
  end.
Proof.
  unfold on_queue, queue_remove, queue_lookup. destruct (jobs (queue w) !! id); cbn; [done|].
  by rewrite scheduler_eta.
Qed.

Lemma put_put w id j j' : put_job (put_job w id j) id j' = put_job w id j'.
Proof. unfold put_job, with_jobs. cbn. by rewrite insert_insert_eq. Qed.

(** The world after a job was changed and persisted; [n] is the clock. *)
Definition commit w (id : JobId) j (n : nat) : Scheduler Hp St Wk :=
  mkScheduler (with_jobs (queue w) (<[id := j]> (jobs (queue w)))) (persist (store w) j).2
    (dispatcher w) (capacity w) n.

(** [update_state] and [persist], as the handlers pair them. *)
Lemma set_persist_eq {A} id s (k : unit -> SM A) w :
  sbind (set_state id s) (fun _ => sbind (persist_found id) k) w =
  match jobs (queue w) !! id with
  | None => (Err (JobNotFound id), read_clock w)
  | Some j =>
      if transition_valid (kind j) (state j) s then
        let j' := with_state j s (utc (readings w)) in
        let w' := commit w id j' (S (readings w)) in
        match (persist (store w) j').1 with Ok u => k u w' | Err e => (Err e, w') end
      else (Err (InvalidTransition (state j) (ToState s)), read_clock w)
  end.
Proof.
  unfold sbind at 1. rewrite set_state_eq. destruct (jobs (queue w) !! id) as [j|]; [|done].
  destruct (transition_valid _ _ _); [|done]. unfold sbind. rewrite persist_found_eq.
  cbn [put_job queue with_jobs jobs]. rewrite lookup_insert_eq. cbn [put_job read_clock store].
  by destruct ((persist (store w) _).1).
Qed.

(** The failed job as [handle_failure] stores it, and the job it retries. *)
Definition failed_job j (error : string) (t : Z) : ScheduledJob :=
  with_error (with_state j JobState.Failed t) (Some error).
Definition retried_job j (error : string) (t1 t2 t3 due : Z) : ScheduledJob :=
  with_attempt (with_state (with_state (failed_job j error t1) JobState.Retrying t2) JobState.Pending t3)
    (wrapping_add_u32 (attempt_count j) 1) due.

(** What [handle_failure] leaves behind, on every path. *)
Lemma handle_failure_cases w id j error o w' :
  jobs (queue w) !! id = Some j -> (handle_failure id error o w).2 = w' ->
  let t := utc (readings w) in
  w' = read_clock w \/
  transition_valid (kind j) (state j) JobState.Failed = true /\ exists n,
    let w1 := commit w id (failed_job j error t) n in
    w' = w1 \/
    can_retry (retry_policy j) (attempt_count j) = true /\ exists t2 t3 due n',
      w' = commit w1 id (retried_job j error t t2 t3 due) n'.
Proof.
  intros Hj. unfold handle_failure, sbind at 1, get_queue, queue_lookup. rewrite Hj. cbn [ok_or].
  unfold sbind at 1. rewrite set_state_eq, Hj.
  destruct (transition_valid _ _ _) eqn:Hv; [|by left]. unfold sbind at 1. rewrite modify_found_eq.
  cbn [put_job queue with_jobs jobs]. rewrite lookup_insert_eq.
  unfold sbind at 1. rewrite persist_found_eq. cbn [put_job queue with_jobs jobs].
  rewrite lookup_insert_eq, put_put. cbn [put_job read_clock store].
  change (with_error _ _) with (failed_job j error (utc (readings w))).
  change (put_store _ _) with (commit w id (failed_job j error (utc (readings w))) (S (readings w))).
  set (w1 := commit _ _ _ _).
  enough (jobs (queue w1) !! id = Some (failed_job j error (utc (readings w)))) as Hj1; [|apply lookup_insert_eq].
  destruct ((persist (store w) _).1) as [u|e]; [|intros <-; right; split; [done|]; eexists; by left].
  destruct (can_retry (retry_policy j) (attempt_count j)) eqn:Hr;
    [|intros <-; right; split; [done|]; eexists; by left].
  unfold sbind at 1. rewrite set_state_eq, Hj1. cbn [failed_job with_error with_state kind state transition_valid].
  unfold sbind at 1. rewrite set_state_eq. cbn [put_job queue with_jobs jobs]. rewrite lookup_insert_eq.
  cbn [with_state kind state transition_valid]. unfold sbind at 1, utc_now at 1.
  unfold sbind at 1. rewrite modify_found_eq. cbn [put_job read_clock queue with_jobs jobs].
  rewrite lookup_insert_eq. unfold sbind. rewrite persist_found_eq. cbn [put_job queue with_jobs jobs].
  rewrite lookup_insert_eq. intros Hw'. right. split; [done|]. exists (S (readings w)). right. split; [done|].
  subst w'. destruct ((persist _ _).1); eexists _, _, _, _;
    unfold commit, put_store, put_job, with_jobs; cbn; by rewrite !insert_insert_eq.
Qed.

(** An invariant of the world that a handler keeps, however it ends. *)
Definition keeps {A} (I : Scheduler Hp St Wk -> Prop) (m : SM A) : Prop := forall w, I w -> I (m w).2.

Lemma keeps_ret {A} I (a : A) : keeps I (sret a).
Proof. by intros w. Qed.

Lemma keeps_fail {A} I e : keeps (A := A) I (sfail e).
Proof. by intros w. Qed.

Lemma keeps_lift {A} I (r : result SchedulerError A) : keeps I (lift r).
Proof. by intros w. Qed.

Lemma keeps_get {A} I (f : SchedulerQueue Hp -> A) : keeps I (get_queue f).
Proof. by intros w. Qed.

Lemma keeps_attempt {A} I (m : SM A) : keeps I m -> keeps I (attempt m).
Proof. intros Hm w. apply Hm. Qed.

Lemma keeps_bind {A B} I (m : SM A) (k : A -> SM B) :
  keeps I m -> (forall a, keeps I (k a)) -> keeps I (sbind m k).
Proof.
  intros Hm Hk w Hw. specialize (Hm w Hw). unfold sbind. destruct (m w) as [[a|e] w']; [|done].
  by apply Hk.
Qed.

(** The bind of a query: the continuation may use what was read. *)
Lemma keeps_bind_get {A B} I (f : SchedulerQueue Hp -> A) (k : A -> SM B) :
  (forall w, I w -> I (k (f (queue w)) w).2) -> keeps I (sbind (get_queue f) k).
Proof. intros Hk w Hw. by apply Hk. Qed.
End Execution.

Create HintDb sched.
#[export] Hint Resolve keeps_ret keeps_fail keeps_lift keeps_get keeps_attempt keeps_bind : sched.

(** ** How often a job is dispatched *)

Section Dispatches.
Context `{TA : TimeApi} {Hp : Type} `{BH : !BinaryHeap Hp} `{HV : !HashValues}.
Context {St : Type} `{JS : !JobStore St} {Wk : Type} `{WD : !WorkerDispatch Wk}.
Context `{WL : !WorkerDispatchLaws Wk} `{CK : Clock}.
Variable j0 : ScheduledJob.
Hypothesis one_shot : kind j0 <> Recurring.
Hypothesis policy_width : max_attempts (retry_policy j0) <= u32_max.
Implicit Types (w : Scheduler Hp St Wk) (j : ScheduledJob) (acc : list JobId).

(** What a job in a state may have been dispatched after so many retries. *)
Definition allowance (s : JobState) (attempts : Z) : Z :=
  match s with
  | JobState.Scheduled | JobState.Pending | JobState.Retrying => attempts
  | _ => attempts + 1
  end.

Record job_ok (acc : list JobId) (j : ScheduledJob) : Prop := {
  ok_kind : kind j = kind j0;
  ok_policy : retry_policy j = retry_policy j0;
  ok_attempts : 0 <= attempt_count j <= max_attempts (retry_policy j0);
  ok_spent : Z.of_nat (cnt (job_id j0) acc) <= allowance (state j) (attempt_count j);
}.

(** The job followed is stored under its identifier and within its budget of dispatches. *)
Record followed w : Prop := {
  f_ids : forall id j, jobs (queue w) !! id = Some j -> job_id j = id;
  f_total : Z.of_nat (cnt (job_id j0) (accepted (dispatcher w))) <= max_attempts (retry_policy j0) + 1;
  f_job : forall j, jobs (queue w) !! job_id j0 = Some j -> job_ok (accepted (dispatcher w)) j;
}.

Lemma followed_put w id j :
  followed w -> job_id j = id -> (id = job_id j0 -> job_ok (accepted (dispatcher w)) j) ->
  followed (put_job w id j).
Proof.
  intros [Hids Ht Hj] Hid Hok. split; cbn; [|done|].
  - intros id' x [[<- <-]|[_ Hx]]%lookup_insert_Some; [done|by apply Hids].
  - intros x [[E <-]|[_ Hx]]%lookup_insert_Some; [by apply Hok|by apply Hj].
Qed.

Lemma keeps_persist j : keeps followed (persist_job j).
Proof. intros w [Hids Ht Hj]. by split. Qed.

Lemma keeps_clock : keeps followed utc_now.
Proof. intros w [Hids Ht Hj]. by split. Qed.

Lemma followed_clock w : followed w -> followed (read_clock w).
Proof. intros [Hids Ht Hj]. by split. Qed.

Lemma keeps_persist_found id : keeps followed (persist_found id).
Proof.
  intros w Hw. rewrite persist_found_eq. destruct (jobs (queue w) !! id) as [j|]; [|done].
  exact (keeps_persist j w Hw).
Qed.

(** A transition, other than the one that starts a retry, keeps the budget. *)
Lemma transition_ok acc j s t :
  job_ok acc j -> transition_valid (kind j) (state j) s = true -> s <> JobState.Retrying ->
  job_ok acc (with_state j s t).
Proof.
  intros [Hk Hpl Ha Hn] Hv Hs. split; cbn; [done..|].
  destruct (state j), s; cbn in *; try done; try lia.
  rewrite bool_decide_eq_true in Hv. congruence.
Qed.

Lemma keeps_set_state id s : (id = job_id j0 -> s <> JobState.Retrying) -> keeps followed (set_state id s).
Proof.
  intros Hs w Hw. rewrite set_state_eq. destruct (jobs (queue w) !! id) as [j|] eqn:Hj.
  2: by apply followed_clock.
  destruct (transition_valid _ _ _) eqn:Hv; [|by apply followed_clock].
  apply followed_put; [by apply followed_clock|exact (f_ids _ Hw _ _ Hj)|].
  intros E. apply transition_ok; [|done|by apply Hs]. apply (f_job _ Hw). by rewrite <- E.
Qed.

Lemma keeps_modify id f :
  (forall j, job_id (f j) = job_id j) ->
  (id = job_id j0 -> forall acc j, job_ok acc j -> job_ok acc (f j)) ->
  keeps followed (modify_found id f).
Proof.
  intros Hid Hf w Hw. rewrite modify_found_eq. destruct (jobs (queue w) !! id) as [j|] eqn:Hj; [|done].
  apply followed_put; [done|rewrite Hid; exact (f_ids _ Hw _ _ Hj)|].
  intros E. apply Hf; [done|]. apply (f_job _ Hw). by rewrite <- E.
Qed.

Lemma error_ok acc j e : job_ok acc j -> job_ok acc (with_error j e).
Proof. intros [Hk Hpl Ha Hn]. by split. Qed.

#[local] Hint Resolve keeps_persist keeps_clock keeps_persist_found keeps_set_state keeps_modify
  error_ok : sched.

Lemma keeps_promote_loop ids n : keeps followed (promote_loop ids n).
Proof.
  revert n. induction ids as [|id ids IH]; intros n; cbn [promote_loop]; [auto with sched|].
  apply keeps_bind; [apply keeps_attempt, keeps_set_state; done|].
  intros [?|?]; [|done]. apply keeps_bind; auto with sched.
Qed.

(** Putting a job back that was taken out. *)
Lemma followed_insert w j :
  followed w -> (job_id j = job_id j0 -> job_ok (accepted (dispatcher w)) j) ->
  followed (on_queue (fun q => queue_insert q j) w).2.
Proof.
  intros [Hids Ht Hj] Hok. unfold on_queue, queue_insert. cbn.
  destruct (queue_capacity (queue w) <=? queue_len (queue w)); [by split|]. split; cbn; [|done|].
  - intros id x [[<- <-]|[_ Hx]]%lookup_insert_Some; [done|by apply Hids].
  - intros x [[E <-]|[_ Hx]]%lookup_insert_Some; [by apply Hok|by apply Hj].
Qed.

Lemma keeps_insert w j {A} (k : JobId -> SM A) :
  followed w -> (job_id j = job_id j0 -> job_ok (accepted (dispatcher w)) j) ->
  (forall id, keeps followed (k id)) ->
  followed (sbind (on_queue (fun q => queue_insert q j)) k w).2.
Proof.
  intros Hw Hj Hk. pose proof (followed_insert w j Hw Hj) as Hi. unfold sbind.
  destruct (on_queue _ w) as [[id|e] w']; [by apply Hk|done].
Qed.

(** Taking a job out: it is a job of the queue, and the rest stays. *)
Lemma followed_remove w id :
  followed w ->
  let r := on_queue (fun q => queue_remove q id) w in
  followed r.2 /\ dispatcher r.2 = dispatcher w /\
  forall j, r.1 = Ok j -> jobs (queue w) !! id = Some j /\ job_id j = id.
Proof.
  intros [Hids Ht Hj]. unfold on_queue, queue_remove, queue_lookup. cbn.
  destruct (jobs (queue w) !! id) as [j|] eqn:E; cbn; (split; [|split; [done|]]).
  - split; cbn; [|done|]; intros ?; [intros x|]; intros [_ Hx]%lookup_delete_Some; [by apply Hids|by apply Hj].
  - intros x [= <-]. split; [done|]. by apply Hids.
  - by split.
  - done.
Qed.

(** A dispatch that is accepted takes one from the budget of a running job. *)
Lemma followed_dispatch w j :
  followed w -> state j = JobState.Running ->
  (job_id j = job_id j0 -> jobs (queue w) !! job_id j0 = None /\ kind j = kind j0 /\
     retry_policy j = retry_policy j0 /\ 0 <= attempt_count j <= max_attempts (retry_policy j0) /\
     Z.of_nat (cnt (job_id j0) (accepted (dispatcher w))) <= attempt_count j) ->
  let r := dispatch_job j w in
  followed r.2 /\
  (job_id j = job_id j0 -> forall t,
     job_ok (accepted (dispatcher r.2)) (if is_ok r.1 then j else with_state j JobState.Pending t)).
Proof.
  intros [Hids Ht Hj] Hs Hok. unfold dispatch_job. cbn. pose proof (dispatch_accepted (dispatcher w) j) as Hd.
  destruct (is_ok (dispatch (dispatcher w) j).1) eqn:Er; rewrite Hd.
  - destruct (decide (job_id j = job_id j0)) as [E|Hne].
    + destruct (Hok E) as (Hq & Hk & Hpl & Ha & Hn).
      assert (Z.of_nat (cnt (job_id j0) (accepted (dispatcher w) ++ [job_id j])) <= attempt_count j + 1) as Hn'.
      { rewrite cnt_app, cnt_cons, cnt_nil. case_decide; lia. }
      split.
      * split; cbn; rewrite ?Hd; [done|lia|]. intros x Hx. congruence.
      * intros _ _. split; [done..|]. rewrite Hs. exact Hn'.
    + assert (cnt (job_id j0) (accepted (dispatcher w) ++ [job_id j]) = cnt (job_id j0) (accepted (dispatcher w))) as E.
      { rewrite cnt_app, cnt_cons, cnt_nil, decide_False by done. lia. }
      split; [|done]. split; cbn; rewrite ?Hd, ?E; [done..|].
      intros x Hx. destruct (Hj _ Hx). by split; rewrite ?E.
  - split; [split; cbn; by rewrite ?Hd|]. intros E t. destruct (Hok E) as (Hq & Hk & Hpl & Ha & Hn).
    by split.
Qed.

Lemma keeps_dispatch_loop ids n : keeps followed (dispatch_loop ids n).
Proof.
  revert n. induction ids as [|id ids IH]; intros n w Hw; cbn [dispatch_loop]; [done|].
  destruct (followed_remove w id Hw) as (Hr & Hd & Hok). unfold sbind at 1, attempt at 1. cbn [fst snd].
  destruct (on_queue (fun q => queue_remove q id) w) as [[j|e] w1] eqn:Eq; cbn [fst snd] in *; [|by apply IH].
  destruct (Hok j eq_refl) as [Hj Hid]. unfold sbind at 1, utc_now at 1.
  change (mkScheduler (queue w1) (store w1) (dispatcher w1) (capacity w1) (S (readings w1)))
    with (read_clock w1). apply followed_clock in Hr.
  assert (job_id j = job_id j0 -> job_ok (accepted (dispatcher w1)) j) as Hjok.
  { intros E. rewrite Hd. apply (f_job _ Hw). by rewrite <- E, Hid. }
  assert (jobs (queue w1) !! id = None) as Hgone.
  { assert (w1 = (on_queue (fun q => queue_remove q id) w).2) as -> by (by rewrite Eq).
    unfold on_queue, queue_remove, queue_lookup. rewrite Hj. cbn. apply lookup_delete_eq. }
  destruct (transition j JobState.Running _) as [j1|e] eqn:Et.
  - apply transition_spec in Et as [Hv ->]. set (j1 := with_state j JobState.Running _).
    assert (state j = JobState.Pending) as Hs by (by destruct (state j)).
    unfold sbind at 1. pose proof (keeps_persist j1 _ Hr) as Hp1.
    assert (dispatcher (persist_job j1 (read_clock w1)).2 = dispatcher w1 /\
      queue (persist_job j1 (read_clock w1)).2 = queue w1) as [Hd1 Hq1] by done.
    destruct (persist_job j1 (read_clock w1)) as [[u|e] w2]; cbn [fst snd] in *; [|done].
    destruct (followed_dispatch w2 j1 Hp1 eq_refl) as [Hf Hokd].
    { cbn. intros E. destruct (Hjok E) as [Hk Hpl Ha Hn]. rewrite Hs in Hn. rewrite Hq1, Hd1.
      split; [by rewrite <- E, Hid|]. done. }
    unfold sbind at 1, attempt at 1. cbn [fst snd].
    destruct (dispatch_job j1 w2) as [[u'|e] w3]; cbn [fst snd is_ok] in *.
    + apply keeps_insert; [done|intros E; exact (Hokd E 0)|]. intros _. apply IH.
    + unfold sbind at 1, utc_now at 1. set (j2 := with_state j1 JobState.Pending _).
      change (mkScheduler (queue w3) (store w3) (dispatcher w3) (capacity w3) (S (readings w3)))
        with (read_clock w3). apply followed_clock in Hf.
      unfold sbind at 1. pose proof (keeps_persist j2 _ Hf) as Hp2.
      assert (dispatcher (persist_job j2 (read_clock w3)).2 = dispatcher w3) as Hd2 by done.
      destruct (persist_job j2 (read_clock w3)) as [[u''|e'] w4]; cbn [fst snd] in *; [|done].
      apply keeps_insert; [done| |intros _; apply keeps_fail].
      intros E. rewrite Hd2. exact (Hokd E _).
  - unfold sbind at 1, attempt at 1. cbn [fst snd]. apply IH, followed_insert; [done|exact Hjok].
Qed.

Lemma keeps_reschedule j o : job_id j <> job_id j0 -> keeps followed (reschedule_recurring j o).
Proof.
  intros Hne. unfold reschedule_recurring. apply keeps_bind; [destruct (schedule_policy j); auto with sched|].
  intros due. apply keeps_bind; [by apply keeps_set_state|]. intros _.
  apply keeps_bind; [by apply keeps_modify|]. intros _. apply keeps_bind; auto with sched.
Qed.

Lemma keeps_completion id o : keeps followed (handle_completion id o).
Proof.
  unfold handle_completion. apply keeps_bind; [by apply keeps_set_state|]. intros _.
  apply keeps_bind; [auto with sched|]. intros _. apply keeps_bind_get. intros w Hw.
  unfold queue_lookup. destruct (jobs (queue w) !! id) as [j|] eqn:Hj; cbn [ok_or]; [|done].
  case_bool_decide as Hk; [|done]. apply keeps_reschedule; [|done].
  intros E. pose proof (f_ids _ Hw _ _ Hj) as Hid. rewrite <- Hid, E in Hj.
  destruct (f_job _ Hw _ Hj). congruence.
Qed.

(** A retry: the failed job spends an attempt and is pending again. *)
Lemma retry_ok acc j error t1 t2 t3 due :
  job_ok acc (failed_job j error t1) -> can_retry (retry_policy j) (attempt_count j) = true ->
  job_ok acc (retried_job j error t1 t2 t3 due).
Proof.
  intros [Hk Hpl Ha Hn] Hr. cbn in *. unfold can_retry in Hr. rewrite Hpl in Hr.
  assert (wrapping_add_u32 (attempt_count j) 1 = attempt_count j + 1) as E.
  { unfold wrapping_add_u32, as_u32. apply Z.mod_small. unfold u32_max in *. lia. }
  split; cbn; rewrite ?E; [done|done|lia|done].
Qed.

Lemma followed_commit w id j n :
  followed w -> job_id j = id -> (id = job_id j0 -> job_ok (accepted (dispatcher w)) j) ->
  followed (commit w id j n).
Proof. intros Hw Hid Hok. destruct (followed_put w id j Hw Hid Hok). by split. Qed.

Lemma keeps_failure id error o : keeps followed (handle_failure id error o).
Proof.
  intros w Hw. destruct (jobs (queue w) !! id) as [j|] eqn:Hj.
  2: { unfold handle_failure, sbind at 1, get_queue, queue_lookup. by rewrite Hj. }
  pose proof (f_ids _ Hw _ _ Hj) as Hid.
  destruct (handle_failure_cases w id j error o _ Hj eq_refl) as [->|(Hv & n & Hc)]; [by apply followed_clock|].
  assert (id = job_id j0 -> job_ok (accepted (dispatcher w)) (failed_job j error (utc (readings w)))) as Hok.
  { intros E. apply error_ok, transition_ok; [|done|done]. apply (f_job _ Hw). by rewrite <- E. }
  destruct Hc as [->|(Hr & t2 & t3 & due & n' & ->)].
  - by apply followed_commit.
  - apply followed_commit; [by apply followed_commit|done|]. intros E. by apply retry_ok, Hr; apply Hok.
Qed.

Lemma keeps_apply l o : keeps followed (apply_completions l o).
Proof.
  revert o. induction l as [|[id res] l IH]; intros o; cbn [apply_completions]; [auto with sched|].
  apply keeps_bind; [auto with sched|]. intros [s|]; [|apply IH]. destruct s; try apply IH.
  apply keeps_bind; [|intros ?; apply IH]. destruct res.
  - apply keeps_completion.
  - apply keeps_failure.
  - apply keeps_bind; [by apply keeps_set_state|]. intros _. apply keeps_bind; auto with sched.
Qed.

Lemma keeps_tick l : keeps followed (tick l).
Proof.
  unfold tick. apply keeps_bind; [auto with sched|]. intros now. apply keeps_bind.
  { apply keeps_bind; [auto with sched|]. intros ids. apply keeps_promote_loop. }
  intros p. apply keeps_bind; [|intros d; apply keeps_apply].
  apply keeps_bind; [auto with sched|]. intros ids. apply keeps_dispatch_loop.
Qed.

Lemma keeps_cancel id : keeps followed (cancel id).
Proof.
  unfold cancel. apply keeps_bind; [auto with sched|]. intros r. apply keeps_bind; [auto with sched|].
  intros s. destruct (job_is_terminal s); [auto with sched|].
  apply keeps_bind; [by apply keeps_set_state|]. intros _. apply keeps_bind; [auto with sched|].
  intros r'. apply keeps_bind; auto with sched.
Qed.

Lemma followed_submit w j :
  followed w -> (job_id j = job_id j0 -> job_ok (accepted (dispatcher w)) j) -> followed (submit j w).2.
Proof.
  intros Hw Hj. unfold submit. case_match; [done|]. apply keeps_insert; [done|done|].
  intros id. repeat (apply keeps_bind; [auto with sched|intros ?]). auto with sched.
Qed.

Lemma run_followed w ops :
  followed w -> (forall j, Submit j ∈ ops -> job_id j <> job_id j0) -> followed (scheduler_run w ops).
Proof.
  revert w. induction ops as [|op ops IH]; intros w Hw Hf; [done|]. apply IH; [|set_solver].
  destruct op as [j|id|l]; cbn [scheduler_exec].
  - apply followed_submit; [done|]. intros E. destruct (Hf j); [left|done].
  - by apply keeps_cancel.
  - by apply keeps_tick.
Qed.
End Dispatches.

Section DispatchBound.
Context `{TA : TimeApi} {Hp : Type} `{BH : !BinaryHeap Hp} `{HV : !HashValues}.
Context {St : Type} `{JS : !JobStore St} {Wk : Type} `{WD : !WorkerDispatch Wk}.
Context `{WL : !WorkerDispatchLaws Wk} `{CK : Clock}.
Implicit Types (w : Scheduler Hp St Wk) (j : ScheduledJob).

(** A job without any budget: to be followed by it is to be unknown and never dispatched. *)
Definition no_budget j : ScheduledJob :=
  mkJob (job_id j) (kind j) (state j) (priority j) (schedule_policy j)
    (mkRetryPolicy (-1) (backoff_multiplier (retry_policy j)) 0 0)
    (attempt_count j) (due_at j) (job_payload j) (last_error j) (created_at j) (updated_at j).

Lemma followed_unknown w j :
  followed (no_budget j) w ->
  jobs (queue w) !! job_id j = None /\ cnt (job_id j) (accepted (dispatcher w)) = 0%nat.
Proof.
  intros [_ Ht Hj]. cbn in *. split; [|lia]. destruct (jobs (queue w) !! job_id j) as [x|]; [|done].
  destruct (Hj x eq_refl) as [_ _ Ha _]. cbn in Ha. lia.
Qed.

Lemma followed_known w j :
  0 <= max_attempts (retry_policy j) -> followed (no_budget j) w -> followed j w.
Proof.
  intros Hm Hw. pose proof (f_ids _ _ Hw) as Hids. apply followed_unknown in Hw as [Hj Hn].
  split; [done|lia|]. intros x Hx. congruence.
Qed.

End DispatchBound.

(** ** The store mirrors the queue *)

Section Mirror.
Context `{TA : TimeApi} {Hp : Type} `{BH : !BinaryHeap Hp} `{HV : !HashValues}.
Context {St : Type} `{JS : !JobStore St} `{SL : !JobStoreLaws St} {Wk : Type} `{WD : !WorkerDispatch Wk}.
Context `{CK : Clock}.
Implicit Types (w : Scheduler Hp St Wk) (j : ScheduledJob).

Variable cap : Z.

(** The store never fails. *)
Definition reliable : Prop := forall (s : St) j, (persist s j).1 = Ok tt.

Record mirror w : Prop := {
  mi_stored : stored (store w) = jobs (queue w);
  mi_ids : forall id j, jobs (queue w) !! id = Some j -> job_id j = id;
  mi_capacity : queue_capacity (queue w) = capacity w;
  mi_len : queue_len (queue w) <= capacity w;
  mi_fixed : capacity w = cap;
}.

Context (Hrel : reliable).

(** What the store holds after a job was persisted. *)
Lemma persist_reliable s j : stored (persist s j).2 = <[job_id j := j]> (stored s).
Proof. rewrite persist_stored. by rewrite Hrel. Qed.

Lemma size_insert_same {A} (m : gmap JobId A) id x : is_Some (m !! id) -> size (<[id := x]> m) = size m.
Proof. intros [y Hy]. by rewrite map_size_insert_Some. Qed.

(** A job that was changed in the queue and in the store. *)
Lemma mirror_update w w' id j :
  mirror w -> is_Some (jobs (queue w) !! id) -> job_id j = id ->
  jobs (queue w') = <[id := j]> (jobs (queue w)) ->
  stored (store w') = <[id := j]> (stored (store w)) ->
  queue_capacity (queue w') = queue_capacity (queue w) -> capacity w' = capacity w -> mirror w'.
Proof.
  intros [Hs Hids Hc Hl Hcp] Hin Hid Hj Hst Hqc Hcap. split.
  - by rewrite Hj, Hst, Hs.
  - intros id' x. rewrite Hj. intros [[<- <-]|[_ Hx]]%lookup_insert_Some; [done|by apply Hids].
  - congruence.
  - unfold queue_len in *. by rewrite Hj, size_insert_same, Hcap by done.
  - congruence.
Qed.

Lemma mirror_clock w : mirror w -> mirror (read_clock w).
Proof. intros [Hs Hids Hc Hl Hcp]. by split. Qed.

Lemma mirror_commit w id j n :
  mirror w -> is_Some (jobs (queue w) !! id) -> job_id j = id -> mirror (commit w id j n).
Proof.
  intros Hw Hin Hid. apply (mirror_update w _ id j); try done. cbn. by rewrite persist_reliable, Hid.
Qed.

(** A state change that is persisted, then the rest. *)
Lemma mirror_set_persist {A} id s (k : unit -> SM A) w :
  mirror w ->
  (forall w' j, jobs (queue w') !! id = Some j -> state j = s -> mirror w' -> mirror (k tt w').2) ->
  mirror (sbind (set_state id s) (fun _ => sbind (persist_found id) k) w).2.
Proof.
  intros Hw Hk. rewrite set_persist_eq. destruct (jobs (queue w) !! id) as [j|] eqn:Hj.
  2: by apply mirror_clock.
  destruct (transition_valid _ _ _); [|by apply mirror_clock]. cbn zeta. rewrite Hrel.
  eapply Hk; [apply lookup_insert_eq|done|]. apply mirror_commit; [done|by rewrite Hj|].
  exact (mi_ids _ Hw _ _ Hj).
Qed.

Lemma mirror_promote_loop ids n : keeps mirror (promote_loop ids n).
Proof.
  revert n. induction ids as [|id ids IH]; intros n w Hw; cbn [promote_loop]; [done|].
  pose proof (mirror_set_persist id JobState.Pending (fun _ => sret tt) w Hw) as Hm.
  rewrite set_persist_eq in Hm. unfold sbind at 1, attempt at 1. rewrite set_state_eq.
  destruct (jobs (queue w) !! id) as [j|] eqn:Hj; [|by apply IH, mirror_clock].
  destruct (transition_valid _ _ _); [|by apply IH, mirror_clock]. cbn [fst snd].
  unfold sbind at 1, attempt at 1. rewrite persist_found_eq. cbn [put_job queue with_jobs jobs].
  rewrite lookup_insert_eq. apply IH. cbn zeta in Hm. rewrite Hrel in Hm. by apply Hm.
Qed.

(** Putting a job back that was just taken out: there is room for it. *)
Lemma insert_back w id j x h :
  mirror w -> jobs (queue w) !! id = Some j -> job_id x = id ->
  queue_insert (mkQueue h (delete id (jobs (queue w))) (queue_capacity (queue w))) x =
  (Ok id, mkQueue (heap_push h (entry_of x)) (<[id := x]> (jobs (queue w))) (queue_capacity (queue w))).
Proof.
  intros [Hs Hids Hc Hl Hcp] Hj Hid. unfold queue_insert, queue_len in *. cbn.
  rewrite Hid, insert_delete_eq, map_size_delete_Some by done.
  pose proof (map_size_ne_0_lookup_2 (jobs (queue w)) id ltac:(eauto)) as Hne.
  destruct (_ <=? _) eqn:E; [|done]. rewrite Hc in E. exfalso. apply Z.leb_le in E. assert (0 < size (jobs (queue w)))%nat by lia. rewrite Nat2Z.inj_pred in E by done. lia.
Qed.

(** One turn of the dispatch loop. *)
Lemma dispatch_cons id ids n w r :
  mirror w -> dispatch_loop (id :: ids) n w = r ->
  let next w' j := jobs (queue w') = <[id := j]> (jobs (queue w)) /\
    queue_capacity (queue w') = queue_capacity (queue w) /\ capacity w' = capacity w in
  let d j := dispatch (dispatcher w) j in
  (exists w', r = dispatch_loop ids n w' /\ mirror w' /\
     jobs (queue w') = jobs (queue w) /\ dispatcher w' = dispatcher w /\
     forall j, jobs (queue w) !! id = Some j -> state j <> JobState.Pending) \/
  (exists j t w', jobs (queue w) !! id = Some j /\ state j = JobState.Pending /\
     let j1 := with_state j JobState.Running t in
     next w' j1 /\ mirror w' /\ dispatcher w' = (d j1).2 /\
     ((d j1).1 = Ok tt /\ r = dispatch_loop ids (n + 1) w')) \/
  (exists j t u e w', jobs (queue w) !! id = Some j /\ state j = JobState.Pending /\
     let j1 := with_state j JobState.Running t in
     next w' (with_state j1 JobState.Pending u) /\ mirror w' /\ dispatcher w' = (d j1).2 /\
     (d j1).1 = Err e /\ r = (Err e, w')).
Proof.
  intros Hw. cbn zeta. cbn [dispatch_loop]. unfold sbind at 1, attempt at 1. rewrite take_out_eq.
  destruct (jobs (queue w) !! id) as [j|] eqn:Hj; cbn [fst snd].
  2: { intros <-. left. exists w. by split_and!. }
  unfold sbind at 1, utc_now at 1. cbn [queue store dispatcher capacity readings].
  set (t := utc (readings w)). unfold transition.
  pose proof (mi_ids _ Hw _ _ Hj) as Hid.
  destruct (transition_valid (kind j) (state j) JobState.Running) eqn:Hv.
  - assert (state j = JobState.Pending) as Hs by (by destruct (state j)).
    set (j1 := with_state j JobState.Running t).
    unfold sbind at 1, persist_job at 1. cbn [queue store dispatcher capacity readings].
    rewrite Hrel. unfold sbind at 1, attempt at 1, dispatch_job at 1 2.
    cbn [queue store dispatcher capacity readings fst snd].
    destruct ((dispatch (dispatcher w) j1).1) as [[]|e] eqn:Ed.
    + unfold sbind at 1, on_queue at 1. cbn [queue store dispatcher capacity readings].
      rewrite (insert_back w id j) by done. cbn [fst snd]. intros <-. right. left. exists j, t.
      match goal with |- context [dispatch_loop ids (n + 1) ?w'] => exists w' end. split; [done|]. split; [done|].
      split; [done|]. split; [|done]. apply (mirror_update w _ id j1); try done; try (by rewrite Hj).
      cbn. by rewrite persist_reliable, <- Hid.
    + unfold sbind at 1, utc_now at 1. unfold sbind at 1, persist_job at 1.
      cbn [queue store dispatcher capacity readings]. rewrite Hrel.
      set (u := utc (S (readings w))). set (j2 := with_state j1 JobState.Pending u).
      unfold sbind at 1, on_queue at 1. cbn [queue store dispatcher capacity readings].
      rewrite (insert_back w id j) by done. cbn [fst snd]. unfold sfail at 1. intros <-. right. right.
      exists j, t, u, e. match goal with |- context [(Err e, ?w')] => exists w' end. split; [done|]. split; [done|].
      split; [done|]. split; [|done]. apply (mirror_update w _ id j2); try done; try (by rewrite Hj).
      cbn. rewrite !persist_reliable. cbn. by rewrite Hid, insert_insert_eq.
  - unfold sbind at 1, attempt at 1, on_queue at 1. cbn [queue store dispatcher capacity readings].
    rewrite !(insert_back w id j) by done. cbn [fst snd]. intros <-. left.
    match goal with |- context [dispatch_loop ids n ?w'] => exists w' end. split; [done|].
    assert (<[id := j]> (jobs (queue w)) = jobs (queue w)) as E by (by apply insert_id).
    split; [|split; [done|split; [done|]]].
    + apply (mirror_update w _ id j); try done; try (by rewrite Hj). cbn.
      symmetry. apply insert_id. by rewrite (mi_stored _ Hw).
    + intros x [= <-] Hx. by rewrite Hx in Hv.
Qed.

Lemma mirror_dispatch_loop ids n : keeps mirror (dispatch_loop ids n).
Proof.
  revert n. induction ids as [|id ids IH]; intros n w Hw; [done|].
  destruct (dispatch_cons id ids n w _ Hw eq_refl)
    as [(w' & -> & Hw' & _)|[(j & t & w' & _ & _ & _ & Hw' & _ & _ & ->)|(j & t & u & e & w' & _ & _ & _ & Hw' & _ & _ & ->)]];
    [by apply IH|by apply IH|done].
Qed.

Lemma mirror_reschedule j o : keeps mirror (reschedule_recurring j o).
Proof.
  unfold reschedule_recurring. apply keeps_bind.
  { intros w Hw. destruct (schedule_policy j); by try apply (mirror_clock w). }
  intros due w Hw. unfold sbind at 1. rewrite set_state_eq.
  destruct (jobs (queue w) !! job_id j) as [x|] eqn:Hx; [|by apply mirror_clock].
  destruct (transition_valid _ _ _); [|by apply mirror_clock]. unfold sbind at 1. rewrite modify_found_eq.
  cbn [put_job queue with_jobs jobs]. rewrite lookup_insert_eq, put_put. unfold sbind. rewrite persist_found_eq.
  cbn [put_job queue with_jobs jobs]. rewrite lookup_insert_eq, Hrel.
  apply (mirror_commit w (job_id j) _ (S (readings w))); [done|by rewrite Hx|].
  exact (mi_ids _ Hw _ _ Hx).
Qed.

Lemma mirror_completion id o : keeps mirror (handle_completion id o).
Proof.
  intros w Hw. apply mirror_set_persist; [done|]. intros w' j Hj _ Hw'. unfold sbind, get_queue, queue_lookup.
  rewrite Hj. cbn [ok_or]. case_bool_decide; [by apply mirror_reschedule|done].
Qed.

Lemma mirror_failure id error o : keeps mirror (handle_failure id error o).
Proof.
  intros w Hw. destruct (jobs (queue w) !! id) as [j|] eqn:Hj.
  2: { unfold handle_failure, sbind at 1, get_queue, queue_lookup. by rewrite Hj. }
  pose proof (mi_ids _ Hw _ _ Hj) as Hid.
  destruct (handle_failure_cases w id j error o _ Hj eq_refl)
    as [->|(_ & n & [->|(_ & t2 & t3 & due & n' & ->)])]; [by apply mirror_clock|..].
  - apply mirror_commit; [done|by rewrite Hj|done].
  - apply mirror_commit; [apply mirror_commit; [done|by rewrite Hj|done]| |done].
    cbn. by rewrite lookup_insert_eq.
Qed.

Lemma mirror_apply l o : keeps mirror (apply_completions l o).
Proof.
  revert o. induction l as [|[id res] l IH]; intros o; cbn [apply_completions]; [apply keeps_ret|].
  apply keeps_bind; [apply keeps_get|]. intros [s|]; [|apply IH]. destruct s; try apply IH.
  apply keeps_bind; [|intros ?; apply IH]. destruct res.
  - apply mirror_completion.
  - apply mirror_failure.
  - intros w Hw. by apply mirror_set_persist.
Qed.

Lemma mirror_tick l : keeps mirror (tick l).
Proof.
  unfold tick. apply keeps_bind; [exact mirror_clock|]. intros now. apply keeps_bind.
  { apply keeps_bind; [apply keeps_get|]. intros ids. apply mirror_promote_loop. }
  intros p. apply keeps_bind; [|intros d; apply mirror_apply].
  apply keeps_bind; [apply keeps_get|]. intros ids. apply mirror_dispatch_loop.
Qed.

Lemma mirror_cancel id : keeps mirror (cancel id).
Proof.
  unfold cancel. apply keeps_bind; [apply keeps_get|]. intros r. apply keeps_bind; [apply keeps_lift|].
  intros s. destruct (job_is_terminal s); [apply keeps_fail|]. intros w Hw.
  pose proof (mirror_set_persist id JobState.Cancelled (fun _ => sret tt) w Hw) as Hm.
  rewrite set_persist_eq in Hm. unfold sbind at 1. rewrite set_state_eq.
  destruct (jobs (queue w) !! id) as [j|] eqn:Hj; [|by apply mirror_clock].
  destruct (transition_valid _ _ _); [|by apply mirror_clock]. cbn zeta in Hm. rewrite Hrel in Hm.
  unfold sbind, get_queue, lift, queue_lookup. cbn [put_job queue with_jobs jobs]. rewrite lookup_insert_eq.
  by apply Hm.
Qed.

Lemma mirror_submit j : keeps mirror (submit j).
Proof.
  intros w [Hs Hids Hc Hl Hcp]. unfold submit. destruct (capacity w <=? queue_len (queue w)) eqn:E; [done|].
  unfold sbind at 1, on_queue, queue_insert. rewrite Hc, E. cbn [fst snd].
  unfold sbind, get_queue, lift, queue_lookup. cbn [queue jobs]. rewrite lookup_insert_eq. cbn [ok_or].
  unfold persist_job. cbn [store]. rewrite Hrel. split; cbn.
  - by rewrite persist_reliable, Hs.
  - intros id x [[<- <-]|[_ Hx]]%lookup_insert_Some; [done|by apply Hids].
  - done.
  - apply Z.leb_gt in E. unfold queue_len in *. cbn.
    destruct (jobs (queue w) !! job_id j) as [x|] eqn:Hx.
    + rewrite size_insert_same by (by rewrite Hx). lia.
    + rewrite map_size_insert_None by done. lia.
  - done.
Qed.

Lemma mirror_run w ops : mirror w -> mirror (scheduler_run w ops).
Proof.
  revert w. induction ops as [|op ops IH]; intros w Hw; [done|]. apply IH. destruct op; cbn [scheduler_exec].
  - by apply mirror_submit.
  - by apply mirror_cancel.
  - by apply mirror_tick.
Qed.

Lemma mirror_new st wk : 0 <= cap -> stored st = ∅ -> mirror (scheduler_new cap st wk).
Proof. intros Hcap Hst. split; cbn; [done| |done..]. intros id j. by rewrite lookup_empty. Qed.
End Mirror.

Section MirrorTheorem.
Context `{TA : TimeApi} {Hp : Type} `{BH : !BinaryHeap Hp} `{HV : !HashValues}.
Context {St : Type} `{JS : !JobStore St} `{SL : !JobStoreLaws St} {Wk : Type} `{WD : !WorkerDispatch Wk}.
Context `{CK : Clock}.

(** C18. With a store that does not fail, after any sequence of submissions, cancellations and
    ticks, whatever the workers answer and whichever calls return errors, the store holds
    exactly the jobs of the queue, in their current state, and the queue is within its
    capacity: a restart from the store loses nothing. *)
Theorem store_mirrors_queue cap st wk ops :
  reliable (St := St) -> 0 <= cap -> stored st = ∅ ->
  let w := scheduler_run (scheduler_new (Hp := Hp) (Wk := Wk) cap st wk) ops in
  stored (store w) = jobs (queue w) /\ queue_depth w <= cap /\
  forall id j, get_job w id = Some j -> job_id j = id /\ stored (store w) !! id = Some j.
Proof.
  intros Hrel Hcap Hst. cbn zeta.
  pose proof (mirror_run cap Hrel _ ops (mirror_new (Hp := Hp) (Wk := Wk) cap st wk Hcap Hst)) as [Hs Hids Hc Hl Hcp].
  split; [done|]. split; [unfold queue_depth; lia|]. intros id j. unfold get_job, queue_lookup.
  destruct (jobs _ !! id) as [x|] eqn:Hx; cbn [ok_or]; [|done]. intros [= ->].
  split; [by apply Hids|]. by rewrite Hs.
Qed.
End MirrorTheorem.

(** ** What a tick does to the jobs that are due *)

Section TickProgress.
Context `{TA : TimeApi} {Hp : Type} `{BH : !BinaryHeap Hp} `{HV : !HashValues} `{HVL : !HashValuesLaws}.
Context {St : Type} `{JS : !JobStore St} `{SL : !JobStoreLaws St} {Wk : Type} `{WD : !WorkerDispatch Wk}.
Context `{WL : !WorkerDispatchLaws Wk} `{CK : Clock}.
Implicit Types (w : Scheduler Hp St Wk) (j : ScheduledJob) (m : gmap JobId ScheduledJob).

(** The workers take every job. *)
Definition accepting : Prop := forall (d : Wk) j, (dispatch d j).1 = Ok tt.

(** The jobs [ids] moved to a state, the others stayed. *)
Definition moved (s : JobState) (ids : list JobId) m m' : Prop :=
  forall id, match m !! id with
             | None => m' !! id = None
             | Some j => exists j', m' !! id = Some j' /\
                 (id ∈ ids -> exists t, j' = with_state j s t) /\ (id ∉ ids -> j' = j)
             end.

Lemma moved_nil s m : moved s [] m m.
Proof. intros id. destruct (m !! id) as [j|]; [|done]. exists j. set_solver. Qed.

Lemma moved_cons s id ids m m' j t :
  m !! id = Some j -> id ∉ ids -> moved s ids (<[id := with_state j s t]> m) m' ->
  moved s (id :: ids) m m'.
Proof.
  intros Hj Hid Hm id'. specialize (Hm id'). destruct (decide (id' = id)) as [->|Hne].
  - rewrite lookup_insert_eq in Hm. rewrite Hj. destruct Hm as (j' & Hj' & _ & Hsame).
    exists j'. split; [done|]. split; [|set_solver]. intros _. exists t. by apply Hsame.
  - rewrite lookup_insert_ne in Hm by done. destruct (m !! id') as [x|]; [|done].
    destruct Hm as (j' & Hj' & Hin & Hsame). exists j'. split; [done|].
    split; intros H'; [apply Hin|apply Hsame]; set_solver.
Qed.

(** The identifiers of the jobs in a state, under a further condition. *)
Lemma ids_by_state cap w s (P : ScheduledJob -> Prop) `{!forall j, Decision (P j)} :
  mirror cap w ->
  let ids := job_id <$> base.filter P (list_by_state (queue w) s) in
  NoDup ids /\
  forall id, id ∈ ids <-> exists j, jobs (queue w) !! id = Some j /\ state j = s /\ P j.
Proof.
  intros Hw. cbn zeta. set (m := jobs (queue w)).
  assert (forall id, id ∈ job_id <$> base.filter P (list_by_state (queue w) s) <->
    exists j, m !! id = Some j /\ state j = s /\ P j) as Hiff.
  { intros id. rewrite list_elem_of_fmap. unfold list_by_state. fold m.
    setoid_rewrite list_elem_of_filter. setoid_rewrite list_elem_of_filter.
    setoid_rewrite (hash_values_perm m). setoid_rewrite list_elem_of_fmap. split.
    - intros (j & -> & HP & Hs & ([id' j'] & -> & Hin%elem_of_map_to_list)). cbn in *.
      exists j'. by rewrite (mi_ids _ _ Hw _ _ Hin).
    - intros (j & Hj & Hs & HP). exists j. pose proof (mi_ids _ _ Hw _ _ Hj) as Hid. split; [done|].
      split_and!; [done..|]. exists (id, j). split; [done|]. by apply elem_of_map_to_list. }
  split; [|done]. unfold list_by_state. fold m. clear Hiff.
  assert (NoDup (job_id <$> (map_to_list m).*2)) as Hnd.
  { assert (job_id <$> (map_to_list m).*2 = (map_to_list m).*1) as ->; [|apply NoDup_fst_map_to_list].
    rewrite <- list_fmap_compose. apply list_fmap_ext. intros i [id j] Hi. cbn.
    apply (mi_ids _ _ Hw), elem_of_map_to_list. by eapply list_elem_of_lookup_2. }
  rewrite <- (hash_values_perm m) in Hnd. revert Hnd. generalize (hash_values m) as l.
  induction l as [|x l IH]; [done|]. rewrite fmap_cons, NoDup_cons. intros [Hx Hl].
  rewrite filter_cons. case_decide; [|by apply IH]. rewrite filter_cons. case_decide; [|by apply IH].
  rewrite fmap_cons, NoDup_cons. split; [|by apply IH]. contradict Hx.
  apply list_elem_of_fmap in Hx as (y & -> & Hy). apply list_elem_of_fmap. exists y. split; [done|].
  by apply list_elem_of_filter in Hy as [_ [_ Hy]%list_elem_of_filter].
Qed.

Context (Hrel : reliable (St := St)) (Hacc : accepting).

Lemma promote_loop_all cap ids n w :
  mirror cap w -> NoDup ids ->
  (forall id, id ∈ ids -> exists j, jobs (queue w) !! id = Some j /\ state j = JobState.Scheduled) ->
  exists w', promote_loop ids n w = (Ok (n + Z.of_nat (length ids)), w') /\
    dispatcher w' = dispatcher w /\ moved JobState.Pending ids (jobs (queue w)) (jobs (queue w')).
Proof.
  revert n w. induction ids as [|id ids IH]; intros n w Hw Hnd Hall.
  { exists w. cbn. rewrite Z.add_0_r. split; [done|]. split; [done|apply moved_nil]. }
  apply NoDup_cons in Hnd as [Hid Hnd]. destruct (Hall id ltac:(left)) as (j & Hj & Hs).
  cbn [promote_loop]. unfold sbind at 1, attempt at 1. rewrite set_state_eq, Hj, Hs.
  cbn [transition_valid fst snd]. unfold sbind at 1, attempt at 1. rewrite persist_found_eq.
  cbn [put_job queue with_jobs jobs]. rewrite lookup_insert_eq. cbn [fst snd].
  set (j' := with_state j _ _). fold (put_job (read_clock w) id j').
  change (put_store _ _) with (commit w id j' (S (readings w))).
  destruct (IH (n + 1) (commit w id j' (S (readings w)))) as (w' & -> & Hd & Hm).
  - apply mirror_commit; [done|done|by rewrite Hj|]. exact (mi_ids _ _ Hw _ _ Hj).
  - done.
  - intros x Hx. destruct (Hall x ltac:(by right)) as (y & Hy & Hsy). exists y. split; [|done].
    cbn. rewrite lookup_insert_ne; [done|]. by intros <-.
  - exists w'. cbn [length]. split; [f_equal; f_equal; lia|]. split; [done|]. eapply moved_cons; [exact Hj|exact Hid|exact Hm].
Qed.

Lemma dispatch_loop_all cap ids n w :
  mirror cap w -> NoDup ids ->
  (forall id, id ∈ ids -> exists j, jobs (queue w) !! id = Some j /\ state j = JobState.Pending) ->
  exists w', dispatch_loop ids n w = (Ok (n + Z.of_nat (length ids)), w') /\
    accepted (dispatcher w') = accepted (dispatcher w) ++ ids /\
    moved JobState.Running ids (jobs (queue w)) (jobs (queue w')).
Proof.
  revert n w. induction ids as [|id ids IH]; intros n w Hw Hnd Hall.
  { exists w. cbn. rewrite Z.add_0_r, app_nil_r. split; [done|]. split; [done|apply moved_nil]. }
  apply NoDup_cons in Hnd as [Hid Hnd]. destruct (Hall id ltac:(left)) as (j & Hj & Hs).
  destruct (dispatch_cons cap Hrel id ids n w _ Hw eq_refl)
    as [(w1 & _ & _ & _ & _ & Hno)|[(j1 & t & w1 & Hj1 & _ & [Hjs _] & Hw1 & Hd & _ & ->)
    |(j1 & t & u & e & w1 & _ & _ & _ & _ & _ & He & _)]].
  - by destruct (Hno _ Hj).
  - rewrite Hj in Hj1. injection Hj1 as <-.
    destruct (IH (n + 1) w1 Hw1 Hnd) as (w' & -> & Ha & Hm).
    + intros x Hx. destruct (Hall x ltac:(by right)) as (y & Hy & Hsy). exists y. split; [|done].
      rewrite Hjs, lookup_insert_ne; [done|]. by intros <-.
    + exists w'. cbn [length]. split; [f_equal; f_equal; lia|]. split.
      * rewrite Ha, Hd, dispatch_accepted, Hacc. cbn [is_ok].
        rewrite <- app_assoc. cbn. by rewrite (mi_ids _ _ Hw _ _ Hj).
      * rewrite Hjs in Hm. by eapply moved_cons.
  - rewrite Hacc in He. done.
Qed.

(** ** Completions *)

(** What the worker's report makes of a running job: completed (a recurring one is
    scheduled again, with its attempts reset), failed with the error (pending again with one
    attempt more when its policy allows a retry), or cancelled. *)
Definition settled (res : CompletionResult) j j' : Prop :=
  match res with
  | CompletionResult.Success =>
      if bool_decide (kind j = Recurring)
      then exists t due, j' = with_error (with_attempt (with_state j JobState.Scheduled t) 0 due) None
      else exists t, j' = with_state j JobState.Completed t
  | CompletionResult.Failed error =>
      if can_retry (retry_policy j) (attempt_count j)
      then exists t due, j' = with_attempt (with_error (with_state j JobState.Pending t) (Some error))
                                (wrapping_add_u32 (attempt_count j) 1) due
      else exists t, j' = with_error (with_state j JobState.Failed t) (Some error)
  | CompletionResult.Cancelled => exists t, j' = with_state j JobState.Cancelled t
  end.

Lemma settled_state res j j' : settled res j j' -> job_id j' = job_id j /\ state j' <> JobState.Running.
Proof. destruct res; cbn; repeat case_match; naive_solver. Qed.

(** A handler that succeeds and changes one job only. *)
Definition settles (id : JobId) (res : CompletionResult) j (o : TickOutcome)
    (r : result SchedulerError TickOutcome * Scheduler Hp St Wk) w : Prop :=
  exists o' w' j', r = (Ok o', w') /\ dispatched o' = dispatched o /\
    dispatcher w' = dispatcher w /\ jobs (queue w') = <[id := j']> (jobs (queue w)) /\
    settled res j j'.

Lemma handle_completion_settles id j o w :
  jobs (queue w) !! id = Some j -> job_id j = id -> state j = JobState.Running ->
  settles id CompletionResult.Success j o (handle_completion id o w) w.
Proof.
  intros Hj Hid Hs. unfold handle_completion. rewrite set_persist_eq, Hj, Hs.
  cbn [transition_valid]. rewrite Hrel. unfold sbind at 1, get_queue, queue_lookup.
  cbn [commit queue with_jobs jobs]. rewrite lookup_insert_eq. cbn [ok_or with_state kind].
  destruct (bool_decide (kind j = Recurring)) eqn:Hk.
  2: { eexists _, _, _. split_and!; [done|done|done|done|]. cbn. rewrite Hk. by eexists. }
  unfold reschedule_recurring, sbind at 1. cbn [with_state schedule_policy job_id]. rewrite Hid.
  set (w1 := commit w id _ _).
  assert (exists due n, match schedule_policy j with
            | Cron _ => utc_now
            | After d => sbind utc_now (fun now => sret (now + default 1000 (from_std d)))
            | At t => sret t
            | Immediate => utc_now
            end w1 = (Ok due, mkScheduler (queue w1) (store w1) (dispatcher w1) (capacity w1) n))
    as (due & n & ->) by (destruct (schedule_policy j); by eexists _, _).
  unfold sbind at 1. rewrite set_state_eq. unfold w1 at 1. cbn [commit queue with_jobs jobs].
  rewrite lookup_insert_eq. cbn [with_state kind state transition_valid]. rewrite Hk.
  unfold sbind at 1. rewrite modify_found_eq. cbn [put_job queue with_jobs jobs]. rewrite lookup_insert_eq.
  unfold sbind at 1. rewrite persist_found_eq. cbn [put_job queue with_jobs jobs].
  rewrite lookup_insert_eq, Hrel.
  eexists _, _, _. split_and!; [done|done|done| |].
  - cbn. by rewrite !insert_insert_eq.
  - cbn. rewrite Hk. by eexists _, _.
Qed.

Lemma handle_failure_settles id error j o w :
  jobs (queue w) !! id = Some j -> state j = JobState.Running ->
  settles id (CompletionResult.Failed error) j o (handle_failure id error o w) w.
Proof.
  intros Hj Hs. unfold handle_failure, sbind at 1, get_queue, queue_lookup. rewrite Hj. cbn [ok_or].
  unfold sbind at 1. rewrite set_state_eq, Hj, Hs. cbn [transition_valid].
  unfold sbind at 1. rewrite modify_found_eq. cbn [put_job queue with_jobs jobs]. rewrite lookup_insert_eq.
  unfold sbind at 1. rewrite persist_found_eq. cbn [put_job queue with_jobs jobs].
  rewrite lookup_insert_eq, Hrel. destruct (can_retry (retry_policy j) (attempt_count j)) eqn:Hr.
  2: { eexists _, _, _. split_and!; [done|done|done| |].
       - cbn. by rewrite !insert_insert_eq.
       - cbn. rewrite Hr. by eexists. }
  unfold sbind at 1. rewrite set_state_eq. cbn [put_store put_job queue with_jobs jobs].
  rewrite lookup_insert_eq. cbn [with_error with_state kind state transition_valid].
  unfold sbind at 1. rewrite set_state_eq. cbn [put_job queue with_jobs jobs]. rewrite lookup_insert_eq.
  cbn [with_state kind state transition_valid]. unfold sbind at 1, utc_now at 1.
  unfold sbind at 1. rewrite modify_found_eq. cbn [put_job read_clock queue with_jobs jobs].
  rewrite lookup_insert_eq. unfold sbind at 1. rewrite persist_found_eq. cbn [put_job queue with_jobs jobs].
  rewrite lookup_insert_eq, Hrel. eexists _, _, _. split_and!; [done|done|done| |].
  - cbn. by rewrite !insert_insert_eq.
  - cbn. rewrite Hr. by eexists _, _.
Qed.

(** The first report about a job. *)
Fixpoint completion_of (id : JobId) (completions : list (JobId * CompletionResult))
  : option CompletionResult :=
  match completions with
  | [] => None
  | (id', res) :: rest => if id' =? id then Some res else completion_of id rest
  end.

(** A job before and after the reports: the first one counts, if the job is running. *)
Definition reported (r : option CompletionResult) j j' : Prop :=
  match r with
  | Some res => if bool_decide (state j = JobState.Running) then settled res j j' else j' = j
  | None => j' = j
  end.

Lemma reported_idle r j : state j <> JobState.Running -> reported r j j.
Proof. intros Hs. destruct r; cbn; [by rewrite bool_decide_false|done]. Qed.

Lemma apply_completions_all completions o w :
  (forall id j, jobs (queue w) !! id = Some j -> job_id j = id) ->
  exists o' w', apply_completions completions o w = (Ok o', w') /\ dispatched o' = dispatched o /\
    dispatcher w' = dispatcher w /\
    forall id, match jobs (queue w) !! id with
               | None => jobs (queue w') !! id = None
               | Some j => exists j', jobs (queue w') !! id = Some j' /\
                   reported (completion_of id completions) j j'
               end.
Proof.
  revert o w. induction completions as [|[id res] rest IH]; intros o w Hids; cbn [apply_completions].
  { exists o, w. split_and!; [done..|]. intros id. destruct (jobs (queue w) !! id) as [j|]; [|done].
    by exists j. }
  unfold sbind at 1, get_queue, queue_get_state.
  destruct (decide (state <$> jobs (queue w) !! id = Some JobState.Running)) as [Hr|Hno].
  - apply fmap_Some in Hr as (j & Hj & Hs). symmetry in Hs. rewrite Hj. cbn. rewrite Hs.
    assert (settles id res j o
      (match res with
       | CompletionResult.Success => handle_completion id o
       | CompletionResult.Failed error => handle_failure id error o
       | CompletionResult.Cancelled =>
           sbind (set_state id JobState.Cancelled) (fun _ =>
             sbind (persist_found id) (fun _ => sret (add_cancelled o)))
       end w) w) as (o1 & w1 & j1 & E & Ho & Hd & Hjobs & Hset).
    { destruct res; [by apply handle_completion_settles; [|apply Hids|]|by apply handle_failure_settles|].
      rewrite set_persist_eq, Hj, Hs. cbn [transition_valid]. rewrite Hrel.
      eexists _, _, _. split_and!; [done|done|done|done|]. by eexists. }
    destruct (settled_state _ _ _ Hset) as [Hid1 Hrun]. unfold sbind at 1. rewrite E.
    destruct (IH o1 w1) as (o' & w' & -> & Ho' & Hd' & Hall).
    { intros id' x. rewrite Hjobs. intros [[<- <-]|[_ Hx]]%lookup_insert_Some; [|by apply Hids].
      rewrite Hid1. by apply Hids. }
    exists o', w'. split_and!; [done|congruence|congruence|]. intros id'. specialize (Hall id').
    rewrite Hjobs in Hall. cbn [completion_of]. destruct (Z.eqb_spec id id') as [<-|Hne].
    + rewrite lookup_insert_eq in Hall. rewrite Hj. destruct Hall as (j' & Hj' & Hrep). exists j'.
      split; [done|]. cbn. rewrite bool_decide_true by done.
      destruct (completion_of id rest); cbn in Hrep; [|by subst].
      rewrite bool_decide_false in Hrep by done. by subst.
    + rewrite lookup_insert_ne in Hall by done. done.
  - destruct (IH o w Hids) as (o' & w' & E & Ho' & Hd' & Hall).
    exists o', w'. split.
    { destruct (jobs (queue w) !! id) as [j|]; cbn in *; [|done]. by destruct (state j). }
    split_and!; [done..|]. intros id'. specialize (Hall id'). cbn [completion_of].
    destruct (Z.eqb_spec id id') as [<-|Hne]; [|done].
    destruct (jobs (queue w) !! id) as [j|] eqn:Hj; [|done].
    destruct Hall as (j' & Hj' & Hrep). exists j'. split; [done|].
    assert (state j <> JobState.Running) as Hs by (intros Hs; apply Hno; cbn; by rewrite Hs).
    cbn. rewrite bool_decide_false by done.
    destruct (completion_of id rest); cbn in Hrep; [|done]. by rewrite bool_decide_false in Hrep.
Qed.

(** The jobs the first two phases of a tick at [now] take up. *)
Definition taken_up (now : Z) j : Prop :=
  state j = JobState.Pending \/ state j = JobState.Scheduled /\ due_at j <= now.

Lemma dispatch_progress cap w :
  mirror cap w ->
  exists n w' ids, (forall l, exists p, tick l w = apply_completions l (mkOutcome p n 0 0 0 0 0) w') /\ mirror cap w' /\
    accepted (dispatcher w') = accepted (dispatcher w) ++ ids /\ NoDup ids /\
    n = Z.of_nat (length ids) /\
    (forall id, id ∈ ids <-> exists j, jobs (queue w) !! id = Some j /\ taken_up (utc (readings w)) j) /\
    moved JobState.Running ids (jobs (queue w)) (jobs (queue w')).
Proof.
  intros Hw. set (now := utc (readings w)). apply mirror_clock in Hw.
  destruct (ids_by_state cap (read_clock w) JobState.Scheduled (fun j => due_at j <= now) Hw) as [Hnd1 Hin1].
  set (due := job_id <$> _) in *.
  destruct (promote_loop_all cap due 0 (read_clock w) Hw Hnd1) as (w1 & E1 & Hd1 & Hm1).
  { intros id (j & Hj & Hs & _)%Hin1. eauto. }
  assert (mirror cap w1) as Hw1.
  { assert (w1 = (promote_loop due 0 (read_clock w)).2) as -> by (by rewrite E1).
    by apply mirror_promote_loop. }
  destruct (ids_by_state cap w1 JobState.Pending (fun _ => True) Hw1) as [Hnd2 Hin2].
  rewrite filter_all in Hnd2, Hin2 by (by apply Forall_true).
  set (pending := job_id <$> list_by_state (queue w1) JobState.Pending) in *.
  destruct (dispatch_loop_all cap pending 0 w1 Hw1 Hnd2) as (w2 & E2 & Ha2 & Hm2).
  { intros id (j & Hj & Hs & _)%Hin2. eauto. }
  cbn [jobs queue read_clock] in *.
  exists (0 + Z.of_nat (length pending)), w2, pending.
  split.
  { intros l. eexists. unfold tick, promote_due_jobs, dispatch_pending, sbind, utc_now, get_queue.
    fold (read_clock w). fold now. cbn [queue read_clock]. cbn [queue read_clock] in due. fold due.
    rewrite E1. fold pending. by rewrite E2. }
  split.
  { assert (w2 = (dispatch_loop pending 0 w1).2) as -> by (by rewrite E2). by apply mirror_dispatch_loop. }
  split; [by rewrite Ha2, Hd1|]. split; [done|]. split; [cbn; lia|]. split.
  - intros id. rewrite Hin2. specialize (Hm1 id). specialize (Hin1 id).
    destruct (jobs (queue w) !! id) as [j|] eqn:Hj; [|naive_solver].
    destruct Hm1 as (j' & Hj' & Hyes & Hno). rewrite Hj'. destruct (decide (id ∈ due)) as [Hd|Hd].
    + destruct (Hyes Hd) as [t ->]. apply Hin1 in Hd as (x & [= <-] & Hs & Hdue).
      split; [intros _; exists j; split; [done|by right]|]. intros _. by eexists.
    + rewrite (Hno Hd). split.
      * intros (x & [= <-] & Hs & _). exists j. split; [done|by left].
      * intros (x & [= <-] & [Hs|[Hs Hdue]]); [by exists j|]. destruct Hd. apply Hin1. eauto.
  - intros id. specialize (Hm1 id). specialize (Hm2 id). specialize (Hin2 id). specialize (Hin1 id).
    destruct (jobs (queue w) !! id) as [j|] eqn:Hj; [|by rewrite Hm1 in Hm2].
    destruct Hm1 as (j' & Hj' & Hyes & Hno). rewrite Hj' in Hm2, Hin2.
    destruct Hm2 as (j2 & Hj2 & Hyes2 & Hno2). exists j2. split; [done|].
    destruct (decide (id ∈ due)) as [Hd|Hd].
    + destruct (Hyes Hd) as [t ->]. split.
      * intros Hp2. destruct (Hyes2 Hp2) as [t2 ->]. by exists t2.
      * intros Hp2. destruct Hp2. apply Hin2. by eexists.
    + by rewrite (Hno Hd) in *.
Qed.

End TickProgress.

Section TickTheorem.
Context `{TA : TimeApi} {Hp : Type} `{BH : !BinaryHeap Hp} `{HV : !HashValues} `{HVL : !HashValuesLaws}.
Context {St : Type} `{JS : !JobStore St} `{SL : !JobStoreLaws St} {Wk : Type} `{WD : !WorkerDispatch Wk}.
Context `{WL : !WorkerDispatchLaws Wk} `{CK : Clock}.

End TickTheorem.

(** ** Witnesses *)

Module SchedulerWitness.
Import ListHeap.
#[local] Instance exact_time : TimeApi := {|
  Float := Z; below_one := fun z => z <? 1;
  backoff_ms := fun f initial max attempt => Z.min (initial * f ^ attempt) max;
  from_std := Some |}.
#[local] Instance sorted_values : HashValues := fun m => (map_to_list m).*2.
#[local] Instance sorted_values_laws : HashValuesLaws.
Proof. by intros m. Qed.
#[local] Instance seconds : Clock := fun n => 1000 * Z.of_nat n.

Abbreviation world := (Scheduler (list QueueEntry) InMemoryJobStore RecordingDispatcher).

Definition job (id : Z) (retries : Z) : ScheduledJob :=
  mkJob id OneShot JobState.Pending Normal Immediate (mkRetryPolicy retries 2 60000 300000) 0 0 [] None 0 0.

Definition start (cap : Z) : world := scheduler_new cap (mkMemory [] []) (mkRecording [] false).
Definition failure (id : JobId) : SchedulerOp := Tick [(id, CompletionResult.Failed "boom")].

Lemma no_submission l :
  Forall (fun op => match op with Submit _ => False | _ => True end) l ->
  forall j' : ScheduledJob, Submit j' ∈ l -> job_id j' <> 7.
Proof. intros Hl j' Hj'. rewrite Forall_forall in Hl. by apply Hl in Hj'. Qed.


(** The bound is reached: the job goes out a second time in the very next tick, although its
    backoff is a minute. *)
Example retry_ignores_backoff :
  recorded (dispatcher (scheduler_run (start 10) [Submit (job 7 1); failure 7; failure 7; failure 7])) = [7; 7].
Proof. by vm_compute. Qed.

Lemma store_mirrors_queue_witness :
  stored (store (scheduler_run (start 10) [Submit (job 7 1); failure 7])) =
  jobs (queue (scheduler_run (start 10) [Submit (job 7 1); failure 7])).
Proof.
  apply (store_mirrors_queue (Hp := list QueueEntry) 10 (mkMemory [] []) (mkRecording [] false)
    [Submit (job 7 1); failure 7]); [by intros s j|lia|reflexivity].
Defined.

(** Workers that take everything. *)
#[local] Instance eager : WorkerDispatch (list JobId) := {|
  accepted := fun l => l;
  dispatch := fun l j => (Ok tt, l ++ [job_id j]);
|}.
#[local] Instance eager_laws : WorkerDispatchLaws (list JobId).
Proof. by split. Qed.


(** A store that cannot write running jobs. *)
Record PickyStore : Type := mkPicky { picky : gmap JobId ScheduledJob }.
#[local] Instance picky_store : JobStore PickyStore := {|
  stored := picky;
  persist := fun s j => if bool_decide (state j = JobState.Running) then (Err (StorageError "full"), s)
                        else (Ok tt, mkPicky (<[job_id j := j]> (picky s)));
  store_remove := fun s id => (Ok tt, mkPicky (delete id (picky s)));
|}.

(** A job whose state cannot be persisted when it is dispatched is gone from the queue. *)
Example dispatch_loses_job :
  let w := scheduler_run (scheduler_new (Hp := list QueueEntry) 10 (mkPicky ∅) ([] : list JobId))
             [Submit (job 7 1)] in
  get_state w 7 = Some JobState.Pending /\ is_ok (tick [] w).1 = false /\
  get_state (tick [] w).2 7 = None /\ accepted (dispatcher (tick [] w).2) = [].
Proof. by vm_compute. Qed.
End SchedulerWitness.
