(* ===== verification/Locks.v ===== *)
(** * Worker locks and deadlock detection

    [crates/vo-worker/src/lib.rs]: the lock types and the wait-for graph; and
    [crates/vo-worker/src/lock_storage/]: the in-memory lock store. Each operation of the
    store runs under its write lock and is one step. Times are milliseconds and arguments;
    the order in which a [HashMap] or [HashSet] is visited is the class [HashOrder]. *)

From S2P Require Import Prelude Identifiers CompensationOrder.

(** [struct LockId] and [struct OwnerId]. *)
Abbreviation LockId := string.
Abbreviation OwnerId := string.

(** The keys of a hash map, or the elements of a hash set, in some order. *)
Class HashOrder : Type := hash_keys : forall {V}, gmap string V -> list string.

Class HashOrderLaws `{HO : HashOrder} : Prop :=
  hash_keys_perm : forall {V} (m : gmap string V), hash_keys m ≡ₚ (map_to_list m).*1.

(** [enum LockMode]. *)
Inductive LockMode : Set := Shared | Exclusive.

#[global] Instance LockMode_eq_dec : EqDecision LockMode.
Proof. solve_decision. Defined.

(** [LockMode::can_upgrade_to] and [can_downgrade_to]. *)
Definition can_upgrade_to (m other : LockMode) : bool :=
  match m, other with Shared, Exclusive => true | _, _ => false end.
Definition can_downgrade_to (m other : LockMode) : bool :=
  match m, other with Exclusive, Shared => true | _, _ => false end.

(** [enum LockStatus]. *)
Inductive LockStatus : Set := Held | PendingLock | Expired.

#[global] Instance LockStatus_eq_dec : EqDecision LockStatus.
Proof. solve_decision. Defined.

(** [struct LockEntry]. *)
Record LockEntry : Set := mkLockEntry {
  lock_id : LockId;
  owner : OwnerId;
  mode : LockMode;
  status : LockStatus;
  acquired_at : Z;
  lock_expires_at : Z;
  hold_token : string;
}.

#[global] Instance LockEntry_eq_dec : EqDecision LockEntry.
Proof. solve_decision. Defined.

(** [LockEntry::is_expired]. *)
Definition lock_is_expired (e : LockEntry) (now : Z) : bool := lock_expires_at e <? now.

(** [LockEntry::remaining_ttl]. *)
Definition remaining_ttl (e : LockEntry) (now : Z) : option Z :=
  let remaining := lock_expires_at e - now in if remaining <=? 0 then None else Some remaining.

(** [struct LockRelease] and [struct LockQuery]. *)
Record LockRelease : Set := mkRelease {
  release_lock_id : LockId;
  release_owner : OwnerId;
  release_token : string;
}.

Record LockQuery : Set := mkLockQuery {
  query_lock_id : option LockId;
  query_owner : option OwnerId;
}.

(** [enum LockStorageError]. *)
Inductive LockStorageError : Set :=
| LockNotFound (id : LockId)
| NotLockOwner (id : LockId) (expected got : OwnerId)
| InvalidHoldToken (id : LockId) (token : string)
| DuplicateLock (id : LockId)
| IncompatibleMode
| LockStorageFailed (message : string)
| LockSerializationFailed (message : string)
| LockDeserializationFailed (message : string)
| LockInvalidArgument (message : string).

(** ** The in-memory lock store *)

(** [struct InMemoryLockStorage]: the map behind its lock. *)
Record InMemoryLockStorage : Set := mkLocks { locks : gmap LockId (list LockEntry) }.

(** [InMemoryLockStorage::new]. *)
Definition locks_new : InMemoryLockStorage := mkLocks ∅.

(** [InMemoryLockStorage::check_compatibility]. *)
Fixpoint check_compatibility (existing : list LockEntry) (new_owner : OwnerId) (new_mode : LockMode)
  : result LockStorageError unit :=
  match existing with
  | [] => Ok tt
  | entry :: existing' =>
      if bool_decide (owner entry = new_owner) then Err (DuplicateLock (lock_id entry))
      else match mode entry, new_mode with
           | Exclusive, _ => Err (NotLockOwner (lock_id entry) (owner entry) new_owner)
           | Shared, Exclusive => Err IncompatibleMode
           | Shared, Shared => check_compatibility existing' new_owner new_mode
           end
  end.

(** [InMemoryLockStorage::find_entry]. *)
Definition holds_with (o : OwnerId) (token : string) (e : LockEntry) : Prop :=
  owner e = o /\ hold_token e = token.
#[global] Instance holds_with_dec o token e : Decision (holds_with o token e).
Proof. unfold holds_with. apply _. Defined.

Definition find_entry (entries : list LockEntry) (o : OwnerId) (token : string) : option LockEntry :=
  snd <$> list_find (holds_with o token) entries.

(** [LockStorage::acquire]: the list of the lock is created when there is none. *)
Definition lock_acquire (st : InMemoryLockStorage) (entry : LockEntry)
  : result LockStorageError unit * InMemoryLockStorage :=
  let entries := default [] (locks st !! lock_id entry) in
  match check_compatibility entries (owner entry) (mode entry) with
  | Err e => (Err e, mkLocks (<[lock_id entry := entries]> (locks st)))
  | Ok _ => (Ok tt, mkLocks (<[lock_id entry := entries ++ [entry]]> (locks st)))
  end.

(** [LockStorage::release]. *)
Definition lock_release (st : InMemoryLockStorage) (r : LockRelease)
  : result LockStorageError unit * InMemoryLockStorage :=
  match locks st !! release_lock_id r with
  | None => (Err (LockNotFound (release_lock_id r)), st)
  | Some entries =>
      match list_find (holds_with (release_owner r) (release_token r)) entries with
      | None =>
          if existsb (fun e => bool_decide (owner e = release_owner r)) entries then
            (Err (InvalidHoldToken (release_lock_id r) (release_token r)), st)
          else
            (Err (NotLockOwner (release_lock_id r) (default "unknown" (owner <$> head entries))
                    (release_owner r)), st)
      | Some (pos, _) =>
          let entries' := delete pos entries in
          (Ok tt, mkLocks (match entries' with
                           | [] => delete (release_lock_id r) (locks st)
                           | _ => <[release_lock_id r := entries']> (locks st)
                           end))
      end
  end.

(** [LockStorage::query]. *)
Definition matches_query (q : LockQuery) (e : LockEntry) : Prop :=
  match query_lock_id q with Some id => lock_id e = id | None => True end /\
  match query_owner q with Some o => owner e = o | None => True end.
#[global] Instance matches_query_dec q e : Decision (matches_query q e).
Proof. unfold matches_query. destruct (query_lock_id q), (query_owner q); apply _. Defined.

Definition lock_query `{HO : HashOrder} (st : InMemoryLockStorage) (q : LockQuery) : list LockEntry :=
  base.filter (matches_query q)
    (mjoin (omap (fun id => locks st !! id) (hash_keys (locks st)))).

(** [LockStorage::cleanup_expired]. *)
Definition retain_unexpired (now : Z) (entries : list LockEntry) : list LockEntry :=
  base.filter (fun e => now < lock_expires_at e) entries.

Definition count_removed (now : Z) (m : gmap LockId (list LockEntry)) : Z :=
  map_fold (fun _ entries total =>
    total + Z.of_nat (length entries - length (retain_unexpired now entries))) 0 m.

Definition cleanup_expired (st : InMemoryLockStorage) (now : Z) : Z * InMemoryLockStorage :=
  (count_removed now (locks st),
   mkLocks (base.filter (fun kv => kv.2 <> []) (retain_unexpired now <$> locks st))).

(** [LockStorage::get] and [update_status]. *)
Definition lock_get (st : InMemoryLockStorage) (id : LockId) : option LockEntry :=
  entries ← locks st !! id; head entries.

Definition update_status (st : InMemoryLockStorage) (id : LockId) (o : OwnerId) (token : string)
  : result LockStorageError unit :=
  match locks st !! id with
  | None => Err (LockNotFound id)
  | Some entries =>
      match find_entry entries o token with
      | Some _ => Ok tt
      | None => Err (InvalidHoldToken id token)
      end
  end.

(** ** The wait-for graph *)

(** [struct WaitEdge] and [struct WaitForGraph]. *)
Record WaitEdge : Set := mkWaitEdge {
  waiter : OwnerId;
  wait_lock_id : LockId;
  requested_mode : LockMode;
}.

Record WaitForGraph : Set := mkGraph {
  wait_edges : list WaitEdge;
  lock_holders : gmap LockId OwnerId;
}.

(** [WaitForGraph::add_edge], [set_lock_holder], [remove_edges_for_owner],
    [remove_edges_for_lock] and [get_waiters]. *)
Definition add_wait_edge (g : WaitForGraph) (edge : WaitEdge) : WaitForGraph :=
  mkGraph (base.filter (fun e => ~ (waiter e = waiter edge /\ wait_lock_id e = wait_lock_id edge))
             (wait_edges g) ++ [edge]) (lock_holders g).
Definition set_lock_holder (g : WaitForGraph) (id : LockId) (o : OwnerId) : WaitForGraph :=
  mkGraph (wait_edges g) (<[id := o]> (lock_holders g)).
Definition remove_edges_for_owner (g : WaitForGraph) (o : OwnerId) : WaitForGraph :=
  mkGraph (base.filter (fun e => waiter e <> o) (wait_edges g)) (lock_holders g).
Definition remove_edges_for_lock (g : WaitForGraph) (id : LockId) : WaitForGraph :=
  mkGraph (base.filter (fun e => wait_lock_id e <> id) (wait_edges g)) (lock_holders g).
Definition get_waiters (g : WaitForGraph) (id : LockId) : list OwnerId :=
  waiter <$> base.filter (fun e => wait_lock_id e = id) (wait_edges g).

(** The first loop of [detect_cycle]: who waits for whom. *)
Definition count_edge (g : WaitForGraph) (st : gmap OwnerId Z * gmap OwnerId (list OwnerId))
    (edge : WaitEdge) : gmap OwnerId Z * gmap OwnerId (list OwnerId) :=
  match lock_holders g !! wait_lock_id edge with
  | Some holder =>
      if bool_decide (holder = waiter edge) then st
      else (<[holder := default 0 (st.1 !! holder) + 1]> st.1,
            <[waiter edge := default [] (st.2 !! waiter edge) ++ [holder]]> st.2)
  | None => st
  end.

Definition build_graph (g : WaitForGraph) : gmap OwnerId Z * gmap OwnerId (list OwnerId) :=
  foldl (count_edge g) (∅, ∅) (wait_edges g).

(** The inner loop: an owner loses a waiter, and is queued when it has none left. A [usize]
    that goes below zero wraps around. *)
Definition release_waiter (st : gmap OwnerId Z * list OwnerId) (o : OwnerId)
  : gmap OwnerId Z * list OwnerId :=
  let '(in_degree, queue) := st in
  match in_degree !! o with
  | Some deg =>
      let deg' := if deg =? 0 then u64_max else deg - 1 in
      (<[o := deg']> in_degree, if deg' =? 0 then queue ++ [o] else queue)
  | None => (in_degree, queue)
  end.

(** [while let Some(owner) = queue.pop()]: the vector is popped at its end; [None] if the
    fuel runs out. *)
Fixpoint peel_loop (fuel : nat) (adjacency : gmap OwnerId (list OwnerId))
    (in_degree : gmap OwnerId Z) (queue : list OwnerId) : option (gmap OwnerId Z) :=
  match fuel with
  | O => None
  | S fuel' =>
      match last queue with
      | None => Some in_degree
      | Some o =>
          let st := foldl release_waiter (in_degree, take (length queue - 1) queue)
                      (default [] (adjacency !! o)) in
          peel_loop fuel' adjacency st.1 st.2
      end
  end.

(** [WaitForGraph::detect_cycle]; an owner is queued at most once, so twice the number of
    edges and one more turns are enough. *)
Definition detect_deadlock `{HO : HashOrder} (g : WaitForGraph) : option (option (list OwnerId)) :=
  let '(in_degree, adjacency) := build_graph g in
  let all_owners := hash_keys adjacency in
  let queue := base.filter (fun o => default 0 (in_degree !! o) = 0) all_owners in
  match peel_loop (S (2 * length (wait_edges g))) adjacency in_degree queue with
  | None => None
  | Some in_degree' =>
      let remaining := base.filter (fun o => 0 < default 0 (in_degree' !! o)) all_owners in
      Some (match remaining with [] => None | _ => Some remaining end)
  end.

(** ** What deadlock detection computes *)

Lemma rtc_flip {A} (R : relation A) x y : rtc (flip R) x y <-> rtc R y x.
Proof. split; (induction 1 as [|a b c H _ IH]; [done|by eapply rtc_r]). Qed.

Lemma omap_length_le {A B} (f : A -> option B) (l : list A) : (length (omap f l) <= length l)%nat.
Proof. induction l as [|x l IH]; [done|]. cbn. destruct (f x); cbn; lia. Qed.

Section Deadlock.
Context (g : WaitForGraph).
Implicit Types (es : list WaitEdge) (E : list (OwnerId * OwnerId)) (X Q : list OwnerId).

(** The edge of the graph that a recorded wait stands for. *)
Definition edge_of (e : WaitEdge) : option (OwnerId * OwnerId) :=
  match lock_holders g !! wait_lock_id e with
  | Some holder => if bool_decide (holder = waiter e) then None else Some (waiter e, holder)
  | None => None
  end.

(** Owner [w] waits for a lock that [h] holds. *)
Definition waits_for (w h : OwnerId) : Prop :=
  exists e, e ∈ wait_edges g /\ waiter e = w /\ lock_holders g !! wait_lock_id e = Some h /\ h <> w.

Definition edges : list (OwnerId * OwnerId) := omap edge_of (wait_edges g).
Definition succs E (w : OwnerId) : list OwnerId := snd <$> base.filter (fun p => p.1 = w) E.
Definition preds E (h : OwnerId) : list OwnerId := fst <$> base.filter (fun p => p.2 = h) E.

Lemma edges_waits w h : (w, h) ∈ edges <-> waits_for w h.
Proof.
  unfold edges, waits_for. rewrite list_elem_of_omap. unfold edge_of. split.
  - intros (e & He & H). exists e. destruct (lock_holders g !! wait_lock_id e) as [o|]; [|done].
    case_bool_decide; [done|]. by injection H as <- <-.
  - intros (e & He & <- & Hh & Hne). exists e. rewrite Hh. by rewrite bool_decide_false.
Qed.

Lemma succs_elem E w h : h ∈ succs E w <-> (w, h) ∈ E.
Proof.
  unfold succs. rewrite list_elem_of_fmap. split.
  - intros ([a b] & -> & [Ha Hin]%list_elem_of_filter). cbn in *. by subst a.
  - intros Hin. exists (w, h). split; [done|]. by apply list_elem_of_filter.
Qed.

Lemma preds_elem E w h : w ∈ preds E h <-> (w, h) ∈ E.
Proof.
  unfold preds. rewrite list_elem_of_fmap. split.
  - intros ([a b] & -> & [Hb Hin]%list_elem_of_filter). cbn in *. by subst b.
  - intros Hin. exists (w, h). split; [done|]. by apply list_elem_of_filter.
Qed.

Lemma cnt_succs E w h : cnt h (succs E w) = cnt w (preds E h).
Proof.
  induction E as [|[a b] E IH]; [done|]. unfold succs, preds in *. rewrite !filter_cons. cbn.
  destruct (decide (a = w)), (decide (b = h)); rewrite ?fmap_cons, ?cnt_cons; cbn [fst snd];
    repeat case_decide; try done; by rewrite ?IH.
Qed.

Lemma length_preds E h : length (preds E h) = cnt h E.*2.
Proof.
  unfold preds. rewrite length_fmap. induction E as [|[a b] E IH]; [done|].
  rewrite filter_cons, fmap_cons, cnt_cons. cbn. case_decide; cbn; by rewrite IH.
Qed.

Lemma build_graph_lookup es x :
  let st := foldl (count_edge g) (∅, ∅) es in
  let E := omap edge_of es in
  st.1 !! x = (if decide (x ∈ E.*2) then Some (Z.of_nat (length (preds E x))) else None) /\
  st.2 !! x = (if decide (x ∈ E.*1) then Some (succs E x) else None).
Proof.
  cbn zeta. induction es as [|e es IH] using rev_ind; [done|].
  rewrite foldl_app, omap_app. cbn [foldl omap list_omap]. unfold count_edge at 1 3, edge_of.
  destruct (lock_holders g !! wait_lock_id e) as [h|]; [|by rewrite app_nil_r].
  case_bool_decide; [by rewrite app_nil_r|]. cbn [fst snd].
  set (st := foldl (count_edge g) (∅, ∅) es) in *. fold edge_of. set (E := omap edge_of es) in *.
  destruct IH as [IH1 IH2]. rewrite !length_preds in *. unfold succs in *.
  rewrite !fmap_app, filter_app, fmap_app, cnt_app. cbn [fmap list_fmap fst snd]. split.
  - destruct (decide (x = h)) as [->|Hne].
    + rewrite lookup_insert_eq, decide_True by set_solver. rewrite cnt_cons, cnt_nil. destruct (decide (h = h)); [|done].
      rewrite IH1. case_decide as Hin; cbn; f_equal; [lia|]. rewrite <- cnt_pos in Hin. lia.
    + rewrite lookup_insert_ne, IH1 by done. rewrite cnt_cons, cnt_nil. destruct (decide (h = x)); [by subst|].
      rewrite !Nat.add_0_r. apply decide_ext. set_solver.
  - destruct (decide (x = waiter e)) as [->|Hne].
    + rewrite lookup_insert_eq, decide_True by set_solver. rewrite filter_cons. cbn [fst].
      destruct (decide (waiter e = waiter e)); [|done]. rewrite fmap_cons, filter_nil. cbn [snd]. rewrite IH2. 
      destruct (decide (waiter e ∈ E.*1)) as [Hin|Hin]; [done|].
      assert (base.filter (fun p : OwnerId * OwnerId => p.1 = waiter e) E = []) as ->; [|done].
      destruct (base.filter _ E) as [|p l] eqn:Ep; [done|]. destruct Hin.
      assert (p ∈ base.filter (fun p : OwnerId * OwnerId => p.1 = waiter e) E) as [<- Hp]%list_elem_of_filter
        by (rewrite Ep; left). by apply list_elem_of_fmap_2.
    + rewrite lookup_insert_ne, IH2 by done. rewrite filter_cons. cbn [fst].
      destruct (decide (waiter e = x)); [by subst|]. rewrite filter_nil, app_nil_r. apply decide_ext. set_solver.
Qed.

(** Everyone who waits or is waited for. *)
Definition owners : list OwnerId := edges.*1 ++ edges.*2.

(** How many waits for [x] are left when [X] has been taken out. *)
Definition blocked X (x : OwnerId) : nat := length (base.filter (fun d => d ∉ X) (preds edges x)).

Record peel_inv (D : gmap OwnerId Z) Q X : Prop := {
  pi_nodup : NoDup (X ++ Q);
  pi_owners : X ++ Q ⊆ owners;
  pi_degree : forall x, D !! x = if decide (x ∈ edges.*2) then Some (Z.of_nat (blocked X x)) else None;
  pi_queue : forall x, x ∈ owners -> x ∈ X ++ Q <-> blocked X x = 0%nat;
  pi_order : respects (flip waits_for) X;
}.

Lemma blocked_zero X x : blocked X x = 0%nat <-> forall d, waits_for d x -> d ∈ X.
Proof.
  unfold blocked. rewrite length_zero_iff_nil. split.
  - intros H d Hd%edges_waits%preds_elem. apply dec_stable. intros HX.
    apply (elem_of_nil d). rewrite <- H. by apply list_elem_of_filter.
  - intros H. destruct (base.filter _ _) as [|d l] eqn:El; [done|]. exfalso.
    assert (d ∈ base.filter (fun d => d ∉ X) (preds edges x)) as [HX Hd]%list_elem_of_filter
      by (rewrite El; left).
    by apply HX, H, edges_waits, preds_elem.
Qed.

Lemma not_held_unblocked X x : x ∉ edges.*2 -> blocked X x = 0%nat.
Proof.
  intros Hx. apply blocked_zero. intros d Hd%edges_waits. destruct Hx.
  by apply (list_elem_of_fmap_2 snd) in Hd.
Qed.

Lemma peel_turn D Q o X :
  peel_inv D (Q ++ [o]) X ->
  let st := foldl release_waiter (D, Q) (default [] ((build_graph g).2 !! o)) in
  peel_inv st.1 st.2 (X ++ [o]).
Proof.
  intros [Hnd Hown Hdeg Hq Hord]. cbn zeta.
  assert (default [] ((build_graph g).2 !! o) = succs edges o) as ->.
  { unfold build_graph. rewrite (proj2 (build_graph_lookup (wait_edges g) o)). fold edges.
    case_decide as Ho; [done|]. cbn. destruct (succs edges o) as [|h l] eqn:Es; [done|]. destruct Ho.
    assert (h ∈ succs edges o) as Hh%succs_elem by (rewrite Es; left).
    by apply (list_elem_of_fmap_2 fst) in Hh. }
  assert (o ∉ X) as HoX.
  { intros Hin. apply NoDup_app in Hnd as (_ & Hd & _). apply (Hd o Hin). set_solver. }
  assert (forall x, blocked X x = cnt x (succs edges o) + blocked (X ++ [o]) x)%nat as Hw.
  { intros x. unfold blocked. rewrite cnt_succs. by apply filter_not_in_snoc. }
  assert (forall x, x ∈ succs edges o -> x ∈ edges.*2) as Hheld.
  { intros x Hx%succs_elem. by apply (list_elem_of_fmap_2 snd) in Hx. }
  change release_waiter with release.
  destruct (release_all D Q (succs edges o)) as (news & -> & Hnd' & Hnews & HD).
  { intros x Hx. exists (Z.of_nat (blocked X x)). rewrite Hdeg, decide_True by auto. split; [done|].
    rewrite Hw. lia. }
  assert (forall x, x ∈ news <-> x ∈ succs edges o /\ blocked (X ++ [o]) x = 0%nat) as Hnews'.
  { intros x. rewrite Hnews. split; (intros [Hx H]; split; [done|]).
    - rewrite Hdeg, decide_True in H by auto. injection H. rewrite Hw. lia.
    - rewrite Hdeg, decide_True, Hw, H by auto. f_equal. lia. }
  assert (forall x, x ∈ news -> x ∉ X ++ Q ++ [o]) as Hfresh.
  { intros x [Hx H0]%Hnews' Hin. apply Hq in Hin; [|unfold owners; set_solver].
    apply cnt_pos in Hx. rewrite Hw in Hin. lia. }
  assert ((X ++ [o]) ++ Q ++ news ≡ₚ (X ++ Q ++ [o]) ++ news) as Happ by solve_Permutation.
  split.
  - rewrite Happ. apply NoDup_app. split_and!; [done| |done]. intros x Hx Hin. by apply (Hfresh x Hin).
  - intros x. rewrite Happ. intros [Hx|[Hx _]%Hnews']%elem_of_app; [by apply Hown|].
    unfold owners. set_solver.
  - intros x. rewrite HD, Hdeg. case_decide; [|done]. cbn. f_equal. rewrite Hw. lia.
  - intros x Hx. rewrite Happ, elem_of_app, Hq, Hnews', Hw by done. split.
    + intros [?|[_ ?]]; lia.
    + intros H0. destruct (decide (x ∈ succs edges o)) as [Hin|Hin]; [by right|left].
      rewrite <- cnt_pos in Hin. lia.
  - apply respects_snoc; [done|]. apply blocked_zero, Hq; [|set_solver]. apply Hown. set_solver.
Qed.

Lemma peel_loop_ends fuel D Q X :
  peel_inv D Q X -> (2 * length (wait_edges g) < fuel + length X)%nat ->
  exists D' X', peel_loop fuel (build_graph g).2 D Q = Some D' /\ peel_inv D' [] X'.
Proof.
  revert D Q X. induction fuel as [|fuel IH]; intros D Q X Hinv Hfuel.
  { exfalso. pose proof (submseteq_length _ _ (NoDup_submseteq _ _ (pi_nodup _ _ _ Hinv)
      (pi_owners _ _ _ Hinv))) as Hlen.
    assert (length edges <= length (wait_edges g))%nat as He by apply omap_length_le.
    unfold owners in Hlen. rewrite !length_app, !length_fmap in Hlen. lia. }
  cbn [peel_loop]. destruct Q as [|o Q _] using rev_ind; [by exists D, X|].
  rewrite last_snoc, length_app. cbn [length].
  replace (length Q + 1 - 1)%nat with (length Q) by lia. rewrite take_app_length.
  apply (IH _ _ (X ++ [o])); [by apply peel_turn|]. rewrite length_app. cbn. lia.
Qed.

(** When nothing is queued, the owners that are still waited for are those behind a cycle. *)
Lemma still_blocked_iff D X o :
  peel_inv D [] X -> o ∈ owners ->
  blocked X o <> 0%nat <-> exists c, tc waits_for c c /\ rtc waits_for c o.
Proof.
  intros Hinv Ho. pose proof (pi_queue _ _ _ Hinv) as Hq. rewrite app_nil_r in Hq.
  rewrite <- Hq by done. split.
  - intros HoX. set (rest := base.filter (fun x => x ∉ X) owners).
    destruct (no_sink_cycle (flip waits_for) rest o) as (c & _ & H1 & H2).
    + by apply list_elem_of_filter.
    + intros y [HyX Hy]%list_elem_of_filter. rewrite Hq in HyX by done.
      destruct (base.filter (fun d => d ∉ X) (preds edges y)) as [|d l] eqn:E.
      { destruct HyX. unfold blocked. by rewrite E. }
      assert (d ∈ base.filter (fun d => d ∉ X) (preds edges y)) as [HdX Hd%preds_elem]%list_elem_of_filter
        by (rewrite E; left).
      exists d. split; [|by apply edges_waits]. apply list_elem_of_filter. split; [done|].
      apply (list_elem_of_fmap_2 fst) in Hd. unfold owners. set_solver.
    + exists c. split; [by apply tc_flip|]. by apply rtc_flip.
  - intros (c & Hc & Hco) HoX. pose proof (pi_order _ _ _ Hinv) as Hr.
    eapply (respects_acyclic _ X c); [exact Hr| |by apply tc_flip].
    eapply respects_closed; [exact Hr|exact HoX|]. by apply rtc_flip.
Qed.
End Deadlock.

Section DeadlockTheorem.
Context `{HO : HashOrder} `{HL : !HashOrderLaws}.

Lemma peel_init g :
  peel_inv g (build_graph g).1
    (base.filter (fun o => default 0 ((build_graph g).1 !! o) = 0) (hash_keys (build_graph g).2)) [].
Proof.
  pose proof (fun x => proj1 (build_graph_lookup g (wait_edges g) x)) as Hd.
  pose proof (fun x => proj2 (build_graph_lookup g (wait_edges g) x)) as Ha. cbn zeta in *.
  fold (edges g) in *. fold (build_graph g) in *.
  assert (forall x, blocked g [] x = length (preds (edges g) x)) as Hb.
  { intros x. unfold blocked. f_equal. apply filter_true. intros y. apply not_elem_of_nil. }
  assert (forall x, x ∈ hash_keys (build_graph g).2 <-> x ∈ (edges g).*1) as Hk.
  { intros x. rewrite hash_keys_perm, list_elem_of_fmap. split.
    - intros ([y l] & -> & Hy%elem_of_map_to_list). cbn. rewrite Ha in Hy. by case_decide.
    - intros Hx. exists (x, succs (edges g) x). split; [done|]. apply elem_of_map_to_list.
      by rewrite Ha, decide_True. }
  assert (forall x, default 0 ((build_graph g).1 !! x) = 0 <-> blocked g [] x = 0%nat) as Hz.
  { intros x. rewrite Hd. case_decide as Hx; cbn; [rewrite Hb; lia|].
    split; [|done]. intros _. by apply not_held_unblocked. }
  split; cbn [app].
  - apply NoDup_filter. rewrite hash_keys_perm. apply NoDup_fst_map_to_list.
  - intros x [_ Hx%Hk]%list_elem_of_filter. unfold owners. set_solver.
  - intros x. rewrite Hd. by rewrite Hb.
  - intros x Hx. rewrite list_elem_of_filter, Hz, Hk. split; [by intros [? _]|].
    intros H0. split; [done|]. unfold owners in Hx. apply elem_of_app in Hx as [Hx|Hx]; [done|].
    exfalso. apply list_elem_of_fmap in Hx as ([w h] & -> & Hwh). cbn in H0.
    apply preds_elem in Hwh. rewrite Hb in H0. destruct (preds _ _); [by apply elem_of_nil in Hwh|done].
  - apply respects_nil.
Qed.

(** C12. Deadlock detection always ends. Nothing is reported exactly when no owner waits for
    itself through others; otherwise the report lists, once each, exactly the waiting owners
    that are on a cycle of the wait-for graph or are waited for from one. *)
Theorem deadlock_detected g :
  exists r, detect_deadlock g = Some r /\
    match r with
    | None => forall o, ~ tc (waits_for g) o o
    | Some l => l <> [] /\ NoDup l /\
        forall o, o ∈ l <-> (exists h, waits_for g o h) /\
                            exists c, tc (waits_for g) c c /\ rtc (waits_for g) c o
    end.
Proof.
  destruct (peel_loop_ends g (S (2 * length (wait_edges g))) _ _ _ (peel_init g) ltac:(cbn; lia))
    as (D & X & HE & Hinv).
  unfold detect_deadlock. destruct (build_graph g) as [D0 A] eqn:Eg. cbn [fst snd] in *. rewrite HE.
  assert (forall o, o ∈ base.filter (fun o => 0 < default 0 (D !! o)) (hash_keys A) <->
    (exists h, waits_for g o h) /\ exists c, tc (waits_for g) c c /\ rtc (waits_for g) c o) as Hiff.
  { intros o. rewrite list_elem_of_filter.
    assert (o ∈ hash_keys A <-> exists h, waits_for g o h) as ->.
    { pose proof (proj2 (build_graph_lookup g (wait_edges g) o)) as Ha. cbn zeta in Ha.
      fold (build_graph g) in Ha. fold (edges g) in Ha. rewrite Eg in Ha. cbn in Ha.
      rewrite hash_keys_perm, list_elem_of_fmap. split.
      - intros ([y l] & E & Hy%elem_of_map_to_list). cbn in E. subst y. rewrite Ha in Hy.
        case_decide as Hin; [|done]. apply list_elem_of_fmap in Hin as ([w h] & -> & Hwh). exists h. by apply edges_waits.
      - intros [h Hh%edges_waits]. exists (o, succs (edges g) o). split; [done|].
        apply elem_of_map_to_list. rewrite Ha, decide_True; [done|].
        by apply (list_elem_of_fmap_2 fst) in Hh. }
    split.
    - intros [H0 [h Hh]]. split; [by exists h|]. apply (still_blocked_iff g D X o Hinv).
      + apply edges_waits, (list_elem_of_fmap_2 fst) in Hh. unfold owners. set_solver.
      + rewrite (pi_degree _ _ _ _ Hinv) in H0. case_decide; cbn in H0; lia.
    - intros [[h Hh] Hc]. split; [|by exists h]. rewrite (pi_degree _ _ _ _ Hinv).
      assert (blocked g X o <> 0%nat) as Hb.
      { apply (still_blocked_iff g D X o Hinv); [|done].
        apply edges_waits, (list_elem_of_fmap_2 fst) in Hh. unfold owners. set_solver. }
      case_decide as Hx; cbn; [lia|]. by destruct Hb; apply not_held_unblocked. }
  eexists. split; [done|]. revert Hiff.
  set (remaining := base.filter (fun o => 0 < default 0 (D !! o)) (hash_keys A)). intros Hiff.
  assert (NoDup remaining) as Hnd.
  { apply NoDup_filter. rewrite hash_keys_perm. apply NoDup_fst_map_to_list. }
  clearbody remaining. destruct remaining as [|x l]; [|done].
  intros o Ho. apply (elem_of_nil o), Hiff. split; [|by exists o]. inversion Ho; subst; eauto.
Qed.
End DeadlockTheorem.

(** ** The lock store *)

(** The calls that change the store. *)
Inductive LockOp : Set :=
| OpAcquire (entry : LockEntry)
| OpRelease (r : LockRelease)
| OpCleanup (now : Z).

Definition lock_exec (st : InMemoryLockStorage) (op : LockOp) : InMemoryLockStorage :=
  match op with
  | OpAcquire entry => (lock_acquire st entry).2
  | OpRelease r => (lock_release st r).2
  | OpCleanup now => (cleanup_expired st now).2
  end.

Definition lock_run (st : InMemoryLockStorage) (ops : list LockOp) : InMemoryLockStorage :=
  foldl lock_exec st ops.

(** The holders of one lock: an exclusive one is alone, and nobody holds it twice. *)
Record lock_ok (id : LockId) (entries : list LockEntry) : Prop := {
  lo_some : entries <> [];
  lo_id : forall e, e ∈ entries -> lock_id e = id;
  lo_owners : NoDup (owner <$> entries);
  lo_exclusive : forall e, e ∈ entries -> mode e = Exclusive -> entries = [e];
}.

Definition locks_ok (st : InMemoryLockStorage) : Prop :=
  forall id entries, locks st !! id = Some entries -> lock_ok id entries.

(** When an acquisition is compatible with the holders. *)
Lemma check_compatibility_ok entries o m :
  check_compatibility entries o m = Ok tt <->
  forall e, e ∈ entries -> owner e <> o /\ mode e = Shared /\ m = Shared.
Proof.
  induction entries as [|x entries IH]; cbn.
  - split; [|done]. intros _ e He. by apply elem_of_nil in He.
  - case_bool_decide as Ho; [split; [done|]; intros H; by destruct (H x); [left|]|].
    destruct (mode x) eqn:Em.
    2: { split; [done|]. intros H. destruct (H x) as (_ & Hm & _); [left|congruence]. }
    destruct m.
    2: { split; [done|]. intros H. destruct (H x) as (_ & _ & Hm); [left|done]. }
    rewrite IH. split.
    + intros H e [->|He]%elem_of_cons; [done|by apply H].
    + intros H e He. apply H. by right.
Qed.

Lemma sublist_lock_ok id l k : lock_ok id l -> sublist k l -> k <> [] -> lock_ok id k.
Proof.
  intros [Hs Hid Hnd Hex] Hsub Hk. split; [done| | |].
  - intros e He. apply Hid. by eapply elem_of_sublist.
  - eapply sublist_NoDup; [exact Hnd|]. by apply fmap_sublist.
  - intros e He Hm. pose proof (Hex e (elem_of_sublist _ _ _ He Hsub) Hm) as ->.
    apply sublist_cons_r in Hsub as [Hsub|(k' & -> & Hsub)].
    + by apply sublist_nil_r in Hsub as ->.
    + by apply sublist_nil_r in Hsub as ->.
Qed.

Lemma lock_exec_ok st op : locks_ok st -> locks_ok (lock_exec st op).
Proof.
  intros Hst. destruct op as [entry|r|now]; cbn [lock_exec].
  - unfold lock_acquire. set (entries := default [] (locks st !! lock_id entry)).
    destruct (check_compatibility entries (owner entry) (mode entry)) as [[]|e] eqn:Hc; unfold locks_ok; cbn [snd locks].
    + rewrite check_compatibility_ok in Hc. intros id l [[<- <-]|[_ Hl]]%lookup_insert_Some; [|by apply Hst].
      assert (forall e, e ∈ entries -> lock_id e = lock_id entry) as Hids.
      { subst entries. destruct (locks st !! lock_id entry) as [l|] eqn:El; cbn; [|by intros ? ?%elem_of_nil].
        apply (lo_id _ _ (Hst _ _ El)). }
      assert (NoDup (owner <$> entries)) as Hnd.
      { subst entries. destruct (locks st !! lock_id entry) as [l|] eqn:El; cbn; [|constructor].
        apply (lo_owners _ _ (Hst _ _ El)). }
      clearbody entries. split.
      * by destruct entries.
      * intros e [He| ->%list_elem_of_singleton]%elem_of_app; [by apply Hids|done].
      * rewrite fmap_app. apply NoDup_app. split; [done|]. split; [|apply NoDup_singleton].
        intros o (e & -> & He)%list_elem_of_fmap Ho%list_elem_of_singleton. by apply (Hc e He).
      * intros e [He| ->%list_elem_of_singleton]%elem_of_app Hm.
        -- destruct (Hc e He) as (_ & Hs & _). congruence.
        -- destruct entries as [|x l]; [done|]. destruct (Hc x ltac:(left)) as (_ & _ & Hs). congruence.
    + intros id l [[<- <-]|[_ Hl]]%lookup_insert_Some; [|by apply Hst].
      subst entries. destruct (locks st !! lock_id entry) as [l|] eqn:El; cbn in *; [|done]. by apply Hst.
  - unfold lock_release. destruct (locks st !! release_lock_id r) as [entries|] eqn:El; [|done].
    destruct (list_find _ entries) as [[pos e]|]; [|by case_match]. unfold locks_ok; cbn [snd locks].
    destruct (delete pos entries) as [|x l] eqn:Ed.
    + intros id l [_ Hl]%lookup_delete_Some. by apply Hst.
    + intros id l' [[<- <-]|[_ Hl]]%lookup_insert_Some; [|by apply Hst].
      apply (sublist_lock_ok _ entries); [by apply Hst| |done]. rewrite <- Ed. apply sublist_delete.
  - unfold locks_ok; cbn [snd locks cleanup_expired]. intros id l [Hl Hne]%map_lookup_filter_Some. cbn in Hne.
    apply lookup_fmap_Some in Hl as (entries & <- & Hl).
    apply (sublist_lock_ok _ entries); [by apply Hst| |done]. apply sublist_filter.
Qed.

(** An entry is held, and an operation does not end it: it is neither a release with its
    owner and token nor a cleanup at or after its expiry. *)
Definition is_held (st : InMemoryLockStorage) (e : LockEntry) : Prop :=
  exists entries, locks st !! lock_id e = Some entries /\ e ∈ entries.

Definition keeps_lock (e : LockEntry) (op : LockOp) : Prop :=
  match op with
  | OpAcquire _ => True
  | OpRelease r => ~ (release_lock_id r = lock_id e /\ holds_with (release_owner r) (release_token r) e)
  | OpCleanup now => now < lock_expires_at e
  end.

Lemma held_exec st e op : is_held st e -> keeps_lock e op -> is_held (lock_exec st op) e.
Proof.
  intros (entries & Hl & He) Hop. destruct op as [entry|r|now]; cbn [lock_exec keeps_lock] in *.
  - unfold lock_acquire, is_held. destruct (decide (lock_id entry = lock_id e)) as [E|E].
    + rewrite E, Hl. cbn [from_option id]. destruct (check_compatibility _ _ _); cbn [snd locks];
        rewrite lookup_insert_eq; eexists; (split; [done|]); set_solver.
    + destruct (check_compatibility _ _ _); cbn [snd locks]; rewrite lookup_insert_ne by done; eauto.
  - unfold lock_release. destruct (locks st !! release_lock_id r) as [l|] eqn:El; [|by exists entries].
    destruct (list_find _ l) as [[pos x]|] eqn:Ef; [|case_match; by exists entries].
    apply list_find_Some in Ef as (Hpos & Hx & _). unfold is_held. cbn [snd locks].
    destruct (decide (release_lock_id r = lock_id e)) as [E|E].
    + rewrite E, Hl in El. injection El as <-. apply delete_Permutation in Hpos. rewrite Hpos in He.
      apply elem_of_cons in He as [->|He]; [by destruct Hop|].
      destruct (delete pos entries) as [|y l]; [by apply elem_of_nil in He|].
      rewrite E, lookup_insert_eq. eauto.
    + destruct (delete pos l); [rewrite lookup_delete_ne by done|rewrite lookup_insert_ne by done]; eauto.
  - unfold is_held. cbn [cleanup_expired snd locks]. exists (retain_unexpired now entries).
    assert (e ∈ retain_unexpired now entries) as Hin by (by apply list_elem_of_filter).
    split; [|done]. apply map_lookup_filter_Some. rewrite lookup_fmap, Hl. split; [done|]. cbn.
    intros Hnil. rewrite Hnil in Hin. by apply elem_of_nil in Hin.
Qed.

Lemma held_run st e ops : is_held st e -> Forall (keeps_lock e) ops -> is_held (lock_run st ops) e.
Proof.
  intros Hst Hops. revert st Hst. induction Hops as [|op ops Hop _ IH]; intros st Hst; [done|].
  by apply IH, held_exec.
Qed.

Lemma run_locks_ok st ops : locks_ok st -> locks_ok (lock_run st ops).
Proof. revert st. induction ops as [|op ops IH]; intros st Hst; [done|]. by apply IH, lock_exec_ok. Qed.

(** C19. Mutual exclusion over any history of the store: after an acquisition was granted, and
    until it is released with its own token or a cleanup finds it expired, the entry stays;
    an exclusive entry is the only one of its lock; a further acquisition of the lock is
    granted only to another owner and only when both are shared; and the owner can release
    it with its token. *)
Theorem lock_exclusion before e after :
  let st := lock_run locks_new before in
  (lock_acquire st e).1 = Ok tt -> Forall (keeps_lock e) after ->
  let st' := lock_run (lock_acquire st e).2 after in
  is_held st' e /\
  (mode e = Exclusive -> locks st' !! lock_id e = Some [e]) /\
  (forall e', lock_id e' = lock_id e -> (lock_acquire st' e').1 = Ok tt ->
     owner e' <> owner e /\ mode e = Shared /\ mode e' = Shared) /\
  (lock_release st' (mkRelease (lock_id e) (owner e) (hold_token e))).1 = Ok tt.
Proof.
  cbn zeta. intros Hacq Hafter. set (st := lock_run locks_new before) in *.
  assert (locks_ok st) as Hok by (by apply run_locks_ok).
  set (st1 := (lock_acquire st e).2).
  assert (is_held st1 e) as H1.
  { subst st1. unfold lock_acquire in *. destruct (check_compatibility _ _ _); [|done].
    eexists. cbn [snd locks]. rewrite lookup_insert_eq. split; [done|]. set_solver. }
  assert (locks_ok (lock_run st1 after)) as Hok' by (apply run_locks_ok, (lock_exec_ok st (OpAcquire e)), Hok).
  pose proof (held_run st1 e after H1 Hafter) as Hh. destruct Hh as (entries & Hl & He).
  split; [by exists entries|]. pose proof (Hok' _ _ Hl) as [Hne Hids Hnd Hex]. split_and!.
  - intros Hm. by rewrite Hl, (Hex e He Hm).
  - intros e' Hid. unfold lock_acquire. rewrite Hid, Hl. cbn [from_option id].
    destruct (check_compatibility _ _ _) as [[]|] eqn:Hc; [|done]. intros _.
    rewrite check_compatibility_ok in Hc. destruct (Hc e He) as (Ho & Hs & Hs'). done.
  - unfold lock_release. cbn [release_lock_id release_owner release_token]. rewrite Hl.
    destruct (list_find _ entries) as [[pos x]|] eqn:Ef; [done|]. exfalso.
    apply list_find_None in Ef. rewrite Forall_forall in Ef. by apply (Ef e He).
Qed.

(** ** Witnesses *)

Module LocksWitness.
#[local] Instance sorted_keys : HashOrder := fun V m => (map_to_list m).*1.
#[local] Instance sorted_keys_laws : HashOrderLaws.
Proof. by intros V m. Qed.

(** Two owners that wait for each other, and a third that waits for one of them while a
    fourth is waited for. *)
Definition graph : WaitForGraph :=
  mkGraph [mkWaitEdge "a" "1" Exclusive; mkWaitEdge "b" "2" Exclusive; mkWaitEdge "c" "1" Exclusive;
           mkWaitEdge "a" "3" Exclusive; mkWaitEdge "d" "4" Exclusive]
    (<["1" := "b"]> (<["2" := "a"]> (<["3" := "d"]> (<["4" := "e"]> ∅)))).

(** The report names [d], which is on no cycle, and not [c], which is stuck behind one. *)
Example graph_report :
  match detect_deadlock graph with
  | Some (Some l) => "a" ∈ l /\ "b" ∈ l /\ "d" ∈ l /\ ~ ("c" ∈ l)
  | _ => False
  end.
Proof. vm_compute. set_solver. Qed.

Lemma deadlock_detected_witness : exists r, detect_deadlock graph = Some r.
Proof. destruct (deadlock_detected graph) as (r & E & _). exists r. exact E. Defined.

Definition entry (o : OwnerId) (m : LockMode) : LockEntry := mkLockEntry "l" o m Held 0 100 "token".

Lemma lock_exclusion_witness :
  is_held (lock_run (lock_acquire locks_new (entry "a" Exclusive)).2
    [OpAcquire (entry "b" Shared); OpCleanup 50]) (entry "a" Exclusive).
Proof.
  refine (proj1 (lock_exclusion [] (entry "a" Exclusive) [OpAcquire (entry "b" Shared); OpCleanup 50] _ _)).
  - reflexivity.
  - repeat constructor.
Defined.

(** A lock that has expired long ago is still refused until the next cleanup. *)
Example expired_still_held :
  let st := (lock_acquire locks_new (entry "a" Exclusive)).2 in
  lock_is_expired (entry "a" Exclusive) 1000000 = true /\
  is_ok (lock_acquire st (entry "b" Exclusive)).1 = false /\
  is_ok (lock_acquire (cleanup_expired st 1000000).2 (entry "b" Exclusive)).1 = true.
Proof. by vm_compute. Qed.
End LocksWitness.
