(* ===== verification/HashRing.v ===== *)
(** * The consistent hashing ring

    [crates/vo-worker/src/pool/hash_ring.rs]: which connection pool serves a key. The ring
    maps hash values to pools; every pool has a number of virtual nodes in proportion to its
    weight. The checksum of [crc32fast] and the bytes the [Hash] of a key feeds it are the class
    [RingHash]; the [BTreeMap] is a finite map with its sorted entries. *)

From stdpp Require Import sorting.
From S2P Require Import Prelude Identifiers KeyEncoding.

(** [PoolId]. *)
Abbreviation PoolId := string.

(** The checksum of the bytes a [CrcHasher] was fed, and the bytes [Hash] writes for a key. *)
Class RingHash (K : Type) : Type := {
  crc_finish : list Z -> Z;
  key_bytes : K -> list Z;
}.

(** What [Hash] writes for a [str], its bytes and [0xff], and for a [u32], its little-endian
    bytes. *)
Definition str_hash_bytes (s : string) : list Z := as_bytes s ++ [255].
Definition u32_hash_bytes (n : Z) : list Z :=
  [n mod 256; (n / 256) mod 256; (n / 65536) mod 256; (n / 16777216) mod 256].

(** [struct RingNode]. *)
Record RingNode : Set := mkRingNode {
  pool_id : PoolId;
  weight : Z;
}.

(** [struct HashRing], with the [virtual_nodes] of its [HashRingConfig]. *)
Record HashRing : Set := mkRing {
  virtual_nodes : Z;
  ring : gmap Z RingNode;
  virtual_node_count : gmap PoolId Z;
  total_weight : Z;
}.

(** [HashRingConfig::default]. *)
Definition default_virtual_nodes : Z := 150.

(** [HashRing::new]. *)
Definition ring_new (config : Z) : HashRing := mkRing config ∅ ∅ 0.

(** [0..n]. *)
Definition range_to (n : Z) : list Z := Z.of_nat <$> seq 0 (Z.to_nat n).

Section HashRing.
Context {K : Type} `{RH : !RingHash K}.

(** [HashRing::compute_key] and [hash_key]. *)
Definition compute_key (p : PoolId) (virtual_index : Z) : Z :=
  crc_finish (str_hash_bytes p ++ u32_hash_bytes virtual_index).
Definition hash_key (key : K) : Z := crc_finish (key_bytes key).

(** [HashRing::add_node]. *)
Definition add_node (r : HashRing) (node : RingNode) : HashRing :=
  let p := pool_id node in
  let w := Z.max (weight node) 1 in
  let virtual_count := as_u32 (virtual_nodes r * w) in
  mkRing (virtual_nodes r)
    (foldl (fun m i => <[compute_key p i := mkRingNode p w]> m) (ring r) (range_to virtual_count))
    (<[p := wrapping_add_u32 (default 0 (virtual_node_count r !! p)) virtual_count]> (virtual_node_count r))
    (wrapping_add_u64 (total_weight r) virtual_count).

(** [HashRing::with_nodes]. *)
Definition with_nodes (config : Z) (nodes : list RingNode) : HashRing :=
  foldl add_node (ring_new config) nodes.

(** [HashRing::remove_node]. *)
Definition remove_node (r : HashRing) (p : PoolId) : HashRing :=
  match virtual_node_count r !! p with
  | None => r
  | Some virtual_count =>
      mkRing (virtual_nodes r)
        (foldl (fun m i => delete (compute_key p i) m) (ring r) (range_to virtual_count))
        (delete p (virtual_node_count r))
        (as_u64 (total_weight r - virtual_count))
  end.

(** [self.ring.iter()]: the entries in the order of their keys. *)
Definition by_key (a b : Z * RingNode) : Prop := a.1 <= b.1.
#[global] Instance by_key_dec a b : Decision (by_key a b).
Proof. unfold by_key. apply _. Defined.

Definition ring_entries (r : HashRing) : list (Z * RingNode) := merge_sort by_key (map_to_list (ring r)).

(** [HashRing::get_node]: the first entry from the hash on, or the first of all. *)
Definition get_node (r : HashRing) (key : K) : option PoolId :=
  let hash := hash_key key in
  match list_find (fun e => hash <= e.1) (ring_entries r) with
  | Some (_, e) => Some (pool_id e.2)
  | None => (fun e => pool_id e.2) <$> head (ring_entries r)
  end.

(** The loop of [HashRing::get_nodes]. *)
Fixpoint pick_nodes (entries : list (Z * RingNode)) (start count : nat) (steps : list nat)
    (seen : gset PoolId) (res : list PoolId) : list PoolId :=
  match steps with
  | [] => res
  | i :: steps' =>
      if decide (count <= length res)%nat then res
      else
        match entries !! ((start + i) mod length entries)%nat with
        | None => res
        | Some (_, node) =>
            if decide (pool_id node ∈ seen) then pick_nodes entries start count steps' seen res
            else pick_nodes entries start count steps' ({[pool_id node]} ∪ seen) (res ++ [pool_id node])
        end
  end.

(** [HashRing::get_nodes]. *)
Definition get_nodes (r : HashRing) (key : K) (count : nat) : list PoolId :=
  let entries := ring_entries r in
  match entries, count with
  | [], _ | _, O => []
  | _, _ =>
      let hash := hash_key key in
      let start := match list_find (fun e => hash <= e.1) entries with
                   | Some (i, _) => i
                   | None => length entries
                   end in
      pick_nodes entries start count (seq 0 (length entries)) ∅ []
  end.

(** [HashRing::node_count] and [total_virtual_nodes]. *)
Definition node_count (r : HashRing) : nat := size (virtual_node_count r).
Definition total_virtual_nodes (r : HashRing) : Z := total_weight r.
End HashRing.

(** ** The clockwise successor *)

Section Successor.
Implicit Types (m : gmap Z RingNode) (h k : Z).

(** [k] is the first key of the map from [h] on, around the circle. *)
Definition clockwise m h k : Prop :=
  is_Some (m !! k) /\
  (h <= k /\ (forall k', is_Some (m !! k') -> h <= k' -> k <= k') \/
   (forall k', is_Some (m !! k') -> k' < h) /\ (forall k', is_Some (m !! k') -> k <= k')).

Lemma clockwise_unique m h k k' : clockwise m h k -> clockwise m h k' -> k = k'.
Proof.
  intros [Hk [[H1 H2]|[H1 H2]]] [Hk' [[H3 H4]|[H3 H4]]].
  - pose proof (H2 _ Hk' H3). pose proof (H4 _ Hk H1). lia.
  - pose proof (H3 _ Hk). lia.
  - pose proof (H1 _ Hk'). lia.
  - pose proof (H2 _ Hk'). pose proof (H4 _ Hk). lia.
Qed.

(** In a smaller map that still has it, a successor remains the successor. *)
Lemma clockwise_shrink m m' h k :
  (forall k', is_Some (m' !! k') -> is_Some (m !! k')) -> is_Some (m' !! k) ->
  clockwise m h k -> clockwise m' h k.
Proof. intros Hsub Hin [Hk [[H1 H2]|[H1 H2]]]; split; [done|left; auto|done|right; auto]. Qed.

Context {K : Type} `{RH : !RingHash K}.

Lemma entries_lookup (r : HashRing) k n : (k, n) ∈ ring_entries r <-> ring r !! k = Some n.
Proof. unfold ring_entries. rewrite merge_sort_Permutation. apply elem_of_map_to_list. Qed.

Lemma entries_sorted (r : HashRing) : StronglySorted by_key (ring_entries r).
Proof.
  apply Sorted_StronglySorted; [intros a b c; unfold by_key; lia|]. apply Sorted_merge_sort.
  intros a b. unfold by_key. lia.
Qed.

Lemma sorted_before (l1 l2 : list (Z * RingNode)) e x :
  StronglySorted by_key (l1 ++ e :: l2) -> x ∈ l2 -> e.1 <= x.1.
Proof.
  intros Hs Hx. apply StronglySorted_app_1_r in Hs. apply StronglySorted_inv in Hs as [_ Hf].
  by apply (proj1 (Forall_forall _ _) Hf).
Qed.

(** [get_node] gives the pool at the clockwise successor of the hash. *)
Lemma get_node_spec (r : HashRing) (key : K) p :
  get_node r key = Some p <->
  exists k n, clockwise (ring r) (hash_key key) k /\ ring r !! k = Some n /\ pool_id n = p.
Proof.
  set (h := hash_key key).
  assert (get_node r key = None -> ring r = ∅) as Hnone.
  { unfold get_node. destruct (list_find _ _) as [[i e]|]; [done|].
    destruct (ring_entries r) as [|e l] eqn:El; [|done]. intros _. apply map_eq. intros k.
    rewrite lookup_empty. destruct (ring r !! k) as [n|] eqn:Hn; [|done].
    apply entries_lookup in Hn. rewrite El in Hn. by apply elem_of_nil in Hn. }
  assert (forall q, get_node r key = Some q -> exists k n,
    clockwise (ring r) h k /\ ring r !! k = Some n /\ pool_id n = q) as Hsome.
  { intros q. unfold get_node. fold h. pose proof (entries_sorted r) as Hs.
    destruct (list_find _ _) as [[i [k n]]|] eqn:Ef.
    - intros [= <-]. apply list_find_Some in Ef as (Hi & Hle & Hbefore).
      apply list_elem_of_split_length in Hi as (l1 & l2 & Hl & Hlen). exists k, n.
      assert (ring r !! k = Some n) as Hkn by (apply entries_lookup; rewrite Hl; set_solver).
      split; [|done]. split; [by eexists|]. left. split; [done|]. intros k' [n' Hk'] Hh.
      apply entries_lookup in Hk'. rewrite Hl in Hk', Hs. apply elem_of_app in Hk' as [Hk'|[Hk'|Hk']%elem_of_cons].
      + apply list_elem_of_lookup in Hk' as [j Hj]. pose proof (lookup_lt_Some _ _ _ Hj).
        destruct (Hbefore j (k', n')); [|lia|done]. rewrite Hl. by apply lookup_app_l_Some.
      + by injection Hk' as -> ->.
      + by apply (sorted_before l1 l2 (k, n) (k', n')) in Hk'.
    - destruct (ring_entries r) as [|[k n] l] eqn:El; [done|]. intros [= <-]. exists k, n.
      assert (ring r !! k = Some n) as Hkn by (apply entries_lookup; rewrite El; left).
      split; [|done]. split; [by eexists|]. right. apply list_find_None in Ef.
      split; intros k' [n' Hk']; apply entries_lookup in Hk'; rewrite El in Hk'.
      + rewrite Forall_forall in Ef. specialize (Ef _ Hk'). cbn in Ef. lia.
      + apply elem_of_cons in Hk' as [[= -> ->]|Hk']; [lia|].
        by apply (sorted_before [] l (k, n) (k', n')) in Hk'. }
  split; [apply Hsome|]. intros (k & n & Hc & Hn & <-).
  destruct (get_node r key) as [q|] eqn:Eq.
  - destruct (Hsome q eq_refl) as (k' & n' & Hc' & Hn' & <-).
    rewrite (clockwise_unique _ _ _ _ Hc Hc') in Hn. congruence.
  - rewrite Hnone in Hn by done. by rewrite lookup_empty in Hn.
Qed.

(** A ring that is not empty serves every key. *)
Lemma get_node_total (r : HashRing) (key : K) k n : ring r !! k = Some n -> is_Some (get_node r key).
Proof.
  intros Hn%entries_lookup. unfold get_node. destruct (list_find _ _) as [[? ?]|]; [by eexists|].
  destruct (ring_entries r); [by apply elem_of_nil in Hn|by eexists].
Qed.
End Successor.

(** ** Adding and removing pools *)

Section Membership.
Context {K : Type} `{RH : !RingHash K}.
Implicit Types (r : HashRing) (p q : PoolId) (k : Z).

Lemma range_to_elem n i : i ∈ range_to n <-> 0 <= i < n.
Proof.
  unfold range_to. rewrite list_elem_of_fmap. split.
  - intros (j & -> & Hj%elem_of_seq). lia.
  - intros Hi. exists (Z.to_nat i). split; [lia|]. apply elem_of_seq. lia.
Qed.

Lemma lookup_inserts p (x : RingNode) (l : list Z) (m : gmap Z RingNode) k n :
  foldl (fun m i => <[compute_key p i := x]> m) m l !! k = Some n <->
  (exists i, i ∈ l /\ k = compute_key p i) /\ n = x \/
  (forall i, i ∈ l -> compute_key p i <> k) /\ m !! k = Some n.
Proof.
  revert m. induction l as [|i l IH]; intros m; cbn [foldl].
  { split; [right; split; [by intros ? ?%elem_of_nil|done]|]. intros [[(i & Hi & _) _]|[_ ?]]; [|done].
    by apply elem_of_nil in Hi. }
  rewrite IH, lookup_insert_Some. split.
  - intros [[(j & Hj & ->) ->]|[Hl [[<- <-]|[Hne Hm]]]].
    + left. split; [|done]. exists j. split; [by right|done].
    + left. split; [|done]. exists i. split; [left|done].
    + right. split; [|done]. intros j [->|Hj]%elem_of_cons; [done|by apply Hl].
  - intros [[(j & [->|Hj]%elem_of_cons & ->) ->]|[Hl Hm]].
    + destruct (decide (Exists (fun j => compute_key p j = compute_key p i) l)) as [He|He].
      * apply Exists_exists in He as (j & Hj & Hji). left. split; [|done]. exists j. by rewrite Hji.
      * right. split; [|by left]. intros j Hj Hji. apply He, Exists_exists. eauto.
    + left. split; [|done]. by exists j.
    + right. split; [intros j Hj; apply Hl; by right|]. right. split; [apply Hl; left|done].
Qed.

Lemma lookup_deletes p (l : list Z) (m : gmap Z RingNode) k n :
  foldl (fun m i => delete (compute_key p i) m) m l !! k = Some n <->
  (forall i, i ∈ l -> compute_key p i <> k) /\ m !! k = Some n.
Proof.
  revert m. induction l as [|i l IH]; intros m; cbn [foldl].
  { split; [intros Hm; split; [by intros ? ?%elem_of_nil|done]|by intros [_ ?]]. }
  rewrite IH, lookup_delete_Some. split.
  - intros [Hl [Hne Hm]]. split; [|done]. intros j [->|Hj]%elem_of_cons; [done|by apply Hl].
  - intros [Hl Hm]. split; [intros j Hj; apply Hl; by right|]. split; [apply Hl; left|done].
Qed.

(** A new pool only takes keys over. *)
Lemma add_moves_to_new r node (key : K) :
  get_node (add_node r node) key = get_node r key \/
  get_node (add_node r node) key = Some (pool_id node).
Proof.
  set (w := Z.max (weight node) 1). set (l := range_to (as_u32 (virtual_nodes r * w))).
  assert (forall k n, ring (add_node r node) !! k = Some n <->
    (exists i, i ∈ l /\ k = compute_key (pool_id node) i) /\ n = mkRingNode (pool_id node) w \/
    (forall i, i ∈ l -> compute_key (pool_id node) i <> k) /\ ring r !! k = Some n) as Hl
    by (intros k n; apply lookup_inserts).
  assert (forall k, is_Some (ring r !! k) -> is_Some (ring (add_node r node) !! k)) as Hsub.
  { intros k [n Hn]. destruct (decide (Exists (fun i => compute_key (pool_id node) i = k) l)) as [He|He].
    - apply Exists_exists in He as (i & Hi & <-). eexists. apply Hl. left. by eauto.
    - exists n. apply Hl. right. split; [|done]. intros i Hi Hik. apply He, Exists_exists. eauto. }
  destruct (get_node (add_node r node) key) as [p|] eqn:Ep.
  - apply get_node_spec in Ep as (k & n & Hc & Hn & <-). apply Hl in Hn as [[_ ->]|[_ Hn]]; [by right|].
    left. symmetry. apply get_node_spec. exists k, n. split; [|done].
    by apply (clockwise_shrink (ring (add_node r node))).
  - left. destruct (get_node r key) as [p|] eqn:Er; [|done].
    apply get_node_spec in Er as (k & n & Hc & Hn & _).
    destruct (Hsub k) as [n' Hn']; [by eexists|].
    destruct (get_node_total (add_node r node) key _ _ Hn'). congruence.
Qed.

(** The calls that change the ring, and the virtual nodes they add. *)
Inductive RingOp : Set := AddNode (node : RingNode) | RemoveNode (p : PoolId).

Definition ring_exec r (op : RingOp) : HashRing :=
  match op with AddNode node => add_node r node | RemoveNode p => remove_node r p end.

Definition ring_run r (ops : list RingOp) : HashRing := foldl ring_exec r ops.

Definition added (config : Z) (op : RingOp) : Z :=
  match op with AddNode node => config * Z.max (weight node) 1 | RemoveNode _ => 0 end.

Definition total_added (config : Z) (ops : list RingOp) : Z :=
  foldr (fun op z => added config op + z) 0 ops.

Definition pools_of (ops : list RingOp) : list PoolId :=
  omap (fun op => match op with AddNode node => Some (pool_id node) | RemoveNode _ => None end) ops.

(** The pools added and not removed since. *)
Definition members (ops : list RingOp) : gset PoolId :=
  foldl (fun s op => match op with
                     | AddNode node => {[pool_id node]} ∪ s
                     | RemoveNode p => s ∖ {[p]}
                     end) ∅ ops.

Lemma registered_members config ops p :
  is_Some (virtual_node_count (ring_run (ring_new config) ops) !! p) <-> p ∈ members ops.
Proof.
  unfold ring_run, members. induction ops as [|op ops IH] using rev_ind.
  { cbn. rewrite lookup_empty. split; [by intros []|set_solver]. }
  rewrite !foldl_snoc. set (r := foldl ring_exec _ ops) in *. set (M := foldl _ ∅ ops) in *.
  destruct op as [node|q]; cbn [ring_exec].
  - unfold add_node. cbn [virtual_node_count]. destruct (decide (pool_id node = p)) as [<-|Hne].
    + rewrite lookup_insert_eq. set_solver.
    + rewrite lookup_insert_ne, IH by done. set_solver.
  - unfold remove_node. destruct (virtual_node_count r !! q) as [c|] eqn:Eq.
    + cbn [virtual_node_count]. destruct (decide (q = p)) as [<-|Hne].
      * rewrite lookup_delete_eq. split; [by intros []|set_solver].
      * rewrite lookup_delete_ne, IH by done. set_solver.
    + rewrite IH. destruct (decide (q = p)) as [<-|Hne]; [|set_solver].
      split; [|set_solver]. intros Hp. apply IH in Hp as [? ?]. congruence.
Qed.

(** The first [bound] virtual nodes of different pools have different places. *)
Definition no_collisions (bound : Z) (ps : list PoolId) : Prop :=
  forall p q i j, p ∈ ps -> q ∈ ps -> p <> q -> 0 <= i < bound -> 0 <= j < bound ->
  compute_key p i <> compute_key q j.

(** Every entry is a virtual node of a registered pool, and the first virtual node of every
    registered pool is there; [budget] bounds their number. *)
Record ring_wf (config budget : Z) (ps : list PoolId) r : Prop := {
  rw_config : virtual_nodes r = config;
  rw_pools : forall p, is_Some (virtual_node_count r !! p) -> p ∈ ps;
  rw_count : forall p c, virtual_node_count r !! p = Some c -> 0 <= c <= budget;
  rw_owned : forall k n, ring r !! k = Some n -> exists c i,
    virtual_node_count r !! pool_id n = Some c /\ 0 <= i < c /\ k = compute_key (pool_id n) i;
  rw_present : 0 < config -> forall p, is_Some (virtual_node_count r !! p) ->
    1 <= budget /\ exists n, ring r !! compute_key p 0 = Some n /\ pool_id n = p;
}.

Lemma as_u32_small z : 0 <= z <= u32_max -> as_u32 z = z.
Proof. intros Hz. apply Z.mod_small. unfold u32_max in *. lia. Qed.

Lemma add_wf config budget ps r node :
  0 <= config -> 0 <= budget -> ring_wf config budget ps r ->
  budget + config * Z.max (weight node) 1 <= u32_max ->
  no_collisions (budget + config * Z.max (weight node) 1) (ps ++ [pool_id node]) ->
  ring_wf config (budget + config * Z.max (weight node) 1) (ps ++ [pool_id node]) (add_node r node).
Proof.
  intros Hc Hb [Hcfg Hps Hcnt Hown Hpre] Hfit Hnc. set (vc := config * Z.max (weight node) 1) in *.
  assert (0 <= vc) as Hvc by (subst vc; nia).
  assert (as_u32 (virtual_nodes r * Z.max (weight node) 1) = vc) as Evc
    by (rewrite Hcfg; apply as_u32_small; lia).
  assert (0 <= default 0 (virtual_node_count r !! pool_id node) <= budget) as Hold.
  { destruct (virtual_node_count r !! pool_id node) as [c|] eqn:E; cbn; [by eapply Hcnt|lia]. }
  unfold add_node. rewrite Evc. unfold wrapping_add_u32. rewrite as_u32_small by lia. split; cbn.
  - done.
  - intros p Hp. destruct (decide (pool_id node = p)) as [<-|Hne]; [set_solver|].
    rewrite lookup_insert_ne in Hp by done. apply elem_of_app. left. by apply Hps.
  - intros p c [[<- <-]|[_ Hp]]%lookup_insert_Some; [lia|]. pose proof (Hcnt _ _ Hp). lia.
  - intros k n Hk. apply lookup_inserts in Hk as [[(i & Hi%range_to_elem & ->) ->]|[_ Hk]].
    + cbn. rewrite lookup_insert_eq. eexists _, i. split; [done|]. split; [lia|done].
    + destruct (Hown _ _ Hk) as (c & i & Hp & Hi & ->).
      destruct (decide (pool_id node = pool_id n)) as [E|Hne].
      * rewrite E, lookup_insert_eq, Hp. eexists _, i. cbn. split; [done|]. split; [lia|done].
      * rewrite lookup_insert_ne by done. eauto.
  - intros Hpos p Hp. assert (1 <= vc) by (subst vc; nia). split; [lia|].
    setoid_rewrite lookup_inserts. setoid_rewrite range_to_elem.
    destruct (decide (pool_id node = p)) as [<-|Hne].
    + eexists. split; [left; split; [exists 0; split; [lia|done]|done]|done].
    + rewrite lookup_insert_ne in Hp by done. destruct (Hpre Hpos p Hp) as (Hb1 & n & Hn & Hpn).
      exists n. split; [|done]. right. split; [|done]. intros i Hi.
      apply Hnc; [set_solver|specialize (Hps p Hp); set_solver|done|lia|lia].
Qed.

Lemma remove_lookup config budget ps r p k n :
  ring_wf config budget ps r -> no_collisions budget ps -> p ∈ ps ->
  ring (remove_node r p) !! k = Some n <-> ring r !! k = Some n /\ pool_id n <> p.
Proof.
  intros [Hcfg Hps Hcnt Hown _] Hnc Hp. unfold remove_node.
  destruct (virtual_node_count r !! p) as [c|] eqn:Ec; cbn.
  - rewrite lookup_deletes. split.
    + intros [Hl Hk]. split; [done|]. intros E. destruct (Hown _ _ Hk) as (c' & i & Hc' & Hi & ->).
      rewrite E in Hc', Hl. rewrite Ec in Hc'. injection Hc' as <-.
      by apply (Hl i); [by apply range_to_elem|].
    + intros [Hk Hne]. split; [|done]. intros i Hi%range_to_elem.
      destruct (Hown _ _ Hk) as (c' & j & Hc' & Hj & ->).
      pose proof (Hcnt _ _ Ec). pose proof (Hcnt _ _ Hc').
      apply Hnc; [done| |done|lia|lia]. apply Hps. by rewrite Hc'.
  - split; [|by intros [? _]]. intros Hk. split; [done|]. intros E.
    destruct (Hown _ _ Hk) as (c' & j & Hc' & _ & _). congruence.
Qed.

Lemma remove_wf config budget ps r p :
  ring_wf config budget ps r -> no_collisions budget ps -> p ∈ ps -> ring_wf config budget ps (remove_node r p).
Proof.
  intros Hr Hnc Hp. pose proof (fun k n => remove_lookup config budget ps r p k n Hr Hnc Hp) as Hl.
  destruct Hr as [Hcfg Hps Hcnt Hown Hpre].
  assert (virtual_nodes (remove_node r p) = config /\
    virtual_node_count (remove_node r p) = delete p (virtual_node_count r)) as [Hcfg' Hcnt'].
  { unfold remove_node. destruct (virtual_node_count r !! p) eqn:E; [done|]. by rewrite delete_id. }
  split; rewrite ?Hcnt'.
  - done.
  - intros q [c [_ Hq]%lookup_delete_Some]. apply Hps. by eexists.
  - intros q c [_ Hq]%lookup_delete_Some. by eapply Hcnt.
  - intros k n [Hk Hne]%Hl. destruct (Hown _ _ Hk) as (c & i & Hc & Hi & ->).
    exists c, i. rewrite lookup_delete_ne by done. done.
  - intros Hpos q [c [Hne Hq]%lookup_delete_Some].
    destruct (Hpre Hpos q) as (Hb & n & Hn & <-); [by eexists|]. split; [done|]. exists n.
    split; [|done]. by apply Hl.
Qed.

Lemma no_collisions_sub b c ps qs : no_collisions c qs -> b <= c -> ps ⊆ qs -> no_collisions b ps.
Proof. intros Hnc Hle Hsub p q i j Hp Hq Hne Hi Hj. apply Hnc; auto; lia. Qed.

Lemma total_added_nonneg config ops : 0 <= config -> 0 <= total_added config ops.
Proof.
  intros Hc. induction ops as [|[node|p] ops IH]; cbn; [done|..]; fold (total_added config ops); nia.
Qed.

Lemma run_wf config budget ps r ops :
  0 <= config -> 0 <= budget -> ring_wf config budget ps r ->
  budget + total_added config ops <= u32_max ->
  no_collisions (budget + total_added config ops) (ps ++ pools_of ops) ->
  ring_wf config (budget + total_added config ops) (ps ++ pools_of ops) (ring_run r ops).
Proof.
  intros Hc. revert budget ps r. induction ops as [|op ops IH]; intros budget ps r Hb Hr Hfit Hnc.
  { cbn. by rewrite app_nil_r, Z.add_0_r. }
  pose proof (total_added_nonneg config ops Hc) as Hpos. cbn [total_added foldr] in *. fold (total_added config ops) in *.
  destruct op as [node|p]; cbn [pools_of omap list_omap added] in *.
  - assert (0 <= config * Z.max (weight node) 1) as Hadd by nia.
    rewrite Z.add_assoc in *. rewrite (cons_middle (pool_id node)), app_assoc in Hnc |- *.
    apply (IH (budget + config * Z.max (weight node) 1)); [lia|apply add_wf; [done|done|done|lia|]|lia|done].
    eapply no_collisions_sub; [exact Hnc|lia|set_solver].
  - rewrite Z.add_0_l in *. apply (IH budget ps (remove_node r p)); [done| |lia|done].
    destruct (decide (p ∈ ps)) as [Hp|Hp].
    + apply remove_wf; [done| |done]. eapply no_collisions_sub; [exact Hnc|lia|set_solver].
    + unfold remove_node. destruct (virtual_node_count r !! p) as [c|] eqn:E; [|done].
      destruct Hp. apply (rw_pools _ _ _ _ Hr). by rewrite E.
Qed.

(** C23. Consistent hashing, in a ring with a positive number of virtual nodes, made by adding
    and removing pools whose virtual nodes do not collide: a key is served by the pool that
    owns the first place of the ring from the hash of the key on, or the first place of all
    when there is none from there on; that is a pool that was added and not removed since, and
    as long as there is such a pool every key is served; adding a pool puts all its virtual
    nodes on the ring and moves keys to the new pool only; and removing a pool moves the keys
    it served, and no others, to other pools. *)
Theorem ring_minimal_disruption config ops :
  0 < config -> total_added config ops <= u32_max ->
  no_collisions (total_added config ops) (pools_of ops) ->
  let r := ring_run (ring_new config) ops in
  forall key : K,
  (forall p, get_node r key = Some p <-> exists k n,
     clockwise (ring r) (hash_key key) k /\ ring r !! k = Some n /\ pool_id n = p) /\
  (forall p, get_node r key = Some p -> p ∈ members ops) /\
  (members ops <> ∅ -> is_Some (get_node r key)) /\
  (forall node i, config * Z.max (weight node) 1 <= u32_max -> 0 <= i < config * Z.max (weight node) 1 ->
     ring (add_node r node) !! compute_key (pool_id node) i
     = Some (mkRingNode (pool_id node) (Z.max (weight node) 1))) /\
  (forall node, get_node (add_node r node) key = get_node r key \/
                get_node (add_node r node) key = Some (pool_id node)) /\
  (forall p, get_node (remove_node r p) key <> Some p /\
             (get_node r key <> Some p -> get_node (remove_node r p) key = get_node r key)).
Proof.
  intros Hpos Hfit Hnc. cbn zeta. intros key. assert (0 <= config) as Hc by lia.
  assert (ring_wf config 0 [] (ring_new config)) as H0.
  { split; cbn; [done|..]; (intros ? *; rewrite lookup_empty; by try intros [? ?]). }
  pose proof (run_wf config 0 [] (ring_new config) ops Hc ltac:(lia) H0 ltac:(lia) Hnc) as Hr.
  rewrite Z.add_0_l in Hr.
  set (r := ring_run (ring_new config) ops) in *. cbn [app] in Hr. split_and!.
  - apply get_node_spec.
  - intros p (k & n & _ & Hn & <-)%get_node_spec. apply (registered_members config).
    destruct (rw_owned _ _ _ _ Hr _ _ Hn) as (c & i & Hcn & _). fold r. by rewrite Hcn.
  - intros [p Hp]%set_choose_L. apply (registered_members config) in Hp.
    destruct (rw_present _ _ _ _ Hr Hpos p Hp) as (_ & n & Hn & _). by apply (get_node_total r key _ n Hn).
  - intros node i Hle Hi. cbn [add_node ring]. apply lookup_inserts. left. split; [|done]. exists i.
    split; [|done]. apply range_to_elem. rewrite (rw_config _ _ _ _ Hr), as_u32_small; lia.
  - intros node. apply add_moves_to_new.
  - intros p. destruct (decide (p ∈ pools_of ops)) as [Hp|Hp].
    + pose proof (fun k n => remove_lookup config _ _ r p k n Hr Hnc Hp) as Hl.
      assert (forall q, get_node (remove_node r p) key = Some q -> q <> p) as Hne.
      { intros q (k & n & _ & Hn & <-)%get_node_spec. by apply Hl in Hn as [_ ?]. }
      split; [intros E; by apply (Hne p E)|]. intros Hk.
      destruct (get_node r key) as [q|] eqn:Eq.
      * apply get_node_spec in Eq as (k & n & Hcw & Hn & <-).
        assert (ring (remove_node r p) !! k = Some n) as Hn'.
        { apply Hl. split; [done|]. intros E. by rewrite E in Hk. }
        apply get_node_spec. exists k, n. split; [|done].
        apply (clockwise_shrink (ring r)); [|by eexists|done].
        intros k' [n' [? _]%Hl]. by eexists.
      * destruct (get_node (remove_node r p) key) as [q|] eqn:Eq'; [|done]. exfalso.
        apply get_node_spec in Eq' as (k & n & _ & [Hn _]%Hl & _).
        destruct (get_node_total r key _ _ Hn). congruence.
    + assert (virtual_node_count r !! p = None) as Hnone.
      { destruct (virtual_node_count r !! p) as [c|] eqn:E; [|done].
        destruct Hp. apply (rw_pools _ _ _ _ Hr). by rewrite E. }
      unfold remove_node. rewrite Hnone. split; [|done].
      intros (k & n & _ & Hn & E)%get_node_spec.
      destruct (rw_owned _ _ _ _ Hr _ _ Hn) as (c & i & Hcn & _). congruence.
Qed.
End Membership.

(** ** Several pools for a key *)

Section Replicas.
Context {K : Type} `{RH : !RingHash K}.

(** The pools in the order in which the loop visits them. *)
Definition visited (entries : list (Z * RingNode)) (start : nat) (steps : list nat) : list PoolId :=
  omap (fun i => (fun e => pool_id e.2) <$> entries !! ((start + i) mod length entries)%nat) steps.

Lemma pick_nodes_spec entries start count steps seen res :
  entries <> [] -> (forall p, p ∈ seen <-> p ∈ res) -> NoDup res -> (length res <= count)%nat ->
  let out := pick_nodes entries start count steps seen res in
  NoDup out /\ res `prefix_of` out /\ (length out <= count)%nat /\
  (forall p, p ∈ out -> p ∈ res \/ p ∈ visited entries start steps) /\
  ((length out < count)%nat -> forall p, p ∈ visited entries start steps -> p ∈ out) /\
  (forall p l, res = [] -> visited entries start steps = p :: l -> (0 < count)%nat -> head out = Some p).
Proof.
  intros Hne. revert seen res. induction steps as [|i steps IH]; intros seen res Hseen Hnd Hlen;
    cbn [pick_nodes]; cbn zeta.
  { split_and!; try done; [by left|by intros _ p Hp%elem_of_nil]. }
  destruct (decide (count <= length res)%nat) as [Hfull|Hfull].
  { split_and!; try done; [by left|lia|]. intros p l -> _ Hc. cbn in Hfull. lia. }
  assert (exists k node, entries !! ((start + i) mod length entries)%nat = Some (k, node)) as (k & node & Hn).
  { destruct (lookup_lt_is_Some_2 entries ((start + i) mod length entries)%nat) as [[k node] Hn]; [|eauto].
    apply Nat.mod_upper_bound. by destruct entries. }
  assert (visited entries start (i :: steps) = pool_id node :: visited entries start steps) as Hv
    by (unfold visited; cbn; by rewrite Hn).
  rewrite Hn, Hv. destruct (decide (pool_id node ∈ seen)) as [Hin|Hin].
  - destruct (IH seen res Hseen Hnd Hlen) as (H1 & H2 & H3 & H4 & H5 & _). split_and!; try done.
    + intros p Hp. destruct (H4 p Hp) as [?|?]; [by left|right; by right].
    + intros Hl p [->|Hp]%elem_of_cons; [|by apply H5].
      apply Hseen in Hin. by eapply elem_of_prefix.
    + intros p l -> _ _. by apply Hseen, elem_of_nil in Hin.
  - destruct (IH ({[pool_id node]} ∪ seen) (res ++ [pool_id node])) as (H1 & H2 & H3 & H4 & H5 & _).
    + intros p. rewrite elem_of_union, elem_of_singleton, elem_of_app, list_elem_of_singleton, Hseen. naive_solver.
    + apply NoDup_app. split; [done|]. split; [|apply NoDup_singleton].
      intros p Hp ->%list_elem_of_singleton. by apply Hin, Hseen.
    + rewrite length_app. cbn. lia.
    + split_and!; try done.
      * etrans; [|exact H2]. by apply prefix_app_r.
      * intros p Hp. destruct (H4 p Hp) as [[?|?%list_elem_of_singleton]%elem_of_app|?];
          [by left|right; subst; left|right; by right].
      * intros Hl p [->|Hp]%elem_of_cons; [|by apply H5]. eapply elem_of_prefix; [|exact H2]. set_solver.
      * intros p l -> [= <- <-] _. destruct H2 as [rest Hrest]. by rewrite Hrest.
Qed.

(** The loop goes once around the circle. *)
Lemma visited_all entries start p :
  (start <= length entries)%nat ->
  p ∈ visited entries start (seq 0 (length entries)) <-> exists e, e ∈ entries /\ pool_id e.2 = p.
Proof.
  intros Hs. unfold visited. rewrite list_elem_of_omap. split.
  - intros (i & _ & Hi). destruct (entries !! _) as [e|] eqn:He; [|done]. injection Hi as <-.
    exists e. split; [|done]. by eapply list_elem_of_lookup_2.
  - intros (e & [j Hj]%list_elem_of_lookup & <-). pose proof (lookup_lt_Some _ _ _ Hj) as Hlt.
    destruct (decide (start <= j)%nat) as [Hle|Hgt].
    + exists (j - start)%nat. split; [apply elem_of_seq; lia|].
      replace (start + (j - start))%nat with j by lia. by rewrite Nat.mod_small, Hj.
    + exists (j + length entries - start)%nat. split; [apply elem_of_seq; lia|].
      replace (start + (j + length entries - start))%nat with (j + 1 * length entries)%nat by lia.
      by rewrite Nat.Div0.mod_add, Nat.mod_small, Hj.
Qed.

(** The pools chosen for a key: different pools of the ring, the one that serves the key
    first, no more than were asked for; and when there are fewer, they are all there is. *)
Theorem ring_replicas r (key : K) count :
  let out := get_nodes r key count in
  NoDup out /\ (length out <= count)%nat /\
  (forall p, p ∈ out -> exists k n, ring r !! k = Some n /\ pool_id n = p) /\
  ((length out < count)%nat -> forall k n, ring r !! k = Some n -> pool_id n ∈ out) /\
  ((0 < count)%nat -> head out = get_node r key).
Proof.
  cbn zeta. pose proof (entries_lookup r) as Hl. unfold get_nodes, get_node.
  destruct (ring_entries r) as [|e0 l] eqn:El.
  { cbn. split_and!; [constructor|lia|by intros p ?%elem_of_nil| |done].
    intros _ k n Hn%Hl. by apply elem_of_nil in Hn. }
  destruct count as [|count'].
  { split_and!; [constructor|done|by intros p ?%elem_of_nil|cbn; lia|lia]. }
  set (entries := e0 :: l) in *. set (count := S count') in *.
  set (start := match list_find _ entries with Some (i, _) => i | None => _ end).
  assert (start <= length entries)%nat as Hstart.
  { subst start. destruct (list_find _ entries) as [[i e]|] eqn:Ef; [|done].
    apply list_find_Some in Ef as [Hi _]. apply lookup_lt_Some in Hi. lia. }
  destruct (pick_nodes_spec entries start count (seq 0 (length entries)) ∅ [])
    as (H1 & _ & H3 & H4 & H5 & H6); [done|set_solver|constructor|cbn; lia|]. split_and!; [done..| | |].
  - intros p Hp. destruct (H4 p Hp) as [?%elem_of_nil|Hv]; [done|].
    apply visited_all in Hv as ([k n] & Hin%Hl & <-); [|done]. by exists k, n.
  - intros Hlt k n Hn%Hl. apply H5; [done|]. apply visited_all; [done|]. by exists (k, n).
  - intros Hc.
    assert (exists e, entries !! (start mod length entries)%nat = Some e /\
      match list_find (fun e => hash_key key <= e.1) entries with
      | Some (_, e) => Some (pool_id e.2)
      | None => (fun e => pool_id e.2) <$> head entries
      end = Some (pool_id e.2)) as (e & He & ->).
    { subst start. destruct (list_find _ entries) as [[i e]|] eqn:Ef.
      - apply list_find_Some in Ef as [Hi _]. exists e.
        rewrite Nat.mod_small by (by apply lookup_lt_Some in Hi). done.
      - exists e0. by rewrite Nat.Div0.mod_same. }
    apply (H6 _ (visited entries start (seq 1 (length l)))); [done| |done].
    change (seq 0 (length entries)) with (0%nat :: seq 1 (length l)). unfold visited at 1.
    rewrite <- (Nat.add_0_r start) in He. cbn [omap list_omap]. by rewrite He.
Qed.
End Replicas.

(** ** Witnesses *)

Module HashRingWitness.
(** A hash under which the pools [a], [b] and [c] keep apart. *)
#[local] Instance spread : RingHash Z := {|
  crc_finish := fun bs => match bs with b :: 255 :: i :: _ => 3 * i + (b - 97) | b :: _ => b | [] => 0 end;
  key_bytes := fun z => [z];
|}.

Definition history : list RingOp :=
  [AddNode (mkRingNode "a" 1); AddNode (mkRingNode "b" 0); AddNode (mkRingNode "c" 2); RemoveNode "b"].

Lemma spread_key c i : compute_key (String c "") i = 3 * (i mod 256) + (Z.of_nat (Ascii.nat_of_ascii c) - 97).
Proof. done. Qed.

Lemma history_apart : no_collisions (total_added 2 history) (pools_of history).
Proof.
  intros p q i j Hp Hq Hne _ _. cbn in Hp, Hq.
  repeat (apply elem_of_cons in Hp as [->|Hp]; [|]); try by apply elem_of_nil in Hp.
  all: repeat (apply elem_of_cons in Hq as [->|Hq]; [|]); try by apply elem_of_nil in Hq.
  all: try done; rewrite !spread_key; vm_compute (Z.of_nat _); lia.
Qed.

Lemma ring_minimal_disruption_witness :
  members history = {["a"; "c"]} /\
  is_Some (get_node (ring_run (ring_new 2) history) 200) /\
  get_node (remove_node (ring_run (ring_new 2) history) "c") 5 <> Some "c".
Proof.
  assert (total_added 2 history <= u32_max) as Hfit by (vm_compute; discriminate).
  assert (members history = {["a"; "c"]}) as Hm by (vm_compute; reflexivity).
  split; [exact Hm|]. split.
  - destruct (ring_minimal_disruption 2 history ltac:(lia) Hfit history_apart 200) as (_ & _ & Hs & _).
    apply Hs. rewrite Hm. discriminate.
  - destruct (ring_minimal_disruption 2 history ltac:(lia) Hfit history_apart 5) as (_ & _ & _ & _ & _ & Hrem).
    exact (proj1 (Hrem "c")).
Defined.

(** With colliding virtual nodes, removing one pool takes another out of service. *)
Definition colliding : RingHash Z := {|
  crc_finish := fun bs => match bs with _ :: 255 :: i :: _ => i | b :: _ => b | [] => 0 end;
  key_bytes := fun z => [z];
|}.

Example collision_loses_pool :
  let r := ring_run (RH := colliding) (ring_new 2) [AddNode (mkRingNode "a" 1); AddNode (mkRingNode "b" 1)] in
  node_count (remove_node (RH := colliding) r "a") = 1%nat /\
  get_node (RH := colliding) (remove_node (RH := colliding) r "a") 0 = None.
Proof. by vm_compute. Qed.
End HashRingWitness.
