(* ===== verification/Shedding.v ===== *)
(** * Load shedding and write budgets

    [crates/vo-core/src/shedding.rs], the semaphore that bounds the running binaries, and
    the [WriteClass] and [WriteBudget] of [crates/vo-core/src/write_class.rs]. The
    [tokio] semaphore is a class with its documented behaviour; counters are [usize] and
    [u64] of 64 bits. *)

From S2P Require Import Prelude Identifiers.

(** ** The load shedding semaphore *)

(** [tokio::sync::Semaphore]: [available_permits], [try_acquire_many_owned] and the return
    of a permit when it is dropped. *)
Class SemaphoreApi : Type := {
  Semaphore : Type;
  semaphore_new : Z -> Semaphore;
  available : Semaphore -> Z;
  try_take : Semaphore -> Z -> option Semaphore;
  give_back : Semaphore -> Z -> Semaphore;
}.

Class SemaphoreLaws `{SA : SemaphoreApi} : Prop := {
  new_available : forall n, available (semaphore_new n) = n;
  try_take_spec : forall s n,
    match try_take s n with
    | Some s' => n <= available s /\ available s' = available s - n
    | None => available s < n
    end;
  give_back_available : forall s n, available (give_back s n) = available s + n;
}.

Definition MAX_CONCURRENT_BINARIES : Z := 500.
Definition MAX_YIELDED_ACTORS : Z := 5000.

(** [enum SemaphoreLimitError]. *)
Inductive SemaphoreLimitError : Set :=
| LimitReached (current_permits requested : Z)
| LoadSheddingActive (yielded_actors threshold : Z).

(** [SemaphoreLimitError::is_load_shedding]. *)
Definition is_load_shedding (e : SemaphoreLimitError) : bool :=
  match e with LoadSheddingActive _ _ => true | LimitReached _ _ => false end.

(** [struct SemaphorePermit]: the permits it was asked for, and those of the inner permit,
    which are a [u32]. *)
Record SemaphorePermit : Set := mkPermit { permits : Z; inner_permits : Z }.

Section Semaphore.
Context `{SA : SemaphoreApi}.

(** [struct LoadSheddingSemaphore]. *)
Record LoadSheddingSemaphore : Type := mkShedding {
  semaphore : Semaphore;
  max_permits : Z;
  acquired : Z;
}.

(** [LoadSheddingSemaphore::new] and [with_default_limit]. *)
Definition shedding_new (max : Z) : LoadSheddingSemaphore := mkShedding (semaphore_new max) max 0.
Definition with_default_limit : LoadSheddingSemaphore := shedding_new MAX_CONCURRENT_BINARIES.

(** [LoadSheddingSemaphore::available_permits] and [acquired_count]. *)
Definition available_permits (s : LoadSheddingSemaphore) : Z := available (semaphore s).
Definition acquired_count (s : LoadSheddingSemaphore) : Z := acquired s.

(** [LoadSheddingSemaphore::try_acquire_many], also [try_acquire]; [permits as u32]. *)
Definition try_acquire_many (s : LoadSheddingSemaphore) (n : Z)
  : result SemaphoreLimitError SemaphorePermit * LoadSheddingSemaphore :=
  match try_take (semaphore s) (as_u32 n) with
  | Some sem => (Ok (mkPermit n (as_u32 n)), mkShedding sem (max_permits s) (wrapping_add_u64 (acquired s) n))
  | None => (Err (LimitReached (available_permits s) n), s)
  end.

(** Dropping a permit: [SemaphorePermit::drop], then that of the inner permit. *)
Definition drop_permit (s : LoadSheddingSemaphore) (p : SemaphorePermit) : LoadSheddingSemaphore :=
  mkShedding (give_back (semaphore s) (inner_permits p)) (max_permits s) (as_u64 (acquired s - permits p)).

(** [LoadSheddingSemaphore::is_load_shedding_active], [check_load_shedding_threshold] and
    [check_load_shedding]. *)
Definition is_load_shedding_active (s : LoadSheddingSemaphore) (threshold : Z) : bool :=
  threshold <=? acquired_count s.
Definition check_load_shedding_threshold (s : LoadSheddingSemaphore) (threshold : Z)
  : result SemaphoreLimitError unit :=
  if is_load_shedding_active s threshold then Err (LoadSheddingActive (acquired_count s) threshold) else Ok tt.
Definition check_load_shedding (s : LoadSheddingSemaphore) : result SemaphoreLimitError unit :=
  check_load_shedding_threshold s MAX_YIELDED_ACTORS.

(** The semaphore with the permits that are alive; the [n]-th is dropped. *)
Inductive PermitOp : Set := Acquire (n : Z) | DropNth (n : nat).

Definition permit_exec (w : LoadSheddingSemaphore * list SemaphorePermit) (op : PermitOp)
  : LoadSheddingSemaphore * list SemaphorePermit :=
  match op with
  | Acquire n =>
      match try_acquire_many w.1 n with
      | (Ok p, s) => (s, w.2 ++ [p])
      | (Err _, s) => (s, w.2)
      end
  | DropNth n =>
      match w.2 !! n with
      | Some p => (drop_permit w.1 p, delete n w.2)
      | None => w
      end
  end.

Definition held (ps : list SemaphorePermit) : Z := foldr (fun p z => permits p + z) 0 ps.

Context `{SL : !SemaphoreLaws}.

Lemma held_app ps qs : held (ps ++ qs) = held ps + held qs.
Proof. induction ps as [|p ps IH]; cbn; [done|]. fold (held (ps ++ qs)) (held ps). lia. Qed.

Lemma held_perm ps qs : ps ≡ₚ qs -> held ps = held qs.
Proof. induction 1; cbn in *; fold held in *; unfold held in *; lia. Qed.

(** What the counters say of the permits that are alive. *)
Record accounted (max : Z) (w : LoadSheddingSemaphore * list SemaphorePermit) : Prop := {
  ac_permits : Forall (fun p => 0 <= permits p /\ inner_permits p = permits p) w.2;
  ac_max : max_permits w.1 = max;
  ac_available : available_permits w.1 = max - held w.2;
  ac_acquired : acquired_count w.1 = held w.2;
  ac_held : 0 <= held w.2 <= max;
}.

Lemma accounted_exec max w op :
  0 <= max <= u64_max -> match op with Acquire n => is_u32 n | DropNth _ => True end ->
  accounted max w -> accounted max (permit_exec w op).
Proof.
  intros Hmax Hop Hw. destruct w as [s ps], op as [n|i]; cbn [permit_exec fst snd] in *.
  - assert (as_u32 n = n) as En by (unfold is_u32 in Hop; apply Z.mod_small; unfold u32_max in *; lia).
    unfold try_acquire_many. rewrite En. pose proof (try_take_spec (semaphore s) n) as Ht.
    destruct (try_take (semaphore s) n) as [sem|]; [|done].
    destruct Hw as [Hp Hm Hav Hac Hh]. unfold available_permits, acquired_count in *. cbn [fst snd] in *.
    destruct Ht as [Hn Hs]. unfold is_u32 in Hop.
    split; unfold available_permits, acquired_count; cbn; rewrite ?held_app; cbn.
    + apply Forall_app. split; [done|]. constructor; [|done]. cbn. lia.
    + done.
    + rewrite Hs. lia.
    + rewrite wrapping_add_u64_small; [lia|]. unfold u64_max in *. lia.
    + lia.
  - destruct (ps !! i) as [p|] eqn:Hi; [|done]. destruct Hw as [Hp Hm Hav Hac Hh].
    unfold available_permits, acquired_count in *. cbn [fst snd] in *.
    pose proof (delete_Permutation _ _ _ Hi) as Hperm. apply held_perm in Hperm as Hheld.
    change (held (p :: delete i ps)) with (permits p + held (delete i ps)) in Hheld.
    assert (0 <= permits p /\ inner_permits p = permits p) as [Hp0 Hpi].
    { rewrite Forall_forall in Hp. apply Hp. by eapply list_elem_of_lookup_2. }
    assert (Forall (fun p => 0 <= permits p /\ inner_permits p = permits p) (delete i ps)) as Hrest.
    { rewrite Hperm in Hp. by apply Forall_cons in Hp as [_ ?]. }
    assert (0 <= held (delete i ps)) as Hpos.
    { clear -Hrest. induction Hrest as [|q qs [Hq _] _ IH]; cbn; [done|]. fold (held qs). lia. }
    split; unfold available_permits, acquired_count; cbn [fst snd drop_permit semaphore max_permits acquired].
    + done.
    + done.
    + rewrite give_back_available. lia.
    + unfold as_u64. rewrite Z.mod_small; unfold u64_max in *; lia.
    + lia.
Qed.
End Semaphore.

Section SheddingTheorem.
Context `{SA : SemaphoreApi} `{SL : !SemaphoreLaws}.

(** The semaphore keeps its accounts. Whatever permits are taken (each request fitting a
    [u32]) and dropped, in any order: the permits that are alive are exactly those counted
    as acquired and those missing from the semaphore, and never more than the limit; a
    request is granted exactly when it still fits, and otherwise reported with what is
    available; and with a limit below the threshold, the default one included, the check
    for load shedding never fires. *)
Theorem semaphore_accounts max ops :
  0 <= max <= u64_max -> Forall (fun op => match op with Acquire n => is_u32 n | DropNth _ => True end) ops ->
  let w := foldl permit_exec (shedding_new max, []) ops in
  acquired_count w.1 = held w.2 /\ available_permits w.1 = max - held w.2 /\ 0 <= held w.2 <= max /\
  (forall n, is_u32 n -> (try_acquire_many w.1 n).1 =
     if held w.2 + n <=? max then Ok (mkPermit n n) else Err (LimitReached (max - held w.2) n)) /\
  (max < MAX_YIELDED_ACTORS -> check_load_shedding w.1 = Ok tt).
Proof.
  intros Hmax Hops. cbn zeta.
  assert (accounted max (foldl permit_exec (shedding_new max, []) ops)) as [Hp Hm Hav Hac Hh].
  { assert (accounted max (shedding_new max, [])) as H0.
    { split; unfold available_permits, acquired_count; cbn; [constructor|done|rewrite new_available; lia|done|lia]. }
    revert H0. generalize (shedding_new max, [] : list SemaphorePermit).
    induction Hops as [|op ops Hop _ IH]; intros w Hw; [done|]. by apply IH, accounted_exec. }
  split; [done|]. split; [done|]. split; [done|]. split.
  - intros n Hn. unfold is_u32 in Hn.
    assert (as_u32 n = n) as En by (apply Z.mod_small; unfold u32_max in *; lia).
    unfold try_acquire_many. rewrite En, Hav.
    pose proof (try_take_spec (semaphore (foldl permit_exec (shedding_new max, []) ops).1) n) as Ht.
    unfold available_permits in Hav. destruct (try_take _ _); case_match; try done; lia.
  - intros Hlt. unfold check_load_shedding, check_load_shedding_threshold, is_load_shedding_active.
    rewrite Hac. case_match; [lia|done].
Qed.
End SheddingTheorem.

(** ** Write classes and budgets *)

(** [enum WriteClass]. *)
Inductive WriteClass : Set := CriticalControlPlane | OperatorProjection | BulkBlob.

#[global] Instance WriteClass_eq_dec : EqDecision WriteClass.
Proof. solve_decision. Defined.

(** [write_class::Error]. *)
Inductive WriteClassError : Set :=
| UnknownWriteClass (s : string)
| WriteSerializationError (message : string)
| TaxonomyNotInitialized
| WriteBudgetExceeded (class : WriteClass) (requested available : Z).

(** [WriteClass::tier], [never_drops], [parse] and [as_str]. *)
Definition tier (c : WriteClass) : Z :=
  match c with CriticalControlPlane => 1 | OperatorProjection => 2 | BulkBlob => 3 end.
Definition never_drops (c : WriteClass) : bool :=
  match c with CriticalControlPlane => true | _ => false end.
Definition write_class_parse (s : string) : result WriteClassError WriteClass :=
  if bool_decide (s = "critical_control_plane") then Ok CriticalControlPlane
  else if bool_decide (s = "operator_projection") then Ok OperatorProjection
  else if bool_decide (s = "bulk_blob") then Ok BulkBlob
  else Err (UnknownWriteClass s).
Definition write_class_as_str (c : WriteClass) : string :=
  match c with
  | CriticalControlPlane => "critical_control_plane"
  | OperatorProjection => "operator_projection"
  | BulkBlob => "bulk_blob"
  end.

(** [struct WriteBudget]. *)
Record WriteBudget : Set := mkWriteBudget {
  critical_limit : Z; projection_limit : Z; blob_limit : Z;
  critical_used : Z; projection_used : Z; blob_used : Z;
}.

(** [WriteBudget::new]. *)
Definition write_budget_new (critical projection blob : Z) : WriteBudget :=
  mkWriteBudget critical projection blob 0 0 0.

(** [u64::saturating_sub]. *)
Definition saturating_sub (a b : Z) : Z := Z.max (a - b) 0.

(** [WriteBudget::remaining]. *)
Definition budget_remaining (b : WriteBudget) (c : WriteClass) : Z :=
  match c with
  | CriticalControlPlane => saturating_sub (critical_limit b) (critical_used b)
  | OperatorProjection => saturating_sub (projection_limit b) (projection_used b)
  | BulkBlob => saturating_sub (blob_limit b) (blob_used b)
  end.

(** [WriteBudget::can_write]. *)
Definition can_write (b : WriteBudget) (c : WriteClass) (size_bytes : Z) : bool :=
  size_bytes <=? budget_remaining b c.

(** [WriteBudget::reserve]. *)
Definition reserve (b : WriteBudget) (c : WriteClass) (size_bytes : Z)
  : result WriteClassError unit * WriteBudget :=
  let remaining := budget_remaining b c in
  if remaining <? size_bytes then (Err (WriteBudgetExceeded c size_bytes remaining), b)
  else (Ok tt,
        match c with
        | CriticalControlPlane =>
            mkWriteBudget (critical_limit b) (projection_limit b) (blob_limit b)
              (wrapping_add_u64 (critical_used b) size_bytes) (projection_used b) (blob_used b)
        | OperatorProjection =>
            mkWriteBudget (critical_limit b) (projection_limit b) (blob_limit b)
              (critical_used b) (wrapping_add_u64 (projection_used b) size_bytes) (blob_used b)
        | BulkBlob =>
            mkWriteBudget (critical_limit b) (projection_limit b) (blob_limit b)
              (critical_used b) (projection_used b) (wrapping_add_u64 (blob_used b) size_bytes)
        end).

Lemma write_class_roundtrip c : write_class_parse (write_class_as_str c) = Ok c.
Proof. by destruct c. Qed.

Definition budget_limit (b : WriteBudget) (c : WriteClass) : Z :=
  match c with CriticalControlPlane => critical_limit b | OperatorProjection => projection_limit b | BulkBlob => blob_limit b end.
Definition budget_used (b : WriteBudget) (c : WriteClass) : Z :=
  match c with CriticalControlPlane => critical_used b | OperatorProjection => projection_used b | BulkBlob => blob_used b end.

(** A sequence of reservations, with the ones that were granted. *)
Fixpoint reserve_all (b : WriteBudget) (l : list (WriteClass * Z)) : list (WriteClass * Z) * WriteBudget :=
  match l with
  | [] => ([], b)
  | (c, n) :: l' =>
      let r := reserve b c n in
      let r' := reserve_all r.2 l' in
      ((if is_ok r.1 then [(c, n)] else []) ++ r'.1, r'.2)
  end.

Definition granted (c : WriteClass) (l : list (WriteClass * Z)) : Z :=
  foldr (fun p z => (if decide (p.1 = c) then p.2 else 0) + z) 0 l.

Lemma granted_cons c d n l : granted c ((d, n) :: l) = (if decide (d = c) then n else 0) + granted c l.
Proof. done. Qed.

(** Reserving on one budget: what is granted and what it costs. *)
Lemma reserve_spec b c n :
  0 <= n -> (forall c, 0 <= budget_used b c <= budget_limit b c) ->
  (forall c, budget_limit b c <= u64_max) ->
  let ok := budget_used b c + n <=? budget_limit b c in
  is_ok (reserve b c n).1 = ok /\
  forall c', budget_limit (reserve b c n).2 c' = budget_limit b c' /\
    budget_used (reserve b c n).2 c' = budget_used b c' + if ok then (if decide (c = c') then n else 0) else 0.
Proof.
  intros Hn Hused Hlim. specialize (Hused c) as Hc. specialize (Hlim c) as Hl.
  assert (budget_remaining b c = budget_limit b c - budget_used b c) as Hr.
  { destruct c; cbn in *; unfold saturating_sub; lia. }
  unfold reserve. rewrite Hr. cbn zeta.
  destruct (Z.leb_spec (budget_used b c + n) (budget_limit b c)) as [Hok|Hbad].
  - rewrite (proj2 (Z.ltb_ge _ _)) by lia. split; [done|].
    assert (wrapping_add_u64 (budget_used b c) n = budget_used b c + n) as Ew
      by (apply wrapping_add_u64_small; lia).
    intros c'. destruct (decide (c = c')) as [<-|Hne]; [destruct c|destruct c, c']; cbn in *; try done; lia.
  - rewrite (proj2 (Z.ltb_lt _ _)) by lia. split; [done|]. intros c'. cbn. lia.
Qed.

(** Write budgets: over any sequence of reservations the bytes granted to a class never
    exceed its limit, whatever the other classes do, and are exactly what is counted as
    used; and another request of a class is granted exactly when it still fits. *)
Theorem write_budget_bound critical projection blob l c :
  is_u64 critical -> is_u64 projection -> is_u64 blob -> Forall (fun p => 0 <= p.2) l ->
  let b := write_budget_new critical projection blob in
  let r := reserve_all b l in
  granted c r.1 = budget_used r.2 c /\ granted c r.1 <= budget_limit b c /\
  forall n, 0 <= n -> is_ok (reserve r.2 c n).1 = (granted c r.1 + n <=? budget_limit b c).
Proof.
  intros Hcr Hpr Hbl Hl. cbn zeta. set (b := write_budget_new critical projection blob).
  assert (forall c, budget_limit b c <= u64_max) as Hlim by (unfold is_u64 in *; intros []; cbn; lia).
  assert (forall c, 0 <= budget_used b c <= budget_limit b c) as Hused
    by (unfold is_u64 in *; intros []; cbn; lia).
  assert (forall b', (forall c, budget_limit b' c = budget_limit b c) ->
    (forall c, 0 <= budget_used b' c <= budget_limit b' c) ->
    let r := reserve_all b' l in
    (forall c, budget_limit r.2 c = budget_limit b c) /\ (forall c, 0 <= budget_used r.2 c <= budget_limit r.2 c) /\
    forall c, budget_used r.2 c = budget_used b' c + granted c r.1) as Hall.
  { induction Hl as [|[d n] l Hn _ IH]; intros b' Hb' Hu'; cbn zeta.
    { split; [done|]. split; [done|]. intros c'. cbn. lia. }
    cbn [reserve_all fst snd] in *. cbn in Hn.
    destruct (reserve_spec b' d n Hn Hu') as [Hok Hstep]; [intros c'; by rewrite Hb'|].
    assert (forall c, 0 <= budget_used (reserve b' d n).2 c <= budget_limit (reserve b' d n).2 c) as Hu1.
    { intros c'. destruct (Hstep c') as [-> ->]. specialize (Hu' c').
      destruct (Z.leb_spec (budget_used b' d + n) (budget_limit b' d)); [|lia].
      case_decide; [subst d; lia|lia]. }
    destruct (IH (reserve b' d n).2) as (H1 & H2 & H3);
      [intros c'; destruct (Hstep c') as [-> _]; apply Hb'|done|].
    split; [done|]. split; [done|]. intros c'. rewrite H3. destruct (Hstep c') as [_ ->]. rewrite Hok.
    destruct (budget_used b' d + n <=? budget_limit b' d); cbn [app]; [rewrite granted_cons|]; lia. }
  destruct (Hall b (fun _ => eq_refl) Hused) as (H1 & H2 & H3).
  assert (granted c (reserve_all b l).1 = budget_used (reserve_all b l).2 c) as Hg.
  { rewrite H3. destruct c; cbn; lia. }
  split; [done|]. split; [rewrite Hg, <- H1; apply H2|]. intros n Hn.
  rewrite Hg, <- H1. apply reserve_spec; [done|done|]. intros c'. by rewrite H1.
Qed.

(** ** Witnesses *)

Module SheddingWitness.
#[local] Instance counter : SemaphoreApi := {|
  Semaphore := Z;
  semaphore_new := fun n => n;
  available := fun s => s;
  try_take := fun s n => if s <? n then None else Some (s - n);
  give_back := fun s n => s + n;
|}.
#[local] Instance counter_laws : SemaphoreLaws.
Proof. split; [done| |done]. intros s n. cbn. destruct (Z.ltb_spec s n); cbn; lia. Qed.

Lemma semaphore_accounts_witness :
  let w := foldl permit_exec (shedding_new 500, []) [Acquire 400; Acquire 200; DropNth 0; Acquire 300] in
  acquired_count w.1 = held w.2.
Proof.
  refine (proj1 (semaphore_accounts 500 [Acquire 400; Acquire 200; DropNth 0; Acquire 300] _ _)).
  - unfold u64_max. lia.
  - repeat constructor; vm_compute; discriminate.
Defined.

(** A request of 2^32 permits is granted although none are left, and counts as load. *)
Example truncated_request :
  let s := (try_acquire_many (shedding_new 1) 1).2 in
  available_permits s = 0 /\ is_ok (try_acquire_many s 4294967296).1 = true /\
  acquired_count (try_acquire_many s 4294967296).2 = 4294967297.
Proof. by vm_compute. Qed.

Lemma write_budget_bound_witness :
  granted BulkBlob (reserve_all (write_budget_new 10 20 30) [(BulkBlob, 25); (BulkBlob, 6); (CriticalControlPlane, 10)]).1 <= 30.
Proof.
  refine (proj1 (proj2 (write_budget_bound 10 20 30 [(BulkBlob, 25); (BulkBlob, 6); (CriticalControlPlane, 10)]
    BulkBlob _ _ _ _))).
  1-3: split; vm_compute; discriminate.
  repeat constructor; vm_compute; discriminate.
Defined.
End SheddingWitness.
