(* ===== verification/Reanimator.v ===== *)
(** * The reanimator

    [crates/vo-actor/src/reanimator/]: the background task that wakes instances whose timers
    are due. A cycle scans the due timers and, for several of them concurrently, deletes the
    timer, records that it fired and enqueues the resumption of its instance; at a start,
    crash recovery replays the timers that were marked as in flight. The two traits,
    [TimerStorage] and [WorkQueue], are classes with what their documentation promises; the
    implementations in [mock.rs] are instances. The code awaits at every call of a trait, so
    a cycle is a sequence of steps, each the part of one task up to its next [await], in any
    order; other actors may schedule and cancel timers, and the process may crash, in
    between. *)

From stdpp Require Import gmultiset.
From S2P Require Import Prelude Identifiers KeyEncoding Timers.

#[global] Instance TimerId_eq_dec : EqDecision TimerId.
Proof. solve_decision. Defined.

(** [enum ReanimatorErrorClass] and [enum ReanimatorError]. *)
Inductive ReanimatorErrorClass : Set := Transient | Fatal.

Inductive ReanimatorError : Set :=
| ReStorageError (s : string)
| CorruptKey (s : string)
| AtomicityViolation (s : string)
| InstanceNotFound (i : InstanceId)
| ReBudgetExceeded (i : InstanceId)
| EnqueueFailed (s : string)
| AlreadyRunning
| AlreadyShutdown.

(** [ReanimatorError::classify], [is_transient] and [is_fatal]. *)
Definition classify (e : ReanimatorError) : ReanimatorErrorClass :=
  match e with
  | ReStorageError _ | EnqueueFailed _ | AtomicityViolation _ | ReBudgetExceeded _ => Transient
  | CorruptKey _ | InstanceNotFound _ | AlreadyRunning | AlreadyShutdown => Fatal
  end.
Definition is_transient (e : ReanimatorError) : bool :=
  match classify e with Transient => true | Fatal => false end.
Definition is_fatal (e : ReanimatorError) : bool :=
  match classify e with Fatal => true | Transient => false end.

(** [struct ReanimatorConfig]; durations in milliseconds. *)
Record ReanimatorConfig : Set := mkReConfig {
  scan_interval : Z;
  max_timers_per_cycle : Z;
  max_concurrent_resumes : Z;
  shutdown_timeout : Z;
}.
Definition re_config_default : ReanimatorConfig := mkReConfig 1000 100 10 30000.

(** [struct TimerRecord]. *)
Record TimerRecord : Set := mkTimerRecord {
  instance_id : InstanceId;
  fire_at_ms : Z;
  timer_id : option TimerId;
  scheduled_at_ms : Z;
}.

#[global] Instance TimerRecord_eq_dec : EqDecision TimerRecord.
Proof. solve_decision. Defined.

(** [struct PendingTimer]. *)
Record PendingTimer : Set := mkPendingTimer {
  pt_instance_id : InstanceId;
  pt_fire_at_ms : Z;
  pt_scheduled_at_ms : Z;
  pt_marked_at_ms : Z;
}.

#[global] Instance PendingTimer_eq_dec : EqDecision PendingTimer.
Proof. solve_decision. Defined.

(** The key of a timer. *)
Definition key (t : TimerRecord) : InstanceId * Z := (instance_id t, fire_at_ms t).

(** [struct FairnessBudget]. *)
Record FairnessBudget : Set := mkFairness {
  max_per_instance : Z;
  max_per_workflow : Z;
  instance_counts : gmap InstanceId Z;
}.

(** [FairnessBudget::with_limits], [can_resume], [record_resume] and [reset]. *)
Definition with_limits (per_instance per_workflow : Z) : FairnessBudget :=
  mkFairness per_instance per_workflow ∅.
Definition can_resume (b : FairnessBudget) (i : InstanceId) : bool :=
  if max_per_instance b =? 0 then false
  else match instance_counts b !! i with
       | None => true
       | Some count => count <? max_per_instance b
       end.
Definition record_resume (b : FairnessBudget) (i : InstanceId) : bool * FairnessBudget :=
  if can_resume b i then
    (true, mkFairness (max_per_instance b) (max_per_workflow b)
             (<[i := wrapping_add_u32 (default 0 (instance_counts b !! i)) 1]> (instance_counts b)))
  else (false, b).
Definition budget_reset (b : FairnessBudget) : FairnessBudget :=
  mkFairness (max_per_instance b) (max_per_workflow b) ∅.

(** [filter_timers_by_fairness], [calculate_batch_size] and [check_resume_budget]. *)
Definition filter_timers_by_fairness (ts : list TimerRecord) (b : FairnessBudget)
  : list TimerRecord * list TimerRecord :=
  (base.filter (fun t => can_resume b (instance_id t) = true) ts,
   base.filter (fun t => can_resume b (instance_id t) = false) ts).
Definition calculate_batch_size (remaining max_per_cycle current_batch : Z) : Z :=
  Z.min remaining (Z.max (max_per_cycle - as_u32 current_batch) 0).
Definition check_resume_budget (i : InstanceId) (b : FairnessBudget) : result ReanimatorError unit :=
  if can_resume b i then Ok tt else Err (ReBudgetExceeded i).

(** [enum ReanimatorState]. *)
Module ReanimatorState.
Inductive ReanimatorState : Set := Stopped | Running | ShuttingDown | ShutDown.
End ReanimatorState.
Abbreviation ReanimatorState := ReanimatorState.ReanimatorState.

(** [validate_timer_record]. *)
Definition validate_timer_record `{U : UlidApi} (r : TimerRecord) : result ReanimatorError unit :=
  if fire_at_ms r =? 0 then Err (CorruptKey "Timer fire_at_ms is zero")
  else if scheduled_at_ms r =? 0 then Err (CorruptKey "Timer scheduled_at_ms is zero")
  else if fire_at_ms r <? scheduled_at_ms r then
    Err (CorruptKey "Timer fire_at_ms is before scheduled_at_ms")
  else match InstanceId_to_u128 (instance_id r) with
       | Ok u => if forallb (fun b => b =? 0) (be_bytes 16 u)
                 then Err (CorruptKey "Timer instance_id is all zeros (corrupted)")
                 else Ok tt
       | Err _ => Ok tt
       end.

(** ** The traits *)

(** [trait TimerStorage]. The views are the scheduled timers and those in flight;
    [schedule_timer] is what the rest of the system does to the same storage, and
    [mark_timer_processing] gets the two readings of the clock. *)
Class TimerStorage (St : Type) : Type := {
  timers : St -> list TimerRecord;
  pending_timers : St -> list PendingTimer;
  schedule_timer : St -> TimerRecord -> St;
  scan_due_timers : St -> Z -> Z -> Z -> result ReanimatorError (list TimerRecord) * St;
  delete_timer : St -> InstanceId -> Z -> result ReanimatorError unit * St;
  record_timer_fired : St -> InstanceId -> Z -> result ReanimatorError unit * St;
  mark_timer_processing : St -> InstanceId -> Z -> Z -> Z -> result ReanimatorError unit * St;
  scan_pending_timers : St -> Z -> result ReanimatorError (list PendingTimer) * St;
  complete_timer_processing : St -> InstanceId -> Z -> result ReanimatorError unit * St;
  cleanup_stale_pending_timers : St -> Z -> result ReanimatorError Z * St;
  delete_all_timers_for_instance : St -> InstanceId -> result ReanimatorError Z * St;
}.

(** [trait WorkQueue]; the errors are boxed, so nothing is known of them. *)
Class WorkQueue (Wq : Type) : Type := {
  enqueued : Wq -> list InstanceId;
  enqueue_resume : Wq -> InstanceId -> result string unit * Wq;
  is_instance_terminal : Wq -> InstanceId -> result string bool * Wq;
}.

Definition is_due (now : Z) (t : TimerRecord) : Prop := fire_at_ms t <= now.
#[global] Instance is_due_dec now t : Decision (is_due now t).
Proof. unfold is_due. apply _. Defined.

(** What the calls do to the two views. Scans read; a deletion that succeeds removes the
    timers of the key, one that fails removes nothing, and likewise for the timers in
    flight, of which a completion removes those of the instance, or only the one named. *)
Class TimerStorageLaws (St : Type) `{TS : !TimerStorage St} : Prop := {
  schedule_law : forall s t,
    timers (schedule_timer s t) ≡ₚ t :: timers s /\
    pending_timers (schedule_timer s t) = pending_timers s;
  scan_law : forall s now max r, scan_due_timers s 0 now max = r ->
    timers r.2 = timers s /\ pending_timers r.2 = pending_timers s /\
    forall l, r.1 = Ok l ->
      l ⊆+ base.filter (is_due now) (timers s) /\ Z.of_nat (length l) <= Z.max max 0 /\
      (Z.of_nat (length l) < max -> l ≡ₚ base.filter (is_due now) (timers s));
  delete_law : forall s i f r, delete_timer s i f = r ->
    pending_timers r.2 = pending_timers s /\
    timers r.2 ≡ₚ if is_ok r.1 then base.filter (fun t => key t <> (i, f)) (timers s) else timers s;
  record_law : forall s i f r, record_timer_fired s i f = r ->
    timers r.2 = timers s /\ pending_timers r.2 = pending_timers s;
  scan_pending_law : forall s max r, scan_pending_timers s max = r ->
    timers r.2 = timers s /\ pending_timers r.2 = pending_timers s /\
    forall l, r.1 = Ok l ->
      l ⊆+ pending_timers s /\ (Z.of_nat (length l) < max -> l ≡ₚ pending_timers s);
  complete_law : forall s i f r, complete_timer_processing s i f = r ->
    timers r.2 = timers s /\ pending_timers r.2 ⊆ pending_timers s /\
    (forall p, p ∈ pending_timers s -> pt_instance_id p <> i -> p ∈ pending_timers r.2) /\
    (is_ok r.1 = false -> pending_timers r.2 = pending_timers s) /\
    (is_ok r.1 = true -> forall p, p ∈ pending_timers r.2 -> (pt_instance_id p, pt_fire_at_ms p) <> (i, f));
  cleanup_law : forall s t r, cleanup_stale_pending_timers s t = r ->
    timers r.2 = timers s /\
    pending_timers r.2 ≡ₚ if is_ok r.1 then base.filter (fun p => t < pt_marked_at_ms p) (pending_timers s)
                          else pending_timers s;
  delete_all_law : forall s i r, delete_all_timers_for_instance s i = r ->
    pending_timers r.2 = pending_timers s /\
    timers r.2 ≡ₚ if is_ok r.1 then base.filter (fun t => instance_id t <> i) (timers s) else timers s;
}.

Class WorkQueueLaws (Wq : Type) `{WQ : !WorkQueue Wq} : Prop := {
  enqueue_law : forall q i r, enqueue_resume q i = r ->
    enqueued r.2 = if is_ok r.1 then enqueued q ++ [i] else enqueued q;
  terminal_law : forall q i r, is_instance_terminal q i = r -> enqueued r.2 = enqueued q;
}.

(** ** The loop *)

(** Where a task of a cycle is: about to delete its timer, to record it, or to enqueue. *)
Inductive Phase : Set := Deleting | Recording | Enqueueing.

(** A cycle in progress: the time of its scan, the timers the stream has still to yield, the
    tasks that have started, and the two counters. *)
Record Cycle : Set := mkCycle {
  scanned_at : Z;
  waiting : list TimerRecord;
  tasks : list (TimerRecord * Phase);
  processed : Z;
  failed_count : Z;
}.

(** [const STALE_PENDING_THRESHOLD_MS]. *)
Definition STALE_PENDING_THRESHOLD_MS : Z := 60000.

Section Reanimator.
Context `{U : UlidApi} {St : Type} `{TS : !TimerStorage St} {Wq : Type} `{WQ : !WorkQueue Wq}.
Variable config : ReanimatorConfig.

(** The task with its storage and queue; [scheduled] records what was ever scheduled. *)
Record World : Type := mkWorld {
  status : ReanimatorState;
  storage : St;
  work_queue : Wq;
  budget : FairnessBudget;
  max_already_processed : Z;
  cycle : option Cycle;
  scheduled : list TimerRecord;
}.

(** The start of [run_loop_inner]. *)
Definition world_new (s : St) (q : Wq) : World :=
  mkWorld ReanimatorState.Stopped s q
    (with_limits (max_timers_per_cycle config)
       (as_u32 (max_timers_per_cycle config * max_concurrent_resumes config)))
    0 None (timers s).

(** The body of the loop of [run_crash_recovery]. *)
Definition replay_pending (sq : St * Wq) (p : PendingTimer) : St * Wq :=
  let complete s := (complete_timer_processing s (pt_instance_id p) (pt_fire_at_ms p)).2 in
  match is_instance_terminal sq.2 (pt_instance_id p) with
  | (Ok true, q) => (complete sq.1, q)
  | (Ok false, q) =>
      match enqueue_resume q (pt_instance_id p) with
      | (Ok _, q') => (complete sq.1, q')
      | (Err _, q') => (sq.1, q')
      end
  | (Err _, q) => (sq.1, q)
  end.

(** [ReanimatorLoop::run_crash_recovery]. *)
Definition run_crash_recovery (s : St) (q : Wq) (now : Z) : result ReanimatorError unit * (St * Wq) :=
  match cleanup_stale_pending_timers s (Z.max (now - STALE_PENDING_THRESHOLD_MS) 0) with
  | (Err e, s') => (Err e, (s', q))
  | (Ok _, s') =>
      match scan_pending_timers s' 100 with
      | (Err e, s'') => (Err e, (s'', q))
      | (Ok pending, s'') => (Ok tt, foldl replay_pending (s'', q) pending)
      end
  end.

(** The filter of [process_cycle]. *)
Definition admits (b : FairnessBudget) (t : TimerRecord) : bool :=
  is_ok (validate_timer_record t) && can_resume b (instance_id t).

(** [process_cycle] up to its stream; on an error there is no cycle. *)
Definition begin_cycle (w : World) (now : Z) : World :=
  match scan_due_timers (storage w) 0 now (max_timers_per_cycle config) with
  | (Err e, s) =>
      mkWorld (status w) s (work_queue w) (budget w) (max_already_processed w) None (scheduled w)
  | (Ok scan_result, s) =>
      let b := budget_reset (budget w) in
      let stream := base.filter (fun t => admits b t = true)
                      (take (Z.to_nat (max_timers_per_cycle config)) scan_result) in
      mkWorld (status w) s (work_queue w) b (max_already_processed w)
        (Some (mkCycle now stream [] 0 0)) (scheduled w)
  end.

(** The limit of [for_each_concurrent]; zero is no limit. *)
Definition has_room (c : Cycle) : bool :=
  (max_concurrent_resumes config =? 0) ||
  (Z.of_nat (length (tasks c)) <? max_concurrent_resumes config).

(** What becomes of a task at its next call: it goes on, or it is done. *)
Inductive Progress : Set := Continue (ph : Phase) | Done (ok : bool).

Definition task_step (t : TimerRecord) (ph : Phase) (s : St) (q : Wq) : Progress * (St * Wq) :=
  match ph with
  | Deleting =>
      let r := delete_timer s (instance_id t) (fire_at_ms t) in
      (if is_ok r.1 then Continue Recording else Done false, (r.2, q))
  | Recording =>
      let r := record_timer_fired s (instance_id t) (fire_at_ms t) in
      (if is_ok r.1 then Continue Enqueueing else Done false, (r.2, q))
  | Enqueueing =>
      let r := enqueue_resume q (instance_id t) in
      (Done (is_ok r.1), (s, r.2))
  end.

(** The cycle after the [n]-th task, [t], made that progress. *)
Definition progress (c : Cycle) (n : nat) (t : TimerRecord) (p : Progress) : Cycle :=
  match p with
  | Continue ph =>
      mkCycle (scanned_at c) (waiting c) (<[n := (t, ph)]> (tasks c)) (processed c) (failed_count c)
  | Done true =>
      mkCycle (scanned_at c) (waiting c) (delete n (tasks c))
        (wrapping_add_u32 (processed c) 1) (failed_count c)
  | Done false =>
      mkCycle (scanned_at c) (waiting c) (delete n (tasks c))
        (processed c) (wrapping_add_u32 (failed_count c) 1)
  end.

(** The end of [process_cycle]. *)
Definition new_max (w : World) (c : Cycle) : Z :=
  if 0 <? processed c then 0 else wrapping_add_u32 (max_already_processed w) (processed c).

(** What can happen: the task starts; the interval ticks; a cycle takes the next timer of
    its stream, makes a step of one of its tasks, or ends; shutdown is asked for; the
    process crashes; another actor schedules a timer or cancels an instance. *)
Inductive Event : Set :=
| Start (now : Z)
| Tick (now : Z)
| Pull
| Advance (n : nat)
| Finish
| Shutdown
| Crash
| Schedule (t : TimerRecord)
| Cancel (i : InstanceId).

Definition with_cycle (w : World) (s : St) (q : Wq) (c : option Cycle) : World :=
  mkWorld (status w) s q (budget w) (max_already_processed w) c (scheduled w).

(** [run_loop_inner], event by event; [None] when the event cannot happen. *)
Definition exec (w : World) (ev : Event) : option World :=
  match ev, status w, cycle w with
  | Start now, ReanimatorState.Stopped, None =>
      let sq := (run_crash_recovery (storage w) (work_queue w) now).2 in
      Some (mkWorld ReanimatorState.Running sq.1 sq.2 (budget w) (max_already_processed w) None (scheduled w))
  | Tick now, ReanimatorState.Running, None => Some (begin_cycle w now)
  | Pull, ReanimatorState.Running, Some c =>
      match waiting c with
      | t :: ts => if has_room c then
          Some (with_cycle w (storage w) (work_queue w)
            (Some (mkCycle (scanned_at c) ts (tasks c ++ [(t, Deleting)]) (processed c) (failed_count c))))
          else None
      | [] => None
      end
  | Advance n, ReanimatorState.Running, Some c =>
      match tasks c !! n with
      | Some (t, ph) =>
          let r := task_step t ph (storage w) (work_queue w) in
          Some (with_cycle w r.2.1 r.2.2 (Some (progress c n t r.1)))
      | None => None
      end
  | Finish, ReanimatorState.Running, Some c =>
      match waiting c, tasks c with
      | [], [] => Some (mkWorld (status w) (storage w) (work_queue w) (budget w) (new_max w c) None (scheduled w))
      | _, _ => None
      end
  | Shutdown, ReanimatorState.Running, None =>
      Some (mkWorld ReanimatorState.ShutDown (storage w) (work_queue w) (budget w)
              (max_already_processed w) None (scheduled w))
  | Crash, _, _ =>
      Some (mkWorld ReanimatorState.Stopped (storage w) (work_queue w)
              (with_limits (max_per_instance (budget w)) (max_per_workflow (budget w))) 0 None (scheduled w))
  | Schedule t, _, _ =>
      Some (mkWorld (status w) (schedule_timer (storage w) t) (work_queue w) (budget w)
              (max_already_processed w) (cycle w) (scheduled w ++ [t]))
  | Cancel i, _, _ =>
      Some (with_cycle w (delete_all_timers_for_instance (storage w) i).2 (work_queue w) (cycle w))
  | _, _, _ => None
  end.

Fixpoint run (w : World) (evs : list Event) : option World :=
  match evs with
  | [] => Some w
  | ev :: evs => match exec w ev with Some w' => run w' evs | None => None end
  end.

(** ** At most one resumption per timer *)

Context `{TL : !TimerStorageLaws St} `{WL : !WorkQueueLaws Wq}.

Abbreviation Keys := (gmultiset (InstanceId * Z)).

(** The keys of a list of timers, with their multiplicities. *)
Definition keys (ts : list TimerRecord) : Keys := list_to_set_disj (key <$> ts).

#[local] Arguments keys : simpl never.

#[local] Instance keys_perm : Proper (Permutation ==> eq) keys.
Proof. intros l l' Hp. unfold keys. by rewrite Hp. Qed.

Lemma keys_nil : keys [] = ∅.
Proof. done. Qed.

Lemma keys_cons t ts : keys (t :: ts) = {[+ key t +]} ⊎ keys ts.
Proof. apply list_to_set_disj_cons. Qed.

Lemma keys_app l k : keys (l ++ k) = keys l ⊎ keys k.
Proof. unfold keys. by rewrite fmap_app, list_to_set_disj_app. Qed.

Lemma keys_submseteq l k : l ⊆+ k -> keys l ⊆ keys k.
Proof. intros [m ->]%submseteq_Permutation. rewrite keys_app. multiset_solver. Qed.

Lemma keys_filter (P : TimerRecord -> Prop) `{forall t, Decision (P t)} l : keys (base.filter P l) ⊆ keys l.
Proof. apply keys_submseteq, sublist_submseteq, sublist_filter. Qed.

Lemma filter_submseteq {A} (P : A -> Prop) `{!forall x, Decision (P x)} (l k : list A) :
  l ⊆+ k -> base.filter P l ⊆+ base.filter P k.
Proof. intros [m ->]%submseteq_Permutation. rewrite filter_app. by apply submseteq_inserts_r. Qed.

Lemma keys_elem k l : k ∈ keys l <-> exists t, t ∈ l /\ key t = k.
Proof. unfold keys. rewrite elem_of_list_to_set_disj, list_elem_of_fmap. naive_solver. Qed.

Lemma elements_mset `{Countable A} (l : list A) : elements (list_to_set_disj l : gmultiset A) ≡ₚ l.
Proof.
  induction l as [|x l IH]; [done|]. rewrite list_to_set_disj_cons, gmultiset_elements_disj_union,
    gmultiset_elements_singleton, IH. done.
Qed.

(** The timers of a cycle whose deletion is ahead, and those whose resumption is. *)
Definition is_deleting (x : TimerRecord * Phase) : Prop := x.2 = Deleting.
#[local] Instance is_deleting_dec x : Decision (is_deleting x).
Proof. unfold is_deleting. destruct x.2; (left; done) || (right; done). Defined.

Definition deleting_keys (ts : list (TimerRecord * Phase)) : Keys := keys (base.filter is_deleting ts).*1.
Definition deleted_keys (ts : list (TimerRecord * Phase)) : Keys :=
  keys (base.filter (fun x => ~ is_deleting x) ts).*1.
Definition ahead (c : option Cycle) : Keys :=
  match c with Some c => keys (waiting c) ⊎ deleting_keys (tasks c) | None => ∅ end.
Definition deleted (c : option Cycle) : Keys :=
  match c with Some c => deleted_keys (tasks c) | None => ∅ end.

#[local] Arguments deleting_keys : simpl never.
#[local] Arguments deleted_keys : simpl never.

#[local] Instance deleting_perm : Proper (Permutation ==> eq) deleting_keys.
Proof. intros l l' Hp. unfold deleting_keys. by rewrite Hp. Qed.
#[local] Instance deleted_perm : Proper (Permutation ==> eq) deleted_keys.
Proof. intros l l' Hp. unfold deleted_keys. by rewrite Hp. Qed.

Lemma deleting_cons t ph ts :
  deleting_keys ((t, ph) :: ts) =
  match ph with Deleting => {[+ key t +]} ⊎ deleting_keys ts | _ => deleting_keys ts end.
Proof. unfold deleting_keys. rewrite filter_cons. destruct ph; cbn; by rewrite ?keys_cons. Qed.

Lemma deleted_cons t ph ts :
  deleted_keys ((t, ph) :: ts) =
  match ph with Deleting => deleted_keys ts | _ => {[+ key t +]} ⊎ deleted_keys ts end.
Proof. unfold deleted_keys. rewrite filter_cons. destruct ph; cbn; by rewrite ?keys_cons. Qed.

Lemma tasks_set {A} (ts : list A) n x y : ts !! n = Some x -> <[n := y]> ts ≡ₚ y :: delete n ts.
Proof.
  intros Hn%lookup_lt_Some. rewrite insert_take_drop, delete_take_drop by done.
  by rewrite Permutation_middle.
Qed.

(** What holds of the task at any time, given what was enqueued before it started: the keys
    resumed, about to be resumed, and still to be deleted or stored, are among those that
    were scheduled; the timers of a cycle are valid and due; nothing is in flight. *)
Record re_inv (queue0 : list InstanceId) (w : World) : Prop := {
  ri_pending : pending_timers (storage w) = [];
  ri_keys : exists resumed : list (InstanceId * Z),
    enqueued (work_queue w) = queue0 ++ resumed.*1 /\
    list_to_set_disj resumed ⊎ deleted (cycle w) ⊎
      (ahead (cycle w) ∪ keys (timers (storage w))) ⊆ keys (scheduled w);
  ri_due : forall c, cycle w = Some c ->
    Forall (fun t => is_due (scanned_at c) t /\ validate_timer_record t = Ok tt)
      (waiting c ++ (tasks c).*1);
}.

Lemma new_inv s q : pending_timers s = [] -> re_inv (enqueued q) (world_new s q).
Proof.
  intros Hp. split; [done| |done]. exists []. split; [by rewrite app_nil_r|].
  cbn [world_new storage cycle scheduled deleted ahead]. rewrite list_to_set_disj_nil. multiset_solver.
Qed.

Lemma recovery_idle s q now :
  pending_timers s = [] ->
  let sq := (run_crash_recovery s q now).2 in
  timers sq.1 = timers s /\ pending_timers sq.1 = [] /\ sq.2 = q.
Proof.
  intros Hp. cbn zeta. unfold run_crash_recovery.
  destruct (cleanup_stale_pending_timers _ _) as [r1 s1] eqn:E1.
  pose proof (cleanup_law _ _ _ E1) as [Ht1 Hp1]. cbn [fst snd] in Ht1, Hp1.
  assert (pending_timers s1 = []) as Hp1'.
  { apply Permutation_nil_r. rewrite Hp1, Hp. by destruct (is_ok r1). }
  destruct r1 as [n|e]; [|done].
  destruct (scan_pending_timers s1 100) as [r2 s2] eqn:E2.
  pose proof (scan_pending_law _ _ _ E2) as (Ht2 & Hp2 & Hl). cbn [fst snd] in Ht2, Hp2, Hl.
  destruct r2 as [l|e]; cbn [fst snd]; [|rewrite Ht2, Hp2; done].
  destruct (Hl l eq_refl) as [Hsub _]. rewrite Hp1' in Hsub.
  apply submseteq_nil_r in Hsub as ->. cbn. rewrite Ht2, Hp2. done.
Qed.

Lemma tick_inv queue0 w now : re_inv queue0 w -> cycle w = None -> re_inv queue0 (begin_cycle w now).
Proof.
  intros [Hp (R & HR & Hk) Hd] Hc. unfold begin_cycle. rewrite Hc in Hk. cbn [deleted ahead] in Hk.
  destruct (scan_due_timers _ _ _ _) as [[l|e] s] eqn:E;
    pose proof (scan_law _ _ _ _ E) as (Ht & Hp' & Hl); cbn [fst snd] in *.
  - destruct (Hl l eq_refl) as (Hsub & _ & _).
    set (b := budget_reset (budget w)).
    assert (base.filter (fun t => admits b t = true) (take (Z.to_nat (max_timers_per_cycle config)) l)
      ⊆+ base.filter (is_due now) (timers (storage w))) as Hstream.
    { etrans; [|exact Hsub]. etrans; [apply sublist_submseteq, sublist_filter|].
      apply sublist_submseteq, sublist_take. }
    split; cbn; [by rewrite Hp'| |].
    + exists R. split; [done|]. rewrite Ht.
      change (deleting_keys []) with (∅ : Keys). change (deleted_keys []) with (∅ : Keys).
      pose proof (keys_submseteq _ _ Hstream). pose proof (keys_filter (is_due now) (timers (storage w))).
      multiset_solver.
    + intros c [= <-]. cbn. rewrite app_nil_r. apply Forall_forall. intros t Hin. split.
      * apply (elem_of_submseteq _ _ _ Hin) in Hstream. by apply list_elem_of_filter in Hstream as [? _].
      * apply list_elem_of_filter in Hin as [Ha _]. unfold admits in Ha.
        destruct (validate_timer_record t) as [[]|]; done.
  - split; cbn; [by rewrite Hp'| |done]. exists R. split; [done|]. by rewrite Ht.
Qed.

Lemma pull_inv queue0 w c t ts :
  re_inv queue0 w -> cycle w = Some c -> waiting c = t :: ts ->
  re_inv queue0 (with_cycle w (storage w) (work_queue w)
    (Some (mkCycle (scanned_at c) ts (tasks c ++ [(t, Deleting)]) (processed c) (failed_count c)))).
Proof.
  intros [Hp (R & HR & Hk) Hd] Hc Hw. rewrite Hc in Hk. cbn [deleted ahead] in Hk. rewrite Hw in Hk.
  split; cbn; [done| |].
  - exists R. split; [done|]. rewrite <- Permutation_cons_append, deleting_cons, deleted_cons.
    rewrite keys_cons in Hk. multiset_solver.
  - intros c' [= <-]. cbn. specialize (Hd c Hc). rewrite Hw in Hd. rewrite fmap_app. cbn.
    rewrite (assoc_L app), <- Permutation_cons_append. exact Hd.
Qed.

(** The timers of a cycle after a task made progress. *)
Lemma progress_due c n t ph p (P : TimerRecord -> Prop) :
  tasks c !! n = Some (t, ph) -> Forall P (waiting c ++ (tasks c).*1) ->
  scanned_at (progress c n t p) = scanned_at c /\
  Forall P (waiting (progress c n t p) ++ (tasks (progress c n t p)).*1).
Proof.
  intros Hn HF. rewrite (delete_Permutation _ _ _ Hn) in HF.
  apply Forall_app in HF as [Hw [Ht HD]%Forall_cons].
  destruct p as [ph'|[]]; (split; [done|]); cbn; apply Forall_app; (split; [done|]); [|done..].
  rewrite (tasks_set _ _ _ (t, ph') Hn). by constructor.
Qed.

Lemma progress_keys c n t ph p :
  tasks c !! n = Some (t, ph) ->
  let D := delete n (tasks c) in
  ahead (Some (progress c n t p)) =
    keys (waiting c) ⊎ match p with Continue ph' => deleting_keys ((t, ph') :: D) | Done _ => deleting_keys D end /\
  deleted (Some (progress c n t p)) =
    match p with Continue ph' => deleted_keys ((t, ph') :: D) | Done _ => deleted_keys D end.
Proof.
  intros Hn. destruct p as [ph'|[]]; cbn; [|done..]. by rewrite (tasks_set _ _ _ (t, ph') Hn).
Qed.

Lemma advance_inv queue0 w c n t ph :
  re_inv queue0 w -> cycle w = Some c -> tasks c !! n = Some (t, ph) ->
  let r := task_step t ph (storage w) (work_queue w) in
  re_inv queue0 (with_cycle w r.2.1 r.2.2 (Some (progress c n t r.1))).
Proof.
  intros [Hp (R & HR & Hk) Hd] Hc Hn. cbn zeta. rewrite Hc in Hk. cbn [deleted ahead] in Hk.
  rewrite (delete_Permutation _ _ _ Hn), deleting_cons, deleted_cons in Hk.
  set (r := task_step t ph (storage w) (work_queue w)).
  destruct (progress_keys c n t ph r.1 Hn) as [Ha Hx].
  assert (forall c', Some (progress c n t r.1) = Some c' -> Forall
    (fun t => is_due (scanned_at c') t /\ validate_timer_record t = Ok tt) (waiting c' ++ (tasks c').*1)) as Hd'.
  { intros c' [= <-]. destruct (progress_due c n t ph r.1 _ Hn (Hd c Hc)) as [-> HF]. exact HF. }
  destruct ph; cbn [task_step] in r.
  - destruct (delete_timer _ _ _) as [x s] eqn:E.
    pose proof (delete_law _ _ _ _ E) as [Hp' Ht]. cbn [fst snd] in *.
    split; [by rewrite <- Hp| |exact Hd']. exists R. split; [done|].
    cbn [with_cycle cycle storage scheduled]. rewrite Ha, Hx. subst r. cbn [fst snd]. rewrite Ht.
    destruct (is_ok x); rewrite ?deleting_cons, ?deleted_cons.
    + pose proof (keys_filter (fun t0 => key t0 <> (instance_id t, fire_at_ms t)) (timers (storage w))).
      assert (key t ∉ keys (base.filter (fun t0 => key t0 <> (instance_id t, fire_at_ms t)) (timers (storage w)))).
      { intros (t' & [Hne _]%list_elem_of_filter & Hk')%keys_elem. by apply Hne. }
      multiset_solver.
    + multiset_solver.
  - destruct (record_timer_fired _ _ _) as [x s] eqn:E.
    pose proof (record_law _ _ _ _ E) as [Ht Hp']. cbn [fst snd] in *.
    split; [by rewrite <- Hp| |exact Hd']. exists R. split; [done|].
    cbn [with_cycle cycle storage scheduled]. rewrite Ha, Hx. subst r. cbn [fst snd]. rewrite Ht.
    destruct (is_ok x); rewrite ?deleting_cons, ?deleted_cons; multiset_solver.
  - destruct (enqueue_resume _ _) as [x q] eqn:E.
    pose proof (enqueue_law _ _ _ E) as Hq. cbn [fst snd] in *.
    split; [done| |exact Hd'].
    exists (if is_ok x then R ++ [key t] else R). split.
    + cbn [with_cycle work_queue]. subst r. cbn [fst snd]. rewrite Hq, HR.
      destruct (is_ok x); [|done]. by rewrite fmap_app, <- app_assoc.
    + cbn [with_cycle cycle storage scheduled]. rewrite Ha, Hx. subst r. cbn [fst snd].
      destruct (is_ok x); rewrite ?list_to_set_disj_app, ?list_to_set_disj_cons, ?list_to_set_disj_nil;
        multiset_solver.
Qed.

Lemma schedule_inv queue0 w t :
  re_inv queue0 w ->
  re_inv queue0 (mkWorld (status w) (schedule_timer (storage w) t) (work_queue w) (budget w)
                   (max_already_processed w) (cycle w) (scheduled w ++ [t])).
Proof.
  intros [Hp (R & HR & Hk) Hd]. destruct (schedule_law (storage w) t) as [Ht Hp'].
  split; cbn [storage work_queue cycle scheduled]; [by rewrite Hp'| |done]. exists R. split; [done|].
  rewrite Ht, keys_app, !keys_cons, keys_nil. multiset_solver.
Qed.

Lemma cancel_inv queue0 w i :
  re_inv queue0 w ->
  re_inv queue0 (with_cycle w (delete_all_timers_for_instance (storage w) i).2 (work_queue w) (cycle w)).
Proof.
  intros [Hp (R & HR & Hk) Hd]. destruct (delete_all_timers_for_instance _ _) as [r s] eqn:E.
  destruct (delete_all_law _ _ _ E) as [Hp' Ht]. cbn [fst snd] in *.
  split; cbn [with_cycle storage work_queue cycle scheduled]; [by rewrite Hp'| |done]. exists R. split; [done|].
  rewrite Ht. pose proof (keys_filter (fun t => instance_id t <> i) (timers (storage w))).
  destruct (is_ok r); multiset_solver.
Qed.

Lemma idle_inv queue0 w st b m :
  re_inv queue0 w -> re_inv queue0 (mkWorld st (storage w) (work_queue w) b m None (scheduled w)).
Proof.
  intros [Hp (R & HR & Hk) Hd]. split; cbn [storage work_queue cycle scheduled deleted ahead]; [done| |done].
  exists R. split; [done|]. multiset_solver.
Qed.

Lemma exec_keeps_inv queue0 w ev w' : re_inv queue0 w -> exec w ev = Some w' -> re_inv queue0 w'.
Proof.
  intros Hw. destruct ev; cbn [exec].
  all: try match goal with |- match status _ with _ => _ end = _ -> _ =>
    destruct (status w); try done; destruct (cycle w) as [c|] eqn:Ec; try done end.
  all: try (intros [= <-]); try by apply idle_inv.
  - pose proof Hw as [Hp (R & HR & Hk) _]. rewrite Ec in Hk.
    destruct (recovery_idle (storage w) (work_queue w) now Hp) as (Ht & Hp' & Hq).
    split; cbn [storage work_queue cycle scheduled]; [done| |done]. exists R. rewrite Hq, Ht. done.
  - by apply tick_inv.
  - destruct (waiting c) as [|t ts] eqn:Ew; [done|]. destruct (has_room c); [|done]. intros [= <-].
    by apply pull_inv.
  - destruct (tasks c !! n) as [[t ph]|] eqn:En; [|done]. intros [= <-]. by eapply advance_inv.
  - destruct (waiting c), (tasks c); try done. intros [= <-]. by apply idle_inv.
  - by apply schedule_inv.
  - by apply cancel_inv.
Qed.

Lemma run_keeps_inv queue0 w evs w' : re_inv queue0 w -> run w evs = Some w' -> re_inv queue0 w'.
Proof.
  revert w. induction evs as [|ev evs IH]; cbn [run]; intros w Hw; [by intros [= <-]|].
  destruct (exec w ev) as [w1|] eqn:E; [|done]. apply IH. by eapply exec_keeps_inv.
Qed.

(** C8. A timer wakes its instance at most once, and never early. Whatever happens, in whatever
    order the concurrent tasks of a cycle make their calls, whichever of these fail, and
    with crashes, restarts, timers scheduled and instances cancelled at any moment: the
    instances enqueued are those of different timers that were scheduled; and a cycle only
    works on valid timers that were due when it scanned. *)
Theorem timers_fire_once s q evs w :
  pending_timers s = [] -> run (world_new s q) evs = Some w ->
  (exists resumed, enqueued (work_queue w) = enqueued q ++ resumed /\ resumed ⊆+ instance_id <$> scheduled w) /\
  forall c t, cycle w = Some c -> t ∈ waiting c ++ (tasks c).*1 ->
    fire_at_ms t <= scanned_at c /\ validate_timer_record t = Ok tt.
Proof.
  intros Hp Hrun. destruct (run_keeps_inv _ _ _ _ (new_inv s q Hp) Hrun) as [_ (R & HR & Hk) Hd]. split.
  - exists R.*1. split; [done|].
    assert (list_to_set_disj R ⊆ keys (scheduled w)) as Hsub by multiset_solver.
    apply gmultiset_elements_submseteq in Hsub. unfold keys in Hsub. rewrite !elements_mset in Hsub.
    apply (fmap_submseteq fst) in Hsub. by rewrite <- list_fmap_compose in Hsub.
  - intros c t Hc Ht. specialize (Hd c Hc). rewrite Forall_forall in Hd. by apply Hd.
Qed.

(** ** Every due timer is resumed *)

(** Storages and queues that do not fail, and keep not failing. *)
Record healthy_storage (ok : St -> Prop) : Prop := {
  hs_scan : forall s now max, ok s ->
    is_ok (scan_due_timers s 0 now max).1 = true /\ ok (scan_due_timers s 0 now max).2;
  hs_delete : forall s i f, ok s -> is_ok (delete_timer s i f).1 = true /\ ok (delete_timer s i f).2;
  hs_record : forall s i f, ok s -> is_ok (record_timer_fired s i f).1 = true /\ ok (record_timer_fired s i f).2;
}.
Definition healthy_queue (ok : Wq -> Prop) : Prop :=
  forall q i, ok q -> is_ok (enqueue_resume q i).1 = true /\ ok (enqueue_resume q i).2.

(** The steps of the cycle itself, and how many of them a timer still needs. *)
Definition own_step (ev : Event) : Prop :=
  match ev with Pull | Advance _ => True | _ => False end.
Definition phase_steps (ph : Phase) : nat :=
  match ph with Deleting => 3 | Recording => 2 | Enqueueing => 1 end.
Definition steps_left (c : Cycle) : nat :=
  4 * length (waiting c) + sum_list_with (fun x => phase_steps x.2) (tasks c).

Section Healthy.
Context (okS : St -> Prop) (okQ : Wq -> Prop).
Hypothesis HS : healthy_storage okS.
Hypothesis HQ : healthy_queue okQ.

(** A cycle over the timers [due] that began with the timers [ts] and the queue [q0]: the
    timers are waiting, at work, or done; the done ones are in the queue; and the storage
    lacks those and the ones past their deletion. *)
Record cycle_inv (ts : list TimerRecord) (q0 : list InstanceId) (due : list TimerRecord) (w : World) (c : Cycle)
  : Prop := {
  ci_running : status w = ReanimatorState.Running;
  ci_cycle : cycle w = Some c;
  ci_ok : okS (storage w) /\ okQ (work_queue w);
  ci_state : exists (done : list TimerRecord) (gone : list (InstanceId * Z)),
    waiting c ++ (tasks c).*1 ++ done ≡ₚ due /\
    enqueued (work_queue w) = q0 ++ (instance_id <$> done) /\
    timers (storage w) ≡ₚ base.filter (fun t => key t ∉ gone) ts /\
    forall k, k ∈ gone <-> k ∈ key <$> done \/ exists x, x ∈ tasks c /\ x.2 <> Deleting /\ key x.1 = k;
}.

Lemma pull_cycle ts q0 due w c w' :
  cycle_inv ts q0 due w c -> exec w Pull = Some w' ->
  exists c', cycle_inv ts q0 due w' c' /\ steps_left c = S (steps_left c').
Proof.
  intros [Hr Hc Hok (done & gone & Hp & Hq & Ht & Hg)]. cbn [exec]. rewrite Hr, Hc.
  destruct (waiting c) as [|t rest] eqn:Ew; [done|]. destruct (has_room c); [|done]. intros [= <-].
  eexists. split.
  - split; [done|reflexivity|done|]. exists done, gone. cbn. split; [|split; [done|split; [done|]]].
    + rewrite <- Hp, fmap_app. cbn. solve_Permutation.
    + intros k. rewrite Hg. setoid_rewrite elem_of_app. setoid_rewrite list_elem_of_singleton. naive_solver.
  - unfold steps_left. rewrite Ew. cbn [tasks waiting length]. rewrite sum_list_with_app. cbn. lia.
Qed.

Lemma advance_cycle ts q0 due w c n w' :
  cycle_inv ts q0 due w c -> exec w (Advance n) = Some w' ->
  exists c', cycle_inv ts q0 due w' c' /\ steps_left c = S (steps_left c').
Proof.
  intros [Hr Hc [Hs Hwq] (done & gone & Hp & Hq & Ht & Hg)]. cbn [exec]. rewrite Hr, Hc.
  destruct (tasks c !! n) as [[t ph]|] eqn:En; [|done]. intros [= <-].
  pose proof (delete_Permutation _ _ _ En) as Hperm.
  pose proof (fun ph' => tasks_set _ _ _ (t, ph') En) as Hset.
  set (D := delete n (tasks c)) in *.
  assert (steps_left c = 4 * length (waiting c) + (phase_steps ph + sum_list_with (fun x => phase_steps x.2) D))%nat
    as Hsteps by (unfold steps_left; by rewrite Hperm).
  rewrite Hperm in Hp. setoid_rewrite Hperm in Hg. setoid_rewrite elem_of_cons in Hg.
  destruct ph; cbn [task_step].
  - destruct (hs_delete _ HS (storage w) (instance_id t) (fire_at_ms t) Hs) as [Hok Hs'].
    destruct (delete_timer _ _ _) as [x s] eqn:E. pose proof (delete_law _ _ _ _ E) as [_ Ht'].
    cbn [fst snd] in *. rewrite Hok in *. eexists. split.
    + split; [done|reflexivity|done|]. exists done, (key t :: gone). cbn.
      split; [by rewrite Hset|]. split; [done|]. split.
      * rewrite Ht', Ht, list_filter_filter. apply reflexive_eq, list_filter_iff. intros y.
        rewrite not_elem_of_cons. done.
      * intros k. rewrite elem_of_cons, Hg. setoid_rewrite Hset. setoid_rewrite elem_of_cons. naive_solver.
    + rewrite Hsteps. unfold steps_left. cbn. rewrite Hset. cbn. lia.
  - destruct (hs_record _ HS (storage w) (instance_id t) (fire_at_ms t) Hs) as [Hok Hs'].
    destruct (record_timer_fired _ _ _) as [x s] eqn:E. pose proof (record_law _ _ _ _ E) as [Ht' _].
    cbn [fst snd] in *. rewrite Hok in *. eexists. split.
    + split; [done|reflexivity|done|]. exists done, gone. cbn.
      split; [by rewrite Hset|]. split; [done|]. split; [by rewrite Ht'|].
      intros k. rewrite Hg. setoid_rewrite Hset. setoid_rewrite elem_of_cons. naive_solver.
    + rewrite Hsteps. unfold steps_left. cbn. rewrite Hset. cbn. lia.
  - destruct (HQ (work_queue w) (instance_id t) Hwq) as [Hok Hq'].
    destruct (enqueue_resume _ _) as [x q] eqn:E. pose proof (enqueue_law _ _ _ E) as Hen.
    cbn [fst snd] in *. rewrite Hok in *. eexists. split.
    + split; [done|reflexivity|done|]. exists (done ++ [t]), gone. cbn. fold D.
      split; [rewrite <- Hp; cbn; solve_Permutation|].
      split; [by rewrite Hen, Hq, fmap_app, <- app_assoc|]. split; [done|].
      intros k. rewrite Hg, fmap_app, elem_of_app. cbn. rewrite list_elem_of_singleton. naive_solver.
    + rewrite Hsteps. unfold steps_left. cbn. fold D. lia.
Qed.

Lemma cycle_run ts q0 due w c evs w' :
  cycle_inv ts q0 due w c -> Forall own_step evs -> run w evs = Some w' ->
  exists c', cycle_inv ts q0 due w' c' /\ steps_left c = (length evs + steps_left c')%nat.
Proof.
  revert w c. induction evs as [|ev evs IH]; intros w c Hc Hown; cbn [run].
  { intros [= <-]. by exists c. }
  apply Forall_cons in Hown as [Hev Hown]. destruct (exec w ev) as [w1|] eqn:E; [|done]. intros Hrun.
  assert (exists c1, cycle_inv ts q0 due w1 c1 /\ steps_left c = S (steps_left c1)) as (c1 & Hc1 & Hs).
  { destruct ev; try done; [by eapply pull_cycle|by eapply advance_cycle]. }
  destruct (IH w1 c1 Hc1 Hown Hrun) as (c' & Hc' & Hs'). exists c'. split; [done|]. cbn [length]. lia.
Qed.

(** A cycle that is not finished can make a step, and one that is can end. *)
Lemma cycle_progress ts q0 due w c :
  0 <= max_concurrent_resumes config -> cycle_inv ts q0 due w c ->
  (exists ev w', own_step ev /\ exec w ev = Some w') \/
  exists w', exec w Finish = Some w' /\ cycle w' = None /\
    enqueued (work_queue w') ≡ₚ q0 ++ (instance_id <$> due) /\
    timers (storage w') ≡ₚ base.filter (fun t => key t ∉ key <$> due) ts.
Proof.
  intros Hlim [Hr Hc _ (done & gone & Hp & Hq & Ht & Hg)].
  destruct (tasks c) as [|[t ph] l] eqn:El; [destruct (waiting c) as [|t l] eqn:Ew|].
  - right. eexists. cbn [exec]. rewrite Hr, Hc, Ew, El. split; [done|]. cbn [cycle work_queue storage].
    split; [done|]. cbn in Hp. rewrite Hq, Ht. split; [by rewrite Hp|].
    apply reflexive_eq, list_filter_iff. intros x. rewrite Hg, Hp.
    split; [naive_solver|]. intros Hn [?|(y & Hy & _)]; [done|]. by apply elem_of_nil in Hy.
  - left. exists Pull. eexists. split; [done|]. cbn [exec]. rewrite Hr, Hc, Ew.
    assert (has_room c = true) as ->; [|reflexivity]. unfold has_room. rewrite El. apply orb_true_iff.
    destruct (Z.eq_dec (max_concurrent_resumes config) 0); [left; by apply Z.eqb_eq|right; apply Z.ltb_lt; cbn; lia].
  - left. exists (Advance 0). eexists. split; [done|]. cbn [exec]. rewrite Hr, Hc, El. reflexivity.
Qed.

(** The timers a cycle should resume. *)
Definition resumable (now : Z) (t : TimerRecord) : Prop :=
  is_due now t /\ is_ok (validate_timer_record t) = true.
#[local] Instance resumable_dec now t : Decision (resumable now t).
Proof. unfold resumable. apply _. Defined.

Lemma run_budget w evs w' :
  run w evs = Some w' -> max_per_instance (budget w') = max_per_instance (budget w).
Proof.
  revert w. induction evs as [|ev evs IH]; cbn [run]; intros w; [by intros [= <-]|].
  destruct (exec w ev) as [w1|] eqn:E; [|done]. intros ->%IH. destruct ev; cbn [exec] in E.
  all: repeat (case_match; try done); simplify_eq; try done.
  unfold begin_cycle. by destruct (scan_due_timers _ _ _ _) as [[l|e] s'].
Qed.

Lemma tick_cycle w now :
  0 < max_timers_per_cycle config -> status w = ReanimatorState.Running -> cycle w = None ->
  okS (storage w) -> okQ (work_queue w) -> max_per_instance (budget w) = max_timers_per_cycle config ->
  exists w1 c, exec w (Tick now) = Some w1 /\
    cycle_inv (timers (storage w)) (enqueued (work_queue w)) (waiting c) w1 c /\
    steps_left c = (4 * length (waiting c))%nat /\
    waiting c ⊆+ base.filter (resumable now) (timers (storage w)) /\
    (Z.of_nat (length (base.filter (is_due now) (timers (storage w)))) < max_timers_per_cycle config ->
     waiting c ≡ₚ base.filter (resumable now) (timers (storage w))).
Proof.
  intros Hmax Hr Hc Hs Hq Hb. cbn [exec]. rewrite Hr, Hc. unfold begin_cycle.
  destruct (hs_scan _ HS (storage w) now (max_timers_per_cycle config) Hs) as [Hok Hs'].
  destruct (scan_due_timers _ _ _ _) as [[l|e] s] eqn:E; [|done].
  pose proof (scan_law _ _ _ _ E) as (Ht & _ & Hl). cbn [fst snd] in *.
  destruct (Hl l eq_refl) as (Hsub & Hlen & Hall).
  rewrite take_ge by lia.
  assert (base.filter (fun t => admits (budget_reset (budget w)) t = true) l =
          base.filter (fun t => is_ok (validate_timer_record t) = true) l) as Hf.
  { apply list_filter_iff. intros t. unfold admits, can_resume, budget_reset. cbn. rewrite Hb, lookup_empty.
    replace (max_timers_per_cycle config =? 0) with false by lia.
    by rewrite andb_true_r. }
  rewrite Hf.
  assert (base.filter (resumable now) (timers (storage w)) =
          base.filter (fun t => is_ok (validate_timer_record t) = true) (base.filter (is_due now) (timers (storage w)))) as Hres.
  { rewrite list_filter_filter. apply list_filter_iff. intros t. unfold resumable. tauto. }
  eexists _, _. split; [reflexivity|]. cbn [waiting].
  split_and!; cbn [waiting].
  - split; [done|reflexivity|done|]. exists [], []. cbn. rewrite !app_nil_r. split; [done|]. split; [done|].
    split; [rewrite Ht; apply reflexive_eq; symmetry; apply filter_true; intros x; apply not_elem_of_nil|].
    intros k. split; [by intros ?%elem_of_nil|]. intros [?%elem_of_nil|(x & ?%elem_of_nil & _)]; done.
  - unfold steps_left. cbn. lia.
  - rewrite Hres. by apply filter_submseteq.
  - intros Hlt. rewrite Hres. cbn [waiting]. rewrite Hall; [done|].
    apply submseteq_length in Hsub. lia.
Qed.

(** C9. A cycle resumes what is due. At any point of a history where the task is between two
    cycles, if storage and queue do not fail from then on, a tick starts a cycle over valid
    due timers, all of them when there are fewer than the maximum per cycle and with no
    other limit per instance; whatever order its concurrent steps take, there are at most
    four per timer, the cycle is never stuck, and once it ends each of these timers has
    enqueued its instance once, after what was in the queue, and the storage lacks exactly
    them. *)
Theorem due_timers_resumed s q hist w now :
  0 < max_timers_per_cycle config -> 0 <= max_concurrent_resumes config ->
  run (world_new s q) hist = Some w -> status w = ReanimatorState.Running -> cycle w = None ->
  okS (storage w) -> okQ (work_queue w) ->
  exists w1 due, exec w (Tick now) = Some w1 /\
    due ⊆+ base.filter (resumable now) (timers (storage w)) /\
    (Z.of_nat (length (base.filter (is_due now) (timers (storage w)))) < max_timers_per_cycle config ->
     due ≡ₚ base.filter (resumable now) (timers (storage w))) /\
    forall evs w2, Forall own_step evs -> run w1 evs = Some w2 ->
      (length evs <= 4 * length due)%nat /\
      ((exists ev w3, own_step ev /\ exec w2 ev = Some w3) \/
       exists w3, exec w2 Finish = Some w3 /\ cycle w3 = None /\
         enqueued (work_queue w3) ≡ₚ enqueued (work_queue w) ++ (instance_id <$> due) /\
         timers (storage w3) ≡ₚ base.filter (fun t => key t ∉ key <$> due) (timers (storage w))).
Proof.
  intros Hmax Hlim Hrun Hr Hc Hs Hq. apply run_budget in Hrun as Hb. cbn in Hb.
  destruct (tick_cycle w now Hmax Hr Hc Hs Hq Hb) as (w1 & c & Htick & Hinv & Hsteps & Hsub & Hall).
  exists w1, (waiting c). split; [done|]. split; [done|]. split; [done|].
  intros evs w2 Hown Hrun2. destruct (cycle_run _ _ _ _ _ _ _ Hinv Hown Hrun2) as (c' & Hc' & Hs').
  split; [lia|]. by eapply cycle_progress.
Qed.
End Healthy.

(** ** Crash recovery *)

(** The queue said at some time that the instance had ended. *)
Definition seen_terminal (i : InstanceId) : Prop := exists q, (is_instance_terminal q i).1 = Ok true.

(** What replaying does to the timers in flight. *)
Record replayed (s : St) (q : Wq) (ps : list PendingTimer) (sq : St * Wq) (woken : list InstanceId) : Prop := {
  rp_timers : timers sq.1 = timers s;
  rp_queue : enqueued sq.2 = enqueued q ++ woken;
  rp_from : forall i, i ∈ woken -> i ∈ pt_instance_id <$> ps;
  rp_pending : pending_timers sq.1 ⊆ pending_timers s;
  rp_kept : forall p, p ∈ pending_timers s -> p ∈ pending_timers sq.1 \/
    pt_instance_id p ∈ woken \/ seen_terminal (pt_instance_id p);
}.

Lemma complete_replayed s p r (Q : Prop) :
  complete_timer_processing s (pt_instance_id p) (pt_fire_at_ms p) = r -> Q ->
  timers r.2 = timers s /\ pending_timers r.2 ⊆ pending_timers s /\
  forall p', p' ∈ pending_timers s -> p' ∈ pending_timers r.2 \/ pt_instance_id p' = pt_instance_id p /\ Q.
Proof.
  intros (Ht & Hsub & Hother & _)%complete_law HQ. split; [done|]. split; [done|].
  intros p' Hp'. destruct (decide (pt_instance_id p' = pt_instance_id p)) as [E|E]; [by right|left; auto].
Qed.

Lemma replay_one s q p : exists woken, replayed s q [p] (replay_pending (s, q) p) woken.
Proof.
  unfold replay_pending. cbn [fst snd]. destruct (is_instance_terminal q (pt_instance_id p)) as [x q1] eqn:E1.
  pose proof (terminal_law _ _ _ E1) as Hq1. cbn [snd] in Hq1.
  destruct x as [[]|e].
  - destruct (complete_replayed s p _ (seen_terminal (pt_instance_id p)) eq_refl) as (Ht & Hsub & Hk).
    { exists q. by rewrite E1. }
    exists []. split; cbn [fst snd]; [done|by rewrite Hq1, app_nil_r|by intros ? ?%elem_of_nil|done|].
    intros p' [?|[-> ?]]%Hk; auto.
  - destruct (enqueue_resume q1 (pt_instance_id p)) as [y q2] eqn:E2.
    pose proof (enqueue_law _ _ _ E2) as Hq2. cbn [fst snd] in Hq2. destruct y as [u|e]; cbn [is_ok] in Hq2.
    + destruct (complete_replayed s p _ True eq_refl I) as (Ht & Hsub & Hk).
      exists [pt_instance_id p]. split; cbn [fst snd]; [done|by rewrite Hq2, Hq1|done|done|].
      intros p' [?|[-> _]]%Hk; [by left|]. right. left. by apply list_elem_of_singleton.
    + exists []. split; cbn [fst snd]; [done|by rewrite Hq2, Hq1, app_nil_r|by intros ? ?%elem_of_nil|done|auto].
  - exists []. split; cbn [fst snd]; [done|by rewrite Hq1, app_nil_r|by intros ? ?%elem_of_nil|done|auto].
Qed.

Lemma replay_all s q ps : exists woken, replayed s q ps (foldl replay_pending (s, q) ps) woken.
Proof.
  revert s q. induction ps as [|p ps IH]; intros s q; cbn [foldl].
  { exists []. split; cbn; [done|by rewrite app_nil_r|by intros ? ?%elem_of_nil|done|auto]. }
  destruct (replay_one s q p) as [woken1 [Ht1 Hq1 Hf1 Hp1 Hk1]].
  destruct (replay_pending (s, q) p) as [s1 q1]. destruct (IH s1 q1) as [woken2 [Ht2 Hq2 Hf2 Hp2 Hk2]].
  cbn [fst snd] in *. exists (woken1 ++ woken2). split.
  - by rewrite Ht2.
  - by rewrite Hq2, Hq1, app_assoc.
  - intros i [Hi%Hf1|Hi%Hf2]%elem_of_app; cbn in *; [|by right].
    apply list_elem_of_singleton in Hi as ->. by left.
  - by etrans.
  - intros p' Hp'. rewrite elem_of_app. destruct (Hk1 p' Hp') as [H1|[?|?]]; [|auto..].
    destruct (Hk2 p' H1) as [?|[?|?]]; auto.
Qed.

(** Crash recovery forgets no timer in flight. Whichever calls fail: the scheduled timers
    are untouched; only instances of timers in flight that are less than a minute old are
    enqueued, none when recovery returns an error; and every such timer is afterwards still
    in flight, unless its instance was enqueued or has ended. Older timers in flight are
    dropped without being resumed. *)
Theorem crash_recovery_sound s q now :
  let r := run_crash_recovery s q now in
  let fresh p := Z.max (now - STALE_PENDING_THRESHOLD_MS) 0 < pt_marked_at_ms p in
  timers r.2.1 = timers s /\
  exists woken, enqueued r.2.2 = enqueued q ++ woken /\
    (is_ok r.1 = false -> woken = []) /\
    (forall i, i ∈ woken -> exists p, p ∈ pending_timers s /\ fresh p /\ pt_instance_id p = i) /\
    (forall p, p ∈ pending_timers s -> fresh p ->
       p ∈ pending_timers r.2.1 \/ pt_instance_id p ∈ woken \/ seen_terminal (pt_instance_id p)) /\
    (is_ok r.1 = true -> forall p, p ∈ pending_timers r.2.1 -> fresh p).
Proof.
  cbn zeta. unfold run_crash_recovery. set (threshold := Z.max (now - _) 0).
  destruct (cleanup_stale_pending_timers s threshold) as [x s1] eqn:E1.
  pose proof (cleanup_law _ _ _ E1) as [Ht1 Hp1]. cbn [fst snd] in Ht1, Hp1.
  destruct x as [n|e]; cbn [is_ok] in Hp1.
  2: { cbn. split; [done|]. exists []. rewrite app_nil_r. setoid_rewrite Hp1.
       split_and!; auto; [by intros ? ?%elem_of_nil|done]. }
  assert (forall p, p ∈ pending_timers s1 <-> threshold < pt_marked_at_ms p /\ p ∈ pending_timers s) as Hp1'.
  { intros p. rewrite Hp1. rewrite list_elem_of_filter. done. }
  destruct (scan_pending_timers s1 100) as [y s2] eqn:E2.
  pose proof (scan_pending_law _ _ _ E2) as (Ht2 & Hp2 & Hl). cbn [fst snd] in Ht2, Hp2, Hl.
  destruct y as [l|e].
  2: { cbn. rewrite Ht2. split; [done|]. exists []. rewrite app_nil_r, Hp2.
       split_and!; auto; [by intros ? ?%elem_of_nil|intros p Hp Hf; left; by apply Hp1'|done]. }
  destruct (Hl l eq_refl) as [Hsub _]. destruct (replay_all s2 q l) as [woken [Ht Hq Hf Hp Hk]].
  cbn [fst snd is_ok]. rewrite Ht, Ht2. split; [done|]. exists woken. split; [done|]. split; [done|].
  rewrite Hp2 in Hk, Hp. split_and!.
  - intros i (p & -> & Hin)%Hf%list_elem_of_fmap. exists p.
    apply (elem_of_submseteq _ _ _ Hin) in Hsub. apply Hp1' in Hsub as [? ?]. done.
  - intros p Hin Hfresh. apply Hk, Hp1'. done.
  - intros _ p Hin. by apply Hp, Hp1' in Hin as [? _].
Qed.
End Reanimator.

(** ** The implementations in memory *)

(** [struct MockTimerStorage]. Every entry of [pending_timers] is stored under its own
    instance, so the map holds the other fields; the set is a list. *)
Record MockTimerStorage : Set := mkMockStorage {
  mt_timers : list TimerRecord;
  mt_pending : gmap InstanceId (Z * Z * Z);
  mt_fire_calls : list (InstanceId * Z * option TimerId);
  mt_delete_calls : list (InstanceId * Z);
  mt_delete_all_calls : list InstanceId;
  mt_should_fail : bool;
  mt_deleted_timers : list (InstanceId * Z * option TimerId);
}.

(** [MockTimerStorage::new], [add_timer], [set_should_fail] and [add_pending_timer]. *)
Definition mock_new (ts : list TimerRecord) : MockTimerStorage := mkMockStorage ts ∅ [] [] [] false [].
Definition mock_add_timer (s : MockTimerStorage) (t : TimerRecord) : MockTimerStorage :=
  mkMockStorage (mt_timers s ++ [t]) (mt_pending s) (mt_fire_calls s) (mt_delete_calls s)
    (mt_delete_all_calls s) (mt_should_fail s) (mt_deleted_timers s).
Definition mock_set_should_fail (s : MockTimerStorage) (b : bool) : MockTimerStorage :=
  mkMockStorage (mt_timers s) (mt_pending s) (mt_fire_calls s) (mt_delete_calls s)
    (mt_delete_all_calls s) b (mt_deleted_timers s).
Definition with_pending (s : MockTimerStorage) (m : gmap InstanceId (Z * Z * Z)) : MockTimerStorage :=
  mkMockStorage (mt_timers s) m (mt_fire_calls s) (mt_delete_calls s)
    (mt_delete_all_calls s) (mt_should_fail s) (mt_deleted_timers s).
Definition mock_add_pending (s : MockTimerStorage) (p : PendingTimer) : MockTimerStorage :=
  with_pending s
    (<[pt_instance_id p := (pt_fire_at_ms p, pt_scheduled_at_ms p, pt_marked_at_ms p)]> (mt_pending s)).

Definition to_pending (x : InstanceId * (Z * Z * Z)) : PendingTimer :=
  let '(i, (f, sc, m)) := x in mkPendingTimer i f sc m.
Definition mock_pending (s : MockTimerStorage) : list PendingTimer := to_pending <$> map_to_list (mt_pending s).

(** The check every operation starts with. *)
Definition unless_failing {A} (s : MockTimerStorage) (k : result ReanimatorError A * MockTimerStorage)
  : result ReanimatorError A * MockTimerStorage :=
  if mt_should_fail s then (Err (ReStorageError "Mock failure"), s) else k.

Definition mock_scan_due (s : MockTimerStorage) (from to max : Z)
  : result ReanimatorError (list TimerRecord) * MockTimerStorage :=
  unless_failing s (Ok (take (Z.to_nat max) (base.filter (is_due to) (mt_timers s))), s).

Definition mock_delete (s : MockTimerStorage) (i : InstanceId) (f : Z)
  : result ReanimatorError unit * MockTimerStorage :=
  unless_failing s
    (Ok tt, mkMockStorage (base.filter (fun t => key t <> (i, f)) (mt_timers s)) (mt_pending s) (mt_fire_calls s)
              (mt_delete_calls s ++ [(i, f)]) (mt_delete_all_calls s) (mt_should_fail s) (mt_deleted_timers s)).

Definition mock_record_fired (s : MockTimerStorage) (i : InstanceId) (f : Z)
  : result ReanimatorError unit * MockTimerStorage :=
  unless_failing s
    (Ok tt,
     let record fires deleted := mkMockStorage (mt_timers s) (mt_pending s) fires (mt_delete_calls s)
                                   (mt_delete_all_calls s) (mt_should_fail s) deleted in
     match base.filter (fun x => x.1 = (i, f)) (mt_deleted_timers s) with
     | [] => if decide ((i, f, None) ∈ mt_fire_calls s) then s
             else record (mt_fire_calls s ++ [(i, f, None)]) (mt_deleted_timers s)
     | candidates =>
         match list_find (fun x => x ∉ mt_fire_calls s) candidates with
         | Some (_, x) => record (mt_fire_calls s ++ [x]) (base.filter (fun y => y <> x) (mt_deleted_timers s))
         | None => s
         end
     end).

Definition mock_mark (s : MockTimerStorage) (i : InstanceId) (f now_scheduled now_marked : Z)
  : result ReanimatorError unit * MockTimerStorage :=
  unless_failing s (Ok tt, mock_add_pending s (mkPendingTimer i f now_scheduled now_marked)).

Definition mock_scan_pending (s : MockTimerStorage) (max : Z)
  : result ReanimatorError (list PendingTimer) * MockTimerStorage :=
  unless_failing s (Ok (take (Z.to_nat max) (mock_pending s)), s).

Definition mock_complete (s : MockTimerStorage) (i : InstanceId) (f : Z)
  : result ReanimatorError unit * MockTimerStorage :=
  unless_failing s (Ok tt, with_pending s (delete i (mt_pending s))).

Definition mock_cleanup (s : MockTimerStorage) (older_than : Z) : result ReanimatorError Z * MockTimerStorage :=
  unless_failing s
    (let kept := base.filter (fun x => older_than < x.2.2) (mt_pending s) in
     (Ok (as_u32 (Z.of_nat (size (mt_pending s)) - Z.of_nat (size kept))), with_pending s kept)).

Definition mock_delete_all (s : MockTimerStorage) (i : InstanceId) : result ReanimatorError Z * MockTimerStorage :=
  unless_failing s
    (let kept := base.filter (fun t => instance_id t <> i) (mt_timers s) in
     (Ok (as_u32 (Z.of_nat (length (mt_timers s)) - Z.of_nat (length kept))),
      mkMockStorage kept (mt_pending s) (mt_fire_calls s) (mt_delete_calls s)
        (mt_delete_all_calls s ++ [i]) (mt_should_fail s) (mt_deleted_timers s))).

#[global] Instance mock_timer_storage : TimerStorage MockTimerStorage := {|
  timers := mt_timers;
  pending_timers := mock_pending;
  schedule_timer := mock_add_timer;
  scan_due_timers := mock_scan_due;
  delete_timer := mock_delete;
  record_timer_fired := mock_record_fired;
  mark_timer_processing := mock_mark;
  scan_pending_timers := mock_scan_pending;
  complete_timer_processing := mock_complete;
  cleanup_stale_pending_timers := mock_cleanup;
  delete_all_timers_for_instance := mock_delete_all;
|}.

(** [struct MockWorkQueue]. *)
Record MockWorkQueue : Set := mkMockQueue { mq_enqueued : list InstanceId; mq_should_fail : bool }.

Definition mock_queue_new : MockWorkQueue := mkMockQueue [] false.
Definition mock_enqueue_resume (q : MockWorkQueue) (i : InstanceId) : result string unit * MockWorkQueue :=
  if mq_should_fail q then (Err "Mock failure", q)
  else (Ok tt, mkMockQueue (mq_enqueued q ++ [i]) (mq_should_fail q)).
Definition mock_is_terminal (q : MockWorkQueue) (i : InstanceId) : result string bool * MockWorkQueue := (Ok false, q).

#[global] Instance mock_work_queue : WorkQueue MockWorkQueue := {|
  enqueued := mq_enqueued;
  enqueue_resume := mock_enqueue_resume;
  is_instance_terminal := mock_is_terminal;
|}.

#[global] Instance mock_queue_laws : WorkQueueLaws MockWorkQueue.
Proof.
  split; [|by intros q i ? <-]. intros q i ? <-. cbn. unfold mock_enqueue_resume. by destruct (mq_should_fail q).
Qed.

Lemma take_short {A} (l : list A) n : Z.of_nat (length (take (Z.to_nat n) l)) < n -> take (Z.to_nat n) l = l.
Proof. rewrite length_take. intros H. apply take_ge. lia. Qed.

Lemma mock_pending_elem s p :
  p ∈ mock_pending s <->
  mt_pending s !! pt_instance_id p = Some (pt_fire_at_ms p, pt_scheduled_at_ms p, pt_marked_at_ms p).
Proof.
  unfold mock_pending. rewrite list_elem_of_fmap. split.
  - intros ([i [[f sc] m]] & -> & H%elem_of_map_to_list). done.
  - intros H. destruct p as [i f sc m]. exists (i, (f, sc, m)). split; [done|]. by apply elem_of_map_to_list.
Qed.

Lemma mock_pending_NoDup s : NoDup (mock_pending s).
Proof.
  apply NoDup_fmap_2_strong; [|apply NoDup_map_to_list].
  by intros [i [[f sc] m]] [i' [[f' sc'] m']] _ _ [= <- <- <- <-].
Qed.

#[global] Instance mock_storage_laws : TimerStorageLaws MockTimerStorage.
Proof.
  split; cbn.
  - intros s t. split; [|done]. symmetry. apply Permutation_cons_append.
  - intros s now max ? <-. unfold mock_scan_due, unless_failing. destruct (mt_should_fail s); [done|].
    split; [done|]. split; [done|]. intros l [= <-]. split; [apply sublist_submseteq, sublist_take|].
    split; [rewrite length_take; lia|]. by intros ->%take_short.
  - intros s i f ? <-. unfold mock_delete, unless_failing. by destruct (mt_should_fail s).
  - intros s i f ? <-. unfold mock_record_fired, unless_failing.
    destruct (mt_should_fail s); [done|]. cbn [snd]. destruct (base.filter _ _) as [|x l].
    + by case_decide.
    + by destruct (list_find _ _) as [[? ?]|].
  - intros s max ? <-. unfold mock_scan_pending, unless_failing. destruct (mt_should_fail s); [done|].
    split; [done|]. split; [done|]. intros l [= <-]. split; [apply sublist_submseteq, sublist_take|].
    by intros ->%take_short.
  - intros s i f ? <-. unfold mock_complete, unless_failing.
    destruct (mt_should_fail s); [by split_and!|]. cbn. split_and!; [done| | |done|].
    + intros p. rewrite !mock_pending_elem. cbn. rewrite lookup_delete_Some. naive_solver.
    + intros p. rewrite !mock_pending_elem. cbn. intros ? ?. by rewrite lookup_delete_ne.
    + intros _ p. rewrite mock_pending_elem. cbn. rewrite lookup_delete_Some. naive_solver.
  - intros s t ? <-. unfold mock_cleanup, unless_failing. destruct (mt_should_fail s); [done|]. cbn.
    split; [done|]. apply NoDup_Permutation; [apply mock_pending_NoDup|apply NoDup_filter, mock_pending_NoDup|].
    intros p. rewrite list_elem_of_filter, !mock_pending_elem. cbn. rewrite map_lookup_filter_Some. cbn. tauto.
  - intros s i ? <-. unfold mock_delete_all, unless_failing. by destruct (mt_should_fail s).
Qed.

(** ** Witnesses *)

Module ReanimatorWitness.
Import ConcreteUlid.

Definition two : InstanceId := InstanceId_from_u128 2.
Definition t1 : TimerRecord := mkTimerRecord one 10 None 5.
Definition t2 : TimerRecord := mkTimerRecord two 20 None 5.
Definition early : TimerRecord := mkTimerRecord two 900 None 5.

(** Two timers are due; their tasks interleave; then the process crashes and starts again. *)
Definition history : list Event :=
  [Start 100; Schedule t2; Tick 100; Pull; Pull; Advance 1; Advance 0; Advance 1; Advance 0; Advance 1;
   Advance 0; Finish; Crash; Start 200; Tick 200; Finish].

Lemma mock_new_pending ts : pending_timers (mock_new ts) = [].
Proof. cbn. unfold mock_pending. cbn. by rewrite map_to_list_empty. Qed.

Lemma timers_fire_once_witness :
  exists w, run re_config_default (world_new re_config_default (mock_new [t1; early]) mock_queue_new) history = Some w /\
    enqueued (work_queue w) = [two; one] /\
    exists woken, enqueued (work_queue w) = woken /\ woken ⊆+ instance_id <$> scheduled w.
Proof.
  destruct (run re_config_default (world_new re_config_default (mock_new [t1; early]) mock_queue_new) history)
    as [w|] eqn:E; [|by vm_compute in E].
  exists w. split; [done|]. assert (enqueued (work_queue w) = [two; one]) as Hq.
  { assert (enqueued <$> (work_queue <$> run re_config_default
      (world_new re_config_default (mock_new [t1; early]) mock_queue_new) history) = Some [two; one]) as H
      by (by vm_compute). rewrite E in H. by injection H. }
  split; [done|].
  destruct (timers_fire_once re_config_default (mock_new [t1; early]) mock_queue_new history w
    (mock_new_pending _) E) as [(woken & Hw & Hsub) _].
  exists woken. split; [exact Hw|exact Hsub].
Defined.

Definition ok_storage (s : MockTimerStorage) : Prop := mt_should_fail s = false.
Definition ok_queue (q : MockWorkQueue) : Prop := mq_should_fail q = false.

Lemma mock_healthy : healthy_storage ok_storage.
Proof.
  split; intros s *; unfold ok_storage; cbn; intros Hs;
    unfold mock_scan_due, mock_delete, mock_record_fired, unless_failing; rewrite !Hs; [done|done|].
  split; [done|]. cbn [snd]. destruct (base.filter _ _) as [|x l].
  - by case_decide.
  - by destruct (list_find _ _) as [[? ?]|].
Qed.

Lemma mock_queue_healthy : healthy_queue ok_queue.
Proof. intros q i. unfold ok_queue. cbn. unfold mock_enqueue_resume. by intros ->. Qed.

(** At the first tick both timers are due and the third is not. *)
Lemma due_timers_resumed_witness :
  exists w w1 due, run re_config_default (world_new re_config_default (mock_new [t1; t2; early]) mock_queue_new) [Start 100]
      = Some w /\
    exec re_config_default w (Tick 100) = Some w1 /\ due ≡ₚ [t1; t2] /\
    forall evs w2, Forall own_step evs -> run re_config_default w1 evs = Some w2 -> (length evs <= 8)%nat.
Proof.
  destruct (run re_config_default (world_new re_config_default (mock_new [t1; t2; early]) mock_queue_new) [Start 100])
    as [w|] eqn:E; [|by vm_compute in E].
  assert (status w = ReanimatorState.Running /\ cycle w = None /\ timers (storage w) = [t1; t2; early] /\
    ok_storage (storage w) /\ ok_queue (work_queue w)) as (Hr & Hc & Ht & Hs & Hq).
  { vm_compute in E. injection E as <-. by vm_compute. }
  destruct (due_timers_resumed re_config_default ok_storage ok_queue mock_healthy mock_queue_healthy
    (mock_new [t1; t2; early]) mock_queue_new [Start 100] w 100 ltac:(done) ltac:(done) E Hr Hc Hs Hq)
    as (w1 & due & Htick & _ & Hall & Hrun).
  exists w, w1, due. rewrite Ht in Hall.
  assert (due ≡ₚ [t1; t2]) as Hdue by (etrans; [apply Hall; by vm_compute|by vm_compute]).
  split; [done|]. split; [done|]. split; [done|]. intros evs w2 Hown H2.
  destruct (Hrun evs w2 Hown H2) as [Hlen _]. by rewrite Hdue in Hlen.
Defined.

(** Two reanimators over one storage: both scan before either deletes, deleting a timer that
    is gone succeeds, and the instance is resumed twice. Nothing stops [spawn] from being
    called twice. *)
Example two_reanimators_resume_twice :
  let s0 := mock_new [t1] in
  let scan := (scan_due_timers s0 0 100 10).1 in
  let step t ph (sq : MockTimerStorage * MockWorkQueue) := (task_step t ph sq.1 sq.2).2 in
  scan = Ok [t1] /\
  enqueued (step t1 Enqueueing (step t1 Recording (step t1 Deleting
    (step t1 Enqueueing (step t1 Recording (step t1 Deleting (s0, mock_queue_new))))))).2 = [one; one].
Proof. by vm_compute. Qed.

(** A timer whose resumption cannot be enqueued is lost: it is deleted and not in flight, so
    neither a later cycle nor crash recovery finds it. *)
Example failed_enqueue_loses_timer :
  exists w, run re_config_default
      (world_new re_config_default (mock_new [t1]) (mkMockQueue [] true))
      [Start 50; Tick 100; Pull; Advance 0; Advance 0; Advance 0; Finish] = Some w /\
    timers (storage w) = [] /\ pending_timers (storage w) = [] /\ enqueued (work_queue w) = [].
Proof. eexists. split; [vm_compute; reflexivity|]. by vm_compute. Qed.

(** One instance may take the whole of a cycle: the budget is checked but never charged. *)
Example budget_never_charged :
  let same := (fun f => mkTimerRecord one f None 5) <$> [6; 7; 8; 9; 10; 11; 12] in
  exists w, run re_config_default (world_new re_config_default (mock_new same) mock_queue_new) [Start 50; Tick 100] = Some w /\
    waiting <$> cycle w = Some same /\ instance_counts (budget w) = ∅.
Proof. eexists. split; [vm_compute; reflexivity|]. by vm_compute. Qed.
End ReanimatorWitness.
