(* ===== verification/Lineage.v ===== *)
(** * Lineages and epochs

    [crates/vo-core/src/lineage_projection/]: a long-lived workflow, a lineage, runs in
    numbered epochs; continue-as-new ends one and begins the next with the state that is
    carried over. The map of active epochs routes events ([lineage_graph.rs]); the rollover,
    the rebuilding of projections and the order of compensations over epochs are in
    [event_replay_calc.rs], the states of a projection in [projection_state.rs]. Values of
    [serde_json] are those of [Events]; their serialisation is the class [LineageSerde]. *)

From stdpp Require Import sorting.
From S2P Require Import Prelude Events.

(** [LineageId] and [EpochId]. *)
Abbreviation LineageId := string.
Abbreviation EpochId := Z.

(** [EpochId::next]. *)
Definition epoch_next (e : EpochId) : EpochId := wrapping_add_u64 e 1.

(** [enum ContinuedAsNewTrigger]. *)
Inductive ContinuedAsNewTrigger : Set :=
| EventCountThreshold (event_count threshold : Z)
| SignalCountThreshold (signal_count threshold : Z)
| BlobReferencesThreshold (blob_count threshold : Z)
| Explicit.

(** [enum ProjectionClass], [RebuildScope], [ProjectionCorruption] and [ProjectionState]; the
    progress of a rebuild is a floating-point number nothing computes with, here its bits. *)
Inductive ProjectionClass : Set := Operational | Operator.

Inductive RebuildScope : Set :=
| FullEpoch (l : LineageId) (e : EpochId)
| Incremental (l : LineageId) (e : EpochId) (from_sequence : Z)
| CrossEpoch (l : LineageId) (from_epoch : EpochId) (to_epoch : option EpochId) (from_sequence : Z).

Inductive ProjectionCorruption : Set :=
| ChecksumMismatch (expected actual : string)
| SchemaVersionMismatch (expected actual : Z)
| SequenceGap (gap_at : Z)
| Unknown.

Inductive ProjectionState : Set :=
| Building
| ReadyAt (schema_version last_sequence : Z)
| Stale (reason : string) (detected_at : Z)
| Rebuilding (progress from_sequence : Z)
| FailedAt (reason : string) (attempted_at : Z).

(** [enum EffectStatus] and [struct ExecutedEffect]. *)
Inductive EffectStatus : Set := Executed | Compensated | PendingCompensation.

Record ExecutedEffect : Set := mkExecutedEffect {
  effect_id : string;
  effect_type : string;
  effect_epoch : EpochId;
  effect_lineage : LineageId;
  effect_status : EffectStatus;
}.

(** [enum RouteResult]. *)
Inductive RouteResult : Set :=
| Routed (l : LineageId) (e : EpochId) (routed_to_active : bool)
| OldEpochRejected (l : LineageId) (event_epoch active : EpochId)
| Buffered (l : LineageId) (e : EpochId)
| NewLineage (l : LineageId) (e : EpochId).

(** [enum RolloverError] and [RebuildError]. *)
Inductive RolloverError : Set :=
| NoActiveEpoch (l : LineageId)
| CarriedStateInvalid
| RolloverInProgress
| ValidationFailed (s : string).

Inductive RebuildError : Set :=
| RebuildSequenceGap (expected actual : Z)
| MixedLineage
| InvalidInitialState.

(** [struct EpochMap]. *)
Record EpochMap : Set := mkEpochMap {
  epochs : gmap LineageId EpochId;
  rollover_in_progress : bool;
}.

(** The operations of [EpochMap]. *)
Definition epoch_map_new : EpochMap := mkEpochMap ∅ false.
Definition active_epoch (m : EpochMap) (l : LineageId) : option EpochId := epochs m !! l.
Definition is_active (m : EpochMap) (l : LineageId) (e : EpochId) : bool :=
  match epochs m !! l with Some active => active =? e | None => false end.
Definition is_old_epoch (m : EpochMap) (l : LineageId) (e : EpochId) : bool :=
  match epochs m !! l with Some active => e <? active | None => false end.
Definition register_epoch (m : EpochMap) (l : LineageId) (e : EpochId) : EpochMap :=
  mkEpochMap (<[l := e]> (epochs m)) (rollover_in_progress m).
Definition unregister_epoch (m : EpochMap) (l : LineageId) : EpochMap :=
  mkEpochMap (delete l (epochs m)) (rollover_in_progress m).
Definition set_rollover_in_progress (m : EpochMap) (b : bool) : EpochMap := mkEpochMap (epochs m) b.

(** [evaluate_rollover_trigger]. *)
Definition evaluate_rollover_trigger
  (event_count signal_count blob_count event_threshold signal_threshold blob_threshold : Z) (explicit : bool)
  : option ContinuedAsNewTrigger :=
  if explicit then Some Explicit
  else if event_threshold <? event_count then Some (EventCountThreshold event_count event_threshold)
  else if signal_threshold <? signal_count then Some (SignalCountThreshold signal_count signal_threshold)
  else if blob_threshold <? blob_count then Some (BlobReferencesThreshold blob_count blob_threshold)
  else None.

(** [determine_rebuild_scope] and [determine_projection_class]. *)
Definition determine_rebuild_scope (c : ProjectionCorruption) (l : LineageId) (e : EpochId) : RebuildScope :=
  match c with
  | ChecksumMismatch _ _ | Unknown | SchemaVersionMismatch _ _ => FullEpoch l e
  | SequenceGap gap_at => if gap_at =? 0 then FullEpoch l e else Incremental l e gap_at
  end.
Definition determine_projection_class (c : ProjectionCorruption) (p : ProjectionClass) : ProjectionClass * bool :=
  match c with
  | SchemaVersionMismatch _ _ => (p, true)
  | ChecksumMismatch _ _ => (p, false)
  | SequenceGap _ => (p, false)
  | Unknown => (p, true)
  end.

(** [is_valid_state_transition] and [atomic_projection_swap]: whether the swap is made. *)
Definition is_valid_state_transition (from to : ProjectionState) : bool :=
  match from, to with
  | Building, ReadyAt _ _ | Building, FailedAt _ _ | ReadyAt _ _, Stale _ _ | Stale _ _, Rebuilding _ _
  | Rebuilding _ _, ReadyAt _ _ | Rebuilding _ _, FailedAt _ _ | FailedAt _ _, Building => true
  | _, _ => false
  end.

Section Lineage.
Context `{J : JsonApi}.

(** [struct CanonicalEvent], [CarriedState], [ContinuedAsNew], [WorkflowStarted] and
    [SignalBuffer]. *)
Record CanonicalEvent : Type := mkCanonical {
  lineage_id : LineageId;
  epoch_id : EpochId;
  sequence : Z;
  event_type : string;
  payload : Value;
}.

Record CarriedState : Type := mkCarried { operational : Value; operator : Value }.

Record ContinuedAsNew : Type := mkContinued {
  can_lineage : LineageId;
  old_epoch_id : EpochId;
  new_epoch_id : EpochId;
  can_carried : CarriedState;
  trigger : ContinuedAsNewTrigger;
}.

Record WorkflowStarted : Type := mkStarted {
  ws_lineage : LineageId;
  ws_epoch : EpochId;
  ws_carried : CarriedState;
  parent_epoch_id : EpochId;
}.

Record SignalBuffer : Type := mkSignals { pending : gmap LineageId (list CanonicalEvent) }.

(** [struct RolloverResult] and [RebuildResult]. *)
Record RolloverResult : Type := mkRollover {
  rr_lineage : LineageId;
  rr_old_epoch : EpochId;
  rr_new_epoch : EpochId;
  rr_carried : CarriedState;
  events_written : list CanonicalEvent;
  steps_completed : Z;
  step_count : Z;
}.

Record RebuildResult : Set := mkRebuild {
  scope : RebuildScope;
  events_applied : Z;
  final_state : ProjectionState;
  rebuilt_from_canonical : bool;
}.

(** [serde_json::to_string] and the [to_value] of the two events. *)
Class LineageSerde : Type := {
  value_to_string : Value -> option string;
  continued_to_value : ContinuedAsNew -> option Value;
  started_to_value : WorkflowStarted -> option Value;
}.
Context `{LS : LineageSerde}.

(** [SignalBuffer::buffer], [drain], [has_pending] and [pending_count]. *)
Definition buffer_signal (b : SignalBuffer) (ev : CanonicalEvent) : SignalBuffer :=
  mkSignals (<[lineage_id ev := default [] (pending b !! lineage_id ev) ++ [ev]]> (pending b)).
Definition drain (b : SignalBuffer) (l : LineageId) : list CanonicalEvent * SignalBuffer :=
  (default [] (pending b !! l), mkSignals (delete l (pending b))).
Definition has_pending (b : SignalBuffer) (l : LineageId) : bool :=
  match pending b !! l with Some evs => negb (bool_decide (evs = [])) | None => false end.
Definition pending_count (b : SignalBuffer) : nat :=
  sum_list ((fun p => length p.2) <$> map_to_list (pending b)).

(** [route_event]. *)
Definition route_event (m : EpochMap) (ev : CanonicalEvent) : RouteResult :=
  let l := lineage_id ev in let e := epoch_id ev in
  let direct :=
    match active_epoch m l with
    | Some active => if active =? e then Routed l e true
                     else if e <? active then OldEpochRejected l e active else NewLineage l e
    | None => NewLineage l e
    end in
  if rollover_in_progress m then
    match active_epoch m l with
    | Some active => if active =? e then direct else Buffered l e
    | None => Buffered l e
    end
  else direct.

(** [compute_carried_state], its [is_valid], and [validate_carried_state]. *)
Definition carried_is_valid (c : CarriedState) : bool :=
  negb (is_null (operational c)) || match as_object (operational c) with Some _ => true | None => false end.
Definition validate_carried_state (v : Value) : result RolloverError unit :=
  match value_to_string v with
  | None => Err CarriedStateInvalid
  | Some s => if 1048576 <? Z.of_nat (String.length s) then Err CarriedStateInvalid else Ok tt
  end.

(** [continue_as_new_7step]. *)
Definition continue_as_new_7step (m : EpochMap) (l : LineageId) (carried : CarriedState)
  (tr : ContinuedAsNewTrigger) (signals : SignalBuffer)
  : result RolloverError RolloverResult * (EpochMap * SignalBuffer) :=
  match active_epoch m l with
  | None => (Err (NoActiveEpoch l), (m, signals))
  | Some old =>
      let new := epoch_next old in
      if negb (carried_is_valid carried) then (Err CarriedStateInvalid, (m, signals))
      else match validate_carried_state (operational carried) with
           | Err e => (Err e, (m, signals))
           | Ok _ =>
               let continued := mkContinued l old new carried tr in
               let ev1 := mkCanonical l old (u64_max - 1) "ContinuedAsNew"
                            (default value_null (continued_to_value continued)) in
               let m1 := set_rollover_in_progress m true in
               let m2 := register_epoch m1 l new in
               let m3 := unregister_epoch m2 l in
               let kept := mkCarried (operational carried) value_null in
               let started := mkStarted l new kept old in
               let ev2 := mkCanonical l new 1 "WorkflowStarted"
                            (default value_null (started_to_value started)) in
               let signals' := (drain signals l).2 in
               let m4 := set_rollover_in_progress m3 false in
               (Ok (mkRollover l old new kept [ev1; ev2] 7 7), (m4, signals'))
           end
  end.

(** The loop of [build_projection], at event [i]. *)
Fixpoint check_events (first : CanonicalEvent) (i : nat) (evs : list CanonicalEvent) : result RebuildError unit :=
  match evs with
  | [] => Ok tt
  | ev :: evs =>
      let expected := Z.of_nat i + 1 in
      if negb (sequence ev =? expected) then Err (RebuildSequenceGap expected (sequence ev))
      else if negb (String.eqb (lineage_id ev) (lineage_id first)) || negb (epoch_id ev =? epoch_id first)
      then Err MixedLineage
      else check_events first (S i) evs
  end.

(** [build_projection] and [build_projection_incremental]. *)
Definition build_projection (evs : list CanonicalEvent) (initial : ProjectionState)
  : result RebuildError RebuildResult :=
  match initial with
  | Building =>
      match evs, last evs with
      | first :: _, Some latest =>
          let? _ := check_events first 0 evs in
          Ok (mkRebuild (FullEpoch (lineage_id first) (epoch_id first)) (Z.of_nat (length evs))
                (ReadyAt 0 (sequence latest)) true)
      | _, _ => Ok (mkRebuild (FullEpoch "" 0) 0 (ReadyAt 0 0) true)
      end
  | _ => Err InvalidInitialState
  end.

Definition build_projection_incremental (evs : list CanonicalEvent) (from_sequence existing_last_sequence : Z)
  : result RebuildError RebuildResult :=
  let expected_first := wrapping_add_u64 existing_last_sequence 1 in
  if negb (from_sequence =? expected_first) then Err (RebuildSequenceGap expected_first from_sequence)
  else build_projection evs Building.
End Lineage.

(** The groups of [compute_epoch_compensation_order]; a [BTreeMap] is iterated by key. *)
Definition epoch_groups (effects : list ExecutedEffect) : gmap EpochId (list ExecutedEffect) :=
  foldl (fun m x => <[effect_epoch x := default [] (m !! effect_epoch x) ++ [x]]> m) ∅ effects.

(** [compute_epoch_compensation_order]; it always succeeds. *)
Definition compute_epoch_compensation_order (effects : list ExecutedEffect) : list ExecutedEffect :=
  let groups := epoch_groups effects in
  let by_epoch := merge_sort Z.le (map_to_list groups).*1 in
  reverse (concat ((fun k => default [] (groups !! k)) <$> by_epoch)).

(** ** Rollover and routing *)

Section LineageTheory.
Context `{J : JsonApi} `{LS : !LineageSerde}.

(** [route_event] on every branch. *)
Lemma route_event_spec m ev :
  let l := lineage_id ev in let e := epoch_id ev in
  match route_event m ev with
  | Routed l' e' b => (l', e', b) = (l, e, true) /\ active_epoch m l = Some e
  | Buffered l' e' => (l', e') = (l, e) /\ rollover_in_progress m = true /\ active_epoch m l <> Some e
  | OldEpochRejected l' e' a =>
      (l', e') = (l, e) /\ rollover_in_progress m = false /\ active_epoch m l = Some a /\ e < a
  | NewLineage l' e' =>
      (l', e') = (l, e) /\ rollover_in_progress m = false /\ forall a, active_epoch m l = Some a -> a < e
  end.
Proof.
  cbn zeta. unfold route_event. destruct (active_epoch m (lineage_id ev)) as [a|] eqn:Ea.
  - destruct (Z.eqb_spec a (epoch_id ev)) as [->|Hne].
    + by destruct (rollover_in_progress m).
    + destruct (rollover_in_progress m); [split_and!; congruence|].
      destruct (Z.ltb_spec (epoch_id ev) a); split_and!; try done. intros ? [= <-]. lia.
  - by destruct (rollover_in_progress m).
Qed.

(** When the carried state is refused. *)
Definition carried_refused (c : CarriedState) : Prop :=
  carried_is_valid c = false \/ validate_carried_state (operational c) = Err CarriedStateInvalid.

(** Continue-as-new on every branch. An error changes nothing and tells its reason. A
    success returns the next epoch, with the operational state only, and the two events that
    end the old epoch and begin the new one; nothing changes for other lineages. But the
    lineage itself is taken out of the map instead of being moved to the new epoch, and the
    signals buffered for it are dropped: afterwards events of every epoch, the ended one
    included, are routed as those of a new lineage, and the lineage cannot roll over again. *)
Theorem rollover_outcome m l c tr b :
  let r := continue_as_new_7step m l c tr b in
  match r.1 with
  | Err e => r.2 = (m, b) /\
      (e = NoActiveEpoch l /\ active_epoch m l = None \/
       e = CarriedStateInvalid /\ is_Some (active_epoch m l) /\ carried_refused c)
  | Ok res => exists old, active_epoch m l = Some old /\ ~ carried_refused c /\
      rr_old_epoch res = old /\ rr_new_epoch res = epoch_next old /\
      rr_carried res = mkCarried (operational c) value_null /\
      (fun ev => (lineage_id ev, epoch_id ev, event_type ev)) <$> events_written res
        = [(l, old, "ContinuedAsNew"); (l, epoch_next old, "WorkflowStarted")] /\
      (forall l', l' <> l -> active_epoch r.2.1 l' = active_epoch m l' /\ pending r.2.2 !! l' = pending b !! l') /\
      has_pending r.2.2 l = false /\
      (forall ev, lineage_id ev = l -> route_event r.2.1 ev = NewLineage l (epoch_id ev)) /\
      (forall c' tr' b', (continue_as_new_7step r.2.1 l c' tr' b').1 = Err (NoActiveEpoch l))
  end.
Proof.
  cbn zeta. destruct (continue_as_new_7step m l c tr b) as [x [m' b']] eqn:E.
  unfold continue_as_new_7step in E. cbn [fst snd].
  destruct (active_epoch m l) as [old|] eqn:Ea; [|injection E as <- <- <-; split; [done|by left]].
  destruct (carried_is_valid c) eqn:Ec; cbn [negb] in E.
  2: { injection E as <- <- <-. split; [done|]. right. split; [done|]. split; [done|]. by left. }
  destruct (validate_carried_state (operational c)) as [u|e] eqn:Ev.
  2: { assert (e = CarriedStateInvalid) as ->.
       { unfold validate_carried_state in Ev. repeat case_match; congruence. }
       injection E as <- <- <-. split; [done|]. right. split; [done|]. split; [done|]. by right. }
  injection E as <- <- <-. exists old. split; [done|]. split; [intros [?|?]; congruence|].
  split; [done|]. split; [done|]. split; [done|]. split; [done|].
  assert (epochs (set_rollover_in_progress (unregister_epoch (register_epoch
    (set_rollover_in_progress m true) l (epoch_next old)) l) false) = delete l (epochs m)) as Hm
    by (cbn; apply delete_insert_eq).
  split; [|split; [|split]].
  - intros l' Hne. unfold active_epoch. rewrite Hm. cbn. by rewrite !lookup_delete_ne.
  - unfold has_pending. cbn. by rewrite lookup_delete_eq.
  - intros ev <-. unfold route_event, active_epoch. rewrite Hm, lookup_delete_eq. done.
  - intros c' tr' b''. unfold continue_as_new_7step, active_epoch. by rewrite Hm, lookup_delete_eq.
Qed.

(** ** Rebuilding a projection *)

(** Event [i] of a log that begins with [first] is in its place. *)
Definition in_place (first : CanonicalEvent) (i : nat) (ev : CanonicalEvent) : Prop :=
  sequence ev = Z.of_nat i + 1 /\ lineage_id ev = lineage_id first /\ epoch_id ev = epoch_id first.

Lemma check_events_spec first i evs :
  match check_events first i evs with
  | Ok _ => forall n ev, evs !! n = Some ev -> in_place first (i + n) ev
  | Err e => exists n ev, evs !! n = Some ev /\
      (forall k ev', (k < n)%nat -> evs !! k = Some ev' -> in_place first (i + k) ev') /\
      (e = RebuildSequenceGap (Z.of_nat (i + n) + 1) (sequence ev) /\ sequence ev <> Z.of_nat (i + n) + 1 \/
       e = MixedLineage /\ sequence ev = Z.of_nat (i + n) + 1 /\ ~ in_place first (i + n) ev)
  end.
Proof.
  revert i. induction evs as [|ev evs IH]; intros i; cbn [check_events]; [done|].
  destruct (Z.eqb_spec (sequence ev) (Z.of_nat i + 1)) as [Hs|Hs]; cbn [negb].
  2: { exists 0%nat, ev. rewrite Nat.add_0_r. split; [done|]. split; [lia|]. by left. }
  destruct (String.eqb_spec (lineage_id ev) (lineage_id first)) as [Hl|Hl]; cbn [negb orb].
  2: { exists 0%nat, ev. rewrite Nat.add_0_r. split; [done|]. split; [lia|]. right. unfold in_place. naive_solver. }
  destruct (Z.eqb_spec (epoch_id ev) (epoch_id first)) as [He|He]; cbn [negb].
  2: { exists 0%nat, ev. rewrite Nat.add_0_r. split; [done|]. split; [lia|]. right. unfold in_place. naive_solver. }
  specialize (IH (S i)). destruct (check_events first (S i) evs) as [u|e].
  - intros [|n] ev' Hn; cbn in Hn; [injection Hn as <-; by rewrite Nat.add_0_r|].
    rewrite <- plus_n_Sm. by apply IH.
  - destruct IH as (n & ev' & Hn & Hb & Hd). exists (S n), ev'. rewrite <- plus_n_Sm. split; [done|]. split; [|done].
    intros [|k] ev'' Hk Hev; cbn in Hev; [injection Hev as <-; by rewrite Nat.add_0_r|].
    rewrite <- plus_n_Sm. apply Hb; [lia|done].
Qed.

(** Building a projection from a log of events, on every branch. It is refused unless it
    starts in [Building]. It succeeds exactly on a log in which event [n] (from 0) has sequence
    number [n + 1] and all events are of the lineage and the epoch of the first one; the
    result is then ready at the last sequence number, covers that lineage's epoch, and counts
    all events as applied (an empty log is ready at 0). Otherwise the error names the first
    event that is out of place: the sequence number expected there and the one found, or an
    event of another lineage or epoch. *)
Theorem rebuild_correct evs initial :
  match build_projection evs initial, head evs with
  | Err e, _ =>
      (e = InvalidInitialState /\ initial <> Building) \/
      initial = Building /\ exists first n ev, head evs = Some first /\ evs !! n = Some ev /\
      (forall k ev', (k < n)%nat -> evs !! k = Some ev' -> in_place first k ev') /\
      (e = RebuildSequenceGap (Z.of_nat n + 1) (sequence ev) /\ sequence ev <> Z.of_nat n + 1 \/
       e = MixedLineage /\ sequence ev = Z.of_nat n + 1 /\ ~ in_place first n ev)
  | Ok r, None => initial = Building /\ r = mkRebuild (FullEpoch "" 0) 0 (ReadyAt 0 0) true
  | Ok r, Some first =>
      initial = Building /\
      (forall n ev, evs !! n = Some ev -> in_place first n ev) /\
      r = mkRebuild (FullEpoch (lineage_id first) (epoch_id first)) (Z.of_nat (length evs))
            (ReadyAt 0 (Z.of_nat (length evs))) true
  end.
Proof.
  unfold build_projection. destruct initial; try (by left).
  destruct evs as [|first evs]; cbn [head]; [done|].
  set (l := first :: evs). destruct (last l) as [latest|] eqn:El; [|by apply last_None in El].
  pose proof (check_events_spec first 0 l) as Hc. cbn [Nat.add] in Hc.
  destruct (check_events first 0 l) as [u|e]; cbn [rbind].
  - split; [done|]. split; [done|]. rewrite last_lookup in El. destruct (Hc _ _ El) as [-> _].
    do 2 f_equal. cbn [length pred l]. lia.
  - right. split; [done|]. destruct Hc as (n & ev & Hn & Hb & He). by exists first, n, ev.
Qed.

(** An incremental rebuild only ever accepts events numbered from 1: resuming after event
    [existing], with the events that follow it, fails unless there was none. *)
Theorem incremental_never_resumes first evs existing :
  0 < existing < u64_max -> sequence first = existing + 1 ->
  build_projection_incremental (first :: evs) (existing + 1) existing = Err (RebuildSequenceGap 1 (existing + 1)).
Proof.
  intros Hx Hs. unfold build_projection_incremental, wrapping_add_u64, as_u64.
  rewrite Z.mod_small by (unfold u64_max in *; lia). rewrite Z.eqb_refl. cbn [negb build_projection].
  destruct (last (first :: evs)) as [latest|] eqn:El; [|by apply last_None in El].
  cbn [check_events]. rewrite Hs. destruct (Z.eqb_spec (existing + 1) (Z.of_nat 0 + 1)) as [E|]; [|done].
  cbn in E. lia.
Qed.
End LineageTheory.

(** ** Compensation over epochs *)

Lemma epoch_groups_lookup effects k :
  epoch_groups effects !! k =
  match base.filter (fun x => effect_epoch x = k) effects with [] => None | l => Some l end.
Proof.
  unfold epoch_groups. induction effects as [|x l IH] using rev_ind; [done|].
  rewrite foldl_snoc, filter_app. cbn [base.filter list_filter].
  destruct (decide (effect_epoch x = k)) as [<-|Hne].
  - rewrite lookup_insert_eq, IH. by destruct (base.filter _ l).
  - by rewrite lookup_insert_ne, IH, app_nil_r.
Qed.

Lemma strictly_sorted (l : list Z) : StronglySorted Z.le l -> NoDup l -> StronglySorted Z.lt l.
Proof.
  induction 1 as [|x l Hs IH Hx]; [constructor|]. intros [Hnin Hnd]%NoDup_cons. constructor; [auto|].
  rewrite Forall_forall in Hx |- *. intros y Hy. specialize (Hx y Hy).
  assert (x <> y) by congruence. lia.
Qed.

Lemma reverse_concat {A B} (f : A -> list B) l :
  reverse (concat (f <$> l)) = concat ((fun k => reverse (f k)) <$> reverse l).
Proof.
  induction l as [|x l IH]; [done|]. rewrite reverse_cons, fmap_app, concat_app, fmap_cons. cbn [concat].
  rewrite reverse_app, IH. cbn. by rewrite app_nil_r.
Qed.

(** Grouping a list by a key, over keys that are different, keeps the elements whose key is
    among them. *)
Lemma concat_groups {A} (key : A -> Z) (ks : list Z) (l : list A) :
  NoDup ks -> (forall x, x ∈ l -> key x ∈ ks) ->
  concat ((fun k => base.filter (fun x => key x = k) l) <$> ks) ≡ₚ l.
Proof.
  intros Hnd. induction l as [|x l IH]; intros Hin.
  { clear. induction ks as [|k ks IH]; [done|]. exact IH. }
  assert (key x ∈ ks) as Hx by (apply Hin; by left).
  etrans; [|apply perm_skip, IH; intros y Hy; apply Hin; by right]. clear IH Hin.
  induction ks as [|k ks IHk]; [by apply elem_of_nil in Hx|]. apply NoDup_cons in Hnd as [Hk Hnd].
  rewrite !fmap_cons. cbn [concat]. rewrite filter_cons. destruct (decide (key x = k)) as [<-|Hne].
  - rewrite <- app_comm_cons. constructor. f_equiv. apply reflexive_eq. f_equal. apply list_fmap_ext.
    intros i k Hi%list_elem_of_lookup_2. cbv beta. rewrite filter_cons_False; [done|]. by intros <-.
  - apply elem_of_cons in Hx as [E|Hx]; [done|]. rewrite (IHk Hnd Hx). by rewrite Permutation_middle.
Qed.

(** Compensation runs backwards through the lineage: the epochs in descending order, each
    epoch once, and within an epoch its effects in the reverse of their execution, all of
    them once. *)
Theorem epoch_compensation_order effects :
  let out := compute_epoch_compensation_order effects in
  exists ascending,
    StronglySorted Z.lt ascending /\ (forall k, k ∈ ascending <-> k ∈ effect_epoch <$> effects) /\
    out = concat ((fun k => reverse (base.filter (fun x => effect_epoch x = k) effects)) <$> reverse ascending) /\
    out ≡ₚ effects.
Proof.
  cbn zeta. set (group k := base.filter (fun x => effect_epoch x = k) effects).
  set (ks := merge_sort Z.le (map_to_list (epoch_groups effects)).*1).
  assert (ks ≡ₚ (map_to_list (epoch_groups effects)).*1) as Hperm by apply merge_sort_Permutation.
  assert (forall k, k ∈ ks <-> k ∈ effect_epoch <$> effects) as Hks.
  { intros k. rewrite Hperm, list_elem_of_fmap. split.
    - intros ([k' l] & -> & Hl%elem_of_map_to_list). rewrite epoch_groups_lookup in Hl. cbn [fst].
      destruct (base.filter _ effects) as [|x l'] eqn:Ef; [done|].
      assert (x ∈ base.filter (fun x => effect_epoch x = k') effects) as [<- Hx]%list_elem_of_filter
        by (rewrite Ef; by left). apply list_elem_of_fmap. by exists x.
    - intros (x & -> & Hx)%list_elem_of_fmap. exists (effect_epoch x, group (effect_epoch x)). split; [done|].
      apply elem_of_map_to_list. rewrite epoch_groups_lookup. fold (group (effect_epoch x)).
      destruct (group (effect_epoch x)) as [|y l] eqn:Eg; [|done]. exfalso.
      assert (x ∈ group (effect_epoch x)) as Hin by (by apply list_elem_of_filter).
      rewrite Eg in Hin. by apply elem_of_nil in Hin. }
  assert (NoDup ks) as Hnd by (rewrite Hperm; apply NoDup_fst_map_to_list).
  assert (compute_epoch_compensation_order effects = reverse (concat (group <$> ks))) as Hout.
  { unfold compute_epoch_compensation_order. fold ks. do 2 f_equal. apply list_fmap_ext. intros i k _.
    rewrite epoch_groups_lookup. fold (group k). by destruct (group k). }
  rewrite Hout. exists ks. split_and!.
  - apply strictly_sorted; [|done]. apply Sorted_StronglySorted; [intros x y z; lia|].
    apply Sorted_merge_sort. intros x y. lia.
  - done.
  - apply reverse_concat.
  - rewrite reverse_Permutation. apply concat_groups; [done|]. intros x Hx. apply Hks.
    by apply list_elem_of_fmap_2.
Qed.

(** ** Witness *)

Module LineageWitness.
(** Two effects in epoch 1 and one in epoch 2. *)
Example order_example :
  let e id ep := mkExecutedEffect id "t" ep "l" Executed in
  effect_id <$> compute_epoch_compensation_order [e "a" 1; e "b" 2; e "c" 1] = ["b"; "c"; "a"].
Proof. by vm_compute. Qed.
End LineageWitness.
