(* ===== verification/CommandHistory.v ===== *)
(** * The command history

    [crates/vo-types/src/command_history/]: undo and redo of edits to a workflow graph. Every
    command leaves an entry with the graph before and after it; two stacks of command
    identifiers say what can be undone and redone. Identifiers are fresh ULIDs and times are
    readings of the clock, both inputs; [DefaultHasher] is the class [GraphHash]. A stack is
    the vector of the code, its top at the end. *)

From stdpp Require Import sorting.
From S2P Require Import Prelude Identifiers Workflow Dedupe.

(** [CommandId] and [SnapshotId]. *)
Abbreviation CommandId := string.
Abbreviation SnapshotId := string.

(** The constants of [types.rs]. *)
Definition MAX_HISTORY_DEPTH : Z := 100.
Definition MAX_UNDO_STACK_DEPTH : Z := 50.
Definition MAX_REDO_STACK_DEPTH : Z := 50.

(** [enum CommandKind], [ExtensionApplyMode] and [HistoryEntryStatus]. *)
Inductive CommandKind : Set :=
| ExtensionApply | ExtensionRevert | ExtensionRedo | NodeCreate | NodeDelete | EdgeCreate | EdgeDelete
| ConfigUpdate.
Inductive ExtensionApplyMode : Set := Single | Bulk.
Inductive HistoryEntryStatus : Set := Committed | Undone | Redone | FailedEntry.

#[global] Instance HistoryEntryStatus_eq_dec : EqDecision HistoryEntryStatus.
Proof. solve_decision. Defined.

(** [enum CommandHistoryError]. *)
Inductive CommandHistoryError : Set :=
| UndoStackEmpty
| RedoStackEmpty
| SnapshotNotFound (snapshot_id : string)
| EntryNotFound (command_id : string)
| HistoryChecksumMismatch (expected actual : Z)
| HistoryCapacityExceeded (capacity : Z)
| SnapshotSerializationError (reason : string)
| InvalidHistoryTransition (current : HistoryEntryStatus) (attempted : string).

(** [CommandId::parse] and [SnapshotId::parse]. *)
Definition CommandId_parse (input : string) : result CommandHistoryError CommandId :=
  if is_empty input then Err (EntryNotFound input) else Ok input.
Definition SnapshotId_parse (input : string) : result CommandHistoryError SnapshotId :=
  if is_empty input then Err (SnapshotNotFound input) else Ok input.

(** [struct WorkflowSnapshot] and [ExtensionBatchMetadata]. *)
Record WorkflowSnapshot : Set := mkGraphSnapshot {
  snapshot_id : SnapshotId;
  captured_at : Z;
  workflow_name : string;
  nodes : list DagNode;
  edges : list Edge;
  checksum : Z;
}.

Record ExtensionBatchMetadata : Set := mkBatchMeta {
  batch_id : string;
  batch_snapshot : SnapshotId;
  apply_mode : ExtensionApplyMode;
  applied_keys : list string;
  created_nodes : list string;
  parent_command_id : CommandId;
}.

(** [enum Issuer], [struct CommandMetadata] and [CommandEnvelope]. *)
Inductive Issuer : Set := System | ApiClient | Operator | AiAgent | TimerLoop | RecoveryLoop.
Record CommandMetadata : Set := mkMetadata {
  command_id : IdempotencyKey;
  correlation_id : IdempotencyKey;
  causation_id : IdempotencyKey;
  issuer : Issuer;
  issued_at : Z;
}.
Record CommandEnvelope : Set := mkCommandEnvelope { schema_version : Z; metadata : CommandMetadata }.

(** [struct HistoryEntry] and [CommandHistory]. *)
Record HistoryEntry : Set := mkHistoryEntry {
  envelope : CommandEnvelope;
  kind : CommandKind;
  snapshot_before : option WorkflowSnapshot;
  snapshot_after : option WorkflowSnapshot;
  batch_metadata : option ExtensionBatchMetadata;
  status : HistoryEntryStatus;
}.

Record CommandHistory : Set := mkHistory {
  entries : list HistoryEntry;
  undo_stack : list CommandId;
  redo_stack : list CommandId;
  capacity : Z;
}.

(** The [u64] that [DefaultHasher] gives for the sorted names and pairs. *)
Class GraphHash : Type := graph_hash : list string -> list (string * string) -> Z.

Definition string_le (a b : string) : Prop := String.leb a b = true.
#[local] Instance string_le_dec a b : Decision (string_le a b).
Proof. unfold string_le. apply _. Defined.
Definition pair_le (a b : string * string) : Prop :=
  a.1 <> b.1 /\ string_le a.1 b.1 \/ a.1 = b.1 /\ string_le a.2 b.2.
#[local] Instance pair_le_dec a b : Decision (pair_le a b).
Proof. unfold pair_le. apply _. Defined.

Section CommandHistory.
Context `{GH : GraphHash}.

(** [WorkflowSnapshot::compute_checksum] and [new]. *)
Definition compute_checksum (ns : list DagNode) (es : list Edge) : Z :=
  let names := merge_sort string_le ((fun n => node_name_str (node_name n)) <$> ns) in
  let pairs := merge_sort pair_le
    ((fun e => (node_name_str (source_node e), node_name_str (target_node e))) <$> es) in
  wrapping_add_u32 (as_u32 (graph_hash names pairs)) 2654435769.
Definition snapshot_new (id : SnapshotId) (now : Z) (name : string) (ns : list DagNode) (es : list Edge)
  : WorkflowSnapshot :=
  mkGraphSnapshot id now name ns es (compute_checksum ns es).

(** [HistoryEntry::new] for a command identifier; [None] when an identifier does not parse,
    where the code panics. *)
Definition entry_new (k : CommandKind) (before after : option WorkflowSnapshot)
  (batch : option ExtensionBatchMetadata) (cmd correlation causation : string) (now : Z) : option HistoryEntry :=
  match IdempotencyKey_parse cmd, IdempotencyKey_parse correlation, IdempotencyKey_parse causation with
  | Ok c, Ok r, Ok z =>
      Some (mkHistoryEntry (mkCommandEnvelope 1 (mkMetadata c r z Operator now)) k before after batch Committed)
  | _, _, _ => None
  end.

Definition entry_id (e : HistoryEntry) : string := idempotency_key_str (command_id (metadata (envelope e))).
Definition set_status (s : HistoryEntryStatus) (e : HistoryEntry) : HistoryEntry :=
  mkHistoryEntry (envelope e) (kind e) (snapshot_before e) (snapshot_after e) (batch_metadata e) s.

(** [CommandHistory::new], [can_undo] and [can_redo]. *)
Definition history_new : CommandHistory := mkHistory [] [] [] MAX_HISTORY_DEPTH.
Definition can_undo (h : CommandHistory) : bool := negb (bool_decide (undo_stack h = [])).
Definition can_redo (h : CommandHistory) : bool := negb (bool_decide (redo_stack h = [])).

(** The oldest committed entry makes room. *)
Definition evict (h : CommandHistory) : list HistoryEntry :=
  if capacity h <=? Z.of_nat (length (entries h)) then
    match list_find (fun e => status e = Committed) (entries h) with
    | Some (oldest_idx, _) => delete oldest_idx (entries h)
    | None => entries h
    end
  else entries h.

(** [CommandHistory::apply_command], and [save_undo_point], which records the graph before
    the command also as the one after it. *)
Definition apply_command (h : CommandHistory) (k : CommandKind) (before after : WorkflowSnapshot)
  (batch : option ExtensionBatchMetadata) (cmd correlation causation : string) (now : Z)
  : option (CommandId * CommandHistory) :=
  match entry_new k (Some before) (Some after) batch cmd correlation causation now with
  | None => None
  | Some entry => Some (cmd, mkHistory (evict h ++ [entry]) (undo_stack h ++ [cmd]) [] (capacity h))
  end.
Definition save_undo_point (h : CommandHistory) (k : CommandKind) (before : WorkflowSnapshot)
  (cmd correlation causation : string) (now : Z) : option (CommandId * CommandHistory) :=
  match entry_new k (Some before) (Some before) None cmd correlation causation now with
  | None => None
  | Some entry => Some (cmd, mkHistory (evict h ++ [entry]) (undo_stack h ++ [cmd]) [] (capacity h))
  end.

(** [Vec::pop]. *)
Definition pop {A} (l : list A) : option (list A * A) :=
  match last l with Some x => Some (take (length l - 1) l, x) | None => None end.

(** [CommandHistory::undo]. *)
Definition undo (h : CommandHistory) : result CommandHistoryError bool * CommandHistory :=
  match pop (undo_stack h) with
  | None => (Ok false, h)
  | Some (rest, id) =>
      let h1 := mkHistory (entries h) rest (redo_stack h) (capacity h) in
      match list_find (fun e => entry_id e = id) (entries h) with
      | None => (Err (EntryNotFound id), h1)
      | Some (n, e) =>
          match snapshot_before e with
          | None => (Err (SnapshotNotFound id), h1)
          | Some snap =>
              let current := compute_checksum (nodes snap) (edges snap) in
              if negb (current =? checksum snap) then (Err (HistoryChecksumMismatch (checksum snap) current), h1)
              else (Ok true, mkHistory (alter (set_status Undone) n (entries h)) rest (redo_stack h ++ [id]) (capacity h))
          end
      end
  end.

(** [CommandHistory::redo]. *)
Definition redo (h : CommandHistory) : result CommandHistoryError bool * CommandHistory :=
  match pop (redo_stack h) with
  | None => (Ok false, h)
  | Some (rest, id) =>
      let es := match list_find (fun e => entry_id e = id) (entries h) with
                | Some (n, _) => alter (set_status Redone) n (entries h)
                | None => entries h
                end in
      (Ok true, mkHistory es (undo_stack h ++ [id]) rest (capacity h))
  end.

(** [save_undo_point] is [apply_command] without a change. *)
Lemma save_is_apply h k before cmd correlation causation now :
  save_undo_point h k before cmd correlation causation now =
  apply_command h k before before None cmd correlation causation now.
Proof. done. Qed.

(** ** Marking entries *)

(** The entry of a command gets a new status. *)
Definition mark (id : CommandId) (s : HistoryEntryStatus) (l : list HistoryEntry) : list HistoryEntry :=
  (fun e => if decide (entry_id e = id) then set_status s e else e) <$> l.

Lemma mark_none id s l : id ∉ entry_id <$> l -> mark id s l = l.
Proof.
  induction l as [|e l IH]; [done|]. rewrite fmap_cons, not_elem_of_cons. intros [Hne Hl].
  unfold mark. rewrite fmap_cons. fold (mark id s l). rewrite (IH Hl). by rewrite decide_False by congruence.
Qed.

Lemma mark_find id s l :
  NoDup (entry_id <$> l) ->
  match list_find (fun e => entry_id e = id) l with
  | Some (n, e) => alter (set_status s) n l = mark id s l /\ e ∈ l /\ entry_id e = id
  | None => id ∉ entry_id <$> l
  end.
Proof.
  induction l as [|x l IH]; [by intros _ ?%elem_of_nil|]. rewrite fmap_cons. intros [Hx Hnd]%NoDup_cons.
  cbn [list_find]. specialize (IH Hnd). unfold mark. rewrite fmap_cons. fold (mark id s l).
  destruct (decide (entry_id x = id)) as [<-|Hne].
  - cbn. split; [by rewrite (mark_none _ _ _ Hx)|]. split; [by left|done].
  - destruct (list_find _ l) as [[n e]|]; cbn.
    + destruct IH as (-> & He & Hid). split; [done|]. split; [by right|done].
    + by rewrite not_elem_of_cons.
Qed.

Lemma mark_ids id s l : entry_id <$> mark id s l = entry_id <$> l.
Proof.
  unfold mark. rewrite <- list_fmap_compose. apply list_fmap_ext. intros i e _. cbn. by case_decide.
Qed.

Lemma mark_elem id s l e :
  e ∈ mark id s l <->
  (e ∈ l /\ entry_id e <> id) \/ exists e', e' ∈ l /\ entry_id e' = id /\ e = set_status s e'.
Proof.
  unfold mark. rewrite list_elem_of_fmap. split.
  - intros (x & -> & Hx). case_decide as E; [right; by exists x|by left].
  - intros [[He Hne]|(e' & He & Hid & ->)]; [exists e|exists e']; by case_decide.
Qed.

Definition committed (l : list HistoryEntry) : nat := length (base.filter (fun e => status e = Committed) l).

Lemma mark_committed id s l : s <> Committed -> (committed (mark id s l) <= committed l)%nat.
Proof.
  intros Hs. unfold committed. induction l as [|e l IH]; [done|]. unfold mark. rewrite fmap_cons.
  fold (mark id s l). rewrite !filter_cons. destruct (decide (entry_id e = id)); cbn [set_status status].
  - rewrite (decide_False (P := s = Committed)) by done. destruct (decide (status e = Committed)); cbn; lia.
  - destruct (decide (status e = Committed)); cbn; lia.
Qed.

Lemma evict_spec h :
  0 < capacity h -> Z.of_nat (committed (entries h)) <= capacity h ->
  evict h `sublist_of` entries h /\ Z.of_nat (committed (evict h)) + 1 <= capacity h.
Proof.
  intros Hcap Hc. unfold evict. destruct (Z.leb_spec (capacity h) (Z.of_nat (length (entries h)))) as [Hl|Hl].
  - destruct (list_find _ (entries h)) as [[n e]|] eqn:E.
    + apply list_find_Some in E as (Hn & He & _). split; [apply sublist_delete|].
      apply delete_Permutation in Hn as Hp. unfold committed in *. rewrite Hp in Hc.
      rewrite filter_cons_True in Hc by done. cbn [length] in Hc. lia.
    + split; [done|]. apply list_find_None in E. unfold committed.
      assert (base.filter (fun e => status e = Committed) (entries h) = []) as ->; [|cbn; lia].
      clear Hc Hl. induction E as [|e l He _ IH]; [done|]. rewrite filter_cons_False; done.
  - split; [done|]. pose proof (length_filter (fun e => status e = Committed) (entries h)) as H.
    unfold committed. lia.
Qed.

Lemma pop_None {A} (l : list A) : pop l = None <-> l = [].
Proof. unfold pop. destruct (last l) as [x|] eqn:E; [|by apply last_None in E]. split; [done|by intros ->]. Qed.

Lemma pop_snoc {A} (l : list A) x : pop (l ++ [x]) = Some (l, x).
Proof.
  unfold pop. rewrite last_snoc, length_app. cbn [length]. by rewrite Nat.add_sub, take_app_length.
Qed.

Lemma pop_Some {A} (l l' : list A) x : pop l = Some (l', x) -> l = l' ++ [x].
Proof.
  destruct l as [|y k _] using rev_ind; [done|]. rewrite pop_snoc. by intros [= -> ->].
Qed.

(** ** The invariant *)

(** What happens to a history; the identifiers of [Apply] are fresh. *)
Inductive HistoryOp : Set :=
| Apply (k : CommandKind) (before after : WorkflowSnapshot) (batch : option ExtensionBatchMetadata)
        (cmd correlation causation : string) (now : Z)
| Undo
| Redo.

Definition history_exec (h : CommandHistory) (op : HistoryOp) : option CommandHistory :=
  match op with
  | Apply k before after batch cmd correlation causation now =>
      snd <$> apply_command h k before after batch cmd correlation causation now
  | Undo => Some (undo h).2
  | Redo => Some (redo h).2
  end.

Fixpoint history_run (h : CommandHistory) (ops : list HistoryOp) : option CommandHistory :=
  match ops with
  | [] => Some h
  | op :: ops => match history_exec h op with Some h' => history_run h' ops | None => None end
  end.

(** The checksum of a snapshot is that of its graph, as [WorkflowSnapshot::new] makes it. *)
Definition snapshot_intact (snap : WorkflowSnapshot) : Prop :=
  compute_checksum (nodes snap) (edges snap) = checksum snap.
(** Identifiers that parse, as ULIDs do. *)
Definition op_ok (op : HistoryOp) : Prop :=
  match op with
  | Apply _ _ _ _ cmd correlation causation _ =>
      is_ok (IdempotencyKey_parse cmd) = true /\
      is_ok (IdempotencyKey_parse correlation) = true /\ is_ok (IdempotencyKey_parse causation) = true
  | _ => True
  end.
Definition op_ids (ops : list HistoryOp) : list CommandId :=
  omap (fun op => match op with Apply _ _ _ _ cmd _ _ _ => Some cmd | _ => None end) ops.

(** The entry is what one of the commands recorded. *)
Definition entry_of (ops : list HistoryOp) (e : HistoryEntry) : Prop :=
  exists k before after batch correlation causation now,
    Apply k before after batch (entry_id e) correlation causation now ∈ ops /\
    kind e = k /\ snapshot_before e = Some before /\ snapshot_after e = Some after /\ batch_metadata e = batch.

(** [ops] is what was called so far. *)
Record history_inv (ops : list HistoryOp) (h : CommandHistory) : Prop := {
  hi_capacity : capacity h = MAX_HISTORY_DEPTH;
  hi_entries : NoDup (entry_id <$> entries h) /\ entry_id <$> entries h ⊆ op_ids ops;
  hi_stacks : NoDup (undo_stack h ++ redo_stack h) /\ undo_stack h ++ redo_stack h ⊆ op_ids ops;
  hi_redo : forall id, id ∈ redo_stack h -> exists e, e ∈ entries h /\ entry_id e = id /\ status e = Undone;
  hi_status : forall e, e ∈ entries h -> entry_id e ∈ undo_stack h ->
    status e = Committed \/ status e = Redone;
  hi_origin : forall e, e ∈ entries h -> entry_of ops e;
  hi_committed : Z.of_nat (committed (entries h)) <= MAX_HISTORY_DEPTH;
}.

Lemma op_ids_app ops1 ops2 : op_ids (ops1 ++ ops2) = op_ids ops1 ++ op_ids ops2.
Proof. apply omap_app. Qed.

Lemma history_inv_more ops op h : history_inv ops h -> history_inv (ops ++ [op]) h.
Proof.
  intros [Hcap [Hen Hes] [Hsn Hss] Hr Hst Ho Hc].
  assert (op_ids ops ⊆ op_ids (ops ++ [op])) as Hsub by (rewrite op_ids_app; intros x Hx; apply elem_of_app; by left).
  split; [done|split; [done|by etrans]|split; [done|by etrans]|done|done| |done].
  intros e (k & before & after & batch & correlation & causation & now & Hin & H)%Ho.
  exists k, before, after, batch, correlation, causation, now. split; [apply elem_of_app; by left|done].
Qed.

(** What a command adds to the history. *)
Lemma apply_command_eq h k before after batch cmd correlation causation now h' id :
  apply_command h k before after batch cmd correlation causation now = Some (id, h') ->
  id = cmd /\ exists e, h' = mkHistory (evict h ++ [e]) (undo_stack h ++ [cmd]) [] (capacity h) /\
    entry_id e = cmd /\ kind e = k /\ snapshot_before e = Some before /\ snapshot_after e = Some after /\
    batch_metadata e = batch /\ status e = Committed.
Proof.
  unfold apply_command, entry_new. destruct (IdempotencyKey_parse cmd) as [c|] eqn:Ec; [|done].
  destruct (IdempotencyKey_parse correlation) as [r|]; [|done].
  destruct (IdempotencyKey_parse causation) as [z|]; [|done].
  intros [= <- <-]. split; [done|]. eexists. split; [done|]. by apply IdempotencyKey_parse_ok in Ec as [-> _].
Qed.

Lemma apply_inv ops h k before after batch cmd correlation causation now id h' :
  history_inv ops h -> cmd ∉ op_ids ops ->
  apply_command h k before after batch cmd correlation causation now = Some (id, h') ->
  history_inv (ops ++ [Apply k before after batch cmd correlation causation now]) h'.
Proof.
  intros Hh Hfresh (-> & e0 & -> & Hid & Hk & Hb & Ha & Hm & Hs)%apply_command_eq.
  pose proof Hh as [Hcap [Hen Hes] [Hsn Hss] Hr Hst _ Hc].
  pose proof (hi_origin _ _ (history_inv_more _ (Apply k before after batch cmd correlation causation now) _ Hh)) as Ho.
  destruct (evict_spec h) as [Hsub Hev]; [by rewrite Hcap|by rewrite Hcap|].
  assert (forall e, e ∈ evict h -> e ∈ entries h) as Hin by (intros e He; by eapply elem_of_sublist).
  assert (cmd ∉ entry_id <$> entries h) as Hnew by (intros Hx; by apply Hfresh, Hes).
  assert (cmd ∉ undo_stack h) as Hu by (intros Hx; apply Hfresh, Hss, elem_of_app; by left).
  split; rewrite ?op_ids_app; cbn [capacity entries undo_stack redo_stack].
  - done.
  - rewrite fmap_app. cbn [fmap list_fmap]. rewrite Hid. split.
    + apply NoDup_app. split; [by eapply sublist_NoDup; [|apply fmap_sublist]|]. split; [|apply NoDup_singleton].
      intros x Hx E%list_elem_of_singleton. subst x. apply Hnew. by eapply elem_of_sublist; [|apply fmap_sublist].
    + intros x [Hx|Hx]%elem_of_app; apply elem_of_app; [left|by right].
      apply Hes. by eapply elem_of_sublist; [|apply fmap_sublist].
  - rewrite app_nil_r. split.
    + apply NoDup_app. split; [by apply NoDup_app in Hsn as [? _]|]. split; [|apply NoDup_singleton].
      intros x Hx E%list_elem_of_singleton. by subst x.
    + intros x [Hx|Hx]%elem_of_app; apply elem_of_app; [left; apply Hss, elem_of_app; by left|by right].
  - by intros id ?%elem_of_nil.
  - intros e [He|He%list_elem_of_singleton]%elem_of_app; [|subst e; by left].
    intros [Hx|Hx%list_elem_of_singleton]%elem_of_app; [by apply Hst; [apply Hin|]|].
    destruct Hnew. rewrite <- Hx. apply list_elem_of_fmap. exists e. auto.
  - intros e [He|He%list_elem_of_singleton]%elem_of_app; [by apply Ho, Hin|]. subst e. rewrite <- Hid.
    exists k, before, after, batch, correlation, causation, now.
    split; [apply elem_of_app; right; by left|done].
  - rewrite Hcap in Hev. unfold committed in *. rewrite filter_app, length_app.
    rewrite filter_cons_True, filter_nil by done. cbn [length]. lia.
Qed.

(** The outcome of [undo] and [redo], branch by branch. *)
Lemma undo_spec ops h us id :
  history_inv ops h -> undo_stack h = us ++ [id] ->
  let popped := mkHistory (entries h) us (redo_stack h) (capacity h) in
  (exists e snap, e ∈ entries h /\ entry_id e = id /\ snapshot_before e = Some snap /\
     (snapshot_intact snap /\
      undo h = (Ok true, mkHistory (mark id Undone (entries h)) us (redo_stack h ++ [id]) (capacity h)) \/
      ~ snapshot_intact snap /\
      undo h = (Err (HistoryChecksumMismatch (checksum snap) (compute_checksum (nodes snap) (edges snap))),
                popped))) \/
  (id ∉ entry_id <$> entries h) /\ undo h = (Err (EntryNotFound id), popped).
Proof.
  intros [_ [Hen _] _ _ _ Ho _] Hus. cbn zeta. unfold undo. rewrite Hus, pop_snoc.
  pose proof (mark_find id Undone (entries h) Hen) as Hm.
  destruct (list_find _ _) as [[n e]|]; [left|by right].
  destruct Hm as (-> & He & Hid). destruct (Ho e He) as (k & snap & ? & ? & ? & ? & ? & _ & _ & Hsnap & _).
  exists e, snap. split; [done|]. split; [done|]. split; [done|]. rewrite Hsnap. unfold snapshot_intact.
  destruct (Z.eqb_spec (compute_checksum (nodes snap) (edges snap)) (checksum snap)); [by left|by right].
Qed.

Lemma redo_spec ops h rs id :
  history_inv ops h -> redo_stack h = rs ++ [id] ->
  redo h = (Ok true, mkHistory (mark id Redone (entries h)) (undo_stack h ++ [id]) rs (capacity h)).
Proof.
  intros [_ [Hen _] _ Hr _ _ _] Hrs. unfold redo. rewrite Hrs, pop_snoc.
  pose proof (mark_find id Redone (entries h) Hen) as Hm.
  destruct (list_find _ _) as [[n e]|]; [by destruct Hm as (-> & _)|].
  by rewrite (mark_none _ _ _ Hm).
Qed.

(** Moving the top of one stack to the other. *)
Lemma move_top {A} (us rs : list A) x used :
  NoDup ((us ++ [x]) ++ rs) -> (us ++ [x]) ++ rs ⊆ used ->
  NoDup (us ++ rs ++ [x]) /\ us ++ rs ++ [x] ⊆ used /\ (x ∉ us) /\ (x ∉ rs).
Proof.
  intros Hnd Hsub. assert ((us ++ [x]) ++ rs ≡ₚ us ++ rs ++ [x]) as Hp by solve_Permutation.
  rewrite <- Hp. split; [done|]. split; [done|].
  apply NoDup_app in Hnd as (Hnd & Hd & _). apply NoDup_app in Hnd as (_ & Hd' & _).
  split; [intros Hx; by apply (Hd' x Hx), list_elem_of_singleton|].
  apply Hd, elem_of_app. right. by apply list_elem_of_singleton.
Qed.

Lemma mark_origin ops id s l e :
  (forall e, e ∈ l -> entry_of ops e) -> e ∈ mark id s l -> entry_of ops e.
Proof. intros Ho [[He _]|(e' & He & _ & ->)]%mark_elem; [by apply Ho|]. exact (Ho e' He). Qed.

Lemma undo_inv ops h : history_inv ops h -> history_inv ops (undo h).2.
Proof.
  intros Hh. destruct (undo_stack h) as [|id us _] eqn:Hus using rev_ind.
  { unfold undo. by rewrite Hus. }
  pose proof Hh as [Hcap [Hen Hes] [Hsn Hss] Hr Hst Ho Hc]. rewrite Hus in *.
  destruct (move_top _ _ _ _ Hsn Hss) as (Hsn' & Hss' & Hidu & Hidr).
  assert (history_inv ops (mkHistory (entries h) us (redo_stack h) (capacity h))) as Hpop.
  { rewrite app_assoc in Hsn', Hss'. split; cbn [capacity entries undo_stack redo_stack]; try done.
    - split; [by apply NoDup_app in Hsn' as [? _]|]. intros x Hx. apply Hss', elem_of_app. by left.
    - intros e He Hx. apply Hst; [done|]. apply elem_of_app. by left. }
  destruct (undo_spec ops h us id Hh Hus) as [(e0 & snap & He0 & Hid0 & _ & [[_ ->]|[_ ->]])|[_ ->]];
    cbn [snd]; [|done|done].
  split; cbn [capacity entries undo_stack redo_stack]; [done|by rewrite mark_ids|done| | | |].
  - intros id' [Hid'|Hid'%list_elem_of_singleton]%elem_of_app.
    + destruct (Hr id' Hid') as (e & He & <- & Hs). exists e. split; [|done]. apply mark_elem. left.
      split; [done|]. by intros E; rewrite E in Hid'.
    + subst id'. exists (set_status Undone e0). split; [|done]. apply mark_elem. right. by exists e0.
  - intros e [[He Hne]|(e' & He & Hid & ->)]%mark_elem Hx.
    + apply Hst; [done|]. apply elem_of_app. by left.
    + change (entry_id (set_status Undone e')) with (entry_id e') in Hx. by rewrite Hid in Hx.
  - intros e. by apply mark_origin.
  - pose proof (mark_committed id Undone (entries h) ltac:(done)). lia.
Qed.

Lemma redo_inv ops h : history_inv ops h -> history_inv ops (redo h).2.
Proof.
  intros Hh. destruct (redo_stack h) as [|id rs _] eqn:Hrs using rev_ind.
  { unfold redo. by rewrite Hrs. }
  rewrite (redo_spec ops h rs id Hh Hrs). cbn [snd].
  pose proof Hh as [Hcap [Hen Hes] [Hsn Hss] Hr Hst Ho Hc]. rewrite Hrs in *.
  assert (undo_stack h ++ rs ++ [id] ≡ₚ (undo_stack h ++ [id]) ++ rs) as Hp by solve_Permutation.
  rewrite Hp in Hsn, Hss. destruct (move_top _ _ _ _ Hsn Hss) as (_ & _ & Hidu & Hidr).
  split; cbn [capacity entries undo_stack redo_stack]; [done|by rewrite mark_ids|done| | | |].
  - intros id' Hid'. destruct (Hr id') as (e & He & <- & Hs); [apply elem_of_app; by left|].
    exists e. split; [|done]. apply mark_elem. left. split; [done|]. by intros E; rewrite E in Hid'.
  - intros e [[He Hne]|(e' & He & Hid & ->)]%mark_elem Hx; [|by right].
    apply Hst; [done|]. apply elem_of_app in Hx as [?|?%list_elem_of_singleton]; done.
  - intros e. by apply mark_origin.
  - pose proof (mark_committed id Redone (entries h) ltac:(done)). lia.
Qed.

Lemma history_new_inv : history_inv [] history_new.
Proof.
  split; cbn; [done| | |by intros ? ?%elem_of_nil|by intros ? ?%elem_of_nil|by intros ? ?%elem_of_nil|done];
    (split; [apply NoDup_nil_2|done]).
Qed.

Lemma run_history_inv before h ops :
  history_inv before h -> Forall op_ok ops -> NoDup (op_ids (before ++ ops)) ->
  exists h', history_run h ops = Some h' /\ history_inv (before ++ ops) h'.
Proof.
  revert before h. induction ops as [|op ops IH]; intros before h Hh Hok Hnd.
  { exists h. cbn. by rewrite app_nil_r. }
  apply Forall_cons in Hok as [Hop Hok]. cbn [history_run]. rewrite (cons_middle op), app_assoc in Hnd |- *.
  destruct op as [k b a batch cmd correlation causation now| |]; cbn [history_exec].
  - destruct (apply_command h k b a batch cmd correlation causation now) as [[id h1]|] eqn:E; cbn.
    + apply IH; [|done|done]. eapply apply_inv; [done| |exact E].
      rewrite !op_ids_app in Hnd. apply NoDup_app in Hnd as (Hnd & _). apply NoDup_app in Hnd as (_ & Hd & _).
      intros Hx. apply (Hd cmd Hx). by left.
    + destruct Hop as (H1 & H2 & H3). unfold apply_command, entry_new in E.
      destruct (IdempotencyKey_parse cmd), (IdempotencyKey_parse correlation), (IdempotencyKey_parse causation); done.
  - apply IH; [by apply history_inv_more, undo_inv|done|done].
  - apply IH; [by apply history_inv_more, redo_inv|done|done].
Qed.

Lemma entry_unique l e1 e2 :
  NoDup (entry_id <$> l) -> e1 ∈ l -> e2 ∈ l -> entry_id e1 = entry_id e2 -> e1 = e2.
Proof.
  intros Hnd [i Hi]%list_elem_of_lookup [j Hj]%list_elem_of_lookup E.
  assert (i = j) as ->; [|congruence].
  apply (NoDup_lookup _ i j (entry_id e1) Hnd); rewrite list_lookup_fmap; [by rewrite Hi|by rewrite Hj, E].
Qed.

Lemma evict_room h : Z.of_nat (length (entries h)) < capacity h -> evict h = entries h.
Proof. intros H. unfold evict. by rewrite (proj2 (Z.leb_gt _ _)). Qed.

Lemma mark_mark id s t l : mark id t (mark id s l) = mark id t l.
Proof.
  unfold mark. rewrite <- list_fmap_compose. apply list_fmap_ext. intros i e _. cbn.
  destruct (decide (entry_id e = id)) as [E|E].
  - change (entry_id (set_status s e)) with (entry_id e). by rewrite decide_True.
  - by rewrite decide_False.
Qed.

End CommandHistory.

(** ** Witnesses *)

Module CommandHistoryWitness.
#[local] Instance sum_hash : GraphHash := fun names pairs => Z.of_nat (length names) + 7 * Z.of_nat (length pairs).

Definition empty_graph : WorkflowSnapshot := snapshot_new "s" 0 "wf" [] [].

(** Distinct identifiers of letters. *)
Definition name (n : nat) : string := String.concat "" (replicate n "a" ++ ["b"]).
Definition edit (n : nat) : HistoryOp := Apply NodeCreate empty_graph empty_graph None (name n) "c" "c" 0.

(** An edit whose snapshot does not have the checksum of its graph. *)
Definition damaged (n : nat) : HistoryOp :=
  Apply NodeCreate (mkGraphSnapshot "s" 0 "wf" [] [] 5) empty_graph None (name n) "c" "c" 0.


(** Undoing it reports the mismatch. *)
Example damaged_snapshot :
  exists h, history_run history_new [edit 0; edit 1; Undo; damaged 2] = Some h /\
    (undo h).1 = Err (HistoryChecksumMismatch 5 (checksum empty_graph)).
Proof. eexists. split; [vm_compute; reflexivity|]. by vm_compute. Qed.

(** Neither the undo stack nor the entries are bounded as documented: the stack is never
    trimmed, and entries that were undone are never evicted. *)
Example stacks_unbounded :
  (exists h, history_run history_new (edit <$> seq 0 51) = Some h /\ length (undo_stack h) = 51%nat) /\
  exists h, history_run history_new (concat ((fun n => [edit n; Undo]) <$> seq 0 101)) = Some h /\
    length (entries h) = 101%nat.
Proof. split; eexists; (split; [vm_compute; reflexivity|]); by vm_compute. Qed.

(** The command whose entry was evicted is still on the undo stack. *)
Example evicted_command_not_undone :
  exists h, history_run history_new ((edit <$> seq 0 101) ++ replicate 100 Undo) = Some h /\
    (undo h).1 = Err (EntryNotFound (name 0)).
Proof. eexists. split; [vm_compute; reflexivity|]. by vm_compute. Qed.

(** The checksum sees only names: a graph whose edge conditions changed passes for intact. *)
Example checksum_ignores_conditions :
  let a := mkNodeName "a" in let b := mkNodeName "b" in
  compute_checksum [] [mkEdge a b OnSuccess] = compute_checksum [] [mkEdge a b OnFailure].
Proof. by vm_compute. Qed.
End CommandHistoryWitness.
