(* ===== verification/Floats.v ===== *)
(** * Binary64 arithmetic

    The casts between integers and [f64] that the components use, over the standard library's
    specification of IEEE 754 arithmetic ([SpecFloat], precision 53, maximal exponent 1024). *)

From Stdlib Require Export SpecFloat.
From S2P Require Import Prelude.

(** [n as f64], for an integer [n]. *)
Definition f64_of (n : Z) : spec_float := binary_normalize 53 1024 n 0 false.

(** [x as usize] and [x as u32]: truncation, saturating; NaN gives 0. *)
Definition usize_of_f64 (x : spec_float) : Z :=
  match x with
  | S754_finite false m e => Z.min (Z.shiftl (Zpos m) e) u64_max
  | S754_infinity false => u64_max
  | _ => 0
  end.
Definition u32_of_f64 (x : spec_float) : Z := Z.min (usize_of_f64 x) u32_max.

Definition f64_div : spec_float -> spec_float -> spec_float := SFdiv 53 1024.
Definition f64_mul : spec_float -> spec_float -> spec_float := SFmul 53 1024.
Definition f64_ltb : spec_float -> spec_float -> bool := SFltb.

(** ** Quotients of counts

    The comparison of a quotient of two integers with one half, in binary64, is exact for
    integers below [2^53]. *)

Lemma digits2_pos_bounds p :
  2 ^ (Z.pos (digits2_pos p) - 1) <= Z.pos p < 2 ^ Z.pos (digits2_pos p).
Proof.
  induction p as [p IH|p IH|]; cbn [digits2_pos]; [| |cbn; lia]; rewrite !Pos2Z.inj_succ;
    (replace (Z.succ (Z.pos (digits2_pos p)) - 1) with (Z.succ (Z.pos (digits2_pos p) - 1)) by lia);
    rewrite !Z.pow_succ_r by lia; lia.
Qed.

Lemma Zdigits2_unique m d : 0 < d -> 2 ^ (d - 1) <= m < 2 ^ d -> Zdigits2 m = d.
Proof.
  intros Hd Hm. assert (0 < 2 ^ (d - 1)) by (apply Z.pow_pos_nonneg; lia).
  destruct m as [|p|p]; [lia| |lia]. cbn. pose proof (digits2_pos_bounds p) as Hp.
  assert (Z.pos (digits2_pos p) - 1 < d) by (apply (Z.pow_lt_mono_r_iff 2); lia).
  assert (d - 1 < Z.pos (digits2_pos p)) by (apply (Z.pow_lt_mono_r_iff 2); lia). lia.
Qed.

Lemma shr_fexp_53 m e l :
  2 ^ 52 <= m < 2 ^ 53 -> -1074 <= e -> shr_fexp 53 1024 m e l = (shr_record_of_loc m l, e).
Proof.
  intros Hm He. unfold shr_fexp. rewrite (Zdigits2_unique m 53) by lia.
  replace (fexp 53 1024 (53 + e) - e) with 0 by (unfold fexp, emin; lia). done.
Qed.

Lemma shr_fexp_54 m e l :
  2 ^ 53 <= m < 2 ^ 54 -> -1074 <= e ->
  shr_fexp 53 1024 m e l = (shr_1 (shr_record_of_loc m l), e + 1).
Proof.
  intros Hm He. unfold shr_fexp. rewrite (Zdigits2_unique m 54) by lia.
  replace (fexp 53 1024 (54 + e) - e) with 1 by (unfold fexp, emin; lia). done.
Qed.

(** A float with a full mantissa, normalised when rounding has filled it up. *)
Definition renormal (s : bool) (m e : Z) : spec_float :=
  if m =? 2 ^ 53 then S754_finite s 4503599627370496 (e + 1) else S754_finite s (Z.to_pos m) e.

Lemma round_last (s : bool) m e :
  2 ^ 52 <= m <= 2 ^ 53 -> -1074 <= e <= 970 ->
  (let '(mrs, e') := shr_fexp 53 1024 m e loc_Exact in
   match shr_m mrs with
   | Z0 => S754_zero s
   | Zpos m => if e' <=? 1024 - 53 then S754_finite s m e' else S754_infinity s
   | _ => S754_nan
   end) = renormal s m e.
Proof.
  intros Hm He. unfold renormal. destruct (Z.eqb_spec m (2 ^ 53)) as [->|Hne].
  - rewrite shr_fexp_54 by lia. change (shr_m _) with 4503599627370496.
    by rewrite (proj2 (Z.leb_le (e + 1) (1024 - 53))) by lia.
  - rewrite shr_fexp_53 by lia. change (shr_m _) with m. destruct m; [lia| |lia].
    by rewrite (proj2 (Z.leb_le e (1024 - 53))) by lia.
Qed.

Lemma round_aux_53 s m e l :
  2 ^ 52 <= m < 2 ^ 53 -> -1074 <= e <= 970 ->
  binary_round_aux 53 1024 s m e l = renormal s (round_nearest_even m l) e.
Proof.
  intros Hm He. unfold binary_round_aux. rewrite shr_fexp_53 by lia.
  replace (shr_m (shr_record_of_loc m l)) with m by (by destruct l as [|[]]).
  replace (loc_of_shr_record (shr_record_of_loc m l)) with l by (by destruct l as [|[]]).
  apply round_last; [|lia]. unfold round_nearest_even. repeat case_match; lia.
Qed.

(** The mantissa and the place of the rest after one shift. *)
Definition shifted_loc (m : Z) (l : location) : location :=
  match Z.odd m, l with
  | false, loc_Exact => loc_Exact
  | false, _ => loc_Inexact Lt
  | true, loc_Exact => loc_Inexact Eq
  | true, _ => loc_Inexact Gt
  end.

Lemma round_aux_54 s m e l :
  2 ^ 53 <= m < 2 ^ 54 -> -1074 <= e <= 969 ->
  binary_round_aux 53 1024 s m e l = renormal s (round_nearest_even (m / 2) (shifted_loc m l)) (e + 1).
Proof.
  intros Hm He. unfold binary_round_aux. rewrite shr_fexp_54 by lia.
  assert (shr_m (shr_1 (shr_record_of_loc m l)) = m / 2 /\
    loc_of_shr_record (shr_1 (shr_record_of_loc m l)) = shifted_loc m l) as [-> ->].
  { destruct m as [|p|p]; [lia| |lia]. rewrite <- Z.div2_div.
    destruct p as [p|p|]; [| |lia]; by destruct l as [|[]]. }
  apply round_last; [|lia].
  pose proof (Z.div_mod m 2 ltac:(lia)). pose proof (Z.mod_pos_bound m 2 ltac:(lia)).
  unfold round_nearest_even. repeat case_match; lia.
Qed.

Lemma f64_of_pos n :
  0 < n < 2 ^ 53 ->
  let d := Zdigits2 n in
  1 <= d <= 53 /\ 2 ^ (d - 1) <= n < 2 ^ d /\
  2 ^ 52 <= n * 2 ^ (53 - d) < 2 ^ 53 /\
  f64_of n = S754_finite false (Z.to_pos (n * 2 ^ (53 - d))) (d - 53).
Proof.
  intros Hn d. destruct n as [|p|p]; [lia| |lia]. cbn in d.
  pose proof (digits2_pos_bounds p) as Hp. fold d in Hp.
  assert (d - 1 < 53) by (apply (Z.pow_lt_mono_r_iff 2); lia).
  assert (1 <= d) by (unfold d; lia).
  assert (2 ^ (d - 1) * 2 ^ (53 - d) = 2 ^ 52) as H1 by (rewrite <- Z.pow_add_r by lia; f_equal; lia).
  assert (2 ^ d * 2 ^ (53 - d) = 2 ^ 53) as H2 by (rewrite <- Z.pow_add_r by lia; f_equal; lia).
  assert (0 < 2 ^ (53 - d)) by (apply Z.pow_pos_nonneg; lia).
  assert (2 ^ 52 <= Z.pos p * 2 ^ (53 - d) < 2 ^ 53) as Hm by nia.
  split_and!; try done || lia.
  unfold f64_of, binary_normalize, binary_round. fold d. rewrite Z.add_0_r.
  assert (shl_align p 0 (fexp 53 1024 d) = (Z.to_pos (Z.pos p * 2 ^ (53 - d)), d - 53)) as ->.
  { unfold shl_align, fexp, emin. rewrite Z.sub_0_r, Z.max_l by lia.
    destruct (d - 53) as [|k|k] eqn:E; [|lia|].
    - replace (53 - d) with 0 by lia. by rewrite Z.mul_1_r.
    - f_equal. replace (53 - d) with (Z.pos k) by lia. apply Pos2Z.inj. rewrite Z2Pos.id by lia.
      clear. induction k as [|k IH] using Pos.peano_ind; [cbn; lia|].
      rewrite Pos.iter_succ, Pos2Z.inj_succ, Z.pow_succ_r by lia. lia. }
  rewrite round_aux_53; cbn [round_nearest_even]; rewrite ?Z2Pos.id by lia; [|lia..].
  unfold renormal. by rewrite (proj2 (Z.eqb_neq _ _)) by lia.
Qed.

Lemma new_location_exact n : new_location n 0 = loc_Exact.
Proof. unfold new_location. by case_match. Qed.

Lemma new_location_inexact n k : k <> 0 -> new_location n k <> loc_Exact.
Proof.
  intros Hk. unfold new_location, new_location_even, new_location_odd.
  case_match; by rewrite (proj2 (Z.eqb_neq k 0)) by done.
Qed.

Lemma new_location_gt n k : 0 <= n < 2 * k -> new_location n k = loc_Inexact Gt.
Proof.
  intros Hk. unfold new_location, new_location_even, new_location_odd.
  case_match; rewrite (proj2 (Z.eqb_neq k 0)) by lia.
  - by rewrite (proj2 (Z.compare_gt_iff (2 * k) n)) by lia.
  - by rewrite (proj2 (Z.compare_gt_iff (2 * k + 1) n)) by lia.
Qed.

(** The quotient of two full mantissas. *)
Lemma f64_div_full m1 e1 m2 e2 :
  2 ^ 52 <= m1 < 2 ^ 53 -> 2 ^ 52 <= m2 < 2 ^ 53 -> -900 <= e1 - e2 <= 900 ->
  let q := m1 * 2 ^ 53 / m2 in
  let r := m1 * 2 ^ 53 mod m2 in
  m1 * 2 ^ 53 = m2 * q + r /\ 0 <= r < m2 /\
  f64_div (S754_finite false (Z.to_pos m1) e1) (S754_finite false (Z.to_pos m2) e2) =
    if m2 <=? m1 then renormal false (round_nearest_even (q / 2) (shifted_loc q (new_location m2 r))) (e1 - e2 - 52)
    else renormal false (round_nearest_even q (new_location m2 r)) (e1 - e2 - 53).
Proof.
  intros H1 H2 He q r.
  pose proof (Z.div_mod (m1 * 2 ^ 53) m2 ltac:(lia)) as Hq.
  pose proof (Z.mod_pos_bound (m1 * 2 ^ 53) m2 ltac:(lia)) as Hr.
  fold q r in Hq, Hr. split_and!; [done|lia|lia|].
  unfold f64_div, SFdiv, SFdiv_core_binary. rewrite !Z2Pos.id by lia.
  rewrite (Zdigits2_unique m1 53), (Zdigits2_unique m2 53) by lia.
  replace (Z.min (fexp 53 1024 (53 + e1 - (53 + e2))) (e1 - e2)) with (e1 - e2 - 53)
    by (unfold fexp, emin; lia).
  replace (e1 - e2 - (e1 - e2 - 53)) with 53 by lia. rewrite Z.shiftl_mul_pow2 by lia.
  assert (Z.div_eucl (m1 * 2 ^ 53) m2 = (q, r)) as -> by (unfold q, r, Z.div, Z.modulo; by destruct Z.div_eucl).
  destruct (Z.leb_spec m2 m1).
  - rewrite round_aux_54; [f_equal; lia|nia|lia].
  - by rewrite round_aux_53; [|nia|lia].
Qed.

(** One half, and the comparison with it. *)
Definition f64_half : spec_float := S754_finite false 4503599627370496 (-53).

Lemma half_ltb m e :
  2 ^ 52 <= m <= 2 ^ 53 ->
  f64_ltb f64_half (renormal false m e) =
    (if m =? 2 ^ 53 then -54 <? e else (-53 <? e) || ((e =? -53) && (2 ^ 52 <? m))).
Proof.
  intros Hm. unfold renormal, f64_ltb, SFltb, f64_half, SFcompare.
  destruct (Z.eqb_spec m (2 ^ 53)) as [->|Hne].
  - destruct (Z.compare_spec (-53) (e + 1)), (Z.ltb_spec (-54) e); done || lia.
  - assert (Pos.compare_cont Eq 4503599627370496 (Z.to_pos m) = Z.compare (2 ^ 52) m) as ->.
    { destruct m as [|p|p]; [lia|done|lia]. }
    destruct (Z.compare_spec (-53) e), (Z.ltb_spec (-53) e), (Z.eqb_spec e (-53)); try done || lia.
Qed.

Lemma round_bounds m l : m <= round_nearest_even m l <= m + 1.
Proof. unfold round_nearest_even. repeat case_match; lia. Qed.

(** [f / t > 0.5] in binary64, for counts. *)
Lemma quotient_above_half f t :
  0 <= f <= t -> 0 < t < 2 ^ 53 ->
  f64_ltb f64_half (f64_div (f64_of f) (f64_of t)) = (t <? 2 * f).
Proof.
  intros Hf Ht. destruct (f64_of_pos t Ht) as (Hd2 & Hb2 & Hm2 & ->).
  set (d2 := Zdigits2 t) in *.
  destruct (Z.eq_dec f 0) as [->|Hf0]; [cbn; symmetry; apply Z.ltb_ge; lia|].
  destruct (f64_of_pos f ltac:(lia)) as (Hd1 & Hb1 & Hm1 & ->). set (d1 := Zdigits2 f) in *.
  assert (d1 - 1 < d2) by (apply (Z.pow_lt_mono_r_iff 2); lia).
  set (m1 := f * 2 ^ (53 - d1)) in *. set (m2 := t * 2 ^ (53 - d2)) in *.
  destruct (f64_div_full m1 (d1 - 53) m2 (d2 - 53) Hm1 Hm2 ltac:(lia)) as (Hq & Hr & ->).
  set (q := m1 * 2 ^ 53 / m2) in *. set (r := m1 * 2 ^ 53 mod m2) in *.
  replace (d1 - 53 - (d2 - 53)) with (d1 - d2) by lia.
  pose proof (Z.div_mod q 2 ltac:(lia)) as Hq2. pose proof (Z.mod_pos_bound q 2 ltac:(lia)) as Hr2.
  assert (d1 = d2 \/ d2 = d1 + 1 \/ d1 + 2 <= d2) as [E|[E|E]] by lia.
  - (* the same number of digits: the quotient is above one half *)
    assert (m1 <= m2) by (unfold m1, m2; rewrite E; nia).
    rewrite (proj2 (Z.ltb_lt t (2 * f))).
    2:{ rewrite E in Hb1. replace d2 with (Z.succ (d2 - 1)) in Hb2 by lia.
        rewrite Z.pow_succ_r in Hb2 by lia. lia. }
    replace (d1 - d2) with 0 by lia. destruct (Z.leb_spec m2 m1).
    + pose proof (round_bounds (q / 2) (shifted_loc q (new_location m2 r))).
      rewrite half_ltb by nia. by case_match.
    + pose proof (round_bounds q (new_location m2 r)). rewrite half_ltb by nia.
      case_match; [done|]. cbn. apply Z.ltb_lt. destruct (Z.eq_dec q (2 ^ 52)) as [Eq|]; [|nia].
      rewrite new_location_gt by nia. cbn. lia.
  - (* one digit less *)
    assert (2 ^ (53 - d1) = 2 * 2 ^ (53 - d2)) as Hp.
    { rewrite <- Z.pow_succ_r by lia. f_equal. lia. }
    assert ((t <? 2 * f) = (m2 <? m1)) as ->.
    { assert (0 < 2 ^ (53 - d2)) by (apply Z.pow_pos_nonneg; lia).
      unfold m1, m2. rewrite Hp. destruct (Z.ltb_spec t (2 * f)); symmetry; [apply Z.ltb_lt|apply Z.ltb_ge]; nia. }
    replace (d1 - d2) with (-1) by lia. destruct (Z.leb_spec m2 m1).
    + pose proof (round_bounds (q / 2) (shifted_loc q (new_location m2 r))).
      assert (2 ^ 53 <= q < 2 ^ 54) by nia.
      rewrite half_ltb by lia. destruct (Z.ltb_spec m2 m1).
      * case_match; [done|]. cbn. apply Z.ltb_lt.
        assert (q <> 2 ^ 53) by nia. destruct (Z.eq_dec q (2 ^ 53 + 1)) as [Eq|]; [|lia].
        assert (r <> 0) as Hr0 by nia. pose proof (new_location_inexact m2 r Hr0).
        unfold shifted_loc. rewrite Eq. change (Z.odd (2 ^ 53 + 1)) with true.
        destruct (new_location m2 r); [done|]. unfold round_nearest_even. done.
      * assert (q = 2 ^ 53) as -> by nia. assert (r = 0) as -> by nia.
        rewrite new_location_exact. done.
    + pose proof (round_bounds q (new_location m2 r)). rewrite half_ltb by nia.
      rewrite (proj2 (Z.ltb_ge m2 m1)) by lia. by case_match.
  - (* two digits less: below one half *)
    assert (2 ^ (d1 + 1) <= 2 ^ (d2 - 1)) by (apply Z.pow_le_mono_r; lia).
    rewrite Z.pow_add_r in * by lia. rewrite (proj2 (Z.ltb_ge t (2 * f))) by lia.
    destruct (Z.leb_spec m2 m1).
    + pose proof (round_bounds (q / 2) (shifted_loc q (new_location m2 r))).
      rewrite half_ltb by nia. case_match; [apply Z.ltb_ge; lia|].
      rewrite (proj2 (Z.ltb_ge _ _)), (proj2 (Z.eqb_neq _ _)) by lia. done.
    + pose proof (round_bounds q (new_location m2 r)). rewrite half_ltb by nia.
      case_match; [apply Z.ltb_ge; lia|].
      rewrite (proj2 (Z.ltb_ge _ _)), (proj2 (Z.eqb_neq _ _)) by lia. done.
Qed.
