(* ===== verification/Projection.v ===== *)
(** * The projection engine

    [crates/vo-core/src/replay/projection/]: read models rebuilt from the event log. The
    token bucket that throttles rebuilds is in [throttle.rs], the engine that hands its slots
    out and detects stale records in [engine.rs], the rebuild of a projection in
    [rebuilder.rs] with its progress in [context.rs], the states of projections in
    [state_manager.rs], their types in [types.rs] and [error.rs].

    An [Instant] and a [Duration] are nanoseconds, a [usize] has 64 bits, and the readings of
    the clock are arguments, as is what another thread makes of the cancellation flag. No
    code panics while it holds the state manager's mutex, so the mutex is never poisoned. *)

From S2P Require Import Prelude Floats.

(** [enum ProjectionError] of [error.rs], with its [Display]. *)
Inductive ProjectionError : Set :=
| ProjectionNotFound (s : string)
| ProjectionAlreadyExists (s : string)
| InvalidState (s : string)
| BuildFailed (s : string)
| RebuildFailed (s : string)
| UpcastingFailed (s : string)
| PStorage (s : string)
| IncompatibleSchemaVersion (expected actual : Z)
| PSequenceGap (n : Z)
| ChecksumMismatch (expected actual : Z)
| ConcurrencyConflict (s : string)
| ThrottleExceeded (wait_ms : Z)
| FailedState (s : string).

Definition projection_error_to_string (e : ProjectionError) : string :=
  match e with
  | ProjectionNotFound s => "projection '" +:+ s +:+ "' not found"
  | ProjectionAlreadyExists s => "projection '" +:+ s +:+ "' already exists"
  | InvalidState s => "invalid projection state: " +:+ s
  | BuildFailed s => "projection build failed: " +:+ s
  | RebuildFailed s => "projection rebuild failed: " +:+ s
  | UpcastingFailed s => "upcasting failed: " +:+ s
  | PStorage s => "storage error: " +:+ s
  | IncompatibleSchemaVersion x a =>
      "incompatible schema version: expected " +:+ pretty x +:+ ", got " +:+ pretty a
  | PSequenceGap n => "sequence gap detected at " +:+ pretty n
  | ChecksumMismatch x a => "checksum mismatch: expected " +:+ pretty x +:+ ", got " +:+ pretty a
  | ConcurrencyConflict s => "concurrency conflict: " +:+ s
  | ThrottleExceeded w => "throttle exceeded, wait " +:+ pretty w +:+ "ms"
  | FailedState s => "projection is in failed state: " +:+ s
  end.

(** [ProjectionError::is_retryable]. *)
Definition is_retryable (e : ProjectionError) : bool :=
  match e with ThrottleExceeded _ | ConcurrencyConflict _ | PStorage _ => true | _ => false end.

(** [enum StorageError] and its conversion. *)
Inductive PStorageError : Set :=
| RecordNotFound (s : string)
| SerializationFailed (s : string)
| DeserializationFailed (s : string)
| CorruptRecord (s : string)
| WriteFailed (s : string)
| BatchFull (class : string) (depth capacity : Z)
| PBudgetExceeded (class : string) (item_size remaining : Z).

Definition projection_error_from (e : PStorageError) : ProjectionError :=
  match e with
  | RecordNotFound id => ProjectionNotFound id
  | SerializationFailed s | DeserializationFailed s | CorruptRecord s | WriteFailed s => PStorage s
  | BatchFull class depth capacity =>
      PStorage ("batch full for class " +:+ class +:+ ", depth " +:+ pretty depth +:+ "/" +:+ pretty capacity)
  | PBudgetExceeded class item_size remaining =>
      PStorage ("budget exceeded for class " +:+ class +:+ ": item size " +:+ pretty item_size
                +:+ ", remaining " +:+ pretty remaining)
  end.

(** [enum StaleReason], [enum ProjectionState]. *)
Inductive StaleReason : Set :=
| SchemaVersionMismatch (expected actual : Z)
| SequenceGapDetected (gap_at : Z)
| CorruptionDetected
| ManualInvalidation.

Inductive ProjectionState : Set :=
| Building
| Ready
| Stale (detected_at : Z) (reason : StaleReason)
| Rebuilding (progress from_sequence : Z)
| Failed (reason : string) (attempted_at : Z).

#[global] Instance StaleReason_eq_dec : EqDecision StaleReason.
Proof. solve_decision. Defined.
#[global] Instance ProjectionState_eq_dec : EqDecision ProjectionState.
Proof. solve_decision. Defined.

(** [ProjectionState::is_terminal] and [is_stale]. *)
Definition is_terminal (s : ProjectionState) : bool :=
  match s with Failed _ _ => true | _ => false end.
Definition is_stale (s : ProjectionState) : bool :=
  match s with Stale _ _ | Rebuilding _ _ => true | _ => false end.

(** [struct ProjectionRecord], [struct ProjectionResult]. *)
Record ProjectionRecord : Set := mkProjectionRecord {
  record_projection_id : string;
  record_schema_version : Z;
  state_bytes : list Z;
  sequence_range : Z * Z;
  record_checksum : Z;
  created_at : Z;
  updated_at : Z;
}.

Record ProjectionResult (S : Type) : Type := mkProjectionResult {
  result_state : S;
  events_applied : Z;
  starting_sequence : Z;
  ending_sequence : Z;
  duration_ms : Z;
  result_schema_version : Z;
}.
Arguments mkProjectionResult {S}.
Arguments result_state {S}.
Arguments events_applied {S}.
Arguments starting_sequence {S}.
Arguments ending_sequence {S}.
Arguments duration_ms {S}.
Arguments result_schema_version {S}.

(** ** The throttle *)

(** [Duration::from_millis] and [Duration::as_millis]. *)
Definition NS_PER_MS : Z := 1000000.
Definition from_millis (ms : Z) : Z := ms * NS_PER_MS.
Definition as_millis (d : Z) : Z := d / NS_PER_MS.

(** [struct RebuildThrottleConfig] and its default. *)
Record RebuildThrottleConfig : Set := mkThrottleConfig {
  max_concurrent_rebuilds : Z;
  refill_interval_ms : Z;
  config_tokens_per_refill : Z;
}.
Definition throttle_config_default : RebuildThrottleConfig := mkThrottleConfig 5 100 1.

(** [struct RebuildThrottleState]. *)
Record RebuildThrottleState : Set := mkThrottle {
  available_tokens : Z;
  max_tokens : Z;
  last_refill : Z;
  refill_interval : Z;
  tokens_per_refill : Z;
  active_rebuilds : Z;
}.

(** [RebuildThrottleState::new] at time [now]. *)
Definition throttle_new (config : RebuildThrottleConfig) (now : Z) : RebuildThrottleState :=
  mkThrottle (max_concurrent_rebuilds config) (max_concurrent_rebuilds config) now
    (from_millis (refill_interval_ms config)) (config_tokens_per_refill config) 0.

(** [RebuildThrottleState::refill]; the clock is read at [t1] for the elapsed time and at
    [t2] for the new [last_refill]. [None] is the panic of a division by zero. *)
Definition refill (t1 t2 : Z) (s : RebuildThrottleState) : option RebuildThrottleState :=
  let elapsed := Z.max 0 (t1 - last_refill s) in
  if refill_interval s <=? elapsed then
    if as_millis (refill_interval s) =? 0 then None else
    let intervals := as_u64 (as_millis elapsed / as_millis (refill_interval s)) in
    let new_tokens := as_u64 (intervals * tokens_per_refill s) in
    Some (mkThrottle (Z.min (as_u64 (available_tokens s + new_tokens)) (max_tokens s))
            (max_tokens s) t2 (refill_interval s) (tokens_per_refill s) (active_rebuilds s))
  else Some s.

(** [RebuildThrottleState::try_acquire_slot]; the outer [None] is the panic. *)
Definition try_acquire_slot (t1 t2 : Z) (s : RebuildThrottleState)
  : option (option Z * RebuildThrottleState) :=
  match refill t1 t2 s with
  | None => None
  | Some s =>
      if (0 <? available_tokens s) && (active_rebuilds s <? max_tokens s) then
        Some (Some 0, mkThrottle (available_tokens s - 1) (max_tokens s) (last_refill s)
                        (refill_interval s) (tokens_per_refill s) (as_u64 (active_rebuilds s + 1)))
      else
        let wait_time := as_u64 (as_millis (refill_interval s)) in
        Some (Some (Z.max wait_time 10), s)
  end.

(** [RebuildThrottleState::release_slot]: [fetch_sub] wraps. *)
Definition release_slot (s : RebuildThrottleState) : RebuildThrottleState :=
  mkThrottle (available_tokens s) (max_tokens s) (last_refill s) (refill_interval s)
    (tokens_per_refill s) (as_u64 (active_rebuilds s - 1)).

(** [RebuildThrottleState::is_idle] and [active_count]. *)
Definition throttle_is_idle (s : RebuildThrottleState) : bool := active_rebuilds s =? 0.
Definition active_count (s : RebuildThrottleState) : Z := active_rebuilds s.

(** ** The engine *)

(** [struct ProjectionEngine], without the upcasters it only stores and the map
    [active_rebuilds] it never uses. *)
Record ProjectionEngine : Set := mkEngine {
  max_supported_version : Z;
  throttle : RebuildThrottleState;
  throttle_config : RebuildThrottleConfig;
  rebuild_in_progress : bool;
}.

(** [ProjectionEngineBuilder::build]. *)
Definition build (max_version : Z) (config : RebuildThrottleConfig) (now : Z) : ProjectionEngine :=
  mkEngine max_version (throttle_new config now) config false.

(** [ProjectionEngine::try_acquire_rebuild_slot]. *)
Definition try_acquire_rebuild_slot (t1 t2 : Z) (e : ProjectionEngine)
  : option (result ProjectionError unit * ProjectionEngine) :=
  match try_acquire_slot t1 t2 (throttle e) with
  | None => None
  | Some (answer, s) =>
      let granted := (Ok tt, mkEngine (max_supported_version e) s (throttle_config e) true) in
      match answer with
      | Some wait_ms =>
          if 0 <? wait_ms
          then Some (Err (ThrottleExceeded wait_ms),
                     mkEngine (max_supported_version e) s (throttle_config e) (rebuild_in_progress e))
          else Some granted
      | None => Some granted
      end
  end.

(** [ProjectionEngine::release_rebuild_slot]. *)
Definition release_rebuild_slot (e : ProjectionEngine) : ProjectionEngine :=
  mkEngine (max_supported_version e) (release_slot (throttle e)) (throttle_config e) false.

Definition active_rebuild_count (e : ProjectionEngine) : Z := active_count (throttle e).
Definition engine_is_idle (e : ProjectionEngine) : bool := throttle_is_idle (throttle e).

(** [ProjectionEngine::detect_staleness]. *)
Definition detect_staleness (e : ProjectionEngine) (record : ProjectionRecord) (current_sequence : Z)
  : option StaleReason :=
  if negb (record_schema_version record =? max_supported_version e) then
    Some (SchemaVersionMismatch (max_supported_version e) (record_schema_version record))
  else
    let end_seq := (sequence_range record).2 in
    if end_seq <? current_sequence then Some (SequenceGapDetected (as_u64 (end_seq + 1)))
    else None.

(** The calls that take and give back slots, with the clock readings. *)
Inductive SlotCall : Set :=
| Acquire (t1 t2 : Z)
| Release.

Definition slot_call (c : SlotCall) (e : ProjectionEngine)
  : option (result ProjectionError unit * ProjectionEngine) :=
  match c with
  | Acquire t1 t2 => try_acquire_rebuild_slot t1 t2 e
  | Release => Some (Ok tt, release_rebuild_slot e)
  end.

Fixpoint slot_calls (cs : list SlotCall) (e : ProjectionEngine)
  : option (list (SlotCall * result ProjectionError unit) * ProjectionEngine) :=
  match cs with
  | [] => Some ([], e)
  | c :: cs =>
      match slot_call c e with
      | None => None
      | Some (a, e) =>
          match slot_calls cs e with
          | None => None
          | Some (tr, e) => Some ((c, a) :: tr, e)
          end
      end
  end.

(** ** Rebuilding *)

(** [struct RebuildContext], without the time it was made. *)
Record RebuildContext : Set := mkContext {
  projection_id : string;
  from_sequence : Z;
  events_total : Z;
  events_processed : Z;
  progress_percent : Z;
  cancelled : bool;
}.

(** [RebuildContext::new], [set_total_events], [update_progress] and [cancel]. *)
Definition context_new (id : string) (from : Z) : RebuildContext := mkContext id from 0 0 0 false.
Definition set_total_events (total : Z) (c : RebuildContext) : RebuildContext :=
  mkContext (projection_id c) (from_sequence c) total (events_processed c) (progress_percent c) (cancelled c).
Definition percent_of (processed total : Z) : Z :=
  usize_of_f64 (f64_mul (f64_div (f64_of processed) (f64_of total)) (f64_of 100)).
Definition update_progress (processed : Z) (c : RebuildContext) : RebuildContext :=
  mkContext (projection_id c) (from_sequence c) (events_total c) processed
    (if 0 <? events_total c then percent_of processed (events_total c) else progress_percent c)
    (cancelled c).
Definition cancel (c : RebuildContext) : RebuildContext :=
  mkContext (projection_id c) (from_sequence c) (events_total c) (events_processed c)
    (progress_percent c) true.

(** [trait Projector<S, E>], with its error's [Into<ProjectionError>]. *)
Class Projector (S E : Type) : Type := {
  PError : Type;
  into_projection_error : PError -> ProjectionError;
  project : S -> E -> result PError S;
  initial_state : S;
  schema_version : Z;
}.

Section Rebuilder.
Context {S E : Type} {P : Projector S E}.

(** [S::default()]. *)
Variable S_default : S.

(** Whether another thread has called [cancel] when the loop looks at event [i]. *)
Variable cancel_before : nat -> bool.

(** The loop of [ProjectionRebuilder::rebuild_full]. *)
Fixpoint rebuild_loop (i : nat) (st : S) (processed : Z) (c : RebuildContext) (events : list E)
  : result ProjectionError (S * Z) * RebuildContext :=
  match events with
  | [] => (Ok (st, processed), c)
  | event :: events =>
      let c := if cancel_before i then cancel c else c in
      if cancelled c then (Err (BuildFailed "rebuild cancelled"), c) else
      match project st event with
      | Err e => (Err (BuildFailed (projection_error_to_string (into_projection_error e))), c)
      | Ok st =>
          let processed := as_u64 (processed + 1) in
          rebuild_loop (Datatypes.S i) st processed (update_progress processed c) events
      end
  end.

(** [ProjectionRebuilder::rebuild_full], which takes [elapsed] milliseconds. *)
Definition rebuild_full (elapsed : Z) (c : RebuildContext) (events : list E)
  : result ProjectionError (ProjectionResult S) * RebuildContext :=
  let c := set_total_events (Z.of_nat (length events)) c in
  let start_seq := from_sequence c in
  let (r, c) := rebuild_loop 0 S_default 0 c events in
  (let? (st, processed) := r in
   Ok (mkProjectionResult st processed start_seq (saturating_add_u64 start_seq processed)
         (as_u64 elapsed) schema_version), c).

(** The specification: the events projected from [st], up to the first error. *)
Fixpoint project_all (st : S) (events : list E) : result PError S :=
  match events with
  | [] => Ok st
  | event :: events => let? st := project st event in project_all st events
  end.

End Rebuilder.

(** ** States *)

(** [ProjectionStateError::InvalidTransition], with the two values its strings print. *)
Inductive ProjectionStateError : Set :=
| InvalidTransition (from : option ProjectionState) (to : ProjectionState).

(** [ProjectionStateManager::states]. *)
Abbreviation StateManager := (gmap string ProjectionState).

(** The [valid] of [transition_to]. *)
Definition valid_transition (current : option ProjectionState) (new_state : ProjectionState) : bool :=
  match current, new_state with
  | None, _ => true
  | Some Building, Ready => true
  | Some Building, Failed _ _ => true
  | Some Ready, Stale _ _ => true
  | Some Ready, Rebuilding _ _ => true
  | Some Ready, Failed _ _ => true
  | Some (Stale _ _), Rebuilding _ _ => true
  | Some (Stale _ _), Failed _ _ => true
  | Some (Rebuilding _ _), Ready => true
  | Some (Rebuilding _ _), Failed _ _ => true
  | Some (Failed _ _), Rebuilding _ _ => true
  | _, _ => false
  end.

(** [ProjectionStateManager::transition_to], [get_state], [set_state] and the queries. *)
Definition transition_to (id : string) (new_state : ProjectionState) (m : StateManager)
  : result ProjectionStateError unit * StateManager :=
  let current := m !! id in
  if negb (valid_transition current new_state) then (Err (InvalidTransition current new_state), m)
  else (Ok tt, <[id := new_state]> m).
Definition get_state (id : string) (m : StateManager) : option ProjectionState := m !! id.
Definition set_state (id : string) (s : ProjectionState) (m : StateManager)
  : result ProjectionError unit * StateManager := (Ok tt, <[id := s]> m).
Definition manager_is_ready (id : string) (m : StateManager) : bool :=
  match get_state id m with Some Ready => true | _ => false end.
Definition manager_is_stale (id : string) (m : StateManager) : bool :=
  match get_state id m with Some s => is_stale s | None => false end.
Definition manager_is_failed (id : string) (m : StateManager) : bool :=
  match get_state id m with Some (Failed _ _) => true | _ => false end.

(** A sequence of requested transitions, with the answers. *)
Fixpoint transitions (reqs : list (string * ProjectionState)) (m : StateManager)
  : list (result ProjectionStateError unit) * StateManager :=
  match reqs with
  | [] => ([], m)
  | (id, s) :: reqs =>
      let (r, m) := transition_to id s m in
      let (rs, m) := transitions reqs m in (r :: rs, m)
  end.

(** ** The throttle bounds rebuilds *)

Definition throttle_config_ok (cfg : RebuildThrottleConfig) : Prop :=
  is_u64 (max_concurrent_rebuilds cfg) /\ 0 < refill_interval_ms cfg <= u64_max /\
  is_u64 (config_tokens_per_refill cfg).

(** The clock does not run backwards from [t], and does not pass [T]. *)
Fixpoint clock (t T : Z) (cs : list SlotCall) : Prop :=
  match cs with
  | [] => t <= T
  | Acquire t1 t2 :: cs => t <= t1 <= t2 /\ clock t2 T cs
  | Release :: cs => clock t T cs
  end.

Lemma clock_le cs : forall t T, clock t T cs -> t <= T.
Proof.
  induction cs as [|[t1 t2|] cs IH]; intros t T Hc; cbn in Hc; [done| |by apply IH].
  destruct Hc as [? ?%IH]. lia.
Qed.

(** The slots granted in a trace, and those held at its end by clients that had [h] and
    only release what they hold. *)
Fixpoint grants (tr : list (SlotCall * result ProjectionError unit)) : Z :=
  match tr with
  | (Acquire _ _, Ok _) :: tr => grants tr + 1
  | _ :: tr => grants tr
  | [] => 0
  end.
Fixpoint held (h : Z) (tr : list (SlotCall * result ProjectionError unit)) : option Z :=
  match tr with
  | [] => Some h
  | (Acquire _ _, Ok _) :: tr => held (h + 1) tr
  | (Acquire _ _, Err _) :: tr => held h tr
  | (Release, _) :: tr => if 0 <? h then held (h - 1) tr else None
  end.

Lemma as_u64_le z : 0 <= z -> 0 <= as_u64 z <= z.
Proof. intros H. unfold_u. split; [by apply Z.mod_pos_bound|by apply Z.mod_le]. Qed.

Lemma as_u64_nonneg z : 0 <= as_u64 z.
Proof. unfold_u. by apply Z.mod_pos_bound. Qed.

Lemma as_u64_id z : is_u64 z -> as_u64 z = z.
Proof. intros H. unfold_u. apply Z.mod_small. lia. Qed.

Section Throttle.
Context (cfg : RebuildThrottleConfig) (Hcfg : throttle_config_ok cfg) (t0 : Z).

Let I : Z := from_millis (refill_interval_ms cfg).

(** What a throttle made at [t0] satisfies at a time [t]. *)
Record throttle_inv (t : Z) (s : RebuildThrottleState) : Prop := {
  ti_max : max_tokens s = max_concurrent_rebuilds cfg;
  ti_interval : refill_interval s = I;
  ti_tokens : tokens_per_refill s = config_tokens_per_refill cfg;
  ti_available : 0 <= available_tokens s <= max_concurrent_rebuilds cfg;
  ti_active : 0 <= active_rebuilds s;
  ti_last : t0 <= last_refill s <= t;
}.

(** The tokens that can be handed out until [T]. *)
Definition supply (T : Z) (s : RebuildThrottleState) : Z :=
  available_tokens s + config_tokens_per_refill cfg * ((T - last_refill s) / I).

Lemma interval_pos : 0 < I.
Proof. destruct Hcfg as (_ & H & _). unfold I, from_millis, NS_PER_MS. lia. Qed.

Lemma as_millis_interval : as_millis I = refill_interval_ms cfg.
Proof. unfold as_millis, I, from_millis, NS_PER_MS. by rewrite Z.div_mul. Qed.

Lemma whole_intervals d : as_millis d / as_millis I = d / I.
Proof.
  destruct Hcfg as (_ & H & _). rewrite as_millis_interval. unfold as_millis, I, from_millis.
  rewrite Z.div_div by (unfold NS_PER_MS; lia). by rewrite Z.mul_comm.
Qed.

Lemma div_add_le a b : 0 <= a -> 0 <= b -> a / I + b / I <= (a + b) / I.
Proof.
  intros Ha Hb. pose proof interval_pos as HI. apply Z.div_le_lower_bound; [done|].
  pose proof (Z.mul_div_le a I HI). pose proof (Z.mul_div_le b I HI). lia.
Qed.

(** [refill] never panics and makes no tokens beyond the supply. *)
Lemma refill_spec t t1 t2 s :
  throttle_inv t s -> t <= t1 <= t2 ->
  exists s', refill t1 t2 s = Some s' /\ throttle_inv t2 s' /\
    active_rebuilds s' = active_rebuilds s /\
    (forall T, t2 <= T -> supply T s' <= supply T s).
Proof.
  intros [Hm Hi Ht Ha Hact0 Hl] Hc. pose proof interval_pos as HI.
  unfold refill. rewrite Hm, Hi, Ht, Z.max_r by lia.
  case_match eqn:Hdue; [|exists s; split_and!; [done|by constructor; lia..|done]].
  apply Z.leb_le in Hdue. destruct Hcfg as (Hmax & Hiv & Htp).
  rewrite (proj2 (Z.eqb_neq _ _)) by (rewrite as_millis_interval; lia).
  rewrite whole_intervals. eexists. split; [done|].
  set (k := (t1 - last_refill s) / I).
  assert (0 <= k) as Hk by (apply Z.div_pos; lia).
  pose proof (as_u64_le k Hk) as Hk'.
  pose proof (as_u64_le (as_u64 k * config_tokens_per_refill cfg)) as Hn.
  specialize (Hn ltac:(apply Z.mul_nonneg_nonneg; ulia)).
  pose proof (as_u64_le (available_tokens s + as_u64 (as_u64 k * config_tokens_per_refill cfg))
                ltac:(lia)) as Hs.
  split_and!; [constructor; cbn; unfold is_u64 in *; lia|done|]. intros T HT. unfold supply; cbn.
  pose proof (div_add_le (t1 - last_refill s) (T - t2) ltac:(lia) ltac:(lia)) as Hd.
  assert ((t1 - last_refill s + (T - t2)) / I <= (T - last_refill s) / I)
    by (apply Z.div_le_mono; lia).
  fold k in Hd. unfold is_u64 in Htp. nia.
Qed.

(** A call for a slot: a grant takes a token of the supply and is made below the maximum. *)
Lemma try_acquire_spec t t1 t2 e :
  throttle_inv t (throttle e) -> t <= t1 <= t2 ->
  exists r e', try_acquire_rebuild_slot t1 t2 e = Some (r, e') /\
    throttle_inv t2 (throttle e') /\
    match r with
    | Ok _ => active_rebuild_count e < max_concurrent_rebuilds cfg /\
              active_rebuild_count e' = as_u64 (active_rebuild_count e + 1) /\
              (forall T, t2 <= T -> supply T (throttle e') + 1 <= supply T (throttle e))
    | Err err => err = ThrottleExceeded (Z.max (refill_interval_ms cfg) 10) /\
              active_rebuild_count e' = active_rebuild_count e /\
              (forall T, t2 <= T -> supply T (throttle e') <= supply T (throttle e))
    end.
Proof.
  intros Hinv Hc. destruct (refill_spec _ _ _ _ Hinv Hc) as (s & Hs & Hs' & Hact & Hsup).
  unfold try_acquire_rebuild_slot, try_acquire_slot, active_rebuild_count, active_count.
  rewrite Hs. pose proof Hs' as [Hm Hi Ht Ha Hact0 Hl]. destruct (_ && _) eqn:Hg; cbn.
  - apply andb_prop in Hg as [Hg1%Z.ltb_lt Hg2%Z.ltb_lt]. eexists _, _. split; [done|]. cbn. split_and!.
    + constructor; cbn; try apply as_u64_nonneg; done || lia.
    + lia.
    + by rewrite Hact.
    + intros T HT. specialize (Hsup T HT). unfold supply in *; cbn. lia.
  - rewrite Hi, as_millis_interval, as_u64_id by (destruct Hcfg; ulia).
    rewrite (proj2 (Z.ltb_lt _ _)) by lia. eexists _, _. split; [done|]. cbn. done.
Qed.

Lemma release_inv t e : throttle_inv t (throttle e) -> throttle_inv t (throttle (release_rebuild_slot e)).
Proof. intros []; constructor; cbn; [done..|by apply as_u64_nonneg|done]. Qed.

(** Runs of calls: what is granted comes out of the supply. *)
Lemma slot_calls_spec cs : forall t T e,
  throttle_inv t (throttle e) -> clock t T cs ->
  exists tr e', slot_calls cs e = Some (tr, e') /\ tr.*1 = cs /\ throttle_inv T (throttle e') /\
    0 <= grants tr /\ grants tr + supply T (throttle e') <= supply T (throttle e) /\
    forall h, 0 <= active_rebuild_count e <= max_concurrent_rebuilds cfg ->
      held (active_rebuild_count e) tr = Some h ->
      active_rebuild_count e' = h /\ 0 <= h <= max_concurrent_rebuilds cfg.
Proof.
  induction cs as [|[t1 t2|] cs IH]; intros t T e Hinv Hc; cbn in *.
  - exists [], e. split_and!; try done; [destruct Hinv; constructor; lia|]. intros h ? [= <-]. done.
  - destruct Hc as [Hc1 Hc2].
    destruct (try_acquire_spec _ _ _ _ Hinv Hc1) as (r & e1 & -> & Hinv1 & Hr).
    pose proof (clock_le _ _ _ Hc2) as HT.
    destruct (IH _ _ _ Hinv1 Hc2) as (tr & e2 & -> & Htr & Hinv2 & Hg & Hs & Hh).
    eexists _, _. split; [done|]. cbn. rewrite Htr. destruct r as [[]|err]; cbn.
    + destruct Hr as (Hlt & Hact & Hsup). specialize (Hsup T HT). split_and!; [done..|lia|lia|].
      intros h Ha Hheld. rewrite as_u64_id in Hact by (destruct Hcfg; ulia).
      apply Hh; [lia|]. by rewrite Hact.
    + destruct Hr as (-> & Hact & Hsup). specialize (Hsup T HT). split_and!; [done..|lia|].
      rewrite <- Hact. done.
  - destruct (IH _ _ _ (release_inv _ _ Hinv) Hc) as (tr & e2 & -> & Htr & Hinv2 & Hg & Hs & Hh).
    eexists _, _. split; [done|]. cbn. rewrite Htr. split_and!; [done..|].
    intros h Ha Hheld. case_match eqn:Hpos; [|done]. apply Z.ltb_lt in Hpos.
    assert (active_rebuild_count (release_rebuild_slot e) = active_rebuild_count e - 1) as Hact.
    { unfold active_rebuild_count, active_count in *; cbn. apply as_u64_id. destruct Hcfg; ulia. }
    apply Hh; rewrite Hact; [lia|done].
Qed.

(** An interval after the last refill there is a token. *)
Lemma refill_after_interval t u1 u2 s :
  throttle_inv t s -> last_refill s + I <= u1 ->
  0 < config_tokens_per_refill cfg -> 0 < max_concurrent_rebuilds cfg ->
  max_concurrent_rebuilds cfg + (u1 - t0) * config_tokens_per_refill cfg <= u64_max ->
  exists s', refill u1 u2 s = Some s' /\ 0 < available_tokens s' /\
    active_rebuilds s' = active_rebuilds s /\ max_tokens s' = max_tokens s.
Proof.
  intros [Hm Hi Ht Ha _ Hl] Hu Htp Hmax Hov. pose proof interval_pos as HI.
  unfold refill. rewrite Hm, Hi, Ht, Z.max_r by lia. rewrite (proj2 (Z.leb_le _ _)) by lia.
  rewrite (proj2 (Z.eqb_neq _ _)) by (rewrite as_millis_interval; destruct Hcfg; lia).
  rewrite whole_intervals. eexists. split; [done|]. cbn. split; [|done].
  set (k := (u1 - last_refill s) / I).
  assert (1 <= k <= u1 - t0) as Hk.
  { split; [apply Z.div_le_lower_bound; lia|].
    etrans; [apply Z.div_le_upper_bound with (q := u1 - last_refill s); nia|lia]. }
  assert (k * config_tokens_per_refill cfg <= (u1 - t0) * config_tokens_per_refill cfg)
    by (apply Z.mul_le_mono_nonneg_r; lia).
  rewrite (as_u64_id k), (as_u64_id (k * _)), as_u64_id by (unfold is_u64; nia). nia.
Qed.

End Throttle.

Lemma build_inv cfg (Hcfg : throttle_config_ok cfg) version t :
  throttle_inv cfg t t (throttle (build version cfg t)).
Proof. destruct Hcfg as (Hmax & _). constructor; cbn; unfold is_u64 in *; done || lia. Qed.

(** The fields of a configuration are in the range of their types; nothing else is checked. *)
Definition throttle_config_typed (cfg : RebuildThrottleConfig) : Prop :=
  is_u64 (max_concurrent_rebuilds cfg) /\ is_u64 (refill_interval_ms cfg) /\
  is_u64 (config_tokens_per_refill cfg).

Lemma acquire_zero_interval cfg version t t1 t2 :
  refill_interval_ms cfg = 0 -> try_acquire_rebuild_slot t1 t2 (build version cfg t) = None.
Proof.
  intros H. unfold try_acquire_rebuild_slot, try_acquire_slot, refill. cbn -[Z.leb Z.max]. rewrite H.
  by rewrite (proj2 (Z.leb_le _ _)) by (unfold from_millis; lia).
Qed.

(** C35. Whatever slots are asked for and given back on an engine made at time [t] with a
    refill interval that is not zero, with a clock that does not run backwards, in a build
    whose token arithmetic wraps: no call panics; the rebuilds started by a time [T] are at
    most the maximum, for the full bucket of the start, and the tokens of the whole intervals
    since; and as long as clients release only slots they hold, the engine counts the
    rebuilds that run and they are never more than the maximum. With a refill interval of
    zero, which the configuration admits, the first slot asked for panics. *)
Theorem rebuilds_throttled cfg version t T cs :
  throttle_config_typed cfg -> clock t T cs ->
  (0 < refill_interval_ms cfg ->
   exists tr e, slot_calls cs (build version cfg t) = Some (tr, e) /\ tr.*1 = cs /\
    grants tr <= max_concurrent_rebuilds cfg
                 + config_tokens_per_refill cfg * ((T - t) / from_millis (refill_interval_ms cfg)) /\
    forall h, held 0 tr = Some h ->
      active_rebuild_count e = h /\ h <= max_concurrent_rebuilds cfg /\
      engine_is_idle e = (h =? 0)) /\
  (refill_interval_ms cfg = 0 ->
   forall t1 t2, try_acquire_rebuild_slot t1 t2 (build version cfg t) = None).
Proof.
  intros Htyped Hc. split; [|intros H0 t1 t2; by apply acquire_zero_interval]. intros Hpos.
  assert (throttle_config_ok cfg) as Hcfg
    by (destruct Htyped as (? & ? & ?); unfold throttle_config_ok, is_u64 in *; lia).
  pose proof Hcfg as (Hmax & _ & Htp).
  pose proof (build_inv cfg Hcfg version t) as Hinv.
  destruct (slot_calls_spec cfg Hcfg t cs t T _ Hinv Hc) as (tr & e & He & Htr & Hinv' & _ & Hs & Hh).
  exists tr, e. split_and!; [done..| |].
  - assert (0 <= supply cfg T (throttle e)) as Hsup.
    { destruct Hinv' as [_ _ _ Ha _ Hl]. pose proof (interval_pos cfg Hcfg).
      unfold supply. pose proof (Z.div_pos (T - last_refill (throttle e)) _ ltac:(lia) H).
      unfold is_u64 in Htp. nia. }
    unfold supply at 2 in Hs. cbn in Hs. lia.
  - intros h Hheld. destruct (Hh h) as [Ha Hb]; [cbn; unfold is_u64 in Hmax; lia|done|].
    split_and!; [done|lia|]. unfold engine_is_idle, throttle_is_idle.
    unfold active_rebuild_count, active_count in Ha. by rewrite Ha.
Qed.

(** A refused client that waits as long as it was told gets its slot, if fewer rebuilds run
    than the maximum, tokens are made and the token count does not overflow. *)
Theorem refused_then_granted cfg version t cs t1 t2 u1 u2 tr e e1 w :
  throttle_config_ok cfg -> clock t t1 cs -> t1 <= t2 ->
  slot_calls cs (build version cfg t) = Some (tr, e) ->
  try_acquire_rebuild_slot t1 t2 e = Some (Err (ThrottleExceeded w), e1) ->
  t2 + from_millis w <= u1 <= u2 ->
  0 < config_tokens_per_refill cfg ->
  active_rebuild_count e1 < max_concurrent_rebuilds cfg ->
  max_concurrent_rebuilds cfg + (u1 - t) * config_tokens_per_refill cfg <= u64_max ->
  exists e2, try_acquire_rebuild_slot u1 u2 e1 = Some (Ok tt, e2).
Proof.
  intros Hcfg Hc Ht He Hden Hu Htp Hact Hov. pose proof Hcfg as (Hmax & _ & _).
  pose proof (build_inv cfg Hcfg version t) as Hinv.
  destruct (slot_calls_spec cfg Hcfg t cs t t1 _ Hinv Hc) as (? & ? & He' & _ & Hinv1 & _).
  rewrite He in He'. injection He' as <- <-.
  destruct (try_acquire_spec cfg Hcfg t t1 t1 t2 e Hinv1 ltac:(lia)) as (r & e' & Hr & Hinv2 & Hr').
  rewrite Hden in Hr. injection Hr as <- <-. destruct Hr' as ([= ->] & _).
  pose proof Hinv2 as [Hm _ _ _ Ha Hl].
  destruct (refill_after_interval cfg Hcfg t t2 u1 u2 _ Hinv2) as (s & Hs & Hav & Hact' & Hm');
    [unfold from_millis, NS_PER_MS in *; lia|done|unfold active_rebuild_count, active_count in Hact; lia|done|].
  unfold try_acquire_rebuild_slot, try_acquire_slot. rewrite Hs.
  unfold active_rebuild_count, active_count in Hact.
  rewrite (proj2 (Z.ltb_lt 0 _)), (proj2 (Z.ltb_lt (active_rebuilds s) _)) by lia. by eexists.
Qed.

(** ** Rebuilds project the whole log *)

Section RebuildCorrect.
Context {S E : Type} {P : Projector S E} (S_default : S) (cancel_before : nat -> bool).

Lemma project_all_app (st : S) (l1 l2 : list E) :
  project_all st (l1 ++ l2) = let? st := project_all st l1 in project_all st l2.
Proof. revert st. induction l1 as [|x l1 IH]; intros st; cbn; [done|]. by destruct (project st x); cbn. Qed.

(** What the loop answers from event [i] on, [i] of which are projected. *)
Lemma rebuild_loop_spec (events : list E) : forall i st c,
  Z.of_nat i + Z.of_nat (length events) <= u64_max ->
  cancelled c = false -> events_processed c = Z.of_nat i ->
  let '(r, c') := rebuild_loop cancel_before i st (Z.of_nat i) c events in
  events_total c' = events_total c /\
  match r with
  | Ok (st', n) =>
      project_all st events = Ok st' /\ n = Z.of_nat (i + length events) /\
      events_processed c' = n /\
      forall j, (j < length events)%nat -> cancel_before (i + j)%nat = false
  | Err e =>
      exists l1 ev l2 st', events = l1 ++ ev :: l2 /\ project_all st l1 = Ok st' /\
        events_processed c' = Z.of_nat (i + length l1) /\
        (forall j, (j < length l1)%nat -> cancel_before (i + j)%nat = false) /\
        ((cancel_before (i + length l1)%nat = true /\ e = BuildFailed "rebuild cancelled") \/
         (cancel_before (i + length l1)%nat = false /\ exists pe, project st' ev = Err pe /\
            e = BuildFailed (projection_error_to_string (into_projection_error pe))))
  end.
Proof.
  induction events as [|ev events IH]; intros i st c Hlen Hc Hp; cbn [rebuild_loop].
  { cbn. rewrite Nat.add_0_r. split_and!; [done..|lia]. }
  destruct (cancel_before i) eqn:Hi; cbn.
  { split; [done|]. exists [], ev, events, st. rewrite Nat.add_0_r. cbn. naive_solver lia. }
  rewrite Hc. destruct (project st ev) as [st1|pe] eqn:Hev.
  2:{ split; [done|]. exists [], ev, events, st. rewrite Nat.add_0_r. cbn. naive_solver lia. }
  replace (as_u64 (Z.of_nat i + 1)) with (Z.of_nat (Datatypes.S i))
    by (rewrite as_u64_id; [lia|cbn [length] in Hlen; ulia]).
  specialize (IH (Datatypes.S i) st1 (update_progress (Z.of_nat (Datatypes.S i)) c)
    ltac:(cbn [length] in Hlen; lia) Hc eq_refl).
  destruct (rebuild_loop _ _ _ _ _ _) as [[[st' n]|e] c'].
  - destruct IH as (-> & Hst & -> & Hn & Hj). split; [done|]. split_and!; [done|lia|lia|].
    intros [|j] Hlt; [by rewrite Nat.add_0_r|].
    replace (i + Datatypes.S j)%nat with (Datatypes.S i + j)%nat by lia. apply Hj. lia.
  - destruct IH as (-> & l1 & ev' & l2 & st' & -> & Hst & Hn & Hj & He). split; [done|].
    exists (ev :: l1), ev', l2, st'. cbn [length].
    replace (i + Datatypes.S (length l1))%nat with (Datatypes.S i + length l1)%nat by lia.
    split_and!; [done|cbn; by rewrite Hev|done| |done].
    intros [|j] Hlt; [by rewrite Nat.add_0_r|].
    replace (i + Datatypes.S j)%nat with (Datatypes.S i + j)%nat by lia. apply Hj. lia.
Qed.

(** A rebuild from a fresh context. It succeeds exactly with the projection of the
    whole log, all of it counted; otherwise it stops at an event, having projected and
    counted the events before it, because it was cancelled before this event or, if not,
    because the projector refused this event, whose error is in the message. *)
Theorem rebuild_full_correct id from elapsed (events : list E) :
  Z.of_nat (length events) <= u64_max ->
  let '(r, c) := rebuild_full S_default cancel_before elapsed (context_new id from) events in
  events_total c = Z.of_nat (length events) /\
  match r with
  | Ok res =>
      project_all S_default events = Ok (result_state res) /\
      events_applied res = Z.of_nat (length events) /\ events_processed c = events_applied res /\
      starting_sequence res = from /\
      ending_sequence res = saturating_add_u64 from (Z.of_nat (length events)) /\
      result_schema_version res = schema_version /\
      forall i, (i < length events)%nat -> cancel_before i = false
  | Err e =>
      exists l1 ev l2 st, events = l1 ++ ev :: l2 /\ project_all S_default l1 = Ok st /\
        events_processed c = Z.of_nat (length l1) /\
        (forall i, (i < length l1)%nat -> cancel_before i = false) /\
        ((cancel_before (length l1) = true /\ e = BuildFailed "rebuild cancelled") \/
         (cancel_before (length l1) = false /\ exists pe, project st ev = Err pe /\
            e = BuildFailed (projection_error_to_string (into_projection_error pe))))
  end.
Proof.
  intros Hlen. unfold rebuild_full.
  pose proof (rebuild_loop_spec events 0 S_default
    (set_total_events (Z.of_nat (length events)) (context_new id from)) Hlen eq_refl eq_refl) as H.
  cbn [Z.of_nat] in H. destruct (rebuild_loop _ _ _ _ _ _) as [[[st n]|e] c]; cbn in *.
  - destruct H as (? & ? & -> & ? & ?). done.
  - done.
Qed.

(** The end of the range that a rebuild reports is one past its last event, yet
    [detect_staleness] reads it as the last event: a record made from the result is not
    stale when the log has one event more. *)
Theorem rebuild_range_hides_event id from elapsed (events : list E) res c e record :
  Z.of_nat (length events) <= u64_max -> from + Z.of_nat (length events) <= u64_max ->
  rebuild_full S_default cancel_before elapsed (context_new id from) events = (Ok res, c) ->
  record_schema_version record = max_supported_version e ->
  sequence_range record = (starting_sequence res, ending_sequence res) ->
  detect_staleness e record (from + Z.of_nat (length events)) = None.
Proof.
  intros Hlen Hfrom Hr Hv Hs. pose proof (rebuild_loop_spec events 0 S_default
    (set_total_events (Z.of_nat (length events)) (context_new id from)) Hlen eq_refl eq_refl) as H.
  unfold rebuild_full in Hr. cbn [Z.of_nat] in H.
  destruct (rebuild_loop _ _ _ _ _ _) as [[[st n]|?] c']; cbn in Hr; [|done].
  destruct H as (_ & _ & -> & _). injection Hr as <- <-. unfold detect_staleness.
  rewrite Hv, Z.eqb_refl, Hs. cbn. rewrite (proj2 (Z.ltb_ge _ _)); [done|]. ulia.
Qed.

End RebuildCorrect.

(** ** States of projections *)

Definition edge (a b : ProjectionState) : Prop := valid_transition (Some a) b = true.

(** A projection that must be rebuilt before it is ready. *)
Definition needs_rebuild (s : ProjectionState) : bool :=
  match s with Stale _ _ | Failed _ _ => true | _ => false end.

Lemma transition_to_path id s m r m' id' a :
  transition_to id s m = (r, m') -> m !! id' = Some a ->
  (m' !! id' = Some a \/ (id = id' /\ r = Ok tt /\ edge a s /\ m' !! id' = Some s)).
Proof.
  unfold transition_to. destruct (valid_transition (m !! id) s) eqn:Hv; cbn.
  - intros [= <- <-] Ha. destruct (decide (id = id')) as [->|Hne].
    + right. rewrite lookup_insert_eq. rewrite Ha in Hv. done.
    + left. by rewrite lookup_insert_ne.
  - intros [= <- <-] Ha. by left.
Qed.

(** Whatever transitions are requested, a known projection moves along the edges of the
    table; a stale or failed one is ready again only after an accepted rebuild. *)
Theorem ready_only_after_rebuild reqs : forall m rs m' id a,
  transitions reqs m = (rs, m') -> m !! id = Some a ->
  exists b, m' !! id = Some b /\ rtc edge a b /\
    (needs_rebuild a = true -> b = Ready ->
     exists k p f, reqs !! k = Some (id, Rebuilding p f) /\ rs !! k = Some (Ok tt)).
Proof.
  induction reqs as [|[id' s] reqs IH]; intros m rs m' id a; cbn.
  { intros [= <- <-] Ha. exists a. split_and!; [done..|]. by destruct a. }
  destruct (transition_to id' s m) as [r m1] eqn:Ht.
  destruct (transitions reqs m1) as [rs1 m2] eqn:Hts. intros [= <- <-] Ha.
  destruct (transition_to_path _ _ _ _ _ _ _ Ht Ha) as [Ha1|(-> & -> & Hedge & Ha1)].
  - destruct (IH _ _ _ _ _ Hts Ha1) as (b & Hb & Hpath & Hreb). exists b. split_and!; [done..|].
    intros Hn Hr. destruct (Hreb Hn Hr) as (k & p & f & ? & ?). by exists (S k), p, f.
  - destruct (IH _ _ _ _ _ Hts Ha1) as (b & Hb & Hpath & Hreb).
    exists b. split_and!; [done|by eapply rtc_l|]. intros Hn Hr.
    destruct s as [| | |p f|]; [by destruct a..| |].
    + by exists 0%nat, p, f.
    + destruct (Hreb eq_refl Hr) as (k & p & f & ? & ?). by exists (S k), p, f.
Qed.

Module ProjectionWitness.

Definition cfg : RebuildThrottleConfig := mkThrottleConfig 2 100 1.

(** Two slots at once, none for the third call, one more after an interval. *)
Definition calls : list SlotCall :=
  [Acquire 0 0; Acquire 10 11; Release; Acquire 12 12; Acquire 100000012 100000013; Release].

Lemma rebuilds_throttled_witness :
  throttle_config_typed cfg /\ clock 0 100000020 calls /\
  exists tr e, slot_calls calls (build 1 cfg 0) = Some (tr, e) /\ tr.*1 = calls /\
    grants tr <= 2 + 1 * ((100000020 - 0) / from_millis 100) /\
    forall h, held 0 tr = Some h ->
      active_rebuild_count e = h /\ h <= 2 /\ engine_is_idle e = (h =? 0).
Proof.
  assert (throttle_config_typed cfg) as H1 by (unfold throttle_config_typed; cbn; ulia).
  assert (clock 0 100000020 calls) as H2 by (cbn; lia).
  split; [exact H1|]. split; [exact H2|].
  exact (proj1 (rebuilds_throttled cfg 1 0 100000020 calls H1 H2) eq_refl).
Defined.

(** The bound is met in this run: three slots are granted, and one is held at the end. *)
Example bound_met :
  match slot_calls calls (build 1 cfg 0) with
  | Some (tr, e) => grants tr = 3 /\ held 0 tr = Some 1 /\ active_rebuild_count e = 1
  | None => False
  end.
Proof. by vm_compute. Qed.

(** A projector that sums, and refuses negative numbers; its [initial_state] is not the
    default of its state. *)
Instance sum_projector : Projector Z Z := {|
  PError := unit;
  into_projection_error _ := InvalidState "negative";
  project st ev := if ev <? 0 then Err () else Ok (st + ev);
  initial_state := 7;
  schema_version := 1;
|}.

Lemma rebuild_full_correct_witness :
  Z.of_nat (length [1; 2; 3]) <= u64_max /\
  fst (rebuild_full 0 (fun _ => false) 5 (context_new "p" 10) [1; 2; 3])
    = Ok (mkProjectionResult 6 3 10 13 5 1) /\
  events_processed (snd (rebuild_full 0 (fun _ => false) 5 (context_new "p" 10) [1; 2; 3])) = 3.
Proof.
  assert (Z.of_nat (length [1; 2; 3]) <= u64_max) as H by (cbn; ulia).
  split; [exact H|].
  pose proof (rebuild_full_correct 0 (fun _ => false) "p" 10 5 [1; 2; 3] H) as Hr.
  destruct (rebuild_full 0 (fun _ => false) 5 (context_new "p" 10) [1; 2; 3]) as [r c] eqn:Heq.
  vm_compute in Heq. injection Heq as <- <-. split; [reflexivity|].
  destruct Hr as (_ & _ & Hn & Hp & _). cbn in *. congruence.
Defined.

(** A rebuild starts from the default of the state, not from the projector's initial state. *)
Example initial_state_ignored :
  fst (rebuild_full (P := sum_projector) 0 (fun _ => false) 5 (context_new "p" 10) [1])
    = Ok (mkProjectionResult 1 1 10 11 5 1) /\
  project_all initial_state [1] = Ok 8.
Proof. by vm_compute. Qed.

(** An error carries the message of its conversion inside another; a cancellation that comes
    after the last event is not seen. *)
Example error_and_late_cancel :
  fst (rebuild_full 0 (fun _ => false) 5 (context_new "p" 10) [1; -2; 3])
    = Err (BuildFailed "invalid projection state: negative") /\
  fst (rebuild_full 0 (fun i => bool_decide (i = 1%nat)) 5 (context_new "p" 10) [1; 2])
    = Err (BuildFailed "rebuild cancelled") /\
  fst (rebuild_full 0 (fun i => bool_decide (i = 2%nat)) 5 (context_new "p" 10) [1; 2])
    = Ok (mkProjectionResult 3 2 10 12 5 1).
Proof. by vm_compute. Qed.

(** With an interval of zero the first call for a slot divides by zero. *)
Example zero_interval_panics t1 t2 :
  try_acquire_rebuild_slot t1 t2 (build 1 (mkThrottleConfig 5 0 1) 0) = None.
Proof. by apply acquire_zero_interval. Qed.

(** A release too many wraps the count of active rebuilds: no slot is granted again. *)
Example release_too_many t1 t2 :
  0 <= t1 <= t2 -> exists e, try_acquire_rebuild_slot t1 t2 (release_rebuild_slot (build 1 cfg 0))
    = Some (Err (ThrottleExceeded 100), e) /\ active_rebuild_count e = u64_max.
Proof.
  intros H. assert (throttle_config_ok cfg) as H1 by (unfold throttle_config_ok; cbn; ulia).
  destruct (try_acquire_spec cfg H1 0 0 t1 t2 (release_rebuild_slot (build 1 cfg 0)))
    as ([[]|err] & e & Hr & _ & Hspec); [by apply release_inv, build_inv|done|..].
  - by destruct Hspec.
  - destruct Hspec as (-> & Hact & _). by exists e.
Qed.

(** One of two rebuilds ends: the engine says that none is in progress. *)
Example in_progress_lost :
  match slot_calls [Acquire 0 0; Acquire 1 1; Release] (build 1 cfg 0) with
  | Some (_, e) => rebuild_in_progress e = false /\ active_rebuild_count e = 1
  | None => False
  end.
Proof. by vm_compute. Qed.

(** The percentage is truncated after rounding: 28 after 29 events of 100. *)
Example progress_truncated : percent_of 29 100 = 28 /\ percent_of 100 100 = 100.
Proof. by vm_compute. Qed.

(** A terminal state can be left, and the progress of a rebuild cannot be advanced. *)
Example terminal_left :
  is_terminal (Failed "x" 1) = true /\
  fst (transition_to "p" (Rebuilding 0 1) {["p" := Failed "x" 1]}) = Ok tt /\
  fst (transition_to "p" (Rebuilding 50 1) {["p" := Rebuilding 0 1]})
    = Err (InvalidTransition (Some (Rebuilding 0 1)) (Rebuilding 50 1)).
Proof. by vm_compute. Qed.

End ProjectionWitness.
