(* ===== verification/RecoveryQueue.v ===== *)
(** * The recovery queue of admission

    [crates/vo-core/src/admission/recovery_queue.rs]: instances that crashed wait in a key
    space, under the text of their identifier and with the reason, until they are handed out
    for another execution; a sweep lists those that no actor runs. The field [pending] and
    the functions [as_str] and [from_str] of the reason have no use in the code. *)

From S2P Require Import Prelude Identifiers KeyEncoding Keyspace.

(** [enum RecoveryReason]. *)
Inductive RecoveryReason : Set := Crashed | TimedOut | LostWorker.

#[global] Instance RecoveryReason_eq_dec : EqDecision RecoveryReason.
Proof. solve_decision. Defined.

(** [RecoveryReason::as_str] and [RecoveryReason::from_str]. *)
Definition reason_as_str (r : RecoveryReason) : string :=
  match r with Crashed => "crashed" | TimedOut => "timed_out" | LostWorker => "lost_worker" end.
Definition reason_from_str (s : string) : option RecoveryReason :=
  if String.eqb s "crashed" then Some Crashed
  else if String.eqb s "timed_out" then Some TimedOut
  else if String.eqb s "lost_worker" then Some LostWorker
  else None.

(** [enum RecoveryQueueError]. *)
Inductive RecoveryQueueError : Set :=
| SerializationFailed (s : string)
| RStorage (s : string)
| AlreadyQueued (i : InstanceId).

Section Queue.
Context `{U : UlidApi} `{F : FjallApi} `{S : !SerdeApi RecoveryReason}.

(** [encode_key], [decode_key], [encode_value] and [decode_value]. *)
Definition encode_key (i : InstanceId) : list Z := as_bytes (instance_id_str i).
Definition decode_key (key : list Z) : option InstanceId :=
  match from_utf8 key with
  | None => None
  | Some s => match InstanceId_parse s with Ok i => Some i | Err _ => None end
  end.
Definition encode_value (r : RecoveryReason) : result RecoveryQueueError (list Z) :=
  map_err SerializationFailed (to_vec r).
Definition decode_value (value : list Z) : result RecoveryQueueError RecoveryReason :=
  map_err SerializationFailed (from_slice value).

(** [RecoveryQueue::enqueue]; a failed look-up counts as absent. *)
Definition enqueue (i : InstanceId) (reason : RecoveryReason) (ks : Keyspace)
  : result RecoveryQueueError unit * Keyspace :=
  let key := encode_key i in
  match ks_get ks key with
  | Ok (Some _) => (Err (AlreadyQueued i), ks)
  | _ =>
      match encode_value reason with
      | Err e => (Err e, ks)
      | Ok value =>
          let (r, ks) := ks_insert ks key value in
          (map_err (fun e => RStorage ("failed to insert: " +:+ e)) r, ks)
      end
  end.

(** [partition.keys().filter_map(|k| k.ok())]. *)
Definition good_keys (ks : Keyspace) : list (list Z) :=
  omap (fun item => match item with Ok (k, _) => Some k | Err _ => None end) (ks_iter ks).

(** [RecoveryQueue::sweep_orphans]. *)
Definition orphan (active_set : gset InstanceId) (key : list Z) : option InstanceId :=
  match decode_key key with
  | Some i => if bool_decide (i ∈ active_set) then None else Some i
  | None => None
  end.
Definition sweep_orphans (active_set : gset InstanceId) (ks : Keyspace)
  : result RecoveryQueueError (list InstanceId) :=
  Ok (omap (orphan active_set) (good_keys ks)).

(** The loop of [RecoveryQueue::throttle_next], with [count] so far. *)
Fixpoint next_loop (budget count : Z) (keys : list (list Z)) (ks : Keyspace)
  : option InstanceId * Keyspace :=
  match keys with
  | [] => (None, ks)
  | key :: keys =>
      if budget <=? count then (None, ks) else
      match decode_key key with
      | Some i => let (_, ks) := ks_remove ks key in (Some i, ks)
      | None => next_loop budget count keys ks
      end
  end.
Definition throttle_next (budget : Z) (ks : Keyspace) : option InstanceId * Keyspace :=
  next_loop budget 0 (good_keys ks) ks.

(** The calls, and their answers. *)
Inductive RecoveryCall : Type :=
| Enqueue (i : InstanceId) (reason : RecoveryReason)
| Sweep (active_set : gset InstanceId)
| Next (budget : Z).

Inductive RecoveryAnswer : Type :=
| Enqueued (r : result RecoveryQueueError unit)
| Swept (r : result RecoveryQueueError (list InstanceId))
| Handed (o : option InstanceId).

Definition recovery_call (c : RecoveryCall) (ks : Keyspace) : RecoveryAnswer * Keyspace :=
  match c with
  | Enqueue i reason => let (r, ks) := enqueue i reason ks in (Enqueued r, ks)
  | Sweep active_set => (Swept (sweep_orphans active_set ks), ks)
  | Next budget => let (o, ks) := throttle_next budget ks in (Handed o, ks)
  end.

Fixpoint recovery_calls (cs : list RecoveryCall) (ks : Keyspace) : list RecoveryAnswer * Keyspace :=
  match cs with
  | [] => ([], ks)
  | c :: cs =>
      let (x, ks) := recovery_call c ks in
      let (xs, ks) := recovery_calls cs ks in (x :: xs, ks)
  end.
End Queue.

(** ** The contract *)

(** The queue as a map; which instance is handed out is not promised. *)
Inductive recovery_spec (a : gmap InstanceId RecoveryReason)
  : RecoveryCall -> RecoveryAnswer -> gmap InstanceId RecoveryReason -> Prop :=
| SpecEnqueue i r : a !! i = None -> recovery_spec a (Enqueue i r) (Enqueued (Ok tt)) (<[i := r]> a)
| SpecQueued i r : is_Some (a !! i) ->
    recovery_spec a (Enqueue i r) (Enqueued (Err (AlreadyQueued i))) a
| SpecSweep s l : l ≡ₚ elements (dom a ∖ s) -> recovery_spec a (Sweep s) (Swept (Ok l)) a
| SpecNext b i : 0 < b -> is_Some (a !! i) -> recovery_spec a (Next b) (Handed (Some i)) (delete i a)
| SpecNone b : b <= 0 \/ a = ∅ -> recovery_spec a (Next b) (Handed None) a.

Inductive recovery_specs : gmap InstanceId RecoveryReason -> list RecoveryCall ->
    list RecoveryAnswer -> gmap InstanceId RecoveryReason -> Prop :=
| SpecsNil a : recovery_specs a [] [] a
| SpecsCons a c x a1 cs xs a2 :
    recovery_spec a c x a1 -> recovery_specs a1 cs xs a2 -> recovery_specs a (c :: cs) (x :: xs) a2.

(** How often an instance was accepted, and handed out, in a run. *)
Fixpoint accepted (i : InstanceId) (cs : list RecoveryCall) (xs : list RecoveryAnswer) : Z :=
  match cs, xs with
  | Enqueue j _ :: cs, Enqueued (Ok _) :: xs => accepted i cs xs + (if decide (i = j) then 1 else 0)
  | _ :: cs, _ :: xs => accepted i cs xs
  | _, _ => 0
  end.
Fixpoint handed (i : InstanceId) (xs : list RecoveryAnswer) : Z :=
  match xs with
  | Handed (Some j) :: xs => handed i xs + (if decide (i = j) then 1 else 0)
  | _ :: xs => handed i xs
  | [] => 0
  end.
Definition waiting (i : InstanceId) (a : gmap InstanceId RecoveryReason) : Z :=
  if decide (is_Some (a !! i)) then 1 else 0.

Lemma waiting_insert i j r a :
  a !! j = None -> waiting i (<[j := r]> a) = waiting i a + (if decide (i = j) then 1 else 0).
Proof.
  intros Hj. unfold waiting. destruct (decide (i = j)) as [->|Hne].
  - rewrite lookup_insert_eq, Hj. do 2 case_decide; done || (exfalso; naive_solver).
  - rewrite lookup_insert_ne by done. by case_decide.
Qed.

Lemma waiting_delete i j a :
  is_Some (a !! j) -> waiting i a = waiting i (delete j a) + (if decide (i = j) then 1 else 0).
Proof.
  intros Hj. unfold waiting. destruct (decide (i = j)) as [->|Hne].
  - rewrite lookup_delete_eq. do 2 case_decide; done || (exfalso; naive_solver).
  - rewrite lookup_delete_ne by done. by case_decide.
Qed.

(** Every accepted instance is handed out once or still waits. *)
Lemma specs_conserve a cs xs a' i :
  recovery_specs a cs xs a' -> waiting i a + accepted i cs xs = handed i xs + waiting i a'.
Proof.
  induction 1 as [a|a c x a1 cs xs a2 Hs _ IH]; cbn; [lia|].
  destruct Hs as [j r Hj|j r Hj|s l Hl|b j Hb Hj|b Hb]; cbn; try lia.
  - rewrite (waiting_insert i j r a Hj) in IH. lia.
  - rewrite (waiting_delete i j a Hj). lia.
Qed.

(** ** The key space implements the contract *)

Section Proofs.
Context `{U : UlidApi} `{UL : !UlidLaws} `{F : FjallApi} `{FL : !FjallLaws}
  `{S : !SerdeApi RecoveryReason} `{SL : !SerdeLaws RecoveryReason}.

(** An identifier that was parsed. *)
Definition parsed_id (i : InstanceId) : Prop := exists u, InstanceId_wf i u /\ u <> 0.

Definition queue_rep (a : gmap InstanceId RecoveryReason) (ks : Keyspace) : Prop :=
  healthy ks /\ encodes parsed_id encode_key vec_of a (contents ks).

Lemma decode_encode_key i : parsed_id i -> decode_key (encode_key i) = Some i.
Proof.
  intros (u & Hi & Hu). unfold decode_key, encode_key, from_utf8.
  rewrite utf8_ascii, of_bytes_as_bytes, (InstanceId_parse_wf_ok i u Hi Hu); [done|].
  destruct Hi as [Hr ->]. unfold as_bytes. apply Forall_fmap.
  eapply Forall_impl; [exact (ulid_to_alnum u Hr)|]. intros c Hc.
  apply identifier_char_ascii. unfold is_identifier_char. by rewrite Hc.
Qed.

Lemma encode_key_inj i j : parsed_id i -> parsed_id j -> encode_key i = encode_key j -> i = j.
Proof. intros Hi%decode_encode_key Hj%decode_encode_key E. congruence. Qed.

(** The keys a scan meets are those of the waiting instances. *)
Lemma good_keys_ok a ks :
  queue_rep a ks -> exists l, good_keys ks = encode_key <$> l /\ l ≡ₚ elements (dom a) /\ Forall parsed_id l.
Proof.
  intros [Hh He]. destruct (ks_iter_ok ks Hh) as (items & Hi & Hp).
  rewrite (encodes_to_list _ _ _ encode_key_inj a _ He) in Hp.
  apply Permutation_map_inv in Hp as (l & -> & Hl). exists l.*1. unfold good_keys. rewrite Hi. split_and!.
  - clear. induction l as [|[i r] l IH]; [done|]. cbn. f_equal. exact IH.
  - rewrite <- Hl. apply NoDup_Permutation; [apply NoDup_fst_map_to_list|apply NoDup_elements|].
    intros i. rewrite elem_of_elements, elem_of_dom, list_elem_of_fmap. split.
    + intros ([j r] & -> & Hj%elem_of_map_to_list). by exists r.
    + intros [r Hr]. exists (i, r). by rewrite elem_of_map_to_list.
  - apply Forall_fmap, Forall_forall. intros [i r] Hir. rewrite <- Hl in Hir.
    apply elem_of_map_to_list in Hir. apply He. by exists r.
Qed.

Lemma enqueue_ok a ks i r :
  queue_rep a ks -> parsed_id i ->
  exists x a' ks', enqueue i r ks = (x, ks') /\ recovery_spec a (Enqueue i r) (Enqueued x) a' /\
    queue_rep a' ks'.
Proof.
  intros [Hh He] Hi. unfold enqueue. rewrite ks_get_ok by done.
  rewrite (encodes_lookup _ _ _ encode_key_inj a _ i He Hi).
  destruct (a !! i) eqn:Ha; cbn.
  { eexists _, a, ks. split; [done|]. split; [by constructor; eexists|done]. }
  unfold encode_value. rewrite to_vec_ok. cbn.
  destruct (ks_insert_ok ks (encode_key i) (vec_of r) Hh) as (H1 & H2 & H3).
  destruct (ks_insert _ _ _) as [x ks']; cbn in *. subst x. eexists _, _, ks'.
  split; [done|]. split; [by constructor|]. split; [done|]. rewrite H3.
  by apply encodes_insert; [exact encode_key_inj|..].
Qed.

Lemma sweep_ok a ks s :
  queue_rep a ks -> exists x, sweep_orphans s ks = x /\ recovery_spec a (Sweep s) (Swept x) a.
Proof.
  intros Hr. destruct (good_keys_ok a ks Hr) as (l & Hk & Hl & Hv). eexists. split; [done|].
  unfold sweep_orphans. rewrite Hk.
  assert (omap (orphan s) (encode_key <$> l) = base.filter (fun i => i ∉ s) l) as ->.
  { clear Hk Hl. induction Hv as [|i l Hi _ IH]; [done|]. csimpl. unfold orphan at 1.
    rewrite (decode_encode_key i Hi). case_bool_decide as Hs; rewrite filter_cons.
    - rewrite decide_False by (by intros ?). exact IH.
    - rewrite decide_True by done. by rewrite IH. }
  constructor. rewrite Hl. apply NoDup_Permutation; [apply NoDup_filter, NoDup_elements|apply NoDup_elements|].
  intros i. rewrite list_elem_of_filter, !elem_of_elements. set_solver.
Qed.

Lemma next_ok a ks b :
  queue_rep a ks ->
  exists x a' ks', throttle_next b ks = (x, ks') /\ recovery_spec a (Next b) (Handed x) a' /\
    queue_rep a' ks'.
Proof.
  intros Hr. destruct (good_keys_ok a ks Hr) as (l & Hk & Hl & Hv). pose proof Hr as [Hh He].
  unfold throttle_next. rewrite Hk. destruct l as [|i l]; cbn.
  { eexists _, a, ks. split; [done|]. split; [|done]. constructor. right.
    apply Permutation_nil_l, symmetry, elements_empty_inv in Hl. by apply dom_empty_iff. }
  destruct (Z.leb_spec b 0) as [Hb|Hb].
  { eexists _, a, ks. split; [done|]. split; [constructor; by left|done]. }
  apply Forall_cons in Hv as [Hi _]. rewrite (decode_encode_key i Hi).
  destruct (ks_remove_ok ks (encode_key i) Hh) as (_ & H2 & H3).
  destruct (ks_remove _ _) as [x ks']; cbn in *. eexists _, (delete i a), ks'. split; [done|].
  split.
  - constructor; [done|]. apply elem_of_dom, elem_of_elements. rewrite <- Hl. left.
  - split; [done|]. rewrite H3. by apply encodes_delete; [exact encode_key_inj|..].
Qed.

Definition call_ok (c : RecoveryCall) : Prop :=
  match c with Enqueue i _ => parsed_id i | _ => True end.

Lemma recovery_calls_ok cs : forall a ks,
  queue_rep a ks -> Forall call_ok cs ->
  exists xs a' ks', recovery_calls cs ks = (xs, ks') /\ recovery_specs a cs xs a' /\ queue_rep a' ks'.
Proof.
  induction cs as [|c cs IH]; intros a ks Hr Hcs.
  { eexists _, a, ks. split; [done|]. split; [constructor|done]. }
  apply Forall_cons in Hcs as [Hc Hcs].
  assert (exists x a1 ks1, recovery_call c ks = (x, ks1) /\ recovery_spec a c x a1 /\ queue_rep a1 ks1)
    as (x & a1 & ks1 & Hx & Hs & Hr1).
  { destruct c as [i r|s|b]; cbn.
    - destruct (enqueue_ok a ks i r Hr Hc) as (x & a1 & ks1 & -> & ? & ?). by eexists _, a1, ks1.
    - destruct (sweep_ok a ks s Hr) as (x & -> & ?). by eexists _, a, ks.
    - destruct (next_ok a ks b Hr) as (x & a1 & ks1 & -> & ? & ?). by eexists _, a1, ks1. }
  destruct (IH a1 ks1 Hr1 Hcs) as (xs & a2 & ks2 & Hxs & Hss & Hr2).
  exists (x :: xs), a2, ks2. cbn. rewrite Hx, Hxs. split; [done|]. split; [by econstructor|done].
Qed.

(** On a healthy key space that starts empty, every sequence of calls with parsed
    identifiers gives the answers of a map from the waiting instances to their reasons:
    an instance is accepted unless it waits, a sweep lists exactly the waiting instances no
    actor runs, and a positive budget hands one of the waiting instances out unless there is
    none. So an instance is handed out as often as it was accepted, less one while it
    waits: none is lost and none is handed out twice. *)
Theorem recovery_queue_refines_map ks cs :
  healthy ks -> contents ks = ∅ -> Forall call_ok cs ->
  exists xs a ks', recovery_calls cs ks = (xs, ks') /\ recovery_specs ∅ cs xs a /\
    healthy ks' /\
    forall i, accepted i cs xs = handed i xs + waiting i a.
Proof.
  intros Hh He Hcs.
  assert (queue_rep ∅ ks) as Hr by (split; [done|]; rewrite He; apply encodes_empty).
  destruct (recovery_calls_ok cs ∅ ks Hr Hcs) as (xs & a & ks' & Hxs & Hs & Hr').
  exists xs, a, ks'. split_and!; [done..|apply Hr'|]. intros i.
  pose proof (specs_conserve _ _ _ _ i Hs) as H. unfold waiting at 1 in H.
  rewrite lookup_empty in H. case_decide as Hd; [by destruct Hd|lia].
Qed.

(** As many calls with a positive budget as instances wait empty the queue. *)
Theorem recovery_queue_drains budget : 0 < budget -> forall a ks n,
  queue_rep a ks -> (size a <= n)%nat ->
  exists xs ks', recovery_calls (replicate n (Next budget)) ks = (xs, ks') /\ queue_rep ∅ ks' /\
    forall i, handed i xs = waiting i a.
Proof.
  intros Hb a ks n. revert a ks. induction n as [|n IH]; intros a ks Hr Hn.
  { assert (a = ∅) as -> by (apply map_size_empty_inv; lia). exists [], ks. split_and!; [done..|].
    intros i. unfold waiting. rewrite lookup_empty. case_decide as Hd; [by destruct Hd|done]. }
  destruct (next_ok a ks budget Hr) as (x & a1 & ks1 & Hx & Hs & Hr1).
  assert (size a1 <= n)%nat as Hn1.
  { inversion Hs as [| | |? j ? Hj|? Hor]; subst.
    - rewrite map_size_delete. destruct Hj as [v Hv]. rewrite Hv. lia.
    - destruct Hor as [?| ->]; [lia|]. rewrite map_size_empty. lia. }
  destruct (IH a1 ks1 Hr1 Hn1) as (xs & ks' & Hxs & Hr' & Hw).
  exists (Handed x :: xs), ks'. cbn. rewrite Hx, Hxs. split_and!; [done..|]. intros i.
  inversion Hs as [| | |? j ? Hj|? Hor]; subst.
  - rewrite (waiting_delete i j a Hj), Hw. lia.
  - apply Hw.
Qed.
End Proofs.

Module RecoveryWitness.
Import MapKeyspace BitsSerde ConcreteUlid.
#[local] Existing Instance bits_serde.

Definition reason_code (r : RecoveryReason) : nat :=
  match r with Crashed => 0%nat | TimedOut => 1%nat | LostWorker => 2%nat end.
#[local] Instance reason_countable : Countable RecoveryReason.
Proof.
  refine (inj_countable' reason_code
    (fun n => match n with 0%nat => Crashed | 1%nat => TimedOut | _ => LostWorker end) _).
  by intros [].
Defined.

Definition two : InstanceId := InstanceId_from_u128 2.

Lemma one_parsed : parsed_id one.
Proof. exists 1. split; [apply one_wf|done]. Qed.
Lemma two_parsed : parsed_id two.
Proof. exists 2. by split. Qed.

Definition calls : list RecoveryCall :=
  [Enqueue one Crashed; Enqueue one TimedOut; Enqueue two LostWorker; Sweep {[one]}; Next 1; Next 0].

Lemma recovery_queue_refines_map_witness :
  Forall call_ok calls /\
  exists xs a ks', recovery_calls calls (∅ : @Keyspace fjall_api) = (xs, ks') /\
    recovery_specs ∅ calls xs a /\ forall i, accepted i calls xs = handed i xs + waiting i a.
Proof.
  assert (Forall call_ok calls) as H.
  { unfold calls. repeat constructor; cbn; apply one_parsed || apply two_parsed. }
  split; [exact H|].
  destruct (recovery_queue_refines_map (FL := fjall_laws) (SL := bits_serde_laws)
    (∅ : @Keyspace fjall_api) calls I eq_refl H) as (xs & a & ks' & H1 & H2 & _ & H3).
  exists xs, a, ks'. split; [exact H1|]. split; [exact H2|exact H3].
Defined.

(** A budget of two hands one instance out. *)
Example one_per_call :
  exists i ks', recovery_calls [Enqueue one Crashed; Enqueue two Crashed; Next 2]
    (∅ : @Keyspace fjall_api) = ([Enqueued (Ok tt); Enqueued (Ok tt); Handed (Some i)], ks').
Proof. vm_compute. by eexists _, _. Qed.
End RecoveryWitness.
