(* ===== verification/Pool.v ===== *)
(** * The connection pool of the worker

    [crates/vo-worker/src/pool/] ([pool.rs], [circuit_breaker.rs], [config.rs]) over the types
    of [crates/vo-common/src/connection_pool/types.rs]: connections that are handed out and
    given back, evicted, checked and scaled, behind a circuit breaker. The health check is
    that of the same crate in the [polecats] workspace, since [health_check.rs] here has lost
    its body. Identifiers are ULIDs, numbers here, drawn from outside; a call reads the clock
    at one instant. The semaphore nothing waits on is the number of permits added to it; the
    second one is never used, nor are the server addresses. *)

From S2P Require Import Prelude Floats.

Abbreviation ConnectionId := Z.

(** ** Types *)

(** [struct PoolConfig]; the conversions between the two crates' structs copy the fields. *)
Record PoolConfig : Set := mkPoolConfig {
  min_connections : Z;
  max_connections : Z;
  connection_timeout_ms : Z;
  idle_timeout_ms : Z;
  health_check_interval_ms : Z;
  max_pending_acquires : Z;
}.

(** [enum PoolConfigError]. *)
Inductive PoolConfigError : Set :=
| MinGreaterThanMax
| MaxZero
| ConnectionTimeoutZero
| IdleTimeoutZero
| HealthCheckIntervalZero.

(** [validate_config] of [pool.rs]. *)
Definition validate_config (c : PoolConfig) : result PoolConfigError unit :=
  if max_connections c <? min_connections c then Err MinGreaterThanMax
  else if max_connections c =? 0 then Err MaxZero
  else if connection_timeout_ms c =? 0 then Err ConnectionTimeoutZero
  else if idle_timeout_ms c =? 0 then Err IdleTimeoutZero
  else if health_check_interval_ms c =? 0 then Err HealthCheckIntervalZero
  else Ok tt.

(** [PoolConfig::new] and [PoolConfig::with_defaults]. *)
Definition PoolConfig_new (min max connection_timeout idle_timeout interval pending : Z)
  : result PoolConfigError PoolConfig :=
  if max <? min then Err MinGreaterThanMax
  else if max =? 0 then Err MaxZero
  else if connection_timeout =? 0 then Err ConnectionTimeoutZero
  else if idle_timeout =? 0 then Err IdleTimeoutZero
  else if interval =? 0 then Err HealthCheckIntervalZero
  else Ok (mkPoolConfig min max connection_timeout idle_timeout interval pending).
Definition with_defaults : PoolConfig := mkPoolConfig 2 10 5000 30000 10000 5.

(** [enum ConnectionStatus], [struct PooledConnection]. *)
Inductive ConnectionStatus : Set := Idle | CheckedOut | HealthCheckStatus | Closing | Closed.

#[global] Instance ConnectionStatus_eq_dec : EqDecision ConnectionStatus.
Proof. solve_decision. Defined.

Record PooledConnection : Set := mkPooled {
  connection_id : ConnectionId;
  created_at : Z;
  last_used_at : Z;
  use_count : Z;
  conn_status : ConnectionStatus;
}.

(** [PooledConnection::new], [with_status] and [increment_use_count]. *)
Definition PooledConnection_new (id now : Z) : PooledConnection := mkPooled id now now 0 Idle.
Definition with_status (c : PooledConnection) (s : ConnectionStatus) : PooledConnection :=
  mkPooled (connection_id c) (created_at c) (last_used_at c) (use_count c) s.
Definition increment_use_count (c : PooledConnection) : PooledConnection :=
  mkPooled (connection_id c) (created_at c) (last_used_at c) (as_u64 (use_count c + 1)) (conn_status c).

(** [enum HealthCheckResult], [enum EvictionReason], [struct WaitHandle],
    [enum AcquireResult], [enum ReleaseResult]. *)
Inductive HealthCheckResult : Set := Healthy | HStale | Corrupted | Timeout.
Inductive EvictionReason : Set :=
| HealthCheckFailed (r : HealthCheckResult)
| ExplicitEviction
| IdleTimeout
| ProtocolError (s : string).

Record WaitHandle : Set := mkWaitHandle { request_id : Z; enqueued_at : Z; handle_pool_id : string }.

Inductive AcquireResult : Set :=
| Available (connection : PooledConnection)
| Pending (wait_handle : WaitHandle)
| PoolExhausted (config : PoolConfig)
| PoolClosing
| AcquireTimeout (waited_ms : Z).
Inductive ReleaseResult : Set :=
| Returned
| AlreadyClosed
| Evicted (reason : EvictionReason).

(** ** The circuit breaker *)

Inductive CircuitBreakerState : Set := BClosed | BOpen | BHalfOpen.

#[global] Instance CircuitBreakerState_eq_dec : EqDecision CircuitBreakerState.
Proof. solve_decision. Defined.

Definition FAILURE_WINDOW_MS : Z := 30000.

Record CircuitBreaker : Set := mkBreaker {
  breaker_state : CircuitBreakerState;
  failure_history : list (Z * bool);
  last_transition_at : option Z;
  consecutive_failures : Z;
  half_open_test_connections : Z;
}.

Definition saturating_sub (a b : Z) : Z := Z.max 0 (a - b).

(** [CircuitBreaker::new] and [CircuitBreaker::reset]. *)
Definition breaker_new : CircuitBreaker := mkBreaker BClosed [] None 0 0.
Definition breaker_reset (b : CircuitBreaker) : CircuitBreaker := mkBreaker BClosed [] None 0 0.

(** [CircuitBreaker::transition_to]. *)
Definition breaker_transition_to (now : Z) (s : CircuitBreakerState) (b : CircuitBreaker)
  : CircuitBreaker :=
  match s with
  | BClosed => mkBreaker BClosed (failure_history b) (Some now) 0 0
  | BHalfOpen => mkBreaker BHalfOpen (failure_history b) (Some now) (consecutive_failures b) 0
  | BOpen => mkBreaker BOpen (failure_history b) (Some now) (consecutive_failures b)
               (half_open_test_connections b)
  end.

(** [CircuitBreaker::trim_history]: the entries at the front that are too old. *)
Fixpoint drop_old (cutoff : Z) (h : list (Z * bool)) : list (Z * bool) :=
  match h with
  | (time, ok) :: h' => if time <? cutoff then drop_old cutoff h' else h
  | [] => []
  end.
Definition trim_history (now : Z) (h : list (Z * bool)) : list (Z * bool) :=
  drop_old (saturating_sub now (FAILURE_WINDOW_MS * 2)) h.

(** The constants [0.5] and [0.8]. *)
Definition f64_0_5 : spec_float := S754_finite false 4503599627370496 (-53).
Definition f64_0_8 : spec_float := S754_finite false 7205759403792794 (-53).

(** [CircuitBreaker::should_trip]; the division and the comparison are those of [f64]. *)
Definition is_recent (now : Z) (e : Z * bool) : bool := saturating_sub now e.1 <=? FAILURE_WINDOW_MS.
Definition rate_above_half (failures total : Z) : bool :=
  f64_ltb f64_0_5 (f64_div (f64_of failures) (f64_of total)).
Definition should_trip (now : Z) (h : list (Z * bool)) : bool :=
  let recent := base.filter (fun e => is_recent now e = true) h in
  let recent_failures := Z.of_nat (length (base.filter (fun e => e.2 = false) recent)) in
  let total_recent := Z.of_nat (length recent) in
  if total_recent =? 0 then false else rate_above_half recent_failures total_recent.

(** [CircuitBreaker::record_success] and [CircuitBreaker::record_failure]. *)
Definition record_success (now : Z) (b : CircuitBreaker) : CircuitBreaker :=
  let b := mkBreaker (breaker_state b) (failure_history b) (last_transition_at b) 0
             (half_open_test_connections b) in
  match breaker_state b with
  | BClosed =>
      mkBreaker BClosed (trim_history now (failure_history b ++ [(now, true)]))
        (last_transition_at b) 0 (half_open_test_connections b)
  | BHalfOpen =>
      let tests := as_u32 (half_open_test_connections b + 1) in
      let b := mkBreaker BHalfOpen (failure_history b) (last_transition_at b) 0 tests in
      if 1 <=? tests then breaker_transition_to now BClosed b else b
  | BOpen => b
  end.
Definition record_failure (now : Z) (b : CircuitBreaker) : CircuitBreaker :=
  let b := mkBreaker (breaker_state b) (trim_history now (failure_history b ++ [(now, false)]))
             (last_transition_at b) (as_u32 (consecutive_failures b + 1))
             (half_open_test_connections b) in
  match breaker_state b with
  | BClosed => if should_trip now (failure_history b) then breaker_transition_to now BOpen b else b
  | BHalfOpen =>
      let tests := as_u32 (half_open_test_connections b + 1) in
      let b := mkBreaker BHalfOpen (failure_history b) (last_transition_at b)
                 (consecutive_failures b) tests in
      if 10 <=? tests then breaker_transition_to now BOpen b else b
  | BOpen => b
  end.

(** [CircuitBreaker::should_allow_request] and [try_transition_to_half_open], the latter with
    the time it is given and the time it reads. *)
Definition should_allow_request (b : CircuitBreaker) : bool :=
  match breaker_state b with BClosed => true | BOpen => false | BHalfOpen => true end.
Definition try_transition_to_half_open (current_time now : Z) (b : CircuitBreaker)
  : bool * CircuitBreaker :=
  if decide (breaker_state b = BOpen) then
    match last_transition_at b with
    | Some last =>
        if FAILURE_WINDOW_MS <=? saturating_sub current_time last
        then (true, breaker_transition_to now BHalfOpen b)
        else (false, b)
    | None => (false, b)
    end
  else (false, b).

(** ** The pool *)

(** [HealthCheck::check_connection]; its [timeout_ms] is not used there. *)
Definition check_connection (last_used idle_timeout current_time : Z) : HealthCheckResult :=
  if idle_timeout <? saturating_sub current_time last_used then HStale else Healthy.

(** [determine_health_check_result]. *)
Definition determine_health_check_result (is_connected is_timed_out is_corrupted : bool)
  : HealthCheckResult :=
  if is_timed_out then Timeout else if is_corrupted then Corrupted
  else if negb is_connected then HStale else Healthy.

(** [struct PoolScaler]: instants in nanoseconds. *)
Record PoolScaler : Set := mkScaler {
  last_scale_at : Z;
  scale_cooldown : Z;
  current_target : Z;
}.

Inductive DemandSignal : Set := DHigh | DNormal | DLow.
Inductive ScaleResult : Set :=
| ScaledUp (new_target : Z)
| ScaledDown (new_target : Z)
| CooldownRemaining
| NoAction.

(** The counters of [struct PoolState]. *)
Record Totals : Set := mkTotals {
  total_acquires : Z;
  total_releases : Z;
  total_evictions : Z;
  total_health_checks : Z;
  failed_health_checks : Z;
}.

(** [struct PoolState], with the permits of [ConnectionPool::connection_semaphore]. *)
Record PoolState : Type := mkPool {
  pool_id : string;
  connections : gmap ConnectionId PooledConnection;
  idle_connections : list ConnectionId;
  checked_out_connections : gmap ConnectionId ConnectionId;
  pending_acquires : list WaitHandle;
  config : PoolConfig;
  circuit_breaker : CircuitBreaker;
  scaler : PoolScaler;
  totals : Totals;
  is_shutting_down : bool;
  connection_permits : Z;
}.

Definition set_conns (cs : gmap ConnectionId PooledConnection) (idle : list ConnectionId)
    (out : gmap ConnectionId ConnectionId) (p : PoolState) : PoolState :=
  mkPool (pool_id p) cs idle out (pending_acquires p) (config p) (circuit_breaker p) (scaler p)
    (totals p) (is_shutting_down p) (connection_permits p).
Definition set_pending (l : list WaitHandle) (p : PoolState) : PoolState :=
  mkPool (pool_id p) (connections p) (idle_connections p) (checked_out_connections p) l (config p)
    (circuit_breaker p) (scaler p) (totals p) (is_shutting_down p) (connection_permits p).
Definition set_breaker (b : CircuitBreaker) (p : PoolState) : PoolState :=
  mkPool (pool_id p) (connections p) (idle_connections p) (checked_out_connections p)
    (pending_acquires p) (config p) b (scaler p) (totals p) (is_shutting_down p) (connection_permits p).
Definition set_scaler (s : PoolScaler) (p : PoolState) : PoolState :=
  mkPool (pool_id p) (connections p) (idle_connections p) (checked_out_connections p)
    (pending_acquires p) (config p) (circuit_breaker p) s (totals p) (is_shutting_down p)
    (connection_permits p).
Definition set_totals (t : Totals) (p : PoolState) : PoolState :=
  mkPool (pool_id p) (connections p) (idle_connections p) (checked_out_connections p)
    (pending_acquires p) (config p) (circuit_breaker p) (scaler p) t (is_shutting_down p)
    (connection_permits p).
Definition add_permit (p : PoolState) : PoolState :=
  mkPool (pool_id p) (connections p) (idle_connections p) (checked_out_connections p)
    (pending_acquires p) (config p) (circuit_breaker p) (scaler p) (totals p) (is_shutting_down p)
    (connection_permits p + 1).

Definition count_acquire (t : Totals) : Totals :=
  mkTotals (as_u64 (total_acquires t + 1)) (total_releases t) (total_evictions t)
    (total_health_checks t) (failed_health_checks t).
Definition count_release (t : Totals) : Totals :=
  mkTotals (total_acquires t) (as_u64 (total_releases t + 1)) (total_evictions t)
    (total_health_checks t) (failed_health_checks t).
Definition count_eviction (t : Totals) : Totals :=
  mkTotals (total_acquires t) (total_releases t) (as_u64 (total_evictions t + 1))
    (total_health_checks t) (failed_health_checks t).
Definition count_check (t : Totals) : Totals :=
  mkTotals (total_acquires t) (total_releases t) (total_evictions t)
    (as_u64 (total_health_checks t + 1)) (failed_health_checks t).
Definition count_failed_check (t : Totals) : Totals :=
  mkTotals (total_acquires t) (total_releases t) (total_evictions t)
    (total_health_checks t) (as_u64 (failed_health_checks t + 1)).

(** [ConnectionPool::new]; [None] is its panic. *)
Definition pool_new (id : string) (c : PoolConfig) (instant : Z) : option PoolState :=
  match validate_config c with
  | Err _ => None
  | Ok _ =>
      Some (mkPool id ∅ [] ∅ [] c breaker_new (mkScaler instant 5000000000 (min_connections c))
              (mkTotals 0 0 0 0 0) false 0)
  end.

(** [PoolState::idle_count], [checked_out_count], [total_connections]: [len() as u32]. *)
Definition idle_count (p : PoolState) : Z := as_u32 (Z.of_nat (length (idle_connections p))).
Definition checked_out_count (p : PoolState) : Z := as_u32 (Z.of_nat (size (checked_out_connections p))).
Definition total_connections (p : PoolState) : Z := as_u32 (Z.of_nat (size (connections p))).

(** [PoolState::can_acquire] and [should_create_connection]. *)
Definition can_acquire (p : PoolState) : bool :=
  negb (is_shutting_down p) && should_allow_request (circuit_breaker p) && (0 <? idle_count p).
Definition should_create_connection (p : PoolState) : bool :=
  (total_connections p <? max_connections (config p)) && (idle_count p =? 0)
  && negb (is_shutting_down p).

(** [ConnectionPool::create_connection], with the new identifier. *)
Definition create_connection (now id : Z) (p : PoolState) : bool * PoolState :=
  if max_connections (config p) <=? total_connections p then (false, p)
  else if is_shutting_down p then (false, p)
  else
    let pooled := with_status (PooledConnection_new id now) Idle in
    (true, set_conns (<[id := pooled]> (connections p)) (idle_connections p ++ [id])
             (checked_out_connections p) p).

(** [(target as f64 * 0.8) as u32] and [(target as f64 * 0.5) as u32]. *)
Definition demand_threshold (target : Z) : Z := u32_of_f64 (f64_mul (f64_of target) f64_0_8).
Definition idle_threshold (target : Z) : Z := u32_of_f64 (f64_mul (f64_of target) f64_0_5).

(** [ConnectionPool::try_scale] at an instant, with the identifier of a new connection. *)
Definition try_scale (instant now id : Z) (d : DemandSignal) (p : PoolState) : ScaleResult * PoolState :=
  let s := scaler p in
  if saturating_sub instant (last_scale_at s) <? scale_cooldown s then (CooldownRemaining, p) else
  let pending_count := as_u32 (Z.of_nat (length (pending_acquires p))) in
  let target := current_target s in
  match d with
  | DHigh =>
      if max_connections (config p) <=? target then (NoAction, p) else
      let demand := as_u32 (idle_count p + pending_count) in
      if demand_threshold target <? demand then
        let new_target := as_u32 (target + 1) in
        let p := set_scaler (mkScaler instant (scale_cooldown s) new_target) p in
        let (_, p) := create_connection now id p in
        (ScaledUp new_target, p)
      else (NoAction, p)
  | DLow =>
      if target <=? min_connections (config p) then (NoAction, p) else
      if idle_threshold target <? idle_count p then
        let new_target := target - 1 in
        (ScaledDown new_target, set_scaler (mkScaler instant (scale_cooldown s) new_target) p)
      else (NoAction, p)
  | DNormal => (NoAction, p)
  end.

(** What a call to [acquire] takes from outside: the instant, the time, and the identifiers
    of the connection a scaling creates, of a new connection and of the check-out. *)
Record AcquireEnv : Set := mkEnv {
  env_instant : Z;
  env_now : Z;
  scale_id : ConnectionId;
  new_id : ConnectionId;
  checkout_id : ConnectionId;
}.

(** [ConnectionPool::acquire_with_timeout], in the parts after the scaling: the checks, an
    idle connection, a new connection, waiting. The timeout is not used. *)
Definition take_idle (env : AcquireEnv) (p : PoolState) : option AcquireResult * PoolState :=
  match idle_connections p with
  | [] => (None, p)
  | conn_id :: idle =>
      match connections p !! conn_id with
      | None => (None, set_conns (connections p) idle (checked_out_connections p) p)
      | Some conn =>
          let conn := increment_use_count (with_status conn CheckedOut) in
          (Some (Available conn),
           set_totals (count_acquire (totals p))
             (set_conns (<[conn_id := conn]> (connections p)) idle
                (<[checkout_id env := conn_id]> (checked_out_connections p)) p))
      end
  end.
Definition create_or_wait (env : AcquireEnv) (p : PoolState) : AcquireResult * PoolState :=
  if total_connections p <? max_connections (config p) then
    let pooled := with_status (PooledConnection_new (new_id env) (env_now env)) CheckedOut in
    (Available pooled,
     set_totals (count_acquire (totals p))
       (set_conns (<[new_id env := pooled]> (connections p)) (idle_connections p)
          (<[checkout_id env := new_id env]> (checked_out_connections p)) p))
  else if max_pending_acquires (config p) <=? Z.of_nat (length (pending_acquires p)) then
    (PoolExhausted (config p), p)
  else
    let h := mkWaitHandle (as_u64 (Z.of_nat (length (pending_acquires p)) + 1)) (env_now env) (pool_id p) in
    (Pending h, set_pending (pending_acquires p ++ [h]) p).
Definition acquire_with_timeout (env : AcquireEnv) (p : PoolState) : AcquireResult * PoolState :=
  let (_, p) := try_scale (env_instant env) (env_now env) (scale_id env) DHigh p in
  if is_shutting_down p then (PoolClosing, p)
  else if negb (should_allow_request (circuit_breaker p)) then (PoolExhausted (config p), p)
  else
    match take_idle env p with
    | (Some r, p) => (r, p)
    | (None, p) => create_or_wait env p
    end.

(** [ConnectionPool::evict_connection]. *)
Definition evict_connection (now : Z) (id : ConnectionId) (reason : EvictionReason) (p : PoolState)
  : ReleaseResult * PoolState :=
  let out := base.filter (fun kv => kv.2 <> id) (checked_out_connections p) in
  let p := set_conns (connections p) (idle_connections p) out p in
  match connections p !! id with
  | None => (AlreadyClosed, p)
  | Some _ =>
      let p := set_totals (count_eviction (totals p)) p in
      let p := set_conns (delete id (connections p))
                 (base.filter (fun i => i <> id) (idle_connections p)) out p in
      let p := match reason with
               | HealthCheckFailed _ => set_breaker (record_failure now (circuit_breaker p)) p
               | _ => p
               end in
      (Evicted reason, p)
  end.

(** [ConnectionPool::release]; [new_checkout] is the identifier of a check-out for a waiter. *)
Definition find_checkout (id : ConnectionId) (out : gmap ConnectionId ConnectionId)
  : option ConnectionId :=
  fst <$> head (base.filter (fun kv : Z * Z => kv.2 = id) (map_to_list out)).
Definition release (now : Z) (new_checkout id : ConnectionId) (p : PoolState)
  : ReleaseResult * PoolState :=
  if is_shutting_down p then evict_connection now id ExplicitEviction p else
  match find_checkout id (checked_out_connections p) with
  | None => (AlreadyClosed, p)
  | Some checkout =>
      let out := delete checkout (checked_out_connections p) in
      let p := set_conns (connections p) (idle_connections p) out p in
      match connections p !! id with
      | None => (AlreadyClosed, p)
      | Some conn =>
          match pending_acquires p with
          | waiter :: pending =>
              let conn := increment_use_count (with_status conn CheckedOut) in
              (Returned,
               add_permit
                 (set_pending pending
                    (set_conns (<[id := conn]> (connections p)) (idle_connections p)
                       (<[new_checkout := id]> out) p)))
          | [] =>
              (Returned,
               set_totals (count_release (totals p))
                 (set_conns (<[id := with_status conn Idle]> (connections p))
                    (idle_connections p ++ [id]) out p))
          end
      end
  end.

(** [ConnectionPool::health_check_connection]. *)
Definition eviction_reason (r : HealthCheckResult) : EvictionReason :=
  match r with
  | HStale | Healthy => IdleTimeout
  | Timeout => HealthCheckFailed Timeout
  | Corrupted => HealthCheckFailed Corrupted
  end.
Definition health_check_connection (now : Z) (id : ConnectionId) (p : PoolState) : bool * PoolState :=
  match connections p !! id with
  | None => (true, p)
  | Some conn =>
      let r := check_connection (last_used_at conn) (idle_timeout_ms (config p)) now in
      let p := set_totals (count_check (totals p)) p in
      match r with
      | Healthy => (true, p)
      | _ =>
          let p := set_totals (count_failed_check (totals p)) p in
          (false, (evict_connection now id (eviction_reason r) p).2)
      end
  end.

(** [ConnectionPool::shutdown]; the keys in some order. *)
Definition shutdown (now : Z) (p : PoolState) : PoolState :=
  let p := mkPool (pool_id p) (connections p) [] (checked_out_connections p) (pending_acquires p)
             (config p) (circuit_breaker p) (scaler p) (totals p) true (connection_permits p) in
  let p := fold_left (fun p id => (evict_connection now id ExplicitEviction p).2)
             (map_to_list (connections p)).*1 p in
  set_pending [] (set_conns ∅ (idle_connections p) ∅ p).

(** ** Calls *)

(** The operations of the pool, with what each takes from outside. *)
Inductive PoolCall : Set :=
| CAcquire (env : AcquireEnv)
| CRelease (now new_checkout id : Z)
| CEvict (now id : Z) (reason : EvictionReason)
| CHealthCheck (now id : Z)
| CCreate (now id : Z)
| CScale (instant now id : Z) (d : DemandSignal)
| CShutdown (now : Z).

Inductive PoolAnswer : Set :=
| AAcquired (r : AcquireResult)
| AReleased (r : ReleaseResult)
| AChecked (ok : bool)
| ACreated (ok : bool)
| AScaled (r : ScaleResult)
| ADone.

Definition pool_call (c : PoolCall) (p : PoolState) : PoolAnswer * PoolState :=
  match c with
  | CAcquire env => let (r, p) := acquire_with_timeout env p in (AAcquired r, p)
  | CRelease now new_checkout id => let (r, p) := release now new_checkout id p in (AReleased r, p)
  | CEvict now id reason => let (r, p) := evict_connection now id reason p in (AReleased r, p)
  | CHealthCheck now id => let (b, p) := health_check_connection now id p in (AChecked b, p)
  | CCreate now id => let (b, p) := create_connection now id p in (ACreated b, p)
  | CScale instant now id d => let (r, p) := try_scale instant now id d p in (AScaled r, p)
  | CShutdown now => (ADone, shutdown now p)
  end.

Fixpoint pool_calls (cs : list PoolCall) (p : PoolState) : list (PoolCall * PoolAnswer) * PoolState :=
  match cs with
  | [] => ([], p)
  | c :: cs =>
      let (x, p) := pool_call c p in
      let (tr, p) := pool_calls cs p in ((c, x) :: tr, p)
  end.

(** The identifiers a call draws. *)
Definition call_ids (c : PoolCall) : list ConnectionId :=
  match c with
  | CAcquire env => [scale_id env; new_id env; checkout_id env]
  | CRelease _ k _ => [k]
  | CCreate _ id => [id]
  | CScale _ _ id _ => [id]
  | _ => []
  end.

(** The connections that clients hold after a trace that starts with [h] held: those that an
    [acquire] answered with, until they are released or evicted. *)
Definition held_after (h : gset ConnectionId) (e : PoolCall * PoolAnswer) : gset ConnectionId :=
  match e with
  | (CAcquire _, AAcquired (Available c)) => {[connection_id c]} ∪ h
  | (CRelease _ _ id, _) => h ∖ {[id]}
  | (CEvict _ id _, _) => h ∖ {[id]}
  | (CHealthCheck _ id, AChecked false) => h ∖ {[id]}
  | (CShutdown _, _) => ∅
  | _ => h
  end.

(** No [acquire] of the trace answers with a connection that is held. *)
Fixpoint exclusive (h : gset ConnectionId) (tr : list (PoolCall * PoolAnswer)) : Prop :=
  match tr with
  | [] => True
  | e :: tr =>
      match e with
      | (CAcquire _, AAcquired (Available c)) => connection_id c ∉ h
      | _ => True
      end /\ exclusive (held_after h e) tr
  end.

(** ** The invariant *)

Definition has_status (p : PoolState) (s : ConnectionStatus) (id : ConnectionId) : Prop :=
  exists c, connections p !! id = Some c /\ conn_status c = s.

Definition checked_out (p : PoolState) (id : ConnectionId) : Prop :=
  exists k, checked_out_connections p !! k = Some id.

Record pool_inv (p : PoolState) : Prop := {
  pi_ids : forall id c, connections p !! id = Some c -> connection_id c = id;
  pi_status : forall id c, connections p !! id = Some c -> conn_status c = Idle \/ conn_status c = CheckedOut;
  pi_nodup : NoDup (idle_connections p);
  pi_idle : forall id, id ∈ idle_connections p <-> has_status p Idle id;
  pi_out : forall id, checked_out p id <-> has_status p CheckedOut id;
  pi_inj : forall k k' id, checked_out_connections p !! k = Some id ->
             checked_out_connections p !! k' = Some id -> k = k';
  pi_max : Z.of_nat (size (connections p)) <= max_connections (config p);
  pi_pending : Z.of_nat (length (pending_acquires p)) <= max_pending_acquires (config p);
  pi_config : max_connections (config p) <= u32_max;
}.

(** Only the connections, the two lists of them, the waiters and the configuration matter. *)
Lemma pool_inv_ext p q :
  connections p = connections q -> idle_connections p = idle_connections q ->
  checked_out_connections p = checked_out_connections q ->
  Z.of_nat (length (pending_acquires q)) <= Z.of_nat (length (pending_acquires p)) ->
  config p = config q -> pool_inv p -> pool_inv q.
Proof.
  intros Hc Hi Ho Hp Hg [H1 H2 H3 H4 H5 H6 H7 H8 H9].
  unfold has_status, checked_out in *. split; rewrite <- ?Hc, <- ?Hi, <- ?Ho, <- ?Hg; try done.
  - unfold has_status. by rewrite <- Hc.
  - unfold has_status, checked_out. by rewrite <- Hc, <- Ho.
  - lia.
Qed.

(** The connections are the idle ones and those checked out, each once. *)
Lemma pool_partition p :
  pool_inv p ->
  (map_to_list (connections p)).*1 ≡ₚ idle_connections p ++ (map_to_list (checked_out_connections p)).*2.
Proof.
  intros [_ Hst Hnd Hid Ho Hinj _ _ _].
  assert (forall id, id ∈ (map_to_list (checked_out_connections p)).*2 <-> checked_out p id) as Hv.
  { intros id. rewrite list_elem_of_fmap. split.
    - intros ([k v] & -> & Hk%elem_of_map_to_list). by exists k.
    - intros [k Hk]. exists (k, id). by rewrite elem_of_map_to_list. }
  apply NoDup_Permutation.
  - apply NoDup_fst_map_to_list.
  - apply NoDup_app. split; [done|]. split.
    + intros id (c & Hc & Hs)%Hid Hout%Hv%Ho. destruct Hout as (c' & Hc' & Hs'). congruence.
    + apply NoDup_fmap_2_strong; [|apply NoDup_map_to_list].
      intros [k v] [k' v'] H1%elem_of_map_to_list H2%elem_of_map_to_list E. cbn in E. subst v'.
      by rewrite (Hinj k k' v).
  - intros id. rewrite elem_of_app, Hv, Hid, Ho, list_elem_of_fmap. split.
    + intros ([i c] & -> & Hc%elem_of_map_to_list). cbn.
      destruct (Hst _ _ Hc) as [Hs|Hs]; [left|right]; by exists c.
    + intros [(c & Hc & _)|(c & Hc & _)]; exists (id, c); by rewrite elem_of_map_to_list.
Qed.

Lemma pool_count p :
  pool_inv p ->
  size (connections p) = (length (idle_connections p) + size (checked_out_connections p))%nat.
Proof.
  intros H%pool_partition%Permutation_length. rewrite length_app, !length_fmap in H.
  by rewrite !length_map_to_list in H.
Qed.

(** A connection enters, idle or checked out. *)
Lemma has_status_insert p idle out s id c id' :
  has_status (set_conns (<[id := c]> (connections p)) idle out p) s id' <->
  (id' = id /\ conn_status c = s) \/ (id' <> id /\ has_status p s id').
Proof.
  unfold has_status; cbn. destruct (decide (id' = id)) as [ ->|Hne].
  - rewrite lookup_insert_eq. naive_solver.
  - rewrite lookup_insert_ne by done. naive_solver.
Qed.

Lemma checked_out_insert p cs idle k id id' :
  checked_out_connections p !! k = None ->
  checked_out (set_conns cs idle (<[k := id]> (checked_out_connections p)) p) id' <->
  id' = id \/ checked_out p id'.
Proof.
  intros Hk. unfold checked_out; cbn. split.
  - intros [k' [[-> ->]|[_ ?]]%lookup_insert_Some]; [by left|right; by exists k'].
  - intros [ ->|[k' Hk']]; [exists k; by rewrite lookup_insert_eq|].
    exists k'. rewrite lookup_insert_ne; [done|]. intros ->. congruence.
Qed.

Lemma checked_out_delete p cs idle k id id' :
  (forall k k' id, checked_out_connections p !! k = Some id ->
     checked_out_connections p !! k' = Some id -> k = k') ->
  checked_out_connections p !! k = Some id ->
  checked_out (set_conns cs idle (delete k (checked_out_connections p)) p) id' <->
  id' <> id /\ checked_out p id'.
Proof.
  intros Hinj Hk. unfold checked_out; cbn. split.
  - intros [k' [Hne Hk']%lookup_delete_Some]. split; [|by exists k'].
    intros ->. by destruct Hne; eapply Hinj.
  - intros [Hne [k' Hk']]. exists k'. apply lookup_delete_Some. split; [|done]. intros ->. congruence.
Qed.

Lemma total_connections_exact p : pool_inv p -> total_connections p = Z.of_nat (size (connections p)).
Proof. intros [_ _ _ _ _ _ H _ H']. unfold total_connections, as_u32. apply Z.mod_small. ulia. Qed.

Lemma inv_add_idle p id c :
  pool_inv p -> connections p !! id = None -> connection_id c = id -> conn_status c = Idle ->
  Z.of_nat (size (connections p)) < max_connections (config p) ->
  pool_inv (set_conns (<[id := c]> (connections p)) (idle_connections p ++ [id])
              (checked_out_connections p) p).
Proof.
  intros Hinv Hn Hid Hs Hmax. pose proof Hinv as [H1 H2 H3 H4 H5 H6 H7 H8 H9].
  assert (forall s, ~ has_status p s id) as Hno by (intros s (c' & Hc' & _); congruence).
  split; cbn; try done.
  - intros i c' [[<- <-]|[_ ?]]%lookup_insert_Some; auto.
  - intros i c' [[<- <-]|[_ ?]]%lookup_insert_Some; eauto.
  - apply NoDup_app. split; [done|]. split; [|apply NoDup_singleton].
    intros i Hi ->%list_elem_of_singleton. by apply H4, Hno in Hi.
  - intros i. rewrite has_status_insert, elem_of_app, H4, list_elem_of_singleton.
    split; [intros [Hi| ->]; [right|by left]|intros [[-> _]|[_ ?]]; auto].
    split; [|done]. intros ->. by eapply Hno.
  - intros i. rewrite has_status_insert. change (checked_out p i <-> (i = id /\ conn_status c = CheckedOut) \/ (i <> id /\ has_status p CheckedOut i)).
    rewrite H5. split; [|intros [[_ ?]|[_ ?]]; congruence || done].
    intros Hi. right. split; [|done]. intros ->. by eapply Hno.
  - rewrite map_size_insert, Hn. lia.
Qed.

Lemma inv_add_out p id k c :
  pool_inv p -> connections p !! id = None -> checked_out_connections p !! k = None ->
  connection_id c = id -> conn_status c = CheckedOut ->
  Z.of_nat (size (connections p)) < max_connections (config p) ->
  pool_inv (set_conns (<[id := c]> (connections p)) (idle_connections p)
              (<[k := id]> (checked_out_connections p)) p).
Proof.
  intros Hinv Hn Hk Hid Hs Hmax. pose proof Hinv as [H1 H2 H3 H4 H5 H6 H7 H8 H9].
  assert (forall s, ~ has_status p s id) as Hno by (intros s (c' & Hc' & _); congruence).
  assert (~ checked_out p id) as Hnout by (intros ?%H5%Hno; done).
  split; cbn; try done.
  - intros i c' [[<- <-]|[_ ?]]%lookup_insert_Some; auto.
  - intros i c' [[<- <-]|[_ ?]]%lookup_insert_Some; eauto.
  - intros i. rewrite has_status_insert, H4.
    split; [|intros [[_ ?]|[_ ?]]; congruence || done].
    intros Hi. right. split; [|done]. intros ->. by eapply Hno.
  - intros i. rewrite has_status_insert, checked_out_insert, H5 by done.
    split; [intros [ ->|Hi]; [by left|right]|intros [[-> _]|[_ ?]]; auto].
    split; [|done]. intros ->. by eapply Hno.
  - intros k1 k2 i [[<- <-]|[Hn1 E1]]%lookup_insert_Some [[<- E]|[Hn2 E2]]%lookup_insert_Some;
      [done|..|by eapply H6]; destruct Hnout; [by exists k2|subst; by exists k1].
  - rewrite map_size_insert, Hn. lia.
Qed.

(** A connection changes hands: from idle to checked out and back. *)
Lemma inv_take_idle p id rest k c :
  pool_inv p -> idle_connections p = id :: rest -> checked_out_connections p !! k = None ->
  connection_id c = id -> conn_status c = CheckedOut ->
  pool_inv (set_conns (<[id := c]> (connections p)) rest (<[k := id]> (checked_out_connections p)) p).
Proof.
  intros Hinv Hidle Hk Hid Hs. pose proof Hinv as [H1 H2 H3 H4 H5 H6 H7 H8 H9].
  assert (has_status p Idle id) as Hold by (apply H4; rewrite Hidle; left).
  assert (~ checked_out p id) as Hnout.
  { intros (c2 & E2 & S2)%H5. destruct Hold as (c1 & E1 & S1). congruence. }
  rewrite Hidle in H3. apply NoDup_cons in H3 as [Hni H3].
  split; cbn; try done.
  - intros i c' [[<- <-]|[_ ?]]%lookup_insert_Some; auto.
  - intros i c' [[<- <-]|[_ ?]]%lookup_insert_Some; eauto.
  - intros i. rewrite has_status_insert. specialize (H4 i). rewrite Hidle in H4. split.
    + intros Hi. right. split; [by intros ->|]. apply H4. by right.
    + intros [[_ ?]|[Hne Hi]]; [congruence|]. apply H4 in Hi. by apply elem_of_cons in Hi as [?|?].
  - intros i. rewrite has_status_insert, checked_out_insert, H5 by done.
    split; [intros [ ->|Hi]; [by left|]|intros [[-> _]|[_ ?]]; auto].
    destruct (decide (i = id)) as [ ->|Hne]; [by left|by right].
  - intros k1 k2 i [[<- <-]|[Hn1 E1]]%lookup_insert_Some [[<- E]|[Hn2 E2]]%lookup_insert_Some;
      [done|..|by eapply H6]; destruct Hnout; [by exists k2|subst; by exists k1].
  - destruct Hold as (c0 & E0 & _). rewrite map_size_insert, E0. exact H7.
Qed.

Lemma inv_give_back p id k c :
  pool_inv p -> checked_out_connections p !! k = Some id ->
  connection_id c = id -> conn_status c = Idle ->
  pool_inv (set_conns (<[id := c]> (connections p)) (idle_connections p ++ [id])
              (delete k (checked_out_connections p)) p).
Proof.
  intros Hinv Hk Hid Hs. pose proof Hinv as [H1 H2 H3 H4 H5 H6 H7 H8 H9].
  assert (has_status p CheckedOut id) as Hold by (apply H5; by exists k).
  assert (id ∉ idle_connections p) as Hni.
  { intros (c2 & E2 & S2)%H4. destruct Hold as (c1 & E1 & S1). congruence. }
  split; cbn; try done.
  - intros i c' [[<- <-]|[_ ?]]%lookup_insert_Some; auto.
  - intros i c' [[<- <-]|[_ ?]]%lookup_insert_Some; eauto.
  - apply NoDup_app. split; [done|]. split; [|apply NoDup_singleton].
    by intros i Hi ->%list_elem_of_singleton.
  - intros i. rewrite has_status_insert, elem_of_app, H4, list_elem_of_singleton.
    destruct (decide (i = id)) as [ ->|Hne]; naive_solver.
  - intros i. rewrite has_status_insert, (checked_out_delete p _ _ k id) by done. rewrite H5.
    destruct (decide (i = id)) as [ ->|Hne]; [|naive_solver].
    split; [by intros [? _]|]. intros [[_ ?]|[? _]]; [congruence|done].
  - intros k1 k2 i [_ E1]%lookup_delete_Some [_ E2]%lookup_delete_Some. by eapply H6.
  - destruct Hold as (c0 & E0 & _). rewrite map_size_insert, E0. exact H7.
Qed.

Lemma inv_hand_over p id k k' c :
  pool_inv p -> checked_out_connections p !! k = Some id -> checked_out_connections p !! k' = None ->
  connection_id c = id -> conn_status c = CheckedOut ->
  pool_inv (set_conns (<[id := c]> (connections p)) (idle_connections p)
              (<[k' := id]> (delete k (checked_out_connections p))) p).
Proof.
  intros Hinv Hk Hk' Hid Hs. pose proof Hinv as [H1 H2 H3 H4 H5 H6 H7 H8 H9].
  assert (has_status p CheckedOut id) as Hold by (apply H5; by exists k).
  set (out := delete k (checked_out_connections p)).
  assert (out !! k' = None) as Hn.
  { unfold out. apply eq_None_not_Some. intros [v [_ E]%lookup_delete_Some]. congruence. }
  assert (forall i j, out !! j = Some i -> i <> id).
  { intros i j [Hne E]%lookup_delete_Some ->. apply Hne. by eapply H6. }
  split; cbn; try done.
  - intros i c' [[<- <-]|[_ ?]]%lookup_insert_Some; auto.
  - intros i c' [[<- <-]|[_ ?]]%lookup_insert_Some; eauto.
  - intros i. rewrite has_status_insert, H4.
    destruct (decide (i = id)) as [ ->|Hne]; [|naive_solver].
    split; [|intros [[_ ?]|[? _]]; congruence || done].
    intros (c1 & E1 & S1). destruct Hold as (c2 & E2 & S2). congruence.
  - intros i. rewrite has_status_insert.
    rewrite (checked_out_insert (set_conns (connections p) (idle_connections p) out p) _ _ k' id i Hn).
    unfold out. rewrite (checked_out_delete p _ _ k id) by done. rewrite H5.
    destruct (decide (i = id)) as [ ->|Hne]; naive_solver.
  - intros k1 k2 i [[<- <-]|[Hn1 E1]]%lookup_insert_Some [[<- E]|[Hn2 E2]]%lookup_insert_Some;
      [done|..]; [naive_solver..|].
    apply lookup_delete_Some in E1 as [_ E1], E2 as [_ E2]. by eapply H6.
  - destruct Hold as (c0 & E0 & _). rewrite map_size_insert, E0. exact H7.
Qed.

(** A connection leaves. *)
Lemma inv_remove p id :
  pool_inv p ->
  pool_inv (set_conns (delete id (connections p)) (base.filter (fun i => i <> id) (idle_connections p))
              (base.filter (fun kv => kv.2 <> id) (checked_out_connections p)) p).
Proof.
  intros [H1 H2 H3 H4 H5 H6 H7 H8 H9].
  assert (forall s i, has_status (set_conns (delete id (connections p))
      (base.filter (fun i => i <> id) (idle_connections p))
      (base.filter (fun kv => kv.2 <> id) (checked_out_connections p)) p) s i
      <-> i <> id /\ has_status p s i) as Hst.
  { intros s i. unfold has_status; cbn. setoid_rewrite lookup_delete_Some. naive_solver. }
  split; cbn; try done.
  - intros i c [_ E]%lookup_delete_Some. by apply H1.
  - intros i c [_ E]%lookup_delete_Some. by eapply H2.
  - by apply NoDup_filter.
  - intros i. by rewrite Hst, list_elem_of_filter, H4.
  - intros i. rewrite Hst, <- H5. unfold checked_out; cbn. setoid_rewrite map_lookup_filter_Some. naive_solver.
  - intros k k' i [E _]%map_lookup_filter_Some [E' _]%map_lookup_filter_Some. by eapply H6.
  - pose proof (map_size_delete id (connections p)) as ->. destruct (connections p !! id); cbn; lia.
Qed.

(** Checking out ends for a connection that is not there. *)
Lemma inv_drop_out p id :
  pool_inv p -> connections p !! id = None ->
  base.filter (fun kv => kv.2 <> id) (checked_out_connections p) = checked_out_connections p.
Proof.
  intros [H1 H2 H3 H4 H5 H6 H7 H8 H9] Hn. apply map_filter_id. intros k i E Hi. cbn in Hi. subst i.
  destruct (proj1 (H5 id)) as (c & Hc & _); [by exists k|congruence].
Qed.

(** ** Every operation keeps the invariant *)

(** What holds of the pool after a call that may draw the identifiers [ids]. *)
Record extends (ids : list ConnectionId) (p q : PoolState) : Prop := {
  ext_inv : pool_inv q;
  ext_conns : dom (connections q) ⊆ dom (connections p) ∪ list_to_set ids;
  ext_outs : dom (checked_out_connections q) ⊆ dom (checked_out_connections p) ∪ list_to_set ids;
}.

Definition unused (p : PoolState) (id : ConnectionId) : Prop :=
  connections p !! id = None /\ checked_out_connections p !! id = None.

Lemma extends_refl ids p : pool_inv p -> extends ids p p.
Proof. intros H. split; [done|set_solver..]. Qed.

Lemma filter_in_all {A} (P : A -> Prop) `{!forall x, Decision (P x)} (l : list A) :
  (forall x, x ∈ l -> P x) -> base.filter P l = l.
Proof.
  induction l as [|x l IH]; intros HP; [done|]. rewrite filter_cons, IH by (intros; apply HP; by right).
  by rewrite decide_True by (apply HP; left).
Qed.

Lemma evict_connection_spec now id reason p r q :
  pool_inv p -> evict_connection now id reason p = (r, q) ->
  extends [] p q /\ ~ checked_out q id /\ config q = config p /\ is_shutting_down q = is_shutting_down p /\
  idle_connections q = base.filter (fun i => i <> id) (idle_connections p) /\
  connections q = delete id (connections p) /\
  (forall i, checked_out q i <-> i <> id /\ checked_out p i) /\
  pending_acquires q = pending_acquires p.
Proof.
  intros Hinv. unfold evict_connection; cbn.
  assert (forall q, checked_out_connections q
      = base.filter (fun kv => kv.2 <> id) (checked_out_connections p) ->
    forall i, checked_out q i <-> i <> id /\ checked_out p i) as Hout.
  { intros q' Hq i. unfold checked_out. rewrite Hq. setoid_rewrite map_lookup_filter_Some. naive_solver. }
  destruct (connections p !! id) as [c|] eqn:Hc.
  - intros [= <- <-]. pose proof (inv_remove p id Hinv) as Hrem.
    assert (forall b t, extends [] p (set_breaker b (set_conns (delete id (connections p))
        (base.filter (fun i => i <> id) (idle_connections p))
        (base.filter (fun kv => kv.2 <> id) (checked_out_connections p)) (set_totals t p)))) as He.
    { intros b t. split; cbn.
      - by eapply pool_inv_ext; [..|exact Hrem].
      - rewrite dom_delete_L. set_solver.
      - pose proof (dom_filter_subseteq (fun kv : Z * Z => kv.2 <> id) (checked_out_connections p)). set_solver. }
    assert (forall i, checked_out (set_conns (delete id (connections p))
        (base.filter (fun i => i <> id) (idle_connections p))
        (base.filter (fun kv => kv.2 <> id) (checked_out_connections p)) p) i <-> i <> id /\ checked_out p i)
      as Ho by (by apply Hout).
    destruct reason; (split; [first [apply He|destruct (He (circuit_breaker p) (count_eviction (totals p))) as [Hi1 Hi2 Hi3];
      split; [by eapply pool_inv_ext; [..|exact Hi1]|exact Hi2|exact Hi3]]|]);
      (split; [intros [? _]%Ho; done|]); done.
  - intros [= <- <-]. rewrite (inv_drop_out p id Hinv Hc) in *. cbn.
    assert (forall i, checked_out p i -> i <> id) as Hno.
    { intros i Hi ->. apply (pi_out p Hinv) in Hi as (c & E & _). congruence. }
    split; [split; [by eapply pool_inv_ext; [..|exact Hinv]|set_solver..]|].
    split_and!; try done.
    + intros ?%Hno. done.
    + rewrite filter_in_all; [done|]. intros i (c & E & _)%(pi_idle p Hinv) ->. congruence.
    + by rewrite delete_id.
    + intros i. split; [intros Hi; split; [by apply Hno|done]|by intros [_ ?]].
Qed.

(** Nothing that is checked out changes. *)
Definition same_out (p q : PoolState) : Prop := forall i, checked_out p i -> checked_out q i.

Lemma create_spec now id p b q :
  pool_inv p -> unused p id -> create_connection now id p = (b, q) ->
  extends [id] p q /\ config q = config p /\ is_shutting_down q = is_shutting_down p /\
  circuit_breaker q = circuit_breaker p /\
  checked_out_connections q = checked_out_connections p.
Proof.
  intros Hinv [Hn _]. unfold create_connection. rewrite total_connections_exact by done.
  destruct (Z.leb_spec (max_connections (config p)) (Z.of_nat (size (connections p)))) as [Hm|Hm].
  { intros [= <- <-]. split; [by apply extends_refl|done]. }
  destruct (is_shutting_down p) eqn:Hsd.
  { intros [= <- <-]. split; [by apply extends_refl|done]. }
  intros [= <- <-]. split; [|done]. split; cbn; [by apply inv_add_idle| |set_solver].
  rewrite dom_insert_L. set_solver.
Qed.

Lemma scale_spec instant now id d p r q :
  pool_inv p -> unused p id -> try_scale instant now id d p = (r, q) ->
  extends [id] p q /\ config q = config p /\ is_shutting_down q = is_shutting_down p /\
  circuit_breaker q = circuit_breaker p /\
  checked_out_connections q = checked_out_connections p.
Proof.
  intros Hinv Hu. unfold try_scale.
  assert (forall s, pool_inv (set_scaler s p)) as Hs by (intros s; by eapply pool_inv_ext; [..|exact Hinv]).
  assert (forall s, extends [id] p (set_scaler s p)) as He by (intros s; split; [done|set_solver..]).
  destruct (_ <? scale_cooldown _); [intros [= <- <-]; split; [by apply extends_refl|done]|].
  destruct d; [|intros [= <- <-]; split; [by apply extends_refl|done]|].
  - destruct (_ <=? _); [intros [= <- <-]; split; [by apply extends_refl|done]|].
    destruct (_ <? _); [|intros [= <- <-]; split; [by apply extends_refl|done]].
    destruct (create_connection _ _ _) as [b q'] eqn:Hc. intros [= <- <-].
    destruct (create_spec _ _ _ _ _ (Hs _) Hu Hc) as ([H1 H2 H3] & H4 & H5 & H6 & H7).
    split; [by split|done].
  - destruct (_ <=? _); [intros [= <- <-]; split; [by apply extends_refl|done]|].
    destruct (_ <? _); intros [= <- <-]; (split; [by apply extends_refl || apply He|done]).
Qed.

(** What an [acquire] answers after the scaling. *)
Definition acquired (p q : PoolState) (r : AcquireResult) : Prop :=
  match r with
  | Available c =>
      conn_status c = CheckedOut /\ ~ checked_out p (connection_id c) /\
      forall i, checked_out q i <-> i = connection_id c \/ checked_out p i
  | _ => checked_out_connections q = checked_out_connections p
  end.

Lemma take_idle_spec env p r q :
  pool_inv p -> checked_out_connections p !! checkout_id env = None -> take_idle env p = (r, q) ->
  match r with
  | Some r => (exists c, r = Available c) /\ acquired p q r /\
      extends [scale_id env; new_id env; checkout_id env] p q
  | None => q = p /\ idle_connections p = []
  end.
Proof.
  intros Hinv Hk. unfold take_idle. destruct (idle_connections p) as [|id rest] eqn:Hi.
  { intros [= <- <-]. done. }
  assert (id ∈ idle_connections p) as Hid by (rewrite Hi; left).
  pose proof (proj1 (pi_idle p Hinv id) Hid) as (c & Hc & Hs). rewrite Hc. intros [= <- <-].
  set (c' := increment_use_count (with_status c CheckedOut)).
  assert (connection_id c' = id) as Hcid by exact (pi_ids p Hinv _ _ Hc).
  pose proof (inv_take_idle p id rest (checkout_id env) c' Hinv Hi Hk Hcid eq_refl) as Hq.
  split; [by exists c'|]. split.
  - split; [done|]. rewrite Hcid. split.
    + intros (c2 & E2 & S2)%(pi_out p Hinv). congruence.
    + intros i. exact (checked_out_insert p _ rest (checkout_id env) id i Hk).
  - split; cbn.
    + by eapply pool_inv_ext; [..|exact Hq].
    + rewrite dom_insert_L. assert (id ∈ dom (connections p)) by (apply elem_of_dom; by eexists). set_solver.
    + rewrite dom_insert_L. set_solver.
Qed.

Lemma create_or_wait_spec env p r q :
  pool_inv p -> connections p !! new_id env = None ->
  checked_out_connections p !! checkout_id env = None -> create_or_wait env p = (r, q) ->
  acquired p q r /\ extends [scale_id env; new_id env; checkout_id env] p q.
Proof.
  intros Hinv Hn Hk. unfold create_or_wait. rewrite total_connections_exact by done.
  destruct (Z.ltb_spec (Z.of_nat (size (connections p))) (max_connections (config p))) as [Hm|Hm].
  { intros [= <- <-]. set (c := with_status (PooledConnection_new (new_id env) (env_now env)) CheckedOut).
    pose proof (inv_add_out p (new_id env) (checkout_id env) c Hinv Hn Hk eq_refl eq_refl Hm) as Hq.
    split.
    - split; [done|]. cbn. split; [intros (c2 & E2 & _)%(pi_out p Hinv); congruence|].
      intros i. exact (checked_out_insert p _ (idle_connections p) (checkout_id env) (new_id env) i Hk).
    - split; cbn; [by eapply pool_inv_ext; [..|exact Hq]|rewrite dom_insert_L; set_solver..]. }
  destruct (Z.leb_spec (max_pending_acquires (config p)) (Z.of_nat (length (pending_acquires p)))) as [Hf|Hf].
  { intros [= <- <-]. split; [done|by apply extends_refl]. }
  intros [= <- <-]. split; [done|]. split; cbn; [|set_solver..].
  destruct Hinv as [H1 H2 H3 H4 H5 H6 H7 H8 H9]. split; try done. cbn. rewrite length_app. cbn. lia.
Qed.

Lemma acquire_spec env p r q :
  pool_inv p -> Forall (unused p) (call_ids (CAcquire env)) -> NoDup (call_ids (CAcquire env)) ->
  acquire_with_timeout env p = (r, q) ->
  acquired p q r /\ extends (call_ids (CAcquire env)) p q.
Proof.
  intros Hinv Hu Hnd. cbn in Hu, Hnd.
  apply Forall_cons in Hu as [Hs [Hn [Hk _]%Forall_cons]%Forall_cons].
  apply NoDup_cons in Hnd as [Hnd1 Hnd2].
  unfold acquire_with_timeout.
  destruct (try_scale _ _ _ _ _) as [sr p1] eqn:Hsc.
  destruct (scale_spec _ _ _ _ _ _ _ Hinv Hs Hsc) as ([Hi1 Hd1 Ho1] & _ & _ & _ & Hout).
  assert (connections p1 !! new_id env = None) as Hn1.
  { apply not_elem_of_dom. intros [Hx|Hx]%Hd1%elem_of_union; [|set_solver].
    apply elem_of_dom in Hx as [? Hx]. destruct Hn as [Hn _]. congruence. }
  assert (checked_out_connections p1 !! checkout_id env = None) as Hk1 by (rewrite Hout; by destruct Hk).
  assert (forall q r, acquired p1 q r -> extends [scale_id env; new_id env; checkout_id env] p1 q ->
    acquired p q r /\ extends (call_ids (CAcquire env)) p q) as Hlift.
  { intros q' r' Ha [E1 E2 E3]. split.
    - destruct r'; cbn in *; unfold checked_out in *; rewrite Hout in Ha; exact Ha.
    - split; [done|clear -E2 Hd1|clear -E3 Ho1]; cbn in *; set_solver. }
  destruct (is_shutting_down p1); [intros [= <- <-]; apply Hlift; [done|by apply extends_refl]|].
  destruct (should_allow_request (circuit_breaker p1)); cbn [negb];
    [|intros [= <- <-]; apply Hlift; [done|by apply extends_refl]].
  destruct (take_idle env p1) as [[r1|] p2] eqn:Ht;
    pose proof (take_idle_spec _ _ _ _ Hi1 Hk1 Ht) as Hspec.
  - intros [= <- <-]. destruct Hspec as (_ & Ha & He). by apply Hlift.
  - destruct Hspec as [-> _]. intros Hcw. apply Hlift; by eapply create_or_wait_spec.
Qed.

Lemma find_checkout_some id out k : find_checkout id out = Some k -> out !! k = Some id.
Proof.
  unfold find_checkout. destruct (base.filter _ _) as [|[k' v] l] eqn:Hf; [done|]. cbn. intros [= ->].
  assert ((k, v) ∈ base.filter (fun kv : Z * Z => kv.2 = id) (map_to_list out)) as Hin
    by (rewrite Hf; left).
  apply list_elem_of_filter in Hin as [Hv Hin]. cbn in Hv. subst v. by apply elem_of_map_to_list in Hin.
Qed.

Lemma find_checkout_none id p :
  find_checkout id (checked_out_connections p) = None -> ~ checked_out p id.
Proof.
  unfold find_checkout. destruct (base.filter _ _) as [|[k' v] l] eqn:Hf; [|done]. intros _ [k Hk].
  assert ((k, id) ∈ base.filter (fun kv : Z * Z => kv.2 = id) (map_to_list (checked_out_connections p))) as Hin
    by (apply list_elem_of_filter; split; [done|by apply elem_of_map_to_list]).
  rewrite Hf in Hin. by apply not_elem_of_nil in Hin.
Qed.

Lemma release_spec now k id p r q :
  pool_inv p -> unused p k -> release now k id p = (r, q) ->
  extends [k] p q /\ forall i, i <> id -> checked_out p i -> checked_out q i.
Proof.
  intros Hinv [_ Hk]. unfold release. destruct (is_shutting_down p).
  { intros He. destruct (evict_connection_spec _ _ _ _ _ _ Hinv He) as ([E1 E2 E3] & _ & _ & _ & _ & _ & Ho & _).
    split; [split; [done|set_solver..]|]. intros i Hi Hout. by apply Ho. }
  destruct (find_checkout id (checked_out_connections p)) as [k0|] eqn:Hf.
  2:{ intros [= <- <-]. split; [by apply extends_refl|done]. }
  apply find_checkout_some in Hf.
  destruct (proj1 (pi_out p Hinv id)) as (c & Hc & Hs); [by exists k0|]. cbn. rewrite Hc.
  assert (connection_id c = id) as Hcid by exact (pi_ids p Hinv _ _ Hc).
  assert (id ∈ dom (connections p)) by (apply elem_of_dom; by eexists).
  destruct (pending_acquires p) as [|w pending] eqn:Hp; intros [= <- <-].
  - pose proof (inv_give_back p id k0 (with_status c Idle) Hinv Hf Hcid eq_refl) as Hq. split.
    + split; cbn; [by eapply pool_inv_ext; [..|exact Hq]|rewrite dom_insert_L; set_solver|].
      rewrite dom_delete_L. set_solver.
    + intros i Hi [k' Hk']. exists k'. cbn. apply lookup_delete_Some. split; [|done]. intros ->. congruence.
  - pose proof (inv_hand_over p id k0 k (increment_use_count (with_status c CheckedOut)) Hinv Hf Hk Hcid eq_refl) as Hq.
    split.
    + split; cbn; [|rewrite dom_insert_L; set_solver|rewrite dom_insert_L, dom_delete_L; set_solver].
      eapply pool_inv_ext; [..|exact Hq]; cbn; [done..| |done]. rewrite Hp. cbn. lia.
    + intros i Hi [k' Hk']. exists k'. cbn. rewrite lookup_insert_ne by (intros ->; congruence).
      apply lookup_delete_Some. split; [|done]. intros ->. congruence.
Qed.

Lemma check_spec now id p b q :
  pool_inv p -> health_check_connection now id p = (b, q) ->
  extends [] p q /\ forall i, (b = false -> i <> id) -> checked_out p i -> checked_out q i.
Proof.
  intros Hinv. unfold health_check_connection. destruct (connections p !! id) as [c|].
  2:{ intros [= <- <-]. split; [by apply extends_refl|done]. }
  assert (forall t, pool_inv (set_totals t p)) as Ht by (intros t; by eapply pool_inv_ext; [..|exact Hinv]).
  destruct (check_connection _ _ _).
  { intros [= <- <-]. split; [split; [apply Ht|set_solver..]|done]. }
  all: set (t := count_failed_check _); destruct (evict_connection _ _ _ _) as [r q'] eqn:He;
    intros [= <- <-];
    destruct (evict_connection_spec _ _ _ _ _ _ (Ht t) He) as ([E1 E2 E3] & _ & _ & _ & _ & _ & Ho & _);
    (split; [by split|]); intros i Hi Hout; apply Ho; auto.
Qed.

Lemma evict_frame now id reason p :
  config (evict_connection now id reason p).2 = config p /\
  is_shutting_down (evict_connection now id reason p).2 = is_shutting_down p /\
  (idle_connections p = [] -> idle_connections (evict_connection now id reason p).2 = []).
Proof.
  unfold evict_connection; cbn. destruct (connections p !! id); [|done].
  destruct reason; cbn; (split_and!; [done..|by intros ->]).
Qed.

Lemma evict_all_frame now l p :
  let q := fold_left (fun p id => (evict_connection now id ExplicitEviction p).2) l p in
  config q = config p /\ is_shutting_down q = is_shutting_down p /\
  (idle_connections p = [] -> idle_connections q = []).
Proof.
  revert p. induction l as [|id l IH]; intros p; cbn; [done|].
  destruct (evict_frame now id ExplicitEviction p) as (H1 & H2 & H3).
  destruct (IH (evict_connection now id ExplicitEviction p).2) as (H4 & H5 & H6).
  split_and!; [congruence..|auto].
Qed.

Lemma shutdown_spec now p :
  pool_inv p ->
  extends [] p (shutdown now p) /\ is_shutting_down (shutdown now p) = true /\
  connections (shutdown now p) = ∅.
Proof.
  intros Hinv. unfold shutdown. set (p0 := mkPool _ _ _ _ _ _ _ _ _ _ _). cbn.
  destruct (evict_all_frame now (map_to_list (connections p)).*1 p0) as (H1 & H2 & H3).
  split; [|done]. split; [|cbn; set_solver..]. specialize (H3 eq_refl).
  destruct Hinv as [_ _ _ _ _ _ H7 H8 H9]. split; cbn; try done.
  - rewrite H3. constructor.
  - rewrite H3. intros id. unfold has_status; cbn. split; [by intros ?%not_elem_of_nil|].
    intros (c & Hc & _). by rewrite lookup_empty in Hc.
  - intros id. unfold has_status, checked_out; cbn. split.
    + intros (k & Hk). by rewrite lookup_empty in Hk.
    + intros (c & Hc & _). by rewrite lookup_empty in Hc.
  - rewrite H1, map_size_empty. cbn. lia.
  - rewrite H1. cbn. lia.
  - by rewrite H1.
Qed.

(** One call, for clients that hold the connections [h]. *)
Lemma pool_call_spec c p x q h :
  pool_inv p -> Forall (unused p) (call_ids c) -> NoDup (call_ids c) ->
  (forall i, i ∈ h -> checked_out p i) -> pool_call c p = (x, q) ->
  extends (call_ids c) p q /\
  match c, x with
  | CAcquire _, AAcquired (Available c) => connection_id c ∉ h
  | _, _ => True
  end /\
  forall i, i ∈ held_after h (c, x) -> checked_out q i.
Proof.
  intros Hinv Hu Hnd Hh. destruct c as [env|now k id|now id reason|now id|now id|instant now id d|now]; cbn.
  - destruct (acquire_with_timeout env p) as [r q'] eqn:Ha. intros [= <- <-].
    destruct (acquire_spec _ _ _ _ Hinv Hu Hnd Ha) as [Hr He]. split; [done|].
    destruct r as [c| | | |]; [|split; [done|]; intros i Hi%Hh; unfold checked_out; by rewrite Hr..].
    destruct Hr as (_ & Hn & Ho). split; [by intros ?%Hh|]. intros i Hi. apply Ho.
    apply elem_of_union in Hi as [->%elem_of_singleton|Hi%Hh]; [by left|by right].
  - destruct (release now k id p) as [r q'] eqn:Hr. intros [= <- <-].
    apply Forall_cons in Hu as [Hu _]. destruct (release_spec _ _ _ _ _ _ Hinv Hu Hr) as [He Ho].
    split; [done|]. split; [done|]. intros i [Hi%Hh Hne]%elem_of_difference.
    apply Ho; [|done]. intros ->. by apply Hne, elem_of_singleton.
  - destruct (evict_connection now id reason p) as [r q'] eqn:Hr. intros [= <- <-].
    destruct (evict_connection_spec _ _ _ _ _ _ Hinv Hr) as (He & _ & _ & _ & _ & _ & Ho & _).
    split; [done|]. split; [done|]. intros i [Hi%Hh Hne]%elem_of_difference.
    apply Ho. split; [|done]. intros ->. by apply Hne, elem_of_singleton.
  - destruct (health_check_connection now id p) as [b q'] eqn:Hr. intros [= <- <-].
    destruct (check_spec _ _ _ _ _ Hinv Hr) as [He Ho]. split; [done|]. split; [done|].
    intros i Hi. apply Ho; [intros ->; intros ->; by apply elem_of_difference in Hi as [_ []%not_elem_of_singleton]|].
    apply Hh. destruct b; [done|]. by apply elem_of_difference in Hi as [? _].
  - destruct (create_connection now id p) as [b q'] eqn:Hr. intros [= <- <-].
    apply Forall_cons in Hu as [Hu _]. destruct (create_spec _ _ _ _ _ Hinv Hu Hr) as (He & _ & _ & _ & Ho).
    split; [done|]. split; [done|]. intros i Hi%Hh. unfold checked_out. by rewrite Ho.
  - destruct (try_scale instant now id d p) as [r q'] eqn:Hr. intros [= <- <-].
    apply Forall_cons in Hu as [Hu _]. destruct (scale_spec _ _ _ _ _ _ _ Hinv Hu Hr) as (He & _ & _ & _ & Ho).
    split; [done|]. split; [done|]. intros i Hi%Hh. unfold checked_out. by rewrite Ho.
  - intros [= <- <-]. destruct (shutdown_spec now p Hinv) as (He & _). split; [done|].
    split; [done|]. by intros i ?%elem_of_empty.
Qed.

Lemma pool_calls_spec cs : forall p h,
  pool_inv p -> Forall (unused p) (concat (call_ids <$> cs)) -> NoDup (concat (call_ids <$> cs)) ->
  (forall i, i ∈ h -> checked_out p i) ->
  let '(tr, q) := pool_calls cs p in
  pool_inv q /\ exclusive h tr /\ forall i, i ∈ fold_left held_after tr h -> checked_out q i.
Proof.
  induction cs as [|c cs IH]; intros p h Hinv Hu Hnd Hh; cbn; [done|].
  cbn in Hu, Hnd. apply Forall_app in Hu as [Hu1 Hu2]. apply NoDup_app in Hnd as (Hnd1 & Hdis & Hnd2).
  destruct (pool_call c p) as [x p1] eqn:Hc.
  destruct (pool_call_spec c p x p1 h Hinv Hu1 Hnd1 Hh Hc) as ([Hi1 Hd1 Ho1] & Hex & Hh1).
  assert (Forall (unused p1) (concat (call_ids <$> cs))) as Hu'.
  { apply Forall_forall. intros id Hid. rewrite Forall_forall in Hu2. destruct (Hu2 id Hid) as [E1 E2].
    assert (id ∉ call_ids c) as Hni by (intros ?; by eapply Hdis).
    split; apply not_elem_of_dom; [intros Hx%Hd1|intros Hx%Ho1];
      apply elem_of_union in Hx as [Hx|Hx]; [by apply not_elem_of_dom in Hx|set_solver|by apply not_elem_of_dom in Hx|set_solver]. }
  specialize (IH p1 (held_after h (c, x)) Hi1 Hu' Hnd2 Hh1).
  destruct (pool_calls cs p1) as [tr q]. destruct IH as (H1 & H2 & H3).
  split; [done|]. split; [|done]. split; [|done]. destruct c; try done. 
Qed.

(** The fields of a configuration fit their types. *)
Definition config_in_range (c : PoolConfig) : Prop :=
  0 <= min_connections c /\ is_u32 (max_connections c) /\ is_u32 (max_pending_acquires c).

Lemma pool_new_inv id c t p : pool_new id c t = Some p -> config_in_range c -> pool_inv p.
Proof.
  unfold pool_new. destruct (validate_config c) as [[]|]; [|done]. intros [= <-] (Hmin & Hmax & Hp).
  split; cbn; rewrite ?map_size_empty; try done; try (unfold is_u32 in *; cbn; lia).
  - constructor.
  - intros i. unfold has_status; cbn. split; [by intros ?%not_elem_of_nil|].
    intros (x & Hx & _). by rewrite lookup_empty in Hx.
  - intros i. unfold has_status, checked_out; cbn.
    split; [intros (k & Hk)|intros (x & Hk & _)]; by rewrite lookup_empty in Hk.
Qed.


(** What [acquire] answers, and why. *)
Theorem acquire_outcome env p r q :
  pool_inv p -> unused p (scale_id env) -> acquire_with_timeout env p = (r, q) ->
  let p1 := (try_scale (env_instant env) (env_now env) (scale_id env) DHigh p).2 in
  let full := Z.of_nat (size (connections p1)) = max_connections (config p) in
  match r with
  | PoolClosing => is_shutting_down p = true
  | PoolExhausted _ =>
      is_shutting_down p = false /\
      (breaker_state (circuit_breaker p) = BOpen \/
       (idle_connections p1 = [] /\ full /\
        Z.of_nat (length (pending_acquires p1)) = max_pending_acquires (config p)))
  | Available c =>
      is_shutting_down p = false /\ breaker_state (circuit_breaker p) <> BOpen /\
      (head (idle_connections p1) = Some (connection_id c) \/
       (idle_connections p1 = [] /\ connection_id c = new_id env))
  | Pending h =>
      is_shutting_down p = false /\ breaker_state (circuit_breaker p) <> BOpen /\
      idle_connections p1 = [] /\ full /\ pending_acquires q = pending_acquires p1 ++ [h]
  | AcquireTimeout _ => False
  end.
Proof.
  intros Hinv Hu. unfold acquire_with_timeout. destruct (try_scale _ _ _ _ _) as [sr p1] eqn:Hsc. cbn.
  destruct (scale_spec _ _ _ _ _ _ _ Hinv Hu Hsc) as ([Hi1 _ _] & Hc & Hsd & Hb & _).
  rewrite Hsd. destruct (is_shutting_down p); [by intros [= <- <-]|].
  unfold should_allow_request. rewrite Hb.
  assert (forall r q, (match take_idle env p1 with
    | (Some r, p) => (r, p) | (None, p) => create_or_wait env p end) = (r, q) ->
    match r with
    | PoolClosing | AcquireTimeout _ => False
    | PoolExhausted _ => idle_connections p1 = [] /\ Z.of_nat (size (connections p1)) = max_connections (config p) /\
        Z.of_nat (length (pending_acquires p1)) = max_pending_acquires (config p)
    | Available c => head (idle_connections p1) = Some (connection_id c) \/
       (idle_connections p1 = [] /\ connection_id c = new_id env)
    | Pending h => idle_connections p1 = [] /\ Z.of_nat (size (connections p1)) = max_connections (config p) /\
        pending_acquires q = pending_acquires p1 ++ [h]
    end) as Hrest.
  { intros r' q'. unfold take_idle. destruct (idle_connections p1) as [|i rest] eqn:Hidle.
    - unfold create_or_wait. rewrite total_connections_exact, Hc by done.
      pose proof (pi_max p1 Hi1) as Hm. pose proof (pi_pending p1 Hi1) as Hp. rewrite Hc in Hm, Hp.
      destruct (Z.ltb_spec (Z.of_nat (size (connections p1))) (max_connections (config p)));
        [intros [= <- <-]; by right|].
      destruct (Z.leb_spec (max_pending_acquires (config p)) (Z.of_nat (length (pending_acquires p1))));
        intros [= <- <-]; (split_and!; [done|lia|done || lia]).
    - destruct (proj1 (pi_idle p1 Hi1 i)) as (c & Hcn & _); [rewrite Hidle; left|].
      rewrite Hcn. intros [= <- <-]. left. cbn. f_equal. symmetry. exact (pi_ids p1 Hi1 _ _ Hcn). }
  destruct (breaker_state (circuit_breaker p)); cbn [negb].
  - intros Hr%Hrest. destruct r; naive_solver.
  - intros [= <- <-]. split; [done|by left].
  - intros Hr%Hrest. destruct r; naive_solver.
Qed.

(** ** The breaker *)

Inductive BreakerEvent : Set := BSuccess (t : Z) | BFailure (t : Z) | BTryHalfOpen (current t : Z).

Definition breaker_step (b : CircuitBreaker) (e : BreakerEvent) : CircuitBreaker :=
  match e with
  | BSuccess t => record_success t b
  | BFailure t => record_failure t b
  | BTryHalfOpen current t => (try_transition_to_half_open current t b).2
  end.
Definition event_time (e : BreakerEvent) : Z :=
  match e with BSuccess t => t | BFailure t => t | BTryHalfOpen _ t => t end.

(** The outcomes that a run records, none forgotten. *)
Definition outcome (b : CircuitBreaker) (e : BreakerEvent) : list (Z * bool) :=
  match e with
  | BSuccess t => if decide (breaker_state b = BClosed) then [(t, true)] else []
  | BFailure t => [(t, false)]
  | BTryHalfOpen _ _ => []
  end.
Fixpoint outcomes (es : list BreakerEvent) (b : CircuitBreaker) : list (Z * bool) :=
  match es with [] => [] | e :: es => outcome b e ++ outcomes es (breaker_step b e) end.

Fixpoint times_from (t : Z) (es : list BreakerEvent) : Prop :=
  match es with [] => True | e :: es => t <= event_time e /\ times_from (event_time e) es end.

(** [h] is [log] without entries that are too old at [t]. *)
Definition forgets (t : Z) (log h : list (Z * bool)) : Prop :=
  exists old, log = old ++ h /\ Forall (fun e => e.1 + FAILURE_WINDOW_MS * 2 < t) old.

Lemma drop_old_spec cutoff h :
  exists old, h = old ++ drop_old cutoff h /\ Forall (fun e => e.1 < cutoff) old.
Proof.
  induction h as [|[t ok] h (old & Ho & Hf)]; cbn; [by exists []|].
  destruct (Z.ltb_spec t cutoff); [|by exists []]. exists ((t, ok) :: old). cbn. rewrite <- Ho.
  split; [done|by constructor].
Qed.

Lemma forgets_trim t t' log h l :
  0 <= t -> t <= t' -> Forall (fun e => 0 <= e.1) (h ++ l) -> forgets t log h ->
  forgets t' (log ++ l) (trim_history t' (h ++ l)).
Proof.
  intros Ht Htt Hpos (old & -> & Hf). unfold trim_history.
  destruct (drop_old_spec (saturating_sub t' (FAILURE_WINDOW_MS * 2)) (h ++ l)) as (old2 & Ho & Hf2).
  exists (old ++ old2). rewrite <- !app_assoc, <- Ho. split; [done|].
  rewrite Ho in Hpos. apply Forall_app in Hpos as [Hpos _].
  apply Forall_app. split; [eapply Forall_impl; [exact Hf|]; intros; cbn in *; lia|].
  rewrite Forall_forall in *. intros e He. specialize (Hf2 e He). specialize (Hpos e He).
  unfold saturating_sub, FAILURE_WINDOW_MS in *. lia.
Qed.

Lemma forgets_should_trip t log h : forgets t log h -> should_trip t h = should_trip t log.
Proof.
  intros (old & -> & Hf). unfold should_trip. rewrite !filter_app.
  assert (base.filter (fun e => is_recent t e = true) old = []) as ->; [|done].
  apply elem_of_nil_inv. intros e [Hle He]%list_elem_of_filter. rewrite Forall_forall in Hf.
  specialize (Hf e He). unfold is_recent, saturating_sub, FAILURE_WINDOW_MS in *. apply Z.leb_le in Hle. lia.
Qed.

(** The history that a breaker keeps, in every run. *)
Lemma breaker_history es : forall t b log,
  0 <= t -> times_from t es -> forgets t log (failure_history b) ->
  Forall (fun e => 0 <= e.1) (failure_history b) ->
  forall t', (forall e, e ∈ es -> event_time e <= t') -> t <= t' ->
  forgets t' (log ++ outcomes es b) (failure_history (fold_left breaker_step es b)).
Proof.
  induction es as [|e es IH]; intros t b log Ht Hes Hf Hpos t' Hle Htt; cbn.
  { rewrite app_nil_r. destruct Hf as (old & -> & Ho). exists old. split; [done|].
    eapply Forall_impl; [exact Ho|]. intros; cbn in *; lia. }
  destruct Hes as [Ht1 Hes]. rewrite app_assoc.
  assert (forgets (event_time e) (log ++ outcome b e) (failure_history (breaker_step b e)) /\
    Forall (fun e => 0 <= e.1) (failure_history (breaker_step b e))) as [Hf1 Hpos1].
  { assert (forgets (event_time e) (log ++ []) (failure_history b)) as Hsame.
    { rewrite app_nil_r. destruct Hf as (old & -> & Ho). exists old. split; [done|].
      eapply Forall_impl; [exact Ho|]. intros; cbn in *; lia. }
    assert (forall ok, let l := [(event_time e, ok)] in
      forgets (event_time e) (log ++ l) (trim_history (event_time e) (failure_history b ++ l)) /\
      Forall (fun e => 0 <= e.1) (trim_history (event_time e) (failure_history b ++ l))) as Hpush.
    { intros ok l. assert (Forall (fun e => 0 <= e.1) (failure_history b ++ l)) as Hp
        by (apply Forall_app; split; [done|]; repeat constructor; cbn; lia).
      split; [by eapply forgets_trim|]. unfold trim_history.
      destruct (drop_old_spec (saturating_sub (event_time e) (FAILURE_WINDOW_MS * 2)) (failure_history b ++ l))
        as (old & Ho & _). rewrite Ho in Hp. by apply Forall_app in Hp as [_ Hp]. }
    destruct e as [t1|t1|cur t1]; cbn in *.
    - unfold record_success; cbn. destruct (breaker_state b); cbn.
      + rewrite decide_True by done. apply Hpush.
      + rewrite decide_False by done. done.
      + rewrite decide_False by done. by case_match.
    - unfold record_failure; cbn. destruct (breaker_state b); cbn; [case_match|..|case_match]; apply Hpush.
    - unfold try_transition_to_half_open. repeat case_match; done. }
  apply (IH (event_time e)); [lia|done|done|done| |].
  - intros e' He'. apply Hle. by right.
  - apply Hle. left.
Qed.

(** The comparison in [f64] is that of the counts: a count below [2^53] is a binary64 number. *)
Lemma rate_exact f t : 0 <= f <= t -> 0 < t < 2 ^ 53 -> rate_above_half f t = (t <? 2 * f).
Proof. apply quotient_above_half. Qed.

Definition recent_failures (t : Z) (log : list (Z * bool)) : Z :=
  Z.of_nat (length (base.filter (fun e => e.2 = false) (base.filter (fun e => is_recent t e = true) log))).
Definition recent_outcomes (t : Z) (log : list (Z * bool)) : Z :=
  Z.of_nat (length (base.filter (fun e => is_recent t e = true) log)).

Lemma filter_length_le {A} (P : A -> Prop) `{!forall x, Decision (P x)} (l : list A) :
  (length (base.filter P l) <= length l)%nat.
Proof. induction l as [|x l IH]; [done|]. rewrite filter_cons. case_decide; cbn; lia. Qed.

(** The breaker after the events [es]. *)
Definition breaker_run (es : list BreakerEvent) : CircuitBreaker := fold_left breaker_step es breaker_new.

(** [e] is the event of the run [es] that opened the breaker, open ever since. *)
Definition opened_by (es : list BreakerEvent) (e : BreakerEvent) : Prop :=
  exists es1 es2, es = es1 ++ e :: es2 /\ breaker_state (breaker_run es1) <> BOpen /\
    forall es', es' `prefix_of` es2 -> breaker_state (breaker_run (es1 ++ e :: es')) = BOpen.

Lemma step_opens b e :
  breaker_state (breaker_step b e) = BOpen ->
  (breaker_state b = BOpen /\ last_transition_at (breaker_step b e) = last_transition_at b) \/
  (breaker_state b <> BOpen /\ last_transition_at (breaker_step b e) = Some (event_time e)).
Proof.
  destruct e as [t|t|cur t]; cbn; unfold record_success, record_failure, try_transition_to_half_open; cbn;
    destruct (breaker_state b) eqn:E; cbn; repeat case_match; cbn; rewrite ?E; try done; auto.
Qed.

Lemma breaker_opened es :
  breaker_state (breaker_run es) = BOpen ->
  exists e, opened_by es e /\ last_transition_at (breaker_run es) = Some (event_time e).
Proof.
  induction es as [|e es IH] using rev_ind; [done|]. unfold breaker_run at 1.
  rewrite fold_left_app. cbn. intros Hopen. destruct (step_opens _ _ Hopen) as [[Hb Hl]|[Hb Hl]].
  - destruct (IH Hb) as (e0 & (es1 & es2 & -> & H1 & H2) & H3). exists e0. split.
    2:{ unfold breaker_run. rewrite fold_left_app. cbn. rewrite Hl. exact H3. }
    exists es1, (es2 ++ [e]). split; [by rewrite <- app_assoc|]. split; [done|].
    intros es' [k Hk]. destruct k as [|x k _] using rev_ind.
    2:{ rewrite app_assoc in Hk. apply app_inj_tail in Hk as [-> _]. apply H2. by exists k. }
    rewrite app_nil_r in Hk. subst es'. unfold breaker_run. rewrite app_comm_cons, app_assoc, fold_left_app. exact Hopen.
  - exists e. split; [|unfold breaker_run; rewrite fold_left_app; exact Hl].
    exists es, []. split; [done|]. split; [done|]. intros es' ->%prefix_nil_inv.
    unfold breaker_run. rewrite fold_left_app. exact Hopen.
Qed.


(** No operation of the pool lets its breaker leave the open state. *)
Lemma evict_keeps_open now id reason p :
  breaker_state (circuit_breaker p) = BOpen ->
  breaker_state (circuit_breaker (evict_connection now id reason p).2) = BOpen.
Proof.
  intros Hb. unfold evict_connection; cbn. destruct (connections p !! id); [|done].
  destruct reason; cbn; try done. unfold record_failure; cbn. by rewrite Hb.
Qed.

Lemma create_keeps_breaker now id p :
  circuit_breaker (create_connection now id p).2 = circuit_breaker p.
Proof. unfold create_connection. by repeat case_match. Qed.

Lemma scale_keeps_breaker instant now id d p :
  circuit_breaker (try_scale instant now id d p).2 = circuit_breaker p.
Proof.
  unfold try_scale. destruct (_ <? scale_cooldown _); [done|].
  destruct d; repeat case_match; try done; cbn;
    match goal with H : create_connection ?n ?i ?q = _ |- _ =>
      pose proof (create_keeps_breaker n i q) as Hb; rewrite H in Hb; exact Hb end.
Qed.

Lemma evict_all_keeps_open now l : forall p,
  breaker_state (circuit_breaker p) = BOpen ->
  breaker_state (circuit_breaker
    (fold_left (fun p id => (evict_connection now id ExplicitEviction p).2) l p)) = BOpen.
Proof. induction l as [|id l IH]; intros p Hb; cbn; [done|]. by apply IH, evict_keeps_open. Qed.

Theorem open_forever cs : forall p,
  breaker_state (circuit_breaker p) = BOpen ->
  breaker_state (circuit_breaker (pool_calls cs p).2) = BOpen.
Proof.
  induction cs as [|c cs IH]; intros p Hb; cbn; [done|].
  destruct (pool_call c p) as [x q] eqn:Hc.
  enough (breaker_state (circuit_breaker q) = BOpen) as Hq.
  { specialize (IH q Hq). by destruct (pool_calls cs q). }
  replace q with (pool_call c p).2 by (by rewrite Hc). clear Hc.
  destruct c as [env|now k id|now id reason|now id|now id|instant now id d|now]; cbn.
  - unfold acquire_with_timeout. pose proof (scale_keeps_breaker (env_instant env) (env_now env) (scale_id env) DHigh p) as Hs.
    destruct (try_scale _ _ _ _ _) as [sr p1]. cbn in Hs. rewrite <- Hs in Hb.
    destruct (is_shutting_down p1); [done|]. unfold should_allow_request. by rewrite Hb.
  - unfold release. destruct (is_shutting_down p).
    + pose proof (evict_keeps_open now id ExplicitEviction p Hb) as He. by destruct (evict_connection _ _ _ _).
    + by repeat case_match; simplify_eq/=.
  - pose proof (evict_keeps_open now id reason p Hb) as He. by destruct (evict_connection _ _ _ _).
  - unfold health_check_connection. repeat case_match; simplify_eq/=; done || by apply evict_keeps_open.
  - pose proof (create_keeps_breaker now id p) as He. destruct (create_connection _ _ _). cbn in *. congruence.
  - pose proof (scale_keeps_breaker instant now id d p) as He. destruct (try_scale _ _ _ _ _). cbn in *. congruence.
  - unfold shutdown; cbn. apply evict_all_keeps_open. done.
Qed.

Module PoolWitness.

Definition cfg : PoolConfig := mkPoolConfig 0 1 5000 30000 10000 1.

Lemma cfg_ok : config_in_range cfg.
Proof. unfold config_in_range; cbn. ulia. Qed.

(** One connection: taken, a second request waits, the connection is given back. *)
Definition env (i : Z) (now : Z) : AcquireEnv := mkEnv 0 now i (i + 1) (i + 2).
Definition calls : list PoolCall := [CAcquire (env 0 1); CAcquire (env 10 2); CRelease 3 20 1].

Definition p0 : PoolState :=
  mkPool "p" ∅ [] ∅ [] cfg breaker_new (mkScaler 0 5000000000 0) (mkTotals 0 0 0 0 0) false 0.


(** The connection given back goes to the waiting request, which is never told: no client
    holds it, it stays checked out, and the pool has no room for another. *)
Example handed_to_nobody :
  let '(tr, p) := pool_calls calls p0 in
  tr.*2 = [AAcquired (Available (mkPooled 1 1 1 0 CheckedOut));
           AAcquired (Pending (mkWaitHandle 1 2 "p")); AReleased Returned] /\
  elements (fold_left held_after tr ∅) = [] /\ map_to_list (checked_out_connections p) = [(20, 1)] /\
  total_acquires (totals p) = 1 /\ total_releases (totals p) = 0.
Proof. by vm_compute. Qed.

(** An eviction makes room, but not for the request that waits: the next one gets it. *)
Example waiter_overtaken :
  let '(tr, p) := pool_calls [CAcquire (env 0 1); CAcquire (env 10 2); CEvict 3 1 ExplicitEviction;
                              CAcquire (env 20 4)] p0 in
  tr.*2 !! 3%nat = Some (AAcquired (Available (mkPooled 21 4 4 0 CheckedOut))) /\
  length (pending_acquires p) = 1%nat.
Proof. by vm_compute. Qed.

(** The time of last use is that of creation: a connection in use is evicted as idle. *)
Example busy_connection_evicted :
  let '(tr, p) := pool_calls [CAcquire (env 0 1); CRelease 30000 9 1; CAcquire (env 10 30001);
                              CHealthCheck 30002 1] p0 in
  tr.*2 !! 3%nat = Some (AChecked false) /\ connections p = ∅.
Proof. by vm_compute. Qed.

(** One failed health check opens the breaker. *)
Example one_failure_opens :
  let '(_, p) := pool_calls [CAcquire (env 0 1); CEvict 2 1 (HealthCheckFailed Timeout)] p0 in
  breaker_state (circuit_breaker p) = BOpen.
Proof. by vm_compute. Qed.

Definition events : list BreakerEvent := [BSuccess 1; BSuccess 2; BFailure 3; BFailure 70000].


End PoolWitness.
