(* ===== verification/Semaphores.v ===== *)
(** * Execution semaphores of the actors

    [crates/vo-actor/src/semaphore/]: the global limit on running binaries with its pool
    reserved for recovery ([execution.rs]), the backpressure levels ([calc.rs], [types.rs]), the
    check of an activation ([enforcer.rs]) and the limits per workflow ([workflow.rs]). A
    [tokio] semaphore is its number of permits: taking one needs one, dropping a permit or
    [add_permits] gives back. Tasks run concurrently, so the operations are steps in any
    order. An [acquire] is several steps, others running in between; a permit and the counter
    of available permits change in one step, as nothing reads both, and of the counters that
    [acquire] checks only that of the waiting calls decides. Semaphores are never closed. *)

From S2P Require Import Prelude Identifiers Floats.

(** ** Backpressure *)

(** [struct SemaphoreConfig]; the timeout is a choice of the environment. *)
Record SemaphoreConfig : Set := mkSemConfig {
  max_concurrent_binaries : Z;
  max_waiters_for_shed : Z;
  max_per_workflow : Z;
  reserved_permits : Z;
}.
Definition sem_config_default : SemaphoreConfig := mkSemConfig 500 5000 10 50.

(** [enum BackpressureStatus] and its predicates. *)
Inductive BackpressureStatus : Set := Healthy | Moderate | Heavy | ShedLoad.
Definition should_reject (s : BackpressureStatus) : bool :=
  match s with ShedLoad => true | _ => false end.
Definition is_queued (s : BackpressureStatus) : bool :=
  match s with Heavy | ShedLoad => true | _ => false end.

(** [enum RejectionReason], [enum AdmissionDecision]. *)
Inductive RejectionReason : Set := LoadShed | WorkflowSaturated | RejTimeout.
Inductive AdmissionDecision : Set :=
| DAdmitted
| Queued (position estimated_wait_ms : Z)
| Rejected (reason : RejectionReason) (retry_after_secs : Z).

(** The constants [0.5], [0.8] and [1.0]. *)
Definition half : spec_float := S754_finite false 4503599627370496 (-53).
Definition four_fifths : spec_float := S754_finite false 7205759403792794 (-53).

(** [calculate_backpressure_status]; the subtraction wraps. *)
Definition usage_ratio (available total : Z) : spec_float :=
  if 0 <? total then f64_div (f64_of (as_u64 (total - available))) (f64_of total) else f64_of 1.
Definition calculate_backpressure_status (available total waiting max_waiters : Z)
  : BackpressureStatus :=
  let ratio := usage_ratio available total in
  if max_waiters <=? waiting then ShedLoad
  else if (total / 2 <? waiting) || f64_ltb four_fifths ratio then Heavy
  else if f64_ltb half ratio || (total / 4 <? waiting) then Moderate
  else Healthy.

(** [estimate_wait_ms], [is_workflow_saturated], [status_from_config_and_state]. *)
Definition estimate_wait_ms (position available avg_task_duration_ms : Z) : Z :=
  if available =? 0 then as_u64 (as_u64 (position + 1) * avg_task_duration_ms)
  else as_u64 (as_u64 (position / available + 1) * avg_task_duration_ms).
Definition is_workflow_saturated (pending max_per_workflow : Z) : bool := max_per_workflow <=? pending.
Definition status_from_config_and_state (c : SemaphoreConfig) (available waiting : Z)
  : BackpressureStatus :=
  calculate_backpressure_status available (max_concurrent_binaries c) waiting (max_waiters_for_shed c).

(** ** The execution semaphore *)

(** Where a call of [acquire] is: it has counted itself as waiting; it has decided to refuse; it
    waits for a permit; it has one, first still counted as waiting, then not, and drops it when
    it returns; its future was dropped while it waited; it has answered. *)
Inductive AcquirePhase : Set :=
| Entered
| Rejecting (reason : RejectionReason) (retry_after_secs : Z)
| WaitingForPermit
| HasPermit
| Admitting
| Cancelled
| Answered (d : AdmissionDecision).

(** [struct ExecutionSemaphore] with the calls of [acquire] and, as the program holds them,
    the permits of [try_acquire] and [try_acquire_recovery] and the guards that are alive. *)
Record ExecutionSemaphore : Set := mkExec {
  sem_config : SemaphoreConfig;
  semaphore : Z;
  reserved_semaphore : Z;
  available_permits : Z;
  reserved_available : Z;
  waiting_count : Z;
  calls : list AcquirePhase;
  live_permits : Z;
  live_guards : Z;
  live_recovery : Z;
}.

(** [ExecutionSemaphore::new]. *)
Definition exec_new (c : SemaphoreConfig) : ExecutionSemaphore :=
  mkExec c (max_concurrent_binaries c) (reserved_permits c) (max_concurrent_binaries c)
    (reserved_permits c) 0 [] 0 0 0.

(** [ExecutionSemaphore::current_status]. *)
Definition current_status (s : ExecutionSemaphore) : BackpressureStatus :=
  status_from_config_and_state (sem_config s) (available_permits s) (waiting_count s).

Definition with_calls (l : list AcquirePhase) (waiting : Z) (s : ExecutionSemaphore) : ExecutionSemaphore :=
  mkExec (sem_config s) (semaphore s) (reserved_semaphore s) (available_permits s)
    (reserved_available s) waiting l (live_permits s) (live_guards s) (live_recovery s).

(** [ExecutionSemaphore::acquire] in its steps: entering; the check of the status; the end of a
    refusal, which uncounts the call; a permit of the semaphore; uncounting the call; the end,
    which uncounts a permit and drops the permit; the timeout; the drop of the future at its
    only point of suspension. *)
Definition acquire_enter (s : ExecutionSemaphore) : ExecutionSemaphore :=
  with_calls (calls s ++ [Entered]) (as_u64 (waiting_count s + 1)) s.
Definition acquire_check (i : nat) (s : ExecutionSemaphore) : option ExecutionSemaphore :=
  match calls s !! i with
  | Some Entered =>
      Some (if should_reject (current_status s)
            then with_calls (<[i := Rejecting LoadShed 5]> (calls s)) (waiting_count s) s
            else with_calls (<[i := WaitingForPermit]> (calls s)) (waiting_count s) s)
  | _ => None
  end.
Definition acquire_reject (i : nat) (s : ExecutionSemaphore) : option ExecutionSemaphore :=
  match calls s !! i with
  | Some (Rejecting r secs) =>
      Some (with_calls (<[i := Answered (Rejected r secs)]> (calls s)) (as_u64 (waiting_count s - 1)) s)
  | _ => None
  end.
Definition acquire_permit (i : nat) (s : ExecutionSemaphore) : option ExecutionSemaphore :=
  match calls s !! i with
  | Some WaitingForPermit =>
      if 0 <? semaphore s then
        Some (mkExec (sem_config s) (semaphore s - 1) (reserved_semaphore s) (available_permits s)
                (reserved_available s) (waiting_count s) (<[i := HasPermit]> (calls s))
                (live_permits s) (live_guards s) (live_recovery s))
      else None
  | _ => None
  end.
Definition acquire_uncount (i : nat) (s : ExecutionSemaphore) : option ExecutionSemaphore :=
  match calls s !! i with
  | Some HasPermit => Some (with_calls (<[i := Admitting]> (calls s)) (as_u64 (waiting_count s - 1)) s)
  | _ => None
  end.
Definition acquire_end (i : nat) (s : ExecutionSemaphore) : option ExecutionSemaphore :=
  match calls s !! i with
  | Some Admitting =>
      Some (mkExec (sem_config s) (semaphore s + 1) (reserved_semaphore s)
              (as_u64 (available_permits s - 1)) (reserved_available s)
              (waiting_count s) (<[i := Answered DAdmitted]> (calls s))
              (live_permits s) (live_guards s) (live_recovery s))
  | _ => None
  end.
Definition acquire_timeout (i : nat) (s : ExecutionSemaphore) : option ExecutionSemaphore :=
  match calls s !! i with
  | Some WaitingForPermit =>
      Some (with_calls (<[i := Rejecting RejTimeout 10]> (calls s)) (waiting_count s) s)
  | _ => None
  end.
Definition acquire_cancel (i : nat) (s : ExecutionSemaphore) : option ExecutionSemaphore :=
  match calls s !! i with
  | Some WaitingForPermit => Some (with_calls (<[i := Cancelled]> (calls s)) (waiting_count s) s)
  | _ => None
  end.

(** [ExecutionSemaphore::try_acquire], and the drop of its permit. *)
Definition try_acquire (s : ExecutionSemaphore) : bool * ExecutionSemaphore :=
  if 0 <? semaphore s then
    (true, mkExec (sem_config s) (semaphore s - 1) (reserved_semaphore s)
             (as_u64 (available_permits s - 1)) (reserved_available s) (waiting_count s) (calls s)
             (live_permits s + 1) (live_guards s) (live_recovery s))
  else (false, s).
Definition drop_permit (s : ExecutionSemaphore) : option ExecutionSemaphore :=
  if 0 <? live_permits s then
    Some (mkExec (sem_config s) (semaphore s + 1) (reserved_semaphore s) (available_permits s)
            (reserved_available s) (waiting_count s) (calls s) (live_permits s - 1) (live_guards s)
            (live_recovery s))
  else None.

(** [ExecutionSemaphore::try_acquire_guard], and [PermitGuard::drop]: the permit is dropped and
    [release_permit] adds another. *)
Definition try_acquire_guard (s : ExecutionSemaphore) : bool * ExecutionSemaphore :=
  if 0 <? semaphore s then
    (true, mkExec (sem_config s) (semaphore s - 1) (reserved_semaphore s)
             (as_u64 (available_permits s - 1)) (reserved_available s) (waiting_count s) (calls s)
             (live_permits s) (live_guards s + 1) (live_recovery s))
  else (false, s).
Definition drop_guard (s : ExecutionSemaphore) : option ExecutionSemaphore :=
  if 0 <? live_guards s then
    Some (mkExec (sem_config s) (semaphore s + 1 + 1) (reserved_semaphore s)
            (as_u64 (available_permits s + 1)) (reserved_available s) (waiting_count s) (calls s)
            (live_permits s) (live_guards s - 1) (live_recovery s))
  else None.

(** [ExecutionSemaphore::try_acquire_recovery], and the drop of its permit. *)
Definition try_acquire_recovery (s : ExecutionSemaphore) : bool * ExecutionSemaphore :=
  if 0 <? reserved_semaphore s then
    (true, mkExec (sem_config s) (semaphore s) (reserved_semaphore s - 1) (available_permits s)
             (as_u64 (reserved_available s - 1)) (waiting_count s) (calls s) (live_permits s)
             (live_guards s) (live_recovery s + 1))
  else (false, s).
Definition drop_recovery (s : ExecutionSemaphore) : option ExecutionSemaphore :=
  if 0 <? live_recovery s then
    Some (mkExec (sem_config s) (semaphore s) (reserved_semaphore s + 1) (available_permits s)
            (reserved_available s) (waiting_count s) (calls s) (live_permits s) (live_guards s)
            (live_recovery s - 1))
  else None.

(** The steps of the program. *)
Inductive SemStep : Set :=
| SEnter | SCheck (i : nat) | SReject (i : nat) | SPermit (i : nat) | SUncount (i : nat) | SEnd (i : nat)
| STimeout (i : nat) | SCancel (i : nat)
| STry | SDropPermit | SGuard | SDropGuard | SRecovery | SDropRecovery.

Definition sem_step (e : SemStep) (s : ExecutionSemaphore) : option ExecutionSemaphore :=
  match e with
  | SEnter => Some (acquire_enter s)
  | SCheck i => acquire_check i s
  | SReject i => acquire_reject i s
  | SPermit i => acquire_permit i s
  | SUncount i => acquire_uncount i s
  | SEnd i => acquire_end i s
  | STimeout i => acquire_timeout i s
  | SCancel i => acquire_cancel i s
  | STry => Some (try_acquire s).2
  | SDropPermit => drop_permit s
  | SGuard => Some (try_acquire_guard s).2
  | SDropGuard => drop_guard s
  | SRecovery => Some (try_acquire_recovery s).2
  | SDropRecovery => drop_recovery s
  end.

(** A sequence of steps, if each is possible. *)
Fixpoint sem_steps (es : list SemStep) (s : ExecutionSemaphore) : option ExecutionSemaphore :=
  match es with
  | [] => Some s
  | e :: es => match sem_step e s with Some s => sem_steps es s | None => None end
  end.

(** ** The enforcer *)

(** [struct InvariantCheck], with the only error [check_activation] gives. *)
Record InvariantCheck : Set := mkCheck {
  allowed : bool;
  status : BackpressureStatus;
  already_active : option InstanceId;
}.

(** [InvariantEnforcer::check_activation], over the registry's [is_active]. *)
Definition check_activation (is_active : InstanceId -> bool) (i : InstanceId) (s : ExecutionSemaphore)
  : InvariantCheck :=
  if is_active i then mkCheck false Healthy (Some i) else mkCheck true (current_status s) None.

(** ** Semaphores per workflow *)

(** [struct WorkflowSemaphoreMap], with the heap of the semaphores behind the [Arc]s. *)
Record WorkflowSemaphoreMap : Type := mkWsm {
  heap : list Z;
  semaphores : gmap string nat;
  wsm_max : Z;
}.
Definition wsm_new (max : Z) : WorkflowSemaphoreMap := mkWsm [] ∅ max.

(** [get_or_create]: the section under the read lock, and that under the write lock. *)
Definition lookup_section (w : string) (m : WorkflowSemaphoreMap) : option nat := semaphores m !! w.
Definition create_section (w : string) (m : WorkflowSemaphoreMap) : nat * WorkflowSemaphoreMap :=
  match semaphores m !! w with
  | Some a => (a, m)
  | None =>
      let a := length (heap m) in
      (a, mkWsm (heap m ++ [wsm_max m]) (<[w := a]> (semaphores m)) (wsm_max m))
  end.

(** [cleanup_idle]: the semaphores with all their permits are forgotten. *)
Definition cleanup_idle (m : WorkflowSemaphoreMap) : WorkflowSemaphoreMap :=
  mkWsm (heap m)
    (base.filter (fun kv => default 0 (heap m !! kv.2) < wsm_max m) (semaphores m)) (wsm_max m).

(** A permit of the semaphore at an address is taken or dropped. *)
Definition take_permit (a : nat) (m : WorkflowSemaphoreMap) : option WorkflowSemaphoreMap :=
  match heap m !! a with
  | Some n => if 0 <? n then Some (mkWsm (<[a := n - 1]> (heap m)) (semaphores m) (wsm_max m)) else None
  | None => None
  end.
Definition give_permit (a : nat) (m : WorkflowSemaphoreMap) : option WorkflowSemaphoreMap :=
  match heap m !! a with
  | Some n => Some (mkWsm (<[a := n + 1]> (heap m)) (semaphores m) (wsm_max m))
  | None => None
  end.

(** Tasks ask for the semaphore of a workflow: they look it up, and if they miss come back
    under the write lock, others running in between. *)
Inductive Asking : Set := Missed (w : string) | Got (w : string) (a : nat).

Inductive wsm_step : (WorkflowSemaphoreMap * list Asking) -> (WorkflowSemaphoreMap * list Asking) -> Prop :=
| StepHit m l w a : lookup_section w m = Some a -> wsm_step (m, l) (m, l ++ [Got w a])
| StepMiss m l w : lookup_section w m = None -> wsm_step (m, l) (m, l ++ [Missed w])
| StepCreate m l i w a m' : l !! i = Some (Missed w) -> create_section w m = (a, m') ->
    wsm_step (m, l) (m', <[i := Got w a]> l)
| StepTake m l a m' : take_permit a m = Some m' -> wsm_step (m, l) (m', l)
| StepGive m l a m' : give_permit a m = Some m' -> wsm_step (m, l) (m', l).

(** ** Accounting *)

Fixpoint count_phase (f : AcquirePhase -> bool) (l : list AcquirePhase) : Z :=
  match l with [] => 0 | x :: l => (if f x then 1 else 0) + count_phase f l end.
Definition counted (x : AcquirePhase) : bool :=
  match x with Admitting | Answered _ => false | _ => true end.
Definition has_permit (x : AcquirePhase) : bool :=
  match x with HasPermit | Admitting => true | _ => false end.
Definition is_admitted (x : AcquirePhase) : bool := match x with Answered DAdmitted => true | _ => false end.

Definition is_drop_permit (e : SemStep) : bool := match e with SDropPermit => true | _ => false end.
Definition is_drop_guard (e : SemStep) : bool := match e with SDropGuard => true | _ => false end.
Definition is_drop_recovery (e : SemStep) : bool := match e with SDropRecovery => true | _ => false end.
Fixpoint count_steps (f : SemStep -> bool) (es : list SemStep) : Z :=
  match es with [] => 0 | x :: es => (if f x then 1 else 0) + count_steps f es end.

Lemma count_phase_app f l1 l2 : count_phase f (l1 ++ l2) = count_phase f l1 + count_phase f l2.
Proof. induction l1 as [|x l1 IH]; cbn; [done|]. rewrite IH. lia. Qed.

Lemma count_phase_insert f l i x y :
  l !! i = Some x ->
  count_phase f (<[i := y]> l) = count_phase f l - (if f x then 1 else 0) + (if f y then 1 else 0).
Proof.
  revert i. induction l as [|z l IH]; intros i Hi; [done|]. destruct i as [|i]; cbn in *.
  - injection Hi as ->. lia.
  - rewrite IH by done. lia.
Qed.

Lemma count_phase_nonneg f l : 0 <= count_phase f l.
Proof. induction l as [|x l IH]; cbn; [lia|]. case_match; lia. Qed.

Lemma as_u64_mod_add a b : as_u64 (as_u64 a + b) = as_u64 (a + b).
Proof. unfold as_u64. by rewrite Z.add_mod_idemp_l. Qed.

Lemma as_u64_mod_sub a b : as_u64 (as_u64 a - b) = as_u64 (a - b).
Proof. unfold as_u64. by rewrite Zminus_mod_idemp_l. Qed.

(** After [pd] dropped permits, [gd] dropped guards and [rd] dropped recovery permits. *)
Record sem_inv (c : SemaphoreConfig) (pd gd rd : Z) (s : ExecutionSemaphore) : Prop := {
  si_config : sem_config s = c;
  si_permits : semaphore s + live_permits s + live_guards s + count_phase has_permit (calls s)
               = max_concurrent_binaries c + gd;
  si_reserved : reserved_semaphore s + live_recovery s = reserved_permits c;
  si_available : available_permits s = as_u64 (max_concurrent_binaries c - live_permits s
                   - live_guards s - pd - count_phase is_admitted (calls s));
  si_reserved_available : reserved_available s = as_u64 (reserved_permits c - live_recovery s - rd);
  si_waiting : waiting_count s = as_u64 (count_phase counted (calls s));
  si_nonneg : 0 <= semaphore s /\ 0 <= reserved_semaphore s /\ 0 <= live_permits s /\
              0 <= live_guards s /\ 0 <= live_recovery s;
}.

Lemma sem_step_inv c pd gd rd e s s' :
  sem_inv c pd gd rd s -> sem_step e s = Some s' ->
  sem_inv c (pd + (if is_drop_permit e then 1 else 0)) (gd + (if is_drop_guard e then 1 else 0))
    (rd + (if is_drop_recovery e then 1 else 0)) s'.
Proof.
  intros [H1 H2 H3 H4 H7 H5 H6] Hs.
  destruct e as [|i|i|i|i|i|i|i| | | | | |]; cbn in Hs |- *;
    unfold acquire_enter, acquire_check, acquire_reject, acquire_permit, acquire_uncount, acquire_end,
      acquire_timeout, acquire_cancel,
      try_acquire, drop_permit, try_acquire_guard, drop_guard, try_acquire_recovery, drop_recovery,
      with_calls in Hs;
    repeat match type of Hs with context [match ?x with _ => _ end] => destruct x eqn:? end;
    simplify_eq/=;
    repeat match goal with H : (0 <? _) = true |- _ => apply Z.ltb_lt in H end;
    split; cbn; rewrite ?count_phase_app; cbn; rewrite ?H4, ?H5, ?H7;
    repeat (erewrite count_phase_insert by eassumption); cbn;
    rewrite ?as_u64_mod_sub, ?as_u64_mod_add; try done; try lia; try (f_equal; lia).
Qed.

Lemma sem_steps_inv c pd gd rd es s s' :
  sem_inv c pd gd rd s -> sem_steps es s = Some s' ->
  sem_inv c (pd + count_steps is_drop_permit es) (gd + count_steps is_drop_guard es)
    (rd + count_steps is_drop_recovery es) s'.
Proof.
  revert pd gd rd s. induction es as [|e es IH]; intros pd gd rd s Hi Hs; cbn in *.
  - simplify_eq. by rewrite !Z.add_0_r.
  - destruct (sem_step e s) as [s1|] eqn:E; [|done].
    rewrite !Z.add_assoc. eapply IH; [by eapply sem_step_inv|done].
Qed.

(** The permits of a configuration that [tokio] accepts. *)
Definition sem_config_ok (c : SemaphoreConfig) : Prop :=
  0 <= max_concurrent_binaries c < 2 ^ 61 /\ 0 <= reserved_permits c < 2 ^ 61.

Lemma as_u64_permits n : 0 <= n < 2 ^ 61 -> as_u64 n = n.
Proof. intros Hn. apply Z.mod_small. unfold u64_max. lia. Qed.

Lemma exec_new_inv c : sem_config_ok c -> sem_inv c 0 0 0 (exec_new c).
Proof.
  intros [H1 H2].
  split; cbn; rewrite ?Z.sub_0_r, ?(as_u64_permits _ H1), ?(as_u64_permits _ H2); first [done|lia].
Qed.

Lemma count_steps_nonneg f es : 0 <= count_steps f es.
Proof. induction es as [|x es IH]; cbn; [lia|]. case_match; lia. Qed.

(** Along any interleaving of the operations of the execution semaphore: the permits in
    the semaphore, the permits and guards alive and the calls of [acquire] that hold one add up
    to the configured number plus one for every guard that was dropped, so without dropped
    guards at most [max_concurrent_binaries] binaries run, and each is refused exactly when the
    permits are used up; recovery permits never exceed [reserved_permits], whatever the general
    pool does; the counter of waiting calls is the number of calls that are counted, those whose
    future was dropped included; and the two counters of available permits are the
    configured number less every permit ever taken, but for those of dropped guards. *)
Theorem exec_semaphore_accounts (c : SemaphoreConfig) (es : list SemStep) (s : ExecutionSemaphore)
  (Hc : sem_config_ok c) (Hs : sem_steps es (exec_new c) = Some s) :
  let running := live_permits s + live_guards s + count_phase has_permit (calls s) in
  semaphore s + running = max_concurrent_binaries c + count_steps is_drop_guard es /\
  (count_steps is_drop_guard es = 0 ->
     running <= max_concurrent_binaries c /\
     ((try_acquire s).1 = true <-> running < max_concurrent_binaries c)) /\
  reserved_semaphore s + live_recovery s = reserved_permits c /\
  ((try_acquire_recovery s).1 = true <-> live_recovery s < reserved_permits c) /\
  waiting_count s = as_u64 (count_phase counted (calls s)) /\
  available_permits s = as_u64 (max_concurrent_binaries c - live_permits s - live_guards s
    - count_steps is_drop_permit es - count_phase is_admitted (calls s)) /\
  reserved_available s =
    as_u64 (reserved_permits c - live_recovery s - count_steps is_drop_recovery es).
Proof.
  destruct (sem_steps_inv _ _ _ _ _ _ _ (exec_new_inv c Hc) Hs) as [H1 H2 H3 H4 H5 H6 H7].
  cbn in *. unfold try_acquire, try_acquire_recovery.
  repeat split; try done; try lia;
    repeat match goal with |- context [0 <? ?x] => destruct (Z.ltb_spec 0 x) end; cbn; lia || done.
Qed.

(** ** One semaphore per workflow *)

(** The semaphore of a workflow is in the map once a task has it, and different workflows have
    different semaphores. *)
Record wsm_inv (m : WorkflowSemaphoreMap) (l : list Asking) : Prop := {
  wi_heap : forall w a, semaphores m !! w = Some a -> (a < length (heap m))%nat;
  wi_inj : forall w v a, semaphores m !! w = Some a -> semaphores m !! v = Some a -> w = v;
  wi_got : forall w a, Got w a ∈ l -> semaphores m !! w = Some a;
}.

Lemma wsm_inv_same m m' l :
  length (heap m') = length (heap m) -> semaphores m' = semaphores m -> wsm_inv m l -> wsm_inv m' l.
Proof. intros Hl Hs [H1 H2 H3]. split; rewrite ?Hs, ?Hl; done. Qed.

Lemma wsm_inv_append m l x :
  (forall w a, x = Got w a -> semaphores m !! w = Some a) -> wsm_inv m l -> wsm_inv m (l ++ [x]).
Proof.
  intros Hx [H1 H2 H3]. split; [done..|]. intros w a Hin.
  apply elem_of_app in Hin as [Hin|Hin]; [eauto|].
  apply list_elem_of_singleton in Hin. by apply Hx.
Qed.

Lemma create_section_inv w m a m' l i :
  create_section w m = (a, m') -> wsm_inv m l -> wsm_inv m' (<[i := Got w a]> l).
Proof.
  unfold create_section. intros E [H1 H2 H3].
  assert (forall v b, Got v b ∈ <[i := Got w a]> l -> (v = w /\ b = a) \/ semaphores m !! v = Some b)
    as Hin.
  { intros v b Hin. apply list_elem_of_lookup in Hin as [j Hj].
    destruct (decide (i = j)) as [ ->|Hn].
    - pose proof (lookup_lt_Some _ _ _ Hj) as Hlt. rewrite length_insert in Hlt.
      rewrite list_lookup_insert_eq in Hj by done. simplify_eq. by left.
    - rewrite list_lookup_insert_ne in Hj by done. right. eapply H3, list_elem_of_lookup_2, Hj. }
  destruct (semaphores m !! w) as [b|] eqn:Ew; simplify_eq/=.
  - split; [done..|]. intros v b Hb. by destruct (Hin v b Hb) as [[ -> ->]|].
  - assert (forall v b, semaphores m !! v = Some b -> b <> length (heap m)) as Hfresh.
    { intros v b Hb ->. specialize (H1 v _ Hb). lia. }
    split; cbn.
    + intros v b. rewrite length_app. cbn. destruct (decide (w = v)) as [ ->|].
      * rewrite lookup_insert_eq. intros [= <-]. lia.
      * rewrite lookup_insert_ne by done. intros Hb. specialize (H1 v b Hb). lia.
    + intros v u b. rewrite !lookup_insert. repeat case_decide; intros; simplify_eq; try done.
      all: first [by eapply H2 | exfalso; by eapply Hfresh].
    + intros v b Hb. destruct (Hin v b Hb) as [[ -> ->]|Hv]; [by rewrite lookup_insert_eq|].
      rewrite lookup_insert_ne; [done|]. intros ->. congruence.
Qed.

Lemma wsm_step_inv x y : wsm_step x y -> wsm_inv x.1 x.2 -> wsm_inv y.1 y.2.
Proof.
  intros Hs Hi.
  destruct Hs as [m l w a Hl|m l w Hl|m l i w a m' Hl Hc|m l a m' Ht|m l a m' Hg]; cbn in *.
  - apply wsm_inv_append; [|done]. by intros ? ? [= <- <-].
  - by apply wsm_inv_append.
  - by eapply create_section_inv.
  - unfold take_permit in Ht. repeat case_match; simplify_eq.
    eapply wsm_inv_same; [..|done]; cbn; [apply length_insert|done].
  - unfold give_permit in Hg. case_match; simplify_eq.
    eapply wsm_inv_same; [..|done]; cbn; [apply length_insert|done].
Qed.

Lemma wsm_reach_inv max m l : rtc wsm_step (wsm_new max, []) (m, l) -> wsm_inv m l.
Proof.
  intros Hr.
  enough (forall x y, rtc wsm_step x y -> wsm_inv x.1 x.2 -> wsm_inv y.1 y.2) as H.
  { apply (H _ _ Hr). split; cbn; [by intros ? ? ?..|]. intros w a Hin. by apply elem_of_nil in Hin. }
  intros x y Hxy. induction Hxy as [|x y z Hxy _ IH]; [done|]. intros Hi.
  by apply IH, (wsm_step_inv x y).
Qed.

(** Tasks that ask for the semaphores of workflows, the two critical sections of
    [get_or_create] interleaved in any way: two tasks that ask for one workflow get one and the
    same semaphore, tasks that ask for different workflows get different ones, and a task that
    missed and comes back later gets the semaphore the others have. *)
Theorem workflow_semaphores_agree (max : Z) (m : WorkflowSemaphoreMap) (l : list Asking)
  (Hr : rtc wsm_step (wsm_new max, []) (m, l)) :
  (forall w v a b, Got w a ∈ l -> Got v b ∈ l -> (w = v <-> a = b)) /\
  (forall w a, Got w a ∈ l -> create_section w m = (a, m)).
Proof.
  destruct (wsm_reach_inv max m l Hr) as [H1 H2 H3]. split.
  - intros w v a b Hw%H3 Hv%H3. split; intros ->; [congruence|by eapply H2].
  - intros w a Hw%H3. unfold create_section. by rewrite Hw.
Qed.

(** ** Levels of backpressure *)

Definition level (s : BackpressureStatus) : Z :=
  match s with Healthy => 0 | Moderate => 1 | Heavy => 2 | ShedLoad => 3 end.

(** The status never improves when more calls wait, and it sheds load exactly at the limit. *)
Lemma status_monotone available total max_waiters w1 w2 :
  w1 <= w2 ->
  level (calculate_backpressure_status available total w1 max_waiters)
    <= level (calculate_backpressure_status available total w2 max_waiters) /\
  (should_reject (calculate_backpressure_status available total w1 max_waiters) = true
     <-> max_waiters <= w1).
Proof.
  intros Hw. unfold calculate_backpressure_status.
  destruct (f64_ltb four_fifths _), (f64_ltb half _);
    repeat match goal with |- context [?x <=? ?y] => destruct (Z.leb_spec x y)
      | |- context [?x <? ?y] => destruct (Z.ltb_spec x y) end; cbn; split; split || idtac; lia || done.
Qed.

(** With the default configuration and nobody waiting, the quotients of [f64] put the levels at
    the exact shares: half of the 500 permits, and four fifths of them. *)
Lemma default_levels available :
  0 <= available <= 500 ->
  status_from_config_and_state sem_config_default available 0
  = if available <? 100 then Heavy else if available <? 250 then Moderate else Healthy.
Proof.
  intros Ha.
  assert (forallb (fun n => level (status_from_config_and_state sem_config_default (Z.of_nat n) 0)
    =? level (if Z.of_nat n <? 100 then Heavy else if Z.of_nat n <? 250 then Moderate else Healthy))
    (seq 0 501) = true) as H by by vm_compute.
  rewrite forallb_forall in H. specialize (H (Z.to_nat available) ltac:(apply in_seq; lia)).
  rewrite Z2Nat.id in H by lia. apply Z.eqb_eq in H.
  destruct (status_from_config_and_state _ _ _); repeat case_match; done.
Qed.

Module SemaphoreWitness.

Definition small : SemaphoreConfig := mkSemConfig 1 2 1 1.

(** A run with a permit, a waiting call and a recovery permit. *)
Definition busy_run : list SemStep := [STry; SEnter; SCheck 0; SRecovery; SDropPermit; SPermit 0].

Lemma exec_semaphore_accounts_witness :
  exists s, sem_steps busy_run (exec_new small) = Some s /\ semaphore s + 1 = 1 /\ live_recovery s = 1.
Proof.
  eexists. split; [vm_compute; reflexivity|]. split; [|done].
  eapply (proj1 (exec_semaphore_accounts small busy_run _ ltac:(split; cbn; lia)
    ltac:(vm_compute; reflexivity))).
Defined.

(** A task looks a workflow up and misses, another creates its semaphore, the first comes back. *)
Lemma workflow_semaphores_agree_witness :
  exists m, rtc wsm_step (wsm_new 1, []) (m, [Got "w" 0; Got "w" 0; Got "w" 0]) /\
    create_section "w" m = (0%nat, m).
Proof.
  eexists (mkWsm [1] {[ "w" := 0%nat ]} 1).
  assert (rtc wsm_step (wsm_new 1, [])
    (mkWsm [1] {[ "w" := 0%nat ]} 1, [Got "w" 0; Got "w" 0; Got "w" 0])) as Hr.
  { eapply rtc_l; [by apply (StepMiss _ _ "w")|].
    eapply rtc_l; [by apply (StepMiss _ _ "w")|].
    eapply rtc_l; [by apply (StepCreate _ _ 1 "w" 0 (mkWsm [1] {[ "w" := 0%nat ]} 1))|].
    eapply rtc_l; [by apply (StepCreate _ _ 0 "w" 0 (mkWsm [1] {[ "w" := 0%nat ]} 1))|].
    eapply rtc_l; [by apply (StepHit _ _ "w" 0)|]. apply rtc_refl. }
  split; [exact Hr|].
  apply (proj2 (workflow_semaphores_agree 1 _ _ Hr)). by apply list_elem_of_here.
Defined.

(** Dropping a guard gives two permits back: a second time round two guards are alive, one more
    than the limit. *)
Example guard_returns_two :
  exists s, sem_steps [SGuard; SDropGuard; SGuard; SGuard] (exec_new small) = Some s /\
    live_guards s = 2 /\ max_concurrent_binaries (sem_config s) = 1.
Proof. eexists. split; [vm_compute; reflexivity|done]. Qed.

(** The counter of available permits only falls: after two permits taken and given back it has
    wrapped, and an idle semaphore reports heavy load. *)
Example available_drifts :
  exists s, sem_steps [STry; SDropPermit; STry; SDropPermit] (exec_new small) = Some s /\
    semaphore s = 1 /\ available_permits s = u64_max /\ current_status s = Heavy.
Proof. eexists. split; [vm_compute; reflexivity|]. by vm_compute. Qed.

(** [acquire] answers [Admitted] with its permit already given back: any number of callers is
    admitted at once. *)
Example admitted_without_permit :
  exists s, sem_steps [SEnter; SCheck 0; SPermit 0; SUncount 0; SEnd 0;
                       SEnter; SCheck 1; SPermit 1; SUncount 1; SEnd 1]
              (exec_new small) = Some s /\
    calls s = [Answered DAdmitted; Answered DAdmitted] /\ semaphore s = 1.
Proof. eexists. split; [vm_compute; reflexivity|]. by vm_compute. Qed.

(** A call whose future is dropped while it waits stays counted: enough of them, and every
    later call is refused although nobody waits. *)
Example cancelled_call_leaks :
  exists s, sem_steps [STry; SEnter; SCheck 0; SCancel 0; SDropPermit; SEnter; SCheck 1;
                       SReject 1]
              (exec_new small) = Some s /\
    calls s = [Cancelled; Answered (Rejected LoadShed 5)] /\ semaphore s = 1.
Proof. eexists. split; [vm_compute; reflexivity|]. by vm_compute. Qed.

(** [cleanup_idle] forgets a semaphore a task still has: the next task gets another one, and the
    two together hold more permits than the limit of the workflow. *)
Example cleanup_splits_workflow :
  let (a, m1) := create_section "w" (wsm_new 1) in
  let (b, m2) := create_section "w" (cleanup_idle m1) in
  a <> b /\ exists m3, (take_permit a m2 ≫= take_permit b) = Some m3 /\ heap m3 = [0; 0].
Proof. cbn. split; [done|]. eexists. split; [vm_compute; reflexivity|done]. Qed.

End SemaphoreWitness.
