(* ===== verification/Signals.v ===== *)
(** * Signals

    How signals reach workflow instances: the [ControlActor] of [crates/vo-actor/src/lib.rs]
    with its commands over the interfaces of [signals/types.rs], whose mocks of
    [signals/handler.rs] are instances, and the buffer of [signal_buffer.rs] for signals that
    come before anyone waits for them. *)

From Stdlib Require Import Ascii.
From stdpp Require Import strings pretty.
From S2P Require Import Prelude Identifiers.

(** ** Data *)

(** [enum LifecycleState] of the actor crate, and [is_terminal]. *)
Inductive InstanceState : Set := SRunning | SFailed | SCompleted | SCancelled | SWaitingForSignal.
#[global] Instance InstanceState_eq_dec : EqDecision InstanceState.
Proof. solve_decision. Defined.
Definition state_is_terminal (s : InstanceState) : bool :=
  match s with SCompleted | SCancelled => true | _ => false end.

(** [WaitKey::parse] and [SignalPayload::from_bytes]. *)
Definition WaitKey_parse (input : string) : result string string :=
  if String.eqb input "" then Err "WaitKey cannot be empty"
  else if 256 <? Z.of_nat (String.length input)
  then Err ("WaitKey exceeds 256 characters: " +:+ pretty (String.length input))
  else Ok input.
Definition SignalPayload_from_bytes (bytes : list Z) : result string (list Z) :=
  if 65536 <? Z.of_nat (length bytes)
  then Err ("SignalPayload exceeds 64 KiB: " +:+ pretty (length bytes) +:+ " bytes")
  else Ok bytes.

(** [struct SignalAccepted], [struct InstanceResumed] and the events of the other commands. *)
Record SignalAccepted : Set := mkAccepted {
  acc_instance : InstanceId;
  acc_wait_key : string;
  acc_signal_id : string;
  acc_payload : list Z;
  accepted_at : Z;
}.
Record InstanceResumed : Set := mkResumed {
  res_instance : InstanceId;
  previous_binary_hash : string;
  resumed_binary_hash : string;
  resumed_at : Z;
}.
Record CancelRequested : Set := mkCancelRequested { req_instance : InstanceId; requested_at : Z }.
Record WorkflowCancelled : Set := mkCancelled { can_instance : InstanceId; cancelled_at : Z }.
Record WorkflowContinued : Set := mkContinued {
  old_instance_id : InstanceId;
  new_instance_id : InstanceId;
  continued_lineage : string;
  old_epoch : Z;
  new_epoch : Z;
  continued_at : Z;
  carried_dedupe_keys : list string;
  carried_wait_keys : list string;
}.

(** [enum AcceptResumeError], [CancelError], [ResumeError] and [ContinueAsNewError]; the reasons,
    secrets and nodes that are constants of the code are left out. *)
Inductive AcceptResumeError : Set :=
| ANotWaiting (i : InstanceId) (actual : InstanceState)
| AWaitKeyMismatch (i : InstanceId) (provided_key : string)
| ANotFound (i : InstanceId)
| APayloadTooLarge (i : InstanceId) (payload_size : Z)
| ALockFailed (i : InstanceId) (reason : string)
| AStorageError (i : InstanceId) (reason : string).
Inductive CancelError : Set :=
| CAlreadyTerminal (i : InstanceId) (current : InstanceState)
| CNotFound (i : InstanceId)
| CLockFailed (i : InstanceId)
| CStorageError (i : InstanceId).
Inductive ContinueAsNewError : Set :=
| NNotFound (i : InstanceId)
| NAlreadyTerminal (i : InstanceId) (current : InstanceState)
| NLineageTombstoned (lineage_id : string)
| NLockFailed (i : InstanceId)
| NStorageError (i : InstanceId).
Inductive ResumeError : Set :=
| RInvalidState (actual : InstanceState)
| RMissingSecrets (i : InstanceId)
| RNodeNotFound (i : InstanceId)
| RNoPathToTerminal (i : InstanceId)
| RNotFound (i : InstanceId)
| RLockFailed (i : InstanceId)
| RStorageError (i : InstanceId).

(** [AcceptResumeError::is_precondition] and [is_transient]. *)
Definition is_precondition (e : AcceptResumeError) : bool :=
  match e with ALockFailed _ _ | AStorageError _ _ => false | _ => true end.
Definition is_transient (e : AcceptResumeError) : bool :=
  match e with ALockFailed _ _ | AStorageError _ _ => true | _ => false end.

(** [enum SignalStorageError] and [enum SignalWorkQueueError], with their messages. *)
Inductive SignalStorageError : Set :=
| StInstanceNotFound (i : InstanceId)
| StWriteError (i : InstanceId) (reason : string)
| StDeleteError (i : InstanceId) (reason : string).
Inductive SignalWorkQueueError : Set :=
| QInstanceNotFound (i : InstanceId)
| QEnqueueError (i : InstanceId) (reason : string).
Definition storage_error_text (e : SignalStorageError) : string :=
  match e with
  | StInstanceNotFound i => "Instance not found: " +:+ instance_id_str i
  | StWriteError i r => "Write error for " +:+ instance_id_str i +:+ ": " +:+ r
  | StDeleteError i r => "Delete error for " +:+ instance_id_str i +:+ ": " +:+ r
  end.
Definition queue_error_text (e : SignalWorkQueueError) : string :=
  match e with
  | QInstanceNotFound i => "Instance not found: " +:+ instance_id_str i
  | QEnqueueError i r => "Enqueue error for " +:+ instance_id_str i +:+ ": " +:+ r
  end.

(** ** Interfaces *)

(** [trait StateLookup]. *)
Class StateLookup : Type := {
  derive_lifecycle_state : InstanceId -> InstanceState;
  derive_error_type : InstanceId -> option string;
}.

(** [trait SignalStorage] and [trait SignalWorkQueue], with a view of what is in them. *)
Class SignalStorage (St : Type) : Type := {
  persisted : St -> list SignalAccepted;
  persist_signal_accepted : St -> SignalAccepted -> result SignalStorageError unit * St;
  remove_signal_accepted : St -> InstanceId -> string -> result SignalStorageError unit * St;
}.
Class SignalWorkQueue (Q : Type) : Type := {
  signal_queue : Q -> list InstanceId;
  signal_enqueue : Q -> InstanceId -> result SignalWorkQueueError unit * Q;
}.

(** The signals an instance was sent under an identifier. *)
Definition is_signal (i : InstanceId) (sid : string) (a : SignalAccepted) : Prop :=
  acc_instance a = i /\ acc_signal_id a = sid.
#[global] Instance is_signal_dec i sid a : Decision (is_signal i sid a).
Proof. unfold is_signal. apply _. Defined.

Class SignalStorageLaws (St : Type) `{S : !SignalStorage St} : Prop := {
  persist_law : forall s a,
    persisted (persist_signal_accepted s a).2
    = if is_ok (persist_signal_accepted s a).1 then persisted s ++ [a] else persisted s;
  remove_law : forall s i sid,
    persisted (remove_signal_accepted s i sid).2
    = if is_ok (remove_signal_accepted s i sid).1
      then base.filter (fun a => ~ is_signal i sid a) (persisted s) else persisted s;
}.
Class SignalWorkQueueLaws (Q : Type) `{S : !SignalWorkQueue Q} : Prop := {
  signal_enqueue_law : forall q i,
    signal_queue (signal_enqueue q i).2
    = if is_ok (signal_enqueue q i).1 then signal_queue q ++ [i] else signal_queue q;
}.

(** [struct TestStateLookup]: the state is a letter of the identifier. *)
Definition test_lookup : StateLookup := {|
  derive_lifecycle_state i :=
    match String.get 22 (instance_id_str i) with
    | Some "C"%char => SCompleted
    | Some "X"%char => SCancelled
    | Some "F"%char => SFailed
    | Some "W"%char => SWaitingForSignal
    | _ => SRunning
    end;
  derive_error_type i :=
    match String.get 20 (instance_id_str i) with
    | Some "A"%char => Some "lock"
    | Some "S"%char => Some "storage"
    | Some "M"%char => Some "missing"
    | Some "N"%char => Some "nodenotfound"
    | Some "P"%char => Some "nopathtoterminal"
    | _ => None
    end;
|}.

(** [struct MockSignalStorage] and [struct MockSignalWorkQueue]. *)
Record MockSignalStorage : Set := mkMockStorage {
  mock_persisted : list SignalAccepted;
  storage_should_fail : bool;
}.
Record MockSignalWorkQueue : Set := mkMockQueue {
  mock_enqueued : list InstanceId;
  queue_should_fail : bool;
  instance_not_found : bool;
}.
Definition mock_persist (s : MockSignalStorage) (a : SignalAccepted)
  : result SignalStorageError unit * MockSignalStorage :=
  if storage_should_fail s then (Err (StWriteError (acc_instance a) "Mock storage failure"), s)
  else (Ok tt, mkMockStorage (mock_persisted s ++ [a]) (storage_should_fail s)).
Definition mock_remove (s : MockSignalStorage) (i : InstanceId) (sid : string)
  : result SignalStorageError unit * MockSignalStorage :=
  if storage_should_fail s then (Err (StDeleteError i "Mock storage failure"), s)
  else (Ok tt, mkMockStorage (base.filter (fun a => ~ is_signal i sid a) (mock_persisted s))
                 (storage_should_fail s)).
Definition mock_enqueue_resume (q : MockSignalWorkQueue) (i : InstanceId)
  : result SignalWorkQueueError unit * MockSignalWorkQueue :=
  if instance_not_found q then (Err (QInstanceNotFound i), q)
  else if queue_should_fail q then (Err (QEnqueueError i "Mock queue failure"), q)
  else (Ok tt, mkMockQueue (mock_enqueued q ++ [i]) (queue_should_fail q) (instance_not_found q)).

#[global] Instance mock_storage : SignalStorage MockSignalStorage := {|
  persisted := mock_persisted;
  persist_signal_accepted := mock_persist;
  remove_signal_accepted := mock_remove;
|}.
#[global] Instance mock_queue : SignalWorkQueue MockSignalWorkQueue := {|
  signal_queue := mock_enqueued;
  signal_enqueue := mock_enqueue_resume;
|}.
#[global] Instance mock_storage_laws : SignalStorageLaws MockSignalStorage.
Proof.
  split; intros; cbn; unfold mock_persist, mock_remove; destruct (storage_should_fail s); done.
Qed.
#[global] Instance mock_queue_laws : SignalWorkQueueLaws MockSignalWorkQueue.
Proof. split; intros; cbn; unfold mock_enqueue_resume; repeat case_match; done. Qed.

(** ** The control actor *)

Section ControlActor.
Context {SL : StateLookup} {St Q : Type} `{SS : !SignalStorage St} `{SQ : !SignalWorkQueue Q}.

(** An identifier of which no actor can exist. *)
Definition no_actor (i : InstanceId) : bool :=
  negb (String.length (instance_id_str i) =? 26)%nat || String.prefix "0000000000" (instance_id_str i).

(** [ControlActor::handle_cancel]; the two events have one time. *)
Definition handle_cancel (now : Z) (i : InstanceId)
  : result CancelError (CancelRequested * WorkflowCancelled) :=
  if no_actor i then Err (CNotFound i)
  else
    let state := derive_lifecycle_state i in
    if state_is_terminal state then Err (CAlreadyTerminal i state)
    else
      match derive_error_type i with
      | Some "lock" => Err (CLockFailed i)
      | Some "storage" => Err (CStorageError i)
      | _ => Ok (mkCancelRequested i now, mkCancelled i now)
      end.

(** [ControlActor::handle_resume]. *)
Definition handle_resume (now : Z) (i : InstanceId) : result ResumeError InstanceResumed :=
  if no_actor i then Err (RNotFound i)
  else
    let state := derive_lifecycle_state i in
    if decide (state = SFailed) then
      match derive_error_type i with
      | Some "lock" => Err (RLockFailed i)
      | Some "storage" => Err (RStorageError i)
      | Some "missing" => Err (RMissingSecrets i)
      | Some "nodenotfound" => Err (RNodeNotFound i)
      | Some "nopathtoterminal" => Err (RNoPathToTerminal i)
      | _ => Ok (mkResumed i "abcd1234" "efgh5678" now)
      end
    else Err (RInvalidState state).

(** [ControlActor::handle_continue_as_new]. *)
Definition handle_continue_as_new (now : Z) (i : InstanceId) (lineage : string) (new : InstanceId)
  : result ContinueAsNewError WorkflowContinued :=
  if no_actor i then Err (NNotFound i)
  else
    let state := derive_lifecycle_state i in
    if state_is_terminal state then Err (NAlreadyTerminal i state)
    else
      match derive_error_type i with
      | Some "lock" => Err (NLockFailed i)
      | Some "storage" => Err (NStorageError i)
      | _ => Ok (mkContinued i new lineage 0 1 now [] [])
      end.

(** [ControlActor::accept_and_resume]: the checks, in their order. *)
Definition accept_check (i : InstanceId) (wait_key sid : string) (payload : list Z)
  : option AcceptResumeError :=
  if no_actor i then Some (ANotFound i)
  else if 65536 <? Z.of_nat (length payload) then Some (APayloadTooLarge i (Z.of_nat (length payload)))
  else if decide (derive_lifecycle_state i <> SWaitingForSignal)
  then Some (ANotWaiting i (derive_lifecycle_state i))
  else if String.prefix "mismatch-" sid then Some (AWaitKeyMismatch i wait_key)
  else
    match derive_error_type i with
    | Some "lock" => Some (ALockFailed i "lock held by another writer")
    | Some "storage" => Some (AStorageError i "storage write failed")
    | _ => None
    end.

(** Its events are written to the storage and the queue of the actor, when it has both. *)
Definition accept_and_resume (now : Z) (i : InstanceId) (wait_key sid : string) (payload : list Z)
  (st : option St) (q : option Q)
  : result AcceptResumeError (SignalAccepted * InstanceResumed) * (option St * option Q) :=
  match accept_check i wait_key sid payload with
  | Some e => (Err e, (st, q))
  | None =>
      let accepted := mkAccepted i wait_key sid payload now in
      let resumed := mkResumed i "pre-signal-hash" "post-signal-hash" now in
      match st, q with
      | Some s, Some w =>
          match persist_signal_accepted s accepted with
          | (Err e, s) =>
              (Err (AStorageError i ("persist_signal_accepted failed: " +:+ storage_error_text e)),
               (Some s, Some w))
          | (Ok _, s) =>
              match signal_enqueue w i with
              | (Err e, w) =>
                  (Err (AStorageError i ("enqueue_resume failed: " +:+ queue_error_text e)),
                   (Some (remove_signal_accepted s i sid).2, Some w))
              | (Ok _, w) => (Ok (accepted, resumed), (Some s, Some w))
              end
          end
      | _, _ => (Ok (accepted, resumed), (st, q))
      end
  end.

(** A sequence of signals, with the acceptances that are answered. *)
Record SignalIn : Set := mkSignalIn {
  in_now : Z;
  in_instance : InstanceId;
  in_wait_key : string;
  in_signal_id : string;
  in_payload : list Z;
}.
Definition deliver (x : SignalIn) (st : option St) (q : option Q) :=
  accept_and_resume (in_now x) (in_instance x) (in_wait_key x) (in_signal_id x) (in_payload x) st q.
Fixpoint deliver_all (xs : list SignalIn) (st : option St) (q : option Q)
  : list SignalAccepted * (option St * option Q) :=
  match xs with
  | [] => ([], (st, q))
  | x :: xs =>
      let '(r, (st, q)) := deliver x st q in
      let '(l, res) := deliver_all xs st q in
      (match r with Ok (a, _) => a :: l | Err _ => l end, res)
  end.

(** *** What is accepted *)

Context `{HS : !SignalStorageLaws St} `{HQ : !SignalWorkQueueLaws Q}.

(** The storage can take back what it has just written. *)
Definition takes_back : Prop :=
  forall s a s', persist_signal_accepted s a = (Ok tt, s') ->
    is_ok (remove_signal_accepted s' (acc_instance a) (acc_signal_id a)).1 = true.

Lemma filter_fresh i sid (l : list SignalAccepted) :
  (forall a, a ∈ l -> ~ is_signal i sid a) -> base.filter (fun a => ~ is_signal i sid a) l = l.
Proof.
  induction l as [|x l IH]; intros Hl; [done|]. rewrite filter_cons, decide_True.
  - rewrite IH; [done|]. intros a Ha. apply Hl. by right.
  - apply Hl. left.
Qed.

(** One signal that is new to the storage: accepted, it is written and its instance queued;
    refused, the queue is as it was, and so is the storage, unless the signal was written and
    could not be taken back. *)
Lemma accept_and_resume_cases now i wk sid payload s w :
  (forall a, a ∈ persisted s -> ~ is_signal i sid a) ->
  let a := mkAccepted i wk sid payload now in
  exists s' w',
    (accept_and_resume now i wk sid payload (Some s) (Some w)).2 = (Some s', Some w') /\
    match (accept_and_resume now i wk sid payload (Some s) (Some w)).1 with
    | Ok (a', res) =>
        accept_check i wk sid payload = None /\ a' = a /\ res_instance res = i /\
        persisted s' = persisted s ++ [a] /\ signal_queue w' = signal_queue w ++ [i]
    | Err _ =>
        signal_queue w' = signal_queue w /\
        (persisted s' = persisted s \/
         persisted s' = persisted s ++ [a] /\ ~ takes_back /\ accept_check i wk sid payload = None)
    end.
Proof.
  intros Hf a. unfold accept_and_resume. destruct (accept_check i wk sid payload) as [e|] eqn:Ec; cbn; [by eauto 8|].
  fold a. pose proof (persist_law s a) as Hp.
  destruct (persist_signal_accepted s a) as [[[]|e] s1] eqn:Ep; cbn in *; [|by eauto 8].
  pose proof (signal_enqueue_law w i) as Hq.
  destruct (signal_enqueue w i) as [[[]|e] w1] eqn:Eq; cbn in *; [by eauto 10|].
  do 2 eexists. split; [done|]. split; [done|]. rewrite remove_law.
  destruct (is_ok (remove_signal_accepted s1 i sid).1) eqn:Er.
  - left. rewrite Hp, filter_app, filter_fresh by done.
    rewrite filter_cons, decide_False by (intros H; by apply H). by rewrite app_nil_r.
  - right. split; [done|]. split; [|done]. intros Htb. specialize (Htb _ _ _ Ep). cbn in Htb. congruence.
Qed.

(** A signal that passes the checks is accepted unless storage or queue fail. *)
Lemma accept_and_resume_succeeds now i wk sid payload s w :
  accept_check i wk sid payload = None ->
  is_ok (persist_signal_accepted s (mkAccepted i wk sid payload now)).1 = true ->
  is_ok (signal_enqueue w i).1 = true ->
  is_ok (accept_and_resume now i wk sid payload (Some s) (Some w)).1 = true.
Proof.
  unfold accept_and_resume. intros ->. destruct (persist_signal_accepted _ _) as [[]]; [|done].
  cbn. by destruct (signal_enqueue w i) as [[]].
Qed.

(** Whether a pair of instance and identifier is new to a storage. *)
Definition fresh_in (s : St) (x : SignalIn) : Prop :=
  forall a, a ∈ persisted s -> ~ is_signal (in_instance x) (in_signal_id x) a.
Definition signal_key (x : SignalIn) : InstanceId * string := (in_instance x, in_signal_id x).

(** The record of a signal. *)
Definition record_of (x : SignalIn) : SignalAccepted :=
  mkAccepted (in_instance x) (in_wait_key x) (in_signal_id x) (in_payload x) (in_now x).
Definition admissible (x : SignalIn) : Prop :=
  accept_check (in_instance x) (in_wait_key x) (in_signal_id x) (in_payload x) = None.
#[global] Instance admissible_dec x : Decision (admissible x).
Proof. unfold admissible. destruct (accept_check _ _ _ _); [by right|by left]. Defined.


End ControlActor.

(** ** The signal buffer *)

(** [enum BufferPolicy], [enum SignalDelivery], [enum BufferResult]; the overflow policies as
    the tests of [signal_buffer.rs] name them. *)
Inductive BufferPolicy : Set := Reject | BufferOne | BufferMany.
Inductive SignalDelivery : Set := DAccepted | DRejected | DBuffered.
Inductive BufferResult : Set := Buffered | BRejected | Dropped.
Inductive OverflowPolicy : Set := DropOldest | DropNewest | OverflowError.
Inductive BufferError : Set := Overflow (dropped_count : Z).
Definition is_buffering (p : BufferPolicy) : bool :=
  match p with Reject => false | _ => true end.

(** [struct BufferedSignal]. *)
Record BufferedSignal : Set := mkBuffered {
  buf_signal_id : string;
  buf_payload : list Z;
  buffered_at : Z;
}.

(** [SignalBufferConfig::new] and [default]: the limit per key. *)
Definition buffer_config_new (max : Z) : Z := Z.max max 1.
Definition buffer_config_default : Z := 100.

(** [enum SignalBufferEntry] with [len] and [iter]; [struct BufferKey] is the pair. *)
Inductive SignalBufferEntry : Set :=
| Single (s : BufferedSignal)
| Many (q : list BufferedSignal).
Definition entry_iter (e : SignalBufferEntry) : list BufferedSignal :=
  match e with Single s => [s] | Many q => q end.
Definition entry_len (e : SignalBufferEntry) : Z :=
  match e with Single _ => 1 | Many q => Z.of_nat (length q) end.

(** [struct SignalBuffer]. *)
Record SignalBuffer : Type := mkBuffer {
  buf_entries : gmap (InstanceId * string) SignalBufferEntry;
  max_buffered_per_key : Z;
}.
Definition buffer_new (max : Z) : SignalBuffer := mkBuffer ∅ max.
Definition set_entries (m : gmap (InstanceId * string) SignalBufferEntry) (b : SignalBuffer)
  : SignalBuffer := mkBuffer m (max_buffered_per_key b).

(** [apply_policy] and [can_buffer]. *)
Definition apply_policy (p : BufferPolicy) (has_matching_wait has_existing_buffer : bool)
  : SignalDelivery * option BufferResult :=
  if has_matching_wait then (DAccepted, None)
  else
    match p with
    | Reject => (DRejected, Some BRejected)
    | BufferOne =>
        if has_existing_buffer then (DRejected, Some BRejected) else (DBuffered, Some Buffered)
    | BufferMany => (DBuffered, Some Buffered)
    end.
Definition can_buffer (p : BufferPolicy) (current_buffer_len max : Z) : bool :=
  match p with
  | Reject => false
  | BufferOne => true
  | BufferMany => current_buffer_len <? max
  end.

(** [SignalBuffer::buffer_signal]. *)
Definition buffer_signal (k : InstanceId * string) (x : BufferedSignal) (p : BufferPolicy)
  (b : SignalBuffer) : BufferResult * SignalBuffer :=
  match p with
  | Reject => (BRejected, b)
  | BufferOne =>
      match buf_entries b !! k with
      | Some _ => (BRejected, b)
      | None => (Buffered, set_entries (<[k := Single x]> (buf_entries b)) b)
      end
  | BufferMany =>
      match default (Many []) (buf_entries b !! k) with
      | Many queue =>
          let queue := if max_buffered_per_key b <=? Z.of_nat (length queue) then tail queue else queue in
          (Buffered, set_entries (<[k := Many (queue ++ [x])]> (buf_entries b)) b)
      | Single old => (Buffered, set_entries (<[k := Many [old; x]]> (buf_entries b)) b)
      end
  end.

(** [SignalBuffer::buffer_signal_with_policy]. *)
Definition buffer_signal_with_policy (k : InstanceId * string) (x : BufferedSignal) (p : BufferPolicy)
  (o : OverflowPolicy) (b : SignalBuffer) : result BufferError BufferResult * SignalBuffer :=
  match p with
  | Reject => (Ok BRejected, b)
  | BufferOne =>
      match buf_entries b !! k with
      | Some _ => (Ok BRejected, b)
      | None => (Ok Buffered, set_entries (<[k := Single x]> (buf_entries b)) b)
      end
  | BufferMany =>
      match default (Many []) (buf_entries b !! k) with
      | Many queue =>
          let store q := set_entries (<[k := Many q]> (buf_entries b)) b in
          if max_buffered_per_key b <=? Z.of_nat (length queue) then
            match o with
            | DropOldest => (Ok Buffered, store (tail queue ++ [x]))
            | DropNewest => (Ok Dropped, store queue)
            | OverflowError => (Err (Overflow 1), store queue)
            end
          else (Ok Buffered, store (queue ++ [x]))
      | Single old => (Ok Buffered, set_entries (<[k := Many [old; x]]> (buf_entries b)) b)
      end
  end.

(** [SignalBuffer::pop_buffered]. *)
Definition pop_buffered (k : InstanceId * string) (b : SignalBuffer)
  : option BufferedSignal * SignalBuffer :=
  match buf_entries b !! k with
  | None => (None, b)
  | Some (Single x) => (Some x, set_entries (delete k (buf_entries b)) b)
  | Some (Many []) => (None, b)
  | Some (Many [x]) => (Some x, set_entries (delete k (buf_entries b)) b)
  | Some (Many (x :: q)) => (Some x, set_entries (<[k := Many q]> (buf_entries b)) b)
  end.

(** [peek_all], [buffered_count], [has_buffered_signals], [clear], [num_keys_with_signals] and
    [total_buffered_count]. *)
Definition peek_all (k : InstanceId * string) (b : SignalBuffer) : list BufferedSignal :=
  match buf_entries b !! k with Some e => entry_iter e | None => [] end.
Definition buffered_count (k : InstanceId * string) (b : SignalBuffer) : Z :=
  match buf_entries b !! k with Some e => entry_len e | None => 0 end.
Definition has_buffered_signals (k : InstanceId * string) (b : SignalBuffer) : bool :=
  0 <? buffered_count k b.
Definition clear_signals (k : InstanceId * string) (b : SignalBuffer) : SignalBuffer :=
  set_entries (delete k (buf_entries b)) b.
Definition num_keys_with_signals (b : SignalBuffer) : Z := Z.of_nat (size (buf_entries b)).
Definition total_buffered_count (b : SignalBuffer) : Z :=
  map_fold (fun _ e n => entry_len e + n) 0 (buf_entries b).

(** The calls and their answers. *)
Inductive BufferCall : Set :=
| BSend (k : InstanceId * string) (x : BufferedSignal) (p : BufferPolicy)
| BPop (k : InstanceId * string)
| BPeek (k : InstanceId * string)
| BClear (k : InstanceId * string).
Inductive BufferAnswer : Set :=
| BSent (r : BufferResult)
| BPopped (x : option BufferedSignal)
| BPeeked (l : list BufferedSignal) (n : Z)
| BCleared.
Definition buffer_call (c : BufferCall) (b : SignalBuffer) : BufferAnswer * SignalBuffer :=
  match c with
  | BSend k x p => let (r, b) := buffer_signal k x p b in (BSent r, b)
  | BPop k => let (x, b) := pop_buffered k b in (BPopped x, b)
  | BPeek k => (BPeeked (peek_all k b) (buffered_count k b), b)
  | BClear k => (BCleared, clear_signals k b)
  end.
Fixpoint buffer_calls (cs : list BufferCall) (b : SignalBuffer)
  : list (BufferCall * BufferAnswer) * SignalBuffer :=
  match cs with
  | [] => ([], b)
  | c :: cs =>
      let (r, b) := buffer_call c b in
      let (l, b) := buffer_calls cs b in ((c, r) :: l, b)
  end.

(** *** The contract: a queue per key *)

Definition Queues : Type := InstanceId * string -> list BufferedSignal.
Definition set_queue (k : InstanceId * string) (q : list BufferedSignal) (m : Queues) : Queues :=
  fun k' => if decide (k' = k) then q else m k'.

(** What a call answers and leaves: a signal joins the end of its queue, the oldest is handed
    out first, and nothing is lost. *)
Definition fifo_call (c : BufferCall) (m : Queues) : BufferAnswer * Queues :=
  match c with
  | BSend k x Reject => (BSent BRejected, m)
  | BSend k x BufferOne =>
      match m k with [] => (BSent Buffered, set_queue k [x] m) | _ => (BSent BRejected, m) end
  | BSend k x BufferMany => (BSent Buffered, set_queue k (m k ++ [x]) m)
  | BPop k =>
      match m k with [] => (BPopped None, m) | x :: q => (BPopped (Some x), set_queue k q m) end
  | BPeek k => (BPeeked (m k) (Z.of_nat (length (m k))), m)
  | BClear k => (BCleared, set_queue k [] m)
  end.
Fixpoint fifo_calls (cs : list BufferCall) (m : Queues)
  : list (BufferCall * BufferAnswer) * Queues :=
  match cs with
  | [] => ([], m)
  | c :: cs =>
      let (r, m) := fifo_call c m in
      let (l, m) := fifo_calls cs m in ((c, r) :: l, m)
  end.

(** No signal that is to be queued meets a queue with [max] signals. *)
Fixpoint room (max : Z) (cs : list BufferCall) (m : Queues) : Prop :=
  match cs with
  | [] => True
  | c :: cs =>
      match c with BSend k _ BufferMany => Z.of_nat (length (m k)) < max | _ => True end /\
      room max cs (fifo_call c m).2
  end.

(** What the code does with any call: a full queue gives up its oldest signal. *)
Definition queue_call (max : Z) (c : BufferCall) (m : Queues) : BufferAnswer * Queues :=
  match c with
  | BSend k x Reject => (BSent BRejected, m)
  | BSend k x BufferOne =>
      match m k with [] => (BSent Buffered, set_queue k [x] m) | _ => (BSent BRejected, m) end
  | BSend k x BufferMany =>
      let q := if max <=? Z.of_nat (length (m k)) then tail (m k) else m k in
      (BSent Buffered, set_queue k (q ++ [x]) m)
  | BPop k =>
      match m k with [] => (BPopped None, m) | x :: q => (BPopped (Some x), set_queue k q m) end
  | BPeek k => (BPeeked (m k) (Z.of_nat (length (m k))), m)
  | BClear k => (BCleared, set_queue k [] m)
  end.
Fixpoint queue_calls (max : Z) (cs : list BufferCall) (m : Queues)
  : list (BufferCall * BufferAnswer) * Queues :=
  match cs with
  | [] => ([], m)
  | c :: cs =>
      let (r, m) := queue_call max c m in
      let (l, m) := queue_calls max cs m in ((c, r) :: l, m)
  end.

(** The entries of a buffer are the queues that are not empty. *)
Record buffer_rep (b : SignalBuffer) (m : Queues) : Prop := {
  br_queue : forall k, m k = peek_all k b;
  br_some : forall k, buf_entries b !! k <> Some (Many []);
  br_bound : forall k, Z.of_nat (length (m k)) <= max_buffered_per_key b;
}.

Lemma rep_lookup b m k :
  buffer_rep b m ->
  match buf_entries b !! k with
  | None => m k = []
  | Some (Single x) => m k = [x]
  | Some (Many q) => m k = q /\ q <> []
  end.
Proof.
  intros [Hq Hs _]. specialize (Hq k). specialize (Hs k). unfold peek_all in Hq.
  destruct (buf_entries b !! k) as [[x|q]|]; [done| |done]. split; [done|]. by intros ->.
Qed.

Lemma rep_set b m k e :
  buffer_rep b m -> entry_iter e <> [] -> Z.of_nat (length (entry_iter e)) <= max_buffered_per_key b ->
  buffer_rep (set_entries (<[k := e]> (buf_entries b)) b) (set_queue k (entry_iter e) m).
Proof.
  intros [Hq Hs Hb] He Hl. split.
  - intros k'. unfold set_queue, peek_all; cbn. rewrite lookup_insert. repeat case_decide; try congruence.
    apply Hq.
  - intros k'; cbn. rewrite lookup_insert. case_decide; [|apply Hs]. by intros [= ->].
  - intros k'. unfold set_queue; cbn. case_decide; [done|apply Hb].
Qed.

Lemma rep_delete b m k :
  0 <= max_buffered_per_key b -> buffer_rep b m -> buffer_rep (clear_signals k b) (set_queue k [] m).
Proof.
  intros Hm [Hq Hs Hb]. split.
  - intros k'. unfold set_queue, peek_all, clear_signals; cbn. rewrite lookup_delete.
    repeat case_decide; try congruence. apply Hq.
  - intros k'; cbn. rewrite lookup_delete. case_decide; [done|apply Hs].
  - intros k'. unfold set_queue; cbn. case_decide; [done|apply Hb].
Qed.

Lemma length_tail_snoc {A} (q : list A) x :
  q <> [] -> length (tail q ++ [x]) = length q.
Proof. destruct q; [done|]. intros _. rewrite length_app. cbn. lia. Qed.

Lemma buffer_call_rep c b m :
  2 <= max_buffered_per_key b -> buffer_rep b m ->
  exists b' m', queue_call (max_buffered_per_key b) c m = ((buffer_call c b).1, m') /\
    (buffer_call c b).2 = b' /\ buffer_rep b' m' /\ max_buffered_per_key b' = max_buffered_per_key b.
Proof.
  intros Hm Hr. destruct c as [k x p|k|k|k]; cbn;
    pose proof (rep_lookup b m k Hr) as Hk; pose proof (br_bound b m Hr k) as Hb.
  - destruct p; cbn; [by eauto 6|..].
    + destruct (buf_entries b !! k) as [[y|q]|] eqn:Ek; cbn.
      * rewrite Hk. by eauto 6.
      * destruct Hk as [-> Hn]. destruct q; [done|]. by eauto 6.
      * rewrite Hk. do 2 eexists. split_and!; [done..| |done]. apply (rep_set b m k (Single x)); cbn; done || lia.
    + destruct (buf_entries b !! k) as [[y|q]|] eqn:Ek; cbn.
      * rewrite Hk. cbn. rewrite (proj2 (Z.leb_gt _ _)) by lia. do 2 eexists.
        split_and!; [done..| |done]. apply (rep_set b m k (Many [y; x])); cbn; done || lia.
      * destruct Hk as [Hk Hn]. rewrite Hk in *. do 2 eexists. split_and!; [done..| |done].
        apply (rep_set b m k (Many _)); cbn; [done|by intros [_ ?]%app_nil|].
        destruct (Z.leb_spec (max_buffered_per_key b) (Z.of_nat (length q))).
        -- rewrite length_tail_snoc by done. lia.
        -- rewrite length_app. cbn. lia.
      * rewrite Hk. cbn. rewrite (proj2 (Z.leb_gt _ _)) by lia. do 2 eexists.
        split_and!; [done..| |done]. apply (rep_set b m k (Many [x])); cbn; done || lia.
  - unfold pop_buffered. destruct (buf_entries b !! k) as [[y|q]|] eqn:Ek; cbn.
    + rewrite Hk. do 2 eexists. split_and!; [done..| |done]. apply rep_delete; [lia|done].
    + destruct Hk as [Hk Hn]. rewrite Hk in *. destruct q as [|y [|z q]]; [done|..]; cbn.
      * do 2 eexists. split_and!; [done..| |done]. apply rep_delete; [lia|done].
      * do 2 eexists. split_and!; [done..| |done]. apply (rep_set b m k (Many (z :: q))); cbn in *; done || lia.
    + rewrite Hk. by eauto 6.
  - do 2 eexists. split_and!; [|done..]. rewrite (br_queue b m Hr). f_equal. f_equal.
    unfold peek_all, buffered_count. by destruct (buf_entries b !! k) as [[]|].
  - do 2 eexists. split_and!; [done..| |done]. apply rep_delete; [lia|done].
Qed.

(** The signals of a key that were taken into the buffer, and those handed out. *)
Definition taken_for (k : InstanceId * string) (tr : list (BufferCall * BufferAnswer)) : list BufferedSignal :=
  omap (fun e => match e with
    | (BSend k' x _, BSent Buffered) => if decide (k' = k) then Some x else None
    | _ => None end) tr.
Definition delivered_for (k : InstanceId * string) (tr : list (BufferCall * BufferAnswer)) : list BufferedSignal :=
  omap (fun e => match e with
    | (BPop k', BPopped (Some x)) => if decide (k' = k) then Some x else None
    | _ => None end) tr.

(** With room, the queues are the plain ones. *)
Lemma queue_calls_room max cs m : room max cs m -> queue_calls max cs m = fifo_calls cs m.
Proof.
  revert m. induction cs as [|c cs IH]; intros m; [done|]. cbn [room queue_calls fifo_calls]. intros [Hc Hr].
  assert (queue_call max c m = fifo_call c m) as ->.
  { destruct c as [k x []| | |]; cbn; [done..| |done|done|done]. by rewrite (proj2 (Z.leb_gt _ _)). }
  destruct (fifo_call c m) as [r m1]. cbn in Hr. by rewrite (IH m1 Hr).
Qed.

(** Each signal of a key is handed out at most once and in order, and all of them, unless
    the key is cleared. *)
Lemma fifo_call_order c m r m' k :
  fifo_call c m = (r, m') ->
  delivered_for k [(c, r)] ++ m' k `sublist_of` m k ++ taken_for k [(c, r)] /\
  (c <> BClear k -> delivered_for k [(c, r)] ++ m' k = m k ++ taken_for k [(c, r)]).
Proof.
  intros E.
  assert (c <> BClear k -> delivered_for k [(c, r)] ++ m' k = m k ++ taken_for k [(c, r)]) as Heq.
  { intros Hne. destruct c as [k' x p|k'|k'|k']; cbn in E; [destruct p| | |]; repeat case_match;
      simplify_eq; unfold taken_for, delivered_for, set_queue; cbn; repeat case_decide; simplify_eq/=;
      rewrite ?app_nil_r; try done.
    all: repeat match goal with H : ?f ?j = _ |- context [?f ?j] => rewrite H end; done. }
  split; [|done]. destruct c as [| | |k']; [by rewrite Heq..|].
  destruct (decide (k' = k)) as [->|Hne]; [|rewrite Heq; [done|congruence]].
  cbn in E. simplify_eq. unfold set_queue. cbn. rewrite decide_True by done. apply sublist_nil_l.
Qed.

Lemma fifo_calls_order cs m tr m' k :
  fifo_calls cs m = (tr, m') ->
  delivered_for k tr ++ m' k `sublist_of` m k ++ taken_for k tr /\
  (BClear k ∉ cs -> delivered_for k tr ++ m' k = m k ++ taken_for k tr).
Proof.
  revert m tr. induction cs as [|c cs IH]; intros m tr E; cbn in E.
  { simplify_eq/=. by rewrite app_nil_r. }
  destruct (fifo_call c m) as [r m1] eqn:Ec. destruct (fifo_calls cs m1) as [l m2] eqn:El.
  simplify_eq. destruct (IH m1 l El) as [IH1 IH2]. destruct (fifo_call_order _ _ _ _ k Ec) as [H1 H2].
  change ((c, r) :: l) with ([(c, r)] ++ l). unfold delivered_for, taken_for in *. rewrite !omap_app.
  rewrite <- app_assoc. split.
  - etrans; [apply sublist_app; [reflexivity|exact IH1]|].
    rewrite !app_assoc. by apply sublist_app.
  - intros [Hc Hcs]%not_elem_of_cons. rewrite IH2 by done. rewrite !app_assoc. f_equal. apply H2. congruence.
Qed.

Lemma buffer_calls_rep cs b m :
  2 <= max_buffered_per_key b -> buffer_rep b m ->
  exists m', queue_calls (max_buffered_per_key b) cs m = ((buffer_calls cs b).1, m') /\
    buffer_rep (buffer_calls cs b).2 m' /\
    max_buffered_per_key (buffer_calls cs b).2 = max_buffered_per_key b.
Proof.
  revert b m. induction cs as [|c cs IH]; intros b m Hm Hr; cbn; [by eauto|].
  destruct (buffer_call_rep c b m Hm Hr) as (b1 & m1 & Ec & <- & Hr1 & Hmax). rewrite Ec.
  destruct (buffer_call c b) as [r b1]. cbn in *. rewrite <- Hmax in Hm.
  destruct (IH b1 m1 Hm Hr1) as (m2 & E & Hr2 & Hmax2). rewrite Hmax in E. rewrite E.
  destruct (buffer_calls cs b1) as [l b2]. cbn in *. rewrite <- Hmax. by eauto.
Qed.

(** C29. With a limit of two or more, no key ever has more signals waiting than the limit. And on
    every sequence of calls in which no signal that is to be queued meets a full queue, the
    buffer answers as a family of queues does, one for each instance and wait key: the signals
    of a key are handed out at most once and in the order in which they were taken in, and
    unless the key is cleared those handed out, followed by those still waiting, are exactly
    those taken in. *)
Theorem signal_buffer_refines_queues (max : Z) (cs : list BufferCall) (Hmax : 2 <= max) :
  let '(tr, b) := buffer_calls cs (buffer_new max) in
  (forall k, buffered_count k b <= max) /\
  (room max cs (fun _ => []) ->
   let '(tr', m) := fifo_calls cs (fun _ => []) in
   tr = tr' /\
   forall k, peek_all k b = m k /\ buffered_count k b = Z.of_nat (length (m k)) /\
     delivered_for k tr ++ peek_all k b `sublist_of` taken_for k tr /\
     (BClear k ∉ cs -> delivered_for k tr ++ peek_all k b = taken_for k tr)).
Proof.
  destruct (buffer_calls_rep cs (buffer_new max) (fun _ => [])) as (m & E & Hr & Hmax').
  { done. }
  { split; cbn; [done|intros k; by rewrite lookup_empty|lia]. }
  cbn [max_buffered_per_key buffer_new] in E, Hmax'.
  destruct (buffer_calls cs (buffer_new max)) as [tr b]. cbn in E, Hr, Hmax'.
  assert (forall k, buffered_count k b = Z.of_nat (length (m k))) as Hcount.
  { intros k. rewrite (br_queue b m Hr k). unfold peek_all, buffered_count.
    by destruct (buf_entries b !! k) as [[]|]. }
  split; [intros k; rewrite Hcount, <- Hmax'; apply (br_bound b m Hr)|].
  intros Hroom. rewrite (queue_calls_room _ _ _ Hroom) in E. rewrite E. split; [done|]. intros k.
  rewrite <- (br_queue b m Hr k). destruct (fifo_calls_order _ _ _ _ k E) as [H1 H2]. by split_and!.
Qed.

(** The plain call is the one that drops the oldest signal. *)
Lemma buffer_signal_default k x p b :
  buffer_signal_with_policy k x p DropOldest b = (Ok (buffer_signal k x p b).1, (buffer_signal k x p b).2).
Proof.
  destruct p; cbn; [done|by case_match|]. case_match; [done|].
  by destruct (max_buffered_per_key b <=? _).
Qed.

Module SignalsWitness.

Definition waiting_instance : InstanceId := mkInstanceId "01H5JYV4XHGSR2F8KZ9B00WAAA".
Definition approval (sid : string) : SignalIn := mkSignalIn 7 waiting_instance "approval" sid [1; 2].
Definition empty_storage : MockSignalStorage := mkMockStorage [] false.
Definition empty_queue : MockSignalWorkQueue := mkMockQueue [] false false.

Lemma mock_takes_back : takes_back (St := MockSignalStorage).
Proof.
  intros s a s'. cbn. unfold mock_persist. destruct (storage_should_fail s) eqn:E; intros [= <-].
  done.
Qed.


(** The rollback of a refused signal removes an earlier signal with its identifier, which was
    accepted. *)
Example rollback_erases_earlier :
  let x := approval "a" in
  let st := mkMockStorage [mkAccepted waiting_instance "approval" "a" [] 3] false in
  let '(r, (st', _)) := deliver (SL := test_lookup) x (Some st) (Some (mkMockQueue [] true false)) in
  is_ok r = false /\ st' = Some (mkMockStorage [] false).
Proof. by vm_compute. Qed.

(** The same signal sent twice is accepted and resumes its instance twice. *)
Example duplicate_accepted :
  let '(acc, (_, q)) :=
    deliver_all (SL := test_lookup) [approval "a"; approval "a"] (Some empty_storage) (Some empty_queue) in
  length acc = 2%nat /\ mock_enqueued <$> q = Some [waiting_instance; waiting_instance].
Proof. by vm_compute. Qed.

(** An actor with a storage and no queue answers that it accepted, and stores nothing. *)
Example accepted_nowhere :
  let '(r, (st, _)) :=
    deliver (SL := test_lookup) (Q := MockSignalWorkQueue) (approval "a") (Some empty_storage) None in
  is_ok r = true /\ st = Some empty_storage.
Proof. by vm_compute. Qed.

(** Every continuation goes from epoch 0 to epoch 1 and carries nothing over. *)
Lemma continue_forgets (SL : StateLookup) now i lineage new c :
  handle_continue_as_new now i lineage new = Ok c ->
  old_epoch c = 0 /\ new_epoch c = 1 /\ carried_dedupe_keys c = [] /\ carried_wait_keys c = [].
Proof. unfold handle_continue_as_new. repeat case_match; by intros [= <-]. Qed.

Definition key : InstanceId * string := (waiting_instance, "approval").
Definition signal (id : string) : BufferedSignal := mkBuffered id [] 0.
Definition sends : list BufferCall :=
  [BSend key (signal "1") BufferOne; BSend key (signal "2") BufferMany; BSend key (signal "3") BufferMany;
   BPop key; BPeek key].

Lemma sends_room : room 3 sends (fun _ => []).
Proof. vm_compute. by repeat split. Qed.

Lemma signal_buffer_refines_queues_witness :
  let '(tr, b) := buffer_calls sends (buffer_new 3) in
  tr.*2 = [BSent Buffered; BSent Buffered; BSent Buffered; BPopped (Some (signal "1"));
           BPeeked [signal "2"; signal "3"] 2] /\
  delivered_for key tr ++ peek_all key b = taken_for key tr.
Proof.
  pose proof (signal_buffer_refines_queues 3 sends ltac:(lia)) as H.
  assert ((buffer_calls sends (buffer_new 3)).1.*2
    = [BSent Buffered; BSent Buffered; BSent Buffered; BPopped (Some (signal "1"));
       BPeeked [signal "2"; signal "3"] 2]) as Ha by (vm_compute; reflexivity).
  destruct (buffer_calls sends (buffer_new 3)) as [tr b]. destruct H as [_ H]. specialize (H sends_room).
  destruct (fifo_calls sends _) as [tr' m].
  split; [exact Ha|]. apply (proj2 (proj2 (proj2 (proj2 H key)))).
  intros Hin. repeat (apply elem_of_cons in Hin as [Hin|Hin]; [discriminate|]). by apply elem_of_nil in Hin.
Defined.

(** With a limit of one, a signal joins a single one unchecked: the key holds two. *)
Example single_limit_exceeded :
  let '(_, b) := buffer_calls (take 2 sends) (buffer_new 1) in buffered_count key b = 2.
Proof. by vm_compute. Qed.

(** A full buffer answers that it buffered the signal, having dropped the oldest, where
    [can_buffer] says that it would not. *)
Example full_buffer_answers :
  let '(_, b) := buffer_calls (take 2 sends) (buffer_new 2) in
  can_buffer BufferMany (buffered_count key b) 2 = false /\
  (buffer_signal key (signal "3") BufferMany b).1 = Buffered /\
  peek_all key (buffer_signal key (signal "3") BufferMany b).2 = [signal "2"; signal "3"].
Proof. by vm_compute. Qed.

End SignalsWitness.
