(* ===== verification/ActorLifecycle.v ===== *)
(** * Actors: the instance registry, lifecycle and shutdown

    [crates/vo-actor/src/instance_registry.rs]: at most one actor per instance;
    [lifecycle/]: the states of actors, their children, failures, and the ordered clean-up of
    [ordered_drop.rs] and [shutdown.rs]. *)

From S2P Require Import Prelude Identifiers.

(** ** The instance registry *)

(** [enum RegistryError]; handles are their numbers, times milliseconds. *)
Inductive RegistryError : Set :=
| StopFailed (i : InstanceId) (reason : string)
| StopTimeout (i : InstanceId) (timeout : Z)
| NotRegistered (i : InstanceId).

(** [enum StopFnOutcome], [determine_register_outcome]. *)
Inductive StopFnOutcome : Set := StopSuccess | StopFailure (reason : string) | StopLate.
Definition determine_register_outcome (o : StopFnOutcome) (i : InstanceId) (timeout : Z)
  : result RegistryError unit :=
  match o with
  | StopSuccess => Ok tt
  | StopFailure reason => Err (StopFailed i reason)
  | StopLate => Err (StopTimeout i timeout)
  end.

(** What a stop function does: it returns after a time, panics, or never ends. *)
Inductive StopRun : Set :=
| StopReturns (after : Z) (r : result string unit)
| StopPanics
| StopHangs.

(** How a call ends. *)
Inductive CallEnd (A : Type) : Type := Returned (a : A) (elapsed : Z) | Panicked | Blocked.
Arguments Returned {A}. Arguments Panicked {A}. Arguments Blocked {A}.

(** [execute_stop_fn_with_timeout]: the outcome is what the channel gives within the timeout;
    the scope ends when the thread has ended, and panics if it panicked. *)
Definition execute_stop_fn_with_timeout (run : StopRun) (timeout : Z) : CallEnd StopFnOutcome :=
  match run with
  | StopReturns after r =>
      Returned
        (if after <=? timeout then
           match r with Ok _ => StopSuccess | Err reason => StopFailure reason end
         else StopLate) after
  | StopPanics => Panicked
  | StopHangs => Blocked
  end.

(** [struct InstanceRegistry]. *)
Record InstanceRegistry : Type := mkRegistry {
  reg_entries : gmap InstanceId Z;
  stop_timeout : Z;
}.

(** [InstanceRegistry::new], which panics on a timeout of zero. *)
Definition registry_new (timeout : Z) : option InstanceRegistry :=
  if 0 <? timeout then Some (mkRegistry ∅ timeout) else None.

Definition with_reg (m : gmap InstanceId Z) (g : InstanceRegistry) : InstanceRegistry :=
  mkRegistry m (stop_timeout g).

(** [InstanceRegistry::register]: the entry is taken out, and put back if the prior actor did
    not stop in time. *)
Definition register (i : InstanceId) (handle : Z) (run : StopRun) (g : InstanceRegistry)
  : CallEnd (result RegistryError unit) * InstanceRegistry :=
  match reg_entries g !! i with
  | None => (Returned (Ok tt) 0, with_reg (<[i := handle]> (reg_entries g)) g)
  | Some prior =>
      let g := with_reg (delete i (reg_entries g)) g in
      match execute_stop_fn_with_timeout run (stop_timeout g) with
      | Panicked => (Panicked, g)
      | Blocked => (Blocked, g)
      | Returned o elapsed =>
          let r := determine_register_outcome o i (stop_timeout g) in
          (Returned r elapsed,
           with_reg (<[i := if is_ok r then handle else prior]> (reg_entries g)) g)
      end
  end.

(** [deregister], [lookup], [is_active] and [active_count]. *)
Definition deregister (i : InstanceId) (g : InstanceRegistry)
  : result RegistryError Z * InstanceRegistry :=
  match reg_entries g !! i with
  | Some h => (Ok h, with_reg (delete i (reg_entries g)) g)
  | None => (Err (NotRegistered i), g)
  end.
Definition registry_lookup (i : InstanceId) (g : InstanceRegistry) : option Z := reg_entries g !! i.
Definition is_active (i : InstanceId) (g : InstanceRegistry) : bool := bool_decide (is_Some (reg_entries g !! i)).
Definition active_count (g : InstanceRegistry) : Z := Z.of_nat (size (reg_entries g)).

(** The world around the registry: the actors that run. A client that starts an actor registers
    it and drops it unless that succeeds; a stop function that returns a success has stopped
    its actor, in time or not; a client that deregisters an actor stops it. *)
Inductive RegistryCall : Set :=
| RRegister (i : InstanceId) (handle : Z) (run : StopRun)
| RDeregister (i : InstanceId).

Definition stopped_by (run : StopRun) : bool :=
  match run with StopReturns _ (Ok _) => true | _ => false end.
Definition live_after (c : RegistryCall) (g : InstanceRegistry) (live : gset (InstanceId * Z))
  : gset (InstanceId * Z) :=
  match c with
  | RRegister i h run =>
      let stopped :=
        match reg_entries g !! i with
        | Some p => if stopped_by run then live ∖ {[ (i, p) ]} else live
        | None => live
        end in
      match (register i h run g).1 with Returned (Ok _) _ => {[ (i, h) ]} ∪ stopped | _ => stopped end
  | RDeregister i =>
      match reg_entries g !! i with Some p => live ∖ {[ (i, p) ]} | None => live end
  end.
Definition registry_after (c : RegistryCall) (g : InstanceRegistry) : InstanceRegistry :=
  match c with
  | RRegister i h run => (register i h run g).2
  | RDeregister i => (deregister i g).2
  end.

(** A stop function that ends, and one that moreover answers in time. *)
Definition call_ends (c : RegistryCall) : Prop :=
  match c with RRegister _ _ (StopReturns _ _) | RDeregister _ => True | _ => False end.
Definition call_in_time (timeout : Z) (c : RegistryCall) : Prop :=
  match c with RRegister _ _ (StopReturns after _) => after <= timeout | RDeregister _ => True | _ => False end.

Fixpoint registry_run (cs : list RegistryCall) (g : InstanceRegistry) (live : gset (InstanceId * Z))
  : InstanceRegistry * gset (InstanceId * Z) :=
  match cs with
  | [] => (g, live)
  | c :: cs => registry_run cs (registry_after c g) (live_after c g live)
  end.

(** ** Lifecycle *)

(** [enum ActorLifecycleState] with its predicates, [enum LifecycleTransition]. *)
Inductive ActorLifecycleState : Set := APending | ARunning | AStopping | AStopped | AFailed.
#[global] Instance ActorLifecycleState_eq_dec : EqDecision ActorLifecycleState.
Proof. solve_decision. Defined.
Inductive LifecycleTransition : Set := LStart | LStop | LChildStopped | LAllChildrenStopped | LFail.
#[global] Instance LifecycleTransition_eq_dec : EqDecision LifecycleTransition.
Proof. solve_decision. Defined.

Definition actor_is_terminal (s : ActorLifecycleState) : bool :=
  match s with AStopped | AFailed => true | _ => false end.
Definition is_stopping (s : ActorLifecycleState) : bool :=
  match s with AStopping | AStopped => true | _ => false end.
Definition can_spawn_child (s : ActorLifecycleState) : bool :=
  match s with APending | ARunning => true | _ => false end.
Definition valid_transitions (s : ActorLifecycleState) : list LifecycleTransition :=
  match s with
  | APending => [LStart; LFail]
  | ARunning => [LStop; LFail]
  | AStopping => [LChildStopped; LAllChildrenStopped]
  | AStopped | AFailed => []
  end.

(** [compute_next_state], [is_valid_transition]. *)
Definition compute_next_state (s : ActorLifecycleState) (t : LifecycleTransition)
  : option ActorLifecycleState :=
  match s, t with
  | APending, LStart => Some ARunning
  | APending, LFail => Some AFailed
  | ARunning, LStop => Some AStopping
  | ARunning, LFail => Some AFailed
  | AStopping, LChildStopped => Some AStopping
  | AStopping, LAllChildrenStopped => Some AStopped
  | _, _ => None
  end.
Definition is_valid_transition (s : ActorLifecycleState) (t : LifecycleTransition) : bool :=
  bool_decide (is_Some (compute_next_state s t)).

(** [enum FailureScope], [enum LineageStatus], [enum FailureOutcome] and
    [compute_failure_outcome]. *)
Inductive FailureScope : Set := ScopeEpoch | ScopeLineage.
Inductive LineageStatus : Set := LineageActive | LineageTombstoned.
Inductive FailureOutcome : Set :=
| EpochFailure (s : ActorLifecycleState) (l : LineageStatus)
| LineageFailure (s : ActorLifecycleState) (l : LineageStatus).
Definition can_lineage_spawn_epoch (o : FailureOutcome) : bool :=
  match o with EpochFailure _ LineageActive | LineageFailure _ LineageActive => true | _ => false end.
Definition compute_failure_outcome (current : ActorLifecycleState) (scope : FailureScope) : FailureOutcome :=
  match scope with
  | ScopeEpoch => EpochFailure AFailed LineageActive
  | ScopeLineage => LineageFailure AFailed LineageTombstoned
  end.

(** [struct ParentChildRegistry]: the children with their states and the times they came. *)
Definition Children : Type := gmap InstanceId (ActorLifecycleState * Z).
Definition add_child (now : Z) (i : InstanceId) (c : Children) : Children := <[i := (APending, now)]> c.
Definition remove_child (i : InstanceId) (c : Children) : Children := delete i c.
Definition update_child_state (i : InstanceId) (s : ActorLifecycleState) (c : Children)
  : option (ActorLifecycleState * Z) * Children :=
  match c !! i with
  | Some (_, t) => (Some (s, t), <[i := (s, t)]> c)
  | None => (None, c)
  end.
Definition get_children_by_state (s : ActorLifecycleState) (c : Children) : list InstanceId :=
  (base.filter (fun kv => kv.2.1 = s) (map_to_list c)).*1.
Definition all_children_terminal (c : Children) : bool :=
  forallb (fun kv => actor_is_terminal kv.2.1) (map_to_list c).
Definition all_children_stopped (c : Children) : bool :=
  forallb (fun kv => is_stopping kv.2.1) (map_to_list c).
Definition active_children_count (c : Children) : Z :=
  Z.of_nat (length (base.filter (fun kv => actor_is_terminal kv.2.1 = false) (map_to_list c))).

(** ** Ordered shutdown *)

(** [struct DropAction], by its name; actions do not panic. The registry holds the pending
    actions in the order of registration; its flag is 0, 1 while a shutdown runs, or 2. *)
Record DropAction : Set := mkDropAction { action_name : string; priority : Z }.
Record OrderedDropRegistry : Set := mkDropRegistry {
  actions : list DropAction;
  order_counter : Z;
  shutdown_flag : Z;
}.
Record ShutdownOrder : Set := mkShutdownOrder { executed : Z; failed : Z; skipped : bool }.
Inductive ShutdownResult : Set :=
| ShutdownSuccess
| ChildrenRunning (pending : Z)
| ShutdownTimeout (remaining : Z).

Definition drop_registry_new : OrderedDropRegistry := mkDropRegistry [] 0 0.

(** [OrderedDropRegistry::register] and [shutdown], with the actions it executes in order. *)
Definition register_drop (a : DropAction) (g : OrderedDropRegistry) : OrderedDropRegistry :=
  mkDropRegistry (actions g ++ [a]) (as_u64 (order_counter g + 1)) (shutdown_flag g).
Definition ordered_shutdown (g : OrderedDropRegistry)
  : list DropAction * ShutdownOrder * OrderedDropRegistry :=
  if shutdown_flag g =? 0 then
    let run := reverse (actions g) in
    (run, mkShutdownOrder (Z.of_nat (length run)) 0 false, mkDropRegistry [] (order_counter g) 2)
  else ([], mkShutdownOrder 0 0 true, g).

(** [OrderedDropRegistry::drop]: the actions it executes. *)
Definition drop_registry_drop (g : OrderedDropRegistry) : list DropAction :=
  if shutdown_flag g =? 2 then [] else actions g.

(** [ShutdownOrder::all_executed]; [ShutdownPropagator::propagate] and [propagate_async], and
    the drop of a propagator, then of its registry. *)
Definition all_executed (o : ShutdownOrder) : bool := negb (skipped o) && (failed o =? 0).
Definition propagate (g : OrderedDropRegistry) : list DropAction * ShutdownResult * OrderedDropRegistry :=
  let '(run, o, g) := ordered_shutdown g in
  (run, if 0 <? executed o then ShutdownSuccess else ChildrenRunning 0, g).
Definition propagate_async (g : OrderedDropRegistry)
  : list DropAction * ShutdownResult * OrderedDropRegistry :=
  let '(run, o, g) := ordered_shutdown g in
  (run, if 0 <? executed o then ShutdownSuccess else ShutdownTimeout 0, g).
Definition propagator_drop (g : OrderedDropRegistry) : list DropAction :=
  match actions g with
  | [] => drop_registry_drop g
  | _ => let '(run, _, g) := propagate g in run ++ drop_registry_drop g
  end.

(** Uses of a propagator, ended by its drop: the actions executed, in order. *)
Inductive DropCall : Set := DRegister (a : DropAction) | DShutdown.
Fixpoint drop_run (cs : list DropCall) (g : OrderedDropRegistry) : list DropAction :=
  match cs with
  | [] => propagator_drop g
  | DRegister a :: cs => drop_run cs (register_drop a g)
  | DShutdown :: cs => let '(run, _, g) := propagate g in run ++ drop_run cs g
  end.

(** ** One actor per instance *)

(** The actors that run are registered; in time, also the reverse. *)
Definition live_registered (g : InstanceRegistry) (live : gset (InstanceId * Z)) : Prop :=
  forall i p, (i, p) ∈ live -> reg_entries g !! i = Some p.
Definition registered_live (g : InstanceRegistry) (live : gset (InstanceId * Z)) : Prop :=
  forall i p, reg_entries g !! i = Some p -> (i, p) ∈ live.

Lemma registry_after_timeout c g : stop_timeout (registry_after c g) = stop_timeout g.
Proof. destruct c; cbn; unfold register, deregister; repeat case_match; done. Qed.

(** What a registration leaves of the entries and of the running actors. *)
Lemma register_spec i h after r g live :
  let c := RRegister i h (StopReturns after r) in
  match reg_entries g !! i with
  | None => reg_entries (registry_after c g) = <[i := h]> (reg_entries g) /\
            live_after c g live = {[ (i, h) ]} ∪ live
  | Some p =>
      let stopped := if is_ok r then live ∖ {[ (i, p) ]} else live in
      if is_ok r && (after <=? stop_timeout g)
      then reg_entries (registry_after c g) = <[i := h]> (reg_entries g) /\
           live_after c g live = {[ (i, h) ]} ∪ stopped
      else reg_entries (registry_after c g) = reg_entries g /\ live_after c g live = stopped
  end.
Proof.
  cbn. unfold register. destruct (reg_entries g !! i) as [p|] eqn:E; cbn; [|done].
  destruct (after <=? stop_timeout g), r as [[]|e]; cbn; rewrite insert_delete_eq; split; try done.
  all: by apply insert_id.
Qed.

Lemma registry_call_live c g live :
  call_ends c -> live_registered g live -> live_registered (registry_after c g) (live_after c g live).
Proof.
  intros Hc Hl. destruct c as [i h [after r| |]|i]; [|done|done|].
  - pose proof (register_spec i h after r g live) as H. cbn zeta in H. revert H.
    set (g' := registry_after _ g). set (l' := live_after _ g live). clearbody g' l'.
    destruct (reg_entries g !! i) as [p|] eqn:E; [destruct (is_ok r) eqn:Er, (after <=? stop_timeout g); cbn|];
      intros [Hg ->] j q Hin; rewrite Hg;
      repeat match goal with
        | H : _ ∈ _ ∪ _ |- _ => apply elem_of_union in H as [H%elem_of_singleton|H]; simplify_eq
        | H : _ ∈ _ ∖ _ |- _ => apply elem_of_difference in H as [H Hn]
        end; try (by rewrite lookup_insert_eq); try (by apply Hl).
    all: pose proof (Hl _ _ Hin) as Hj; rewrite lookup_insert_ne; [done|]; intros <-; rewrite E in Hj;
      simplify_eq; try done; by apply Hn, elem_of_singleton.
  - cbn. unfold deregister. destruct (reg_entries g !! i) as [p|] eqn:E; cbn; [|done].
    intros j q [Hin Hn]%elem_of_difference. pose proof (Hl _ _ Hin) as Hj. cbn.
    rewrite lookup_delete_ne; [done|]. intros ->. rewrite E in Hj. simplify_eq.
    by apply Hn, elem_of_singleton.
Qed.

Lemma registry_call_registered c g live :
  call_in_time (stop_timeout g) c -> registered_live g live ->
  registered_live (registry_after c g) (live_after c g live).
Proof.
  intros Hc Hl. destruct c as [i h [after r| |]|i]; [|done|done|].
  - cbn in Hc. pose proof (register_spec i h after r g live) as H. cbn zeta in H. revert H.
    set (g' := registry_after _ g). set (l' := live_after _ g live). clearbody g' l'.
    rewrite (proj2 (Z.leb_le _ _) Hc), andb_true_r.
    destruct (reg_entries g !! i) as [p|] eqn:E; [destruct (is_ok r) eqn:Er|]; intros [Hg ->] j q; rewrite Hg.
    + rewrite lookup_insert. case_decide; intros; simplify_eq; apply elem_of_union; [left; by apply elem_of_singleton|].
      right. apply elem_of_difference. split; [by apply Hl|]. intros Hn%elem_of_singleton. by simplify_eq.
    + apply Hl.
    + rewrite lookup_insert. case_decide; intros; simplify_eq; apply elem_of_union; [left; by apply elem_of_singleton|].
      right. by apply Hl.
  - cbn. unfold deregister. destruct (reg_entries g !! i) as [p|] eqn:E; cbn; [|done].
    intros j q. cbn. rewrite lookup_delete. case_decide; [done|]. intros Hj%Hl.
    apply elem_of_difference. split; [done|]. intros Hn%elem_of_singleton. by simplify_eq.
Qed.

Lemma registry_run_live cs g live :
  Forall call_ends cs -> live_registered g live ->
  live_registered (registry_run cs g live).1 (registry_run cs g live).2.
Proof.
  revert g live. induction cs as [|c cs IH]; intros g live Hc Hl; cbn; [done|].
  apply Forall_cons in Hc as [Hc Hcs]. by apply IH, registry_call_live.
Qed.

Lemma registry_run_registered cs g live :
  Forall (call_in_time (stop_timeout g)) cs -> registered_live g live ->
  registered_live (registry_run cs g live).1 (registry_run cs g live).2.
Proof.
  revert g live. induction cs as [|c cs IH]; intros g live Hc Hl; cbn; [done|].
  apply Forall_cons in Hc as [Hc Hcs]. apply IH; [by rewrite registry_after_timeout|].
  by apply registry_call_registered.
Qed.

(** C28. Along any sequence of registrations and deregistrations whose stop functions end
    without panicking: every running actor is the one registered for its instance, so an
    instance never has two, whether stops fail, succeed or come late; and when no stop is late,
    the registered actors are exactly the running ones. *)
Theorem registry_single_active (timeout : Z) (g0 : InstanceRegistry) (cs : list RegistryCall)
  (Hnew : registry_new timeout = Some g0) (Hends : Forall call_ends cs) :
  let '(g, live) := registry_run cs g0 ∅ in
  (forall i p, (i, p) ∈ live -> registry_lookup i g = Some p) /\
  (forall i p q, (i, p) ∈ live -> (i, q) ∈ live -> p = q) /\
  (Forall (call_in_time timeout) cs -> forall i p, (i, p) ∈ live <-> registry_lookup i g = Some p).
Proof.
  assert (reg_entries g0 = ∅ /\ stop_timeout g0 = timeout) as [He Ht].
  { unfold registry_new in Hnew. case_match; by simplify_eq. }
  pose proof (registry_run_live cs g0 ∅ Hends ltac:(by intros i p ?%elem_of_empty)) as Hl.
  pose proof (registry_run_registered cs g0 ∅) as Hr. rewrite Ht in Hr.
  destruct (registry_run cs g0 ∅) as [g live]. cbn in *. unfold registry_lookup.
  split; [exact Hl|]. split.
  - intros i p q Hp%Hl Hq%Hl. congruence.
  - intros Hin i p. split; [apply Hl|]. apply Hr; [done|]. intros j q. by rewrite He, lookup_empty.
Qed.

(** ** Lifecycle and children *)

(** The listed transitions are those the machine makes; terminal states are those without. *)
Lemma valid_transitions_spec s t :
  (t ∈ valid_transitions s <-> is_valid_transition s t = true) /\
  (actor_is_terminal s = true <-> forall t, compute_next_state s t = None).
Proof.
  split.
  - rewrite <- (bool_decide_eq_true (t ∈ valid_transitions s)). by destruct s, t.
  - destruct s; cbn; split; intros H; try done; try (by intros []);
      try (specialize (H LFail); done); specialize (H LAllChildrenStopped); done.
Qed.

Lemma forallb_filter_false {A} (f : A -> bool) (l : list A) :
  forallb f l = true <-> base.filter (fun x => f x = false) l = [].
Proof.
  induction l as [|x l IH]; [done|]. cbn [forallb]. rewrite andb_true_iff, IH, filter_cons.
  destruct (f x); [rewrite decide_False by done|rewrite decide_True by done]; naive_solver.
Qed.

(** All children are terminal exactly when none is active, so when each has stopped or failed. *)
Lemma all_terminal_iff c :
  (all_children_terminal c = true <-> active_children_count c = 0) /\
  (all_children_terminal c = true <->
   forall i s t, c !! i = Some (s, t) -> s = AStopped \/ s = AFailed).
Proof.
  unfold all_children_terminal, active_children_count. split.
  - rewrite forallb_filter_false. rewrite <- length_zero_iff_nil. lia.
  - rewrite forallb_forall. split.
    + intros H i s t Hi. specialize (H (i, (s, t))). cbn in H.
      destruct s; (by left) || (by right) || (exfalso; enough (false = true) by done; apply H;
        by apply list_elem_of_In, elem_of_map_to_list).
    + intros H [i [s t]] Hin. apply list_elem_of_In, elem_of_map_to_list in Hin.
      cbn. by destruct (H i s t Hin) as [ ->| ->].
Qed.

(** ** Ordered shutdown *)

(** The actions registered before the first shutdown of a sequence of uses. *)
Fixpoint before_shutdown (cs : list DropCall) : list DropAction :=
  match cs with DRegister a :: cs => a :: before_shutdown cs | _ => [] end.

Lemma drop_run_done cs g : shutdown_flag g = 2 -> drop_run cs g = [].
Proof.
  revert g. induction cs as [|[a|] cs IH]; intros g Hg; cbn.
  - unfold propagator_drop, propagate, ordered_shutdown, drop_registry_drop. rewrite Hg. cbn.
    destruct (actions g); [done|]. by rewrite Hg.
  - by apply IH.
  - unfold propagate, ordered_shutdown. rewrite Hg. cbn. by apply IH.
Qed.

Lemma drop_run_spec cs g :
  shutdown_flag g = 0 -> drop_run cs g = reverse (actions g ++ before_shutdown cs).
Proof.
  revert g. induction cs as [|[a|] cs IH]; intros g Hg; cbn.
  - rewrite app_nil_r. unfold propagator_drop, propagate, ordered_shutdown, drop_registry_drop. rewrite Hg. cbn.
    destruct (actions g); [done|]. by rewrite app_nil_r.
  - rewrite IH by done. cbn. by rewrite <- app_assoc.
  - unfold propagate, ordered_shutdown. rewrite Hg. cbn. rewrite drop_run_done by done.
    by rewrite !app_nil_r.
Qed.

(** However a propagator is used before it is dropped, the actions registered before its
    first shutdown, or before its drop, are executed exactly once each, the last registered
    first; nothing else is ever executed: later shutdowns run nothing, and neither do actions
    registered after the first. *)
Theorem shutdown_runs_in_reverse (cs : list DropCall) :
  drop_run cs drop_registry_new = reverse (before_shutdown cs).
Proof. exact (drop_run_spec cs drop_registry_new eq_refl). Qed.

Module ActorWitness.

Definition one : InstanceId := mkInstanceId "01H5JYV4XHGSR2F8KZ9BWNRFMA".
Definition reg0 : InstanceRegistry := mkRegistry ∅ 5000.
Definition reg_calls : list RegistryCall :=
  [RRegister one 1 (StopReturns 0 (Ok tt)); RRegister one 2 (StopReturns 10 (Ok tt));
   RRegister one 3 (StopReturns 10 (Err "busy"))].

(** An actor is replaced, and the next replacement fails. *)
Lemma registry_single_active_witness :
  registry_new 5000 = Some reg0 /\
  elements (registry_run reg_calls reg0 ∅).2 = [(one, 2)] /\
  registry_lookup one (registry_run reg_calls reg0 ∅).1 = Some 2.
Proof.
  assert (registry_new 5000 = Some reg0) as Hn by reflexivity.
  assert (Forall call_ends reg_calls) as He by (repeat constructor).
  pose proof (registry_single_active 5000 reg0 reg_calls Hn He) as H.
  assert (elements (registry_run reg_calls reg0 ∅).2 = [(one, 2)]) as Hl by (vm_compute; reflexivity).
  split; [exact Hn|]. split; [exact Hl|].
  destruct (registry_run reg_calls reg0 ∅) as [g live]. destruct H as [H _].
  apply H. apply elem_of_elements. cbn in Hl. rewrite Hl. left.
Defined.

(** A stop that comes late is waited for all the same, and then reported as a timeout: the
    registry keeps an actor that has stopped. *)
Example late_stop_kept :
  let g := mkRegistry {[ one := 1 ]} 5000 in
  let run := StopReturns 600000 (Ok tt) in
  (register one 2 run g).1 = Returned (Err (StopTimeout one 5000)) 600000 /\
  is_active one (register one 2 run g).2 = true /\
  live_after (RRegister one 2 run) g {[ (one, 1) ]} = ∅.
Proof. by vm_compute. Qed.

(** A stop function that panics takes the entry with it: the next actor is registered beside
    one that may still run. *)
Example panic_forgets_actor :
  let cs := [RRegister one 1 StopPanics; RRegister one 2 StopPanics; RRegister one 3 StopPanics] in
  elements (registry_run cs reg0 ∅).2 = [(one, 1); (one, 3)] \/
  elements (registry_run cs reg0 ∅).2 = [(one, 3); (one, 1)].
Proof. vm_compute. auto. Qed.

(** [all_children_stopped] counts a child that is still stopping as stopped, and a failed one
    as not. *)
Example stopped_children :
  all_children_stopped {[ one := (AStopping, 0) ]} = true /\
  all_children_stopped {[ one := (AFailed, 0) ]} = false.
Proof. by vm_compute. Qed.

Definition act (n : string) : DropAction := mkDropAction n 0.

(** An action registered after a shutdown is never executed. *)
Example late_action_lost : drop_run [DRegister (act "a"); DShutdown; DRegister (act "b")] drop_registry_new = [act "a"].
Proof. by vm_compute. Qed.

(** A registry dropped by itself runs its actions in the order of registration, parents first. *)
Example drop_runs_forwards :
  drop_registry_drop (register_drop (act "child") (register_drop (act "parent") drop_registry_new))
  = [act "parent"; act "child"].
Proof. by vm_compute. Qed.

(** A shutdown with nothing to do does not report success. *)
Example empty_shutdown_running : (propagate drop_registry_new).1.2 = ChildrenRunning 0.
Proof. done. Qed.

End ActorWitness.
