(* ===== verification/SpawnSupervisor.v ===== *)
(** * The spawn supervisor

    [crates/vo-actor/src/spawn_supervisor/]: the actor that starts the processes of instances,
    checks their health and starts them again ([cycle.rs], [actor.rs], [pure.rs], [types.rs]);
    the health checks are those of the other copy of the crate, as this one has lost them.
    Storage, processes, the work queue and the execution semaphore are interfaces; waiting and
    logging are left out. *)

From stdpp Require Import strings pretty.
From S2P Require Import Prelude Identifiers Jobs.

(** ** Records *)

(** [enum SpawnPhase]. *)
Inductive SpawnPhase : Set := PSpawn | PHealthCheck | PRunning | PShutdown | PTerminated | PFailed.
#[global] Instance SpawnPhase_eq_dec : EqDecision SpawnPhase.
Proof. solve_decision. Defined.

(** [enum SpawnSupervisorError], with its predicates. *)
Inductive SpawnSupervisorError : Set :=
| SStorageError (reason : string)
| SCorruptSpawn (reason : string)
| SAtomicityViolation (reason : string)
| SInstanceNotFound (i : InstanceId)
| SMailboxFull (i : InstanceId)
| SInvalidConfig (reason : string)
| SAlreadyRunning
| SShutdownTimeout (after : Z)
| SDispatchError (reason : string)
| SSpawnFailed (executable error : string)
| SHealthCheckFailed (i : InstanceId) (check_number : Z)
| SZombieDetected (i : InstanceId) (pid : Z)
| SProcessExited (i : InstanceId) (pid exit_code : Z)
| SNotRunning
| SAlreadyShutdown.
Definition spawn_is_transient (e : SpawnSupervisorError) : bool :=
  match e with SStorageError _ | SInstanceNotFound _ | SMailboxFull _ | SDispatchError _ => true | _ => false end.
Definition is_resumable (e : SpawnSupervisorError) : bool :=
  match e with SHealthCheckFailed _ _ | SProcessExited _ _ _ | SSpawnFailed _ _ => true | _ => false end.
Definition is_fatal (e : SpawnSupervisorError) : bool :=
  match e with SCorruptSpawn _ | SInvalidConfig _ | SZombieDetected _ _ => true | _ => false end.
Definition is_operational (e : SpawnSupervisorError) : bool :=
  match e with
  | SAlreadyRunning | SAlreadyShutdown | SNotRunning | SShutdownTimeout _ | SAtomicityViolation _ => true
  | _ => false
  end.

(** [struct SpawnRecord] and its transitions. *)
Record SpawnRecord : Set := mkSpawn {
  spawn_id : option string;
  sp_instance : InstanceId;
  sp_executable : string;
  sp_args : list string;
  spawn_phase : SpawnPhase;
  sp_health_checks : Z;
  spawn_attempts : Z;
  sp_last_error : option SpawnSupervisorError;
  last_pid : option Z;
}.
Definition record_new (i : InstanceId) (exe : string) (args : list string) (id : option string) : SpawnRecord :=
  mkSpawn id i exe args PSpawn 0 1 None None.
Definition with_phase (p : SpawnPhase) (r : SpawnRecord) : SpawnRecord :=
  mkSpawn (spawn_id r) (sp_instance r) (sp_executable r) (sp_args r) p (sp_health_checks r)
    (spawn_attempts r) (sp_last_error r) (last_pid r).
Definition with_error (e : option SpawnSupervisorError) (r : SpawnRecord) : SpawnRecord :=
  mkSpawn (spawn_id r) (sp_instance r) (sp_executable r) (sp_args r) (spawn_phase r) (sp_health_checks r)
    (spawn_attempts r) e (last_pid r).
Definition with_pid (pid : Z) (r : SpawnRecord) : SpawnRecord :=
  mkSpawn (spawn_id r) (sp_instance r) (sp_executable r) (sp_args r) (spawn_phase r) (sp_health_checks r)
    (spawn_attempts r) (sp_last_error r) (Some pid).
Definition with_spawn_id (id : string) (r : SpawnRecord) : SpawnRecord :=
  mkSpawn (Some id) (sp_instance r) (sp_executable r) (sp_args r) (spawn_phase r) (sp_health_checks r)
    (spawn_attempts r) (sp_last_error r) (last_pid r).
Definition respawn (id : option string) (r : SpawnRecord) : SpawnRecord :=
  mkSpawn id (sp_instance r) (sp_executable r) (sp_args r) PSpawn 0
    (Z.min (spawn_attempts r + 1) u32_max) None None.

(** [is_zombie_state], [should_respawn]. *)
Definition is_zombie_state (r : SpawnRecord) : bool :=
  bool_decide (spawn_phase r = PFailed) && (3 <? spawn_attempts r).
Definition should_respawn (r : SpawnRecord) (max_attempts : Z) : bool :=
  bool_decide (spawn_phase r = PFailed) && (spawn_attempts r <? max_attempts).

(** [struct CycleResult], and the counters of [struct SpawnSupervisorMetrics] as the list of
    their increments. *)
Record CycleResult : Set := mkCycle {
  spawns_processed : Z;
  cycle_health_checks : Z;
  cycle_errors : Z;
  respawns : Z;
}.
Inductive Metric : Set :=
| SpawnsSuccessful | SpawnsFailed | HealthChecksPerformed | HealthChecksFailed
| ZombiesDetected | Respawns | DispatchErrors.
#[global] Instance Metric_eq_dec : EqDecision Metric.
Proof. solve_decision. Defined.

(** ** Interfaces *)

(** [trait SpawnStorage], with a view of the records. A scan lists records of the phase, each
    instance once, and all of them when they are fewer than its maximum. *)
Class SpawnStorage (St : Type) : Type := {
  records : St -> gmap InstanceId SpawnRecord;
  save_spawn_record : St -> SpawnRecord -> result SpawnSupervisorError unit * St;
  scan_spawns_by_phase : St -> SpawnPhase -> Z -> list SpawnRecord;
  transition_phase : St -> InstanceId -> SpawnPhase -> result SpawnSupervisorError unit * St;
}.
Class SpawnStorageLaws (St : Type) `{S : !SpawnStorage St} : Prop := {
  save_law : forall s r,
    records (save_spawn_record s r).2
    = if is_ok (save_spawn_record s r).1 then <[sp_instance r := r]> (records s) else records s;
  scan_elem : forall s p max r, r ∈ scan_spawns_by_phase s p max ->
    records s !! sp_instance r = Some r /\ spawn_phase r = p;
  scan_NoDup : forall s p max, NoDup (sp_instance <$> scan_spawns_by_phase s p max);
  scan_all : forall s p max i r, Z.of_nat (length (scan_spawns_by_phase s p max)) < max ->
    records s !! i = Some r -> sp_instance r = i -> spawn_phase r = p ->
    r ∈ scan_spawns_by_phase s p max;
  transition_law : forall s i p,
    records (transition_phase s i p).2
    = if is_ok (transition_phase s i p).1 then alter (with_phase p) i (records s) else records s;
}.

(** [trait ProcessManager], [ExecutionSemaphore::acquire] (whether it does not refuse) and
    [WorkQueue::enqueue_spawn]: any behaviour. *)
Class SpawnEnv (E : Type) : Type := {
  acquire : E -> bool * E;
  pm_spawn_process : E -> string -> list string -> result SpawnSupervisorError Z * E;
  pm_check_health : E -> Z -> result SpawnSupervisorError bool * E;
  pm_is_zombie : E -> Z -> result SpawnSupervisorError bool * E;
  pm_terminate : E -> Z -> result SpawnSupervisorError unit * E;
  enqueue_spawn : E -> InstanceId -> string -> list string -> result SpawnSupervisorError unit * E;
}.

(** ** The supervisor *)

Section Supervisor.
Context {St E : Type} `{SS : !SpawnStorage St} `{SE : !SpawnEnv E}.
Context (max_health_checks max_spawn_attempts : Z).

(** The state: storage, environment, the instances whose processes were started, in order, the
    metrics, and the counters of the cycle. *)
Record World : Type := mkWorld {
  sto : St;
  world_env : E;
  started : list InstanceId;
  metrics : list Metric;
  cycle : CycleResult;
}.

Definition M (A : Type) : Type := World -> A * World.
Definition mret {A} (a : A) : M A := fun w => (a, w).
Definition mseq {A B} (m : M A) (k : A -> M B) : M B := fun w => let (a, w) := m w in k a w.
#[local] Notation "'let*' x ':=' c 'in' k" := (mseq c (fun x => k))
  (at level 10, x pattern, c at level 100, k at level 200).
#[local] Notation "c ';;' k" := (mseq c (fun _ => k)) (at level 100, k at level 200, right associativity).

Fixpoint for_each {A} (f : A -> M unit) (l : list A) : M unit :=
  match l with [] => mret tt | x :: l => f x;; for_each f l end.

Definition set_sto (s : St) (w : World) : World :=
  mkWorld s (world_env w) (started w) (metrics w) (cycle w).
Definition set_env (e : E) (w : World) : World :=
  mkWorld (sto w) e (started w) (metrics w) (cycle w).
Definition incr (m : Metric) : M unit := fun w =>
  (tt, mkWorld (sto w) (world_env w) (started w) (metrics w ++ [m]) (cycle w)).
Definition count (f : CycleResult -> CycleResult) : M unit := fun w =>
  (tt, mkWorld (sto w) (world_env w) (started w) (metrics w) (f (cycle w))).
Definition processed : M unit :=
  count (fun c => mkCycle (as_u32 (spawns_processed c + 1)) (cycle_health_checks c) (cycle_errors c) (respawns c)).
Definition health_checked : M unit :=
  count (fun c => mkCycle (spawns_processed c) (as_u32 (cycle_health_checks c + 1)) (cycle_errors c) (respawns c)).
Definition error_counted : M unit :=
  count (fun c => mkCycle (spawns_processed c) (cycle_health_checks c) (as_u32 (cycle_errors c + 1)) (respawns c)).
Definition respawned : M unit :=
  count (fun c => mkCycle (spawns_processed c) (cycle_health_checks c) (cycle_errors c) (as_u32 (respawns c + 1))).

(** Calls of the interfaces. *)
Definition save (r : SpawnRecord) : M (result SpawnSupervisorError unit) := fun w =>
  let (x, s) := save_spawn_record (sto w) r in (x, set_sto s w).
Definition scan (p : SpawnPhase) : M (list SpawnRecord) := fun w =>
  (scan_spawns_by_phase (sto w) p 100, w).
Definition move_phase (i : InstanceId) (p : SpawnPhase) : M (result SpawnSupervisorError unit) := fun w =>
  let (x, s) := transition_phase (sto w) i p in (x, set_sto s w).
Definition admit_spawn : M bool := fun w => let (b, e) := acquire (world_env w) in (b, set_env e w).
Definition check_health (pid : Z) : M (result SpawnSupervisorError bool) := fun w =>
  let (x, e) := pm_check_health (world_env w) pid in (x, set_env e w).
Definition is_zombie (pid : Z) : M (result SpawnSupervisorError bool) := fun w =>
  let (x, e) := pm_is_zombie (world_env w) pid in (x, set_env e w).
Definition terminate (pid : Z) : M (result SpawnSupervisorError unit) := fun w =>
  let (x, e) := pm_terminate (world_env w) pid in (x, set_env e w).
Definition enqueue (i : InstanceId) (exe : string) (args : list string)
  : M (result SpawnSupervisorError unit) := fun w =>
  let (x, e) := enqueue_spawn (world_env w) i exe args in (x, set_env e w).

(** [SpawnSupervisor::spawn_process]. *)
Definition spawn_process (r : SpawnRecord) : M (result SpawnSupervisorError Z) := fun w =>
  let (x, e) := pm_spawn_process (world_env w) (sp_executable r) (sp_args r) in
  (x, mkWorld (sto w) e (if is_ok x then started w ++ [sp_instance r] else started w) (metrics w) (cycle w)).

(** [SpawnSupervisor::perform_health_checks], from check [i] with [rest] checks to go. *)
Fixpoint health_loop (i : Z) (rest : nat) (inst : InstanceId) (pid : Z)
  : M (result SpawnSupervisorError unit) :=
  match rest with
  | O => mret (Err (SHealthCheckFailed inst max_health_checks))
  | S rest =>
      incr HealthChecksPerformed;;
      let* x := check_health pid in
      match x with
      | Ok true => mret (Ok tt)
      | Ok false => health_loop (i + 1) rest inst pid
      | Err e => mret (Err (SHealthCheckFailed inst i))
      end
  end.
Definition perform_health_checks (inst : InstanceId) (pid : Z) : M (result SpawnSupervisorError unit) :=
  health_loop 1 (Z.to_nat max_health_checks) inst pid.

(** A save whose failure is counted, and what follows a success. *)
Definition saving (r : SpawnRecord) (k : M unit) : M unit :=
  let* x := save r in
  match x with Err _ => incr DispatchErrors;; error_counted | Ok _ => k end.

(** [SpawnSupervisor::process_cycle], its first phase: a record to spawn. *)
Definition spawn_one (r : SpawnRecord) : M unit :=
  processed;;
  if max_spawn_attempts <? spawn_attempts r then incr SpawnsFailed;; error_counted
  else
    let* ok := admit_spawn in
    if negb ok then incr SpawnsFailed;; error_counted
    else
      let* x := spawn_process r in
      match x with
      | Ok pid =>
          let new_record := with_pid pid (with_error None (with_phase PHealthCheck r)) in
          saving new_record
            (let* h := perform_health_checks (sp_instance r) pid in
             match h with
             | Ok _ =>
                 saving (with_spawn_id (pretty pid) (with_phase PRunning new_record)) (incr SpawnsSuccessful)
             | Err e =>
                 incr HealthChecksFailed;; error_counted;;
                 saving (with_error (Some e) (with_phase PFailed new_record)) (mret tt)
             end)
      | Err e =>
          incr SpawnsFailed;; error_counted;;
          let* s := save (with_error (Some e) r) in
          match s with Err _ => incr DispatchErrors | Ok _ => mret tt end
      end.

(** Its second phase: a record under health checks. *)
Definition check_one (r : SpawnRecord) : M unit :=
  processed;; health_checked;;
  let pid := default 0 (last_pid r) in
  let* zombie := (if pid =? 0 then mret (Ok false) else is_zombie pid) in
  match zombie with
  | Ok true =>
      incr ZombiesDetected;;
      saving (with_error (Some (SZombieDetected (sp_instance r) pid)) (with_phase PFailed r)) (mret tt)
  | _ =>
      let* h := perform_health_checks (sp_instance r) pid in
      match h with
      | Ok _ => saving (with_phase PRunning r) (incr SpawnsSuccessful)
      | Err e =>
          incr HealthChecksFailed;; error_counted;;
          saving (with_error (Some e) (with_phase PFailed r)) (mret tt)
      end
  end.

(** Its third phase: a failed record. *)
Definition known_pid (r : SpawnRecord) : option Z :=
  match last_pid r, sp_last_error r with
  | Some pid, _ => Some pid
  | None, Some (SProcessExited _ pid _) => Some pid
  | None, _ => None
  end.
Definition respawn_one (r : SpawnRecord) : M unit :=
  processed;;
  let* zombie := match known_pid r with Some pid => is_zombie pid | None => mret (Ok false) end in
  match zombie with
  | Ok true => incr ZombiesDetected
  | _ =>
      if should_respawn r max_spawn_attempts then
        saving (respawn None r)
          (let* x := enqueue (sp_instance r) (sp_executable r) (sp_args r) in
           match x with
           | Err _ => incr DispatchErrors;; error_counted
           | Ok _ => respawned;; incr Respawns
           end)
      else mret tt
  end.

Definition process_cycle : M CycleResult :=
  count (fun _ => mkCycle 0 0 0 0);;
  let* l := scan PSpawn in
  for_each spawn_one l;;
  let* l := scan PHealthCheck in
  for_each check_one l;;
  let* l := scan PFailed in
  for_each respawn_one l;;
  fun w => (cycle w, w).

(** [SpawnSupervisor::zombie_detection]; the instances it reaped, which it also returns and the
    loop ignores, are left out. *)
Definition reap_running (r : SpawnRecord) : M unit :=
  let pid := match spawn_id r with Some sid => default 0 (u32_from_str sid) | None => 0 end in
  if pid =? 0 then mret tt
  else
    let* z := is_zombie pid in
    match z with
    | Ok true =>
        incr ZombiesDetected;;
        let* _ := terminate pid in
        let* _ := move_phase (sp_instance r) PTerminated in mret tt
    | _ => mret tt
    end.
Definition reap_failed (r : SpawnRecord) : M unit :=
  if is_zombie_state r then
    incr ZombiesDetected;; let* _ := move_phase (sp_instance r) PTerminated in mret tt
  else mret tt.
Definition zombie_detection : M unit :=
  let* l := scan PRunning in
  for_each reap_running l;;
  let* l := scan PFailed in
  for_each reap_failed l.

(** [SpawnSupervisor::run_loop]: its ticks, up to the request to shut down. *)
Fixpoint ticks (n : nat) : M unit :=
  match n with O => mret tt | S n => zombie_detection;; process_cycle;; ticks n end.

(** ** Starts are bounded *)

Context `{HS : !SpawnStorageLaws St}.

(** Saves succeed. *)
Definition saves_succeed : Prop := forall s r, is_ok (save_spawn_record s r).1 = true.

(** How often the process of an instance was started, by its record. *)
Definition starts_of (r : SpawnRecord) : Z :=
  spawn_attempts r - (if decide (spawn_phase r = PSpawn) then 1 else 0).
Record counted (w : World) : Prop := {
  ct_starts : forall i, Z.of_nat (cnt i (started w))
    = match records (sto w) !! i with Some r => starts_of r | None => 0 end;
  ct_record : forall i r, records (sto w) !! i = Some r ->
    sp_instance r = i /\ 1 <= spawn_attempts r <= max_spawn_attempts;
}.

(** What holds of the answer, the records and the starts after a computation. *)
Definition wp {A} (m : M A) (Q : A -> gmap InstanceId SpawnRecord -> list InstanceId -> Prop) (w : World)
  : Prop := Q (m w).1 (records (sto (m w).2)) (started (m w).2).

(** A computation that touches neither. *)
Definition neutral {A} (m : M A) : Prop :=
  forall w, records (sto (m w).2) = records (sto w) /\ started (m w).2 = started w.

Lemma wp_seq {A B} (m : M A) (k : A -> M B) Q w :
  wp m (fun a rs l => forall w', records (sto w') = rs -> started w' = l -> wp (k a) Q w') w ->
  wp (mseq m k) Q w.
Proof. unfold wp, mseq. destruct (m w) as [a w']. cbn. eauto. Qed.

Lemma wp_neutral {A} (m : M A) Q w :
  neutral m -> (forall a, Q a (records (sto w)) (started w)) -> wp m Q w.
Proof. intros Hm HQ. unfold wp. destruct (Hm w) as [-> ->]. apply HQ. Qed.

Lemma wp_neutral_seq {A B} (m : M A) (k : A -> M B) Q w :
  neutral m ->
  (forall a w', records (sto w') = records (sto w) -> started w' = started w -> wp (k a) Q w') ->
  wp (mseq m k) Q w.
Proof. intros Hm Hk. apply wp_seq, wp_neutral; [done|]. intros a w' H1 H2. by apply Hk. Qed.

Lemma neutral_seq {A B} (m : M A) (k : A -> M B) : neutral m -> (forall a, neutral (k a)) -> neutral (mseq m k).
Proof.
  intros Hm Hk w. unfold mseq. specialize (Hm w). destruct (m w) as [a w1]. cbn in *.
  destruct (Hk a w1) as [-> ->]. done.
Qed.

Lemma neutral_incr m : neutral (incr m). Proof. done. Qed.
Lemma neutral_count f : neutral (count f). Proof. done. Qed.
Lemma neutral_error : neutral error_counted. Proof. done. Qed.
Lemma neutral_respawned : neutral respawned. Proof. done. Qed.
Lemma neutral_ret {A} (a : A) : neutral (mret a). Proof. done. Qed.
Lemma neutral_admit : neutral admit_spawn.
Proof. intros w. unfold admit_spawn. by destruct (acquire _). Qed.
Lemma neutral_check pid : neutral (check_health pid).
Proof. intros w. unfold check_health. by destruct (pm_check_health _ _). Qed.
Lemma neutral_zombie pid : neutral (is_zombie pid).
Proof. intros w. unfold is_zombie. by destruct (pm_is_zombie _ _). Qed.
Lemma neutral_terminate pid : neutral (terminate pid).
Proof. intros w. unfold terminate. by destruct (pm_terminate _ _). Qed.
Lemma neutral_enqueue i exe args : neutral (enqueue i exe args).
Proof. intros w. unfold enqueue. by destruct (enqueue_spawn _ _ _ _). Qed.
Lemma neutral_if {A} (b : bool) (m1 m2 : M A) : neutral m1 -> neutral m2 -> neutral (if b then m1 else m2).
Proof. by destruct b. Qed.
Create HintDb neutral.
#[local] Hint Resolve neutral_seq neutral_incr neutral_count neutral_error neutral_respawned
  neutral_ret neutral_admit neutral_check
  neutral_zombie neutral_terminate neutral_enqueue neutral_if : neutral.
Lemma neutral_health_loop i rest inst pid : neutral (health_loop i rest inst pid).
Proof.
  revert i. induction rest as [|rest IH]; intros i; cbn; auto with neutral.
  apply neutral_seq; [auto with neutral|]. intros _. apply neutral_seq; [auto with neutral|].
  intros [[]|]; auto with neutral.
Qed.
Lemma neutral_health_checks inst pid : neutral (perform_health_checks inst pid).
Proof. apply neutral_health_loop. Qed.
#[local] Hint Resolve neutral_health_checks : neutral.

(** The step of one record: its record is replaced, and its starts are counted in it. *)
Definition step_ok (r : SpawnRecord) (rs : gmap InstanceId SpawnRecord) (l : list InstanceId)
  (rs' : gmap InstanceId SpawnRecord) (l' : list InstanceId) : Prop :=
  exists r', rs' = <[sp_instance r := r']> rs /\ sp_instance r' = sp_instance r /\
    1 <= spawn_attempts r' <= max_spawn_attempts /\
    ((l' = l /\ starts_of r' = starts_of r) \/
     (l' = l ++ [sp_instance r] /\ starts_of r' = starts_of r + 1)).
Definition step_spec (p : SpawnPhase) (f : SpawnRecord -> M unit) : Prop :=
  forall r w, records (sto w) !! sp_instance r = Some r -> spawn_phase r = p ->
    1 <= spawn_attempts r <= max_spawn_attempts ->
    wp (f r) (fun _ => step_ok r (records (sto w)) (started w)) w.

Lemma step_ok_counted r w rs' l' (w' : World) :
  counted w -> records (sto w) !! sp_instance r = Some r ->
  step_ok r (records (sto w)) (started w) rs' l' -> records (sto w') = rs' -> started w' = l' -> counted w'.
Proof.
  intros [H1 H2] Hr (r' & -> & Hi & Ha & Hl) Hrs Hst. split.
  - intros i. rewrite Hrs, Hst, lookup_insert. specialize (H1 i). case_decide as Hd.
    + subst i. rewrite Hr in H1. destruct Hl as [[-> ->]|[-> ->]]; [done|].
      rewrite cnt_app, Nat2Z.inj_add, H1. unfold cnt; cbn. rewrite decide_True by done. cbn. lia.
    + destruct Hl as [[-> _]|[-> _]]; [done|]. rewrite cnt_app, Nat2Z.inj_add, H1.
      unfold cnt; cbn. rewrite decide_False by done. cbn. lia.
  - intros i x. rewrite Hrs, lookup_insert. case_decide as Hd; [|apply H2].
    intros [= <-]. subst i. done.
Qed.

Lemma for_each_counted p f l w :
  step_spec p f -> NoDup (sp_instance <$> l) ->
  (forall r, r ∈ l -> records (sto w) !! sp_instance r = Some r /\ spawn_phase r = p) ->
  counted w -> counted (for_each f l w).2.
Proof.
  intros Hf. revert w. induction l as [|r l IH]; intros w Hnd Hl Hc; cbn; [done|].
  apply NoDup_cons in Hnd as [Hr Hnd]. destruct (Hl r) as [Hrec Hp]; [left|].
  unfold mseq. pose proof (Hf r w Hrec Hp (proj2 (ct_record w Hc _ _ Hrec))) as Hs. unfold wp in Hs.
  destruct (f r w) as [u w1]. cbn in Hs. apply IH; [done| |by eapply step_ok_counted].
  intros x Hx. destruct (Hl x) as [H1 H2]; [by right|]. split; [|done].
  destruct Hs as (r' & -> & _). rewrite lookup_insert_ne; [done|].
  intros Heq. apply Hr. rewrite Heq. by apply list_elem_of_fmap_2.
Qed.

Lemma scan_for_each_counted p f w :
  step_spec p f -> counted w -> counted (mseq (scan p) (for_each f) w).2.
Proof.
  intros Hf Hc. unfold mseq, scan. apply (for_each_counted p); [done|apply scan_NoDup| |done].
  intros r. apply scan_elem.
Qed.

Lemma step_ok_id r w :
  records (sto w) !! sp_instance r = Some r -> 1 <= spawn_attempts r <= max_spawn_attempts ->
  step_ok r (records (sto w)) (started w) (records (sto w)) (started w).
Proof. intros Hr Ha. exists r. rewrite insert_id by done. split_and!; try done; [lia..|by left]. Qed.

Section Reliable.
Context (Hsave : saves_succeed).

Lemma wp_save r Q w :
  (forall x, Q x (<[sp_instance r := r]> (records (sto w))) (started w)) -> wp (save r) Q w.
Proof.
  intros HQ. unfold wp, save. pose proof (save_law (sto w) r) as H. rewrite Hsave in H.
  destruct (save_spawn_record (sto w) r) as [x s]. cbn in *. rewrite H. apply HQ.
Qed.

Lemma wp_saving r k Q w :
  (forall w', records (sto w') = <[sp_instance r := r]> (records (sto w)) -> started w' = started w ->
     wp k Q w') -> wp (saving r k) Q w.
Proof.
  intros Hk. unfold saving, wp, mseq, save. pose proof (save_law (sto w) r) as H. pose proof (Hsave (sto w) r) as Ho.
  rewrite Ho in H. destruct (save_spawn_record (sto w) r) as [[[]|e] s]; [|done]. cbn in *.
  by apply Hk.
Qed.

Lemma spawn_one_spec : step_spec PSpawn spawn_one.
Proof.
  intros r w Hr Hp Ha. unfold spawn_one.
  apply wp_neutral_seq; [done|]. intros _ w1 Hw1 Hl1. rewrite <- Hw1 in Hr |- *. rewrite <- Hl1.
  rewrite (proj2 (Z.ltb_ge _ _)) by lia.
  apply wp_neutral_seq; [auto with neutral|]. intros ok w2 Hw2 Hl2. rewrite <- Hw2 in Hr |- *. rewrite <- Hl2.
  destruct ok; cbn [negb]; [|apply wp_neutral; [auto with neutral|intros _; by apply step_ok_id]].
  apply wp_seq. unfold wp at 1, spawn_process.
  destruct (pm_spawn_process _ _ _) as [[pid|e] e']; cbn; intros w3 Hw3 Hl3.
  - apply wp_saving. cbn. intros w4 Hw4 Hl4. apply wp_neutral_seq; [auto with neutral|].
    intros h w5 Hw5 Hl5. destruct h as [_|e].
    + apply wp_saving. cbn. intros w6 Hw6 Hl6. apply wp_neutral; [done|]. intros _.
      eexists. rewrite Hw6, Hw5, Hw4, Hw3, insert_insert_eq, Hl6, Hl5, Hl4, Hl3. split; [done|].
      split; [done|]. cbn. split; [lia|]. right. split; [done|]. unfold starts_of; cbn.
      rewrite decide_False, decide_True by done. lia.
    + apply wp_neutral_seq; [done|]. intros _ w6 Hw6 Hl6. apply wp_neutral_seq; [done|].
      intros _ w7 Hw7 Hl7. apply wp_saving. cbn. intros w8 Hw8 Hl8. apply wp_neutral; [done|]. intros _.
      eexists. rewrite Hw8, Hw7, Hw6, Hw5, Hw4, Hw3, insert_insert_eq, Hl8, Hl7, Hl6, Hl5, Hl4, Hl3.
      split; [done|]. split; [done|]. cbn. split; [lia|]. right. split; [done|]. unfold starts_of; cbn.
      rewrite decide_False, decide_True by done. lia.
  - apply wp_neutral_seq; [done|]. intros _ w4 Hw4 Hl4. apply wp_neutral_seq; [done|].
    intros _ w5 Hw5 Hl5. apply wp_seq, wp_save. cbn. intros x w6 Hw6 Hl6.
    apply wp_neutral; [by destruct x; auto with neutral|]. intros _.
    eexists. rewrite Hw6, Hw5, Hw4, Hw3, Hl6, Hl5, Hl4, Hl3. split; [done|]. split; [done|]. split; [done|].
    by left.
Qed.

(** Replacing the phase of a record that is not to be spawned. *)
Lemma step_ok_phase r r' (w w' : World) :
  records (sto w') = <[sp_instance r' := r']> (records (sto w)) -> started w' = started w ->
  sp_instance r' = sp_instance r -> spawn_attempts r' = spawn_attempts r ->
  spawn_phase r <> PSpawn -> spawn_phase r' <> PSpawn ->
  1 <= spawn_attempts r <= max_spawn_attempts ->
  step_ok r (records (sto w)) (started w) (records (sto w')) (started w').
Proof.
  intros -> -> Hi Ha Hp Hp' Hm. exists r'. rewrite Hi. split; [done|]. split; [done|]. split; [lia|].
  left. split; [done|]. unfold starts_of. rewrite !decide_False by done. lia.
Qed.

Lemma check_one_spec : step_spec PHealthCheck check_one.
Proof.
  intros r w Hr Hp Ha. unfold check_one.
  do 2 (apply wp_neutral_seq; [done|]; intros _ ? <- <-).
  apply wp_neutral_seq; [destruct (_ =? 0); auto with neutral|]. intros z w1 <- <-.
  assert (forall e w2, records (sto w2) = records (sto w1) -> started w2 = started w1 ->
    wp (saving (with_error e (with_phase PFailed r)) (mret tt))
      (fun _ => step_ok r (records (sto w1)) (started w1)) w2) as Hfail.
  { intros e w2 <- <-. apply wp_saving. cbn. intros w3 Hw3 Hl3. apply wp_neutral; [done|]. intros _.
    apply (step_ok_phase r (with_error e (with_phase PFailed r))); cbn; done || by rewrite Hp. }
  assert (wp (let* h := perform_health_checks (sp_instance r) (default 0 (last_pid r)) in
     match h with
     | Ok _ => saving (with_phase PRunning r) (incr SpawnsSuccessful)
     | Err e =>
         incr HealthChecksFailed;; error_counted;;
         saving (with_error (Some e) (with_phase PFailed r)) (mret tt)
     end) (fun _ => step_ok r (records (sto w1)) (started w1)) w1) as Hcheck.
  { apply wp_neutral_seq; [auto with neutral|]. intros [[]|e] w2 Hw2 Hl2.
    - apply wp_saving. cbn. intros w3 Hw3 Hl3. apply wp_neutral; [done|]. intros _.
      rewrite <- Hw2, <- Hl2. apply (step_ok_phase r (with_phase PRunning r)); cbn; done || by rewrite Hp.
    - apply wp_neutral_seq; [done|]. intros _ w3 Hw3 Hl3. apply wp_neutral_seq; [done|].
      intros _ w4 Hw4 Hl4. apply Hfail; congruence. }
  destruct z as [[]|]; [|done|done]. apply wp_neutral_seq; [done|]. intros _ w2 Hw2 Hl2.
  by apply Hfail.
Qed.

Lemma respawn_one_spec : max_spawn_attempts <= u32_max -> step_spec PFailed respawn_one.
Proof.
  intros Hmax r w Hr Hp Ha. unfold respawn_one.
  apply wp_neutral_seq; [done|]. intros _ w1 Hw1 Hl1. rewrite <- Hw1 in Hr |- *. rewrite <- Hl1.
  apply wp_neutral_seq; [destruct (known_pid r); auto with neutral|].
  intros z w2 Hw2 Hl2. rewrite <- Hw2 in Hr |- *. rewrite <- Hl2.
  assert (wp (if should_respawn r max_spawn_attempts then
     saving (respawn None r)
       (let* x := enqueue (sp_instance r) (sp_executable r) (sp_args r) in
        match x with
        | Err _ => incr DispatchErrors;; error_counted
        | Ok _ => respawned;; incr Respawns
        end)
     else mret tt) (fun _ => step_ok r (records (sto w2)) (started w2)) w2) as H.
  { destruct (should_respawn r max_spawn_attempts) eqn:Es;
      [|apply wp_neutral; [done|intros _; by apply step_ok_id]].
    unfold should_respawn in Es. apply andb_prop in Es as [_ Es%Z.ltb_lt].
    apply wp_saving. cbn. intros w3 Hw3 Hl3. apply wp_neutral.
    { apply neutral_seq; [auto with neutral|]. intros []; auto with neutral. }
    intros _. exists (respawn None r). rewrite Hw3, Hl3. split; [done|]. split; [done|]. cbn.
    rewrite Z.min_l by lia. split; [lia|]. left. split; [done|]. unfold starts_of; cbn.
    rewrite Z.min_l, decide_True, decide_False by (lia || done || by rewrite Hp). lia. }
  destruct z as [[]|]; [|exact H..]. apply wp_neutral; [done|]. intros _. by apply step_ok_id.
Qed.

Lemma wp_move r w :
  records (sto w) !! sp_instance r = Some r -> spawn_phase r <> PSpawn ->
  1 <= spawn_attempts r <= max_spawn_attempts ->
  wp (let* _ := move_phase (sp_instance r) PTerminated in mret tt)
    (fun _ => step_ok r (records (sto w)) (started w)) w.
Proof.
  intros Hr Hp Ha. apply wp_seq. unfold wp at 1, move_phase.
  pose proof (transition_law (sto w) (sp_instance r) PTerminated) as H.
  destruct (transition_phase _ _ _) as [x s]. cbn in *. intros w' Hw' Hl'.
  apply wp_neutral; [done|]. intros _. rewrite Hw', Hl', H. destruct (is_ok x); [|by apply step_ok_id].
  exists (with_phase PTerminated r). split.
  - apply map_eq. intros i. rewrite lookup_alter, lookup_insert. case_decide; [|done]. subst i. by rewrite Hr.
  - split; [done|]. split; [done|]. left. split; [done|]. unfold starts_of; cbn. by rewrite !decide_False.
Qed.

Lemma reap_running_spec : step_spec PRunning reap_running.
Proof.
  intros r w Hr Hp Ha. unfold reap_running. destruct (_ =? 0).
  { apply wp_neutral; [done|]. intros _. by apply step_ok_id. }
  apply wp_neutral_seq; [auto with neutral|]. intros z w1 Hw1 Hl1. rewrite <- Hw1 in Hr |- *. rewrite <- Hl1.
  destruct z as [[]|]; try (apply wp_neutral; [done|]; intros _; by apply step_ok_id).
  apply wp_neutral_seq; [done|]. intros _ w2 Hw2 Hl2. rewrite <- Hw2 in Hr |- *. rewrite <- Hl2.
  apply wp_neutral_seq; [auto with neutral|]. intros _ w3 Hw3 Hl3. rewrite <- Hw3 in Hr |- *. rewrite <- Hl3.
  apply wp_move; [done|by rewrite Hp|done].
Qed.

Lemma reap_failed_spec : step_spec PFailed reap_failed.
Proof.
  intros r w Hr Hp Ha. unfold reap_failed. destruct (is_zombie_state r).
  - apply wp_neutral_seq; [done|]. intros _ w2 Hw2 Hl2. rewrite <- Hw2 in Hr |- *. rewrite <- Hl2.
    apply wp_move; [done|by rewrite Hp|done].
  - apply wp_neutral; [done|]. intros _. by apply step_ok_id.
Qed.

Lemma counted_scan {B} p f (k : M B) w :
  step_spec p f -> (forall w, counted w -> counted (k w).2) -> counted w ->
  counted (mseq (scan p) (fun l => mseq (for_each f l) (fun _ => k)) w).2.
Proof.
  intros Hf Hk Hc. pose proof (scan_for_each_counted p f w Hf Hc) as H. unfold mseq in *. cbn in *.
  destruct (for_each f _ w) as [u w1]. by apply Hk.
Qed.

Lemma neutral_counted {A} (m : M A) w : neutral m -> counted w -> counted (m w).2.
Proof. intros Hm [H1 H2]. destruct (Hm w) as [E1 E2]. split; [intros i|]; rewrite E1, ?E2; auto. Qed.

Lemma ticks_counted n w : max_spawn_attempts <= u32_max -> counted w -> counted (ticks n w).2.
Proof.
  intros Hmax. revert w. induction n as [|n IH]; intros w Hc; cbn [ticks]; [done|].
  unfold mseq at 1. destruct (zombie_detection w) as [u w1] eqn:Ez.
  assert (counted w1) as Hc1.
  { change w1 with (u, w1).2. rewrite <- Ez. unfold zombie_detection.
    apply counted_scan; [apply reap_running_spec| |done]. intros w2 Hw2.
    apply scan_for_each_counted; [apply reap_failed_spec|done]. }
  unfold mseq at 1. destruct (process_cycle w1) as [c w2] eqn:Ep. apply IH.
  change w2 with (c, w2).2. rewrite <- Ep. unfold process_cycle. unfold mseq at 1.
  destruct (count (fun _ => mkCycle 0 0 0 0) w1) as [u' w1'] eqn:Ec.
  assert (counted w1') as Hc1' by (change w1' with (u', w1').2; rewrite <- Ec; by apply neutral_counted).
  apply counted_scan; [apply spawn_one_spec| |done].
  intros w3 Hw3. apply counted_scan; [apply check_one_spec| |done].
  intros w4 Hw4. apply counted_scan; [by apply respawn_one_spec| |done]. done.
Qed.
End Reliable.

(** The records of a new system. *)
Definition new_world (w : World) : Prop :=
  started w = [] /\
  forall i r, records (sto w) !! i = Some r -> exists exe args id, r = record_new i exe args id.


End Supervisor.

(** ** A storage in memory, and runs *)

Module SpawnWitness.

Definition in_phase (p : SpawnPhase) (kv : InstanceId * SpawnRecord) : Prop :=
  spawn_phase kv.2 = p /\ sp_instance kv.2 = kv.1.
#[global] Instance in_phase_dec p kv : Decision (in_phase p kv).
Proof. unfold in_phase. apply _. Defined.
Definition mem_scan (s : gmap InstanceId SpawnRecord) (p : SpawnPhase) (max : Z) : list SpawnRecord :=
  take (Z.to_nat max) (base.filter (in_phase p) (map_to_list s)).*2.

Record MemStorage : Type := mkMem { mem : gmap InstanceId SpawnRecord }.
#[global] Instance mem_storage : SpawnStorage MemStorage := {|
  records := mem;
  save_spawn_record s r := (Ok tt, mkMem (<[sp_instance r := r]> (mem s)));
  scan_spawns_by_phase s := mem_scan (mem s);
  transition_phase s i p := (Ok tt, mkMem (alter (with_phase p) i (mem s)));
|}.

Lemma mem_scan_map (s : gmap InstanceId SpawnRecord) p :
  let l := base.filter (in_phase p) (map_to_list s) in
  sp_instance <$> l.*2 = l.*1 /\ NoDup l.*1 /\
  (forall i r, (i, r) ∈ l <-> s !! i = Some r /\ in_phase p (i, r)).
Proof.
  intros l. split_and!.
  - unfold l. generalize (map_to_list s). intros k. induction k as [|[i r] k IH]; [done|].
    rewrite filter_cons. case_decide as H; [|done]. cbn in *. rewrite IH. destruct H as [_ H]. cbn in H. by rewrite H.
  - eapply sublist_NoDup; [apply (NoDup_fst_map_to_list s)|]. apply fmap_sublist, sublist_filter.
  - intros i r. unfold l. rewrite list_elem_of_filter, elem_of_map_to_list. tauto.
Qed.

#[global] Instance mem_storage_laws : SpawnStorageLaws MemStorage.
Proof.
  split.
  - done.
  - intros s p max r Hr. destruct (mem_scan_map (mem s) p) as (_ & _ & H). apply elem_of_take in Hr.
    destruct Hr as (k & Hk & _). apply list_elem_of_lookup_2, list_elem_of_fmap in Hk as ([i x] & -> & Hx).
    apply H in Hx as (H1 & H2 & H3). cbn in *. by rewrite H3.
  - intros s p max. destruct (mem_scan_map (mem s) p) as (H1 & H2 & _). cbn. unfold mem_scan.
    rewrite fmap_take, H1. eapply sublist_NoDup; [exact H2|]. apply sublist_take.
  - intros s p max i r Hlen Hi Hr Hp. cbn in *. unfold mem_scan in *. rewrite length_take in Hlen.
    rewrite take_ge by lia. destruct (mem_scan_map (mem s) p) as (_ & _ & H).
    apply list_elem_of_fmap. exists (i, r). split; [done|]. apply H. done.
  - done.
Qed.

(** A storage that cannot be written. *)
Record FullStorage : Type := mkFull { full : gmap InstanceId SpawnRecord }.
#[global] Instance full_storage : SpawnStorage FullStorage := {|
  records := full;
  save_spawn_record s r := (Err (SStorageError "full"), s);
  scan_spawns_by_phase s := mem_scan (full s);
  transition_phase s i p := (Err (SStorageError "full"), s);
|}.

(** Processes that start or not and are healthy or not. *)
Record TestEnv : Set := mkTestEnv { env_starts : bool; env_healthy : bool; env_pid : Z }.
#[global] Instance test_env : SpawnEnv TestEnv := {|
  acquire e := (true, e);
  pm_spawn_process e _ _ :=
    if env_starts e then (Ok (env_pid e), mkTestEnv true (env_healthy e) (env_pid e + 1))
    else (Err (SSpawnFailed "worker" "no such file"), e);
  pm_check_health e _ := (Ok (env_healthy e), e);
  pm_is_zombie e _ := (Ok false, e);
  pm_terminate e _ := (Ok tt, e);
  enqueue_spawn e _ _ _ := (Ok tt, e);
|}.

Definition worker : InstanceId := mkInstanceId "01H5JYV4XHGSR2F8KZ9BWNRFMA".
Definition one_worker : gmap InstanceId SpawnRecord := {[ worker := record_new worker "worker" [] None ]}.
Definition start_world {St} (s : St) (e : TestEnv) : World := mkWorld s e [] [] (mkCycle 0 0 0 0).


(** A healthy process runs after one tick. *)
Example healthy_runs :
  let w := (ticks 2 3 1 (start_world (mkMem one_worker) (mkTestEnv true true 100))).2 in
  spawn_phase <$> (records (sto w) !! worker) = Some PRunning.
Proof. by vm_compute. Qed.

(** A process that cannot be started is tried in every cycle, without end and without delay:
    a failed start does not count as an attempt. *)
Example failed_start_uncounted :
  let w := (ticks 2 3 20 (start_world (mkMem one_worker) (mkTestEnv false false 100))).2 in
  spawn_attempts <$> (records (sto w) !! worker) = Some 1 /\
  spawn_phase <$> (records (sto w) !! worker) = Some PSpawn /\
  length (base.filter (fun m => m = SpawnsFailed) (metrics w)) = 20%nat.
Proof. by vm_compute. Qed.

(** While records cannot be saved, every cycle starts another process of the instance. *)
Example unsaved_start_repeated :
  let w := (ticks 2 3 5 (start_world (mkFull one_worker) (mkTestEnv true true 100))).2 in
  started w = [worker; worker; worker; worker; worker].
Proof. by vm_compute. Qed.

End SpawnWitness.
