(* ===== verification/TimerSupervisor.v ===== *)
(** * The timer supervisor

    [crates/vo-actor/src/timer_supervisor/]: the older task that fires due timers, over the
    storage of [crates/vo-common/src/timer_storage.rs], and the helpers of [timer_lifecycle.rs]
    over the storage of the reanimator. Timer records are those of [Reanimator], which has the
    same fields. *)

From S2P Require Import Prelude Identifiers Reanimator.

(** [verify_dual_clock], [is_overdue]. *)
Definition verify_dual_clock (fire_at now : Z) : bool := fire_at <=? now.
Definition is_overdue (fire_at now tick_interval : Z) : bool :=
  Z.min (fire_at + tick_interval) u64_max <? now.

(** [enum TimerSupervisorError] with [is_transient], [is_fatal] and [is_operational]. *)
Inductive TimerSupervisorError : Set :=
| TsStorageError (s : string)
| TsCorruptTimer (s : string)
| TsAtomicityViolation (s : string)
| TsInstanceNotFound (i : InstanceId)
| TsMailboxFull (i : InstanceId)
| TsInvalidConfig (s : string)
| TsAlreadyRunning
| TsShutdownTimeout (d : Z)
| TsDispatchError (s : string)
| TsStorageAdapterError (s : string).
Definition ts_is_transient (e : TimerSupervisorError) : bool :=
  match e with
  | TsStorageError _ | TsInstanceNotFound _ | TsMailboxFull _ | TsDispatchError _ => true
  | _ => false
  end.
Definition ts_is_fatal (e : TimerSupervisorError) : bool :=
  match e with TsCorruptTimer _ | TsInvalidConfig _ => true | _ => false end.
Definition ts_is_operational (e : TimerSupervisorError) : bool :=
  match e with TsAlreadyRunning | TsShutdownTimeout _ | TsAtomicityViolation _ => true | _ => false end.

(** [enum TimerSupervisorState]. *)
Inductive TimerSupervisorState : Set := TsRunning | TsShuttingDown | TsShutDown.

(** [TimerSupervisor::new]: its check of the interval, in milliseconds. *)
Definition timer_supervisor_new (tick_interval : Z) : result TimerSupervisorError Z :=
  if tick_interval =? 0 then Err (TsInvalidConfig "tick_interval must be > 0") else Ok tick_interval.

(** [enum TimerStorageError] with its text, and the part of [trait TimerStorage] the supervisor uses, with a
    view of the timers. *)
Inductive TimerStorageError : Set := TimerNotFound | TimerStorageFailed (reason : string).
Definition TimerStorageError_to_string (e : TimerStorageError) : string :=
  match e with
  | TimerNotFound => "Timer not found"
  | TimerStorageFailed r => "Storage error: " +:+ r
  end.
Class TimerPort (St : Type) : Type := {
  stored : St -> list TimerRecord;
  list_expired_timers : St -> Z -> Z -> Z -> result TimerStorageError (list TimerRecord);
  cancel_timer : St -> InstanceId -> Z -> result TimerStorageError unit * St;
  retry_timer : St -> TimerRecord -> Z -> result TimerStorageError unit * St;
}.
Class TimerPortLaws (St : Type) `{TP : !TimerPort St} : Prop := {
  expired_law : forall s from to max l, list_expired_timers s from to max = Ok l ->
    forall t, t ∈ l -> t ∈ stored s;
  cancel_law : forall s i f,
    stored (cancel_timer s i f).2
    = if is_ok (cancel_timer s i f).1 then base.filter (fun t => key t <> (i, f)) (stored s) else stored s;
  retry_law : forall s t f,
    stored (retry_timer s t f).2
    = if is_ok (retry_timer s t f).1
      then stored s ++ [mkTimerRecord (instance_id t) f (timer_id t) (scheduled_at_ms t)] else stored s;
}.

(** [struct CycleResult]. *)
Record TimerCycle : Set := mkTimerCycle { timers_fired : Z; overdue_count : Z; error_count : Z }.

(** [struct TimerSupervisorMetrics]: four counters of 64 bits. *)
Record TimerMetrics : Set := mkTimerMetrics {
  m_timers_fired : Z; m_overdue_timers : Z; m_dispatch_errors : Z; m_deleted_but_dispatch_failed : Z }.

(** What becomes of a timer in a cycle. *)
Inductive Fate : Set := Fired | Kept | Retried | Lost.

Section Supervisor.
Context {St Wq : Type} `{TP : !TimerPort St} `{WQ : !WorkQueue Wq}.

(** The body of the loop of [TimerSupervisor::process_cycle]. *)
Definition fire_one (now : Z) (t : TimerRecord) (s : St) (q : Wq) : Fate * St * Wq :=
  match cancel_timer s (instance_id t) (fire_at_ms t) with
  | (Err _, s) => (Kept, s, q)
  | (Ok _, s) =>
      match enqueue_resume q (instance_id t) with
      | (Ok _, q) => (Fired, s, q)
      | (Err _, q) =>
          match retry_timer s t (saturating_add_u64 now 1000) with
          | (Ok _, s) => (Retried, s, q)
          | (Err _, s) => (Lost, s, q)
          end
      end
  end.
Definition count_fate (now tick_interval : Z) (t : TimerRecord) (f : Fate) (c : TimerCycle) : TimerCycle :=
  mkTimerCycle
    (timers_fired c + match f with Fired => 1 | _ => 0 end)
    (overdue_count c + if is_overdue (fire_at_ms t) now tick_interval then 1 else 0)
    (error_count c + match f with Fired => 0 | _ => 1 end).
Definition incr_if (b : bool) (v : Z) : Z := if b then wrapping_add_u64 v 1 else v.
Definition meter_fate (now tick_interval : Z) (t : TimerRecord) (f : Fate) (m : TimerMetrics) : TimerMetrics :=
  mkTimerMetrics
    (incr_if (match f with Fired => true | _ => false end) (m_timers_fired m))
    (incr_if (is_overdue (fire_at_ms t) now tick_interval) (m_overdue_timers m))
    (incr_if (match f with Fired => false | _ => true end) (m_dispatch_errors m))
    (incr_if (match f with Retried | Lost => true | _ => false end) (m_deleted_but_dispatch_failed m)).
Fixpoint fire_loop (now tick_interval : Z) (ts : list TimerRecord) (c : TimerCycle) (m : TimerMetrics)
    (s : St) (q : Wq) : list (TimerRecord * Fate) * TimerCycle * TimerMetrics * St * Wq :=
  match ts with
  | [] => ([], c, m, s, q)
  | t :: ts =>
      let '(f, s, q) := fire_one now t s q in
      let '(fs, c, m, s, q) :=
        fire_loop now tick_interval ts (count_fate now tick_interval t f c)
          (meter_fate now tick_interval t f m) s q in
      ((t, f) :: fs, c, m, s, q)
  end.

(** The supervisor: its interval, its counters, the store and the queue. *)
Record Sup : Type := mkSup { tick_interval_ms : Z; metrics : TimerMetrics; sup_storage : St; sup_queue : Wq }.

(** [TimerSupervisor::process_cycle], with the fates of the timers it takes up. *)
Definition process_timers (now : Z) (u : Sup)
  : result TimerSupervisorError (list (TimerRecord * Fate) * TimerCycle) * Sup :=
  match list_expired_timers (sup_storage u) 0 now 100 with
  | Err e => (Err (TsStorageAdapterError (TimerStorageError_to_string e)), u)
  | Ok l =>
      let due := base.filter (fun t => verify_dual_clock (fire_at_ms t) now = true) l in
      let '(fs, c, m, s, q) :=
        fire_loop now (tick_interval_ms u) due (mkTimerCycle 0 0 0) (metrics u) (sup_storage u) (sup_queue u) in
      (Ok (fs, c), mkSup (tick_interval_ms u) m s q)
  end.

(** [TimerSupervisor::run_loop], over the ticks it sees, each at its time, and the request to shut
    down: the states it sends and how it leaves the supervisor. The result of a cycle only goes to
    the log. *)
Inductive SupEvent : Set := TickAt (now : Z) | ShutdownAsked.
Fixpoint run_timers (evs : list SupEvent) (u : Sup) : list TimerSupervisorState * Sup :=
  match evs with
  | [] => ([], u)
  | ShutdownAsked :: _ => ([TsShuttingDown; TsShutDown], u)
  | TickAt now :: evs => run_timers evs (process_timers now u).2
  end.

(** *** What a cycle does *)

Context `{HT : !TimerPortLaws St} `{HW : !WorkQueueLaws Wq}.

Definition taken_out (x : TimerRecord * Fate) : bool := match x.2 with Kept => false | _ => true end.
Definition removed_keys (fs : list (TimerRecord * Fate)) : list (InstanceId * Z) :=
  (fun x => key x.1) <$> base.filter (fun x => taken_out x = true) fs.
Definition later (now : Z) (t : TimerRecord) : TimerRecord :=
  mkTimerRecord (instance_id t) (now + 1000) (timer_id t) (scheduled_at_ms t).
Definition rescheduled (now : Z) (fs : list (TimerRecord * Fate)) : list TimerRecord :=
  omap (fun x => match x.2 with Retried => Some (later now x.1) | _ => None end) fs.
Definition resumed_by (fs : list (TimerRecord * Fate)) : list InstanceId :=
  omap (fun x => match x.2 with Fired => Some (instance_id x.1) | _ => None end) fs.

Lemma fire_one_spec now t s q f s' q' :
  0 <= now -> now + 1000 <= u64_max -> fire_one now t s q = (f, s', q') ->
  stored s' = base.filter (fun x => key x ∉ removed_keys [(t, f)]) (stored s) ++ rescheduled now [(t, f)] /\
  enqueued q' = enqueued q ++ resumed_by [(t, f)].
Proof.
  intros H0 H1. unfold fire_one. pose proof (cancel_law s (instance_id t) (fire_at_ms t)) as Hc.
  destruct (cancel_timer _ _ _) as [[[]|e] s1]; cbn in Hc.
  - assert (forall f, f <> Kept ->
      base.filter (fun x => key x ∉ removed_keys [(t, f)]) (stored s) = stored s1) as Hf.
    { intros f' Hf'. rewrite Hc. apply list_filter_iff. intros x.
      replace (removed_keys [(t, f')]) with [key t] by (by destruct f').
      rewrite list_elem_of_singleton. done. }
    pose proof (enqueue_law q (instance_id t) _ eq_refl) as Hq.
    destruct (enqueue_resume _ _) as [[[]|e] q1]; cbn in Hq.
    + intros [= <- <- <-]. rewrite Hf by done. split; [|done]. symmetry. apply app_nil_r.
    + pose proof (retry_law s1 t (saturating_add_u64 now 1000)) as Hr.
      unfold saturating_add_u64 in *. rewrite Z.min_l in * by lia.
      destruct (retry_timer _ _ _) as [[[]|e'] s2]; cbn in Hr; intros [= <- <- <-];
        rewrite Hf, Hr, Hq by done; split; try done; symmetry; apply app_nil_r.
  - intros [= <- <- <-]. rewrite Hc. split; [|symmetry; apply app_nil_r]. symmetry.
    etrans; [apply app_nil_r|]. apply filter_true. intros x. apply not_elem_of_nil.
Qed.

Lemma rescheduled_stay now fs (ks : list (InstanceId * Z)) :
  (forall k, k ∈ ks -> k.2 <= now) ->
  base.filter (fun x => key x ∉ ks) (rescheduled now fs) = rescheduled now fs.
Proof.
  intros Hk. apply filter_all, Forall_forall. intros x Hx Hin. unfold rescheduled in Hx.
  apply list_elem_of_omap in Hx as ([t f] & _ & Ht). destruct f; simplify_eq/=.
  apply Hk in Hin. cbn in Hin. lia.
Qed.

Lemma fire_loop_spec now tick ts c m s q fs c' m' s' q' :
  0 <= now -> now + 1000 <= u64_max -> (forall t, t ∈ ts -> fire_at_ms t <= now) ->
  fire_loop now tick ts c m s q = (fs, c', m', s', q') ->
  fs.*1 = ts /\
  stored s' = base.filter (fun x => key x ∉ removed_keys fs) (stored s) ++ rescheduled now fs /\
  enqueued q' = enqueued q ++ resumed_by fs /\
  timers_fired c' = timers_fired c + Z.of_nat (length (resumed_by fs)) /\
  timers_fired c' + error_count c' = timers_fired c + error_count c + Z.of_nat (length ts).
Proof.
  intros H0 H1. revert c m s q fs. induction ts as [|t ts IH]; intros c m s q fs Hts E; cbn in E.
  { simplify_eq/=. rewrite !app_nil_r. split_and!; try done; try lia. symmetry.
    apply filter_true. intros x. apply not_elem_of_nil. }
  destruct (fire_one now t s q) as [[f s1] q1] eqn:E1.
  destruct (fire_loop now tick ts _ _ s1 q1) as [[[[fs1 c1] m1] s2] q2] eqn:E2. simplify_eq.
  destruct (fire_one_spec _ _ _ _ _ _ _ H0 H1 E1) as [Hs1 Hq1].
  destruct (IH _ _ _ _ _ ltac:(intros; apply Hts; by right) E2) as (H2 & H3 & H4 & H5 & H6).
  assert (forall k, k ∈ removed_keys fs1 -> k.2 <= now) as Hk.
  { intros k Hk. unfold removed_keys in Hk. apply list_elem_of_fmap in Hk as ([t' f'] & -> & Ht').
    apply list_elem_of_filter in Ht' as [_ Ht']. cbn. apply Hts. right. rewrite <- H2.
    apply list_elem_of_fmap. by exists (t', f'). }
  assert (removed_keys ((t, f) :: fs1) = removed_keys [(t, f)] ++ removed_keys fs1) as Hrk.
  { unfold removed_keys. change ((t, f) :: fs1) with ([(t, f)] ++ fs1). by rewrite filter_app, fmap_app. }
  split_and!.
  - cbn. by rewrite H2.
  - rewrite H3, Hs1, filter_app, rescheduled_stay, <- app_assoc by done. f_equal.
    + rewrite list_filter_filter. apply list_filter_iff. intros x. rewrite Hrk, not_elem_of_app. tauto.
    + unfold rescheduled. change ((t, f) :: fs1) with ([(t, f)] ++ fs1). by rewrite omap_app.
  - rewrite H4, Hq1, <- app_assoc. f_equal. unfold resumed_by.
    change ((t, f) :: fs1) with ([(t, f)] ++ fs1). by rewrite omap_app.
  - rewrite H5. unfold resumed_by. cbn. destruct f; cbn; lia.
  - rewrite H6. cbn [count_fate timers_fired error_count length]. destruct f; cbn [count_fate timers_fired error_count]; lia.
Qed.

(** A cycle that lists its timers takes up only timers that are stored and due, and accounts
    for each: a timer that fires, is put back or is lost leaves the store under its key, one whose
    deletion fails stays and is not resumed, exactly those that fire are appended to the work queue,
    in the order of the scan, exactly those whose dispatch failed and could be put back are stored
    again for a second later, and the counts of the result add up. A cycle whose scan fails changes
    nothing. *)
Theorem timer_cycle_exact now u :
  0 <= now -> now + 1000 <= u64_max ->
  match process_timers now u with
  | (Err _, u') => u' = u
  | (Ok (fs, c), u') =>
      (forall t f, (t, f) ∈ fs -> t ∈ stored (sup_storage u) /\ fire_at_ms t <= now) /\
      stored (sup_storage u')
      = base.filter (fun x => key x ∉ removed_keys fs) (stored (sup_storage u)) ++ rescheduled now fs /\
      enqueued (sup_queue u') = enqueued (sup_queue u) ++ resumed_by fs /\
      timers_fired c = Z.of_nat (length (resumed_by fs)) /\
      timers_fired c + error_count c = Z.of_nat (length fs)
  end.
Proof.
  intros H0 H1. unfold process_timers.
  destruct (list_expired_timers _ 0 now 100) as [l|e] eqn:El; [|done].
  set (due := base.filter _ l).
  assert (forall t, t ∈ due -> t ∈ stored (sup_storage u) /\ fire_at_ms t <= now) as Hd.
  { intros t [Hv Ht]%list_elem_of_filter. split; [by eapply expired_law|]. by apply Z.leb_le. }
  destruct (fire_loop _ _ _ _ _ _ _) as [[[[fs c] m] s] q] eqn:E.
  destruct (fire_loop_spec _ _ _ _ _ _ _ _ _ _ _ _ H0 H1 (fun t Ht => proj2 (Hd t Ht)) E)
    as (Hfs & Hs & Hq & Hc & He). cbn [timers_fired error_count] in *.
  split_and!; try done; [|rewrite He, <- Hfs, length_fmap; lia].
  intros t f Ht. apply Hd. rewrite <- Hfs. apply list_elem_of_fmap. by exists (t, f).
Qed.

End Supervisor.

(** ** Timers of an instance: [timer_lifecycle.rs] *)

(** [enum TimerLifecycleError]; [StorageError] carries the text of the storage's error, here the
    error. *)
Inductive TimerLifecycleError : Set :=
| LcStorageError (e : ReanimatorError)
| LcInstanceNotFound (i : InstanceId)
| LcTimerNotFound (i : InstanceId) (fire_at : Z).

Section TimerLifecycle.
Context {St : Type} `{TS : !TimerStorage St}.

(** [cancel_timers_for_instance], [scan_instance_timers] (at the time [now] it reads) and
    [has_pending_timers]. *)
Definition cancel_timers_for_instance (s : St) (i : InstanceId) : result TimerLifecycleError Z * St :=
  match delete_all_timers_for_instance s i with
  | (Ok n, s) => (Ok n, s)
  | (Err e, s) => (Err (LcStorageError e), s)
  end.
Definition scan_instance_timers (now : Z) (s : St) (i : InstanceId) (max_results : Z)
  : result TimerLifecycleError (list TimerRecord) * St :=
  match scan_due_timers s 0 now max_results with
  | (Ok all_timers, s) => (Ok (base.filter (fun t => instance_id t = i) all_timers), s)
  | (Err e, s) => (Err (LcStorageError e), s)
  end.
Definition has_pending_timers (now : Z) (s : St) (i : InstanceId) : result TimerLifecycleError bool * St :=
  match scan_instance_timers now s i 1 with
  | (Ok ts, s) => (Ok (match ts with [] => false | _ => true end), s)
  | (Err e, s) => (Err e, s)
  end.

(** [validate_timer_for_cancellation]. *)
Definition validate_timer_for_cancellation (t : TimerRecord) (i : InstanceId) : result TimerLifecycleError unit :=
  if decide (instance_id t = i) then Ok tt else Err (LcTimerNotFound i (fire_at_ms t)).

Context `{HS : !TimerStorageLaws St}.

(** After the cancellation no timer of the instance is stored, and the timers of the others are;
    what is then found for the instance is nothing. *)
Lemma cancelled_timers_gone now s i n s' :
  cancel_timers_for_instance s i = (Ok n, s') ->
  timers s' ≡ₚ base.filter (fun t => instance_id t <> i) (timers s) /\
  forall max l, (scan_instance_timers now s' i max).1 = Ok l -> l = [].
Proof.
  unfold cancel_timers_for_instance. destruct (delete_all_timers_for_instance s i) as [[k|e] s1] eqn:E;
    intros [= <- <-]. destruct (delete_all_law _ _ _ E) as [_ Ht]. cbn in Ht. split; [done|].
  intros max l. unfold scan_instance_timers.
  destruct (scan_due_timers s1 0 now max) as [[all|e] s2] eqn:E2; intros [= <-].
  destruct (scan_law _ _ _ _ E2) as (_ & _ & Hl). destruct (Hl all eq_refl) as (Hsub & _).
  destruct (base.filter _ all) as [|t l] eqn:Ef; [done|exfalso].
  assert (t ∈ base.filter (fun t => instance_id t = i) all) as [Hi Hin]%list_elem_of_filter
    by (rewrite Ef; by left).
  eapply elem_of_submseteq in Hsub; [|exact Hin]. apply list_elem_of_filter in Hsub as [_ Hsub].
  rewrite Ht in Hsub. by apply list_elem_of_filter in Hsub as [? _].
Qed.

End TimerLifecycle.

Module TimerWitness.

(** A store that is a list of timers; it can be told to refuse what is put back. *)
Record ListStore : Set := mkListStore { ls_timers : list TimerRecord; ls_retries : bool }.
#[global] Instance list_store : TimerPort ListStore := {|
  stored := ls_timers;
  list_expired_timers s from to max :=
    Ok (take (Z.to_nat max) (base.filter (fun t => from <= fire_at_ms t <= to) (ls_timers s)));
  cancel_timer s i f :=
    if decide ((i, f) ∈ key <$> ls_timers s)
    then (Ok tt, mkListStore (base.filter (fun t => key t <> (i, f)) (ls_timers s)) (ls_retries s))
    else (Err TimerNotFound, s);
  retry_timer s t f :=
    if ls_retries s
    then (Ok tt, mkListStore
            (ls_timers s ++ [mkTimerRecord (instance_id t) f (timer_id t) (scheduled_at_ms t)]) (ls_retries s))
    else (Err (TimerStorageFailed "full"), s);
|}.
#[global] Instance list_store_laws : TimerPortLaws ListStore.
Proof.
  split.
  - intros s from to max l [= <-] t Ht. apply elem_of_take in Ht as (n & Ht & _).
    apply list_elem_of_lookup_2 in Ht. by apply list_elem_of_filter in Ht as [_ ?].
  - intros s i f. cbn. by destruct (decide _).
  - intros s t f. cbn. by destruct (ls_retries s).
Qed.

(** A queue that refuses one instance. *)
Record PickyQueue : Set := mkPicky { pk_enqueued : list InstanceId; pk_refused : InstanceId }.
#[global] Instance picky_queue : WorkQueue PickyQueue := {|
  enqueued := pk_enqueued;
  enqueue_resume q i :=
    if decide (i = pk_refused q) then (Err "busy", q)
    else (Ok tt, mkPicky (pk_enqueued q ++ [i]) (pk_refused q));
  is_instance_terminal q i := (Ok false, q);
|}.
#[global] Instance picky_queue_laws : WorkQueueLaws PickyQueue.
Proof. split; [|by intros q i ? <-]. intros q i ? <-. cbn. by destruct (decide _). Qed.

Definition i1 : InstanceId := InstanceId_from_u128 1.
Definition i2 : InstanceId := InstanceId_from_u128 2.
Definition timer_at (i : InstanceId) (f : Z) : TimerRecord := mkTimerRecord i f None 0.
Definition sup0 (retries : bool) : Sup :=
  mkSup 100 (mkTimerMetrics 0 0 0 0)
    (mkListStore [timer_at i1 10; timer_at i2 20; timer_at i1 500] retries) (mkPicky [] i2).

(** At 200 the first instance is resumed, the timer of the second moves to 1200, and the last stays. *)
Lemma timer_cycle_exact_witness :
  stored (sup_storage (process_timers 200 (sup0 true)).2) = [timer_at i1 500; timer_at i2 1200] /\
  match process_timers 200 (sup0 true) with
  | (Err _, u') => u' = sup0 true
  | (Ok (fs, c), u') =>
      (forall t f, (t, f) ∈ fs -> t ∈ stored (sup_storage (sup0 true)) /\ fire_at_ms t <= 200) /\
      stored (sup_storage u')
      = base.filter (fun x => key x ∉ removed_keys fs) (stored (sup_storage (sup0 true))) ++ rescheduled 200 fs /\
      enqueued (sup_queue u') = enqueued (sup_queue (sup0 true)) ++ resumed_by fs /\
      timers_fired c = Z.of_nat (length (resumed_by fs)) /\
      timers_fired c + error_count c = Z.of_nat (length fs)
  end.
Proof.
  split; [by vm_compute|]. apply (timer_cycle_exact 200 (sup0 true)); unfold u64_max; lia.
Defined.

(** When the queue refuses an instance and its timer cannot be put back, the timer is in neither. *)
Lemma timer_lost_for_good :
  (process_timers 200 (sup0 false)).1
  = Ok ([(timer_at i1 10, Fired); (timer_at i2 20, Lost)], mkTimerCycle 1 2 1) /\
  stored (sup_storage (process_timers 200 (sup0 false)).2) = [timer_at i1 500] /\
  enqueued (sup_queue (process_timers 200 (sup0 false)).2) = [i1].
Proof. by vm_compute. Qed.

(** The only error of a cycle falls in none of the three classes [run_loop] distinguishes. *)
Lemma cycle_error_unclassified r :
  let e := TsStorageAdapterError r in
  ts_is_transient e = false /\ ts_is_fatal e = false /\ ts_is_operational e = false.
Proof. done. Qed.

(** [has_pending_timers] asks for one due timer of any instance: an instance whose timer is not the
    first of the scan, or not due yet, has none. *)
Lemma pending_timer_missed :
  let s := mock_new [timer_at i1 10; timer_at i2 20; timer_at i1 500] in
  (has_pending_timers 200 s i2).1 = Ok false /\ timer_at i2 20 ∈ timers s /\
  (has_pending_timers 5 s i1).1 = Ok false /\ timer_at i1 10 ∈ timers s.
Proof. split_and!; try by vm_compute. all: cbn; set_solver. Qed.

End TimerWitness.
