(* ===== verification/Workspaces.v ===== *)
(** * The workspace index

    [crates/vo-types/src/workspace/]: names, paths and metadata of workspaces and the index that
    keeps them as a forest with a map from paths, with its loops over parents and children bounded
    by the number of nodes. Serialisation is left out, except for the text of paths. *)

From stdpp Require Import strings sorting.
From S2P Require Import Prelude Identifiers.
From Stdlib Require Import Ascii.

(** ** Identifiers, names and paths *)

(** [struct WorkspaceId] is a ULID, a number of 128 bits; [WorkspaceId::generate] from the ULID it
    draws and the last one it gave out. *)
Definition generate (ulid : Z) (last : option Z) : Z :=
  match last with
  | Some prev => if ulid <=? prev then (prev + 1) mod (u128_max + 1) else ulid
  | None => ulid
  end.

(** [struct WorkspaceName] and [WorkspaceName::parse]. *)
Record WorkspaceName : Set := mkWsName { ws_name_str : string }.
#[global] Instance WorkspaceName_eq_dec : EqDecision WorkspaceName.
Proof. solve_decision. Defined.
#[global] Program Instance WorkspaceName_countable : Countable WorkspaceName :=
  inj_countable' ws_name_str mkWsName _.
Next Obligation. by intros []. Qed.

Definition is_name_char (c : ascii) : bool :=
  let n := Z.of_nat (nat_of_ascii c) in
  ((97 <=? n) && (n <=? 122)) || is_ascii_digit c || bool_decide (c = hyphen).
Definition WorkspaceName_parse (input : string) : result ParseError WorkspaceName :=
  let type_name := "WorkspaceName" in
  if is_empty input then Err (Empty type_name)
  else if 64 <? len input then Err (ExceedsMaxLength type_name 64 (len input))
  else if negb (forallb is_name_char (chars input)) then
    Err (InvalidCharacters type_name (extract_invalid_chars input is_name_char))
  else if bool_decide (head (chars input) = Some hyphen) then
    Err (BoundaryViolation type_name "must not start with hyphen")
  else if bool_decide (last (chars input) = Some hyphen) then
    Err (BoundaryViolation type_name "must not end with hyphen")
  else if contains_pair hyphen hyphen (chars input) then Err (ConsecutiveHyphens type_name)
  else Ok (mkWsName input).

(** [struct WorkspacePath]: its segments. *)
Definition WorkspacePath : Type := list WorkspaceName.

(** [enum WorkspaceIndexError]: the errors of the index. *)
Inductive WorkspaceIndexError : Type :=
| WorkspaceNotFound (i : Z)
| PathNotFound (p : WorkspacePath)
| ParentNotFound (i : Z)
| CyclicMoveDetected (workspace_id attempted_parent : Z)
| DuplicatePath (p : WorkspacePath)
| DuplicateName (parent : Z) (name : WorkspaceName)
| PathTooDeep (max_depth actual_depth : Z)
| MetadataKeyTooLong (max_length actual_length : Z)
| MetadataValueTooLong (max_length actual_length : Z)
| TooManyMetadataEntries (max actual : Z)
| IndexNotInitialized.

(** [WorkspacePath::new], [single] and [child]; no caller passes an empty list, on which
    [NonEmptyVec::new_unchecked] panics. *)
Definition MAX_DEPTH : Z := 16.
Definition path_new (segments : list WorkspaceName) : result WorkspaceIndexError WorkspacePath :=
  let depth := Z.of_nat (length segments) in
  if MAX_DEPTH <? depth then Err (PathTooDeep MAX_DEPTH (as_u32 depth)) else Ok segments.
Definition path_single (name : WorkspaceName) : result WorkspaceIndexError WorkspacePath := path_new [name].
Definition path_child (p : WorkspacePath) (name : WorkspaceName) : result WorkspaceIndexError WorkspacePath :=
  path_new (p ++ [name]).

(** [WorkspacePath::fmt] (the segments joined by slashes), and [WorkspacePath::deserialize], which
    splits at them. *)
Definition slash : ascii := "/"%char.
Fixpoint join_chars (l : list (list ascii)) : list ascii :=
  match l with
  | [] => []
  | [x] => x
  | x :: l => x ++ slash :: join_chars l
  end.
Fixpoint split_chars (cur : list ascii) (l : list ascii) : list (list ascii) :=
  match l with
  | [] => [cur]
  | c :: l => if decide (c = slash) then cur :: split_chars [] l else split_chars (cur ++ [c]) l
  end.
Definition path_to_string (p : WorkspacePath) : string :=
  of_chars (join_chars ((fun n => chars (ws_name_str n)) <$> p)).
Inductive PathTextError : Type := BadSegment (e : ParseError) | BadPath (e : WorkspaceIndexError).
Definition path_of_string (s : string) : result PathTextError WorkspacePath :=
  match collect_result (fun x => WorkspaceName_parse (of_chars x)) (split_chars [] (chars s)) with
  | Err e => Err (BadSegment e)
  | Ok segments => map_err BadPath (path_new segments)
  end.

(** [struct WorkspaceMetadata] and [validate], which goes through the entries in the order of their
    keys. *)
Definition WorkspaceMetadata : Type := gmap string string.
Definition by_text (a b : string * string) : Prop := String.le a.1 b.1.
#[global] Instance by_text_dec a b : Decision (by_text a b).
Proof. unfold by_text. apply _. Defined.
Definition metadata_entries (m : WorkspaceMetadata) : list (string * string) :=
  merge_sort by_text (map_to_list m).
Definition validate_metadata (m : WorkspaceMetadata) : result WorkspaceIndexError unit :=
  if 64 <? Z.of_nat (size m) then Err (TooManyMetadataEntries 64 (Z.of_nat (size m)))
  else
    try_for_each (fun kv =>
      if 128 <? len kv.1 then Err (MetadataKeyTooLong 128 (len kv.1))
      else if 4096 <? len kv.2 then Err (MetadataValueTooLong 4096 (len kv.2))
      else Ok tt) (metadata_entries m).

(** ** The index *)

(** [struct WorkspaceNode] and its constructors; [struct WorkspaceIndex]. *)
Record WorkspaceNode : Type := mkWsNode {
  ws_id : Z;
  ws_name : WorkspaceName;
  parent_id : option Z;
  children : list Z;
  ws_metadata : WorkspaceMetadata;
  created_at : Z;
  updated_at : Z;
}.
Definition new_root (i : Z) (name : WorkspaceName) (meta : WorkspaceMetadata) (now : Z) : WorkspaceNode :=
  mkWsNode i name None [] meta now now.
Definition new_child (i : Z) (name : WorkspaceName) (p : Z) (meta : WorkspaceMetadata) (now : Z)
  : WorkspaceNode := mkWsNode i name (Some p) [] meta now now.
Definition with_children (f : list Z -> list Z) (n : WorkspaceNode) : WorkspaceNode :=
  mkWsNode (ws_id n) (ws_name n) (parent_id n) (f (children n)) (ws_metadata n) (created_at n) (updated_at n).
Definition with_parent (p : option Z) (now : Z) (n : WorkspaceNode) : WorkspaceNode :=
  mkWsNode (ws_id n) (ws_name n) p (children n) (ws_metadata n) (created_at n) now.
Definition with_metadata (m : WorkspaceMetadata) (now : Z) (n : WorkspaceNode) : WorkspaceNode :=
  mkWsNode (ws_id n) (ws_name n) (parent_id n) (children n) m (created_at n) now.

Record WorkspaceIndex : Type := mkIndex {
  nodes : gmap Z WorkspaceNode;
  root_ids : list Z;
  path_index : gmap WorkspacePath Z;
  version : Z;
  initialized : bool;
}.
Definition index_new : WorkspaceIndex := mkIndex ∅ [] ∅ 0 true.

(** The loops: [None] when the number of nodes does not bound them. [climb] goes up the parents,
    [gather] pops a stack of nodes, here with its top first. *)
Fixpoint climb (m : gmap Z WorkspaceNode) (fuel : nat) (current : option Z) (segments : list WorkspaceName)
  : option (result WorkspaceIndexError (list WorkspaceName)) :=
  match current, fuel with
  | None, _ => Some (Ok segments)
  | Some _, O => None
  | Some pid, S fuel =>
      match m !! pid with
      | None => Some (Err (WorkspaceNotFound pid))
      | Some parent => climb m fuel (parent_id parent) (ws_name parent :: segments)
      end
  end.
Fixpoint gather (m : gmap Z WorkspaceNode) (fuel : nat) (stack : list Z) : option (list Z) :=
  match stack, fuel with
  | [], _ => Some []
  | _ :: _, O => None
  | c :: stack, S fuel =>
      cons c <$> gather m fuel (match m !! c with Some n => rev (children n) ++ stack | None => stack end)
  end.
Fixpoint climb_ids (m : gmap Z WorkspaceNode) (fuel : nat) (current : option Z) (ancestors : list Z)
  : option (result WorkspaceIndexError (list Z)) :=
  match current, fuel with
  | None, _ => Some (Ok (rev ancestors))
  | Some _, O => None
  | Some pid, S fuel =>
      match m !! pid with
      | None => Some (Err (WorkspaceNotFound pid))
      | Some parent => climb_ids m fuel (parent_id parent) (ancestors ++ [pid])
      end
  end.
Fixpoint is_below (m : gmap Z WorkspaceNode) (fuel : nat) (current : option WorkspaceNode) (ancestor : Z)
  : option bool :=
  match current with
  | None => Some false
  | Some node =>
      if decide (parent_id node = Some ancestor) then Some true
      else match fuel with
           | O => None
           | S fuel => is_below m fuel (parent_id node ≫= fun p => m !! p) ancestor
           end
  end.

(** A computation on the index and the last identifier: it may not end, it may fail, and a failure
    keeps what was changed before it. *)
Record WsState : Type := mkWs { ix : WorkspaceIndex; last_ulid : option Z }.
Definition WS (A : Type) : Type := WsState -> option (result WorkspaceIndexError A * WsState).
Definition wret {A} (a : A) : WS A := fun w => Some (Ok a, w).
Definition wfail {A} (e : WorkspaceIndexError) : WS A := fun w => Some (Err e, w).
Definition wbind {A B} (c : WS A) (k : A -> WS B) : WS B := fun w =>
  match c w with
  | None => None
  | Some (Err e, w) => Some (Err e, w)
  | Some (Ok a, w) => k a w
  end.
#[local] Notation "'let*' x ':=' c 'in' k" := (wbind c (fun x => k))
  (at level 10, x pattern, c at level 100, k at level 200).
#[local] Notation "c ';;' k" := (wbind c (fun _ => k)) (at level 100, k at level 200, right associativity).

Definition wread {A} (f : WorkspaceIndex -> A) : WS A := fun w => Some (Ok (f (ix w)), w).
Definition wloop {A} (f : WorkspaceIndex -> option A) : WS A := fun w => (fun a => (Ok a, w)) <$> f (ix w).
Definition wtry {A} (r : result WorkspaceIndexError A) : WS A := fun w => Some (r, w).
Definition wset (f : WorkspaceIndex -> WorkspaceIndex) : WS unit := fun w =>
  Some (Ok tt, mkWs (f (ix w)) (last_ulid w)).
Definition set_nodes (f : gmap Z WorkspaceNode -> gmap Z WorkspaceNode) : WS unit :=
  wset (fun x => mkIndex (f (nodes x)) (root_ids x) (path_index x) (version x) (initialized x)).
Definition set_roots (f : list Z -> list Z) : WS unit :=
  wset (fun x => mkIndex (nodes x) (f (root_ids x)) (path_index x) (version x) (initialized x)).
Definition set_paths (f : gmap WorkspacePath Z -> gmap WorkspacePath Z) : WS unit :=
  wset (fun x => mkIndex (nodes x) (root_ids x) (f (path_index x)) (version x) (initialized x)).
Definition bump_version : WS unit :=
  wset (fun x => mkIndex (nodes x) (root_ids x) (path_index x) (wrapping_add_u64 (version x) 1) (initialized x)).
Definition check_initialized : WS unit :=
  let* b := wread initialized in if b then wret tt else wfail IndexNotInitialized.
Definition get_node (i : Z) (e : WorkspaceIndexError) : WS WorkspaceNode :=
  let* o := wread (fun x => nodes x !! i) in wtry (ok_or o e).

(** [WorkspaceIndex::compute_path], [collect_descendants] and [is_descendant]. *)
Definition compute_path_in (x : WorkspaceIndex) (i : Z) : option (result WorkspaceIndexError WorkspacePath) :=
  match nodes x !! i with
  | None => Some (Err (WorkspaceNotFound i))
  | Some node =>
      (fun r => rbind r path_new) <$> climb (nodes x) (size (nodes x)) (parent_id node) [ws_name node]
  end.
Definition compute_path (i : Z) : WS WorkspacePath :=
  let* r := wloop (fun x => compute_path_in x i) in wtry r.
Definition collect_descendants (i : Z) : WS (list Z) :=
  wloop (fun x => gather (nodes x) (size (nodes x))
                    (match nodes x !! i with Some n => rev (children n) | None => [] end)).
Definition is_descendant (i ancestor : Z) : WS bool :=
  wloop (fun x => is_below (nodes x) (size (nodes x)) (nodes x !! i) ancestor).

(** [WorkspaceIndex::insert], with the ULID that [generate] would draw. *)
Definition insert (ulid : Z) (parent : option Z) (name : WorkspaceName) (meta : WorkspaceMetadata) (now : Z)
  : WS Z :=
  check_initialized;;
  wtry (validate_metadata meta);;
  let* path :=
    match parent with
    | Some pid =>
        let* known := wread (fun x => bool_decide (is_Some (nodes x !! pid))) in
        if negb known then wfail (ParentNotFound pid)
        else let* parent_path := compute_path pid in wtry (path_child parent_path name)
    | None => wtry (path_single name)
    end in
  let* taken := wread (fun x => bool_decide (is_Some (path_index x !! path))) in
  if taken : bool then wfail (DuplicatePath path)
  else
    let* i := (fun w => let i := generate ulid (last_ulid w) in Some (Ok i, mkWs (ix w) (Some i))) in
    let node := match parent with
                | Some pid => new_child i name pid meta now
                | None => new_root i name meta now
                end in
    set_nodes <[i := node]>;;
    set_paths <[path := i]>;;
    match parent with
    | Some pid => set_nodes (alter (with_children (fun l => l ++ [i])) pid)
    | None => set_roots (fun l => l ++ [i])
    end;;
    bump_version;;
    wret i.

(** [WorkspaceIndex::delete]. *)
Fixpoint forget_paths (ids : list Z) : WS unit :=
  match ids with
  | [] => wret tt
  | i :: ids =>
      let* r := wloop (fun x => compute_path_in x i) in
      match r with Ok path => set_paths (delete path) | Err _ => wret tt end;;
      forget_paths ids
  end.
Definition detach (i : Z) (parent : option Z) : WS unit :=
  match parent with
  | Some pid => set_nodes (alter (with_children (base.filter (fun c => c <> i))) pid)
  | None => set_roots (base.filter (fun r => r <> i))
  end.
Definition delete_workspace (i : Z) : WS unit :=
  check_initialized;;
  let* node := get_node i (WorkspaceNotFound i) in
  let* descendants := collect_descendants i in
  let all_ids := i :: descendants in
  forget_paths all_ids;;
  detach i (parent_id node);;
  set_nodes (fun m => foldr delete m all_ids);;
  bump_version.

(** [WorkspaceIndex::move_workspace]: the search for a child of the same name, the paths computed
    after the move, and the new paths it inserts. *)
Definition child_named (x : WorkspaceIndex) (p : Z) (name : WorkspaceName) : bool :=
  match nodes x !! p with
  | None => false
  | Some n =>
      existsb (fun c => match nodes x !! c with
                        | Some cn => bool_decide (ws_name cn = name)
                        | None => false
                        end) (children n)
  end.
Fixpoint insert_paths (all_ids descendants : list Z) (segments : list WorkspaceName) : WS unit :=
  match all_ids with
  | [] => wret tt
  | d :: all_ids =>
      let* path := wtry (path_new segments) in
      set_paths <[path := d]>;;
      let* next := wread (fun x =>
        match head descendants ≫= fun y => nodes x !! y with
        | Some n => match head (children n) ≫= fun c => nodes x !! c with
                    | Some cn => segments ++ [ws_name cn]
                    | None => segments
                    end
        | None => segments
        end) in
      insert_paths all_ids (tail descendants) next
  end.
Definition move_workspace (i : Z) (new_parent : option Z) (now : Z) : WS unit :=
  check_initialized;;
  let* node := get_node i (WorkspaceNotFound i) in
  if decide (parent_id node = new_parent) then bump_version
  else
    match new_parent with
    | Some np =>
        if decide (np = i) then wfail (CyclicMoveDetected i np)
        else
          let* known := wread (fun x => bool_decide (is_Some (nodes x !! np))) in
          if negb known then wfail (ParentNotFound np)
          else
            let* below := is_descendant np i in
            if below : bool then wfail (CyclicMoveDetected i np)
            else
              let* named := wread (fun x => child_named x np (ws_name node)) in
              if named : bool then wfail (DuplicateName np (ws_name node)) else wret tt
    | None => wret tt
    end;;
    let* descendants := collect_descendants i in
    detach i (parent_id node);;
    match new_parent with
    | Some np => set_nodes (alter (with_children (fun l => l ++ [i])) np)
    | None => set_roots (fun l => l ++ [i])
    end;;
    get_node i (WorkspaceNotFound i);;
    set_nodes (alter (with_parent new_parent now) i);;
    forget_paths (i :: descendants);;
    let* segments :=
      match new_parent with
      | Some np => let* p := compute_path np in wret (p ++ [ws_name node])
      | None => wret [ws_name node]
      end in
    insert_paths (i :: descendants) descendants segments;;
    bump_version.

(** [WorkspaceIndex::update_metadata]. *)
Definition update_metadata (i : Z) (meta : WorkspaceMetadata) (now : Z) : WS unit :=
  check_initialized;;
  wtry (validate_metadata meta);;
  get_node i (WorkspaceNotFound i);;
  set_nodes (alter (with_metadata meta now) i);;
  bump_version.

(** [find_by_path], [find_by_id], [list_children], [get_ancestors], [get_descendants]. *)
Definition find_by_path (p : WorkspacePath) (x : WorkspaceIndex) : result WorkspaceIndexError Z :=
  ok_or (path_index x !! p) (PathNotFound p).
Definition find_by_id (i : Z) (x : WorkspaceIndex) : result WorkspaceIndexError WorkspaceNode :=
  ok_or (nodes x !! i) (WorkspaceNotFound i).
Definition list_children (i : Z) (x : WorkspaceIndex) : result WorkspaceIndexError (list Z) :=
  rbind (find_by_id i x) (fun n => Ok (children n)).
Definition get_ancestors (i : Z) (x : WorkspaceIndex) : option (result WorkspaceIndexError (list Z)) :=
  match find_by_id i x with
  | Err e => Some (Err e)
  | Ok n => climb_ids (nodes x) (size (nodes x)) (parent_id n) []
  end.
Definition get_descendants (i : Z) (x : WorkspaceIndex) : option (result WorkspaceIndexError (list Z)) :=
  match find_by_id i x with
  | Err e => Some (Err e)
  | Ok n => Ok <$> gather (nodes x) (size (nodes x)) (rev (children n))
  end.

(** [WorkspaceIndex::verify_invariants]: the check of a node, of a root, and both loops. *)
Definition verify_node (x : WorkspaceIndex) (i : Z) (node : WorkspaceNode)
  : option (result WorkspaceIndexError unit) :=
  let own :=
    match parent_id node with
    | None =>
        if bool_decide (i ∈ root_ids x) then Some (Ok tt)
        else Some (rbind (path_single (ws_name node)) (fun p => Err (DuplicatePath p)))
    | Some p =>
        match nodes x !! p with
        | None => Some (Err (ParentNotFound p))
        | Some parent =>
            if bool_decide (i ∈ children parent) then Some (Ok tt)
            else (fun r => rbind r (fun q => Err (DuplicatePath q))) <$> compute_path_in x i
        end
    end in
  match own with
  | Some (Ok _) =>
      Some (try_for_each (fun c => if bool_decide (is_Some (nodes x !! c)) then Ok tt
                                   else Err (WorkspaceNotFound c)) (children node))
  | r => r
  end.
Definition verify_root (x : WorkspaceIndex) (r : Z) : result WorkspaceIndexError unit :=
  match nodes x !! r with
  | None => Err (WorkspaceNotFound r)
  | Some node =>
      match parent_id node with
      | Some _ => rbind (path_single (ws_name node)) (fun p => Err (DuplicatePath p))
      | None => Ok tt
      end
  end.
Fixpoint verify_nodes (x : WorkspaceIndex) (l : list (Z * WorkspaceNode))
  : option (result WorkspaceIndexError unit) :=
  match l with
  | [] => Some (Ok tt)
  | (i, n) :: l => match verify_node x i n with Some (Ok _) => verify_nodes x l | r => r end
  end.
Definition by_ulid (a b : Z * WorkspaceNode) : Prop := a.1 <= b.1.
#[global] Instance by_ulid_dec a b : Decision (by_ulid a b).
Proof. unfold by_ulid. apply _. Defined.
Definition verify_invariants (x : WorkspaceIndex) : option (result WorkspaceIndexError unit) :=
  if negb (initialized x) then Some (Err IndexNotInitialized)
  else
    match verify_nodes x (merge_sort by_ulid (map_to_list (nodes x))) with
    | Some (Ok _) => Some (try_for_each (verify_root x) (root_ids x))
    | r => r
    end.

(** Calls, and their run. *)
Inductive WsCall : Type :=
| WInsert (ulid : Z) (parent : option Z) (name : WorkspaceName) (meta : WorkspaceMetadata) (now : Z)
| WDelete (i : Z)
| WMove (i : Z) (new_parent : option Z) (now : Z)
| WUpdate (i : Z) (meta : WorkspaceMetadata) (now : Z).
Definition ws_call (c : WsCall) : WS (option Z) :=
  match c with
  | WInsert ulid p name meta now => let* i := insert ulid p name meta now in wret (Some i)
  | WDelete i => delete_workspace i;; wret None
  | WMove i p now => move_workspace i p now;; wret None
  | WUpdate i meta now => update_metadata i meta now;; wret None
  end.
Fixpoint ws_run (cs : list WsCall) (w : WsState)
  : option (list (result WorkspaceIndexError (option Z)) * WsState) :=
  match cs with
  | [] => Some ([], w)
  | c :: cs =>
      match ws_call c w with
      | None => None
      | Some (a, w) => match ws_run cs w with Some (rs, w) => Some (a :: rs, w) | None => None end
      end
  end.
Definition ws_start : WsState := mkWs index_new None.

(** ** The forest *)

(** The identifiers and the names on the way from a root to a node. *)
Inductive trail (m : gmap Z WorkspaceNode) : list Z -> list WorkspaceName -> Z -> Prop :=
| trail_root i n : m !! i = Some n -> parent_id n = None -> trail m [i] [ws_name n] i
| trail_child i n p l q : m !! i = Some n -> parent_id n = Some p -> trail m l q p ->
    trail m (l ++ [i]) (q ++ [ws_name n]) i.

Lemma trail_inv m l q i :
  trail m l q i -> exists n, m !! i = Some n /\
    match parent_id n with
    | None => l = [i] /\ q = [ws_name n]
    | Some p => exists l' q', trail m l' q' p /\ l = l' ++ [i] /\ q = q' ++ [ws_name n]
    end.
Proof. destruct 1 as [i n Hi Hp|i n p l q Hi Hp Ht]; exists n; rewrite Hp; eauto 10. Qed.

Lemma trail_unique m l q i l' q' : trail m l q i -> trail m l' q' i -> l = l' /\ q = q'.
Proof.
  intros H. revert l' q'.
  induction H as [i n Hi Hp|i n p l q Hi Hp Ht IH]; intros l' q' (n' & Hi' & H')%trail_inv; simplify_eq;
    rewrite Hp in H'; [naive_solver|].
  destruct H' as (l2 & q2 & Ht2 & -> & ->). by destruct (IH _ _ Ht2) as [-> ->].
Qed.

Lemma trail_length m l q i : trail m l q i -> length l = length q.
Proof. induction 1; rewrite ?length_app; cbn; lia. Qed.

Lemma trail_end m l q i : trail m l q i -> i ∈ l.
Proof. destruct 1; [by left|]. apply elem_of_app. right. by left. Qed.

Lemma trail_dom m l q i x : trail m l q i -> x ∈ l -> is_Some (m !! x).
Proof.
  induction 1 as [i n Hi|i n p l q Hi Hp Ht IH].
  - intros ->%list_elem_of_singleton. eauto.
  - intros [?| ->%list_elem_of_singleton]%elem_of_app; eauto.
Qed.

(** What lies on a trail has a trail that starts it. *)
Lemma trail_prefix m l q i x :
  trail m l q i -> x ∈ l -> exists l' q' l'', trail m l' q' x /\ l = l' ++ l''.
Proof.
  induction 1 as [i n Hi Hp|i n p l q Hi Hp Ht IH].
  - intros ->%list_elem_of_singleton. exists [i], [ws_name n], []. split; [by apply trail_root|done].
  - intros [Hx| ->%list_elem_of_singleton]%elem_of_app.
    + destruct (IH Hx) as (l' & q' & l'' & H' & ->). exists l', q', (l'' ++ [i]). by rewrite <- app_assoc.
    + exists (l ++ [i]), (q ++ [ws_name n]), []. split; [by eapply trail_child|by rewrite app_nil_r].
Qed.

Lemma trail_NoDup m l q i : trail m l q i -> NoDup l.
Proof.
  induction 1 as [i n Hi Hp|i n p l q Hi Hp Ht IH]; [apply NoDup_singleton|].
  apply NoDup_app. split; [done|]. split; [|apply NoDup_singleton].
  intros x Hx ->%list_elem_of_singleton. destruct (trail_prefix _ _ _ _ _ Ht Hx) as (l' & q' & l'' & H' & ->).
  destruct (trail_unique _ _ _ _ _ _ H' (trail_child _ _ _ _ _ _ Hi Hp Ht)) as [E _].
  apply (f_equal length) in E. rewrite !length_app in E. cbn in E. lia.
Qed.

Lemma trail_size m l q i : trail m l q i -> (length l <= size m)%nat.
Proof.
  intros H. rewrite <- size_dom, <- (size_list_to_set (C := gset Z) l) by (by eapply trail_NoDup).
  apply subseteq_size. intros x Hx%elem_of_list_to_set. apply elem_of_dom. by eapply trail_dom.
Qed.

(** A trail only depends on the parents and the names of what is on it. *)
Definition same_node (n n' : WorkspaceNode) : Prop := parent_id n' = parent_id n /\ ws_name n' = ws_name n.
Lemma trail_transfer m m' l q i :
  trail m l q i -> (forall x n, x ∈ l -> m !! x = Some n -> exists n', m' !! x = Some n' /\ same_node n n') ->
  trail m' l q i.
Proof.
  induction 1 as [i n Hi Hp|i n p l q Hi Hp Ht IH]; intros Hm.
  - destruct (Hm i n) as (n' & Hi' & Hp' & Hn'); [by left|done|]. rewrite <- Hn'.
    apply trail_root; [done|by rewrite Hp'].
  - destruct (Hm i n) as (n' & Hi' & Hp' & Hn'); [apply elem_of_app; right; by left|done|]. rewrite <- Hn'.
    eapply trail_child; [done|by rewrite Hp'|]. apply IH. intros x nx Hx. apply Hm, elem_of_app. by left.
Qed.

(** The index is a forest: nodes are stored under their identifiers, parents and children agree,
    the roots are listed, and every node is below a root. *)
Record forest (m : gmap Z WorkspaceNode) (roots : list Z) : Prop := {
  f_id : forall i n, m !! i = Some n -> ws_id n = i;
  f_trail : forall i n, m !! i = Some n -> exists l q, trail m l q i;
  f_parent : forall i n p, m !! i = Some n -> parent_id n = Some p ->
    exists pn, m !! p = Some pn /\ i ∈ children pn;
  f_child : forall i n c, m !! i = Some n -> c ∈ children n ->
    exists cn, m !! c = Some cn /\ parent_id cn = Some i;
  f_children : forall i n, m !! i = Some n -> NoDup (children n);
  f_roots : forall i, i ∈ roots <-> exists n, m !! i = Some n /\ parent_id n = None;
  f_root_once : NoDup roots;
}.

Lemma forest_empty : forest ∅ [].
Proof.
  split; try (intros *; rewrite lookup_empty; done); [|constructor].
  intros i. split; [by intros ?%elem_of_nil|]. intros (n & Hn & _). by rewrite lookup_empty in Hn.
Qed.

(** *** The loops end *)

Lemma climb_spec m l q i fuel acc :
  trail m l q i -> (length l <= fuel)%nat -> climb m fuel (Some i) acc = Some (Ok (q ++ acc)).
Proof.
  intros H. revert fuel acc.
  induction H as [i n Hi Hp|i n p l q Hi Hp Ht IH]; intros [|fuel] acc Hf;
    rewrite ?length_app in Hf; cbn in Hf; try lia; cbn [climb]; rewrite Hi, Hp.
  - by destruct fuel.
  - rewrite IH by lia. by rewrite <- app_assoc.
Qed.

Lemma climb_ids_spec m l q i fuel acc :
  trail m l q i -> (length l <= fuel)%nat -> climb_ids m fuel (Some i) acc = Some (Ok (l ++ rev acc)).
Proof.
  intros H. revert fuel acc.
  induction H as [i n Hi Hp|i n p l q Hi Hp Ht IH]; intros [|fuel] acc Hf;
    rewrite ?length_app in Hf; cbn in Hf; try lia; cbn [climb_ids]; rewrite Hi, Hp.
  - destruct fuel; cbn; by rewrite rev_app_distr.
  - rewrite IH by lia. by rewrite rev_app_distr, <- app_assoc.
Qed.

Lemma compute_path_spec x l q i : trail (nodes x) l q i -> compute_path_in x i = Some (path_new q).
Proof.
  intros H. pose proof (trail_size _ _ _ _ H) as Hs. unfold compute_path_in.
  destruct (trail_inv _ _ _ _ H) as (n & -> & Hp). destruct (parent_id n) as [p|].
  - destruct Hp as (l' & q' & Ht & -> & ->). rewrite length_app in Hs. cbn in Hs.
    rewrite (climb_spec _ _ _ _ _ _ Ht) by lia. done.
  - destruct Hp as [-> ->]. by destruct (size (nodes x)).
Qed.

Lemma is_below_spec m l q i fuel a n :
  trail m l q i -> (length l <= fuel)%nat -> m !! i = Some n ->
  is_below m fuel (Some n) a = Some (bool_decide (a <> i /\ a ∈ l)).
Proof.
  intros H. revert fuel n.
  induction H as [i n Hi Hp|i n p l q Hi Hp Ht IH]; intros [|fuel] n' Hf Hi'; simplify_eq;
    rewrite ?length_app in Hf; cbn in Hf; try lia; cbn [is_below]; rewrite Hp.
  - rewrite decide_False by done. destruct fuel; cbn; f_equal; symmetry; apply bool_decide_eq_false;
      rewrite list_elem_of_singleton; naive_solver.
  - assert (i ∉ l) as Hil.
    { pose proof (trail_NoDup _ _ _ _ (trail_child _ _ _ _ _ _ Hi Hp Ht)) as (_ & Hd & _)%NoDup_app.
      intros Hl. by apply (Hd i Hl), list_elem_of_singleton. }
    pose proof (trail_end _ _ _ _ Ht) as Hpl. destruct (decide (p = a)) as [->|Hpa].
    + rewrite decide_True by done. f_equal. symmetry. apply bool_decide_eq_true. split; [naive_solver|].
      apply elem_of_app. by left.
    + rewrite decide_False by congruence. cbn.
      destruct (trail_inv _ _ _ _ Ht) as (pn & Hpn & _). rewrite Hpn, (IH fuel pn) by (done || lia).
      f_equal. apply bool_decide_ext. rewrite elem_of_app, list_elem_of_singleton. naive_solver.
Qed.

(** *** Subtrees *)

(** [x] is [i] or below it. *)
Definition below (m : gmap Z WorkspaceNode) (i x : Z) : Prop := exists l q, trail m l q x /\ i ∈ l.

(** What has been popped, with the root of the subtree, and what is still to be. *)
Record gathering (m : gmap Z WorkspaceNode) (i : Z) (acc stack : list Z) : Prop := {
  g_once : NoDup (acc ++ stack);
  g_start : i ∈ acc;
  g_below : forall x, x ∈ acc ++ stack -> below m i x;
  g_parent : forall x n p, x ∈ acc ++ stack -> x <> i -> m !! x = Some n -> parent_id n = Some p -> p ∈ acc;
  g_closed : forall x n c, x ∈ acc -> m !! x = Some n -> c ∈ children n -> c ∈ acc ++ stack;
}.

Lemma elem_of_rev {A} (x : A) l : x ∈ rev l <-> x ∈ l.
Proof. by rewrite !list_elem_of_In, <- in_rev. Qed.

Lemma below_child m roots i c n cn :
  forest m roots -> below m i c -> m !! c = Some cn -> n ∈ children cn -> below m i n.
Proof.
  intros Hf (l & q & Ht & Hi) Hc Hn. destruct (f_child _ _ Hf _ _ _ Hc Hn) as (nn & Hnn & Hp).
  exists (l ++ [n]), (q ++ [ws_name nn]). split; [by eapply trail_child|]. apply elem_of_app. by left.
Qed.

(** No node is the child of something below it. *)
Lemma below_not_parent m i x n : below m i x -> m !! i = Some n -> parent_id n <> Some x.
Proof.
  intros (l & q & Ht & Hi) Hn Hp.
  pose proof (trail_NoDup _ _ _ _ (trail_child _ _ _ _ _ _ Hn Hp Ht)) as (_ & Hd & _)%NoDup_app.
  by apply (Hd i Hi), list_elem_of_singleton.
Qed.

Lemma gathering_step m roots i acc c stack n :
  forest m roots -> gathering m i acc (c :: stack) -> m !! c = Some n ->
  gathering m i (acc ++ [c]) (rev (children n) ++ stack).
Proof.
  intros Hf [Hnd Hs Hb Hp Hc] Hn.
  assert (c ∈ acc ++ c :: stack) as Hin by (apply elem_of_app; right; by left).
  assert (c ∉ acc) as Hca.
  { intros Ha. apply NoDup_app in Hnd as (_ & Hd & _). apply (Hd c Ha). by left. }
  assert (forall d, d ∈ children n -> d ∉ acc ++ c :: stack) as Hnew.
  { intros d Hd Hin'. destruct (f_child _ _ Hf _ _ _ Hn Hd) as (dn & Hdn & Hdp).
    destruct (decide (d = i)) as [->|Hdi]; [by apply (below_not_parent _ _ _ _ (Hb c Hin) Hdn)|].
    by apply Hca, (Hp d dn c). }
  assert (forall x, x ∈ (acc ++ [c]) ++ rev (children n) ++ stack <-> x ∈ acc ++ c :: stack \/ x ∈ children n) as Hel.
  { intros x. rewrite <- app_assoc. cbn. rewrite !elem_of_app, !elem_of_cons, elem_of_app, elem_of_rev.
    naive_solver. }
  split.
  - assert ((acc ++ [c]) ++ rev (children n) ++ stack ≡ₚ children n ++ (acc ++ c :: stack)) as ->.
    { rewrite <- (Permutation_rev (children n)). solve_Permutation. }
    apply NoDup_app. split; [by eapply f_children|done].
  - apply elem_of_app. by left.
  - intros x [Hx|Hx]%Hel; [by apply Hb|]. by eapply below_child; [|apply Hb|..].
  - intros x nx p [Hx|Hx]%Hel Hxi Hnx Hpx; apply elem_of_app.
    + left. by eapply Hp.
    + destruct (f_child _ _ Hf _ _ _ Hn Hx) as (nx' & ? & ?). simplify_eq. right. by left.
  - intros x nx d Hx Hnx Hd. apply Hel. apply elem_of_app in Hx as [Hx|Hx%list_elem_of_singleton].
    + left. by eapply Hc.
    + subst x. simplify_eq. by right.
Qed.

Lemma gather_spec m roots i fuel : forall acc stack,
  forest m roots -> gathering m i acc stack -> (size m < length acc + S fuel)%nat ->
  exists l, gather m fuel stack = Some l /\ gathering m i (acc ++ l) [].
Proof.
  induction fuel as [|fuel IH]; intros acc [|c stack] Hf Hg Hsz; cbn [gather].
  - exists []. by rewrite app_nil_r.
  - exfalso. destruct Hg as [Hnd _ Hb _ _].
    assert (length (acc ++ c :: stack) <= size m)%nat as Hle.
    { rewrite <- size_dom, <- (size_list_to_set (C := gset Z) (acc ++ c :: stack)) by done.
      apply subseteq_size. intros x Hx%elem_of_list_to_set. apply elem_of_dom.
      destruct (Hb x Hx) as (l & q & Ht & _). eapply trail_dom; [done|by eapply trail_end]. }
    rewrite length_app in Hle. cbn in Hle. lia.
  - exists []. by rewrite app_nil_r.
  - destruct (g_below _ _ _ _ Hg c) as (lc & qc & Htc & _); [apply elem_of_app; right; by left|].
    destruct (trail_inv _ _ _ _ Htc) as (n & Hn & _). rewrite Hn.
    destruct (IH _ _ Hf (gathering_step _ _ _ _ _ _ _ Hf Hg Hn)) as (l & E & Hg').
    { rewrite length_app. cbn. lia. }
    rewrite E. exists (c :: l). split; [done|]. by rewrite <- app_assoc in Hg'.
Qed.

(** The descendants that are collected, with the node itself, are the subtree. *)
Lemma descendants_spec m roots i n :
  forest m roots -> m !! i = Some n ->
  exists l, gather m (size m) (rev (children n)) = Some l /\ NoDup (i :: l) /\
    forall x, x ∈ i :: l <-> below m i x.
Proof.
  intros Hf Hn. destruct (f_trail _ _ Hf _ _ Hn) as (li & qi & Hti).
  assert (below m i i) as Hii by (exists li, qi; split; [done|by eapply trail_end]).
  assert (gathering m i [i] (rev (children n))) as Hg.
  { split.
    - change ([i] ++ rev (children n)) with (i :: rev (children n)). apply NoDup_cons. split.
      + rewrite elem_of_rev. intros Hc.
        destruct (f_child _ _ Hf _ _ _ Hn Hc) as (? & ? & ?). by eapply below_not_parent.
      + rewrite <- (Permutation_rev (children n)). by eapply f_children.
    - by left.
    - intros x Hx. cbn in Hx. apply elem_of_cons in Hx as [->|Hx]; [done|].
      rewrite elem_of_rev in Hx. by eapply below_child.
    - intros x nx p Hx Hxi Hnx Hpx. cbn in Hx. apply elem_of_cons in Hx as [->|Hx]; [done|].
      rewrite elem_of_rev in Hx. destruct (f_child _ _ Hf _ _ _ Hn Hx) as (? & ? & ?).
      simplify_eq. by left.
    - intros x nx c ->%list_elem_of_singleton Hnx Hc. simplify_eq. cbn. right.
      by rewrite elem_of_rev. }
  destruct (gather_spec m roots i (size m) [i] _ Hf Hg) as (l & E & Hg'); [cbn; lia|].
  exists l. split; [done|]. destruct Hg' as [Hnd _ Hb _ Hc]. cbn in *. rewrite app_nil_r in *.
  split; [done|]. intros x. split; [apply Hb|]. intros (lx & qx & Ht & Hix).
  induction Ht as [x nx Hx Hp|x nx p lx qx Hx Hp Ht IH].
  - apply list_elem_of_singleton in Hix as ->. by left.
  - apply elem_of_app in Hix as [Hix|Hix%list_elem_of_singleton]; [|subst; by left].
    destruct (f_parent _ _ Hf _ _ _ Hx Hp) as (pn & Hpn & Hxp). apply (Hc p pn x); auto.
Qed.

(** *** Changes that keep the forest *)

Definition if_some (o : option Z) (x i : Z) : list Z := if decide (o = Some x) then [i] else [].
Definition if_none (o : option Z) (i : Z) : list Z := if decide (o = None) then [i] else [].

(** [i] hangs below [np] afterwards, or is a root. *)
Record moved (m m' : gmap Z WorkspaceNode) (i : Z) (np : option Z) : Prop := {
  mv_dom : forall x, m' !! x = None <-> m !! x = None;
  mv_node : forall x n n', m !! x = Some n -> m' !! x = Some n' ->
    ws_id n' = ws_id n /\ ws_name n' = ws_name n /\
    parent_id n' = (if decide (x = i) then np else parent_id n) /\
    children n' = base.filter (fun c => c <> i) (children n) ++ if_some np x i;
}.

Lemma moved_some m m' i np x n : moved m m' i np -> m !! x = Some n -> exists n', m' !! x = Some n'.
Proof.
  intros H Hx. destruct (m' !! x) as [n'|] eqn:E; [eauto|]. apply (mv_dom _ _ _ _ H) in E. congruence.
Qed.
Lemma moved_back m m' i np x n' : moved m m' i np -> m' !! x = Some n' -> exists n, m !! x = Some n.
Proof.
  intros H Hx. destruct (m !! x) as [n|] eqn:E; [eauto|]. apply (mv_dom _ _ _ _ H) in E. congruence.
Qed.

Lemma trail_unmoved m m' i np l q x : moved m m' i np -> i ∉ l -> trail m l q x -> trail m' l q x.
Proof.
  intros Hm Hi Ht. eapply trail_transfer; [done|]. intros y n Hy Hn.
  destruct (moved_some _ _ _ _ _ _ Hm Hn) as (n' & Hn').
  destruct (mv_node _ _ _ _ Hm _ _ _ Hn Hn') as (_ & Hna & Hp & _).
  exists n'. split; [done|]. split; [|done]. rewrite decide_False in Hp; [done|]. by intros ->.
Qed.

Lemma trail_moved m m' i np roots l q x :
  forest m roots -> moved m m' i np ->
  (forall p, np = Some p -> is_Some (m !! p) /\ ~ below m i p) ->
  trail m l q x -> exists l' q', trail m' l' q' x.
Proof.
  intros Hf Hm Hnp Ht. destruct (decide (i ∈ l)) as [Hi|Hi]; [|eauto using trail_unmoved].
  induction Ht as [x n Hx Hp|x n p l q Hx Hp Ht IH]; destruct (moved_some _ _ _ _ _ _ Hm Hx) as (n' & Hn');
    destruct (mv_node _ _ _ _ Hm _ _ _ Hx Hn') as (_ & _ & Hp' & _).
  all: assert (x = i -> exists l' q', trail m' l' q' x) as Hi'.
  1,3: intros ->; rewrite decide_True in Hp' by done; destruct np as [p'|];
    [|eexists _, _; by apply trail_root];
    destruct (Hnp p' eq_refl) as [[pn Hpn] Hb]; destruct (f_trail _ _ Hf _ _ Hpn) as (lp & qp & Htp);
    eexists _, _; eapply trail_child; [done|done|]; eapply trail_unmoved; [done| |done];
    intros Hil; apply Hb; by exists lp, qp.
  - apply Hi'. by apply list_elem_of_singleton in Hi.
  - destruct (decide (x = i)) as [->|Hxi]; [by apply Hi'|].
    apply elem_of_app in Hi as [Hi|Hi%list_elem_of_singleton]; [|congruence].
    destruct (IH Hi) as (l' & q' & Ht'). 
    eexists _, _. eapply trail_child; [done|by rewrite Hp'|done].
Qed.

Lemma moved_roots m m' roots i np x :
  forest m roots -> moved m m' i np -> is_Some (m !! i) ->
  x ∈ base.filter (fun r => r <> i) roots ++ if_none np i <->
  exists n, m' !! x = Some n /\ parent_id n = None.
Proof.
  intros Hf Hm [ni Hni]. rewrite elem_of_app, list_elem_of_filter, (f_roots _ _ Hf). unfold if_none. split.
  + intros [[Hxi (n & Hx & Hp)]|Hx].
    * destruct (moved_some _ _ _ _ _ _ Hm Hx) as (n' & Hn'). exists n'. split; [done|].
      destruct (mv_node _ _ _ _ Hm _ _ _ Hx Hn') as (_ & _ & -> & _). by rewrite decide_False.
    * case_decide as Hn; [|by apply elem_of_nil in Hx]. apply list_elem_of_singleton in Hx as ->.
      destruct (moved_some _ _ _ _ _ _ Hm Hni) as (n' & Hn'). exists n'. split; [done|].
      destruct (mv_node _ _ _ _ Hm _ _ _ Hni Hn') as (_ & _ & -> & _). by rewrite decide_True.
  + intros (n' & Hx' & Hp'). destruct (moved_back _ _ _ _ _ _ Hm Hx') as (n & Hx).
    destruct (mv_node _ _ _ _ Hm _ _ _ Hx Hx') as (_ & _ & Hpar & _). rewrite Hp' in Hpar.
    destruct (decide (x = i)) as [->|Hxi]; [right|left; split; [done|eauto]].
    rewrite decide_True by done. by left.
Qed.

Lemma forest_moved m m' roots i np :
  forest m roots -> moved m m' i np -> is_Some (m !! i) ->
  (forall p, np = Some p -> is_Some (m !! p) /\ ~ below m i p) ->
  forest m' (base.filter (fun r => r <> i) roots ++ if_none np i).
Proof.
  intros Hf Hm Hi Hnp. pose proof Hi as [ni Hni]. split.
  - intros x n' Hx'. destruct (moved_back _ _ _ _ _ _ Hm Hx') as (n & Hx).
    destruct (mv_node _ _ _ _ Hm _ _ _ Hx Hx') as (-> & _). by apply (f_id _ _ Hf).
  - intros x n' Hx'. destruct (moved_back _ _ _ _ _ _ Hm Hx') as (n & Hx).
    destruct (f_trail _ _ Hf _ _ Hx) as (l & q & Ht). by eapply trail_moved.
  - intros x n' p Hx' Hp'. destruct (moved_back _ _ _ _ _ _ Hm Hx') as (n & Hx).
    destruct (mv_node _ _ _ _ Hm _ _ _ Hx Hx') as (_ & _ & Hpar & _). rewrite Hp' in Hpar.
    assert (exists pn, m !! p = Some pn /\ (x = i /\ np = Some p \/ x <> i /\ x ∈ children pn))
      as (pn & Hpn & Hc).
    { case_decide as Hxi.
      - destruct (Hnp p) as [[pn Hpn] _]; [done|]. exists pn. auto.
      - destruct (f_parent _ _ Hf _ _ _ Hx (eq_sym Hpar)) as (pn & ? & ?). exists pn. auto. }
    destruct (moved_some _ _ _ _ _ _ Hm Hpn) as (pn' & Hpn'). exists pn'. split; [done|].
    destruct (mv_node _ _ _ _ Hm _ _ _ Hpn Hpn') as (_ & _ & _ & ->). apply elem_of_app.
    destruct Hc as [[-> ->]|[? ?]]; [right; unfold if_some; rewrite decide_True by done; by left|].
    left. by apply list_elem_of_filter.
  - intros x n' c Hx' Hc'. destruct (moved_back _ _ _ _ _ _ Hm Hx') as (n & Hx).
    destruct (mv_node _ _ _ _ Hm _ _ _ Hx Hx') as (_ & _ & _ & Hch). rewrite Hch in Hc'.
    assert (exists cn, m !! c = Some cn /\ (if decide (c = i) then np else parent_id cn) = Some x)
      as (cn & Hcn & Hpar).
    { apply elem_of_app in Hc' as [[Hci Hc]%list_elem_of_filter|Hc].
      - destruct (f_child _ _ Hf _ _ _ Hx Hc) as (cn & ? & ?). exists cn. by rewrite decide_False.
      - unfold if_some in Hc. case_decide; [|by apply elem_of_nil in Hc].
        apply list_elem_of_singleton in Hc as ->. exists ni. by rewrite decide_True. }
    destruct (moved_some _ _ _ _ _ _ Hm Hcn) as (cn' & Hcn'). exists cn'. split; [done|].
    destruct (mv_node _ _ _ _ Hm _ _ _ Hcn Hcn') as (_ & _ & -> & _). done.
  - intros x n' Hx'. destruct (moved_back _ _ _ _ _ _ Hm Hx') as (n & Hx).
    destruct (mv_node _ _ _ _ Hm _ _ _ Hx Hx') as (_ & _ & _ & ->). apply NoDup_app.
    split; [apply NoDup_filter; by eapply f_children|]. unfold if_some.
    split; [|case_decide; [apply NoDup_singleton|constructor]].
    intros c [Hc _]%list_elem_of_filter. case_decide; set_solver.
  - intros x. by apply (moved_roots _ _ _ _ _ _ Hf Hm).
  - apply NoDup_app. split; [apply NoDup_filter; by eapply f_root_once|]. unfold if_none.
    split; [|case_decide; [apply NoDup_singleton|constructor]].
    intros c [Hc _]%list_elem_of_filter. case_decide; set_solver.
Qed.

(** One node more. *)
Record grown (m m' : gmap Z WorkspaceNode) (i : Z) (ni : WorkspaceNode) : Prop := {
  gr_new : m !! i = None;
  gr_node : m' !! i = Some ni;
  gr_old : forall x n, m !! x = Some n -> exists n', m' !! x = Some n' /\ same_node n n';
  gr_back : forall x n', x <> i -> m' !! x = Some n' -> exists n, m !! x = Some n /\ same_node n n';
}.

Lemma trail_grown m roots m' i ni l q x :
  forest m roots -> grown m m' i ni -> (forall p, parent_id ni = Some p -> is_Some (m !! p)) ->
  trail m' l q x <-> trail m l q x \/ x = i /\
    match parent_id ni with
    | None => l = [i] /\ q = [ws_name ni]
    | Some p => exists lp qp, trail m lp qp p /\ l = lp ++ [i] /\ q = qp ++ [ws_name ni]
    end.
Proof.
  intros Hf [Hi Hni Hold Hback] Hpar.
  assert (forall l q x, trail m l q x -> trail m' l q x) as Htr.
  { intros l' q' y Ht. eapply trail_transfer; [done|]. intros z n _ Hz. by apply Hold. }
  split.
  - induction 1 as [x nx Hx Hp|x nx p l q Hx Hp Ht IH]; destruct (decide (x = i)) as [->|Hxi]; simplify_eq.
    + right. by rewrite Hp.
    + destruct (Hback _ _ Hxi Hx) as (n & Hn & Hp' & ->). left. apply trail_root; [done|congruence].
    + right. split; [done|]. rewrite Hp. destruct (Hpar p Hp) as [pn Hpn].
      destruct IH as [IH|[-> _]]; [eauto|congruence].
    + destruct (Hback _ _ Hxi Hx) as (n & Hn & Hp' & ->). rewrite Hp in Hp'. left.
      destruct (f_parent _ _ Hf _ _ _ Hn (eq_sym Hp')) as (pn & Hpn & _).
      destruct IH as [IH|[-> _]]; [|congruence]. by eapply trail_child.
  - intros [Ht|[-> H]]; [by apply Htr|]. destruct (parent_id ni) as [p|] eqn:Hp.
    + destruct H as (lp & qp & Ht & -> & ->). eapply trail_child; eauto.
    + destruct H as [-> ->]. by apply trail_root.
Qed.

(** A new root. *)
Lemma grown_add m i n : m !! i = None -> grown m (<[i := n]> m) i n.
Proof.
  intros Hi. split; [done|apply lookup_insert_eq|..].
  - intros x nx Hx. exists nx. split; [|done]. rewrite lookup_insert_ne; [done|]. intros ->. congruence.
  - intros x nx Hxi Hx. rewrite lookup_insert_ne in Hx by done. by exists nx.
Qed.
Lemma trail_add m roots i n l q x :
  forest m roots -> m !! i = None -> parent_id n = None ->
  trail (<[i := n]> m) l q x <-> trail m l q x \/ x = i /\ l = [i] /\ q = [ws_name n].
Proof.
  intros Hf Hi Hn. rewrite (trail_grown _ _ _ _ _ _ _ _ Hf (grown_add _ _ _ Hi)), Hn; [done|]. congruence.
Qed.

Lemma forest_add m roots i n :
  forest m roots -> m !! i = None -> ws_id n = i -> parent_id n = None -> children n = [] ->
  forest (<[i := n]> m) (roots ++ [i]).
Proof.
  intros Hf Hi Hid Hp Hc. split.
  - intros x nx [[<- <-]|[_ Hx]]%lookup_insert_Some; [done|by eapply f_id].
  - intros x nx [[<- <-]|[_ Hx]]%lookup_insert_Some.
    + eexists _, _. apply (trail_add _ _ _ _ _ _ _ Hf Hi Hp). by right.
    + destruct (f_trail _ _ Hf _ _ Hx) as (l & q & Ht). exists l, q.
      apply (trail_add _ _ _ _ _ _ _ Hf Hi Hp). by left.
  - intros x nx p [[<- <-]|[_ Hx]]%lookup_insert_Some Hpx; [congruence|].
    destruct (f_parent _ _ Hf _ _ _ Hx Hpx) as (pn & Hpn & ?). exists pn. split; [|done].
    rewrite lookup_insert_ne; [done|]. intros <-. congruence.
  - intros x nx c [[<- <-]|[_ Hx]]%lookup_insert_Some Hcx; [rewrite Hc in Hcx; by apply elem_of_nil in Hcx|].
    destruct (f_child _ _ Hf _ _ _ Hx Hcx) as (cn & Hcn & ?). exists cn. split; [|done].
    rewrite lookup_insert_ne; [done|]. intros <-. congruence.
  - intros x nx [[<- <-]|[_ Hx]]%lookup_insert_Some; [rewrite Hc; constructor|by eapply f_children].
  - intros x. rewrite elem_of_app, list_elem_of_singleton, (f_roots _ _ Hf). split.
    + intros [(nx & Hx & Hpx)| ->]; [|exists n; by rewrite lookup_insert_eq]. exists nx. split; [|done].
      rewrite lookup_insert_ne; [done|]. intros <-. congruence.
    + intros (nx & [[<- <-]|[_ Hx]]%lookup_insert_Some & Hpx); eauto.
  - apply NoDup_app. split; [by eapply f_root_once|]. split; [|apply NoDup_singleton].
    intros x (nx & Hx & _)%(f_roots _ _ Hf) ->%list_elem_of_singleton. congruence.
Qed.

(** The subtree of [i] is gone afterwards, and nothing lists [i]. *)
Record pruned (m m' : gmap Z WorkspaceNode) (i : Z) : Prop := {
  pr_gone : forall x, below m i x -> m' !! x = None;
  pr_back : forall x n', m' !! x = Some n' -> exists n, m !! x = Some n;
  pr_node : forall x n, ~ below m i x -> m !! x = Some n -> exists n', m' !! x = Some n' /\
    ws_id n' = ws_id n /\ ws_name n' = ws_name n /\ parent_id n' = parent_id n /\
    children n' = base.filter (fun c => c <> i) (children n);
}.

Lemma pruned_inv m m' i x n' :
  pruned m m' i -> m' !! x = Some n' -> exists n, m !! x = Some n /\ ~ below m i x /\
    ws_id n' = ws_id n /\ ws_name n' = ws_name n /\ parent_id n' = parent_id n /\
    children n' = base.filter (fun c => c <> i) (children n).
Proof.
  intros Hpr Hx. destruct (pr_back _ _ _ Hpr _ _ Hx) as (n & Hn). exists n. split; [done|].
  assert (~ below m i x) as Hb by (intros Hb%(pr_gone _ _ _ Hpr); congruence). split; [done|].
  destruct (pr_node _ _ _ Hpr _ _ Hb Hn) as (n2 & ? & ?). by simplify_eq.
Qed.

Lemma below_trans m l q i x : trail m l q x -> ~ below m i x -> forall y, y ∈ l -> ~ below m i y.
Proof.
  intros Ht Hx y Hy (ly & qy & Hty & Hi). destruct (trail_prefix _ _ _ _ _ Ht Hy) as (l' & q' & l'' & Ht' & ->).
  destruct (trail_unique _ _ _ _ _ _ Ht' Hty) as [-> _]. apply Hx. eexists _, _. split; [exact Ht|].
  apply elem_of_app. by left.
Qed.

Lemma trail_pruned m m' i l q x : pruned m m' i -> trail m' l q x <-> trail m l q x /\ ~ below m i x.
Proof.
  intros Hpr. split.
  - intros Ht. assert (trail m l q x) as Ht'.
    { eapply trail_transfer; [done|]. intros y n' _ Hy.
      destruct (pruned_inv _ _ _ _ _ Hpr Hy) as (n & Hn & _ & _ & ? & ? & _). by exists n. }
    split; [done|]. destruct (trail_inv _ _ _ _ Ht) as (n' & Hn' & _). intros Hb%(pr_gone _ _ _ Hpr). congruence.
  - intros [Ht Hb]. eapply trail_transfer; [done|]. intros y n Hy Hn.
    destruct (pr_node _ _ _ Hpr y n) as (n' & Hn' & _ & ? & ? & _); [by eapply below_trans|done|]. by exists n'.
Qed.

Lemma forest_pruned m m' roots i :
  forest m roots -> is_Some (m !! i) -> pruned m m' i -> forest m' (base.filter (fun r => r <> i) roots).
Proof.
  intros Hf [ni Hni] Hpr. split.
  - intros x n' Hx. destruct (pruned_inv _ _ _ _ _ Hpr Hx) as (n & Hn & _ & -> & _). by eapply f_id.
  - intros x n' Hx. destruct (pruned_inv _ _ _ _ _ Hpr Hx) as (n & Hn & Hb & _).
    destruct (f_trail _ _ Hf _ _ Hn) as (l & q & Ht). exists l, q. by apply (trail_pruned _ _ _ _ _ _ Hpr).
  - intros x n' p Hx Hp. destruct (pruned_inv _ _ _ _ _ Hpr Hx) as (n & Hn & Hb & _ & _ & Hp' & _).
    rewrite Hp in Hp'. destruct (f_parent _ _ Hf _ _ _ Hn (eq_sym Hp')) as (pn & Hpn & Hc).
    assert (~ below m i p) as Hbp.
    { intros Hbp. apply Hb. by eapply below_child. }
    destruct (pr_node _ _ _ Hpr _ _ Hbp Hpn) as (pn' & ? & _ & _ & _ & Hch). exists pn'. split; [done|].
    rewrite Hch. apply list_elem_of_filter. split; [|done]. intros ->. apply Hb.
    destruct (f_trail _ _ Hf _ _ Hn) as (l & q & Ht). exists l, q. split; [done|by eapply trail_end].
  - intros x n' c Hx Hc. destruct (pruned_inv _ _ _ _ _ Hpr Hx) as (n & Hn & Hb & _ & _ & _ & Hch).
    rewrite Hch in Hc. apply list_elem_of_filter in Hc as [Hci Hc].
    destruct (f_child _ _ Hf _ _ _ Hn Hc) as (cn & Hcn & Hp).
    assert (~ below m i c) as Hbc.
    { intros (l & q & Ht & Hi). destruct (trail_inv _ _ _ _ Ht) as (cn2 & ? & Ht'). simplify_eq. rewrite Hp in Ht'.
      destruct Ht' as (l' & q' & Ht' & -> & ->). apply elem_of_app in Hi as [Hi|Hi%list_elem_of_singleton]; [|done].
      apply Hb. by exists l', q'. }
    destruct (pr_node _ _ _ Hpr _ _ Hbc Hcn) as (cn' & ? & _ & _ & ? & _). exists cn'. split; [done|congruence].
  - intros x n' Hx. destruct (pruned_inv _ _ _ _ _ Hpr Hx) as (n & Hn & _ & _ & _ & _ & ->).
    apply NoDup_filter. by eapply f_children.
  - intros x. rewrite list_elem_of_filter, (f_roots _ _ Hf). split.
    + intros [Hxi (n & Hn & Hp)]. assert (~ below m i x) as Hb.
      { intros (l & q & Ht & Hi). destruct (trail_inv _ _ _ _ Ht) as (n2 & ? & Ht'). simplify_eq. rewrite Hp in Ht'.
        destruct Ht' as [-> _]. by apply list_elem_of_singleton in Hi. }
      destruct (pr_node _ _ _ Hpr _ _ Hb Hn) as (n' & ? & _ & _ & ? & _). exists n'. split; [done|congruence].
    + intros (n' & Hn' & Hp). destruct (pruned_inv _ _ _ _ _ Hpr Hn') as (n & Hn & Hb & _ & _ & Hp' & _).
      split; [|exists n; split; [done|congruence]]. intros ->. apply Hb.
      destruct (f_trail _ _ Hf _ _ Hn) as (l & q & Ht). exists l, q. split; [done|by eapply trail_end].
  - apply NoDup_filter. by eapply f_root_once.
Qed.

(** ** The operations *)

(** A state of the index. *)
Definition at_ (m : gmap Z WorkspaceNode) (roots : list Z) (P : gmap WorkspacePath Z) (v : Z)
  (last : option Z) : WsState := mkWs (mkIndex m roots P v true) last.

Lemma wbind_ok {A B} (c : WS A) (k : A -> WS B) w a w' :
  c w = Some (Ok a, w') -> wbind c k w = k a w'.
Proof. unfold wbind. by intros ->. Qed.
Lemma wbind_err {A B} (c : WS A) (k : A -> WS B) w e w' :
  c w = Some (Err e, w') -> wbind c k w = Some (Err e, w').
Proof. unfold wbind. by intros ->. Qed.
Lemma check_ok m roots P v last : check_initialized (at_ m roots P v last) = Some (Ok tt, at_ m roots P v last).
Proof. done. Qed.
Lemma get_node_ok m roots P v last i n e :
  m !! i = Some n -> get_node i e (at_ m roots P v last) = Some (Ok n, at_ m roots P v last).
Proof. intros Hi. unfold get_node, wbind, wread, wtry. cbn. by rewrite Hi. Qed.
Lemma get_node_err m roots P v last i e :
  m !! i = None -> get_node i e (at_ m roots P v last) = Some (Err e, at_ m roots P v last).
Proof. intros Hi. unfold get_node, wbind, wread, wtry. cbn. by rewrite Hi. Qed.
Ltac wstep H := rewrite (wbind_ok _ _ _ _ _ H).
Ltac wfails H := rewrite (wbind_err _ _ _ _ _ H).

(** What is no longer found once the paths of [ids] are removed. *)
Definition path_among (m : gmap Z WorkspaceNode) (ids : list Z) (q : WorkspacePath) : Prop :=
  exists i l, i ∈ ids /\ trail m l q i /\ Z.of_nat (length q) <= MAX_DEPTH.

Lemma path_new_ok q p : path_new q = Ok p <-> p = q /\ Z.of_nat (length q) <= MAX_DEPTH.
Proof.
  unfold path_new. destruct (MAX_DEPTH <? Z.of_nat (length q)) eqn:E.
  - apply Z.ltb_lt in E. split; [done|lia].
  - apply Z.ltb_ge in E. naive_solver.
Qed.

Lemma forget_paths_spec m roots v last ids : forall P,
  (forall i, i ∈ ids -> exists l q, trail m l q i) ->
  exists P', forget_paths ids (at_ m roots P v last) = Some (Ok tt, at_ m roots P' v last) /\
    (forall q, path_among m ids q -> P' !! q = None) /\
    (forall q, ~ path_among m ids q -> P' !! q = P !! q).
Proof.
  induction ids as [|i ids IH]; intros P Hids.
  { exists P. split; [done|]. split; [|done]. intros q (i & l & Hi & _). by apply elem_of_nil in Hi. }
  destruct (Hids i) as (l & q & Ht); [by left|].
  set (P1 := match path_new q with Ok p => delete p P | Err _ => P end).
  destruct (IH P1) as (P' & E & Hgone & Hkept); [intros j Hj; apply Hids; by right|].
  exists P'. split.
  { cbn [forget_paths]. unfold wbind at 1, wloop. cbn [ix at_].
    rewrite (compute_path_spec _ _ _ _ (Ht : trail (nodes (mkIndex m roots P v true)) l q i)). cbn.
    unfold P1 in E. by destruct (path_new q). }
  assert (forall q', path_among m (i :: ids) q' <-> path_among m ids q' \/ path_new q = Ok q') as Hamong.
  { intros q'. rewrite path_new_ok. unfold path_among. split.
    - intros (j & lj & [->|Hj]%elem_of_cons & Htj & Hlen); [|left; eauto 10].
      destruct (trail_unique _ _ _ _ _ _ Ht Htj) as [-> ->]. auto.
    - intros [(j & lj & Hj & Htj & Hlen)|[-> Hlen]]; [exists j, lj; split; [by right|done]|].
      exists i, l. split; [by left|done]. }
  split; intros q'; rewrite Hamong; intros Hq'.
  - destruct Hq' as [Hq'|Hn]; [by apply Hgone|]. destruct (P' !! q') eqn:E'; [|done]. exfalso.
    assert (~ path_among m ids q') as Hna by (intros Ha; apply Hgone in Ha; congruence).
    rewrite (Hkept _ Hna) in E'. unfold P1 in E'. by rewrite Hn, lookup_delete_eq in E'.
  - rewrite Hkept by tauto. unfold P1. destruct (path_new q) as [p|] eqn:En; [|done].
    apply lookup_delete_ne. intros <-. tauto.
Qed.

Definition detached (m : gmap Z WorkspaceNode) (i : Z) (p : option Z) : gmap Z WorkspaceNode :=
  match p with
  | Some pid => alter (with_children (base.filter (fun c => c <> i))) pid m
  | None => m
  end.
Definition attached (m : gmap Z WorkspaceNode) (i : Z) (p : option Z) : gmap Z WorkspaceNode :=
  match p with
  | Some pid => alter (with_children (fun l => l ++ [i])) pid m
  | None => m
  end.

Lemma detach_children_spec m roots P v last i n :
  forest m roots -> m !! i = Some n ->
  detach i (parent_id n) (at_ m roots P v last)
  = Some (Ok tt, at_ (detached m i (parent_id n)) (base.filter (fun r => r <> i) roots) P v last).
Proof.
  intros Hf Hi. destruct (parent_id n) as [p|] eqn:Hp; [|done].
  rewrite (filter_all (fun r => r <> i) roots); [done|]. apply Forall_forall. intros r Hr ->. apply (f_roots _ _ Hf) in Hr as (n' & ? & ?). congruence.
Qed.

Lemma detached_lookup m roots i ni x n :
  forest m roots -> m !! i = Some ni -> m !! x = Some n ->
  exists n', detached m i (parent_id ni) !! x = Some n' /\ ws_id n' = ws_id n /\ same_node n n' /\
    children n' = base.filter (fun c => c <> i) (children n).
Proof.
  intros Hf Hi Hx.
  assert (parent_id ni <> Some x -> base.filter (fun c => c <> i) (children n) = children n) as Hnp.
  { intros Hne. apply filter_all, Forall_forall. intros c Hc ->.
    destruct (f_child _ _ Hf _ _ _ Hx Hc) as (? & ? & ?). congruence. }
  destruct (parent_id ni) as [p|]; cbn.
  - destruct (decide (p = x)) as [->|Hne].
    + rewrite lookup_alter_eq, Hx. cbn. by eexists.
    + rewrite lookup_alter_ne by done. exists n. rewrite Hnp by congruence. done.
  - exists n. by rewrite Hnp.
Qed.

Lemma detached_none m i p x : detached m i p !! x = None <-> m !! x = None.
Proof. destruct p; cbn; [|done]. by rewrite lookup_alter_None. Qed.

Lemma lookup_delete_all {A} (m : gmap Z A) ids x :
  foldr delete m ids !! x = if decide (x ∈ ids) then None else m !! x.
Proof.
  induction ids as [|i ids IH]; cbn.
  { by rewrite decide_False by apply not_elem_of_nil. }
  destruct (decide (i = x)) as [->|Hne].
  - rewrite lookup_delete_eq. rewrite decide_True by (by left). done.
  - rewrite lookup_delete_ne, IH by done. do 2 case_decide; set_solver.
Qed.

Lemma collect_ok m roots P v last i n ds :
  m !! i = Some n -> gather m (size m) (rev (children n)) = Some ds ->
  collect_descendants i (at_ m roots P v last) = Some (Ok ds, at_ m roots P v last).
Proof. intros Hi Hg. unfold collect_descendants, wloop. cbn. by rewrite Hi, Hg. Qed.

(** Deletion takes out the subtree and its paths. *)
Lemma delete_spec m roots P v last i n :
  forest m roots -> m !! i = Some n ->
  exists m' P', delete_workspace i (at_ m roots P v last)
    = Some (Ok tt, at_ m' (base.filter (fun r => r <> i) roots) P' (wrapping_add_u64 v 1) last) /\
    pruned m m' i /\
    (forall q, (exists x l, below m i x /\ trail m l q x /\ Z.of_nat (length q) <= MAX_DEPTH) -> P' !! q = None) /\
    (forall q, (forall x l, below m i x -> ~ trail m l q x) -> P' !! q = P !! q).
Proof.
  intros Hf Hi. destruct (descendants_spec _ _ _ _ Hf Hi) as (ds & Hg & _ & Hds).
  destruct (forget_paths_spec m roots v last (i :: ds) P) as (P' & E & Hgone & Hkept).
  { intros x (l & q & Ht & _)%Hds. eauto. }
  exists (foldr delete (detached m i (parent_id n)) (i :: ds)), P'. split; [|split; [|split]].
  - unfold delete_workspace. wstep (check_ok m roots P v last). wstep (get_node_ok _ roots P v last _ _ (WorkspaceNotFound i) Hi).
    wstep (collect_ok _ roots P v last _ _ _ Hi Hg). wstep E. by wstep (detach_children_spec m roots P' v last i n Hf Hi).
  - split.
    + intros x Hx%Hds. rewrite lookup_delete_all. by rewrite decide_True.
    + intros x n' Hx. rewrite lookup_delete_all in Hx. case_decide; [done|].
      destruct (m !! x) as [nx|] eqn:Ex; [eauto|]. by rewrite (proj2 (detached_none _ _ _ _) Ex) in Hx.
    + intros x nx Hb Hx. rewrite lookup_delete_all, decide_False by (by rewrite Hds).
      destruct (detached_lookup _ _ _ _ _ _ Hf Hi Hx) as (n' & ? & ? & [? ?] & ?). eauto 10.
  - intros q (x & l & Hx & Ht & Hlen). apply Hgone. exists x, l. by rewrite Hds.
  - intros q Hq. apply Hkept. intros (x & l & Hx & Ht & _). by eapply Hq; [apply Hds|].
Qed.

(** A move hangs the node elsewhere. *)
Definition relocated (m : gmap Z WorkspaceNode) (i : Z) (n : WorkspaceNode) (np : option Z) (now : Z)
  : gmap Z WorkspaceNode := alter (with_parent np now) i (attached (detached m i (parent_id n)) i np).

Lemma attached_lookup m i p x n :
  m !! x = Some n -> exists n', attached m i p !! x = Some n' /\ ws_id n' = ws_id n /\ same_node n n' /\
    children n' = children n ++ if_some p x i.
Proof.
  intros Hx. unfold if_some. destruct p as [p|]; cbn.
  - destruct (decide (p = x)) as [->|Hne].
    + rewrite lookup_alter_eq, Hx, decide_True by done. by eexists.
    + rewrite lookup_alter_ne, decide_False by congruence. exists n. by rewrite app_nil_r.
  - exists n. by rewrite app_nil_r.
Qed.

Lemma relocated_moved m roots i n np now :
  forest m roots -> m !! i = Some n -> moved m (relocated m i n np now) i np.
Proof.
  intros Hf Hi. unfold relocated. split.
  - intros x. rewrite lookup_alter_None. transitivity (detached m i (parent_id n) !! x = None).
    + destruct np; cbn; [|done]. by rewrite lookup_alter_None.
    + apply detached_none.
  - intros x nx n' Hx Hx'. destruct (detached_lookup _ _ _ _ _ _ Hf Hi Hx) as (n1 & E1 & I1 & [P1 N1] & C1).
    destruct (attached_lookup _ i np _ _ E1) as (n2 & E2 & I2 & [P2 N2] & C2).
    assert (children n2 = base.filter (fun c => c <> i) (children nx) ++ if_some np x i) as C3
      by congruence.
    destruct (decide (x = i)) as [->|Hne].
    + rewrite lookup_alter_eq, E2 in Hx'. simplify_eq/=. split_and!; congruence.
    + rewrite lookup_alter_ne, E2 in Hx' by done. simplify_eq/=. split_and!; congruence.
Qed.

Lemma insert_paths_spec m roots v last : forall all ds segs P,
  exists r P', insert_paths all ds segs (at_ m roots P v last) = Some (r, at_ m roots P' v last).
Proof.
  induction all as [|d all IH]; intros ds segs P; [by eexists _, P|]. cbn [insert_paths].
  unfold wbind at 1, wtry. destruct (path_new segs) as [p|e]; [|by eexists _, P]. apply IH.
Qed.

(** *** Each call *)

(** A new child. *)
Definition with_child (m : gmap Z WorkspaceNode) (i pid : Z) (n : WorkspaceNode) : gmap Z WorkspaceNode :=
  alter (with_children (fun l => l ++ [i])) pid (<[i := n]> m).

Lemma with_child_lookup m i pid n x nx :
  m !! i = None -> m !! x = Some nx ->
  exists n', with_child m i pid n !! x = Some n' /\ ws_id n' = ws_id nx /\ same_node nx n' /\
    children n' = children nx ++ if_some (Some pid) x i.
Proof.
  intros Hi Hx. apply (attached_lookup _ i (Some pid)). rewrite lookup_insert_ne; [done|]. congruence.
Qed.

Lemma with_child_self m i pid n :
  m !! i = None -> is_Some (m !! pid) -> with_child m i pid n !! i = Some n.
Proof.
  intros Hi [pn Hp]. unfold with_child. rewrite lookup_alter_ne by congruence. apply lookup_insert_eq.
Qed.

Lemma with_child_back m i pid n x n' :
  with_child m i pid n !! x = Some n' -> x <> i -> exists nx, m !! x = Some nx.
Proof.
  unfold with_child. intros Hx Hxi. destruct (m !! x) as [nx|] eqn:E; [eauto|].
  assert (with_child m i pid n !! x = None) as Hn; [|unfold with_child in Hn; congruence].
  unfold with_child. by rewrite lookup_alter_None, lookup_insert_ne.
Qed.

Lemma grown_child m i pid n : m !! i = None -> is_Some (m !! pid) -> grown m (with_child m i pid n) i n.
Proof.
  intros Hi Hp. split; [done|by apply with_child_self|..].
  - intros x nx Hx. destruct (with_child_lookup _ _ pid n _ _ Hi Hx) as (n' & ? & _ & ? & _). eauto.
  - intros x n' Hxi Hx. destruct (with_child_back _ _ _ _ _ _ Hx Hxi) as (nx & Hnx).
    destruct (with_child_lookup _ _ pid n _ _ Hi Hnx) as (n2 & ? & _ & ? & _). simplify_eq. eauto.
Qed.

Lemma forest_child m roots i pid name meta now :
  forest m roots -> m !! i = None -> is_Some (m !! pid) ->
  forest (with_child m i pid (new_child i name pid meta now)) roots.
Proof.
  intros Hf Hi Hp. pose proof Hp as [pn Hpn]. set (n := new_child i name pid meta now).
  set (m0 := <[i := new_root i name meta now]> m).
  assert (forest m0 (roots ++ [i])) as Hf0 by (by apply forest_add).
  assert (moved m0 (with_child m i pid n) i (Some pid)) as Hm.
  { split.
    - intros x. unfold with_child. rewrite lookup_alter_None. unfold m0. by rewrite !lookup_insert_None.
    - intros x nx n' Hx Hx'. destruct (decide (x = i)) as [->|Hxi].
      + unfold m0 in Hx. rewrite lookup_insert_eq in Hx. rewrite with_child_self in Hx' by done. simplify_eq/=.
        unfold if_some. rewrite decide_False by congruence. done.
      + unfold m0 in Hx. rewrite lookup_insert_ne in Hx by done.
        destruct (with_child_lookup _ _ pid n _ _ Hi Hx) as (n2 & ? & ? & [? ?] & Hc). simplify_eq.
        split_and!; try done. rewrite Hc. f_equal. symmetry. apply filter_all, Forall_forall.
        intros c Hcx ->. destruct (f_child _ _ Hf _ _ _ Hx Hcx) as (? & ? & _). congruence. }
  assert (roots = base.filter (fun r => r <> i) (roots ++ [i]) ++ if_none (Some pid) i) as ->.
  { rewrite filter_app, filter_cons_False, app_nil_r by (by intros []). symmetry. etrans; [apply app_nil_r|].
    apply filter_all, Forall_forall. intros r (n' & Hr & _)%(f_roots _ _ Hf) ->. congruence. }
  apply (forest_moved m0); [done|done|unfold m0; rewrite lookup_insert_eq; eauto|]. intros p [= <-]. split.
  - unfold m0. rewrite lookup_insert_ne by congruence. eauto.
  - intros (l & q & Ht & Hil). apply (trail_add _ _ _ _ _ _ _ Hf Hi) in Ht as [Ht|[-> _]]; [|congruence|done].
    destruct (trail_dom _ _ _ _ _ Ht Hil). congruence.
Qed.

(** The path of an insertion. *)
Definition insert_path (m : gmap Z WorkspaceNode) (parent : option Z) (name : WorkspaceName)
  (q : WorkspacePath) : Prop :=
  match parent with
  | None => q = [name]
  | Some pid => exists l qp, trail m l qp pid /\ q = qp ++ [name]
  end.

Lemma compute_path_ok m roots P v last l q i :
  trail m l q i -> compute_path i (at_ m roots P v last) = Some (path_new q, at_ m roots P v last).
Proof.
  intros Ht. unfold compute_path, wbind, wloop. cbn [ix at_].
  by rewrite (compute_path_spec _ _ _ _ (Ht : trail (nodes (mkIndex m roots P v true)) l q i)).
Qed.

Definition new_node (i : Z) (parent : option Z) (name : WorkspaceName) (meta : WorkspaceMetadata) (now : Z)
  : WorkspaceNode :=
  match parent with
  | Some pid => new_child i name pid meta now
  | None => new_root i name meta now
  end.

Lemma insert_grows m roots i parent name meta now q :
  forest m roots -> m !! i = None -> insert_path m parent name q ->
  (forall p, parent = Some p -> is_Some (m !! p)) ->
  let m' := attached (<[i := new_node i parent name meta now]> m) i parent in
  forest m' (roots ++ if_none parent i) /\
  (forall x, is_Some (m' !! x) -> x = i \/ is_Some (m !! x)) /\
  forall q' x, (exists l, trail m' l q' x) <-> (exists l, trail m l q' x) \/ x = i /\ q' = q.
Proof.
  intros Hf Hi Hins Hpar m'. set (n := new_node i parent name meta now).
  assert (ws_name n = name /\ parent_id n = parent) as [Hname Hparent] by (by destruct parent).
  assert (grown m m' i n) as Hg.
  { destruct parent as [pid|]; [by apply grown_child; [|apply Hpar]|by apply grown_add]. }
  split; [|split].
  - destruct parent as [pid|]; cbn [if_none] in *; [|by apply forest_add].
    unfold if_none. rewrite decide_False, app_nil_r by done. by apply forest_child; [..|apply Hpar].
  - intros x [n' Hx]. destruct (decide (x = i)) as [->|Hxi]; [by left|right].
    destruct (gr_back _ _ _ _ Hg _ _ Hxi Hx) as (nx & ? & _). eauto.
  - intros q' x. setoid_rewrite (trail_grown _ _ _ _ _ _ _ _ Hf Hg); [|by rewrite Hparent].
    rewrite Hparent, Hname. unfold insert_path in Hins. destruct parent as [pid|]; [|naive_solver].
    destruct Hins as (lp & qp & Htp & ->). split.
    + intros (l & [Ht|(-> & lp' & qp' & Ht & _ & ->)]); [eauto|].
      destruct (trail_unique _ _ _ _ _ _ Htp Ht) as [_ ->]. by right.
    + intros [[l Ht]|[-> ->]]; eauto 10.
Qed.

(** An insertion fails and changes nothing, or adds a node under a path that was free. *)
Lemma insert_spec m roots P v last ulid parent name meta now :
  forest m roots -> let i := generate ulid last in m !! i = None ->
  exists r, insert ulid parent name meta now (at_ m roots P v last) = Some r /\
    (r.2 = at_ m roots P v last /\ is_ok r.1 = false \/
     exists m' roots' q, r = (Ok i, at_ m' roots' (<[q := i]> P) (wrapping_add_u64 v 1) (Some i)) /\
       forest m' roots' /\ P !! q = None /\ Z.of_nat (length q) <= MAX_DEPTH /\
       (forall x, is_Some (m' !! x) -> x = i \/ is_Some (m !! x)) /\
       forall q' x, (exists l, trail m' l q' x) <-> (exists l, trail m l q' x) \/ x = i /\ q' = q).
Proof.
  intros Hf i Hi. unfold insert. wstep (check_ok m roots P v last). unfold wbind at 1, wtry at 1.
  destruct (validate_metadata meta) as [[]|e]; [|eexists; split; [done|by left]].
  set (getpath := match parent with Some _ => _ | None => _ end).
  assert ((exists e, getpath (at_ m roots P v last) = Some (Err e, at_ m roots P v last)) \/
    exists q, getpath (at_ m roots P v last) = Some (path_new q, at_ m roots P v last) /\
      insert_path m parent name q /\ (forall p, parent = Some p -> is_Some (m !! p))) as Hpath.
  { subst getpath. destruct parent as [pid|]; [|right; exists [name]; by split_and!].
    unfold wbind at 1 3, wread. cbn [ix at_ nodes]. case_bool_decide as Hk; cbn [negb]; [|left; by eexists].
    destruct Hk as [pn Hpn]. destruct (f_trail _ _ Hf _ _ Hpn) as (l & q & Ht).
    unfold wbind. rewrite (compute_path_ok _ _ _ _ _ _ _ _ Ht). destruct (path_new q) as [q0|e] eqn:Eq; [|left; eauto].
    apply path_new_ok in Eq as [-> Hlen]. right. exists (q ++ [name]). split; [done|]. split; [by exists l, q|].
    intros p [= <-]. eauto. }
  destruct Hpath as [[e He]|(q & Hq & Hins & Hpar)]; [wfails He; eexists; split; [done|by left]|].
  destruct (path_new q) as [q0|e] eqn:Eq; [|wfails Hq; eexists; split; [done|by left]].
  apply path_new_ok in Eq as [-> Hlen]. wstep Hq. unfold wbind at 1, wread at 1. cbn [ix at_ path_index].
  case_bool_decide as Ht; [eexists; split; [done|by left]|]. apply eq_None_not_Some in Ht.
  destruct (insert_grows m roots i parent name meta now q Hf Hi Hins Hpar) as (Hf' & Hdom & Htr).
  eexists. split; [|right; eexists _, _, q; split; [reflexivity|by split_and!]].
  unfold wbind, at_. cbn. fold i. unfold if_none.
  destruct parent as [pid|]; cbn; [by rewrite app_nil_r|done].
Qed.

(** A move, whatever it answers, leaves a forest of the same nodes. *)
Definition move_guard (i np : Z) (name : WorkspaceName) : WS unit :=
  if decide (np = i) then wfail (CyclicMoveDetected i np)
  else
    let* known := wread (fun x => bool_decide (is_Some (nodes x !! np))) in
    if negb known then wfail (ParentNotFound np)
    else
      let* below := is_descendant np i in
      if below : bool then wfail (CyclicMoveDetected i np)
      else
        let* named := wread (fun x => child_named x np name) in
        if named : bool then wfail (DuplicateName np name) else wret tt.

Lemma move_guard_spec m roots P v last i np name :
  forest m roots ->
  exists r, move_guard i np name (at_ m roots P v last) = Some (r, at_ m roots P v last) /\
    (is_ok r = true -> is_Some (m !! np) /\ ~ below m i np).
Proof.
  intros Hf. unfold move_guard. destruct (decide (np = i)) as [->|Hne]; [by eexists|].
  unfold wbind at 1, wread at 1. cbn [ix at_ nodes]. case_bool_decide as Hk; cbn [negb]; [|by eexists].
  destruct Hk as [pn Hpn]. destruct (f_trail _ _ Hf _ _ Hpn) as (l & q & Ht).
  assert (is_descendant np i (at_ m roots P v last)
    = Some (Ok (bool_decide (i <> np /\ i ∈ l)), at_ m roots P v last)) as E.
  { unfold is_descendant, wloop. cbn [ix at_ nodes]. rewrite Hpn.
    by rewrite (is_below_spec _ _ _ _ _ _ _ Ht (trail_size _ _ _ _ Ht) Hpn). }
  wstep E. case_bool_decide as Hb; [by eexists|]. unfold wbind, wread. cbn [ix at_ nodes].
  destruct (child_named _ np name); [by eexists|]. eexists. split; [done|]. intros _. split; [eauto|].
  intros (l' & q' & Ht' & Hi). destruct (trail_unique _ _ _ _ _ _ Ht Ht') as [-> _]. apply Hb. by split.
Qed.

Lemma move_tail_spec m roots P v last i n np now ds :
  forest m roots -> m !! i = Some n -> (forall p, np = Some p -> is_Some (m !! p) /\ ~ below m i p) ->
  (forall x, x ∈ i :: ds -> is_Some (m !! x)) ->
  exists r m' roots' P' v',
    (detach i (parent_id n);;
     match np with
     | Some np => set_nodes (alter (with_children (fun l => l ++ [i])) np)
     | None => set_roots (fun l => l ++ [i])
     end;;
     get_node i (WorkspaceNotFound i);;
     set_nodes (alter (with_parent np now) i);;
     forget_paths (i :: ds);;
     let* segments :=
       match np with
       | Some np => let* p := compute_path np in wret (p ++ [ws_name n])
       | None => wret [ws_name n]
       end in
     insert_paths (i :: ds) ds segments;;
     bump_version) (at_ m roots P v last) = Some (r, at_ m' roots' P' v' last) /\
    forest m' roots' /\ forall x, m' !! x = None <-> m !! x = None.
Proof.
  intros Hf Hi Hnp Hds. set (m' := relocated m i n np now).
  pose proof (relocated_moved m roots i n np now Hf Hi) as Hm. fold m' in Hm.
  set (roots' := base.filter (fun r => r <> i) roots ++ if_none np i).
  assert (forest m' roots') as Hf' by (eapply forest_moved; eauto).
  assert (forall x, is_Some (m !! x) -> exists l q, trail m' l q x) as Htr.
  { intros x [nx Hx]. destruct (moved_some _ _ _ _ _ _ Hm Hx) as (n' & Hn'). by eapply f_trail. }
  wstep (detach_children_spec m roots P v last i n Hf Hi).
  set (m1 := attached (detached m i (parent_id n)) i np).
  assert (match np with
          | Some np => set_nodes (alter (with_children (fun l => l ++ [i])) np)
          | None => set_roots (fun l => l ++ [i])
          end (at_ (detached m i (parent_id n)) (base.filter (fun r => r <> i) roots) P v last)
    = Some (Ok tt, at_ m1 roots' P v last)) as E1.
  { unfold roots', if_none. destruct np; cbn; [by rewrite app_nil_r|done]. }
  wstep E1. destruct (detached_lookup _ _ _ _ _ _ Hf Hi Hi) as (n1 & En1 & _).
  destruct (attached_lookup _ i np _ _ En1) as (n2 & En2 & _).
  wstep (get_node_ok m1 roots' P v last i n2 (WorkspaceNotFound i) En2).
  assert (set_nodes (alter (with_parent np now) i) (at_ m1 roots' P v last)
    = Some (Ok tt, at_ m' roots' P v last)) as E2 by done.
  wstep E2. destruct (forget_paths_spec m' roots' v last (i :: ds) P) as (P1 & E3 & _ & _).
  { intros x Hx. by apply Htr, Hds. }
  wstep E3. clear E1 E2 E3.
  assert (forall segs, exists r P' v', (insert_paths (i :: ds) ds segs;; bump_version) (at_ m' roots' P1 v last)
    = Some (r, at_ m' roots' P' v' last)) as Hins.
  { intros segs. destruct (insert_paths_spec m' roots' v last (i :: ds) ds segs P1) as (r & P2 & E).
    destruct r as [[]|e]; [wstep E|wfails E]; eauto. }
  assert (exists r P' v', (let* segments :=
       match np with
       | Some np => let* p := compute_path np in wret (p ++ [ws_name n])
       | None => wret [ws_name n]
       end in
     insert_paths (i :: ds) ds segments;;
     bump_version) (at_ m' roots' P1 v last) = Some (r, at_ m' roots' P' v' last)) as (r & P2 & v2 & E).
  { destruct np as [p|]; [|apply Hins]. destruct (Htr p) as (l & q & Ht); [by apply Hnp|].
    pose proof (compute_path_ok m' roots' P1 v last _ _ _ Ht) as E. unfold wbind at 1 2.
    rewrite E. destruct (path_new q) as [q'|e]; [apply Hins|eauto]. }
  exists r, m', roots', P2, v2. split; [exact E|]. split; [done|apply Hm].
Qed.

Lemma move_spec m roots P v last i np now :
  forest m roots ->
  exists r m' roots' P' v',
    move_workspace i np now (at_ m roots P v last) = Some (r, at_ m' roots' P' v' last) /\
    forest m' roots' /\ forall x, m' !! x = None <-> m !! x = None.
Proof.
  intros Hf. unfold move_workspace. wstep (check_ok m roots P v last).
  destruct (m !! i) as [n|] eqn:Hi; cycle 1.
  { wfails (get_node_err m roots P v last i (WorkspaceNotFound i) Hi). by eexists _, m, roots, P, v. }
  wstep (get_node_ok m roots P v last i n (WorkspaceNotFound i) Hi).
  case_decide as Hsame; [by eexists _, m, roots, P, _|].
  destruct (descendants_spec _ _ _ _ Hf Hi) as (ds & Hg & _ & Hds).
  assert (forall x, x ∈ i :: ds -> is_Some (m !! x)) as Hdom.
  { intros x (l & q & Ht & _)%Hds. destruct (trail_inv _ _ _ _ Ht) as (nx & ? & _). eauto. }
  pose proof (move_tail_spec m roots P v last i n np now ds Hf Hi) as Htail.
  destruct np as [p|].
  - change (if decide (p = i) then _ else _) with (move_guard i p (ws_name n)).
    destruct (move_guard_spec m roots P v last i p (ws_name n) Hf) as ([[]|e] & E & Hp);
      [|wfails E; by eexists _, m, roots, P, v].
    wstep E. wstep (collect_ok _ roots P v last _ _ _ Hi Hg). apply Htail; [|done].
    intros ? [= <-]. by apply Hp.
  - wstep (eq_refl : wret tt (at_ m roots P v last) = _).
    wstep (collect_ok _ roots P v last _ _ _ Hi Hg). by apply Htail.
Qed.

(** Metadata do not matter to the forest. *)
Lemma forest_update m roots i meta now :
  forest m roots -> forest (alter (with_metadata meta now) i m) roots /\
  forall l q x, trail (alter (with_metadata meta now) i m) l q x <-> trail m l q x.
Proof.
  intros Hf. set (m' := alter (with_metadata meta now) i m).
  assert (forall x n, m !! x = Some n -> exists n', m' !! x = Some n' /\ ws_id n' = ws_id n /\
    same_node n n' /\ children n' = children n) as Hto.
  { intros x n Hx. unfold m'. destruct (decide (i = x)) as [->|Hne].
    - rewrite lookup_alter_eq, Hx. by eexists.
    - rewrite lookup_alter_ne by done. by exists n. }
  assert (forall x n', m' !! x = Some n' -> exists n, m !! x = Some n /\ ws_id n' = ws_id n /\
    same_node n n' /\ children n' = children n) as Hfrom.
  { intros x n' Hx. destruct (m !! x) as [n|] eqn:E.
    - destruct (Hto x n E) as (n2 & ? & ?). simplify_eq. eauto.
    - unfold m' in Hx. by rewrite (proj2 (lookup_alter_None _ _ _ _) E) in Hx. }
  assert (forall l q x, trail m' l q x <-> trail m l q x) as Htr.
  { intros l q x. split; intros Ht; (eapply trail_transfer; [done|]); intros y n _ Hy.
    - destruct (Hfrom y n Hy) as (n0 & ? & _ & [? ?] & _). by exists n0.
    - destruct (Hto y n Hy) as (n0 & ? & _ & ? & _). by exists n0. }
  split; [|done]. split.
  - intros x n' Hx. destruct (Hfrom x n' Hx) as (n & Hn & -> & _). by eapply f_id.
  - intros x n' Hx. destruct (Hfrom x n' Hx) as (n & Hn & _). destruct (f_trail _ _ Hf _ _ Hn) as (l & q & Ht).
    exists l, q. by apply Htr.
  - intros x n' p Hx Hp. destruct (Hfrom x n' Hx) as (n & Hn & _ & [Hpar _] & _). rewrite Hp in Hpar.
    destruct (f_parent _ _ Hf _ _ _ Hn (eq_sym Hpar)) as (pn & Hpn & Hc).
    destruct (Hto p pn Hpn) as (pn' & ? & _ & _ & Hc'). exists pn'. by rewrite Hc'.
  - intros x n' c Hx Hc. destruct (Hfrom x n' Hx) as (n & Hn & _ & _ & Hc'). rewrite Hc' in Hc.
    destruct (f_child _ _ Hf _ _ _ Hn Hc) as (cn & Hcn & Hp).
    destruct (Hto c cn Hcn) as (cn' & ? & _ & [Hp' _] & _). exists cn'. by rewrite Hp'.
  - intros x n' Hx. destruct (Hfrom x n' Hx) as (n & Hn & _ & _ & ->). by eapply f_children.
  - intros x. rewrite (f_roots _ _ Hf). split.
    + intros (n & Hn & Hp). destruct (Hto x n Hn) as (n' & ? & _ & [Hp' _] & _). exists n'. by rewrite Hp'.
    + intros (n' & Hn' & Hp). destruct (Hfrom x n' Hn') as (n & ? & _ & [Hp' _] & _). exists n. by rewrite <- Hp'.
  - by eapply f_root_once.
Qed.

(** The paths are those of the nodes. *)
Record paths_exact (m : gmap Z WorkspaceNode) (P : gmap WorkspacePath Z) : Prop := {
  pe_index : forall q i, P !! q = Some i <-> exists l, trail m l q i;
  pe_depth : forall l q i, trail m l q i -> Z.of_nat (length q) <= MAX_DEPTH;
}.

Lemma paths_inserted m m' P i q :
  paths_exact m P -> P !! q = None -> Z.of_nat (length q) <= MAX_DEPTH ->
  (forall q' x, (exists l, trail m' l q' x) <-> (exists l, trail m l q' x) \/ x = i /\ q' = q) ->
  paths_exact m' (<[q := i]> P).
Proof.
  intros [Hp Hd] Hq Hlen Htr. split.
  - intros q' x. rewrite Htr, <- Hp, lookup_insert_Some. split; [naive_solver|].
    intros [Hx|[-> ->]]; [|by left]. right. split; [|done]. intros <-. congruence.
  - intros l q' x Ht. destruct (proj1 (Htr q' x) (ex_intro _ l Ht)) as [[l' Ht']|[_ ->]]; eauto.
Qed.

Lemma paths_pruned m m' roots P P' i :
  forest m roots -> is_Some (m !! i) -> pruned m m' i -> paths_exact m P ->
  (forall q, (exists x l, below m i x /\ trail m l q x /\ Z.of_nat (length q) <= MAX_DEPTH) -> P' !! q = None) ->
  (forall q, (forall x l, below m i x -> ~ trail m l q x) -> P' !! q = P !! q) ->
  paths_exact m' P'.
Proof.
  intros Hf [n Hi] Hpr [Hp Hd] Hgone Hkept. destruct (descendants_spec _ _ _ _ Hf Hi) as (ds & _ & _ & Hds).
  assert (forall q x l, trail m l q x -> ~ below m i x -> P' !! q = Some x) as Hstay.
  { intros q x l Ht Hb. rewrite Hkept; [apply Hp; eauto|]. intros y ly Hby Hty.
    assert (P !! q = Some x) by (apply Hp; eauto). assert (P !! q = Some y) by (apply Hp; eauto). congruence. }
  split.
  - intros q x. setoid_rewrite (trail_pruned _ _ _ _ _ _ Hpr). split; [|naive_solver].
    intros Hx. destruct (P !! q) as [y|] eqn:Ey.
    + apply Hp in Ey as [l Ht]. destruct (decide (y ∈ i :: ds)) as [Hb%Hds|Hb].
      * rewrite Hgone in Hx; [done|]. exists y, l. eauto.
      * rewrite Hds in Hb. rewrite (Hstay _ _ _ Ht Hb) in Hx. simplify_eq. eauto.
    + rewrite Hkept in Hx; [congruence|]. intros y l _ Ht. assert (P !! q = Some y) by (apply Hp; eauto). congruence.
  - intros l q x [Ht _]%(trail_pruned _ _ _ _ _ _ Hpr). eauto.
Qed.

(** What holds between calls: the index is a forest, and its identifiers were given out. *)
Record sound_state (m : gmap Z WorkspaceNode) (roots : list Z) (last : option Z) (left : Z) : Prop := {
  ss_forest : forest m roots;
  ss_ids : forall x, is_Some (m !! x) -> exists u, last = Some u /\ x <= u;
  ss_last : forall u, last = Some u -> 0 <= u <= u128_max - left;
}.

(** A call that draws an identifier draws one in range, with room for [k] more. *)
Definition call_ok (k : Z) (c : WsCall) : Prop :=
  match c with WInsert ulid _ _ _ _ => 0 <= ulid <= u128_max - k | _ => True end.
Definition is_move (c : WsCall) : Prop := match c with WMove _ _ _ => True | _ => False end.

Lemma generate_fresh ulid last k :
  0 <= k -> 0 <= ulid <= u128_max - k -> (forall u, last = Some u -> 0 <= u <= u128_max - (k + 1)) ->
  0 <= generate ulid last <= u128_max - k /\ forall u, last = Some u -> u < generate ulid last.
Proof.
  intros Hk Hu Hl. unfold generate. destruct last as [prev|]; [|split; [lia|done]].
  specialize (Hl prev eq_refl). destruct (Z.leb_spec ulid prev).
  - rewrite Z.mod_small by lia. split; [lia|]. intros u [= <-]. lia.
  - split; [lia|]. intros u [= <-]. lia.
Qed.

Lemma ws_call_spec m roots P v last k c :
  0 <= k -> sound_state m roots last (k + 1) -> call_ok k c ->
  exists r m' roots' P' v' last',
    ws_call c (at_ m roots P v last) = Some (r, at_ m' roots' P' v' last') /\
    sound_state m' roots' last' k /\ (~ is_move c -> paths_exact m P -> paths_exact m' P').
Proof.
  intros Hk [Hf Hids Hl] Hc.
  assert (forall u, last = Some u -> 0 <= u <= u128_max - k) as Hl' by (intros u Hu; specialize (Hl u Hu); lia).
  destruct c as [ulid parent name meta now|i|i np now|i meta now]; cbn [ws_call call_ok] in *.
  - destruct (generate_fresh ulid last k Hk Hc Hl) as [Hg Hfresh].
    assert (m !! generate ulid last = None) as Hnew.
    { apply eq_None_not_Some. intros (u & Hu & Hle)%Hids. specialize (Hfresh u Hu). lia. }
    destruct (insert_spec m roots P v last ulid parent name meta now Hf Hnew) as ([r w] & E & H).
    cbn [fst snd] in H. destruct H as [[-> Hr]|(m' & roots' & q & [= -> ->] & Hf' & Hq & Hlen & Hdom & Htr)].
    + destruct r as [?|e]; [done|]. wfails E. eexists _, m, roots, P, v, last. split; [done|]. by split.
    + wstep E. eexists _, m', roots', _, _, _. split; [done|]. split; [split; [done| |by intros u [= <-]]|].
      * intros x [->|Hx]%Hdom; [eauto with lia|]. destruct (Hids x Hx) as (u & Hu & ?).
        specialize (Hfresh u Hu). eexists. split; [done|]. lia.
      * intros _ HP. by eapply paths_inserted.
  - destruct (m !! i) as [n|] eqn:Hi.
    + destruct (delete_spec m roots P v last i n Hf Hi) as (m' & P' & E & Hpr & Hgone & Hkept).
      wstep E. eexists _, m', _, P', _, last. split; [done|]. split; [split; [|intros x [n' Hx]|done]|].
      * eapply forest_pruned; eauto.
      * destruct (pr_back _ _ _ Hpr _ _ Hx) as (? & ?). eauto.
      * intros _ HP. eapply paths_pruned; eauto.
    + unfold delete_workspace. unfold wbind at 1. wstep (check_ok m roots P v last).
      wfails (get_node_err m roots P v last i (WorkspaceNotFound i) Hi).
      eexists _, m, roots, P, v, last. split; [done|]. by split.
  - destruct (move_spec m roots P v last i np now Hf) as (r & m' & roots' & P' & v' & E & Hf' & Hdom).
    assert (sound_state m' roots' last k) as Hss.
    { split; [done| |done]. intros x Hx. apply Hids. apply not_eq_None_Some. rewrite <- Hdom.
      by apply not_eq_None_Some. }
    destruct r as [[]|e]; [wstep E|wfails E]; eexists _, m', roots', P', v', last; (split; [done|]);
      split; [done|intros []; constructor|done|intros []; constructor].
  - unfold update_metadata. unfold wbind at 1. wstep (check_ok m roots P v last). unfold wbind at 1, wtry.
    destruct (validate_metadata meta) as [[]|e]; [|eexists _, m, roots, P, v, last; split; [done|by split]].
    destruct (m !! i) as [n|] eqn:Hi.
    + wstep (get_node_ok m roots P v last i n (WorkspaceNotFound i) Hi).
      destruct (forest_update m roots i meta now Hf) as [Hf' Htr].
      eexists _, (alter (with_metadata meta now) i m), roots, P, _, last. split; [done|].
      split; [split; [done| |done]|].
      * intros x Hx. apply Hids. destruct (m !! x) eqn:E; [eauto|].
        rewrite (proj2 (lookup_alter_None _ _ _ _) E) in Hx. by destruct Hx.
      * intros _ [Hp Hd]. split; [setoid_rewrite Htr; done|]. intros l q x Ht%Htr. eauto.
    + wfails (get_node_err m roots P v last i (WorkspaceNotFound i) Hi).
      eexists _, m, roots, P, v, last. split; [done|]. by split.
Qed.

Lemma ws_run_spec cs : forall m roots P v last,
  sound_state m roots last (Z.of_nat (length cs)) -> Forall (call_ok (Z.of_nat (length cs))) cs ->
  exists rs m' roots' P' v' last',
    ws_run cs (at_ m roots P v last) = Some (rs, at_ m' roots' P' v' last') /\ length rs = length cs /\
    forest m' roots' /\ (Forall (fun c => ~ is_move c) cs -> paths_exact m P -> paths_exact m' P').
Proof.
  induction cs as [|c cs IH]; intros m roots P v last Hss Hok.
  { exists [], m, roots, P, v, last. split_and!; try done. apply Hss. }
  apply Forall_cons in Hok as [Hc Hok]. cbn [length] in *.
  destruct (ws_call_spec m roots P v last (Z.of_nat (length cs)) c) as (r & m1 & r1 & P1 & v1 & l1 & E & Hss1 & Hp1).
  { lia. } { by replace (Z.of_nat (length cs) + 1) with (Z.of_nat (S (length cs))) by lia. }
  { destruct c; cbn in *; lia || done. }
  destruct (IH m1 r1 P1 v1 l1 Hss1) as (rs & m2 & r2 & P2 & v2 & l2 & E2 & Hlen & Hf & Hp2).
  { eapply Forall_impl; [exact Hok|]. intros c' Hc'. destruct c'; cbn in *; lia || done. }
  exists (r :: rs), m2, r2, P2, v2, l2. cbn [ws_run]. rewrite E, E2. cbn [length]. rewrite Hlen. split_and!; try done.
  intros [Hn Hns]%Forall_cons HP. auto.
Qed.

Lemma sound_start k : sound_state ∅ [] None k.
Proof. split; [apply forest_empty| |done]. intros x [n Hn]. by rewrite lookup_empty in Hn. Qed.
Lemma paths_start : paths_exact ∅ ∅.
Proof.
  assert (forall l q i, ~ trail ∅ l q i) as Hno.
  { intros l q i (n & Hn & _)%trail_inv. by rewrite lookup_empty in Hn. }
  split; [|intros l q i Ht; by apply Hno in Ht]. intros q i. rewrite lookup_empty. split; [done|].
  intros [l Ht]. by apply Hno in Ht.
Qed.

(** [verify_invariants] finds nothing wrong with a forest. *)
Lemma verify_forest x :
  initialized x = true -> forest (nodes x) (root_ids x) -> verify_invariants x = Some (Ok tt).
Proof.
  intros Hinit Hf. unfold verify_invariants. rewrite Hinit. cbn [negb].
  assert (forall l, Forall (fun kv => nodes x !! kv.1 = Some kv.2) l -> verify_nodes x l = Some (Ok tt)) as Hall.
  { induction 1 as [|[i n] l Hi _ IH]; [done|]. cbn [fst snd] in Hi. cbn [verify_nodes].
    assert (try_for_each (fun c => if bool_decide (is_Some (nodes x !! c)) then Ok tt
      else Err (WorkspaceNotFound c)) (children n) = Ok tt) as Hch.
    { apply try_for_each_ok, Forall_forall. intros c Hc. destruct (f_child _ _ Hf _ _ _ Hi Hc) as (cn & Hcn & _).
      rewrite bool_decide_true; [done|eauto]. }
    assert (verify_node x i n = Some (Ok tt)) as ->; [|done]. unfold verify_node.
    destruct (parent_id n) as [p|] eqn:Hp.
    - destruct (f_parent _ _ Hf _ _ _ Hi Hp) as (pn & Hpn & Hin). rewrite Hpn, bool_decide_true by done.
      by rewrite Hch.
    - rewrite bool_decide_true by (apply (f_roots _ _ Hf); eauto). by rewrite Hch. }
  rewrite Hall.
  - f_equal. apply try_for_each_ok, Forall_forall. intros r (n & Hr & Hp)%(f_roots _ _ Hf).
    unfold verify_root. by rewrite Hr, Hp.
  - apply Forall_forall. intros [i n] Hin. rewrite merge_sort_Permutation in Hin.
    by apply elem_of_map_to_list in Hin.
Qed.

(** What the queries return. *)
Lemma queries_spec x i n :
  forest (nodes x) (root_ids x) -> nodes x !! i = Some n ->
  exists anc q ds, trail (nodes x) (anc ++ [i]) q i /\ get_ancestors i x = Some (Ok anc) /\
    get_descendants i x = Some (Ok ds) /\ NoDup ds /\ forall y, y ∈ ds <-> y <> i /\ below (nodes x) i y.
Proof.
  intros Hf Hi. destruct (f_trail _ _ Hf _ _ Hi) as (l & q & Ht).
  destruct (descendants_spec _ _ _ _ Hf Hi) as (ds & Hg & Hnd & Hds). apply NoDup_cons in Hnd as [Hid Hnd].
  unfold get_ancestors, get_descendants, find_by_id. rewrite Hi. cbn [ok_or]. rewrite Hg.
  assert (exists anc, l = anc ++ [i] /\
    climb_ids (nodes x) (size (nodes x)) (parent_id n) [] = Some (Ok anc)) as (anc & -> & E).
  { pose proof (trail_size _ _ _ _ Ht) as Hs. destruct (trail_inv _ _ _ _ Ht) as (n' & Hn' & Hl). simplify_eq.
    destruct (parent_id n) as [p|].
    - destruct Hl as (l' & q' & Ht' & -> & ->). exists l'. split; [done|]. rewrite length_app in Hs. cbn in Hs.
      rewrite (climb_ids_spec _ _ _ _ _ _ Ht') by lia. cbn. by rewrite app_nil_r.
    - destruct Hl as [-> ->]. exists []. split; [done|]. by destruct (size (nodes x)). }
  exists anc, q, ds. split_and!; try done. intros y. rewrite <- Hds, elem_of_cons. naive_solver.
Qed.

(** C37. Whatever insertions, deletions, moves and updates are called on a new index, and whether
    they fail: every call ends, the workspaces are a forest in which parents, children and roots
    agree, the check of the invariants finds nothing, and for every workspace the ancestors that
    are listed are its way from a root and the descendants are exactly what lies below it. *)
Theorem workspace_forest (cs : list WsCall) (Hok : Forall (call_ok (Z.of_nat (length cs))) cs) :
  exists rs w, ws_run cs ws_start = Some (rs, w) /\ length rs = length cs /\
    let x := ix w in
    forest (nodes x) (root_ids x) /\ verify_invariants x = Some (Ok tt) /\
    forall i n, nodes x !! i = Some n ->
      exists anc q ds, trail (nodes x) (anc ++ [i]) q i /\ get_ancestors i x = Some (Ok anc) /\
        get_descendants i x = Some (Ok ds) /\ NoDup ds /\ forall y, y ∈ ds <-> y <> i /\ below (nodes x) i y.
Proof.
  destruct (ws_run_spec cs ∅ [] ∅ 0 None (sound_start _) Hok)
    as (rs & m & roots & P & v & last & E & Hlen & Hf & _).
  eexists rs, _. split; [exact E|]. split; [done|]. split; [done|]. split; [by apply verify_forest|].
  intros i n Hi. by eapply queries_spec.
Qed.

(** C39. Without moves, the index finds a workspace under a path exactly when the path is the names
    on its way from a root, and no path is deeper than the maximum: after any insertions, deletions
    and updates, failed ones included. *)
Theorem workspace_paths_exact (cs : list WsCall)
  (Hok : Forall (call_ok (Z.of_nat (length cs))) cs) (Hstay : Forall (fun c => ~ is_move c) cs) :
  exists rs w, ws_run cs ws_start = Some (rs, w) /\
    (forall q i, find_by_path q (ix w) = Ok i <-> exists l, trail (nodes (ix w)) l q i) /\
    (forall l q i, trail (nodes (ix w)) l q i -> Z.of_nat (length q) <= MAX_DEPTH).
Proof.
  destruct (ws_run_spec cs ∅ [] ∅ 0 None (sound_start _) Hok)
    as (rs & m & roots & P & v & last & E & _ & _ & Hp).
  destruct (Hp Hstay paths_start) as [Hpath Hdepth].
  eexists rs, _. split; [exact E|]. split; [|exact Hdepth]. intros q i. rewrite <- Hpath.
  change (ok_or (P !! q) (PathNotFound q) = Ok i <-> P !! q = Some i).
  destruct (P !! q); cbn; split; congruence.
Qed.

(** *** The text of a path *)

Lemma split_segment cur x rest :
  slash ∉ x -> split_chars cur (x ++ rest) = split_chars (cur ++ x) rest.
Proof.
  revert cur. induction x as [|c x IH]; intros cur Hx; [by rewrite app_nil_r|].
  apply not_elem_of_cons in Hx as [Hc Hx]. cbn. rewrite decide_False by congruence.
  rewrite IH by done. by rewrite <- app_assoc.
Qed.

Lemma split_join l : l <> [] -> Forall (fun x => slash ∉ x) l -> split_chars [] (join_chars l) = l.
Proof.
  intros Hne Hl. induction Hl as [|x [|y l] Hx Hl IH]; [done|..].
  - cbn. rewrite <- (app_nil_r x) at 1. by rewrite split_segment.
  - change (join_chars (x :: y :: l)) with (x ++ slash :: join_chars (y :: l)).
    rewrite split_segment by done. cbn [split_chars app]. rewrite decide_True by done. by rewrite IH.
Qed.

Lemma parsed_name n s : WorkspaceName_parse s = Ok n -> ws_name_str n = s /\ slash ∉ chars s.
Proof.
  unfold WorkspaceName_parse. intros H. repeat case_match_in H; inv_ok; subst.
  split; [done|]. intros Hs.
  match goal with E : negb (forallb _ _) = false |- _ => apply negb_false_iff, forallb_Forall in E end.
  match goal with E : Forall _ _ |- _ => by apply (proj1 (Forall_forall _ _) E) in Hs end.
Qed.

(** A path is read back from its text. *)
Lemma path_text_roundtrip (p : WorkspacePath) :
  p <> [] -> Z.of_nat (length p) <= MAX_DEPTH ->
  Forall (fun n => WorkspaceName_parse (ws_name_str n) = Ok n) p ->
  path_of_string (path_to_string p) = Ok p.
Proof.
  intros Hne Hlen Hp. unfold path_of_string, path_to_string. rewrite chars_of_chars, split_join.
  - assert (collect_result (fun x => WorkspaceName_parse (of_chars x))
      ((fun n => chars (ws_name_str n)) <$> p) = Ok p) as ->; [|by rewrite (proj2 (path_new_ok p p))].
    clear Hne Hlen. induction Hp as [|n p Hn _ IH]; [done|]. cbn. rewrite of_chars_chars, Hn. cbn. by rewrite IH.
  - by destruct p.
  - apply Forall_fmap. eapply Forall_impl; [exact Hp|]. intros n Hn. by apply (parsed_name n).
Qed.

Module WorkspaceWitness.

Definition wn (s : string) : WorkspaceName := mkWsName s.
Definition put (ulid : Z) (p : option Z) (s : string) : WsCall := WInsert ulid p (wn s) ∅ 1000.
Definition family : list WsCall :=
  [put 1 None "r1"; put 2 None "r2"; put 3 (Some 1) "mid"; put 4 (Some 3) "leaf"].
Definition after (cs : list WsCall) : option WorkspaceIndex := (fun x => ix x.2) <$> ws_run cs ws_start.

Lemma workspace_forest_witness :
  exists rs w, ws_run (family ++ [WMove 3 (Some 2) 2000; WMove 2 (Some 4) 2000; WDelete 1]) ws_start = Some (rs, w) /\
    length rs = 7%nat /\ verify_invariants (ix w) = Some (Ok tt) /\
    get_ancestors 4 (ix w) = Some (Ok [2; 3]).
Proof.
  destruct (workspace_forest (family ++ [WMove 3 (Some 2) 2000; WMove 2 (Some 4) 2000; WDelete 1]))
    as (rs & w & E & Hlen & _ & Hv & _).
  - repeat constructor; vm_compute; done.
  - exists rs, w. split; [exact E|]. split; [exact Hlen|]. split; [exact Hv|].
    vm_compute in E. injection E as _ <-. reflexivity.
Defined.

Lemma workspace_paths_exact_witness :
  exists rs w, ws_run (family ++ [WDelete 3; put 4 (Some 1) "mid"]) ws_start = Some (rs, w) /\
    find_by_path [wn "r1"; wn "mid"] (ix w) = Ok 5 /\ exists l, trail (nodes (ix w)) l [wn "r1"; wn "mid"] 5.
Proof.
  destruct (workspace_paths_exact (family ++ [WDelete 3; put 4 (Some 1) "mid"]))
    as (rs & w & E & Hp & _).
  - repeat constructor; vm_compute; done.
  - repeat constructor; intros [].
  - exists rs, w. split; [exact E|].
    assert (find_by_path [wn "r1"; wn "mid"] (ix w) = Ok 5) as Hq.
    { vm_compute in E. injection E as _ <-. reflexivity. }
    split; [exact Hq|]. exact (proj1 (Hp _ _) Hq).
Defined.

(** A moved workspace is still found under its old path, and its new path finds its descendant. *)
Example move_breaks_paths :
  (fun x => (find_by_path [wn "r1"; wn "mid"] x, find_by_path [wn "r2"; wn "mid"] x,
             find_by_path [wn "r2"; wn "mid"; wn "leaf"] x)) <$> after (family ++ [WMove 3 (Some 2) 2000])
  = Some (Ok 3, Ok 4, Err (PathNotFound [wn "r2"; wn "mid"; wn "leaf"])).
Proof. by vm_compute. Qed.

(** The path that a move leaves behind stays taken. *)
Example moved_path_taken :
  (fun x => x.1 !! 6%nat) <$> ws_run (family ++ [WMove 4 None 2000; WDelete 4; put 5 (Some 3) "leaf"]) ws_start
  = Some (Some (Err (DuplicatePath [wn "r1"; wn "mid"; wn "leaf"]))).
Proof. by vm_compute. Qed.

(** A move to the top does not check the names there: the other root loses its path. *)
Example move_hides_root :
  (fun x => (find_by_path [wn "r2"] x, length (root_ids x)))
  <$> after (family ++ [put 5 (Some 1) "r2"; WMove 5 None 2000])
  = Some (Ok 5, 3%nat).
Proof. by vm_compute. Qed.

(** A chain of workspaces as deep as allowed, and two below another root. *)
Definition deep : list WsCall :=
  put 1 None "a" :: ((fun k => put k (Some (k - 1)) "a") <$> [2; 3; 4; 5; 6; 7; 8; 9; 10; 11; 12; 13; 14; 15; 16]) ++
  [put 17 None "b"; put 18 (Some 17) "c"].

(** A move that fails because the path would be too deep has moved the workspace all the same. *)
Example failed_move_stays :
  (fun x => (x.1 !! 18%nat, parent_id <$> (nodes (ix x.2) !! 17), version (ix x.2)))
  <$> ws_run (deep ++ [WMove 17 (Some 16) 2000]) ws_start
  = Some (Some (Err (PathTooDeep 16 17)), Some (Some 16), 18).
Proof. by vm_compute. Qed.

End WorkspaceWitness.
