(* ===== verification/Sdk.v ===== *)
(** * Building workflows

    [crates/vo-sdk/src/dag.rs] and [graph.rs]: the builder of workflow graphs, with its searches
    for cycles, and the specification it emits, with the checks that are made before it is emitted
    and when it is read. Types of node functions, JSON and printing are left out. *)

From S2P Require Import Prelude Identifiers Workflow.

(** ** Graphs over indices *)

Abbreviation Links := (list (nat * nat)).
Definition link (es : Links) (x y : nat) : Prop := (x, y) ∈ es.
Definition loop_free (es : Links) : Prop := forall x, ~ tc (link es) x x.
Definition in_range (n : nat) (es : Links) : Prop := forall x y, (x, y) ∈ es -> (x < n)%nat /\ (y < n)%nat.

(** *** The search by colours

    [find_cycle_nodes], [has_cycle] and [validate] of [Dag], and [validate] and [detect_cycle] of
    [WorkflowSpec], are this search: colours 0, 1 and 2, a stack of the nodes in progress, and for
    a link to a node in progress a report made from the stack, after which the search stops; they
    differ in the report. [has_cycle] keeps no stack. *)
Section Search.
Context {R : Type} (adj : nat -> list nat) (report : list nat -> nat -> option R).

Fixpoint dfs (fuel : nat) (node : nat) (st : list Z * list nat) : option (option R * (list Z * list nat)) :=
  match fuel with
  | O => None
  | S fuel =>
      match find_map_st (fun neighbor (st : list Z * list nat) =>
              if decide (st.1 !! neighbor = Some 1) then Some (report st.2 neighbor, st)
              else if decide (st.1 !! neighbor = Some 0) then dfs fuel neighbor st
              else Some (None, st))
            (adj node) (<[node := 1]> st.1, st.2 ++ [node]) with
      | None => None
      | Some (Some r, st) => Some (Some r, st)
      | Some (None, st) => Some (None, (<[node := 2]> st.1, removelast st.2))
      end
  end.

(** The loop over all nodes; the depth is bounded by their number. *)
Definition search (n : nat) : option (option R) :=
  fst <$> find_map_st (fun i (st : list Z * list nat) =>
            if decide (st.1 !! i = Some 0) then dfs (S n) i st else Some (None, st))
          (seq 0 n) (replicate n 0, []).

(** What a search that stops has found. *)
Definition found (es : Links) (r : R) : Prop :=
  exists stack neighbor last, report (stack ++ [last]) neighbor = Some r /\ NoDup (stack ++ [last]) /\
    neighbor ∈ stack ++ [last] /\ link es last neighbor /\
    forall l1 x y l2, stack ++ [last] = l1 ++ x :: y :: l2 -> link es x y.
End Search.

(** *** Topological sorting by degrees

    [Dag::build] and [WorkflowSpec::deserialize]: the degrees are of 32 bits. *)
Definition in_degrees (n : nat) (es : Links) : list Z :=
  foldl (fun deg (e : nat * nat) => <[e.2 := wrapping_add_u32 (default 0 (deg !! e.2)) 1]> deg) (replicate n 0) es.
Fixpoint relax (node : nat) (es : Links) (deg : list Z) (queue : list nat) : list Z * list nat :=
  match es with
  | [] => (deg, queue)
  | (from, to) :: es =>
      if decide (from = node) then
        let d := as_u32 (default 0 (deg !! to) - 1) in
        relax node es (<[to := d]> deg) (if d =? 0 then queue ++ [to] else queue)
      else relax node es deg queue
  end.
Fixpoint kahn_loop (fuel : nat) (es : Links) (deg : list Z) (queue : list nat) (visited : nat) : option nat :=
  match queue, fuel with
  | [], _ => Some visited
  | _ :: _, O => None
  | node :: queue, S fuel =>
      let (deg, queue) := relax node es deg queue in kahn_loop fuel es deg queue (S visited)
  end.
Definition kahn (n : nat) (es : Links) : option nat :=
  let deg := in_degrees n es in
  kahn_loop n es deg (base.filter (fun i => deg !! i = Some 0) (seq 0 n)) 0.

(** *** Its correctness *)

(** The links into [v], from nodes that are not in [D]. *)
Definition pending_in (es : Links) (D : list nat) (v : nat) : Z :=
  Z.of_nat (length (base.filter (fun e => e.2 = v /\ e.1 ∉ D) es)).

Record kahn_inv (n : nat) (es : Links) (D Q : list nat) (deg : list Z) : Prop := {
  ki_length : length deg = n;
  ki_once : NoDup (D ++ Q);
  ki_deg : forall v, (v < n)%nat -> deg !! v = Some (pending_in es D v);
  ki_queue : forall v, v ∈ D ++ Q <-> (v < n)%nat /\ pending_in es D v = 0;
  ki_order : respects (flip (link es)) D;
}.

Definition count_in (es : Links) (v : nat) : Z := Z.of_nat (length (base.filter (fun e => e.2 = v) es)).
Lemma count_in_cons e es v : count_in (e :: es) v = (if decide (e.2 = v) then 1 else 0) + count_in es v.
Proof. unfold count_in. rewrite filter_cons. case_decide; cbn; lia. Qed.
Lemma count_in_length es v : 0 <= count_in es v <= Z.of_nat (length es).
Proof. unfold count_in. pose proof (length_filter (fun e : nat * nat => e.2 = v) es). lia. Qed.

Lemma add_degrees n es : forall deg,
  in_range n es -> length deg = n ->
  (forall v, (v < n)%nat -> exists d, deg !! v = Some d /\ 0 <= d /\ d + Z.of_nat (length es) <= u32_max) ->
  let deg' := foldl (fun deg (e : nat * nat) => <[e.2 := wrapping_add_u32 (default 0 (deg !! e.2)) 1]> deg) deg es in
  length deg' = n /\
  forall v d, (v < n)%nat -> deg !! v = Some d -> deg' !! v = Some (d + count_in es v).
Proof.
  induction es as [|[x y] es IH]; intros deg Hr Hlen Hd; cbn [foldl].
  { split; [done|]. intros v d _ Hv. unfold count_in. cbn. by rewrite Z.add_0_r. }
  destruct (Hr x y) as [_ Hy]; [by left|]. destruct (Hd y Hy) as (dy & Ey & Hy0 & Hy1). cbn [length] in *.
  cbn [snd]. rewrite Ey. change (default 0 (Some dy)) with dy.
  assert (wrapping_add_u32 dy 1 = dy + 1) as -> by (unfold wrapping_add_u32, as_u32; apply Z.mod_small; lia).
  destruct (IH (<[y := dy + 1]> deg)) as [IHl IHv].
  - intros a b Hab. apply Hr. by right.
  - by rewrite length_insert.
  - intros v Hv. destruct (decide (v = y)) as [->|Hne].
    + exists (dy + 1). split; [apply list_lookup_insert_eq; lia|lia].
    + rewrite list_lookup_insert_ne by done. destruct (Hd v Hv) as (d & ? & ? & ?). exists d. split; [done|lia].
  - split; [done|]. intros v d Hv Ev. rewrite count_in_cons. cbn [snd]. destruct (decide (y = v)) as [->|Hne].
    + assert (d = dy) as -> by congruence. rewrite (IHv v (dy + 1)); [f_equal; lia|done|apply list_lookup_insert_eq; lia].
    + rewrite (IHv v d); [f_equal; lia|done|by rewrite list_lookup_insert_ne].
Qed.

Lemma in_degrees_spec n es :
  in_range n es -> Z.of_nat (length es) <= u32_max ->
  length (in_degrees n es) = n /\
  forall v, (v < n)%nat -> in_degrees n es !! v = Some (pending_in es [] v).
Proof.
  intros Hr Hlen. destruct (add_degrees n es (replicate n 0) Hr (length_replicate _ _)) as [Hl Hv].
  { intros v Hv. exists 0. split; [by apply lookup_replicate_2|lia]. }
  split; [exact Hl|]. intros v Hn. unfold in_degrees. rewrite (Hv v 0); [|done|by apply lookup_replicate_2].
  unfold count_in, pending_in. rewrite Z.add_0_l. do 3 f_equal. apply list_filter_iff. intros e. split; [|by intros []].
  intros ->. split; [done|apply not_elem_of_nil].
Qed.

(** A node leaves the queue: [base] counts the links from nodes that have not left it. *)
Lemma relax_spec n node es : forall (base : nat -> Z) D deg Q,
  in_range n es -> length deg = n -> (forall v, 0 <= base v <= u32_max - Z.of_nat (length es)) ->
  let from_node := base.filter (fun e => e.1 = node) in
  (forall v, (v < n)%nat -> deg !! v = Some (base v + count_in (from_node es) v)) ->
  NoDup (D ++ Q) ->
  (forall v, v ∈ D ++ Q <-> (v < n)%nat /\ base v + count_in (from_node es) v = 0) ->
  let '(deg', Q') := relax node es deg Q in
  length deg' = n /\ NoDup (D ++ Q') /\
  (forall v, (v < n)%nat -> deg' !! v = Some (base v)) /\
  (forall v, v ∈ D ++ Q' <-> (v < n)%nat /\ base v = 0).
Proof.
  induction es as [|[x y] es IH]; intros base D deg Q Hr Hlen Hb from_node Hdeg Hnd Hq; cbn [relax].
  { unfold from_node, count_in in *. cbn in *. split_and!; [done|done|..].
    - intros v Hv. rewrite (Hdeg v Hv). f_equal. lia.
    - intros v. rewrite Hq. split; intros [? ?]; (split; [done|lia]). }
  assert (in_range n es) as Hr' by (intros a b Hab; apply Hr; by right).
  assert (forall v, 0 <= base v <= u32_max - Z.of_nat (length es)) as Hb'.
  { intros v. specialize (Hb v). cbn [length] in Hb. lia. }
  case_decide as Hx; cycle 1.
  { apply IH; try done; unfold from_node in *; rewrite filter_cons_False in * by done; done. }
  subst x. destruct (Hr node y) as [_ Hy]; [by left|].
  assert (from_node ((node, y) :: es) = (node, y) :: from_node es) as Hfn.
  { unfold from_node. by rewrite filter_cons_True. }
  pose proof (count_in_length (from_node es) y) as Hc.
  assert (Z.of_nat (length (from_node es)) <= Z.of_nat (length es)) as Hle.
  { unfold from_node. pose proof (length_filter (fun e : nat * nat => e.1 = node) es). lia. }
  rewrite Hfn in *.
  assert (as_u32 (default 0 (deg !! y) - 1) = base y + count_in (from_node es) y) as ->.
  { replace (default 0 (deg !! y)) with (base y + count_in ((node, y) :: from_node es) y)
      by (by rewrite (Hdeg y Hy)). rewrite count_in_cons, decide_True by done. specialize (Hb' y).
    unfold as_u32. rewrite Z.mod_small; lia. }
  set (d := base y + count_in (from_node es) y).
  assert (forall v, v <> y -> count_in ((node, y) :: from_node es) v = count_in (from_node es) v) as Hne.
  { intros v Hv. rewrite count_in_cons, decide_False; [lia|]. cbn. congruence. }
  assert (y ∉ D ++ Q) as Hyq.
  { rewrite Hq. intros [_ H0]. rewrite count_in_cons, decide_True in H0 by done. specialize (Hb' y). lia. }
  apply IH; [done|by rewrite length_insert|done|..].
  - intros v Hv. destruct (decide (v = y)) as [->|Hvy]; [apply list_lookup_insert_eq; lia|].
    rewrite list_lookup_insert_ne by done. rewrite (Hdeg v Hv). by rewrite Hne.
  - destruct (Z.eqb_spec d 0); [|done]. rewrite app_assoc. apply NoDup_app. split; [done|].
    split; [|apply NoDup_singleton]. by intros v Hv ->%list_elem_of_singleton.
  - intros v. destruct (decide (v = y)) as [->|Hvy].
    + fold d. destruct (Z.eqb_spec d 0) as [Hd|Hd].
      * rewrite app_assoc, elem_of_app, list_elem_of_singleton. naive_solver.
      * naive_solver.
    + pose proof (Hne v Hvy) as Ev. unfold from_node in *. rewrite <- Ev, <- Hq. destruct (d =? 0); [|done].
      rewrite app_assoc, elem_of_app, list_elem_of_singleton. naive_solver.
Qed.

Lemma pending_in_snoc es D node v :
  node ∉ D ->
  pending_in es D v = pending_in es (D ++ [node]) v + count_in (base.filter (fun e => e.1 = node) es) v.
Proof.
  intros Hn. induction es as [|[x y] es IH]; [done|]. unfold pending_in in *. rewrite !filter_cons. cbn [fst snd].
  destruct (decide (x = node)) as [->|Hx].
  - rewrite count_in_cons. cbn [snd].
    rewrite (decide_False (P := y = v /\ node ∉ D ++ [node])) by (rewrite elem_of_app, list_elem_of_singleton; tauto).
    destruct (decide (y = v)) as [->|Hy].
    + rewrite decide_True by done. cbn [length]. lia.
    + rewrite decide_False by tauto. lia.
  - assert (y = v /\ x ∉ D <-> y = v /\ x ∉ D ++ [node]) as Hiff.
    { rewrite elem_of_app, list_elem_of_singleton. tauto. }
    destruct (decide (y = v /\ x ∉ D)) as [H|H].
    + rewrite decide_True by tauto. cbn [length]. lia.
    + rewrite decide_False by tauto. lia.
Qed.

Lemma pending_in_none es D v : pending_in es D v = 0 <-> forall x, link es x v -> x ∈ D.
Proof.
  unfold pending_in, link. split.
  - intros H x Hx. destruct (decide (x ∈ D)) as [|Hn]; [done|].
    assert ((x, v) ∈ base.filter (fun e => e.2 = v /\ e.1 ∉ D) es) as Hin by (apply list_elem_of_filter; auto).
    destruct (base.filter _ es); [by apply elem_of_nil in Hin|cbn in H; lia].
  - intros H. destruct (base.filter _ es) as [|[x y] l] eqn:E; [done|].
    assert ((x, y) ∈ base.filter (fun e => e.2 = v /\ e.1 ∉ D) es) as [[Hy Hx] Hin]%list_elem_of_filter
      by (rewrite E; by left). cbn in *. subst. by apply H in Hin.
Qed.

Lemma pending_in_bound es D v : 0 <= pending_in es D v <= Z.of_nat (length es).
Proof. unfold pending_in. pose proof (length_filter (fun e : nat * nat => e.2 = v /\ e.1 ∉ D) es). lia. Qed.

Lemma kahn_step n es D node Q deg :
  in_range n es -> 2 * Z.of_nat (length es) <= u32_max -> kahn_inv n es D (node :: Q) deg ->
  let '(deg', Q') := relax node es deg Q in kahn_inv n es (D ++ [node]) Q' deg'.
Proof.
  intros Hr Hlen [Hl Hnd Hdeg Hq Hord].
  assert (node ∉ D) as Hn.
  { apply NoDup_app in Hnd as (_ & Hd & _). intros Hin. apply (Hd node Hin). by left. }
  destruct (proj1 (Hq node)) as [Hnn Hn0]; [apply elem_of_app; right; by left|].
  pose proof (relax_spec n node es (pending_in es (D ++ [node])) (D ++ [node]) deg Q Hr Hl) as H.
  destruct (relax node es deg Q) as [deg' Q']. destruct H as (Hl' & Hnd' & Hdeg' & Hq').
  - intros v. pose proof (pending_in_bound es (D ++ [node]) v). lia.
  - intros v Hv. rewrite Hdeg by done. by rewrite (pending_in_snoc es D node).
  - by rewrite <- app_assoc.
  - intros v. rewrite <- app_assoc. cbn. rewrite Hq. by rewrite (pending_in_snoc es D node).
  - split; try done. apply respects_snoc; [done|]. intros d Hd. by apply (proj1 (pending_in_none es D node)).
Qed.

Lemma kahn_loop_spec n es : forall fuel D Q deg,
  in_range n es -> 2 * Z.of_nat (length es) <= u32_max -> kahn_inv n es D Q deg -> (n <= length D + fuel)%nat ->
  exists D' deg', kahn_loop fuel es deg Q (length D) = Some (length D') /\ kahn_inv n es D' [] deg'.
Proof.
  induction fuel as [|fuel IH]; intros D [|node Q] deg Hr Hlen Hi Hf; cbn [kahn_loop]; try (by exists D, deg).
  - exfalso. destruct Hi as [_ Hnd _ Hq _].
    assert (length (D ++ node :: Q) <= length (seq 0 n))%nat as Hle.
    { apply submseteq_length, NoDup_submseteq; [done|]. intros v Hv%Hq. apply elem_of_seq. lia. }
    rewrite length_app, length_seq in Hle. cbn in Hle. lia.
  - pose proof (kahn_step n es D node Q deg Hr Hlen Hi) as Hs. destruct (relax node es deg Q) as [deg' Q'].
    replace (S (length D)) with (length (D ++ [node])) by (rewrite length_app; cbn; lia).
    apply IH; try done. rewrite length_app. cbn. lia.
Qed.

(** All nodes are visited exactly when there is no cycle. *)
Lemma kahn_spec n es :
  in_range n es -> 2 * Z.of_nat (length es) <= u32_max ->
  exists visited, kahn n es = Some visited /\ (visited = n <-> loop_free es).
Proof.
  intros Hr Hlen. destruct (in_degrees_spec n es Hr) as [Hl Hdeg]; [lia|]. unfold kahn.
  set (Q := base.filter _ (seq 0 n)).
  destruct (kahn_loop_spec n es n [] Q (in_degrees n es)) as (D & deg & E & Hi); [done|done| |cbn; lia|].
  { split; [done| |done| |apply respects_nil]; cbn.
    - apply NoDup_filter, NoDup_seq.
    - intros v. unfold Q. rewrite list_elem_of_filter, elem_of_seq. split.
      + intros [Hv ?]. rewrite Hdeg in Hv by lia. split; [lia|congruence].
      + intros [? Hv]. split; [|lia]. rewrite Hdeg by lia. by rewrite Hv. }
  exists (length D). split; [exact E|]. destruct Hi as [_ Hnd _ Hq Hord]. rewrite app_nil_r in *. split.
  - intros Hn x Hx.
    assert (x ∈ D) as Hin; [|by apply (respects_acyclic _ _ _ Hord Hin), tc_flip].
    assert (D ≡ₚ seq 0 n) as ->.
    { apply submseteq_length_Permutation; [apply NoDup_submseteq; [done|]|rewrite length_seq; lia].
      intros v Hv%Hq. apply elem_of_seq. lia. }
    apply elem_of_seq. assert (exists y, link es x y) as [y Hy] by (inversion Hx; eauto).
    destruct (Hr x y Hy). lia.
  - intros Hac. apply Nat.le_antisymm.
    + rewrite <- (length_seq n 0). apply submseteq_length, NoDup_submseteq; [done|].
      intros v Hv%Hq. apply elem_of_seq. lia.
    + rewrite <- (length_seq n 0) at 1. apply submseteq_length, NoDup_submseteq; [apply NoDup_seq|].
      intros v Hv%elem_of_seq. destruct (decide (v ∈ D)) as [|Hn]; [done|exfalso].
      destruct (no_sink_cycle (flip (link es)) (base.filter (fun x => x ∉ D) (seq 0 n)) v) as (y & _ & _ & Hy).
      * apply list_elem_of_filter. split; [done|apply elem_of_seq; lia].
      * intros y [Hyn Hy%elem_of_seq]%list_elem_of_filter.
        assert (pending_in es D y <> 0) as Hp by (intros H0; apply Hyn, Hq; split; [lia|done]).
        assert (exists x, link es x y /\ x ∉ D) as (x & Hx & Hxn).
        { unfold pending_in in Hp. destruct (base.filter _ es) as [|[x y'] l] eqn:Ef; [done|].
          assert ((x, y') ∈ base.filter (fun e => e.2 = y /\ e.1 ∉ D) es) as [[Hy' Hx] Hin]%list_elem_of_filter
            by (rewrite Ef; by left). cbn in *. subst. by exists x. }
        exists x. split; [|done]. apply list_elem_of_filter. split; [done|]. apply elem_of_seq.
        destruct (Hr x y Hx). lia.
      * by apply (Hac y), tc_flip.
Qed.

(** *** Correctness of the search *)

Definition whites (cs : list Z) : nat := length (base.filter (fun c => c = 0) cs).
Lemma whites_insert (cs : list Z) (i : nat) (a b : Z) :
  cs !! i = Some a ->
  (whites (<[i := b]> cs) + (if decide (a = 0%Z) then 1 else 0)
   = whites cs + (if decide (b = 0%Z) then 1 else 0))%nat.
Proof.
  unfold whites. revert i. induction cs as [|c cs IH]; intros [|i] Hi; cbn in Hi; simplify_eq/=.
  - rewrite !filter_cons. repeat case_decide; cbn; lia.
  - rewrite !filter_cons. specialize (IH i Hi).
    destruct (decide (a = 0)), (decide (b = 0)), (decide (c = 0)); cbn [length] in *; lia.
Qed.

Section SearchCorrect.
Context {R : Type} (adj : nat -> list nat) (report : list nat -> nat -> option R) (n : nat) (es : Links).
Context (Hadj : forall x y, (x < n)%nat -> y ∈ adj x <-> link es x y).
Context (Hrange : in_range n es).
Context (Hreport : forall stack neighbor, neighbor ∈ stack -> is_Some (report stack neighbor)).

Record dfs_state (cs : list Z) (st : list nat) : Prop := {
  dc_length : length cs = n;
  dc_once : NoDup st;
  dc_grey : forall x, x ∈ st <-> cs !! x = Some 1;
  dc_chain : forall l1 x y l2, st = l1 ++ x :: y :: l2 -> link es x y;
  dc_black : forall x y, cs !! x = Some 2 -> link es x y -> cs !! y = Some 2;
  dc_free : forall x, cs !! x = Some 2 -> ~ tc (link es) x x;
  dc_colour : forall x c, cs !! x = Some c -> c = 0 \/ c = 1 \/ c = 2;
}.

Definition further (cs cs' : list Z) : Prop :=
  (forall x, cs !! x = Some 2 -> cs' !! x = Some 2) /\ (whites cs' <= whites cs)%nat.
Lemma further_trans cs1 cs2 cs3 : further cs1 cs2 -> further cs2 cs3 -> further cs1 cs3.
Proof. intros [H1 H2] [H3 H4]. split; [auto|lia]. Qed.

Definition searched (cs : list Z) (st xs : list nat) (res : option (option R * (list Z * list nat))) : Prop :=
  match res with
  | None => False
  | Some (Some r, _) => found report es r
  | Some (None, (cs', st')) =>
      st' = st /\ dfs_state cs' st /\ further cs cs' /\ forall x, x ∈ xs -> cs' !! x = Some 2
  end.

Lemma searched_all f xs cs st :
  (forall x cs', x ∈ xs -> dfs_state cs' st -> further cs cs' -> searched cs' st [x] (f x (cs', st))) ->
  dfs_state cs st -> searched cs st xs (find_map_st f xs (cs, st)).
Proof.
  revert cs. induction xs as [|x xs IH]; intros cs Hf Hs; cbn [find_map_st].
  { cbn. split_and!; [done|done|by split|by intros x ?%elem_of_nil]. }
  pose proof (Hf x cs ltac:(by left) Hs ltac:(by split)) as Hx.
  destruct (f x (cs, st)) as [[[r|] [cs1 st1]]|]; [done| |done]. destruct Hx as (-> & Hs1 & Hext & Hb).
  assert (searched cs1 st xs (find_map_st f xs (cs1, st))) as Hrest.
  { apply IH; [|done]. intros y cs' Hy Hs' Hext'. apply Hf; [by right|done|by eapply further_trans]. }
  destruct (find_map_st f xs (cs1, st)) as [[[r|] [cs2 st2]]|]; [done| |done].
  destruct Hrest as (-> & Hs2 & Hext2 & Hb2). cbn. split_and!; [done|done|by eapply further_trans|].
  intros y [->|Hy]%elem_of_cons; [apply Hext2, Hb; by left|by apply Hb2].
Qed.

Lemma dfs_enter cs st node :
  dfs_state cs st -> cs !! node = Some 0 -> (forall l x, st = l ++ [x] -> link es x node) ->
  dfs_state (<[node := 1]> cs) (st ++ [node]) /\ S (whites (<[node := 1]> cs)) = whites cs.
Proof.
  intros [Hl Hnd Hg Hc Hb Hf Hcol] Hn Hlast.
  assert (node < length cs)%nat as Hlt by (by eapply lookup_lt_Some).
  assert (forall x, (<[node := 1]> cs) !! x = Some 2 <-> cs !! x = Some 2) as H2.
  { intros x. destruct (decide (x = node)) as [->|Hx].
    - rewrite list_lookup_insert_eq by done. split; congruence.
    - by rewrite list_lookup_insert_ne. }
  split; [split|].
  - by rewrite length_insert.
  - apply NoDup_app. split; [done|]. split; [|apply NoDup_singleton].
    intros x Hx ->%list_elem_of_singleton. apply Hg in Hx. congruence.
  - intros x. rewrite elem_of_app, list_elem_of_singleton, Hg. destruct (decide (x = node)) as [->|Hx].
    + rewrite list_lookup_insert_eq by done. naive_solver.
    + rewrite list_lookup_insert_ne by done. naive_solver.
  - intros l1 x y l2 E. destruct l2 as [|z l2 _] using rev_ind.
    + change (st ++ [node] = l1 ++ [x] ++ [y]) in E. rewrite app_assoc in E.
      apply app_inj_tail in E as [-> ->]. by eapply Hlast.
    + rewrite !app_comm_cons, app_assoc in E. apply app_inj_tail in E as [-> _]. by eapply Hc.
  - intros x y. rewrite !H2. apply Hb.
  - intros x. rewrite H2. apply Hf.
  - intros x c. destruct (decide (x = node)) as [->|Hx].
    + rewrite list_lookup_insert_eq by done. intros [= <-]. auto.
    + rewrite list_lookup_insert_ne by done. apply Hcol.
  - pose proof (whites_insert cs node 0 1 Hn) as Hw. rewrite decide_True, decide_False in Hw by done. lia.
Qed.

Lemma dfs_leave cs st node :
  dfs_state cs (st ++ [node]) -> (forall y, link es node y -> cs !! y = Some 2) ->
  dfs_state (<[node := 2]> cs) st /\ further cs (<[node := 2]> cs) /\ (<[node := 2]> cs) !! node = Some 2.
Proof.
  intros [Hl Hnd Hg Hc Hb Hf Hcol] Hadjb.
  assert (cs !! node = Some 1) as Hn by (apply Hg, elem_of_app; right; by left).
  assert (node < length cs)%nat as Hlt by (by eapply lookup_lt_Some).
  assert ((<[node := 2]> cs) !! node = Some 2) as Hself by (by apply list_lookup_insert_eq).
  assert (forall x, (<[node := 2]> cs) !! x = Some 2 <-> x = node \/ cs !! x = Some 2) as H2.
  { intros x. destruct (decide (x = node)) as [->|Hx]; [naive_solver|].
    rewrite list_lookup_insert_ne by done. naive_solver. }
  assert (forall y z, cs !! y = Some 2 -> rtc (link es) y z -> cs !! z = Some 2) as Hreach.
  { intros y z Hy Hz. induction Hz as [|y w z Hyw _ IH]; [done|]. apply IH. by eapply Hb. }
  apply NoDup_app in Hnd as (Hnd & Hd & _).
  split; [split|split; [split|done]].
  - by rewrite length_insert.
  - done.
  - intros x. destruct (decide (x = node)) as [->|Hx].
    + rewrite Hself. split; [|done]. intros Hin. exfalso. apply (Hd node Hin). by left.
    + rewrite list_lookup_insert_ne, <- Hg, elem_of_app, list_elem_of_singleton by done. naive_solver.
  - intros l1 x y l2 E. apply (Hc l1 x y (l2 ++ [node])). rewrite E. by rewrite <- app_assoc.
  - intros x y. rewrite !H2. intros [->|Hx] Hxy; [right; by apply Hadjb|right; by eapply Hb].
  - intros x. rewrite H2. intros [->|Hx]; [|by apply Hf]. intros Ht.
    assert (exists y, link es node y /\ rtc (link es) y node) as (y & Hy & Hyn).
    { inversion Ht as [? ? H1|? y ? H1 H3]; subst; [by exists node|]. exists y. split; [done|by apply tc_rtc]. }
    pose proof (Hreach _ _ (Hadjb y Hy) Hyn). congruence.
  - intros x c. destruct (decide (x = node)) as [->|Hx].
    + rewrite Hself. intros [= <-]. auto.
    + rewrite list_lookup_insert_ne by done. apply Hcol.
  - intros x Hx. apply H2. by right.
  - pose proof (whites_insert cs node 1 2 Hn) as Hw. rewrite !decide_False in Hw by done. lia.
Qed.

Lemma dfs_searched fuel : forall node cs st,
  dfs_state cs st -> cs !! node = Some 0 -> (forall l x, st = l ++ [x] -> link es x node) ->
  (whites cs <= fuel)%nat -> searched cs st [node] (dfs adj report fuel node (cs, st)).
Proof.
  induction fuel as [|fuel IH]; intros node cs st Hs Hn Hlast Hf;
    destruct (dfs_enter cs st node Hs Hn Hlast) as [Hs1 Hw]; [lia|].
  cbn [dfs fst snd].
  assert (node < n)%nat as Hlt by (rewrite <- (dc_length _ _ Hs); by eapply lookup_lt_Some).
  set (visit := fun neighbor (st : list Z * list nat) => _).
  assert (searched (<[node := 1]> cs) (st ++ [node]) (adj node)
    (find_map_st visit (adj node) (<[node := 1]> cs, st ++ [node]))) as H.
  { apply searched_all; [|done]. intros y cs' Hy Hs' [Hb' Hw']. unfold visit. cbn [fst snd].
    apply Hadj in Hy; [|done]. destruct (Hrange _ _ Hy) as [_ Hyn].
    rewrite <- (dc_length _ _ Hs') in Hyn. apply lookup_lt_is_Some in Hyn as [c Hc].
    rewrite Hc. destruct (dc_colour _ _ Hs' _ _ Hc) as [->|[->| ->]].
    - rewrite decide_False, decide_True by done. apply IH; [done|done| |lia].
      intros l x [_ ->]%app_inj_tail. done.
    - rewrite decide_True by done. pose proof (proj2 (dc_grey _ _ Hs' y) Hc) as Hin.
      destruct (Hreport _ _ Hin) as [r Er]. rewrite Er. cbn. exists st, y, node.
      split_and!; [done|by eapply dc_once|done|done|by eapply dc_chain].
    - rewrite !decide_False by done. cbn. split_and!; [done|done|by split|].
      by intros x ->%list_elem_of_singleton. }
  destruct (find_map_st visit _ _) as [[[r|] [cs2 st2]]|]; [done| |done].
  destruct H as (-> & Hs2 & Hext & Hblack).
  destruct (dfs_leave cs2 st node Hs2) as (Hs3 & Hext3 & Hself).
  { intros y Hy. apply Hblack. by apply Hadj. }
  cbn. rewrite removelast_last. split_and!; [done|done| |by intros x ->%list_elem_of_singleton].
  eapply further_trans; [|done]. split; [|destruct Hext; lia]. intros x Hx. apply Hext.
  rewrite list_lookup_insert_ne; [done|]. congruence.
Qed.

(** The search ends; what it reports lies on a cycle, and it reports nothing exactly when there is
    none. *)
Lemma search_spec :
  match search adj report n with
  | None => False
  | Some (Some r) => found report es r
  | Some None => loop_free es
  end.
Proof.
  unfold search.
  assert (dfs_state (replicate n 0) []) as Hs0.
  { assert (forall x c, replicate n 0 !! x = Some c -> c = 0) as Hc by (intros x c [-> _]%lookup_replicate; done).
    split; [apply length_replicate|constructor| | | | |].
    - intros x. split; [by intros ?%elem_of_nil|]. by intros ?%Hc.
    - intros [|a l1] x y l2 E; done.
    - by intros x y ?%Hc.
    - by intros x ?%Hc.
    - intros x c ->%Hc. auto. }
  set (visit := fun i (st : list Z * list nat) => _).
  assert (searched (replicate n 0) [] (seq 0 n) (find_map_st visit (seq 0 n) (replicate n 0, []))) as H.
  { apply searched_all; [|done]. intros x cs Hx%elem_of_seq Hs [Hb Hw]. unfold visit. cbn [fst snd].
    assert (x < length cs)%nat as Hlt by (rewrite (dc_length _ _ Hs); lia).
    apply lookup_lt_is_Some in Hlt as [c Hc]. rewrite Hc.
    destruct (dc_colour _ _ Hs _ _ Hc) as [->|[->| ->]].
    - rewrite decide_True by done. apply dfs_searched; [done|done|by intros [|? ?] ?|].
      assert (whites cs <= length cs)%nat by apply length_filter. rewrite (dc_length _ _ Hs) in *. lia.
    - apply (dc_grey _ _ Hs) in Hc. by apply elem_of_nil in Hc.
    - rewrite decide_False by done. cbn. split_and!; [done|done|by split|].
      by intros y ->%list_elem_of_singleton. }
  destruct (find_map_st visit _ _) as [[[r|] [cs st]]|]; cbn; [done| |done].
  destruct H as (-> & Hs & _ & Hall). intros x Ht.
  assert (exists y, link es x y) as [y Hy] by (inversion Ht; eauto).
  destruct (Hrange _ _ Hy) as [Hx _]. apply (dc_free _ _ Hs x); [|done]. apply Hall, elem_of_seq. lia.
Qed.
End SearchCorrect.

(** *** Reports *)

(** The end of the stack from the node on, as [find_cycle_nodes] and [detect_cycle] take it;
    [Dag::validate] closes it; [WorkflowSpec::validate] stops in any case; [has_cycle] only stops. *)
Definition stack_from (stack : list nat) (x : nat) : option (list nat) :=
  (fun found : nat * nat => drop found.1 stack) <$> list_find (fun y => y = x) stack.
Definition closed_from (stack : list nat) (x : nat) : option (list nat) := (fun c => c ++ [x]) <$> stack_from stack x.
Definition stack_or_nil (stack : list nat) (x : nat) : option (list nat) := Some (default [] (stack_from stack x)).
Definition just_found (stack : list nat) (x : nat) : option unit := Some tt.

(** The nodes a node links to, in the order of the links. *)
Definition successors (es : Links) (x : nat) : list nat := snd <$> base.filter (fun e => e.1 = x) es.

Lemma successors_spec es x y : y ∈ successors es x <-> link es x y.
Proof.
  unfold successors, link. rewrite list_elem_of_fmap. split.
  - intros ([a b] & -> & [<- Hin]%list_elem_of_filter). done.
  - intros Hin. exists (x, y). split; [done|]. by apply list_elem_of_filter.
Qed.

Lemma stack_from_Some stack x :
  x ∈ stack -> exists l1 l2, stack = l1 ++ x :: l2 /\ stack_from stack x = Some (x :: l2).
Proof.
  intros Hx. unfold stack_from. destruct (list_find (fun y => y = x) stack) as [[i y]|] eqn:E.
  - apply list_find_Some in E as (Hi & -> & _). exists (take i stack), (drop (S i) stack).
    split; [by rewrite <- (drop_S _ _ _ Hi), take_drop|]. cbn. by rewrite (drop_S _ _ _ Hi).
  - apply list_find_None in E. by apply (proj1 (Forall_forall _ _) E) in Hx.
Qed.

(** What a search finds is a cycle. *)
Lemma chain_walk es x l : (forall l1 a b l2, x :: l = l1 ++ a :: b :: l2 -> link es a b) -> walk (link es) x l.
Proof.
  revert x. induction l as [|y l IH]; intros x H; [done|]. split; [by apply (H [] x y l)|].
  apply IH. intros l1 a b l2 E. apply (H (x :: l1) a b l2). by rewrite E.
Qed.

Definition cycle_of (es : Links) (c : list nat) : Prop :=
  exists x l, c = x :: l /\ NoDup c /\ is_cycle (link es) (c ++ [x]).

Lemma stack_cycle es stack last x :
  NoDup (stack ++ [last]) -> x ∈ stack ++ [last] -> link es last x ->
  (forall l1 a b l2, stack ++ [last] = l1 ++ a :: b :: l2 -> link es a b) ->
  exists c, stack_from (stack ++ [last]) x = Some c /\ head c = Some x /\ cycle_of es c.
Proof.
  intros Hnd Hx Hl Hc. destruct (stack_from_Some _ _ Hx) as (l1 & l2 & E & ->). exists (x :: l2).
  split; [done|]. split; [done|]. exists x, l2. split; [done|]. rewrite E in Hnd. apply NoDup_app in Hnd as (_ & _ & Hnd).
  split; [done|]. exists x, l2. split; [done|].
  assert (walk (link es) x l2) as Hw.
  { apply chain_walk. intros k1 a b k2 Ek. apply (Hc (l1 ++ k1) a b k2). rewrite E, Ek. by rewrite <- app_assoc. }
  destruct l2 as [|y l2 _] using rev_ind.
  - cbn. apply app_inj_tail in E as [_ ->]. done.
  - rewrite app_comm_cons, app_assoc in E. apply app_inj_tail in E as [_ ->].
    rewrite <- app_assoc. cbn. apply walk_app. by split.
Qed.

Lemma found_stack es c : found stack_from es c -> cycle_of es c.
Proof.
  intros (stack & x & last & Hr & Hnd & Hx & Hl & Hc).
  destruct (stack_cycle es stack last x Hnd Hx Hl Hc) as (c' & Hr' & _ & Hcyc). congruence.
Qed.
Lemma found_closed es c : found closed_from es c -> is_cycle (link es) c.
Proof.
  intros (stack & x & last & Hr & Hnd & Hx & Hl & Hc).
  destruct (stack_cycle es stack last x Hnd Hx Hl Hc) as (c' & Hr' & Hh & (y & l & -> & _ & Hcyc)).
  unfold closed_from in Hr. rewrite Hr' in Hr. cbn in *. by simplify_eq.
Qed.
Lemma found_or_nil es c : found stack_or_nil es c -> cycle_of es c.
Proof.
  intros (stack & x & last & Hr & Hnd & Hx & Hl & Hc).
  destruct (stack_cycle es stack last x Hnd Hx Hl Hc) as (c' & Hr' & _ & Hcyc).
  unfold stack_or_nil in Hr. rewrite Hr' in Hr. cbn in *. by simplify_eq.
Qed.
Lemma cycle_of_not_free es c : cycle_of es c -> ~ loop_free es.
Proof. intros (x & l & _ & _ & Hc) Hf. apply is_cycle_tc in Hc as (y & _ & Hy). by apply (Hf y). Qed.

Lemma stack_reports stack x : x ∈ stack -> is_Some (stack_from stack x).
Proof. intros Hx. destruct (stack_from_Some _ _ Hx) as (? & ? & _ & ->). eauto. Qed.
Lemma closed_reports stack x : x ∈ stack -> is_Some (closed_from stack x).
Proof. intros Hx. unfold closed_from. destruct (stack_reports stack x Hx) as [c ->]. by eexists. Qed.

(** ** The builder *)

(** [enum NodeKind], [enum GuaranteeClass], [struct SignalNodeMeta], [struct DagNodeRecord],
    [struct Dag] and [enum DagError]. *)
Inductive NodeKind : Set := KPure | KManagedEffect | KWait | KSignal | KUnsafe | KRouter.
Inductive GuaranteeClass : Set := ExactOnce | AtLeastOnce | BestEffort.
Record SignalNodeMeta : Set := mkSignalMeta { signal_name : option string; timeout_ms : option Z }.
Record DagNodeRecord : Set := mkDagRecord {
  rec_name : NodeName;
  rec_kind : NodeKind;
  rec_meta : option SignalNodeMeta;
}.
Record Dag : Set := mkDag { dag_nodes : list DagNodeRecord; dag_edges : Links }.
Inductive DagError : Set :=
| InvalidNodeName (name : string)
| NodeNotFound (name : string)
| DagEmptyWorkflow
| DagCycleDetected (cycle : string)
| DuplicateNodeName (name : string)
| SelfLoop (name : string).

(** [Dag::new], [add_node_with_kind], [set_signal_meta], [find_index], [connect] (of two handles,
    which carry names) and [edges]. *)
Definition dag_new : Dag := mkDag [] [].
Definition add_node_with_kind (name : string) (kind : NodeKind) (d : Dag) : result DagError NodeName * Dag :=
  match NodeName_parse name with
  | Err _ => (Err (InvalidNodeName name), d)
  | Ok nn =>
      if existsb (fun r => bool_decide (rec_name r = nn)) (dag_nodes d) then (Err (DuplicateNodeName name), d)
      else (Ok nn, mkDag (dag_nodes d ++ [mkDagRecord nn kind None]) (dag_edges d))
  end.
Definition set_signal_meta (meta : SignalNodeMeta) (d : Dag) : Dag :=
  match last (dag_nodes d) with
  | Some r =>
      match rec_kind r with
      | KSignal | KWait =>
          mkDag (removelast (dag_nodes d) ++ [mkDagRecord (rec_name r) (rec_kind r) (Some meta)]) (dag_edges d)
      | _ => d
      end
  | None => d
  end.
Definition find_index (d : Dag) (name : NodeName) : result DagError nat :=
  ok_or (fst <$> list_find (fun r => rec_name r = name) (dag_nodes d)) (NodeNotFound (node_name_str name)).
Definition connect (from to : NodeName) (d : Dag) : result DagError unit * Dag :=
  if decide (from = to) then (Err (SelfLoop (node_name_str from)), d)
  else
    match find_index d from, find_index d to with
    | Err e, _ => (Err e, d)
    | Ok _, Err e => (Err e, d)
    | Ok i, Ok j => (Ok tt, mkDag (dag_nodes d) (dag_edges d ++ [(i, j)]))
    end.
Definition name_at (d : Dag) (i : nat) : option NodeName := rec_name <$> (dag_nodes d !! i).
Definition dag_edge_names (d : Dag) : list (NodeName * NodeName) :=
  omap (fun e => match name_at d e.1, name_at d e.2 with
                 | Some a, Some b => Some (a, b)
                 | _, _ => None
                 end) (dag_edges d).

(** [names.join(" -> ")]. *)
Fixpoint join_names (l : list NodeName) : string :=
  match l with
  | [] => ""
  | [x] => node_name_str x
  | x :: l => node_name_str x +:+ " -> " +:+ join_names l
  end.

(** [Dag::find_cycle_nodes], [has_cycle] and [validate]; [None] only when out of fuel. *)
Definition find_cycle_nodes (d : Dag) : option string :=
  (fun r : option (list nat) => match r with
            | None | Some [] => "unknown cycle"
            | Some c => join_names (omap (name_at d) c)
            end) <$> search (successors (dag_edges d)) stack_from (length (dag_nodes d)).
Definition has_cycle (d : Dag) : option bool :=
  match dag_edges d with
  | [] => Some false
  | es => (fun r => match r with Some _ => true | None => false end)
            <$> search (successors es) just_found (length (dag_nodes d))
  end.
Definition dag_validate (d : Dag) : option (result (list NodeName) unit) :=
  match dag_edges d with
  | [] => Some (Ok tt)
  | es => (fun r : option (list nat) => match r with Some c => Err (omap (name_at d) c) | None => Ok tt end)
            <$> search (successors es) closed_from (length (dag_nodes d))
  end.

(** ** Specifications *)

(** [struct NodeSpec], [struct EdgeSpec], [struct WorkflowSpec]. *)
Record NodeSpec : Type := mkNodeSpec { ns_name : NodeName; ns_kind : NodeKind; ns_retry : option RetryPolicy }.
Record EdgeSpec : Set := mkEdgeSpec { edge_from : NodeName; edge_to : NodeName }.
Record WorkflowSpec : Type := mkSpec {
  spec_name : WorkflowName;
  spec_nodes : list NodeSpec;
  spec_edges : list EdgeSpec;
  spec_guarantee : GuaranteeClass;
}.
#[global] Instance EdgeSpec_eq_dec : EqDecision EdgeSpec.
Proof. solve_decision. Defined.

(** [Dag::build]. *)
Definition dag_build (d : Dag) (workflow_name : string) : option (result DagError WorkflowSpec) :=
  match dag_nodes d with
  | [] => Some (Err DagEmptyWorkflow)
  | _ =>
      let n := length (dag_nodes d) in
      match kahn n (dag_edges d) with
      | None => None
      | Some visited =>
          if decide (visited <> n) then (fun s => Err (DagCycleDetected s)) <$> find_cycle_nodes d
          else
            match WorkflowName_parse workflow_name with
            | Err _ => Some (Err (InvalidNodeName workflow_name))
            | Ok wf =>
                Some (Ok (mkSpec wf ((fun r => mkNodeSpec (rec_name r) (rec_kind r) None) <$> dag_nodes d)
                            ((fun e => mkEdgeSpec e.1 e.2) <$> dag_edge_names d) ExactOnce))
            end
      end
  end.

(** [name_to_idx]: later nodes of the same name win. *)
Definition name_to_idx (names : list NodeName) : gmap NodeName nat :=
  foldl (fun m (p : nat * NodeName) => <[p.2 := p.1]> m) ∅ (zip (seq 0 (length names)) names).
Definition node_names (s : WorkflowSpec) : list NodeName := ns_name <$> spec_nodes s.
Definition spec_links (s : WorkflowSpec) : Links :=
  let idx := name_to_idx (node_names s) in
  omap (fun e => match idx !! edge_from e, idx !! edge_to e with
                 | Some i, Some j => Some (i, j)
                 | _, _ => None
                 end) (spec_edges s).

(** [enum ValidationError] and [WorkflowSpec::validate]: the loop over the nodes, the loop over the
    edges, the search, and the entry point. *)
Inductive ValidationError : Set :=
| VDuplicateNodeName (name : NodeName)
| VDuplicateEdge (from to : NodeName)
| VMissingEdgeSource (name : NodeName)
| VMissingEdgeTarget (name : NodeName)
| VSelfLoop (name : NodeName)
| VCycleDetected (cycle : string)
| VNoEntryPoint.
Fixpoint check_names (names : list NodeName) (seen : gset NodeName) : result ValidationError unit :=
  match names with
  | [] => Ok tt
  | x :: names => if decide (x ∈ seen) then Err (VDuplicateNodeName x) else check_names names ({[x]} ∪ seen)
  end.
Fixpoint check_edges (names : list NodeName) (es : list EdgeSpec) (seen : list EdgeSpec)
  : result ValidationError unit :=
  match es with
  | [] => Ok tt
  | e :: es =>
      if decide (edge_from e ∉ names) then Err (VMissingEdgeSource (edge_from e))
      else if decide (edge_to e ∉ names) then Err (VMissingEdgeTarget (edge_to e))
      else if decide (edge_from e = edge_to e) then Err (VSelfLoop (edge_from e))
      else if decide (e ∈ seen) then Err (VDuplicateEdge (edge_from e) (edge_to e))
      else check_edges names es (e :: seen)
  end.
Definition targets (s : WorkflowSpec) : gset nat :=
  list_to_set (omap (fun e => name_to_idx (node_names s) !! edge_to e) (spec_edges s)).
Definition spec_validate (s : WorkflowSpec) : option (result ValidationError unit) :=
  match check_names (node_names s) ∅ with
  | Err e => Some (Err e)
  | Ok _ =>
      match check_edges (node_names s) (spec_edges s) [] with
      | Err e => Some (Err e)
      | Ok _ =>
          let n := length (spec_nodes s) in
          if decide (n = 0%nat) then Some (Ok tt)
          else
            match search (successors (spec_links s)) stack_or_nil n with
            | None => None
            | Some (Some c) => Some (Err (VCycleDetected (join_names (omap (fun i => node_names s !! i) c))))
            | Some None => if decide (size (targets s) = n) then Some (Err VNoEntryPoint) else Some (Ok tt)
            end
      end
  end.

(** [WorkflowSpec::detect_cycle]. *)
Definition spec_detect_cycle (s : WorkflowSpec) : option (option string) :=
  let n := length (spec_nodes s) in
  if decide (n = 0%nat) then Some None
  else
    (fun r : option (list nat) => match r with
       | None | Some [] => None
       | Some c => Some (join_names (omap (fun i => node_names s !! i) c))
       end) <$> search (successors (spec_links s)) stack_from n.

(** [WorkflowSpec::deserialize], from the parts of a specification that serde has read. *)
Inductive ReadError : Set :=
| ReadSelfLoop (name : NodeName)
| ReadMissingNode (name : NodeName)
| ReadDuplicateEdge (from to : NodeName)
| ReadCycle.
Fixpoint read_edges (names : list NodeName) (es : list EdgeSpec) (seen : list EdgeSpec) : result ReadError unit :=
  match es with
  | [] => Ok tt
  | e :: es =>
      if decide (edge_from e = edge_to e) then Err (ReadSelfLoop (edge_from e))
      else if decide (edge_from e ∉ names) then Err (ReadMissingNode (edge_from e))
      else if decide (edge_to e ∉ names) then Err (ReadMissingNode (edge_to e))
      else if decide (e ∈ seen) then Err (ReadDuplicateEdge (edge_from e) (edge_to e))
      else read_edges names es (e :: seen)
  end.
Definition spec_read (raw : WorkflowSpec) : option (result ReadError WorkflowSpec) :=
  match read_edges (node_names raw) (spec_edges raw) [] with
  | Err e => Some (Err e)
  | Ok _ =>
      match kahn (length (spec_nodes raw)) (spec_links raw) with
      | None => None
      | Some visited => if decide (visited <> length (spec_nodes raw)) then Some (Err ReadCycle) else Some (Ok raw)
      end
  end.

(** [Workflow]: the builder with its registry of functions, as the set of their names. [register]
    answers [AlreadyRegistered] also for a name that does not parse, and [map_registry_error] makes
    that an invalid name. [pure], [effect], [wait], [signal] and [unsafe_node] give no metadata,
    [wait_with_meta] and [signal_with_meta] do. *)
Record WorkflowBuilder : Type := mkBuilder { builder_dag : Dag; builder_name : string; registered : gset NodeName }.
Definition workflow_new (name : string) : WorkflowBuilder := mkBuilder dag_new name ∅.
Definition builder_add (name : string) (kind : NodeKind) (meta : option SignalNodeMeta) (b : WorkflowBuilder)
  : result DagError NodeName * WorkflowBuilder :=
  match NodeName_parse name with
  | Err _ => (Err (InvalidNodeName name), b)
  | Ok nn =>
      if decide (nn ∈ registered b) then (Err (InvalidNodeName name), b)
      else
        let regs := {[nn]} ∪ registered b in
        match add_node_with_kind name kind (builder_dag b) with
        | (Err e, d) => (Err e, mkBuilder d (builder_name b) regs)
        | (Ok h, d) =>
            (Ok h, mkBuilder (match meta with Some m => set_signal_meta m d | None => d end) (builder_name b) regs)
        end
  end.
Definition builder_connect (from to : NodeName) (b : WorkflowBuilder) : result DagError unit * WorkflowBuilder :=
  let (r, d) := connect from to (builder_dag b) in (r, mkBuilder d (builder_name b) (registered b)).
Definition builder_build (b : WorkflowBuilder) : option (result DagError WorkflowSpec) :=
  dag_build (builder_dag b) (builder_name b).

(** Calls of the builder; the handles of a connection may be of another workflow. *)
Inductive BuilderCall : Set :=
| CallAdd (name : string) (kind : NodeKind) (meta : option SignalNodeMeta)
| CallConnect (from to : NodeName).
Definition builder_call (c : BuilderCall) (b : WorkflowBuilder) : WorkflowBuilder :=
  match c with
  | CallAdd name kind meta => (builder_add name kind meta b).2
  | CallConnect from to => (builder_connect from to b).2
  end.
Definition builder_after (name : string) (cs : list BuilderCall) : WorkflowBuilder :=
  foldl (fun b c => builder_call c b) (workflow_new name) cs.

(** [parse_exec_args] and [parse_graph_args]: the arguments after the first. *)
Inductive GraphArgsError : Set := UnrecognizedArgument (arg : string) | NoGraphFlag.
Fixpoint exec_args (args : list string) (graph : bool) (execute_node : option string)
  : result GraphArgsError (bool * option string) :=
  match args with
  | [] => Ok (graph, execute_node)
  | arg :: args =>
      if decide (arg = "--graph") then
        if graph then Err (UnrecognizedArgument arg) else exec_args args true execute_node
      else if decide (arg = "--execute-node") then
        match args, execute_node with
        | [], _ => Err (UnrecognizedArgument "--execute-node")
        | _ :: _, Some _ => Err (UnrecognizedArgument "--execute-node")
        | node :: args, None => exec_args args graph (Some node)
        end
      else if decide (head (chars arg) = Some hyphen) then Err (UnrecognizedArgument arg)
      else exec_args args graph execute_node
  end.
Definition parse_exec_args (args : list string) : result GraphArgsError (bool * option string) :=
  exec_args (tail args) false None.
Definition parse_graph_args (args : list string) : result GraphArgsError unit :=
  rbind (parse_exec_args args) (fun p => if p.1 : bool then Ok tt else Err NoGraphFlag).

(** [emit_graph_if_requested]: the process exits, or the call returns; [written] tells whether the
    standard output takes the JSON. *)
Inductive Emitted : Type :=
| ExitCycle (cycle : string)
| ExitEmitted (spec : WorkflowSpec)
| EmitReturned (r : result unit unit).
Definition emit_graph_if_requested (written : bool) (args : list string) (spec : WorkflowSpec) : option Emitted :=
  match parse_graph_args args with
  | Ok _ =>
      (fun c => match c with
         | Some cycle => ExitCycle cycle
         | None => if written then ExitEmitted spec else EmitReturned (Err tt)
         end) <$> spec_detect_cycle spec
  | Err NoGraphFlag => Some (EmitReturned (Ok tt))
  | Err _ => Some (EmitReturned (Err tt))
  end.

(** [CycleError]'s [Display], [enum ExecuteError], [find_executable_node] and
    [is_node_executable]. *)
Definition cycle_error_text (path : list NodeName) : string :=
  match path with
  | a :: _ :: _ => join_names path +:+ " -> " +:+ node_name_str a
  | _ => join_names path
  end.
Inductive ExecuteError : Set := ExecNodeNotFound (name : string) | NotExecutable (name : string).
Definition find_executable_node (s : WorkflowSpec) (name : string) : result ExecuteError NodeSpec :=
  ok_or (snd <$> list_find (fun n => node_name_str (ns_name n) = name) (spec_nodes s)) (ExecNodeNotFound name).
Definition is_node_executable (n : NodeSpec) : bool :=
  match ns_kind n with KPure | KManagedEffect | KUnsafe => true | _ => false end.

(** ** From indices to names *)

Section Renamed.
Context (N : list NodeName) (es : Links) (E : NodeName -> NodeName -> Prop).
Context (Hnd : NoDup N) (Hrange : in_range (length N) es).
Context (HE : forall a b, E a b <-> exists i j, link es i j /\ N !! i = Some a /\ N !! j = Some b).

Lemma renamed_walk x l :
  (x < length N)%nat -> walk (link es) x l ->
  exists a, N !! x = Some a /\ walk E a (omap (fun i => N !! i) l) /\ length (omap (fun i => N !! i) l) = length l.
Proof.
  revert x. induction l as [|y l IH]; intros x Hx Hw.
  { apply lookup_lt_is_Some in Hx as [a Ha]. by exists a. }
  destruct Hw as [Hxy Hw]. destruct (Hrange x y Hxy) as [_ Hy]. destruct (IH y Hy Hw) as (b & Hb & Hwb & Hlen).
  apply lookup_lt_is_Some in Hx as [a Ha]. exists a. split; [done|]. cbn. rewrite Hb. cbn. rewrite Hlen.
  split; [|done]. split; [|done]. apply HE. eauto.
Qed.

Lemma renamed_tc a b : tc E a b -> exists i j, N !! i = Some a /\ N !! j = Some b /\ tc (link es) i j.
Proof.
  induction 1 as [a b Hab|a b c Hab _ IH]; apply HE in Hab as (i & j & Hij & Hi & Hj).
  - exists i, j. split_and!; [done|done|by apply tc_once].
  - destruct IH as (j' & k & Hj' & Hk & Ht). rewrite (NoDup_lookup _ _ _ _ Hnd Hj' Hj) in *.
    exists i, k. split_and!; [done|done|by eapply tc_l].
Qed.

Lemma renamed_tc_back i j : tc (link es) i j -> exists a b, N !! i = Some a /\ N !! j = Some b /\ tc E a b.
Proof.
  induction 1 as [i j Hij|i j k Hij _ IH].
  - destruct (Hrange i j Hij) as [[a Ha]%lookup_lt_is_Some [b Hb]%lookup_lt_is_Some]. exists a, b.
    split_and!; [done|done|]. apply tc_once, HE. eauto.
  - destruct IH as (b & c & Hb & Hc & Ht). destruct (Hrange i j Hij) as [[a Ha]%lookup_lt_is_Some _].
    exists a, c. split_and!; [done|done|]. eapply tc_l; [|done]. apply HE. eauto.
Qed.

Lemma renamed_loop_free : loop_free es <-> forall a, ~ tc E a a.
Proof.
  split.
  - intros Hf a (i & j & Hi & Hj & Ht)%renamed_tc. rewrite (NoDup_lookup _ _ _ _ Hnd Hi Hj) in *. by apply (Hf j).
  - intros Hf i (a & b & Ha & Hb & Ht)%renamed_tc_back. simplify_eq. by eapply Hf.
Qed.

Lemma renamed_cycle c :
  cycle_of es c -> exists a l, omap (fun i => N !! i) c = a :: l /\ is_cycle E (a :: l ++ [a]).
Proof.
  intros (x & l & -> & _ & (x' & l' & Heq & Hw)). injection Heq as <- Hl. apply app_inj_tail in Hl as [<- _].
  assert (x < length N)%nat as Hx.
  { destruct l as [|y l]; destruct Hw as [Hxy _]; by destruct (Hrange _ _ Hxy). }
  destruct (renamed_walk x _ Hx Hw) as (a & Ha & Hwa & _). exists a, (omap (fun i => N !! i) l). cbn. rewrite Ha.
  split; [done|]. exists a, (omap (fun i => N !! i) l). split; [done|].
  rewrite omap_app in Hwa. cbn in Hwa. by rewrite Ha in Hwa.
Qed.
End Renamed.

(** *** Dags that were built *)

Definition dag_names (d : Dag) : list NodeName := rec_name <$> dag_nodes d.
Definition named_edge (d : Dag) (a b : NodeName) : Prop := (a, b) ∈ dag_edge_names d.
Record dag_ok (d : Dag) : Prop := {
  dag_once : NoDup (dag_names d);
  dag_range : in_range (length (dag_nodes d)) (dag_edges d);
  dag_irrefl : forall x, (x, x) ∉ dag_edges d;
}.

Lemma named_edge_spec d a b :
  named_edge d a b <-> exists i j, link (dag_edges d) i j /\ dag_names d !! i = Some a /\ dag_names d !! j = Some b.
Proof.
  unfold named_edge, dag_edge_names, link, dag_names, name_at. rewrite list_elem_of_omap. split.
  - intros ([i j] & Hin & H). cbn in H. exists i, j. rewrite !list_lookup_fmap.
    destruct (dag_nodes d !! i), (dag_nodes d !! j); cbn in *; simplify_eq. done.
  - intros (i & j & Hin & Hi & Hj). exists (i, j). rewrite !list_lookup_fmap in *. split; [done|]. cbn.
    by rewrite Hi, Hj.
Qed.

Lemma find_index_spec d name i :
  find_index d name = Ok i -> (i < length (dag_nodes d))%nat /\ dag_names d !! i = Some name.
Proof.
  unfold find_index. destruct (list_find _ _) as [[j r]|] eqn:E; cbn; intros [= <-].
  apply list_find_Some in E as (Hj & <- & _). split; [by eapply lookup_lt_Some|].
  unfold dag_names. by rewrite list_lookup_fmap, Hj.
Qed.

Lemma connect_ok from to d : dag_ok d -> dag_ok (connect from to d).2.
Proof.
  intros Hd. unfold connect. case_decide as Hne; [done|].
  destruct (find_index d from) as [i|e] eqn:Ei; [|done]. destruct (find_index d to) as [j|e] eqn:Ej; [|done].
  apply find_index_spec in Ei as [Hi Ni]. apply find_index_spec in Ej as [Hj Nj]. destruct Hd as [H1 H2 H3].
  split; cbn; [done|..].
  - intros x y [Hxy|[= -> ->]%list_elem_of_singleton]%elem_of_app; [by apply H2|done].
  - intros x [Hx|[= -> Hx]%list_elem_of_singleton]%elem_of_app; [by apply (H3 x)|]. subst. congruence.
Qed.

Lemma add_node_ok name kind d : dag_ok d -> dag_ok (add_node_with_kind name kind d).2.
Proof.
  intros [H1 H2 H3]. unfold add_node_with_kind. destruct (NodeName_parse name) as [nn|e]; [|done].
  destruct (existsb _ _) eqn:Ee; [done|]. split; cbn.
  - unfold dag_names. cbn. rewrite fmap_app. apply NoDup_app. split; [done|]. split; [|apply NoDup_singleton].
    intros x Hx ->%list_elem_of_singleton. apply list_elem_of_fmap in Hx as (r & Hr & Hin).
    assert (existsb (fun r => bool_decide (rec_name r = nn)) (dag_nodes d) = true) as Ht; [|congruence].
    apply existsb_exists. exists r. split; [by apply list_elem_of_In|]. by apply bool_decide_eq_true.
  - intros x y Hxy. destruct (H2 x y Hxy). rewrite length_app. cbn. lia.
  - done.
Qed.

Lemma set_meta_names meta d : dag_names (set_signal_meta meta d) = dag_names d /\ dag_edges (set_signal_meta meta d) = dag_edges d.
Proof.
  unfold set_signal_meta. destruct (last (dag_nodes d)) as [r|] eqn:El; [|done].
  apply last_Some in El as [l El].
  destruct (rec_kind r); try done; cbn; split; try done; unfold dag_names; cbn;
    by rewrite El, removelast_last, !fmap_app.
Qed.

Lemma set_meta_ok meta d : dag_ok d -> dag_ok (set_signal_meta meta d).
Proof.
  intros [H1 H2 H3]. destruct (set_meta_names meta d) as [Hn He]. split; rewrite ?Hn, ?He; try done.
  apply (f_equal length) in Hn. unfold dag_names in Hn. rewrite !length_fmap in Hn. by rewrite Hn.
Qed.

(** A call keeps the graph well formed and adds one link at most. *)
Lemma builder_call_ok c b :
  dag_ok (builder_dag b) ->
  dag_ok (builder_dag (builder_call c b)) /\ builder_name (builder_call c b) = builder_name b /\
  (length (dag_edges (builder_dag (builder_call c b))) <= S (length (dag_edges (builder_dag b))))%nat.
Proof.
  intros Hok. destruct c as [s kind meta|from to]; cbn.
  - unfold builder_add. destruct (NodeName_parse s) as [nn|e] eqn:En; cbn; [|split_and!; [done|done|lia]].
    case_decide; cbn; [split_and!; [done|done|lia]|].
    pose proof (add_node_ok s kind _ Hok) as Hok'.
    assert (dag_edges (add_node_with_kind s kind (builder_dag b)).2 = dag_edges (builder_dag b)) as He.
    { unfold add_node_with_kind. rewrite En. by destruct (existsb _ _). }
    destruct (add_node_with_kind s kind (builder_dag b)) as [[h|e] d]; cbn in *; cycle 1.
    { split_and!; [done|done|rewrite He; lia]. }
    destruct meta as [m|]; [|split_and!; [done|done|rewrite He; lia]].
    split_and!; [by apply set_meta_ok|done|]. destruct (set_meta_names m d) as [_ ->]. rewrite He. lia.
  - unfold builder_connect. pose proof (connect_ok from to _ Hok) as Hok'.
    assert (length (dag_edges (connect from to (builder_dag b)).2) <= S (length (dag_edges (builder_dag b))))%nat as Hl.
    { unfold connect. case_decide; cbn; [lia|]. destruct (find_index (builder_dag b) from), (find_index (builder_dag b) to); cbn; try lia.
      rewrite length_app. cbn. lia. }
    destruct (connect from to (builder_dag b)) as [r d]. cbn in *. by split_and!.
Qed.

Lemma builder_after_ok name cs :
  let b := builder_after name cs in
  dag_ok (builder_dag b) /\ builder_name b = name /\ (length (dag_edges (builder_dag b)) <= length cs)%nat.
Proof.
  induction cs as [|c cs IH] using rev_ind; unfold builder_after in *.
  { cbn. split_and!; [|done|done]. split; cbn; [constructor|by intros x y ?%elem_of_nil|intros x; apply not_elem_of_nil]. }
  rewrite foldl_app, length_app. cbn [foldl length]. cbv zeta in IH. destruct IH as (Hok & Hname & Hlen).
  destruct (builder_call_ok c _ Hok) as (Hok' & Hname' & Hlen').
  cbv zeta. split_and!; [done|by rewrite Hname'|lia].
Qed.

(** *** Specifications *)

Lemma name_to_idx_spec names a i :
  NoDup names -> name_to_idx names !! a = Some i <-> names !! i = Some a.
Proof.
  unfold name_to_idx. revert i. induction names as [|x names IH] using rev_ind; intros i Hnd.
  { cbn. rewrite lookup_empty. done. }
  apply NoDup_app in Hnd as (Hnd & Hd & _). rewrite length_app, seq_app. cbn [length seq].
  rewrite zip_with_app by apply length_seq. rewrite foldl_app. cbn [zip_with foldl fst snd Nat.add].
  destruct (decide (x = a)) as [->|Hx].
  - rewrite lookup_insert_eq. split.
    + intros [= <-]. by rewrite lookup_app_r, Nat.sub_diag.
    + intros [Hi|[Hge Hi]]%lookup_app_Some.
      * exfalso. apply (Hd a); [by eapply list_elem_of_lookup_2|by left].
      * apply list_lookup_singleton_Some in Hi as [Hi _]. f_equal. lia.
  - rewrite lookup_insert_ne by done. rewrite IH by done. rewrite lookup_app_Some. split; [by left|].
    intros [Hi|[_ Hi]]; [done|]. by apply list_lookup_singleton_Some in Hi as [_ Hi].
Qed.

(** What [WorkflowSpec::validate] checks. *)
Definition spec_edge (s : WorkflowSpec) (a b : NodeName) : Prop := mkEdgeSpec a b ∈ spec_edges s.
Definition edges_closed (s : WorkflowSpec) : Prop :=
  forall a b, spec_edge s a b -> a ∈ node_names s /\ b ∈ node_names s /\ a <> b.
Definition spec_acyclic (s : WorkflowSpec) : Prop := forall a, ~ tc (spec_edge s) a a.
Definition inner_edge (s : WorkflowSpec) (a b : NodeName) : Prop :=
  spec_edge s a b /\ a ∈ node_names s /\ b ∈ node_names s.
Definition inner_acyclic (s : WorkflowSpec) : Prop := forall a, ~ tc (inner_edge s) a a.

Lemma check_names_spec names seen :
  check_names names seen = Ok tt <-> NoDup names /\ forall x, x ∈ names -> x ∉ seen.
Proof.
  revert seen. induction names as [|x names IH]; intros seen; cbn.
  { split; [|done]. intros _. split; [constructor|by intros x ?%elem_of_nil]. }
  rewrite NoDup_cons. destruct (decide (x ∈ seen)) as [Hx|Hx]; [split; [done|intros [_ H]; exfalso; apply (H x); [by left|done]]|].
  rewrite IH. setoid_rewrite elem_of_cons. set_solver.
Qed.

Lemma check_edges_spec names es seen :
  check_edges names es seen = Ok tt <->
  NoDup es /\ (forall e, e ∈ es -> edge_from e ∈ names /\ edge_to e ∈ names /\ edge_from e <> edge_to e /\ e ∉ seen).
Proof.
  revert seen. induction es as [|e es IH]; intros seen; cbn.
  { split; [|done]. intros _. split; [constructor|by intros x ?%elem_of_nil]. }
  rewrite NoDup_cons. setoid_rewrite elem_of_cons.
  repeat (case_decide; [split; [done|]; intros [_ H']; specialize (H' e (or_introl eq_refl)); tauto|]).
  rewrite IH. setoid_rewrite elem_of_cons. split.
  - intros [Hnd H']. split; [split; [|done]|].
    + intros He. apply H' in He. tauto.
    + intros e' [->|He]; [repeat split; try done; by apply dec_stable|]. apply H' in He. tauto.
  - intros [[Hn Hnd] H']. split; [done|]. intros e' He. destruct (H' e') as (? & ? & ? & ?); [by right|].
    split_and!; try done. intros [->|]; done.
Qed.

Lemma read_edges_agree names es seen : read_edges names es seen = Ok tt <-> check_edges names es seen = Ok tt.
Proof.
  revert seen. induction es as [|e es IH]; intros seen; cbn; [done|].
  destruct (decide (edge_from e = edge_to e)), (decide (edge_from e ∉ names)), (decide (edge_to e ∉ names)),
    (decide (e ∈ seen)); try done; apply IH.
Qed.

Lemma spec_checked s :
  check_edges (node_names s) (spec_edges s) [] = Ok tt <-> NoDup (spec_edges s) /\ edges_closed s.
Proof.
  rewrite check_edges_spec. split; intros [Hnd H]; (split; [done|]).
  - intros a b Hab. destruct (H _ Hab) as (? & ? & ? & ?). done.
  - intros [a b] He. destruct (H a b He) as (? & ? & ?). split_and!; try done. apply not_elem_of_nil.
Qed.

Section SpecLinks.
Context (s : WorkflowSpec) (Hnd : NoDup (node_names s)).

Lemma spec_links_range : in_range (length (node_names s)) (spec_links s).
Proof.
  intros i j Hij. unfold spec_links in Hij. apply list_elem_of_omap in Hij as (e & _ & He).
  destruct (name_to_idx _ !! edge_from e) as [i'|] eqn:Ei; [|done].
  destruct (name_to_idx _ !! edge_to e) as [j'|] eqn:Ej; [|done]. simplify_eq.
  apply name_to_idx_spec in Ei, Ej; try done. by apply lookup_lt_Some in Ei, Ej.
Qed.

(** The edges between nodes that the specification has: those that [detect_cycle] follows. *)
Lemma spec_links_inner a b :
  inner_edge s a b <->
  exists i j, link (spec_links s) i j /\ node_names s !! i = Some a /\ node_names s !! j = Some b.
Proof.
  unfold link, spec_links, inner_edge. setoid_rewrite list_elem_of_omap. split.
  - intros (Hab & [i Hi]%list_elem_of_lookup & [j Hj]%list_elem_of_lookup).
    exists i, j. split; [|done]. exists (mkEdgeSpec a b). split; [done|]. cbn.
    apply name_to_idx_spec in Hi, Hj; try done. by rewrite Hi, Hj.
  - intros (i & j & ([a' b'] & Hin & E) & Hi & Hj). cbn in E.
    split; [|by split; eapply list_elem_of_lookup_2]. apply name_to_idx_spec in Hi, Hj; try done.
    destruct (name_to_idx _ !! a') as [i'|] eqn:Ei; [|done].
    destruct (name_to_idx _ !! b') as [j'|] eqn:Ej; [|done]. simplify_eq.
    rewrite name_to_idx_spec in Hi, Hj, Ei, Ej by done. by simplify_eq.
Qed.

Lemma spec_links_inner_free : loop_free (spec_links s) <-> inner_acyclic s.
Proof. apply renamed_loop_free with (node_names s); [done|apply spec_links_range|apply spec_links_inner]. Qed.

Lemma spec_links_named (Hc : edges_closed s) a b :
  spec_edge s a b <->
  exists i j, link (spec_links s) i j /\ node_names s !! i = Some a /\ node_names s !! j = Some b.
Proof.
  rewrite <- spec_links_inner. unfold inner_edge. split; [|tauto].
  intros Hab. destruct (Hc a b Hab) as (? & ? & _). done.
Qed.

Lemma spec_links_free (Hc : edges_closed s) : loop_free (spec_links s) <-> spec_acyclic s.
Proof. apply renamed_loop_free with (node_names s); [done|apply spec_links_range|by apply spec_links_named]. Qed.
End SpecLinks.

(** A graph without cycles has a node that nothing links to. *)
Lemma loop_free_entry n es :
  (0 < n)%nat -> in_range n es -> loop_free es -> exists x, (x < n)%nat /\ forall y, ~ link es y x.
Proof.
  intros Hn Hr Hf.
  assert (forall x, sn (flip (link es)) x) as Hsn.
  { intros x. apply tc_finite_sn; [intros y Hy; by apply (Hf y), tc_flip|].
    exists (seq 0 n). intros y Hy%tc_flip. apply elem_of_seq.
    assert (exists z, link es y z) as [z Hz] by (inversion Hy; eauto). destruct (Hr y z Hz). lia. }
  assert (forall x, (x < n)%nat -> exists x, (x < n)%nat /\ forall y, ~ link es y x) as H; [|by apply (H 0%nat)].
  intros x. induction (Hsn x) as [x _ IH]. intros Hx.
  destruct (decide (base.filter (fun e => e.2 = x) es = [])) as [E|E].
  - exists x. split; [done|]. intros y Hy.
    assert ((y, x) ∈ base.filter (fun e => e.2 = x) es) as Hin by (by apply list_elem_of_filter).
    rewrite E in Hin. by apply elem_of_nil in Hin.
  - destruct (base.filter (fun e => e.2 = x) es) as [|[y x'] l] eqn:El; [done|].
    assert ((y, x') ∈ base.filter (fun e => e.2 = x) es) as [<- Hin]%list_elem_of_filter by (rewrite El; by left).
    cbn in *. apply (IH y Hin). by destruct (Hr _ _ Hin).
Qed.

Lemma targets_miss s :
  NoDup (node_names s) -> edges_closed s -> (0 < length (node_names s))%nat -> loop_free (spec_links s) ->
  size (targets s) <> length (spec_nodes s).
Proof.
  intros Hnd Hc Hn Hf. destruct (loop_free_entry _ _ Hn (spec_links_range s Hnd) Hf) as (x & Hx & Hin) . intros Hs.
  assert (targets s ⊆ list_to_set (base.filter (fun i => i <> x) (seq 0 (length (node_names s))))) as Hsub.
  { intros i Hi. unfold targets in Hi. apply elem_of_list_to_set, list_elem_of_omap in Hi as ([a b] & He & Hb).
    cbn in Hb. apply elem_of_list_to_set, list_elem_of_filter. apply name_to_idx_spec in Hb; [|done].
    split; [|apply elem_of_seq; apply lookup_lt_Some in Hb; lia]. intros ->.
    destruct (proj1 (spec_links_named s Hnd Hc a b) He) as (j & k & Hl & _ & Hk).
    rewrite (NoDup_lookup _ _ _ _ Hnd Hk Hb) in *. by apply (Hin j). }
  apply subseteq_size in Hsub. rewrite size_list_to_set in Hsub by apply NoDup_filter, NoDup_seq.
  assert (length (base.filter (fun i => i <> x) (seq 0 (length (node_names s)))) < length (seq 0 (length (node_names s))))%nat as Hlt.
  { apply length_filter_lt with x; [apply elem_of_seq; lia|]. intros H. by apply H. }
  rewrite length_seq in Hlt. unfold node_names in *. rewrite length_fmap in *. lia.
Qed.

Lemma join_found (N : list NodeName) es E c :
  NoDup N -> in_range (length N) es ->
  (forall a b, E a b <-> exists i j, link es i j /\ N !! i = Some a /\ N !! j = Some b) ->
  cycle_of es c ->
  exists a l, join_names (omap (fun i => N !! i) c) = join_names (a :: l) /\ is_cycle E (a :: l ++ [a]).
Proof.
  intros Hnd Hr HE Hc. destruct (renamed_cycle N es E Hr HE c Hc) as (a & l & -> & H). eauto.
Qed.

(** [validate] answers for every specification, and accepts exactly those it describes; a cycle it
    reports is one, and it never reports a missing entry point. *)
Lemma spec_validate_spec s :
  match spec_validate s with
  | None => False
  | Some (Ok _) => NoDup (node_names s) /\ NoDup (spec_edges s) /\ edges_closed s /\ spec_acyclic s
  | Some (Err (VCycleDetected text)) => exists a l, text = join_names (a :: l) /\ is_cycle (spec_edge s) (a :: l ++ [a])
  | Some (Err VNoEntryPoint) => False
  | Some (Err _) => ~ (NoDup (node_names s) /\ NoDup (spec_edges s) /\ edges_closed s)
  end.
Proof.
  unfold spec_validate. pose proof (check_names_spec (node_names s) ∅) as Hn. pose proof (spec_checked s) as He.
  destruct (check_names (node_names s) ∅) as [[]|e] eqn:En; cycle 1.
  { assert (~ NoDup (node_names s)) as Hno; [|].
    { intros Hnd. cut (Err (A := unit) e = Ok tt); [done|]. apply Hn. split; [done|]. intros x _. apply not_elem_of_empty. }
    destruct e; try tauto; exfalso; clear -En; revert En; generalize (∅ : gset NodeName);
      induction (node_names s) as [|x l IH]; intros m; cbn; try done; case_decide; try done; apply IH. }
  destruct (proj1 Hn eq_refl) as [Hnd _].
  destruct (check_edges (node_names s) (spec_edges s) []) as [[]|e] eqn:Ee; cycle 1.
  { assert (~ (NoDup (spec_edges s) /\ edges_closed s)) as Hno by (intros H; apply He in H; done).
    destruct e; try tauto; exfalso; clear -Ee; revert Ee; generalize ([] : list EdgeSpec);
      induction (spec_edges s) as [|x l IH]; intros m; cbn; try done; repeat case_decide; try done; apply IH. }
  destruct (proj1 He eq_refl) as [Hed Hc]. clear Hn He.
  pose proof (spec_links_range s Hnd) as Hr. pose proof (spec_links_free s Hnd Hc) as Hfree.
  pose proof (search_spec (successors (spec_links s)) stack_or_nil (length (node_names s)) (spec_links s)) as Hs.
  assert (length (spec_nodes s) = length (node_names s)) as Hlen by (unfold node_names; by rewrite length_fmap).
  rewrite Hlen. case_decide as H0.
  { split_and!; try done. apply Hfree. intros x Hx.
    assert (exists y, link (spec_links s) x y) as [y Hy] by (inversion Hx; eauto). destruct (Hr _ _ Hy). lia. }
  destruct (search _ _ _) as [[c|]|]; cycle 1.
  - rewrite decide_False; [split_and!; try done|].
    + apply Hfree, Hs; [by intros; apply successors_spec|done|by eexists].
    + rewrite <- Hlen. apply targets_miss; [done|done|lia|]. apply Hs; [by intros; apply successors_spec|done|by eexists].
  - apply Hs; [by intros; apply successors_spec|done|by eexists].
  - apply join_found with (spec_links s); [done|done|by apply spec_links_named|].
    apply found_or_nil, Hs; [by intros; apply successors_spec|done|by eexists].
Qed.

Lemma spec_validate_iff s :
  spec_validate s = Some (Ok tt) <->
  NoDup (node_names s) /\ NoDup (spec_edges s) /\ edges_closed s /\ spec_acyclic s.
Proof.
  pose proof (spec_validate_spec s) as H. split; [intros E; by rewrite E in H|]. intros (H1 & H2 & H3 & H4).
  destruct (spec_validate s) as [[[]|[]]|]; try done; try tauto.
  destruct H as (a & l & _ & Hc). apply is_cycle_tc in Hc as (x & _ & Hx). by apply H4 in Hx.
Qed.

(** [detect_cycle] answers for a specification of distinct names. *)
Lemma spec_detect_cycle_spec s :
  NoDup (node_names s) ->
  match spec_detect_cycle s with
  | None => False
  | Some None => inner_acyclic s
  | Some (Some text) => exists a l, text = join_names (a :: l) /\ is_cycle (inner_edge s) (a :: l ++ [a])
  end.
Proof.
  intros Hnd. unfold spec_detect_cycle. pose proof (spec_links_range s Hnd) as Hr.
  assert (length (spec_nodes s) = length (node_names s)) as Hlen by (unfold node_names; by rewrite length_fmap).
  rewrite Hlen. case_decide as H0.
  { apply spec_links_inner_free; [done|]. intros x Hx.
    assert (exists y, link (spec_links s) x y) as [y Hy] by (inversion Hx; eauto). destruct (Hr _ _ Hy). lia. }
  pose proof (search_spec (successors (spec_links s)) stack_from (length (node_names s)) (spec_links s)
    ltac:(by intros; apply successors_spec) Hr stack_reports) as Hs.
  destruct (search _ _ _) as [[c|]|]; cbn; [|by apply spec_links_inner_free|done]. apply found_stack in Hs.
  pose proof (join_found _ _ _ c Hnd Hr (spec_links_inner s Hnd) Hs) as H.
  by destruct Hs as (x & k & -> & _).
Qed.

Lemma inner_closed s : edges_closed s -> inner_acyclic s -> spec_acyclic s.
Proof.
  intros Hc Hi a Ha. apply (Hi a). revert Ha. generalize a at 1 3 as x.
  intros x. induction 1 as [x y H|x y z H _ IH]; destruct (Hc _ _ H) as (? & ? & _);
    [apply tc_once; by split|eapply tc_l; [by split|done]].
Qed.

Lemma omap_shorter {A B} (f : A -> option B) l : (length (omap f l) <= length l)%nat.
Proof. induction l as [|x l IH]; cbn; [done|]. destruct (f x); cbn; lia. Qed.

(** Reading a specification of distinct names makes the same checks. *)
Lemma spec_read_iff s :
  NoDup (node_names s) -> 2 * Z.of_nat (length (spec_edges s)) <= u32_max ->
  spec_read s = Some (Ok s) <-> spec_validate s = Some (Ok tt).
Proof.
  intros Hnd Hlen. rewrite spec_validate_iff. unfold spec_read.
  pose proof (read_edges_agree (node_names s) (spec_edges s) []) as Ha. rewrite spec_checked in Ha.
  destruct (read_edges _ _ _) as [[]|e]; cycle 1.
  { split; [done|]. intros (_ & ? & ? & _). cut (Err (A := unit) e = Ok tt); [done|]. by apply Ha. }
  destruct (proj1 Ha eq_refl) as [Hed Hc].
  assert (length (spec_nodes s) = length (node_names s)) as Hl by (unfold node_names; by rewrite length_fmap).
  rewrite Hl. destruct (kahn_spec (length (node_names s)) (spec_links s)) as (v & -> & Hv).
  - by apply spec_links_range.
  - etrans; [|exact Hlen]. apply Z.mul_le_mono_nonneg_l; [lia|]. apply Nat2Z.inj_le, omap_shorter.
  - rewrite spec_links_free in Hv by done. destruct (decide (v <> length (node_names s))) as [Hne|Heq].
    + split; [done|]. intros (_ & _ & _ & Hf). by apply Hv in Hf.
    + apply dec_stable in Heq. split; [|done]. intros _. split_and!; try done. by apply Hv.
Qed.

(** *** What is built *)

Lemma named_edges_all d : dag_ok d -> length (dag_edge_names d) = length (dag_edges d).
Proof.
  intros [_ Hr _]. unfold dag_edge_names. assert (forall e, e ∈ dag_edges d -> (e.1 < length (dag_nodes d) /\ e.2 < length (dag_nodes d))%nat) as H.
  { intros [x y] Hin. by apply Hr. }
  clear Hr. induction (dag_edges d) as [|[x y] es IH]; [done|]. cbn.
  destruct (H (x, y) ltac:(by left)) as [[a Ha]%lookup_lt_is_Some [b Hb]%lookup_lt_is_Some]. cbn in *.
  unfold name_at. rewrite Ha, Hb. cbn. f_equal. apply IH. intros e He. apply H. by right.
Qed.

Lemma dag_search_free d : dag_ok d -> loop_free (dag_edges d) <-> forall a, ~ tc (named_edge d) a a.
Proof.
  intros [Hn Hr _]. apply renamed_loop_free with (dag_names d); [done| |apply named_edge_spec].
  unfold dag_names. by rewrite length_fmap.
Qed.

Lemma dag_join d c :
  dag_ok d -> cycle_of (dag_edges d) c ->
  exists a l, join_names (omap (name_at d) c) = join_names (a :: l) /\ is_cycle (named_edge d) (a :: l ++ [a]).
Proof.
  intros [Hn Hr _] Hc.
  destruct (join_found (dag_names d) (dag_edges d) (named_edge d) c) as (a & l & E & H);
    [done|unfold dag_names; by rewrite length_fmap|apply named_edge_spec|done|].
  exists a, l. split; [|done]. rewrite <- E. f_equal. apply omap_ext_in. intros x _. unfold dag_names, name_at.
  by rewrite list_lookup_fmap.
Qed.

(** [find_cycle_nodes], called where there is a cycle, names one. *)
Lemma find_cycle_spec d :
  dag_ok d -> ~ loop_free (dag_edges d) ->
  exists a l, find_cycle_nodes d = Some (join_names (a :: l)) /\ is_cycle (named_edge d) (a :: l ++ [a]).
Proof.
  intros Hd Hf. unfold find_cycle_nodes.
  pose proof (search_spec (successors (dag_edges d)) stack_from (length (dag_nodes d)) (dag_edges d)
    ltac:(by intros; apply successors_spec) (dag_range _ Hd) stack_reports) as Hs.
  destruct (search _ _ _) as [[c|]|]; try done. apply found_stack in Hs.
  destruct (dag_join d c Hd Hs) as (a & l & E & H). exists a, l. split; [|done]. rewrite <- E.
  by destruct Hs as (x & k & -> & _).
Qed.

(** What [build] makes of a graph. *)
Definition spec_of (d : Dag) (s : WorkflowSpec) : Prop :=
  node_names s = dag_names d /\
  ns_kind <$> spec_nodes s = rec_kind <$> dag_nodes d /\
  (fun e => (edge_from e, edge_to e)) <$> spec_edges s = dag_edge_names d /\
  length (spec_edges s) = length (dag_edges d).

Lemma spec_of_edge d s a b : spec_of d s -> spec_edge s a b <-> named_edge d a b.
Proof.
  intros (_ & _ & He & _). unfold spec_edge, named_edge. rewrite <- He, list_elem_of_fmap. split.
  - intros Hin. by exists (mkEdgeSpec a b).
  - intros ([a' b'] & [= -> ->] & Hin). done.
Qed.

Lemma dag_build_spec d name :
  dag_ok d -> 2 * Z.of_nat (length (dag_edges d)) <= u32_max ->
  match dag_build d name with
  | None => False
  | Some (Ok s) => dag_nodes d <> [] /\ (forall a, ~ tc (named_edge d) a a) /\
      WorkflowName_parse name = Ok (spec_name s) /\ spec_of d s
  | Some (Err DagEmptyWorkflow) => dag_nodes d = []
  | Some (Err (DagCycleDetected text)) =>
      exists a l, text = join_names (a :: l) /\ is_cycle (named_edge d) (a :: l ++ [a])
  | Some (Err (InvalidNodeName text)) =>
      text = name /\ dag_nodes d <> [] /\ (forall a, ~ tc (named_edge d) a a) /\
      exists e, WorkflowName_parse name = Err e
  | Some (Err _) => False
  end.
Proof.
  intros Hd Hlen. unfold dag_build. destruct (dag_nodes d) as [|r rs] eqn:En; [done|]. rewrite <- En.
  destruct (kahn_spec (length (dag_nodes d)) (dag_edges d) (dag_range _ Hd) Hlen) as (v & -> & Hv).
  destruct (decide (v <> length (dag_nodes d))) as [Hne|Heq].
  { destruct (find_cycle_spec d Hd) as (a & l & -> & H); [by intros H; apply Hv in H|]. cbn. eauto. }
  apply dec_stable in Heq. apply Hv in Heq. rewrite (dag_search_free d Hd) in Heq.
  assert (dag_nodes d <> []) as Hne by (by rewrite En).
  destruct (WorkflowName_parse name) as [wf|e]; [|by split_and!; try done; exists e].
  split_and!; try done. unfold spec_of, node_names, dag_names. cbn. rewrite <- !list_fmap_compose.
  split_and!; [done|done| |].
  - rewrite <- (list_fmap_id (dag_edge_names d)) at 2. apply list_fmap_ext. by intros ? [a b] _.
  - rewrite length_fmap. by apply named_edges_all.
Qed.

Lemma spec_of_valid d s :
  dag_ok d -> (forall a, ~ tc (named_edge d) a a) -> spec_of d s ->
  spec_validate s = Some (Ok tt) <-> NoDup (spec_edges s).
Proof.
  intros Hd Hf Hs. rewrite spec_validate_iff. split; [tauto|]. intros Hnd. pose proof (spec_of_edge d s) as He.
  split_and!.
  - destruct Hs as (-> & _). apply Hd.
  - done.
  - intros a b Hab. apply (He a b Hs), named_edge_spec in Hab as (i & j & Hl & Hi & Hj).
    destruct Hs as (-> & _). split_and!; [by eapply list_elem_of_lookup_2..|]. intros ->.
    rewrite (NoDup_lookup _ _ _ _ (dag_once _ Hd) Hi Hj) in Hl. by apply (dag_irrefl _ Hd) in Hl.
  - assert (forall a b, tc (spec_edge s) a b -> tc (named_edge d) a b) as Ht; [|intros a Ha; by apply (Hf a), Ht].
    intros a b. induction 1 as [a b H|a b c H _ IH]; apply (He a b Hs) in H; [by apply tc_once|by eapply tc_l].
Qed.

(** Searches that answer only whether there is a cycle, or which. *)
Lemma no_links_free (d : Dag) : dag_edges d = [] -> loop_free (dag_edges d).
Proof. intros -> x Hx. assert (exists y, link [] x y) as [y Hy] by (inversion Hx; eauto). by apply elem_of_nil in Hy. Qed.

Lemma has_cycle_spec d : dag_ok d -> exists b, has_cycle d = Some b /\ (b = false <-> loop_free (dag_edges d)).
Proof.
  intros Hd. unfold has_cycle. pose proof (no_links_free d) as H0. pose proof (dag_range _ Hd) as Hr.
  destruct (dag_edges d) as [|e es]; [exists false; split; [done|]; split; [intros _; by apply H0|done]|].
  pose proof (search_spec (successors (e :: es)) just_found (length (dag_nodes d)) (e :: es)
    ltac:(by intros; apply successors_spec) Hr ltac:(by eexists)) as Hs.
  destruct (search _ _ _) as [[c|]|]; [| |done]; cbn; eexists; (split; [done|]); [|by split].
  split; [done|]. intros Hf. destruct Hs as (stack & x & last & _ & Hnd & Hx & Hl & Hc). exfalso.
  destruct (stack_cycle _ stack last x Hnd Hx Hl Hc) as (c' & _ & _ & Hcyc). by apply cycle_of_not_free in Hcyc.
Qed.

Lemma dag_validate_spec d :
  dag_ok d ->
  match dag_validate d with
  | None => False
  | Some (Ok _) => loop_free (dag_edges d)
  | Some (Err path) => is_cycle (named_edge d) path
  end.
Proof.
  intros Hd. unfold dag_validate. pose proof (no_links_free d) as H0. destruct (dag_edges d) as [|e es] eqn:E; [by apply H0|].
  rewrite <- E. pose proof (search_spec (successors (dag_edges d)) closed_from (length (dag_nodes d)) (dag_edges d)
    ltac:(by intros; apply successors_spec) (dag_range _ Hd) closed_reports) as Hs.
  destruct (search _ _ _) as [[c|]|]; [|done|done]. cbn.
  apply found_closed in Hs as (x & l & -> & Hw).
  assert (x < length (dag_names d))%nat as Hx.
  { unfold dag_names. rewrite length_fmap. destruct l; destruct Hw as [Hxy _]; by destruct (dag_range _ Hd _ _ Hxy). }
  assert (in_range (length (dag_names d)) (dag_edges d)) as Hr.
  { unfold dag_names. rewrite length_fmap. apply Hd. }
  destruct (renamed_walk (dag_names d) (dag_edges d) (named_edge d) Hr (named_edge_spec d) x _ Hx Hw) as (a & Ha & Hwa & _).
  assert (forall l : list nat, omap (name_at d) l = omap (fun i => dag_names d !! i) l) as Ho.
  { intros l'. apply omap_ext_in. intros y _. unfold dag_names, name_at. by rewrite list_lookup_fmap. }
  rewrite Ho. cbn. rewrite Ha. rewrite omap_app in *. cbn in *. rewrite Ha in *.
  eexists a, _. split; [done|done].
Qed.

(** *** What is drawn

    The graph that a list of calls describes, read off the calls: the first addition of a name
    that parses puts a node, and a connection of two different nodes that are there puts a link. *)

Definition Drawing : Type := list (NodeName * NodeKind) * list (NodeName * NodeName).
Definition draw (g : Drawing) (c : BuilderCall) : Drawing :=
  match c with
  | CallAdd s kind _ =>
      match NodeName_parse s with
      | Ok n => if decide (n ∈ g.1.*1) then g else (g.1 ++ [(n, kind)], g.2)
      | Err _ => g
      end
  | CallConnect a b =>
      if decide (a <> b /\ a ∈ g.1.*1 /\ b ∈ g.1.*1) then (g.1, g.2 ++ [(a, b)]) else g
  end.
Definition drawn (cs : list BuilderCall) : Drawing := foldl draw ([], []) cs.
Definition joined (links : list (NodeName * NodeName)) (a b : NodeName) : Prop := (a, b) ∈ links.

(** The builder holds the drawing. *)
Definition node_pairs (d : Dag) : list (NodeName * NodeKind) := (fun r => (rec_name r, rec_kind r)) <$> dag_nodes d.
Record holds_drawing (b : WorkflowBuilder) (g : Drawing) : Prop := {
  hd_ok : dag_ok (builder_dag b);
  hd_nodes : node_pairs (builder_dag b) = g.1;
  hd_links : dag_edge_names (builder_dag b) = g.2;
  hd_registered : forall n, n ∈ registered b <-> n ∈ g.1.*1;
}.

Lemma pairs_names d : (node_pairs d).*1 = dag_names d.
Proof. unfold node_pairs, dag_names. by rewrite <- list_fmap_compose. Qed.

Definition names_of (names : list NodeName) (es : Links) : list (NodeName * NodeName) :=
  omap (fun e => match names !! e.1, names !! e.2 with Some a, Some b => Some (a, b) | _, _ => None end) es.

Lemma dag_edge_names_of d : dag_edge_names d = names_of (dag_names d) (dag_edges d).
Proof.
  unfold dag_edge_names, names_of. apply omap_ext_in. intros e _. unfold name_at, dag_names.
  by rewrite !list_lookup_fmap.
Qed.

Lemma names_of_grow names l es : in_range (length names) es -> names_of (names ++ l) es = names_of names es.
Proof.
  intros Hr. apply omap_ext_in. intros [x y] Hin. destruct (Hr x y Hin).
  cbn. by rewrite !lookup_app_l.
Qed.

Lemma find_index_known d n : n ∈ dag_names d -> exists i, find_index d n = Ok i.
Proof.
  intros Hn. unfold find_index. apply list_elem_of_fmap in Hn as (r & -> & Hr).
  destruct (list_find_elem_of (fun r' => rec_name r' = rec_name r) _ r Hr eq_refl) as [[i r'] ->]. by exists i.
Qed.

Lemma set_meta_pairs meta d : node_pairs (set_signal_meta meta d) = node_pairs d.
Proof.
  unfold set_signal_meta. destruct (last (dag_nodes d)) as [r|] eqn:El; [|done].
  apply last_Some in El as [l El]. unfold node_pairs.
  destruct (rec_kind r) eqn:Ek; try done; cbn; by rewrite El, removelast_last, !fmap_app; cbn; rewrite Ek.
Qed.

Lemma set_meta_links meta d : dag_edge_names (set_signal_meta meta d) = dag_edge_names d.
Proof. rewrite !dag_edge_names_of. by destruct (set_meta_names meta d) as [-> ->]. Qed.

Lemma dag_known d n : existsb (fun r => bool_decide (rec_name r = n)) (dag_nodes d) = bool_decide (n ∈ dag_names d).
Proof.
  symmetry. unfold dag_names. destruct (existsb _ _) eqn:E.
  - apply existsb_exists in E as (r & Hr & Hn). apply bool_decide_eq_true in Hn. apply bool_decide_eq_true.
    apply list_elem_of_fmap. exists r. split; [done|]. by apply list_elem_of_In.
  - apply bool_decide_eq_false. intros (r & -> & Hr)%list_elem_of_fmap.
    rewrite <- Bool.not_true_iff_false in E. apply E, existsb_exists. exists r.
    split; [by apply list_elem_of_In|]. by apply bool_decide_eq_true.
Qed.

(** Each call draws, and is accepted when it does. *)
Lemma add_draws s kind meta b g :
  holds_drawing b g ->
  holds_drawing (builder_add s kind meta b).2 (draw g (CallAdd s kind meta)) /\
  (forall n, (builder_add s kind meta b).1 = Ok n <-> NodeName_parse s = Ok n /\ n ∉ g.1.*1).
Proof.
  intros [Hok Hn Hl Hreg]. pose proof (add_node_ok s kind _ Hok) as Hok'. revert Hok'. cbn.
  unfold builder_add, add_node_with_kind. destruct (NodeName_parse s) as [nn|e]; cbn.
  2:{ intros _. split; [done|]. intros n. split; [done|by intros [? _]]. }
  rewrite dag_known, <- pairs_names, Hn. destruct (decide (nn ∈ g.1.*1)) as [Hin|Hin].
  { rewrite decide_True by (by apply Hreg). cbn. intros _. split; [done|].
    intros n. split; [done|]. by intros [[= ->] ?]. }
  rewrite decide_False by (by rewrite Hreg). rewrite bool_decide_eq_false_2 by done. cbn. intros Hok'.
  split; [|intros n; split; [intros [= <-]; done|by intros [[= <-] _]]].
  set (d := mkDag _ _) in *.
  assert (node_pairs d = g.1 ++ [(nn, kind)]) as Hp.
  { unfold d, node_pairs. cbn. rewrite fmap_app. f_equal. exact Hn. }
  assert (dag_edge_names d = g.2) as He.
  { rewrite <- Hl, !dag_edge_names_of. unfold d at 1, dag_names. cbn. rewrite fmap_app.
    apply names_of_grow. rewrite length_fmap. apply Hok. }
  assert (forall n, n ∈ {[nn]} ∪ registered b <-> n ∈ (g.1 ++ [(nn, kind)]).*1) as Hr.
  { intros n. rewrite fmap_app, elem_of_app, elem_of_union, elem_of_singleton, Hreg. cbn.
    rewrite list_elem_of_singleton. tauto. }
  destruct meta as [m|]; split; cbn; try done.
  - by apply set_meta_ok.
  - by rewrite set_meta_pairs.
  - by rewrite set_meta_links.
Qed.

Lemma connect_draws x y b g :
  holds_drawing b g ->
  holds_drawing (builder_connect x y b).2 (draw g (CallConnect x y)) /\
  ((builder_connect x y b).1 = Ok tt <-> x <> y /\ x ∈ g.1.*1 /\ y ∈ g.1.*1).
Proof.
  intros [Hok Hn Hl Hreg]. pose proof (connect_ok x y _ Hok) as Hok'. revert Hok'. cbn.
  assert (forall z, z ∈ g.1.*1 <-> exists i, find_index (builder_dag b) z = Ok i) as Hk.
  { intros z. rewrite <- Hn, pairs_names. split; [apply find_index_known|].
    intros (i & Hi). apply find_index_spec in Hi as [_ Hi]. by eapply list_elem_of_lookup_2. }
  unfold builder_connect, connect. destruct (decide (x = y)) as [->|Hne].
  { cbn. intros _. rewrite decide_False by tauto. split; [done|]. split; [done|tauto]. }
  destruct (find_index (builder_dag b) x) as [i|e] eqn:Ei; cycle 1.
  { intros _. cbn. assert (x ∉ g.1.*1) by (rewrite Hk; by intros []; congruence). rewrite decide_False by tauto.
    split; [done|]. split; [done|tauto]. }
  destruct (find_index (builder_dag b) y) as [j|e] eqn:Ej; cycle 1.
  { intros _. cbn. assert (y ∉ g.1.*1) by (rewrite Hk; by intros []; congruence). rewrite decide_False by tauto.
    split; [done|]. split; [done|tauto]. }
  cbn. intros Hok'. assert (x ∈ g.1.*1) as Hx by (apply Hk; eauto). assert (y ∈ g.1.*1) as Hy by (apply Hk; eauto).
  rewrite decide_True by done. split; [|done].
  apply find_index_spec in Ei as [_ Ni]. apply find_index_spec in Ej as [_ Nj].
  split; cbn [fst snd builder_dag registered]; try done. rewrite <- Hl, (dag_edge_names_of (builder_dag b)), (dag_edge_names_of (mkDag _ _)).
  unfold names_of, dag_names in *. cbn [dag_nodes dag_edges]. rewrite omap_app. f_equal. cbn. by rewrite Ni, Nj.
Qed.

Lemma builder_drawing name cs : holds_drawing (builder_after name cs) (drawn cs).
Proof.
  induction cs as [|c cs IH] using rev_ind; unfold builder_after, drawn in *.
  - split; cbn; [|done|done|]; [|intros n; rewrite elem_of_empty, elem_of_nil; done].
    exact (proj1 (builder_after_ok name [])).
  - rewrite !foldl_app. cbn. destruct c as [s kind meta|x y]; [by apply add_draws|by apply connect_draws].
Qed.

Lemma pairs_of_columns {A B C D} (f : A -> C) (g : A -> D) (f' : B -> C) (g' : B -> D) (l : list A) : forall l' : list B,
  f <$> l = f' <$> l' -> g <$> l = g' <$> l' -> (fun x => (f x, g x)) <$> l = (fun x => (f' x, g' x)) <$> l'.
Proof. induction l as [|x l IH]; intros [|y l']; cbn; intros H1 H2; simplify_eq; f_equal; [congruence|by apply IH]. Qed.



Module SdkWitness.
Definition demo : list BuilderCall :=
  match NodeName_parse "fetch", NodeName_parse "store" with
  | Ok f, Ok s => [CallAdd "fetch" KPure None; CallAdd "store" KSignal (Some (mkSignalMeta (Some "go") None)); CallConnect f s]
  | _, _ => []
  end.
Lemma demo_short : 2 * Z.of_nat (length demo) <= u32_max.
Proof. vm_compute. discriminate. Qed.
Lemma demo_builds : match builder_build (builder_after "demo" demo) with Some (Ok _) => true | _ => false end = true.
Proof. vm_compute. reflexivity. Qed.

(** A connection made twice is accepted, and built; the specification is neither valid nor
    readable. *)
Definition built (cs : list BuilderCall) : option WorkflowSpec :=
  match builder_build (builder_after "demo" cs) with Some (Ok s) => Some s | _ => None end.
Definition twice : list BuilderCall := demo ++ drop 2 demo.
Example connected_twice :
  match built twice with
  | Some s =>
      match spec_validate s, spec_read s with
      | Some (Err (VDuplicateEdge a b)), Some (Err (ReadDuplicateEdge a' b')) =>
          (node_name_str a, node_name_str b, node_name_str a', node_name_str b') = ("fetch", "store", "fetch", "store")
      | _, _ => False
      end
  | None => False
  end.
Proof. vm_compute. reflexivity. Qed.

(** A cycle through a node that the specification does not have is not seen: the graph is
    written. *)
Definition stray : option WorkflowSpec :=
  match built demo, NodeName_parse "fetch", NodeName_parse "other" with
  | Some s, Ok f, Ok x =>
      Some (mkSpec (spec_name s) (take 1 (spec_nodes s)) [mkEdgeSpec f x; mkEdgeSpec x f] (spec_guarantee s))
  | _, _, _ => None
  end.
Example stray_cycle_emitted :
  match stray with
  | Some s => emit_graph_if_requested true ["flow"; "--graph"] s = Some (ExitEmitted s) /\ ~ spec_acyclic s
  | None => False
  end.
Proof.
  destruct stray as [s|] eqn:E; [|by vm_compute in E]. split.
  - assert (stray = Some s -> emit_graph_if_requested true ["flow"; "--graph"] s = Some (ExitEmitted s)) as H; [|by apply H].
    clear E. intros E. unfold stray in E. vm_compute in E. injection E as <-. vm_compute. reflexivity.
  - unfold stray in E. destruct (built demo) as [s0|]; [|done]. destruct (NodeName_parse "fetch") as [f|]; [|done].
    destruct (NodeName_parse "other") as [x|]; [|done]. injection E as <-. intros H. apply (H f).
    apply tc_l with x; [|apply tc_once]; unfold spec_edge; cbn; set_solver.
Qed.

(** A name that is taken is reported as one that is invalid; the graph itself would say so. *)
Example taken_is_invalid :
  (builder_add "fetch" KPure None (builder_after "demo" demo)).1 = Err (InvalidNodeName "fetch") /\
  (add_node_with_kind "fetch" KPure (builder_dag (builder_after "demo" demo))).1 = Err (DuplicateNodeName "fetch").
Proof. split; vm_compute; reflexivity. Qed.

(** A specification with two nodes of one name can be read, though [validate] refuses it. *)
Definition doubled (s : WorkflowSpec) : WorkflowSpec :=
  mkSpec (spec_name s) (spec_nodes s ++ take 1 (spec_nodes s)) (spec_edges s) (spec_guarantee s).
Example reads_duplicate_names :
  match built demo with
  | Some s =>
      match spec_validate (doubled s), spec_read (doubled s) with
      | Some (Err (VDuplicateNodeName a)), Some (Ok s') =>
          node_name_str a = "fetch" /\ length (spec_nodes s') = 3%nat
      | _, _ => False
      end
  | None => False
  end.
Proof. vm_compute. split; reflexivity. Qed.

(** The error of [Dag::validate] shows the first node of the cycle twice at its end. *)
Definition circular : list BuilderCall :=
  match NodeName_parse "fetch", NodeName_parse "store" with
  | Ok f, Ok s => demo ++ [CallConnect s f]
  | _, _ => []
  end.
Example cycle_shown :
  match dag_validate (builder_dag (builder_after "demo" circular)) with
  | Some (Err path) => cycle_error_text path = "fetch -> store -> fetch -> fetch"
  | _ => False
  end.
Proof. vm_compute. reflexivity. Qed.

(** [find_executable_node] finds a node that is not executable. *)
Example finds_any_node :
  match built demo with
  | Some s => match find_executable_node s "store" with Ok n => is_node_executable n = false | Err _ => False end
  | None => False
  end.
Proof. vm_compute. reflexivity. Qed.

Lemma demo_checked :
  match built demo with
  | Some s => bool_decide (NoDup (node_names s)) && (2 * Z.of_nat (length (spec_edges s)) <=? u32_max) = true
  | None => False
  end.
Proof. vm_compute. reflexivity. Qed.
End SdkWitness.
